(* ===== verification/_CoqProject ===== *)
-Q . S2P
Prelude.v
Float64.v
Value.v
Json.v
JsonTheory.v
Duration.v
Path.v
Schema.v
Rules.v
Coerce.v
Passthrough.v
Ops.v
Convert.v
OpsTheory.v
RoundTrip.v
Diagnostics.v
Compile.v
CompileTheory.v
PlanTheory.v
EndToEnd.v
Normalize.v
NormalizeTheory.v
Platform.v
Required.v
Analyze.v
AnalyzeTheory.v
StrategyTheory.v
Assign.v
AssignProperties.v
Api.v
Rehub.v
RehubTheory.v
RehubPlan.v
Registry.v
RegistryTheory.v
Adapters.v
Configs.v
Replica.v
ReplicaTheory.v
Encoding.v
ServedTargets.v
Rollout.v
Workloads.v
Patches.v
Guard.v
Propagation.v
Controller.v
ControllerTheory.v
Server.v
Admission.v
ServerController.v
AdmissionTheory.v
Fanout.v
Pool.v
Migrate.v
Sampling.v
Retarget.v
Compat.v
Lifecycle.v
Testing.v
Fuzz.v
Authoring.v
Fixtures.v
CompilerProperties.v
ConversionProperties.v
StrategyProperties.v
ValueProperties.v
RehubProperties.v
ReplicaProperties.v
HandoverProperties.v
AdmissionProperties.v
RolloutProperties.v
ControllerFixtures.v
ControllerProperties.v
GuardProperties.v
ServerProperties.v
WebhookServerProperties.v
MigrateProperties.v
CliProperties.v
Findings.v
