(* ===== verification/Prelude.v ===== *)
(** * The declarative-conversion-operator

    The operator converts Kubernetes custom resources between API versions from
    declarative rules.  A config names a hub version, spoke versions and, per
    spoke, a list of conversion rules.  The engine compiles the rules of each
    hub/spoke pair into a plan, refusing a rule set that would lose data silently;
    webhook-server replicas keep the compiled plans in a registry and answer the
    API server's ConversionReviews with them; an assignment decides which server
    serves which config.

    ** How the parts interact

    [Analyze] (engine) reads the version schemas of a target from a schema source
    (an adapter over a CRD or an XRD), normalises them, compiles each rule set and
    adds the platform and required-field checks to the report.  A replica's
    reconcile translates the config's API rules to engine rules, analyses the
    target, and installs the plans in the registry; an analysis with errors keeps
    the entry that is there.  A ConversionReview looks the target up in the
    registry and runs each object through the router: to the hub, then from it.
    Assignment decides what a replica reconciles; when a server changes, the
    fan-out enqueues the configs it gains or loses, and a replica drains a target
    that moved away before it drops it.  Each replica publishes the targets it can
    serve in a Lease, and the operator moves a target to another server only when
    all its ready replicas report it.  Admission refuses configs the analysis would
    refuse, ambiguous fleets and the deletion of a server that still serves.
    The controllers act on the cluster.  A config's controller analyses it, waits
    for its server to be ready and, for a target that moves, for the handover;
    then it applies the stanza that points the target's spec.conversion at the
    server's Service, and takes it back before it lets the config go; the guard
    restores the stanza when somebody's write drops it, and the propagation check
    compares it with what the generated CRDs carry.  A server's controller applies
    the certificate, Service, Deployment, autoscaler and disruption budget it runs
    as, and reports what the config controllers' gates read.
    Rehubbing rewrites a config's rules when a spoke is promoted to hub.

    ** The files, by part of the program

    - Foundations.  Prelude: the error monad, the monad of a pass that emits
      events and may return early, list, string and map lemmas, notation, hints.  Float64: Go's float64 over [spec_float], with
      formatting and parsing.  Value, Json, JsonTheory: unstructured values,
      encoding/json.  Duration: time.Duration.
    - Paths and schemas (pkg/engine/path.go, schema.go, normalize.go): Path;
      Schema; Normalize and NormalizeTheory.
    - Rules and operations (rules.go, coerce.go, passthrough.go, ops.go,
      mapkeyrename.go, k8sunits.go, cel.go, plan.go, convert.go): Rules, Coerce,
      Passthrough, Ops, Convert.  OpsTheory: every operation is a list of writes
      the input determines; RoundTrip, StrategyTheory: pairs of operations;
      PlanTheory: whole plans.
    - Compiler and analyzer (diagnostics.go, compile.go, platform.go,
      required.go, analyze.go): Diagnostics, Compile (the resolvers in a state
      monad of claims and diagnostics), Platform, Required, Analyze.
      CompileTheory, EndToEnd, AnalyzeTheory: what they guarantee.
    - API (api/v1alpha1): Api (the rule types and their translation,
      xrdconversionconfig_convert.go), Configs (the two config kinds, their status
      and condition lists), Rehub with RehubTheory and RehubPlan
      (rehub.go), Rollout (extra_args.go, rollout_validation.go).
    - Assignment (internal/assign): Assign.
    - Schema sources (pkg/crdadapter, pkg/xrdadapter): Adapters.
    - Webhook server (internal/webhookserver): Registry and RegistryTheory
      (registry.go), Replica and ReplicaTheory (reconciler.go, handover.go),
      Server (server.go).
    - Fan-out (internal/controller/cws_fanout.go, internal/enqueue/paced.go,
      the maps of reconciler.go): Fanout.
    - Served targets (internal/servedtargets, webhookserver/publisher.go,
      controller/servedtargets.go): ServedTargets, over Encoding
      (encoding/base64, crypto/sha256).
    - Controllers (internal/controller, internal/conversionpatch): Patches
      (conversionpatch.go); Controller and ControllerTheory, one pass written once
      over a class of config kinds (xrdconversionconfig_controller.go,
      crdconversionconfig_controller.go, finalizers.go); Propagation
      (propagation.go); Workloads and ServerController
      (conversionwebhookserver_controller.go, naming.go).
    - Admission (internal/webhook): Admission and AdmissionTheory; Guard
      (xrd_conversion_guard.go).
    - Command line (internal/cli): Pool, a worker pool step by step; Migrate
      (migratestorage.go); Sampling (sampling.go, live.go); Retarget (retarget.go);
      Compat (compat.go, engine_run.go); Lifecycle (versions.go, plan.go); Testing
      (diff.go, test.go, outputvalidation.go, golden.go, report.go); Fuzz (fuzz.go);
      Authoring (suggest.go, configdiff.go).
    - Fixtures, ControllerFixtures: concrete inputs for witnesses.

    ** What the theorems show

    - CompilerProperties: a set of unconditional renames that compiles converts
      there and back without loss; a plan in a report comes from a clean analysis of
      its pair; every schema leaf whose dotted text is its own is owned by a rule,
      copied or reported; no path has two owners (what each strategy owns, JSONPatch
      pointers and whole objects included, is [rule_claims] in CompileTheory); losses
      need an acknowledgement; ForEach nesting is bounded; an object converted by
      renames the required-field check accepts, conditional ones included, holds the
      fields the other version requires; the analysis terminates.
    - ConversionProperties: running a plan (faithful round trips, frame, order
      independence, the undeclared fields carried over).
    - StrategyProperties: each pair of operations the compiler emits.
    - ValueProperties: paths, schemas, normalisation, coercion.
    - AssignProperties, Fanout: the assignment is the rendezvous owner,
      the same for every party, moves configs only to a new server, and each
      config a change moves is enqueued.
    - ReplicaProperties: the concurrent registry refines the atomic one and never
      blocks a reader; a plan is served until its target is released and dropped
      when its drain is over; the initial pass may run in any order; no plan is
      missing.
    - ServerProperties: a review is answered whole or not at all, and losses are
      counted when they are delivered.
    - RehubProperties, RolloutProperties: promotion and the admission of server
      settings.
    - HandoverProperties: a target moves only to a server all of whose live, ready
      replicas report it, or whose replicas have reported nothing for long enough.
    - AdmissionProperties: structural validation accepts exactly the well-formed
      configs; an admitted fleet resolves every config unambiguously; a deletion
      strands no config; admission and the replica agree on every config.
    - ControllerProperties: a stanza is applied only with every gate open; the
      phase and URL of a status tell which patch was sent last, and to which target,
      in every reachable state; a ready cluster is applied in one pass; deletion
      takes back what the status records as applied first; a failed pass leaves the
      status as it was.
    - GuardProperties: the guard restores exactly the stanza
      the controller applies, and only on its own targets; the propagation
      condition is true exactly when every generated CRD carries the stanza.
    - WebhookServerProperties: the Service a stanza names selects the pods and
      forwards to the port they listen on; a server reported ready has a CA bundle
      to read; an admitted drain fits its pod, for arguments in the usual form and
      in range; deleting a server strands no config;
      a pass stops at its first error.
    - MigrateProperties: a storage version is pruned only after every object was
      rewritten in the new one; a clean exit means that all were; the schedule of
      the workers changes neither the objects nor the report; a run that tests fewer
      objects than were listed says so.
    - CliProperties: the compatibility gate reports and blocks on exactly the
      classes that apply (a rule removed being an index that is gone); the
      gate on un-serving a version opens exactly on complete evidence that it is
      unused; a plan offers one step at a time, and none exactly when nothing is left
      to do; a test that passes lost no field, and changed no scalar but numbers that
      are one float64; replaying a golden corpus reports exactly what changed;
      retargeting changes the machinery fields and nothing else, and on the patched
      objects a second run has nothing to do; the objects the fuzzer generates fit
      the schema where its bounds leave the generator room; the rules suggested are a
      stable matching; a diff of two configs
      is empty exactly when their analyses agree; the workers' schedule is irrelevant.
    - Findings: concrete inputs on which the code, or its documentation, promises more than it does.

    ** Modelling choices

    Go values are immutable here: maps are [gmap]s, structs records, pointers
    options.  Sharing is modelled where it matters, in Registry (an atomic pointer,
    map objects and entries in a heap, one step per memory access).  A Go map's
    iteration order is the parameter [RangeOrder] of the definitions that iterate;
    a theorem holds for every order.  Error and message texts are constructors
    with the operands they format.  A nil schema is the empty object schema, and a
    nil map the empty map.  The reads of one reconcile are an input, a view or a
    world, each read made once; so are the answers to its writes, and time.  A pass
    yields the events it causes, in order, and its result.

    Code outside the repository is a parameter: [Externs] and [CompileExterns]
    (regexp, text/template, json-patch, CEL, resource.Quantity, label validation),
    [MathLog] (math.Log), [Unstructured] with its laws (apimachinery's accessors),
    [Gzip] with its laws (compress/gzip), [ConditionOps] with its laws (condition
    lists), [UnstructuredEdits] with its laws, [NetURL] with its law (net/url),
    [ApplyTypes] with its law (conversion to apply configurations, owners,
    quantities), [RandSource] and [RandMore] with their laws (math/rand),
    [StringMaps] with its laws (NestedStringMap), [UnicodeTables] (unicode),
    [SchemaValidation] (the schema validator of
    apiextensions), [YAML] (sigs.k8s.io/yaml); git show, strconv.Quote and IsNotFound
    are arguments.

    Fuel.  [NormalizeSchema] takes fuel for the chain of references; NormalizeTheory
    shows a bound for every schema and that more fuel changes nothing.
    [ParseDuration] runs with the length of its text, the loops over container
    arguments with the number of arguments: each turn consumes one.  ForEach and
    BranchMap nest to [MaxForEachDepth] = 2, the code's own bound.  Integers are
    [Z] with the code's width written out where it can overflow (int64 durations
    and conversions, 64-bit FNV).

    ** Not modelled

    Panics and the recovery from them (the definitions are total; Fuzz has the panic of
    an empty random range), tracing,
    logging, durations in metrics; the decoding of an HTTP body; the CEL cost
    limits; muxes, certificate reloading, informer caches, the publisher's timer
    loop; the registration of watches and the field-indexed maps; constant
    security contexts; metric registration; generated deep copies.  Of the command
    line: cobra, printing, git, file and kubeconfig plumbing, the hashes in a corpus
    manifest, a corpus directory that cannot be listed, and the commands that only call what is modelled here.
*)
From stdpp Require Export base gmap strings list fin_maps sorting pretty.
From Stdlib Require Import Ascii.

(** * The error monad

    A Go function that returns [(T, error)] is a function into [res E T];
    [x ← m; k] is the usual [if err != nil { return ..., err }]. *)
Inductive res (E A : Type) : Type :=
| Ok (a : A)
| Err (e : E).
Arguments Ok {E A} _.
Arguments Err {E A} _.

#[export] Instance res_ret {E} : MRet (res E) := λ A a, Ok a.
#[export] Instance res_bind {E} : MBind (res E) :=
  λ A B f m, match m with Ok a => f a | Err e => Err e end.
#[export] Instance res_fmap {E} : FMap (res E) :=
  λ A B f m, match m with Ok a => Ok (f a) | Err e => Err e end.
#[export] Instance res_eq_dec `{EqDecision E, EqDecision A} : EqDecision (res E A).
Proof. solve_decision. Defined.

(** [fmt.Errorf("...: %w", err)]: wrap the error, keep the value. *)
Definition res_wrap {E E' A} (w : E → E') (m : res E A) : res E' A :=
  match m with Ok a => Ok a | Err e => Err (w e) end.

(** [res_ok m] is [err == nil]. *)
Definition res_ok {E A} (m : res E A) : bool :=
  match m with Ok _ => true | Err _ => false end.

(** A [for range] loop over a slice whose body may return an error. *)
Fixpoint res_foldl {E A B} (f : B → A → res E B) (b : B) (l : list A) : res E B :=
  match l with
  | [] => Ok b
  | a :: l => b' ← f b a; res_foldl f b' l
  end.

(** The same loop building a slice, one result per element. *)
Fixpoint res_mapM {E A B} (f : A → res E B) (l : list A) : res E (list B) :=
  match l with
  | [] => Ok []
  | a :: l => b ← f a; bs ← res_mapM f l; Ok (b :: bs)
  end.

Lemma res_bind_Ok {E A B} (m : res E A) (f : A → res E B) b :
  (m ≫= f) = Ok b ↔ ∃ a, m = Ok a ∧ f a = Ok b.
Proof. destruct m; cbn; naive_solver. Qed.

Lemma res_bind_Err {E A B} (m : res E A) (f : A → res E B) e :
  (m ≫= f) = Err e ↔ m = Err e ∨ ∃ a, m = Ok a ∧ f a = Err e.
Proof. destruct m; cbn; naive_solver. Qed.

Section res_lemmas.
Context {E A B : Type}.

Lemma res_wrap_Ok {E'} (w : E → E') (m : res E A) a :
  res_wrap w m = Ok a ↔ m = Ok a.
Proof. destruct m; cbn; naive_solver. Qed.

Lemma res_foldl_app (f : B → A → res E B) b l1 l2 :
  res_foldl f b (l1 ++ l2) = (b' ← res_foldl f b l1; res_foldl f b' l2).
Proof.
  revert b; induction l1 as [|a l1 IH]; intros b; [done|]; cbn.
  destruct (f b a); cbn; [apply IH|done].
Qed.

(** A loop invariant of a successful [res_foldl]. *)
Lemma res_foldl_inv (P : B → Prop) (f : B → A → res E B) b l b' :
  (∀ x a x', a ∈ l → P x → f x a = Ok x' → P x') →
  P b → res_foldl f b l = Ok b' → P b'.
Proof.
  revert b; induction l as [|a l IH]; intros b Hf Hb; cbn; [naive_solver|].
  intros (b1 & Hb1 & Hl)%res_bind_Ok.
  eapply IH; [|by eapply Hf; [left|..]|done]; intros; eapply Hf; [by right|..]; eauto.
Qed.

Lemma res_foldl_ext (f g : B → A → res E B) b l :
  (∀ x a, a ∈ l → f x a = g x a) → res_foldl f b l = res_foldl g b l.
Proof.
  revert b; induction l as [|a l IH]; intros b Hf; [done|]; cbn.
  rewrite (Hf b a) by set_solver. destruct (g b a); cbn; [|done].
  apply IH; intros; apply Hf; set_solver.
Qed.

Lemma res_mapM_Forall2 (f : A → res E B) l k :
  res_mapM f l = Ok k ↔ Forall2 (λ a b, f a = Ok b) l k.
Proof.
  revert k; induction l as [|a l IH]; intros k; cbn.
  { split; [by intros [= <-]|by inversion 1]. }
  rewrite res_bind_Ok; split.
  - intros (b & Hb & Hk). apply res_bind_Ok in Hk as (bs & Hbs & [= <-]).
    constructor; [done|by apply IH].
  - inversion 1 as [|? b ? bs Hb Hbs]; subst. exists b; split; [done|].
    apply IH in Hbs. by rewrite Hbs.
Qed.

Lemma res_mapM_length (f : A → res E B) l k :
  res_mapM f l = Ok k → length k = length l.
Proof. intros H%res_mapM_Forall2. symmetry. by eapply Forall2_length. Qed.

Lemma res_mapM_ok_all (f : A → res E B) l :
  (∀ a, a ∈ l → ∃ b, f a = Ok b) → ∃ k, res_mapM f l = Ok k.
Proof.
  induction l as [|a l IH]; intros H; cbn; [by eexists|].
  destruct (H a) as [b Hb]; [set_solver|].
  destruct IH as [k Hk]; [set_solver|].
  rewrite Hb; cbn. rewrite Hk; cbn. by eexists.
Qed.
End res_lemmas.

Lemma res_mapM_ext {E A B} (f g : A → res E B) l :
  (∀ a, a ∈ l → f a = g a) → res_mapM f l = res_mapM g l.
Proof.
  induction l as [|a l IH]; intros Hf; [done|]; cbn.
  rewrite (Hf a) by set_solver. destruct (g a); cbn; [|done].
  rewrite IH; [done|set_solver].
Qed.

(** Invert every successful bind in the context. *)
Ltac simplify_res :=
  repeat match goal with
  | H : (_ ≫= _) = Ok _ |- _ => apply res_bind_Ok in H as (? & ? & ?)
  | H : mbind _ _ = Ok _ |- _ => apply res_bind_Ok in H as (? & ? & ?)
  | H : res_wrap _ _ = Ok _ |- _ => apply res_wrap_Ok in H
  | H : Ok _ = Ok _ |- _ => injection H as H; try subst
  | H : Err _ = Ok _ |- _ => discriminate H
  | H : Ok _ = Err _ |- _ => discriminate H
  end; simplify_eq.

(** Membership in a concatenation. *)
Lemma elem_of_concat {A} (x : A) (ls : list (list A)) :
  x ∈ concat ls ↔ ∃ l, l ∈ ls ∧ x ∈ l.
Proof.
  induction ls as [|l ls IH]; cbn.
  - split; [by intros ?%not_elem_of_nil|]. by intros (? & ?%not_elem_of_nil & _).
  - rewrite elem_of_app, IH. setoid_rewrite elem_of_cons. naive_solver.
Qed.

(** * Ranging over a Go map

    [for k, v := range m] visits the entries of [m] in an order the language
    leaves unspecified.  Every definition in this development that ranges over
    a map takes that order as the class parameter [RangeOrder]; a theorem that
    holds for every instance holds for whatever order the runtime picks. *)
Class RangeOrder := {
  range : ∀ {A}, gmap string A → list (string * A);
  range_perm : ∀ {A} (m : gmap string A), range m ≡ₚ map_to_list m;
}.

(** A concrete order, for evaluating definitions on concrete inputs. *)
Definition canonical_order : RangeOrder :=
  {| range := λ A m, map_to_list m; range_perm := λ A m, Permutation_refl _ |}.

(** Another one, used to show results do not depend on the order. *)
Definition reversed_order : RangeOrder.
Proof.
  refine {| range := λ A m, reverse (map_to_list m) |}.
  intros A m. apply reverse_Permutation.
Defined.

Section range_lemmas.
Context `{RO : RangeOrder} {A : Type}.
Implicit Types m : gmap string A.

Lemma elem_of_range m k v : (k, v) ∈ range m ↔ m !! k = Some v.
Proof. rewrite range_perm. apply elem_of_map_to_list. Qed.

Lemma NoDup_range_fst m : NoDup (range m).*1.
Proof. rewrite range_perm. apply NoDup_fst_map_to_list. Qed.

Lemma NoDup_range m : NoDup (range m).
Proof. rewrite range_perm. apply NoDup_map_to_list. Qed.

Lemma range_empty : range (∅ : gmap string A) = [].
Proof.
  apply Permutation_nil_r. rewrite range_perm. by rewrite map_to_list_empty.
Qed.

Lemma length_range m : length (range m) = size m.
Proof. rewrite range_perm. apply length_map_to_list. Qed.

Lemma list_to_map_range m : list_to_map (range m) = m.
Proof.
  rewrite <-(list_to_map_to_list m) at 2.
  apply list_to_map_proper; [apply NoDup_range_fst|apply range_perm].
Qed.
End range_lemmas.

(** * Strings *)

(** [sort.Strings]: Go compares strings bytewise. *)
Definition sort_strings : list string → list string := merge_sort String.le.

Lemma sort_strings_perm l : sort_strings l ≡ₚ l.
Proof. apply merge_sort_Permutation. Qed.

Lemma sort_strings_sorted l : StronglySorted String.le (sort_strings l).
Proof. apply (StronglySorted_merge_sort String.le). Qed.

Lemma sort_strings_unique l1 l2 : l1 ≡ₚ l2 → sort_strings l1 = sort_strings l2.
Proof.
  intros Hp. apply (StronglySorted_unique String.le);
    [apply sort_strings_sorted..|]. by rewrite !sort_strings_perm.
Qed.

Lemma elem_of_sort_strings l x : x ∈ sort_strings l ↔ x ∈ l.
Proof. by rewrite sort_strings_perm. Qed.

(** Go's [a < b] on strings. *)
Definition str_lt (a b : string) : bool := bool_decide (String.le a b) && negb (bool_decide (a = b)).

(** [strings.HasPrefix]. *)
Definition has_prefix (s pre : string) : bool := String.prefix pre s.

(** [strings.TrimPrefix]. *)
Definition trim_prefix (s pre : string) : string :=
  if has_prefix s pre then String.substring (String.length pre) (String.length s - String.length pre) s
  else s.

(** [strings.Join]. *)
Fixpoint join (sep : string) (l : list string) : string :=
  match l with
  | [] => ""
  | [s] => s
  | s :: l => s +:+ sep +:+ join sep l
  end.

(** [strings.Split] for a non-empty separator: cut at every non-overlapping
    occurrence, left to right.  [skip] counts the bytes of a separator still to
    be passed over. *)
Definition cons_head (a : Ascii.ascii) (l : list string) : list string :=
  match l with [] => [String a EmptyString] | x :: l => String a x :: l end.

Fixpoint split_go (sep : string) (skip : nat) (s : string) : list string :=
  match s with
  | EmptyString => [EmptyString]
  | String a s' =>
      match skip with
      | S k => split_go sep k s'
      | O =>
          if String.prefix sep s
          then EmptyString :: split_go sep (String.length sep - 1) s'
          else cons_head a (split_go sep 0 s')
      end
  end.
Definition split (s sep : string) : list string := split_go sep 0 s.

(** [strings.HasSuffix] and [strings.TrimSuffix]. *)
Definition has_suffix (s t : string) : bool :=
  bool_decide (String.length t ≤ String.length s) &&
  bool_decide (String.substring (String.length s - String.length t) (String.length t) s = t).
Definition trim_suffix (s t : string) : string :=
  if has_suffix s t then String.substring 0 (String.length s - String.length t) s else s.

(** [strings.ReplaceAll] for a non-empty pattern. *)
Definition replace_all (s old new : string) : string := join new (split s old).

(** Whether a byte occurs in a string. *)
Fixpoint has_char (c : Ascii.ascii) (s : string) : bool :=
  match s with
  | EmptyString => false
  | String a s => bool_decide (a = c) || has_char c s
  end.

Lemma append_empty_r s : s +:+ "" = s.
Proof. induction s as [|a s IH]; [done|]. by change (String a (s +:+ "") = String a s); f_equal. Qed.

Lemma append_assoc (s1 s2 s3 : string) : (s1 +:+ s2) +:+ s3 = s1 +:+ s2 +:+ s3.
Proof.
  induction s1 as [|a s1 IH]; [done|].
  change (String a ((s1 +:+ s2) +:+ s3) = String a (s1 +:+ s2 +:+ s3)). by f_equal.
Qed.

Lemma append_empty_l s : "" +:+ s = s.
Proof. done. Qed.

Lemma append_cons a s t : String a s +:+ t = String a (s +:+ t).
Proof. done. Qed.

Lemma string_length_append s t : String.length (s +:+ t) = String.length s + String.length t.
Proof. induction s as [|a s IH]; [done|]. rewrite append_cons; cbn. by rewrite IH. Qed.

Lemma join_cons sep x l : l ≠ [] → join sep (x :: l) = x +:+ sep +:+ join sep l.
Proof. by destruct l. Qed.

Lemma prefix_append s t : String.prefix s (s +:+ t) = true.
Proof.
  induction s as [|a s IH]; [by destruct t|]. rewrite append_cons; cbn.
  by destruct (Ascii.ascii_dec a a).
Qed.

Lemma prefix_inv s u : String.prefix s u = true → ∃ t, u = s +:+ t.
Proof.
  revert u; induction s as [|a s IH]; intros u; [by exists u|].
  destruct u as [|b u]; cbn; [done|].
  destruct (Ascii.ascii_dec a b) as [->|]; [|done].
  intros [t ->]%IH. by exists t.
Qed.

Lemma substring_full s n : n = String.length s → String.substring 0 n s = s.
Proof. intros ->. induction s as [|a s IH]; cbn; by f_equal. Qed.

Lemma substring_skip pre t n :
  String.substring (String.length pre) n (pre +:+ t) = String.substring 0 n t.
Proof. induction pre as [|a pre IH]; [done|]. by rewrite append_cons; cbn. Qed.

Lemma trim_prefix_append pre t : trim_prefix (pre +:+ t) pre = t.
Proof.
  unfold trim_prefix, has_prefix. rewrite prefix_append, substring_skip, string_length_append.
  apply substring_full. lia.
Qed.

Lemma split_go_not_nil sep k s : split_go sep k s ≠ [].
Proof.
  revert k; induction s as [|a s IH]; intros k; cbn -[String.prefix]; [done|].
  destruct k; [|by apply IH].
  destruct (String.prefix sep (String a s)); [done|].
  specialize (IH 0); by destruct (split_go sep 0 s).
Qed.

Lemma join_cons_head sep a l : l ≠ [] → join sep (cons_head a l) = String a (join sep l).
Proof. by destruct l as [|x [|y l]]. Qed.

Lemma split_go_skip sep t s : split_go sep (String.length t) (t +:+ s) = split_go sep 0 s.
Proof. induction t as [|a t IH]; [done|]. by rewrite append_cons; cbn. Qed.

(** [strings.Join(strings.Split(s, sep), sep) == s]. *)
Lemma join_split sep s : sep ≠ "" → join sep (split s sep) = s.
Proof.
  intros Hsep. unfold split.
  remember (String.length s) as n eqn:Hn. revert s Hn.
  induction (lt_wf n) as [n _ IH]; intros s ->.
  destruct s as [|a s]; [done|]; cbn -[String.prefix].
  destruct (String.prefix sep (String a s)) eqn:Hp.
  - apply prefix_inv in Hp as [t Ht].
    destruct sep as [|b sep']; [done|]. rewrite append_cons in Ht. injection Ht as -> ->.
    cbn [String.length]. rewrite Nat.sub_succ, Nat.sub_0_r, split_go_skip.
    rewrite join_cons by apply split_go_not_nil. rewrite append_cons.
    erewrite IH; [done| |done].
    cbn. rewrite string_length_append. lia.
  - rewrite join_cons_head by apply split_go_not_nil.
    f_equal. eapply IH; [|done]. cbn; lia.
Qed.

(** [strings.Split] undoes [strings.Join] for a one-byte separator that occurs
    in no part (and at least one part). *)
Lemma split_join_char c l :
  l ≠ [] → Forall (λ s, has_char c s = false) l →
  split (join (String c "") l) (String c "") = l.
Proof.
  unfold split. intros Hl Hc. induction Hc as [|x l Hx Hc IH]; [done|]; clear Hl.
  destruct l as [|y l].
  - cbn [join]. clear IH Hc. induction x as [|a x IHx]; [done|].
    cbn in Hx; apply orb_false_iff in Hx as [Ha Hx]. apply bool_decide_eq_false in Ha.
    cbn. destruct (Ascii.ascii_dec c a); [congruence|].
    by rewrite IHx.
  - specialize (IH ltac:(done)). rewrite join_cons by done.
    revert Hx IH; generalize (join (String c "") (y :: l)) as t; intros t Hx IH.
    induction x as [|a x IHx].
    + rewrite append_empty_l, append_cons, append_empty_l; cbn.
      destruct (Ascii.ascii_dec c c); [|done]. cbn.
      rewrite <-IH. by destruct t.
    + cbn in Hx; apply orb_false_iff in Hx as [Ha Hx]. apply bool_decide_eq_false in Ha.
      rewrite append_cons; cbn. destruct (Ascii.ascii_dec c a); [congruence|].
      by rewrite IHx.
Qed.

(** Splitting at a byte that does not occur yields the string itself. *)
Lemma split_no_char c s : has_char c s = false → split s (String c "") = [s].
Proof. intros Hs. apply (split_join_char c [s]); by repeat constructor. Qed.

(** * Stable sorting *)

Section stable_sort.
Context {A : Type} (less : A → A → bool).

(** [x] before the first element that is not less than it: the elements it meets
    came after it. *)
Fixpoint insert_by (x : A) (l : list A) : list A :=
  match l with
  | [] => [x]
  | y :: l' => if less y x then y :: insert_by x l' else x :: l
  end.

(** [sort.SliceStable]. *)
Definition sort_by (l : list A) : list A := foldr insert_by [] l.

Lemma insert_by_perm x l : insert_by x l ≡ₚ x :: l.
Proof.
  induction l as [|y l IH]; cbn; [done|]. destruct (less y x); [|done].
  by rewrite IH, Permutation_swap.
Qed.

Lemma sort_by_perm l : sort_by l ≡ₚ l.
Proof. induction l as [|x l IH]; cbn; [done|]. by rewrite insert_by_perm, IH. Qed.

Lemma elem_of_sort_by x l : x ∈ sort_by l ↔ x ∈ l.
Proof. by rewrite sort_by_perm. Qed.

(** Elements that compare equal keep their order. *)
Lemma insert_by_stable (P : A → bool) x l :
  (∀ y, P y = true → P x = true → less y x = false) →
  filter (λ y, P y = true) (insert_by x l) = filter (λ y, P y = true) (x :: l).
Proof.
  intros HP. induction l as [|y l IH]; cbn [insert_by]; [done|]. destruct (less y x) eqn:Hl; [|done].
  rewrite filter_cons, IH, !filter_cons. destruct (decide (P y = true)) as [Hy|]; [|done].
  destruct (decide (P x = true)) as [Hx|]; [|done]. by rewrite (HP y Hy Hx) in Hl.
Qed.

Lemma sort_by_stable (P : A → bool) l :
  (∀ x y, P x = true → P y = true → less x y = false) →
  filter (λ y, P y = true) (sort_by l) = filter (λ y, P y = true) l.
Proof.
  intros HP. induction l as [|x l IH]; [done|]. cbn [sort_by foldr].
  change (foldr insert_by [] l) with (sort_by l). rewrite insert_by_stable by auto.
  rewrite !filter_cons, IH. done.
Qed.
End stable_sort.

(** A list with one element singled out, whatever is written there. *)
Lemma list_single_out {A} (l : list A) k x : l !! k = Some x →
  ∃ rest, l ≡ₚ x :: rest ∧ ∀ y, <[k := y]> l ≡ₚ y :: rest.
Proof.
  intros Hk. exists (take k l ++ drop (S k) l). split.
  - rewrite <-(take_drop_middle l k x Hk) at 1. by rewrite Permutation_middle.
  - intros y. rewrite insert_take_drop by (by eapply lookup_lt_Some). by rewrite Permutation_middle.
Qed.
Lemma not_nil_Permutation {A} (l l' : list A) x : l ≡ₚ x :: l' → l ≠ [].
Proof. intros H ->. by apply Permutation_nil_cons in H. Qed.

(** ** Reconcile handlers

    A handler is the events it emits, in order, and either a value to go on with or
    the result it returned early. *)

(** [Err r] is a return from the whole handler with the result [r]. *)
Definition Handler (E R A : Type) : Type := list E * res R A.

#[export] Instance handler_ret {E R} : MRet (Handler E R) := λ A a, ([], Ok a).
#[export] Instance handler_bind {E R} : MBind (Handler E R) := λ A B f m,
  match m.2 with
  | Ok a => (m.1 ++ (f a).1, (f a).2)
  | Err r => (m.1, Err r)
  end.

Definition emit_all {E R} (es : list E) : Handler E R () := (es, Ok ()).
Definition emit_one {E R} (e : E) : Handler E R () := emit_all [e].
Definition exit {E R A} (r : R) : Handler E R A := ([], Err r).

(** What the handler emitted and returned. *)
Definition ran {E X A} (m : Handler E (res X A) A) : list E * res X A :=
  (m.1, match m.2 with Ok a => Ok a | Err r => r end).

(** The error of a write, if any, wrapped and returned. *)
Definition fail_with {E X A} (err : option string) (wrap : string → X) : Handler E (res X A) () :=
  match err with Some e => exit (Err (wrap e)) | None => mret () end.

(** A handler emits what its parts emit. *)
Lemma handler_bind_events {E R A B} (m : Handler E R A) (f : A → Handler E R B) :
  (m ≫= f).1 = m.1 ++ match m.2 with Ok a => (f a).1 | Err _ => [] end.
Proof. unfold mbind, handler_bind. by destruct m as [es [a|r]]; cbn; rewrite ?app_nil_r. Qed.
