(* ===== verification/Float64.v ===== *)
(** Go's [float64] and the parts of [math] and [strconv] the engine uses.

    A [float64] is an IEEE-754 binary64 number; [spec_float] of the Standard
    Library's [SpecFloat] is its executable, axiom-free description.  This file
    adds the conversions, [math.Trunc], [math.Round], the shortest decimal
    formatting behind [strconv.FormatFloat(f, 'f', -1, 64)] and [%v], and
    [strconv.ParseFloat] and [strconv.ParseBool]. *)
From Stdlib Require Export SpecFloat.
From Stdlib Require Import Ascii.
From S2P Require Import Prelude.
#[local] Open Scope Z_scope.

Abbreviation float64 := spec_float.
Definition f64_prec : Z := 53.
Definition f64_emax : Z := 1024.

#[export] Instance spec_float_eq_dec : EqDecision spec_float.
Proof. solve_decision. Defined.

(** [float64(n)] for an integer [n]: round to nearest, ties to even. *)
Definition f64_of_Z (z : Z) : float64 := binary_normalize f64_prec f64_emax z 0 false.
Definition f64_mul : float64 → float64 → float64 := SFmul f64_prec f64_emax.
Definition f64_add : float64 → float64 → float64 := SFadd f64_prec f64_emax.
Definition f64_sub : float64 → float64 → float64 := SFsub f64_prec f64_emax.
Definition f64_div : float64 → float64 → float64 := SFdiv f64_prec f64_emax.
Definition f64_neg : float64 → float64 := SFopp.
(** Go's [==], [<] and [>] on float64: false on NaN, [-0 == 0]. *)
Definition f64_eqb : float64 → float64 → bool := SFeqb.
Definition f64_ltb : float64 → float64 → bool := SFltb.
Definition f64_neg_inf : float64 := S754_infinity true.

Definition f64_is_nan (f : float64) : bool := match f with S754_nan => true | _ => false end.
Definition f64_is_inf (f : float64) : bool := match f with S754_infinity _ => true | _ => false end.
Definition f64_is_finite (f : float64) : bool := negb (f64_is_nan f) && negb (f64_is_inf f).

(** A signed integer back as a float64, keeping the sign of zero. *)
Definition f64_signed (s : bool) (q : Z) : float64 :=
  if q =? 0 then S754_zero s
  else binary_normalize f64_prec f64_emax (cond_Zopp s q) 0 s.

(** [math.Trunc]. *)
Definition f64_trunc (f : float64) : float64 :=
  match f with
  | S754_finite s m e => if 0 <=? e then f else f64_signed s (Z.shiftr (Zpos m) (- e))
  | _ => f
  end.

(** [math.Round]: to the nearest integer, halves away from zero. *)
Definition f64_round (f : float64) : float64 :=
  match f with
  | S754_finite s m e =>
      if 0 <=? e then f
      else f64_signed s (Z.shiftr (Z.shiftr (Zpos m) (- e - 1) + 1) 1)
  | _ => f
  end.

(** The integer value of a float64 (its truncation), where it has one. *)
Definition f64_to_Z (f : float64) : option Z :=
  match f with
  | S754_zero _ => Some 0
  | S754_finite s m e =>
      Some (cond_Zopp s (if 0 <=? e then Z.shiftl (Zpos m) e else Z.shiftr (Zpos m) (- e)))
  | _ => None
  end.

(** ** Decimal formatting *)

(** The exact half-open value range that rounds to [m * 2^e], as numerators over
    a common power of two: [(lo, v, hi, x)] stands for [lo*2^x], [v*2^x],
    [hi*2^x].  At a power of two the gap below is half the gap above. *)
Definition rounding_interval (m : positive) (e : Z) : Z * Z * Z * Z :=
  let v := Zpos m in
  if (v =? 2 ^ 52) && (-1074 <? e)
  then (4 * v - 1, 4 * v, 4 * v + 2, e - 2)
  else (4 * v - 2, 4 * v, 4 * v + 2, e - 2).

(** [n]-digit candidates around [v]: the multiples of [10^(k-n)] just below and
    just above, kept when they round back to the same float, nearest first. *)
Definition digits_candidate (even : bool) (lo v hi x : Z) (k : Z) (n : Z) : option (Z * Z) :=
  let u := k - n in
  (* compare c * 10^u with a * 2^x by clearing both denominators *)
  let s2 := 2 ^ Z.max 0 (- x) in let s2' := 2 ^ Z.max 0 x in
  let s10 := 10 ^ Z.max 0 (- u) in let s10' := 10 ^ Z.max 0 u in
  let bin a := a * s2' * s10 in
  let dec c := c * s10' * s2 in
  let c0 := (bin v) / (s10' * s2) in
  let inside c :=
    let d := dec c in
    if even then (bin lo <=? d) && (d <=? bin hi) else (bin lo <? d) && (d <? bin hi) in
  match inside c0, inside (c0 + 1) with
  | true, true => if (dec (c0 + 1) - bin v) <? (bin v - dec c0) then Some (c0 + 1, u) else Some (c0, u)
  | true, false => Some (c0, u)
  | false, true => Some (c0 + 1, u)
  | false, false => None
  end.

(** Number of decimal digits before the point of [m * 2^e]: the [k] with
    [10^(k-1) <= v < 10^k], found by counting up from an underestimate. *)
Fixpoint decimal_exponent (fuel : nat) (m e k : Z) : Z :=
  match fuel with
  | O => k
  | S fuel =>
      if m * 2 ^ Z.max 0 e * 10 ^ Z.max 0 (- k) <? 10 ^ Z.max 0 k * 2 ^ Z.max 0 (- e)
      then k else decimal_exponent fuel m e (k + 1)
  end.

Fixpoint strip_zeros (fuel : nat) (d u : Z) : Z * Z :=
  match fuel with
  | O => (d, u)
  | S fuel => if (negb (d =? 0)) && (d mod 10 =? 0) then strip_zeros fuel (d / 10) (u + 1) else (d, u)
  end.

(** The shortest decimal [d * 10^u] that parses back to [m * 2^e]. *)
Definition shortest_decimal (m : positive) (e : Z) : Z * Z :=
  let '(lo, v, hi, x) := rounding_interval m e in
  let even := Z.even (Zpos m) in
  let k0 := (Z.log2 (Zpos m) + e) * 30103 / 100000 - 1 in
  let k := decimal_exponent 4 (Zpos m) e k0 in
  let fix go (fuel : nat) (n : Z) : Z * Z :=
    match fuel with
    | O => (v, x)
    | S fuel => match digits_candidate even lo v hi x k n with
                | Some du => du
                | None => go fuel (n + 1)
                end
    end in
  let '(d, u) := go 17%nat 1 in strip_zeros 20 d u.

Definition zeros (n : Z) : string := String.concat "" (replicate (Z.to_nat n) "0"%string).

Definition pad_left (n : Z) (s : string) : string :=
  zeros (n - Z.of_nat (String.length s)) +:+ s.

(** ['f'] format of [d * 10^u]. *)
Definition fixed_decimal (d u : Z) : string :=
  if 0 <=? u then pretty d +:+ zeros u
  else
    let s := pad_left (1 - u) (pretty d) in
    let n := (String.length s - Z.to_nat (- u))%nat in
    String.substring 0 n s +:+ "." +:+ String.substring n (String.length s - n) s.

Definition sign_string (s : bool) : string := if s then "-" else "".

(** [strconv.FormatFloat(f, 'f', -1, 64)]. *)
Definition format_float_f (f : float64) : string :=
  match f with
  | S754_nan => "NaN"
  | S754_infinity s => if s then "-Inf" else "+Inf"
  | S754_zero s => sign_string s +:+ "0"
  | S754_finite s m e =>
      let '(d, u) := shortest_decimal m e in sign_string s +:+ fixed_decimal d u
  end.

(** ['e'] format: one digit, the rest after the point, a two-digit exponent. *)
Definition exp_decimal (d u : Z) : string :=
  let s := pretty d in
  let x := u + Z.of_nat (String.length s) - 1 in
  let mant := if (String.length s <=? 1)%nat then s
              else String.substring 0 1 s +:+ "." +:+ String.substring 1 (String.length s - 1) s in
  mant +:+ "e" +:+ (if x <? 0 then "-" else "+") +:+ pad_left 2 (pretty (Z.abs x)).

(** [%v] of a float64: ['g'] with the shortest representation, exponent form
    below [1e-4] and from [1e6] on. *)
Definition format_float_g (f : float64) : string :=
  match f with
  | S754_finite s m e =>
      let '(d, u) := shortest_decimal m e in
      let x := u + Z.of_nat (String.length (pretty d)) - 1 in
      sign_string s +:+ (if (x <? -4) || (6 <=? x) then exp_decimal d u else fixed_decimal d u)
  | _ => format_float_f f
  end.

(** ** Parsing *)

(** The binary64 nearest to [num/den], ties to even.  The quotient is taken with
    at least 65 bits and a sticky bit, so rounding it once is exact. *)
Definition f64_of_ratio (s : bool) (num den : positive) : float64 :=
  let sh := Z.max 0 (66 - (Z.log2 (Zpos num) - Z.log2 (Zpos den))) in
  let n := Z.shiftl (Zpos num) sh in
  let q := n / Zpos den in
  let m := 2 * q + (if n mod Zpos den =? 0 then 0 else 1) in
  binary_normalize f64_prec f64_emax (cond_Zopp s m) (- sh - 1) s.

Definition digit_of (c : ascii) : option Z :=
  let n := Z.of_N (N_of_ascii c) in
  if (48 <=? n) && (n <=? 57) then Some (n - 48) else None.

Definition lower (c : ascii) : ascii :=
  let n := N_of_ascii c in
  if ((65 <=? n) && (n <=? 90))%N then ascii_of_N (n + 32)%N else c.

Definition hex_digit_of (c : ascii) : option Z :=
  match digit_of c with
  | Some d => Some d
  | None =>
      let n := Z.of_N (N_of_ascii (lower c)) in
      if (97 <=? n) && (n <=? 102) then Some (n - 87) else None
  end.

(** [underscoreOK]: an underscore separates digits, or a base prefix from one.
    [prev] is what the previous byte was: ['0'] a digit or prefix, ['_'] an
    underscore, ['!'] anything else. *)
Fixpoint underscore_ok (hex : bool) (prev : ascii) (l : list ascii) : bool :=
  match l with
  | [] => bool_decide (prev ≠ "_"%char)
  | c :: l =>
      if bool_decide (is_Some (if hex then hex_digit_of c else digit_of c))
      then underscore_ok hex "0" l
      else if bool_decide (c = "_"%char)
      then if bool_decide (prev = "0"%char) then underscore_ok hex "_" l else false
      else if bool_decide (prev = "_"%char) then false
      else underscore_ok hex "!" l
  end.

Record mantissa := { mant_value : Z; mant_frac : Z; mant_digits : bool; mant_dot : bool; mant_rest : list ascii }.

(** Digits, at most one dot, underscores skipped. *)
Fixpoint read_mantissa (hex : bool) (v frac : Z) (digits dot : bool) (l : list ascii) : mantissa :=
  match l with
  | [] => {| mant_value := v; mant_frac := frac; mant_digits := digits; mant_dot := dot; mant_rest := [] |}
  | c :: l' =>
      let stop := {| mant_value := v; mant_frac := frac; mant_digits := digits; mant_dot := dot; mant_rest := l |} in
      if bool_decide (c = "_"%char) then read_mantissa hex v frac digits dot l'
      else if bool_decide (c = "."%char) then
        if dot then stop else read_mantissa hex v frac digits true l'
      else match (if hex then hex_digit_of c else digit_of c) with
           | Some d => read_mantissa hex (v * (if hex then 16 else 10) + d)
                         (if dot then frac + 1 else frac) true dot l'
           | None => stop
           end
  end.

(** Exponent digits; Go stops accumulating at 10000. *)
Fixpoint read_exponent (e : Z) (seen : bool) (l : list ascii) : option Z :=
  match l with
  | [] => if seen then Some e else None
  | c :: l =>
      if bool_decide (c = "_"%char) then if seen then read_exponent e seen l else None
      else match digit_of c with
           | Some d => read_exponent (if e <? 10000 then e * 10 + d else e) true l
           | None => None
           end
  end.

Definition read_sign (l : list ascii) : bool * list ascii :=
  match l with
  | "+"%char :: l => (false, l)
  | "-"%char :: l => (true, l)
  | _ => (false, l)
  end.

Definition pow10 (n : Z) : positive := Z.to_pos (10 ^ n).

Definition f64_of_decimal (s : bool) (v e : Z) : float64 :=
  match v with
  | Zpos p =>
      if 0 <=? e then f64_of_ratio s (Pos.mul p (pow10 e)) xH
      else f64_of_ratio s p (pow10 (- e))
  | _ => S754_zero s
  end.

Definition f64_of_hex (s : bool) (v e : Z) : float64 :=
  match v with
  | Zpos p => binary_normalize f64_prec f64_emax (cond_Zopp s v) e s
  | _ => S754_zero s
  end.

(** [strconv.ParseFloat(s, 64)]; [None] is a syntax or range error. *)
Definition parse_float (str : string) : option float64 :=
  let l := String.list_ascii_of_string str in
  let '(s, l1) := read_sign l in
  let word := String.string_of_list_ascii (lower <$> l1) in
  if bool_decide (word = "inf") || bool_decide (word = "infinity") then Some (S754_infinity s)
  else if bool_decide (String.string_of_list_ascii (lower <$> l) = "nan") then Some S754_nan
  else
    let '(hex, l2) := match l1 with
                      | "0"%char :: c :: l2 => if bool_decide (lower c = "x"%char) then (true, l2) else (false, l1)
                      | _ => (false, l1)
                      end in
    if negb (underscore_ok hex (if hex then "0" else "!") l2) then None
    else
      let m := read_mantissa hex 0 0 false false l2 in
      if negb (mant_digits m) then None
      else
        let exp := match mant_rest m with
                   | [] => if hex then None else Some 0
                   | c :: r =>
                       if bool_decide (lower c = (if hex then "p"%char else "e"%char))
                       then let '(es, r') := read_sign r in
                            e ← read_exponent 0 false r'; Some (if es : bool then - e else e)
                       else None
                   end in
        e ← exp;
        let f := if hex then f64_of_hex s (mant_value m) (e - 4 * mant_frac m)
                 else f64_of_decimal s (mant_value m) (e - mant_frac m) in
        if f64_is_inf f then None else Some f.

(** [strconv.ParseBool]. *)
Definition parse_bool (s : string) : option bool :=
  if bool_decide (s ∈ ["1"; "t"; "T"; "true"; "TRUE"; "True"]%string) then Some true
  else if bool_decide (s ∈ ["0"; "f"; "F"; "false"; "FALSE"; "False"]%string) then Some false
  else None.

(** [strconv.FormatBool]. *)
Definition format_bool (b : bool) : string := if b then "true" else "false".

(** * Lemmas: integers of up to 53 bits are exact *)

(** Every finite float64 has a mantissa of at most 53 bits. *)
Definition f64_valid (f : float64) : bool :=
  match f with S754_finite _ m _ => (digits2_pos m <=? 53)%positive | _ => true end.

Definition f64_whole (f : float64) : bool := f64_eqb f (f64_trunc f).

(** The shift of [shl_align]. *)
Definition shl_pos (d m : positive) : positive := Pos.iter xO m d.

Lemma digits2_shl_pos d m :
  digits2_pos (shl_pos d m) = (digits2_pos m + d)%positive.
Proof.
  unfold shl_pos. induction d as [|d IH] using Pos.peano_ind; [cbn; lia|].
  rewrite Pos.iter_succ. cbn. lia.
Qed.

Lemma Zpos_shl_pos d m : Zpos (shl_pos d m) = Z.shiftl (Zpos m) (Zpos d).
Proof.
  rewrite Z.shiftl_mul_pow2 by done. unfold shl_pos.
  induction d as [|d IH] using Pos.peano_ind; [by rewrite Z.mul_comm|].
  rewrite Pos.iter_succ, Pos2Z.inj_succ, Z.pow_succ_r, Pos2Z.inj_xO, IH by done. ring.
Qed.

(** Rounding leaves a mantissa of exactly 53 bits alone. *)
Lemma round_aux_53 s m e :
  digits2_pos m = 53%positive → -1074 <= e <= 971 →
  binary_round_aux f64_prec f64_emax s (Zpos m) e loc_Exact = S754_finite s m e.
Proof.
  intros Hm He. unfold binary_round_aux, shr_fexp, fexp, emin, f64_prec, f64_emax.
  cbn [Zdigits2]. rewrite Hm.
  replace (Z.max (53 + e - 53) (3 - 1024 - 53) - e) with 0 by lia.
  cbn [shr shr_m shr_record_of_loc loc_of_shr_record round_nearest_even Zdigits2]. rewrite Hm.
  replace (Z.max (53 + e - 53) (3 - 1024 - 53) - e) with 0 by lia.
  cbn [shr shr_m shr_record_of_loc].
  by rewrite (proj2 (Z.leb_le _ _)) by lia.
Qed.

Lemma binary_round_small s q :
  (digits2_pos q <= 53)%positive →
  ∃ m e, binary_round f64_prec f64_emax s q 0 = S754_finite s m e ∧
    digits2_pos m = 53%positive ∧ -53 <= e <= 0 ∧ Zpos m = Z.shiftl (Zpos q) (- e).
Proof.
  intros Hq. unfold binary_round, fexp, emin. cbn [f64_prec f64_emax].
  replace (Z.max (Z.pos (digits2_pos q) + 0 - f64_prec) (3 - f64_emax - f64_prec))
    with (Z.pos (digits2_pos q) - 53) by (unfold f64_prec, f64_emax; lia).
  unfold shl_align. destruct (decide (digits2_pos q = 53%positive)) as [Hd|Hd].
  - rewrite Hd, (eq_refl : 53 - 53 - 0 = 0), round_aux_53 by (done || lia).
    exists q, 0. by split_and!.
  - replace (Z.pos (digits2_pos q) - 53 - 0) with (Zneg (53 - digits2_pos q)) by lia.
    fold (shl_pos (53 - digits2_pos q) q).
    rewrite round_aux_53; [|rewrite digits2_shl_pos; lia|lia].
    eexists _, _; split; [done|]. rewrite digits2_shl_pos, Zpos_shl_pos.
    split_and!; [lia..|]. f_equal; lia.
Qed.

Lemma digits2_pos_bounds q :
  2 ^ (Zpos (digits2_pos q) - 1) <= Zpos q < 2 ^ Zpos (digits2_pos q).
Proof.
  induction q as [q IH|q IH|]; cbn [digits2_pos]; [| |done].
  all: rewrite Pos2Z.inj_succ.
  all: replace (Z.succ (Z.pos (digits2_pos q)) - 1) with (Z.succ (Z.pos (digits2_pos q) - 1)) by lia.
  all: rewrite !Z.pow_succ_r by lia; lia.
Qed.

Lemma digits2_pos_le q n : Zpos q < 2 ^ Zpos n → (digits2_pos q <= n)%positive.
Proof.
  intros Hq. destruct (digits2_pos_bounds q) as [Hl _].
  assert (Zpos (digits2_pos q) - 1 < Zpos n); [|lia].
  apply (Z.pow_lt_mono_r_iff 2); lia.
Qed.

Lemma f64_signed_small s q :
  0 < q < 2 ^ 53 →
  ∃ m e, f64_signed s q = S754_finite s m e ∧ digits2_pos m = 53%positive ∧
    -53 <= e <= 0 ∧ Zpos m = Z.shiftl q (- e).
Proof.
  intros Hq. destruct q as [|q|]; try lia.
  destruct (binary_round_small s q) as (m & e & Hr & ?); [apply digits2_pos_le; lia|].
  exists m, e. split; [|done]. rewrite <-Hr. by destruct s.
Qed.

Lemma SFeqb_refl f : f64_is_nan f = false → f64_eqb f f = true.
Proof.
  intros Hf. unfold f64_eqb, SFeqb, SFcompare.
  destruct f as [s|s| |s m e]; try done; destruct s; try done; cbn.
  all: rewrite Z.compare_refl; by rewrite ?Pos.compare_cont_refl.
Qed.

(** A float64 built from an integer of at most 53 bits is whole, and its
    truncation is itself. *)
Lemma f64_trunc_signed s q : 0 <= q < 2 ^ 53 → f64_trunc (f64_signed s q) = f64_signed s q.
Proof.
  intros Hq. destruct (decide (q = 0)) as [->|Hne]; [done|].
  destruct (f64_signed_small s q) as (m & e & Hs & Hm & He & Hmq); [lia|].
  rewrite Hs. cbn. destruct (0 <=? e) eqn:He0; [done|].
  apply Z.leb_gt in He0. rewrite Hmq, Z.shiftr_shiftl_l, Z.sub_diag, Z.shiftl_0_r by lia. done.
Qed.

Lemma f64_signed_not_nan s q : 0 <= q < 2 ^ 53 → f64_is_nan (f64_signed s q) = false.
Proof.
  intros Hq. destruct (decide (q = 0)) as [->|Hne]; [done|].
  destruct (f64_signed_small s q) as (m & e & -> & _); [lia|done].
Qed.

Lemma f64_signed_finite s q : 0 <= q < 2 ^ 53 → f64_is_finite (f64_signed s q) = true.
Proof.
  intros Hq. destruct (decide (q = 0)) as [->|Hne]; [done|].
  destruct (f64_signed_small s q) as (m & e & -> & _); [lia|done].
Qed.

Lemma f64_whole_signed s q : 0 <= q < 2 ^ 53 → f64_whole (f64_signed s q) = true.
Proof.
  intros Hq. unfold f64_whole. rewrite f64_trunc_signed by done.
  by apply SFeqb_refl, f64_signed_not_nan.
Qed.

(** The mantissa shifted right stays below [2^52]. *)
Lemma mantissa_shiftr m d : (digits2_pos m <= 53)%positive → 0 < d → 0 <= Z.shiftr (Zpos m) d < 2 ^ 52.
Proof.
  intros Hm Hd. destruct (digits2_pos_bounds m) as [_ Hb].
  rewrite Z.shiftr_div_pow2 by lia. split; [apply Z.div_pos; lia|].
  apply Z.div_lt_upper_bound; [lia|].
  assert (2 ^ Zpos (digits2_pos m) <= 2 ^ 53) by (apply Z.pow_le_mono_r; lia).
  assert (2 ^ 1 <= 2 ^ d) by (apply Z.pow_le_mono_r; lia). lia.
Qed.

Lemma f64_trunc_whole f :
  f64_is_finite f = true → f64_valid f = true →
  f64_whole (f64_trunc f) = true ∧ f64_is_finite (f64_trunc f) = true.
Proof.
  destruct f as [s|s| |s m e]; try done; intros _ Hv; cbn in Hv.
  apply Pos.leb_le in Hv. cbn [f64_trunc]. destruct (0 <=? e) eqn:He.
  - split; [|done]. unfold f64_whole. cbn [f64_trunc]. rewrite He. by apply SFeqb_refl.
  - apply Z.leb_gt in He. pose proof (mantissa_shiftr m (- e) Hv ltac:(lia)).
    split; [apply f64_whole_signed|apply f64_signed_finite]; lia.
Qed.

Lemma f64_round_whole f :
  f64_is_finite f = true → f64_valid f = true →
  f64_whole (f64_round f) = true ∧ f64_is_finite (f64_round f) = true.
Proof.
  destruct f as [s|s| |s m e]; try done; intros _ Hv; cbn in Hv.
  apply Pos.leb_le in Hv. cbn [f64_round]. destruct (0 <=? e) eqn:He.
  - split; [|done]. unfold f64_whole. cbn [f64_trunc]. rewrite He. by apply SFeqb_refl.
  - apply Z.leb_gt in He.
    assert (0 <= Z.shiftr (Z.shiftr (Z.pos m) (- e - 1) + 1) 1 < 2 ^ 53).
    { rewrite (Z.shiftr_div_pow2 _ 1) by lia.
      destruct (decide (- e - 1 = 0)) as [Hz|Hz].
      - rewrite Hz, Z.shiftr_0_r. destruct (digits2_pos_bounds m) as [_ Hb].
        assert (2 ^ Zpos (digits2_pos m) <= 2 ^ 53) by (apply Z.pow_le_mono_r; lia). 
        split; [apply Z.div_pos; lia|]. apply Z.div_lt_upper_bound; lia.
      - pose proof (mantissa_shiftr m (- e - 1) Hv ltac:(lia)).
        split; [apply Z.div_pos; lia|]. apply Z.div_lt_upper_bound; lia. }
    split; [apply f64_whole_signed|apply f64_signed_finite]; lia.
Qed.
