(* ===== verification/Value.v ===== *)
(** Unstructured values: what [encoding/json], YAML decoding and client-go's
    dynamic client put behind Go's [any].

    The engine converts [map[string]any] trees.  A value is JSON null, a bool, a
    string, a [float64] (what [encoding/json] decodes a number to), an integer
    (client-go decodes whole numbers to [int64]; [int] and [int32] are handled as
    well), a slice or a map.  Objects are [gmap]s: Go maps have no order. *)
From S2P Require Import Prelude Float64.

Inductive int_kind := Int64 | Int32 | IntGo.
#[export] Instance int_kind_eq_dec : EqDecision int_kind.
Proof. solve_decision. Defined.

Inductive value :=
| VNull
| VBool (b : bool)
| VInt (k : int_kind) (z : Z)
| VFloat (f : float64)
| VStr (s : string)
| VArr (l : list value)
| VObj (m : gmap string value).

Abbreviation obj := (gmap string value).

(** ** Induction *)

Fixpoint vsize (v : value) : nat :=
  match v with
  | VArr l => S (sum_list_with vsize l)
  | VObj m => S (map_fold (λ _ v n, vsize v + n) 0 m)
  | _ => 1
  end.

Lemma value_ind' (P : value → Prop) :
  P VNull → (∀ b, P (VBool b)) → (∀ k z, P (VInt k z)) → (∀ f, P (VFloat f)) →
  (∀ s, P (VStr s)) →
  (∀ l, Forall P l → P (VArr l)) →
  (∀ m, map_Forall (λ _, P) m → P (VObj m)) →
  ∀ v, P v.
Proof.
  intros Hnull Hb Hi Hf Hs Harr Hobj v.
  remember (vsize v) as n eqn:Hn. revert v Hn.
  induction (lt_wf n) as [n _ IH]; intros v ->.
  destruct v as [| | | | |l|m]; [done..| |]; cbn in IH.
  - apply Harr. induction l as [|v l IHl]; constructor.
    + eapply IH; [|done]. cbn; lia.
    + apply IHl. intros. eapply IH; [|done]. cbn in *; lia.
  - apply Hobj. revert m IH.
    apply (map_fold_weak_ind (λ r m,
      (∀ n, n < S r → ∀ v, n = vsize v → P v) → map_Forall (λ _, P) m)).
    + intros _. apply map_Forall_empty.
    + intros k v m r ? IHm IHv. apply map_Forall_insert; [done|]; split.
      * eapply IHv; [|done]; lia.
      * apply IHm. intros. eapply IHv; [|done]; lia.
Qed.

(** ** [deepCopyValue]

    Copies maps and slices recursively so that no two paths of an output share a
    map or slice.  On the values themselves it is the identity, which is what
    [deepCopyValue_id] says; sharing is not visible at this level. *)
Fixpoint deepCopyValue (v : value) : value :=
  match v with
  | VObj m => VObj (deepCopyValue <$> m)
  | VArr l => VArr (deepCopyValue <$> l)
  | _ => v
  end.

Lemma deepCopyValue_id v : deepCopyValue v = v.
Proof.
  induction v as [| | | | |l IH|m IH] using value_ind'; cbn; try done; f_equal.
  - induction IH as [|v l Hv Hl IHl]; cbn; by f_equal.
  - apply map_eq; intros k. rewrite lookup_fmap.
    destruct (m !! k) as [v|] eqn:Hk; cbn; [|done].
    by rewrite (IH k v Hk).
Qed.

(** ** Numbers *)

(** [AsFloat64]: any numeric value as a float64. *)
Definition AsFloat64 (v : value) : option float64 :=
  match v with
  | VFloat f => Some f
  | VInt _ z => Some (f64_of_Z z)
  | _ => None
  end.

(** [asInt64]. *)
Definition asInt64 (v : value) : option Z :=
  match v with
  | VInt _ z => Some z
  | _ => None
  end.

(** ** [reflect.DeepEqual] on these types

    Values of different dynamic types differ; floats are compared with [==]. *)
Fixpoint deep_equal (a b : value) : bool :=
  match a, b with
  | VNull, VNull => true
  | VBool x, VBool y => bool_decide (x = y)
  | VInt k x, VInt k' y => bool_decide (k = k') && (x =? y)%Z
  | VFloat x, VFloat y => f64_eqb x y
  | VStr x, VStr y => bool_decide (x = y)
  | VArr l, VArr l' =>
      (fix go (l l' : list value) : bool :=
         match l, l' with
         | [], [] => true
         | x :: l, y :: l' => deep_equal x y && go l l'
         | _, _ => false
         end) l l'
  | VObj m, VObj m' =>
      bool_decide (size m = size m') &&
      map_fold (λ k f acc, acc && match m' !! k with Some y => f y | None => false end)
        true (deep_equal <$> m)
  | _, _ => false
  end.

(** [jsonValuesEqual]: numbers compare by value whatever Go type carries them. *)
Definition jsonValuesEqual (a b : value) : bool :=
  match asInt64 a, asInt64 b with
  | Some x, Some y => (x =? y)%Z
  | _, _ =>
      match AsFloat64 a, AsFloat64 b with
      | Some x, Some y => f64_eqb x y
      | _, _ => deep_equal a b
      end
  end.

(** ** [fmt]'s [%T] and [%v] on these types *)

Definition go_type (v : value) : string :=
  match v with
  | VNull => "<nil>"
  | VBool _ => "bool"
  | VInt Int64 _ => "int64"
  | VInt Int32 _ => "int32"
  | VInt IntGo _ => "int"
  | VFloat _ => "float64"
  | VStr _ => "string"
  | VArr _ => "[]interface {}"
  | VObj _ => "map[string]interface {}"
  end.

(** [%v] prints map entries in key order. *)
Fixpoint go_print (v : value) : string :=
  match v with
  | VNull => "<nil>"
  | VBool b => format_bool b
  | VInt _ z => pretty z
  | VFloat f => format_float_g f
  | VStr s => s
  | VArr l => "[" +:+ join " " (go_print <$> l) +:+ "]"
  | VObj m =>
      let pm := go_print <$> m in
      let keys := sort_strings (map_to_list pm).*1 in
      "map[" +:+ join " " ((λ k, k +:+ ":" +:+ default "" (pm !! k)) <$> keys) +:+ "]"
  end.

(** ** Shape tests: Go's type assertions *)

Definition as_obj (v : value) : option obj := match v with VObj m => Some m | _ => None end.
Definition as_arr (v : value) : option (list value) := match v with VArr l => Some l | _ => None end.
Definition as_str (v : value) : option string := match v with VStr s => Some s | _ => None end.

(** JSON trees [encoding/json] can produce from a document: no Go integer types
    and no non-finite numbers. *)
Fixpoint json_tree (v : value) : bool :=
  match v with
  | VInt _ _ => false
  | VFloat f => f64_is_finite f
  | VArr l => forallb json_tree l
  | VObj m => map_fold (λ _ v b, json_tree v && b) true m
  | _ => true
  end.
