(* ===== verification/Json.v ===== *)
(** [encoding/json] as the engine uses it: [json.Marshal] and [json.Unmarshal]
    of unstructured values.

    The annotation stash and the JSON Patch operation go through JSON text.  The
    encoder sorts object keys, escapes HTML-sensitive characters and invalid
    UTF-8, and refuses non-finite numbers; the decoder checks the whole grammar,
    keeps the last of duplicate keys, decodes every number to a [float64] and
    limits the nesting depth. *)
From Stdlib Require Import Ascii.
From S2P Require Import Prelude Float64 Value.
#[local] Open Scope Z_scope.

Definition code (c : ascii) : Z := Z.of_N (N_of_ascii c).
Definition char (n : Z) : ascii := ascii_of_N (Z.to_N n).
Definition between (lo n hi : Z) : bool := (lo <=? n) && (n <=? hi).

(** ** UTF-8 *)

(** The length of the well-formed multi-byte sequence at the head, if any. *)
Definition utf8_seq (l : list ascii) : option nat :=
  match code <$> l with
  | b0 :: b1 :: rest =>
      let cont b := between 0x80 b 0xBF in
      if between 0xC2 b0 0xDF then if cont b1 then Some 2%nat else None
      else
        let ok1 :=
          if b0 =? 0xE0 then between 0xA0 b1 0xBF
          else if b0 =? 0xED then between 0x80 b1 0x9F
          else if between 0xE1 b0 0xEF then cont b1
          else if b0 =? 0xF0 then between 0x90 b1 0xBF
          else if b0 =? 0xF4 then between 0x80 b1 0x8F
          else if between 0xF1 b0 0xF3 then cont b1
          else false in
        if negb ok1 then None
        else match rest with
             | b2 :: rest =>
                 if negb (cont b2) then None
                 else if b0 <? 0xF0 then Some 3%nat
                 else match rest with
                      | b3 :: _ => if cont b3 then Some 4%nat else None
                      | [] => None
                      end
             | [] => None
             end
  | _ => None
  end.

Definition utf8_encode (r : Z) : list ascii :=
  char <$>
  (if r <? 0x80 then [r]
   else if r <? 0x800 then [0xC0 + r / 64; 0x80 + r mod 64]
   else if r <? 0x10000 then [0xE0 + r / 4096; 0x80 + (r / 64) mod 64; 0x80 + r mod 64]
   else [0xF0 + r / 262144; 0x80 + (r / 4096) mod 64; 0x80 + (r / 64) mod 64; 0x80 + r mod 64]).

Definition dquote : ascii := ascii_of_N 34.
Definition RuneError : Z := 0xFFFD.

(** ** Encoding *)

Definition hex_char (d : Z) : ascii := char (if d <? 10 then 48 + d else 87 + d).

(** [\u00xx]. *)
Definition u_escape (n : Z) : list ascii :=
  ["\"%char; "u"%char; "0"%char; "0"%char; hex_char (n / 16); hex_char (n mod 16)].

(** One byte below 0x80. *)
Definition escape_ascii (c : ascii) : list ascii :=
  let n := code c in
  if (n =? 34) || (n =? 92) then ["\"%char; c]
  else if n =? 8 then ["\"%char; "b"%char]
  else if n =? 12 then ["\"%char; "f"%char]
  else if n =? 10 then ["\"%char; "n"%char]
  else if n =? 13 then ["\"%char; "r"%char]
  else if n =? 9 then ["\"%char; "t"%char]
  else if (n <? 32) || (n =? 60) || (n =? 62) || (n =? 38) then u_escape n
  else [c].

Definition escaped_text (s : string) : list ascii := String.list_ascii_of_string s.

Fixpoint escape_bytes (skip : nat) (l : list ascii) : list ascii :=
  match l with
  | [] => []
  | c :: l' =>
      match skip with
      | S skip => c :: escape_bytes skip l'
      | O =>
          if code c <? 0x80 then escape_ascii c ++ escape_bytes 0 l'
          else match utf8_seq l with
               | None => escaped_text "\ufffd" ++ escape_bytes 0 l'
               | Some n =>
                   match code <$> take 3 l with
                   | [0xE2; 0x80; 0xA8] => escaped_text "\u2028" ++ drop_two l'
                   | [0xE2; 0x80; 0xA9] => escaped_text "\u2029" ++ drop_two l'
                   | _ => c :: escape_bytes (n - 1) l'
                   end
               end
      end
  end
with drop_two (l : list ascii) : list ascii :=
  match l with _ :: l => match l with _ :: l => escape_bytes 0 l | [] => [] end | [] => [] end.

Definition encode_string (s : string) : list ascii :=
  dquote :: escape_bytes 0 (String.list_ascii_of_string s) ++ [dquote].

(** A number: shortest digits, exponent form below [1e-6] and from [1e21] on,
    with a one-digit negative exponent cleaned up. *)
Definition clean_exponent (l : list ascii) : list ascii :=
  match reverse l with
  | d :: "0"%char :: "-"%char :: "e"%char :: r =>
      reverse (d :: "-"%char :: "e"%char :: r)
  | _ => l
  end.

Definition encode_float (f : float64) : option (list ascii) :=
  match f with
  | S754_nan | S754_infinity _ => None
  | S754_zero s => Some (String.list_ascii_of_string (sign_string s +:+ "0"))
  | S754_finite s m e =>
      let '(d, u) := shortest_decimal m e in
      let x := u + Z.of_nat (String.length (pretty d)) - 1 in
      let sign := String.list_ascii_of_string (sign_string s) in
      Some (sign ++
        if (x <? -6) || (21 <=? x)
        then clean_exponent (String.list_ascii_of_string (exp_decimal d u))
        else String.list_ascii_of_string (fixed_decimal d u))
  end.

Fixpoint intercalate (sep : ascii) (ls : list (list ascii)) : list ascii :=
  match ls with
  | [] => []
  | [l] => l
  | l :: ls => l ++ sep :: intercalate sep ls
  end.

(** The members of an object in key order, given their encoded values. *)
Definition encode_members (m : gmap string (option (list ascii))) : option (list ascii) :=
  ms ← mapM (λ k, e ← default None (m !! k); Some (encode_string k ++ ":"%char :: e))
         (sort_strings (map_to_list m).*1);
  Some ("{"%char :: intercalate "," ms ++ ["}"%char]).

Fixpoint encode (v : value) : option (list ascii) :=
  match v with
  | VNull => Some (escaped_text "null")
  | VBool b => Some (escaped_text (format_bool b))
  | VInt _ z => Some (escaped_text (pretty z))
  | VFloat f => encode_float f
  | VStr s => Some (encode_string s)
  | VArr l => es ← mapM id (encode <$> l); Some ("["%char :: intercalate "," es ++ ["]"%char])
  | VObj m => encode_members (encode <$> m)
  end.

(** [json.Marshal]; [None] is the unsupported-value error of a NaN or infinity. *)
Definition json_Marshal (v : value) : option string := String.string_of_list_ascii <$> encode v.

(** ** Decoding *)

Fixpoint skip_ws (l : list ascii) : list ascii :=
  match l with
  | c :: l' => if bool_decide (code c ∈ [32; 9; 10; 13]) then skip_ws l' else l
  | [] => []
  end.

Definition hex4 (l : list ascii) : option (Z * list ascii) :=
  match l with
  | a :: b :: c :: d :: l =>
      a ← hex_digit_of a; b ← hex_digit_of b; c ← hex_digit_of c; d ← hex_digit_of d;
      Some (((a * 16 + b) * 16 + c) * 16 + d, l)
  | _ => None
  end.

(** A string body after its opening quote: the decoded bytes and the rest.  A
    surrogate escape pairs with the next one or becomes U+FFFD. *)
Fixpoint decode_string (fuel : nat) (skip : nat) (l : list ascii)
    : option (list ascii * list ascii) :=
  match fuel with
  | O => None
  | S fuel =>
      match l with
      | [] => None
      | c :: l' =>
          let put (bs : list ascii) (r : option (list ascii * list ascii)) :=
            '(s, rest) ← r; Some (bs ++ s, rest) in
          match skip with
          | S skip => put [c] (decode_string fuel skip l')
          | O =>
              let n := code c in
              if n =? 34 then Some ([], l')
              else if n <? 32 then None
              else if n =? 92 then
                match l' with
                | [] => None
                | e :: l'' =>
                    let go bs := put bs (decode_string fuel 0 l'') in
                    let en := code e in
                    if (en =? 34) || (en =? 92) || (en =? 47) then go [e]
                    else if en =? 98 then go [char 8]
                    else if en =? 102 then go [char 12]
                    else if en =? 110 then go [char 10]
                    else if en =? 114 then go [char 13]
                    else if en =? 116 then go [char 9]
                    else if en =? 117 then
                      '(r, l1) ← hex4 l'';
                      if between 0xD800 r 0xDFFF then
                        let pair :=
                          match l1 with
                          | "\"%char :: "u"%char :: l2 =>
                              '(r2, l3) ← hex4 l2;
                              if between 0xD800 r 0xDBFF && between 0xDC00 r2 0xDFFF
                              then Some (0x10000 + (r - 0xD800) * 1024 + (r2 - 0xDC00), l3)
                              else None
                          | _ => None
                          end in
                        match pair with
                        | Some (r, l3) => put (utf8_encode r) (decode_string fuel 0 l3)
                        | None => put (utf8_encode RuneError) (decode_string fuel 0 l1)
                        end
                      else put (utf8_encode r) (decode_string fuel 0 l1)
                    else None
                end
              else if n <? 0x80 then put [c] (decode_string fuel 0 l')
              else match utf8_seq l with
                   | Some k => put [c] (decode_string fuel (k - 1) l')
                   | None => put (utf8_encode RuneError) (decode_string fuel 0 l')
                   end
          end
      end
  end.

Fixpoint span_digits (l : list ascii) : list ascii * list ascii :=
  match l with
  | c :: l' => if bool_decide (is_Some (digit_of c))
               then let '(d, r) := span_digits l' in (c :: d, r) else ([], l)
  | [] => ([], [])
  end.

(** The number token at the head, part by part. *)
Definition some_digits (l : list ascii) : option (list ascii * list ascii) :=
  match span_digits l with ([], _) => None | d => Some d end.

Definition sign_part (l : list ascii) : list ascii * list ascii :=
  match l with "-"%char :: l => (["-"%char], l) | _ => ([], l) end.

Definition int_part (l : list ascii) : option (list ascii * list ascii) :=
  match l with "0"%char :: l => Some (["0"%char], l) | _ => some_digits l end.

Definition frac_part (l : list ascii) : option (list ascii * list ascii) :=
  match l with
  | "."%char :: l' => '(d, l) ← some_digits l'; Some ("."%char :: d, l)
  | _ => Some ([], l)
  end.

Definition exp_sign (l : list ascii) : list ascii * list ascii :=
  match l with
  | "+"%char :: l => (["+"%char], l)
  | "-"%char :: l => (["-"%char], l)
  | _ => ([], l)
  end.

Definition exp_part (l : list ascii) : option (list ascii * list ascii) :=
  match l with
  | c :: l' =>
      if bool_decide (c = "e"%char ∨ c = "E"%char) then
        let '(es, l'') := exp_sign l' in '(d, l) ← some_digits l''; Some (c :: es ++ d, l)
      else Some ([], l)
  | [] => Some ([], l)
  end.

Definition number_token (l : list ascii) : option (list ascii * list ascii) :=
  let '(sign, l) := sign_part l in
  '(ip, l) ← int_part l;
  '(fp, l) ← frac_part l;
  '(ep, l) ← exp_part l;
  Some (sign ++ ip ++ fp ++ ep, l).

Definition maxNestingDepth : Z := 10000.

Definition literal (text : string) (v : value) (l : list ascii) : option (value * list ascii) :=
  let t := String.list_ascii_of_string text in
  if bool_decide (take (length t) l = t) then Some (v, drop (length t) l) else None.

Fixpoint decode (fuel : nat) (depth : Z) (l : list ascii) : option (value * list ascii) :=
  match fuel with
  | O => None
  | S fuel =>
      match skip_ws l with
      | [] => None
      | c :: l' =>
          let n := code c in
          if n =? 34 then '(s, r) ← decode_string (S (length l')) 0 l'; Some (VStr (String.string_of_list_ascii s), r)
          else if n =? 91 then
            if maxNestingDepth <? depth + 1 then None
            else match skip_ws l' with
                 | "]"%char :: r => Some (VArr [], r)
                 | _ => '(vs, r) ← decode_elems fuel (depth + 1) l'; Some (VArr vs, r)
                 end
          else if n =? 123 then
            if maxNestingDepth <? depth + 1 then None
            else match skip_ws l' with
                 | "}"%char :: r => Some (VObj ∅, r)
                 | _ => '(m, r) ← decode_members fuel (depth + 1) ∅ l'; Some (VObj m, r)
                 end
          else if n =? 116 then literal "true" (VBool true) (c :: l')
          else if n =? 102 then literal "false" (VBool false) (c :: l')
          else if n =? 110 then literal "null" VNull (c :: l')
          else '(t, r) ← number_token (c :: l');
               f ← parse_float (String.string_of_list_ascii t); Some (VFloat f, r)
      end
  end
(** The elements of a non-empty array, up to the closing bracket. *)
with decode_elems (fuel : nat) (depth : Z) (l : list ascii) : option (list value * list ascii) :=
  match fuel with
  | O => None
  | S fuel =>
      '(v, r) ← decode fuel depth l;
      match skip_ws r with
      | "]"%char :: r => Some ([v], r)
      | ","%char :: r => '(vs, r) ← decode_elems fuel depth r; Some (v :: vs, r)
      | _ => None
      end
  end
(** The members of a non-empty object; a repeated key overwrites. *)
with decode_members (fuel : nat) (depth : Z) (m : gmap string value) (l : list ascii)
    : option (gmap string value * list ascii) :=
  match fuel with
  | O => None
  | S fuel =>
      match skip_ws l with
      | c :: l =>
          if negb (code c =? 34) then None
          else
            '(k, r) ← decode_string (S (length l)) 0 l;
            match skip_ws r with
            | ":"%char :: r =>
                '(v, r) ← decode fuel depth r;
                let m := <[String.string_of_list_ascii k := v]> m in
                match skip_ws r with
                | "}"%char :: r => Some (m, r)
                | ","%char :: r => decode_members fuel depth m r
                | _ => None
                end
            | _ => None
            end
      | [] => None
      end
  end.

(** Each level of recursion but the first consumes a byte or enters a member or
    element of a container, so twice the length is enough fuel. *)
Definition decode_text (l : list ascii) : option value :=
  '(v, r) ← decode (S (2 * length l)) 0 l;
  match skip_ws r with [] => Some v | _ => None end.

(** [json.Unmarshal] into an [any]; [None] is the syntax or range error. *)
Definition json_Unmarshal (s : string) : option value := decode_text (String.list_ascii_of_string s).

(** ** [strings.Split] with an empty separator: one string per UTF-8 sequence *)

Fixpoint explode_go (fuel : nat) (l : list ascii) : list string :=
  match fuel, l with
  | S fuel, _ :: _ =>
      let n := default 1%nat (utf8_seq l) in
      String.string_of_list_ascii (take n l) :: explode_go fuel (drop n l)
  | _, _ => []
  end.

Definition explode (s : string) : list string :=
  explode_go (String.length s) (String.list_ascii_of_string s).
