(* ===== verification/JsonTheory.v ===== *)
(** [json.Unmarshal] gives back what [json.Marshal] wrote. *)
From Stdlib Require Import Ascii.
From S2P Require Import Prelude Float64 Value Json.
#[local] Open Scope Z_scope.

(** ** What survives

    Strings of ASCII bytes, numbers whose shortest text parses back to them, and
    arrays and objects of such values.  Go's integer types do not: they come back
    as [float64]. *)
Definition ascii_string (s : string) : bool :=
  forallb (λ c, code c <? 0x80) (String.list_ascii_of_string s).

Definition number_safe (f : float64) : bool :=
  match encode_float f with
  | Some t => bool_decide (number_token t = Some (t, []) ∧
                parse_float (String.string_of_list_ascii t) = Some f)
  | None => false
  end.

Fixpoint json_safe (v : value) : bool :=
  match v with
  | VNull | VBool _ => true
  | VInt _ _ => false
  | VFloat f => number_safe f
  | VStr s => ascii_string s
  | VArr l => forallb json_safe l
  | VObj m => bool_decide (map_Forall (λ k b, ascii_string k && b = true) (json_safe <$> m))
  end.

Fixpoint vdepth (v : value) : nat :=
  match v with
  | VArr l => S (foldr (λ v n, vdepth v `max` n)%nat 0%nat l)
  | VObj m => S (map_fold (λ _ d n, d `max` n)%nat 0%nat (vdepth <$> m))
  | _ => 0
  end.

(** ** Strings *)

Definition cons_result (c : ascii) (r : option (list ascii * list ascii)) : option (list ascii * list ascii) :=
  '(s, rest) ← r; Some (c :: s, rest).

Lemma decode_escape_ascii c n rest :
  code c < 0x80 →
  decode_string (S n) 0 (escape_ascii c ++ rest) = cons_result c (decode_string n 0 rest).
Proof. destruct c as [[] [] [] [] [] [] [] []]; intros Hc; try done. Qed.

Lemma escape_bytes_ascii c l :
  code c < 0x80 → escape_bytes 0 (c :: l) = escape_ascii c ++ escape_bytes 0 l.
Proof. intros Hc. cbn -[escape_ascii]. by rewrite (proj2 (Z.ltb_lt _ _) Hc). Qed.

Lemma length_escape_ascii c : (1 ≤ length (escape_ascii c))%nat.
Proof. unfold escape_ascii. repeat case_match; cbn; lia. Qed.

Lemma length_escape_bytes l :
  forallb (λ c, code c <? 0x80) l = true → (length l ≤ length (escape_bytes 0 l))%nat.
Proof.
  induction l as [|c l IH]; [done|]. intros [Hc%Z.ltb_lt Hl]%andb_true_iff.
  rewrite escape_bytes_ascii, length_app by done. pose proof (length_escape_ascii c).
  specialize (IH Hl). cbn; lia.
Qed.

Lemma decode_string_escape l n rest :
  forallb (λ c, code c <? 0x80) l = true → (length l < n)%nat →
  decode_string n 0 (escape_bytes 0 l ++ dquote :: rest) = Some (l, rest).
Proof.
  revert n; induction l as [|c l IH]; intros n Hl Hn.
  - destruct n as [|n]; [lia|]. done.
  - apply andb_true_iff in Hl as [Hc%Z.ltb_lt Hl]. destruct n as [|n]; [cbn in Hn; lia|].
    rewrite escape_bytes_ascii, <-(assoc_L (++)), decode_escape_ascii by done.
    rewrite IH by (done || (cbn in Hn; lia)). done.
Qed.

Lemma decode_encode_string s rest :
  ascii_string s = true →
  ∃ body, encode_string s = dquote :: body ∧
    ∀ n, (length body ≤ n)%nat → decode_string n 0 (body ++ rest) = Some (String.list_ascii_of_string s, rest).
Proof.
  intros Hs. eexists; split; [done|]. intros n Hn. rewrite <-(assoc_L (++)). cbn.
  apply decode_string_escape; [done|]. rewrite length_app in Hn. cbn in Hn.
  pose proof (length_escape_bytes _ Hs). lia.
Qed.

(** ** Numbers *)

(** Not a byte that could continue a number. *)
Definition number_end (l : list ascii) : Prop :=
  match l with
  | [] => True
  | c :: _ => c ∈ [","%char; "]"%char; "}"%char]
  end.

Lemma number_end_cases rest (P : list ascii → Prop) :
  number_end rest → P [] → (∀ l, P (","%char :: l)) → (∀ l, P ("]"%char :: l)) →
  (∀ l, P ("}"%char :: l)) → P rest.
Proof.
  destruct rest as [|c rest]; [done|]. cbn. intros Hc ????.
  repeat (apply elem_of_cons in Hc as [->|Hc]; [done|]). by apply not_elem_of_nil in Hc.
Qed.

Section number.
Variable rest : list ascii.
Hypothesis Hrest : number_end rest.

Lemma span_digits_app l d r :
  span_digits l = (d, r) → span_digits (l ++ rest) = (d, r ++ rest).
Proof.
  revert d r; induction l as [|c l IH]; intros d r; cbn.
  - intros [= <- <-]. by apply (number_end_cases rest).
  - case_bool_decide as Hd.
    + destruct (span_digits l) as [d' r'] eqn:Hl. intros [= <- <-]. by rewrite (IH d' r').
    + by intros [= <- <-].
Qed.

Lemma some_digits_app l d r :
  some_digits l = Some (d, r) → some_digits (l ++ rest) = Some (d, r ++ rest).
Proof.
  unfold some_digits. destruct (span_digits l) as [d' r'] eqn:Hl.
  rewrite (span_digits_app _ _ _ Hl). by destruct d'; [|intros [= <- <-]].
Qed.

Lemma int_part_app l d r : int_part l = Some (d, r) → int_part (l ++ rest) = Some (d, r ++ rest).
Proof.
  destruct l as [|c l]; [done|].
  destruct (decide (c = "0"%char)) as [->|Hne]; [by intros [= <- <-]|].
  intros H. assert (∀ l', int_part (c :: l') = some_digits (c :: l')) as Heq.
  { intros l'. destruct c as [[] [] [] [] [] [] [] []]; done. }
  rewrite Heq in H. rewrite <-app_comm_cons, Heq. by apply (some_digits_app (c :: l)).
Qed.

Lemma frac_part_app l d r : frac_part l = Some (d, r) → frac_part (l ++ rest) = Some (d, r ++ rest).
Proof.
  destruct l as [|c l].
  { intros [= <- <-]. by apply (number_end_cases rest). }
  destruct (decide (c = "."%char)) as [->|Hne].
  - cbn. destruct (some_digits l) as [[d' r']|] eqn:Hd; [|done]. cbn. intros [= <- <-].
    by rewrite (some_digits_app _ _ _ Hd).
  - intros H. assert (∀ l', frac_part (c :: l') = Some ([], c :: l')) as Heq.
    { intros l'. destruct c as [[] [] [] [] [] [] [] []]; done. }
    rewrite Heq in H. simplify_eq. by rewrite <-app_comm_cons, Heq.
Qed.

Lemma exp_sign_app l : l ≠ [] → exp_sign (l ++ rest) = ((exp_sign l).1, (exp_sign l).2 ++ rest).
Proof. destruct l as [|c l]; [done|]. intros _. by destruct c as [[] [] [] [] [] [] [] []]. Qed.

Lemma exp_part_app l d r : exp_part l = Some (d, r) → exp_part (l ++ rest) = Some (d, r ++ rest).
Proof.
  destruct l as [|c l]; cbn.
  { intros [= <- <-]. by apply (number_end_cases rest). }
  case_bool_decide as Hc; [|by intros [= <- <-]].
  destruct l as [|c' l]; [done|]. rewrite exp_sign_app by done.
  destruct (exp_sign (c' :: l)) as [es l'']. cbn.
  destruct (some_digits l'') as [[d' r']|] eqn:Hd; [|done]. cbn. intros [= <- <-].
  by rewrite (some_digits_app _ _ _ Hd).
Qed.

Lemma number_token_app t d r :
  number_token t = Some (d, r) → number_token (t ++ rest) = Some (d, r ++ rest).
Proof.
  destruct t as [|c t]; [done|]. unfold number_token.
  assert (sign_part ((c :: t) ++ rest) = ((sign_part (c :: t)).1, (sign_part (c :: t)).2 ++ rest)) as ->.
  { by destruct c as [[] [] [] [] [] [] [] []]. }
  destruct (sign_part (c :: t)) as [sg l1]. cbn.
  destruct (int_part l1) as [[ip l2]|] eqn:H2; [|done]. rewrite (int_part_app _ _ _ H2). cbn.
  destruct (frac_part l2) as [[fp l3]|] eqn:H3; [|done]. rewrite (frac_part_app _ _ _ H3). cbn.
  destruct (exp_part l3) as [[ep l4]|] eqn:H4; [|done]. rewrite (exp_part_app _ _ _ H4). cbn.
  by intros [= <- <-].
Qed.
End number.

(** ** Values *)

Lemma char_code c : char (code c) = c.
Proof. unfold char, code. by rewrite N2Z.id, ascii_N_embedding. Qed.

(** The first byte of a text is none of the bytes that end or separate. *)
Definition value_start (l : list ascii) : Prop :=
  ∃ c l', l = c :: l' ∧ c ∉ [" "%char; ascii_of_N 9; ascii_of_N 10; ascii_of_N 13; ","%char; "]"%char; "}"%char].

Lemma skip_ws_start l rest : value_start l → skip_ws (l ++ rest) = l ++ rest.
Proof.
  intros (c & l' & -> & Hc). cbn. rewrite bool_decide_eq_false_2; [done|].
  intros Hw. apply Hc. rewrite <-(char_code c).
  repeat (apply elem_of_cons in Hw as [->|Hw]; [vm_compute; set_solver|]).
  by apply not_elem_of_nil in Hw.
Qed.

Definition decodes (v : value) (e : list ascii) : Prop :=
  value_start e ∧
  ∀ fuel depth rest, (2 * length e ≤ fuel)%nat → depth + Z.of_nat (vdepth v) <= maxNestingDepth →
    number_end rest → decode fuel depth (e ++ rest) = Some (v, rest).

Lemma value_start_length e : value_start e → (1 ≤ length e)%nat.
Proof. intros (c & l & -> & _). cbn. lia. Qed.

(** Unfolding [decode] at a text whose first byte is known. *)
Lemma decode_start fuel depth c l :
  value_start (c :: l) →
  decode (S fuel) depth (c :: l) =
  (let n := code c in
   if n =? 34 then '(s, r) ← decode_string (S (length l)) 0 l; Some (VStr (String.string_of_list_ascii s), r)
   else if n =? 91 then
     if maxNestingDepth <? depth + 1 then None
     else match skip_ws l with
          | "]"%char :: r => Some (VArr [], r)
          | _ => '(vs, r) ← decode_elems fuel (depth + 1) l; Some (VArr vs, r)
          end
   else if n =? 123 then
     if maxNestingDepth <? depth + 1 then None
     else match skip_ws l with
          | "}"%char :: r => Some (VObj ∅, r)
          | _ => '(m, r) ← decode_members fuel (depth + 1) ∅ l; Some (VObj m, r)
          end
   else if n =? 116 then literal "true" (VBool true) (c :: l)
   else if n =? 102 then literal "false" (VBool false) (c :: l)
   else if n =? 110 then literal "null" VNull (c :: l)
   else '(t, r) ← number_token (c :: l);
        f ← parse_float (String.string_of_list_ascii t); Some (VFloat f, r)).
Proof.
  intros Hs. pose proof (skip_ws_start (c :: l) [] Hs) as Hw. rewrite app_nil_r in Hw.
  cbn -[skip_ws literal number_token code]. by rewrite Hw.
Qed.

Lemma code_dquote : code dquote = 34.
Proof. done. Qed.

Lemma decodes_string s : ascii_string s = true → decodes (VStr s) (encode_string s).
Proof.
  intros Hs. destruct (decode_encode_string s [] Hs) as (body & He & _). split.
  - exists dquote, body. rewrite He. split; [done|]. vm_compute. set_solver.
  - intros fuel depth rest Hf _ _.
    destruct (decode_encode_string s rest Hs) as (body' & He' & Hd). rewrite He' in *.
    destruct fuel as [|fuel]; [cbn in Hf; lia|]. rewrite <-app_comm_cons, decode_start.
    2: { exists dquote, (body' ++ rest). split; [done|]. vm_compute. set_solver. }
    rewrite code_dquote. cbn -[decode_string]. rewrite Hd by (rewrite length_app; lia).
    cbn. by rewrite String.string_of_list_ascii_of_string.
Qed.

Lemma number_token_start t :
  number_token t = Some (t, []) → ∃ c l, t = c :: l ∧ (c = "-"%char ∨ is_Some (digit_of c)).
Proof.
  destruct t as [|c l]; [done|]. intros H. exists c, l; split; [done|].
  destruct (decide (c = "-"%char)) as [|Hne]; [by left|right].
  unfold number_token in H. assert (sign_part (c :: l) = ([], c :: l)) as Hs.
  { destruct c as [[] [] [] [] [] [] [] []]; done. }
  rewrite Hs in H. destruct (decide (c = "0"%char)) as [->|Hz]; [by eexists|].
  assert (int_part (c :: l) = some_digits (c :: l)) as Hi.
  { destruct c as [[] [] [] [] [] [] [] []]; done. }
  rewrite Hi in H. unfold some_digits in H. cbn in H.
  case_bool_decide as Hd; [done|]. done.
Qed.

Lemma digit_of_range c d : digit_of c = Some d → 48 <= code c <= 57.
Proof.
  unfold digit_of, code. destruct (_ && _) eqn:Hb; [|done]. intros _.
  apply andb_true_iff in Hb as [?%Z.leb_le ?%Z.leb_le]. lia.
Qed.

Lemma decodes_number f t :
  number_token t = Some (t, []) → parse_float (String.string_of_list_ascii t) = Some f →
  decodes (VFloat f) t.
Proof.
  intros Ht Hp. destruct (number_token_start t Ht) as (c & l & -> & Hc).
  assert (code c = 45 ∨ 48 <= code c <= 57) as Hcode.
  { destruct Hc as [->|[d Hd]]; [by left|right]. by eapply digit_of_range. }
  assert (∀ l, value_start (c :: l)) as Hs.
  { intros l'. exists c, l'. split; [done|]. intros Hin.
    assert (code c ∈ [32; 9; 10; 13; 44; 93; 125]) as Hin'.
    { repeat (apply elem_of_cons in Hin as [->|Hin]; [vm_compute; set_solver|]).
      by apply not_elem_of_nil in Hin. }
    repeat (apply elem_of_cons in Hin' as [?|Hin']; [lia|]). by apply not_elem_of_nil in Hin'. }
  split; [apply Hs|]. intros fuel depth rest Hf _ Hrest.
  destruct fuel as [|fuel]; [cbn in Hf; lia|]. rewrite <-app_comm_cons, decode_start by done.
  cbv zeta. rewrite !(proj2 (Z.eqb_neq _ _)) by lia.
  rewrite (app_comm_cons l rest c), (number_token_app rest Hrest (c :: l) _ _ Ht).
  cbn [mbind option_bind]. by rewrite Hp.
Qed.

Ltac solve_start := eexists _, _; split; [reflexivity|vm_compute; set_solver].

(** [null], [true] and [false]. *)
Lemma decodes_null : decodes VNull (escaped_text "null").
Proof.
  split; [solve_start|]. intros fuel depth rest Hf _ _.
  destruct fuel as [|fuel]; [cbn in Hf; lia|]. reflexivity.
Qed.

Lemma decodes_bool b : decodes (VBool b) (escaped_text (format_bool b)).
Proof.
  split; [destruct b; solve_start|]. intros fuel depth rest Hf _ _.
  destruct fuel as [|fuel]; [destruct b; cbn in Hf; lia|]. by destruct b.
Qed.

(** *** Arrays *)

Lemma number_end_comma l : number_end (","%char :: l).
Proof. cbn. by left. Qed.
Lemma number_end_bracket l : number_end ("]"%char :: l).
Proof. cbn. right. by left. Qed.
Lemma number_end_brace l : number_end ("}"%char :: l).
Proof. cbn. right. right. by left. Qed.

Lemma decode_elems_ok l es depth :
  Forall2 decodes l es → l ≠ [] → Forall (λ v, depth + Z.of_nat (vdepth v) <= maxNestingDepth) l →
  ∀ fuel rest, (2 * S (length (intercalate "," es)) ≤ fuel)%nat →
  decode_elems fuel depth (intercalate "," es ++ "]"%char :: rest) = Some (l, rest).
Proof.
  induction 1 as [|v e l es [Hs Hd] Hes IH]; [done|]. intros _ Hdep fuel rest Hf.
  inversion Hdep; subst. destruct fuel as [|fuel]; [lia|].
  destruct Hes as [|v2 e2 l es [Hs2 Hd2] Hes].
  - cbn [decode_elems intercalate app]. rewrite Hd; [|cbn in Hf; lia|done|apply number_end_bracket]. done.
  - change (intercalate "," (e :: e2 :: es)) with (e ++ ","%char :: intercalate "," (e2 :: es)) in *.
    rewrite length_app in Hf. cbn [length] in Hf.
    rewrite <-(assoc_L (++)). cbn [decode_elems app].
    rewrite Hd; [|lia|done|apply number_end_comma]. cbn [mbind option_bind].
    rewrite (eq_refl : skip_ws (","%char :: _) = ","%char :: _).
    rewrite IH; [done|done|done|lia].
Qed.

Lemma value_start_intercalate e es : value_start e → value_start (intercalate "," (e :: es)).
Proof.
  intros (c & l & -> & Hc). destruct es as [|e2 es].
  - by exists c, l.
  - exists c, (l ++ ","%char :: intercalate "," (e2 :: es)). done.
Qed.

Lemma vdepth_elem v l : v ∈ l → (S (vdepth v) ≤ vdepth (VArr l))%nat.
Proof.
  cbn. induction l as [|w l IH]; [by intros ?%not_elem_of_nil|].
  intros [->|Hv]%elem_of_cons; cbn; [lia|]. specialize (IH Hv). lia.
Qed.

(** A match on a first byte that is known not to be the one it tests. *)
Lemma not_bracket {A} (l rest : list ascii) (y : A) (f : list ascii → A) :
  value_start l → match l ++ rest with "]"%char :: r => f r | _ => y end = y.
Proof.
  intros (c & l' & -> & Hc). cbn.
  destruct c as [[] [] [] [] [] [] [] []]; try done. exfalso. apply Hc. vm_compute. set_solver.
Qed.

Lemma decodes_array l es :
  Forall2 decodes l es → decodes (VArr l) ("["%char :: intercalate "," es ++ ["]"%char]).
Proof.
  intros Hes. split; [solve_start|]. intros fuel depth rest Hf Hdep Hrest.
  destruct fuel as [|fuel]; [cbn in Hf; lia|]. rewrite <-app_comm_cons, decode_start by solve_start.
  rewrite <-(assoc_L (++)). cbn [app].
  assert (code "[" = 91) as -> by done. cbn -[skip_ws decode_elems maxNestingDepth vdepth].
  assert (1 ≤ vdepth (VArr l))%nat by (cbn; lia).
  rewrite (proj2 (Z.ltb_ge _ _)) by lia.
  destruct Hes as [|v e l es [Hs Hd] Hes]; [done|].
  rewrite skip_ws_start by (by apply value_start_intercalate).
  rewrite not_bracket by (by apply value_start_intercalate).
  rewrite (decode_elems_ok (v :: l) (e :: es)); [done|by constructor|done| |].
  - apply Forall_forall. intros w Hw. pose proof (vdepth_elem w (v :: l) Hw). lia.
  - rewrite length_cons, length_app in Hf. cbn [length] in Hf. lia.
Qed.

(** *** Objects *)

(** The text of one member. *)
Definition member_text (kv : string * value) (e : list ascii) : Prop :=
  ascii_string kv.1 = true ∧ ∃ ev, e = encode_string kv.1 ++ ":"%char :: ev ∧ decodes kv.2 ev.

Definition insert_all (m : gmap string value) (kvs : list (string * value)) : gmap string value :=
  foldl (λ m '(k, v), <[k := v]> m) m kvs.

Lemma decode_members_unfold fuel depth m l :
  decode_members (S fuel) depth m (dquote :: l) =
  ('(k, r) ← decode_string (S (length l)) 0 l;
   match skip_ws r with
   | ":"%char :: r =>
       '(v, r) ← decode fuel depth r;
       let m := <[String.string_of_list_ascii k := v]> m in
       match skip_ws r with
       | "}"%char :: r => Some (m, r)
       | ","%char :: r => decode_members fuel depth m r
       | _ => None
       end
   | _ => None
   end).
Proof. reflexivity. Qed.

(** One member, up to what follows its value. *)
Lemma decode_member fuel depth m kv e rest :
  member_text kv e → (2 * length e ≤ fuel)%nat →
  depth + Z.of_nat (vdepth kv.2) <= maxNestingDepth → number_end rest →
  decode_members (S fuel) depth m (e ++ rest) =
  match skip_ws rest with
  | "}"%char :: r => Some (<[kv.1 := kv.2]> m, r)
  | ","%char :: r => decode_members fuel depth (<[kv.1 := kv.2]> m) r
  | _ => None
  end.
Proof.
  intros (Hk & ev & -> & [Hs Hd]) Hf Hdep Hrest. destruct kv as [k v]; cbn [fst snd] in *.
  rewrite <-(assoc_L (++)). cbn [app].
  destruct (decode_encode_string k (":"%char :: ev ++ rest) Hk) as (body & He & Hds).
  rewrite He in *. rewrite <-app_comm_cons, decode_members_unfold, Hds by (rewrite length_app; lia).
  cbn [mbind option_bind].
  rewrite (eq_refl : skip_ws (":"%char :: _) = ":"%char :: _).
  rewrite Hd; [|rewrite length_app in Hf; cbn in Hf; lia|done|done]. cbn [mbind option_bind].
  cbv zeta. by rewrite String.string_of_list_ascii_of_string.
Qed.

Lemma decode_members_ok kvs es depth :
  Forall2 member_text kvs es → kvs ≠ [] →
  Forall (λ kv, depth + Z.of_nat (vdepth kv.2) <= maxNestingDepth) kvs →
  ∀ fuel m rest, (2 * S (length (intercalate "," es)) ≤ fuel)%nat →
  decode_members fuel depth m (intercalate "," es ++ "}"%char :: rest) = Some (insert_all m kvs, rest).
Proof.
  induction 1 as [|[k v] e kvs es He Hes IH]; [done|]. intros _ Hdep fuel m rest Hf.
  inversion Hdep; subst. destruct fuel as [|fuel]; [lia|].
  destruct Hes as [|kv2 e2 kvs es He2 Hes].
  - cbn [intercalate app] in *. rewrite (decode_member fuel depth m (k, v));
      [|done|cbn in Hf; lia|done|apply number_end_brace]. done.
  - change (intercalate "," (e :: e2 :: es)) with (e ++ ","%char :: intercalate "," (e2 :: es)) in *.
    rewrite length_app in Hf. cbn [length] in Hf. rewrite <-(assoc_L (++)). cbn [app].
    rewrite (decode_member fuel depth m (k, v)); [|done|lia|done|apply number_end_comma].
    rewrite (eq_refl : skip_ws (","%char :: _) = ","%char :: _).
    rewrite IH; [done|done|done|lia].
Qed.

Lemma insert_all_list_to_map kvs m :
  NoDup kvs.*1 → insert_all m kvs = list_to_map kvs ∪ m.
Proof.
  revert m; induction kvs as [|[k v] kvs IH]; intros m Hnd; cbn; [by rewrite (left_id_L ∅ (∪))|].
  cbn in Hnd. apply NoDup_cons in Hnd as [Hk Hnd]. rewrite IH by done.
  rewrite <-insert_union_r, insert_union_l; [done|]. by apply not_elem_of_list_to_map_1.
Qed.

Lemma vdepth_member (m : gmap string value) k v :
  m !! k = Some v → (S (vdepth v) ≤ vdepth (VObj m))%nat.
Proof.
  intros Hk. cbn. apply le_n_S.
  assert ((vdepth <$> m) !! k = Some (vdepth v)) as Hd by (by rewrite lookup_fmap, Hk).
  revert Hd. generalize (vdepth <$> m), (vdepth v). clear.
  intros M. apply (map_fold_weak_ind (λ r M, ∀ n, M !! k = Some n → (n ≤ r)%nat)).
  - intros n. by rewrite lookup_empty.
  - intros j d M' r Hj IH n Hn. apply lookup_insert_Some in Hn as [[-> ->]|[_ Hn]]; [lia|].
    specialize (IH _ Hn). lia.
Qed.

Lemma not_brace {A} (l rest : list ascii) (y : A) (f : list ascii → A) :
  value_start l → match l ++ rest with "}"%char :: r => f r | _ => y end = y.
Proof.
  intros (c & l' & -> & Hc). cbn.
  destruct c as [[] [] [] [] [] [] [] []]; try done. exfalso. apply Hc. vm_compute. set_solver.
Qed.

Lemma member_start kv e : member_text kv e → value_start e.
Proof.
  intros (Hk & ev & -> & _). eexists dquote, _. split; [done|]. vm_compute. set_solver.
Qed.

Lemma decodes_object m kvs es :
  kvs ≡ₚ map_to_list m → Forall2 member_text kvs es →
  decodes (VObj m) ("{"%char :: intercalate "," es ++ ["}"%char]).
Proof.
  intros Hp Hes. split; [solve_start|]. intros fuel depth rest Hf Hdep Hrest.
  destruct fuel as [|fuel]; [cbn in Hf; lia|]. rewrite <-app_comm_cons, decode_start by solve_start.
  rewrite <-(assoc_L (++)). cbn [app].
  assert (code "{" = 123) as -> by done. cbn -[skip_ws decode_members maxNestingDepth vdepth].
  assert (1 ≤ vdepth (VObj m))%nat by (cbn; lia).
  rewrite (proj2 (Z.ltb_ge _ _)) by lia.
  destruct Hes as [|kv e kvs es He Hes].
  - apply Permutation_nil_l in Hp. symmetry in Hp. apply map_to_list_empty_iff in Hp as ->. done.
  - pose proof (member_start _ _ He) as Hs.
    rewrite skip_ws_start by (by apply value_start_intercalate).
    rewrite not_brace by (by apply value_start_intercalate).
    rewrite (decode_members_ok (kv :: kvs) (e :: es)); [|by constructor|done| |].
    + cbn [mbind option_bind]. do 3 f_equal. rewrite insert_all_list_to_map.
      * rewrite (right_id_L ∅ (∪)). rewrite <-(list_to_map_to_list m).
        apply list_to_map_proper; [|done]. rewrite Hp. apply NoDup_fst_map_to_list.
      * rewrite Hp. apply NoDup_fst_map_to_list.
    + apply Forall_forall. intros [k v] Hin. rewrite Hp in Hin. apply elem_of_map_to_list in Hin.
      apply vdepth_member in Hin. cbn [snd]. lia.
    + rewrite length_cons, length_app in Hf. cbn [length] in Hf. lia.
Qed.

(** ** All values *)

Lemma eq_Permutation {A} (l k : list A) : l = k → l ≡ₚ k.
Proof. by intros ->. Qed.

Lemma mapM_cons_Some {A B} (f : A → option B) x l y k :
  f x = Some y → mapM f l = Some k → mapM f (x :: l) = Some (y :: k).
Proof. intros Hx Hl. cbn. rewrite Hx. cbn. by rewrite Hl. Qed.

Lemma encode_decodes v : json_safe v = true → ∃ e, encode v = Some e ∧ decodes v e.
Proof.
  induction v as [|b|k z|f|s|l IH|m IH] using value_ind'; intros Hv; cbn in Hv.
  - eexists; split; [done|apply decodes_null].
  - eexists; split; [done|apply decodes_bool].
  - done.
  - unfold number_safe in Hv. destruct (encode_float f) as [t|] eqn:Ht; [|done].
    apply bool_decide_eq_true_1 in Hv as [H1 H2]. exists t. split; [done|by apply decodes_number].
  - eexists; split; [done|by apply decodes_string].
  - assert (∃ es, mapM id (encode <$> l) = Some es ∧ Forall2 decodes l es) as (es & Hes & Hd).
    { induction IH as [|v l Hv' _ IHl]; [by exists []|].
      cbn in Hv. apply andb_true_iff in Hv as [Hv Hl].
      destruct (Hv' Hv) as (e & He & Hde). destruct (IHl Hl) as (es & Hes & Hdes).
      exists (e :: es). split; [|by constructor]. by apply mapM_cons_Some. }
    exists ("["%char :: intercalate "," es ++ ["]"%char]). cbn. rewrite Hes. split; [done|].
    by apply decodes_array.
  - apply bool_decide_eq_true_1 in Hv.
    set (ks := sort_strings (map_to_list (encode <$> m)).*1).
    assert (ks ≡ₚ (map_to_list m).*1) as Hks.
    { unfold ks. rewrite sort_strings_perm, map_to_list_fmap, <-list_fmap_compose. done. }
    assert (∀ k, k ∈ ks → ∃ v, m !! k = Some v) as Hin.
    { intros k. rewrite Hks. intros ([k' v] & -> & Hk)%list_elem_of_fmap.
      apply elem_of_map_to_list in Hk. eauto. }
    assert (∃ es, mapM (λ k, e ← default None ((encode <$> m) !! k);
                        Some (encode_string k ++ ":"%char :: e)) ks = Some es ∧
                  Forall2 member_text ((λ k, (k, default VNull (m !! k))) <$> ks) es) as (es & Hes & Hd).
    { clearbody ks. clear Hks. induction ks as [|k ks IHk]; [by exists []|].
      destruct (Hin k ltac:(by left)) as [v Hk].
      destruct IHk as (es & Hes & Hd); [intros; apply Hin; by right|].
      assert (ascii_string k && json_safe v = true) as [Hak Hsv]%andb_true_iff.
      { apply (Hv k (json_safe v)). by rewrite lookup_fmap, Hk. }
      destruct (IH k v Hk Hsv) as (e & He & Hde).
      exists ((encode_string k ++ ":"%char :: e) :: es). split.
      - apply mapM_cons_Some; [|done]. by rewrite lookup_fmap, Hk; cbn; rewrite He.
      - constructor; [|done]. split; [done|]. cbn. rewrite Hk. by exists e. }
    exists ("{"%char :: intercalate "," es ++ ["}"%char]). split.
    { change (encode (VObj m)) with (encode_members (encode <$> m)). unfold encode_members.
      fold ks. by rewrite Hes. } eapply decodes_object; [|done].
    rewrite Hks, <-list_fmap_compose. apply eq_Permutation.
    rewrite <-(list_fmap_id (map_to_list m)) at 2. apply list_fmap_ext. intros _ [k v] Hk%list_elem_of_lookup_2. cbn.
    apply elem_of_map_to_list in Hk. by rewrite Hk.
Qed.

Lemma json_roundtrip v :
  json_safe v = true → Z.of_nat (vdepth v) <= maxNestingDepth →
  ∃ s, json_Marshal v = Some s ∧ json_Unmarshal s = Some v.
Proof.
  intros Hv Hdep. destruct (encode_decodes v Hv) as (e & He & Hs & Hd).
  exists (String.string_of_list_ascii e). unfold json_Marshal, json_Unmarshal, decode_text.
  rewrite He, String.list_ascii_of_string_of_list_ascii. split; [done|].
  specialize (Hd (S (2 * length e)) 0 []). rewrite app_nil_r in Hd. rewrite Hd; [done|lia|lia|done].
Qed.
