(* ===== verification/Duration.v ===== *)
(** [time.Duration]: signed 64-bit nanoseconds, their text form and its parser,
    as the duration operation (pkg/engine/k8sunits.go) uses them. *)
From Stdlib Require Import Ascii.
From S2P Require Import Prelude Float64.
#[local] Open Scope Z_scope.

(** Two's-complement wrap-around to a signed 64-bit integer. *)
Definition wrap64 (z : Z) : Z := (z + 2 ^ 63) mod 2 ^ 64 - 2 ^ 63.

Definition Nanosecond : Z := 1.
Definition Microsecond : Z := 1000.
Definition Millisecond : Z := 1000000.
Definition Second : Z := 1000000000.
Definition Minute : Z := 60 * Second.
Definition Hour : Z := 60 * Minute.

Abbreviation text := (list ascii).
Definition str (s : string) : text := String.list_ascii_of_string s.

(** ** [Duration.String] *)

Definition fmtInt (n : Z) : text := str (pretty n).

Definition strip_trailing_zeros (l : text) : text :=
  reverse ((fix go l := match l with "0"%char :: l' => go l' | _ => l end) (reverse l)).

(** [fmtFrac]: the fraction [v mod 10^prec] without trailing zeros, and a point
    unless nothing is left of it. *)
Definition fmtFrac (v prec : Z) : text :=
  if v mod 10 ^ prec =? 0 then []
  else "."%char :: strip_trailing_zeros (str (pad_left prec (pretty (v mod 10 ^ prec)))).

Definition micro : text := [ascii_of_N 194; ascii_of_N 181; "s"%char].   (* U+00B5 *)

Definition duration_text (d : Z) : text :=
  let u := Z.abs d in
  let body :=
    if u <? Second then
      if u =? 0 then str "0s"
      else if u <? Microsecond then fmtInt u ++ str "ns"
      else if u <? Millisecond then fmtInt (u / Microsecond) ++ fmtFrac u 3 ++ micro
      else fmtInt (u / Millisecond) ++ fmtFrac u 6 ++ str "ms"
    else
      let secs := u / Second in
      let mins := secs / 60 in
      let hours := mins / 60 in
      (if 0 <? hours then fmtInt hours ++ ["h"%char] else []) ++
      (if 0 <? mins then fmtInt (mins mod 60) ++ ["m"%char] else []) ++
      fmtInt (secs mod 60) ++ fmtFrac u 9 ++ ["s"%char] in
  if d <? 0 then "-"%char :: body else body.

Definition Duration_String (d : Z) : string := String.string_of_list_ascii (duration_text d).

(** ** [time.ParseDuration] *)

(** [leadingInt]: the leading digits; [None] when the value passes 2^63. *)
Fixpoint leadingInt (x : Z) (l : text) : option (Z * text) :=
  match l with
  | c :: l' =>
      match digit_of c with
      | Some d =>
          if 2 ^ 63 / 10 <? x then None
          else let x := x * 10 + d in if 2 ^ 63 <? x then None else leadingInt x l'
      | None => Some (x, l)
      end
  | [] => Some (x, [])
  end.

(** [leadingFraction]: value, power of ten, rest; digits past the overflow are
    skipped. *)
Fixpoint leadingFraction (x scale : Z) (overflow : bool) (l : text) : Z * Z * text :=
  match l with
  | c :: l' =>
      match digit_of c with
      | Some d =>
          if overflow then leadingFraction x scale true l'
          else if (2 ^ 63 - 1) / 10 <? x then leadingFraction x scale true l'
          else let y := x * 10 + d in
               if 2 ^ 63 <? y then leadingFraction x scale true l'
               else leadingFraction y (scale * 10) false l'
      | None => (x, scale, l)
      end
  | [] => (x, scale, [])
  end.

(** The unit: everything up to the next digit or point. *)
Fixpoint leadingUnit (l : text) : text * text :=
  match l with
  | c :: l' =>
      if bool_decide (c = "."%char) || bool_decide (is_Some (digit_of c)) then ([], l)
      else let '(u, r) := leadingUnit l' in (c :: u, r)
  | [] => ([], [])
  end.

Definition unitMap : list (text * Z) :=
  [(str "ns", Nanosecond); (str "us", Microsecond);
   (micro, Microsecond); ([ascii_of_N 206; ascii_of_N 188; "s"%char], Microsecond);  (* U+03BC *)
   (str "ms", Millisecond); (str "s", Second); (str "m", Minute); (str "h", Hour)].

Fixpoint assoc_text (u : text) (l : list (text * Z)) : option Z :=
  match l with
  | [] => None
  | (k, v) :: l => if bool_decide (k = u) then Some v else assoc_text u l
  end.

(** [uint64(float64(f) * (float64(unit) / scale))]. *)
Definition fraction_value (f unit_ scale : Z) : Z :=
  default 0 (f64_to_Z (f64_mul (f64_of_Z f) (f64_div (f64_of_Z unit_) (f64_of_Z scale)))).

(** The optional fraction: value, power of ten, rest, and whether it has digits. *)
Definition parse_fraction (l : text) : Z * Z * text * bool :=
  match l with
  | "."%char :: l' =>
      let '(f, scale, r) := leadingFraction 0 1 false l' in
      (f, scale, r, negb (Nat.eqb (length l') (length r)))
  | _ => (0, 1, l, false)
  end.

(** One [number unit] group, as nanoseconds. *)
Definition parse_group (l : text) : option (Z * text) :=
  match l with
  | [] => None
  | c :: _ =>
      if negb (bool_decide (c = "."%char) || bool_decide (is_Some (digit_of c))) then None
      else
        '(v, l1) ← leadingInt 0 l;
        let pre := negb (Nat.eqb (length l) (length l1)) in
        let '(f, scale, l2, post) := parse_fraction l1 in
        if negb pre && negb post then None
        else
          let '(u, l3) := leadingUnit l2 in
          match u with
          | [] => None
          | _ =>
              unit_ ← assoc_text u unitMap;
              if 2 ^ 63 / unit_ <? v then None
              else
                let v := v * unit_ in
                let v := if 0 <? f then v + fraction_value f unit_ scale else v in
                if 2 ^ 63 <? v then None else Some (v, l3)
          end
  end.

(** The loop; [d] is an unsigned 64-bit sum. *)
Fixpoint parse_groups (fuel : nat) (d : Z) (l : text) : option Z :=
  match l with
  | [] => Some d
  | _ =>
      match fuel with
      | O => None
      | S fuel =>
          '(v, l') ← parse_group l;
          let d := (d + v) mod 2 ^ 64 in
          if 2 ^ 63 <? d then None else parse_groups fuel d l'
      end
  end.

(** [None] is the "invalid duration" family of errors. *)
Definition ParseDuration (s : string) : option Z :=
  let '(neg, l) := read_sign (str s) in
  if bool_decide (l = str "0") then Some 0
  else match l with
       | [] => None
       | _ =>
           d ← parse_groups (length l) 0 l;
           if neg then Some (wrap64 (- d))
           else if 2 ^ 63 - 1 <? d then None else Some d
       end.

(** * Lemmas: whole seconds survive the trip through text *)

(** What stops the digits of a number. *)
Definition nondigit_head (l : text) : Prop :=
  match l with c :: _ => digit_of c = None | [] => True end.

Lemma digit_of_pretty_char n : (n < 10)%N → digit_of (pretty_N_char n) = Some (Z.of_N n).
Proof.
  intros Hn.
  assert (n = 0 ∨ n = 1 ∨ n = 2 ∨ n = 3 ∨ n = 4 ∨ n = 5 ∨ n = 6 ∨ n = 7 ∨ n = 8 ∨ n = 9)%N
    as H by lia.
  by repeat (destruct H as [->|H]); [..|subst].
Qed.

Lemma leadingInt_stop x l : nondigit_head l → leadingInt x l = Some (x, l).
Proof. destruct l as [|c l]; [done|]. cbn. by intros ->. Qed.

Lemma leadingInt_go x s :
  Z.of_N x <= 2 ^ 63 → leadingInt 0 (str (pretty_N_go x s)) = leadingInt (Z.of_N x) (str s).
Proof.
  revert s. induction (N.lt_wf_0 x) as [x _ IH]; intros s Hx.
  destruct (decide (x = 0)%N) as [->|Hne]; [by rewrite pretty_N_go_0|].
  rewrite pretty_N_go_step by lia.
  assert (x / 10 < x)%N by (apply N.div_lt; lia).
  rewrite IH by lia. cbn -[Z.pow]. rewrite digit_of_pretty_char by (by apply N.mod_lt).
  rewrite N2Z.inj_div, N2Z.inj_mod.
  rewrite (proj2 (Z.ltb_ge _ _)) by (apply Z.div_le_mono; lia).
  change (Z.of_N 10) with 10. pose proof (Z.div_mod (Z.of_N x) 10 ltac:(done)).
  replace (Z.of_N x / 10 * 10 + Z.of_N x mod 10) with (Z.of_N x) by lia.
  by rewrite (proj2 (Z.ltb_ge _ _)) by lia.
Qed.

Lemma str_append a b : str (a +:+ b) = str a ++ str b.
Proof. induction a as [|c a IH]; [done|]. rewrite append_cons. cbn. f_equal. exact IH. Qed.

Lemma pretty_N_go_append x s t : pretty_N_go x (s +:+ t) = pretty_N_go x s +:+ t.
Proof.
  revert s. induction (N.lt_wf_0 x) as [x _ IH]; intros s.
  destruct (decide (x = 0)%N) as [->|Hne]; [by rewrite !pretty_N_go_0|].
  rewrite !(pretty_N_go_step x) by lia. rewrite <-append_cons. apply IH, N.div_lt; lia.
Qed.

Lemma pretty_nonneg n : 0 <= n → pretty n = pretty (Z.to_N n).
Proof. intros Hn. by destruct n. Qed.

Lemma leadingInt_fmtInt n l :
  0 <= n <= 2 ^ 63 → nondigit_head l → leadingInt 0 (fmtInt n ++ l) = Some (n, l).
Proof.
  intros Hn Hl. unfold fmtInt. rewrite pretty_nonneg by lia. unfold pretty, pretty_N.
  case_decide as Hz.
  - assert (n = 0) as -> by lia. cbn. destruct l as [|c l]; [done|]. cbn in *. by rewrite Hl.
  - assert (str (String.string_of_list_ascii l) = l) as Hs
      by apply String.list_ascii_of_string_of_list_ascii.
    rewrite <-Hs at 1. rewrite <-str_append, <-pretty_N_go_append, leadingInt_go by lia.
    rewrite append_empty_l, Hs, Z2N.id by lia. by apply leadingInt_stop.
Qed.

(** The digits start with a digit. *)
Lemma fmtInt_head n : 0 <= n → ∃ c l d, fmtInt n = c :: l ∧ digit_of c = Some d.
Proof.
  intros Hn. unfold fmtInt. rewrite pretty_nonneg by done. unfold pretty, pretty_N.
  case_decide as Hz; [by eexists _, _, _|].
  assert (∀ x s, (0 < x)%N → ∃ c l d, str (pretty_N_go x s) = c :: l ∧ digit_of c = Some d) as Hgo.
  { intros x. induction (N.lt_wf_0 x) as [x _ IH]; intros s Hx.
    rewrite pretty_N_go_step by done.
    destruct (decide (x / 10 = 0)%N) as [->|Hne].
    - rewrite pretty_N_go_0. eexists _, _, _; split; [done|].
      apply digit_of_pretty_char. by apply N.mod_lt.
    - apply IH; [apply N.div_lt; lia|by apply N.neq_0_lt_0]. }
  apply Hgo. lia.
Qed.

(** One group of a printed duration: an integer and a one-letter unit. *)
Lemma parse_group_unit n c v l :
  0 <= n → n * v <= 2 ^ 63 → 0 < v → c ≠ "."%char → digit_of c = None →
  assoc_text [c] unitMap = Some v →
  match l with [] => True | c' :: _ => c' = "."%char ∨ is_Some (digit_of c') end →
  parse_group (fmtInt n ++ c :: l) = Some (n * v, l).
Proof.
  intros Hn Hnv Hv Hc Hcd Hu Hl. assert (n <= 2 ^ 63) by nia.
  destruct (fmtInt_head n Hn) as (c0 & l0 & d0 & Hf & Hd0).
  unfold parse_group. rewrite Hf. cbn [app].
  rewrite (bool_decide_eq_true_2 (is_Some (digit_of c0))) by (by rewrite Hd0).
  rewrite orb_true_r. cbn [negb]. change (c0 :: l0 ++ c :: l) with ((c0 :: l0) ++ c :: l).
  rewrite <-Hf, leadingInt_fmtInt by (done || lia). cbn [mbind option_bind].
  rewrite (proj2 (Nat.eqb_neq _ _)) by (rewrite length_app, Hf; cbn; lia).
  assert (parse_fraction (c :: l) = (0, 1, c :: l, false)) as ->.
  { destruct c as [[] [] [] [] [] [] [] []]; done. }
  cbn [negb andb]. cbn [leadingUnit].
  rewrite (bool_decide_eq_false_2 (c = "."%char)), (bool_decide_eq_false_2 (is_Some (digit_of c)))
    by (done || rewrite Hcd; by intros []). cbn [orb].
  assert (leadingUnit l = ([], l)) as ->.
  { destruct l as [|c' l]; [done|]. cbn. destruct Hl as [->|Hl]; [done|].
    by rewrite (bool_decide_eq_true_2 _ Hl), orb_true_r. }
  rewrite Hu. cbn [mbind option_bind Z.ltb Z.compare].
  rewrite (proj2 (Z.ltb_ge (2 ^ 63 / v) n)) by (apply Z.div_le_lower_bound; lia).
  by rewrite (proj2 (Z.ltb_ge (2 ^ 63) (n * v))) by lia.
Qed.

(** Each group adds to the sum. *)
Lemma parse_groups_step fuel d v l l' :
  parse_group l = Some (v, l') → 0 <= d → 0 <= v → d + v <= 2 ^ 63 →
  parse_groups (S fuel) d l = parse_groups fuel (d + v) l'.
Proof.
  intros Hg Hd Hv Hs. assert (l ≠ []) by (by intros ->).
  destruct l as [|c l]; [done|]. cbn [parse_groups]. rewrite Hg. cbn [mbind option_bind].
  rewrite Z.mod_small by lia. by rewrite (proj2 (Z.ltb_ge _ _)) by lia.
Qed.

Lemma str_of_list l : str (String.string_of_list_ascii l) = l.
Proof. apply String.list_ascii_of_string_of_list_ascii. Qed.

(** The groups of [n] whole seconds. *)
Definition seconds_body (n : Z) : text :=
  (if 0 <? n / 60 / 60 then fmtInt (n / 60 / 60) ++ ["h"%char] else []) ++
  (if 0 <? n / 60 then fmtInt (n / 60 mod 60) ++ ["m"%char] else []) ++
  fmtInt (n mod 60) ++ ["s"%char].

Lemma duration_text_seconds n :
  0 <= n → duration_text (n * Second) = seconds_body n.
Proof.
  intros Hn. destruct (decide (n = 0)) as [->|Hne]; [reflexivity|].
  unfold duration_text. rewrite Z.abs_eq, (proj2 (Z.ltb_ge (n * Second) Second)),
    (proj2 (Z.ltb_ge (n * Second) 0)), Z.div_mul by (unfold Second; lia).
  unfold fmtFrac. replace ((n * Second) mod 10 ^ 9) with 0 by (symmetry; by apply Z.mod_mul).
  done.
Qed.

Lemma duration_text_neg n :
  0 < n → duration_text (- n * Second) = "-"%char :: duration_text (n * Second).
Proof.
  intros Hn. unfold duration_text.
  replace (- n * Second) with (- (n * Second)) by lia. rewrite Z.abs_opp.
  rewrite (proj2 (Z.ltb_lt (- (n * Second)) 0)), (proj2 (Z.ltb_ge (n * Second) 0))
    by (unfold Second; lia). done.
Qed.

(** What follows a group is the start of another one. *)
Definition group_head (l : text) : Prop :=
  match l with [] => True | c :: _ => c = "."%char ∨ is_Some (digit_of c) end.

Lemma group_head_fmtInt n l : 0 <= n → group_head (fmtInt n ++ l).
Proof. intros Hn. destruct (fmtInt_head n Hn) as (c & k & d & -> & Hd). cbn. right; by eexists. Qed.

(** One printed group of a longer text. *)
Lemma parse_groups_unit fuel d n c v l :
  0 <= n → 0 < v → 0 <= d → d + n * v <= 2 ^ 63 → c ≠ "."%char → digit_of c = None →
  assoc_text [c] unitMap = Some v → group_head l →
  parse_groups (S fuel) d (fmtInt n ++ c :: l) = parse_groups fuel (d + n * v) l.
Proof.
  intros Hn Hv Hd Hs Hc Hcd Hu Hl.
  apply parse_groups_step; [apply parse_group_unit; (done || lia)|done|lia|done].
Qed.

Lemma parse_seconds_tail fuel d n :
  0 <= n < 60 → 0 <= d → d + n * Second <= 2 ^ 63 →
  parse_groups (S fuel) d (fmtInt n ++ ["s"%char]) = Some (d + n * Second).
Proof.
  intros Hn Hd Hs. rewrite (parse_groups_unit _ _ _ _ Second) by (done || lia). by destruct fuel.
Qed.

Lemma parse_minutes_tail fuel d m n :
  0 <= m < 60 → 0 <= n < 60 → 0 <= d → d + m * Minute + n * Second <= 2 ^ 63 →
  parse_groups (S (S fuel)) d (fmtInt m ++ "m"%char :: fmtInt n ++ ["s"%char]) =
  Some (d + m * Minute + n * Second).
Proof.
  intros Hm Hn Hd Hs.
  rewrite (parse_groups_unit _ _ _ _ Minute);
    [apply parse_seconds_tail| | | | | | | |apply group_head_fmtInt];
    unfold Minute, Second in *; (done || lia).
Qed.

(** Every group consumes at least one byte, so the length of the text is fuel
    enough for the loop. *)
Lemma leadingInt_length x l y r : leadingInt x l = Some (y, r) → (length r ≤ length l)%nat.
Proof.
  revert x; induction l as [|c l IH]; intros x; cbn -[Z.pow]; [by intros [= _ <-]|].
  destruct (digit_of c); [|by intros [= _ <-]].
  destruct (_ <? _); [done|]. destruct (_ <? _); [done|]. intros ?%IH. lia.
Qed.

Lemma leadingFraction_length x sc o l : (length (leadingFraction x sc o l).2 ≤ length l)%nat.
Proof.
  revert x sc o; induction l as [|c l IH]; intros x sc o; cbn -[Z.pow Z.div]; [lia|].
  destruct (digit_of c); [|cbn; lia].
  repeat case_match; etrans; try apply IH; lia.
Qed.

Lemma leadingUnit_length l : (length (leadingUnit l).1 + length (leadingUnit l).2 = length l)%nat.
Proof.
  induction l as [|c l IH]; cbn; [done|]. destruct (_ || _); [done|].
  destruct (leadingUnit l); cbn in *; lia.
Qed.

Lemma parse_fraction_length l : (length (parse_fraction l).1.2 ≤ length l)%nat.
Proof.
  destruct l as [|c l]; [done|]. destruct c as [[] [] [] [] [] [] [] []]; cbn; try lia.
  pose proof (leadingFraction_length 0 1 false l).
  destruct (leadingFraction _ _ _ _) as [[? ?] ?]; cbn in *; lia.
Qed.

Lemma parse_group_length l v r : parse_group l = Some (v, r) → (length r < length l)%nat.
Proof.
  unfold parse_group. destruct l as [|c l]; [done|]. destruct (negb _); [done|].
  destruct (leadingInt 0 (c :: l)) as [[w l1]|] eqn:Hi; [|done]. apply leadingInt_length in Hi.
  cbn [mbind option_bind].
  pose proof (parse_fraction_length l1) as Hf.
  destruct (parse_fraction l1) as [[[f sc] l2] post]; cbn [fst snd] in Hf.
  destruct (_ && _); [done|]. pose proof (leadingUnit_length l2) as Hu.
  destruct (leadingUnit l2) as [u l3]. destruct u as [|cu u]; [done|].
  destruct (assoc_text _ _) as [w'|]; [|done]. cbn [mbind option_bind].
  destruct (_ <? w); [done|]. destruct (_ <? _); [done|]. intros [= _ <-]. cbn in *. lia.
Qed.

Lemma parse_groups_fuel fuel d l x :
  parse_groups fuel d l = Some x → ∀ n, (length l ≤ n)%nat → parse_groups n d l = Some x.
Proof.
  revert d l; induction fuel as [|fuel IH]; intros d l H n Hn.
  - destruct l; [|done]. by destruct n.
  - destruct l as [|c l]; [by destruct n|]. destruct n as [|n]; [cbn in Hn; lia|].
    cbn [parse_groups] in *. destruct (parse_group (c :: l)) as [[v l']|] eqn:Hg; [|done].
    apply parse_group_length in Hg. cbn [mbind option_bind] in *.
    destruct (_ <? _); [done|]. eapply IH; [done|]. cbn in *. lia.
Qed.

Lemma parse_seconds_body n fuel :
  0 <= n → n * Second <= 2 ^ 63 → parse_groups (3 + fuel) 0 (seconds_body n) = Some (n * Second).
Proof.
  intros Hn Hs. unfold seconds_body.
  pose proof (Z.div_mod n 60 ltac:(done)). pose proof (Z.mod_pos_bound n 60 ltac:(done)).
  pose proof (Z.div_mod (n / 60) 60 ltac:(done)).
  pose proof (Z.mod_pos_bound (n / 60) 60 ltac:(done)).
  assert (0 <= n / 60) by (by apply Z.div_pos). assert (0 <= n / 60 / 60) by (by apply Z.div_pos).
  assert (n * Second = n / 60 / 60 * Hour + n / 60 mod 60 * Minute + n mod 60 * Second) as Hsplit
    by (unfold Hour, Minute, Second; lia).
  destruct (0 <? n / 60 / 60) eqn:Hh; [apply Z.ltb_lt in Hh|apply Z.ltb_ge in Hh].
  - rewrite (proj2 (Z.ltb_lt 0 (n / 60))) by lia. rewrite <-!(assoc_L (++)). cbn [app Nat.add].
    rewrite (parse_groups_unit _ _ _ _ Hour);
      [rewrite parse_minutes_tail; [f_equal|..]| | | | | | | |apply group_head_fmtInt];
      unfold Hour, Minute, Second in *; (done || lia).
  - assert (n / 60 / 60 = 0) as Hz by lia. rewrite Hz in Hsplit. cbn [app Nat.add].
    destruct (0 <? n / 60) eqn:Hm; [apply Z.ltb_lt in Hm|apply Z.ltb_ge in Hm].
    + rewrite <-!(assoc_L (++)). cbn [app].
      rewrite parse_minutes_tail; [f_equal|..]; unfold Hour, Minute, Second in *; lia.
    + cbn [app]. rewrite parse_seconds_tail; [f_equal|..]; unfold Hour, Minute, Second in *; lia.
Qed.

Lemma read_sign_digit c d l : digit_of c = Some d → read_sign (c :: l) = (false, c :: l).
Proof. destruct c as [[] [] [] [] [] [] [] []]; done. Qed.

Lemma seconds_body_shape n :
  0 <= n → ∃ c l d, seconds_body n = c :: l ∧ digit_of c = Some d ∧ (2 ≤ length (seconds_body n))%nat ∧
    seconds_body n ≠ str "0".
Proof.
  intros Hn. assert (∃ m l c', 0 <= m ∧ seconds_body n = fmtInt m ++ c' :: l) as (m & l & c' & Hm & Hb).
  { unfold seconds_body. assert (0 <= n / 60 / 60) by (apply Z.div_pos; [apply Z.div_pos|]; lia).
    pose proof (Z.mod_pos_bound (n / 60) 60 ltac:(done)). pose proof (Z.mod_pos_bound n 60 ltac:(done)).
    destruct (0 <? n / 60 / 60); [|destruct (0 <? n / 60)]; cbn [app];
      rewrite <-?(assoc_L (++)); cbn [app]; eexists _, _, _; (split; [|done]); lia. }
  destruct (fmtInt_head m Hm) as (c & k & d & Hf & Hd). rewrite Hf in Hb.
  exists c, (k ++ c' :: l), d. rewrite Hb. split_and!; try done.
  - cbn. rewrite length_app. cbn. lia.
  - cbn. intros [= _ Hk]. by destruct k.
Qed.

Lemma ParseDuration_seconds_nonneg n :
  0 <= n → n * Second < 2 ^ 63 → ParseDuration (Duration_String (n * Second)) = Some (n * Second).
Proof.
  intros Hn Hs. unfold ParseDuration, Duration_String.
  rewrite str_of_list, duration_text_seconds by done.
  destruct (seconds_body_shape n Hn) as (c & l & d & Hb & Hd & Hlen & Hne).
  pose proof (parse_seconds_body n (length (seconds_body n)) Hn ltac:(lia)) as Hp.
  rewrite Hb, (read_sign_digit c d l Hd), <-Hb, bool_decide_eq_false_2 by done.
  assert (parse_groups (length (seconds_body n)) 0 (seconds_body n) = Some (n * Second)) as ->.
  { by eapply parse_groups_fuel. }
  cbn [mbind option_bind]. by rewrite (proj2 (Z.ltb_ge _ _)) by lia.
Qed.

Lemma wrap64_id z : - 2 ^ 63 <= z < 2 ^ 63 → wrap64 z = z.
Proof. intros Hz. unfold wrap64. rewrite Z.mod_small; lia. Qed.

Lemma ParseDuration_seconds_neg n :
  0 < n → n * Second <= 2 ^ 63 → ParseDuration (Duration_String (- n * Second)) = Some (- n * Second).
Proof.
  intros Hn Hs. unfold ParseDuration, Duration_String.
  rewrite str_of_list, duration_text_neg, duration_text_seconds by lia. cbn [read_sign].
  destruct (seconds_body_shape n ltac:(lia)) as (c & l & d & Hb & Hd & Hlen & Hne).
  pose proof (parse_seconds_body n (length (seconds_body n)) ltac:(lia) Hs) as Hp.
  rewrite bool_decide_eq_false_2 by done.
  assert (parse_groups (length (seconds_body n)) 0 (seconds_body n) = Some (n * Second)) as ->.
  { by eapply parse_groups_fuel. }
  rewrite Hb. cbn [mbind option_bind]. rewrite wrap64_id by (unfold Second in *; lia). f_equal. lia.
Qed.

Lemma ParseDuration_seconds n :
  - 2 ^ 63 <= n * Second < 2 ^ 63 → ParseDuration (Duration_String (n * Second)) = Some (n * Second).
Proof.
  intros Hn. destruct (decide (0 <= n)).
  - apply ParseDuration_seconds_nonneg; lia.
  - replace n with (- - n) by lia. apply ParseDuration_seconds_neg; unfold Second in *; lia.
Qed.
