(* ===== verification/Path.v ===== *)
(** Field paths and the operations on object trees (pkg/engine/path.go).

    A [FieldPath] is a list of map keys.  [getValue], [setValue] and
    [deleteValue] are the only ways the conversion operations touch an object;
    the lemmas below are their algebra: what a write makes readable, what it
    leaves alone, when it fails, and when two writes commute. *)
From Stdlib Require Import Ascii.
From S2P Require Import Prelude Float64 Value.

Abbreviation FieldPath := (list string).

(** [errFieldPath] and the two messages [setValue] builds. *)
Inductive errFieldPath :=
| errEmptyPath
| errCannotDescend (seg : string).
#[export] Instance errFieldPath_eq_dec : EqDecision errFieldPath.
Proof. solve_decision. Defined.

(** ** Text forms *)

Definition ParsePath (s : string) : FieldPath :=
  if bool_decide (s = "") then [] else split s ".".

(** [FieldPath.String]. *)
Definition path_string (p : FieldPath) : string := join "." p.

(** [FieldPathFromJSONPointer]: RFC 6901, [~1] for a slash and [~0] for a tilde. *)
Definition FieldPathFromJSONPointer (ptr : string) : FieldPath :=
  let ptr := trim_prefix ptr "/" in
  if bool_decide (ptr = "") then []
  else (λ s, replace_all (replace_all s "~1" "/") "~0" "~") <$> split ptr "/".

(** [FieldPath.Equal]. *)
Fixpoint path_equal (p o : FieldPath) : bool :=
  match p, o with
  | [], [] => true
  | x :: p, y :: o => bool_decide (x = y) && path_equal p o
  | _, _ => false
  end.

(** [FieldPath.HasPrefix]. *)
Fixpoint has_path_prefix (p pre : FieldPath) {struct pre} : bool :=
  match pre, p with
  | [], _ => true
  | x :: pre, y :: p => bool_decide (x = y) && has_path_prefix p pre
  | _ :: _, [] => false
  end.

(** [lastSegment] (schema.go). *)
Definition lastSegment (p : FieldPath) : string := default "" (last p).

(** ** Reading *)

(** The loop of [getValue] from the current node. *)
Fixpoint walk (cur : value) (path : FieldPath) : option value :=
  match path with
  | [] => Some cur
  | seg :: path =>
      match cur with
      | VObj m => match m !! seg with Some v => walk v path | None => None end
      | _ => None
      end
  end.

Definition getValue (o : obj) (path : FieldPath) : option value := walk (VObj o) path.
Arguments getValue : simpl never.

(** ** Writing *)

(** The map [setValue] descends into at [seg], created when absent. *)
Definition descend (o : obj) (seg : string) : res errFieldPath obj :=
  match o !! seg with
  | None => Ok ∅
  | Some (VObj m) => Ok m
  | Some _ => Err (errCannotDescend seg)
  end.

Fixpoint setValue (o : obj) (path : FieldPath) (val : value) : res errFieldPath obj :=
  match path with
  | [] => Err errEmptyPath
  | [k] => Ok (<[k := val]> o)
  | seg :: rest => m ← descend o seg; m' ← setValue m rest val; Ok (<[seg := VObj m']> o)
  end.

Fixpoint deleteValue (o : obj) (path : FieldPath) : obj :=
  match path with
  | [] => o
  | [k] => delete k o
  | seg :: rest =>
      match o !! seg with
      | Some (VObj m) => <[seg := VObj (deleteValue m rest)]> o
      | _ => o
      end
  end.

(** The loop over [i := len(path)-1 .. 1]: prune [path[:i]] while it is an empty
    map, stop at the first one that is not. *)
Fixpoint prune_ancestors (o : obj) (path : FieldPath) (i : nat) : obj :=
  match i with
  | O => o
  | S i' =>
      let parent := take i path in
      match getValue o parent with
      | Some (VObj m) =>
          if bool_decide (size m = 0) then prune_ancestors (deleteValue o parent) path i' else o
      | _ => o
      end
  end.

Definition deleteValuePruningEmptyMaps (o : obj) (path : FieldPath) : obj :=
  prune_ancestors (deleteValue o path) path (length path - 1).

(** * Lemmas *)

(** Two paths neither of which is at or below the other. *)
Definition path_disjoint (p q : FieldPath) : Prop := ¬ p `prefix_of` q ∧ ¬ q `prefix_of` p.
#[export] Instance path_disjoint_dec p q : Decision (path_disjoint p q).
Proof. apply _. Defined.

Lemma path_disjoint_sym p q : path_disjoint p q → path_disjoint q p.
Proof. unfold path_disjoint; tauto. Qed.

Lemma path_disjoint_cons k p q : path_disjoint (k :: p) (k :: q) ↔ path_disjoint p q.
Proof.
  unfold path_disjoint. split; intros [H1 H2]; split; intros ?;
    [apply H1|apply H2|apply H1|apply H2]; by try apply prefix_cons; eauto using prefix_cons_inv_2.
Qed.

Lemma path_disjoint_nil_l q : ¬ path_disjoint [] q.
Proof. intros [H _]. apply H, prefix_nil. Qed.

Lemma path_equal_spec p o : path_equal p o = bool_decide (p = o).
Proof.
  revert o; induction p as [|x p IH]; intros [|y o]; cbn; try done.
  rewrite IH. repeat case_bool_decide; naive_solver.
Qed.

Lemma prefix_cons_iff {A} (x y : A) (p q : list A) :
  (x :: p) `prefix_of` (y :: q) ↔ x = y ∧ p `prefix_of` q.
Proof.
  split; [|intros [-> ?]; by apply prefix_cons].
  intros H. eauto using prefix_cons_inv_1, prefix_cons_inv_2.
Qed.

Lemma has_path_prefix_spec p pre : has_path_prefix p pre = bool_decide (pre `prefix_of` p).
Proof.
  revert p; induction pre as [|x pre IH]; intros p; cbn.
  { symmetry. apply bool_decide_eq_true. apply prefix_nil. }
  destruct p as [|y p].
  { symmetry. apply bool_decide_eq_false. apply prefix_nil_not. }
  rewrite IH. by rewrite (bool_decide_ext _ _ (prefix_cons_iff x y pre p)), bool_decide_and.
Qed.

(** A path whose segments hold no dot, other than the one-segment empty path,
    survives a trip through its text. *)
Lemma ParsePath_path_string p :
  Forall (λ s, has_char "."%char s = false) p → p ≠ [""] →
  ParsePath (path_string p) = p.
Proof.
  intros Hp Hne. unfold ParsePath, path_string.
  destruct p as [|x [|y p]]; [done|..].
  - cbn. case_bool_decide; [naive_solver|].
    apply split_no_char. by inversion Hp.
  - rewrite bool_decide_eq_false_2.
    2: { rewrite join_cons by done. by destruct x. }
    by apply split_join_char.
Qed.

Lemma path_string_ParsePath s : path_string (ParsePath s) = s.
Proof. unfold ParsePath, path_string. case_bool_decide; [done|]. by apply join_split. Qed.

Lemma path_string_inj p q :
  Forall (λ s, has_char "."%char s = false) p → p ≠ [""] →
  Forall (λ s, has_char "."%char s = false) q → q ≠ [""] →
  path_string p = path_string q → p = q.
Proof.
  intros Hp Hp' Hq Hq' Heq.
  by rewrite <-(ParsePath_path_string p), <-(ParsePath_path_string q), Heq by done.
Qed.

Lemma walk_app v p q : walk v (p ++ q) = (x ← walk v p; walk x q).
Proof.
  revert v; induction p as [|k p IH]; intros v; [done|]; cbn.
  destruct v; cbn; try done. by destruct (m !! k).
Qed.

Lemma getValue_cons o k p :
  getValue o (k :: p) = (v ← o !! k; walk v p).
Proof. by unfold getValue; cbn; destruct (o !! k). Qed.

Lemma getValue_key o k : getValue o [k] = o !! k.
Proof. rewrite getValue_cons. by destruct (o !! k). Qed.

Lemma walk_VObj m p : walk (VObj m) p = getValue m p.
Proof. done. Qed.

Lemma getValue_empty p : p ≠ [] → getValue ∅ p = None.
Proof. destruct p; [done|]. by rewrite getValue_cons, lookup_empty. Qed.

Lemma setValue_single o k v : setValue o [k] v = Ok (<[k := v]> o).
Proof. done. Qed.

Lemma setValue_cons o k p v :
  p ≠ [] →
  setValue o (k :: p) v = (m ← descend o k; m' ← setValue m p v; Ok (<[k := VObj m']> o)).
Proof. by destruct p. Qed.

#[local] Arguments setValue : simpl never.
#[local] Arguments deleteValue : simpl never.
#[local] Arguments walk : simpl never.

(** [descend] reads the sub-object there, or an empty one. *)
Lemma getValue_descend o k m p :
  descend o k = Ok m → p ≠ [] → getValue o (k :: p) = getValue m p.
Proof.
  unfold descend. intros Hd Hp. rewrite getValue_cons.
  destruct (o !! k) as [[]|] eqn:Hk; simplify_eq; [done|].
  by rewrite getValue_empty.
Qed.

Lemma getValue_insert_VObj o k m p : getValue (<[k := VObj m]> o) (k :: p) = walk (VObj m) p.
Proof. rewrite getValue_cons. by simplify_map_eq. Qed.

Lemma path_disjoint_nil_r p : ¬ path_disjoint p [].
Proof. intros [_ H]. apply H, prefix_nil. Qed.

(** A successful write as a relation, for induction. *)
Inductive set_at (v : value) : obj → FieldPath → obj → Prop :=
| set_at_key o k : set_at v o [k] (<[k := v]> o)
| set_at_sub o k p m m' :
    p ≠ [] → descend o k = Ok m → set_at v m p m' → set_at v o (k :: p) (<[k := VObj m']> o).

Lemma setValue_set_at o p v o' : setValue o p v = Ok o' ↔ set_at v o p o'.
Proof.
  split.
  - revert o o'; induction p as [|k p IH]; intros o o' Hset; [done|].
    destruct (decide (p = [])) as [->|Hp].
    + rewrite setValue_single in Hset. simplify_eq. constructor.
    + rewrite setValue_cons in Hset by done. simplify_res. econstructor; eauto.
  - induction 1 as [|o k p m m' Hp Hd _ IH]; [done|].
    rewrite setValue_cons, Hd by done; cbn. by rewrite IH.
Qed.

(** Reading back what was written, at the path and below it. *)
Lemma getValue_setValue_below o p v o' q :
  setValue o p v = Ok o' → getValue o' (p ++ q) = walk v q.
Proof.
  intros Hset%setValue_set_at. induction Hset as [o k|o k p m m' Hp Hd Hset IH];
    rewrite <-app_comm_cons.
  - rewrite getValue_cons. by simplify_map_eq.
  - by rewrite getValue_insert_VObj.
Qed.

Lemma getValue_setValue o p v o' : setValue o p v = Ok o' → getValue o' p = Some v.
Proof. intros H. rewrite <-(app_nil_r p). by erewrite getValue_setValue_below. Qed.

(** Everything at a disjoint path is untouched. *)
Lemma getValue_setValue_disjoint o p v o' q :
  setValue o p v = Ok o' → path_disjoint p q → getValue o' q = getValue o q.
Proof.
  intros Hset%setValue_set_at; revert q.
  induction Hset as [o k|o k p m m' Hp Hd Hset IH]; intros [|k2 q] Hq;
    try by apply path_disjoint_nil_r in Hq.
  - destruct (decide (k = k2)) as [<-|Hne].
    + by apply path_disjoint_cons, path_disjoint_nil_l in Hq.
    + rewrite !getValue_cons. by simplify_map_eq.
  - destruct (decide (k = k2)) as [<-|Hne].
    + apply path_disjoint_cons in Hq.
      assert (q ≠ []) by (intros ->; by apply path_disjoint_nil_r in Hq).
      rewrite getValue_insert_VObj, walk_VObj, IH by done.
      by erewrite <-getValue_descend.
    + rewrite !getValue_cons. by simplify_map_eq.
Qed.

(** A top-level key other than the first segment is untouched. *)
Lemma setValue_lookup_ne o k p v o' k' :
  setValue o (k :: p) v = Ok o' → k ≠ k' → o' !! k' = o !! k'.
Proof.
  intros Hset Hne. destruct (decide (p = [])) as [->|Hp].
  - rewrite setValue_single in Hset. by simplify_map_eq.
  - rewrite setValue_cons in Hset by done. simplify_res. by simplify_map_eq.
Qed.

(** [setValue] fails exactly on the empty path or when a proper prefix of the
    path holds a non-object. *)
Fixpoint writable (o : obj) (p : FieldPath) : bool :=
  match p with
  | [] => false
  | [_] => true
  | k :: p => match descend o k with Ok m => writable m p | Err _ => false end
  end.

Lemma writable_cons o k p :
  p ≠ [] → writable o (k :: p) = match descend o k with Ok m => writable m p | Err _ => false end.
Proof. by destruct p. Qed.

Lemma writable_setValue o p v : writable o p = res_ok (setValue o p v).
Proof.
  revert o; induction p as [|k p IH]; intros o; [done|].
  destruct (decide (p = [])) as [->|Hp]; [done|].
  rewrite writable_cons, setValue_cons by done.
  destruct (descend o k) as [m|] eqn:Hd; cbn; [|done].
  rewrite IH. by destruct (setValue m p v).
Qed.

Lemma writable_Ok o p v : writable o p = true → ∃ o', setValue o p v = Ok o'.
Proof. rewrite (writable_setValue o p v). destruct (setValue o p v); cbn; eauto; done. Qed.

Lemma setValue_writable o p v o' : setValue o p v = Ok o' → writable o p = true.
Proof. intros H. by rewrite (writable_setValue o p v), H. Qed.

Lemma writable_empty p : p ≠ [] → writable ∅ p = true.
Proof.
  induction p as [|k p IH]; [done|intros _]. destruct (decide (p = [])) as [->|Hp]; [done|].
  rewrite writable_cons by done. unfold descend. rewrite lookup_empty. by apply IH.
Qed.

(** The same, by what the proper prefixes hold. *)
Lemma writable_spec o p :
  writable o p = true ↔
  p ≠ [] ∧ ∀ q k r v, p = q ++ k :: r → q ≠ [] → getValue o q = Some v → is_Some (as_obj v).
Proof.
  revert o; induction p as [|k p IH]; intros o; [naive_solver|].
  destruct (decide (p = [])) as [->|Hp].
  { split; [|done]. intros _; split; [done|]. intros [|? [|]] ??? Hq; cbn in Hq; naive_solver. }
  rewrite writable_cons by done. split.
  - intros Hw; split; [done|]. destruct (descend o k) as [m|] eqn:Hd; [|done].
    apply IH in Hw as [_ Hw]. intros [|k2 q] k' r v Hq Hne Hv; [done|].
    rewrite <-app_comm_cons in Hq. injection Hq as <- Hq.
    destruct (decide (q = [])) as [->|Hqne].
    + rewrite getValue_key in Hv. unfold descend in Hd.
      destruct (o !! k) as [[]|]; cbn in *; simplify_eq; by eexists.
    + eapply Hw; [done..|]. by erewrite <-getValue_descend.
  - intros [_ Hw]. destruct (descend o k) as [m|] eqn:Hd.
    + apply IH. split; [done|]. intros q k' r v Hq Hne Hv.
      apply (Hw (k :: q) k' r v); [by rewrite Hq|done|]. by erewrite getValue_descend.
    + unfold descend in Hd. destruct (o !! k) as [v|] eqn:Hk; [|done].
      destruct p as [|k' p]; [done|].
      destruct (Hw [k] k' p v) as [m Hm]; [done|done|by rewrite getValue_key|].
      by destruct v.
Qed.

Lemma descend_insert o k m : descend (<[k := VObj m]> o) k = Ok m.
Proof. unfold descend. by simplify_map_eq. Qed.

Lemma descend_insert_ne o k k' v : k ≠ k' → descend (<[k := v]> o) k' = descend o k'.
Proof. intros. unfold descend. by simplify_map_eq. Qed.

Lemma setValue_cons_Ok o k p v o' :
  p ≠ [] → setValue o (k :: p) v = Ok o' ↔
  ∃ m m', descend o k = Ok m ∧ setValue m p v = Ok m' ∧ o' = <[k := VObj m']> o.
Proof.
  intros Hp. rewrite setValue_cons, res_bind_Ok by done. split.
  - intros (m & Hm & (m' & Hm' & [= <-])%res_bind_Ok). eauto.
  - intros (m & m' & Hm & Hm' & ->). exists m; split; [done|]. by rewrite Hm'.
Qed.

(** What [setValue] puts under the first key depends only on what is there. *)
Lemma setValue_local o1 o2 k p v o1' :
  o1 !! k = o2 !! k → setValue o1 (k :: p) v = Ok o1' →
  ∃ u, o1' = <[k := u]> o1 ∧ setValue o2 (k :: p) v = Ok (<[k := u]> o2).
Proof.
  intros Hk Hset. destruct (decide (p = [])) as [->|Hp].
  { rewrite setValue_single in Hset. simplify_eq. by exists v. }
  apply setValue_cons_Ok in Hset as (m & m' & Hm & Hm' & ->); [|done].
  exists (VObj m'); split; [done|]. apply setValue_cons_Ok; [done|].
  exists m, m'. unfold descend in *. by rewrite <-Hk.
Qed.

(** Writes at disjoint paths commute. *)
Lemma setValue_comm o p v q w o1 o2 :
  path_disjoint p q → setValue o p v = Ok o1 → setValue o1 q w = Ok o2 →
  ∃ o1', setValue o q w = Ok o1' ∧ setValue o1' p v = Ok o2.
Proof.
  revert q o o1 o2; induction p as [|k p IH]; intros q o o1 o2 Hd H1 H2; [done|].
  destruct q as [|k2 q]; [by apply path_disjoint_nil_r in Hd|].
  destruct (decide (k = k2)) as [<-|Hne].
  - apply path_disjoint_cons in Hd.
    assert (p ≠ []) by (intros ->; by apply path_disjoint_nil_l in Hd).
    assert (q ≠ []) by (intros ->; by apply path_disjoint_nil_r in Hd).
    apply setValue_cons_Ok in H1 as (m & m1 & Hm & Hm1 & ->); [|done].
    apply setValue_cons_Ok in H2 as (? & m2 & Hm' & Hm2 & ->); [|done].
    rewrite descend_insert in Hm'. simplify_eq.
    edestruct IH as (m1' & H1' & H2'); [exact Hd|exact Hm1|exact Hm2|].
    exists (<[k := VObj m1']> o). rewrite !setValue_cons_Ok by done. split.
    + eauto.
    + exists m1', m2. by rewrite descend_insert, !insert_insert_eq.
  - destruct (setValue_local o o k p v o1) as (u & -> & _); [done|done|].
    destruct (setValue_local (<[k := u]> o) o k2 q w o2) as (u2 & -> & Hq);
      [by simplify_map_eq|done|].
    exists (<[k2 := u2]> o); split; [done|].
    destruct (setValue_local o (<[k2 := u2]> o) k p v (<[k := u]> o)) as (u' & Hu & ->);
      [by simplify_map_eq|done|].
    f_equal. rewrite insert_insert_ne by done.
    assert (u = u') as ->; [|done].
    apply (f_equal (.!! k)) in Hu. by simplify_map_eq.
Qed.

(** ** Deletion *)

Lemma deleteValue_single o k : deleteValue o [k] = delete k o.
Proof. done. Qed.

Lemma deleteValue_cons o k p :
  p ≠ [] →
  deleteValue o (k :: p) =
  match o !! k with Some (VObj m) => <[k := VObj (deleteValue m p)]> o | _ => o end.
Proof. by destruct p. Qed.

Lemma getValue_deleteValue o p : p ≠ [] → getValue (deleteValue o p) p = None.
Proof.
  revert o; induction p as [|k p IH]; intros o Hne; [done|clear Hne].
  destruct (decide (p = [])) as [->|Hp].
  { rewrite deleteValue_single, getValue_key. by simplify_map_eq. }
  rewrite deleteValue_cons by done.
  destruct p as [|k' p]; [done|].
  destruct (o !! k) as [v|] eqn:Hk; [|by rewrite getValue_cons, Hk].
  destruct v; try (by rewrite getValue_cons, Hk).
  rewrite getValue_insert_VObj, walk_VObj. by apply IH.
Qed.

Lemma getValue_deleteValue_disjoint o p q :
  path_disjoint p q → getValue (deleteValue o p) q = getValue o q.
Proof.
  revert o q; induction p as [|k p IH]; intros o [|k2 q] Hq;
    [done|done|by apply path_disjoint_nil_r in Hq|].
  destruct (decide (k = k2)) as [<-|Hne].
  - apply path_disjoint_cons in Hq.
    assert (p ≠ []) by (intros ->; by apply path_disjoint_nil_l in Hq).
    rewrite deleteValue_cons by done. destruct (o !! k) as [[]|] eqn:Hk; try done.
    rewrite getValue_insert_VObj, walk_VObj, IH by done. by rewrite getValue_cons, Hk.
  - destruct (decide (p = [])) as [->|Hp].
    { rewrite deleteValue_single, !getValue_cons. by simplify_map_eq. }
    rewrite deleteValue_cons by done. destruct (o !! k) as [[]|] eqn:Hk; try done.
    rewrite !getValue_cons. by simplify_map_eq.
Qed.

Lemma deleteValue_insert_VObj o k m p :
  p ≠ [] → deleteValue (<[k := VObj m]> o) (k :: p) = <[k := VObj (deleteValue m p)]> o.
Proof.
  intros. rewrite deleteValue_cons by done. simplify_map_eq. by rewrite insert_insert_eq.
Qed.

(** ** Pruning *)

(** Every proper non-empty prefix of [p] up to length [i] is a map in [o]. *)
Definition maps_along (o : obj) (p : FieldPath) (i : nat) : Prop :=
  ∀ j, 0 < j ≤ i → j < length p → ∃ m, getValue o (take j p) = Some (VObj m).

Lemma maps_along_delete o p q i :
  i < length q → maps_along o p i → q `prefix_of` p →
  maps_along (deleteValue o q) p i.
Proof.
  intros Hi Hm Hpre j Hj Hjp. destruct (Hm j Hj Hjp) as [m Hv]. clear Hm.
  assert (Hjq : j < length q) by lia. clear Hi i Hj.
  assert (∃ m, getValue (deleteValue o q) (take j q) = Some (VObj m)) as Hgoal.
  { destruct Hpre as [r ->]. rewrite take_app_le in Hv by lia. clear Hjp r.
    revert o j m Hv Hjq; induction q as [|k q IH]; intros o j m Hv Hjq; [cbn in Hjq; lia|].
    destruct j as [|j]; [by rewrite take_0; eexists|]. cbn [take length] in *.
    destruct (decide (q = [])) as [->|Hq]; [cbn in Hjq; lia|].
    rewrite deleteValue_cons by done. rewrite getValue_cons in Hv.
    destruct (o !! k) as [u|] eqn:Hk; cbn in Hv; [|done].
    destruct u; try by (rewrite getValue_cons, Hk; cbn; eexists).
    rewrite getValue_insert_VObj, walk_VObj. rewrite walk_VObj in Hv.
    eapply IH; [done|lia]. }
  destruct Hpre as [r ->]. by rewrite take_app_le by lia.
Qed.

Lemma prune_ancestors_insert o k m p i :
  i < length p → maps_along m p i →
  prune_ancestors (<[k := VObj m]> o) (k :: p) (S i) =
  let m' := prune_ancestors m p i in
  if bool_decide (size m' = 0) then delete k o else <[k := VObj m']> o.
Proof.
  revert m; induction i as [|i IH]; intros m Hi Hm.
  - cbn -[size]. rewrite take_0, getValue_key, lookup_insert_eq.
    case_bool_decide; [|done]. rewrite deleteValue_single. by rewrite delete_insert_eq.
  - destruct (Hm (S i)) as [x Hx]; [lia|done|].
    change (prune_ancestors ?o ?p (S ?i)) with
      (match getValue o (take (S i) p) with
       | Some (VObj m) => if bool_decide (size m = 0) then prune_ancestors (deleteValue o (take (S i) p)) p i else o
       | _ => o end).
    change (take (S (S i)) (k :: p)) with (k :: take (S i) p).
    assert (Hne : take (S i) p ≠ []) by (destruct p; [cbn in Hi; lia|done]).
    rewrite getValue_insert_VObj, walk_VObj, Hx.
    case_bool_decide.
    + rewrite deleteValue_insert_VObj by done. rewrite IH; [done|lia|].
      eapply maps_along_delete.
      * rewrite length_take. lia.
      * intros j Hj ?. apply Hm; lia.
      * apply prefix_take.
    + cbn -[size]. rewrite bool_decide_eq_false_2; [done|].
      intros Hz%map_size_empty_inv. subst m. by rewrite getValue_empty in Hx.
Qed.

Lemma deletePruning_insert o k m p :
  p ≠ [] → maps_along m p (length p - 1) →
  deleteValuePruningEmptyMaps (<[k := VObj m]> o) (k :: p) =
  let m' := deleteValuePruningEmptyMaps m p in
  if bool_decide (size m' = 0) then delete k o else <[k := VObj m']> o.
Proof.
  intros Hp Hm. unfold deleteValuePruningEmptyMaps.
  rewrite deleteValue_insert_VObj by done.
  assert (0 < length p) by (by destruct p; [|cbn; lia]).
  replace (length (k :: p) - 1) with (S (length p - 1)) by (cbn; lia).
  apply prune_ancestors_insert; [lia|].
  eapply maps_along_delete; [lia|done|done].
Qed.

Lemma setValue_maps_along o p v o' i : setValue o p v = Ok o' → maps_along o' p i.
Proof.
  intros Hset%setValue_set_at. revert i.
  induction Hset as [o k|o k p m m' Hp Hd Hset IH]; intros i j Hj Hjp; cbn in Hjp; [lia|].
  destruct j as [|j]; [lia|]. cbn [take]. rewrite getValue_insert_VObj, walk_VObj.
  destruct j as [|j]; [rewrite take_0; by eexists|]. apply (IH (S j)); lia.
Qed.

(** Writing to a fresh path and then deleting it with pruning gives back the
    original, provided no map along the path was already empty. *)
Lemma deletePruning_setValue o p v o' :
  setValue o p v = Ok o' → getValue o p = None →
  (∀ q r, p = q ++ r → q ≠ [] → r ≠ [] → getValue o q ≠ Some (VObj ∅)) →
  deleteValuePruningEmptyMaps o' p = o.
Proof.
  intros Hset%setValue_set_at.
  induction Hset as [o k|o k p m m' Hp Hd Hset IH]; intros Hnone Hne.
  - unfold deleteValuePruningEmptyMaps; cbn. rewrite getValue_key in Hnone.
    rewrite deleteValue_single. by apply delete_insert_id.
  - rewrite deletePruning_insert; [|done|].
    2: { eapply setValue_maps_along. by apply setValue_set_at. }
    cbv zeta. rewrite IH.
    + unfold descend in Hd. destruct (o !! k) as [u|] eqn:Hk.
      * destruct u; simplify_eq. case_bool_decide as Hs; [|by apply insert_id].
        apply map_size_empty_inv in Hs as ->. exfalso.
        apply (Hne [k] p); [done..|]. by rewrite getValue_key.
      * simplify_eq. rewrite bool_decide_eq_true_2 by apply map_size_empty.
        by apply delete_id.
    + by erewrite <-getValue_descend.
    + intros q r -> Hq Hr. erewrite <-getValue_descend by done.
      by apply (Hne (k :: q) r).
Qed.

(** Deleting an object that turned out empty changes no value at a path that
    does not lie on the way to it. *)
Lemma getValue_below_empty o p m q :
  getValue o p = Some (VObj m) → m = ∅ → p `prefix_of` q → p ≠ q → getValue o q = None.
Proof.
  intros Hp -> [r ->] Hne. unfold getValue in *. rewrite walk_app, Hp. cbn.
  destruct r as [|k r]; [by rewrite app_nil_r in Hne|].
  change (walk (VObj ∅) (k :: r)) with (getValue ∅ (k :: r)). by apply getValue_empty.
Qed.

Lemma getValue_delete_above o p q :
  p ≠ [] → p `prefix_of` q → getValue (deleteValue o p) q = None.
Proof.
  intros Hp [r ->]. unfold getValue. rewrite walk_app.
  fold (getValue (deleteValue o p) p). by rewrite getValue_deleteValue.
Qed.

Lemma prune_ancestors_disjoint o p i q :
  path_disjoint p q → i ≤ length p → getValue (prune_ancestors o p i) q = getValue o q.
Proof.
  intros Hd. revert o; induction i as [|i IH]; intros o Hi; [done|].
  cbn -[take size]. destruct (getValue o (take (S i) p)) as [[]|] eqn:Hv; try done.
  case_bool_decide as Hs; [|done]. apply map_size_empty_inv in Hs.
  rewrite IH by lia.
  assert (Hne : take (S i) p ≠ []) by (destruct p; [cbn in Hi; lia|done]).
  destruct (decide (take (S i) p `prefix_of` q)) as [Hpre|Hpre].
  - rewrite getValue_delete_above by done. symmetry.
    eapply getValue_below_empty; [done|done|done|].
    intros Heq. destruct Hd as [_ Hd]. apply Hd. rewrite <-Heq. apply prefix_take.
  - apply getValue_deleteValue_disjoint. split; [done|].
    intros Hq. destruct Hd as [_ Hd]. apply Hd. etrans; [done|apply prefix_take].
Qed.

Lemma getValue_deletePruning_disjoint o p q :
  path_disjoint p q → getValue (deleteValuePruningEmptyMaps o p) q = getValue o q.
Proof.
  intros Hd. unfold deleteValuePruningEmptyMaps.
  rewrite prune_ancestors_disjoint by (done || lia). by apply getValue_deleteValue_disjoint.
Qed.

(** Pruning deletes the value and nothing brings it back. *)
Lemma getValue_deleteValue_None o p q : getValue o q = None → getValue (deleteValue o p) q = None.
Proof.
  intros Hq. destruct (decide (p = [])) as [->|Hp]; [done|].
  destruct (decide (p `prefix_of` q)) as [Hpre|Hnpre]; [by apply getValue_delete_above|].
  destruct (decide (q `prefix_of` p)) as [[r ->]|Hnq].
  - revert o Hq Hp; induction q as [|k q IH]; intros o Hq Hp; [done|].
    rewrite <-app_comm_cons. rewrite getValue_cons in Hq.
    destruct (decide (q ++ r = [])) as [Hqr|Hqr].
    { apply app_eq_nil in Hqr as [-> ->]. rewrite deleteValue_single, getValue_key. by simplify_map_eq. }
    rewrite deleteValue_cons by done. destruct (o !! k) as [u|] eqn:Hk; [|by rewrite getValue_cons, Hk].
    destruct u; try by rewrite getValue_cons, Hk.
    rewrite getValue_insert_VObj, walk_VObj. cbn in Hq. rewrite walk_VObj in Hq.
    apply IH; [|done|done]. intros Hpre. apply Hnpre. by apply prefix_cons.
  - by rewrite getValue_deleteValue_disjoint.
Qed.

Lemma getValue_prune_None o p i q : getValue o q = None → getValue (prune_ancestors o p i) q = None.
Proof.
  revert o; induction i as [|i IH]; intros o Hq; [done|]. cbn -[take size].
  destruct (getValue o (take (S i) p)) as [[]|]; try done.
  case_bool_decide; [|done]. apply IH. by apply getValue_deleteValue_None.
Qed.

Lemma getValue_deletePruning o p : p ≠ [] → getValue (deleteValuePruningEmptyMaps o p) p = None.
Proof. intros Hp. by apply getValue_prune_None, getValue_deleteValue. Qed.

(** ** A batch of writes *)

Definition setValues (o : obj) (ws : list (FieldPath * value)) : res errFieldPath obj :=
  res_foldl (λ o '(p, v), setValue o p v) o ws.

(** No two writes of the batch overlap. *)
Definition writes_disjoint (ws : list (FieldPath * value)) : Prop :=
  ForallOrdPairs path_disjoint ws.*1.

#[export] Instance path_disjoint_symmetric : Symmetric path_disjoint.
Proof. intros p q. apply path_disjoint_sym. Qed.

Lemma setValues_cons o p v ws : setValues o ((p, v) :: ws) = (o' ← setValue o p v; setValues o' ws).
Proof. done. Qed.

Lemma ForallOrdPairs_perm {A} (R : A → A → Prop) `{!Symmetric R} l k :
  l ≡ₚ k → ForallOrdPairs R l → ForallOrdPairs R k.
Proof.
  induction 1 as [|x l k Hp IH|x y l|l k j _ IH1 _ IH2]; intros H; [done|..].
  - inversion H as [|? ? Hx Hl]; subst. constructor; [by rewrite <-Hp|auto].
  - inversion H as [|? ? Hy Hl]; subst. inversion Hl as [|? ? Hx Hl']; subst.
    inversion Hy; subst. repeat constructor; auto.
  - auto.
Qed.

Lemma setValues_perm o ws ws' o' :
  ws ≡ₚ ws' → writes_disjoint ws → setValues o ws = Ok o' → setValues o ws' = Ok o'.
Proof.
  unfold writes_disjoint. intros Hp. revert o.
  induction Hp as [|[p v] l k Hp IH|[p v] [q w] l|l k j Hlk IH1 _ IH2]; intros o Hd Ho.
  - done.
  - inversion Hd; subst. rewrite setValues_cons in *. simplify_res.
    apply res_bind_Ok. eauto.
  - inversion Hd as [|? ? Hq Hl]; subst. inversion Hq; subst.
    rewrite setValues_cons in *. apply res_bind_Ok in Ho as (o1 & Ho1 & Ho2).
    rewrite setValues_cons in *. apply res_bind_Ok in Ho2 as (o2 & Ho2 & Ho3).
    destruct (setValue_comm o q w p v o1 o2) as (o1' & Ho1' & Ho2'); [done..|].
    apply res_bind_Ok. exists o1'; split; [done|]. by rewrite setValues_cons, Ho2'.
  - apply IH2; [|by apply IH1]. eapply ForallOrdPairs_perm; [apply _| |done]. by rewrite Hlk.
Qed.

Lemma getValue_setValues_disjoint o ws o' q :
  setValues o ws = Ok o' → Forall (λ p, path_disjoint p q) ws.*1 → getValue o' q = getValue o q.
Proof.
  revert o; induction ws as [|[p v] ws IH]; intros o Ho Hd; [by injection Ho as ->|].
  rewrite setValues_cons in Ho. apply res_bind_Ok in Ho as (o1 & H1 & H2).
  inversion Hd; subst. erewrite IH by done. by eapply getValue_setValue_disjoint.
Qed.

Lemma getValue_setValues o ws o' p v :
  setValues o ws = Ok o' → writes_disjoint ws → (p, v) ∈ ws → getValue o' p = Some v.
Proof.
  revert o; induction ws as [|[q w] ws IH]; intros o Ho Hd Hin; [by apply not_elem_of_nil in Hin|].
  rewrite setValues_cons in Ho. apply res_bind_Ok in Ho as (o1 & H1 & H2).
  inversion Hd as [|? ? Hq Hl]; subst. apply elem_of_cons in Hin as [[= <- <-]|Hin]; [|by eapply IH].
  erewrite getValue_setValues_disjoint; [by eapply getValue_setValue|done|].
  eapply Forall_impl; [done|]. intros ? ?. by symmetry.
Qed.

(** ** Writes that cannot fail *)

(** A write beside a path leaves it writable. *)
Lemma writable_setValue_disjoint o p v o' q :
  setValue o p v = Ok o' → path_disjoint p q → writable o q = true → writable o' q = true.
Proof.
  intros Hs Hd Hw. apply writable_spec in Hw as [Hq Hw]. apply writable_spec. split; [done|].
  intros x k r w Hx Hne Hv. destruct (decide (x `prefix_of` p)) as [Hpre|Hpre].
  - destruct Hpre as [y Hy]. destruct (setValue_maps_along o p v o' (length x) Hs (length x)) as [m Hm].
    { destruct x; [done|cbn; lia]. }
    { rewrite Hy, length_app. destruct y; [|cbn; lia]. exfalso. apply (proj1 Hd).
      rewrite Hy, app_nil_r, Hx. by eexists. }
    rewrite Hy, take_app_length, Hv in Hm. injection Hm as ->. by eexists.
  - rewrite (getValue_setValue_disjoint _ _ _ _ x Hs) in Hv; [by eapply Hw|]. split; [|done].
    intros Hpx. apply (proj1 Hd). etrans; [exact Hpx|]. rewrite Hx. by eexists.
Qed.

(** A batch of disjoint writes to writable paths succeeds. *)
Lemma setValues_total o ws :
  writes_disjoint ws → Forall (λ p, writable o p = true) ws.*1 →
  ∃ o', setValues o ws = Ok o' ∧
    ∀ q, writable o q = true → Forall (λ p, path_disjoint p q) ws.*1 → writable o' q = true.
Proof.
  unfold writes_disjoint. revert o; induction ws as [|[p v] ws IH]; intros o Hd Hw; [by exists o|]. cbn [fmap list_fmap fst] in Hd, Hw.
  inversion Hd as [|? ? Hp Hd']; subst. inversion Hw as [|? ? Hwp Hw']; subst.
  destruct (writable_Ok o p v Hwp) as [o1 Ho1]. rewrite setValues_cons, Ho1. cbn.
  destruct (IH o1 Hd') as (o' & Ho' & Hkeep).
  { rewrite Forall_forall in Hw', Hp |- *. intros q Hq.
    eapply writable_setValue_disjoint; [done|by apply Hp|by apply Hw']. }
  exists o'. split; [done|]. intros q Hq Hdq. inversion Hdq; subst.
  apply Hkeep; [|done]. by eapply writable_setValue_disjoint.
Qed.

(** What an object holds can be written where it came from. *)
Lemma present_writable o p v : p ≠ [] → getValue o p = Some v → writable o p = true.
Proof.
  intros Hp Hv. apply writable_spec. split; [done|]. intros q k r w -> Hq Hw.
  unfold getValue in *. rewrite walk_app in Hv. rewrite Hw in Hv. by destruct w.
Qed.
