(* ===== verification/Schema.v ===== *)
(** OpenAPI schemas and their leaves (pkg/engine/schema.go).

    [JSONSchemaProps] carries the fields of the Kubernetes type that the engine
    reads.  The validations it never reads (patterns, bounds, formats, ...) are
    represented by [sOther], the JSON names of those that are set; they matter in
    one place only, the sibling check of a [$ref] node.  An absent and an empty
    [properties] map are not told apart: every test the engine makes on it is
    [len(...) > 0], apart from the choice between two wordings of one error. *)
From S2P Require Import Prelude Float64 Value Path.

Inductive JSONSchemaProps := Schema {
  sRef : option string;
  sType : string;
  sNullable : bool;
  sXPreserveUnknownFields : option bool;
  sEnum : list string;                       (* raw JSON *)
  sRequired : list string;
  sOneOf : list JSONSchemaProps;
  sAnyOf : list JSONSchemaProps;
  sAllOf : list JSONSchemaProps;
  sProperties : gmap string JSONSchemaProps;
  (* JSONSchemaPropsOrArray: Schema and JSONSchemas *)
  sItems : option (option JSONSchemaProps * list JSONSchemaProps);
  (* JSONSchemaPropsOrBool: Allows and Schema *)
  sAdditionalProperties : option (bool * option JSONSchemaProps);
  sDefinitions : gmap string JSONSchemaProps;
  sMaxItems : option Z;
  sDefault : option string;                  (* raw JSON *)
  sDescription : string;
  sTitle : string;
  sOther : list string;
}.

(** [&JSONSchemaProps{}]. *)
Definition emptySchema : JSONSchemaProps :=
  Schema None "" false None [] [] [] [] [] ∅ None None ∅ None None "" "" [].

(** Scalars, objects and typed arrays, for concrete inputs. *)
Definition scalar_schema (ty : string) : JSONSchemaProps :=
  Schema None ty false None [] [] [] [] [] ∅ None None ∅ None None "" "" [].
Definition object_schema (req : list string) (props : gmap string JSONSchemaProps) : JSONSchemaProps :=
  Schema None "object" false None [] req [] [] [] props None None ∅ None None "" "" [].
Definition array_schema (item : JSONSchemaProps) : JSONSchemaProps :=
  Schema None "array" false None [] [] [] [] [] ∅ (Some (Some item, [])) None ∅ None None "" "" [].
Definition map_schema : JSONSchemaProps :=
  Schema None "object" false None [] [] [] [] [] ∅ None (Some (true, None)) ∅ None None "" "" [].

(** [VersionSchema] and [ResourceDescriptor]. *)
Record VersionSchema := {
  vsName : string;
  vsSchema : option JSONSchemaProps;
  vsServed : bool;
  vsStorage : bool;
}.

Record ResourceDescriptor := { rdKind : string; rdName : string; rdGeneration : Z }.

Inductive FieldKind :=
| FieldKindString | FieldKindInteger | FieldKindNumber | FieldKindBoolean
| FieldKindArray | FieldKindObject | FieldKindUnknown.
#[export] Instance FieldKind_eq_dec : EqDecision FieldKind.
Proof. solve_decision. Defined.

Record LeafField := {
  lfPath : FieldPath;
  lfKind : FieldKind;
  lfSchema : JSONSchemaProps;
  lfOpaque : bool;
  lfConstruct : string;
  lfRequired : bool;
}.

(** [Items != nil && Items.Schema != nil]. *)
Definition itemsSchema (s : JSONSchemaProps) : option JSONSchemaProps :=
  '(i, _) ← sItems s; i.
Definition additionalSchema (s : JSONSchemaProps) : option JSONSchemaProps :=
  '(_, a) ← sAdditionalProperties s; a.

(** [len(schema.Properties) > 0]. *)
Definition hasProperties (s : JSONSchemaProps) : bool := negb (bool_decide (sProperties s = ∅)).

Definition classify (s : JSONSchemaProps) : FieldKind * bool :=
  if bool_decide (sXPreserveUnknownFields s = Some true) then (FieldKindObject, true)
  else if bool_decide (sType s = "object") then
    if hasProperties s then (FieldKindObject, false)
    else if bool_decide (is_Some (sAdditionalProperties s)) then (FieldKindObject, true)
    else (FieldKindObject, false)
  else if bool_decide (sType s = "array") then
    if bool_decide (is_Some (itemsSchema s)) then (FieldKindArray, false) else (FieldKindArray, true)
  else if bool_decide (sType s = "string") then (FieldKindString, false)
  else if bool_decide (sType s = "integer") then (FieldKindInteger, false)
  else if bool_decide (sType s = "number") then (FieldKindNumber, false)
  else if bool_decide (sType s = "boolean") then (FieldKindBoolean, false)
  else (FieldKindUnknown, true).

Definition isStructuralNode (kind : FieldKind) (opaque : bool) : bool :=
  negb opaque && negb (bool_decide (kind = FieldKindUnknown)).

(** A [$ref] counts when it is set and not empty. *)
Definition refOf (s : JSONSchemaProps) : option string :=
  match sRef s with
  | Some r => if bool_decide (r = "") then None else Some r
  | None => None
  end.

Definition unresolvedConstruct (s : JSONSchemaProps) : string :=
  match refOf s with
  | Some _ => "$ref"
  | None => match sAllOf s with [] => "" | _ => "allOf" end
  end.

Definition unionConstruct (s : JSONSchemaProps) : string :=
  match sOneOf s with
  | [] => match sAnyOf s with [] => "" | _ => "anyOf" end
  | _ => "oneOf"
  end.

(** [flattenSchema]'s decision at one node: a leaf (with its construct note), a
    structured object to descend into, or an empty object with nothing to cover. *)
Inductive node_shape :=
| LeafNode (opaque : bool) (construct : string)
| EmptyObject
| StructuredObject.

Definition shapeOf (s : JSONSchemaProps) : node_shape :=
  let '(kind, opaque) := classify s in
  let c := unresolvedConstruct s in
  if negb (bool_decide (c = "")) then LeafNode true c
  else
    let u := unionConstruct s in
    if negb (bool_decide (u = "")) && negb (isStructuralNode kind opaque) then LeafNode true u
    else if opaque then LeafNode true ""
    else if bool_decide (kind = FieldKindObject) then
      if hasProperties s then StructuredObject else EmptyObject
    else LeafNode false "".

Section flatten.
Context `{RO : RangeOrder}.

Fixpoint flattenInto (s : JSONSchemaProps) (path : FieldPath) (requiredSet : list string)
    : list LeafField :=
  match shapeOf s with
  | LeafNode opaque c =>
      [{| lfPath := path; lfKind := (classify s).1; lfSchema := s; lfOpaque := opaque;
          lfConstruct := c; lfRequired := bool_decide (lastSegment path ∈ requiredSet) |}]
  | EmptyObject => []
  | StructuredObject =>
      let rec := flattenInto <$> sProperties s in
      concat ((λ '(name, f), f (path ++ [name]) (sRequired s)) <$> range rec)
  end.

Definition flattenSchema (s : JSONSchemaProps) : list LeafField := flattenInto s [] [].

(** [FlattenSchema], the exported name. *)
Definition FlattenSchema : JSONSchemaProps → list LeafField := flattenSchema.
End flatten.

(** ** [lookupPath] *)

Inductive lookup_error :=
| LookupNoProperties (path : FieldPath) (seg : string) (at_ : FieldPath)
| LookupNotFound (path : FieldPath) (seg : string) (at_ : FieldPath).

Fixpoint lookupPath_from (whole done_ : FieldPath) (cur : JSONSchemaProps) (path : FieldPath)
    : res lookup_error JSONSchemaProps :=
  match path with
  | [] => Ok cur
  | seg :: rest =>
      if negb (hasProperties cur) then Err (LookupNoProperties whole seg done_)
      else match sProperties cur !! seg with
           | Some next => lookupPath_from whole (done_ ++ [seg]) next rest
           | None => Err (LookupNotFound whole seg done_)
           end
  end.

Definition lookupPath (s : JSONSchemaProps) (path : FieldPath) : res lookup_error JSONSchemaProps :=
  lookupPath_from path [] s path.

(** * Lemmas *)

(** Size, for induction through [properties]. *)
Fixpoint schema_depth (s : JSONSchemaProps) : nat :=
  S (map_fold (λ _ p n, schema_depth p `max` n) 0 (sProperties s)).

Lemma schema_prop_ind (P : JSONSchemaProps → Prop) :
  (∀ s, (∀ k p, sProperties s !! k = Some p → P p) → P s) → ∀ s, P s.
Proof.
  intros Hstep s. remember (schema_depth s) as n eqn:Hn. revert s Hn.
  induction (lt_wf n) as [n _ IH]; intros s ->. apply Hstep.
  assert (∀ m : gmap string JSONSchemaProps, (∀ n', n' < S (map_fold (λ _ p n, schema_depth p `max` n) 0 m) →
            ∀ s, n' = schema_depth s → P s) → map_Forall (λ _, P) m) as Hgen.
  { apply (map_fold_weak_ind (λ r m,
      (∀ n', n' < S r → ∀ s, n' = schema_depth s → P s) → map_Forall (λ _, P) m)).
    - intros _. apply map_Forall_empty.
    - intros k v m r ? IHm IHv. apply map_Forall_insert; [done|]; split.
      + eapply IHv; [|done]; lia.
      + apply IHm. intros. eapply IHv; [|done]; lia. }
  intros k p Hk. refine (Hgen (sProperties s) _ k p Hk).
  intros n' Hn' s' ->. eapply IH; [|done]. destruct s; exact Hn'.
Qed.

Lemma hasProperties_lookup s k p : sProperties s !! k = Some p → hasProperties s = true.
Proof.
  intros Hk. unfold hasProperties. rewrite bool_decide_eq_false_2; [done|].
  intros He. by rewrite He in Hk.
Qed.

Lemma lookupPath_from_whole w1 w2 d1 d2 s p n :
  lookupPath_from w1 d1 s p = Ok n → lookupPath_from w2 d2 s p = Ok n.
Proof.
  revert s d1 d2; induction p as [|k p IH]; intros s d1 d2; cbn; [done|].
  destruct (hasProperties s); cbn; [|done].
  destruct (sProperties s !! k); [apply IH|done].
Qed.

Lemma lookupPath_nil s : lookupPath s [] = Ok s.
Proof. done. Qed.

Lemma lookupPath_cons s k p n :
  lookupPath s (k :: p) = Ok n ↔ ∃ c, sProperties s !! k = Some c ∧ lookupPath c p = Ok n.
Proof.
  unfold lookupPath; cbn. split.
  - destruct (hasProperties s); cbn; [|done]. destruct (sProperties s !! k) as [c|]; [|done].
    intros H. exists c; split; [done|]. by eapply lookupPath_from_whole.
  - intros (c & Hk & Hp). rewrite (hasProperties_lookup _ _ _ Hk), Hk; cbn.
    by eapply lookupPath_from_whole.
Qed.

Lemma lookupPath_app s p q n :
  lookupPath s (p ++ q) = Ok n ↔ ∃ c, lookupPath s p = Ok c ∧ lookupPath c q = Ok n.
Proof.
  revert s; induction p as [|k p IH]; intros s.
  { split; [by exists s|]. by intros (c & [= <-] & Hc). }
  rewrite <-app_comm_cons, lookupPath_cons. split.
  - intros (c & Hk & (d & Hd & Hn)%IH). exists d. rewrite lookupPath_cons. eauto.
  - intros (d & (c & Hk & Hc)%lookupPath_cons & Hn). exists c. rewrite IH. eauto.
Qed.

(** The leaves of a schema, as a relation: descend through structured objects
    and stop at the first node that is a leaf. *)
Inductive leaf_at : JSONSchemaProps → FieldPath → JSONSchemaProps → Prop :=
| leaf_here s o c : shapeOf s = LeafNode o c → leaf_at s [] s
| leaf_child s k c q n :
    shapeOf s = StructuredObject → sProperties s !! k = Some c →
    leaf_at c q n → leaf_at s (k :: q) n.

(** What a [LeafField] for the node [n] at path [p] looks like. *)
Definition leaf_describes (l : LeafField) (p : FieldPath) (n : JSONSchemaProps) : Prop :=
  lfPath l = p ∧ lfSchema l = n ∧ lfKind l = (classify n).1 ∧
  shapeOf n = LeafNode (lfOpaque l) (lfConstruct l).

Lemma leaf_at_lookupPath s q n : leaf_at s q n → lookupPath s q = Ok n.
Proof.
  induction 1 as [s o c Hs|s k c q n Hs Hk _ IH]; [done|].
  apply lookupPath_cons. eauto.
Qed.

Lemma leaf_at_shape s q n : leaf_at s q n → ∃ o c, shapeOf n = LeafNode o c.
Proof. induction 1; eauto. Qed.

(** Leaf paths are pairwise incomparable. *)
Lemma leaf_at_prefix s q1 n1 q2 n2 :
  leaf_at s q1 n1 → leaf_at s q2 n2 → q1 `prefix_of` q2 → q1 = q2.
Proof.
  intros H1; revert q2 n2; induction H1 as [s o c Hs|s k c q n Hs Hk _ IH]; intros q2 n2 H2 Hp.
  - inversion H2; [done|congruence].
  - inversion H2 as [|? k2 c2 q2' ? ? Hk2 Hl2]; subst; [by apply prefix_nil_not in Hp|].
    apply prefix_cons_iff in Hp as [<- Hp]. simplify_eq. f_equal. by eapply IH.
Qed.

Lemma leaf_at_disjoint s q1 n1 q2 n2 :
  leaf_at s q1 n1 → leaf_at s q2 n2 → q1 ≠ q2 → path_disjoint q1 q2.
Proof.
  intros H1 H2 Hne. split; intros Hp; apply Hne.
  - by eapply leaf_at_prefix.
  - symmetry. by eapply leaf_at_prefix.
Qed.

Lemma leaf_at_fun s q n1 n2 : leaf_at s q n1 → leaf_at s q n2 → n1 = n2.
Proof. intros H1%leaf_at_lookupPath H2%leaf_at_lookupPath. congruence. Qed.

Section flatten_lemmas.
Context `{RO : RangeOrder}.

Lemma flattenInto_structured s p r :
  shapeOf s = StructuredObject →
  flattenInto s p r =
  concat ((λ '(name, f), f (p ++ [name]) (sRequired s)) <$> range (flattenInto <$> sProperties s)).
Proof. intros H. destruct s. cbn in *. by rewrite H. Qed.

Lemma flattenInto_leaf s p r o c :
  shapeOf s = LeafNode o c →
  flattenInto s p r =
  [{| lfPath := p; lfKind := (classify s).1; lfSchema := s; lfOpaque := o; lfConstruct := c;
      lfRequired := bool_decide (lastSegment p ∈ r) |}].
Proof. intros H. destruct s. cbn in *. by rewrite H. Qed.

Lemma flattenInto_empty s p r : shapeOf s = EmptyObject → flattenInto s p r = [].
Proof. intros H. destruct s. cbn in *. by rewrite H. Qed.

Lemma elem_of_flatten_children s p (l : LeafField) :
  l ∈ concat ((λ '(name, f), f (p ++ [name]) (sRequired s)) <$> range (flattenInto <$> sProperties s)) ↔
  ∃ k c, sProperties s !! k = Some c ∧ l ∈ flattenInto c (p ++ [k]) (sRequired s).
Proof.
  rewrite elem_of_concat. split.
  - intros (L & HL & Hl).
    apply list_elem_of_fmap in HL as ([k f] & -> & Hkf).
    rewrite elem_of_range, lookup_fmap_Some in Hkf. destruct Hkf as (c & <- & Hc). eauto.
  - intros (k & c & Hk & Hl). exists (flattenInto c (p ++ [k]) (sRequired s)).
    split; [|done]. apply list_elem_of_fmap.
    exists (k, flattenInto c); split; [done|]. apply elem_of_range, lookup_fmap_Some. eauto.
Qed.

(** Every path of the list extends the path of the node. *)
Lemma flattenInto_prefix s p r l :
  l ∈ flattenInto s p r → ∃ q, lfPath l = p ++ q.
Proof.
  revert p r; induction s as [s IH] using schema_prop_ind; intros p r Hl.
  destruct (shapeOf s) as [o c| |] eqn:Hs.
  - rewrite (flattenInto_leaf s p r o c) in Hl by done.
    apply list_elem_of_singleton in Hl as ->. exists []. by rewrite app_nil_r.
  - by rewrite flattenInto_empty, elem_of_nil in Hl by done.
  - rewrite flattenInto_structured, elem_of_flatten_children in Hl by done.
    destruct Hl as (k & c & Hk & Hl). destruct (IH _ _ Hk _ _ Hl) as [q ->].
    exists (k :: q). by rewrite <-(assoc_L (++)).
Qed.

Lemma elem_of_flattenInto s p r q n :
  (∃ l, l ∈ flattenInto s p r ∧ leaf_describes l (p ++ q) n) ↔ leaf_at s q n.
Proof.
  revert p r q; induction s as [s IH] using schema_prop_ind; intros p r q.
  destruct (shapeOf s) as [o c| |] eqn:Hs.
  - rewrite (flattenInto_leaf s p r o c) by done. split.
    + intros (l & ->%list_elem_of_singleton & Hp & Hn & _ & _); cbn in *. subst n.
      replace q with (@nil string) by (by apply (inj (p ++.)); rewrite app_nil_r).
      by econstructor.
    + intros Hl. inversion Hl; subst; [|congruence]. eexists; split; [by left|].
      rewrite app_nil_r. split_and!; [done..|]; cbn. congruence.
  - rewrite flattenInto_empty by done. split; [by intros (l & ?%not_elem_of_nil & _)|].
    intros Hl. inversion Hl; congruence.
  - rewrite flattenInto_structured by done. setoid_rewrite elem_of_flatten_children. split.
    + intros (l & (k & c & Hk & Hl) & Hd).
      destruct (flattenInto_prefix _ _ _ _ Hl) as [q' Hq'].
      assert (q = k :: q') as ->.
      { destruct Hd as [Hp _]. rewrite Hq', <-(assoc_L (++)) in Hp.
        by apply (inj (p ++.)) in Hp. }
      econstructor; [done|done|]. apply (IH k c Hk (p ++ [k]) (sRequired s)).
      exists l; split; [done|]. by rewrite <-(assoc_L (++)).
    + intros Hl. inversion Hl as [|? k c q' ? ? Hk Hl']; subst; [congruence|].
      apply (IH k c Hk (p ++ [k]) (sRequired s)) in Hl' as (l & Hl' & Hd).
      exists l; split; [eauto|]. by rewrite <-(assoc_L (++)) in Hd.
Qed.

(** Every field of the flattened list is a leaf and is described as such. *)
Lemma flattenInto_describes s p r l :
  l ∈ flattenInto s p r → ∃ q n, leaf_at s q n ∧ leaf_describes l (p ++ q) n.
Proof.
  revert p r; induction s as [s IH] using schema_prop_ind; intros p r Hl.
  destruct (shapeOf s) as [o c| |] eqn:Hs.
  - rewrite (flattenInto_leaf s p r o c) in Hl by done.
    apply list_elem_of_singleton in Hl as ->.
    exists [], s. rewrite app_nil_r. split; [by econstructor|]. by split_and!.
  - by rewrite flattenInto_empty, elem_of_nil in Hl by done.
  - rewrite flattenInto_structured, elem_of_flatten_children in Hl by done.
    destruct Hl as (k & c & Hk & Hl). destruct (IH _ _ Hk _ _ Hl) as (q & n & Hq & Hd).
    exists (k :: q), n. split; [by econstructor|]. by rewrite <-(assoc_L (++)) in Hd.
Qed.

Lemma flattenSchema_describes s l :
  l ∈ flattenSchema s → leaf_at s (lfPath l) (lfSchema l) ∧ leaf_describes l (lfPath l) (lfSchema l).
Proof.
  intros (q & n & Hq & Hd)%flattenInto_describes. destruct Hd as (H1 & H2 & H3 & H4); cbn in *.
  subst. by split; [|split_and!].
Qed.

Lemma elem_of_flattenSchema s q :
  (∃ l, l ∈ flattenSchema s ∧ lfPath l = q) ↔ ∃ n, leaf_at s q n.
Proof.
  split.
  - intros (l & Hl & <-). exists (lfSchema l). by apply flattenSchema_describes.
  - intros [n Hn]. apply (elem_of_flattenInto s [] []) in Hn as (l & Hl & Hp & _). eauto.
Qed.
End flatten_lemmas.
