(* ===== verification/Rules.v ===== *)
(** Conversion rules (pkg/engine/rules.go): the data the compiler reads.

    One record per strategy's parameter struct, with the source's fields.  The
    string-typed enumerations ([Strategy], [UnknownKeyPolicy], [Side], ...) stay
    strings: nothing before the compiler restricts them, and several of the
    engine's tests treat every value other than one constant alike.  [ForEach]
    and [BranchMap] nest rules, so they are mutually inductive with [Rule]. *)
From S2P Require Import Prelude Float64 Value Path.

(** ** The string enumerations *)

Abbreviation Strategy := string (only parsing).
Definition StrategyFieldRename : Strategy := "FieldRename".
Definition StrategyScalarToObject : Strategy := "ScalarToObject".
Definition StrategyObjectToScalar : Strategy := "ObjectToScalar".
Definition StrategySingletonArrayToObject : Strategy := "SingletonArrayToObject".
Definition StrategyObjectToSingletonArray : Strategy := "ObjectToSingletonArray".
Definition StrategyFieldsToMap : Strategy := "FieldsToMap".
Definition StrategyMapToFields : Strategy := "MapToFields".
Definition StrategyToAnnotation : Strategy := "ToAnnotation".
Definition StrategyToLabel : Strategy := "ToLabel".
Definition StrategyFromAnnotation : Strategy := "FromAnnotation".
Definition StrategyFromLabel : Strategy := "FromLabel".
Definition StrategyEnumRemap : Strategy := "EnumRemap".
Definition StrategyDefaultValue : Strategy := "DefaultValue".
Definition StrategyConstant : Strategy := "Constant".
Definition StrategyDelete : Strategy := "Delete".
Definition StrategyJSONPatch : Strategy := "JSONPatch".
Definition StrategyForEach : Strategy := "ForEach".
Definition StrategyTypeCoerce : Strategy := "TypeCoerce".
Definition StrategyScalarToFields : Strategy := "ScalarToFields".
Definition StrategyFieldsToScalar : Strategy := "FieldsToScalar".
Definition StrategyArrayToMapByKey : Strategy := "ArrayToMapByKey".
Definition StrategyMapToArrayByKey : Strategy := "MapToArrayByKey".
Definition StrategyNumericScale : Strategy := "NumericScale".
Definition StrategyListJoin : Strategy := "ListJoin".
Definition StrategyListSplit : Strategy := "ListSplit".
Definition StrategyQuantity : Strategy := "Quantity".
Definition StrategyDuration : Strategy := "Duration".
Definition StrategyMapKeyRename : Strategy := "MapKeyRename".
Definition StrategyCEL : Strategy := "CEL".
Definition StrategyBranchMap : Strategy := "BranchMap".

Abbreviation UnmappedFieldPolicy := string (only parsing).
Definition UnmappedFieldPolicyError : UnmappedFieldPolicy := "Error".
Definition UnmappedFieldPolicyWarn : UnmappedFieldPolicy := "Warn".

Abbreviation UnknownKeyPolicy := string (only parsing).
Definition UnknownKeyError : UnknownKeyPolicy := "Error".
Definition UnknownKeyDrop : UnknownKeyPolicy := "Drop".

Abbreviation Side := string (only parsing).
Definition SideHub : Side := "Hub".
Definition SideSpoke : Side := "Spoke".

Abbreviation FractionalIntegerPolicy := string (only parsing).
Definition FractionalIntegerError : FractionalIntegerPolicy := "Error".
Definition FractionalIntegerTruncate : FractionalIntegerPolicy := "Truncate".
Definition FractionalIntegerRound : FractionalIntegerPolicy := "Round".

Definition normalizeFractionalPolicy (p : FractionalIntegerPolicy) : FractionalIntegerPolicy :=
  if bool_decide (p = "") then FractionalIntegerError else p.

(** ** The parameter structs *)

Record FieldRenameParams := { frHubPath : FieldPath; frSpokePath : FieldPath }.

Record ScalarToObjectParams := {
  soHubPath : FieldPath; soSpokePath : FieldPath;
  soKey : string; soDefaultsForOtherKeys : obj;
}.

Record ObjectToScalarParams := {
  osHubPath : FieldPath; osSpokePath : FieldPath;
  osKey : string; osDefaultsForOtherKeys : obj;
}.

Record SingletonArrayToObjectParams := { saHubPath : FieldPath; saSpokePath : FieldPath }.
Record ObjectToSingletonArrayParams := { oaHubPath : FieldPath; oaSpokePath : FieldPath }.

Record FieldsToMapParams := {
  fmHubPaths : list FieldPath;
  fmSpokeMapPath : FieldPath;
  fmKeyNames : gmap string string;         (* hubPath.String() -> map key *)
  fmOnUnknownSpokeKey : UnknownKeyPolicy;
}.

Record MapToFieldsParams := {
  mfHubMapPath : FieldPath;
  mfSpokePaths : list FieldPath;
  mfKeyNames : gmap string string;         (* spokePath.String() -> map key *)
  mfOnUnknownHubKey : UnknownKeyPolicy;
}.

Record ToMetadataParams := {
  tmHubPath : FieldPath; tmKey : string;
  tmSerialization : string; tmRestoreOnReverse : bool;
}.

Record FromMetadataParams := {
  rmSpokePath : FieldPath; rmKey : string;
  rmSerialization : string; rmStashOnReverse : bool;
}.

Record EnumValueMapping := { emHub : value; emSpoke : value }.

Record EnumRemapParams := {
  erPath : FieldPath;
  erMapping : list EnumValueMapping;
  erOnUnmappedHubValue : UnknownKeyPolicy;
  erOnUnmappedSpokeValue : UnknownKeyPolicy;
}.

Record DefaultValueParams := { dvPath : FieldPath; dvExistsOn : Side; dvDefault : value }.
Record ConstantParams := { cnPath : FieldPath; cnExistsOn : Side; cnValue : value }.
Record DeleteParams := { dlPath : FieldPath; dlExistsOn : Side }.

Record JSONPatchOp := { jpOp : string; jpPath : string; jpFrom : string; jpValue : value }.

Record JSONPatchParams := {
  jpHubToSpoke : list JSONPatchOp;
  jpSpokeToHub : list JSONPatchOp;
  jpLosslessOverride : bool;
}.

Record TypeCoerceParams := { tcPath : FieldPath; tcOnFractionalInteger : FractionalIntegerPolicy }.

Record ScalarToFieldsParams := {
  sfHubPath : FieldPath;
  sfPattern : string;
  sfSpokeFields : gmap string FieldPath;   (* capture group name -> spoke path *)
  sfJoinTemplate : string;
  sfLosslessOverride : bool;
}.

Record FieldsToScalarParams := {
  fsHubFields : gmap string FieldPath;     (* capture group name -> hub path *)
  fsPattern : string;
  fsSpokePath : FieldPath;
  fsJoinTemplate : string;
  fsLosslessOverride : bool;
}.

Record ArrayToMapByKeyParams := { amHubPath : FieldPath; amSpokePath : FieldPath; amKeyField : string }.
Record MapToArrayByKeyParams := { maHubPath : FieldPath; maSpokePath : FieldPath; maKeyField : string }.

Record NumericScaleParams := { nsHubPath : FieldPath; nsSpokePath : FieldPath; nsFactor : float64 }.

Record ListJoinParams := { ljHubPath : FieldPath; ljSpokePath : FieldPath; ljSeparator : string }.
Record ListSplitParams := { lsHubPath : FieldPath; lsSpokePath : FieldPath; lsSeparator : string }.

Record QuantityParams := { quHubPath : FieldPath; quSpokePath : FieldPath }.
Record DurationParams := { duHubPath : FieldPath; duSpokePath : FieldPath }.

Record MapKeyRenameParams := {
  mrHubPath : FieldPath; mrSpokePath : FieldPath;
  mrRenames : gmap string string;          (* hub key -> spoke key *)
}.

Record CELParams := {
  ceHubPaths : list FieldPath; ceSpokePaths : list FieldPath;
  ceHubToSpoke : string; ceSpokeToHub : string;
}.

(** ** Rules *)

Record RuleWhen := { whPath : FieldPath; whEquals : value }.

Inductive Rule :=
| mkRule (strategy : Strategy) (params : RuleParams) (acknowledgeLossy : bool)
    (reason : string) (sourceIndex : Z) (when_ : option RuleWhen)
with RuleParams :=
| PFieldRename (p : FieldRenameParams)
| PScalarToObject (p : ScalarToObjectParams)
| PObjectToScalar (p : ObjectToScalarParams)
| PSingletonArrayToObject (p : SingletonArrayToObjectParams)
| PObjectToSingletonArray (p : ObjectToSingletonArrayParams)
| PFieldsToMap (p : FieldsToMapParams)
| PMapToFields (p : MapToFieldsParams)
| PToMetadata (p : ToMetadataParams)
| PFromMetadata (p : FromMetadataParams)
| PEnumRemap (p : EnumRemapParams)
| PDefaultValue (p : DefaultValueParams)
| PConstant (p : ConstantParams)
| PDelete (p : DeleteParams)
| PJSONPatch (p : JSONPatchParams)
| PForEach (feHubItemsPath feSpokeItemsPath : FieldPath) (feRules : list Rule)
| PTypeCoerce (p : TypeCoerceParams)
| PScalarToFields (p : ScalarToFieldsParams)
| PFieldsToScalar (p : FieldsToScalarParams)
| PArrayToMapByKey (p : ArrayToMapByKeyParams)
| PMapToArrayByKey (p : MapToArrayByKeyParams)
| PNumericScale (p : NumericScaleParams)
| PListJoin (p : ListJoinParams)
| PListSplit (p : ListSplitParams)
| PQuantity (p : QuantityParams)
| PDuration (p : DurationParams)
| PMapKeyRename (p : MapKeyRenameParams)
| PCEL (p : CELParams)
| PUnset
| PBranchMap (bmHubPath bmSpokePath : FieldPath) (bmDiscriminator : string)
    (bmBranches : list BranchMapping)
with BranchMapping :=
| mkBranch (hubBranch spokeBranch : string)
    (hubDiscriminatorValue spokeDiscriminatorValue : string) (rules : list Rule).

Definition rStrategy (r : Rule) := let '(mkRule s _ _ _ _ _) := r in s.
Definition rParams (r : Rule) := let '(mkRule _ p _ _ _ _) := r in p.
Definition rAcknowledgeLossy (r : Rule) := let '(mkRule _ _ a _ _ _) := r in a.
Definition rReason (r : Rule) := let '(mkRule _ _ _ e _ _) := r in e.
Definition rSourceIndex (r : Rule) := let '(mkRule _ _ _ _ i _) := r in i.
Definition rWhen (r : Rule) := let '(mkRule _ _ _ _ _ w) := r in w.

Definition bHubBranch (b : BranchMapping) := let '(mkBranch h _ _ _ _) := b in h.
Definition bSpokeBranch (b : BranchMapping) := let '(mkBranch _ s _ _ _) := b in s.
Definition bHubDiscriminatorValue (b : BranchMapping) := let '(mkBranch _ _ h _ _) := b in h.
Definition bSpokeDiscriminatorValue (b : BranchMapping) := let '(mkBranch _ _ _ s _) := b in s.
Definition bRules (b : BranchMapping) := let '(mkBranch _ _ _ _ r) := b in r.

Record RuleSet := {
  rsHubVersion : string; rsSpokeVersion : string;
  rsRules : list Rule;
  rsUnmappedFieldPolicy : UnmappedFieldPolicy;
}.
