(* ===== verification/Coerce.v ===== *)
(** Scalar coercion (pkg/engine/coerce.go). *)
From Stdlib Require Import Ascii.
From S2P Require Import Prelude Float64 Value Path Schema Rules.

Definition isCoercibleScalar (k : FieldKind) : bool :=
  match k with
  | FieldKindString | FieldKindInteger | FieldKindNumber | FieldKindBoolean => true
  | _ => false
  end.

(** The errors, with the operands their messages print. *)
Inductive coerce_error :=
| CannotCoerce (ty to : string)              (* cannot coerce %T to string/boolean/a number *)
| NotABoolean (s : string)                   (* cannot coerce %q to boolean *)
| NotANumber (s : string)                    (* cannot coerce %q to a number *)
| NonFinite (f : float64)
| NonFiniteText (s : string) (f : float64)
| FractionalPart (f : float64)
| UnsupportedTarget (k : FieldKind).

(** ** [strings.TrimSpace]

    The UTF-8 encodings of the code points Unicode calls white space. *)
Definition bytes (l : list nat) : string := String.string_of_list_ascii (ascii_of_nat <$> l).

Definition white_space : list string :=
  bytes <$>
  [[9]; [10]; [11]; [12]; [13]; [32]; [194; 133]; [194; 160]; [225; 154; 128];
   [226; 128; 128]; [226; 128; 129]; [226; 128; 130]; [226; 128; 131]; [226; 128; 132];
   [226; 128; 133]; [226; 128; 134]; [226; 128; 135]; [226; 128; 136]; [226; 128; 137];
   [226; 128; 138]; [226; 128; 168]; [226; 128; 169]; [226; 128; 175]; [226; 129; 159];
   [227; 128; 128]].

(** Strip white space from the front, given a list of its encodings. *)
Fixpoint trim_front (fuel : nat) (ws : list string) (s : string) : string :=
  match fuel with
  | O => s
  | S fuel =>
      match filter (λ w, has_prefix s w = true) ws with
      | w :: _ => trim_front fuel ws (trim_prefix s w)
      | [] => s
      end
  end.

Definition string_reverse (s : string) : string :=
  String.string_of_list_ascii (reverse (String.list_ascii_of_string s)).

Definition TrimSpace (s : string) : string :=
  let s1 := trim_front (String.length s) white_space s in
  string_reverse (trim_front (String.length s1) (string_reverse <$> white_space) (string_reverse s1)).

(** ** Numbers *)

Definition rejectNonFinite (f : float64) : res coerce_error () :=
  if f64_is_nan f || f64_is_inf f then Err (NonFinite f) else Ok ().

Definition numericAsFloat64 (v : value) : res coerce_error float64 :=
  match AsFloat64 v with
  | Some f => _ ← rejectNonFinite f; Ok f
  | None =>
      match v with
      | VStr t =>
          match parse_float (TrimSpace t) with
          | None => Err (NotANumber t)
          | Some f => _ ← res_wrap (λ _, NonFiniteText t f) (rejectNonFinite f); Ok f
          end
      | VBool t => Ok (f64_of_Z (if t then 1 else 0))
      | _ => Err (CannotCoerce (go_type v) "a number")
      end
  end.

Definition applyFractionalInteger (f : float64) (frac : FractionalIntegerPolicy)
    : res coerce_error float64 :=
  if f64_eqb f (f64_trunc f) then Ok f
  else if bool_decide (frac = FractionalIntegerTruncate) then Ok (f64_trunc f)
  else if bool_decide (frac = FractionalIntegerRound) then Ok (f64_round f)
  else Err (FractionalPart f).

(** [f == math.Trunc(f) && !math.IsInf(f, 0) && math.Abs(f) < 1e15]. *)
Definition formatNumber (f : float64) : string :=
  if f64_eqb f (f64_trunc f) && negb (f64_is_inf f) &&
     f64_ltb (SFabs f) (f64_of_Z (10 ^ 15))
  then pretty (default 0%Z (f64_to_Z f))
  else format_float_f f.

(** ** [coerceScalarValue] *)

Definition coerceScalarValueWithPolicy (v : value) (to : FieldKind) (frac : FractionalIntegerPolicy)
    : res coerce_error value :=
  let frac := normalizeFractionalPolicy frac in
  match to with
  | FieldKindString =>
      match v with
      | VStr t => Ok (VStr t)
      | VBool t => Ok (VStr (format_bool t))
      | VInt _ t => Ok (VStr (pretty t))
      | _ =>
          match AsFloat64 v with
          | Some f => Ok (VStr (formatNumber f))
          | None => Err (CannotCoerce (go_type v) "string")
          end
      end
  | FieldKindInteger => f ← numericAsFloat64 v; VFloat <$> applyFractionalInteger f frac
  | FieldKindNumber => VFloat <$> numericAsFloat64 v
  | FieldKindBoolean =>
      match v with
      | VBool t => Ok (VBool t)
      | VStr t =>
          match parse_bool (TrimSpace t) with
          | None => Err (NotABoolean t)
          | Some b => Ok (VBool b)
          end
      | _ => Err (CannotCoerce (go_type v) "boolean")
      end
  | _ => Err (UnsupportedTarget to)
  end.

Definition coerceScalarValue (v : value) (to : FieldKind) : res coerce_error value :=
  coerceScalarValueWithPolicy v to FractionalIntegerError.

(** ** [enumKey] (ops.go) *)

(** The canonical text of an enum value, one prefix per JSON type. *)
Definition enumKey (v : value) : string :=
  match v with
  | VStr t => "s:" +:+ t
  | VBool t => "b:" +:+ format_bool t
  | VInt _ t => "n:" +:+ pretty t
  | _ =>
      match AsFloat64 v with
      | Some f => "n:" +:+ formatNumber f
      | None => "x:" +:+ go_type v +:+ ":" +:+ go_print v
      end
  end.

(** * Lemmas *)

(** What a destination schema of each scalar kind accepts.  Numbers are always
    [float64]s; an integer is a whole one. *)
Definition has_kind (k : FieldKind) (v : value) : bool :=
  match k, v with
  | FieldKindString, VStr _ => true
  | FieldKindBoolean, VBool _ => true
  | FieldKindNumber, VFloat f => f64_is_finite f
  | FieldKindInteger, VFloat f => f64_is_finite f && f64_whole f
  | _, _ => false
  end.

Lemma rejectNonFinite_Ok f u : rejectNonFinite f = Ok u ↔ f64_is_finite f = true.
Proof.
  unfold rejectNonFinite, f64_is_finite. destruct u.
  destruct (f64_is_nan f), (f64_is_inf f); cbn; split; done.
Qed.

Lemma numericAsFloat64_finite v f : numericAsFloat64 v = Ok f → f64_is_finite f = true.
Proof.
  unfold numericAsFloat64. destruct (AsFloat64 v) as [g|].
  - intros H. simplify_res. by eapply rejectNonFinite_Ok.
  - destruct v as [|b| | |s| |]; try done.
    + intros [= <-]. by destruct b.
    + destruct (parse_float (TrimSpace s)) as [g|]; [|done].
      intros H. simplify_res. by eapply rejectNonFinite_Ok.
Qed.

(** The policies under which a fraction is dropped rather than refused. *)
Definition drops_fraction (p : FractionalIntegerPolicy) : bool :=
  bool_decide (p = FractionalIntegerTruncate) || bool_decide (p = FractionalIntegerRound).

Lemma applyFractionalInteger_whole f frac g :
  applyFractionalInteger f frac = Ok g → f64_is_finite f = true →
  (drops_fraction frac = true → f64_valid f = true) →
  f64_is_finite g = true ∧ f64_whole g = true.
Proof.
  unfold applyFractionalInteger, drops_fraction. intros Hg Hf Hv.
  destruct (f64_eqb f (f64_trunc f)) eqn:He; [by simplify_eq|].
  case_bool_decide; [|case_bool_decide]; simplify_eq; cbn in Hv.
  - destruct (f64_trunc_whole f); auto.
  - destruct (f64_round_whole f); auto.
Qed.

Lemma coerce_has_kind v to frac w :
  coerceScalarValueWithPolicy v to frac = Ok w →
  (drops_fraction frac = true → ∀ f, numericAsFloat64 v = Ok f → f64_valid f = true) →
  has_kind to w = true.
Proof.
  unfold coerceScalarValueWithPolicy. intros H Hv. destruct to; try done.
  - destruct v; simplify_eq; try done; cbn in H; by simplify_eq.
  - destruct (numericAsFloat64 v) as [f|] eqn:Hf; [|done]; cbn in H.
    destruct (applyFractionalInteger _ _) as [g|] eqn:Hg; [|done]; cbn in H; simplify_eq; cbn.
    destruct (applyFractionalInteger_whole _ _ _ Hg) as [-> ->]; [by eapply numericAsFloat64_finite| |done].
    intros Hd. apply Hv; [|done]. unfold normalizeFractionalPolicy in Hd.
    by case_bool_decide; simplify_eq.
  - destruct (numericAsFloat64 v) as [f|] eqn:Hf; [|done]; cbn in H; simplify_eq; cbn.
    by eapply numericAsFloat64_finite.
  - destruct v as [| | | |s| |]; simplify_eq; try done.
    destruct (parse_bool _); by simplify_eq.
Qed.

Lemma append_cancel_l (p a b : string) : p +:+ a = p +:+ b → a = b.
Proof. induction p as [|c p IH]; cbn; [done|]. rewrite !append_cons. intros [= H]. by apply IH. Qed.

(** Enum keys keep strings, booleans and integers apart. *)
Definition enum_scalar (v : value) : Prop :=
  match v with VStr _ | VBool _ | VInt _ _ => True | _ => False end.

Lemma format_bool_inj a b : format_bool a = format_bool b → a = b.
Proof. by destruct a, b. Qed.

Lemma pretty_Z_inj (a b : Z) : pretty a = pretty b → a = b.
Proof. apply (inj pretty). Qed.

Lemma enumKey_inj v w :
  enum_scalar v → enum_scalar w → enumKey v = enumKey w → jsonValuesEqual v w = true.
Proof.
  destruct v, w; try done; intros _ _ H; cbn in H; try by rewrite !append_cons in H.
  - apply append_cancel_l, format_bool_inj in H as ->. cbn. by apply bool_decide_eq_true_2.
  - apply append_cancel_l, pretty_Z_inj in H as ->. cbn. apply Z.eqb_refl.
  - apply append_cancel_l in H as ->. cbn. by apply bool_decide_eq_true_2.
Qed.
