(* ===== verification/Passthrough.v ===== *)
(** Undeclared fields (pkg/engine/passthrough.go).

    [buildKnownTree] is the shape a schema declares, [mergeKnownTrees] the union
    of the two schemas of a pair, and [collectUnknown] the subtrees of an object
    that neither schema mentions: what the last operation of every plan copies
    across verbatim. *)
From S2P Require Import Prelude Float64 Value Path Schema.

Inductive knownTree := KnownTree (children : gmap string knownTree).

Definition kt_children (t : knownTree) : gmap string knownTree := let '(KnownTree c) := t in c.

(** [len(t.children) == 0]. *)
Definition kt_terminal (t : knownTree) : bool := bool_decide (size (kt_children t) = 0).

Fixpoint buildKnownTree' (s : JSONSchemaProps) : knownTree :=
  let '(kind, opaque) := classify s in
  if opaque || negb (bool_decide (kind = FieldKindObject)) || negb (hasProperties s)
  then KnownTree ∅
  else KnownTree (buildKnownTree' <$> sProperties s).

(** [buildKnownTree], of a schema pointer that may be nil. *)
Definition buildKnownTree (s : option JSONSchemaProps) : knownTree :=
  match s with None => KnownTree ∅ | Some s => buildKnownTree' s end.

Fixpoint mergeKnownTrees (a b : knownTree) {struct a} : knownTree :=
  match a with
  | KnownTree ca =>
      if bool_decide (size ca = 0) || kt_terminal b then KnownTree ∅
      else
        KnownTree (merge (λ oa ob,
            match oa, ob with
            | Some (_, go), Some b => Some (go b)
            | Some (c, _), None => Some c
            | None, ob => ob
            end)
          ((λ c, (c, mergeKnownTrees c)) <$> ca) (kt_children b))
  end.

Section collect.
Context `{RO : RangeOrder}.

(** The calls of [emit], in the order the walk makes them. *)
Fixpoint collectUnknown (t : knownTree) (srcNode : value) (prefix : FieldPath)
    : list (FieldPath * value) :=
  let 'KnownTree children := t in
  let rec := (λ c, (kt_terminal c, collectUnknown c)) <$> children in
  match srcNode with
  | VObj src =>
      concat ((λ '(k, v),
        match rec !! k with
        | None => if bool_decide (prefix = []) then [] else [(prefix ++ [k], v)]
        | Some (true, _) => []
        | Some (false, go) => go v (prefix ++ [k])
        end) <$> range src)
  | _ => []
  end.

(** [passthroughUnknownOp.apply]: write every emitted subtree; after the first
    failing write the rest is skipped. *)
Definition passthroughUnknown (t : knownTree) (input output : obj) : res errFieldPath obj :=
  setValues output ((λ '(p, v), (p, deepCopyValue v)) <$> collectUnknown t (VObj input) []).
End collect.

(** * Lemmas *)

(** [p] leads through declared objects to a key the tree does not know. *)
Inductive unknown_in : knownTree → FieldPath → Prop :=
| unknown_here t k : kt_children t !! k = None → unknown_in t [k]
| unknown_below t k c p :
    kt_children t !! k = Some c → kt_terminal c = false → unknown_in c p → unknown_in t (k :: p).

(** The same, not counting the top-level keys, which [Convert] owns. *)
Definition unknown_at (t : knownTree) (p : FieldPath) : Prop := unknown_in t p ∧ 2 ≤ length p.

Lemma unknown_in_nonempty t p : unknown_in t p → p ≠ [].
Proof. by destruct 1. Qed.

(** Undeclared paths do not lie on one another. *)
Lemma unknown_in_prefix t p q : unknown_in t p → unknown_in t q → p `prefix_of` q → p = q.
Proof.
  intros Hp; revert q; induction Hp as [t k Hk|t k c p Hk Hc _ IH]; intros q Hq Hpre.
  - inversion Hq as [? k'|? k' ? q' Hk']; subst.
    + apply prefix_cons_iff in Hpre as [-> _]. done.
    + apply prefix_cons_iff in Hpre as [-> _]. congruence.
  - inversion Hq as [? k' Hk'|? k' c' q' Hk' Hc' Hq']; subst;
      apply prefix_cons_iff in Hpre as [-> Hpre]; [congruence|].
    simplify_eq. f_equal. auto.
Qed.

Lemma unknown_in_disjoint t p q : unknown_in t p → unknown_in t q → p ≠ q → path_disjoint p q.
Proof.
  intros Hp Hq Hne. split; intros Hpre; apply Hne; [|symmetry]; by eapply unknown_in_prefix.
Qed.

Section collect_lemmas.
Context `{RO : RangeOrder}.

Lemma collectUnknown_unfold t src prefix :
  collectUnknown t (VObj src) prefix =
  concat ((λ '(k, v),
    match kt_children t !! k with
    | None => if bool_decide (prefix = []) then [] else [(prefix ++ [k], v)]
    | Some c => if kt_terminal c then [] else collectUnknown c v (prefix ++ [k])
    end) <$> range src).
Proof.
  destruct t as [cs]. cbn -[concat range]. f_equal. apply list_fmap_ext.
  intros _ [k v] _. rewrite lookup_fmap. destruct (cs !! k) as [c|]; cbn; [|done].
  by destruct (kt_terminal c).
Qed.

Lemma collectUnknown_not_obj t v prefix : as_obj v = None → collectUnknown t v prefix = [].
Proof. destruct t. by destruct v. Qed.

(** Exactly the undeclared subtrees are emitted, with their values. *)
Lemma elem_of_collectUnknown t src prefix p v :
  (p, v) ∈ collectUnknown t src prefix ↔
  ∃ q, p = prefix ++ q ∧ unknown_in t q ∧ walk src q = Some v ∧ (prefix = [] → 2 ≤ length q).
Proof.
  split.
  - revert t prefix p; induction src as [| | | | |l _|src IH] using value_ind';
      intros t prefix p; try (rewrite collectUnknown_not_obj by done; by intros ?%not_elem_of_nil).
    rewrite collectUnknown_unfold. intros (L & HL & Hin)%elem_of_concat.
    apply list_elem_of_fmap in HL as ([k u] & -> & Hk). apply elem_of_range in Hk.
    destruct (kt_children t !! k) as [c|] eqn:Hc.
    + destruct (kt_terminal c) eqn:Ht; [by apply not_elem_of_nil in Hin|].
      apply (IH k u Hk) in Hin as (q & -> & Hq & Hw & _).
      exists (k :: q). rewrite <-(assoc_L (++)). split; [done|]. split; [by econstructor|].
      split; [cbn; by rewrite Hk|]. intros _. cbn.
      apply unknown_in_nonempty in Hq. destruct q; [done|cbn; lia].
    + case_bool_decide; [by apply not_elem_of_nil in Hin|].
      apply list_elem_of_singleton in Hin as [= -> ->].
      exists [k]. split; [done|]. split; [by constructor|]. split; [cbn; by rewrite Hk|done].
  - intros (q & -> & Hq & Hw & Hl). revert src prefix Hw Hl.
    induction Hq as [t k Hk|t k c q Hk Hc Hq IH]; intros src prefix Hw Hl;
      (destruct src as [| | | | | |src]; try done); rewrite collectUnknown_unfold;
      apply elem_of_concat; cbn in Hw; destruct (src !! k) as [u|] eqn:Hu; try done.
    + eexists; split; [apply list_elem_of_fmap; exists (k, u); split; [done|by apply elem_of_range]|].
      cbn. rewrite Hk, bool_decide_eq_false_2.
      * simplify_eq. by left.
      * intros ->. cbn in Hl. specialize (Hl eq_refl). lia.
    + eexists; split; [apply list_elem_of_fmap; exists (k, u); split; [done|by apply elem_of_range]|].
      cbn. rewrite Hk, Hc. replace (prefix ++ k :: q) with ((prefix ++ [k]) ++ q)
        by (by rewrite <-(assoc_L (++))).
      apply IH; [done|]. by destruct prefix.
Qed.

Lemma elem_of_collectUnknown_top t o p v :
  (p, v) ∈ collectUnknown t (VObj o) [] ↔ unknown_at t p ∧ getValue o p = Some v.
Proof.
  rewrite elem_of_collectUnknown. unfold unknown_at, getValue. split.
  - intros (q & -> & ? & ? & ?). cbn. auto.
  - intros [[? ?] ?]. exists p. auto.
Qed.

(** What one key of the source contributes lies under that key. *)
Definition emits_at (t : knownTree) (prefix : FieldPath) (k : string) (u : value)
    : list (FieldPath * value) :=
  match kt_children t !! k with
  | None => if bool_decide (prefix = []) then [] else [(prefix ++ [k], u)]
  | Some c => if kt_terminal c then [] else collectUnknown c u (prefix ++ [k])
  end.

Lemma emits_extends t prefix k u p v :
  (p, v) ∈ emits_at t prefix k u → ∃ r, p = prefix ++ [k] ++ r.
Proof.
  unfold emits_at. intros Hp. destruct (kt_children t !! k) as [c|].
  - destruct (kt_terminal c); [by apply not_elem_of_nil in Hp|].
    apply elem_of_collectUnknown in Hp as (q & -> & _). rewrite <-(assoc_L (++)). eauto.
  - case_bool_decide; [by apply not_elem_of_nil in Hp|].
    apply list_elem_of_singleton in Hp as [= -> ->]. exists []. done.
Qed.

Lemma NoDup_collectUnknown t src prefix : NoDup (collectUnknown t src prefix).*1.
Proof.
  revert t prefix; induction src as [| | | | |l _|src IH] using value_ind';
    intros t prefix; try (rewrite collectUnknown_not_obj by done; constructor).
  rewrite collectUnknown_unfold. pose proof (NoDup_range_fst src) as Hnd.
  assert (∀ k v, (k, v) ∈ range src → src !! k = Some v) as Hl by (intros; by apply elem_of_range).
  revert Hnd Hl. generalize (range src). intros l.
  induction l as [|[k u] l IHl]; intros Hnd Hl; [constructor|].
  cbn in Hnd. apply NoDup_cons in Hnd as [Hk Hnd].
  rewrite fmap_cons. cbn [concat]. rewrite fmap_app. apply NoDup_app. split_and!.
  - destruct (kt_children t !! k) as [c|].
    + destruct (kt_terminal c); [constructor|]. apply (IH k u). apply Hl. by left.
    + case_bool_decide; [constructor|]. cbn. apply NoDup_singleton.
  - intros p Hp Hp2. apply list_elem_of_fmap in Hp2 as ([p2 v2] & Hp2 & (L & HL & Hin)%elem_of_concat).
    apply list_elem_of_fmap in HL as ([k2 u2] & -> & Hk2).
    apply list_elem_of_fmap in Hp as ([p1 v1] & Hp1 & Hp). cbn in Hp1, Hp2. subst p1 p2.
    apply emits_extends in Hp as [r1 Hr1]. apply emits_extends in Hin as [r2 Hr2].
    rewrite Hr1 in Hr2. apply (inj (prefix ++.)) in Hr2.
    injection Hr2 as -> _. apply Hk. apply list_elem_of_fmap. by eexists (_, _).
  - apply IHl; [done|]. intros. apply Hl. by right.
Qed.

Lemma collectUnknown_disjoint t o : writes_disjoint (collectUnknown t (VObj o) []).
Proof.
  unfold writes_disjoint. pose proof (NoDup_collectUnknown t (VObj o) []) as Hnd.
  assert (∀ p, p ∈ (collectUnknown t (VObj o) []).*1 → unknown_in t p) as Hu.
  { intros p ([p' v] & -> & Hp)%list_elem_of_fmap. by apply elem_of_collectUnknown_top in Hp as [[] _]. }
  revert Hnd Hu. generalize (collectUnknown t (VObj o) []).*1. intros l.
  induction 1 as [|p l Hp Hnd IH]; intros Hu; constructor.
  - apply Forall_forall. intros q Hq. eapply unknown_in_disjoint; [apply Hu; by left|apply Hu; by right|].
    by intros ->.
  - apply IH. intros. apply Hu. by right.
Qed.
End collect_lemmas.

(** ** Against the schemas *)

(** A schema leaf that does not come from an unresolved [$ref] or [allOf]. *)
Lemma buildKnownTree_terminal s o c :
  shapeOf s = LeafNode o c → unresolvedConstruct s = "" → kt_terminal (buildKnownTree' s) = true.
Proof.
  unfold shapeOf. intros Hs Hu. destruct s; cbn -[classify unresolvedConstruct unionConstruct size] in *.
  destruct (classify _) as [kind opaque] eqn:Hcl. rewrite Hu in Hs. cbn in Hs.
  destruct opaque; [done|]. cbn.
  destruct (decide (kind = FieldKindObject)) as [->|Hne]; [|by rewrite bool_decide_eq_false_2].
  rewrite bool_decide_eq_true_2 in * by done. cbn in *.
  unfold isStructuralNode in Hs. cbn in Hs. rewrite andb_false_r in Hs.
  destruct (hasProperties _); done.
Qed.

Lemma buildKnownTree_structured s :
  shapeOf s = StructuredObject →
  kt_children (buildKnownTree' s) = buildKnownTree' <$> sProperties s ∧
  kt_terminal (buildKnownTree' s) = false.
Proof.
  unfold shapeOf. intros Hs. destruct s; cbn -[classify unresolvedConstruct unionConstruct size] in *.
  destruct (classify _) as [kind opaque] eqn:Hcl.
  destruct (negb _); [done|]. destruct (negb _ && _); [done|]. destruct opaque; [done|].
  case_bool_decide as Hk; [|done]. subst. destruct (hasProperties _) eqn:Hp; [|done]. cbn -[size].
  split; [done|]. unfold kt_terminal. cbn -[size]. apply bool_decide_eq_false_2.
  rewrite map_size_fmap. intros Hz%map_size_empty_inv.
  unfold hasProperties in Hp. cbn in Hp. subst. by rewrite bool_decide_eq_true_2 in Hp.
Qed.

(** [q] reaches a terminal node of the tree at its end or before: some schema
    governs what is there as a whole. *)
Inductive owned : knownTree → FieldPath → Prop :=
| owned_leaf t k c r : kt_children t !! k = Some c → kt_terminal c = true → owned t (k :: r)
| owned_in t k c q : kt_children t !! k = Some c → owned c q → owned t (k :: q).

Lemma kt_child_nonterminal t k c : kt_children t !! k = Some c → kt_terminal t = false.
Proof.
  intros Hk. unfold kt_terminal. apply bool_decide_eq_false_2. intros Hz%map_size_empty_inv.
  by rewrite Hz in Hk.
Qed.
#[local] Hint Resolve kt_child_nonterminal : core.

Lemma unknown_owned_disjoint t p q : unknown_in t p → owned t q → path_disjoint p q.
Proof.
  intros Hp Hq; revert p Hp.
  assert (∀ k k' (p q : FieldPath), k ≠ k' → path_disjoint (k :: p) (k' :: q)) as Hdiff.
  { intros. split; by intros [? ?]%prefix_cons_iff. }
  induction Hq as [t k c r Hk Hc|t k c q Hk Hq IH]; intros p Hp;
    inversion Hp as [? k' Hk'|? k' c' p' Hk' Hc' Hp']; subst.
  - apply Hdiff. congruence.
  - apply Hdiff. congruence.
  - apply Hdiff. congruence.
  - destruct (decide (k' = k)) as [->|Hne]; [|by apply Hdiff].
    apply path_disjoint_cons, IH. congruence.
Qed.

Lemma leaf_owned s q n :
  leaf_at s q n → q ≠ [] → unresolvedConstruct n = "" → owned (buildKnownTree' s) q.
Proof.
  induction 1 as [|s k c q n Hs Hk Hl IH]; intros Hq Hu; [done|].
  destruct (buildKnownTree_structured s Hs) as [Hch _].
  assert (kt_children (buildKnownTree' s) !! k = Some (buildKnownTree' c)) as Hc
    by (by rewrite Hch, lookup_fmap, Hk).
  destruct (decide (q = [])) as [->|Hne].
  - inversion Hl; subst. eapply owned_leaf; [done|]. by eapply buildKnownTree_terminal.
  - eapply owned_in; [done|]. auto.
Qed.

Lemma mergeKnownTrees_children a b k :
  kt_terminal a = false → kt_terminal b = false →
  kt_children (mergeKnownTrees a b) !! k =
  match kt_children a !! k, kt_children b !! k with
  | Some ca, Some cb => Some (mergeKnownTrees ca cb)
  | Some c, None => Some c
  | None, c => c
  end.
Proof.
  destruct a as [ca]. intros Ha Hb. cbn -[size] in *. unfold kt_terminal in Ha. cbn -[size] in Ha.
  rewrite Ha, Hb. cbn. rewrite lookup_merge, lookup_fmap.
  by destruct (ca !! k), (kt_children b !! k).
Qed.

Lemma mergeKnownTrees_terminal a b :
  kt_terminal a = true ∨ kt_terminal b = true → mergeKnownTrees a b = KnownTree ∅.
Proof.
  destruct a as [ca]. unfold kt_terminal at 1. cbn -[size]. intros [->| ->]; [done|].
  by rewrite orb_true_r.
Qed.

(** What either schema governs, their union governs. *)
Lemma owned_merge_l a b q :
  owned a q → kt_terminal b = false → owned (mergeKnownTrees a b) q.
Proof.
  intros Ho. revert b. induction Ho as [t k c r Hk Hc|t k c q Hk Ho IH]; intros b Hb.
  - assert (kt_terminal t = false) by eauto.
    destruct (kt_children b !! k) as [cb|] eqn:Hkb.
    + eapply (owned_leaf _ _ (mergeKnownTrees c cb)); [by rewrite mergeKnownTrees_children, Hk, Hkb|].
      rewrite mergeKnownTrees_terminal by auto. done.
    + eapply owned_leaf; [by rewrite mergeKnownTrees_children, Hk, Hkb|done].
  - assert (kt_terminal t = false) by eauto.
    destruct (kt_children b !! k) as [cb|] eqn:Hkb.
    + destruct (kt_terminal cb) eqn:Hcb.
      * eapply (owned_leaf _ _ (mergeKnownTrees c cb)); [by rewrite mergeKnownTrees_children, Hk, Hkb|].
        rewrite mergeKnownTrees_terminal by auto. done.
      * eapply owned_in; [by rewrite mergeKnownTrees_children, Hk, Hkb|auto].
    + eapply owned_in; [by rewrite mergeKnownTrees_children, Hk, Hkb|done].
Qed.

Lemma owned_merge_r a b q :
  owned b q → kt_terminal a = false → owned (mergeKnownTrees a b) q.
Proof.
  intros Ho. revert a. induction Ho as [t k c r Hk Hc|t k c q Hk Ho IH]; intros a Ha.
  - assert (kt_terminal t = false) by eauto.
    destruct (kt_children a !! k) as [ca|] eqn:Hka.
    + eapply (owned_leaf _ _ (mergeKnownTrees ca c)); [by rewrite mergeKnownTrees_children, Hk, Hka|].
      rewrite mergeKnownTrees_terminal by auto. done.
    + eapply owned_leaf; [by rewrite mergeKnownTrees_children, Hk, Hka|done].
  - assert (kt_terminal t = false) by eauto.
    destruct (kt_children a !! k) as [ca|] eqn:Hka.
    + destruct (kt_terminal ca) eqn:Hca.
      * eapply (owned_leaf _ _ (mergeKnownTrees ca c)); [by rewrite mergeKnownTrees_children, Hk, Hka|].
        rewrite mergeKnownTrees_terminal by auto. done.
      * eapply owned_in; [by rewrite mergeKnownTrees_children, Hk, Hka|auto].
    + eapply owned_in; [by rewrite mergeKnownTrees_children, Hk, Hka|done].
Qed.

(** An undeclared path and a leaf of either schema never overlap. *)
Lemma unknown_leaf_disjoint hub spoke p q n :
  unknown_at (mergeKnownTrees (buildKnownTree' hub) (buildKnownTree' spoke)) p →
  leaf_at hub q n ∨ leaf_at spoke q n → q ≠ [] → unresolvedConstruct n = "" →
  path_disjoint p q.
Proof.
  intros [Hp Hlen] Hleaf Hq Hu.
  destruct (kt_terminal (buildKnownTree' hub)) eqn:Hh;
    [|destruct (kt_terminal (buildKnownTree' spoke)) eqn:Hs].
  1-2: exfalso; rewrite mergeKnownTrees_terminal in Hp by auto;
    inversion Hp; subst; [cbn in Hlen; lia|done].
  eapply unknown_owned_disjoint; [done|].
  destruct Hleaf; [apply owned_merge_l|apply owned_merge_r]; try done; by eapply leaf_owned.
Qed.

Section passthrough.
Context `{RO : RangeOrder}.

Lemma passthroughUnknown_writes t input output :
  passthroughUnknown t input output = setValues output (collectUnknown t (VObj input) []).
Proof.
  unfold passthroughUnknown. f_equal.
  erewrite <-(list_fmap_id (collectUnknown _ _ _)) at 2. apply list_fmap_ext.
  intros _ [p v] _. by rewrite deepCopyValue_id.
Qed.

Lemma passthroughUnknown_spec t input output output' :
  passthroughUnknown t input output = Ok output' →
  (∀ p v, unknown_at t p → getValue input p = Some v → getValue output' p = Some v) ∧
  (∀ q, (∀ p, unknown_at t p → path_disjoint p q) → getValue output' q = getValue output q).
Proof.
  rewrite passthroughUnknown_writes. intros H. split.
  - intros p v Hp Hv. eapply getValue_setValues; [done|apply collectUnknown_disjoint|].
    by apply elem_of_collectUnknown_top.
  - intros q Hq. eapply getValue_setValues_disjoint; [done|]. apply Forall_forall.
    intros p ([p' v] & -> & Hp)%list_elem_of_fmap. apply Hq.
    by apply elem_of_collectUnknown_top in Hp as [].
Qed.
End passthrough.

(** Which order the runtime ranges over maps in does not show in the result. *)
Lemma collectUnknown_order (R1 R2 : RangeOrder) t o :
  collectUnknown (RO := R1) t (VObj o) [] ≡ₚ collectUnknown (RO := R2) t (VObj o) [].
Proof.
  assert (∀ R : RangeOrder, NoDup (collectUnknown t (VObj o) [])) as Hnd.
  { intros R. eapply NoDup_fmap_1, NoDup_collectUnknown. }
  apply NoDup_Permutation; [apply Hnd|apply Hnd|]. intros [p v].
  by rewrite !elem_of_collectUnknown_top.
Qed.

Lemma passthroughUnknown_order (R1 R2 : RangeOrder) t input output output' :
  passthroughUnknown (RO := R1) t input output = Ok output' →
  passthroughUnknown (RO := R2) t input output = Ok output'.
Proof.
  rewrite !passthroughUnknown_writes. apply setValues_perm; [apply collectUnknown_order|].
  apply collectUnknown_disjoint.
Qed.
