(* ===== verification/Ops.v ===== *)
(** The conversion operations (pkg/engine/ops.go, mapkeyrename.go, k8sunits.go,
    cel.go, and the execution context of plan.go).

    An operation reads the pristine input of an [execContext] and writes into its
    output.  Each operation's [apply] method is one definition; [apply_op] is the
    method call, recursive through ForEach, BranchMap and [when].  Third-party
    libraries the operations call are the class [Externs]. *)
From S2P Require Import Prelude Float64 Value Json Duration Path Schema Rules Coerce Passthrough.

(** ** Third-party code

    A compiled regexp, template, CEL program or JSON patch is represented by the
    source it was compiled from. *)
Class Externs := {
  (* regexp: FindStringSubmatch and SubexpNames of a compiled pattern *)
  FindStringSubmatch : string → string → option (list string);
  SubexpNames : string → list string;
  (* text/template: Execute *)
  template_Execute : string → gmap string value → res string string;
  (* evanphx/json-patch: Patch.Apply on a document's text *)
  Patch_Apply : list JSONPatchOp → string → res string string;
  (* cel-go: Program.Eval with the variable "object", and ConvertToNative to a map *)
  cel_result : Type;
  cel_Eval : string → obj → res string cel_result;
  ConvertToNative : cel_result → res string value;
  (* k8s validation: the messages, none when valid *)
  IsQualifiedName : string → list string;
  IsValidLabelValue : string → list string;
  (* k8s resource.Quantity *)
  quantity : Type;
  ParseQuantity : string → res string quantity;
  MilliValue : quantity → Z;
  NewMilliQuantity : Z → quantity;
  Quantity_String : quantity → string;
  (* int64(f) when f is not in range: the language leaves it to the machine *)
  float64_to_int64_out_of_range : float64 → Z;
}.

(** [int64(f)]: truncation when the result fits. *)
Definition int64_of_float `{EX : Externs} (f : float64) : Z :=
  match f64_to_Z f with
  | Some z => if (- 2 ^ 63 <=? z)%Z && (z <? 2 ^ 63)%Z then z else float64_to_int64_out_of_range f
  | None => float64_to_int64_out_of_range f
  end.

(** ** Errors *)

Inductive op_error :=
| EPath (e : errFieldPath)
| ENotObject (op : string) (p : FieldPath)
| ENotArray (op : string) (p : FieldPath)
| ENotString (op : string) (p : FieldPath)
| ENotNumeric (op : string) (p : FieldPath)
| EUnexpectedKey (k : string) (p : FieldPath)
| EMarshal (op : string)
| EInvalidLabel (key : string) (msgs : list string)
| ERestoreNotString (metadataField key : string)
| ERestoreUnmarshal (metadataField key : string)
| EUnmappedEnum (v : value) (p : FieldPath)
| EPatchApply (msg : string)
| EPatchUnmarshal
| EPatchWriting (p : FieldPath) (e : errFieldPath)
| ELengthMismatch (src : FieldPath) (n : nat) (dst : FieldPath) (m : nat)
| EElementNotObject (op : string) (i : nat) (p : FieldPath)
| EElement (op : string) (i : nat) (e : op_error)
| ECoerce (op : string) (p : FieldPath) (e : coerce_error)
| EElementCoerce (op : string) (i : nat) (e : coerce_error)
| ENoMatch (s : string) (p : FieldPath) (pattern : string)
| ENoCaptureGroup (name : string)
| EGroupCoerce (name : string) (e : coerce_error)
| ETemplate (msg : string)
| EMissingKeyField (i : nat) (p : FieldPath) (k : string)
| EKeyNotString (i : nat) (p : FieldPath) (k : string)
| EDuplicateKey (k : string) (p : FieldPath)
| EEntryNotObject (p : FieldPath) (k : string)
| EKeyCollision (k : string) (p : FieldPath)
| EQuantityParse (s msg : string)
| EDurationParse (s : string)
| EDurationNotWhole (s : string)
| ECEL (msg : string)
| ECELNotMap (msg : string)
| ENoBranch (p : FieldPath) (names : list string)
| EManyBranches (names : list string) (p : FieldPath)
| EBranchNotObject (branch : string) (p : FieldPath)
| EBranch (branch : string) (e : op_error).

(** ** The execution context (plan.go) *)

Record execContext := { ecInput : obj; ecOutput : obj; ecInputJSON : option string }.

Definition new_context (input output : obj) : execContext :=
  {| ecInput := input; ecOutput := output; ecInputJSON := None |}.
Definition with_output (ctx : execContext) (o : obj) : execContext :=
  {| ecInput := ecInput ctx; ecOutput := o; ecInputJSON := ecInputJSON ctx |}.

(** [setValue(ctx.output, p, v)] as the last statement of an [apply]. *)
Definition put (ctx : execContext) (p : FieldPath) (v : value) : res op_error execContext :=
  with_output ctx <$> res_wrap EPath (setValue (ecOutput ctx) p v).

(** Run a read only when the path is present. *)
Definition on_present (ctx : execContext) (p : FieldPath)
    (k : value → res op_error execContext) : res op_error execContext :=
  match getValue (ecInput ctx) p with None => Ok ctx | Some v => k v end.

(** ** Copying and reshaping *)

Definition identityOp_apply (path : FieldPath) (ctx : execContext) : res op_error execContext :=
  on_present ctx path (λ v, put ctx path (deepCopyValue v)).

Definition renameOp_apply (from to : FieldPath) (ctx : execContext) : res op_error execContext :=
  on_present ctx from (λ v, put ctx to (deepCopyValue v)).

Definition wrapScalarOp_apply (scalarPath objectPath : FieldPath) (key : string) (defaults : obj)
    (ctx : execContext) : res op_error execContext :=
  on_present ctx scalarPath (λ v,
    put ctx objectPath (VObj (<[key := deepCopyValue v]> (deepCopyValue <$> defaults)))).

Definition unwrapScalarOp_apply (objectPath scalarPath : FieldPath) (key : string)
    (ctx : execContext) : res op_error execContext :=
  on_present ctx objectPath (λ v,
    match as_obj v with
    | None => Ok ctx
    | Some m =>
        match m !! key with
        | None => Ok ctx
        | Some val => put ctx scalarPath (deepCopyValue val)
        end
    end).

Definition arrayFirstToObjectOp_apply (arrayPath objectPath : FieldPath)
    (ctx : execContext) : res op_error execContext :=
  on_present ctx arrayPath (λ v,
    match as_arr v with
    | Some (x :: _) => put ctx objectPath (deepCopyValue x)
    | _ => Ok ctx
    end).

Definition objectToSingletonArrayOp_apply (objectPath arrayPath : FieldPath)
    (ctx : execContext) : res op_error execContext :=
  on_present ctx objectPath (λ v, put ctx arrayPath (VArr [deepCopyValue v])).

(** The map key a field path is collapsed under. *)
Definition key_for (keyNames : gmap string string) (fp : FieldPath) : string :=
  let key := default "" (keyNames !! path_string fp) in
  if bool_decide (key = "") then lastSegment fp else key.

Definition collapseToMapOp_apply (fieldPaths : list FieldPath) (mapPath : FieldPath)
    (keyNames : gmap string string) (ctx : execContext) : res op_error execContext :=
  let '(m, found) :=
    foldl (λ '(m, found) fp,
      match getValue (ecInput ctx) fp with
      | None => (m, found)
      | Some v => (<[key_for keyNames fp := deepCopyValue v]> m, true)
      end) (∅ : obj, false) fieldPaths in
  if found : bool then put ctx mapPath (VObj m) else Ok ctx.

Section ops.
Context `{RO : RangeOrder} `{EX : Externs}.

Definition expandFromMapOp_apply (mapPath : FieldPath) (fieldPaths : list FieldPath)
    (keyNames : gmap string string) (onUnknownKey : UnknownKeyPolicy)
    (ctx : execContext) : res op_error execContext :=
  on_present ctx mapPath (λ v,
    match as_obj v with
    | None => Err (ENotObject "expandFromMap" mapPath)
    | Some m =>
        ctx' ← res_foldl (λ ctx fp,
          match m !! key_for keyNames fp with
          | Some val => put ctx fp (deepCopyValue val)
          | None => Ok ctx
          end) ctx fieldPaths;
        if bool_decide (onUnknownKey = UnknownKeyError) then
          match filter (λ k, k ∉ key_for keyNames <$> fieldPaths) (range m).*1 with
          | k :: _ => Err (EUnexpectedKey k mapPath)
          | [] => Ok ctx'
          end
        else Ok ctx'
    end).

(** ** Metadata *)

Definition metadata_path (field key : string) : FieldPath := ["metadata"; field; key].

Definition stashAnnotationOp_apply (hubPath : FieldPath) (metadataField key serialization : string)
    (ctx : execContext) : res op_error execContext :=
  on_present ctx hubPath (λ v,
    strVal ← (if bool_decide (serialization = "String") then
                match as_str v with
                | Some s => Ok s
                | None => Err (ENotString "stashAnnotation" hubPath)
                end
              else
                match json_Marshal v with
                | Some s => Ok s
                | None => Err (EMarshal "stashAnnotation")
                end);
    _ ← (if bool_decide (metadataField = "labels") then
           match IsQualifiedName key with
           | _ :: _ as msgs => Err (EInvalidLabel key msgs)
           | [] => match IsValidLabelValue strVal with
                   | _ :: _ as msgs => Err (EInvalidLabel key msgs)
                   | [] => Ok ()
                   end
           end
         else Ok ());
    put ctx (metadata_path metadataField key) (VStr strVal)).

Definition restoreAnnotationOp_apply (hubPath : FieldPath) (metadataField key serialization : string)
    (ctx : execContext) : res op_error execContext :=
  on_present ctx (metadata_path metadataField key) (λ raw,
    match as_str raw with
    | None => Err (ERestoreNotString metadataField key)
    | Some strVal =>
        val ← (if bool_decide (serialization = "String") then Ok (VStr strVal)
               else match json_Unmarshal strVal with
                    | Some v => Ok v
                    | None => Err (ERestoreUnmarshal metadataField key)
                    end);
        ctx' ← put ctx hubPath val;
        Ok (with_output ctx'
              (deleteValuePruningEmptyMaps (ecOutput ctx') (metadata_path metadataField key)))
    end).

Definition stripMetadataKeyOp_apply (metadataField key : string)
    (ctx : execContext) : res op_error execContext :=
  Ok (with_output ctx (deleteValuePruningEmptyMaps (ecOutput ctx) (metadata_path metadataField key))).

(** ** Values *)

Definition remapEnumOp_apply (path : FieldPath) (table : gmap string value)
    (onUnmapped : UnknownKeyPolicy) (ctx : execContext) : res op_error execContext :=
  on_present ctx path (λ v,
    match table !! enumKey v with
    | None => if bool_decide (onUnmapped = UnknownKeyError) then Err (EUnmappedEnum v path) else Ok ctx
    | Some mapped => put ctx path mapped
    end).

Definition injectDefaultOp_apply (path : FieldPath) (v : value)
    (ctx : execContext) : res op_error execContext := put ctx path (deepCopyValue v).

Definition injectConstantOp_apply (path : FieldPath) (v : value)
    (ctx : execContext) : res op_error execContext := put ctx path (deepCopyValue v).

Definition dropFieldOp_apply (ctx : execContext) : res op_error execContext := Ok ctx.

Definition coerceOp_apply (path : FieldPath) (toKind : FieldKind) (frac : FractionalIntegerPolicy)
    (ctx : execContext) : res op_error execContext :=
  on_present ctx path (λ v,
    coerced ← res_wrap (ECoerce "typeCoerce" path) (coerceScalarValueWithPolicy v toKind frac);
    put ctx path coerced).

Definition numericScaleOp_apply (fromPath toPath : FieldPath) (factor : float64)
    (multiply round : bool) (ctx : execContext) : res op_error execContext :=
  on_present ctx fromPath (λ v,
    match AsFloat64 v with
    | None => Err (ENotNumeric "numericScale" fromPath)
    | Some f =>
        let result := if multiply then f64_mul f factor else f64_div f factor in
        put ctx toPath (VFloat (if round then f64_round result else result))
    end).

(** ** JSON Patch *)

Definition marshalInput (ctx : execContext) : option (string * execContext) :=
  match ecInputJSON ctx with
  | Some b => Some (b, ctx)
  | None =>
      b ← json_Marshal (VObj (ecInput ctx));
      Some (b, {| ecInput := ecInput ctx; ecOutput := ecOutput ctx; ecInputJSON := Some b |})
  end.

(** [json.Unmarshal] into a [map[string]any]. *)
Definition unmarshal_object (text : string) : res op_error obj :=
  match json_Unmarshal text with
  | Some (VObj full) => Ok full
  | Some VNull => Ok ∅
  | _ => Err EPatchUnmarshal
  end.

(** Patch the marshaled input [b] and copy the touched paths of the result. *)
Definition apply_patch (patch : list JSONPatchOp) (touchedPaths : list FieldPath) (b : string)
    (ctx : execContext) : res op_error execContext :=
  patched ← res_wrap EPatchApply (Patch_Apply patch b);
  full ← unmarshal_object patched;
  res_foldl (λ ctx p,
    match getValue full p with
    | Some v =>
        with_output ctx <$> res_wrap (EPatchWriting p) (setValue (ecOutput ctx) p (deepCopyValue v))
    | None => Ok (with_output ctx (deleteValue (ecOutput ctx) p))
    end) ctx touchedPaths.

Definition jsonPatchOp_apply (patch : list JSONPatchOp) (touchedPaths : list FieldPath)
    (ctx : execContext) : res op_error execContext :=
  match marshalInput ctx with
  | None => Err (EMarshal "jsonPatch")
  | Some (b, ctx) => apply_patch patch touchedPaths b ctx
  end.

(** ** Splitting and joining scalars *)

(** The named groups of a match; a repeated name keeps its last group. *)
Definition captured_groups (names : list string) (groups : list string) : gmap string string :=
  foldl (λ m '(name, s), if bool_decide (name = "") then m else <[name := s]> m)
    ∅ (zip names groups).

Definition splitFieldOp_apply (sourcePath : FieldPath) (pattern : string)
    (destFields : gmap string FieldPath) (destKinds : gmap string FieldKind)
    (ctx : execContext) : res op_error execContext :=
  on_present ctx sourcePath (λ v,
    match as_str v with
    | None => Err (ENotString "splitField" sourcePath)
    | Some s =>
        match FindStringSubmatch pattern s with
        | None => Err (ENoMatch s sourcePath pattern)
        | Some groups =>
            let captured := captured_groups (SubexpNames pattern) groups in
            res_foldl (λ ctx '(name, destPath),
              match captured !! name with
              | None => Err (ENoCaptureGroup name)
              | Some raw =>
                  coerced ← res_wrap (EGroupCoerce name)
                    (coerceScalarValue (VStr raw) (default FieldKindUnknown (destKinds !! name)));
                  put ctx destPath coerced
              end) ctx (range destFields)
        end
    end).

Definition joinFieldsOp_apply (srcFields : gmap string FieldPath) (destPath : FieldPath)
    (tmpl : string) (ctx : execContext) : res op_error execContext :=
  let data := omap (getValue (ecInput ctx)) srcFields in
  if bool_decide (data = ∅) then Ok ctx
  else s ← res_wrap ETemplate (template_Execute tmpl data); put ctx destPath (VStr s).

(** ** Arrays and maps *)

(** The entry of one array element: its key and the rest of the object. *)
Definition element_entry (arrayPath : FieldPath) (keyField : string) (i : nat) (elem : value)
    : res op_error (string * obj) :=
  match as_obj elem with
  | None => Err (EElementNotObject "arrayToMapByKey" i arrayPath)
  | Some m =>
      match m !! keyField with
      | None => Err (EMissingKeyField i arrayPath keyField)
      | Some keyVal =>
          match as_str keyVal with
          | None => Err (EKeyNotString i arrayPath keyField)
          | Some keyStr => Ok (keyStr, deepCopyValue <$> delete keyField m)
          end
      end
  end.

Definition arrayToMap (arrayPath : FieldPath) (keyField : string) (arr : list value)
    : res op_error obj :=
  res_foldl (λ out '(i, elem),
    '(keyStr, rest) ← element_entry arrayPath keyField i elem;
    if bool_decide (is_Some (out !! keyStr)) then Err (EDuplicateKey keyStr arrayPath)
    else Ok (<[keyStr := VObj rest]> out)) ∅ (imap pair arr).

Definition arrayToMapByKeyOp_apply (arrayPath mapPath : FieldPath) (keyField : string)
    (ctx : execContext) : res op_error execContext :=
  on_present ctx arrayPath (λ v,
    match as_arr v with
    | None => Err (ENotArray "arrayToMapByKey" arrayPath)
    | Some arr => out ← arrayToMap arrayPath keyField arr; put ctx mapPath (VObj out)
    end).

(** The array elements, in key order; a value's own key field wins. *)
Definition mapToArray (mapPath : FieldPath) (keyField : string) (m : obj)
    : res op_error (list value) :=
  res_mapM (λ k,
    match m !! k ≫= as_obj with
    | None => Err (EEntryNotObject mapPath k)
    | Some valMap => Ok (VObj ((deepCopyValue <$> valMap) ∪ {[keyField := VStr k]}))
    end) (sort_strings (range m).*1).

Definition mapToArrayByKeyOp_apply (mapPath arrayPath : FieldPath) (keyField : string)
    (ctx : execContext) : res op_error execContext :=
  on_present ctx mapPath (λ v,
    match as_obj v with
    | None => Err (ENotObject "mapToArrayByKey" mapPath)
    | Some m => out ← mapToArray mapPath keyField m; put ctx arrayPath (VArr out)
    end).

Definition joinListOp_apply (arrayPath stringPath : FieldPath) (separator : string)
    (ctx : execContext) : res op_error execContext :=
  on_present ctx arrayPath (λ v,
    match as_arr v with
    | None => Err (ENotArray "listJoin" arrayPath)
    | Some arr =>
        parts ← res_mapM (λ '(i, elem),
          s ← res_wrap (EElementCoerce "listJoin" i) (coerceScalarValue elem FieldKindString);
          match as_str s with
          | Some t => Ok t
          | None => Err (EElementCoerce "listJoin" i (CannotCoerce (go_type s) "string"))
          end) (imap pair arr);
        put ctx stringPath (VStr (join separator parts))
    end).

(** [strings.Split]; with an empty separator, the UTF-8 sequences of [s]. *)
Definition strings_Split (s sep : string) : list string :=
  if bool_decide (sep = "") then explode s else split s sep.

Definition splitListOp_apply (stringPath arrayPath : FieldPath) (separator : string)
    (itemKind : FieldKind) (ctx : execContext) : res op_error execContext :=
  on_present ctx stringPath (λ v,
    match as_str v with
    | None => Err (ENotString "listSplit" stringPath)
    | Some s =>
        let parts := if bool_decide (s = "") then [] else strings_Split s separator in
        out ← res_mapM (λ '(i, p),
          res_wrap (EElementCoerce "listSplit" i) (coerceScalarValue (VStr p) itemKind)) (imap pair parts);
        put ctx arrayPath (VArr out)
    end).

(** The renamed map, built entry by entry. *)
Definition renameKeys (dst : FieldPath) (renames : gmap string string) (m : obj) : res op_error obj :=
  res_foldl (λ out '(k, val),
    let dk := default k (renames !! k) in
    if bool_decide (is_Some (out !! dk)) then Err (EKeyCollision dk dst)
    else Ok (<[dk := val]> out)) ∅ (range m).

Definition mapKeyRenameOp_apply (src dst : FieldPath) (renames : gmap string string)
    (ctx : execContext) : res op_error execContext :=
  on_present ctx src (λ v,
    match as_obj v with
    | None => Err (ENotObject "mapKeyRename" src)
    | Some m => out ← renameKeys dst renames m; put ctx dst (VObj out)
    end).

(** ** Units *)

Definition quantityOp_apply (src dst : FieldPath) (toInteger : bool)
    (ctx : execContext) : res op_error execContext :=
  on_present ctx src (λ v,
    if toInteger then
      match as_str v with
      | None => Err (ENotString "quantity" src)
      | Some s =>
          q ← res_wrap (EQuantityParse s) (ParseQuantity s);
          put ctx dst (VFloat (f64_of_Z (MilliValue q)))
      end
    else
      match AsFloat64 v with
      | None => Err (ENotNumeric "quantity" src)
      | Some f => put ctx dst (VStr (Quantity_String (NewMilliQuantity (int64_of_float f))))
      end).

Definition durationOp_apply (src dst : FieldPath) (toInteger : bool)
    (ctx : execContext) : res op_error execContext :=
  on_present ctx src (λ v,
    if toInteger then
      match as_str v with
      | None => Err (ENotString "duration" src)
      | Some s =>
          match ParseDuration s with
          | None => Err (EDurationParse s)
          | Some d =>
              if bool_decide (Z.rem d Second ≠ 0%Z) then Err (EDurationNotWhole s)
              else put ctx dst (VFloat (f64_of_Z (Z.quot d Second)))
          end
      end
    else
      match AsFloat64 v with
      | None => Err (ENotNumeric "duration" src)
      | Some f => put ctx dst (VStr (Duration_String (wrap64 (int64_of_float f * Second))))
      end).

(** ** CEL *)

Definition lookupCELResult (m : obj) (path : FieldPath) : option value :=
  match getValue m path with
  | Some v => Some v
  | None => m !! path_string path
  end.

Definition celOp_apply (prg : string) (dests : list FieldPath)
    (ctx : execContext) : res op_error execContext :=
  out ← res_wrap ECEL (cel_Eval prg (ecInput ctx));
  native ← res_wrap ECELNotMap (ConvertToNative out);
  match as_obj native with
  | None => Err (ECELNotMap (go_type native))
  | Some m =>
      res_foldl (λ ctx p,
        match lookupCELResult m p with Some v => put ctx p v | None => Ok ctx end) ctx dests
  end.

Definition passthroughUnknownOp_apply (tree : knownTree)
    (ctx : execContext) : res op_error execContext :=
  with_output ctx <$> res_wrap EPath (passthroughUnknown tree (ecInput ctx) (ecOutput ctx)).

(** ** Operations over operations

    [run] is the nested operation list applied to a context. *)

(** The loop over the elements: each starts from an empty output. *)
Definition forEach_elements (srcItemsPath : FieldPath)
    (run : execContext → res op_error execContext) (arr : list value) : res op_error (list value) :=
  res_mapM (λ '(i, elem),
    match as_obj elem with
    | None => Err (EElementNotObject "forEach" i srcItemsPath)
    | Some elemMap =>
        elemCtx ← res_wrap (EElement "forEach" i) (run (new_context elemMap ∅));
        Ok (VObj (ecOutput elemCtx))
    end) (imap pair arr).

Definition forEachOp_apply (srcItemsPath dstItemsPath : FieldPath)
    (run : execContext → res op_error execContext) (ctx : execContext) : res op_error execContext :=
  on_present ctx srcItemsPath (λ v,
    match as_arr v with
    | None => Err (ENotArray "forEach" srcItemsPath)
    | Some arr =>
        _ ← (match getValue (ecInput ctx) dstItemsPath with
             | None => Ok ()
             | Some dst =>
                 match as_arr dst with
                 | None => Err (ENotArray "forEach" dstItemsPath)
                 | Some dstArr =>
                     if bool_decide (length dstArr = length arr) then Ok ()
                     else Err (ELengthMismatch srcItemsPath (length arr) dstItemsPath (length dstArr))
                 end
             end);
        outArr ← forEach_elements srcItemsPath run arr;
        put ctx dstItemsPath (VArr outArr)
    end).

Definition whenOp_apply (path : FieldPath) (equals : value)
    (inner : execContext → res op_error execContext) (ctx : execContext) : res op_error execContext :=
  match getValue (ecInput ctx) path with
  | Some v => if jsonValuesEqual v equals then inner ctx else Ok ctx
  | None => Ok ctx
  end.
End ops.

(** One resolved branch in one direction; [N] is what it nests. *)
Record compiledBranch (N : Type) := mkCompiledBranch {
  cbSrcBranch : string;
  cbDstBranch : string;
  cbDstDiscriminator : string;
  cbNested : N;
}.
Arguments mkCompiledBranch {N}. Arguments cbSrcBranch {N}. Arguments cbDstBranch {N}.
Arguments cbDstDiscriminator {N}. Arguments cbNested {N}.

Definition branchNames {N} (branches : list (compiledBranch N)) : list string :=
  sort_strings (cbSrcBranch <$> branches).

(** [nested] is [None] for a branch without rules of its own. *)
Definition branchMapOp_apply (srcPath dstPath : FieldPath) (discriminator : string)
    (branches : list (compiledBranch (option (execContext → res op_error execContext))))
    (ctx : execContext) : res op_error execContext :=
  on_present ctx srcPath (λ v,
    match as_obj v with
    | None => Err (ENotObject "branchMap" srcPath)
    | Some o =>
        match filter (λ b, is_Some (o !! cbSrcBranch b)) branches with
        | [active] =>
            value ← (match cbNested active with
                     | Some run =>
                         match o !! cbSrcBranch active ≫= as_obj with
                         | None => Err (EBranchNotObject (cbSrcBranch active) srcPath)
                         | Some branchObj =>
                             branchCtx ← res_wrap (EBranch (cbSrcBranch active)) (run (new_context branchObj ∅));
                             Ok (VObj (ecOutput branchCtx))
                         end
                     | None => Ok (deepCopyValue (default VNull (o !! cbSrcBranch active)))
                     end);
            ctx ← put ctx (dstPath ++ [cbDstBranch active]) value;
            if bool_decide (discriminator = "") then Ok ctx
            else put ctx (dstPath ++ [discriminator]) (VStr (cbDstDiscriminator active))
        | [] => Err (ENoBranch srcPath (branchNames branches))
        | present => Err (EManyBranches (branchNames present) srcPath)
        end
    end).

(** ** [Op] and its [apply] *)

Inductive Op :=
| identityOp (path : FieldPath)
| renameOp (from to : FieldPath)
| wrapScalarOp (scalarPath objectPath : FieldPath) (key : string) (defaults : obj)
| unwrapScalarOp (objectPath scalarPath : FieldPath) (key : string)
| arrayFirstToObjectOp (arrayPath objectPath : FieldPath)
| objectToSingletonArrayOp (objectPath arrayPath : FieldPath)
| collapseToMapOp (fieldPaths : list FieldPath) (mapPath : FieldPath) (keyNames : gmap string string)
| expandFromMapOp (mapPath : FieldPath) (fieldPaths : list FieldPath) (keyNames : gmap string string)
    (onUnknownKey : UnknownKeyPolicy)
| stashAnnotationOp (hubPath : FieldPath) (metadataField key serialization : string)
| restoreAnnotationOp (hubPath : FieldPath) (metadataField key serialization : string)
| stripMetadataKeyOp (metadataField key : string)
| remapEnumOp (path : FieldPath) (table : gmap string value) (onUnmapped : UnknownKeyPolicy)
| injectDefaultOp (path : FieldPath) (v : value)
| injectConstantOp (path : FieldPath) (v : value)
| dropFieldOp
| jsonPatchOp (patch : list JSONPatchOp) (touchedPaths : list FieldPath)
| forEachOp (srcItemsPath dstItemsPath : FieldPath) (nested : list Op)
| whenOp (path : FieldPath) (equals : value) (inner : Op)
| coerceOp (path : FieldPath) (toKind : FieldKind) (frac : FractionalIntegerPolicy)
| splitFieldOp (sourcePath : FieldPath) (pattern : string) (destFields : gmap string FieldPath)
    (destKinds : gmap string FieldKind)
| joinFieldsOp (srcFields : gmap string FieldPath) (destPath : FieldPath) (tmpl : string)
| arrayToMapByKeyOp (arrayPath mapPath : FieldPath) (keyField : string)
| mapToArrayByKeyOp (mapPath arrayPath : FieldPath) (keyField : string)
| numericScaleOp (fromPath toPath : FieldPath) (factor : float64) (multiply round : bool)
| joinListOp (arrayPath stringPath : FieldPath) (separator : string)
| splitListOp (stringPath arrayPath : FieldPath) (separator : string) (itemKind : FieldKind)
| branchMapOp (srcPath dstPath : FieldPath) (discriminator : string)
    (branches : list (compiledBranch (list Op)))
| mapKeyRenameOp (src dst : FieldPath) (renames : gmap string string)
| quantityOp (src dst : FieldPath) (toInteger : bool)
| durationOp (src dst : FieldPath) (toInteger : bool)
| celOp (prg : string) (dests : list FieldPath)
| passthroughUnknownOp (tree : knownTree).

Section apply_op.
Context `{RO : RangeOrder} `{EX : Externs}.

Fixpoint apply_op (op : Op) (ctx : execContext) : res op_error execContext :=
  match op with
  | identityOp p => identityOp_apply p ctx
  | renameOp from to => renameOp_apply from to ctx
  | wrapScalarOp sp op k d => wrapScalarOp_apply sp op k d ctx
  | unwrapScalarOp op sp k => unwrapScalarOp_apply op sp k ctx
  | arrayFirstToObjectOp ap op => arrayFirstToObjectOp_apply ap op ctx
  | objectToSingletonArrayOp op ap => objectToSingletonArrayOp_apply op ap ctx
  | collapseToMapOp fps mp kn => collapseToMapOp_apply fps mp kn ctx
  | expandFromMapOp mp fps kn pol => expandFromMapOp_apply mp fps kn pol ctx
  | stashAnnotationOp hp mf k s => stashAnnotationOp_apply hp mf k s ctx
  | restoreAnnotationOp hp mf k s => restoreAnnotationOp_apply hp mf k s ctx
  | stripMetadataKeyOp mf k => stripMetadataKeyOp_apply mf k ctx
  | remapEnumOp p t pol => remapEnumOp_apply p t pol ctx
  | injectDefaultOp p v => injectDefaultOp_apply p v ctx
  | injectConstantOp p v => injectConstantOp_apply p v ctx
  | dropFieldOp => dropFieldOp_apply ctx
  | jsonPatchOp patch ps => jsonPatchOp_apply patch ps ctx
  | forEachOp src dst nested =>
      forEachOp_apply src dst (λ c, res_foldl (λ c op, apply_op op c) c nested) ctx
  | whenOp p e inner => whenOp_apply p e (apply_op inner) ctx
  | coerceOp p k frac => coerceOp_apply p k frac ctx
  | splitFieldOp p pat df dk => splitFieldOp_apply p pat df dk ctx
  | joinFieldsOp sf p t => joinFieldsOp_apply sf p t ctx
  | arrayToMapByKeyOp ap mp k => arrayToMapByKeyOp_apply ap mp k ctx
  | mapToArrayByKeyOp mp ap k => mapToArrayByKeyOp_apply mp ap k ctx
  | numericScaleOp from to f m r => numericScaleOp_apply from to f m r ctx
  | joinListOp ap sp sep => joinListOp_apply ap sp sep ctx
  | splitListOp sp ap sep k => splitListOp_apply sp ap sep k ctx
  | branchMapOp src dst d bs =>
      branchMapOp_apply src dst d
        ((λ b, mkCompiledBranch (cbSrcBranch b) (cbDstBranch b) (cbDstDiscriminator b)
            (match cbNested b with
             | [] => None
             | nested => Some (λ c, res_foldl (λ c op, apply_op op c) c nested)
             end)) <$> bs) ctx
  | mapKeyRenameOp src dst r => mapKeyRenameOp_apply src dst r ctx
  | quantityOp src dst ti => quantityOp_apply src dst ti ctx
  | durationOp src dst ti => durationOp_apply src dst ti ctx
  | celOp prg ds => celOp_apply prg ds ctx
  | passthroughUnknownOp t => passthroughUnknownOp_apply t ctx
  end.

(** A [for] loop over operations sharing one context. *)
Definition apply_ops (ops : list Op) (ctx : execContext) : res op_error execContext :=
  res_foldl (λ c op, apply_op op c) ctx ops.
End apply_op.
