(* ===== verification/Convert.v ===== *)
(** Plans, [Convert] and the hub router (pkg/engine/plan.go, convert.go). *)
From S2P Require Import Prelude Float64 Value Json Path Schema Rules Coerce Passthrough Ops.

Inductive Direction := HubToSpoke | SpokeToHub.
#[export] Instance Direction_eq_dec : EqDecision Direction.
Proof. solve_decision. Defined.

Definition Direction_String (d : Direction) : string :=
  match d with HubToSpoke => "hub_to_spoke" | SpokeToHub => "spoke_to_hub" end.

Record Plan := {
  plHubVersion : string;
  plSpokeVersion : string;
  plHubToSpoke : list Op;
  plSpokeToHub : list Op;
}.

(** [Plan.ops]. *)
Definition plan_ops (p : Plan) (d : Direction) : list Op :=
  match d with HubToSpoke => plHubToSpoke p | SpokeToHub => plSpokeToHub p end.

Inductive convert_error :=
| NilPlan
| ConvertFailed (d : Direction) (e : op_error).

(** The output every conversion starts from: [kind], and [metadata] or an empty
    object in its place. *)
Definition baseline (o : obj) : obj :=
  let out : obj := match o !! "kind" with Some k => {["kind" := k]} | None => ∅ end in
  let md := match o !! "metadata" with
            | Some VNull | None => VObj ∅
            | Some md => deepCopyValue md
            end in
  <["metadata" := md]> out.

Section convert.
Context `{RO : RangeOrder} `{EX : Externs}.

Definition Convert (plan : option Plan) (dir : Direction) (o : obj) : res convert_error obj :=
  match plan with
  | None => Err NilPlan
  | Some p =>
      ecOutput <$> res_wrap (ConvertFailed dir)
        (apply_ops (plan_ops p dir) (new_context o (baseline o)))
  end.
End convert.

(** ** The router *)

Record Router := { rtHub : string; rtPlans : gmap string (option Plan) }.

Inductive router_error :=
| NoPlan (version : string)
| ToHubFailed (from : string) (e : convert_error)
| FromHubFailed (to : string) (e : convert_error).

Section router.
Context `{RO : RangeOrder} `{EX : Externs}.

Definition Router_Convert (r : Router) (o : obj) (from to : string) : res router_error obj :=
  if bool_decide (from = to) then Ok o
  else
    hubObj ← (if bool_decide (from = rtHub r) then Ok o
              else match rtPlans r !! from with
                   | None => Err (NoPlan from)
                   | Some plan => res_wrap (ToHubFailed from) (Convert plan SpokeToHub o)
                   end);
    if bool_decide (to = rtHub r) then Ok hubObj
    else match rtPlans r !! to with
         | None => Err (NoPlan to)
         | Some plan => res_wrap (FromHubFailed to) (Convert plan HubToSpoke hubObj)
         end.
End router.
