(* ===== verification/OpsTheory.v ===== *)
(** What every operation has in common: it reads only the input, and its effect
    on the output is a list of writes and deletions that the input alone
    determines.  From this follow the frame property, independence of the cached
    JSON text, and independence of the order of operations that write disjoint
    paths. *)
From S2P Require Import Prelude Float64 Value Json Duration Path Schema Rules Coerce Passthrough Ops.

(** ** Effects *)

Inductive effect :=
| EffSet (p : FieldPath) (v : value)
| EffDelete (p : FieldPath)
| EffPrune (p : FieldPath).

Definition eff_path (e : effect) : FieldPath :=
  match e with EffSet p _ | EffDelete p | EffPrune p => p end.

(** Only writes, at paths in [P]. *)
Definition sets (P : FieldPath → Prop) (e : effect) : Prop :=
  match e with EffSet p _ => P p | _ => False end.

Definition run_effect (o : obj) (e : effect) : res errFieldPath obj :=
  match e with
  | EffSet p v => setValue o p v
  | EffDelete p => Ok (deleteValue o p)
  | EffPrune p => Ok (deleteValuePruningEmptyMaps o p)
  end.

Definition run_effects (o : obj) (es : list effect) : res errFieldPath obj :=
  res_foldl run_effect o es.

(** The cached text, when there is one, is the text of the input. *)
Definition cache_ok (ctx : execContext) : Prop :=
  ecInputJSON ctx = None ∨ ecInputJSON ctx = json_Marshal (VObj (ecInput ctx)).

Lemma cache_ok_new i o : cache_ok (new_context i o).
Proof. by left. Qed.

Lemma cache_ok_with_output ctx o : cache_ok ctx → cache_ok (with_output ctx o).
Proof. done. Qed.

(** [ctx'] is [ctx] with output [o] and possibly a filled cache. *)
Definition same_input (ctx' ctx : execContext) : Prop :=
  ecInput ctx' = ecInput ctx ∧ (cache_ok ctx → cache_ok ctx').

Section fixed_effects.
Variable input : obj.

Definition fixed_effects (run : execContext → res op_error execContext) (W : effect → Prop) : Prop :=
  (∀ ctx, ecInput ctx = input → cache_ok ctx → res_ok (run ctx) = false) ∨
  ∃ es, Forall W es ∧
    ∀ ctx, ecInput ctx = input → cache_ok ctx →
      match run_effects (ecOutput ctx) es with
      | Ok o => ∃ ctx', run ctx = Ok ctx' ∧ ecOutput ctx' = o ∧ ecInput ctx' = input ∧ cache_ok ctx'
      | Err _ => res_ok (run ctx) = false
      end.

Implicit Types run : execContext → res op_error execContext.

Lemma fe_ext run run' W :
  (∀ ctx, ecInput ctx = input → cache_ok ctx → run ctx = run' ctx) →
  fixed_effects run W → fixed_effects run' W.
Proof.
  intros Heq [Hf|(es & HW & He)].
  - left. intros ctx ??. rewrite <-Heq by done. by apply Hf.
  - right. exists es; split; [done|]. intros ctx ??. rewrite <-Heq by done. by apply He.
Qed.

Lemma fe_mono run (W W' : effect → Prop) :
  (∀ e, W e → W' e) → fixed_effects run W → fixed_effects run W'.
Proof.
  intros HW [Hf|(es & HWe & He)]; [by left|right]. exists es; split; [|done].
  eapply Forall_impl; [done|]. auto.
Qed.

Lemma fe_skip W : fixed_effects (λ ctx, Ok ctx) W.
Proof. right. exists []; split; [constructor|]. intros ctx ??. cbn. by exists ctx. Qed.

Lemma fe_fail e W : fixed_effects (λ _, Err e) W.
Proof. by left. Qed.

Lemma fe_set (w : errFieldPath → op_error) p v (W : effect → Prop) :
  W (EffSet p v) → fixed_effects (λ ctx, with_output ctx <$> res_wrap w (setValue (ecOutput ctx) p v)) W.
Proof.
  intros HW. right. exists [EffSet p v]; split; [by repeat constructor|]. intros ctx ??.
  cbn. destruct (setValue (ecOutput ctx) p v) as [o|]; cbn; [|done].
  by exists (with_output ctx o).
Qed.

Lemma fe_put p v (W : effect → Prop) : W (EffSet p v) → fixed_effects (λ ctx, put ctx p v) W.
Proof. apply fe_set. Qed.

Lemma fe_delete p (W : effect → Prop) :
  W (EffDelete p) → fixed_effects (λ ctx, Ok (with_output ctx (deleteValue (ecOutput ctx) p))) W.
Proof.
  intros HW. right. exists [EffDelete p]; split; [by repeat constructor|]. intros ctx ??.
  cbn. by eexists.
Qed.

Lemma fe_prune p (W : effect → Prop) :
  W (EffPrune p) → fixed_effects (λ ctx, Ok (with_output ctx (deleteValuePruningEmptyMaps (ecOutput ctx) p))) W.
Proof.
  intros HW. right. exists [EffPrune p]; split; [by repeat constructor|]. intros ctx ??.
  cbn. by eexists.
Qed.

Lemma fe_bind f g W :
  fixed_effects f W → fixed_effects g W → fixed_effects (λ ctx, f ctx ≫= g) W.
Proof.
  intros [Hf|(es & HW & He)].
  { intros _. left. intros ctx Hi Hc. specialize (Hf ctx Hi Hc). by destruct (f ctx). }
  intros [Hg|(es' & HW' & He')].
  - left. intros ctx Hi Hc. specialize (He ctx Hi Hc).
    destruct (run_effects _ es).
    + destruct He as (c' & -> & _ & Hi' & Hc'). cbn. by apply Hg.
    + by destruct (f ctx).
  - right. exists (es ++ es'). split; [by apply Forall_app|]. intros ctx Hi Hc.
    specialize (He ctx Hi Hc). unfold run_effects in *. rewrite res_foldl_app.
    destruct (res_foldl _ _ es) as [o|] eqn:Hes; cbn.
    + destruct He as (c' & -> & <- & Hi' & Hc'). cbn. by apply He'.
    + by destruct (f ctx).
Qed.

Lemma fe_foldl {A} (f : execContext → A → res op_error execContext) l W :
  (∀ a, a ∈ l → fixed_effects (λ ctx, f ctx a) W) →
  fixed_effects (λ ctx, res_foldl f ctx l) W.
Proof.
  induction l as [|a l IH]; intros Hf; cbn; [apply fe_skip|].
  apply (fe_bind (λ ctx, f ctx a)); [apply Hf; by left|]. apply IH. intros. apply Hf. by right.
Qed.

Lemma fe_on_present p k W :
  (∀ v, getValue input p = Some v → fixed_effects (λ ctx, k ctx v) W) →
  fixed_effects (λ ctx, on_present ctx p (k ctx)) W.
Proof.
  intros Hk. destruct (getValue input p) as [v|] eqn:Hv.
  - eapply fe_ext; [|by apply (Hk v)]. intros ctx Hi _; cbn. unfold on_present. by rewrite Hi, Hv.
  - eapply fe_ext; [|apply fe_skip]. intros ctx Hi _; cbn. unfold on_present. by rewrite Hi, Hv.
Qed.

(** A computation on the input alone comes first. *)
Lemma fe_pure {A} (m : res op_error A) k W :
  (∀ a, m = Ok a → fixed_effects (λ ctx, k ctx a) W) →
  fixed_effects (λ ctx, m ≫= k ctx) W.
Proof.
  destruct m as [a|e]; intros Hk; cbn; [by apply (Hk a)|apply fe_fail].
Qed.

Lemma fe_if (b : bool) f g W :
  fixed_effects f W → fixed_effects g W → fixed_effects (λ ctx, if b then f ctx else g ctx) W.
Proof. by destruct b. Qed.

Lemma fe_setValues (w : errFieldPath → op_error) ws W :
  Forall (λ pv, W (EffSet pv.1 pv.2)) ws →
  fixed_effects (λ ctx, with_output ctx <$> res_wrap w (setValues (ecOutput ctx) ws)) W.
Proof.
  intros HW. right. exists ((λ '(p, v), EffSet p v) <$> ws). split.
  { apply Forall_fmap. eapply Forall_impl; [done|]. by intros []. }
  intros ctx Hi Hc.
  assert (∀ o, run_effects o ((λ '(p, v), EffSet p v) <$> ws) = setValues o ws) as ->.
  { induction ws as [|[p v] ws IH]; intros o; [done|]. cbn.
    inversion HW; subst. destruct (setValue o p v); cbn; [by apply IH|done]. }
  destruct (setValues (ecOutput ctx) ws) as [o|]; cbn; [|done]. by exists (with_output ctx o).
Qed.
End fixed_effects.

(** ** Where an operation writes *)

Fixpoint may_write (op : Op) (p : FieldPath) : Prop :=
  match op with
  | identityOp q | remapEnumOp q _ _ | injectDefaultOp q _ | injectConstantOp q _ | coerceOp q _ _
  | renameOp _ q | wrapScalarOp _ q _ _ | unwrapScalarOp _ q _ | arrayFirstToObjectOp _ q
  | objectToSingletonArrayOp _ q | collapseToMapOp _ q _ | joinFieldsOp _ q _
  | arrayToMapByKeyOp _ q _ | mapToArrayByKeyOp _ q _ | numericScaleOp _ q _ _ _
  | joinListOp _ q _ | splitListOp _ q _ _ | mapKeyRenameOp _ q _ | quantityOp _ q _
  | durationOp _ q _ | forEachOp _ q _ => p = q
  | expandFromMapOp _ qs _ _ | jsonPatchOp _ qs | celOp _ qs => p ∈ qs
  | splitFieldOp _ _ fields _ => ∃ name, fields !! name = Some p
  | stashAnnotationOp _ mf k _ | stripMetadataKeyOp mf k => p = metadata_path mf k
  | restoreAnnotationOp q mf k _ => p = q ∨ p = metadata_path mf k
  | branchMapOp _ q d bs => (∃ b, b ∈ bs ∧ p = q ++ [cbDstBranch b]) ∨ (d ≠ "" ∧ p = q ++ [d])
  | dropFieldOp => False
  | whenOp _ _ inner => may_write inner p
  | passthroughUnknownOp t => unknown_at t p
  end.

Section op_effects.
Context `{RO : RangeOrder} `{EX : Externs}.
Variable input : obj.

Local Abbreviation fe := (fixed_effects input).

Lemma fe_expandFromMap mp fps kn pol :
  fe (expandFromMapOp_apply mp fps kn pol) (sets (λ p, p ∈ fps)).
Proof.
  apply fe_on_present. intros v _. destruct (as_obj v) as [m|]; [|apply fe_fail].
  apply (fe_bind _ (λ ctx, res_foldl _ ctx _)).
  - apply fe_foldl. intros fp Hfp. destruct (m !! _); [by apply fe_put|apply fe_skip].
  - destruct (bool_decide _); [|apply fe_skip]. destruct (filter _ _); [apply fe_skip|apply fe_fail].
Qed.

Lemma fe_stash hp mf k ser :
  fe (stashAnnotationOp_apply hp mf k ser) (sets (λ p, p = metadata_path mf k)).
Proof.
  apply fe_on_present. intros v _. apply fe_pure. intros s _. apply fe_pure. intros _ _.
  by apply fe_put.
Qed.

Lemma fe_restore hp mf k ser :
  fe (restoreAnnotationOp_apply hp mf k ser)
    (λ e, match e with
          | EffSet p _ => p = hp
          | EffPrune p => p = metadata_path mf k
          | EffDelete _ => False
          end).
Proof.
  apply fe_on_present. intros v _. destruct (as_str v); [|apply fe_fail].
  apply fe_pure. intros val _. apply (fe_bind _ (λ ctx, put ctx _ _)); [by apply fe_put|].
  by apply fe_prune.
Qed.

(** Writes and deletions at paths of [ps]. *)
Definition touches (ps : list FieldPath) (e : effect) : Prop :=
  match e with EffSet p _ | EffDelete p => p ∈ ps | EffPrune _ => False end.

(** [marshalInput] either fails or fills the cache, whatever it held. *)
Lemma marshalInput_spec ctx :
  ecInput ctx = input → cache_ok ctx →
  marshalInput ctx =
  (b ← json_Marshal (VObj input);
   Some (b, {| ecInput := input; ecOutput := ecOutput ctx; ecInputJSON := Some b |})).
Proof.
  intros <- [Hc|Hc]; unfold marshalInput; rewrite Hc; [done|].
  destruct (json_Marshal _) as [b|] eqn:Hb; cbn; [|done]. by destruct ctx; cbn in *; subst.
Qed.

Lemma fe_jsonPatch patch ps : fe (jsonPatchOp_apply patch ps) (touches ps).
Proof.
  destruct (json_Marshal (VObj input)) as [b|] eqn:Hb.
  2: { left. intros ctx Hi Hc. unfold jsonPatchOp_apply. by rewrite marshalInput_spec, Hb. }
  set (fill ctx := {| ecInput := input; ecOutput := ecOutput ctx; ecInputJSON := Some b |}).
  assert (fe (λ ctx, Ok (fill ctx)) (touches ps)) as Hfill.
  { right. exists []; split; [constructor|]. intros ctx Hi Hc; cbn.
    exists (fill ctx); split_and!; try done. right. exact (eq_sym Hb). }
  eapply fe_ext; [|apply (fe_bind _ _ (apply_patch patch ps b) _ Hfill)].
  { intros ctx Hi Hc. unfold jsonPatchOp_apply. by rewrite marshalInput_spec, Hb. }
  unfold apply_patch.
  apply fe_pure; intros patched _. apply fe_pure; intros full _. apply fe_foldl. intros p Hp.
  destruct (getValue full p); [by apply fe_set|by apply fe_delete].
Qed.

Lemma fe_splitField p pat df dk :
  fe (splitFieldOp_apply p pat df dk) (sets (λ q, ∃ name, df !! name = Some q)).
Proof.
  apply fe_on_present. intros v _. destruct (as_str v); [|apply fe_fail].
  destruct (FindStringSubmatch _ _); [|apply fe_fail].
  apply fe_foldl. intros [name dest] Hin. destruct (captured_groups _ _ !! name); [|apply fe_fail].
  apply fe_pure. intros c _. apply fe_put. exists name. by apply elem_of_range.
Qed.

(** Operations that compute one value from the input and write it. *)
Lemma fe_join sf p t : fe (joinFieldsOp_apply sf p t) (sets (λ q, q = p)).
Proof.
  set (data := omap (getValue input) sf).
  apply (fe_ext _ (λ ctx, if bool_decide (data = ∅) then Ok ctx
                          else s ← res_wrap ETemplate (template_Execute t data); put ctx p (VStr s))).
  { intros ctx <- _. done. }
  apply fe_if; [apply fe_skip|]. apply fe_pure. intros s _. by apply fe_put.
Qed.

Lemma fe_collapse fps mp kn : fe (collapseToMapOp_apply fps mp kn) (sets (λ q, q = mp)).
Proof.
  set (mf := foldl (λ '(m, found) fp,
    match getValue input fp with
    | None => (m, found)
    | Some v => (<[key_for kn fp := deepCopyValue v]> m, true)
    end) (∅ : obj, false) fps).
  apply (fe_ext _ (λ ctx, if mf.2 then put ctx mp (VObj mf.1) else Ok ctx)).
  { intros ctx <- _. unfold collapseToMapOp_apply. by destruct mf eqn:Hmf; unfold mf in Hmf; rewrite Hmf. }
  apply fe_if; [by apply fe_put|apply fe_skip].
Qed.

Lemma fe_cel prg ds : fe (celOp_apply prg ds) (sets (λ q, q ∈ ds)).
Proof.
  apply (fe_ext _ (λ ctx,
    out ← res_wrap ECEL (cel_Eval prg input);
    native ← res_wrap ECELNotMap (ConvertToNative out);
    match as_obj native with
    | None => Err (ECELNotMap (go_type native))
    | Some m =>
        res_foldl (λ ctx p,
          match lookupCELResult m p with Some v => put ctx p v | None => Ok ctx end) ctx ds
    end)).
  { intros ctx <- _. done. }
  apply fe_pure; intros out _. apply fe_pure; intros native _.
  destruct (as_obj native) as [m|]; [|apply fe_fail]. apply fe_foldl. intros p Hp.
  destruct (lookupCELResult m p); [by apply fe_put|apply fe_skip].
Qed.

Lemma fe_passthrough t : fe (passthroughUnknownOp_apply t) (sets (unknown_at t)).
Proof.
  apply (fe_ext _ (λ ctx, with_output ctx <$>
    res_wrap EPath (setValues (ecOutput ctx) (collectUnknown t (VObj input) [])))).
  { intros ctx <- _. unfold passthroughUnknownOp_apply. by rewrite passthroughUnknown_writes. }
  apply fe_setValues, Forall_forall. intros [p v] Hin. by apply elem_of_collectUnknown_top in Hin as [].
Qed.

Lemma fe_forEach src dst run : fe (forEachOp_apply src dst run) (sets (λ q, q = dst)).
Proof.
  apply fe_on_present. intros v _. destruct (as_arr v) as [arr|]; [|apply fe_fail].
  apply (fe_ext _ (λ ctx,
    (match getValue input dst with
     | None => Ok ()
     | Some d =>
         match as_arr d with
         | None => Err (ENotArray "forEach" dst)
         | Some dstArr =>
             if bool_decide (length dstArr = length arr) then Ok ()
             else Err (ELengthMismatch src (length arr) dst (length dstArr))
         end
     end) ≫= λ _, outArr ← forEach_elements src run arr; put ctx dst (VArr outArr))).
  { intros ctx <- _. done. }
  apply fe_pure; intros _ _. apply fe_pure; intros out _. by apply fe_put.
Qed.

Lemma fe_branchMap src dst d bs :
  fe (branchMapOp_apply src dst d bs)
    (sets (λ p, (∃ b, b ∈ bs ∧ p = dst ++ [cbDstBranch b]) ∨ (d ≠ "" ∧ p = dst ++ [d]))).
Proof.
  apply fe_on_present. intros v _. destruct (as_obj v) as [o|]; [|apply fe_fail].
  destruct (filter _ bs) as [|b [|]] eqn:Hf; [apply fe_fail| |apply fe_fail].
  apply fe_pure. intros w _. apply (fe_bind _ (λ ctx, put ctx _ _)).
  - apply fe_put. left. exists b; split; [|done].
    assert (b ∈ filter (λ b, is_Some (o !! cbSrcBranch b)) bs) as Hb by (rewrite Hf; by left).
    by apply list_elem_of_filter in Hb as [_ Hb].
  - case_bool_decide; [apply fe_skip|]. apply fe_put. by right.
Qed.

Lemma fe_when p e (inner : execContext → res op_error execContext) W :
  fe inner W → fe (whenOp_apply p e inner) W.
Proof.
  intros Hi. destruct (getValue input p) as [v|] eqn:Hv.
  - apply (fe_ext _ (λ ctx, if jsonValuesEqual v e then inner ctx else Ok ctx)).
    { intros ctx <- _. unfold whenOp_apply. by rewrite Hv. }
    apply fe_if; [done|apply fe_skip].
  - apply (fe_ext _ (λ ctx, Ok ctx)); [|apply fe_skip].
    intros ctx <- _. unfold whenOp_apply. by rewrite Hv.
Qed.

Local Ltac fe_one :=
  apply fe_on_present; intros v _;
  repeat first
    [ by apply fe_put | apply fe_skip | apply fe_fail
    | apply fe_pure; intros ? _ | apply fe_if
    | match goal with |- fixed_effects _ (λ ctx, match ?x with _ => _ end) _ => destruct x end ].

Fixpoint may_effect (op : Op) (e : effect) : Prop :=
  match op with
  | restoreAnnotationOp q mf k _ =>
      match e with
      | EffSet p _ => p = q
      | EffPrune p => p = metadata_path mf k
      | EffDelete _ => False
      end
  | stripMetadataKeyOp mf k => e = EffPrune (metadata_path mf k)
  | jsonPatchOp _ qs => touches qs e
  | whenOp _ _ inner => may_effect inner e
  | _ => sets (may_write op) e
  end.

Lemma may_effect_write op e : may_effect op e → may_write op (eff_path e).
Proof.
  induction op; cbn; try (by destruct e); try done.
  - destruct e; naive_solver.
  - by intros ->.
Qed.

(** Every operation's effect is a list of writes fixed by the input, within
    the paths it may write. *)
Lemma apply_op_effects op : fe (apply_op op) (may_effect op).
Proof.
  induction op; cbn -[setValue].
  all: try apply fe_expandFromMap; try apply fe_stash; try apply fe_restore; try apply fe_jsonPatch.
  all: try apply fe_splitField; try apply fe_join; try apply fe_collapse; try apply fe_cel.
  all: try apply fe_passthrough; try apply fe_forEach; try by apply fe_when.
  all: try by fe_one.
  - by apply fe_prune.
  - by apply fe_put.
  - by apply fe_put.
  - apply fe_skip.
  - eapply fe_mono; [|apply fe_branchMap]. cbn. intros [p v| |]; try done. intros [(b & Hb & ->)|?]; [left|by right].
    apply list_elem_of_fmap in Hb as (b' & -> & Hb). by exists b'.
Qed.

Lemma apply_ops_effects ops : fe (apply_ops ops) (λ e, ∃ op, op ∈ ops ∧ may_effect op e).
Proof.
  apply fe_foldl. intros op Hop. eapply fe_mono; [|apply apply_op_effects]. intros p Hp. by exists op.
Qed.
End op_effects.

(** ** Consequences *)

Lemma run_effects_frame o es o' q :
  run_effects o es = Ok o' → Forall (λ e, path_disjoint (eff_path e) q) es →
  getValue o' q = getValue o q.
Proof.
  unfold run_effects. revert o; induction es as [|e es IH]; intros o Ho Hd; [by injection Ho as ->|].
  inversion Hd as [|? ? He Hes]; subst. cbn in Ho. apply res_bind_Ok in Ho as (o1 & H1 & H2).
  rewrite (IH o1) by done. destruct e as [p v|p|p]; cbn in *; simplify_eq.
  - by eapply getValue_setValue_disjoint.
  - by apply getValue_deleteValue_disjoint.
  - by apply getValue_deletePruning_disjoint.
Qed.

(** Two operations that cannot write overlapping paths. *)
Definition ops_disjoint (a b : Op) : Prop :=
  ∀ p q, may_write a p → may_write b q → path_disjoint p q.
#[export] Instance ops_disjoint_symmetric : Symmetric ops_disjoint.
Proof. intros a b H p q Hp Hq. symmetry. by apply H. Qed.

(** Operations that only add to the output. *)
Fixpoint sets_only (op : Op) : bool :=
  match op with
  | restoreAnnotationOp _ _ _ _ | stripMetadataKeyOp _ _ | jsonPatchOp _ _ => false
  | whenOp _ _ inner => sets_only inner
  | _ => true
  end.

Lemma sets_only_effect op e : sets_only op = true → may_effect op e → ∃ p v, e = EffSet p v.
Proof. induction op; cbn; try done; destruct e; eauto; done. Qed.

(** Writes at disjoint paths commute, in blocks. *)
Definition sets_disjoint (es1 es2 : list effect) : Prop :=
  Forall (λ e1, Forall (λ e2, path_disjoint (eff_path e1) (eff_path e2)) es2) es1.

Definition all_sets (es : list effect) : Prop := Forall (λ e, ∃ p v, e = EffSet p v) es.

Lemma run_effect_past e es o o1 o2 :
  all_sets [e] → all_sets es → Forall (λ e2, path_disjoint (eff_path e) (eff_path e2)) es →
  run_effect o e = Ok o1 → run_effects o1 es = Ok o2 →
  ∃ o1', run_effects o es = Ok o1' ∧ run_effect o1' e = Ok o2.
Proof.
  intros He Hs Hd. inversion He as [|? ? (p & v & ->) _]; subst. revert o o1.
  induction es as [|e2 es IH]; intros o o1 H1 H2.
  { injection H2 as <-. by exists o. }
  inversion Hs as [|? ? (p2 & v2 & ->) Hs']; subst. inversion Hd; subst.
  cbn in H2. apply res_bind_Ok in H2 as (o1b & Hset2 & Hrest). cbn in *.
  destruct (setValue_comm o p v p2 v2 o1 o1b) as (o1' & Ha & Hb); [done..|].
  destruct (IH Hs' ltac:(done) o1' o1b Hb Hrest) as (o2' & Hc & Hd').
  exists o2'. split; [|done]. unfold run_effects in *. cbn. by rewrite Ha.
Qed.

Lemma run_effects_swap es1 es2 o o' :
  all_sets es1 → all_sets es2 → sets_disjoint es1 es2 →
  run_effects o (es1 ++ es2) = Ok o' → run_effects o (es2 ++ es1) = Ok o'.
Proof.
  revert o; induction es1 as [|e es1 IH]; intros o H1 H2 Hd Ho.
  { by rewrite app_nil_r. }
  inversion H1 as [|? ? He Hs]; subst. inversion Hd as [|? ? Hde Hds]; subst. cbn in Ho. apply res_bind_Ok in Ho as (o1 & Ho1 & Ho2).
  apply IH in Ho2; [|done..]. unfold run_effects in *. rewrite res_foldl_app in Ho2.
  apply res_bind_Ok in Ho2 as (o2 & Ho2 & Ho3).
  destruct (run_effect_past e es2 o o1 o2) as (o1' & Ha & Hb); [by constructor|done..|].
  rewrite res_foldl_app. unfold run_effects in Ha. rewrite Ha. cbn. by rewrite Hb.
Qed.

Section consequences.
Context `{RO : RangeOrder} `{EX : Externs}.

(** An operation list, run from two contexts that differ in the cache only. *)
Lemma apply_ops_spec ops ctx ctx' :
  apply_ops ops ctx = Ok ctx' → cache_ok ctx →
  ∃ es, Forall (λ e, ∃ op, op ∈ ops ∧ may_effect op e) es ∧
    run_effects (ecOutput ctx) es = Ok (ecOutput ctx') ∧
    ecInput ctx' = ecInput ctx ∧ cache_ok ctx'.
Proof.
  intros Hrun Hc. destruct (apply_ops_effects (ecInput ctx) ops) as [Hf|(es & HW & He)].
  - specialize (Hf ctx eq_refl Hc). by rewrite Hrun in Hf.
  - exists es. specialize (He ctx eq_refl Hc).
    destruct (run_effects (ecOutput ctx) es).
    + destruct He as (c' & Hc' & <- & ? & ?). rewrite Hrun in Hc'. by simplify_eq.
    + by rewrite Hrun in He.
Qed.

Lemma apply_ops_frame ops ctx ctx' q :
  apply_ops ops ctx = Ok ctx' → cache_ok ctx →
  (∀ op p, op ∈ ops → may_write op p → path_disjoint p q) →
  getValue (ecOutput ctx') q = getValue (ecOutput ctx) q.
Proof.
  intros Hrun Hc Hd. destruct (apply_ops_spec _ _ _ Hrun Hc) as (es & HW & He & _).
  eapply run_effects_frame; [done|]. eapply Forall_impl; [done|].
  intros e (op & Hop & He'). eapply Hd; [done|]. by apply may_effect_write.
Qed.

Lemma apply_ops_cache ops ctx1 ctx2 :
  ecInput ctx1 = ecInput ctx2 → ecOutput ctx1 = ecOutput ctx2 → cache_ok ctx1 → cache_ok ctx2 →
  ∀ c1, apply_ops ops ctx1 = Ok c1 →
    ∃ c2, apply_ops ops ctx2 = Ok c2 ∧ ecOutput c2 = ecOutput c1 ∧ ecInput c2 = ecInput c1 ∧ cache_ok c2.
Proof.
  intros Hi Ho Hc1 Hc2 c1 Hrun.
  destruct (apply_ops_effects (ecInput ctx1) ops) as [Hf|(es & _ & He)].
  - specialize (Hf ctx1 eq_refl Hc1). by rewrite Hrun in Hf.
  - pose proof (He ctx1 eq_refl Hc1) as He1. pose proof (He ctx2 ltac:(done) Hc2) as He2.
    rewrite <-Ho in He2. destruct (run_effects (ecOutput ctx1) es).
    + destruct He1 as (c1' & Hr1 & Ho1 & Hi1 & _). rewrite Hrun in Hr1. simplify_eq.
      destruct He2 as (c2 & Hr2 & Ho2 & Hi2 & Hc2'). exists c2. by rewrite Ho2, Hi2, Hi1.
    + by rewrite Hrun in He1.
Qed.

(** The effects of one operation at an input, as data. *)
Lemma apply_op_swap a b ctx c :
  sets_only a = true → sets_only b = true → ops_disjoint a b → cache_ok ctx →
  apply_ops [a; b] ctx = Ok c →
  ∃ c', apply_ops [b; a] ctx = Ok c' ∧ ecOutput c' = ecOutput c ∧ ecInput c' = ecInput c ∧ cache_ok c'.
Proof.
  intros Ha Hb Hd Hc Hrun. cbn in Hrun. apply res_bind_Ok in Hrun as (c1 & H1 & H2).
  apply res_bind_Ok in H2 as (c2 & H2 & [= <-]).
  destruct (apply_op_effects (ecInput ctx) a) as [Hf|(ea & HWa & Hea)].
  { specialize (Hf ctx eq_refl Hc). by rewrite H1 in Hf. }
  pose proof (Hea ctx eq_refl Hc) as Hea1.
  destruct (run_effects (ecOutput ctx) ea) as [oa|] eqn:Hoa; [|by rewrite H1 in Hea1].
  destruct Hea1 as (c1' & Hr1 & Ho1 & Hi1 & Hc1). rewrite H1 in Hr1. injection Hr1 as <-.
  destruct (apply_op_effects (ecInput ctx) b) as [Hf|(eb & HWb & Heb)].
  { specialize (Hf c1 Hi1 Hc1). by rewrite H2 in Hf. }
  pose proof (Heb c1 Hi1 Hc1) as Heb1.
  destruct (run_effects (ecOutput c1) eb) as [ob|] eqn:Hob; [|by rewrite H2 in Heb1].
  destruct Heb1 as (c2' & Hr2 & Ho2 & Hi2 & Hc2). rewrite H2 in Hr2. injection Hr2 as <-.
  assert (run_effects (ecOutput ctx) (eb ++ ea) = Ok ob) as Hswap.
  { apply run_effects_swap.
    - eapply Forall_impl; [done|]. intros e. by apply sets_only_effect.
    - eapply Forall_impl; [done|]. intros e. by apply sets_only_effect.
    - eapply Forall_impl; [done|]. intros e He. eapply Forall_impl; [done|]. intros e' He'.
      apply Hd; by apply may_effect_write.
    - unfold run_effects in *. rewrite res_foldl_app, Hoa. cbn. by rewrite <-Ho1. }
  unfold run_effects in Hswap. rewrite res_foldl_app in Hswap.
  apply res_bind_Ok in Hswap as (o1 & Hs1 & Hs2).
  pose proof (Heb ctx eq_refl Hc) as Hb3. unfold run_effects in Hb3. rewrite Hs1 in Hb3.
  destruct Hb3 as (d1 & Hd1 & Hdo1 & Hdi1 & Hdc1).
  pose proof (Hea d1 Hdi1 Hdc1) as Ha4. unfold run_effects in Ha4. rewrite Hdo1, Hs2 in Ha4.
  destruct Ha4 as (d2 & Hd2 & Hdo2 & Hdi2 & Hdc2).
  exists d2. cbn. rewrite Hd1. cbn. rewrite Hd2. split_and!; try done; congruence.
Qed.

(** Operations that write disjoint paths may run in any order. *)
Lemma apply_ops_perm ops ops' :
  ops ≡ₚ ops' → Forall (λ op, sets_only op = true) ops → ForallOrdPairs ops_disjoint ops →
  ∀ ctx c, cache_ok ctx → apply_ops ops ctx = Ok c →
    ∃ c', apply_ops ops' ctx = Ok c' ∧ ecOutput c' = ecOutput c ∧ ecInput c' = ecInput c ∧ cache_ok c'.
Proof.
  induction 1 as [|a l k Hp IH|a b l|l k j Hlk IH1 Hkj IH2]; intros Hs Hd ctx c Hc Hrun.
  - injection Hrun as <-. by exists ctx.
  - inversion Hs; subst. inversion Hd; subst. cbn in Hrun. apply res_bind_Ok in Hrun as (c1 & H1' & H2').
    destruct (apply_ops_spec [a] ctx c1) as (_ & _ & _ & Hi & Hc1); [cbn; by rewrite H1'|done|].
    destruct (IH ltac:(done) ltac:(done) c1 c Hc1 H2') as (c' & Hr & Hrest).
    exists c'. cbn. by rewrite H1'.
  - inversion Hs as [|? ? Hb Hs']; subst. inversion Hs' as [|? ? Ha _]; subst.
    inversion Hd as [|? ? Hba _]; subst. inversion Hba; subst.
    change (b :: a :: l) with ([b; a] ++ l) in Hrun. unfold apply_ops in Hrun.
    rewrite res_foldl_app in Hrun. apply res_bind_Ok in Hrun as (c1 & Hr1 & Hr2).
    destruct (apply_op_swap b a ctx c1) as (c1' & Hr1' & Ho & Hi & Hc1'); [done..|].
    destruct (apply_ops_spec [b; a] ctx c1) as (_ & _ & _ & _ & Hc1); [done..|].
    destruct (apply_ops_cache l c1 c1') with (c1 := c) as (c2 & Hr & Hrest); [done..|].
    exists c2. split; [|done]. change (a :: b :: l) with ([a; b] ++ l). unfold apply_ops in *.
    rewrite res_foldl_app, Hr1'. cbn. done.
  - destruct (IH1 Hs Hd ctx c Hc Hrun) as (c1 & Hr1 & Ho1 & Hi1 & _).
    destruct (IH2 ltac:(by rewrite <-Hlk) ltac:(eapply ForallOrdPairs_perm; [apply _|done|done]) ctx c1 Hc Hr1)
      as (c2 & Hr2 & Ho2 & Hi2 & ?).
    exists c2. by rewrite Ho2, Hi2.
Qed.
End consequences.
