(* ===== verification/RoundTrip.v ===== *)
(** Round trips: for each strategy that claims to be lossless, converting there
    and back with the pair of operations the compiler emits gives back what was
    there.

    Most pairs are [exchanges]: one operation writes [w] at [q] for a [v] at [p], the
    other writes [v] at [p] for a [w] at [q].  Such a pair [round_trips]: both
    operations run whenever the field they write can be set, and the second, on any
    object that agrees with what the first wrote, gives back what the first read. *)
From S2P Require Import Prelude Float64 Value Json JsonTheory Duration Path Schema Rules Coerce Passthrough Ops.
From Stdlib Require Import Ascii.

(** Show both halves of an [exchanges] by computing the two operations. *)
Ltac exchange :=
  split; [intros i Hv|intros j Hw]; intros o; cbn; unfold on_present; cbn.

Section roundtrip.
Context `{RO : RangeOrder} `{EX : Externs}.

(** Running [fwd], then [bwd] on any object that has what [fwd] wrote at [q],
    gives back the value at [p]. *)
Definition restores (fwd bwd : Op) (p q : FieldPath) (i : obj) : Prop :=
  ∀ o1 c1, apply_op fwd (new_context i o1) = Ok c1 →
  ∀ j o2 c2, getValue j q = getValue (ecOutput c1) q →
    apply_op bwd (new_context j o2) = Ok c2 →
    getValue (ecOutput c2) p = getValue i p.

(** The same, and both operations run whenever the field they write can be set. *)
Definition round_trips (fwd bwd : Op) (p q : FieldPath) (i : obj) : Prop :=
  ∀ o1, writable o1 q = true → ∃ c1, apply_op fwd (new_context i o1) = Ok c1 ∧
    ∀ j o2, getValue j q = getValue (ecOutput c1) q → writable o2 p = true →
      ∃ c2, apply_op bwd (new_context j o2) = Ok c2 ∧ getValue (ecOutput c2) p = getValue i p.

(** On [i], the operation writes [w] at [q] and nothing else. *)
Definition writes (op : Op) (i : obj) (q : FieldPath) (w : value) : Prop :=
  ∀ o, apply_op op (new_context i o) = put (new_context i o) q w.

Definition exchanges (fwd bwd : Op) (p q : FieldPath) (v w : value) : Prop :=
  (∀ i, getValue i p = Some v → writes fwd i q w) ∧ (∀ j, getValue j q = Some w → writes bwd j p v).

Lemma put_Ok ctx p v c :
  put ctx p v = Ok c → ecInput c = ecInput ctx ∧ getValue (ecOutput c) p = Some v ∧
    setValue (ecOutput ctx) p v = Ok (ecOutput c).
Proof.
  unfold put. destruct (setValue _ _ _) as [o|] eqn:Ho; cbn; [|done]. intros [= <-]; cbn.
  split_and!; try done. by eapply getValue_setValue.
Qed.

Lemma put_writable ctx p v : writable (ecOutput ctx) p = true → ∃ c, put ctx p v = Ok c.
Proof. intros Hw. destruct (writable_Ok _ _ v Hw) as [o Ho]. unfold put. rewrite Ho. cbn. eauto. Qed.

Lemma writes_Ok op i q w o c :
  writes op i q w → apply_op op (new_context i o) = Ok c → getValue (ecOutput c) q = Some w.
Proof. intros Hw Hc. rewrite Hw in Hc. by apply put_Ok in Hc as (_ & ? & _). Qed.

Lemma writes_runs op i q w o :
  writes op i q w → writable o q = true →
  ∃ c, apply_op op (new_context i o) = Ok c ∧ getValue (ecOutput c) q = Some w.
Proof.
  intros Hw Ho. destruct (put_writable (new_context i o) q w Ho) as [c Hc].
  exists c. rewrite Hw. split; [done|]. by apply put_Ok in Hc as (_ & ? & _).
Qed.

Lemma exchanges_restores fwd bwd p q v w i :
  exchanges fwd bwd p q v w → getValue i p = Some v → restores fwd bwd p q i.
Proof.
  intros [Hf Hb] Hv o1 c1 H1 j o2 c2 Hj H2. eapply writes_Ok in H1; [|by apply Hf].
  rewrite H1 in Hj. rewrite Hv. eapply (writes_Ok bwd j); [by apply Hb|done].
Qed.

Lemma exchanges_round_trips fwd bwd p q v w i :
  exchanges fwd bwd p q v w → getValue i p = Some v → round_trips fwd bwd p q i.
Proof.
  intros [Hf Hb] Hv o1 Ho1. destruct (writes_runs fwd i q w o1) as (c1 & Hc1 & Hq); [by apply Hf|done|].
  exists c1. split; [done|]. intros j o2 Hj Ho2. rewrite Hv.
  apply (writes_runs bwd j p v o2); [|done]. apply Hb. by rewrite Hj.
Qed.

(** *** FieldRename, ScalarToObject, singleton arrays *)
Lemma rename_exchanges from to v : exchanges (renameOp from to) (renameOp to from) from to v v.
Proof.
  exchange; unfold renameOp_apply, on_present; cbn;
    rewrite ?Hv, ?Hw; by rewrite deepCopyValue_id.
Qed.

Lemma wrap_exchanges sp op key defaults v :
  exchanges (wrapScalarOp sp op key defaults) (unwrapScalarOp op sp key) sp op
    v (VObj (<[key := v]> (deepCopyValue <$> defaults))).
Proof.
  exchange; unfold wrapScalarOp_apply, unwrapScalarOp_apply, on_present; cbn.
  - by rewrite Hv, deepCopyValue_id.
  - rewrite Hw. cbn. by rewrite lookup_insert_eq, deepCopyValue_id.
Qed.

Lemma singleton_exchanges op ap v :
  exchanges (objectToSingletonArrayOp op ap) (arrayFirstToObjectOp ap op) op ap v (VArr [v]).
Proof.
  exchange; unfold objectToSingletonArrayOp_apply, arrayFirstToObjectOp_apply, on_present; cbn.
  - by rewrite Hv, deepCopyValue_id.
  - rewrite Hw. cbn. by rewrite deepCopyValue_id.
Qed.

Lemma exchanges_sym fwd bwd p q v w : exchanges fwd bwd p q v w → exchanges bwd fwd q p w v.
Proof. intros [? ?]. by split. Qed.

(** *** Duration: whole seconds within the 64-bit range *)
Lemma f64_to_Z_of_Z z : (Z.abs z < 2 ^ 53)%Z → f64_to_Z (f64_of_Z z) = Some z.
Proof.
  intros Hz. destruct (decide (z = 0%Z)) as [->|Hne]; [done|].
  assert (f64_of_Z z = f64_signed (Z.ltb z 0) (Z.abs z)) as ->.
  { unfold f64_signed, f64_of_Z. rewrite (proj2 (Z.eqb_neq _ _)) by lia. by destruct z. }
  destruct (f64_signed_small (Z.ltb z 0) (Z.abs z)) as (m & e & Hs & Hm & He & Hmq); [lia|].
  rewrite Hs. cbn. f_equal.
  assert ((if (0 <=? e)%Z then Z.shiftl (Zpos m) e else Z.shiftr (Zpos m) (- e)) = Z.abs z) as ->.
  { destruct (0 <=? e)%Z eqn:He0.
    - apply Z.leb_le in He0. assert (e = 0%Z) as -> by lia.
      rewrite Hmq, !Z.shiftl_0_r. done.
    - apply Z.leb_gt in He0. by rewrite Hmq, Z.shiftr_shiftl_l, Z.sub_diag, Z.shiftl_0_r by lia. }
  destruct (Z.ltb_spec z 0); cbn; lia.
Qed.

Lemma int64_of_float_of_Z z :
  (Z.abs z < 2 ^ 53)%Z → int64_of_float (f64_of_Z z) = z.
Proof.
  intros Hz. unfold int64_of_float. rewrite f64_to_Z_of_Z by done.
  rewrite (proj2 (Z.leb_le _ _)), (proj2 (Z.ltb_lt _ _)) by lia. done.
Qed.

Lemma duration_exchanges src dst n :
  (- 2 ^ 63 <= n * Second < 2 ^ 63)%Z →
  exchanges (durationOp src dst false) (durationOp dst src true) src dst
    (VFloat (f64_of_Z n)) (VStr (Duration_String (n * Second))).
Proof.
  intros Hn. assert (Z.abs n < 2 ^ 53)%Z by (unfold Second in *; lia).
  exchange; unfold durationOp_apply, on_present; cbn.
  - rewrite Hv. cbn. by rewrite int64_of_float_of_Z, wrap64_id.
  - rewrite Hw. cbn. rewrite ParseDuration_seconds by done.
    rewrite (Z.rem_mul n Second) by done. rewrite bool_decide_eq_false_2 by (intros Hne; by apply Hne).
    by rewrite Z.quot_mul.
Qed.

(** *** ListJoin *)

Lemma imap_pair_snd {A} (l : list A) : (imap pair l).*2 = l.
Proof.
  rewrite fmap_imap. apply list_eq. intros i. rewrite list_lookup_imap. by destruct (l !! i).
Qed.

(** A loop with an index whose body ignores it. *)
Lemma res_mapM_indexed {A B} (f : nat * A → res op_error B) (g : A → B) l :
  (∀ i a, a ∈ l → f (i, a) = Ok (g a)) → res_mapM f (imap pair l) = Ok (g <$> l).
Proof.
  intros Hf. assert (∀ L : list (nat * A), L.*2 = l → res_mapM f L = Ok (g <$> l)) as Hgen.
  { clear -Hf. intros L <-. induction L as [|[i a] L IH]; [done|]. cbn.
    rewrite (Hf i a) by (by left). cbn. rewrite IH; [done|]. intros. apply Hf. by right. }
  apply Hgen, imap_pair_snd.
Qed.

Lemma list_join_exchanges ap sp sep (parts : list string) :
  Forall (λ s, has_char sep s = false) parts → parts ≠ [""] →
  exchanges (joinListOp ap sp (String sep "")) (splitListOp sp ap (String sep "") FieldKindString) ap sp
    (VArr (VStr <$> parts)) (VStr (join (String sep "") parts)).
Proof.
  intros Hp Hne. exchange; unfold joinListOp_apply, splitListOp_apply, on_present; cbn.
  - rewrite Hv. cbn. rewrite (res_mapM_indexed _ (λ v, default "" (as_str v))).
    2: { intros ? a (s & -> & _)%list_elem_of_fmap. done. }
    cbn. rewrite <-list_fmap_compose. unfold compose. cbn. by rewrite list_fmap_id.
  - rewrite Hw. cbn. rewrite (res_mapM_indexed _ VStr) by (intros; reflexivity). cbn. do 3 f_equal.
    unfold strings_Split. rewrite (bool_decide_eq_false_2 (String sep "" = "")) by done.
    destruct parts as [|x parts]; [done|]. rewrite bool_decide_eq_false_2.
    + by apply split_join_char.
    + destruct parts as [|y parts]; cbn; [naive_solver|]. by destruct x.
Qed.

(** *** MapKeyRename *)

(** [renameKeys] succeeds with the renamed entries when no two land on one key. *)
Definition rename_key (renames : gmap string string) (k : string) : string :=
  default k (renames !! k).

Lemma renameKeys_Ok dst renames (m : obj) :
  (∀ k1 k2 v1 v2, m !! k1 = Some v1 → m !! k2 = Some v2 →
     rename_key renames k1 = rename_key renames k2 → k1 = k2) →
  ∃ out, renameKeys dst renames m = Ok out ∧
    (∀ k v, m !! k = Some v → out !! rename_key renames k = Some v) ∧
    (∀ k' v, out !! k' = Some v → ∃ k, m !! k = Some v ∧ k' = rename_key renames k).
Proof.
  intros Hinj. unfold renameKeys.
  assert (∀ l (out : obj), NoDup l.*1 → (∀ k v, (k, v) ∈ l → m !! k = Some v) →
    (∀ k v, (k, v) ∈ l → out !! rename_key renames k = None) →
    ∃ out', res_foldl (λ out '(k, val),
        let dk := default k (renames !! k) in
        if bool_decide (is_Some (out !! dk)) then Err (EKeyCollision dk dst)
        else Ok (<[dk := val]> out)) out l = Ok out' ∧
      (∀ k v, (k, v) ∈ l → out' !! rename_key renames k = Some v) ∧
      (∀ k' v, out' !! k' = Some v → out !! k' = Some v ∨ ∃ k, (k, v) ∈ l ∧ k' = rename_key renames k) ∧
      (∀ k', is_Some (out !! k') → out' !! k' = out !! k')) as Hgen.
  { clear -Hinj. induction l as [|[k v] l IH]; intros out Hnd Hm Hout.
    { exists out. split_and!; try done; [by intros ?? ?%not_elem_of_nil|by left]. }
    cbn in Hnd. apply NoDup_cons in Hnd as [Hk Hnd]. cbn.
    fold (rename_key renames k). rewrite bool_decide_eq_false_2.
    2: { rewrite (Hout k v) by (by left). by intros []. }
    destruct (IH (<[rename_key renames k := v]> out) Hnd) as (out' & Hr & H1 & H2 & H3).
    { intros k' v' Hin. apply Hm. by right. }
    { intros k' v' Hin. rewrite lookup_insert_ne; [by apply (Hout k' v'); right|].
      intros Heq. apply Hk. apply (Hinj k k' v v') in Heq; [|apply Hm; by left|apply Hm; by right].
      subst. apply list_elem_of_fmap. by exists (k', v'). }
    exists out'. split_and!; [done| | |].
    - intros k' v' [[= -> ->]|Hin]%elem_of_cons; [|by apply H1].
      rewrite H3 by (by simplify_map_eq). by simplify_map_eq.
    - intros k' v' [Ho|(k2 & Hin & ->)]%H2; [|right; exists k2; split; [by right|done]].
      destruct (decide (k' = rename_key renames k)) as [->|Hne]; simplify_map_eq; [|by left].
      right. exists k. split; [by left|done].
    - intros k' [v' Hs]. rewrite H3; [|].
      + destruct (decide (k' = rename_key renames k)) as [->|Hne]; [|by simplify_map_eq].
        rewrite (Hout k v) in Hs; [done|by left].
      + destruct (decide (k' = rename_key renames k)) as [->|Hne]; simplify_map_eq; by eexists. }
  destruct (Hgen (range m) ∅) as (out & Hr & H1 & H2 & _).
  - apply NoDup_range_fst.
  - intros k v. by rewrite elem_of_range.
  - intros. apply lookup_empty.
  - exists out. split_and!; [done| |].
    + intros k v Hk. apply H1. by rewrite elem_of_range.
    + intros k' v [Ho|(k & Hin & ->)]%H2; [by rewrite lookup_empty in Ho|].
      exists k. by rewrite elem_of_range in Hin.
Qed.

(** Renaming and renaming back, when the second table undoes the first on the
    keys that are there. *)
Lemma map_key_rename_exchanges src dst r r' (m : obj) :
  (∀ k v, m !! k = Some v → rename_key r' (rename_key r k) = k) →
  ∃ out, exchanges (mapKeyRenameOp src dst r) (mapKeyRenameOp dst src r') src dst (VObj m) (VObj out).
Proof.
  intros Hinv. destruct (renameKeys_Ok dst r m) as (out & Hout & Hf & Hb).
  { intros k1 k2 v1 v2 Hk1 Hk2 Heq. erewrite <-(Hinv k1), <-(Hinv k2) by done. by rewrite Heq. }
  destruct (renameKeys_Ok src r' out) as (m2 & Hm2 & Hf2 & Hb2).
  { intros k1 k2 v1 v2 (j1 & Hj1 & ->)%Hb (j2 & Hj2 & ->)%Hb Heq.
    rewrite (Hinv j1 v1), (Hinv j2 v2) in Heq by done. by subst. }
  assert (m2 = m) as ->.
  { apply map_eq. intros k. destruct (m !! k) as [v|] eqn:Hk.
    - rewrite <-(Hinv k v) by done. by apply Hf2, Hf.
    - apply eq_None_not_Some. intros [v (k' & Hk' & ->)%Hb2].
      apply Hb in Hk' as (j1 & Hj1 & ->). by rewrite (Hinv j1 v), Hj1 in Hk. }
  exists out. exchange; unfold mapKeyRenameOp_apply, on_present; cbn.
  - rewrite Hv. cbn. by rewrite Hout.
  - rewrite Hw. cbn. by rewrite Hm2.
Qed.

(** *** FieldsToMap *)
Lemma collapse_foldl (i : obj) kn fps (m0 : obj) b0 :
  NoDup (key_for kn <$> fps) →
  (∀ fp, fp ∈ fps → m0 !! key_for kn fp = None) →
  let '(m, found) :=
    foldl (λ '(m, found) fp,
      match getValue i fp with
      | None => (m, found)
      | Some v => (<[key_for kn fp := deepCopyValue v]> m, true)
      end) (m0, b0) fps in
  (∀ fp, fp ∈ fps → m !! key_for kn fp = getValue i fp) ∧
  (∀ k, k ∉ key_for kn <$> fps → m !! k = m0 !! k) ∧
  found = b0 || existsb (λ fp, bool_decide (is_Some (getValue i fp))) fps.
Proof.
  revert m0 b0; induction fps as [|fp fps IH]; intros m0 b0 Hnd Hm0; cbn.
  { split_and!; try done; [by intros ? ?%not_elem_of_nil|by rewrite orb_false_r]. }
  cbn in Hnd. apply NoDup_cons in Hnd as [Hfp Hnd].
  destruct (getValue i fp) as [v|] eqn:Hv; cbn.
  - specialize (IH (<[key_for kn fp := deepCopyValue v]> m0) true Hnd).
    destruct (foldl _ _ _) as [m found]. destruct IH as (H1 & H2 & H3).
    { intros fp' Hin. rewrite lookup_insert_ne; [apply Hm0; by right|].
      intros Heq. apply Hfp. rewrite Heq. by apply list_elem_of_fmap_2. }
    split_and!.
    + intros fp' [->|Hin]%elem_of_cons; [|by apply H1].
      rewrite H2 by done. simplify_map_eq. by rewrite deepCopyValue_id.
    + intros k [Hne Hk]%not_elem_of_cons. rewrite H2 by done. by simplify_map_eq.
    + rewrite H3. by rewrite orb_true_r.
  - specialize (IH m0 b0 Hnd). destruct (foldl _ _ _) as [m found].
    destruct IH as (H1 & H2 & H3); [intros; apply Hm0; by right|]. split_and!.
    + intros fp' [->|Hin]%elem_of_cons; [|by apply H1]. rewrite H2 by done. rewrite Hm0; [done|by left].
    + intros k [Hne Hk]%not_elem_of_cons. by rewrite H2.
    + by rewrite H3.
Qed.

(** Expanding writes each known key at its field. *)
Lemma expand_foldl (m : obj) kn fps ctx c :
  ForallOrdPairs path_disjoint fps →
  res_foldl (λ ctx fp,
    match m !! key_for kn fp with
    | Some val => put ctx fp (deepCopyValue val)
    | None => Ok ctx
    end) ctx fps = Ok c →
  (∀ fp v, fp ∈ fps → m !! key_for kn fp = Some v → getValue (ecOutput c) fp = Some v) ∧
  (∀ q, Forall (λ p, path_disjoint p q) fps → getValue (ecOutput c) q = getValue (ecOutput ctx) q).
Proof.
  intros Hd; revert ctx; induction Hd as [|fp fps Hfp Hd IH]; intros ctx Hrun.
  { injection Hrun as <-. split; [by intros ?? ?%not_elem_of_nil|done]. }
  cbn in Hrun. apply res_bind_Ok in Hrun as (c1 & Hc1 & Hrun).
  destruct (IH c1 Hrun) as [H1 H2]. split.
  - intros fp' v [->|Hin]%elem_of_cons Hv; [|by apply H1].
    rewrite H2 by (eapply Forall_impl; [done|]; intros; by symmetry).
    rewrite Hv in Hc1. apply put_Ok in Hc1 as (_ & Hc1 & _). by rewrite Hc1, deepCopyValue_id.
  - intros q Hq. inversion Hq; subst. rewrite H2 by done.
    destruct (m !! key_for kn fp); [|by injection Hc1 as <-].
    apply put_Ok in Hc1 as (_ & _ & Hc1). by eapply getValue_setValue_disjoint.
Qed.

(** Expanding runs when every field can be set. *)
Lemma expand_runs (m : obj) kn fps ctx :
  ForallOrdPairs path_disjoint fps → Forall (λ fp, writable (ecOutput ctx) fp = true) fps →
  ∃ c, res_foldl (λ ctx fp,
    match m !! key_for kn fp with
    | Some val => put ctx fp (deepCopyValue val)
    | None => Ok ctx
    end) ctx fps = Ok c.
Proof.
  intros Hd; revert ctx; induction Hd as [|fp fps Hfp Hd IH]; intros ctx Hw; [by eexists|].
  apply Forall_cons in Hw as [Hw1 Hw]. cbn. destruct (m !! key_for kn fp) as [v|]; cbn; [|by apply IH].
  destruct (put_writable ctx fp (deepCopyValue v) Hw1) as [c Hc]. rewrite Hc. cbn. apply IH.
  apply put_Ok in Hc as (_ & _ & Hset). rewrite Forall_forall in Hfp, Hw |- *.
  intros q Hq. eapply writable_setValue_disjoint; eauto.
Qed.

(** The map holds the fields that are present, under their keys, and nothing else. *)
Lemma fields_to_map_round_trips fps mp kn pol i :
  NoDup (key_for kn <$> fps) → ForallOrdPairs path_disjoint fps →
  (∃ fp, fp ∈ fps ∧ is_Some (getValue i fp)) →
  ∀ o1, writable o1 mp = true →
  ∃ c1, apply_op (collapseToMapOp fps mp kn) (new_context i o1) = Ok c1 ∧
  ∀ j o2, getValue j mp = getValue (ecOutput c1) mp → Forall (λ fp, writable o2 fp = true) fps →
  ∃ c2, apply_op (expandFromMapOp mp fps kn pol) (new_context j o2) = Ok c2 ∧
    ∀ fp v, fp ∈ fps → getValue i fp = Some v → getValue (ecOutput c2) fp = Some v.
Proof.
  intros Hnd Hd (fp & Hfp & v & Hv) o1 Ho1.
  pose proof (collapse_foldl i kn fps ∅ false Hnd ltac:(intros; apply lookup_empty)) as Hc.
  destruct (foldl _ _ _) as [m found] eqn:Hfold. destruct Hc as (Hm & Hother & Hfound).
  assert (found = true) as ->.
  { rewrite Hfound. cbn. apply existsb_exists. exists fp. split; [by apply list_elem_of_In|].
    rewrite Hv. by apply bool_decide_eq_true_2. }
  assert (writes (collapseToMapOp fps mp kn) i mp (VObj m)) as Hw.
  { intros o. cbn. unfold collapseToMapOp_apply. cbn. by rewrite Hfold. }
  destruct (writes_runs _ _ _ _ o1 Hw Ho1) as (c1 & Hc1 & Hg). exists c1. split; [done|]. intros j o2 Hj Ho2.
  destruct (expand_runs m kn fps (new_context j o2) Hd Ho2) as [c2 Hc2]. exists c2. split.
  - cbn. unfold expandFromMapOp_apply, on_present. cbn. rewrite Hj, Hg. cbn. rewrite Hc2. cbn.
    case_bool_decide; [|done]. destruct (filter _ _) as [|k l] eqn:Hfil; [done|]. exfalso.
    assert (k ∈ filter (λ k, k ∉ key_for kn <$> fps) (range m).*1) as Hk by (rewrite Hfil; by left).
    apply list_elem_of_filter in Hk as [Hk Hin]. apply list_elem_of_fmap in Hin as ([k' w] & -> & Hin).
    apply elem_of_range in Hin. cbn in Hk. by rewrite Hother in Hin.
  - intros fp' v' Hfp' Hv'. apply expand_foldl in Hc2 as [Hc2 _]; [|done]. apply Hc2; [done|]. by rewrite Hm.
Qed.

(** *** ArrayToMapByKey *)

(** The keyed elements of an array: its key and object per element. *)
Definition keyed (keyField : string) (arr : list value) (ks : list (string * obj)) : Prop :=
  Forall2 (λ v km, v = VObj km.2 ∧ km.2 !! keyField = Some (VStr km.1)) arr ks.

Lemma arrayToMap_go ap kf (L : list (nat * value)) ks (out0 : obj) :
  keyed kf L.*2 ks → NoDup ks.*1 → (∀ k, k ∈ ks.*1 → out0 !! k = None) →
  res_foldl (λ out '(i, elem),
    '(keyStr, rest) ← element_entry ap kf i elem;
    if bool_decide (is_Some (out !! keyStr)) then Err (EDuplicateKey keyStr ap)
    else Ok (<[keyStr := VObj rest]> out)) out0 L =
  Ok (list_to_map ((λ km, (km.1, VObj (delete kf km.2))) <$> ks) ∪ out0).
Proof.
  revert ks out0; induction L as [|[j v] L IH]; intros ks out0 Hk Hnd Hout.
  { inversion Hk; subst. cbn. by rewrite (left_id_L ∅ (∪)). }
  inversion Hk as [|? [k m] ? ks' [-> Hkf] Hk']; subst. cbn in *.
  apply NoDup_cons in Hnd as [Hnin Hnd]. unfold element_entry. cbn. rewrite Hkf. cbn.
  rewrite bool_decide_eq_false_2 by (rewrite Hout by (by left); by intros []).
  assert (deepCopyValue <$> delete kf m = delete kf m) as ->.
  { rewrite <-(map_fmap_id (delete kf m)) at 2. apply map_fmap_ext. intros. apply deepCopyValue_id. }
  cbn. rewrite (IH ks') ; [|done|done|].
  - f_equal. rewrite <-insert_union_r; [by rewrite insert_union_l|].
    apply not_elem_of_list_to_map_1. by rewrite <-list_fmap_compose.
  - intros k' Hk''. rewrite lookup_insert_ne by (by intros ->). apply Hout. by right.
Qed.

Lemma arrayToMap_Ok ap kf arr ks :
  keyed kf arr ks → NoDup ks.*1 →
  arrayToMap ap kf arr = Ok (list_to_map ((λ km, (km.1, VObj (delete kf km.2))) <$> ks)).
Proof.
  intros Hk Hnd. unfold arrayToMap. erewrite arrayToMap_go; [|by rewrite imap_pair_snd|done|].
  - by rewrite (right_id_L ∅ (∪)).
  - intros. apply lookup_empty.
Qed.

(** A conversion that succeeds had one string key per element, no two equal. *)
Lemma arrayToMap_keyed ap kf arr out :
  arrayToMap ap kf arr = Ok out → ∃ ks, keyed kf arr ks ∧ NoDup ks.*1.
Proof.
  unfold arrayToMap.
  assert (∀ (L : list (nat * value)) (out0 out : obj),
    res_foldl (λ out '(i, elem),
      '(keyStr, rest) ← element_entry ap kf i elem;
      if bool_decide (is_Some (out !! keyStr)) then Err (EDuplicateKey keyStr ap)
      else Ok (<[keyStr := VObj rest]> out)) out0 L = Ok out →
    ∃ ks, keyed kf L.*2 ks ∧ NoDup ks.*1 ∧ ∀ k, k ∈ ks.*1 → out0 !! k = None) as Hgen.
  { induction L as [|[j v] L IH]; intros out0 out' Hrun.
    { exists []. split_and!; [by constructor|by constructor|by intros ? ?%not_elem_of_nil]. }
    cbn in Hrun. apply res_bind_Ok in Hrun as (out1 & H1 & Hrun).
    apply res_bind_Ok in H1 as ([k rest] & He & H1).
    case_bool_decide as Hdup; [done|]. injection H1 as <-.
    destruct (IH _ _ Hrun) as (ks & Hk & Hnd & Hout).
    unfold element_entry in He. destruct v as [| | | | | |m]; try done. cbn in He.
    destruct (m !! kf) as [[]|] eqn:Hkf; try done. cbn in He. simplify_eq.
    exists ((k, m) :: ks). split_and!.
    - constructor; [done|]. done.
    - cbn. constructor; [|done]. intros Hin. apply Hout in Hin. by simplify_map_eq.
    - intros k' [->|Hin]%elem_of_cons; cbn.
      + by apply eq_None_not_Some.
      + apply Hout in Hin. by apply lookup_insert_None in Hin as [? _]. }
  intros Hrun. destruct (Hgen _ _ _ Hrun) as (ks & Hk & Hnd & _).
  exists ks. by rewrite imap_pair_snd in Hk.
Qed.

Lemma mapToArray_Ok mp kf (m : obj) (g : string → obj) :
  (∀ k v, m !! k = Some v → v = VObj (g k) ∧ g k !! kf = None) →
  mapToArray mp kf m = Ok ((λ k, VObj (<[kf := VStr k]> (g k))) <$> sort_strings (map_to_list m).*1).
Proof.
  intros Hm. unfold mapToArray.
  rewrite (sort_strings_unique (range m).*1 (map_to_list m).*1) by (by rewrite range_perm).
  assert (∀ k, k ∈ sort_strings (map_to_list m).*1 → is_Some (m !! k)) as Hdom.
  { intros k Hk. apply elem_of_sort_strings, list_elem_of_fmap in Hk as ([k' v] & -> & Hk).
    apply elem_of_map_to_list in Hk. by eexists. }
  revert Hdom. generalize (sort_strings (map_to_list m).*1). intros ks.
  induction ks as [|k ks IH]; intros Hdom; [done|]. cbn.
  destruct (Hdom k ltac:(by left)) as [v Hk]. destruct (Hm k v Hk) as [-> Hg]. rewrite Hk. cbn.
  rewrite IH by (intros; apply Hdom; by right). cbn. do 3 f_equal.
  assert (deepCopyValue <$> g k = g k) as ->.
  { rewrite <-(map_fmap_id (g k)) at 2. apply map_fmap_ext. intros. apply deepCopyValue_id. }
  rewrite <-insert_union_singleton_r; [done|done].
Qed.

(** From a map through the array and back: exact. *)
Lemma map_array_exchanges mp ap kf (m : obj) (g : string → obj) :
  (∀ k v, m !! k = Some v → v = VObj (g k) ∧ g k !! kf = None) →
  ∃ arr, exchanges (mapToArrayByKeyOp mp ap kf) (arrayToMapByKeyOp ap mp kf) mp ap (VObj m) (VArr arr).
Proof.
  intros Hm. set (ks := sort_strings (map_to_list m).*1).
  assert (NoDup ks) as Hnd.
  { unfold ks. rewrite sort_strings_perm. apply NoDup_fst_map_to_list. }
  exists ((λ k, VObj (<[kf := VStr k]> (g k))) <$> ks).
  exchange; unfold mapToArrayByKeyOp_apply, arrayToMapByKeyOp_apply, on_present; cbn.
  { rewrite Hv. cbn. by erewrite mapToArray_Ok. }
  rewrite Hw. cbn. rewrite (arrayToMap_Ok ap kf _ ((λ k, (k, <[kf := VStr k]> (g k))) <$> ks)).
  2: { apply Forall2_fmap. apply Forall2_same_length_lookup. split; [done|].
       intros ? ? ? ??. simplify_eq. cbn. by simplify_map_eq. }
  2: { rewrite <-list_fmap_compose. unfold compose. cbn. by rewrite list_fmap_id. }
  cbn. do 2 f_equal. rewrite <-list_fmap_compose. unfold compose. cbn.
  apply map_eq. intros k. destruct (m !! k) as [v|] eqn:Hk.
  - apply elem_of_list_to_map_1.
    + rewrite <-list_fmap_compose. unfold compose. cbn. by rewrite list_fmap_id.
    + apply list_elem_of_fmap. exists k. destruct (Hm k v Hk) as [-> Hg]. split.
      * by rewrite delete_insert_id.
      * apply elem_of_sort_strings, list_elem_of_fmap. exists (k, VObj (g k)).
        split; [done|]. by apply elem_of_map_to_list.
  - apply not_elem_of_list_to_map_1. rewrite <-list_fmap_compose. unfold compose. cbn.
    rewrite list_fmap_id. intros Hin. apply elem_of_sort_strings, list_elem_of_fmap in Hin as ([k' v] & -> & Hin).
    apply elem_of_map_to_list in Hin. cbn in Hk. congruence.
Qed.

(** A keyed array as a map, and the array of that map: the elements, sorted by key. *)
Definition key_map (kf : string) (ks : list (string * obj)) : obj :=
  list_to_map ((λ km, (km.1, VObj (delete kf km.2))) <$> ks).

Lemma mapToArray_keyed mp kf arr ks :
  keyed kf arr ks → NoDup ks.*1 →
  ∃ arr' ks', mapToArray mp kf (key_map kf ks) = Ok arr' ∧ arr' ≡ₚ arr ∧
    keyed kf arr' ks' ∧ StronglySorted String.le ks'.*1.
Proof.
  intros Hk Hnd. set (M := key_map kf ks). set (km := list_to_map ks : gmap string obj).
  assert (∀ k m, (k, m) ∈ ks → km !! k = Some m) as Hkm.
  { intros k m Hin. by apply elem_of_list_to_map_1. }
  clearbody km.
  assert (NoDup ((λ km, (km.1, VObj (delete kf km.2))) <$> ks).*1) as Hnd'
    by (by rewrite <-list_fmap_compose).
  rewrite (mapToArray_Ok mp kf M (λ k, delete kf (default ∅ (km !! k)))).
  2: { intros k v Hk'. apply elem_of_list_to_map_2, list_elem_of_fmap in Hk' as ([k' m] & [= -> ->] & Hin).
       rewrite (Hkm k' m Hin). cbn. by rewrite lookup_delete_eq. }
  set (sk := sort_strings (map_to_list M).*1) in *.
  assert (sk ≡ₚ ks.*1) as Hsk.
  { unfold sk. rewrite sort_strings_perm. unfold M, key_map. rewrite map_to_list_to_map by done.
    by rewrite <-list_fmap_compose. }
  eexists _, ((λ k, (k, <[kf := VStr k]> (delete kf (default ∅ (km !! k))))) <$> sk). split_and!; [done| | |].
  - rewrite Hsk. clear -Hk Hkm. revert Hkm. induction Hk as [|v [k m] arr ks [-> Hm] Hk IH]; intros Hkm; [done|].
    cbn. rewrite (Hkm k m) by (by left). cbn in *. rewrite insert_delete_eq, insert_id by done.
    constructor. apply IH. intros. apply Hkm. by right.
  - apply Forall2_fmap, Forall2_same_length_lookup. split; [done|].
    intros ? ? ? ??. simplify_eq. cbn. by simplify_map_eq.
  - rewrite <-list_fmap_compose. unfold compose. cbn. rewrite list_fmap_id.
    apply sort_strings_sorted.
Qed.

(** The first conversion runs exactly on arrays with distinct keys. *)
Lemma array_to_map_runs ap mp kf i arr o1 :
  getValue i ap = Some (VArr arr) → writable o1 mp = true →
  res_ok (apply_op (arrayToMapByKeyOp ap mp kf) (new_context i o1)) = true ↔
  ∃ ks, keyed kf arr ks ∧ NoDup ks.*1.
Proof.
  intros Hv Hw. cbn. unfold arrayToMapByKeyOp_apply, on_present. cbn. rewrite Hv. cbn. split.
  - intros H. destruct (arrayToMap ap kf arr) as [out|] eqn:Hout; [|done]. by eapply arrayToMap_keyed.
  - intros (ks & Hk & Hnd). rewrite (arrayToMap_Ok ap kf arr ks) by done. cbn.
    destruct (put_writable (new_context i o1) mp (VObj (key_map kf ks)) Hw) as [c Hc].
    unfold key_map in Hc. by rewrite Hc.
Qed.

(** From an array through the map and back: the same elements, sorted by key. *)
Lemma array_map_sorts ap mp kf i arr ks o1 :
  getValue i ap = Some (VArr arr) → keyed kf arr ks → NoDup ks.*1 → writable o1 mp = true →
  ∃ c1, apply_op (arrayToMapByKeyOp ap mp kf) (new_context i o1) = Ok c1 ∧
  ∀ j o2, getValue j mp = getValue (ecOutput c1) mp → writable o2 ap = true →
  ∃ c2 arr' ks', apply_op (mapToArrayByKeyOp mp ap kf) (new_context j o2) = Ok c2 ∧
    getValue (ecOutput c2) ap = Some (VArr arr') ∧ arr' ≡ₚ arr ∧
    keyed kf arr' ks' ∧ StronglySorted String.le ks'.*1.
Proof.
  intros Hv Hk Hnd Ho1. destruct (mapToArray_keyed mp kf arr ks Hk Hnd) as (arr' & ks' & Ha & Hp & Hk' & Hs).
  assert (writes (arrayToMapByKeyOp ap mp kf) i mp (VObj (key_map kf ks))) as Hf.
  { intros o. cbn. unfold arrayToMapByKeyOp_apply, on_present. cbn. rewrite Hv. cbn.
    by rewrite (arrayToMap_Ok ap kf arr ks). }
  destruct (writes_runs _ _ _ _ o1 Hf Ho1) as (c1 & Hc1 & Hg). exists c1. split; [done|].
  intros j o2 Hj Ho2. assert (writes (mapToArrayByKeyOp mp ap kf) j ap (VArr arr')) as Hb.
  { intros o. cbn. unfold mapToArrayByKeyOp_apply, on_present. cbn. rewrite Hj, Hg. cbn. by rewrite Ha. }
  destruct (writes_runs _ _ _ _ o2 Hb Ho2) as (c2 & Hc2 & Hg2). by exists c2, arr', ks'.
Qed.

(** *** ToAnnotation and ToLabel: stash and restore *)

(** What a value must be for the chosen serialization to carry it. *)
Definition stashable (serialization : string) (v : value) : Prop :=
  if bool_decide (serialization = "String") then is_Some (as_str v)
  else json_safe v = true ∧ (Z.of_nat (vdepth v) <= maxNestingDepth)%Z.

(** The text a value is stored as. *)
Definition stash_text (serialization : string) (v : value) : option string :=
  if bool_decide (serialization = "String") then as_str v else json_Marshal v.

(** A label's key and text must be acceptable; an annotation's need not. *)
Definition label_ok (metadataField key s : string) : Prop :=
  metadataField = "labels" → IsQualifiedName key = [] ∧ IsValidLabelValue s = [].

Lemma stash_writes hp mf key ser i v s :
  getValue i hp = Some v → stash_text ser v = Some s → label_ok mf key s →
  writes (stashAnnotationOp hp mf key ser) i (metadata_path mf key) (VStr s).
Proof.
  intros Hv Hs Hl o. cbn -[metadata_path]. unfold stashAnnotationOp_apply, on_present. cbn -[metadata_path].
  rewrite Hv. unfold stash_text in Hs. destruct (bool_decide (ser = "String")); rewrite Hs; cbn -[metadata_path];
    (case_bool_decide as Hb; [destruct (Hl Hb) as [-> ->]|]; done).
Qed.

Lemma stash_text_back ser v s :
  stashable ser v → stash_text ser v = Some s →
  if bool_decide (ser = "String") then v = VStr s else json_Unmarshal s = Some v.
Proof.
  unfold stashable, stash_text. destruct (bool_decide (ser = "String")).
  - intros _. destruct v; try done. by intros [= ->].
  - intros [Hsafe Hdep]. destruct (json_roundtrip v Hsafe Hdep) as (s' & -> & Hu). by intros [= <-].
Qed.

(** Stashing runs; restoring from what it wrote gives the value back and removes the key. *)
Lemma stash_restore_round_trips hp mf key ser i v s :
  getValue i hp = Some v → stashable ser v → stash_text ser v = Some s → label_ok mf key s →
  path_disjoint (metadata_path mf key) hp →
  ∀ o1, writable o1 (metadata_path mf key) = true →
  ∃ c1, apply_op (stashAnnotationOp hp mf key ser) (new_context i o1) = Ok c1 ∧
  ∀ j o2, getValue j (metadata_path mf key) = getValue (ecOutput c1) (metadata_path mf key) →
    writable o2 hp = true →
  ∃ c2, apply_op (restoreAnnotationOp hp mf key ser) (new_context j o2) = Ok c2 ∧
    getValue (ecOutput c2) hp = Some v ∧ getValue (ecOutput c2) (metadata_path mf key) = None.
Proof.
  intros Hv Hst Hs Hl Hd o1 Ho1.
  destruct (writes_runs _ _ _ _ o1 (stash_writes hp mf key ser i v s Hv Hs Hl) Ho1) as (c1 & Hc1 & Hg).
  exists c1. split; [done|]. intros j o2 Hj Ho2. pose proof (stash_text_back ser v s Hst Hs) as Hback.
  destruct (put_writable (new_context j o2) hp v Ho2) as [c Hc].
  assert (apply_op (restoreAnnotationOp hp mf key ser) (new_context j o2) = Ok (with_output c
    (deleteValuePruningEmptyMaps (ecOutput c) (metadata_path mf key)))) as Hrun.
  { cbn -[metadata_path json_Unmarshal]. unfold restoreAnnotationOp_apply, on_present.
    cbn -[metadata_path json_Unmarshal]. rewrite Hj, Hg. cbn -[metadata_path json_Unmarshal].
    destruct (bool_decide (ser = "String")); [rewrite <-Hback|rewrite Hback]; cbn -[metadata_path put]; by rewrite Hc. }
  eexists. split; [exact Hrun|]. cbn -[metadata_path]. apply put_Ok in Hc as (_ & Hc & _). split.
  - by rewrite getValue_deletePruning_disjoint.
  - by apply getValue_deletePruning.
Qed.
End roundtrip.
