(* ===== verification/Diagnostics.v ===== *)
(** Diagnostics and verdicts (pkg/engine/diagnostics.go).

    A message is kept as data: one constructor per format string, with the
    operands it prints.  Everything the engine branches on (severity, code,
    uncovered side, field path) is a field of the [Diagnostic] itself. *)
From S2P Require Import Prelude Float64 Value Path Schema Rules.

Inductive Severity := SeverityError | SeverityWarning.
#[export] Instance Severity_eq_dec : EqDecision Severity.
Proof. solve_decision. Defined.

(** The two schemas of a pair; also [UncoveredSide]. *)
Inductive side := Hub | Spoke.
#[export] Instance side_eq_dec : EqDecision side.
Proof. solve_decision. Defined.

(** What a rule's diagnostics say after ["rule %d (<strategy>): "]. *)
Inductive rule_msg :=
| MLookup (label : string) (e : lookup_error)
| MTypeMismatch (hubPath : FieldPath) (hk : FieldKind) (spokePath : FieldPath) (sk : FieldKind)
| MAlreadyClaimed (label key : string)
| MInvalidLabelKey (key : string) (msgs : list string)
| MLabelJSON
| MNotInjective
| MPatchInvalid (dir : string) (err : string)
| MPatchUnverified
| MDepthExceeded (max : nat)
| MItemsNotArrays
| MNeedBranches
| MBranchesNotObjects
| MDiscriminatorNotDeclared (d : string) (label : string) (p : FieldPath)
| MBranchNotDeclared (i : nat) (name : string) (label : string) (p : FieldPath)
| MNotScalar (label : string) (p : FieldPath) (k : FieldKind)
| MBadFractionalPolicy (s : string)
| MInvalidPattern (err : string)
| MInvalidTemplate (err : string)
| MNoCaptureGroup (name : string)
| MSplitUnverified
| MFactorZero
| MNotNumeric (label : string) (p : FieldPath) (k : FieldKind)
| MNotTypedArray (label : string) (p : FieldPath)
| MItemsNotScalar (label : string) (p : FieldPath) (k : FieldKind)
| MNotString (label : string) (p : FieldPath) (k : FieldKind)
| MNotStringIntegerPair (hubPath : FieldPath) (hk : FieldKind) (spokePath : FieldPath) (sk : FieldKind)
| MNotFreeFormMap (label : string) (p : FieldPath) (k : FieldKind)
| MNoRenames
| MEmptyRename
| MRenameNotInjective (spokeKey : string)
| MNoPaths (label : string)
| MNoExpression (dir : string)
| MCELInvalid (dir : string) (err : string)
| MUnknownParams
| MLossyUnacknowledged (dir : string)
| MWhenPathRequired
| MWhenLookup (label : string) (e : lookup_error)
| MWhenPartial (p : FieldPath) (equals : value).

(** Why a required field may be missing, as the required-field check words it. *)
Inductive why :=
| WhyAlways
| WhyNoRule
| WhyWholesale
| WhyNoGuarantee
| WhyWhen (idx : Z) (strategy : Strategy)
| WhyUnpredictable (idx : Z) (strategy : Strategy)
| WhyOptional (idx : Z) (strategy : Strategy) (source : string).

Inductive message :=
| MsgRule (idx : nat) (name : string) (m : rule_msg)
| MsgUncovered (s : side) (path construct : string)
| MsgItem (idx : nat) (m : message)                      (* rule %d (ForEach) item: %s *)
| MsgBranch (idx : nat) (branch : string) (m : message)  (* rule %d (BranchMap) branch %q: %s *)
| MsgRequired (code destSide path : string) (w : why)
| MsgShadowed (side version path platform note : string)
| MsgTargets (idx : Z) (strategy : Strategy) (side path root platform note : string)
| MsgSpokeMissing (version : string)
| MsgSpokeNotServed (version : string).

Record Diagnostic := {
  dSeverity : Severity;
  dCode : string;
  dMessage : message;
  dRuleIndex : Z;                 (* -1: no rule *)
  dFieldPath : string;
  dUncoveredSide : option side;
}.

Definition errorf (idx : nat) (m : message) : Diagnostic :=
  {| dSeverity := SeverityError; dCode := ""; dMessage := m; dRuleIndex := Z.of_nat idx;
     dFieldPath := ""; dUncoveredSide := None |}.
Definition warnf (idx : nat) (m : message) : Diagnostic :=
  {| dSeverity := SeverityWarning; dCode := ""; dMessage := m; dRuleIndex := Z.of_nat idx;
     dFieldPath := ""; dUncoveredSide := None |}.

Definition uncoveredFieldDiag (sev : Severity) (s : side) (path construct : string) : Diagnostic :=
  {| dSeverity := sev; dCode := ""; dMessage := MsgUncovered s path construct; dRuleIndex := -1;
     dFieldPath := path; dUncoveredSide := Some s |}.

Definition is_error (d : Diagnostic) : bool := bool_decide (dSeverity d = SeverityError).

(** No error among the diagnostics. *)
Definition no_errors (ds : list Diagnostic) : Prop := Forall (λ d, is_error d = false) ds.

Record LosslessVerdict := { lvHubToSpoke : bool; lvSpokeToHub : bool }.
#[export] Instance LosslessVerdict_eq_dec : EqDecision LosslessVerdict.
Proof. solve_decision. Defined.

Definition lossless_both : LosslessVerdict := {| lvHubToSpoke := true; lvSpokeToHub := true |}.

(** [LosslessVerdict.and]. *)
Definition verdict_and (v o : LosslessVerdict) : LosslessVerdict :=
  {| lvHubToSpoke := lvHubToSpoke v && lvHubToSpoke o;
     lvSpokeToHub := lvSpokeToHub v && lvSpokeToHub o |}.

Record RuleResult := {
  rrIndex : Z;
  rrStrategy : Strategy;
  rrHubPaths : list string;
  rrSpokePaths : list string;
  rrLossless : LosslessVerdict;
  rrErrors : list message;
  rrWarnings : list message;
}.

Lemma no_errors_app ds1 ds2 : no_errors (ds1 ++ ds2) ↔ no_errors ds1 ∧ no_errors ds2.
Proof. apply Forall_app. Qed.

Lemma no_errors_cons d ds : no_errors (d :: ds) ↔ is_error d = false ∧ no_errors ds.
Proof. unfold no_errors. by rewrite Forall_cons. Qed.
