(* ===== verification/Compile.v ===== *)
(** The plan compiler (pkg/engine/compile.go).

    Each rule's resolver checks the rule against the two schemas, claims the
    leaves it accounts for, reports diagnostics and returns the two operations.
    Claims and diagnostics are the state of a small state monad; the order of the
    statements is the order of the source.  [resolveAndBuildOps] runs the
    resolvers over a rule list, wraps conditional rules, and scans for leaves no
    rule claimed. *)
From S2P Require Import Prelude Float64 Value Json Duration Path Schema Rules Coerce Passthrough Ops Convert Diagnostics.

(** Third-party compilation steps: the error text, or success. *)
Class CompileExterns := {
  regexp_Compile : string → res string ();
  template_Parse : string → res string ();
  cel_Compile : string → res string ();
  DecodePatch : string → res string ();
}.

(** ** The resolver monad *)

Record cstate := {
  csHub : gset string;            (* claimedHub *)
  csSpoke : gset string;          (* claimedSpoke *)
  csDiags : list Diagnostic;      (* the resolver's diags, in order *)
}.

Definition rs (A : Type) : Type := cstate → A * cstate.
#[export] Instance rs_ret : MRet rs := λ A a s, (a, s).
#[export] Instance rs_bind : MBind rs := λ A B f m s, let '(a, s') := m s in f a s'.

Definition tell (d : Diagnostic) : rs () :=
  λ s, ((), {| csHub := csHub s; csSpoke := csSpoke s; csDiags := csDiags s ++ [d] |}).

Definition tell_all (ds : list Diagnostic) : rs () :=
  λ s, ((), {| csHub := csHub s; csSpoke := csSpoke s; csDiags := csDiags s ++ ds |}).

Definition claimed (sd : side) (s : cstate) : gset string :=
  match sd with Hub => csHub s | Spoke => csSpoke s end.

Definition add_claim (sd : side) (key : string) : rs () :=
  λ s, ((), match sd with
            | Hub => {| csHub := {[key]} ∪ csHub s; csSpoke := csSpoke s; csDiags := csDiags s |}
            | Spoke => {| csHub := csHub s; csSpoke := {[key]} ∪ csSpoke s; csDiags := csDiags s |}
            end).

Definition is_claimed (sd : side) (key : string) : rs bool :=
  λ s, (bool_decide (key ∈ claimed sd s), s).

(** A loop for its effects. *)
Fixpoint rs_iter {A} (f : A → rs ()) (l : list A) : rs () :=
  match l with
  | [] => mret ()
  | a :: l => _ ← f a; rs_iter f l
  end.

Definition rs_when (b : bool) (m : rs ()) : rs () := if b then m else mret ().

(** An error of rule [idx] under strategy [name]. *)
Definition fail (idx : nat) (name : string) (m : rule_msg) : rs () := tell (errorf idx (MsgRule idx name m)).
Definition warn (idx : nat) (name : string) (m : rule_msg) : rs () := tell (warnf idx (MsgRule idx name m)).

(** What a resolver returns: hub→spoke op, spoke→hub op, verdict. *)
Definition resolved : Type := option Op * option Op * LosslessVerdict.

Definition lossy (h2s s2h : bool) : LosslessVerdict := {| lvHubToSpoke := h2s; lvSpokeToHub := s2h |}.

(** ** Claims *)

(** [claim]: a path claimed twice is an error. *)
Definition claim (sd : side) (path : FieldPath) (idx : nat) (label : string) : rs () :=
  let key := path_string path in
  b ← is_claimed sd key;
  if b : bool then fail idx "" (MAlreadyClaimed label key) else add_claim sd key.

(** [lookupPath], reporting a failure. *)
Definition lookup_node (idx : nat) (name label : string) (root : JSONSchemaProps) (p : FieldPath)
    : rs (option JSONSchemaProps) :=
  match lookupPath root p with
  | Ok n => mret (Some n)
  | Err e => _ ← fail idx name (MLookup label e); mret None
  end.

Section compile.
Context `{RO : RangeOrder} `{EX : Externs} `{CX : CompileExterns}.

Definition claimSubtree (sd : side) (prefix : FieldPath) (node : option JSONSchemaProps)
    (idx : nat) (label : string) : rs () :=
  _ ← claim sd prefix idx label;
  match node with
  | None => mret ()
  | Some n =>
      rs_iter (λ leaf, rs_when (negb (bool_decide (lfPath leaf = [])))
                 (claim sd (prefix ++ lfPath leaf) idx label)) (flattenSchema n)
  end.

(** ** Copying and reshaping *)

Definition resolveFieldRename (idx : nat) (p : FieldRenameParams) (hub spoke : JSONSchemaProps)
    : rs resolved :=
  hubNode ← lookup_node idx "FieldRename" "" hub (frHubPath p);
  spokeNode ← lookup_node idx "FieldRename" "" spoke (frSpokePath p);
  _ ← (match hubNode, spokeNode with
       | Some h, Some s =>
           let hk := (classify h).1 in let sk := (classify s).1 in
           rs_when (negb (bool_decide (hk = sk)))
             (fail idx "FieldRename" (MTypeMismatch (frHubPath p) hk (frSpokePath p) sk))
       | _, _ => mret ()
       end);
  _ ← claim Hub (frHubPath p) idx "hub";
  _ ← claim Spoke (frSpokePath p) idx "spoke";
  mret (Some (renameOp (frHubPath p) (frSpokePath p)),
        Some (renameOp (frSpokePath p) (frHubPath p)), lossless_both).

(** [len(extraKeys(node, key)) > 0]. *)
Definition extraKeys (s : JSONSchemaProps) (exclude : string) : list string :=
  filter (λ k, k ≠ exclude) (range (sProperties s)).*1.

Definition has_extra (node : option JSONSchemaProps) (key : string) : bool :=
  match node with
  | Some n => negb (bool_decide (extraKeys n key = []))
  | None => false
  end.

Definition resolveScalarToObject (idx : nat) (p : ScalarToObjectParams) (hub spoke : JSONSchemaProps)
    : rs resolved :=
  _ ← lookup_node idx "ScalarToObject" "hub" hub (soHubPath p);
  spokeNode ← lookup_node idx "ScalarToObject" "spoke" spoke (soSpokePath p);
  _ ← claim Hub (soHubPath p) idx "hub";
  _ ← claimSubtree Spoke (soSpokePath p) spokeNode idx "spoke";
  mret (Some (wrapScalarOp (soHubPath p) (soSpokePath p) (soKey p) (soDefaultsForOtherKeys p)),
        Some (unwrapScalarOp (soSpokePath p) (soHubPath p) (soKey p)),
        lossy true (negb (has_extra spokeNode (soKey p)))).

Definition resolveObjectToScalar (idx : nat) (p : ObjectToScalarParams) (hub spoke : JSONSchemaProps)
    : rs resolved :=
  hubNode ← lookup_node idx "ObjectToScalar" "hub" hub (osHubPath p);
  _ ← lookup_node idx "ObjectToScalar" "spoke" spoke (osSpokePath p);
  _ ← claimSubtree Hub (osHubPath p) hubNode idx "hub";
  _ ← claim Spoke (osSpokePath p) idx "spoke";
  mret (Some (unwrapScalarOp (osHubPath p) (osSpokePath p) (osKey p)),
        Some (wrapScalarOp (osSpokePath p) (osHubPath p) (osKey p) (osDefaultsForOtherKeys p)),
        lossy (negb (has_extra hubNode (osKey p))) true).

(** [arraySide] is the side the array is on; the caller's argument swap. *)
Definition resolveSingletonArrayToObject (idx : nat) (arrayPath objectPath : FieldPath)
    (arrayRoot objectRoot : JSONSchemaProps) (arraySide : side) : rs resolved :=
  let objectSide := match arraySide with Hub => Spoke | Spoke => Hub end in
  arrayNode ← lookup_node idx "" "array side" arrayRoot arrayPath;
  objectNode ← lookup_node idx "" "object side" objectRoot objectPath;
  let arrayToObjectLossless :=
    match arrayNode ≫= sMaxItems with Some n => (n <=? 1)%Z | None => false end in
  _ ← claim arraySide arrayPath idx "array-side";
  _ ← claimSubtree objectSide objectPath objectNode idx "object-side";
  let arrayToObjectOp := Some (arrayFirstToObjectOp arrayPath objectPath) in
  let objectToArrayOp := Some (objectToSingletonArrayOp objectPath arrayPath) in
  mret (match arraySide with
        | Hub => (arrayToObjectOp, objectToArrayOp, lossy arrayToObjectLossless true)
        | Spoke => (objectToArrayOp, arrayToObjectOp, lossy true arrayToObjectLossless)
        end).

Definition default_policy (p : UnknownKeyPolicy) : UnknownKeyPolicy :=
  if bool_decide (p = "") then UnknownKeyError else p.

Definition resolveFieldsToMap (idx : nat) (p : FieldsToMapParams) (hub spoke : JSONSchemaProps)
    : rs resolved :=
  _ ← rs_iter (λ hp,
        _ ← lookup_node idx "FieldsToMap" "" hub hp;
        claim Hub hp idx "hub") (fmHubPaths p);
  mapNode ← lookup_node idx "FieldsToMap" "" spoke (fmSpokeMapPath p);
  _ ← claimSubtree Spoke (fmSpokeMapPath p) mapNode idx "spoke";
  let onUnknown := default_policy (fmOnUnknownSpokeKey p) in
  mret (Some (collapseToMapOp (fmHubPaths p) (fmSpokeMapPath p) (fmKeyNames p)),
        Some (expandFromMapOp (fmSpokeMapPath p) (fmHubPaths p) (fmKeyNames p) onUnknown),
        lossy true (bool_decide (onUnknown = UnknownKeyError))).

Definition resolveMapToFields (idx : nat) (p : MapToFieldsParams) (hub spoke : JSONSchemaProps)
    : rs resolved :=
  mapNode ← lookup_node idx "MapToFields" "" hub (mfHubMapPath p);
  _ ← claimSubtree Hub (mfHubMapPath p) mapNode idx "hub";
  _ ← rs_iter (λ sp,
        _ ← lookup_node idx "MapToFields" "" spoke sp;
        claim Spoke sp idx "spoke") (mfSpokePaths p);
  let onUnknown := default_policy (mfOnUnknownHubKey p) in
  mret (Some (expandFromMapOp (mfHubMapPath p) (mfSpokePaths p) (mfKeyNames p) onUnknown),
        Some (collapseToMapOp (mfSpokePaths p) (mfHubMapPath p) (mfKeyNames p)),
        lossy (bool_decide (onUnknown = UnknownKeyError)) true).

(** ** Metadata *)

Definition check_label_key (idx : nat) (name metadataField key : string) : rs () :=
  rs_when (bool_decide (metadataField = "labels"))
    (match IsQualifiedName key with
     | [] => mret ()
     | msgs => fail idx name (MInvalidLabelKey key msgs)
     end).

Definition resolveToMetadata (idx : nat) (strategy : Strategy) (p : ToMetadataParams)
    (hub : JSONSchemaProps) : rs resolved :=
  hubNode ← lookup_node idx strategy "" hub (tmHubPath p);
  _ ← claimSubtree Hub (tmHubPath p) hubNode idx "hub";
  let metadataField := if bool_decide (strategy = StrategyToLabel) then "labels" else "annotations" in
  let serialization := if bool_decide (tmSerialization p = "") then "JSON" else tmSerialization p in
  _ ← check_label_key idx strategy metadataField (tmKey p);
  mret (Some (stashAnnotationOp (tmHubPath p) metadataField (tmKey p) serialization),
        Some (if tmRestoreOnReverse p
              then restoreAnnotationOp (tmHubPath p) metadataField (tmKey p) serialization
              else stripMetadataKeyOp metadataField (tmKey p)),
        lossy true (tmRestoreOnReverse p)).

Definition resolveFromMetadata (idx : nat) (strategy : Strategy) (p : FromMetadataParams)
    (spoke : JSONSchemaProps) : rs resolved :=
  spokeNode ← lookup_node idx strategy "" spoke (rmSpokePath p);
  _ ← claimSubtree Spoke (rmSpokePath p) spokeNode idx "spoke";
  let label := bool_decide (strategy = StrategyFromLabel) in
  let metadataField := if label then "labels" else "annotations" in
  let ser := rmSerialization p in
  _ ← rs_when (label && bool_decide (ser = "JSON")) (fail idx "FromLabel" MLabelJSON);
  let serialization :=
    if bool_decide (ser = "") then (if label then "String" else "JSON") else ser in
  _ ← check_label_key idx strategy metadataField (rmKey p);
  mret (Some (restoreAnnotationOp (rmSpokePath p) metadataField (rmKey p) serialization),
        Some (if rmStashOnReverse p
              then stashAnnotationOp (rmSpokePath p) metadataField (rmKey p) serialization
              else stripMetadataKeyOp metadataField (rmKey p)),
        lossy true (rmStashOnReverse p)).

(** ** Values *)

(** The two lookup tables, a later mapping of one value overwriting. *)
Definition enum_tables (mapping : list EnumValueMapping) : gmap string value * gmap string value :=
  foldl (λ '(h2s, s2h) m,
    (<[enumKey (emHub m) := emSpoke m]> h2s, <[enumKey (emSpoke m) := emHub m]> s2h)) (∅, ∅) mapping.

Definition enum_injective (mapping : list EnumValueMapping) : bool :=
  bool_decide (NoDup ((λ m, enumKey (emSpoke m)) <$> mapping)).

Definition resolveEnumRemap (idx : nat) (p : EnumRemapParams) (hub spoke : JSONSchemaProps)
    : rs resolved :=
  _ ← lookup_node idx "EnumRemap" "hub" hub (erPath p);
  _ ← lookup_node idx "EnumRemap" "spoke" spoke (erPath p);
  _ ← claim Hub (erPath p) idx "hub";
  _ ← claim Spoke (erPath p) idx "spoke";
  let '(hubToSpoke, spokeToHub) := enum_tables (erMapping p) in
  let injective := enum_injective (erMapping p) in
  let onUnmappedHub := default_policy (erOnUnmappedHubValue p) in
  let onUnmappedSpoke := default_policy (erOnUnmappedSpokeValue p) in
  _ ← rs_when (negb injective) (warn idx "EnumRemap" MNotInjective);
  mret (Some (remapEnumOp (erPath p) hubToSpoke onUnmappedHub),
        Some (remapEnumOp (erPath p) spokeToHub onUnmappedSpoke),
        lossy (bool_decide (onUnmappedHub = UnknownKeyError))
              (bool_decide (onUnmappedSpoke = UnknownKeyError) && injective)).

(** The side a one-sided rule's field is on: [Spoke] only when it says so. *)
Definition exists_side (s : Side) : side := if bool_decide (s = SideSpoke) then Spoke else Hub.
Definition side_label (s : side) : string := match s with Hub => "hub" | Spoke => "spoke" end.
Definition side_root (s : side) (hub spoke : JSONSchemaProps) : JSONSchemaProps :=
  match s with Hub => hub | Spoke => spoke end.

Definition resolveDefaultValue (idx : nat) (p : DefaultValueParams) (hub spoke : JSONSchemaProps)
    : rs resolved :=
  let sd := exists_side (dvExistsOn p) in
  _ ← lookup_node idx "DefaultValue" "" (side_root sd hub spoke) (dvPath p);
  _ ← claim sd (dvPath p) idx (side_label sd);
  let inject := Some (injectDefaultOp (dvPath p) (dvDefault p)) in
  mret (match sd with
        | Spoke => (inject, Some dropFieldOp, lossy true false)
        | Hub => (Some dropFieldOp, inject, lossy false true)
        end).

Definition resolveConstant (idx : nat) (p : ConstantParams) (hub spoke : JSONSchemaProps)
    : rs resolved :=
  let sd := exists_side (cnExistsOn p) in
  _ ← lookup_node idx "Constant" "" (side_root sd hub spoke) (cnPath p);
  _ ← claim sd (cnPath p) idx (side_label sd);
  let inject := Some (injectConstantOp (cnPath p) (cnValue p)) in
  mret (match sd with
        | Spoke => (inject, Some dropFieldOp, lossy true false)
        | Hub => (Some dropFieldOp, inject, lossy false true)
        end).

Definition resolveDelete (idx : nat) (p : DeleteParams) (hub spoke : JSONSchemaProps)
    : rs resolved :=
  let sd := exists_side (dlExistsOn p) in
  _ ← lookup_node idx "Delete" "" (side_root sd hub spoke) (dlPath p);
  _ ← claim sd (dlPath p) idx (side_label sd);
  mret (Some dropFieldOp, Some dropFieldOp,
        if bool_decide (dlExistsOn p = SideHub) then lossy false true else lossy true false).

(** ** JSON Patch *)

(** The distinct values of [f] over a list, first occurrence first. *)
Definition distinct (l : list string) : list string :=
  foldl (λ seen s, if bool_decide (s ∈ seen) then seen else seen ++ [s]) [] l.

Definition patch_document (ops : list JSONPatchOp) : value :=
  VArr ((λ o,
    let m : obj := {["op" := VStr (jpOp o); "path" := VStr (jpPath o)]} in
    let m := if bool_decide (jpFrom o = "") then m else <["from" := VStr (jpFrom o)]> m in
    VObj (match jpValue o with VNull => m | v => <["value" := v]> m end)) <$> ops).

(** [parsePatch]: the patch, its destinations, every path it mentions, and the
    error. *)
Definition parsePatch (ops : list JSONPatchOp)
    : list JSONPatchOp * list FieldPath * list FieldPath * option string :=
  match ops with
  | [] => ([], [], [], None)
  | _ =>
      let destPaths := FieldPathFromJSONPointer <$> distinct (jpPath <$> ops) in
      let allPaths := FieldPathFromJSONPointer <$>
        distinct (filter (λ s, s ≠ "") (concat ((λ o, [jpPath o; jpFrom o]) <$> ops))) in
      match json_Marshal (patch_document ops) with
      | None => ([], [], [], Some "json: unsupported value")
      | Some b =>
          match DecodePatch b with
          | Ok _ => (ops, destPaths, allPaths, None)
          | Err e => ([], destPaths, allPaths, Some e)
          end
      end
  end.

Definition tell_patch_error (idx : nat) (dir : string) (e : option string) : rs () :=
  match e with Some e => fail idx "JSONPatch" (MPatchInvalid dir e) | None => mret () end.

Definition resolveJSONPatch (idx : nat) (p : JSONPatchParams) : rs resolved :=
  let '(h2sPatch, h2sDest, h2sAll, e1) := parsePatch (jpHubToSpoke p) in
  _ ← tell_patch_error idx "hubToSpoke" e1;
  let '(s2hPatch, s2hDest, s2hAll, e2) := parsePatch (jpSpokeToHub p) in
  _ ← tell_patch_error idx "spokeToHub" e2;
  _ ← warn idx "JSONPatch" MPatchUnverified;
  _ ← rs_iter (λ path,
        _ ← claim Hub path idx "hub";
        claim Spoke path idx "spoke")
      (foldl (λ seen q, if bool_decide (path_string q ∈ path_string <$> seen) then seen else seen ++ [q])
         [] (h2sAll ++ s2hAll));
  mret (Some (jsonPatchOp h2sPatch h2sDest), Some (jsonPatchOp s2hPatch s2hDest),
        lossy (jpLosslessOverride p) (jpLosslessOverride p)).

(** ** Scalars *)

(** The kind at a path, reporting a failed lookup or an unwanted kind. *)
Definition kind_at (idx : nat) (name label : string) (root : JSONSchemaProps) (p : FieldPath)
    (check : FieldKind → rs ()) : rs FieldKind :=
  node ← lookup_node idx name label root p;
  match node with
  | None => mret FieldKindUnknown
  | Some n => let k := (classify n).1 in _ ← check k; mret k
  end.

Definition resolveTypeCoerce (idx : nat) (p : TypeCoerceParams) (hub spoke : JSONSchemaProps)
    : rs resolved :=
  let check label k :=
    rs_when (negb (isCoercibleScalar k)) (fail idx "TypeCoerce" (MNotScalar label (tcPath p) k)) in
  hubKind ← kind_at idx "TypeCoerce" "hub" hub (tcPath p) (check "hub");
  spokeKind ← kind_at idx "TypeCoerce" "spoke" spoke (tcPath p) (check "spoke");
  _ ← claim Hub (tcPath p) idx "hub";
  _ ← claim Spoke (tcPath p) idx "spoke";
  let frac := normalizeFractionalPolicy (tcOnFractionalInteger p) in
  _ ← rs_when (negb (bool_decide (frac ∈ [FractionalIntegerError; FractionalIntegerTruncate; FractionalIntegerRound])))
        (fail idx "TypeCoerce" (MBadFractionalPolicy (tcOnFractionalInteger p)));
  let exact k := bool_decide (frac = FractionalIntegerError) || negb (bool_decide (k = FieldKindInteger)) in
  mret (Some (coerceOp (tcPath p) spokeKind frac), Some (coerceOp (tcPath p) hubKind frac),
        lossy (exact spokeKind) (exact hubKind)).

(** The loop over the named fields: the kind of each, claiming it. *)
Fixpoint field_kinds (idx : nat) (strategy : Strategy) (root : JSONSchemaProps) (sd : side)
    (l : list (string * FieldPath)) (kinds : gmap string FieldKind) : rs (gmap string FieldKind) :=
  let label := side_label sd in
  match l with
  | [] => mret kinds
  | (name, path) :: l =>
      node ← lookup_node idx strategy label root path;
      match node with
      | None => field_kinds idx strategy root sd l kinds
      | Some n =>
          let kind := (classify n).1 in
          _ ← rs_when (negb (isCoercibleScalar kind)) (fail idx strategy (MNotScalar label path kind));
          _ ← claim sd path idx label;
          field_kinds idx strategy root sd l (<[name := kind]> kinds)
      end
  end.

(** [compileSplitJoin]: whether the pattern and the template compiled, and the
    kinds of the named fields. *)
Definition compileSplitJoin (idx : nat) (strategy : Strategy) (pattern joinTemplate : string)
    (fields : gmap string FieldPath) (root : JSONSchemaProps) (sd : side)
    : rs (bool * bool * gmap string FieldKind) :=
  let label := side_label sd in
  re ← (match regexp_Compile pattern with
        | Ok _ => mret true
        | Err e => _ ← fail idx strategy (MInvalidPattern e); mret false
        end);
  tmpl ← (match template_Parse joinTemplate with
          | Ok _ => mret true
          | Err e => _ ← fail idx strategy (MInvalidTemplate e); mret false
          end);
  _ ← rs_when re
        (rs_iter (λ name, rs_when (bool_decide (name ∉ filter (λ s, s ≠ "") (SubexpNames pattern)))
                   (fail idx strategy (MNoCaptureGroup name))) (range fields).*1);
  kinds ← field_kinds idx strategy root sd (range fields) ∅;
  mret (re, tmpl, kinds).

Definition resolveScalarToFields (idx : nat) (p : ScalarToFieldsParams) (hub spoke : JSONSchemaProps)
    : rs resolved :=
  _ ← lookup_node idx "ScalarToFields" "hub" hub (sfHubPath p);
  _ ← claim Hub (sfHubPath p) idx "hub";
  '(re, tmpl, kinds) ← compileSplitJoin idx StrategyScalarToFields (sfPattern p) (sfJoinTemplate p)
                         (sfSpokeFields p) spoke Spoke;
  _ ← warn idx "ScalarToFields" MSplitUnverified;
  mret (if re : bool then Some (splitFieldOp (sfHubPath p) (sfPattern p) (sfSpokeFields p) kinds) else None,
        if tmpl : bool then Some (joinFieldsOp (sfSpokeFields p) (sfHubPath p) (sfJoinTemplate p)) else None,
        lossy (sfLosslessOverride p) (sfLosslessOverride p)).

Definition resolveFieldsToScalar (idx : nat) (p : FieldsToScalarParams) (hub spoke : JSONSchemaProps)
    : rs resolved :=
  _ ← lookup_node idx "FieldsToScalar" "spoke" spoke (fsSpokePath p);
  _ ← claim Spoke (fsSpokePath p) idx "spoke";
  '(re, tmpl, kinds) ← compileSplitJoin idx StrategyFieldsToScalar (fsPattern p) (fsJoinTemplate p)
                         (fsHubFields p) hub Hub;
  _ ← warn idx "FieldsToScalar" MSplitUnverified;
  mret (if tmpl : bool then Some (joinFieldsOp (fsHubFields p) (fsSpokePath p) (fsJoinTemplate p)) else None,
        if re : bool then Some (splitFieldOp (fsSpokePath p) (fsPattern p) (fsHubFields p) kinds) else None,
        lossy (fsLosslessOverride p) (fsLosslessOverride p)).

(** ** Arrays, maps, numbers, lists *)

Definition resolveArrayToMapByKey (idx : nat) (p : ArrayToMapByKeyParams) (hub spoke : JSONSchemaProps)
    : rs resolved :=
  _ ← lookup_node idx "ArrayToMapByKey" "hub" hub (amHubPath p);
  _ ← lookup_node idx "ArrayToMapByKey" "spoke" spoke (amSpokePath p);
  _ ← claim Hub (amHubPath p) idx "hub";
  _ ← claim Spoke (amSpokePath p) idx "spoke";
  mret (Some (arrayToMapByKeyOp (amHubPath p) (amSpokePath p) (amKeyField p)),
        Some (mapToArrayByKeyOp (amSpokePath p) (amHubPath p) (amKeyField p)), lossy true false).

Definition resolveMapToArrayByKey (idx : nat) (p : MapToArrayByKeyParams) (hub spoke : JSONSchemaProps)
    : rs resolved :=
  _ ← lookup_node idx "MapToArrayByKey" "hub" hub (maHubPath p);
  _ ← lookup_node idx "MapToArrayByKey" "spoke" spoke (maSpokePath p);
  _ ← claim Hub (maHubPath p) idx "hub";
  _ ← claim Spoke (maSpokePath p) idx "spoke";
  mret (Some (mapToArrayByKeyOp (maHubPath p) (maSpokePath p) (maKeyField p)),
        Some (arrayToMapByKeyOp (maSpokePath p) (maHubPath p) (maKeyField p)), lossy false true).

Definition resolveNumericScale (idx : nat) (p : NumericScaleParams) (hub spoke : JSONSchemaProps)
    : rs resolved :=
  let name := "NumericScale" in
  let check label path k :=
    rs_when (negb (bool_decide (k = FieldKindInteger)) && negb (bool_decide (k = FieldKindNumber)))
      (fail idx name (MNotNumeric label path k)) in
  _ ← rs_when (f64_eqb (nsFactor p) (f64_of_Z 0)) (fail idx name MFactorZero);
  hubKind ← kind_at idx name "hub" hub (nsHubPath p) (check "hub" (nsHubPath p));
  spokeKind ← kind_at idx name "spoke" spoke (nsSpokePath p) (check "spoke" (nsSpokePath p));
  _ ← claim Hub (nsHubPath p) idx "hub";
  _ ← claim Spoke (nsSpokePath p) idx "spoke";
  mret (Some (numericScaleOp (nsHubPath p) (nsSpokePath p) (nsFactor p) false
                (bool_decide (spokeKind = FieldKindInteger))),
        Some (numericScaleOp (nsSpokePath p) (nsHubPath p) (nsFactor p) true
                (bool_decide (hubKind = FieldKindInteger))),
        lossy (bool_decide (spokeKind = FieldKindNumber)) (bool_decide (hubKind = FieldKindNumber))).

(** The item kind of the array at a path, with the array's diagnostics. *)
Definition item_kind_at (idx : nat) (name label : string) (root : JSONSchemaProps) (p : FieldPath)
    : rs FieldKind :=
  node ← lookup_node idx name label root p;
  match node with
  | None => mret FieldKindUnknown
  | Some n =>
      match bool_decide ((classify n).1 = FieldKindArray), itemsSchema n with
      | true, Some item =>
          let k := (classify item).1 in
          _ ← rs_when (negb (isCoercibleScalar k)) (fail idx name (MItemsNotScalar label p k));
          mret k
      | _, _ => _ ← fail idx name (MNotTypedArray label p); mret FieldKindUnknown
      end
  end.

Definition check_string (idx : nat) (name label : string) (root : JSONSchemaProps) (p : FieldPath)
    : rs () :=
  _ ← kind_at idx name label root p (λ k,
        rs_when (negb (bool_decide (k = FieldKindString))) (fail idx name (MNotString label p k)));
  mret ().

Definition resolveListJoin (idx : nat) (p : ListJoinParams) (hub spoke : JSONSchemaProps)
    : rs resolved :=
  itemKind ← item_kind_at idx "ListJoin" "hub" hub (ljHubPath p);
  _ ← check_string idx "ListJoin" "spoke" spoke (ljSpokePath p);
  _ ← claim Hub (ljHubPath p) idx "hub";
  _ ← claim Spoke (ljSpokePath p) idx "spoke";
  mret (Some (joinListOp (ljHubPath p) (ljSpokePath p) (ljSeparator p)),
        Some (splitListOp (ljSpokePath p) (ljHubPath p) (ljSeparator p) itemKind), lossless_both).

Definition resolveListSplit (idx : nat) (p : ListSplitParams) (hub spoke : JSONSchemaProps)
    : rs resolved :=
  _ ← check_string idx "ListSplit" "hub" hub (lsHubPath p);
  itemKind ← item_kind_at idx "ListSplit" "spoke" spoke (lsSpokePath p);
  _ ← claim Hub (lsHubPath p) idx "hub";
  _ ← claim Spoke (lsSpokePath p) idx "spoke";
  mret (Some (splitListOp (lsHubPath p) (lsSpokePath p) (lsSeparator p) itemKind),
        Some (joinListOp (lsSpokePath p) (lsHubPath p) (lsSeparator p)), lossless_both).

(** [resolveStringIntegerPair]. *)
Definition resolveStringIntegerPair (idx : nat) (name : string) (hubPath spokePath : FieldPath)
    (hub spoke : JSONSchemaProps) (makeOp : FieldPath → FieldPath → bool → Op) : rs resolved :=
  hubKind ← kind_at idx name "hub" hub hubPath (λ _, mret ());
  spokeKind ← kind_at idx name "spoke" spoke spokePath (λ _, mret ());
  let hubStr := bool_decide (hubKind = FieldKindString) in
  let hubInt := bool_decide (hubKind = FieldKindInteger) in
  let spokeStr := bool_decide (spokeKind = FieldKindString) in
  let spokeInt := bool_decide (spokeKind = FieldKindInteger) in
  _ ← rs_when ((negb hubStr || negb spokeInt) && (negb hubInt || negb spokeStr))
        (fail idx name (MNotStringIntegerPair hubPath hubKind spokePath spokeKind));
  _ ← claim Hub hubPath idx "hub";
  _ ← claim Spoke spokePath idx "spoke";
  mret (if hubStr && spokeInt then
          (Some (makeOp hubPath spokePath true), Some (makeOp spokePath hubPath false), lossy true false)
        else if hubInt && spokeStr then
          (Some (makeOp hubPath spokePath false), Some (makeOp spokePath hubPath true), lossy false true)
        else (None, None, lossy false false)).

Definition resolveQuantity (idx : nat) (p : QuantityParams) (hub spoke : JSONSchemaProps) : rs resolved :=
  resolveStringIntegerPair idx "Quantity" (quHubPath p) (quSpokePath p) hub spoke quantityOp.

Definition resolveDuration (idx : nat) (p : DurationParams) (hub spoke : JSONSchemaProps) : rs resolved :=
  resolveStringIntegerPair idx "Duration" (duHubPath p) (duSpokePath p) hub spoke durationOp.

Definition requireOpaqueMap (idx : nat) (name label : string) (p : FieldPath) (root : JSONSchemaProps)
    : rs () :=
  node ← lookup_node idx name label root p;
  match node with
  | None => mret ()
  | Some n =>
      let '(kind, opaque) := classify n in
      rs_when (negb (bool_decide (kind = FieldKindObject)) || negb opaque)
        (fail idx name (MNotFreeFormMap label p kind))
  end.

(** [invertRenames]: its loop, then the function. *)
Fixpoint invert_entries (idx : nat) (name : string) (l : list (string * string))
    (rev : gmap string string) : rs (gmap string string) :=
  match l with
  | [] => mret rev
  | (hubKey, spokeKey) :: l =>
      if bool_decide (hubKey = "") || bool_decide (spokeKey = "") then
        _ ← fail idx name MEmptyRename; invert_entries idx name l rev
      else if bool_decide (is_Some (rev !! spokeKey)) then
        _ ← fail idx name (MRenameNotInjective spokeKey); invert_entries idx name l rev
      else invert_entries idx name l (<[spokeKey := hubKey]> rev)
  end.

Definition invertRenames (idx : nat) (name : string) (renames : gmap string string)
    : rs (gmap string string) :=
  if bool_decide (renames = ∅) then _ ← fail idx name MNoRenames; mret ∅
  else invert_entries idx name (range renames) ∅.

Definition resolveMapKeyRename (idx : nat) (p : MapKeyRenameParams) (hub spoke : JSONSchemaProps)
    : rs resolved :=
  _ ← requireOpaqueMap idx "MapKeyRename" "hub" (mrHubPath p) hub;
  _ ← requireOpaqueMap idx "MapKeyRename" "spoke" (mrSpokePath p) spoke;
  rev ← invertRenames idx "MapKeyRename" (mrRenames p);
  _ ← claim Hub (mrHubPath p) idx "hub";
  _ ← claim Spoke (mrSpokePath p) idx "spoke";
  mret (Some (mapKeyRenameOp (mrHubPath p) (mrSpokePath p) (mrRenames p)),
        Some (mapKeyRenameOp (mrSpokePath p) (mrHubPath p) rev), lossless_both).

(** ** CEL *)

Definition compile_cel_op (idx : nat) (dir expr : string) (dests : list FieldPath) : rs (option Op) :=
  if bool_decide (expr = "") then mret None
  else match cel_Compile expr with
       | Ok _ => mret (Some (celOp expr dests))
       | Err e => _ ← fail idx "CEL" (MCELInvalid dir e); mret None
       end.

Definition resolveCEL (idx : nat) (p : CELParams) (hub spoke : JSONSchemaProps) : rs resolved :=
  _ ← rs_when (bool_decide (ceHubPaths p = [])) (fail idx "CEL" (MNoPaths "hub"));
  _ ← rs_when (bool_decide (ceSpokePaths p = [])) (fail idx "CEL" (MNoPaths "spoke"));
  _ ← rs_when (bool_decide (ceHubToSpoke p = "")) (fail idx "CEL" (MNoExpression "hubToSpoke"));
  _ ← rs_when (bool_decide (ceSpokeToHub p = "")) (fail idx "CEL" (MNoExpression "spokeToHub"));
  _ ← rs_iter (λ hp, _ ← lookup_node idx "CEL" "hub" hub hp; claim Hub hp idx "hub") (ceHubPaths p);
  _ ← rs_iter (λ sp, _ ← lookup_node idx "CEL" "spoke" spoke sp; claim Spoke sp idx "spoke") (ceSpokePaths p);
  h2s ← compile_cel_op idx "hubToSpoke" (ceHubToSpoke p) (ceSpokePaths p);
  s2h ← compile_cel_op idx "spokeToHub" (ceSpokeToHub p) (ceHubPaths p);
  mret (h2s, s2h, lossy false false).
End compile.

(** ** The rule loop and the leftover scan *)

(** What [resolveAndBuildOps] returns, with the claims it made. *)
Record build := {
  bHub : gset string;
  bSpoke : gset string;
  bH2S : list Op;
  bS2H : list Op;
  bResults : list RuleResult;
  bDiags : list Diagnostic;
  bVerdict : LosslessVerdict;
}.

Definition empty_build : build :=
  {| bHub := ∅; bSpoke := ∅; bH2S := []; bS2H := []; bResults := []; bDiags := [];
     bVerdict := lossless_both |}.

(** A rule's resolver, waiting for its index, schemas, policy and depth. *)
Definition rule_resolver : Type :=
  nat → JSONSchemaProps → JSONSchemaProps → UnmappedFieldPolicy → nat → rs resolved.

Definition sortedPathStrings (m : gmap string FieldPath) : list string :=
  sort_strings ((path_string ∘ snd) <$> map_to_list m).

(** [rr.HubPaths] and [rr.SpokePaths]. *)
Definition rule_paths (p : RuleParams) : list string * list string :=
  let one h s := ([path_string h], [path_string s]) in
  match p with
  | PFieldRename p => one (frHubPath p) (frSpokePath p)
  | PScalarToObject p => one (soHubPath p) (soSpokePath p)
  | PObjectToScalar p => one (osHubPath p) (osSpokePath p)
  | PSingletonArrayToObject p => one (saHubPath p) (saSpokePath p)
  | PObjectToSingletonArray p => one (oaHubPath p) (oaSpokePath p)
  | PFieldsToMap p => (path_string <$> fmHubPaths p, [path_string (fmSpokeMapPath p)])
  | PMapToFields p => ([path_string (mfHubMapPath p)], path_string <$> mfSpokePaths p)
  | PToMetadata p => ([path_string (tmHubPath p)], [])
  | PFromMetadata p => ([], [path_string (rmSpokePath p)])
  | PEnumRemap p => one (erPath p) (erPath p)
  | PDefaultValue p => one (dvPath p) (dvPath p)
  | PConstant p => one (cnPath p) (cnPath p)
  | PDelete p => one (dlPath p) (dlPath p)
  | PJSONPatch _ | PUnset => ([], [])
  | PForEach h s _ => one h s
  | PTypeCoerce p => one (tcPath p) (tcPath p)
  | PScalarToFields p => ([path_string (sfHubPath p)], sortedPathStrings (sfSpokeFields p))
  | PFieldsToScalar p => (sortedPathStrings (fsHubFields p), [path_string (fsSpokePath p)])
  | PArrayToMapByKey p => one (amHubPath p) (amSpokePath p)
  | PMapToArrayByKey p => one (maHubPath p) (maSpokePath p)
  | PNumericScale p => one (nsHubPath p) (nsSpokePath p)
  | PListJoin p => one (ljHubPath p) (ljSpokePath p)
  | PListSplit p => one (lsHubPath p) (lsSpokePath p)
  | PQuantity p => one (quHubPath p) (quSpokePath p)
  | PDuration p => one (duHubPath p) (duSpokePath p)
  | PMapKeyRename p => one (mrHubPath p) (mrSpokePath p)
  | PBranchMap h s _ _ => one h s
  | PCEL p => (path_string <$> ceHubPaths p, path_string <$> ceSpokePaths p)
  end.

(** An unacknowledged loss is an error, one per direction. *)
Definition lossy_diags (idx : nat) (r : Rule) (v : LosslessVerdict) : list Diagnostic :=
  let err dir := errorf idx (MsgRule idx (rStrategy r) (MLossyUnacknowledged dir)) in
  (if negb (lvHubToSpoke v) && negb (rAcknowledgeLossy r) then [err "hub->spoke"] else []) ++
  (if negb (lvSpokeToHub v) && negb (rAcknowledgeLossy r) then [err "spoke->hub"] else []).

Definition when_lookup_diags (idx : nat) (r : Rule) (label : string) (root : JSONSchemaProps)
    (p : FieldPath) : list Diagnostic :=
  match lookupPath root p with
  | Ok _ => []
  | Err e => [errorf idx (MsgRule idx (rStrategy r) (MWhenLookup label e))]
  end.

(** The [when] clause: its diagnostics, and the wrapped operations. *)
Definition apply_when (idx : nat) (r : Rule) (hub spoke : JSONSchemaProps) (h2s s2h : option Op)
    : list Diagnostic * option Op * option Op :=
  match rWhen r with
  | None => ([], h2s, s2h)
  | Some w =>
      if bool_decide (whPath w = [])
      then ([errorf idx (MsgRule idx (rStrategy r) MWhenPathRequired)], h2s, s2h)
      else
        match when_lookup_diags idx r "hub" hub (whPath w) ++
              when_lookup_diags idx r "spoke" spoke (whPath w) with
        | [] => ([warnf idx (MsgRule idx (rStrategy r) (MWhenPartial (whPath w) (whEquals w)))],
                 whenOp (whPath w) (whEquals w) <$> h2s, whenOp (whPath w) (whEquals w) <$> s2h)
        | ds => (ds, h2s, s2h)
        end
  end.

Definition result_index (idx : nat) (r : Rule) : Z :=
  if bool_decide (rSourceIndex r = 0%Z) && negb (bool_decide (idx = 0)) then Z.of_nat idx
  else rSourceIndex r.

(** One iteration of the rule loop. *)
Definition rule_step (hub spoke : JSONSchemaProps) (policy : UnmappedFieldPolicy) (depth idx : nat)
    (r : Rule) (resolve : rule_resolver) (b : build) : build :=
  let '((h2s, s2h, lossless), st) :=
    resolve idx hub spoke policy depth {| csHub := bHub b; csSpoke := bSpoke b; csDiags := [] |} in
  let '(whenDiags, h2s, s2h) := apply_when idx r hub spoke h2s s2h in
  let ruleDiags := csDiags st ++ lossy_diags idx r lossless ++ whenDiags in
  {| bHub := csHub st; bSpoke := csSpoke st;
     bH2S := bH2S b ++ option_list h2s; bS2H := bS2H b ++ option_list s2h;
     bResults := bResults b ++
       [{| rrIndex := result_index idx r; rrStrategy := rStrategy r;
           rrHubPaths := (rule_paths (rParams r)).1; rrSpokePaths := (rule_paths (rParams r)).2;
           rrLossless := lossless;
           rrErrors := dMessage <$> filter (λ d, is_error d = true) ruleDiags;
           rrWarnings := dMessage <$> filter (λ d, is_error d = false) ruleDiags |}];
     bDiags := bDiags b ++ ruleDiags;
     bVerdict := verdict_and (bVerdict b) lossless |}.

Fixpoint rule_loop (hub spoke : JSONSchemaProps) (policy : UnmappedFieldPolicy) (depth idx : nat)
    (rules : list (Rule * rule_resolver)) (b : build) : build :=
  match rules with
  | [] => b
  | (r, resolve) :: rules =>
      rule_loop hub spoke policy depth (S idx) rules (rule_step hub spoke policy depth idx r resolve b)
  end.

(** [spokeByPath]: a later leaf with the same text overwrites. *)
Definition leaves_by_path (ls : list LeafField) : gmap string LeafField :=
  foldl (λ m l, <[path_string (lfPath l) := l]> m) ∅ ls.

(** The shape the identity match compares. *)
Definition same_shape (a b : LeafField) : bool :=
  bool_decide (lfKind a = lfKind b) && bool_decide (lfOpaque a = lfOpaque b) &&
  bool_decide (lfConstruct a = lfConstruct b).

(** A leaf no rule claimed: an error and a loss, or a warning. *)
Definition report_uncovered (policy : UnmappedFieldPolicy) (sd : side) (l : LeafField) (b : build) : build :=
  let warn := bool_decide (policy = UnmappedFieldPolicyWarn) in
  {| bHub := bHub b; bSpoke := bSpoke b; bH2S := bH2S b; bS2H := bS2H b; bResults := bResults b;
     bDiags := bDiags b ++
       [uncoveredFieldDiag (if warn then SeverityWarning else SeverityError) sd
          (path_string (lfPath l)) (lfConstruct l)];
     bVerdict :=
       if warn then bVerdict b
       else match sd with
            | Hub => lossy false (lvSpokeToHub (bVerdict b))
            | Spoke => lossy (lvHubToSpoke (bVerdict b)) false
            end |}.

Definition scan_hub_leaf (policy : UnmappedFieldPolicy) (spokeByPath : gmap string LeafField)
    (b : build) (hl : LeafField) : build :=
  let key := path_string (lfPath hl) in
  if bool_decide (key ∈ bHub b) then b
  else
    match spokeByPath !! key with
    | Some sl =>
        if bool_decide (key ∉ bSpoke b) && same_shape sl hl then
          {| bHub := {[key]} ∪ bHub b; bSpoke := {[key]} ∪ bSpoke b;
             bH2S := bH2S b ++ [identityOp (lfPath hl)]; bS2H := bS2H b ++ [identityOp (lfPath hl)];
             bResults := bResults b; bDiags := bDiags b; bVerdict := bVerdict b |}
        else report_uncovered policy Hub hl b
    | None => report_uncovered policy Hub hl b
    end.

Definition scan_spoke_leaf (policy : UnmappedFieldPolicy) (b : build) (sl : LeafField) : build :=
  if bool_decide (path_string (lfPath sl) ∈ bSpoke b) then b
  else report_uncovered policy Spoke sl b.

Definition add_passthrough (hub spoke : JSONSchemaProps) (b : build) : build :=
  let op := passthroughUnknownOp (mergeKnownTrees (buildKnownTree (Some hub)) (buildKnownTree (Some spoke))) in
  {| bHub := bHub b; bSpoke := bSpoke b; bH2S := bH2S b ++ [op]; bS2H := bS2H b ++ [op];
     bResults := bResults b; bDiags := bDiags b; bVerdict := bVerdict b |}.

Section build_ops.
Context `{RO : RangeOrder}.

Definition scan_leftovers (hub spoke : JSONSchemaProps) (policy : UnmappedFieldPolicy) (b : build) : build :=
  let spokeLeaves := flattenSchema spoke in
  let b := foldl (scan_hub_leaf policy (leaves_by_path spokeLeaves)) b (flattenSchema hub) in
  foldl (scan_spoke_leaf policy) b spokeLeaves.

(** [resolveAndBuildOps], given each rule's resolver. *)
Definition build_with (rules : list (Rule * rule_resolver)) (hub spoke : JSONSchemaProps)
    (policy : UnmappedFieldPolicy) (depth : nat) : build :=
  add_passthrough hub spoke
    (scan_leftovers hub spoke policy (rule_loop hub spoke policy depth 0 rules empty_build)).
End build_ops.

(** ** Rules that nest rules *)

Definition MaxForEachDepth : nat := 2.

Definition qualifyUnderItemsPath (itemsPath : FieldPath) (relative : string) : string :=
  if bool_decide (relative = "") then path_string itemsPath
  else if bool_decide (itemsPath = []) then relative
  else path_string itemsPath +:+ "." +:+ relative.

(** A nested diagnostic with its message wrapped and its uncovered path qualified. *)
Definition qualify_diag (wrap : message → message) (hubPath spokePath : FieldPath) (d : Diagnostic)
    : Diagnostic :=
  {| dSeverity := dSeverity d; dCode := dCode d; dMessage := wrap (dMessage d);
     dRuleIndex := dRuleIndex d;
     dFieldPath := match dUncoveredSide d with
                   | Some Hub => qualifyUnderItemsPath hubPath (dFieldPath d)
                   | Some Spoke => qualifyUnderItemsPath spokePath (dFieldPath d)
                   | None => dFieldPath d
                   end;
     dUncoveredSide := dUncoveredSide d |}.

Definition discriminatorValue (explicit branch : string) : string :=
  if bool_decide (explicit = "") then branch else explicit.

Section nesting.
Context `{RO : RangeOrder}.

Definition resolveForEach (idx : nat) (hubItemsPath spokeItemsPath : FieldPath)
    (rules : list (Rule * rule_resolver)) (hub spoke : JSONSchemaProps)
    (policy : UnmappedFieldPolicy) (depth : nat) : rs resolved :=
  if MaxForEachDepth <=? depth then
    _ ← fail idx "ForEach" (MDepthExceeded MaxForEachDepth);
    mret (None, None, lossless_both)
  else
    hubArray ← lookup_node idx "ForEach" "hub" hub hubItemsPath;
    spokeArray ← lookup_node idx "ForEach" "spoke" spoke spokeItemsPath;
    _ ← claim Hub hubItemsPath idx "hub";
    _ ← claim Spoke spokeItemsPath idx "spoke";
    match hubArray ≫= itemsSchema, spokeArray ≫= itemsSchema with
    | Some hubItem, Some spokeItem =>
        let nested := build_with rules hubItem spokeItem policy (S depth) in
        _ ← tell_all (qualify_diag (MsgItem idx) hubItemsPath spokeItemsPath <$> bDiags nested);
        mret (Some (forEachOp hubItemsPath spokeItemsPath (bH2S nested)),
              Some (forEachOp spokeItemsPath hubItemsPath (bS2H nested)), bVerdict nested)
    | _, _ =>
        _ ← fail idx "ForEach" MItemsNotArrays;
        mret (None, None, lossless_both)
    end.

(** The state of the branch loop. *)
Record branch_state := {
  bsHubSeen : gset string;
  bsSpokeSeen : gset string;
  bsH2S : list (compiledBranch (list Op));
  bsS2H : list (compiledBranch (list Op));
  bsVerdict : LosslessVerdict;
}.

(** One branch mapping, with its nested rules' resolvers. *)
Definition resolve_branch (idx bi : nat) (hubPath spokePath : FieldPath)
    (hubNode spokeNode : JSONSchemaProps) (policy : UnmappedFieldPolicy) (depth : nat)
    (b : BranchMapping) (rules : list (Rule * rule_resolver)) (st : branch_state) : rs branch_state :=
  let name := "BranchMap" in
  let hb := bHubBranch b in
  let sb := bSpokeBranch b in
  let hubBranch := sProperties hubNode !! hb in
  let spokeBranch := sProperties spokeNode !! sb in
  _ ← rs_when (bool_decide (hubBranch = None)) (fail idx name (MBranchNotDeclared bi hb "hub" hubPath));
  _ ← rs_when (bool_decide (spokeBranch = None)) (fail idx name (MBranchNotDeclared bi sb "spoke" spokePath));
  let firstHubUse := bool_decide (hb ∉ bsHubSeen st) in
  let firstSpokeUse := bool_decide (sb ∉ bsSpokeSeen st) in
  let verdict := verdict_and (bsVerdict st) (lossy firstHubUse firstSpokeUse) in
  let seen st' h2s s2h v := {| bsHubSeen := {[hb]} ∪ bsHubSeen st'; bsSpokeSeen := {[sb]} ∪ bsSpokeSeen st';
                               bsH2S := h2s; bsS2H := s2h; bsVerdict := v |} in
  match hubBranch, spokeBranch with
  | Some hubSchema, Some spokeSchema =>
      let hubBranchPath := hubPath ++ [hb] in
      let spokeBranchPath := spokePath ++ [sb] in
      _ ← rs_when firstHubUse (claimSubtree Hub hubBranchPath (Some hubSchema) idx "hub");
      _ ← rs_when firstSpokeUse (claimSubtree Spoke spokeBranchPath (Some spokeSchema) idx "spoke");
      let nested :=
        match rules with
        | [] => None
        | _ => Some (build_with rules hubSchema spokeSchema policy depth)
        end in
      _ ← tell_all (match nested with
                    | None => []
                    | Some n => qualify_diag (MsgBranch idx hb) hubBranchPath spokeBranchPath <$> bDiags n
                    end);
      let nestedH2S := from_option bH2S [] nested in
      let nestedS2H := from_option bS2H [] nested in
      let verdict := match nested with None => verdict | Some n => verdict_and verdict (bVerdict n) end in
      mret (seen st
        (bsH2S st ++
           if firstHubUse
           then [mkCompiledBranch hb sb (discriminatorValue (bSpokeDiscriminatorValue b) sb) nestedH2S]
           else [])
        (bsS2H st ++
           if firstSpokeUse
           then [mkCompiledBranch sb hb (discriminatorValue (bHubDiscriminatorValue b) hb) nestedS2H]
           else [])
        verdict)
  | _, _ => mret (seen st (bsH2S st) (bsS2H st) verdict)
  end.

Fixpoint branch_loop (idx bi : nat) (hubPath spokePath : FieldPath)
    (hubNode spokeNode : JSONSchemaProps) (policy : UnmappedFieldPolicy) (depth : nat)
    (bs : list (BranchMapping * list (Rule * rule_resolver))) (st : branch_state) : rs branch_state :=
  match bs with
  | [] => mret st
  | (b, rules) :: bs =>
      st' ← resolve_branch idx bi hubPath spokePath hubNode spokeNode policy depth b rules st;
      branch_loop idx (S bi) hubPath spokePath hubNode spokeNode policy depth bs st'
  end.

Definition check_discriminator (idx : nat) (disc : string) (label : string) (node : JSONSchemaProps)
    (p : FieldPath) : rs () :=
  rs_when (bool_decide (sProperties node !! disc = None))
    (fail idx "BranchMap" (MDiscriminatorNotDeclared disc label p)).

Definition resolveBranchMap (idx : nat) (hubPath spokePath : FieldPath) (disc : string)
    (branches : list (BranchMapping * list (Rule * rule_resolver))) (hub spoke : JSONSchemaProps)
    (policy : UnmappedFieldPolicy) (depth : nat) : rs resolved :=
  let name := "BranchMap" in
  hubNode ← lookup_node idx name "hub" hub hubPath;
  spokeNode ← lookup_node idx name "spoke" spoke spokePath;
  _ ← rs_when (bool_decide (branches.*1 = [])) (fail idx name MNeedBranches);
  match hubNode, spokeNode with
  | Some hubNode, Some spokeNode =>
      if negb (hasProperties hubNode) || negb (hasProperties spokeNode) then
        _ ← fail idx name MBranchesNotObjects; mret (None, None, lossless_both)
      else
        _ ← rs_when (negb (bool_decide (disc = "")))
              (_ ← check_discriminator idx disc "hub" hubNode hubPath;
               check_discriminator idx disc "spoke" spokeNode spokePath);
        st ← branch_loop idx 0 hubPath spokePath hubNode spokeNode policy depth branches
               {| bsHubSeen := ∅; bsSpokeSeen := ∅; bsH2S := []; bsS2H := []; bsVerdict := lossless_both |};
        _ ← rs_when (negb (bool_decide (disc = "")))
              (_ ← claim Hub (hubPath ++ [disc]) idx "hub";
               claim Spoke (spokePath ++ [disc]) idx "spoke");
        mret (match bsH2S st with
              | [] => (None, None, bsVerdict st)
              | _ => (Some (branchMapOp hubPath spokePath disc (bsH2S st)),
                      Some (branchMapOp spokePath hubPath disc (bsS2H st)), bsVerdict st)
              end)
  | _, _ => mret (None, None, lossless_both)
  end.
End nesting.

(** ** [resolveAndBuildOps] and [Compile] *)

Section compile_rules.
Context `{RO : RangeOrder} `{EX : Externs} `{CX : CompileExterns}.

(** The type switch over a rule's parameters. *)
Fixpoint resolve_rule (r : Rule) : rule_resolver :=
  λ idx hub spoke policy depth,
  let '(mkRule strategy params _ _ _ _) := r in
  match params with
  | PFieldRename p => resolveFieldRename idx p hub spoke
  | PScalarToObject p => resolveScalarToObject idx p hub spoke
  | PObjectToScalar p => resolveObjectToScalar idx p hub spoke
  | PSingletonArrayToObject p =>
      resolveSingletonArrayToObject idx (saHubPath p) (saSpokePath p) hub spoke Hub
  | PObjectToSingletonArray p =>
      resolveSingletonArrayToObject idx (oaSpokePath p) (oaHubPath p) spoke hub Spoke
  | PFieldsToMap p => resolveFieldsToMap idx p hub spoke
  | PMapToFields p => resolveMapToFields idx p hub spoke
  | PToMetadata p => resolveToMetadata idx strategy p hub
  | PFromMetadata p => resolveFromMetadata idx strategy p spoke
  | PEnumRemap p => resolveEnumRemap idx p hub spoke
  | PDefaultValue p => resolveDefaultValue idx p hub spoke
  | PConstant p => resolveConstant idx p hub spoke
  | PDelete p => resolveDelete idx p hub spoke
  | PJSONPatch p => resolveJSONPatch idx p
  | PForEach hp sp rules =>
      resolveForEach idx hp sp ((λ r, (r, resolve_rule r)) <$> rules) hub spoke policy depth
  | PTypeCoerce p => resolveTypeCoerce idx p hub spoke
  | PScalarToFields p => resolveScalarToFields idx p hub spoke
  | PFieldsToScalar p => resolveFieldsToScalar idx p hub spoke
  | PArrayToMapByKey p => resolveArrayToMapByKey idx p hub spoke
  | PMapToArrayByKey p => resolveMapToArrayByKey idx p hub spoke
  | PNumericScale p => resolveNumericScale idx p hub spoke
  | PListJoin p => resolveListJoin idx p hub spoke
  | PListSplit p => resolveListSplit idx p hub spoke
  | PQuantity p => resolveQuantity idx p hub spoke
  | PDuration p => resolveDuration idx p hub spoke
  | PMapKeyRename p => resolveMapKeyRename idx p hub spoke
  | PBranchMap hp sp disc branches =>
      resolveBranchMap idx hp sp disc
        ((λ b, (b, (λ r, (r, resolve_rule r)) <$> bRules b)) <$> branches) hub spoke policy depth
  | PCEL p => resolveCEL idx p hub spoke
  | PUnset => _ ← fail idx "" MUnknownParams; mret (None, None, lossy false false)
  end.

Definition resolveAndBuildOps (rules : list Rule) (hub spoke : JSONSchemaProps)
    (policy : UnmappedFieldPolicy) (depth : nat) : build :=
  build_with ((λ r, (r, resolve_rule r)) <$> rules) hub spoke policy depth.
End compile_rules.

Definition effectivePolicy (p : UnmappedFieldPolicy) : UnmappedFieldPolicy :=
  if bool_decide (p = "") then UnmappedFieldPolicyError else p.
