(* ===== verification/CompileTheory.v ===== *)
(** What the compiler guarantees: every leaf is covered or reported, no path is
    claimed twice, losses are acknowledged, nesting is bounded.

    The first part is a small logic for the resolver monad: [grows] (claims and
    diagnostics are only ever added), [fails] (an error is always reported) and
    [claims1] (without an error, the path was free before and is claimed after). *)
From S2P Require Import Prelude Float64 Value Json Duration Path Schema Rules Coerce Passthrough Ops Convert Diagnostics Compile.
From Stdlib Require Import Ascii.

(** ** A logic for resolvers *)

Definition extends (s s' : cstate) : Prop :=
  csHub s ⊆ csHub s' ∧ csSpoke s ⊆ csSpoke s' ∧ ∃ ds, csDiags s' = csDiags s ++ ds.

Definition grows {A} (m : rs A) : Prop := ∀ s, extends s (m s).2.

Definition fails {A} (m : rs A) : Prop := ∀ s, ¬ no_errors (csDiags (m s).2).

Definition claims1 (sd : side) (k : string) {A} (m : rs A) : Prop :=
  ∀ s, no_errors (csDiags (m s).2) → k ∉ claimed sd s ∧ k ∈ claimed sd (m s).2.

#[export] Instance extends_preorder : PreOrder extends.
Proof.
  split.
  - intros s. split_and!; [done..|]. exists []. by rewrite app_nil_r.
  - intros s1 s2 s3 (H1 & H2 & ds & Hd) (H3 & H4 & ds' & Hd'). split_and!; [set_solver..|].
    exists (ds ++ ds'). by rewrite Hd', Hd, app_assoc.
Qed.

Lemma rs_bind_eq {A B} (m : rs A) (f : A → rs B) s : (m ≫= f) s = f (m s).1 (m s).2.
Proof. unfold mbind, rs_bind. by destruct (m s). Qed.

Lemma extends_no_errors s s' : extends s s' → no_errors (csDiags s') → no_errors (csDiags s).
Proof. intros (_ & _ & ds & ->). rewrite no_errors_app. tauto. Qed.

Lemma extends_claimed sd s s' k : extends s s' → k ∈ claimed sd s → k ∈ claimed sd s'.
Proof. intros (H1 & H2 & _). destruct sd; cbn; set_solver. Qed.

Lemma grows_ret {A} (a : A) : grows (mret a).
Proof. intros s. done. Qed.

Lemma grows_bind {A B} (m : rs A) (f : A → rs B) : grows m → (∀ a, grows (f a)) → grows (m ≫= f).
Proof. intros Hm Hf s. rewrite rs_bind_eq. etrans; [apply Hm|apply Hf]. Qed.

Lemma grows_tell d : grows (tell d).
Proof. intros s. split_and!; [done..|]. by exists [d]. Qed.

Lemma grows_tell_all ds : grows (tell_all ds).
Proof. intros s. split_and!; [done..|]. by exists ds. Qed.

Lemma grows_add_claim sd k : grows (add_claim sd k).
Proof. intros s. destruct sd; split_and!; cbn; try set_solver; exists []; by rewrite app_nil_r. Qed.

Lemma grows_is_claimed sd k : grows (is_claimed sd k).
Proof. intros s. done. Qed.

Lemma grows_iter {A} (f : A → rs ()) l : (∀ a, grows (f a)) → grows (rs_iter f l).
Proof. intros Hf. induction l; [apply grows_ret|]. cbn. by apply grows_bind. Qed.

Lemma grows_when b m : grows m → grows (rs_when b m).
Proof. intros Hm. by destruct b; [|apply grows_ret]. Qed.

Lemma grows_fail idx name m : grows (fail idx name m).
Proof. apply grows_tell. Qed.
Lemma grows_warn idx name m : grows (warn idx name m).
Proof. apply grows_tell. Qed.

Lemma grows_claim sd p idx l : grows (claim sd p idx l).
Proof.
  unfold claim. apply grows_bind; [apply grows_is_claimed|]. intros [].
  - apply grows_fail.
  - apply grows_add_claim.
Qed.

Lemma grows_lookup_node idx name l root p : grows (lookup_node idx name l root p).
Proof.
  unfold lookup_node. destruct (lookupPath root p).
  - apply grows_ret.
  - apply grows_bind; [apply grows_fail|]. intros. apply grows_ret.
Qed.

Lemma grows_kind_at idx name l root p f : (∀ k, grows (f k)) → grows (kind_at idx name l root p f).
Proof.
  intros Hf. unfold kind_at. apply grows_bind; [apply grows_lookup_node|]. intros [n|]; [|apply grows_ret].
  apply grows_bind; [done|]. intros. apply grows_ret.
Qed.

Create HintDb resolver.
#[export] Hint Resolve grows_ret grows_tell grows_tell_all grows_add_claim grows_is_claimed grows_fail
  grows_warn grows_claim grows_lookup_node : resolver.

(** Break a goal about a compound resolver into its parts. *)
Ltac resolver_case :=
  match goal with
  | |- grows (match ?x with _ => _ end) => destruct x
  | |- grows (rs_when _ _) => apply grows_when
  | |- grows (kind_at _ _ _ _ _ _) => apply grows_kind_at; intros ?
  | |- grows (rs_iter _ _) => apply grows_iter; intros ?
  | |- grows (_ ≫= _) => apply grows_bind; [|intros ?]
  end.
Ltac solve_grows := repeat (cbn beta iota zeta; first [solve [auto with resolver nocore] | resolver_case]).

Lemma fails_fail idx name m : fails (fail idx name m).
Proof.
  intros s. unfold fail, tell. cbn. rewrite no_errors_app, no_errors_cons. by intros (_ & [=] & _).
Qed.

Lemma fails_bind_l {A B} (m : rs A) (f : A → rs B) : fails m → (∀ a, grows (f a)) → fails (m ≫= f).
Proof.
  intros Hm Hf s. rewrite rs_bind_eq. intros Hn. apply (Hm s). eapply extends_no_errors; [apply Hf|done].
Qed.

Lemma claims_fails {A} sd k (m : rs A) : fails m → claims1 sd k m.
Proof. intros Hm s Hn. by apply Hm in Hn. Qed.

Lemma claims_claim sd p idx l : claims1 sd (path_string p) (claim sd p idx l).
Proof.
  intros s. unfold claim. rewrite rs_bind_eq. cbn. case_bool_decide as Hk.
  - intros Hn. by apply fails_fail in Hn.
  - intros _. destruct sd; cbn in *; set_solver.
Qed.

Lemma claims_bind_l {A B} sd k (m : rs A) (f : A → rs B) :
  claims1 sd k m → (∀ a, grows (f a)) → claims1 sd k (m ≫= f).
Proof.
  intros Hm Hf s. rewrite rs_bind_eq. intros Hn.
  destruct (Hm s) as [H1 H2]; [eapply extends_no_errors; [apply Hf|done]|].
  split; [done|]. eapply extends_claimed; [apply Hf|done].
Qed.

Lemma claims_bind_at {A B} sd k (m : rs A) (f : A → rs B) :
  grows m → (∀ s, claims1 sd k (f (m s).1)) → claims1 sd k (m ≫= f).
Proof.
  intros Hm Hf s. rewrite rs_bind_eq. intros Hn. destruct (Hf _ _ Hn) as [H1 H2].
  split; [|done]. intros Hk. apply H1. eapply extends_claimed; [apply Hm|done].
Qed.

Lemma claims_bind_r {A B} sd k (m : rs A) (f : A → rs B) :
  grows m → (∀ a, claims1 sd k (f a)) → claims1 sd k (m ≫= f).
Proof. intros. by apply claims_bind_at. Qed.

(** After a lookup without an error, the node is the one at the path. *)
Lemma claims_lookup {B} sd k idx name l root p (f : option JSONSchemaProps → rs B) :
  (∀ n, lookupPath root p = Ok n → claims1 sd k (f (Some n))) → (∀ o, grows (f o)) →
  claims1 sd k (lookup_node idx name l root p ≫= f).
Proof.
  intros Hf Hg. unfold lookup_node. destruct (lookupPath root p) as [n|e]; [by apply (Hf n)|].
  apply claims_fails, fails_bind_l; [|done]. apply fails_bind_l; [apply fails_fail|]. intros. apply grows_ret.
Qed.

Lemma claims_iter {A} sd k (f : A → rs ()) l a :
  a ∈ l → claims1 sd k (f a) → (∀ a, grows (f a)) → claims1 sd k (rs_iter f l).
Proof.
  intros Ha Hf Hg. induction Ha as [b l|b c l Ha IH]; cbn.
  - apply claims_bind_l; [done|]. intros. by apply grows_iter.
  - apply claims_bind_r; [done|]. intros. by apply IH.
Qed.

(** Find the claim of a path in a compound resolver. *)
Ltac solve_claims :=
  cbn beta iota zeta;
  first
  [ assumption
  | solve [auto with resolver nocore]
  | apply claims_claim
  | match goal with |- claims1 _ _ (_ _ _ (Some _) _ _) => solve [eauto 3 with resolver nocore] end
  | match goal with |- claims1 _ _ (lookup_node _ _ _ _ _ ≫= _) =>
      apply claims_lookup; [intros ? ?; solve [solve_claims]|intros ?; solve [solve_grows]] end
  | match goal with |- claims1 _ _ (rs_iter _ _) => eapply claims_iter; [eassumption|solve_claims|intros ?; solve [solve_grows]] end
  | match goal with |- claims1 _ _ (match ?x with _ => _ end) => destruct x; solve_claims end
  | match goal with |- claims1 _ _ (_ ≫= _) =>
      first [ apply claims_bind_l; [solve [solve_claims]|intros ?; solve [solve_grows]]
            | apply claims_bind_r; [solve [solve_grows]|intros ?; solve_claims]
            | apply claims_fails, fails_bind_l; [apply fails_fail|intros ?; solve [solve_grows]] ] end ].

(** ** What each resolver claims *)

(** A field in both versions. *)
Definition both (h s : FieldPath) : list (side * FieldPath) := [(Hub, h); (Spoke, s)].

(** The pointers a [JSONPatch] mentions, in the operations of either direction. *)
Definition patch_pointers (p : JSONPatchParams) : list FieldPath :=
  FieldPathFromJSONPointer <$>
    filter (λ s, s ≠ "") (concat ((λ o, [jpPath o; jpFrom o]) <$> jpHubToSpoke p ++ jpSpokeToHub p)).

Section rule_claims.
Context `{RO : RangeOrder}.

(** A field taken as a whole: its path, and every leaf its schema declares below. *)
Definition subtree (sd : side) (root : JSONSchemaProps) (p : FieldPath) : list (side * FieldPath) :=
  (sd, p) :: match lookupPath root p with
             | Ok n => (λ l, (sd, p ++ lfPath l)) <$> flattenSchema n
             | Err _ => []
             end.

(** The paths a rule owns, by side, under the two schemas: a field it copies or
    computes; a field it reads or writes as an object or a map, with the leaves
    below; on both sides every pointer a [JSONPatch] mentions; each branch of a
    [BranchMap] with its leaves, and the discriminator. *)
Definition rule_claims (hub spoke : JSONSchemaProps) (p : RuleParams) : list (side * FieldPath) :=
  match p with
  | PFieldRename p => both (frHubPath p) (frSpokePath p)
  | PScalarToObject p => (Hub, soHubPath p) :: subtree Spoke spoke (soSpokePath p)
  | PObjectToScalar p => (Spoke, osSpokePath p) :: subtree Hub hub (osHubPath p)
  | PSingletonArrayToObject p => (Hub, saHubPath p) :: subtree Spoke spoke (saSpokePath p)
  | PObjectToSingletonArray p => (Spoke, oaSpokePath p) :: subtree Hub hub (oaHubPath p)
  | PFieldsToMap p => (pair Hub <$> fmHubPaths p) ++ subtree Spoke spoke (fmSpokeMapPath p)
  | PMapToFields p => (pair Spoke <$> mfSpokePaths p) ++ subtree Hub hub (mfHubMapPath p)
  | PToMetadata p => subtree Hub hub (tmHubPath p)
  | PFromMetadata p => subtree Spoke spoke (rmSpokePath p)
  | PEnumRemap p => both (erPath p) (erPath p)
  | PDefaultValue p => [(exists_side (dvExistsOn p), dvPath p)]
  | PConstant p => [(exists_side (cnExistsOn p), cnPath p)]
  | PDelete p => [(exists_side (dlExistsOn p), dlPath p)]
  | PJSONPatch p => (pair Hub <$> patch_pointers p) ++ (pair Spoke <$> patch_pointers p)
  | PForEach h s _ => both h s
  | PTypeCoerce p => both (tcPath p) (tcPath p)
  | PScalarToFields p => (Hub, sfHubPath p) :: (pair Spoke <$> (map_to_list (sfSpokeFields p)).*2)
  | PFieldsToScalar p => (Spoke, fsSpokePath p) :: (pair Hub <$> (map_to_list (fsHubFields p)).*2)
  | PArrayToMapByKey p => both (amHubPath p) (amSpokePath p)
  | PMapToArrayByKey p => both (maHubPath p) (maSpokePath p)
  | PNumericScale p => both (nsHubPath p) (nsSpokePath p)
  | PListJoin p => both (ljHubPath p) (ljSpokePath p)
  | PListSplit p => both (lsHubPath p) (lsSpokePath p)
  | PQuantity p => both (quHubPath p) (quSpokePath p)
  | PDuration p => both (duHubPath p) (duSpokePath p)
  | PMapKeyRename p => both (mrHubPath p) (mrSpokePath p)
  | PBranchMap h s disc branches =>
      concat ((λ b, subtree Hub hub (h ++ [bHubBranch b]) ++ subtree Spoke spoke (s ++ [bSpokeBranch b])) <$> branches) ++
      (if bool_decide (disc = "") then [] else both (h ++ [disc]) (s ++ [disc]))
  | PCEL p => (pair Hub <$> ceHubPaths p) ++ (pair Spoke <$> ceSpokePaths p)
  | PUnset => []
  end.
End rule_claims.

Section resolvers.
Context `{RO : RangeOrder} `{EX : Externs} `{CX : CompileExterns}.

Lemma grows_claimSubtree sd p node idx l : grows (claimSubtree sd p node idx l).
Proof. unfold claimSubtree. solve_grows. Qed.

Lemma elem_of_subtree sd sd' root p q :
  (sd', q) ∈ subtree sd root p ↔
  sd' = sd ∧ (q = p ∨ ∃ n l, lookupPath root p = Ok n ∧ l ∈ flattenSchema n ∧ q = p ++ lfPath l).
Proof.
  unfold subtree. rewrite elem_of_cons. split.
  - intros [[= -> ->]|H]; [auto|]. destruct (lookupPath root p) as [n|]; [|by apply not_elem_of_nil in H].
    apply list_elem_of_fmap in H as (l & [= -> ->] & ?). eauto 7.
  - intros [-> [->|(n & l & -> & Hl & ->)]]; [by left|right]. by apply (list_elem_of_fmap_2 (λ l, (sd, p ++ lfPath l))).
Qed.

Lemma claims_claimSubtree sd sd' root p node idx l q :
  lookupPath root p = Ok node → (sd', q) ∈ subtree sd root p →
  claims1 sd' (path_string q) (claimSubtree sd p (Some node) idx l).
Proof.
  intros Hn (-> & Hq)%elem_of_subtree. unfold claimSubtree. destruct Hq as [->|(n & lf & Hn' & Hlf & ->)].
  { apply claims_bind_l; [apply claims_claim|intros; solve_grows]. }
  rewrite Hn in Hn'. injection Hn' as <-. destruct (decide (lfPath lf = [])) as [He|Hne].
  - rewrite He, app_nil_r. apply claims_bind_l; [apply claims_claim|intros; solve_grows].
  - apply claims_bind_r; [solve_grows|]. intros _. apply (claims_iter _ _ _ _ lf); [done| |intros; solve_grows].
    rewrite bool_decide_eq_false_2 by done. apply claims_claim.
Qed.

Lemma grows_item_kind_at idx name l root p : grows (item_kind_at idx name l root p).
Proof. unfold item_kind_at. solve_grows. Qed.

Lemma grows_check_string idx name l root p : grows (check_string idx name l root p).
Proof. unfold check_string. solve_grows. Qed.

Lemma grows_check_label_key idx name mf k : grows (check_label_key idx name mf k).
Proof. unfold check_label_key. solve_grows. Qed.

Lemma grows_field_kinds idx st root sd l kinds : grows (field_kinds idx st root sd l kinds).
Proof. revert kinds; induction l as [|[n p] l IH]; intros kinds; cbn; solve_grows. Qed.

Lemma claims_field_kinds idx st root sd l kinds n p :
  (n, p) ∈ l → claims1 sd (path_string p) (field_kinds idx st root sd l kinds).
Proof.
  intros Hin. revert kinds; induction l as [|[n' p'] l IH]; intros kinds; [by apply not_elem_of_nil in Hin|].
  pose proof (grows_field_kinds idx st root sd l) as Hg. cbn.
  apply elem_of_cons in Hin as [[= -> ->]|Hin].
  - intros s Hn. rewrite rs_bind_eq in *. unfold lookup_node in *. destruct (lookupPath root p').
    + eapply claims_bind_r in Hn; [exact Hn|solve_grows|intros _]. solve_claims.
    + exfalso. revert Hn. rewrite rs_bind_eq. cbn. intros Hn.
      eapply fails_fail. eapply extends_no_errors; [apply Hg|exact Hn].
  - specialize (IH Hin). apply claims_bind_r; [solve_grows|]. intros []; [|done].
    apply claims_bind_r; [solve_grows|]. intros _. apply claims_bind_r; [solve_grows|]. done.
Qed.

Lemma grows_compileSplitJoin idx st pat tm fields root sd :
  grows (compileSplitJoin idx st pat tm fields root sd).
Proof. unfold compileSplitJoin. solve_grows. apply grows_field_kinds. Qed.

Lemma claims_compileSplitJoin idx st pat tm fields root sd p :
  p ∈ (map_to_list fields).*2 →
  claims1 sd (path_string p) (compileSplitJoin idx st pat tm fields root sd).
Proof.
  intros ([n ?] & -> & Hin)%list_elem_of_fmap. unfold compileSplitJoin. cbn.
  pose proof (grows_field_kinds idx st root sd) as Hg.
  do 3 (apply claims_bind_r; [solve_grows|intros ?]).
  apply claims_bind_l; [|intros; solve_grows].
  eapply (claims_field_kinds _ _ _ _ _ _ n). by rewrite range_perm.
Qed.

Lemma grows_requireOpaqueMap idx name l p root : grows (requireOpaqueMap idx name l p root).
Proof. unfold requireOpaqueMap. solve_grows. Qed.

Lemma grows_invert_entries idx name l rev : grows (invert_entries idx name l rev).
Proof. revert rev; induction l as [|[h s] l IH]; intros rev; cbn; solve_grows. Qed.

Lemma grows_invertRenames idx name r : grows (invertRenames idx name r).
Proof. unfold invertRenames. solve_grows. apply grows_invert_entries. Qed.

Lemma grows_compile_cel_op idx dir e ds : grows (compile_cel_op idx dir e ds).
Proof. unfold compile_cel_op. solve_grows. Qed.

Lemma grows_tell_patch_error idx dir e : grows (tell_patch_error idx dir e).
Proof. unfold tell_patch_error. solve_grows. Qed.

Lemma grows_check_discriminator idx d l node p : grows (check_discriminator idx d l node p).
Proof. unfold check_discriminator. solve_grows. Qed.

#[local] Hint Resolve grows_claimSubtree claims_claimSubtree grows_item_kind_at
  grows_check_string grows_check_label_key grows_compileSplitJoin claims_compileSplitJoin
  grows_requireOpaqueMap grows_invertRenames grows_compile_cel_op grows_tell_patch_error
  grows_check_discriminator : resolver.

Lemma grows_resolve_branch idx bi hp sp hn sn pol depth b rules st :
  grows (resolve_branch idx bi hp sp hn sn pol depth b rules st).
Proof. unfold resolve_branch. solve_grows. Qed.

Lemma grows_branch_loop idx bi hp sp hn sn pol depth bs st :
  grows (branch_loop idx bi hp sp hn sn pol depth bs st).
Proof.
  revert bi st; induction bs as [|[b rules] bs IH]; intros bi st; cbn; [solve_grows|].
  apply grows_bind; [apply grows_resolve_branch|]. done.
Qed.
#[local] Hint Resolve grows_branch_loop : resolver.

(** A branch of a side is claimed where it is first used. *)
Definition branch_name (sd : side) (b : BranchMapping) : string :=
  match sd with Hub => bHubBranch b | Spoke => bSpokeBranch b end.
Definition branch_seen (sd : side) (st : branch_state) : gset string :=
  match sd with Hub => bsHubSeen st | Spoke => bsSpokeSeen st end.

Lemma resolve_branch_seen sd idx bi hp sp hn sn pol depth b rules st s :
  branch_seen sd (resolve_branch idx bi hp sp hn sn pol depth b rules st s).1 =
  {[branch_name sd b]} ∪ branch_seen sd st.
Proof.
  unfold resolve_branch. do 2 rewrite rs_bind_eq. destruct (sProperties hn !! _), (sProperties sn !! _).
  - do 3 rewrite rs_bind_eq. by destruct sd.
  - by destruct sd.
  - by destruct sd.
  - by destruct sd.
Qed.

Lemma claims_resolve_branch sd hub spoke hp sp hn sn idx bi pol depth b rules st q :
  lookupPath hub hp = Ok hn → lookupPath spoke sp = Ok sn → branch_name sd b ∉ branch_seen sd st →
  (sd, q) ∈ subtree sd (side_root sd hub spoke) (match sd with Hub => hp | Spoke => sp end ++ [branch_name sd b]) →
  claims1 sd (path_string q) (resolve_branch idx bi hp sp hn sn pol depth b rules st).
Proof.
  intros Hh Hs Hseen Hq. unfold resolve_branch.
  destruct (sProperties hn !! bHubBranch b) as [hs|] eqn:Eh;
    [|rewrite (bool_decide_eq_true_2 (@None JSONSchemaProps = None)) by done; apply claims_fails, fails_bind_l; [apply fails_fail|intros; solve_grows]].
  apply claims_bind_r; [solve_grows|intros _].
  destruct (sProperties sn !! bSpokeBranch b) as [ss|] eqn:Es;
    [|rewrite (bool_decide_eq_true_2 (@None JSONSchemaProps = None)) by done; apply claims_fails, fails_bind_l; [apply fails_fail|intros; solve_grows]].
  apply claims_bind_r; [solve_grows|intros _]. destruct sd; cbn in *.
  - apply claims_bind_l; [|intros; solve_grows]. rewrite (bool_decide_eq_true_2 (bHubBranch b ∉ _)) by done.
    apply (claims_claimSubtree Hub Hub hub); [|done]. apply lookupPath_app. exists hn. split; [done|].
    apply lookupPath_cons. eauto using lookupPath_nil.
  - apply claims_bind_r; [solve_grows|intros _]. apply claims_bind_l; [|intros; solve_grows].
    rewrite (bool_decide_eq_true_2 (bSpokeBranch b ∉ _)) by done.
    apply (claims_claimSubtree Spoke Spoke spoke); [|done]. apply lookupPath_app. exists sn. split; [done|].
    apply lookupPath_cons. eauto using lookupPath_nil.
Qed.

Lemma claims_branch_loop sd hub spoke hp sp hn sn idx bi pol depth bs st b q :
  lookupPath hub hp = Ok hn → lookupPath spoke sp = Ok sn → b ∈ bs.*1 → branch_name sd b ∉ branch_seen sd st →
  (sd, q) ∈ subtree sd (side_root sd hub spoke) (match sd with Hub => hp | Spoke => sp end ++ [branch_name sd b]) →
  claims1 sd (path_string q) (branch_loop idx bi hp sp hn sn pol depth bs st).
Proof.
  intros Hh Hs Hb. revert bi st; induction bs as [|[b' rules] bs IH]; intros bi st Hseen Hq;
    [by apply not_elem_of_nil in Hb|]. cbn.
  destruct (decide (branch_name sd b' = branch_name sd b)) as [E|Hne].
  - apply claims_bind_l; [|intros; apply grows_branch_loop].
    eapply claims_resolve_branch; [exact Hh|exact Hs|by rewrite E|by rewrite E].
  - apply claims_bind_at; [apply grows_resolve_branch|]. intros s. apply IH; [|by rewrite resolve_branch_seen; set_solver|done].
    cbn in Hb. apply elem_of_cons in Hb as [->|?]; done.
Qed.

(** The pointers of a patch that decodes are the ones it claims. *)
Lemma elem_of_distinct s l : s ∈ distinct l ↔ s ∈ l.
Proof.
  unfold distinct. assert (∀ seen, s ∈ foldl (λ seen s, if bool_decide (s ∈ seen) then seen else seen ++ [s]) seen l ↔
    s ∈ seen ∨ s ∈ l) as H; [|rewrite H; set_solver].
  induction l as [|a l IH]; intros seen; cbn; [set_solver|]. rewrite IH. case_bool_decide; set_solver.
Qed.

Definition op_pointers (ops : list JSONPatchOp) : list FieldPath :=
  FieldPathFromJSONPointer <$> filter (λ s, s ≠ "") (concat ((λ o, [jpPath o; jpFrom o]) <$> ops)).

Lemma patch_pointers_app p : patch_pointers p = op_pointers (jpHubToSpoke p) ++ op_pointers (jpSpokeToHub p).
Proof. unfold patch_pointers, op_pointers. by rewrite fmap_app, concat_app, filter_app, fmap_app. Qed.

Lemma parsePatch_pointers ops :
  let '(_, _, all, e) := parsePatch ops in
  (∀ q, q ∈ all → q ∈ op_pointers ops) ∧ (e = None → ∀ q, q ∈ op_pointers ops → q ∈ all).
Proof.
  unfold parsePatch, op_pointers. destruct ops as [|o ops]; [done|].
  destruct (json_Marshal _); [|by split; [intros q ?%not_elem_of_nil|]].
  assert (∀ l q, q ∈ FieldPathFromJSONPointer <$> distinct l ↔ q ∈ FieldPathFromJSONPointer <$> l) as Hd.
  { intros l q. rewrite !list_elem_of_fmap. by setoid_rewrite elem_of_distinct. }
  destruct (DecodePatch _); (split; [intros q|intros ? q]); apply Hd.
Qed.

Lemma elem_of_dedup (p : FieldPath) l seen :
  p ∈ foldl (λ seen q, if bool_decide (path_string q ∈ path_string <$> seen) then seen else seen ++ [q]) seen l →
  p ∈ seen ∨ p ∈ l.
Proof.
  revert seen; induction l as [|q l IH]; intros seen; cbn; [by left|]. intros [H|?]%IH; [|set_solver].
  case_bool_decide; set_solver.
Qed.

Lemma dedup_elem_of (p : FieldPath) l seen :
  p ∈ seen ∨ p ∈ l →
  path_string p ∈ path_string <$>
    foldl (λ seen q, if bool_decide (path_string q ∈ path_string <$> seen) then seen else seen ++ [q]) seen l.
Proof.
  revert p seen; induction l as [|q l IH]; intros p seen; cbn.
  { intros [?|?%not_elem_of_nil]; [by apply list_elem_of_fmap_2|done]. }
  intros [?|[->|?]%elem_of_cons].
  - apply IH. left. case_bool_decide; set_solver.
  - case_bool_decide as Hq; [|apply IH; left; set_solver].
    apply list_elem_of_fmap in Hq as (q' & E & ?). rewrite E. apply IH. by left.
  - apply IH. by right.
Qed.

Lemma claims_resolveJSONPatch idx p sd q :
  q ∈ patch_pointers p → claims1 sd (path_string q) (resolveJSONPatch idx p).
Proof.
  rewrite patch_pointers_app, elem_of_app. intros Hq. unfold resolveJSONPatch.
  pose proof (parsePatch_pointers (jpHubToSpoke p)) as H1. pose proof (parsePatch_pointers (jpSpokeToHub p)) as H2.
  destruct (parsePatch (jpHubToSpoke p)) as [[[p1 d1] a1] [e1|]]; cbn [tell_patch_error];
    [apply claims_fails, fails_bind_l; [apply fails_fail|intros; solve_grows]|].
  apply claims_bind_r; [solve_grows|intros _].
  destruct (parsePatch (jpSpokeToHub p)) as [[[p2 d2] a2] [e2|]]; cbn [tell_patch_error];
    [apply claims_fails, fails_bind_l; [apply fails_fail|intros; solve_grows]|].
  apply claims_bind_r; [solve_grows|intros _]. apply claims_bind_r; [solve_grows|intros _].
  apply claims_bind_l; [|intros; solve_grows].
  assert (q ∈ a1 ++ a2) as Hin by (rewrite elem_of_app; destruct Hq; [left; by apply H1|right; by apply H2]).
  apply (or_intror (A := q ∈ [])), dedup_elem_of, list_elem_of_fmap in Hin as (q' & -> & Hin).
  eapply claims_iter; [exact Hin| |intros; solve_grows].
  destruct sd.
  - apply claims_bind_l; [apply claims_claim|intros; solve_grows].
  - apply claims_bind_r; [solve_grows|intros _; apply claims_claim].
Qed.

(** Every resolver only adds claims and diagnostics. *)
Lemma grows_resolve_rule r idx hub spoke pol depth : grows (resolve_rule r idx hub spoke pol depth).
Proof.
  destruct r as [st p ack reason si w]; destruct p; cbn;
    unfold resolveFieldRename, resolveScalarToObject, resolveObjectToScalar,
      resolveSingletonArrayToObject, resolveFieldsToMap, resolveMapToFields, resolveToMetadata,
      resolveFromMetadata, resolveEnumRemap, resolveDefaultValue, resolveConstant, resolveDelete,
      resolveJSONPatch, resolveForEach, resolveTypeCoerce, resolveScalarToFields,
      resolveFieldsToScalar, resolveArrayToMapByKey, resolveMapToArrayByKey, resolveNumericScale,
      resolveListJoin, resolveListSplit, resolveQuantity, resolveDuration, resolveStringIntegerPair,
      resolveMapKeyRename, resolveBranchMap, resolveCEL; solve_grows.
Qed.

(** Invert a membership in [rule_claims]. *)
Ltac split_claims H :=
  repeat match type of H with
  | _ ∈ _ :: _ => apply elem_of_cons in H as [[= -> ->]|H]
  | _ ∈ _ ++ _ => apply elem_of_app in H as [H|H]
  | _ ∈ [] => by apply not_elem_of_nil in H
  | _ ∈ _ <$> _ => apply list_elem_of_fmap in H as (? & [= -> ->] & H)
  | _ ∈ subtree _ _ _ => fail 1
  end.

Lemma claims_resolveBranchMap idx hp sp disc branches hub spoke pol depth sd p :
  (sd, p) ∈ rule_claims hub spoke (PBranchMap hp sp disc branches) →
  claims1 sd (path_string p) (resolveBranchMap idx hp sp disc
    ((λ b, (b, (λ r, (r, resolve_rule r)) <$> bRules b)) <$> branches) hub spoke pol depth).
Proof.
  cbn [rule_claims]. rewrite elem_of_app. intros Hin. unfold resolveBranchMap.
  apply claims_lookup; [|intros; solve_grows]. intros hn Hh. apply claims_lookup; [|intros; solve_grows].
  intros sn Hs. apply claims_bind_r; [solve_grows|]. intros _.
  destruct (_ || _); [apply claims_fails, fails_bind_l; [apply fails_fail|intros; solve_grows]|].
  apply claims_bind_r; [solve_grows|]. intros _. destruct Hin as [Hin|Hin].
  - apply claims_bind_l; [|intros; solve_grows].
    apply elem_of_concat in Hin as (ps & (b & -> & Hb)%list_elem_of_fmap & Hp).
    apply (claims_branch_loop sd hub spoke _ _ _ _ _ _ _ _ _ _ b p Hh Hs);
      [rewrite <-list_fmap_compose; by apply (list_elem_of_fmap_2 id branches b)
      |by destruct sd; apply not_elem_of_empty|].
    apply elem_of_app in Hp as [Hp|Hp]; by destruct (proj1 (elem_of_subtree _ _ _ _ _) Hp) as [-> _].
  - apply claims_bind_r; [solve_grows|]. intros st. apply claims_bind_l; [|intros; solve_grows].
    case_bool_decide; [by apply not_elem_of_nil in Hin|]. cbn. unfold both in Hin. split_claims Hin.
    + apply claims_bind_l; [apply claims_claim|intros; solve_grows].
    + apply claims_bind_r; [solve_grows|]. intros _. apply claims_claim.
Qed.

(** Without an error, a rule's paths were free and are its own. *)
Lemma claims_resolve_rule r idx hub spoke pol depth sd p :
  (sd, p) ∈ rule_claims hub spoke (rParams r) →
  claims1 sd (path_string p) (resolve_rule r idx hub spoke pol depth).
Proof.
  destruct r as [st ps ack reason si w]; destruct ps; cbn -[subtree]; unfold both; intros Hin;
    try by apply claims_resolveBranchMap.
  all: try (split_claims Hin; by apply claims_resolveJSONPatch).
  all: split_claims Hin;
    unfold resolveFieldRename, resolveScalarToObject, resolveObjectToScalar,
      resolveSingletonArrayToObject, resolveFieldsToMap, resolveMapToFields, resolveToMetadata,
      resolveFromMetadata, resolveEnumRemap, resolveDefaultValue, resolveConstant, resolveDelete,
      resolveForEach, resolveTypeCoerce, resolveScalarToFields,
      resolveFieldsToScalar, resolveArrayToMapByKey, resolveMapToArrayByKey, resolveNumericScale,
      resolveListJoin, resolveListSplit, resolveQuantity, resolveDuration, resolveStringIntegerPair,
      resolveMapKeyRename, resolveCEL; solve_claims.
Qed.
End resolvers.

(** ** Claims and no others *)

(** [m] claims nothing outside [P]. *)
Definition only (P : side → string → Prop) {A} (m : rs A) : Prop :=
  ∀ s sd k, k ∈ claimed sd (m s).2 → k ∈ claimed sd s ∨ P sd k.

Section only.
Context (P : side → string → Prop).

Lemma only_ret {A} (a : A) : only P (mret a).
Proof. intros s sd k. by left. Qed.

Lemma only_bind {A B} (m : rs A) (f : A → rs B) : only P m → (∀ a, only P (f a)) → only P (m ≫= f).
Proof. intros Hm Hf s sd k. rewrite rs_bind_eq. intros [H|?]%Hf; [by apply Hm|by right]. Qed.

Lemma only_tell d : only P (tell d).
Proof. intros s [] k; by left. Qed.

Lemma only_tell_all ds : only P (tell_all ds).
Proof. intros s [] k; by left. Qed.

Lemma only_fail idx name m : only P (fail idx name m).
Proof. apply only_tell. Qed.
Lemma only_warn idx name m : only P (warn idx name m).
Proof. apply only_tell. Qed.

Lemma only_when b m : only P m → only P (rs_when b m).
Proof. intros Hm. by destruct b; [|apply only_ret]. Qed.

Lemma only_iter {A} (f : A → rs ()) l : (∀ a, a ∈ l → only P (f a)) → only P (rs_iter f l).
Proof.
  induction l as [|a l IH]; intros Hf; cbn; [apply only_ret|].
  apply only_bind; [apply Hf; by left|]. intros _. apply IH. intros. apply Hf. by right.
Qed.

Lemma only_claim sd p idx l : P sd (path_string p) → only P (claim sd p idx l).
Proof.
  intros HP s sd' k. unfold claim. rewrite rs_bind_eq. cbn. case_bool_decide; [by destruct sd'; left|].
  destruct sd, sd'; cbn; set_solver.
Qed.

Lemma only_lookup_node idx name l root p : only P (lookup_node idx name l root p).
Proof.
  unfold lookup_node. destruct (lookupPath root p); [apply only_ret|].
  apply only_bind; [apply only_fail|]. intros. apply only_ret.
Qed.

Lemma only_lookup {B} idx name l root p (f : option JSONSchemaProps → rs B) :
  (∀ n, lookupPath root p = Ok n → only P (f (Some n))) → only P (f None) →
  only P (lookup_node idx name l root p ≫= f).
Proof.
  intros Hf Hg. unfold lookup_node. destruct (lookupPath root p) as [n|e]; [by apply (Hf n)|].
  intros s sd k. rewrite !rs_bind_eq. intros [H|?]%Hg; [|by right]. by apply only_fail in H.
Qed.

Lemma only_kind_at idx name l root p f : (∀ k, only P (f k)) → only P (kind_at idx name l root p f).
Proof.
  intros Hf. unfold kind_at. apply only_bind; [apply only_lookup_node|]. intros [n|]; [|apply only_ret].
  apply only_bind; [done|]. intros. apply only_ret.
Qed.
End only.
#[export] Hint Resolve only_ret only_tell only_tell_all only_fail only_warn only_lookup_node : resolver.

Ltac only_case :=
  match goal with
  | |- only _ (match ?x with _ => _ end) => destruct x
  | |- only _ (rs_when _ _) => apply only_when
  | |- only _ (kind_at _ _ _ _ _ _) => apply only_kind_at; intros ?
  | |- only _ (rs_iter _ _) => apply only_iter; intros ??
  | |- only _ (claim _ _ _ _) => apply only_claim
  | |- only _ (lookup_node _ _ _ _ _ ≫= _) => apply only_lookup; [intros ? ?|]
  | |- only _ (_ ≫= _) => apply only_bind; [|intros ?]
  end.
Ltac solve_only := repeat (cbn beta iota zeta; first [solve [auto with resolver nocore] | only_case]).

(** The leaf texts a list of paths accounts for. *)
Definition owned (claims : list (side * FieldPath)) (sd : side) (k : string) : Prop :=
  ∃ p, (sd, p) ∈ claims ∧ k = path_string p.

Lemma owned_here claims sd p : (sd, p) ∈ claims → owned claims sd (path_string p).
Proof. intros. by exists p. Qed.

Section only_resolvers.
Context `{RO : RangeOrder} `{EX : Externs} `{CX : CompileExterns}.
Context (claims : list (side * FieldPath)).
Notation only := (only (owned claims)).

Lemma only_claimSubtree sd root p node idx l :
  (∀ q, q ∈ subtree sd root p → q ∈ claims) → (∀ n, node = Some n → lookupPath root p = Ok n) →
  only (claimSubtree sd p node idx l).
Proof.
  intros Hp Hn. unfold claimSubtree. apply only_bind; [apply only_claim, owned_here, Hp; by left|]. intros _.
  destruct node as [n|]; [|apply only_ret]. specialize (Hn n eq_refl). apply only_iter. intros lf Hlf.
  apply only_when, only_claim, owned_here, Hp, elem_of_subtree. eauto 7.
Qed.

Lemma only_claimSubtree_at sd root p n idx l :
  lookupPath root p = Ok n → (∀ q, q ∈ subtree sd root p → q ∈ claims) → only (claimSubtree sd p (Some n) idx l).
Proof. intros Hn Hp. apply (only_claimSubtree sd root); [done|]. by intros ? [= <-]. Qed.

Lemma only_claimSubtree_none sd p idx l : (sd, p) ∈ claims → only (claimSubtree sd p None idx l).
Proof. intros Hp. unfold claimSubtree. apply only_bind; [by apply only_claim, owned_here|]. intros. apply only_ret. Qed.

Lemma only_item_kind_at idx name l root p : only (item_kind_at idx name l root p).
Proof. unfold item_kind_at. solve_only. Qed.

Lemma only_check_string idx name l root p : only (check_string idx name l root p).
Proof. unfold check_string. solve_only. Qed.

Lemma only_check_label_key idx name mf k : only (check_label_key idx name mf k).
Proof. unfold check_label_key. solve_only. Qed.

Lemma only_field_kinds idx st root sd l kinds :
  (∀ n p, (n, p) ∈ l → (sd, p) ∈ claims) → only (field_kinds idx st root sd l kinds).
Proof.
  revert kinds; induction l as [|[n p] l IH]; intros kinds Hl; cbn; [apply only_ret|].
  assert (∀ kinds, only (field_kinds idx st root sd l kinds)) as Hrec by (intros; apply IH; set_solver).
  solve_only; try apply Hrec. eapply owned_here, (Hl n). by left.
Qed.

Lemma only_compileSplitJoin idx st pat tm fields root sd :
  (∀ p, p ∈ (map_to_list fields).*2 → (sd, p) ∈ claims) → only (compileSplitJoin idx st pat tm fields root sd).
Proof.
  intros Hf. unfold compileSplitJoin. solve_only. apply only_field_kinds. intros n p Hin.
  apply Hf, list_elem_of_fmap. exists (n, p). split; [done|]. by rewrite range_perm in Hin.
Qed.

Lemma only_requireOpaqueMap idx name l p root : only (requireOpaqueMap idx name l p root).
Proof. unfold requireOpaqueMap. solve_only. Qed.

Lemma only_invert_entries idx name l rev : only (invert_entries idx name l rev).
Proof. revert rev; induction l as [|[h s] l IH]; intros rev; cbn; solve_only. Qed.

Lemma only_invertRenames idx name r : only (invertRenames idx name r).
Proof. unfold invertRenames. solve_only. apply only_invert_entries. Qed.

Lemma only_compile_cel_op idx dir e ds : only (compile_cel_op idx dir e ds).
Proof. unfold compile_cel_op. solve_only. Qed.

Lemma only_tell_patch_error idx dir e : only (tell_patch_error idx dir e).
Proof. unfold tell_patch_error. solve_only. Qed.

Lemma only_check_discriminator idx d l node p : only (check_discriminator idx d l node p).
Proof. unfold check_discriminator. solve_only. Qed.

Lemma only_resolve_branch idx bi hub spoke hp sp hn sn pol depth b rules st :
  lookupPath hub hp = Ok hn → lookupPath spoke sp = Ok sn →
  (∀ q, q ∈ subtree Hub hub (hp ++ [bHubBranch b]) ++ subtree Spoke spoke (sp ++ [bSpokeBranch b]) → q ∈ claims) →
  only (resolve_branch idx bi hp sp hn sn pol depth b rules st).
Proof.
  intros Hh Hs Hc. unfold resolve_branch. apply only_bind; [solve_only|intros _].
  apply only_bind; [solve_only|intros _].
  destruct (sProperties hn !! bHubBranch b) as [hs|] eqn:Eh; [|apply only_ret].
  destruct (sProperties sn !! bSpokeBranch b) as [ss|] eqn:Es; [|apply only_ret].
  apply only_bind; [|intros _; apply only_bind; [|intros _; solve_only]]; apply only_when.
  - apply (only_claimSubtree_at Hub hub); [|intros; apply Hc, elem_of_app; by left].
    apply lookupPath_app. exists hn. split; [done|]. apply lookupPath_cons. eauto using lookupPath_nil.
  - apply (only_claimSubtree_at Spoke spoke); [|intros; apply Hc, elem_of_app; by right].
    apply lookupPath_app. exists sn. split; [done|]. apply lookupPath_cons. eauto using lookupPath_nil.
Qed.

Lemma only_branch_loop idx bi hub spoke hp sp hn sn pol depth bs st :
  lookupPath hub hp = Ok hn → lookupPath spoke sp = Ok sn →
  (∀ b q, b ∈ bs.*1 →
     q ∈ subtree Hub hub (hp ++ [bHubBranch b]) ++ subtree Spoke spoke (sp ++ [bSpokeBranch b]) → q ∈ claims) →
  only (branch_loop idx bi hp sp hn sn pol depth bs st).
Proof.
  intros Hh Hs. revert bi st; induction bs as [|[b rules] bs IH]; intros bi st Hc; cbn; [apply only_ret|].
  apply only_bind; [|intros st'; apply IH; intros b' q Hb; apply Hc; by right].
  eapply only_resolve_branch; [done|done|]. intros q. apply Hc. by left.
Qed.
End only_resolvers.

#[export] Hint Resolve owned_here only_item_kind_at only_check_string only_check_label_key
  only_requireOpaqueMap only_invertRenames only_compile_cel_op only_tell_patch_error
  only_check_discriminator : resolver.

Section only_rules.
Context `{RO : RangeOrder} `{EX : Externs} `{CX : CompileExterns}.

Lemma only_resolveJSONPatch hub spoke idx p :
  only (owned (rule_claims hub spoke (PJSONPatch p))) (resolveJSONPatch idx p).
Proof.
  unfold resolveJSONPatch. cbn [rule_claims]. rewrite patch_pointers_app.
  pose proof (parsePatch_pointers (jpHubToSpoke p)) as H1. pose proof (parsePatch_pointers (jpSpokeToHub p)) as H2.
  destruct (parsePatch (jpHubToSpoke p)) as [[[p1 d1] a1] e1], (parsePatch (jpSpokeToHub p)) as [[[p2 d2] a2] e2].
  solve_only.
  all: match goal with H : _ ∈ foldl _ _ _ |- _ => apply elem_of_dedup in H as [?%not_elem_of_nil|H] end; [done|].
  all: match goal with H : ?q ∈ _ ++ _ |- _ =>
    assert (q ∈ op_pointers (jpHubToSpoke p) ++ op_pointers (jpSpokeToHub p)) as Hin
      by (rewrite elem_of_app in H |- *; destruct H; [left; by apply (proj1 H1)|right; by apply (proj1 H2)]) end.
  all: apply owned_here, elem_of_app; (left + right); by apply list_elem_of_fmap_2.
Qed.

Lemma only_resolveBranchMap hub spoke idx hp sp disc branches pol depth :
  only (owned (rule_claims hub spoke (PBranchMap hp sp disc branches)))
    (resolveBranchMap idx hp sp disc ((λ b, (b, (λ r, (r, resolve_rule r)) <$> bRules b)) <$> branches)
      hub spoke pol depth).
Proof.
  unfold resolveBranchMap. apply only_lookup; [intros hn Hh|]; (apply only_lookup; [intros sn Hs|]).
  2-4: solve_only.
  apply only_bind; [solve_only|intros _]. destruct (_ || _); [solve_only|].
  apply only_bind; [solve_only|intros _]. apply only_bind; [|intros st; apply only_bind; [|intros; solve_only]].
  - apply (only_branch_loop _ _ _ hub spoke); [done|done|]. intros b q.
    rewrite <-list_fmap_compose. intros (b' & -> & Hb)%list_elem_of_fmap Hq. cbn [rule_claims].
    apply elem_of_app. left. apply elem_of_concat. eexists. split; [|exact Hq].
    by apply (list_elem_of_fmap_2 (λ b, subtree Hub hub (hp ++ [bHubBranch b]) ++ _) branches b').
  - cbn [rule_claims]. case_bool_decide; cbn; [apply only_ret|]. apply only_bind; [|intros _];
      apply only_claim, owned_here, elem_of_app; right; unfold both; set_solver.
Qed.

(** A rule claims nothing but its own paths. *)
Lemma only_resolve_rule r idx hub spoke pol depth :
  only (owned (rule_claims hub spoke (rParams r))) (resolve_rule r idx hub spoke pol depth).
Proof.
  destruct r as [st ps ack reason si w]; destruct ps; cbn [resolve_rule rParams];
    try apply only_resolveJSONPatch; try apply only_resolveBranchMap;
    unfold resolveFieldRename, resolveScalarToObject, resolveObjectToScalar,
      resolveSingletonArrayToObject, resolveFieldsToMap, resolveMapToFields, resolveToMetadata,
      resolveFromMetadata, resolveEnumRemap, resolveDefaultValue, resolveConstant, resolveDelete,
      resolveForEach, resolveTypeCoerce, resolveScalarToFields,
      resolveFieldsToScalar, resolveArrayToMapByKey, resolveMapToArrayByKey, resolveNumericScale,
      resolveListJoin, resolveListSplit, resolveQuantity, resolveDuration, resolveStringIntegerPair,
      resolveMapKeyRename, resolveCEL; solve_only.
  all: first [apply only_compileSplitJoin; intros; cbn; set_solver
             |eapply only_claimSubtree_at; [eassumption|]; cbn -[subtree]; set_solver
             |apply only_claimSubtree_none; cbn -[subtree]; unfold subtree; set_solver
             |apply owned_here; unfold both; cbn -[subtree]; set_solver].
Qed.
End only_rules.

(** ** What a build accumulates *)

Definition build_le (b b' : build) : Prop :=
  bHub b ⊆ bHub b' ∧ bSpoke b ⊆ bSpoke b' ∧ bDiags b `prefix_of` bDiags b' ∧
  bH2S b `prefix_of` bH2S b' ∧ bS2H b `prefix_of` bS2H b' ∧ bResults b `prefix_of` bResults b'.

#[export] Instance build_le_preorder : PreOrder build_le.
Proof.
  split; [by intros b|]. intros b1 b2 b3 (?&?&?&?&?&?) (?&?&?&?&?&?).
  split_and!; try (etrans; eassumption); set_solver.
Qed.

Definition build_claimed (sd : side) (b : build) : gset string :=
  match sd with Hub => bHub b | Spoke => bSpoke b end.

Lemma build_le_claimed sd b b' k : build_le b b' → k ∈ build_claimed sd b → k ∈ build_claimed sd b'.
Proof. intros (H1 & H2 & _). destruct sd; cbn; set_solver. Qed.

Lemma build_le_diag b b' d : build_le b b' → d ∈ bDiags b → d ∈ bDiags b'.
Proof. intros (_ & _ & [ds ->] & _). set_solver. Qed.

Lemma build_le_no_errors b b' : build_le b b' → no_errors (bDiags b') → no_errors (bDiags b).
Proof. intros (_ & _ & [ds ->] & _). rewrite no_errors_app. tauto. Qed.

Lemma report_uncovered_le pol sd l b : build_le b (report_uncovered pol sd l b).
Proof. unfold report_uncovered. split_and!; cbn; try done. by eexists. Qed.

Lemma scan_hub_leaf_le pol m b l : build_le b (scan_hub_leaf pol m b l).
Proof.
  unfold scan_hub_leaf. case_bool_decide; [done|].
  destruct (m !! _); [destruct (_ && _)|]; try apply report_uncovered_le.
  split_and!; cbn; try done; try set_solver; by eexists.
Qed.

Lemma scan_spoke_leaf_le pol b l : build_le b (scan_spoke_leaf pol b l).
Proof. unfold scan_spoke_leaf. case_bool_decide; [done|]. apply report_uncovered_le. Qed.

Lemma add_passthrough_le hub spoke b : build_le b (add_passthrough hub spoke b).
Proof. split_and!; cbn; try done; by eexists. Qed.

Lemma foldl_le {A} (f : build → A → build) l b : (∀ b a, build_le b (f b a)) → build_le b (foldl f b l).
Proof. intros Hf. revert b; induction l as [|a l IH]; intros b; cbn; [done|]. etrans; [apply Hf|apply IH]. Qed.

Lemma rule_step_le hub spoke pol depth idx r resolve b :
  grows (resolve idx hub spoke pol depth) → build_le b (rule_step hub spoke pol depth idx r resolve b).
Proof.
  intros Hg. unfold rule_step.
  specialize (Hg {| csHub := bHub b; csSpoke := bSpoke b; csDiags := [] |}).
  destruct (resolve _ _ _ _ _ _) as [[[h2s s2h] v] st]. cbn in Hg. destruct Hg as (H1 & H2 & _).
  destruct (apply_when _ _ _ _ _ _) as [[ds h2s'] s2h'].
  split_and!; cbn; try done; by eexists.
Qed.

Definition resolver_ok (rr : Rule * rule_resolver) : Prop :=
  ∀ idx hub spoke pol depth, grows (rr.2 idx hub spoke pol depth).

Lemma rule_loop_le hub spoke pol depth idx rules b :
  Forall resolver_ok rules → build_le b (rule_loop hub spoke pol depth idx rules b).
Proof.
  intros Hg; revert idx b; induction Hg as [|[r res] rules Hr Hg IH]; intros idx b; cbn; [done|].
  etrans; [|apply IH]. apply rule_step_le, Hr.
Qed.

Lemma rule_loop_app hub spoke pol depth idx rules1 rules2 b :
  rule_loop hub spoke pol depth idx (rules1 ++ rules2) b =
  rule_loop hub spoke pol depth (length rules1 + idx) rules2 (rule_loop hub spoke pol depth idx rules1 b).
Proof.
  revert idx b; induction rules1 as [|[r res] rules1 IH]; intros idx b; cbn; [done|].
  rewrite IH. by replace (length rules1 + S idx) with (S (length rules1 + idx)) by lia.
Qed.

Lemma scan_leftovers_le `{RO : RangeOrder} hub spoke pol b : build_le b (scan_leftovers hub spoke pol b).
Proof.
  unfold scan_leftovers. etrans; [eapply foldl_le, scan_hub_leaf_le|]. apply foldl_le, scan_spoke_leaf_le.
Qed.

Lemma build_with_le `{RO : RangeOrder} rules hub spoke pol depth :
  build_le (rule_loop hub spoke pol depth 0 rules empty_build) (build_with rules hub spoke pol depth).
Proof. unfold build_with. etrans; [apply scan_leftovers_le|apply add_passthrough_le]. Qed.

(** ** Coverage *)

(** The severity of an uncovered leaf under a policy. *)
Definition uncovered_severity (pol : UnmappedFieldPolicy) : Severity :=
  if bool_decide (pol = UnmappedFieldPolicyWarn) then SeverityWarning else SeverityError.

(** A leaf is claimed, or reported with its path and side. *)
Definition accounted (pol : UnmappedFieldPolicy) (b : build) (sd : side) (l : LeafField) : Prop :=
  path_string (lfPath l) ∈ build_claimed sd b ∨
  uncoveredFieldDiag (uncovered_severity pol) sd (path_string (lfPath l)) (lfConstruct l) ∈ bDiags b.

Lemma accounted_le pol b b' sd l : build_le b b' → accounted pol b sd l → accounted pol b' sd l.
Proof. intros Hle [H|H]; [left; by eapply build_le_claimed|right; by eapply build_le_diag]. Qed.

Lemma report_accounted pol sd l b : accounted pol (report_uncovered pol sd l b) sd l.
Proof. right. unfold report_uncovered, uncovered_severity. cbn. set_solver. Qed.

Lemma scan_hub_leaf_accounted pol m b l : accounted pol (scan_hub_leaf pol m b l) Hub l.
Proof.
  unfold scan_hub_leaf. case_bool_decide; [by left|].
  destruct (m !! _); [destruct (_ && _)|]; try apply report_accounted. left. cbn. set_solver.
Qed.

Lemma scan_spoke_leaf_accounted pol b l : accounted pol (scan_spoke_leaf pol b l) Spoke l.
Proof. unfold scan_spoke_leaf. case_bool_decide; [by left|]. apply report_accounted. Qed.

Lemma foldl_accounted pol sd (f : build → LeafField → build) ls b l :
  (∀ b l, build_le b (f b l)) → (∀ b l, accounted pol (f b l) sd l) →
  l ∈ ls → accounted pol (foldl f b ls) sd l.
Proof.
  intros Hle Hf Hin. revert b. induction ls as [|l' ls IH]; intros b; [by apply not_elem_of_nil in Hin|].
  cbn. apply elem_of_cons in Hin as [->|Hin]; [|by apply IH].
  eapply accounted_le; [by apply foldl_le|]. apply Hf.
Qed.

Section coverage.
Context `{RO : RangeOrder}.

Definition schema_of (sd : side) (hub spoke : JSONSchemaProps) : JSONSchemaProps :=
  match sd with Hub => hub | Spoke => spoke end.

Lemma build_accounts rules hub spoke pol depth sd l :
  l ∈ flattenSchema (schema_of sd hub spoke) →
  accounted pol (build_with rules hub spoke pol depth) sd l.
Proof.
  intros Hl. unfold build_with. eapply accounted_le; [apply add_passthrough_le|].
  unfold scan_leftovers. destruct sd; cbn in Hl.
  - eapply accounted_le; [apply foldl_le, scan_spoke_leaf_le|].
    eapply foldl_accounted; [apply scan_hub_leaf_le|apply scan_hub_leaf_accounted|done].
  - eapply foldl_accounted; [apply scan_spoke_leaf_le|apply scan_spoke_leaf_accounted|done].
Qed.

(** An error-free build under the default policy claims every leaf. *)
Lemma build_claims_all rules hub spoke pol depth sd l :
  pol ≠ UnmappedFieldPolicyWarn →
  no_errors (bDiags (build_with rules hub spoke pol depth)) →
  l ∈ flattenSchema (schema_of sd hub spoke) →
  path_string (lfPath l) ∈ build_claimed sd (build_with rules hub spoke pol depth).
Proof.
  intros Hpol Hn Hl. destruct (build_accounts rules hub spoke pol depth sd l Hl) as [H|H]; [done|].
  unfold no_errors in Hn. rewrite Forall_forall in Hn. apply Hn in H.
  unfold uncovered_severity in H. by rewrite bool_decide_eq_false_2 in H by done.
Qed.
(** What the scan claims, it copies: a leaf no rule claimed goes both ways as it is. *)
Definition copied (hub : JSONSchemaProps) (b : build) (k : string) : Prop :=
  ∃ hl, hl ∈ flattenSchema hub ∧ path_string (lfPath hl) = k ∧
    identityOp (lfPath hl) ∈ bH2S b ∧ identityOp (lfPath hl) ∈ bS2H b.

Definition scan_claims (hub : JSONSchemaProps) (b0 b : build) : Prop :=
  ∀ sd k, k ∈ build_claimed sd b → k ∈ build_claimed sd b0 ∨ copied hub b k.

Lemma copied_le hub b b' k : build_le b b' → copied hub b k → copied hub b' k.
Proof.
  intros (_ & _ & _ & [l1 E1] & [l2 E2] & _) (hl & Hl & Hk & H1 & H2). exists hl.
  rewrite E1, E2. set_solver.
Qed.

(** A step whose new claims are copied keeps the invariant. *)
Lemma scan_claims_step hub b0 b b' :
  build_le b b' → (∀ sd k, k ∈ build_claimed sd b' → k ∈ build_claimed sd b ∨ copied hub b' k) →
  scan_claims hub b0 b → scan_claims hub b0 b'.
Proof.
  intros Hle Hnew Hb sd k Hk. destruct (Hnew sd k Hk) as [Hk'|?]; [|by right].
  destruct (Hb sd k Hk') as [?|?]; [by left|right]. by eapply copied_le.
Qed.

Lemma scan_hub_leaf_claims hub pol m b0 b l :
  l ∈ flattenSchema hub → scan_claims hub b0 b → scan_claims hub b0 (scan_hub_leaf pol m b l).
Proof.
  intros Hl. apply scan_claims_step; [apply scan_hub_leaf_le|]. intros sd k. unfold scan_hub_leaf.
  case_bool_decide; [by left|]. destruct (m !! _) as [sl|]; [|by left; destruct sd].
  destruct (_ && _); [|by left; destruct sd]. intros Hk.
  assert (k = path_string (lfPath l) ∨ k ∈ build_claimed sd b) as [->|?] by (destruct sd; cbn in *; set_solver);
    [right|by left].
  exists l. cbn. set_solver.
Qed.

Lemma scan_spoke_leaf_claims hub pol b0 b l :
  scan_claims hub b0 b → scan_claims hub b0 (scan_spoke_leaf pol b l).
Proof.
  apply scan_claims_step; [apply scan_spoke_leaf_le|]. intros sd k. unfold scan_spoke_leaf.
  case_bool_decide; left; by destruct sd.
Qed.

Lemma foldl_inv {A B} (P : B → Prop) (f : B → A → B) l b :
  P b → (∀ b a, a ∈ l → P b → P (f b a)) → P (foldl f b l).
Proof. revert b; induction l as [|a l IH]; intros b Hb Hf; cbn; [done|]. apply IH; set_solver. Qed.

Lemma build_with_claims rules hub spoke pol depth :
  scan_claims hub (rule_loop hub spoke pol depth 0 rules empty_build) (build_with rules hub spoke pol depth).
Proof.
  unfold build_with. set (b0 := rule_loop _ _ _ _ _ _ _).
  eapply scan_claims_step; [apply add_passthrough_le|by left; destruct sd|].
  unfold scan_leftovers. apply foldl_inv; [apply foldl_inv; [by left|]|].
  - intros b l Hl. by apply scan_hub_leaf_claims.
  - intros b l _. apply scan_spoke_leaf_claims.
Qed.

End coverage.

(** ** Exclusive claims *)

(** What an error-free rule step did: its resolver's claims are new. *)
Lemma rule_step_claims hub spoke pol depth idx r resolve b sd p :
  grows (resolve idx hub spoke pol depth) →
  claims1 sd (path_string p) (resolve idx hub spoke pol depth) →
  no_errors (bDiags (rule_step hub spoke pol depth idx r resolve b)) →
  path_string p ∉ build_claimed sd b ∧
  path_string p ∈ build_claimed sd (rule_step hub spoke pol depth idx r resolve b).
Proof.
  intros Hg Hc. unfold rule_step.
  specialize (Hc {| csHub := bHub b; csSpoke := bSpoke b; csDiags := [] |}).
  destruct (resolve _ _ _ _ _ _) as [[[h2s s2h] v] st]. cbn in Hc.
  destruct (apply_when _ _ _ _ _ _) as [[ds h2s'] s2h']. cbn.
  rewrite !no_errors_app. intros (_ & Hst & _).
  destruct (Hc Hst) as [H1 H2]. by destruct sd.
Qed.

(** Splitting the rule loop at a rule. *)
Lemma rule_loop_at hub spoke pol depth rules i r res :
  rules !! i = Some (r, res) →
  rule_loop hub spoke pol depth 0 rules empty_build =
  rule_loop hub spoke pol depth (S i) (drop (S i) rules)
    (rule_step hub spoke pol depth i r res (rule_loop hub spoke pol depth 0 (take i rules) empty_build)).
Proof.
  intros Hi. rewrite <-(take_drop_middle rules i (r, res) Hi) at 1. rewrite rule_loop_app. cbn.
  rewrite length_take_le by (apply lookup_lt_Some in Hi; lia). by rewrite Nat.add_0_r.
Qed.

Section exclusive.
Context `{RO : RangeOrder} `{EX : Externs} `{CX : CompileExterns}.

Definition with_resolvers (rules : list Rule) : list (Rule * rule_resolver) :=
  (λ r, (r, resolve_rule r)) <$> rules.

Lemma with_resolvers_ok rules : Forall resolver_ok (with_resolvers rules).
Proof.
  apply Forall_fmap, Forall_forall. intros r _ idx hub spoke pol depth. apply grows_resolve_rule.
Qed.

Lemma with_resolvers_lookup rules i r :
  rules !! i = Some r → with_resolvers rules !! i = Some (r, resolve_rule r).
Proof. intros H. unfold with_resolvers. by rewrite list_lookup_fmap, H. Qed.

(** The build when rule [i] runs. *)
Definition build_before (rules : list Rule) (hub spoke : JSONSchemaProps) (pol : UnmappedFieldPolicy)
    (depth i : nat) : build :=
  rule_loop hub spoke pol depth 0 (take i (with_resolvers rules)) empty_build.

Lemma error_free_step rules hub spoke pol depth i r :
  rules !! i = Some r → no_errors (bDiags (resolveAndBuildOps rules hub spoke pol depth)) →
  let b := rule_step hub spoke pol depth i r (resolve_rule r) (build_before rules hub spoke pol depth i) in
  no_errors (bDiags b) ∧ build_le b (resolveAndBuildOps rules hub spoke pol depth).
Proof.
  intros Hi Hn b. assert (build_le b (resolveAndBuildOps rules hub spoke pol depth)) as Hle.
  { etrans; [|apply build_with_le].
    rewrite (rule_loop_at _ _ _ _ (with_resolvers rules) i r (resolve_rule r))
      by (by apply with_resolvers_lookup).
    apply rule_loop_le, Forall_drop, with_resolvers_ok. }
  split; [|done]. by eapply build_le_no_errors.
Qed.

(** The claims of an earlier rule are there when a later rule runs. *)
Lemma earlier_claims rules hub spoke pol depth i j r sd p :
  no_errors (bDiags (resolveAndBuildOps rules hub spoke pol depth)) →
  rules !! i = Some r → i < j → j ≤ length rules → (sd, p) ∈ rule_claims hub spoke (rParams r) →
  path_string p ∈ build_claimed sd (build_before rules hub spoke pol depth j).
Proof.
  intros Hn Hi Hij Hj Hp.
  destruct (error_free_step _ _ _ _ _ _ _ Hi Hn) as [Hs _].
  eapply (build_le_claimed _
    (rule_step hub spoke pol depth i r (resolve_rule r) (build_before rules hub spoke pol depth i))).
  - unfold build_before. rewrite (rule_loop_at _ _ _ _ (take j (with_resolvers rules)) i r (resolve_rule r)).
    + rewrite take_take, (Nat.min_l i j) by lia. apply rule_loop_le, Forall_drop, Forall_take, with_resolvers_ok.
    + rewrite lookup_take_lt by done. by apply with_resolvers_lookup.
  - eapply rule_step_claims; [apply grows_resolve_rule|by apply claims_resolve_rule|done].
Qed.

Lemma rules_claim_once rules hub spoke pol depth i j r r' sd p q :
  no_errors (bDiags (resolveAndBuildOps rules hub spoke pol depth)) →
  rules !! i = Some r → rules !! j = Some r' → i ≠ j →
  (sd, p) ∈ rule_claims hub spoke (rParams r) → (sd, q) ∈ rule_claims hub spoke (rParams r') →
  path_string p ≠ path_string q.
Proof.
  intros Hn. assert (∀ i j r r' p q, i < j → rules !! i = Some r → rules !! j = Some r' →
    (sd, p) ∈ rule_claims hub spoke (rParams r) → (sd, q) ∈ rule_claims hub spoke (rParams r') →
    path_string p ≠ path_string q) as Hlt.
  { clear i j r r' p q. intros i j r r' p q Hij Hi Hj Hp Hq Heq.
    destruct (error_free_step _ _ _ _ _ _ _ Hj Hn) as [Hs _].
    eapply rule_step_claims in Hs as [Hnew _]; [|apply grows_resolve_rule|by apply claims_resolve_rule].
    apply Hnew. rewrite <-Heq. apply (earlier_claims _ _ _ _ _ i j r); try done.
    apply lookup_lt_Some in Hj. lia. }
  intros Hi Hj Hne Hp Hq. destruct (Nat.lt_total i j) as [H|[H|H]]; [by eapply Hlt|done|].
  intros Heq. by eapply (Hlt j i r' r q p).
Qed.
End exclusive.

(** ** Every leaf is handled *)

Section handled.
Context `{RO : RangeOrder} `{EX : Externs} `{CX : CompileExterns}.

Lemma rule_step_owned hub spoke pol depth idx r b sd k :
  k ∈ build_claimed sd (rule_step hub spoke pol depth idx r (resolve_rule r) b) →
  k ∈ build_claimed sd b ∨ owned (rule_claims hub spoke (rParams r)) sd k.
Proof.
  unfold rule_step. pose proof (only_resolve_rule r idx hub spoke pol depth) as Ho.
  specialize (Ho {| csHub := bHub b; csSpoke := bSpoke b; csDiags := [] |} sd k).
  destruct (resolve_rule _ _ _ _ _ _ _) as [[[h2s s2h] v] st]. cbn in Ho.
  destruct (apply_when _ _ _ _ _ _) as [[ds h2s'] s2h']. by destruct sd.
Qed.

(** What the rule loop claims, its rules own. *)
Lemma rule_loop_owned hub spoke pol depth idx rules b sd k :
  k ∈ build_claimed sd (rule_loop hub spoke pol depth idx (with_resolvers rules) b) →
  k ∈ build_claimed sd b ∨ ∃ r, r ∈ rules ∧ owned (rule_claims hub spoke (rParams r)) sd k.
Proof.
  revert idx b; induction rules as [|r rules IH]; intros idx b; [by left|]. cbn.
  intros [H|(r' & ? & ?)]%IH; [|right; exists r'; set_solver].
  apply rule_step_owned in H as [?|?]; [by left|right; exists r; set_solver].
Qed.

(** No other declared or claimed path is spelled like the leaf's: claims are kept
    by dotted text, so [a.b] and [a] then [b] would be the same claim. *)
Definition unambiguous (rules : list Rule) (hub spoke : JSONSchemaProps) (sd : side) (p : FieldPath) : Prop :=
  (∀ hl, hl ∈ flattenSchema hub → path_string (lfPath hl) = path_string p → lfPath hl = p) ∧
  (∀ r q, r ∈ rules → (sd, q) ∈ rule_claims hub spoke (rParams r) → path_string q = path_string p → q = p).

(** The ways a leaf is accounted for: a rule owns it, or it is copied as it is in
    both directions, or it is reported as uncovered. *)
Definition leaf_owned (rules : list Rule) (hub spoke : JSONSchemaProps) (sd : side) (p : FieldPath) : Prop :=
  ∃ r, r ∈ rules ∧ (sd, p) ∈ rule_claims hub spoke (rParams r).
Definition leaf_copied (b : build) (p : FieldPath) : Prop := identityOp p ∈ bH2S b ∧ identityOp p ∈ bS2H b.
Definition leaf_reported (pol : UnmappedFieldPolicy) (b : build) (sd : side) (l : LeafField) : Prop :=
  uncoveredFieldDiag (uncovered_severity pol) sd (path_string (lfPath l)) (lfConstruct l) ∈ bDiags b.

Lemma every_leaf_handled rules hub spoke pol depth sd l :
  l ∈ flattenSchema (schema_of sd hub spoke) → unambiguous rules hub spoke sd (lfPath l) →
  let b := resolveAndBuildOps rules hub spoke pol depth in
  leaf_owned rules hub spoke sd (lfPath l) ∨ leaf_copied b (lfPath l) ∨ leaf_reported pol b sd l.
Proof.
  intros Hl [Hu1 Hu2] b. destruct (build_accounts (with_resolvers rules) hub spoke pol depth sd l Hl) as [Hk|Hd];
    [|by do 2 right].
  apply build_with_claims in Hk as [Hk|(hl & Hhl & Ht & Hc)].
  - left. apply rule_loop_owned in Hk as [H|(r & Hr & q & Hq & E)]; [destruct sd; by apply not_elem_of_empty in H|].
    exists r. split; [done|]. by rewrite <-(Hu2 r q Hr Hq).
  - right; left. unfold leaf_copied. by rewrite <-(Hu1 hl Hhl Ht).
Qed.

(** Without errors, a report is a warning, under the [Warn] policy. *)
Lemma reported_warn pol b sd l :
  no_errors (bDiags b) → leaf_reported pol b sd l → pol = UnmappedFieldPolicyWarn.
Proof.
  unfold no_errors, leaf_reported, uncovered_severity. rewrite Forall_forall. intros Hn Hd%Hn.
  by case_bool_decide.
Qed.

(** Names without a dot are never ambiguous. *)
Definition dotless (p : FieldPath) : Prop := Forall (λ s, has_char "."%char s = false) p ∧ p ≠ [""].

Lemma dotless_unambiguous rules hub spoke sd p :
  dotless p → (∀ hl, hl ∈ flattenSchema hub → dotless (lfPath hl)) →
  (∀ r q, r ∈ rules → (sd, q) ∈ rule_claims hub spoke (rParams r) → dotless q) →
  unambiguous rules hub spoke sd p.
Proof.
  intros [??] Hh Hr. split; intros.
  - destruct (Hh hl) as [??]; [done|]. by apply path_string_inj.
  - destruct (Hr r q) as [??]; [done..|]. by apply path_string_inj.
Qed.
End handled.

(** ** Losses *)

(** A verdict with no loss in it. *)
Definition lossless (v : LosslessVerdict) : bool := lvHubToSpoke v && lvSpokeToHub v.

Lemma lossy_diags_acknowledged idx r v :
  no_errors (lossy_diags idx r v) → rAcknowledgeLossy r = false → lossless v = true.
Proof.
  unfold lossy_diags, lossless. intros Hn Hack. rewrite Hack in Hn.
  destruct (lvHubToSpoke v), (lvSpokeToHub v); cbn in *; try done;
    apply no_errors_cons in Hn as [[=] _].
Qed.

Lemma lossless_and v w : lossless (verdict_and v w) = lossless v && lossless w.
Proof. destruct v as [[] []], w as [[] []]; done. Qed.

(** The result a step records, and the verdict it folds in. *)
Lemma rule_step_result hub spoke pol depth idx r resolve b :
  no_errors (bDiags (rule_step hub spoke pol depth idx r resolve b)) →
  ∃ rr, bResults (rule_step hub spoke pol depth idx r resolve b) = bResults b ++ [rr] ∧
    bVerdict (rule_step hub spoke pol depth idx r resolve b) = verdict_and (bVerdict b) (rrLossless rr) ∧
    (rAcknowledgeLossy r = false → lossless (rrLossless rr) = true).
Proof.
  unfold rule_step. destruct (resolve _ _ _ _ _ _) as [[[h2s s2h] v] st].
  destruct (apply_when _ _ _ _ _ _) as [[ds h2s'] s2h']. cbn. rewrite !no_errors_app.
  intros (_ & _ & Hl & _). eexists. split; [done|]. cbn. split; [done|]. by eapply lossy_diags_acknowledged.
Qed.

(** The results of an error-free rule loop, in order, with their verdicts. *)
Lemma rule_loop_results hub spoke pol depth idx rules b :
  Forall resolver_ok rules → no_errors (bDiags (rule_loop hub spoke pol depth idx rules b)) →
  ∃ rrs, bResults (rule_loop hub spoke pol depth idx rules b) = bResults b ++ rrs ∧
    bVerdict (rule_loop hub spoke pol depth idx rules b) =
      foldl verdict_and (bVerdict b) (rrLossless <$> rrs) ∧
    Forall2 (λ r rr, rAcknowledgeLossy r = false → lossless (rrLossless rr) = true) rules.*1 rrs.
Proof.
  intros Hok; revert idx b; induction Hok as [|[r res] rules Hr Hok IH]; intros idx b Hn; cbn in *.
  { exists []. by rewrite app_nil_r. }
  destruct (IH _ _ Hn) as (rrs & H1 & H2 & H3).
  destruct (rule_step_result hub spoke pol depth idx r res b) as (rr & Ha & Hb & Hc).
  { eapply build_le_no_errors; [|done]. by apply rule_loop_le. }
  exists (rr :: rrs). rewrite H1, H2, Ha, Hb, <-app_assoc. split_and!; [done..|]. by constructor.
Qed.

(** The leftover scan touches the verdict only when it reports an error. *)
Lemma report_uncovered_verdict pol sd l b :
  no_errors (bDiags (report_uncovered pol sd l b)) → bVerdict (report_uncovered pol sd l b) = bVerdict b.
Proof.
  unfold report_uncovered. cbn. rewrite no_errors_app, no_errors_cons. intros (_ & Hd & _).
  by destruct (bool_decide _).
Qed.

Lemma foldl_verdict {A} (f : build → A → build) l b :
  (∀ b a, build_le b (f b a)) →
  (∀ b a, no_errors (bDiags (f b a)) → bVerdict (f b a) = bVerdict b ∧ bResults (f b a) = bResults b) →
  no_errors (bDiags (foldl f b l)) →
  bVerdict (foldl f b l) = bVerdict b ∧ bResults (foldl f b l) = bResults b.
Proof.
  intros Hle Hf. revert b; induction l as [|a l IH]; intros b Hn; cbn in *; [done|].
  destruct (IH _ Hn) as [-> ->]. apply Hf. eapply build_le_no_errors; [|done]. by apply foldl_le.
Qed.

Lemma scan_leaf_verdicts pol m b l :
  (no_errors (bDiags (scan_hub_leaf pol m b l)) →
    bVerdict (scan_hub_leaf pol m b l) = bVerdict b ∧ bResults (scan_hub_leaf pol m b l) = bResults b) ∧
  (no_errors (bDiags (scan_spoke_leaf pol b l)) →
    bVerdict (scan_spoke_leaf pol b l) = bVerdict b ∧ bResults (scan_spoke_leaf pol b l) = bResults b).
Proof.
  unfold scan_hub_leaf, scan_spoke_leaf. split; intros Hn; case_bool_decide; try done;
    [destruct (m !! _); [destruct (_ && _)|]|]; try done; by rewrite report_uncovered_verdict.
Qed.

Section losses.
Context `{RO : RangeOrder} `{EX : Externs} `{CX : CompileExterns}.

(** An error-free build has one result per rule; an unacknowledged rule has no
    loss, and the verdict is the conjunction of the rules' verdicts. *)
Lemma build_results rules hub spoke pol depth :
  no_errors (bDiags (resolveAndBuildOps rules hub spoke pol depth)) →
  let b := resolveAndBuildOps rules hub spoke pol depth in
  bVerdict b = foldl verdict_and lossless_both (rrLossless <$> bResults b) ∧
  Forall2 (λ r rr, rAcknowledgeLossy r = false → lossless (rrLossless rr) = true) rules (bResults b).
Proof.
  unfold resolveAndBuildOps, build_with, scan_leftovers. cbn. fold (with_resolvers rules).
  set (b := rule_loop hub spoke pol depth 0 (with_resolvers rules) empty_build). intros Hn.
  set (b' := foldl (scan_hub_leaf pol (leaves_by_path (flattenSchema spoke))) b (flattenSchema hub)) in *.
  assert (no_errors (bDiags b')) as Hn'.
  { eapply build_le_no_errors; [|exact Hn]. apply foldl_le, scan_spoke_leaf_le. }
  assert (no_errors (bDiags b)) as Hnb.
  { eapply build_le_no_errors; [|exact Hn']. apply foldl_le, scan_hub_leaf_le. }
  destruct (foldl_verdict (scan_spoke_leaf pol) (flattenSchema spoke) b') as [-> ->];
    [apply scan_spoke_leaf_le|by intros; apply (scan_leaf_verdicts pol ∅)|done|].
  unfold b'.
  destruct (foldl_verdict (scan_hub_leaf pol (leaves_by_path (flattenSchema spoke))) (flattenSchema hub) b)
    as [-> ->]; [apply scan_hub_leaf_le|by intros; apply scan_leaf_verdicts|done|].
  unfold b. destruct (rule_loop_results hub spoke pol depth 0 (with_resolvers rules) empty_build)
    as (rrs & -> & -> & Hrr); [apply with_resolvers_ok|done|].
  split; [done|]. cbn. assert ((with_resolvers rules).*1 = rules) as Heq.
  { unfold with_resolvers. rewrite <-list_fmap_compose. apply list_fmap_id. }
  by rewrite Heq in Hrr.
Qed.

Lemma foldl_verdict_lossless v vs :
  lossless (foldl verdict_and v vs) = lossless v && forallb lossless vs.
Proof.
  revert v; induction vs as [|w vs IH]; intros v; cbn; [by rewrite andb_true_r|].
  by rewrite IH, lossless_and, andb_assoc.
Qed.
End losses.

(** ** Nesting *)

(** The rules nested directly in a rule. *)
Definition subrules (r : Rule) : list Rule :=
  match rParams r with
  | PForEach _ _ rules => rules
  | PBranchMap _ _ _ bs => concat (bRules <$> bs)
  | _ => []
  end.

Lemma rule_ind' (P : Rule → Prop) : (∀ r, Forall P (subrules r) → P r) → ∀ r, P r.
Proof.
  intros H. fix IH 1. intros [st p ack reason si w]. apply H. destruct p; cbn; try constructor.
  - induction feRules; constructor; auto.
  - induction bmBranches as [|[h s hd sdv rules] bs IHbs]; cbn; [constructor|].
    apply Forall_app. split; [|done]. induction rules; constructor; auto.
Qed.

(** How many [ForEach] rules lie above one another. *)
Fixpoint foreach_depth (r : Rule) : nat :=
  let '(mkRule _ p _ _ _ _) := r in
  match p with
  | PForEach _ _ rules => S (max_list (foreach_depth <$> rules))
  | PBranchMap _ _ _ bs => max_list ((λ b, max_list (foreach_depth <$> bRules b)) <$> bs)
  | _ => 0
  end.

Lemma max_list_le n l : Forall (λ m, m ≤ n) l → max_list l ≤ n.
Proof. induction 1; cbn; lia. Qed.

(** Without an error, [Q]. *)
Definition ensures {A} (m : rs A) (Q : Prop) : Prop := ∀ s, no_errors (csDiags (m s).2) → Q.

Lemma ensures_fails {A} (m : rs A) Q : fails m → ensures m Q.
Proof. intros Hm s Hn. by apply Hm in Hn. Qed.

Lemma ensures_bind_l {A B} (m : rs A) (f : A → rs B) Q :
  ensures m Q → (∀ a, grows (f a)) → ensures (m ≫= f) Q.
Proof.
  intros Hm Hf s. rewrite rs_bind_eq. intros Hn. apply (Hm s). eapply extends_no_errors; [apply Hf|done].
Qed.

Lemma ensures_bind_r {A B} (m : rs A) (f : A → rs B) Q : (∀ a, ensures (f a) Q) → ensures (m ≫= f) Q.
Proof. intros Hf s. rewrite rs_bind_eq. apply Hf. Qed.

Lemma ensures_tell_all ds : ensures (tell_all ds) (no_errors ds).
Proof. intros s. cbn. rewrite no_errors_app. tauto. Qed.

Lemma no_errors_qualify w hp sp ds : no_errors (qualify_diag w hp sp <$> ds) ↔ no_errors ds.
Proof. unfold no_errors. by rewrite Forall_fmap. Qed.

Lemma ensures_fail_bind {A} idx name m (f : () → rs A) Q : (∀ a, grows (f a)) → ensures (fail idx name m ≫= f) Q.
Proof. intros Hf. apply ensures_fails, fails_bind_l; [apply fails_fail|done]. Qed.

(** A failed lookup is reported, so past it the node is there. *)
Lemma ensures_lookup {A} idx name l root p (f : option JSONSchemaProps → rs A) Q :
  grows (f None) → (∀ n, lookupPath root p = Ok n → ensures (f (Some n)) Q) →
  ensures (lookup_node idx name l root p ≫= f) Q.
Proof.
  intros Hg Hf s Hn. rewrite rs_bind_eq in Hn. unfold lookup_node in Hn.
  destruct (lookupPath root p) as [n|e] eqn:Hl; [by eapply Hf|]. exfalso.
  eapply fails_fail. eapply extends_no_errors; [apply Hg|]. rewrite rs_bind_eq in Hn. exact Hn.
Qed.

Section nesting.
Context `{RO : RangeOrder} `{EX : Externs} `{CX : CompileExterns}.

(** In an error-free build every rule's resolver was error-free. *)
Lemma error_free_resolver rules hub spoke pol depth r :
  no_errors (bDiags (resolveAndBuildOps rules hub spoke pol depth)) → r ∈ rules →
  ∃ idx s, no_errors (csDiags (resolve_rule r idx hub spoke pol depth s).2).
Proof.
  intros Hn [i Hi]%list_elem_of_lookup. destruct (error_free_step _ _ _ _ _ _ _ Hi Hn) as [Hs _].
  unfold rule_step in Hs.
  set (s := {| csHub := _; csSpoke := _; csDiags := [] |}) in Hs. exists i, s.
  destruct (resolve_rule _ _ _ _ _ _ s) as [[[h2s s2h] v] st].
  destruct (apply_when _ _ _ _ _ _) as [[ds h2s'] s2h']. cbn in *.
  rewrite !no_errors_app in Hs. tauto.
Qed.

(** A [ForEach] that resolves is above the limit, and its nested build is error-free. *)
Lemma resolveForEach_ensures idx hp sp rules hub spoke pol depth :
  ensures (resolveForEach idx hp sp rules hub spoke pol depth)
    (depth < MaxForEachDepth ∧
     ∃ hubItem spokeItem, no_errors (bDiags (build_with rules hubItem spokeItem pol (S depth)))).
Proof.
  unfold resolveForEach. destruct (MaxForEachDepth <=? depth) eqn:Hd.
  { apply ensures_fail_bind. intros. apply grows_ret. }
  apply Nat.leb_gt in Hd. do 4 (apply ensures_bind_r; intros ?).
  repeat case_match; try (apply ensures_fail_bind; intros; apply grows_ret).
  apply ensures_bind_l; [|intros; apply grows_ret].
  intros s Hn%ensures_tell_all. apply no_errors_qualify in Hn. eauto.
Qed.

(** A branch that resolves has an error-free nested build, when it nests rules. *)
Lemma resolve_branch_ensures idx bi hp sp hn sn pol depth b rules st :
  ensures (resolve_branch idx bi hp sp hn sn pol depth b rules st)
    (rules = [] ∨ ∃ hubSchema spokeSchema, no_errors (bDiags (build_with rules hubSchema spokeSchema pol depth))).
Proof.
  unfold resolve_branch. cbn beta zeta.
  destruct (sProperties hn !! bHubBranch b) as [hs|].
  2: { rewrite (bool_decide_eq_true_2 (@None JSONSchemaProps = None)) by done. apply ensures_fail_bind. intros. solve_grows. }
  apply ensures_bind_r; intros _. destruct (sProperties sn !! bSpokeBranch b) as [ss|].
  2: { rewrite (bool_decide_eq_true_2 (@None JSONSchemaProps = None)) by done. apply ensures_fail_bind. intros. solve_grows. }
  do 3 (apply ensures_bind_r; intros _). destruct rules as [|r rules]; [by intros ? _; left|].
  apply ensures_bind_l; [|intros; solve_grows].
  intros s Hn%ensures_tell_all. apply no_errors_qualify in Hn. eauto.
Qed.

Lemma branch_loop_ensures idx bi hp sp hn sn pol depth bs st :
  ensures (branch_loop idx bi hp sp hn sn pol depth bs st)
    (Forall (λ br, br.2 = [] ∨ ∃ hubSchema spokeSchema,
       no_errors (bDiags (build_with br.2 hubSchema spokeSchema pol depth))) bs).
Proof.
  revert bi st; induction bs as [|[b rules] bs IH]; intros bi st s Hn; [constructor|].
  constructor.
  - cbn. revert s Hn. cbn. apply ensures_bind_l; [apply resolve_branch_ensures|intros; apply grows_branch_loop].
  - revert s Hn. cbn. apply ensures_bind_r. intros. apply IH.
Qed.

Lemma resolveBranchMap_ensures idx hp sp disc bs hub spoke pol depth :
  ensures (resolveBranchMap idx hp sp disc bs hub spoke pol depth)
    (Forall (λ br, br.2 = [] ∨ ∃ hubSchema spokeSchema,
       no_errors (bDiags (build_with br.2 hubSchema spokeSchema pol depth))) bs).
Proof.
  unfold resolveBranchMap. cbn beta zeta.
  pose proof grows_branch_loop as Hloop.
  assert (∀ d l n p, grows (check_discriminator idx d l n p)) by (intros; apply grows_check_discriminator).
  apply ensures_lookup; [solve_grows|intros hn _].
  apply ensures_lookup; [solve_grows|intros sn _]. apply ensures_bind_r; intros _.
  destruct (_ || _); [apply ensures_fail_bind; intros; apply grows_ret|]. apply ensures_bind_r; intros _.
  apply ensures_bind_l; [apply branch_loop_ensures|intros; solve_grows].
Qed.

(** The nesting limit: an error-free build nests [ForEach] rules at most two deep. *)
Lemma resolve_rule_depth r idx hub spoke pol depth :
  ensures (resolve_rule r idx hub spoke pol depth) (foreach_depth r ≤ MaxForEachDepth - depth).
Proof.
  revert idx hub spoke pol depth. induction r as [r IH] using rule_ind'. intros idx hub spoke pol depth.
  assert (∀ rules hub spoke depth, (∀ r', r' ∈ rules → r' ∈ subrules r) →
    no_errors (bDiags (build_with ((λ r, (r, resolve_rule r)) <$> rules) hub spoke pol depth)) →
    max_list (foreach_depth <$> rules) ≤ MaxForEachDepth - depth) as Hnested.
  { intros rules hub' spoke' depth' Hsub Hn. apply max_list_le, Forall_fmap, Forall_forall. intros r' Hr'.
    destruct (error_free_resolver _ _ _ _ _ _ Hn Hr') as (i & s & Hs).
    rewrite Forall_forall in IH. by apply (IH r' (Hsub r' Hr') i hub' spoke' pol depth' s). }
  destruct r as [st p ack reason si w]; destruct p; intros s Hn; try (cbn; lia).
  - apply resolveForEach_ensures in Hn as (Hd & hi & sp & Hn). apply Hnested in Hn; [|done].
    change (S (max_list (foreach_depth <$> feRules)) ≤ MaxForEachDepth - depth). lia.
  - apply resolveBranchMap_ensures in Hn. rewrite Forall_fmap in Hn.
    change (max_list ((λ b, max_list (foreach_depth <$> bRules b)) <$> bmBranches) ≤ MaxForEachDepth - depth).
    apply max_list_le, Forall_fmap, Forall_forall. intros b Hb. rewrite Forall_forall in Hn.
    destruct (Hn b Hb) as [He|(hs & ss & He)]; cbn in *.
    + apply fmap_nil_inv in He. rewrite He. cbn. lia.
    + apply Hnested in He; [done|]. intros r' Hr'. apply elem_of_concat. eexists.
      split; [by apply list_elem_of_fmap_2|done].
Qed.
End nesting.
