(* ===== verification/PlanTheory.v ===== *)
(** Whole conversions: what [Convert] leaves alone, and when converting to the
    spoke version and back gives an object's fields back.

    A plan is seen as a list of [opPair]s: the two operations one rule (or one
    automatically covered leaf) contributes, with the field each side reads. *)
From S2P Require Import Prelude Float64 Value Json JsonTheory Duration Path Schema Rules Coerce Passthrough Ops Convert OpsTheory RoundTrip.

(** ** The starting output *)

(** Fields the starting output has nothing at. *)
Definition outside_baseline (p : FieldPath) : Prop :=
  match p with k :: _ => k ≠ "kind" ∧ k ≠ "metadata" | [] => False end.

Lemma baseline_outside o p : outside_baseline p → getValue (baseline o) p = None.
Proof.
  destruct p as [|k p]; [done|]. intros [Hk Hm]. unfold baseline. rewrite getValue_cons.
  rewrite lookup_insert_ne by done. destruct (o !! "kind"); [by rewrite lookup_singleton_ne|done].
Qed.

Lemma baseline_metadata o : is_Some (baseline o !! "metadata").
Proof. unfold baseline. rewrite lookup_insert_eq. eauto. Qed.

(** A field the object lacks is not in the starting output either. *)
Lemma baseline_absent o p :
  is_Some (o !! "metadata") → getValue o p = None → getValue (baseline o) p = None.
Proof.
  intros [md Hmd]. destruct p as [|k p]; [done|]. rewrite !getValue_cons. intros Ho. unfold baseline.
  rewrite Hmd. destruct (decide (k = "metadata")) as [->|Hne].
  - rewrite lookup_insert_eq. rewrite Hmd in Ho. cbn in *.
    destruct md; try (by rewrite deepCopyValue_id).
    destruct p as [|k p]; [done|]. apply (getValue_empty (k :: p)). done.
  - rewrite lookup_insert_ne by done. destruct (o !! "kind") as [kd|] eqn:Hkd; [|done].
    destruct (decide (k = "kind")) as [->|Hk]; [by rewrite lookup_singleton_eq, <-Hkd|].
    by rewrite lookup_singleton_ne.
Qed.

(** ** Pairs of operations *)

Record opPair := { opFwd : Op; opBwd : Op; opHub : FieldPath; opSpoke : FieldPath }.

Section pairs.
Context `{RO : RangeOrder} `{EX : Externs}.

(** Without its source field, the operation does nothing. *)
Definition skips (op : Op) (p : FieldPath) : Prop :=
  ∀ i o c, getValue i p = None → apply_op op (new_context i o) = Ok c → ecOutput c = o.

(** The pair moves one field over and back for the object [i]. *)
Record faithful (pr : opPair) (i : obj) : Prop := {
  faithful_sets : sets_only (opFwd pr) = true;
  faithful_fwd : ∀ x, may_write (opFwd pr) x → x = opSpoke pr;
  faithful_bwd : ∀ x, may_write (opBwd pr) x → x = opHub pr;
  faithful_skip_fwd : skips (opFwd pr) (opHub pr);
  faithful_skip_bwd : skips (opBwd pr) (opSpoke pr);
  faithful_restores :
    is_Some (getValue i (opHub pr)) → restores (opFwd pr) (opBwd pr) (opHub pr) (opSpoke pr) i;
}.

(** What a successful run says about one operation and a field only it may write. *)
Lemma apply_ops_at l1 op l2 i o c q :
  apply_ops (l1 ++ op :: l2) (new_context i o) = Ok c →
  (∀ op' p, op' ∈ l1 ++ l2 → may_write op' p → path_disjoint p q) →
  ∃ o1 c1, apply_op op (new_context i o1) = Ok c1 ∧
    getValue o1 q = getValue o q ∧ getValue (ecOutput c) q = getValue (ecOutput c1) q.
Proof.
  intros Hrun Hd. unfold apply_ops in Hrun. rewrite res_foldl_app in Hrun.
  apply res_bind_Ok in Hrun as (ca & Ha & Hrun). cbn in Hrun.
  apply res_bind_Ok in Hrun as (cf & Hf & Hrun).
  destruct (apply_ops_spec l1 _ _ Ha (cache_ok_new i o)) as (_ & _ & _ & Hia & Hca).
  destruct (apply_ops_spec [op] ca cf) as (_ & _ & _ & Hif & Hcf); [cbn; by rewrite Hf|done|].
  destruct (apply_ops_cache [op] ca (new_context i (ecOutput ca))) with (c1 := cf)
    as (c1 & Hc1 & Ho1 & _); [done..|apply cache_ok_new|cbn; by rewrite Hf|].
  cbn in Hc1. apply res_bind_Ok in Hc1 as (c1' & Hc1 & [= ->]).
  exists (ecOutput ca), c1. split; [done|]. rewrite Ho1. split.
  - apply (apply_ops_frame l1 (new_context i o) ca); [exact Ha|apply cache_ok_new|].
    intros. eapply Hd; [|done]. set_solver.
  - apply (apply_ops_frame l2 cf c); [exact Hrun|done|]. intros. eapply Hd; [|done]. set_solver.
Qed.

(** The operations of a list of pairs other than one of them stay clear of its field. *)
Lemma others_disjoint (f : opPair → Op) (g : opPair → FieldPath) t prs1 pr prs2 :
  (∀ pr' x, pr' ∈ prs1 ++ pr :: prs2 → may_write (f pr') x → x = g pr') →
  ForallOrdPairs path_disjoint (g <$> prs1 ++ pr :: prs2) →
  (∀ x, unknown_at t x → path_disjoint x (g pr)) →
  ∀ op p, op ∈ (f <$> prs1) ++ (f <$> prs2) ++ [passthroughUnknownOp t] →
    may_write op p → path_disjoint p (g pr).
Proof.
  intros Hw Hd Ht op p Hop Hp.
  assert (ForallOrdPairs path_disjoint (g <$> pr :: prs1 ++ prs2)) as Hd'.
  { eapply ForallOrdPairs_perm; [apply _| |exact Hd]. by rewrite <-Permutation_middle. }
  inversion Hd' as [|? ? Hall _]; subst. rewrite Forall_fmap, Forall_forall in Hall.
  rewrite app_assoc, <-fmap_app in Hop. apply elem_of_app in Hop as [Hop|Hop].
  - apply list_elem_of_fmap in Hop as (pr' & -> & Hin). symmetry.
    rewrite (Hw pr' p); [by apply Hall| |done]. set_solver.
  - apply list_elem_of_singleton in Hop as ->. by apply Ht.
Qed.

(** The plan a list of pairs makes. *)
Definition pair_plan (hubVersion spokeVersion : string) (prs : list opPair) (t : knownTree) : Plan :=
  {| plHubVersion := hubVersion; plSpokeVersion := spokeVersion;
     plHubToSpoke := (opFwd <$> prs) ++ [passthroughUnknownOp t];
     plSpokeToHub := (opBwd <$> prs) ++ [passthroughUnknownOp t] |}.

(** What the fields of a list of pairs must satisfy: no two overlap, undeclared
    fields stay clear of them, and a pair moves a field either to itself or
    between places where the starting output is empty. *)
Record pairs_ok (prs : list opPair) (t : knownTree) : Prop := {
  pairs_hub_disjoint : ForallOrdPairs path_disjoint (opHub <$> prs);
  pairs_spoke_disjoint : ForallOrdPairs path_disjoint (opSpoke <$> prs);
  pairs_undeclared : ∀ pr x, pr ∈ prs → unknown_at t x →
    path_disjoint x (opHub pr) ∧ path_disjoint x (opSpoke pr);
  pairs_outside : ∀ pr, pr ∈ prs →
    opHub pr = opSpoke pr ∨ outside_baseline (opHub pr) ∧ outside_baseline (opSpoke pr);
}.

Lemma Convert_Ok plan dir o o' :
  Convert (Some plan) dir o = Ok o' →
  ∃ c, apply_ops (plan_ops plan dir) (new_context o (baseline o)) = Ok c ∧ ecOutput c = o'.
Proof.
  unfold Convert. destruct (apply_ops _ _) as [c|e]; cbn; [|done]. intros [= <-]. eauto.
Qed.

(** Operations that only write keep the fields of the output. *)
Lemma setValue_keeps o p v o' k : setValue o p v = Ok o' → is_Some (o !! k) → is_Some (o' !! k).
Proof.
  intros Hs Hk. destruct p as [|k' p]; [done|]. destruct (decide (k = k')) as [->|Hne].
  - assert (is_Some (getValue o' (k' :: p))) as [w Hw] by (eexists; by eapply getValue_setValue).
    rewrite getValue_cons in Hw. destruct (o' !! k'); [eauto|done].
  - by rewrite (setValue_lookup_ne _ _ _ _ _ k Hs).
Qed.

Lemma apply_ops_keeps ops i o c k :
  Forall (λ op, sets_only op = true) ops → apply_ops ops (new_context i o) = Ok c →
  is_Some (o !! k) → is_Some (ecOutput c !! k).
Proof.
  intros Hs Hrun Hk. destruct (apply_ops_spec _ _ _ Hrun (cache_ok_new i o)) as (es & Hes & He & _).
  cbn in He. assert (all_sets es) as Hall.
  { eapply Forall_impl; [exact Hes|]. intros e (op & Hop & Hm). eapply sets_only_effect; [|done].
    rewrite Forall_forall in Hs. by apply Hs. }
  clear Hes Hrun. revert o Hk He. induction Hall as [|e es (p & v & ->) Hall IH]; intros o Hk He.
  { injection He as <-. done. }
  cbn in He. apply res_bind_Ok in He as (o1 & H1 & H2). eapply IH; [|exact H2]. by eapply setValue_keeps.
Qed.

Lemma Convert_metadata plan dir o s :
  Forall (λ op, sets_only op = true) (plan_ops plan dir) → Convert (Some plan) dir o = Ok s →
  is_Some (s !! "metadata").
Proof.
  intros Hs (c & Hc & <-)%Convert_Ok. eapply apply_ops_keeps; [done|exact Hc|apply baseline_metadata].
Qed.

(** A run over all the pairs, seen from one of them. *)
Lemma pair_at (f : opPair → Op) (g : opPair → FieldPath) t prs1 pr prs2 i o' :
  (∀ pr' x, pr' ∈ prs1 ++ pr :: prs2 → may_write (f pr') x → x = g pr') →
  ForallOrdPairs path_disjoint (g <$> prs1 ++ pr :: prs2) →
  (∀ x, unknown_at t x → path_disjoint x (g pr)) →
  ∀ c, apply_ops ((f <$> prs1 ++ pr :: prs2) ++ [passthroughUnknownOp t]) (new_context i o') = Ok c →
  ∃ o1 c1, apply_op (f pr) (new_context i o1) = Ok c1 ∧
    getValue o1 (g pr) = getValue o' (g pr) ∧ getValue (ecOutput c) (g pr) = getValue (ecOutput c1) (g pr).
Proof.
  intros Hw Hd Ht c Hrun. rewrite fmap_app in Hrun. cbn in Hrun. rewrite <-app_assoc in Hrun. cbn in Hrun.
  eapply apply_ops_at; [exact Hrun|]. by eapply (others_disjoint f g).
Qed.

(** The spoke object, seen from one pair: what its own operation wrote, or what the
    starting output had. *)
Lemma plan_roundtrip hv sv prs t o s o' pr :
  pairs_ok prs t → Forall (λ pr, faithful pr o) prs → is_Some (o !! "metadata") →
  Convert (Some (pair_plan hv sv prs t)) HubToSpoke o = Ok s →
  Convert (Some (pair_plan hv sv prs t)) SpokeToHub s = Ok o' →
  pr ∈ prs → getValue o' (opHub pr) = getValue o (opHub pr).
Proof.
  intros Hok Hf Hmo (c & Hc & <-)%Convert_Ok (c' & Hc' & <-)%Convert_Ok Hin.
  cbn [plan_ops pair_plan plHubToSpoke plSpokeToHub] in Hc, Hc'.
  assert (is_Some (ecOutput c !! "metadata")) as Hms.
  { eapply apply_ops_keeps; [|exact Hc|apply baseline_metadata]. apply Forall_app. split; [|by constructor].
    apply Forall_fmap. eapply Forall_impl; [exact Hf|]. by intros pr' []. }
  rewrite Forall_forall in Hf.
  destruct (Hf pr Hin) as [_ _ _ Hskf Hskb Hres]. pose proof (pairs_undeclared _ _ Hok pr) as Hu.
  pose proof (pairs_outside _ _ Hok pr Hin) as Hout. pose proof (pairs_hub_disjoint _ _ Hok) as Hdh.
  pose proof (pairs_spoke_disjoint _ _ Hok) as Hds.
  apply list_elem_of_split in Hin as (prs1 & prs2 & ->).
  destruct (pair_at opFwd opSpoke t prs1 pr prs2 o (baseline o)) with (c := c) as (o1 & c1 & Hc1 & Ho1 & Hs);
    [intros pr' x ?; by apply Hf|done|intros x; apply Hu; set_solver|done|].
  destruct (pair_at opBwd opHub t prs1 pr prs2 (ecOutput c) (baseline (ecOutput c))) with (c := c') as (o2 & c2 & Hc2 & Ho2 & Hh);
    [intros pr' x ?; by apply Hf|done|intros x; apply Hu; set_solver|done|].
  rewrite Hh. destruct (getValue o (opHub pr)) as [v|] eqn:Hv.
  - rewrite <-Hv. eapply Hres; [by eexists|exact Hc1| |exact Hc2]. done.
  - apply Hskf in Hc1 as Hc1'; [|done].
    assert (getValue (ecOutput c) (opSpoke pr) = None) as Hsn.
    { rewrite Hs, Hc1', Ho1. destruct Hout as [Heq|[_ Hout]]; [|by apply baseline_outside].
      rewrite <-Heq. by apply baseline_absent. }
    apply Hskb in Hc2; [|done]. rewrite Hc2, Ho2.
    destruct Hout as [Heq|[Hout _]]; [|by apply baseline_outside].
    rewrite Heq. by apply baseline_absent.
Qed.
End pairs.

(** ** Undeclared fields *)

Section undeclared.
Context `{RO : RangeOrder} `{EX : Externs}.

(** A conversion that ends in the passthrough carries undeclared fields over. *)
Lemma passthrough_keeps plan dir l t o o' p :
  plan_ops plan dir = l ++ [passthroughUnknownOp t] →
  (∀ op x y, op ∈ l → may_write op x → unknown_at t y → path_disjoint x y) →
  is_Some (o !! "metadata") → unknown_at t p →
  Convert (Some plan) dir o = Ok o' → getValue o' p = getValue o p.
Proof.
  intros Hops Hd Hmd Hp (c & Hc & <-)%Convert_Ok. rewrite Hops in Hc.
  unfold apply_ops in Hc. rewrite res_foldl_app in Hc. apply res_bind_Ok in Hc as (c1 & Hc1 & Hc).
  destruct (apply_ops_spec l _ _ Hc1 (cache_ok_new _ _)) as (_ & _ & _ & Hi & _). cbn in Hi.
  cbn in Hc. apply res_bind_Ok in Hc as (c2 & Hc & [= ->]). unfold passthroughUnknownOp_apply in Hc.
  destruct (passthroughUnknown t (ecInput c1) (ecOutput c1)) as [out|] eqn:Hpt; cbn in Hc; [|done].
  injection Hc as <-. cbn. rewrite Hi in Hpt. destruct (getValue o p) as [v|] eqn:Hv.
  { by eapply passthroughUnknown_spec. }
  rewrite passthroughUnknown_writes in Hpt.
  rewrite (getValue_setValues_disjoint _ _ _ p Hpt).
  - rewrite (apply_ops_frame l (new_context o (baseline o)) c1);
      [by apply baseline_absent|done|apply cache_ok_new|]. intros. by eapply Hd.
  - apply Forall_forall. intros q ([q' w] & -> & Hq)%list_elem_of_fmap.
    apply elem_of_collectUnknown_top in Hq as [Hq Hw]. eapply unknown_in_disjoint; [apply Hq|apply Hp|].
    intros Heq. cbn in Heq. subst. congruence.
Qed.
End undeclared.

(** ** Faithful pairs *)

Section faithful_pairs.
Context `{RO : RangeOrder} `{EX : Externs}.

Lemma on_present_skips p k i o c :
  getValue i p = None → on_present (new_context i o) p k = Ok c → ecOutput c = o.
Proof. unfold on_present. cbn. by intros -> [= <-]. Qed.

Lemma rename_faithful h s i : faithful {| opFwd := renameOp h s; opBwd := renameOp s h; opHub := h; opSpoke := s |} i.
Proof.
  split; cbn; try done; try (intros ? ? ?; by apply on_present_skips).
  intros [v Hv]. by eapply exchanges_restores; [apply rename_exchanges|].
Qed.

Lemma identity_faithful p i : faithful {| opFwd := identityOp p; opBwd := identityOp p; opHub := p; opSpoke := p |} i.
Proof.
  split; cbn; try done; try (intros ? ? ?; by apply on_present_skips).
  intros [v Hv]. exact (exchanges_restores _ _ p p v v i (rename_exchanges p p v) Hv).
Qed.

Lemma wrap_faithful sp op key defaults i :
  faithful {| opFwd := wrapScalarOp sp op key defaults; opBwd := unwrapScalarOp op sp key;
              opHub := sp; opSpoke := op |} i.
Proof.
  split; cbn; try done; try (intros ? ? ?; by apply on_present_skips).
  intros [v Hv]. by eapply exchanges_restores; [apply wrap_exchanges|].
Qed.

Lemma singleton_faithful op ap i :
  faithful {| opFwd := objectToSingletonArrayOp op ap; opBwd := arrayFirstToObjectOp ap op;
              opHub := op; opSpoke := ap |} i.
Proof.
  split; cbn; try done; try (intros ? ? ?; by apply on_present_skips).
  intros [v Hv]. by eapply exchanges_restores; [apply singleton_exchanges|].
Qed.
End faithful_pairs.

(** ** Conversions that cannot fail *)

Section total.
Context `{RO : RangeOrder} `{EX : Externs}.

Lemma baseline_writable o q :
  q ≠ [] → outside_baseline q ∨ is_Some (getValue o q) → writable (baseline o) q = true.
Proof.
  intros Hne [Hout|[v Hv]].
  - apply writable_spec. split; [done|]. intros x k r w -> Hx Hw.
    rewrite baseline_outside in Hw; [done|]. by destruct x.
  - destruct q as [|k [|k2 q]]; [done|done|].
    assert (∃ m, o !! k = Some (VObj m) ∧ getValue m (k2 :: q) = Some v) as (m & Hm & Hmv).
    { rewrite getValue_cons in Hv. destruct (o !! k) as [u|]; [|done]. destruct u; try done. eauto. }
    rewrite writable_cons by done.
    assert (descend (baseline o) k = Ok m ∨ descend (baseline o) k = Ok ∅) as [->| ->].
    { unfold descend, baseline. destruct (decide (k = "metadata")) as [->|Hk].
      - rewrite lookup_insert_eq, Hm, deepCopyValue_id. by left.
      - rewrite lookup_insert_ne by done. destruct (decide (k = "kind")) as [->|Hk'].
        + rewrite Hm, lookup_singleton_eq. by left.
        + right. destruct (o !! "kind"); by rewrite ?lookup_singleton_ne, ?lookup_empty. }
    + by eapply present_writable.
    + by apply writable_empty.
Qed.

(** The operation copies one field. *)
Definition is_move (op : Op) (from to : FieldPath) : Prop :=
  ∀ ctx, apply_op op ctx = renameOp_apply from to ctx.

Variables (f : opPair → Op) (g h : opPair → FieldPath).

(** The writes a list of moves makes for the input [i]. *)
Definition move_writes (prs : list opPair) (i : obj) : list (FieldPath * value) :=
  omap (λ pr, v ← getValue i (g pr); Some (h pr, v)) prs.

Lemma moves_run prs i o :
  Forall (λ pr, is_move (f pr) (g pr) (h pr)) prs →
  apply_ops (f <$> prs) (new_context i o) =
    new_context i <$> res_wrap EPath (setValues o (move_writes prs i)).
Proof.
  intros Hm; revert o; induction Hm as [|pr prs Hpr Hm IH]; intros o; [done|].
  unfold apply_ops. cbn. rewrite Hpr. unfold renameOp_apply, on_present. cbn.
  destruct (getValue i (g pr)) as [v|]; cbn; [|apply IH].
  rewrite deepCopyValue_id. unfold put. cbn.
  destruct (setValue o (h pr) v) as [o1|e] eqn:Ho1; cbn; [|done]. apply IH.
Qed.

Lemma move_writes_paths prs i p v :
  (p, v) ∈ move_writes prs i → ∃ pr, pr ∈ prs ∧ h pr = p ∧ getValue i (g pr) = Some v.
Proof.
  unfold move_writes. intros (pr & Hpr & Heq)%list_elem_of_omap. exists pr.
  destruct (getValue i (g pr)); cbn in Heq; by simplify_eq.
Qed.

Lemma move_writes_disjoint prs i :
  ForallOrdPairs path_disjoint (h <$> prs) → writes_disjoint (move_writes prs i).
Proof.
  unfold writes_disjoint. induction prs as [|pr prs IH]; intros Hd; [constructor|].
  inversion Hd as [|? ? Hp Hd']; subst. cbn. destruct (getValue i (g pr)) as [v|]; cbn; [|by apply IH].
  constructor; [|by apply IH]. rewrite Forall_fmap, Forall_forall in Hp. apply Forall_forall.
  intros x ([x' w] & -> & Hx)%list_elem_of_fmap. apply move_writes_paths in Hx as (pr' & Hpr' & <- & _).
  by apply Hp.
Qed.

(** A plan of moves and the passthrough converts every object. *)
Lemma moves_total plan dir prs t o :
  plan_ops plan dir = (f <$> prs) ++ [passthroughUnknownOp t] →
  Forall (λ pr, is_move (f pr) (g pr) (h pr)) prs →
  ForallOrdPairs path_disjoint (h <$> prs) →
  (∀ pr x, pr ∈ prs → unknown_at t x → path_disjoint x (h pr)) →
  (∀ pr, pr ∈ prs → h pr ≠ [] ∧ (g pr = h pr ∨ outside_baseline (h pr))) →
  ∃ o', Convert (Some plan) dir o = Ok o'.
Proof.
  intros Hops Hm Hd Hu Hb. unfold Convert. rewrite Hops. unfold apply_ops. rewrite res_foldl_app.
  fold (apply_ops (f <$> prs) (new_context o (baseline o))). rewrite moves_run by done.
  assert (∀ q, (∃ pr, pr ∈ prs ∧ h pr = q ∧ is_Some (getValue o (g pr))) ∨
      (unknown_at t q ∧ is_Some (getValue o q)) → writable (baseline o) q = true) as Hw.
  { intros q [(pr & Hpr & <- & Hs)|[Hq Hs]].
    - destruct (Hb pr Hpr) as [Hne [Heq|Hout]]; apply baseline_writable; try done; [right|by left].
      by rewrite <-Heq.
    - apply baseline_writable; [|by right]. destruct Hq as [_ Hq]. destruct q; [cbn in Hq; lia|done]. }
  destruct (setValues_total (baseline o) (move_writes prs o)) as (o1 & Ho1 & Hkeep).
  { by apply move_writes_disjoint. }
  { apply Forall_forall. intros q ([q' v] & -> & (pr & ? & <- & ?)%move_writes_paths)%list_elem_of_fmap.
    apply Hw. left. exists pr. split_and!; eauto. }
  rewrite Ho1. cbn. unfold passthroughUnknownOp_apply. cbn. rewrite passthroughUnknown_writes.
  destruct (setValues_total o1 (collectUnknown t (VObj o) [])) as (o2 & Ho2 & _).
  { apply collectUnknown_disjoint. }
  { apply Forall_forall. intros q ([q' v] & -> & [Hq Hv]%elem_of_collectUnknown_top)%list_elem_of_fmap.
    cbn. apply Hkeep; [apply Hw; right; split; eauto|]. apply Forall_forall.
    intros x ([x' w] & -> & (pr & Hpr & <- & _)%move_writes_paths)%list_elem_of_fmap. cbn. symmetry. by apply Hu. }
  rewrite Ho2. cbn. eauto.
Qed.
End total.
