(* ===== verification/EndToEnd.v ===== *)
(** From rules to round trips: a rule set of renames that compiles without an
    error converts every declared field of an object to the spoke version and
    back unchanged, and undeclared fields with them.  Renames with a [when] clause
    compile to guarded pairs; with them too every object converts, and a field
    whose condition holds arrives. *)
From S2P Require Import Prelude Float64 Value Json Duration Path Schema Rules Coerce Passthrough Ops Convert OpsTheory RoundTrip Diagnostics Compile CompileTheory PlanTheory.
From Stdlib Require Import Ascii.

(** ** What a rename compiles to *)

Definition rename_pair (h s : FieldPath) : opPair :=
  {| opFwd := renameOp h s; opBwd := renameOp s h; opHub := h; opSpoke := s |}.
Definition identity_pair (p : FieldPath) : opPair :=
  {| opFwd := identityOp p; opBwd := identityOp p; opHub := p; opSpoke := p |}.

(** A rename with a [when] clause wraps both operations in it. *)
Definition guarded (w : option RuleWhen) (op : Op) : Op :=
  match w with None => op | Some w => whenOp (whPath w) (whEquals w) op end.
Definition renaming : Type := (FieldPath * FieldPath) * option RuleWhen.
Definition renaming_pair (x : renaming) : opPair :=
  {| opFwd := guarded x.2 (renameOp x.1.1 x.1.2); opBwd := guarded x.2 (renameOp x.1.2 x.1.1);
     opHub := x.1.1; opSpoke := x.1.2 |}.
Definition is_renaming (r : Rule) : option renaming :=
  match rParams r with
  | PFieldRename p => Some (frHubPath p, frSpokePath p, rWhen r)
  | _ => None
  end.

(** An unconditional rename. *)
Definition is_rename (r : Rule) : option (FieldPath * FieldPath) :=
  match rParams r, rWhen r with
  | PFieldRename p, None => Some (frHubPath p, frSpokePath p)
  | _, _ => None
  end.

Definition unconditional (hs : FieldPath * FieldPath) : renaming := (hs, None).

Lemma is_rename_renaming rules renames :
  Forall2 (λ r hs, is_rename r = Some hs) rules renames →
  Forall2 (λ r x, is_renaming r = Some x) rules (unconditional <$> renames).
Proof.
  intros Hr. apply Forall2_fmap_r. eapply Forall2_impl; [exact Hr|]. intros r [h s].
  unfold is_rename, is_renaming. destruct (rParams r), (rWhen r); try done. by intros [= <- <-].
Qed.

(** The builds that are lists of pairs: their operations, claims and keys. *)
Record pair_build (prs : list opPair) (b : build) : Prop := {
  pb_h2s : bH2S b = opFwd <$> prs;
  pb_s2h : bS2H b = opBwd <$> prs;
  pb_hub : bHub b = list_to_set ((path_string ∘ opHub) <$> prs);
  pb_spoke : bSpoke b = list_to_set ((path_string ∘ opSpoke) <$> prs);
  pb_hub_nodup : NoDup ((path_string ∘ opHub) <$> prs);
  pb_spoke_nodup : NoDup ((path_string ∘ opSpoke) <$> prs);
}.

Lemma pair_build_snoc prs pr b b' :
  pair_build prs b →
  bH2S b' = bH2S b ++ [opFwd pr] → bS2H b' = bS2H b ++ [opBwd pr] →
  bHub b' = {[path_string (opHub pr)]} ∪ bHub b → bSpoke b' = {[path_string (opSpoke pr)]} ∪ bSpoke b →
  path_string (opHub pr) ∉ bHub b → path_string (opSpoke pr) ∉ bSpoke b →
  pair_build (prs ++ [pr]) b'.
Proof.
  intros [H1 H2 H3 H4 H5 H6] E1 E2 E3 E4 N1 N2. rewrite H3, elem_of_list_to_set in N1.
  rewrite H4, elem_of_list_to_set in N2.
  split; rewrite ?E1, ?E2, ?E3, ?E4, ?H1, ?H2, ?H3, ?H4, fmap_app; cbn; rewrite ?list_to_set_app_L; cbn.
  1-2: done.
  1-2: set_solver.
  all: apply NoDup_app; split_and!; [done| |apply NoDup_singleton]; set_solver.
Qed.

(** Two builds with the same operations and claims. *)
Lemma pair_build_eq prs b b' :
  pair_build prs b → bH2S b' = bH2S b → bS2H b' = bS2H b → bHub b' = bHub b → bSpoke b' = bSpoke b →
  pair_build prs b'.
Proof. intros [] ? ? ? ?. split; congruence. Qed.

Section compile_renames.
Context `{RO : RangeOrder} `{EX : Externs} `{CX : CompileExterns}.

Lemma claim_Ok sd p idx l s :
  no_errors (csDiags (claim sd p idx l s).2) →
  path_string p ∉ claimed sd s ∧ claim sd p idx l s = add_claim sd (path_string p) s.
Proof.
  unfold claim. rewrite rs_bind_eq. cbn. case_bool_decide; [|done].
  intros Hn. exfalso. exact (fails_fail _ _ _ _ Hn).
Qed.

Lemma bind_no_errors {A B} (m : rs A) (f : A → rs B) s :
  (∀ a, grows (f a)) → no_errors (csDiags ((m ≫= f) s).2) → no_errors (csDiags (m s).2).
Proof. intros Hf. rewrite rs_bind_eq. apply extends_no_errors, Hf. Qed.

Lemma lookup_node_Ok idx name l root p s :
  no_errors (csDiags (lookup_node idx name l root p s).2) →
  ∃ n, lookup_node idx name l root p s = (Some n, s).
Proof.
  unfold lookup_node. destruct (lookupPath root p) as [n|e]; [by exists n|].
  rewrite rs_bind_eq. intros Hn. exfalso. exact (fails_fail _ _ _ _ Hn).
Qed.

Lemma when_fail_Ok b idx name m s :
  no_errors (csDiags (rs_when b (fail idx name m) s).2) → rs_when b (fail idx name m) s = ((), s).
Proof. destruct b; [|done]. intros Hn. exfalso. exact (fails_fail _ _ _ _ Hn). Qed.

Lemma resolveFieldRename_Ok idx p hub spoke s :
  no_errors (csDiags (resolveFieldRename idx p hub spoke s).2) →
  path_string (frHubPath p) ∉ csHub s ∧ path_string (frSpokePath p) ∉ csSpoke s ∧
  resolveFieldRename idx p hub spoke s =
    (Some (renameOp (frHubPath p) (frSpokePath p)), Some (renameOp (frSpokePath p) (frHubPath p)), lossless_both,
     {| csHub := {[path_string (frHubPath p)]} ∪ csHub s;
        csSpoke := {[path_string (frSpokePath p)]} ∪ csSpoke s; csDiags := csDiags s |}).
Proof.
  intros Hn. unfold resolveFieldRename in *.
  pose proof Hn as H1; apply bind_no_errors in H1; [|intros; solve_grows].
  apply lookup_node_Ok in H1 as [hn H1]. rewrite rs_bind_eq, H1 in *. cbn [fst snd] in *.
  pose proof Hn as H2; apply bind_no_errors in H2; [|intros; solve_grows].
  apply lookup_node_Ok in H2 as [sn H2]. rewrite rs_bind_eq, H2 in *. cbn [fst snd] in *.
  pose proof Hn as H3; apply bind_no_errors in H3; [|intros; solve_grows].
  apply when_fail_Ok in H3. rewrite rs_bind_eq, H3 in *. cbn [fst snd] in *.
  pose proof Hn as H4; apply bind_no_errors in H4; [|intros; solve_grows].
  apply claim_Ok in H4 as [Hh H4]. rewrite rs_bind_eq, H4 in *. cbn [fst snd add_claim] in *.
  pose proof Hn as H5; apply bind_no_errors in H5; [|intros; solve_grows].
  apply claim_Ok in H5 as [Hs H5]. rewrite rs_bind_eq, H5. done.
Qed.

(** Without an error, a [when] clause has wrapped the operations. *)
Lemma apply_when_Ok idx r hub spoke op1 op2 :
  no_errors (apply_when idx r hub spoke (Some op1) (Some op2)).1.1 →
  (apply_when idx r hub spoke (Some op1) (Some op2)).1.2 = Some (guarded (rWhen r) op1) ∧
  (apply_when idx r hub spoke (Some op1) (Some op2)).2 = Some (guarded (rWhen r) op2).
Proof.
  unfold apply_when. destruct (rWhen r) as [w|]; [|done]. case_bool_decide; [by intros [[=] _]%no_errors_cons|].
  unfold when_lookup_diags. destruct (lookupPath hub _), (lookupPath spoke _); cbn; try done;
    by intros [[=] _]%no_errors_cons.
Qed.

Lemma rename_step prs hub spoke pol depth idx r x b :
  is_renaming r = Some x → pair_build prs b →
  no_errors (bDiags (rule_step hub spoke pol depth idx r (resolve_rule r) b)) →
  pair_build (prs ++ [renaming_pair x]) (rule_step hub spoke pol depth idx r (resolve_rule r) b).
Proof.
  destruct r as [st p ack reason si w]. unfold is_renaming. cbn. destruct p; try done.
  intros [= <-] Hb. unfold rule_step. cbn [resolve_rule rParams].
  set (st0 := {| csHub := bHub b; csSpoke := bSpoke b; csDiags := [] |}). set (r := mkRule _ _ _ _ _ _).
  destruct (resolveFieldRename idx p hub spoke st0) as [[[h2s s2h] v] st1] eqn:Hr.
  destruct (apply_when idx r hub spoke h2s s2h) as [[ds h2s'] s2h'] eqn:Hw.
  cbn. rewrite !no_errors_app. intros (_ & Hst & _ & Hds).
  pose proof (resolveFieldRename_Ok idx p hub spoke st0) as H. rewrite Hr in H.
  destruct (H Hst) as (N1 & N2 & [= -> -> -> ->]).
  pose proof (apply_when_Ok idx r hub spoke (renameOp (frHubPath p) (frSpokePath p))
    (renameOp (frSpokePath p) (frHubPath p))) as Hok. rewrite Hw in Hok. destruct (Hok Hds) as [[= ->] [= ->]].
  by eapply (pair_build_snoc prs (renaming_pair (frHubPath p, frSpokePath p, w)) b).
Qed.

Lemma rename_loop hub spoke pol depth idx rules xs prs b :
  Forall2 (λ r x, is_renaming r = Some x) rules xs → pair_build prs b →
  no_errors (bDiags (rule_loop hub spoke pol depth idx (with_resolvers rules) b)) →
  pair_build (prs ++ (renaming_pair <$> xs))
    (rule_loop hub spoke pol depth idx (with_resolvers rules) b).
Proof.
  intros Hr; revert idx prs b; induction Hr as [|r x rules xs Hr Hrs IH]; intros idx prs b Hb Hn; cbn in *.
  { by rewrite app_nil_r. }
  rewrite cons_middle, app_assoc. apply IH; [|done]. eapply rename_step; [done|done|].
  eapply build_le_no_errors; [|exact Hn]. apply rule_loop_le, with_resolvers_ok.
Qed.

Lemma leaves_by_path_lookup ls k sl :
  leaves_by_path ls !! k = Some sl → sl ∈ ls ∧ path_string (lfPath sl) = k.
Proof.
  unfold leaves_by_path.
  assert (∀ m : gmap string LeafField, foldl (λ m l, <[path_string (lfPath l) := l]> m) m ls !! k = Some sl →
    m !! k = Some sl ∨ sl ∈ ls ∧ path_string (lfPath sl) = k) as Hgen.
  { induction ls as [|l ls IH]; intros m Hk; cbn in Hk; [by left|].
    apply IH in Hk as [Hk|[? ?]]; [|right; set_solver].
    apply lookup_insert_Some in Hk as [[<- ->]|[_ ?]]; [right; set_solver|by left]. }
  intros Hk. apply Hgen in Hk as [Hk|?]; [by rewrite lookup_empty in Hk|done].
Qed.

(** A leaf both schemas declare, as the scan pairs it. *)
Definition shared_leaf (hub spoke : JSONSchemaProps) (p : FieldPath) : Prop :=
  ∃ hl sl, hl ∈ flattenSchema hub ∧ sl ∈ flattenSchema spoke ∧ lfPath hl = p ∧
    path_string (lfPath sl) = path_string p.

Lemma scan_pairs hub spoke pol prs b :
  pair_build prs b →
  ∃ ids, Forall (shared_leaf hub spoke) ids ∧
    pair_build (prs ++ (identity_pair <$> ids)) (scan_leftovers hub spoke pol b).
Proof.
  intros Hb. unfold scan_leftovers. set (m := leaves_by_path (flattenSchema spoke)).
  assert (∀ ls b prs, (∀ l, l ∈ ls → l ∈ flattenSchema hub) → pair_build prs b →
    ∃ ids, Forall (shared_leaf hub spoke) ids ∧
      pair_build (prs ++ (identity_pair <$> ids)) (foldl (scan_hub_leaf pol m) b ls)) as Hhub.
  { clear b prs Hb. induction ls as [|l ls IH]; intros b prs Hls Hb; cbn.
    { exists []. by rewrite app_nil_r. }
    assert (pair_build prs (scan_hub_leaf pol m b l) ∨
      shared_leaf hub spoke (lfPath l) ∧
      pair_build (prs ++ [identity_pair (lfPath l)]) (scan_hub_leaf pol m b l)) as [H|[Hs H]].
    { unfold scan_hub_leaf. case_bool_decide as Hc; [by left|].
      destruct (m !! _) as [sl|] eqn:Hm; [|left; by eapply pair_build_eq].
      case_bool_decide as Hs; [|left; by eapply pair_build_eq].
      destruct (same_shape sl l); [|left; by eapply pair_build_eq]. right.
      apply leaves_by_path_lookup in Hm as [Hsl Heq].
      split; [exists l, sl; split_and!; try done; apply Hls; by left|].
      by eapply (pair_build_snoc prs (identity_pair (lfPath l)) b). }
    - apply IH; [|done]. intros. apply Hls. by right.
    - destruct (IH _ _ ltac:(intros; apply Hls; by right) H) as (ids & Hids & Hp).
      exists (lfPath l :: ids). split; [by constructor|]. by rewrite <-app_assoc in Hp. }
  destruct (Hhub (flattenSchema hub) b prs ltac:(done) Hb) as (ids & Hids & Hp). exists ids. split; [done|].
  generalize (flattenSchema spoke). intros ls. revert Hp. generalize (foldl (scan_hub_leaf pol m) b (flattenSchema hub)).
  induction ls as [|l ls IH]; intros b' Hp; cbn; [done|]. apply IH. unfold scan_spoke_leaf.
  case_bool_decide; [done|]. by eapply pair_build_eq.
Qed.
(** The pairs an error-free rename rule set compiles to. *)
Lemma renames_compile rules xs hub spoke pol :
  Forall2 (λ r x, is_renaming r = Some x) rules xs →
  no_errors (bDiags (resolveAndBuildOps rules hub spoke pol 0)) →
  let b := resolveAndBuildOps rules hub spoke pol 0 in
  let t := mergeKnownTrees (buildKnownTree (Some hub)) (buildKnownTree (Some spoke)) in
  ∃ ids, let prs := (renaming_pair <$> xs) ++ (identity_pair <$> ids) in
    Forall (shared_leaf hub spoke) ids ∧
    bH2S b = (opFwd <$> prs) ++ [passthroughUnknownOp t] ∧
    bS2H b = (opBwd <$> prs) ++ [passthroughUnknownOp t] ∧ pair_build prs (scan_leftovers hub spoke pol
      (rule_loop hub spoke pol 0 0 (with_resolvers rules) empty_build)).
Proof.
  intros Hr Hn. unfold resolveAndBuildOps in *. cbn zeta.
  assert (pair_build (renaming_pair <$> xs)
    (rule_loop hub spoke pol 0 0 (with_resolvers rules) empty_build)) as Hb.
  { apply (rename_loop hub spoke pol 0 0 rules xs []); [done|by split; try constructor|].
    eapply build_le_no_errors; [apply build_with_le|done]. }
  destruct (scan_pairs hub spoke pol _ _ Hb) as (ids & Hids & Hp). exists ids.
  unfold build_with, add_passthrough. cbn [bH2S bS2H]. fold (with_resolvers rules).
  destruct Hp as [H1 H2 H3 H4 H5 H6]. by rewrite <-H1, <-H2.
Qed.

(** Schemas whose leaves are named by their text: no dot in a property name, and
    no construct normalisation would have removed. *)
Definition plain_path (p : FieldPath) : Prop :=
  Forall (λ s, has_char "."%char s = false) p ∧ p ≠ [""] ∧ p ≠ [].

Definition plain_schema (s : JSONSchemaProps) : Prop :=
  ∀ l, l ∈ flattenSchema s → plain_path (lfPath l) ∧ unresolvedConstruct (lfSchema l) = "".

(** Renames between leaves the starting output does not hold. *)
Definition leaf_renames (hub spoke : JSONSchemaProps) (renames : list (FieldPath * FieldPath)) : Prop :=
  Forall (λ hs, hs.1 ∈ lfPath <$> flattenSchema hub ∧ hs.2 ∈ lfPath <$> flattenSchema spoke ∧
    outside_baseline hs.1 ∧ outside_baseline hs.2) renames.

Lemma plain_inj hub spoke hl sl :
  plain_schema hub → plain_schema spoke → hl ∈ flattenSchema hub → sl ∈ flattenSchema spoke →
  path_string (lfPath hl) = path_string (lfPath sl) → lfPath hl = lfPath sl.
Proof. intros Hh Hs [[? []] _]%Hh [[? []] _]%Hs. by apply path_string_inj. Qed.

(** Distinct leaves of one schema do not overlap. *)
Lemma leaves_disjoint s (ps : list FieldPath) :
  Forall (λ p, p ∈ lfPath <$> flattenSchema s) ps → NoDup (path_string <$> ps) →
  ForallOrdPairs path_disjoint ps.
Proof.
  intros Hps. induction Hps as [|p ps Hp Hps IH]; intros Hnd; [constructor|].
  apply NoDup_cons in Hnd as [Hnin Hnd]. constructor; [|by apply IH].
  apply Forall_forall. intros q Hq. rewrite Forall_forall in Hps.
  assert (∃ n, leaf_at s p n) as [n Hln].
  { apply list_elem_of_fmap in Hp as (l & -> & Hl). apply elem_of_flattenSchema. eauto. }
  assert (∃ n, leaf_at s q n) as [n' Hln'].
  { apply Hps, list_elem_of_fmap in Hq as (l & -> & Hl). apply elem_of_flattenSchema. eauto. }
  eapply leaf_at_disjoint; [done|done|]. intros ->. apply Hnin. by apply list_elem_of_fmap_2.
Qed.

(** A leaf of either schema stays clear of undeclared fields. *)
Lemma undeclared_leaf hub spoke l x :
  plain_schema hub → plain_schema spoke → l ∈ flattenSchema hub ∨ l ∈ flattenSchema spoke →
  unknown_at (mergeKnownTrees (buildKnownTree (Some hub)) (buildKnownTree (Some spoke))) x →
  path_disjoint x (lfPath l).
Proof.
  intros Hh Hs Hl Hx.
  assert (plain_path (lfPath l) ∧ unresolvedConstruct (lfSchema l) = "") as [(_ & _ & Hne) Hu]
    by (destruct Hl; [by apply Hh|by apply Hs]).
  eapply (unknown_leaf_disjoint hub spoke); [exact Hx| |done|exact Hu].
  destruct Hl as [Hl|Hl]; apply flattenSchema_describes in Hl as [Hl _]; auto.
Qed.

Lemma Forall_renaming (f : opPair → FieldPath) (P : FieldPath → Prop) xs ids :
  (∀ x, x ∈ xs → P (f (renaming_pair x))) → (∀ p, p ∈ ids → P (f (identity_pair p))) →
  Forall P (f <$> (renaming_pair <$> xs) ++ (identity_pair <$> ids)).
Proof.
  intros Hr Hi. rewrite fmap_app, Forall_app, !Forall_fmap, !Forall_forall. split.
  - intros x Hin. by apply Hr.
  - intros p Hin. by apply Hi.
Qed.

(** The compiled pairs meet the conditions of the round trip. *)
Lemma renames_pairs_ok hub spoke xs ids :
  plain_schema hub → plain_schema spoke → leaf_renames hub spoke xs.*1 →
  Forall (shared_leaf hub spoke) ids →
  let prs := (renaming_pair <$> xs) ++ (identity_pair <$> ids) in
  NoDup ((path_string ∘ opHub) <$> prs) → NoDup ((path_string ∘ opSpoke) <$> prs) →
  pairs_ok prs (mergeKnownTrees (buildKnownTree (Some hub)) (buildKnownTree (Some spoke))).
Proof.
  intros Hh Hs Hr Hids prs Hdh Hds. unfold leaf_renames in Hr. rewrite Forall_fmap, Forall_forall in Hr.
  rewrite Forall_forall in Hids.
  assert (∀ p, p ∈ ids → p ∈ lfPath <$> flattenSchema hub ∧ p ∈ lfPath <$> flattenSchema spoke) as Hboth.
  { intros p (hl & sl & Hhl & Hsl & <- & Heq)%Hids. split; [by apply list_elem_of_fmap_2|].
    symmetry in Heq. rewrite (plain_inj hub spoke hl sl) by done. by apply list_elem_of_fmap_2. }
  assert (Forall (λ p, p ∈ lfPath <$> flattenSchema hub) (opHub <$> prs)) as Hhl.
  { apply Forall_renaming; [by intros x (? & _)%Hr|by intros p []%Hboth]. }
  assert (Forall (λ p, p ∈ lfPath <$> flattenSchema spoke) (opSpoke <$> prs)) as Hsl.
  { apply Forall_renaming; [by intros x (_ & ? & _)%Hr|by intros p []%Hboth]. }
  split.
  - eapply leaves_disjoint; [exact Hhl|]. by rewrite <-list_fmap_compose.
  - eapply leaves_disjoint; [exact Hsl|]. by rewrite <-list_fmap_compose.
  - intros pr x Hpr Hx. rewrite Forall_fmap, Forall_forall in Hhl. rewrite Forall_fmap, Forall_forall in Hsl.
    destruct (proj1 (list_elem_of_fmap _ _ _) (Hhl pr Hpr)) as (l & Hl & Hlin).
    destruct (proj1 (list_elem_of_fmap _ _ _) (Hsl pr Hpr)) as (l' & Hl' & Hlin').
    cbn in Hl, Hl'. rewrite Hl, Hl'. split; eapply (undeclared_leaf hub spoke); eauto.
  - intros pr [Hpr|Hpr]%elem_of_app.
    + apply list_elem_of_fmap in Hpr as (x & -> & (_ & _ & ? & ?)%Hr). by right.
    + apply list_elem_of_fmap in Hpr as (p & -> & _). by left.
Qed.

(** The plan an error-free rename rule set compiles to, as a list of pairs: every
    leaf of either schema has its own. *)
Lemma renames_plan rules xs hub spoke pol hv sv :
  Forall2 (λ r x, is_renaming r = Some x) rules xs → leaf_renames hub spoke xs.*1 →
  plain_schema hub → plain_schema spoke → pol ≠ UnmappedFieldPolicyWarn →
  let b := resolveAndBuildOps rules hub spoke pol 0 in
  let t := mergeKnownTrees (buildKnownTree (Some hub)) (buildKnownTree (Some spoke)) in
  no_errors (bDiags b) →
  ∃ prs, {| plHubVersion := hv; plSpokeVersion := sv; plHubToSpoke := bH2S b; plSpokeToHub := bS2H b |} =
      pair_plan hv sv prs t ∧ pairs_ok prs t ∧
    Forall (λ pr, (∃ x, x ∈ xs ∧ pr = renaming_pair x) ∨ ∃ p, pr = identity_pair p) prs ∧
    Forall (λ x, renaming_pair x ∈ prs) xs ∧
    Forall (λ pr, opHub pr ≠ [] ∧ opSpoke pr ≠ []) prs ∧
    (∀ l, l ∈ flattenSchema hub → ∃ pr, pr ∈ prs ∧ opHub pr = lfPath l) ∧
    (∀ l, l ∈ flattenSchema spoke → ∃ pr, pr ∈ prs ∧ opSpoke pr = lfPath l).
Proof.
  intros Hr Hlr Hh Hs Hpol b t Hn.
  destruct (renames_compile rules xs hub spoke pol Hr Hn) as (ids & Hids & E1 & E2 & [_ _ E3 E4 Hd1 Hd2]).
  set (prs := (renaming_pair <$> xs) ++ (identity_pair <$> ids)) in *. exists prs.
  pose proof (renames_pairs_ok hub spoke xs ids Hh Hs Hlr Hids Hd1 Hd2) as Hok.
  assert (∀ pr, pr ∈ prs → (∃ hl, hl ∈ flattenSchema hub ∧ opHub pr = lfPath hl) ∧
    (∃ sl, sl ∈ flattenSchema spoke ∧ opSpoke pr = lfPath sl) ∧
    ((∃ x, x ∈ xs ∧ pr = renaming_pair x) ∨ ∃ p, pr = identity_pair p)) as Hprs.
  { unfold leaf_renames in Hlr. rewrite Forall_fmap, Forall_forall in Hlr. rewrite Forall_forall in Hids.
    intros pr [Hpr|Hpr]%elem_of_app; apply list_elem_of_fmap in Hpr as (x & -> & Hx).
    - pose proof (Hlr x Hx) as ((hl & ? & ?)%list_elem_of_fmap & (sl & ? & ?)%list_elem_of_fmap & _). eauto 10.
    - apply Hids in Hx as (hl & sl & Hhl & Hsl & <- & Heq). symmetry in Heq.
      pose proof (plain_inj hub spoke hl sl Hh Hs Hhl Hsl Heq). cbn. eauto 10. }
  assert (∀ s l, plain_schema s → l ∈ flattenSchema s → lfPath l ≠ []) as Hne by (by intros s l Hp [(_ & _ & ?) _]%Hp).
  split_and!; [unfold pair_plan, b; by rewrite E1, E2|exact Hok|..].
  - apply Forall_forall. by intros pr (_ & _ & ?)%Hprs.
  - apply Forall_forall. intros x Hx. apply elem_of_app. left. by apply list_elem_of_fmap_2.
  - apply Forall_forall. intros pr ((hl & Hhl & ->) & (sl & Hsl & ->) & _)%Hprs.
    split; [exact (Hne hub hl Hh Hhl)|exact (Hne spoke sl Hs Hsl)].
  - intros l Hl.
    assert (path_string (lfPath l) ∈ bHub b) as Hkey
      by exact (build_claims_all (with_resolvers rules) hub spoke pol 0 Hub l Hpol Hn Hl).
    change (bHub b) with (bHub (scan_leftovers hub spoke pol (rule_loop hub spoke pol 0 0 (with_resolvers rules) empty_build))) in Hkey.
    rewrite E3 in Hkey. apply elem_of_list_to_set, list_elem_of_fmap in Hkey as (pr & Heq & Hpr). exists pr. split; [done|].
    destruct (Hprs pr Hpr) as [(hl & Hhl & Hp) _]. cbn in Heq. rewrite Hp in Heq |- *.
    by apply (plain_inj hub hub).
  - intros l Hl.
    assert (path_string (lfPath l) ∈ bSpoke b) as Hkey
      by exact (build_claims_all (with_resolvers rules) hub spoke pol 0 Spoke l Hpol Hn Hl).
    change (bSpoke b) with (bSpoke (scan_leftovers hub spoke pol (rule_loop hub spoke pol 0 0 (with_resolvers rules) empty_build))) in Hkey.
    rewrite E4 in Hkey. apply elem_of_list_to_set, list_elem_of_fmap in Hkey as (pr & Heq & Hpr). exists pr. split; [done|].
    destruct (Hprs pr Hpr) as (_ & (sl & Hsl & Hp) & _). cbn in Heq. rewrite Hp in Heq |- *.
    by apply (plain_inj spoke spoke).
Qed.

Lemma rename_pair_facts pr o :
  (∃ hs, pr = renaming_pair (unconditional hs)) ∨ (∃ p, pr = identity_pair p) →
  faithful pr o ∧ sets_only (opBwd pr) = true ∧
  is_move (opFwd pr) (opHub pr) (opSpoke pr) ∧ is_move (opBwd pr) (opSpoke pr) (opHub pr).
Proof.
  intros [([h s] & ->)|(p & ->)]; (split_and!; [|done|by intros ctx|by intros ctx]).
  - apply rename_faithful.
  - apply identity_faithful.
Qed.

(** Both conversions succeed for every object, and going to the spoke version and
    back gives every declared leaf and every undeclared field back. *)
Lemma renames_roundtrip_all rules renames hub spoke pol hv sv o :
  Forall2 (λ r hs, is_rename r = Some hs) rules renames → leaf_renames hub spoke renames →
  plain_schema hub → plain_schema spoke → pol ≠ UnmappedFieldPolicyWarn →
  let b := resolveAndBuildOps rules hub spoke pol 0 in
  let t := mergeKnownTrees (buildKnownTree (Some hub)) (buildKnownTree (Some spoke)) in
  let plan := {| plHubVersion := hv; plSpokeVersion := sv; plHubToSpoke := bH2S b; plSpokeToHub := bS2H b |} in
  no_errors (bDiags b) → is_Some (o !! "metadata") →
  ∃ s o', Convert (Some plan) HubToSpoke o = Ok s ∧ Convert (Some plan) SpokeToHub s = Ok o' ∧
    (∀ l, l ∈ flattenSchema hub → getValue o' (lfPath l) = getValue o (lfPath l)) ∧
    (∀ p, unknown_at t p → getValue o' p = getValue o p).
Proof.
  intros Hr Hlr Hh Hs Hpol b t plan Hn Hmd.
  destruct (renames_plan rules (unconditional <$> renames) hub spoke pol hv sv) as (prs & Hplan & Hok & Hkind' & _ & Hne & Hleaf & _);
    [by apply is_rename_renaming|by rewrite <-list_fmap_compose, list_fmap_id|done..|].
  fold b t plan in Hplan. rewrite Hplan. rewrite Forall_forall in Hkind', Hne.
  assert (∀ pr, pr ∈ prs → (∃ hs, pr = renaming_pair (unconditional hs)) ∨ ∃ p, pr = identity_pair p) as Hkind.
  { intros pr [(x & (hs & -> & _)%list_elem_of_fmap & ->)|?]%Hkind'; eauto. }
  assert (∀ pr x, pr ∈ prs → unknown_at t x → path_disjoint x (opHub pr) ∧ path_disjoint x (opSpoke pr)) as Hu
    by apply Hok.
  destruct (moves_total opFwd opHub opSpoke (pair_plan hv sv prs t) HubToSpoke prs t o) as [s Hcs];
    [done|apply Forall_forall; intros pr Hpr; by apply (rename_pair_facts pr o); auto|apply Hok
    |intros pr x ??; by apply Hu|intros pr Hpr; split; [by apply Hne|]|].
  { destruct (pairs_outside _ _ Hok pr Hpr) as [?|[? ?]]; auto. }
  destruct (moves_total opBwd opSpoke opHub (pair_plan hv sv prs t) SpokeToHub prs t s) as [o' Hco];
    [done|apply Forall_forall; intros pr Hpr; by apply (rename_pair_facts pr o); auto|apply Hok
    |intros pr x ??; by apply Hu|intros pr Hpr; split; [by apply Hne|]|].
  { destruct (pairs_outside _ _ Hok pr Hpr) as [?|[? ?]]; auto. }
  exists s, o'. split_and!; [done|done| |].
  - intros l Hl. destruct (Hleaf l Hl) as (pr & Hpr & <-). eapply plan_roundtrip; try done.
    apply Forall_forall. intros pr' Hpr'. by apply rename_pair_facts, Hkind.
  - assert (is_Some (s !! "metadata")) as Hms.
    { eapply Convert_metadata; [|exact Hcs]. apply Forall_app. split; [|by constructor].
      apply Forall_fmap, Forall_forall. intros pr Hpr.
      by destruct (rename_pair_facts pr o (Hkind pr Hpr)) as [[] _]. }
    intros p Hp. trans (getValue s p).
    + apply (passthrough_keeps (pair_plan hv sv prs t) SpokeToHub (opBwd <$> prs) t); try done.
      intros op x y (pr & -> & Hpr)%list_elem_of_fmap Hx Hy.
      destruct (rename_pair_facts pr o (Hkind pr Hpr)) as [Hf _].
      rewrite (faithful_bwd _ _ Hf x Hx). symmetry. by apply Hu.
    + apply (passthrough_keeps (pair_plan hv sv prs t) HubToSpoke (opFwd <$> prs) t); try done.
      intros op x y (pr & -> & Hpr)%list_elem_of_fmap Hx Hy.
      destruct (rename_pair_facts pr o (Hkind pr Hpr)) as [Hf _].
      rewrite (faithful_fwd _ _ Hf x Hx). symmetry. by apply Hu.
Qed.
End compile_renames.

(** ** Renames with a [when] clause *)

(** The condition of an operation holds for the input. *)
Definition live (i : obj) (op : Op) : bool :=
  match op with
  | whenOp p e _ => match getValue i p with Some v => jsonValuesEqual v e | None => false end
  | _ => true
  end.

(** A pair as one direction sees it. *)
Definition dir_op (dir : Direction) (pr : opPair) : Op := match dir with HubToSpoke => opFwd pr | SpokeToHub => opBwd pr end.
Definition dir_from (dir : Direction) (pr : opPair) : FieldPath := match dir with HubToSpoke => opHub pr | SpokeToHub => opSpoke pr end.
Definition dir_to (dir : Direction) (pr : opPair) : FieldPath := match dir with HubToSpoke => opSpoke pr | SpokeToHub => opHub pr end.
Definition dest_side (dir : Direction) : side := match dir with HubToSpoke => Spoke | SpokeToHub => Hub end.
Definition src_side (dir : Direction) : side := match dir with HubToSpoke => Hub | SpokeToHub => Spoke end.

Lemma ForallOrdPairs_filter {A B} (R : B → B → Prop) (h : A → B) (P : A → Prop) `{∀ a, Decision (P a)} l :
  ForallOrdPairs R (h <$> l) → ForallOrdPairs R (h <$> filter P l).
Proof.
  induction l as [|a l IH]; [done|]. intros Hd. inversion Hd as [|? ? Ha Hl]; subst. rewrite filter_cons.
  case_decide; [|by apply IH]. constructor; [|by apply IH].
  rewrite Forall_fmap, Forall_forall in Ha. apply Forall_fmap, Forall_forall.
  intros x [_ ?]%list_elem_of_filter. by apply Ha.
Qed.

Section guarded_conversion.
Context `{RO : RangeOrder} `{EX : Externs}.
Variable dir : Direction.

Local Abbreviation move := (λ pr, renameOp (dir_from dir pr) (dir_to dir pr)).

(** A pair of a rename rule, or of a leaf declared alike. *)
Definition copying (pr : opPair) : Prop := (∃ x, pr = renaming_pair x) ∨ ∃ p, pr = identity_pair p.

(** It copies its field when its condition holds, and does nothing otherwise. *)
Lemma copying_op pr i o : copying pr →
  apply_op (dir_op dir pr) (new_context i o) =
    if live i (dir_op dir pr) then apply_op (move pr) (new_context i o) else Ok (new_context i o).
Proof.
  intros [([[h s] [w|]] & ->)|(p & ->)]; destruct dir; try done; cbn; unfold whenOp_apply; cbn;
    destruct (getValue i (whPath w)) as [v|]; try done; by destruct (jsonValuesEqual v _).
Qed.

Lemma copying_writes pr x : copying pr → may_write (dir_op dir pr) x → x = dir_to dir pr.
Proof. intros [([[h s] [w|]] & ->)|(p & ->)]; by destruct dir. Qed.

Lemma copying_run prs l i o :
  Forall copying prs →
  apply_ops ((dir_op dir <$> prs) ++ l) (new_context i o) =
    apply_ops ((move <$> filter (λ pr, live i (dir_op dir pr) = true) prs) ++ l) (new_context i o).
Proof.
  intros Hc; revert o. induction Hc as [|pr prs Hpr Hc IH]; intros o; [done|].
  rewrite filter_cons, fmap_cons, <-app_comm_cons. unfold apply_ops at 1. cbn [res_foldl].
  rewrite copying_op by done. destruct (live i (dir_op dir pr)).
  - rewrite decide_True by done. rewrite fmap_cons, <-app_comm_cons. unfold apply_ops at 1. cbn [res_foldl].
    cbn. unfold renameOp_apply, on_present. cbn.
    destruct (getValue i (dir_from dir pr)) as [v|]; cbn; [|apply IH]. unfold put. cbn.
    destruct (setValue o (dir_to dir pr) _) as [o1|e]; cbn; [apply IH|done].
  - rewrite decide_False by done. apply IH.
Qed.

Lemma plan_ops_pairs hv sv prs t :
  plan_ops (pair_plan hv sv prs t) dir = (dir_op dir <$> prs) ++ [passthroughUnknownOp t].
Proof. by destruct dir. Qed.

Lemma pairs_dir prs t : pairs_ok prs t →
  ForallOrdPairs path_disjoint (dir_to dir <$> prs) ∧
  (∀ pr x, pr ∈ prs → unknown_at t x → path_disjoint x (dir_to dir pr)) ∧
  (∀ pr, pr ∈ prs → dir_from dir pr = dir_to dir pr ∨ outside_baseline (dir_to dir pr)).
Proof.
  intros [Hh Hs Hu Ho]. destruct dir; (split_and!; [done| |]); cbn.
  1,3: intros pr x Hpr Hx; by apply (Hu pr x).
  all: intros pr Hpr; destruct (Ho pr Hpr) as [->|[? ?]]; auto.
Qed.

(** Every object converts, and a field whose pair's condition holds arrives. *)
Lemma copying_converts hv sv prs t o :
  Forall copying prs → pairs_ok prs t → Forall (λ pr, opHub pr ≠ [] ∧ opSpoke pr ≠ []) prs →
  ∃ o', Convert (Some (pair_plan hv sv prs t)) dir o = Ok o' ∧
    ∀ pr, pr ∈ prs → live o (dir_op dir pr) = true → is_Some (getValue o (dir_from dir pr)) →
      is_Some (getValue o' (dir_to dir pr)).
Proof.
  intros Hc (Hd & Hu & Hb)%pairs_dir Hne. rewrite Forall_forall in Hne.
  set (P := λ pr, live o (dir_op dir pr) = true). set (prs' := filter P prs).
  set (plan' := {| plHubVersion := hv; plSpokeVersion := sv; plHubToSpoke := (move <$> prs') ++ [passthroughUnknownOp t];
                   plSpokeToHub := (move <$> prs') ++ [passthroughUnknownOp t] |}).
  assert (∃ o', Convert (Some plan') dir o = Ok o') as [o' Ho'].
  { apply (moves_total move (dir_from dir) (dir_to dir) plan' dir prs' t).
    - by destruct dir.
    - apply Forall_forall. by intros pr _ ctx.
    - by apply ForallOrdPairs_filter.
    - intros pr x [_ Hpr]%list_elem_of_filter. by apply Hu.
    - intros pr [_ Hpr]%list_elem_of_filter. split; [|by apply Hb]. destruct dir; by apply Hne. }
  exists o'. assert (Convert (Some (pair_plan hv sv prs t)) dir o = Ok o') as Hrun.
  { rewrite <-Ho'. unfold Convert. rewrite plan_ops_pairs, copying_run by done. by destruct dir. }
  split; [done|]. intros pr Hpr Hlive [v Hv]. apply Convert_Ok in Hrun as (c & Hrun & <-).
  rewrite plan_ops_pairs in Hrun. rewrite Forall_forall in Hc. pose proof (Hc pr Hpr) as Hcp.
  assert (∀ x, unknown_at t x → path_disjoint x (dir_to dir pr)) as Hup by (intros; by eapply Hu).
  apply list_elem_of_split in Hpr as (prs1 & prs2 & ->).
  destruct (pair_at (dir_op dir) (dir_to dir) t prs1 pr prs2 o (baseline o)) with (c := c) as (o1 & c1 & Hc1 & _ & Hs);
    [intros pr' x Hpr'; apply copying_writes, Hc, Hpr'|done|done|done|].
  rewrite Hs. rewrite copying_op, Hlive in Hc1 by done. cbn in Hc1. unfold renameOp_apply, on_present in Hc1. cbn in Hc1.
  rewrite Hv in Hc1. unfold put in Hc1. cbn in Hc1.
  destruct (setValue o1 (dir_to dir pr) _) as [o2|e] eqn:Ho2; cbn in Hc1; [|done]. injection Hc1 as <-. cbn.
  eexists. by eapply getValue_setValue.
Qed.
End guarded_conversion.
