(* ===== verification/Normalize.v ===== *)
(** Schema normalisation (pkg/engine/normalize.go): local [$ref]s resolved, [allOf]
    branches merged into their parent.

    [node] recurses through references, so it takes fuel; running out is the error
    [OutOfFuel], which the source does not have, and [NormalizeTheory] shows that
    enough fuel never meets it.  [inFlight] is the set of references being
    resolved: the source adds one before the recursive call and removes it after,
    so here it is passed down. *)
From S2P Require Import Prelude Float64 Value Json Path Schema.

Inductive pointer_error :=
| PEnds (ref seg : string)
| PNotNamed (ref seg key : string)
| PNoItems (ref : string)
| PNoAdditional (ref : string)
| PNotTraversable (ref seg : string).

(** A conflict names the path and the branch. *)
Inductive merge_error :=
| EMergeType (where_ : string) (branch : nat) (src dst : string)
| EMergePreserve (where_ : string) (branch : nat)
| EMergeEnum (where_ : string) (branch : nat)
| EMergeUnion (where_ : string) (branch : nat) (name : string).

Inductive normalize_error :=
| ERefNotLocal (where_ ref : string)
| ERefSiblings (where_ ref : string) (siblings : list string)
| ERefCyclic (where_ ref : string)
| EPointer (where_ : string) (e : pointer_error)
| EMerge (e : merge_error)
| EVersion (version : string) (e : normalize_error)
| OutOfFuel.

Definition pathOrRoot (p : FieldPath) : string :=
  if bool_decide (p = []) then "(root)" else path_string p.

(** ** References *)

Definition unescapePointerSegment (s : string) : string :=
  replace_all (replace_all s "~1" "/") "~0" "~".

(** [strings.TrimSuffix(seg, "s")], of the two words it is called on. *)
Definition singular (seg : string) : string :=
  if bool_decide (seg = "definitions") then "definition"
  else if bool_decide (seg = "properties") then "propertie" else seg.

(** The loop over the pointer's segments. *)
Fixpoint walk_pointer (ref : string) (segs : list string) (cur : JSONSchemaProps)
    : res pointer_error JSONSchemaProps :=
  match segs with
  | [] => Ok cur
  | raw :: segs =>
      let seg := unescapePointerSegment raw in
      if bool_decide (seg = "definitions") || bool_decide (seg = "properties") then
        match segs with
        | [] => Err (PEnds ref seg)
        | rawKey :: segs =>
            let key := unescapePointerSegment rawKey in
            match (if bool_decide (seg = "definitions") then sDefinitions cur else sProperties cur) !! key with
            | None => Err (PNotNamed ref (singular seg) key)
            | Some next => walk_pointer ref segs next
            end
        end
      else if bool_decide (seg = "items") then
        match itemsSchema cur with
        | None => Err (PNoItems ref)
        | Some next => walk_pointer ref segs next
        end
      else if bool_decide (seg = "additionalProperties") then
        match additionalSchema cur with
        | None => Err (PNoAdditional ref)
        | Some next => walk_pointer ref segs next
        end
      else Err (PNotTraversable ref seg)
  end.

Definition resolvePointer (root : JSONSchemaProps) (ref : string) : res pointer_error JSONSchemaProps :=
  let ptr := trim_prefix (trim_prefix ref "#") "/" in
  if bool_decide (ptr = "") then Ok root else walk_pointer ref (split ptr "/") root.

Definition when_set (b : bool) (name : string) : list string := if b then [name] else [].

(** [refSiblings]: the JSON names of what is set beside a [$ref], without the
    description and the title. *)
Definition refSiblings (s : JSONSchemaProps) : list string :=
  sort_strings (concat
    [when_set (negb (bool_decide (sType s = ""))) "type";
     when_set (sNullable s) "nullable";
     when_set (bool_decide (is_Some (sXPreserveUnknownFields s))) "x-kubernetes-preserve-unknown-fields";
     when_set (negb (bool_decide (sEnum s = []))) "enum";
     when_set (negb (bool_decide (sRequired s = []))) "required";
     when_set (match sOneOf s with [] => false | _ => true end) "oneOf";
     when_set (match sAnyOf s with [] => false | _ => true end) "anyOf";
     when_set (match sAllOf s with [] => false | _ => true end) "allOf";
     when_set (hasProperties s) "properties";
     when_set (match sItems s with None => false | _ => true end) "items";
     when_set (match sAdditionalProperties s with None => false | _ => true end) "additionalProperties";
     when_set (negb (bool_decide (sDefinitions s = ∅))) "definitions";
     when_set (bool_decide (is_Some (sMaxItems s))) "maxItems";
     when_set (bool_decide (is_Some (sDefault s))) "default";
     sOther s]).

(** ** Merging one [allOf] branch *)

Definition canonicalJSON (raw : string) : string :=
  match json_Unmarshal raw with
  | None => raw
  | Some v => default raw (json_Marshal v)
  end.

(** [None]: no value in common. *)
Definition intersectEnums (dst src : list string) : option (list string) :=
  match dst with
  | [] => Some src
  | _ =>
      match filter (λ v, canonicalJSON v ∈ canonicalJSON <$> src) dst with
      | [] => None
      | out => Some out
      end
  end.

(** The distinct names of both lists, sorted. *)
Definition unionRequired (dst src : list string) : list string :=
  sort_strings (foldl (λ out name, if bool_decide (name ∈ out) then out else out ++ [name]) [] (dst ++ src)).

Definition merge_type (err : merge_error) (dst src : string) : res merge_error string :=
  if bool_decide (src = "") then Ok dst
  else if negb (bool_decide (dst = "")) && negb (bool_decide (dst = src)) then Err err
  else Ok src.

Definition merge_preserve (err : merge_error) (dst src : option bool) : res merge_error (option bool) :=
  match src, dst with
  | None, _ => Ok dst
  | Some b, Some b' => if bool_decide (b = b') then Ok (Some b) else Err err
  | Some b, None => Ok (Some b)
  end.

Definition merge_enum (err : merge_error) (dst src : list string) : res merge_error (list string) :=
  match src with
  | [] => Ok dst
  | _ => match intersectEnums dst src with Some l => Ok l | None => Err err end
  end.

Definition merge_union (err : merge_error) (dst src : list JSONSchemaProps)
    : res merge_error (list JSONSchemaProps) :=
  match src, dst with
  | [], _ => Ok dst
  | _, [] => Ok src
  | _, _ => Err err
  end.

(** One property of the branch: merged into the parent's, or added.  [merges] holds
    each branch property with the function that merges it into a parent's. *)
Definition merge_property (path : FieldPath) (branch : nat)
    (merges : gmap string (JSONSchemaProps * (JSONSchemaProps → FieldPath → nat → res merge_error JSONSchemaProps)))
    (props : gmap string JSONSchemaProps) (name : string)
    : res merge_error (gmap string JSONSchemaProps) :=
  match merges !! name with
  | None => Ok props
  | Some (srcProp, merge) =>
      match props !! name with
      | Some dstProp => merged ← merge dstProp (path ++ [name]) branch; Ok (<[name := merged]> props)
      | None => Ok (<[name := srcProp]> props)
      end
  end.

(** [mergeSchema(dst, src, path, branch)], as the new [dst]. *)
Fixpoint mergeSchema (src dst : JSONSchemaProps) (path : FieldPath) (branch : nat)
    : res merge_error JSONSchemaProps :=
  let where_ := pathOrRoot path in
  ty ← merge_type (EMergeType where_ branch (sType src) (sType dst)) (sType dst) (sType src);
  let nullable := if bool_decide (sType src = "") then sNullable dst else sNullable dst && sNullable src in
  preserve ← merge_preserve (EMergePreserve where_ branch) (sXPreserveUnknownFields dst) (sXPreserveUnknownFields src);
  enum ← merge_enum (EMergeEnum where_ branch) (sEnum dst) (sEnum src);
  let required := match sRequired src with [] => sRequired dst | _ => unionRequired (sRequired dst) (sRequired src) end in
  oneOf ← merge_union (EMergeUnion where_ branch "oneOf") (sOneOf dst) (sOneOf src);
  anyOf ← merge_union (EMergeUnion where_ branch "anyOf") (sAnyOf dst) (sAnyOf src);
  props ← res_foldl (merge_property path branch ((λ p, (p, mergeSchema p)) <$> sProperties src))
            (sProperties dst) (sort_strings (map_to_list (sProperties src)).*1);
  items ← (match sItems src with
           | Some (Some srcItem, _) as srcItems =>
               match sItems dst with
               | Some (Some dstItem, _) =>
                   merged ← mergeSchema srcItem dstItem (path ++ ["[]"]) branch; Ok (Some (Some merged, []))
               | _ => Ok srcItems
               end
           | _ => Ok (sItems dst)
           end);
  additional ← (match sAdditionalProperties src with
                | None => Ok (sAdditionalProperties dst)
                | Some (_, srcExtra) as srcAdditional =>
                    match sAdditionalProperties dst with
                    | None => Ok srcAdditional
                    | Some (allows, dstExtra) =>
                        match srcExtra, dstExtra with
                        | Some srcSchema, Some dstSchema =>
                            merged ← mergeSchema srcSchema dstSchema (path ++ ["{}"]) branch;
                            Ok (Some (allows, Some merged))
                        | _, _ => Ok (sAdditionalProperties dst)
                        end
                    end
                end);
  Ok (Schema (sRef dst) ty nullable preserve enum required oneOf anyOf (sAllOf dst) props items additional
        (sDefinitions dst) (sMaxItems dst) (sDefault dst) (sDescription dst) (sTitle dst) (sOther dst)).

(** ** [normalizer.node] *)

Definition without_allOf (s : JSONSchemaProps) : JSONSchemaProps :=
  Schema (sRef s) (sType s) (sNullable s) (sXPreserveUnknownFields s) (sEnum s) (sRequired s) (sOneOf s) (sAnyOf s)
    [] (sProperties s) (sItems s) (sAdditionalProperties s) (sDefinitions s) (sMaxItems s) (sDefault s)
    (sDescription s) (sTitle s) (sOther s).

Definition with_children (s : JSONSchemaProps) (props : gmap string JSONSchemaProps)
    (items : option (option JSONSchemaProps * list JSONSchemaProps))
    (additional : option (bool * option JSONSchemaProps)) : JSONSchemaProps :=
  Schema (sRef s) (sType s) (sNullable s) (sXPreserveUnknownFields s) (sEnum s) (sRequired s) (sOneOf s) (sAnyOf s)
    (sAllOf s) props items additional (sDefinitions s) (sMaxItems s) (sDefault s)
    (sDescription s) (sTitle s) (sOther s).

(** The checks of [resolveRef] before the reference is followed. *)
Definition resolveRef (root : JSONSchemaProps) (inFlight : gset string) (s : JSONSchemaProps)
    (ref : string) (path : FieldPath) : res normalize_error JSONSchemaProps :=
  if negb (has_prefix ref "#") then Err (ERefNotLocal (pathOrRoot path) ref)
  else
    match refSiblings s with
    | _ :: _ as extra => Err (ERefSiblings (pathOrRoot path) ref extra)
    | [] =>
        if bool_decide (ref ∈ inFlight) then Err (ERefCyclic (pathOrRoot path) ref)
        else res_wrap (EPointer (pathOrRoot path)) (resolvePointer root ref)
    end.

Section normalize.
Context `{RO : RangeOrder}.

(** The children of a node whose branches are merged, with [rec] for the recursive call. *)
Definition normalize_children
    (rec : JSONSchemaProps → FieldPath → res normalize_error JSONSchemaProps)
    (path : FieldPath) (out : JSONSchemaProps) : res normalize_error JSONSchemaProps :=
  props ← res_mapM (λ '(name, p), n ← rec p (path ++ [name]); Ok (name, n)) (range (sProperties out));
  items ← (match sItems out with
           | Some (Some item, more) => n ← rec item (path ++ ["[]"]); Ok (Some (Some n, more))
           | other => Ok other
           end);
  additional ← (match sAdditionalProperties out with
                | Some (allows, Some extra) => n ← rec extra (path ++ ["{}"]); Ok (Some (allows, Some n))
                | other => Ok other
                end);
  Ok (with_children out (list_to_map props) items additional).

Definition merge_branches
    (rec : JSONSchemaProps → FieldPath → res normalize_error JSONSchemaProps)
    (path : FieldPath) (s : JSONSchemaProps) : res normalize_error JSONSchemaProps :=
  res_foldl (λ out '(i, b), branch ← rec b path; res_wrap EMerge (mergeSchema branch out path i))
    (without_allOf s) (imap pair (sAllOf s)).

Fixpoint node (fuel : nat) (root : JSONSchemaProps) (inFlight : gset string) (s : JSONSchemaProps)
    (path : FieldPath) : res normalize_error JSONSchemaProps :=
  match fuel with
  | O => Err OutOfFuel
  | S fuel =>
      match refOf s with
      | Some ref =>
          target ← resolveRef root inFlight s ref path;
          node fuel root ({[ref]} ∪ inFlight) target path
      | None =>
          out ← merge_branches (node fuel root inFlight) path s;
          normalize_children (node fuel root inFlight) path out
      end
  end.

Definition NormalizeSchema (fuel : nat) (schema : option JSONSchemaProps)
    : res normalize_error (option JSONSchemaProps) :=
  match schema with
  | None => Ok None
  | Some s => Some <$> node fuel s ∅ s []
  end.

(** [NormalizedVersions], of the versions the source returned. *)
Definition NormalizedVersions (fuel : nat) (versions : list VersionSchema)
    : res normalize_error (list VersionSchema) :=
  res_mapM (λ v,
    n ← res_wrap (EVersion (vsName v)) (NormalizeSchema fuel (vsSchema v));
    Ok {| vsName := vsName v; vsSchema := n; vsServed := vsServed v; vsStorage := vsStorage v |}) versions.
End normalize.
