(* ===== verification/NormalizeTheory.v ===== *)
(** Normalisation removes every [$ref] and [allOf] it walks over, hides no declared
    field, changes nothing the second time, and terminates. *)
From S2P Require Import Prelude Float64 Value Json Path Schema Normalize.

(** ** Subschemas *)

(** The subschemas [node] walks into. *)
Definition children (s : JSONSchemaProps) : list JSONSchemaProps :=
  (map_to_list (sProperties s)).*2 ++ option_list (itemsSchema s) ++ option_list (additionalSchema s).

(** The number of nodes. *)
Fixpoint schema_size (s : JSONSchemaProps) : nat :=
  S (map_fold (λ _ p n, schema_size p + n) 0 (sProperties s) +
     map_fold (λ _ p n, schema_size p + n) 0 (sDefinitions s) +
     list_sum (schema_size <$> sAllOf s) +
     match sItems s with Some (Some i, _) => schema_size i | _ => 0 end +
     match sAdditionalProperties s with Some (_, Some a) => schema_size a | _ => 0 end).

Lemma size_member (m : gmap string JSONSchemaProps) k p :
  m !! k = Some p → schema_size p ≤ map_fold (λ _ p n, schema_size p + n) 0 m.
Proof.
  apply (map_fold_weak_ind (λ r (m : gmap string JSONSchemaProps),
    m !! k = Some p → schema_size p ≤ r)).
  - by rewrite lookup_empty.
  - intros k' q m' r _ IH [[_ ->]|[_ ?%IH]]%lookup_insert_Some; lia.
Qed.

Lemma size_property s k p : sProperties s !! k = Some p → schema_size p < schema_size s.
Proof. intros Hk%size_member. destruct s; cbn in *; lia. Qed.

Lemma size_definition s k p : sDefinitions s !! k = Some p → schema_size p < schema_size s.
Proof. intros Hk%size_member. destruct s; cbn in *; lia. Qed.

Lemma size_branch s b : b ∈ sAllOf s → schema_size b < schema_size s.
Proof.
  intros Hb. assert (schema_size b ≤ list_sum (schema_size <$> sAllOf s)) as Hle.
  { clear -Hb. induction (sAllOf s) as [|c l IH]; [by apply not_elem_of_nil in Hb|].
    apply elem_of_cons in Hb as [->|Hb]; unfold list_sum in *; cbn; [lia|]. specialize (IH Hb). lia. }
  destruct s; cbn in *; lia.
Qed.

Lemma elem_of_optional {A} (a : A) (o : option A) : a ∈ option_list o ↔ o = Some a.
Proof. destruct o; cbn; rewrite ?list_elem_of_singleton, ?elem_of_nil; naive_solver. Qed.

Lemma elem_of_children c s :
  c ∈ children s ↔ (∃ k, sProperties s !! k = Some c) ∨ itemsSchema s = Some c ∨ additionalSchema s = Some c.
Proof.
  unfold children. rewrite !elem_of_app, !elem_of_optional, list_elem_of_fmap. split.
  - intros [([k p] & -> & Hk%elem_of_map_to_list)|H]; [left; by exists k|by right].
  - intros [[k Hk]|H]; [|by right]. left. exists (k, c). split; [done|]. by apply elem_of_map_to_list.
Qed.

Lemma size_child s c : c ∈ children s → schema_size c < schema_size s.
Proof.
  intros [[k Hk]|[H|H]]%elem_of_children; [by eapply size_property|..].
  all: destruct s as [????????? ? it ad ??????]; unfold itemsSchema, additionalSchema in H; cbn in H.
  - destruct it as [[i more]|]; cbn in H; [|done]. subst i. cbn. lia.
  - destruct ad as [[al a]|]; cbn in H; [|done]. subst a. cbn. lia.
Qed.

Lemma schema_ind (P : JSONSchemaProps → Prop) :
  (∀ s, (∀ c, c ∈ children s → P c) → (∀ b, b ∈ sAllOf s → P b) →
    (∀ k d, sDefinitions s !! k = Some d → P d) → P s) → ∀ s, P s.
Proof.
  intros Hstep s. remember (schema_size s) as n eqn:Hn. revert s Hn.
  induction (lt_wf n) as [n _ IH]; intros s ->. apply Hstep.
  - intros c Hc. eapply IH; [by apply size_child|done].
  - intros b Hb. eapply IH; [by apply size_branch|done].
  - intros k d Hd. eapply IH; [by eapply size_definition|done].
Qed.

(** ** Normal schemas *)

(** No [$ref] and no [allOf], here or below. *)
Inductive normal : JSONSchemaProps → Prop :=
| Normal s : refOf s = None → sAllOf s = [] → (∀ c, c ∈ children s → normal c) → normal s.

(** The same reference, branches and definitions. *)
Definition same_junctors (s s' : JSONSchemaProps) : Prop :=
  sRef s' = sRef s ∧ sAllOf s' = sAllOf s ∧ sDefinitions s' = sDefinitions s.

(** The children of a merged node are children of the parent, children of the
    branch, or one merged into the other. *)
Definition merged_child (src dst : JSONSchemaProps) (c : JSONSchemaProps) : Prop :=
  c ∈ children dst ∨ c ∈ children src ∨
  ∃ a b p i, a ∈ children src ∧ b ∈ children dst ∧ mergeSchema a b p i = Ok c.

Lemma merge_property_inv path i ps (src dst : JSONSchemaProps) props props' names :
  res_foldl (merge_property path i ((λ p, (p, mergeSchema p)) <$> ps)) props names = Ok props' →
  (∀ k c, ps !! k = Some c → c ∈ children src) →
  (∀ k c, props !! k = Some c → c ∈ children dst ∨ merged_child src dst c) →
  NoDup names → (∀ k, k ∈ names → ∀ c, props !! k = Some c → c ∈ children dst) →
  ∀ k c, props' !! k = Some c → merged_child src dst c.
Proof.
  intros Hrun Hps. revert props Hrun. induction names as [|n names IH]; intros props Hrun Hprops Hnd Hdst.
  { injection Hrun as ->. intros k c [?|?]%Hprops; [by left|done]. }
  apply NoDup_cons in Hnd as [Hn Hnd]. cbn in Hrun. apply res_bind_Ok in Hrun as (p1 & Hp1 & Hrun).
  unfold merge_property in Hp1. rewrite lookup_fmap in Hp1.
  destruct (ps !! n) as [sp|] eqn:Hsp; cbn in Hp1.
  2: { injection Hp1 as <-. apply (IH props); try done. intros k Hk. apply Hdst. by right. }
  assert (∃ c, p1 = <[n := c]> props ∧ merged_child src dst c) as (c & -> & Hc).
  { destruct (props !! n) as [dp|] eqn:Hdp.
    - apply res_bind_Ok in Hp1 as (m & Hm & [= <-]). exists m. split; [done|]. right; right.
      exists sp, dp, (path ++ [n]), i. split_and!; [by eapply Hps| |done]. eapply Hdst; [by left|done].
    - injection Hp1 as <-. exists sp. split; [done|]. right; left. by eapply Hps. }
  apply (IH _ Hrun).
  - intros k c' [[<- <-]|[_ Hk]]%lookup_insert_Some; [by right|by eapply Hprops].
  - done.
  - intros k Hk c' Hl. rewrite lookup_insert_ne in Hl by (by intros ->). eapply Hdst; [by right|done].
Qed.

Lemma mergeSchema_spec src dst path i m :
  mergeSchema src dst path i = Ok m →
  same_junctors dst m ∧ ∀ c, c ∈ children m → merged_child src dst c.
Proof.
  destruct src as [sref sty snul sxp sen sreq s1 s2 s3 sprops sit sad sdefs smx sdf sds stt sot].
  set (src := Schema _ _ _ _ _ _ _ _ _ _ _ _ _ _ _ _ _ _). intros Hm. cbn in Hm.
  apply res_bind_Ok in Hm as (ty & _ & Hm). apply res_bind_Ok in Hm as (pr & _ & Hm).
  apply res_bind_Ok in Hm as (en & _ & Hm). apply res_bind_Ok in Hm as (oo & _ & Hm).
  apply res_bind_Ok in Hm as (ao & _ & Hm). apply res_bind_Ok in Hm as (props & Hprops & Hm).
  apply res_bind_Ok in Hm as (items & Hitems & Hm). apply res_bind_Ok in Hm as (ad & Had & [= <-]).
  split; [done|]. intros c [[k Hk]|[Hc|Hc]]%elem_of_children.
  - eapply (merge_property_inv path i sprops src dst); [exact Hprops|..|exact Hk].
    + intros k' c' Hk'. apply elem_of_children. left. by exists k'.
    + intros k' c' Hk'. left. apply elem_of_children. left. by exists k'.
    + rewrite sort_strings_perm. apply NoDup_fst_map_to_list.
    + intros k' _ c' Hk'. apply elem_of_children. left. by exists k'.
  - unfold itemsSchema in Hc. cbn in Hc.
    assert (∀ di, itemsSchema dst = Some di → di ∈ children dst) as Hdst
      by (intros; apply elem_of_children; auto).
    destruct sit as [[[si|] more]|].
    2-3: injection Hitems as <-; left; by apply Hdst.
    assert (si ∈ children src) as Hsi by (apply elem_of_children; right; by left).
    assert (itemsSchema dst = None ∧ items = Some (Some si, more) ∨
      ∃ di merged, itemsSchema dst = Some di ∧ mergeSchema si di (path ++ ["[]"]) i = Ok merged ∧
        items = Some (Some merged, [])) as [[_ ->]|(di & merged & Hdi & Hmg & ->)].
    { unfold itemsSchema. destruct (sItems dst) as [[[di|] dmore]|]; cbn in *.
      - apply res_bind_Ok in Hitems as (mg & Hmg & [= <-]). right. by exists di, mg.
      - injection Hitems as <-. by left.
      - injection Hitems as <-. by left. }
    + cbn in Hc. injection Hc as <-. right; by left.
    + cbn in Hc. injection Hc as <-. right; right. exists si, di, (path ++ ["[]"]), i. auto.
  - unfold additionalSchema in Hc. cbn in Hc.
    assert (∀ di, additionalSchema dst = Some di → di ∈ children dst) as Hdst
      by (intros; apply elem_of_children; auto).
    destruct sad as [[al [sa|]]|].
    2: { destruct (sAdditionalProperties dst) as [[al' [da|]]|] eqn:Hd; injection Had as <-; try done.
         left. apply Hdst. unfold additionalSchema. by rewrite Hd. }
    2: { injection Had as <-. left. by apply Hdst. }
    assert (sa ∈ children src) as Hsa by (apply elem_of_children; by right; right).
    unfold additionalSchema in Hdst. destruct (sAdditionalProperties dst) as [[al' [da|]]|]; cbn in *.
    + apply res_bind_Ok in Had as (mg & Hmg & [= <-]). cbn in Hc. injection Hc as <-.
      right; right. exists sa, da, (path ++ ["{}"]), i. auto.
    + by injection Had as <-.
    + injection Had as <-. cbn in Hc. injection Hc as <-. right; by left.
Qed.

(** ** The result is normal *)

Lemma same_junctors_refOf s s' : same_junctors s s' → refOf s' = refOf s.
Proof. intros (H & _). unfold refOf. by rewrite H. Qed.

#[export] Instance same_junctors_trans : Transitive same_junctors.
Proof. intros a b c (H1 & H2 & H3) (H4 & H5 & H6). split_and!; congruence. Qed.

Section node_lemmas.
Context `{RO : RangeOrder}.

Lemma normalize_children_spec rec path out s' :
  normalize_children rec path out = Ok s' →
  same_junctors out s' ∧ ∀ c, c ∈ children s' → ∃ a p, a ∈ children out ∧ rec a p = Ok c.
Proof.
  unfold normalize_children. intros H. apply res_bind_Ok in H as (props & Hprops & H).
  apply res_bind_Ok in H as (items & Hitems & H). apply res_bind_Ok in H as (ad & Had & [= <-]).
  split; [done|]. intros c [[k Hk]|[Hc|Hc]]%elem_of_children.
  - cbn in Hk. apply elem_of_list_to_map_2 in Hk. apply res_mapM_Forall2 in Hprops.
    apply list_elem_of_lookup in Hk as [j Hj].
    destruct (Forall2_lookup_r _ _ _ _ _ Hprops Hj) as ([k' a] & Ha & Hr).
    apply res_bind_Ok in Hr as (n & Hn & [= <- <-]). exists a, (path ++ [k']). split; [|done].
    apply elem_of_children. left. exists k'. apply elem_of_range. by eapply list_elem_of_lookup_2.
  - unfold itemsSchema in Hc. cbn in Hc. destruct (sItems out) as [[[i|] more]|] eqn:Hi; cbn in Hitems.
    2-3: by injection Hitems as <-.
    apply res_bind_Ok in Hitems as (n & Hn & [= <-]). injection Hc as <-. exists i, (path ++ ["[]"]).
    split; [|done]. apply elem_of_children. right; left. unfold itemsSchema. by rewrite Hi.
  - unfold additionalSchema in Hc. cbn in Hc.
    destruct (sAdditionalProperties out) as [[al [i|]]|] eqn:Hi; cbn in Had.
    2-3: by injection Had as <-.
    apply res_bind_Ok in Had as (n & Hn & [= <-]). injection Hc as <-. exists i, (path ++ ["{}"]).
    split; [|done]. apply elem_of_children. right; right. unfold additionalSchema. by rewrite Hi.
Qed.

Lemma merge_branches_spec (P : JSONSchemaProps → Prop) rec path s out :
  (∀ src dst i m, P dst → (∃ b p, b ∈ sAllOf s ∧ rec b p = Ok src) →
    mergeSchema src dst path i = Ok m → P m) →
  P (without_allOf s) → merge_branches rec path s = Ok out →
  P out ∧ same_junctors (without_allOf s) out.
Proof.
  intros HP H0 Hrun. unfold merge_branches in Hrun.
  eapply (res_foldl_inv (λ out, P out ∧ same_junctors (without_allOf s) out)) in Hrun; [done| |done].
  intros x [i b] m Hin [Hx Hj] Hm. apply res_bind_Ok in Hm as (src & Hsrc & Hm).
  apply res_wrap_Ok in Hm. apply elem_of_lookup_imap in Hin as (i' & b' & [= -> ->] & Hb).
  apply list_elem_of_lookup_2 in Hb. split; [eapply HP; eauto|]. etrans; [exact Hj|].
  by eapply mergeSchema_spec.
Qed.

Lemma node_normal fuel root fl s path s' : node fuel root fl s path = Ok s' → normal s'.
Proof.
  revert fl s path s'; induction fuel as [|fuel IH]; intros fl s path s' Hs; [done|]. cbn in Hs.
  destruct (refOf s) as [ref|] eqn:Hr.
  { apply res_bind_Ok in Hs as (t & _ & Hs). by eapply IH. }
  apply res_bind_Ok in Hs as (out & Hout & Hs).
  apply (merge_branches_spec (λ _, True)) in Hout as [_ Hj]; [|done..].
  apply normalize_children_spec in Hs as [Hj' Hc]. pose proof (same_junctors_trans _ _ _ Hj Hj') as Hs'.
  constructor.
  - rewrite (same_junctors_refOf _ _ Hs'). exact Hr.
  - by destruct Hs' as (_ & -> & _).
  - intros c (a & p & _ & Ha)%Hc. by eapply IH.
Qed.
(** ** A normal schema is left alone *)

Lemma without_allOf_id s : sAllOf s = [] → without_allOf s = s.
Proof. destruct s; cbn. by intros ->. Qed.

Lemma with_children_id s : with_children s (sProperties s) (sItems s) (sAdditionalProperties s) = s.
Proof. by destruct s. Qed.

Lemma normalize_children_id rec path s :
  (∀ c p, c ∈ children s → rec c p = Ok c) → normalize_children rec path s = Ok s.
Proof.
  intros Hrec. unfold normalize_children.
  assert (res_mapM (λ '(name, p), n ← rec p (path ++ [name]); Ok (name, n)) (range (sProperties s))
    = Ok (range (sProperties s))) as ->.
  { apply res_mapM_Forall2, Forall2_same_length_lookup. split; [done|].
    intros i [k p] [k' p'] Hi Hi'. rewrite Hi in Hi'. injection Hi' as <- <-.
    rewrite Hrec; [done|]. apply elem_of_children. left. exists k. apply elem_of_range.
    by eapply list_elem_of_lookup_2. }
  cbn. rewrite list_to_map_range.
  assert ((match sItems s with
           | Some (Some item, more) => n ← rec item (path ++ ["[]"]); Ok (Some (Some n, more))
           | other => Ok other
           end : res normalize_error _) = Ok (sItems s)) as ->.
  { destruct (sItems s) as [[[i|] more]|] eqn:Hi; try done. rewrite Hrec; [done|].
    apply elem_of_children. right; left. unfold itemsSchema. by rewrite Hi. }
  cbn. assert ((match sAdditionalProperties s with
           | Some (allows, Some extra) => n ← rec extra (path ++ ["{}"]); Ok (Some (allows, Some n))
           | other => Ok other
           end : res normalize_error _) = Ok (sAdditionalProperties s)) as ->.
  { destruct (sAdditionalProperties s) as [[al [i|]]|] eqn:Hi; try done. rewrite Hrec; [done|].
    apply elem_of_children. right; right. unfold additionalSchema. by rewrite Hi. }
  cbn. by rewrite with_children_id.
Qed.

Lemma node_id fuel root fl s path :
  normal s → schema_size s ≤ fuel → node fuel root fl s path = Ok s.
Proof.
  intros Hs; revert fuel path. induction Hs as [s Hr Hb Hc IH]; intros [|fuel] path Hf.
  { destruct s; cbn in Hf; lia. }
  cbn. rewrite Hr. unfold merge_branches. rewrite Hb. cbn. rewrite without_allOf_id by done.
  apply normalize_children_id. intros c p Hin. apply IH; [done|].
  pose proof (size_child _ _ Hin). lia.
Qed.

(** ** Declared fields stay declared *)

Definition declares (s : JSONSchemaProps) (p : FieldPath) : Prop := ∃ n, lookupPath s p = Ok n.

Lemma declares_cons s k p : declares s (k :: p) ↔ ∃ c, sProperties s !! k = Some c ∧ declares c p.
Proof.
  unfold declares. setoid_rewrite lookupPath_cons. naive_solver.
Qed.

(** Merging keeps every property of the parent, merged or not. *)
Lemma merge_property_keeps path i ps props props' names k c :
  res_foldl (merge_property path i ((λ p, (p, mergeSchema p)) <$> ps)) props names = Ok props' →
  NoDup names → props !! k = Some c →
  ∃ c', props' !! k = Some c' ∧ (c' = c ∨ ∃ a p, mergeSchema a c p i = Ok c').
Proof.
  intros Hrun. revert props Hrun c. induction names as [|n names IH]; intros props Hrun c Hnd Hk.
  { injection Hrun as ->. eauto. }
  apply NoDup_cons in Hnd as [Hn Hnd]. cbn in Hrun. apply res_bind_Ok in Hrun as (p1 & Hp1 & Hrun).
  destruct (decide (k = n)) as [->|Hne].
  - assert (p1 !! n = props' !! n) as Hfix.
    { clear IH Hp1 Hk. revert p1 Hrun. induction names as [|n' names IH]; intros p1 Hrun; [by injection Hrun as ->|].
      apply not_elem_of_cons in Hn as [Hnn Hn]. apply NoDup_cons in Hnd as [_ Hnd].
      cbn in Hrun. apply res_bind_Ok in Hrun as (p2 & Hp2 & Hrun). rewrite <-(IH Hn Hnd _ Hrun).
      unfold merge_property in Hp2. destruct (_ !! n') as [[sp mf]|]; [|by injection Hp2 as ->].
      destruct (p1 !! n') as [dp|]; simplify_res; by rewrite lookup_insert_ne. }
    rewrite <-Hfix. unfold merge_property in Hp1. rewrite lookup_fmap, Hk in Hp1.
    destruct (ps !! n) as [sp|]; cbn in Hp1; simplify_res; [|by eauto].
    rewrite lookup_insert_eq. eauto 10.
  - apply (IH p1 Hrun c Hnd). unfold merge_property in Hp1.
    destruct (_ !! n) as [[sp mf]|]; [|by injection Hp1 as ->].
    destruct (props !! n) as [dp|]; simplify_res; by rewrite lookup_insert_ne.
Qed.

Lemma mergeSchema_property src dst path i m k c :
  mergeSchema src dst path i = Ok m → sProperties dst !! k = Some c →
  ∃ c', sProperties m !! k = Some c' ∧ (c' = c ∨ ∃ a p, mergeSchema a c p i = Ok c').
Proof.
  destruct src as [sref sty snul sxp sen sreq s1 s2 s3 sprops sit sad sdefs smx sdf sds stt sot].
  intros Hm Hk. cbn in Hm. do 5 (apply res_bind_Ok in Hm as (? & _ & Hm)).
  apply res_bind_Ok in Hm as (props & Hprops & Hm). do 2 (apply res_bind_Ok in Hm as (? & _ & Hm)).
  injection Hm as <-. eapply merge_property_keeps; [exact Hprops| |exact Hk].
  rewrite sort_strings_perm. apply NoDup_fst_map_to_list.
Qed.

Lemma mergeSchema_declares src dst path i m p :
  mergeSchema src dst path i = Ok m → declares dst p → declares m p.
Proof.
  revert src dst path i m; induction p as [|k p IH]; intros src dst path i m Hm Hd.
  { by exists m. }
  apply declares_cons in Hd as (c & Hk & Hc). apply declares_cons.
  destruct (mergeSchema_property _ _ _ _ _ _ _ Hm Hk) as (c' & Hk' & [->|(a & q & Ha)]); [by eauto|].
  exists c'. split; [done|]. by eapply IH.
Qed.

Lemma normalize_children_property rec path out s' k c :
  normalize_children rec path out = Ok s' → sProperties out !! k = Some c →
  ∃ c' q, sProperties s' !! k = Some c' ∧ rec c q = Ok c'.
Proof.
  unfold normalize_children. intros H Hk. apply res_bind_Ok in H as (props & Hprops & H).
  do 2 (apply res_bind_Ok in H as (? & _ & H)). injection H as <-. cbn.
  apply res_mapM_Forall2 in Hprops. pose proof (proj2 (elem_of_range _ _ _) Hk) as Hin.
  apply list_elem_of_lookup in Hin as [j Hj].
  destruct (Forall2_lookup_l _ _ _ _ _ Hprops Hj) as ([k' n] & Hn & Hr).
  apply res_bind_Ok in Hr as (n' & Hn' & [= <- <-]). exists n', (path ++ [k]). split; [|done].
  apply elem_of_list_to_map_1; [|by eapply list_elem_of_lookup_2].
  assert (props.*1 = (range (sProperties out)).*1) as ->; [|apply NoDup_range_fst].
  clear -Hprops. induction Hprops as [|[a b] [a' b'] l l' Hab Hl IH]; [done|]. cbn. rewrite IH.
  by apply res_bind_Ok in Hab as (? & _ & [= <- <-]).
Qed.

(** No field the author declared disappears. *)
Lemma node_declares fuel root fl s path s' p :
  node fuel root fl s path = Ok s' → declares s p → declares s' p.
Proof.
  revert fuel s s' path fl; induction p as [|k p IH]; intros [|fuel] s s' path fl Hs Hd; try done.
  { by exists s'. }
  cbn in Hs. destruct (refOf s) as [ref|] eqn:Hr.
  - apply res_bind_Ok in Hs as (t & Ht & _). exfalso. unfold resolveRef in Ht.
    destruct (negb _); [done|]. destruct (refSiblings s) eqn:Hsib; [|done].
    apply declares_cons in Hd as (c & Hk & _).
    assert ("properties" ∈ refSiblings s) as Hin; [|rewrite Hsib in Hin; by apply not_elem_of_nil in Hin].
    unfold refSiblings. apply elem_of_sort_strings, elem_of_concat.
    exists (when_set (hasProperties s) "properties"). split; [set_solver|].
    rewrite (hasProperties_lookup _ _ _ Hk). set_solver.
  - apply res_bind_Ok in Hs as (out & Hout & Hs).
    apply (merge_branches_spec (λ out, declares out (k :: p))) in Hout as [Ho _].
    + apply declares_cons in Ho as (c & Hk & Hc).
      destruct (normalize_children_property _ _ _ _ _ _ Hs Hk) as (c' & q & Hk' & Hq).
      apply declares_cons. exists c'. split; [done|]. by eapply IH.
    + intros src dst i m Hdst _ Hm. by eapply mergeSchema_declares.
    + apply declares_cons in Hd as (c & Hk & Hc). apply declares_cons. by exists c.
Qed.
End node_lemmas.

(** ** Termination

    A run over fuel is [stable] when from some fuel on it gives one and the same
    answer, other than running out. *)
Definition stable {A} (g : nat → res normalize_error A) : Prop :=
  ∃ F r, r ≠ Err OutOfFuel ∧ ∀ fuel, F ≤ fuel → g fuel = r.

Lemma stable_const {A} (r : res normalize_error A) : r ≠ Err OutOfFuel → stable (λ _, r).
Proof. intros Hr. by exists 0, r. Qed.

Lemma stable_S {A} (g : nat → res normalize_error A) (h : nat → res normalize_error A) :
  (∀ fuel, g (S fuel) = h fuel) → stable h → stable g.
Proof.
  intros Hg (F & r & Hr & Hh). exists (S F), r. split; [done|]. intros [|fuel] Hf; [lia|].
  rewrite Hg. apply Hh. lia.
Qed.

Lemma stable_bind {A B} (g : nat → res normalize_error A) (h : nat → A → res normalize_error B) :
  stable g → (∀ a, (∃ fuel, g fuel = Ok a) → stable (λ fuel, h fuel a)) →
  stable (λ fuel, g fuel ≫= h fuel).
Proof.
  intros (F & r & Hr & Hg) Hh. destruct r as [a|e].
  - destruct (Hh a) as (F' & r' & Hr' & Hh'); [exists F; by apply Hg|]. exists (F `max` F'), r'.
    split; [done|]. intros fuel Hf. rewrite Hg by lia. cbn. apply Hh'. lia.
  - exists F, (Err e). split; [by intros [= ->]|]. intros fuel Hf. by rewrite Hg.
Qed.

Lemma stable_mapM {A B} (f : nat → A → res normalize_error B) l :
  (∀ a, a ∈ l → stable (λ fuel, f fuel a)) → stable (λ fuel, res_mapM (f fuel) l).
Proof.
  induction l as [|a l IH]; intros Hf; [by apply (stable_const (Ok []))|]. cbn.
  apply (stable_bind (λ fuel, f fuel a)); [apply Hf; by left|]. intros b _.
  apply (stable_bind (λ fuel, res_mapM (f fuel) l)); [apply IH; intros; apply Hf; by right|].
  intros bs _. by apply stable_const.
Qed.

Lemma stable_foldl {A B} (P : B → Prop) (f : nat → B → A → res normalize_error B) l b :
  P b → (∀ a x, a ∈ l → P x → stable (λ fuel, f fuel x a)) →
  (∀ a x x' fuel, a ∈ l → P x → f fuel x a = Ok x' → P x') →
  stable (λ fuel, res_foldl (f fuel) b l).
Proof.
  revert b; induction l as [|a l IH]; intros b Hb Hf HP; [by apply (stable_const (Ok b))|]. cbn.
  apply (stable_bind (λ fuel, f fuel b a)); [apply Hf; [by left|done]|].
  intros b' [fuel Hb']. apply IH.
  - eapply HP; [by left|exact Hb|exact Hb'].
  - intros; apply Hf; [by right|done].
  - intros. eapply HP; [by right|done..].
Qed.

(** *** How far a schema is from normal *)

Fixpoint ranked (n : nat) (s : JSONSchemaProps) : Prop :=
  match n with
  | O => normal s
  | S n => (∀ c, c ∈ children s → ranked n c) ∧ (∀ b, b ∈ sAllOf s → ranked n b)
  end.

Lemma ranked_S n s : ranked n s → ranked (S n) s.
Proof.
  revert s; induction n as [|n IH]; intros s Hs.
  - inversion Hs as [? _ Hb Hc]; subst. split; [exact Hc|]. rewrite Hb. by intros ? ?%not_elem_of_nil.
  - destruct Hs as [Hc Hb]. split; intros; apply IH; [by apply Hc|by apply Hb].
Qed.

Lemma ranked_le n m s : n ≤ m → ranked n s → ranked m s.
Proof. induction 1; [done|]. intros. apply ranked_S. auto. Qed.

Lemma list_bound {A} (P : nat → A → Prop) (l : list A) :
  (∀ n m a, n ≤ m → P n a → P m a) → (∀ a, a ∈ l → ∃ n, P n a) → ∃ N, ∀ a, a ∈ l → P N a.
Proof.
  intros Hm. induction l as [|a l IH]; intros Hl; [exists 0; by intros ? ?%not_elem_of_nil|].
  destruct (Hl a) as [n Hn]; [by left|]. destruct IH as [N HN]; [intros; apply Hl; by right|].
  exists (n `max` N). intros x [->|Hx]%elem_of_cons; [eapply Hm; [|exact Hn]; lia|].
  eapply Hm; [|by apply HN]. lia.
Qed.

Lemma ranked_exists s : ∃ n, ranked n s.
Proof.
  induction s as [s IHc IHb _] using schema_ind.
  destruct (list_bound ranked (children s)) as [N HN]; [apply ranked_le|done|].
  destruct (list_bound ranked (sAllOf s)) as [M HM]; [apply ranked_le|done|].
  exists (S (N `max` M)). split; intros x Hx.
  - eapply ranked_le; [|by apply HN]. lia.
  - eapply ranked_le; [|by apply HM]. lia.
Qed.

Lemma mergeSchema_ranked src dst path i m n :
  normal src → ranked n dst → mergeSchema src dst path i = Ok m → ranked n m.
Proof.
  intros Hs; revert dst path i m n. induction Hs as [src Hr Hb Hc IH]; intros dst path i m n Hdst Hm.
  pose proof Hm as [Hj Hch]%mergeSchema_spec. destruct n as [|n].
  - inversion Hdst as [? Hdr Hdb Hdc]; subst. constructor.
    + by rewrite (same_junctors_refOf _ _ Hj).
    + by destruct Hj as (_ & -> & _).
    + intros c [H|[H|(a & b & p & j & Ha & Hb' & Hab)]]%Hch; [by apply Hdc|by apply Hc|].
      by apply (IH a Ha b p j c 0 (Hdc b Hb')).
  - destruct Hdst as [Hdc Hdb]. split.
    + intros c [H|[H|(a & b & p & j & Ha & Hb' & Hab)]]%Hch; [by apply Hdc| |].
      * apply (ranked_le 0 n); [lia|]. by apply Hc.
      * by apply (IH a Ha b p j c n (Hdc b Hb')).
    + destruct Hj as (_ & -> & _). exact Hdb.
Qed.

(** *** The references of a schema *)

Inductive refs_in (R : gset string) : JSONSchemaProps → Prop :=
| RefsIn s :
    (∀ r, refOf s = Some r → r ∈ R) → (∀ c, c ∈ children s → refs_in R c) →
    (∀ b, b ∈ sAllOf s → refs_in R b) → (∀ k d, sDefinitions s !! k = Some d → refs_in R d) →
    refs_in R s.

Lemma refs_in_mono R R' s : R ⊆ R' → refs_in R s → refs_in R' s.
Proof. intros HR. induction 1. constructor; auto. Qed.

Lemma refs_exists s : ∃ R, refs_in R s.
Proof.
  assert (∀ l : list JSONSchemaProps, (∀ c, c ∈ l → ∃ R, refs_in R c) → ∃ R, ∀ c, c ∈ l → refs_in R c) as Hl.
  { induction l as [|a l IH]; intros Hl; [exists ∅; by intros ? ?%not_elem_of_nil|].
    destruct (Hl a) as [Ra Ha]; [by left|]. destruct IH as [R HR]; [intros; apply Hl; by right|].
    exists (Ra ∪ R). intros c [->|Hc]%elem_of_cons; [eapply refs_in_mono; [|exact Ha]; set_solver|].
    eapply refs_in_mono; [|by apply HR]. set_solver. }
  induction s as [s IHc IHb IHd] using schema_ind.
  destruct (Hl _ IHc) as [Rc Hc]. destruct (Hl _ IHb) as [Rb Hb].
  destruct (Hl (map_to_list (sDefinitions s)).*2) as [Rd Hd].
  { intros d ([k d'] & -> & Hk)%list_elem_of_fmap. apply elem_of_map_to_list in Hk. by eapply IHd. }
  exists (list_to_set (option_list (refOf s)) ∪ Rc ∪ Rb ∪ Rd). constructor.
  - intros r Hr. rewrite Hr. cbn. set_solver.
  - intros c Hx. eapply refs_in_mono; [|by apply Hc]. set_solver.
  - intros c Hx. eapply refs_in_mono; [|by apply Hb]. set_solver.
  - intros k d Hk. eapply refs_in_mono; [|apply Hd]; [set_solver|].
    apply list_elem_of_fmap. exists (k, d). split; [done|]. by apply elem_of_map_to_list.
Qed.

Lemma refs_in_child R s c : refs_in R s → c ∈ children s → refs_in R c.
Proof. inversion 1; auto. Qed.

Lemma mergeSchema_refs R src dst path i m :
  refs_in R src → refs_in R dst → mergeSchema src dst path i = Ok m → refs_in R m.
Proof.
  intros Hs; revert dst path i m. induction Hs as [src Hr Hc IHc Hb IHb Hd IHd]; intros dst path i m Hdst Hm.
  pose proof Hm as [Hj Hch]%mergeSchema_spec. inversion Hdst as [? Hdr Hdc Hdb Hdd]; subst.
  pose proof (same_junctors_refOf _ _ Hj) as Href. destruct Hj as (_ & Hall & Hdefs). constructor.
  - rewrite Href. exact Hdr.
  - intros c [H|[H|(a & b & p & j & Ha & Hb' & Hab)]]%Hch; [by apply Hdc|by apply Hc|].
    eapply IHc; [exact Ha|by apply Hdc|done].
  - rewrite Hall. exact Hdb.
  - rewrite Hdefs. exact Hdd.
Qed.

Lemma walk_pointer_refs R ref segs s t : refs_in R s → walk_pointer ref segs s = Ok t → refs_in R t.
Proof.
  remember (length segs) as n eqn:Hn. revert segs s Hn.
  induction (lt_wf n) as [n _ IH]; intros [|raw segs] s -> Hs Ht; [by injection Ht as <-|].
  inversion Hs as [? Hr Hc Hb Hd]; subst. cbn in Ht.
  destruct (bool_decide (unescapePointerSegment raw = "definitions") ||
            bool_decide (unescapePointerSegment raw = "properties")).
  - destruct segs as [|rk segs]; [discriminate Ht|].
    assert (∃ c, walk_pointer ref segs c = Ok t ∧ refs_in R c) as (c & Hw & Hrc).
    { destruct (bool_decide (unescapePointerSegment raw = "definitions")).
      - destruct (sDefinitions s !! _) eqn:Hk; [|discriminate Ht]. eexists. split; [exact Ht|]. by eapply Hd.
      - destruct (sProperties s !! _) eqn:Hk; [|discriminate Ht]. eexists. split; [exact Ht|].
        apply Hc, elem_of_children. eauto. }
    eapply (IH (length segs)); [cbn; lia|done|exact Hrc|exact Hw].
  - destruct (bool_decide (unescapePointerSegment raw = "items")).
    { destruct (itemsSchema s) as [c|] eqn:Hi; [|discriminate Ht].
      eapply (IH (length segs)); [cbn; lia|done| |exact Ht]. apply Hc, elem_of_children; auto. }
    destruct (bool_decide (unescapePointerSegment raw = "additionalProperties")); [|discriminate Ht].
    destruct (additionalSchema s) as [c|] eqn:Hi; [|discriminate Ht].
    eapply (IH (length segs)); [cbn; lia|done| |exact Ht]. apply Hc, elem_of_children; auto.
Qed.

Section termination.
Context `{RO : RangeOrder}.

Lemma node_refs R fuel root fl s path s' :
  refs_in R root → refs_in R s → node fuel root fl s path = Ok s' → refs_in R s'.
Proof.
  intros Hroot. revert fl s path s'; induction fuel as [|fuel IH]; intros fl s path s' Hs Hn; [done|].
  cbn in Hn. destruct (refOf s) as [ref|] eqn:Hr.
  - apply res_bind_Ok in Hn as (t & Ht & Hn). eapply IH; [|exact Hn].
    unfold resolveRef in Ht. destruct (negb _); [done|]. destruct (refSiblings s); [|done].
    case_bool_decide; [done|]. apply res_wrap_Ok in Ht. unfold resolvePointer in Ht.
    case_bool_decide; [injection Ht as <-; exact Hroot|]. by eapply (walk_pointer_refs R _ _ root).
  - apply res_bind_Ok in Hn as (out & Hout & Hn). inversion Hs as [? Hsr Hsc Hsb Hsd]; subst.
    apply (merge_branches_spec (refs_in R)) in Hout as [Ho _].
    + apply normalize_children_spec in Hn as [Hj Hc]. inversion Ho as [? Hor Hoc Hob Hod]; subst.
      pose proof (same_junctors_refOf _ _ Hj) as Href. destruct Hj as (_ & Hall & Hdefs). constructor.
      * rewrite Href. exact Hor.
      * intros c (a & p & Ha & Hac)%Hc. eapply IH; [|exact Hac]. by apply Hoc.
      * rewrite Hall. exact Hob.
      * rewrite Hdefs. exact Hod.
    + intros src dst i m Hdst (b & p & Hb & Hbs) Hm. eapply mergeSchema_refs; [|exact Hdst|exact Hm].
      eapply IH; [|exact Hbs]. by apply Hsb.
    + constructor; [exact Hsr|exact Hsc|by intros ? ?%not_elem_of_nil|exact Hsd].
Qed.

(** Normalising the children of a node whose own children are stable. *)
Lemma normalize_children_stable (rec : nat → JSONSchemaProps → FieldPath → res normalize_error JSONSchemaProps) path out :
  (∀ c p, c ∈ children out → stable (λ fuel, rec fuel c p)) →
  stable (λ fuel, normalize_children (rec fuel) path out).
Proof.
  intros Hc. unfold normalize_children.
  apply (stable_bind (λ fuel, res_mapM _ (range (sProperties out)))).
  { apply (stable_mapM (λ fuel '(name, p), n ← rec fuel p (path ++ [name]); Ok (name, n))). intros [k p] Hk%elem_of_range.
    apply (stable_bind (λ fuel, rec fuel p (path ++ [k]))); [apply Hc, elem_of_children; eauto|].
    intros n _. by apply (stable_const (Ok (k, n))). }
  intros props _. apply (stable_bind (λ fuel, match sItems out with
      | Some (Some item, more) => n ← rec fuel item (path ++ ["[]"]); Ok (Some (Some n, more))
      | other => Ok other end)).
  { destruct (sItems out) as [[[i|] more]|] eqn:Hi; try by apply (stable_const (Ok _)).
    apply (stable_bind (λ fuel, rec fuel i (path ++ ["[]"]))).
    - apply Hc, elem_of_children. right; left. unfold itemsSchema. by rewrite Hi.
    - intros n _. by apply (stable_const (Ok _)). }
  intros items _. apply (stable_bind (λ fuel, match sAdditionalProperties out with
      | Some (allows, Some extra) => n ← rec fuel extra (path ++ ["{}"]); Ok (Some (allows, Some n))
      | other => Ok other end)).
  { destruct (sAdditionalProperties out) as [[al [i|]]|] eqn:Hi; try by apply (stable_const (Ok _)).
    apply (stable_bind (λ fuel, rec fuel i (path ++ ["{}"]))).
    - apply Hc, elem_of_children. right; right. unfold additionalSchema. by rewrite Hi.
    - intros n _. by apply (stable_const (Ok _)). }
  intros ad _. by apply (stable_const (Ok _)).
Qed.

Lemma resolveRef_result root fl s ref path :
  resolveRef root fl s ref path ≠ Err OutOfFuel.
Proof.
  unfold resolveRef. destruct (negb _); [done|]. destruct (refSiblings s); [|done].
  case_bool_decide; [done|]. by destruct (resolvePointer root ref).
Qed.

(** Merging the branches, once each branch is stable; what holds of the merged node. *)
Lemma merge_branches_stable R (rec : nat → JSONSchemaProps → FieldPath → res normalize_error JSONSchemaProps) path s n :
  refs_in R s → ranked (S n) s →
  (∀ b, b ∈ sAllOf s → stable (λ fuel, rec fuel b path)) →
  stable (λ fuel, merge_branches (rec fuel) path s).
Proof.
  intros Hr Hn Hb. unfold merge_branches.
  apply (stable_foldl (λ _, True) (λ fuel out '(i, b),
    branch ← rec fuel b path; res_wrap EMerge (mergeSchema branch out path i))); [done| |done].
  intros [i b] x Hin _. apply elem_of_lookup_imap in Hin as (i' & b' & [= -> ->] & Hin).
  apply (stable_bind (λ fuel, rec fuel b' path)); [apply Hb; by eapply list_elem_of_lookup_2|].
  intros br _. apply (stable_const (res_wrap EMerge _)). by destruct (mergeSchema br x path i').
Qed.

(** From a normal schema on, by fewer references left or else by rank. *)
Lemma node_stable R root : refs_in R root → ∀ k n fl s path,
  refs_in R s → size (R ∖ fl) ≤ k → ranked n s → stable (λ fuel, node fuel root fl s path).
Proof.
  intros Hroot k. induction (lt_wf k) as [k _ IHk]. intros n.
  induction n as [|n IHn]; intros fl s path Hs Hk Hn.
  { exists (schema_size s), (Ok s). split; [done|]. intros fuel Hf. by apply node_id. }
  destruct (refOf s) as [ref|] eqn:Href.
  - apply (stable_S _ (λ fuel, target ← resolveRef root fl s ref path; node fuel root ({[ref]} ∪ fl) target path)).
    { intros fuel. cbn. by rewrite Href. }
    apply (stable_bind (λ _, resolveRef root fl s ref path)); [apply stable_const, resolveRef_result|].
    intros t [_ Ht]. unfold resolveRef in Ht. destruct (negb _); [done|]. destruct (refSiblings s); [|done].
    case_bool_decide as Hfl; [done|]. apply res_wrap_Ok in Ht. destruct (ranked_exists t) as [m Hm].
    inversion Hs as [? Hsr _ _ _]; subst. apply (IHk (size (R ∖ ({[ref]} ∪ fl)))) with (n := m); [| |done|exact Hm].
    + eapply Nat.lt_le_trans; [|exact Hk]. apply subset_size. specialize (Hsr ref Href). set_solver.
    + unfold resolvePointer in Ht. case_bool_decide; [injection Ht as <-; exact Hroot|]. by eapply (walk_pointer_refs R _ _ root).
  - apply (stable_S _ (λ fuel, out ← merge_branches (node fuel root fl) path s;
                               normalize_children (node fuel root fl) path out)).
    { intros fuel. cbn. by rewrite Href. }
    inversion Hs as [? Hsr Hsc Hsb Hsd]; subst. destruct Hn as [Hnc Hnb].
    apply (stable_bind (λ fuel, merge_branches (node fuel root fl) path s)).
    { eapply merge_branches_stable; [exact Hs|by split|]. intros b Hb. apply IHn; [by apply Hsb|done|by apply Hnb]. }
    intros out [fuel Hout]. apply (merge_branches_spec (λ out, ranked (S n) out ∧ refs_in R out)) in Hout as [[[Hc _] Hor] _].
    + apply normalize_children_stable. intros c p Hin. apply IHn; [by eapply refs_in_child|done|by apply Hc].
    + intros src dst i m [Hd1 Hd2] (b & p & Hb & Hbs) Hm. split.
      * eapply mergeSchema_ranked; [by eapply node_normal|exact Hd1|exact Hm].
      * eapply mergeSchema_refs; [|exact Hd2|exact Hm]. eapply node_refs; [exact Hroot|by apply Hsb|exact Hbs].
    + split; [split; [exact Hnc|by intros ? ?%not_elem_of_nil]|].
      constructor; [exact Hsr|exact Hsc|by intros ? ?%not_elem_of_nil|exact Hsd].
Qed.

(** Enough fuel always gives one answer. *)
Lemma NormalizeSchema_stable s : stable (λ fuel, NormalizeSchema fuel s).
Proof.
  destruct s as [s|]; [|by apply (stable_const (Ok None))]. destruct (refs_exists s) as [R HR].
  destruct (ranked_exists s) as [n Hn]. unfold NormalizeSchema.
  destruct (node_stable R s HR (size (R ∖ ∅)) n ∅ s []) as (F & r & Hr & Hf); [done..|].
  exists F, (Some <$> r). split; [by destruct r; [|intros [= ->]]|]. intros fuel Hfuel. by rewrite Hf.
Qed.

(** The same for all versions of a resource. *)
Lemma NormalizedVersions_stable versions :
  ∃ F r, (∀ v, r ≠ Err (EVersion v OutOfFuel)) ∧ ∀ fuel, F ≤ fuel → NormalizedVersions fuel versions = r.
Proof.
  induction versions as [|v versions (F2 & r2 & Hr2 & H2)]; [by exists 0, (Ok [])|].
  destruct (NormalizeSchema_stable (vsSchema v)) as (F1 & r1 & Hr1 & H1).
  set (one := n ← res_wrap (EVersion (vsName v)) r1;
    Ok {| vsName := vsName v; vsSchema := n; vsServed := vsServed v; vsStorage := vsStorage v |}).
  exists (F1 `max` F2), (x ← one; xs ← r2; Ok (x :: xs)). split.
  - intros w. unfold one. destruct r1 as [n|e]; cbn; [|congruence].
    specialize (Hr2 w). destruct r2; cbn; [done|congruence].
  - intros fuel Hf. unfold NormalizedVersions. cbn. rewrite H1 by lia. fold one.
    unfold NormalizedVersions in H2. by rewrite H2 by lia.
Qed.
End termination.
