(* ===== verification/Platform.v ===== *)
(** Fields the platform injects (pkg/engine/platform.go). *)
From S2P Require Import Prelude Float64 Value Path Schema Rules Diagnostics.

Record PlatformInjectedPaths := {
  pjPlatform : string;
  pjPaths : list FieldPath;
  pjUncertain : bool;
  pjUncertainReason : string;
}.

Definition no_platform : PlatformInjectedPaths :=
  {| pjPlatform := ""; pjPaths := []; pjUncertain := false; pjUncertainReason := "" |}.

Definition CodeAuthoredFieldShadowedByPlatform : string := "AuthoredFieldShadowedByPlatform".
Definition CodeRuleTargetsInjectedPath : string := "RuleTargetsInjectedPath".

Definition platformName (p : PlatformInjectedPaths) : string :=
  if bool_decide (pjPlatform p = "") then "the platform" else pjPlatform p.

Definition platform_severity (p : PlatformInjectedPaths) : Severity :=
  if pjUncertain p then SeverityWarning else SeverityError.

(** The note's variable part. *)
Definition uncertaintyNote (p : PlatformInjectedPaths) : string :=
  if negb (pjUncertain p) then ""
  else if bool_decide (pjUncertainReason p = "") then "undetermined" else pjUncertainReason p.

(** [owns]: the first injected root at or above the path. *)
Definition owns (p : PlatformInjectedPaths) (path : FieldPath) : option FieldPath :=
  head (filter (λ root, root ≠ [] ∧ has_path_prefix path root = true) (pjPaths p)).

Fixpoint schemaDeclaresPath (s : JSONSchemaProps) (path : FieldPath) : bool :=
  match path with
  | [] => true
  | seg :: path => match sProperties s !! seg with Some next => schemaDeclaresPath next path | None => false end
  end.

Definition checkAuthoredShadowing (p : PlatformInjectedPaths) (schema : JSONSchemaProps)
    (version side : string) : list Diagnostic :=
  (λ path,
    {| dSeverity := platform_severity p; dCode := CodeAuthoredFieldShadowedByPlatform;
       dMessage := MsgShadowed side version (path_string path) (platformName p) (uncertaintyNote p);
       dRuleIndex := -1; dFieldPath := path_string path; dUncoveredSide := None |})
  <$> filter (λ path, schemaDeclaresPath schema path = true) (pjPaths p).

Definition target_diags (p : PlatformInjectedPaths) (rr : RuleResult) (side : string) (raw : string)
    : list Diagnostic :=
  match owns p (ParsePath raw) with
  | None => []
  | Some root =>
      [{| dSeverity := platform_severity p; dCode := CodeRuleTargetsInjectedPath;
          dMessage := MsgTargets (rrIndex rr) (rrStrategy rr) side raw (path_string root) (platformName p)
                        (uncertaintyNote p);
          dRuleIndex := rrIndex rr; dFieldPath := raw; dUncoveredSide := None |}]
  end.

Definition checkRuleTargets (p : PlatformInjectedPaths) (results : list RuleResult) : list Diagnostic :=
  concat ((λ rr, concat (target_diags p rr "hub" <$> rrHubPaths rr) ++
                 concat (target_diags p rr "spoke" <$> rrSpokePaths rr)) <$> results).

Definition diag_less (a b : Diagnostic) : bool :=
  if bool_decide (dRuleIndex a = dRuleIndex b) then str_lt (dFieldPath a) (dFieldPath b)
  else bool_decide (dRuleIndex a < dRuleIndex b)%Z.

Definition sortDiagnostics (ds : list Diagnostic) : list Diagnostic := sort_by diag_less ds.

(** ** Lemmas *)

Lemma schemaDeclaresPath_lookup s p : schemaDeclaresPath s p = res_ok (lookupPath s p).
Proof.
  revert s; induction p as [|k p IH]; intros s; [done|]. cbn [schemaDeclaresPath].
  destruct (sProperties s !! k) as [c|] eqn:Hk.
  - rewrite IH. destruct (lookupPath c p) as [n|e] eqn:Hc; destruct (lookupPath s (k :: p)) as [n'|e'] eqn:Hs;
      try done.
    + assert (lookupPath s (k :: p) = Ok n) as Hs' by (apply lookupPath_cons; eauto). congruence.
    + apply lookupPath_cons in Hs as (c' & Hk' & Hc'). congruence.
  - destruct (lookupPath s (k :: p)) as [n'|e'] eqn:Hs; [|done].
    apply lookupPath_cons in Hs as (c & Hk' & _). congruence.
Qed.

(** A root owns exactly the paths at or below it. *)
Lemma owns_spec p path :
  is_Some (owns p path) ↔ ∃ root, root ∈ pjPaths p ∧ root ≠ [] ∧ root `prefix_of` path.
Proof.
  unfold owns. rewrite head_is_Some. split.
  - intros Hne. destruct (filter _ (pjPaths p)) as [|root l] eqn:Hf; [done|].
    assert (root ∈ filter (λ root, root ≠ [] ∧ has_path_prefix path root = true) (pjPaths p)) as Hin
      by (rewrite Hf; by left).
    apply list_elem_of_filter in Hin as [[Hr Hp] Hin]. exists root. split_and!; [done..|].
    rewrite has_path_prefix_spec in Hp. by apply bool_decide_eq_true in Hp.
  - intros (root & Hin & Hr & Hp) Hf.
    assert (root ∈ filter (λ root, root ≠ [] ∧ has_path_prefix path root = true) (pjPaths p)) as Hin'.
    { apply list_elem_of_filter. split_and!; [done| |done]. rewrite has_path_prefix_spec.
      by apply bool_decide_eq_true. }
    rewrite Hf in Hin'. by apply not_elem_of_nil in Hin'.
Qed.

(** What is reported about one path of a rule. *)
Lemma target_diags_owned p rr side raw :
  is_Some (owns p (ParsePath raw)) →
  ∃ d, d ∈ target_diags p rr side raw ∧ dFieldPath d = raw ∧ dRuleIndex d = rrIndex rr ∧
    is_error d = negb (pjUncertain p).
Proof.
  intros [root Hr]. unfold target_diags. rewrite Hr. eexists. split; [by left|]. split_and!; [done..|].
  unfold is_error, platform_severity. by destruct (pjUncertain p).
Qed.

Lemma target_diags_inv p rr side raw d :
  d ∈ target_diags p rr side raw → is_Some (owns p (ParsePath raw)) ∧ dFieldPath d = raw.
Proof.
  unfold target_diags. destruct (owns p (ParsePath raw)); [|by intros ?%not_elem_of_nil].
  intros ->%list_elem_of_singleton. by split.
Qed.

(** Every rule path inside an injected root is reported, and nothing else is. *)
Lemma elem_of_checkRuleTargets p results d :
  d ∈ checkRuleTargets p results ↔
  ∃ rr raw, rr ∈ results ∧
    (raw ∈ rrHubPaths rr ∧ d ∈ target_diags p rr "hub" raw ∨
     raw ∈ rrSpokePaths rr ∧ d ∈ target_diags p rr "spoke" raw).
Proof.
  unfold checkRuleTargets. rewrite elem_of_concat. setoid_rewrite list_elem_of_fmap. split.
  - intros (l & (rr & -> & Hrr) & Hd). apply elem_of_app in Hd as [Hd|Hd];
      apply elem_of_concat in Hd as (l & Hl & Hd); apply list_elem_of_fmap in Hl as (raw & -> & Hraw);
      exists rr, raw; auto.
  - intros (rr & raw & Hrr & H). eexists. split; [by exists rr|]. apply elem_of_app.
    destruct H as [[Hr Hd]|[Hr Hd]]; [left|right]; apply elem_of_concat; eexists;
      (split; [by apply list_elem_of_fmap_2|done]).
Qed.
