(* ===== verification/Required.v ===== *)
(** Required-field analysis (pkg/engine/required.go): can a rule set always produce
    what the destination schema requires? *)
From S2P Require Import Prelude Float64 Value Path Schema Rules Diagnostics Platform.

Definition CodeRequiredFieldUnsatisfiable : string := "RequiredFieldUnsatisfiable".
Definition CodeRequiredFieldConditional : string := "RequiredFieldConditional".
Definition CodeRequiredFieldUnprovable : string := "RequiredFieldUnprovable".

(** In the source's order: the stronger guarantee first. *)
Inductive requiredSatisfaction :=
| satisfiedAlways | satisfiedUnprovably | satisfiedConditionally | satisfiedNever.
#[export] Instance requiredSatisfaction_eq_dec : EqDecision requiredSatisfaction.
Proof. solve_decision. Defined.

Definition strength (v : requiredSatisfaction) : nat :=
  match v with
  | satisfiedAlways => 0 | satisfiedUnprovably => 1 | satisfiedConditionally => 2 | satisfiedNever => 3
  end.

Definition unprovableStrategies : list Strategy :=
  [StrategyCEL; StrategyJSONPatch; StrategyScalarToFields].

Definition contains (paths : list string) (want : string) : bool := bool_decide (want ∈ paths).
Definition anyHasPrefix (paths : list string) (prefix : string) : bool :=
  existsb (λ p, has_prefix p prefix) paths.
Definition containsRequired (required : list string) (name : string) : bool := bool_decide (name ∈ required).

(** The paths of a result on the destination's side, and on the source's. *)
Definition dest_paths (destSide : string) (rr : RuleResult) : list string :=
  if bool_decide (destSide = "hub") then rrHubPaths rr else rrSpokePaths rr.
Definition src_paths (destSide : string) (rr : RuleResult) : list string :=
  if bool_decide (destSide = "hub") then rrSpokePaths rr else rrHubPaths rr.

(** ** One rule's guarantee *)

Definition verdictForRule (rule : Rule) (rr : RuleResult) (srcRequired : list string) (destSide : string)
    : requiredSatisfaction * why :=
  match rWhen rule with
  | Some _ => (satisfiedConditionally, WhyWhen (rrIndex rr) (rrStrategy rr))
  | None =>
      if bool_decide (rrStrategy rr ∈ unprovableStrategies) then
        (satisfiedUnprovably, WhyUnpredictable (rrIndex rr) (rrStrategy rr))
      else if bool_decide (rrStrategy rr = StrategyConstant) || bool_decide (rrStrategy rr = StrategyDefaultValue)
      then (satisfiedAlways, WhyAlways)
      else
        match filter (λ s, s ∉ srcRequired) (src_paths destSide rr) with
        | s :: _ => (satisfiedConditionally, WhyOptional (rrIndex rr) (rrStrategy rr) s)
        | [] => (satisfiedAlways, WhyAlways)
        end
  end.

(** [Rule{}]. *)
Definition zero_rule : Rule := mkRule "" PUnset false "" 0 None.

(** The rule a result is about: the first with its index, or the zero rule. *)
Definition rule_of (rules : list Rule) (rr : RuleResult) : Rule :=
  default zero_rule (head (filter (λ r, rSourceIndex r = rrIndex rr) rules)).

(** One iteration of [bestVerdict]. *)
Definition better (rules : list Rule) (srcRequired : list string) (destSide : string)
    (best : requiredSatisfaction * why * Z) (rr : RuleResult) : requiredSatisfaction * why * Z :=
  let '(v, w) := verdictForRule (rule_of rules rr) rr srcRequired destSide in
  if strength v <? strength best.1.1 then (v, w, rrIndex rr) else best.

Definition bestVerdict (writers : list RuleResult) (rules : list Rule) (srcRequired : list string)
    (destSide : string) : requiredSatisfaction * why * Z :=
  foldl (better rules srcRequired destSide) (satisfiedNever, WhyNoGuarantee, (-1)%Z) writers.

(** ** The required leaves *)

Record requiredLeaf := { rlLeaf : LeafField; rlAncestorWrittenWholesale : bool }.

(** [ancestorsPresent]: present, and written wholesale. *)
Fixpoint ancestors_from (node : JSONSchemaProps) (above path : FieldPath) (written : list string)
    (wholesale : bool) : bool * bool :=
  match path with
  | [] | [_] => (true, wholesale)
  | seg :: rest =>
      let ancestor := path_string (above ++ [seg]) in
      let next w :=
        match sProperties node !! seg with
        | None => (false, false)
        | Some n => ancestors_from n (above ++ [seg]) rest written w
        end in
      if containsRequired (sRequired node) seg then next wholesale
      else if anyHasPrefix written (ancestor +:+ ".") then next wholesale
      else if contains written ancestor then next true
      else (false, false)
  end.

Definition ancestorsPresent (root : JSONSchemaProps) (path : FieldPath) (written : list string) : bool * bool :=
  ancestors_from root [] path written false.

Definition required_diag (sev : Severity) (code : string) (idx : Z) (destSide path : string) (w : why) : Diagnostic :=
  {| dSeverity := sev; dCode := code; dMessage := MsgRequired code destSide path w;
     dRuleIndex := idx; dFieldPath := path; dUncoveredSide := None |}.

Definition leaf_less (a b : requiredLeaf) : bool :=
  str_lt (path_string (lfPath (rlLeaf a))) (path_string (lfPath (rlLeaf b))).

Section required.
Context `{RO : RangeOrder}.

Definition unconditionallyRequiredLeaves (schema : JSONSchemaProps) (written : list string) : list requiredLeaf :=
  sort_by leaf_less
    (omap (λ leaf,
       if negb (lfRequired leaf) then None
       else
         let '(present, wholesale) := ancestorsPresent schema (lfPath leaf) written in
         if negb present then None
         else Some {| rlLeaf := leaf; rlAncestorWrittenWholesale := wholesale |}) (flattenSchema schema)).

(** The paths of the source's required leaves. *)
Definition required_paths (schema : JSONSchemaProps) : list string :=
  (λ l, path_string (lfPath l)) <$> filter (λ l, lfRequired l = true) (flattenSchema schema).

(** The results that write a path, once per time they list it. *)
Definition writers (destSide path : string) (results : list RuleResult) : list RuleResult :=
  concat ((λ rr, (λ _, rr) <$> filter (λ p, p = path) (dest_paths destSide rr)) <$> results).

(** What is reported about one required leaf. *)
Definition check_leaf (rules : list Rule) (results : list RuleResult) (srcRequired : list string)
    (destSide : string) (leaf : requiredLeaf) : list Diagnostic :=
  let path := path_string (lfPath (rlLeaf leaf)) in
  match sDefault (lfSchema (rlLeaf leaf)) with
  | Some _ => []
  | None =>
      match writers destSide path results with
      | [] =>
          if bool_decide (path ∈ srcRequired) then []
          else if rlAncestorWrittenWholesale leaf then
            [required_diag SeverityWarning CodeRequiredFieldUnprovable (-1) destSide path WhyWholesale]
          else [required_diag SeverityError CodeRequiredFieldUnsatisfiable (-1) destSide path WhyNoRule]
      | ws =>
          let '(verdict, w, idx) := bestVerdict ws rules srcRequired destSide in
          match verdict with
          | satisfiedAlways => []
          | satisfiedUnprovably =>
              [required_diag SeverityWarning CodeRequiredFieldUnprovable idx destSide path w]
          | satisfiedConditionally =>
              [required_diag SeverityError CodeRequiredFieldConditional idx destSide path w]
          | satisfiedNever =>
              [required_diag SeverityError CodeRequiredFieldUnsatisfiable idx destSide path w]
          end
      end
  end.

Definition analyzeRequiredFields (destSchema srcSchema : JSONSchemaProps) (rules : list Rule)
    (results : list RuleResult) (destSide : string) : list Diagnostic :=
  let written := concat (dest_paths destSide <$> results) in
  sortDiagnostics
    (concat (check_leaf rules results (required_paths srcSchema) destSide
             <$> unconditionallyRequiredLeaves destSchema written)).
End required.

(** ** Lemmas *)

Lemma better_spec rules src side b rr :
  let b' := better rules src side b rr in
  let v := verdictForRule (rule_of rules rr) rr src side in
  strength b'.1.1 ≤ strength b.1.1 ∧ strength b'.1.1 ≤ strength v.1 ∧
  (b' = b ∨ b' = (v, rrIndex rr)).
Proof.
  cbn zeta. unfold better. destruct (verdictForRule _ _ _ _) as [v w]. cbn [fst snd].
  destruct (strength v <? strength b.1.1) eqn:Hlt;
    [apply Nat.ltb_lt in Hlt|apply Nat.ltb_ge in Hlt]; cbn.
  - split_and!; [lia|lia|by right].
  - split_and!; [lia|lia|by left].
Qed.

(** The fold keeps the strongest guarantee seen, with its rule's index. *)
Lemma bestVerdict_fold rules src side ws b :
  let best := foldl (better rules src side) b ws in
  strength best.1.1 ≤ strength b.1.1 ∧
  (∀ rr, rr ∈ ws → strength best.1.1 ≤ strength (verdictForRule (rule_of rules rr) rr src side).1) ∧
  (best = b ∨ ∃ rr, rr ∈ ws ∧ best = (verdictForRule (rule_of rules rr) rr src side, rrIndex rr)).
Proof.
  revert b; induction ws as [|rr ws IH]; intros b; cbn [foldl].
  { cbn. split_and!; [lia|by intros ? ?%not_elem_of_nil|by left]. }
  destruct (IH (better rules src side b rr)) as (H1 & H2 & H3).
  destruct (better_spec rules src side b rr) as (B1 & B2 & B3). cbn zeta. split_and!; [lia| |].
  - intros rr' [->|Hin]%elem_of_cons; [lia|by apply H2].
  - destruct H3 as [->|(rr' & Hin & ->)]; [|right; exists rr'; split; [by right|done]].
    destruct B3 as [->| ->]; [by left|]. right. exists rr. split; [by left|done].
Qed.

Lemma elem_of_writers side path results rr :
  rr ∈ writers side path results ↔ rr ∈ results ∧ path ∈ dest_paths side rr.
Proof.
  unfold writers. rewrite elem_of_concat. setoid_rewrite list_elem_of_fmap. split.
  - intros (l & (rr' & -> & Hrr) & Hin). apply list_elem_of_fmap in Hin as (p & -> & Hp).
    apply list_elem_of_filter in Hp as [-> Hp]. done.
  - intros [Hrr Hp]. eexists. split; [by exists rr|]. apply list_elem_of_fmap. exists path. split; [done|].
    by apply list_elem_of_filter.
Qed.

(** A field's guarantee, as the check understands it. *)
Definition guaranteed (rules : list Rule) (results : list RuleResult) (srcRequired : list string)
    (destSide : string) (leaf : requiredLeaf) : Prop :=
  let path := path_string (lfPath (rlLeaf leaf)) in
  is_Some (sDefault (lfSchema (rlLeaf leaf))) ∨
  (path ∈ srcRequired ∧ ∀ rr, rr ∈ results → path ∉ dest_paths destSide rr) ∨
  ∃ rr, rr ∈ results ∧ path ∈ dest_paths destSide rr ∧
    (verdictForRule (rule_of rules rr) rr srcRequired destSide).1 = satisfiedAlways.

(** Silence about a leaf is exactly a guarantee. *)
Lemma check_leaf_silent rules results src side leaf :
  check_leaf rules results src side leaf = [] ↔ guaranteed rules results src side leaf.
Proof.
  unfold check_leaf, guaranteed. set (path := path_string _).
  destruct (sDefault _) as [d|]; [split; [by left; eexists|done]|].
  pose proof (elem_of_writers side path results) as Hw.
  destruct (writers side path results) as [|w ws] eqn:Hws.
  - assert (∀ rr, rr ∈ results → path ∉ dest_paths side rr) as Hno.
    { intros rr Hrr Hp. assert (rr ∈ []) as []%not_elem_of_nil. by apply Hw. }
    case_bool_decide as Hp; [split; [by right; left|done]|].
    destruct (rlAncestorWrittenWholesale leaf); (split; [done|]);
      intros [[? [=]]|[[? _]|(rr & Hrr & Hin & _)]]; try done; by destruct (Hno rr Hrr).
  - destruct (bestVerdict_fold rules src side (w :: ws) (satisfiedNever, WhyNoGuarantee, (-1)%Z)) as (_ & Hle & Hat).
    fold (bestVerdict (w :: ws) rules src side) in Hle, Hat.
    assert (path ∈ dest_paths side w) as Hpw by (apply Hw; by left).
    assert (w ∈ results) as Hwr by (apply Hw; by left).
    destruct (bestVerdict (w :: ws) rules src side) as [[v y] idx]. cbn in Hle, Hat. split.
    + intros Hv. right; right. destruct Hat as [[= -> -> ->]|(rr & Hrr & Heq)]; [done|].
      exists rr. apply Hw in Hrr as [? ?]. split_and!; [done..|]. injection Heq as Hv' _.
      rewrite <-Hv'. by destruct v.
    + intros [[? [=]]|[[_ Hno]|(rr & Hrr & Hin & Hv)]]; [by apply Hno in Hpw|].
      specialize (Hle rr ltac:(by apply Hw)). rewrite Hv in Hle. destruct v; cbn in Hle; try lia. done.
Qed.

(** A rule's guarantee: unconditional, predictable, and fed by required fields. *)
Lemma verdictForRule_always rule rr src side :
  (verdictForRule rule rr src side).1 = satisfiedAlways ↔
  rWhen rule = None ∧ rrStrategy rr ∉ unprovableStrategies ∧
  (rrStrategy rr = StrategyConstant ∨ rrStrategy rr = StrategyDefaultValue ∨
   ∀ s, s ∈ src_paths side rr → s ∈ src).
Proof.
  unfold verdictForRule. destruct (rWhen rule); cbn; [naive_solver|].
  case_bool_decide as Hu; cbn; [naive_solver|].
  destruct (_ || _) eqn:Hc; cbn.
  - apply orb_true_iff in Hc as [Hc|Hc]; apply bool_decide_eq_true in Hc; naive_solver.
  - apply orb_false_iff in Hc as [H1 H2]. apply bool_decide_eq_false in H1, H2.
    destruct (filter _ _) as [|s l] eqn:Hf; cbn; (split; [intros Heq; try done|intros (_ & _ & [?|[?|Hall]]); try done]).
    + split_and!; [done..|]. right; right. intros s Hs. destruct (decide (s ∈ src)) as [|Hn]; [done|].
      assert (s ∈ filter (λ s, s ∉ src) (src_paths side rr)) as Hin by by apply list_elem_of_filter.
      rewrite Hf in Hin. by apply not_elem_of_nil in Hin.
    + assert (s ∈ filter (λ s, s ∉ src) (src_paths side rr)) as Hin by (rewrite Hf; by left).
      apply list_elem_of_filter in Hin as [Hn Hin]. by apply Hall in Hin.
Qed.

Section required_lemmas.
Context `{RO : RangeOrder}.

(** Nothing reported means every unconditionally required field is guaranteed. *)
Lemma analyzeRequiredFields_silent dest src rules results side :
  analyzeRequiredFields dest src rules results side = [] ↔
  ∀ leaf, leaf ∈ unconditionallyRequiredLeaves dest (concat (dest_paths side <$> results)) →
    guaranteed rules results (required_paths src) side leaf.
Proof.
  unfold analyzeRequiredFields. set (leaves := unconditionallyRequiredLeaves _ _).
  assert (∀ ds, sortDiagnostics ds = [] ↔ ds = []) as Hsort.
  { intros ds. unfold sortDiagnostics. split; [|by intros ->].
    intros H. pose proof (sort_by_perm diag_less ds) as Hp. rewrite H in Hp.
    by apply Permutation_nil_l in Hp. }
  rewrite Hsort. setoid_rewrite <-check_leaf_silent. induction leaves as [|leaf leaves IH]; cbn.
  - split; [by intros _ ? ?%not_elem_of_nil|done].
  - split.
    + intros [H1 H2]%app_eq_nil l [->|Hl]%elem_of_cons; [done|]. by apply IH.
    + intros H. rewrite (H leaf) by (by left). cbn. apply IH. intros. apply H. by right.
Qed.

Lemma elem_of_unconditionallyRequired schema written rl :
  rl ∈ unconditionallyRequiredLeaves schema written ↔
  rlLeaf rl ∈ flattenSchema schema ∧ lfRequired (rlLeaf rl) = true ∧
  ancestorsPresent schema (lfPath (rlLeaf rl)) written = (true, rlAncestorWrittenWholesale rl).
Proof.
  unfold unconditionallyRequiredLeaves. rewrite elem_of_sort_by, list_elem_of_omap. split.
  - intros (leaf & Hleaf & Heq). destruct (lfRequired leaf) eqn:Hr; cbn in Heq; [|done].
    destruct (ancestorsPresent _ _ _) as [[] w] eqn:Ha; cbn in Heq; [|done]. injection Heq as <-. done.
  - destruct rl as [leaf w]. cbn. intros (Hleaf & Hr & Ha). exists leaf. rewrite Hr, Ha. done.
Qed.
End required_lemmas.
