(* ===== verification/Analyze.v ===== *)
(** [Compile] (pkg/engine/compile.go) and [Analyze] (pkg/engine/analyze.go), with the
    report types of diagnostics.go.

    A version without a schema is analysed as an object without properties.  The
    source keeps the nil pointer: its lookups fail with another text, and a rule
    whose path is empty would dereference it. *)
From S2P Require Import Prelude Float64 Value Json Duration Path Schema Normalize Rules Coerce Passthrough Ops Convert Diagnostics Compile Platform Required.

(** ** Reports *)

Record FieldCoverage := { fcUncoveredHub : list string; fcUncoveredSpoke : list string }.

Record SpokeReport := {
  srVersion : string;
  srLossless : LosslessVerdict;
  srUncovered : FieldCoverage;
  srRuleResults : list RuleResult;
  srErrors : list Diagnostic;
  srWarnings : list Diagnostic;
  srCompiledPlan : option Plan;
}.

Record AnalyzeReport := { arResourceGeneration : Z; arSpokeReports : list SpokeReport }.

Definition OverallLossless (r : AnalyzeReport) : bool :=
  forallb (λ s, lvHubToSpoke (srLossless s) && lvSpokeToHub (srLossless s)) (arSpokeReports r).

Definition HasErrors (r : AnalyzeReport) : bool :=
  existsb (λ s, negb (bool_decide (length (srErrors s) = 0))) (arSpokeReports r).

(** ** [Compile] *)

Inductive compile_error :=
| CNilSchema
| CHubSchema (e : normalize_error)
| CSpokeSchema (e : normalize_error).

Definition no_schema : JSONSchemaProps := object_schema [] ∅.

(** A plan from a build. *)
Definition plan_of (hubVersion spokeVersion : string) (b : build) : Plan :=
  {| plHubVersion := hubVersion; plSpokeVersion := spokeVersion;
     plHubToSpoke := bH2S b; plSpokeToHub := bS2H b |}.

Section analyze.
Context `{RO : RangeOrder} `{EX : Externs} `{CX : CompileExterns}.

Definition Compile (fuel : nat) (rules : RuleSet) (hub spoke : option JSONSchemaProps)
    : res compile_error (Plan * list Diagnostic) :=
  match hub, spoke with
  | Some _, Some _ =>
      hub ← res_wrap CHubSchema (NormalizeSchema fuel hub);
      spoke ← res_wrap CSpokeSchema (NormalizeSchema fuel spoke);
      let b := resolveAndBuildOps (rsRules rules) (default no_schema hub) (default no_schema spoke)
                 (effectivePolicy (rsUnmappedFieldPolicy rules)) 0 in
      Ok (plan_of (rsHubVersion rules) (rsSpokeVersion rules) b, bDiags b)
  | _, _ => Err CNilSchema
  end.

(** ** [Analyze] *)

(** [ssPlatform]: what [PlatformInjectedPaths] returns, when the source has it. *)
Record SchemaSource := {
  ssVersions : res string (list VersionSchema);
  ssDescribe : ResourceDescriptor;
  ssPlatform : option PlatformInjectedPaths;
}.

Record AnalyzeInput := { aiSource : SchemaSource; aiHubVersion : string; aiSpokes : list RuleSet }.

Inductive analyze_error :=
| AReadVersions (msg : string)
| ANormalize (e : normalize_error)
| AHubNotFound (v : string)
| AHubNotStorage (v : string).

(** A report with one error and nothing else. *)
Definition failed_report (version : string) (m : message) : SpokeReport :=
  {| srVersion := version; srLossless := {| lvHubToSpoke := false; lvSpokeToHub := false |};
     srUncovered := {| fcUncoveredHub := []; fcUncoveredSpoke := [] |}; srRuleResults := [];
     srErrors := [{| dSeverity := SeverityError; dCode := ""; dMessage := m; dRuleIndex := -1;
                     dFieldPath := ""; dUncoveredSide := None |}];
     srWarnings := []; srCompiledPlan := None |}.

(** The two platform checks, sorted. *)
Definition platform_diags (injected : PlatformInjectedPaths) (hub spoke : VersionSchema)
    (hubSchema spokeSchema : JSONSchemaProps) (results : list RuleResult) : list Diagnostic :=
  sortDiagnostics
    (checkAuthoredShadowing injected hubSchema (vsName hub) "hub" ++
     checkAuthoredShadowing injected spokeSchema (vsName spoke) "spoke" ++
     checkRuleTargets injected results).

(** The required-field checks of both directions, sorted. *)
Definition required_diags (hubSchema spokeSchema : JSONSchemaProps) (rules : list Rule)
    (results : list RuleResult) : list Diagnostic :=
  sortDiagnostics
    (analyzeRequiredFields spokeSchema hubSchema rules results "spoke" ++
     analyzeRequiredFields hubSchema spokeSchema rules results "hub").

(** The field paths of the diagnostics of one uncovered side. *)
Definition uncovered_paths (sd : side) (ds : list Diagnostic) : list string :=
  dFieldPath <$> filter (λ d, dUncoveredSide d = Some sd) ds.

(** Everything reported about a served spoke version. *)
Definition spoke_diags (injected : PlatformInjectedPaths) (hub spoke : VersionSchema) (rs : RuleSet) (b : build)
    : list Diagnostic :=
  let hubSchema := default no_schema (vsSchema hub) in
  let spokeSchema := default no_schema (vsSchema spoke) in
  bDiags b ++ platform_diags injected hub spoke hubSchema spokeSchema (bResults b) ++
  required_diags hubSchema spokeSchema (rsRules rs) (bResults b).

Definition spoke_build (hub spoke : VersionSchema) (rs : RuleSet) : build :=
  resolveAndBuildOps (rsRules rs) (default no_schema (vsSchema hub)) (default no_schema (vsSchema spoke))
    (effectivePolicy (rsUnmappedFieldPolicy rs)) 0.

(** The report on a served spoke version. *)
Definition analyze_served (injected : PlatformInjectedPaths) (hubVersion : string) (hub spoke : VersionSchema)
    (rs : RuleSet) : SpokeReport :=
  let b := spoke_build hub spoke rs in
  let diags := spoke_diags injected hub spoke rs b in
  let errors := filter (λ d, is_error d = true) diags in
  {| srVersion := rsSpokeVersion rs; srLossless := bVerdict b;
     srUncovered := {| fcUncoveredHub := uncovered_paths Hub diags; fcUncoveredSpoke := uncovered_paths Spoke diags |};
     srRuleResults := bResults b;
     srErrors := errors;
     srWarnings := filter (λ d, is_error d = false) diags;
     srCompiledPlan := if bool_decide (length errors = 0)
                       then Some (plan_of hubVersion (rsSpokeVersion rs) b) else None |}.

(** One iteration of the loop over the spokes. *)
Definition analyze_spoke (injected : PlatformInjectedPaths) (byName : gmap string VersionSchema)
    (hubVersion : string) (hub : VersionSchema) (rs : RuleSet) : SpokeReport :=
  match byName !! rsSpokeVersion rs with
  | None => failed_report (rsSpokeVersion rs) (MsgSpokeMissing (rsSpokeVersion rs))
  | Some spoke =>
      if negb (vsServed spoke)
      then failed_report (rsSpokeVersion rs) (MsgSpokeNotServed (rsSpokeVersion rs))
      else analyze_served injected hubVersion hub spoke rs
  end.

Definition versions_by_name (vs : list VersionSchema) : gmap string VersionSchema :=
  foldl (λ m v, <[vsName v := v]> m) ∅ vs.

Definition Analyze (fuel : nat) (i : AnalyzeInput) : res analyze_error AnalyzeReport :=
  raw ← res_wrap AReadVersions (ssVersions (aiSource i));
  versions ← res_wrap ANormalize (NormalizedVersions fuel raw);
  let byName := versions_by_name versions in
  match byName !! aiHubVersion i with
  | None => Err (AHubNotFound (aiHubVersion i))
  | Some hub =>
      if negb (vsStorage hub) then Err (AHubNotStorage (aiHubVersion i))
      else
        let injected := default no_platform (ssPlatform (aiSource i)) in
        Ok {| arResourceGeneration := rdGeneration (ssDescribe (aiSource i));
              arSpokeReports := analyze_spoke injected byName (aiHubVersion i) hub <$> aiSpokes i |}
  end.
End analyze.
