(* ===== verification/AnalyzeTheory.v ===== *)
(** What a compiled plan in a report stands for; and, for sets of renames, that a
    required-field check without an error makes converted objects complete. *)
From S2P Require Import Prelude Float64 Value Json Duration Path Schema Normalize Rules Coerce Passthrough Ops Convert OpsTheory RoundTrip Diagnostics Compile CompileTheory PlanTheory EndToEnd Platform Required Analyze.

(** Sorting keeps the errors. *)
Lemma no_errors_sort ds : no_errors (sortDiagnostics ds) ↔ no_errors ds.
Proof. unfold no_errors, sortDiagnostics. by rewrite (sort_by_perm diag_less ds). Qed.

Lemma no_errors_elem ds d : no_errors ds → d ∈ ds → is_error d = false.
Proof. unfold no_errors. rewrite Forall_forall. auto. Qed.

Lemma filter_errors_nil ds : filter (λ d, is_error d = true) ds = [] ↔ no_errors ds.
Proof.
  unfold no_errors. induction ds as [|d ds IH]; [done|]. rewrite filter_cons, Forall_cons.
  destruct (is_error d); case_decide; naive_solver.
Qed.

Section analyze_lemmas.
Context `{RO : RangeOrder} `{EX : Externs} `{CX : CompileExterns}.

Lemma analyze_served_plan injected hv hub spoke rs :
  let b := spoke_build hub spoke rs in
  match srCompiledPlan (analyze_served injected hv hub spoke rs) with
  | Some plan => plan = plan_of hv (rsSpokeVersion rs) b ∧ no_errors (spoke_diags injected hub spoke rs b)
  | None => ¬ no_errors (spoke_diags injected hub spoke rs b)
  end.
Proof.
  cbn. case_bool_decide as Hl.
  - split; [done|]. by apply filter_errors_nil, nil_length_inv.
  - intros Hn. apply Hl. apply filter_errors_nil in Hn. by rewrite Hn.
Qed.

(** The three groups of checks, separately. *)
Lemma no_errors_spoke_diags injected hub spoke rs b :
  let hs := default no_schema (vsSchema hub) in
  let ss := default no_schema (vsSchema spoke) in
  no_errors (spoke_diags injected hub spoke rs b) →
  no_errors (bDiags b) ∧
  no_errors (checkAuthoredShadowing injected hs (vsName hub) "hub") ∧
  no_errors (checkAuthoredShadowing injected ss (vsName spoke) "spoke") ∧
  no_errors (checkRuleTargets injected (bResults b)) ∧
  no_errors (analyzeRequiredFields ss hs (rsRules rs) (bResults b) "spoke") ∧
  no_errors (analyzeRequiredFields hs ss (rsRules rs) (bResults b) "hub").
Proof.
  cbn. unfold spoke_diags, platform_diags, required_diags.
  rewrite !no_errors_app, !no_errors_sort, !no_errors_app. tauto.
Qed.

(** A rule path inside a certainly injected root is an error. *)
Lemma target_error injected results rr raw root :
  no_errors (checkRuleTargets injected results) → pjUncertain injected = false →
  rr ∈ results → raw ∈ rrHubPaths rr ∨ raw ∈ rrSpokePaths rr →
  root ∈ pjPaths injected → root ≠ [] → ¬ root `prefix_of` ParsePath raw.
Proof.
  intros Hn Hu Hrr Hraw Hroot Hne Hpre.
  assert (is_Some (owns injected (ParsePath raw))) as [r Hr] by (apply owns_spec; eauto).
  assert (∀ side, is_error (default (errorf 0 (MsgSpokeMissing "")) (head (target_diags injected rr side raw))) = true ∧
    ∀ d, head (target_diags injected rr side raw) = Some d → d ∈ target_diags injected rr side raw) as Ht.
  { intros side. unfold target_diags. rewrite Hr. cbn. unfold is_error, platform_severity. rewrite Hu.
    cbn. split; [done|]. intros d [= <-]. by left. }
  assert (∃ side, ∃ d, head (target_diags injected rr side raw) = Some d ∧ d ∈ checkRuleTargets injected results)
    as (side & d & Hd & Hin).
  { destruct Hraw as [Hraw|Hraw]; [exists "hub"|exists "spoke"].
    all: assert (∃ d, head (target_diags injected rr "hub" raw) = Some d) as [dh Hdh]
      by (unfold target_diags; rewrite Hr; eauto).
    all: assert (∃ d, head (target_diags injected rr "spoke" raw) = Some d) as [dsp Hdsp]
      by (unfold target_diags; rewrite Hr; eauto).
    - exists dh. split; [done|]. apply elem_of_checkRuleTargets. exists rr, raw. split; [done|]. left.
      split; [done|]. by apply Ht.
    - exists dsp. split; [done|]. apply elem_of_checkRuleTargets. exists rr, raw. split; [done|]. right.
      split; [done|]. by apply Ht. }
  destruct (Ht side) as [He _]. rewrite Hd in He. cbn in He.
  by rewrite (no_errors_elem _ _ Hn Hin) in He.
Qed.

(** An error-free required-field check: every required field is guaranteed, or its
    rule's output cannot be predicted, or it is produced with its whole object. *)
Lemma required_no_errors dest src rules results side leaf :
  no_errors (analyzeRequiredFields dest src rules results side) →
  leaf ∈ unconditionallyRequiredLeaves dest (concat (dest_paths side <$> results)) →
  guaranteed rules results (required_paths src) side leaf ∨
  ∃ d, d ∈ analyzeRequiredFields dest src rules results side ∧
    dFieldPath d = path_string (lfPath (rlLeaf leaf)) ∧ dCode d = CodeRequiredFieldUnprovable.
Proof.
  intros Hn Hl. destruct (check_leaf rules results (required_paths src) side leaf) as [|d ds] eqn:Hc.
  { left. by apply check_leaf_silent. }
  right. assert (d ∈ analyzeRequiredFields dest src rules results side) as Hd.
  { unfold analyzeRequiredFields, sortDiagnostics. apply elem_of_sort_by, elem_of_concat.
    exists (check_leaf rules results (required_paths src) side leaf).
    split; [by apply list_elem_of_fmap_2|]. rewrite Hc. by left. }
  exists d. split; [done|]. pose proof (no_errors_elem _ _ Hn Hd) as He.
  assert (d ∈ check_leaf rules results (required_paths src) side leaf) as Hin by (rewrite Hc; by left).
  clear Hc Hd. unfold check_leaf in Hin. cbn zeta in Hin.
  destruct (sDefault _); [by apply not_elem_of_nil in Hin|]. destruct (writers _ _ _).
  - case_bool_decide; [by apply not_elem_of_nil in Hin|].
    destruct (rlAncestorWrittenWholesale leaf); apply list_elem_of_singleton in Hin as ->; done.
  - destruct (bestVerdict _ _ _ _) as [[v w] i].
    destruct v; [by apply not_elem_of_nil in Hin|..]; apply list_elem_of_singleton in Hin as ->; done.
Qed.

(** ** What an error-free analysis establishes *)

(** A required field of a destination: guaranteed, or warned about as unprovable. *)
Definition required_ok (dest src : JSONSchemaProps) (rules : list Rule) (results : list RuleResult)
    (side : string) : Prop :=
  ∀ leaf, leaf ∈ unconditionallyRequiredLeaves dest (concat (dest_paths side <$> results)) →
    guaranteed rules results (required_paths src) side leaf ∨
    ∃ d, d ∈ analyzeRequiredFields dest src rules results side ∧
      dFieldPath d = path_string (lfPath (rlLeaf leaf)) ∧ dCode d = CodeRequiredFieldUnprovable.

(** No rule writes inside a root the platform owns for certain. *)
Definition injected_ok (injected : PlatformInjectedPaths) (results : list RuleResult) : Prop :=
  pjUncertain injected = false →
  ∀ rr raw root, rr ∈ results → raw ∈ rrHubPaths rr ∨ raw ∈ rrSpokePaths rr →
    root ∈ pjPaths injected → root ≠ [] → ¬ root `prefix_of` ParsePath raw.

Record sound_build (injected : PlatformInjectedPaths) (hub spoke : JSONSchemaProps) (rs : RuleSet)
    (b : build) : Prop := {
  sound_leaves : ∀ sd l, l ∈ flattenSchema (schema_of sd hub spoke) →
    unambiguous (rsRules rs) hub spoke sd (lfPath l) →
    leaf_owned (rsRules rs) hub spoke sd (lfPath l) ∨ leaf_copied b (lfPath l) ∨
    effectivePolicy (rsUnmappedFieldPolicy rs) = UnmappedFieldPolicyWarn ∧
      leaf_reported UnmappedFieldPolicyWarn b sd l;
  sound_losses : Forall2 (λ r rr, rAcknowledgeLossy r = false → lossless (rrLossless rr) = true)
    (rsRules rs) (bResults b);
  sound_verdict : lossless (bVerdict b) = forallb lossless (rrLossless <$> bResults b);
  sound_depth : Forall (λ r, foreach_depth r ≤ MaxForEachDepth) (rsRules rs);
  sound_injected : injected_ok injected (bResults b);
  sound_required_spoke : required_ok spoke hub (rsRules rs) (bResults b) "spoke";
  sound_required_hub : required_ok hub spoke (rsRules rs) (bResults b) "hub";
}.

Lemma no_errors_sound injected hub spoke rs :
  let b := spoke_build hub spoke rs in
  no_errors (spoke_diags injected hub spoke rs b) →
  sound_build injected (default no_schema (vsSchema hub)) (default no_schema (vsSchema spoke)) rs b.
Proof.
  intros b Hn. destruct (no_errors_spoke_diags _ _ _ _ _ Hn) as (Hb & _ & _ & Ht & Hs & Hh).
  destruct (build_results _ _ _ _ _ Hb) as [Hv Hr]. split.
  - intros sd l Hl Hu. destruct (every_leaf_handled (rsRules rs) _ _
      (effectivePolicy (rsUnmappedFieldPolicy rs)) 0 sd l Hl Hu) as [Ho|[Hc|Hrep]];
      [left; exact Ho|right; left; exact Hc|].
    do 2 right. pose proof (reported_warn _ _ _ _ Hb Hrep) as E. split; [exact E|].
    exact (eq_ind _ (λ p, leaf_reported p b sd l) Hrep _ E).
  - exact Hr.
  - transitivity (lossless (foldl verdict_and lossless_both (rrLossless <$> bResults b)));
      [by f_equal|by rewrite foldl_verdict_lossless].
  - apply Forall_forall. intros r Hin.
    destruct (error_free_resolver _ _ _ _ _ _ Hb Hin) as (i & s & Hs'). by apply resolve_rule_depth in Hs'.
  - intros Hu rr raw root ????. by eapply target_error.
  - intros leaf. by apply required_no_errors.
  - intros leaf. by apply required_no_errors.
Qed.

Lemma versions_by_name_lookup vs n v : versions_by_name vs !! n = Some v → v ∈ vs ∧ vsName v = n.
Proof.
  unfold versions_by_name.
  assert (∀ m : gmap string VersionSchema, foldl (λ m v, <[vsName v := v]> m) m vs !! n = Some v →
    m !! n = Some v ∨ v ∈ vs ∧ vsName v = n) as Hgen.
  { induction vs as [|w vs IH]; intros m Hk; cbn in Hk; [by left|].
    apply IH in Hk as [Hk|[? ?]]; [|right; set_solver].
    apply lookup_insert_Some in Hk as [[<- ->]|[_ ?]]; [right; set_solver|by left]. }
  intros Hk. apply Hgen in Hk as [Hk|?]; [by rewrite lookup_empty in Hk|done].
Qed.

(** A report that came out has one spoke report per rule set, over a hub that is the
    storage version. *)
Lemma Analyze_Ok fuel i r :
  Analyze fuel i = Ok r →
  ∃ raw versions hub, ssVersions (aiSource i) = Ok raw ∧ NormalizedVersions fuel raw = Ok versions ∧
    versions_by_name versions !! aiHubVersion i = Some hub ∧ vsStorage hub = true ∧
    arSpokeReports r =
      analyze_spoke (default no_platform (ssPlatform (aiSource i))) (versions_by_name versions)
        (aiHubVersion i) hub <$> aiSpokes i.
Proof.
  unfold Analyze. intros H. apply res_bind_Ok in H as (raw & Hraw & H). apply res_wrap_Ok in Hraw.
  apply res_bind_Ok in H as (versions & Hv & H). apply res_wrap_Ok in Hv.
  destruct (versions_by_name versions !! aiHubVersion i) as [hub|] eqn:Hhub; [|done].
  destruct (vsStorage hub) eqn:Hs; cbn in H; [|done]. injection H as <-. by exists raw, versions, hub.
Qed.

(** A plan in a report belongs to a served version. *)
Lemma analyze_spoke_plan injected byName hv hub rs plan :
  srCompiledPlan (analyze_spoke injected byName hv hub rs) = Some plan →
  ∃ spoke, byName !! rsSpokeVersion rs = Some spoke ∧ vsServed spoke = true ∧
    plan = plan_of hv (rsSpokeVersion rs) (spoke_build hub spoke rs) ∧
    no_errors (spoke_diags injected hub spoke rs (spoke_build hub spoke rs)).
Proof.
  unfold analyze_spoke. destruct (byName !! _) as [spoke|]; [|done].
  destruct (vsServed spoke) eqn:Hs; cbn [negb]; [|done]. intros Hp. exists spoke. split_and!; [done..| |].
  all: pose proof (analyze_served_plan injected hv hub spoke rs) as H; cbn zeta in H; rewrite Hp in H; by destruct H.
Qed.
End analyze_lemmas.

(** ** What a silent required-field check stands for *)

(** The field is required by the object it is in. *)
Definition required_in (schema : JSONSchemaProps) (p : FieldPath) : Prop :=
  ∃ above name n, p = above ++ [name] ∧ lookupPath schema above = Ok n ∧ name ∈ sRequired n.

(** The field must be in every converted object: each segment is required by the
    object it is in or, above the field itself, something is written below it. *)
Definition must_exist (schema : JSONSchemaProps) (written : list FieldPath) (p : FieldPath) : Prop :=
  ∀ above name rest, p = above ++ name :: rest → ∃ n, lookupPath schema above = Ok n ∧
    (name ∈ sRequired n ∨
     rest ≠ [] ∧ ∃ below, below ≠ [] ∧ above ++ name :: below ∈ written).

(** The rules are numbered by position, as the conversion of the API type does. *)
Definition numbered (rules : list Rule) : Prop :=
  ∀ i r, rules !! i = Some r → rSourceIndex r = Z.of_nat i.

(** What the build records of a rule. *)
Definition records (i : nat) (r : Rule) (rr : RuleResult) : Prop :=
  rrIndex rr = result_index i r ∧ rrStrategy rr = rStrategy r ∧
  rrHubPaths rr = (rule_paths (rParams r)).1 ∧ rrSpokePaths rr = (rule_paths (rParams r)).2.

Lemma path_string_below above name below : below ≠ [] →
  has_prefix (path_string (above ++ name :: below)) (path_string (above ++ [name]) +:+ ".") = true.
Proof.
  intros Hb. assert (path_string (above ++ name :: below) = path_string (above ++ [name]) +:+ "." +:+ path_string below) as ->.
  2: { unfold has_prefix. rewrite <-append_assoc. apply prefix_append. }
  unfold path_string. induction above as [|x above IH]; cbn [app].
  - by rewrite join_cons.
  - rewrite !join_cons by (by destruct above). by rewrite IH, !append_assoc.
Qed.

Lemma rule_of_numbered rules rr i r :
  numbered rules → rules !! i = Some r → rrIndex rr = Z.of_nat i → rule_of rules rr = r.
Proof.
  intros Hnum Hi Hrr. unfold rule_of.
  assert (∀ k, (∀ j r, rules !! j = Some r → rSourceIndex r = Z.of_nat (k + j)) → rrIndex rr = Z.of_nat (k + i) →
    head (filter (λ r, rSourceIndex r = rrIndex rr) rules) = Some r) as H; [|by rewrite (H 0)].
  clear Hnum Hrr. revert i Hi. induction rules as [|r' rules IH]; intros i Hi k Hnum Hrr; [done|].
  rewrite filter_cons. destruct i as [|i]; cbn in Hi.
  - injection Hi as ->. rewrite decide_True; [done|]. by rewrite Hrr, (Hnum 0 r).
  - rewrite decide_False; [|rewrite Hrr, (Hnum 0 r' eq_refl); lia]. apply (IH i Hi (S k)).
    + intros j r'' Hj. rewrite (Hnum (S j) r'' Hj). lia.
    + rewrite Hrr. lia.
Qed.

Section required_check.
Context `{RO : RangeOrder} `{EX : Externs} `{CX : CompileExterns}.

Lemma flattenInto_required s p r l above name :
  l ∈ flattenInto s p r → lfPath l = p ++ above ++ [name] →
  ∃ n, lookupPath s above = Ok n ∧ (lfRequired l = true ↔ name ∈ sRequired n).
Proof.
  revert p r above; induction s as [s IH] using schema_prop_ind; intros p r above Hl Hp.
  destruct (shapeOf s) as [o c| |] eqn:Hs.
  - rewrite (flattenInto_leaf s p r o c) in Hl by done. apply list_elem_of_singleton in Hl as ->. cbn in Hp.
    apply (f_equal length) in Hp. rewrite !length_app in Hp. cbn in Hp. lia.
  - by rewrite flattenInto_empty, elem_of_nil in Hl by done.
  - rewrite flattenInto_structured, elem_of_flatten_children in Hl by done. destruct Hl as (k & c & Hk & Hl).
    destruct (flattenInto_prefix _ _ _ _ Hl) as [q Hq]. rewrite Hq, <-app_assoc in Hp. apply (inj (p ++.)) in Hp.
    destruct above as [|k' above]; cbn in Hp.
    + injection Hp as -> ->. exists s. split; [done|]. rewrite app_nil_r in Hq.
      destruct (shapeOf c) as [o' c'| |] eqn:Hc.
      * rewrite (flattenInto_leaf c _ _ o' c') in Hl by done. apply list_elem_of_singleton in Hl as ->. cbn.
        unfold lastSegment. rewrite last_snoc. cbn. by rewrite bool_decide_eq_true.
      * by rewrite flattenInto_empty, elem_of_nil in Hl by done.
      * rewrite flattenInto_structured, elem_of_flatten_children in Hl by done. destruct Hl as (k' & c' & _ & Hl).
        apply flattenInto_prefix in Hl as [q' Hq']. rewrite Hq in Hq'. apply (f_equal length) in Hq'.
        rewrite !length_app in Hq'. cbn in Hq'. lia.
    + injection Hp as -> Hq'. destruct (IH k' c Hk (p ++ [k']) (sRequired s) above Hl) as (n & Hn & Hiff).
      { by rewrite Hq, Hq'. }
      exists n. split; [|done]. apply lookupPath_cons. eauto.
Qed.

Lemma flattenSchema_required s l :
  l ∈ flattenSchema s → lfPath l ≠ [] → lfRequired l = true ↔ required_in s (lfPath l).
Proof.
  intros Hl Hne. destruct (exists_last Hne) as (above & name & Hp).
  destruct (flattenInto_required s [] [] l above name Hl Hp) as (n & Hn & ->). split.
  - intros Hin. by exists above, name, n.
  - intros (above' & name' & n' & Hp' & Hn' & Hin). rewrite Hp in Hp'. apply app_inj_tail in Hp' as [-> ->].
    by rewrite Hn in Hn'; injection Hn' as ->.
Qed.

(** The check collects every field that must exist. *)
Lemma must_exist_present s written p :
  must_exist s written p → ancestorsPresent s p (path_string <$> written) = (true, false).
Proof.
  intros Hm. unfold ancestorsPresent.
  assert (∀ q above node, lookupPath s above = Ok node → p = above ++ q →
    ancestors_from node above q (path_string <$> written) false = (true, false)) as H; [|by eapply H].
  intros q; induction q as [|seg [|y q] IH]; intros above node Hnode Hp; cbn [ancestors_from]; [done..|].
  destruct (Hm above seg (y :: q) Hp) as (n & Hn & Hseg). rewrite Hnode in Hn. injection Hn as <-.
  destruct (Hm (above ++ [seg]) y q) as (n2 & Hn2 & _); [by rewrite Hp, <-app_assoc|].
  pose proof Hn2 as (c & Hc & Hn)%lookupPath_app. rewrite Hnode in Hc. injection Hc as <-.
  apply lookupPath_cons in Hn as (c & Hc & [= ->]). rewrite Hc.
  assert (ancestors_from n2 (above ++ [seg]) (y :: q) (path_string <$> written) false = (true, false)) as Hrec.
  { apply IH; [done|]. by rewrite Hp, <-app_assoc. }
  destruct (containsRequired _ _) eqn:Hreq; [apply Hrec|].
  destruct (anyHasPrefix _ _) eqn:Hpre; [apply Hrec|].
  destruct Hseg as [Hin|(_ & below & Hb & Hw)].
  - apply bool_decide_eq_false in Hreq. done.
  - exfalso. apply not_true_iff_false in Hpre. apply Hpre, existsb_exists.
    exists (path_string (above ++ seg :: below)). split; [|by apply path_string_below].
    apply list_elem_of_In. by apply list_elem_of_fmap_2.
Qed.

Lemma rule_loop_records hub spoke pol depth rules idx b :
  ∃ rrs, bResults (rule_loop hub spoke pol depth idx (with_resolvers rules) b) = bResults b ++ rrs ∧
    length rrs = length rules ∧
    ∀ i r, rules !! i = Some r → ∃ rr, rrs !! i = Some rr ∧ records (idx + i) r rr.
Proof.
  revert idx b; induction rules as [|r rules IH]; intros idx b.
  { exists []. by rewrite app_nil_r. }
  change (with_resolvers (r :: rules)) with ((r, resolve_rule r) :: with_resolvers rules). cbn [rule_loop].
  destruct (IH (S idx) (rule_step hub spoke pol depth idx r (resolve_rule r) b)) as (rrs & -> & Hlen & Hall).
  unfold rule_step at 1. destruct (resolve_rule r _ _ _ _ _ _) as [[[h2s s2h] v] st].
  destruct (apply_when _ _ _ _ _ _) as [[ds h2s'] s2h']. cbn [bResults]. rewrite <-app_assoc. cbn [app].
  eexists. split; [done|]. cbn. split; [by rewrite Hlen|]. intros [|i] r' Hi; cbn in *.
  - injection Hi as <-. eexists. split; [done|]. rewrite Nat.add_0_r. by split_and!.
  - rewrite Nat.add_succ_r. by apply Hall.
Qed.

(** The results of an error-free build are the rules' records, in order. *)
Lemma build_records rules hub spoke pol depth :
  no_errors (bDiags (resolveAndBuildOps rules hub spoke pol depth)) →
  let rrs := bResults (resolveAndBuildOps rules hub spoke pol depth) in
  length rrs = length rules ∧
  ∀ i r, rules !! i = Some r → ∃ rr, rrs !! i = Some rr ∧ records i r rr.
Proof.
  intros Hn rrs. assert (rrs = bResults (rule_loop hub spoke pol depth 0 (with_resolvers rules) empty_build)) as ->.
  { unfold rrs. revert Hn. unfold resolveAndBuildOps, build_with, scan_leftovers. cbn. fold (with_resolvers rules).
    set (b := rule_loop _ _ _ _ _ _ _). intros Hn.
    set (b' := foldl (scan_hub_leaf pol (leaves_by_path (flattenSchema spoke))) b (flattenSchema hub)) in *.
    assert (no_errors (bDiags b')) as Hn'.
    { eapply build_le_no_errors; [|exact Hn]. apply foldl_le, scan_spoke_leaf_le. }
    trans (bResults b').
    - apply foldl_verdict; [apply scan_spoke_leaf_le|by intros; apply (scan_leaf_verdicts pol ∅)|done].
    - apply foldl_verdict; [apply scan_hub_leaf_le|by intros; apply scan_leaf_verdicts|done]. }
  destruct (rule_loop_records hub spoke pol depth rules 0 empty_build) as (rrs' & -> & H). exact H.
Qed.

(** Without an error about a leaf, it is guaranteed, when the strategies are ones
    whose output is known and no rule produces the object around it. *)
Lemma check_leaf_guaranteed rules results src side leaf :
  no_errors (check_leaf rules results src side leaf) → rlAncestorWrittenWholesale leaf = false →
  (∀ rr, rr ∈ results → rrStrategy rr ∉ unprovableStrategies) → guaranteed rules results src side leaf.
Proof.
  intros Hn Hw Hst. apply check_leaf_silent. revert Hn. unfold check_leaf. cbn zeta.
  destruct (sDefault _); [done|]. pose proof (elem_of_writers side (path_string (lfPath (rlLeaf leaf))) results) as Hws.
  destruct (writers _ _ _) as [|w ws].
  - case_bool_decide; [done|]. rewrite Hw. by intros [[=] _]%no_errors_cons.
  - destruct (bestVerdict_fold rules src side (w :: ws) (satisfiedNever, WhyNoGuarantee, (-1)%Z)) as (_ & _ & Hat).
    fold (bestVerdict (w :: ws) rules src side) in Hat.
    destruct (bestVerdict (w :: ws) rules src side) as [[v y] idx].
    destruct v; try done; try by intros [[=] _]%no_errors_cons. exfalso.
    destruct Hat as [[=]|(rr & Hrr & Heq)]. apply Hws in Hrr as [Hrr _]. specialize (Hst rr Hrr).
    injection Heq as Heq _. unfold verdictForRule in Heq. destruct (rWhen _); [done|].
    rewrite bool_decide_eq_false_2 in Heq by done. destruct (_ || _); [done|]. by destruct (filter _ _).
Qed.

Definition side_name (sd : side) : string := match sd with Hub => "hub" | Spoke => "spoke" end.

(** The fields the rules write in one direction. *)
Definition written_fields (dir : Direction) (xs : list renaming) : list FieldPath :=
  (λ x, dir_to dir (renaming_pair x)) <$> xs.

Lemma records_paths dir i r x rr :
  records i r rr → is_renaming r = Some x →
  dest_paths (side_name (dest_side dir)) rr = [path_string (dir_to dir (renaming_pair x))] ∧
  src_paths (side_name (dest_side dir)) rr = [path_string (dir_from dir (renaming_pair x))].
Proof.
  intros (_ & _ & Hh & Hs). unfold is_renaming. destruct r as [st p a re si w]. cbn in *. destruct p; try done.
  intros [= <-]. unfold dest_paths, src_paths. rewrite Hh, Hs. by destruct dir.
Qed.

(** The result of the [i]-th of a set of renames. *)
Definition renaming_result (rules : list Rule) (rr : RuleResult) (x : renaming) : Prop :=
  ∃ i r, rules !! i = Some r ∧ rStrategy r = StrategyFieldRename ∧ is_renaming r = Some x ∧ records i r rr.

Lemma renamings_recorded rules xs hub spoke pol :
  Forall2 (λ r x, rStrategy r = StrategyFieldRename ∧ is_renaming r = Some x) rules xs →
  no_errors (bDiags (resolveAndBuildOps rules hub spoke pol 0)) →
  Forall2 (renaming_result rules) (bResults (resolveAndBuildOps rules hub spoke pol 0)) xs.
Proof.
  intros Hr [Hlen Hrec]%build_records. apply Forall2_same_length_lookup_2.
  { rewrite Hlen. by eapply Forall2_length. }
  intros i rr x Hrr Hx. destruct (Forall2_lookup_r _ _ _ _ _ Hr Hx) as (r & Hri & Hst & Hren).
  destruct (Hrec i r Hri) as (rr' & Hrr' & Hre). rewrite Hrr in Hrr'. injection Hrr' as <-. by exists i, r.
Qed.

Lemma renaming_results_paths dir rules rrs xs : Forall2 (renaming_result rules) rrs xs →
  concat (dest_paths (side_name (dest_side dir)) <$> rrs) = path_string <$> written_fields dir xs.
Proof.
  induction 1 as [|rr x rrs xs (i & r & _ & _ & Hx & Hre) _ IH]; [done|]. cbn.
  by rewrite (proj1 (records_paths dir i r x rr Hre Hx)), IH.
Qed.

(** An error-free check guarantees every field that must exist and has no default. *)
Lemma leaf_guaranteed dir rules xs rrs src dest l :
  Forall2 (renaming_result rules) rrs xs → plain_schema dest →
  no_errors (analyzeRequiredFields dest src rules rrs (side_name (dest_side dir))) →
  l ∈ flattenSchema dest → must_exist dest (written_fields dir xs) (lfPath l) →
  guaranteed rules rrs (required_paths src) (side_name (dest_side dir)) {| rlLeaf := l; rlAncestorWrittenWholesale := false |}.
Proof.
  intros Hres Hpd Hcheck Hl Hm. apply check_leaf_guaranteed; [|done|].
  - unfold no_errors in *. rewrite Forall_forall in Hcheck. apply Forall_forall. intros d Hd. apply Hcheck.
    unfold analyzeRequiredFields, sortDiagnostics. apply elem_of_sort_by, elem_of_concat. eexists. split; [|exact Hd].
    apply list_elem_of_fmap_2, elem_of_unconditionallyRequired. cbn.
    rewrite (renaming_results_paths dir _ _ _ Hres). split_and!; [done| |by apply must_exist_present].
    apply (flattenSchema_required dest); [done|by apply Hpd|]. destruct (exists_last (l := lfPath l)) as (above & name & Hp).
    { by apply Hpd. }
    destruct (Hm above name [] Hp) as (n & Hn' & [Hin|[[] _]]); [|done]. by exists above, name, n.
  - intros rr (i & Hrr)%list_elem_of_lookup.
    destruct (Forall2_lookup_l _ _ _ _ _ Hres Hrr) as (x & _ & i' & r & _ & Hst & _ & Hre).
    destruct Hre as (_ & -> & _). rewrite Hst. set_solver.
Qed.

(** A required path of the source is one its objects hold. *)
Lemma required_paths_present src s o p :
  plain_schema src → plain_schema s → p ∈ lfPath <$> flattenSchema s →
  (∀ l, l ∈ flattenSchema src → required_in src (lfPath l) → is_Some (getValue o (lfPath l))) →
  path_string p ∈ required_paths src → is_Some (getValue o p).
Proof.
  intros Hps Hs (l & -> & Hl)%list_elem_of_fmap Ho (l' & Heq & [Hreq Hl']%list_elem_of_filter)%list_elem_of_fmap.
  rewrite (plain_inj s src l l') by done. apply Ho; [done|]. apply flattenSchema_required; [done|by apply Hps|done].
Qed.

(** A rename with the best verdict has no condition and reads a required field. *)
Lemma always_renaming dir rules rrs xs required rr :
  Forall2 (renaming_result rules) rrs xs → numbered rules → rr ∈ rrs →
  (verdictForRule (rule_of rules rr) rr required (side_name (dest_side dir))).1 = satisfiedAlways →
  ∃ x, x ∈ xs ∧ x.2 = None ∧
    dest_paths (side_name (dest_side dir)) rr = [path_string (dir_to dir (renaming_pair x))] ∧
    path_string (dir_from dir (renaming_pair x)) ∈ required.
Proof.
  intros Hres Hnum [k Hrr]%list_elem_of_lookup Hv.
  destruct (Forall2_lookup_l _ _ _ _ _ Hres Hrr) as (x & Hx & i & r & Hi & Hst & Hren & Hre).
  destruct (records_paths dir i r x rr Hre Hren) as [Hd Hs]. destruct Hre as (Hidx & Hst' & _).
  rewrite (rule_of_numbered rules rr i r) in Hv; [|done..|].
  2: { rewrite Hidx. unfold result_index. rewrite (Hnum i r Hi). by case_bool_decide; case_bool_decide. }
  apply verdictForRule_always in Hv as (Hw & _ & Hsrcs). exists x. split_and!; [by eapply list_elem_of_lookup_2| |done|].
  - unfold is_renaming in Hren. rewrite Hw in Hren. destruct (rParams r); try done. by injection Hren as <-.
  - destruct Hsrcs as [Hc|[Hc|Hall]]; [by rewrite Hst', Hst in Hc..|]. apply Hall. rewrite Hs. by left.
Qed.

(** An error-free check of a set of renames, conditional or not: an object with all
    the fields its version requires converts to one with all the other requires. *)
Lemma required_check_sound dir rules xs hub spoke pol hv sv o :
  let b := resolveAndBuildOps rules hub spoke pol 0 in
  let src := schema_of (src_side dir) hub spoke in
  let dest := schema_of (dest_side dir) hub spoke in
  Forall2 (λ r x, rStrategy r = StrategyFieldRename ∧ is_renaming r = Some x) rules xs → numbered rules →
  leaf_renames hub spoke xs.*1 → plain_schema hub → plain_schema spoke → pol ≠ UnmappedFieldPolicyWarn →
  no_errors (bDiags b) →
  no_errors (analyzeRequiredFields dest src rules (bResults b) (side_name (dest_side dir))) →
  (∀ l, l ∈ flattenSchema src → required_in src (lfPath l) → is_Some (getValue o (lfPath l))) →
  ∃ o', Convert (Some {| plHubVersion := hv; plSpokeVersion := sv; plHubToSpoke := bH2S b; plSpokeToHub := bS2H b |})
      dir o = Ok o' ∧
    ∀ l, l ∈ flattenSchema dest → sDefault (lfSchema l) = None →
      must_exist dest (written_fields dir xs) (lfPath l) → is_Some (getValue o' (lfPath l)).
Proof.
  intros b src dest Hr Hnum Hlr Hh Hs Hpol Hn Hcheck Ho.
  assert (Forall2 (λ r x, is_renaming r = Some x) rules xs) as Hr' by (eapply Forall2_impl; [exact Hr|]; naive_solver).
  destruct (renames_plan rules xs hub spoke pol hv sv Hr' Hlr Hh Hs Hpol Hn)
    as (prs & Hplan & Hok & Hkind & Hxs & Hne & Hlh & Hls). fold b in Hplan. rewrite Hplan.
  rewrite Forall_forall in Hkind. rewrite Forall_forall in Hxs.
  destruct (copying_converts dir hv sv prs (mergeKnownTrees (buildKnownTree (Some hub)) (buildKnownTree (Some spoke))) o)
    as (o' & Ho' & Harr); [|done..|].
  { apply Forall_forall. intros pr [(x & _ & ->)|?]%Hkind; [left; eauto|by right]. }
  exists o'. split; [done|]. intros l Hl Hdef Hm.
  assert (plain_schema dest ∧ plain_schema src) as [Hpd Hps] by (unfold dest, src; by destruct dir).
  pose proof (renamings_recorded rules xs hub spoke pol Hr Hn) as Hres. fold b in Hres.
  destruct (leaf_guaranteed dir _ _ _ _ _ l Hres Hpd Hcheck Hl Hm) as [[? Hd]|[[Hsrc Hno]|(rr & Hrr & Hp & Hv)]]; cbn in *.
  - by rewrite Hdef in Hd.
  - assert (∃ pr, pr ∈ prs ∧ dir_to dir pr = lfPath l) as (pr & Hpr & Hto) by (unfold dest in Hl; destruct dir; eauto).
    rewrite <-Hto in *. destruct (Hkind pr Hpr) as [(x & Hx & ->)|[p ->]].
    + exfalso. apply list_elem_of_lookup in Hx as [i Hx].
      destruct (Forall2_lookup_r _ _ _ _ _ Hres Hx) as (rr & Hrr & j & r & _ & _ & Hren & Hre).
      apply (Hno rr); [by eapply list_elem_of_lookup_2|]. rewrite (proj1 (records_paths dir j r x rr Hre Hren)). by left.
    + apply Harr; [done|by destruct dir|]. assert (dir_from dir (identity_pair p) = lfPath l) as -> by by destruct dir.
      rewrite Hto in Hsrc. by apply (required_paths_present src dest); [..|apply list_elem_of_fmap_2| |].
  - destruct (always_renaming dir _ _ _ _ rr Hres Hnum Hrr Hv) as (x & Hx & Hw & Hd & Hreq).
    rewrite Hd in Hp. apply list_elem_of_singleton in Hp. pose proof Hlr as Hlr'. unfold leaf_renames in Hlr'.
    rewrite Forall_fmap, Forall_forall in Hlr'. destruct (Hlr' x Hx) as (Hxh & Hxs' & _).
    assert (dir_to dir (renaming_pair x) ∈ lfPath <$> flattenSchema dest ∧
            dir_from dir (renaming_pair x) ∈ lfPath <$> flattenSchema src) as [Hto Hfrom]
      by (unfold dest, src; by destruct dir).
    assert (lfPath l = dir_to dir (renaming_pair x)) as ->.
    { apply list_elem_of_fmap in Hto as (l' & Heq & Hl'). rewrite Heq in Hp |- *. by apply (plain_inj dest dest). }
    apply Harr; [by apply Hxs| |by apply (required_paths_present src src)].
    destruct x as [hs w]. cbn in Hw. subst w. by destruct dir.
Qed.
End required_check.
