(* ===== verification/StrategyTheory.v ===== *)
(** What the compiler's own tables guarantee (enum and key tables), and what the
    operations over nested operation lists do. *)
From S2P Require Import Prelude Float64 Value Json JsonTheory Duration Path Schema Rules Coerce Passthrough Ops Convert OpsTheory RoundTrip Diagnostics Compile CompileTheory PlanTheory.

Section strategies.
Context `{RO : RangeOrder} `{EX : Externs} `{CX : CompileExterns}.

(** ** EnumRemap *)

Lemma enum_tables_lookup (mapping : list EnumValueMapping) m :
  m ∈ mapping →
  (NoDup ((λ m, enumKey (emHub m)) <$> mapping) → (enum_tables mapping).1 !! enumKey (emHub m) = Some (emSpoke m)) ∧
  (NoDup ((λ m, enumKey (emSpoke m)) <$> mapping) → (enum_tables mapping).2 !! enumKey (emSpoke m) = Some (emHub m)).
Proof.
  unfold enum_tables. set (f := λ '(h2s, s2h) m, (<[enumKey (emHub m) := emSpoke m]> h2s,
    <[enumKey (emSpoke m) := emHub m]> s2h) : gmap string value * gmap string value).
  assert (∀ l t, (∀ k, k ∉ (λ m, enumKey (emHub m)) <$> l → (foldl f t l).1 !! k = t.1 !! k) ∧
    (∀ k, k ∉ (λ m, enumKey (emSpoke m)) <$> l → (foldl f t l).2 !! k = t.2 !! k)) as Hout.
  { induction l as [|m' l IH]; intros [a b]; [done|]. cbn. destruct (IH (f (a, b) m')) as [I1 I2].
    split; intros k [Hne Hk]%not_elem_of_cons.
    - rewrite I1 by done. by apply lookup_insert_ne.
    - rewrite I2 by done. by apply lookup_insert_ne. }
  intros Hin. generalize ((∅, ∅) : gmap string value * gmap string value).
  induction mapping as [|m' l IH]; intros [a b]; [by apply not_elem_of_nil in Hin|]. cbn.
  apply elem_of_cons in Hin as [->|Hin].
  - split; intros [Hnin _]%NoDup_cons; [rewrite (proj1 (Hout l _))|rewrite (proj2 (Hout l _))]; try done;
      apply lookup_insert_eq.
  - destruct (IH Hin (f (a, b) m')) as [I1 I2]. split; intros [_ Hnd]%NoDup_cons; auto.
Qed.

(** With distinct keys on both sides, a mapped value comes back. *)
Lemma enum_exchanges (mapping : list EnumValueMapping) p polh pols m :
  m ∈ mapping → NoDup ((λ m, enumKey (emHub m)) <$> mapping) → enum_injective mapping = true →
  exchanges (remapEnumOp p (enum_tables mapping).1 polh) (remapEnumOp p (enum_tables mapping).2 pols) p p
    (emHub m) (emSpoke m).
Proof.
  intros Hm Hh Hs%bool_decide_eq_true. destruct (enum_tables_lookup mapping m Hm) as [L1 L2].
  exchange; unfold remapEnumOp_apply, on_present; cbn.
  - by rewrite Hv, L1.
  - by rewrite Hw, L2.
Qed.

(** ** MapKeyRename *)

(** The inverse table: without an error, the entries turned around. *)
Lemma invert_entries_spec idx name l rev s :
  no_errors (csDiags (invert_entries idx name l rev s).2) →
  (∀ h k, (h, k) ∈ l → rev !! k = None) ∧
  ∀ k h, (invert_entries idx name l rev s).1 !! k = Some h ↔ rev !! k = Some h ∨ (h, k) ∈ l.
Proof.
  revert rev s; induction l as [|[h0 k0] l IH]; intros rev s Hn.
  { split; [by intros ?? ?%not_elem_of_nil|]. intros k h. cbn. rewrite elem_of_nil. tauto. }
  cbn in Hn |- *. destruct (_ || _).
  { exfalso. revert Hn. apply fails_bind_l; [apply fails_fail|]. intros. apply grows_invert_entries. }
  case_bool_decide as Hdup.
  { exfalso. revert Hn. apply fails_bind_l; [apply fails_fail|]. intros. apply grows_invert_entries. }
  apply eq_None_not_Some in Hdup. destruct (IH _ _ Hn) as [I1 I2]. split.
  - intros h k [[= -> ->]|Hin]%elem_of_cons; [done|]. by apply I1, lookup_insert_None in Hin as [? _].
  - intros k h. rewrite I2, elem_of_cons, lookup_insert_Some. split.
    + intros [[[-> ->]|[_ ?]]|?]; auto.
    + intros [H|[[= -> ->]|H]]; [|by left; left|by right]. left. right. split; [|done].
      intros ->. congruence.
Qed.

Lemma invertRenames_spec idx name renames s :
  no_errors (csDiags (invertRenames idx name renames s).2) →
  ∀ k h, (invertRenames idx name renames s).1 !! k = Some h ↔ renames !! h = Some k.
Proof.
  unfold invertRenames. case_bool_decide.
  { intros Hn. exfalso. revert Hn. apply fails_bind_l; [apply fails_fail|]. intros. apply grows_ret. }
  intros Hn k h. destruct (invert_entries_spec _ _ _ _ _ Hn) as [_ ->].
  rewrite lookup_empty, elem_of_range. naive_solver.
Qed.

(** Keys that are no spoke name of another key come back. *)
Lemma inverse_key idx name renames s k :
  no_errors (csDiags (invertRenames idx name renames s).2) →
  is_Some (renames !! k) ∨ (∀ h, renames !! h ≠ Some k) →
  rename_key (invertRenames idx name renames s).1 (rename_key renames k) = k.
Proof.
  intros Hn Hk. pose proof (invertRenames_spec _ _ _ _ Hn) as Hinv. unfold rename_key.
  destruct (renames !! k) as [k'|] eqn:Hr; cbn.
  - apply Hinv in Hr. by rewrite Hr.
  - destruct Hk as [[? [=]]|Hk]. destruct ((invertRenames idx name renames s).1 !! k) as [h|] eqn:Hi; [|done].
    apply Hinv in Hi. by apply Hk in Hi.
Qed.

Lemma compiled_key_rename_round_trips idx renames s src dst i (m : obj) :
  no_errors (csDiags (invertRenames idx "MapKeyRename" renames s).2) →
  getValue i src = Some (VObj m) →
  (∀ k v, m !! k = Some v → is_Some (renames !! k) ∨ ∀ h, renames !! h ≠ Some k) →
  round_trips (mapKeyRenameOp src dst renames)
    (mapKeyRenameOp dst src (invertRenames idx "MapKeyRename" renames s).1) src dst i.
Proof.
  intros Hn Hv Hm.
  destruct (map_key_rename_exchanges src dst renames (invertRenames idx "MapKeyRename" renames s).1 m) as [out Hx].
  { intros k v Hk. apply inverse_key; [done|]. by eapply Hm. }
  by eapply exchanges_round_trips.
Qed.

(** ** ForEach *)

(** An element converts on its own, from an empty output. *)
Definition element_converts (ops : list Op) (e out : value) : Prop :=
  ∃ m c, e = VObj m ∧ apply_ops ops (new_context m ∅) = Ok c ∧ out = VObj (ecOutput c).

Lemma forEach_elements_spec src ops arr outs :
  forEach_elements src (λ c, res_foldl (λ c op, apply_op op c) c ops) arr = Ok outs →
  Forall2 (element_converts ops) arr outs.
Proof.
  unfold forEach_elements. intros H%res_mapM_Forall2. rewrite <-(imap_pair_snd arr) at 1.
  apply Forall2_fmap_l. eapply Forall2_impl; [exact H|]. intros [j e] out He. cbn in *.
  destruct (as_obj e) as [m|] eqn:Hm; [|done]. destruct e; try done. injection Hm as ->.
  apply res_bind_Ok in He as (c & Hc & [= <-]). apply res_wrap_Ok in Hc. by exists m, c.
Qed.

Lemma forEach_Ok src dst ops i o c arr :
  getValue i src = Some (VArr arr) → apply_op (forEachOp src dst ops) (new_context i o) = Ok c →
  ∃ outs, getValue (ecOutput c) dst = Some (VArr outs) ∧ Forall2 (element_converts ops) arr outs.
Proof.
  intros Hv Hrun. cbn in Hrun. unfold forEachOp_apply, on_present in Hrun. cbn in Hrun. rewrite Hv in Hrun.
  cbn in Hrun. apply res_bind_Ok in Hrun as ([] & _ & Hrun). apply res_bind_Ok in Hrun as (outs & Houts & Hrun).
  apply put_Ok in Hrun as (_ & Hrun & _). exists outs. split; [done|]. by eapply forEach_elements_spec.
Qed.

(** The input may hold an array at the destination only if it is as long. *)
Definition fits (i : obj) (dst : FieldPath) (n : nat) : Prop :=
  match getValue i dst with None => True | Some v => ∃ l, v = VArr l ∧ length l = n end.

Lemma forEach_elements_run src ops arr outs :
  Forall2 (element_converts ops) arr outs →
  forEach_elements src (λ c, res_foldl (λ c op, apply_op op c) c ops) arr = Ok outs.
Proof.
  unfold forEach_elements. assert (∀ L : list (nat * value), Forall2 (element_converts ops) L.*2 outs →
    res_mapM (λ '(i, elem), match as_obj elem with
      | None => Err (EElementNotObject "forEach" i src)
      | Some elemMap =>
          elemCtx ← res_wrap (EElement "forEach" i) (apply_ops ops (new_context elemMap ∅));
          Ok (VObj (ecOutput elemCtx))
      end) L = Ok outs) as Hgen.
  { induction L as [|[k e] L IH] in outs |- *; intros H; inversion H as [|? out ? outs' He H']; subst; [done|].
    destruct He as (m & c & He & Hc & ->). cbn in He. subst. cbn. rewrite Hc. cbn. by rewrite (IH outs'). }
  intros H. apply Hgen. by rewrite imap_pair_snd.
Qed.

Lemma forEach_writes src dst ops i arr outs :
  getValue i src = Some (VArr arr) → fits i dst (length arr) → Forall2 (element_converts ops) arr outs →
  writes (forEachOp src dst ops) i dst (VArr outs).
Proof.
  intros Hv Hfit Hel o. cbn [apply_op]. unfold forEachOp_apply, on_present. cbn [ecInput new_context].
  rewrite Hv. cbn [as_arr]. rewrite (forEach_elements_run src ops arr outs Hel). unfold fits in Hfit.
  destruct (getValue i dst) as [v|]; [|done]. destruct Hfit as (l & -> & Hl). cbn [as_arr].
  by rewrite bool_decide_eq_true_2.
Qed.

(** When every element survives the nested operations, so does the array. *)
Lemma forEach_round_trips src dst n1 n2 i arr outs :
  getValue i src = Some (VArr arr) → fits i dst (length arr) →
  Forall2 (element_converts n1) arr outs → Forall2 (element_converts n2) outs arr →
  ∀ o1, writable o1 dst = true →
  ∃ c1, apply_op (forEachOp src dst n1) (new_context i o1) = Ok c1 ∧ getValue (ecOutput c1) dst = Some (VArr outs) ∧
  ∀ j o2, getValue j dst = Some (VArr outs) → fits j src (length outs) → writable o2 src = true →
  ∃ c2, apply_op (forEachOp dst src n2) (new_context j o2) = Ok c2 ∧ getValue (ecOutput c2) src = Some (VArr arr).
Proof.
  intros Hv Hfit H1 H2 o1 Ho1.
  destruct (writes_runs _ _ _ _ o1 (forEach_writes src dst n1 i arr outs Hv Hfit H1) Ho1) as (c1 & Hc1 & Hg).
  exists c1. split_and!; [done..|]. intros j o2 Hj Hfj Ho2.
  exact (writes_runs _ _ _ _ o2 (forEach_writes dst src n2 j outs arr Hj Hfj H2) Ho2).
Qed.

(** ** BranchMap *)

Definition active_branches (branches : list (compiledBranch (list Op))) (o : obj) : list (compiledBranch (list Op)) :=
  filter (λ b, is_Some (o !! cbSrcBranch b)) branches.

(** The value a branch converts to. *)
Definition branch_value (b : compiledBranch (list Op)) (o : obj) (v : value) : Prop :=
  match cbNested b with
  | [] => o !! cbSrcBranch b = Some v
  | ops => ∃ m c, o !! cbSrcBranch b = Some (VObj m) ∧
             apply_ops ops (new_context m ∅) = Ok c ∧ v = VObj (ecOutput c)
  end.

Lemma active_compiled branches (o : obj) (F : list Op → option (execContext → res op_error execContext)) :
  filter (λ b, is_Some (o !! cbSrcBranch b))
    ((λ b, mkCompiledBranch (cbSrcBranch b) (cbDstBranch b) (cbDstDiscriminator b) (F (cbNested b))) <$> branches) =
  (λ b, mkCompiledBranch (cbSrcBranch b) (cbDstBranch b) (cbDstDiscriminator b) (F (cbNested b)))
    <$> active_branches branches o.
Proof.
  unfold active_branches. induction branches as [|b bs IH]; [done|].
  rewrite fmap_cons, !filter_cons. cbn [cbSrcBranch]. case_decide; by rewrite IH.
Qed.

(** Exactly one branch must be set; its value and discriminator are written. *)
Lemma branchMap_Ok src dst d branches i o c obj0 :
  getValue i src = Some (VObj obj0) → apply_op (branchMapOp src dst d branches) (new_context i o) = Ok c →
  ∃ b v, active_branches branches obj0 = [b] ∧ branch_value b obj0 v ∧
    (d = "" ∨ cbDstBranch b ≠ d → getValue (ecOutput c) (dst ++ [cbDstBranch b]) = Some v) ∧
    (d ≠ "" → getValue (ecOutput c) (dst ++ [d]) = Some (VStr (cbDstDiscriminator b))).
Proof.
  intros Hv Hrun. cbn [apply_op] in Hrun. unfold branchMapOp_apply, on_present in Hrun.
  cbn [ecInput new_context] in Hrun. rewrite Hv in Hrun. cbn [as_obj] in Hrun.
  rewrite (active_compiled branches obj0 (λ ops, match ops with [] => None
    | y :: l => Some (λ c, res_foldl (λ c op, apply_op op c) c (y :: l)) end)) in Hrun.
  assert (∀ b, active_branches branches obj0 = [b] → is_Some (obj0 !! cbSrcBranch b)) as Hact.
  { intros b Hb. assert (b ∈ active_branches branches obj0) as Hin by (rewrite Hb; by left).
    by apply list_elem_of_filter in Hin as [? _]. }
  destruct (active_branches branches obj0) as [|b [|b' l]]; cbn in Hrun; [done| |done].
  apply res_bind_Ok in Hrun as (v & Hval & Hrun). apply res_bind_Ok in Hrun as (c1 & Hc1 & Hrun).
  exists b, v. split; [done|].
  destruct (Hact b eq_refl) as [w Hw]. split.
  { unfold branch_value. destruct (cbNested b) as [|op ops].
    - rewrite Hw in Hval. injection Hval as <-. by rewrite deepCopyValue_id.
    - rewrite Hw in Hval. cbn in Hval. destruct w; try done. cbn in Hval.
      apply res_bind_Ok in Hval as (bc & Hbc & [= <-]). apply res_wrap_Ok in Hbc. eauto. }
  apply put_Ok in Hc1 as (Hi & Hg & _). case_bool_decide as Hd.
  { injection Hrun as <-. split; [done|]. done. }
  apply put_Ok in Hrun as (_ & Hg' & Hset). split; [|done]. intros [?|Hne]; [done|].
  rewrite (getValue_setValue_disjoint _ _ _ _ _ Hset); [done|].
  split; intros [r Hr]; rewrite <-(assoc_L (++)) in Hr; apply app_inv_head in Hr;
    injection Hr; congruence.
Qed.

(** And when exactly one is set and converts, the operation runs. *)
Lemma branchMap_runs src dst d branches i o obj0 b v :
  getValue i src = Some (VObj obj0) → active_branches branches obj0 = [b] → branch_value b obj0 v →
  writable o (dst ++ [cbDstBranch b]) = true → (d ≠ "" → writable o (dst ++ [d]) = true) →
  ∃ c, apply_op (branchMapOp src dst d branches) (new_context i o) = Ok c.
Proof.
  intros Hv Hact Hval Hw Hwd. cbn [apply_op]. unfold branchMapOp_apply, on_present.
  cbn [ecInput new_context]. rewrite Hv. cbn [as_obj].
  rewrite (active_compiled branches obj0 (λ ops, match ops with [] => None
    | y :: l => Some (λ c, res_foldl (λ c op, apply_op op c) c (y :: l)) end)), Hact. cbn [fmap list_fmap cbNested cbSrcBranch cbDstBranch cbDstDiscriminator].
  assert (match cbNested b with
    | [] => None
    | y :: l => Some (λ c, res_foldl (λ c op, apply_op op c) c (y :: l)) end = None ∧
      obj0 !! cbSrcBranch b = Some v ∨
    ∃ m c, cbNested b ≠ [] ∧ obj0 !! cbSrcBranch b = Some (VObj m) ∧
      apply_ops (cbNested b) (new_context m ∅) = Ok c ∧ v = VObj (ecOutput c)) as Hcase.
  { unfold branch_value in Hval. destruct (cbNested b); [by left|right].
    destruct Hval as (m & c & ? & ? & ?). by exists m, c. }
  destruct (put_writable (new_context i o) (dst ++ [cbDstBranch b]) v Hw) as [c1 Hc1].
  assert (∃ c, (if bool_decide (d = "") then Ok c1
    else put c1 (dst ++ [d]) (VStr (cbDstDiscriminator b))) = Ok c) as [c Hc].
  { case_bool_decide as Hd; [by eexists|]. apply put_writable. apply put_Ok in Hc1 as (_ & Hg & Hset).
    destruct (decide (cbDstBranch b = d)) as [Heq|Hne].
    - eapply present_writable; [by intros [_ [=]]%app_eq_nil|]. by rewrite <-Heq.
    - eapply writable_setValue_disjoint; [exact Hset| |by apply Hwd].
      split; intros [r Hr]; rewrite <-(assoc_L (++)) in Hr; apply app_inv_head in Hr; injection Hr; congruence. }
  exists c. destruct Hcase as [[-> Hb]|(m & c' & Hne & Hb & Hrun & ->)].
  - rewrite Hb. cbn [default from_option mbind res_bind]. rewrite deepCopyValue_id. cbn [id]. rewrite Hc1. exact Hc.
  - destruct (cbNested b) as [|op ops] eqn:Hn; [done|]. rewrite Hb. cbn [mbind option_bind as_obj].
    unfold apply_ops in Hrun. rewrite Hrun. cbn [res_wrap mbind res_bind]. rewrite Hc1. exact Hc.
Qed.

Lemma branchMap_count src dst d branches i o obj0 :
  getValue i src = Some (VObj obj0) → length (active_branches branches obj0) ≠ 1 →
  res_ok (apply_op (branchMapOp src dst d branches) (new_context i o)) = false.
Proof.
  intros Hv Hlen. destruct (apply_op _ _) as [c|e] eqn:Hrun; [|done]. exfalso.
  destruct (branchMap_Ok _ _ _ _ _ _ _ _ Hv Hrun) as (b & v & Hb & _). by rewrite Hb in Hlen.
Qed.

(** ** Whole conversions *)

Lemma Convert_frame plan dir o o' q :
  Convert (Some plan) dir o = Ok o' →
  (∀ op p, op ∈ plan_ops plan dir → may_write op p → path_disjoint p q) →
  getValue o' q = getValue (baseline o) q.
Proof.
  intros (c & Hc & <-)%Convert_Ok Hd.
  by apply (apply_ops_frame _ (new_context o (baseline o)) c q Hc (cache_ok_new _ _)).
Qed.

Lemma Convert_perm plan plan' dir o o' :
  plan_ops plan dir ≡ₚ plan_ops plan' dir →
  Forall (λ op, sets_only op = true) (plan_ops plan dir) → ForallOrdPairs ops_disjoint (plan_ops plan dir) →
  Convert (Some plan) dir o = Ok o' → Convert (Some plan') dir o = Ok o'.
Proof.
  intros Hp Hs Hd (c & Hc & <-)%Convert_Ok.
  destruct (apply_ops_perm _ _ Hp Hs Hd _ _ (cache_ok_new _ _) Hc) as (c' & Hc' & Ho & _).
  unfold Convert. rewrite Hc'. cbn. by rewrite Ho.
Qed.

(** ** The router *)

Lemma Router_via_hub r o from to :
  from ≠ to → from ≠ rtHub r → to ≠ rtHub r →
  Router_Convert r o from to =
    (h ← Router_Convert r o from (rtHub r); Router_Convert r h (rtHub r) to).
Proof.
  intros Hne Hf Ht. unfold Router_Convert. rewrite !(bool_decide_eq_false_2 (from = _)) by done.
  rewrite !(bool_decide_eq_false_2 (to = _)) by done. rewrite (bool_decide_eq_true_2 (rtHub r = rtHub r)) by done.
  rewrite (bool_decide_eq_false_2 (rtHub r = to)) by done.
  destruct (rtPlans r !! from) as [p|]; cbn; [|done]. by destruct (Convert p SpokeToHub o).
Qed.
End strategies.
