(* ===== verification/Assign.v ===== *)
(** Which webhook server serves a config (internal/assign/assign.go and
    shard.go, with the accessors of api/v1alpha1 they call).

    The Go constraint [ConfigLike] is a type class; both config kinds of
    [Api.v] are instances.  [math.Log] is a parameter (class [MathLog]): its
    last bit is not the same on every architecture Go compiles for, so nothing
    is proved from a particular logarithm; [go_log] is the portable algorithm
    of the standard library, used where a result is computed. *)
From S2P Require Import Prelude Float64.
From Stdlib Require Import Ascii.
#[local] Open Scope Z_scope.

(** ** The objects *)

Record ShardingSpec := { shEnabled : option bool; shWeight : option Z }.

(** The fields of a ConversionWebhookServer that assignment reads. *)
Record ConversionWebhookServer := {
  cwsName : string;
  cwsDefault : bool;
  cwsSharding : option ShardingSpec;
}.

Definition ShardingEnabled (s : ConversionWebhookServer) : bool :=
  match cwsSharding s with
  | None => false
  | Some sh => default true (shEnabled sh)
  end.

Definition ShardWeight (s : ConversionWebhookServer) : Z :=
  match cwsSharding s with
  | None => 1
  | Some sh =>
    match shWeight sh with
    | None => 1
    | Some w => if w <=? 0 then 1 else w mod 2 ^ 32
    end
  end.

Definition WebhookServerServiceName (serverName : string) : string := serverName ++ "-webhook-server".

(** The interfaces the resolver is generic over. *)
Class ConfigLike (T : Type) := {
  GetName : T → string;
  WebhookServerRefField : T → option string;
  ShardKey : T → string;
}.
Class ServingConfigLike (T : Type) := {
  serving_config :: ConfigLike T;
  AppliedWebhookURL : T → string;
}.

(** ** The score *)

Class MathLog := Log : float64 → float64.

Definition fnv_offset64 : Z := 14695981039346656037.
Definition fnv_prime64 : Z := 1099511628211.

(** [h.Write] of [hash/fnv]'s 64-bit FNV-1a. *)
Definition fnv_byte (h : Z) (c : ascii) : Z :=
  (Z.lxor h (Z.of_nat (nat_of_ascii c)) * fnv_prime64) mod 2 ^ 64.
Definition fnv_write (h : Z) (s : string) : Z := foldl fnv_byte h (String.list_ascii_of_string s).

Definition shard_sum (serverName key : string) : Z :=
  fnv_write (fnv_byte (fnv_write fnv_offset64 serverName) "000"%char) key.

(** [float64(sum%mantissa+1) / float64(mantissa+1)]; the constant [2^53+1] is
    rounded to a float64 by the compiler. *)
Definition shard_uniform (serverName key : string) : float64 :=
  f64_div (f64_of_Z (shard_sum serverName key mod 2 ^ 53 + 1)) (f64_of_Z (2 ^ 53 + 1)).

Section shard.
Context `{ML : MathLog}.

Definition shardScore (serverName key : string) (weight : Z) : float64 :=
  f64_div (f64_neg (f64_of_Z weight)) (Log (shard_uniform serverName key)).

(** ** The pool *)

(** The order [sort.Slice] sorts by. *)
Definition by_name (s t : ConversionWebhookServer) : Prop := String.le (cwsName s) (cwsName t).
#[export] Instance by_name_dec : RelDecision by_name := λ s t, decide (String.le _ _).

Definition ShardPool (allServers : list ConversionWebhookServer) : list ConversionWebhookServer :=
  merge_sort by_name (filter (λ s, ShardingEnabled s = true) allServers).

(** One iteration of the loop of [PickShard]: [(best, bestScore)]. *)
Definition pick_step (key : string) (best : string * float64) (s : ConversionWebhookServer) : string * float64 :=
  let score := shardScore (cwsName s) key (ShardWeight s) in
  if f64_ltb best.2 score || (f64_eqb score best.2 && str_lt (cwsName s) best.1)
  then (cwsName s, score) else best.

Definition PickShard (pool : list ConversionWebhookServer) (key : string) : string :=
  (foldl (pick_step key) ("", f64_neg_inf) pool).1.

(** ** Assignment *)

Inductive assign_error :=
| ErrRefNotFound (name : string)
| ErrNoDefault
| ErrManyDefaults (names : list string).

Section resolve.
Context `{CL : ConfigLike T}.

Definition has_server (allServers : list ConversionWebhookServer) (name : string) : bool :=
  existsb (λ s, bool_decide (cwsName s = name)) allServers.

Definition default_names (allServers : list ConversionWebhookServer) : list string :=
  cwsName <$> filter (λ s, cwsDefault s = true) allServers.

Definition ResolveAssignment (cfg : T) (allServers : list ConversionWebhookServer) : res assign_error string :=
  let pinned := match WebhookServerRefField cfg with
                | Some name => if bool_decide (name = "") then None else Some name
                | None => None
                end in
  match pinned with
  | Some name => if has_server allServers name then Ok name else Err (ErrRefNotFound name)
  | None =>
    let pool := ShardPool allServers in
    if bool_decide (pool ≠ []) then Ok (PickShard pool (ShardKey cfg))
    else match default_names allServers with
         | [] => Err ErrNoDefault
         | [name] => Ok name
         | names => Err (ErrManyDefaults (merge_sort String.le names))
         end
  end.

Definition IsAssignedTo (cfg : T) (allServers : list ConversionWebhookServer) (serverName : string) : bool :=
  match ResolveAssignment cfg allServers with
  | Ok name => bool_decide (name = serverName)
  | Err _ => false
  end.

Definition ConfigsAssignedTo (allConfigs : list T) (allServers : list ConversionWebhookServer)
    (serverName : string) : list T :=
  filter (λ cfg, IsAssignedTo cfg allServers serverName = true) allConfigs.
End resolve.

(** ** Serving *)

Definition TargetPointsAt (appliedURL serverName : string) : bool :=
  if bool_decide (appliedURL = "") then false
  else String.prefix ("https://" ++ WebhookServerServiceName serverName ++ ".") appliedURL.

Section served.
Context `{SC : ServingConfigLike T}.

Definition ServedBy (cfg : T) (allServers : list ConversionWebhookServer) (serverName : string) : bool :=
  if IsAssignedTo cfg allServers serverName then true
  else TargetPointsAt (AppliedWebhookURL cfg) serverName.

Definition ConfigsServedBy (allConfigs : list T) (allServers : list ConversionWebhookServer)
    (serverName : string) : list T :=
  filter (λ cfg, ServedBy cfg allServers serverName = true) allConfigs.
End served.
End shard.

(** ** [math.Log] as the standard library's portable code computes it

    Used to compute results; the theorems hold for every logarithm. *)


(** A positive normal number from its 64 bits. *)
Definition f64_of_bits (b : Z) : float64 :=
  binary_normalize f64_prec f64_emax (b mod 2 ^ 52 + 2 ^ 52) (b / 2 ^ 52 - 1075) false.

(** [math.Frexp] of a finite number: [f = frac * 2^exp], [frac] in [[1/2, 1)]. *)
Definition frexp (f : float64) : float64 * Z :=
  match f with
  | S754_finite s m e =>
    let d := Zpos (SpecFloat.digits2_pos m) in
    (binary_normalize f64_prec f64_emax (if s then Zneg m else Zpos m) (- d) false, e + d)
  | _ => (f, 0)
  end.

#[local] Infix "+." := f64_add (at level 50, left associativity).
#[local] Infix "-." := f64_sub (at level 50, left associativity).
#[local] Infix "*." := f64_mul (at level 40, left associativity).
#[local] Infix "/." := f64_div (at level 40, left associativity).

Definition log_reduced (f : float64) (k : Z) : float64 :=
  let ln2hi := f64_of_bits 0x3fe62e42fee00000 in
  let ln2lo := f64_of_bits 0x3dea39ef35793c76 in
  let l1 := f64_of_bits 0x3FE5555555555593 in
  let l2 := f64_of_bits 0x3FD999999997FA04 in
  let l3 := f64_of_bits 0x3FD2492494229359 in
  let l4 := f64_of_bits 0x3FCC71C51D8E78AF in
  let l5 := f64_of_bits 0x3FC7466496CB03DE in
  let l6 := f64_of_bits 0x3FC39A09D078C69F in
  let l7 := f64_of_bits 0x3FC2F112DF3E5244 in
  let kf := f64_of_Z k in
  let s := f /. (f64_of_Z 2 +. f) in
  let s2 := s *. s in
  let s4 := s2 *. s2 in
  let t1 := s2 *. (l1 +. s4 *. (l3 +. s4 *. (l5 +. s4 *. l7))) in
  let t2 := s4 *. (l2 +. s4 *. (l4 +. s4 *. l6)) in
  let r := t1 +. t2 in
  let hfsq := f64_of_bits 0x3FE0000000000000 *. f *. f in
  kf *. ln2hi -. ((hfsq -. (s *. (hfsq +. r) +. kf *. ln2lo)) -. f).

Definition go_log (x : float64) : float64 :=
  match x with
  | S754_nan => x
  | S754_infinity false => x
  | S754_infinity true => S754_nan
  | S754_zero _ => S754_infinity true
  | S754_finite true _ _ => S754_nan
  | S754_finite false _ _ =>
    let '(f1, ki) := frexp x in
    if f64_ltb f1 (f64_of_bits 0x3FE6A09E667F3BCD)
    then log_reduced (f1 *. f64_of_Z 2 -. f64_of_Z 1) (ki - 1)
    else log_reduced (f1 -. f64_of_Z 1) ki
  end.
