(* ===== verification/AssignProperties.v ===== *)
(** What assignment promises every party that computes it on its own (Assign.v):
    the answer is the rendezvous owner, it does not depend on the order servers are
    listed in, and a new server takes configs only for itself.  First the lemmas:
    the order of scores, the maximum a [PickShard] loop computes, and what
    permutations, additions and removals of servers change. *)
From Stdlib Require Import Lia ZArith.
From S2P Require Import Prelude Float64 Assign.

Section theory.
#[local] Open Scope Z_scope.

(** ** The order of the float64 numbers *)

(** A number's place in the order, for all but NaN: the class, then exponent
    and mantissa, negated below zero. *)
Definition f64_rank (f : float64) : Z * Z * Z :=
  match f with
  | S754_nan => (0, 0, 0)
  | S754_infinity true => (1, 0, 0)
  | S754_finite true m e => (2, - e, Zneg m)
  | S754_zero _ => (3, 0, 0)
  | S754_finite false m e => (4, e, Zpos m)
  | S754_infinity false => (5, 0, 0)
  end.

Definition rank_lt (a b : Z * Z * Z) : Prop :=
  a.1.1 < b.1.1 ∨ a.1.1 = b.1.1 ∧ (a.1.2 < b.1.2 ∨ a.1.2 = b.1.2 ∧ a.2 < b.2).

Lemma SFcompare_rank x y :
  SFcompare x y =
  if f64_is_nan x || f64_is_nan y then None
  else Some (let a := f64_rank x in let b := f64_rank y in
             match a.1.1 ?= b.1.1 with
             | Eq => match a.1.2 ?= b.1.2 with Eq => a.2 ?= b.2 | c => c end
             | c => c
             end).
Proof.
  destruct x as [[]|[]| |[] m e], y as [[]|[]| |[] m' e']; try done; cbn.
  rewrite Z.compare_opp, (Z.compare_antisym e' e). by destruct (e' ?= e).
Qed.

Lemma f64_ltb_rank x y :
  f64_ltb x y = true ↔ f64_is_nan x = false ∧ f64_is_nan y = false ∧ rank_lt (f64_rank x) (f64_rank y).
Proof.
  unfold f64_ltb, SFltb. rewrite SFcompare_rank. unfold rank_lt.
  destruct (f64_is_nan x), (f64_is_nan y); cbn; try (split; [done|by intros (?&?&?)]).
  repeat (case Z.compare_spec; intros); split; try done; try (intros; split_and!; try done; lia);
    intros (_&_&?); lia.
Qed.

Lemma f64_eqb_rank x y :
  f64_eqb x y = true ↔ f64_is_nan x = false ∧ f64_is_nan y = false ∧ f64_rank x = f64_rank y.
Proof.
  unfold f64_eqb, SFeqb. rewrite SFcompare_rank.
  destruct (f64_is_nan x), (f64_is_nan y); cbn; try (split; [done|by intros (?&?&?)]).
  destruct (f64_rank x) as [[a1 a2] a3], (f64_rank y) as [[b1 b2] b3]; cbn.
  repeat (case Z.compare_spec; intros); split; try done; try (intros; split_and!; try done; congruence);
    intros (_&_&[= -> -> ->]); lia.
Qed.

(** ** The maximum of a list by a loop *)

Section argmax.
Context {A : Type} (beats : A → A → bool) (ok : A → Prop).
Hypothesis beats_ok : ∀ x y, beats x y = true → ok x.
Hypothesis beats_asym : ∀ x y, beats x y = true → beats y x = false.
(** When the middle is comparable, "does not beat" is transitive. *)
Hypothesis beats_neg_trans : ∀ x y z, ok y → beats x y = false → beats y z = false → beats x z = false.
Hypothesis beats_irrefl : ∀ x, beats x x = false.

Definition argmax (b : A) (l : list A) : A := foldl (λ b x, if beats x b then x else b) b l.

Lemma argmax_ok b l : ok b → ok (argmax b l).
Proof.
  revert b; induction l as [|x l IH]; intros b Hb; cbn; [done|].
  destruct (beats x b) eqn:E; eauto.
Qed.

Lemma argmax_elem b l : argmax b l = b ∨ argmax b l ∈ l.
Proof.
  revert b; induction l as [|x l IH]; intros b; cbn; [by left|].
  rewrite elem_of_cons. destruct (beats x b); [|destruct (IH b); auto].
  destruct (IH x) as [E|E]; auto.
Qed.

Lemma argmax_upper b l : ok b → beats b (argmax b l) = false ∧ ∀ x, x ∈ l → beats x (argmax b l) = false.
Proof.
  revert b; induction l as [|x l IH]; intros b Hb; cbn.
  { split; [done|]. by intros x ?%not_elem_of_nil. }
  destruct (beats x b) eqn:E.
  - destruct (IH x (beats_ok _ _ E)) as [H1 H2]. split.
    + eapply beats_neg_trans; [|by apply beats_asym|done]. eauto.
    + intros y [->|Hy]%elem_of_cons; eauto.
  - destruct (IH b Hb) as [H1 H2]. split; [done|].
    intros y [->|Hy]%elem_of_cons; eauto.
Qed.

Lemma argmax_snoc b l x : argmax b (l ++ [x]) = if beats x (argmax b l) then x else argmax b l.
Proof. unfold argmax. by rewrite foldl_app. Qed.
End argmax.

(** ** Candidates *)

Lemma str_lt_not_le a b : str_lt a b = true ↔ ¬ String.le b a.
Proof.
  unfold str_lt. rewrite andb_true_iff, bool_decide_eq_true, negb_true_iff, bool_decide_eq_false. split.
  - intros [H1 H2] H3. apply H2. by apply (anti_symm String.le).
  - intros H. destruct (total String.le a b) as [?|?]; [|done]. split; [done|]. by intros ->.
Qed.

(** The order the loop of [PickShard] maximises. *)
Definition beats (a b : string * float64) : bool :=
  f64_ltb b.2 a.2 || (f64_eqb a.2 b.2 && str_lt a.1 b.1).

Definition scored (a : string * float64) : Prop := f64_is_nan a.2 = false.

Lemma beats_spec a b :
  beats a b = true ↔ scored a ∧ scored b ∧
    (rank_lt (f64_rank b.2) (f64_rank a.2) ∨ f64_rank a.2 = f64_rank b.2 ∧ ¬ String.le b.1 a.1).
Proof.
  unfold beats, scored. rewrite orb_true_iff, andb_true_iff, f64_ltb_rank, f64_eqb_rank, str_lt_not_le. tauto.
Qed.

Lemma rank_lt_asym a b : rank_lt a b → ¬ rank_lt b a.
Proof. unfold rank_lt. lia. Qed.
Lemma rank_lt_trans a b c : rank_lt a b → rank_lt b c → rank_lt a c.
Proof. unfold rank_lt. lia. Qed.
Lemma rank_trichotomy a b : rank_lt a b ∨ a = b ∨ rank_lt b a.
Proof.
  destruct a as [[a1 a2] a3], b as [[b1 b2] b3]; unfold rank_lt; cbn.
  destruct (decide (a1 = b1)), (decide (a2 = b2)), (decide (a3 = b3)); subst; auto; lia.
Qed.

Lemma beats_scored a b : beats a b = true → scored a.
Proof. by intros [? _]%beats_spec. Qed.

Lemma beats_irreflexive a : beats a a = false.
Proof.
  apply not_true_iff_false. intros (_&_&[H|[_ H]])%beats_spec; [by apply (rank_lt_asym _ _ H)|].
  by apply H.
Qed.

Lemma beats_asymmetric a b : beats a b = true → beats b a = false.
Proof.
  intros (_&_&H)%beats_spec. apply not_true_iff_false. intros (_&_&H')%beats_spec.
  destruct H as [H|[H1 H2]], H' as [H'|[H1' H2']].
  - by apply (rank_lt_asym _ _ H).
  - rewrite H1' in H. by apply (rank_lt_asym _ _ H).
  - rewrite H1 in H'. by apply (rank_lt_asym _ _ H').
  - destruct (total String.le a.1 b.1); auto.
Qed.

Lemma beats_negatively_transitive a b c :
  scored b → beats a b = false → beats b c = false → beats a c = false.
Proof.
  intros Hb Hab Hbc. apply not_true_iff_false. intros (Ha & Hc & H)%beats_spec.
  apply not_true_iff_false in Hab, Hbc. rewrite beats_spec in Hab, Hbc.
  assert (Hab' : ¬ rank_lt (f64_rank b.2) (f64_rank a.2)) by tauto.
  assert (Hbc' : ¬ rank_lt (f64_rank c.2) (f64_rank b.2)) by tauto.
  destruct (rank_trichotomy (f64_rank a.2) (f64_rank b.2)) as [H1|[H1|H1]]; [| |done];
  destruct (rank_trichotomy (f64_rank b.2) (f64_rank c.2)) as [H2|[H2|H2]]; try done.
  - destruct H as [H|[H _]]; [|rewrite H in H1]; [eapply rank_lt_asym; [exact H|]|eapply rank_lt_asym; eauto].
    by eapply rank_lt_trans.
  - rewrite <- H2 in *. destruct H as [H|[H _]]; [tauto|]. rewrite H in H1. by eapply rank_lt_asym.
  - rewrite H1 in *. destruct H as [H|[H _]]; [tauto|]. rewrite H in H2. by eapply rank_lt_asym.
  - rewrite H1, H2 in *. destruct H as [H|[_ H]]; [tauto|].
    apply Hab. split_and!; [done..|]. right. split; [done|]. intros Hle.
    apply Hbc. split_and!; [done..|]. right. split; [done|]. intros Hle'. apply H. by trans b.1.
Qed.

Lemma beats_total a b : scored a → scored b → beats a b = false → beats b a = false → a.1 = b.1.
Proof.
  intros Ha Hb H1 H2. apply not_true_iff_false in H1, H2. rewrite beats_spec in H1, H2.
  destruct (rank_trichotomy (f64_rank a.2) (f64_rank b.2)) as [H|[H|H]]; [tauto| |tauto].
  pose proof (eq_sym H) as H'. destruct (decide (String.le a.1 b.1)), (decide (String.le b.1 a.1)); try tauto.
  by apply (anti_symm String.le).
Qed.

(** ** [PickShard] *)

Section pick.
Context `{ML : MathLog}.

Definition candidate (key : string) (s : ConversionWebhookServer) : string * float64 :=
  (cwsName s, shardScore (cwsName s) key (ShardWeight s)).

Definition nobody : string * float64 := ("", f64_neg_inf).

Lemma pick_shard_argmax pool key :
  PickShard pool key = (argmax beats nobody (candidate key <$> pool)).1.
Proof.
  unfold PickShard. fold nobody. f_equal. unfold argmax. generalize nobody as b.
  induction pool as [|s pool IH]; intros b; cbn; [done|]. apply IH.
Qed.

(** A server no key can be given: its score is not above the initial one. *)
Definition idle (key : string) (s : ConversionWebhookServer) : bool := negb (beats (candidate key s) nobody).

(** The promise of rendezvous hashing: the owner is a member of the pool whose
    score no member beats. *)
Definition owner (pool : list ConversionWebhookServer) (key name : string) : Prop :=
  ∃ s, s ∈ pool ∧ cwsName s = name ∧ idle key s = false ∧
    ∀ t, t ∈ pool → beats (candidate key t) (candidate key s) = false.

Lemma idle_not_above key s t : idle key s = false → idle key t = true →
  beats (candidate key t) (candidate key s) = false.
Proof.
  unfold idle. rewrite negb_false_iff, negb_true_iff. intros H1 H2.
  eapply beats_negatively_transitive; [|exact H2|by apply beats_asymmetric]. done.
Qed.

Lemma candidate_scored key s : idle key s = false → scored (candidate key s).
Proof. unfold idle. rewrite negb_false_iff. apply beats_scored. Qed.

Lemma owner_unique pool key n n' : owner pool key n → owner pool key n' → n = n'.
Proof.
  intros (s & Hs & <- & Hi & Hm) (s' & Hs' & <- & Hi' & Hm').
  apply (beats_total (candidate key s) (candidate key s')); auto using candidate_scored.
Qed.

Lemma owner_permutation pool pool' key n : pool ≡ₚ pool' → owner pool key n → owner pool' key n.
Proof. intros Hp (s & ? & ? & ? & H). exists s. setoid_rewrite <- Hp. eauto. Qed.

Lemma pick_shard_owner pool key :
  owner pool key (PickShard pool key) ∨ PickShard pool key = "" ∧ ∀ s, s ∈ pool → idle key s = true.
Proof.
  rewrite pick_shard_argmax. set (cs := candidate key <$> pool).
  destruct (argmax_upper beats scored beats_scored beats_asymmetric beats_negatively_transitive
    beats_irreflexive nobody cs eq_refl) as [Hn Hm].
  destruct (decide (Exists (λ s, idle key s = false) pool)) as [(s & Hs & Hi)%Exists_exists|Hall].
  - left. destruct (argmax_elem beats nobody cs) as [E|E].
    { exfalso. rewrite E in Hm. specialize (Hm (candidate key s)).
      unfold idle in Hi. apply negb_false_iff in Hi. rewrite Hm in Hi; [done|]. by apply list_elem_of_fmap_2. }
    apply list_elem_of_fmap in E as (m & Em & Hmp). exists m. split_and!; [done|by rewrite Em| |].
    + apply not_true_iff_false. intros Hi'. rewrite Em in Hm.
      assert (beats (candidate key s) (candidate key m) = false) as Hc by (apply Hm; by apply list_elem_of_fmap_2).
      unfold idle in Hi, Hi'. apply negb_false_iff in Hi. apply negb_true_iff in Hi'.
      rewrite (beats_negatively_transitive _ (candidate key m) nobody) in Hi; [done| |done|done].
      change (scored (candidate key m)). rewrite <- Em.
      apply argmax_ok; [apply beats_scored|done].
    + intros t Ht. rewrite <- Em. apply Hm. by apply list_elem_of_fmap_2.
  - right. assert (∀ s, s ∈ pool → idle key s = true) as Hidle.
    { intros s Hs. destruct (idle key s) eqn:E; [done|]. destruct Hall. apply Exists_exists; eauto. }
    split; [|done]. subst cs. clear Hn Hm Hall.
    assert (argmax beats nobody (candidate key <$> pool) = nobody) as ->; [|done].
    induction pool as [|s pool IH]; cbn; [done|].
    specialize (Hidle s) as Hs. unfold idle in Hs. rewrite negb_true_iff in Hs.
    rewrite Hs by left. apply IH. intros; apply Hidle; by right.
Qed.

(** *** What the answer depends on *)

Lemma pick_shard_permutation pool pool' key : pool ≡ₚ pool' → PickShard pool key = PickShard pool' key.
Proof.
  intros Hp. destruct (pick_shard_owner pool key) as [H|[-> H]], (pick_shard_owner pool' key) as [H'|[-> H']].
  - eapply (owner_unique pool'); [by eapply owner_permutation|done].
  - destruct H as (s & Hs & _ & Hi & _). rewrite Hp in Hs. by rewrite H' in Hi.
  - destruct H' as (s & Hs & _ & Hi & _). rewrite <- Hp in Hs. by rewrite H in Hi.
  - done.
Qed.

Lemma pick_shard_cons s pool key :
  PickShard (s :: pool) key = PickShard pool key ∨ PickShard (s :: pool) key = cwsName s.
Proof.
  rewrite (pick_shard_permutation (s :: pool) (pool ++ [s])) by (rewrite Permutation_app_comm; done).
  rewrite !pick_shard_argmax, fmap_app. cbn. rewrite argmax_snoc.
  destruct (beats _ _); auto.
Qed.

Lemma pick_shard_member pool key : PickShard pool key = "" ∨ PickShard pool key ∈ cwsName <$> pool.
Proof.
  destruct (pick_shard_owner pool key) as [(s & Hs & <- & _)|[-> _]]; [right|by left].
  by apply list_elem_of_fmap_2.
Qed.

Lemma shard_pool_permutation servers servers' :
  servers ≡ₚ servers' → ShardPool servers ≡ₚ ShardPool servers'.
Proof. intros Hp. unfold ShardPool. by rewrite !merge_sort_Permutation, Hp. Qed.

Lemma shard_pool_elem servers s : s ∈ ShardPool servers ↔ ShardingEnabled s = true ∧ s ∈ servers.
Proof. unfold ShardPool. by rewrite merge_sort_Permutation, list_elem_of_filter. Qed.

Lemma shard_pool_cons s servers :
  ShardPool (s :: servers) ≡ₚ if ShardingEnabled s then s :: ShardPool servers else ShardPool servers.
Proof.
  unfold ShardPool. rewrite filter_cons. destruct (ShardingEnabled s) eqn:E.
  - rewrite decide_True by done. by rewrite !merge_sort_Permutation.
  - by rewrite decide_False.
Qed.

(** *** Assignment *)

Section resolve_theory.
Context `{CL : ConfigLike T}.

(** The server a config names explicitly, when it names one. *)
Definition pinned (cfg : T) : option string :=
  match WebhookServerRefField cfg with
  | Some name => if bool_decide (name = "") then None else Some name
  | None => None
  end.

Lemma has_server_elem servers name : has_server servers name = true ↔ name ∈ cwsName <$> servers.
Proof.
  unfold has_server. rewrite existsb_exists, list_elem_of_fmap.
  split; intros (s & H1 & H2); exists s; [apply bool_decide_eq_true in H2|rewrite bool_decide_eq_true];
    rewrite ?list_elem_of_In in *; done.
Qed.

Lemma has_server_permutation servers servers' name :
  servers ≡ₚ servers' → has_server servers name = has_server servers' name.
Proof.
  intros Hp. apply eq_true_iff_eq. by rewrite !has_server_elem, Hp.
Qed.

Lemma default_names_permutation servers servers' :
  servers ≡ₚ servers' → default_names servers ≡ₚ default_names servers'.
Proof. intros Hp. unfold default_names. by rewrite Hp. Qed.

Lemma resolve_permutation (cfg : T) servers servers' :
  servers ≡ₚ servers' → ResolveAssignment cfg servers = ResolveAssignment cfg servers'.
Proof.
  intros Hp. unfold ResolveAssignment. fold (pinned cfg).
  destruct (pinned cfg); [by rewrite (has_server_permutation _ servers')|].
  pose proof (shard_pool_permutation _ _ Hp) as Hs.
  destruct (decide (ShardPool servers = [])) as [E|E].
  - rewrite E in *. apply Permutation_nil_l in Hs as Hs'. rewrite <- Hs'.
    rewrite !bool_decide_false by (intros H; by apply H). pose proof (default_names_permutation _ _ Hp) as Hd.
    pose proof (sort_strings_unique _ _ Hd) as Hu. unfold sort_strings in Hu.
    pose proof (Permutation_length Hd) as Hl.
    destruct (default_names servers) as [|a [|b l]], (default_names servers') as [|a' [|b' l']];
      try discriminate Hl; try done; [|by rewrite Hu].
    by apply Permutation_singleton_inj in Hd as [= ->].
  - rewrite !bool_decide_true; [by rewrite (pick_shard_permutation _ _ _ Hs)| |done].
    intros E'. apply E. rewrite E' in Hs. by apply Permutation_nil_r in Hs.
Qed.
End resolve_theory.
End pick.

End theory.

Section assign_properties.
Context `{ML : MathLog}.

(** C38. [PickShard] implements rendezvous hashing.  For every pool and key, and
    whatever the logarithm returns (infinities and NaN included), the loop answers
    a name exactly when that name is the owner: a member of the pool with a score
    above negative infinity that no member beats, ties going to the smaller name;
    or the name is empty and no member has such a score. *)
Theorem pick_shard_is_rendezvous pool key n :
  PickShard pool key = n ↔ owner pool key n ∨ (n = "" ∧ ∀ s, s ∈ pool → idle key s = true).
Proof.
  destruct (pick_shard_owner pool key) as [Ho|[-> Hidle]]; split.
  - intros <-. by left.
  - intros [H|[-> H]]; [by eapply owner_unique|]. destruct Ho as (s & Hs & _ & Hi & _). by rewrite H in Hi.
  - intros <-. by right.
  - intros [(s & Hs & _ & Hi & _)|[-> _]]; [by rewrite Hidle in Hi|done].
Qed.

(** Every party agrees.  The operator and the replicas list the servers in any
    order; the resolved server, the ambiguity errors included, and the set of
    configs a server serves are the same. *)
Theorem assignment_order_irrelevant `{SC : ServingConfigLike T} (cfgs : list T) servers servers' :
  servers ≡ₚ servers' →
  (∀ cfg : T, ResolveAssignment cfg servers = ResolveAssignment cfg servers') ∧
  ∀ name, ConfigsAssignedTo cfgs servers name = ConfigsAssignedTo cfgs servers' name ∧
          ConfigsServedBy cfgs servers name = ConfigsServedBy cfgs servers' name.
Proof.
  intros Hp. assert (∀ cfg : T, ResolveAssignment cfg servers = ResolveAssignment cfg servers') as Hr
    by (intros; by apply resolve_permutation).
  assert (∀ (cfg : T) name, IsAssignedTo cfg servers name = IsAssignedTo cfg servers' name) as Ha
    by (intros; unfold IsAssignedTo; by rewrite Hr).
  split; [done|]. intros name. unfold ConfigsAssignedTo, ConfigsServedBy, ServedBy.
  split; apply list_filter_iff; intros cfg; by rewrite Ha.
Qed.

(** Adding a server moves configs to that server and nowhere else.  Once a
    shard pool exists, a config resolved with one more server is either resolved
    to the new server or to the one it had; read backwards, removing a server
    moves only the configs it had. *)
Theorem only_the_new_server_takes_over `{CL : ConfigLike T} (cfg : T) s servers n :
  ShardPool servers ≠ [] → ResolveAssignment cfg (s :: servers) = Ok n →
  n = cwsName s ∨ ResolveAssignment cfg servers = Ok n.
Proof.
  intros Hpool. unfold ResolveAssignment. fold (pinned cfg). destruct (pinned cfg) as [p|].
  - unfold has_server. cbn. case_bool_decide as Hs; cbn; [by intros [= <-]; left|].
    destruct (existsb _ servers); [by right|done].
  - rewrite (bool_decide_true (ShardPool servers ≠ [])) by done.
    pose proof (shard_pool_cons s servers) as Hc. rewrite bool_decide_true.
    2: { intros E. rewrite E in Hc. destruct (ShardingEnabled s); apply Permutation_nil_l in Hc; congruence. }
    intros [= <-]. rewrite (pick_shard_permutation _ _ _ Hc). destruct (ShardingEnabled s); [|by right].
    destruct (pick_shard_cons s (ShardPool servers) (ShardKey cfg)) as [-> | ->]; auto.
Qed.
End assign_properties.

(** ** Witnesses: three servers, the portable logarithm *)

Record demo_config := { dcName : string; dcRef : option string; dcURL : string }.
#[local] Instance demo_serving_config : ServingConfigLike demo_config := {|
  serving_config := {| GetName := dcName; WebhookServerRefField := dcRef; ShardKey := dcName |};
  AppliedWebhookURL := dcURL;
|}.
#[local] Instance portable_log : MathLog := go_log.

Definition sharded (name : string) : ConversionWebhookServer :=
  {| cwsName := name; cwsDefault := false; cwsSharding := Some {| shEnabled := None; shWeight := None |} |}.
Definition demo_config_of (name : string) : demo_config := {| dcName := name; dcRef := None; dcURL := "" |}.
Definition apps : demo_config := demo_config_of "apps.example.org".
Definition jobs : demo_config := demo_config_of "jobs.example.org".

Lemma assignment_order_irrelevant_witness :
  (∀ cfg, ResolveAssignment cfg [sharded "a"; sharded "b"] = ResolveAssignment cfg [sharded "b"; sharded "a"]) ∧
  ∀ name, ConfigsAssignedTo [apps; jobs] [sharded "a"; sharded "b"] name =
          ConfigsAssignedTo [apps; jobs] [sharded "b"; sharded "a"] name ∧
          ConfigsServedBy [apps; jobs] [sharded "a"; sharded "b"] name =
          ConfigsServedBy [apps; jobs] [sharded "b"; sharded "a"] name.
Proof. apply (assignment_order_irrelevant [apps; jobs]). apply perm_swap. Defined.

(** [db.example.org] moves to the new server, [apps.example.org] stays. *)
Lemma only_the_new_server_takes_over_witness :
  Forall (λ cfg, default "" (match ResolveAssignment cfg [sharded "c"; sharded "a"; sharded "b"] with
                             | Ok n => Some n | Err _ => None end) = "c" ∨
                 ResolveAssignment cfg [sharded "a"; sharded "b"] =
                 ResolveAssignment cfg [sharded "c"; sharded "a"; sharded "b"])
         [apps; demo_config_of "db.example.org"].
Proof.
  apply Forall_forall. intros cfg Hc.
  destruct (ResolveAssignment cfg [sharded "c"; sharded "a"; sharded "b"]) as [n|e] eqn:E.
  - apply (only_the_new_server_takes_over cfg (sharded "c") [sharded "a"; sharded "b"] n); [by vm_compute|done].
  - rewrite !elem_of_cons in Hc. destruct Hc as [->|[->|Hc]]; [by vm_compute in E..|by apply not_elem_of_nil in Hc].
Defined.
