(* ===== verification/Api.v ===== *)
(** The API's conversion rules and their translation to the engine's
    (api/v1alpha1/xrdconversionconfig_types.go, xrdconversionconfig_convert.go).

    The records have the Go structs' names and fields; a field's prefix is the
    engine record's (Rules.v) with an [a] in front.  A pointer is an [option], an
    [extv1.JSON] is its raw text, and a nil map is the empty map: the code reads
    both the same way.  The strategy, side and policy constants have the
    engine's names and text, so the file uses those of Rules.v. *)
From S2P Require Import Prelude Float64 Value Json Path Rules.

(** ** The parameter structs *)

Abbreviation raw_json := string (only parsing).

Record FieldRenameParams := { afrHubPath : string; afrSpokePath : string }.
Record ScalarToObjectParams := {
  asoHubPath : string; asoSpokePath : string; asoKey : string;
  asoDefaultsForOtherKeys : gmap string raw_json }.
Record ObjectToScalarParams := {
  aosHubPath : string; aosSpokePath : string; aosKey : string;
  aosDefaultsForOtherKeys : gmap string raw_json }.
Record SingletonArrayToObjectParams := { asaHubPath : string; asaSpokePath : string }.
Record ObjectToSingletonArrayParams := { aoaHubPath : string; aoaSpokePath : string }.
Record FieldsToMapParams := {
  afmHubPaths : list string; afmSpokeMapPath : string;
  afmKeyNames : gmap string string; afmOnUnknownSpokeKey : UnknownKeyPolicy }.
Record MapToFieldsParams := {
  amfHubMapPath : string; amfSpokePaths : list string;
  amfKeyNames : gmap string string; amfOnUnknownHubKey : UnknownKeyPolicy }.
Record ToMetadataParams := {
  atmHubPath : string; atmKey : string; atmSerialization : string; atmRestoreOnReverse : bool }.
Record FromMetadataParams := {
  armSpokePath : string; armKey : string; armSerialization : string; armStashOnReverse : bool }.
Record FromLabelParams := {
  aflSpokePath : string; aflKey : string; aflSerialization : string; aflStashOnReverse : bool }.
Record EnumValueMapping := { aemHub : raw_json; aemSpoke : raw_json }.
Record EnumRemapParams := {
  aerPath : string; aerMapping : list EnumValueMapping;
  aerOnUnmappedHubValue : UnknownKeyPolicy; aerOnUnmappedSpokeValue : UnknownKeyPolicy }.
Record DefaultValueParams := { advPath : string; advExistsOn : Side; advDefault : raw_json }.
Record ConstantParams := { acnPath : string; acnExistsOn : Side; acnValue : raw_json }.
Record DeleteParams := { adlPath : string; adlExistsOn : Side }.
Record JSONPatchOp := { ajpOp : string; ajpPath : string; ajpFrom : string; ajpValue : option raw_json }.
Record JSONPatchParams := {
  ajpHubToSpoke : list JSONPatchOp; ajpSpokeToHub : list JSONPatchOp; ajpLosslessOverride : bool }.
Record TypeCoerceParams := { atcPath : string; atcOnFractionalInteger : string }.
Record ScalarToFieldsParams := {
  asfHubPath : string; asfPattern : string; asfSpokeFields : gmap string string;
  asfJoinTemplate : string; asfLosslessOverride : bool }.
Record FieldsToScalarParams := {
  afsHubFields : gmap string string; afsPattern : string; afsSpokePath : string;
  afsJoinTemplate : string; afsLosslessOverride : bool }.
Record ArrayToMapByKeyParams := { aamHubPath : string; aamSpokePath : string; aamKeyField : string }.
Record MapToArrayByKeyParams := { amaHubPath : string; amaSpokePath : string; amaKeyField : string }.
Record NumericScaleParams := { ansHubPath : string; ansSpokePath : string; ansFactor : float64 }.
Record ListJoinParams := { aljHubPath : string; aljSpokePath : string; aljSeparator : string }.
Record ListSplitParams := { alsHubPath : string; alsSpokePath : string; alsSeparator : string }.
Record QuantityParams := { aquHubPath : string; aquSpokePath : string }.
Record DurationParams := { aduHubPath : string; aduSpokePath : string }.
Record MapKeyRenameParams := { amrHubPath : string; amrSpokePath : string; amrRenames : gmap string string }.
Record CELParams := {
  aceHubPaths : list string; aceSpokePaths : list string; aceHubToSpoke : string; aceSpokeToHub : string }.
Record RuleWhen := { awhPath : string; awhEquals : raw_json }.

(** ** Rules *)

Inductive ConversionRule := {
  crStrategy : Strategy;
  crFieldRename : option FieldRenameParams;
  crScalarToObject : option ScalarToObjectParams;
  crObjectToScalar : option ObjectToScalarParams;
  crSingletonArrayToObject : option SingletonArrayToObjectParams;
  crObjectToSingletonArray : option ObjectToSingletonArrayParams;
  crFieldsToMap : option FieldsToMapParams;
  crMapToFields : option MapToFieldsParams;
  crToAnnotation : option ToMetadataParams;
  crToLabel : option ToMetadataParams;
  crFromAnnotation : option FromMetadataParams;
  crFromLabel : option FromLabelParams;
  crEnumRemap : option EnumRemapParams;
  crDefaultValue : option DefaultValueParams;
  crConstant : option ConstantParams;
  crDelete : option DeleteParams;
  crJSONPatch : option JSONPatchParams;
  crForEach : option ForEachParams;
  crTypeCoerce : option TypeCoerceParams;
  crScalarToFields : option ScalarToFieldsParams;
  crFieldsToScalar : option FieldsToScalarParams;
  crArrayToMapByKey : option ArrayToMapByKeyParams;
  crMapToArrayByKey : option MapToArrayByKeyParams;
  crNumericScale : option NumericScaleParams;
  crListJoin : option ListJoinParams;
  crListSplit : option ListSplitParams;
  crQuantity : option QuantityParams;
  crDuration : option DurationParams;
  crMapKeyRename : option MapKeyRenameParams;
  crCEL : option CELParams;
  crBranchMap : option BranchMapParams;
  crAcknowledgeLossy : bool;
  crReason : string;
  crWhen : option RuleWhen;
}
with ForEachParams := {
  afeHubItemsPath : string; afeSpokeItemsPath : string; afeRules : list ConversionRule }
with BranchMapParams := {
  abmHubPath : string; abmSpokePath : string; abmDiscriminator : string;
  abmBranches : list BranchMapping }
with BranchMapping := {
  abrHubBranch : string; abrSpokeBranch : string;
  abrHubDiscriminatorValue : string; abrSpokeDiscriminatorValue : string;
  abrRules : list ConversionRule }.

Record SpokeVersionRules := { svVersion : string; svRules : list ConversionRule }.

(** ** The pointer a strategy selects

    Every function over a rule starts with a switch on its strategy and a check
    that the strategy's parameter pointer is set. *)

Inductive rule_pointer :=
| PtrFieldRename (p : FieldRenameParams)
| PtrScalarToObject (p : ScalarToObjectParams)
| PtrObjectToScalar (p : ObjectToScalarParams)
| PtrSingletonArrayToObject (p : SingletonArrayToObjectParams)
| PtrObjectToSingletonArray (p : ObjectToSingletonArrayParams)
| PtrFieldsToMap (p : FieldsToMapParams)
| PtrMapToFields (p : MapToFieldsParams)
| PtrToAnnotation (p : ToMetadataParams)
| PtrToLabel (p : ToMetadataParams)
| PtrFromAnnotation (p : FromMetadataParams)
| PtrFromLabel (p : FromLabelParams)
| PtrEnumRemap (p : EnumRemapParams)
| PtrDefaultValue (p : DefaultValueParams)
| PtrConstant (p : ConstantParams)
| PtrDelete (p : DeleteParams)
| PtrJSONPatch (p : JSONPatchParams)
| PtrForEach (p : ForEachParams)
| PtrTypeCoerce (p : TypeCoerceParams)
| PtrScalarToFields (p : ScalarToFieldsParams)
| PtrFieldsToScalar (p : FieldsToScalarParams)
| PtrArrayToMapByKey (p : ArrayToMapByKeyParams)
| PtrMapToArrayByKey (p : MapToArrayByKeyParams)
| PtrNumericScale (p : NumericScaleParams)
| PtrListJoin (p : ListJoinParams)
| PtrListSplit (p : ListSplitParams)
| PtrQuantity (p : QuantityParams)
| PtrDuration (p : DurationParams)
| PtrMapKeyRename (p : MapKeyRenameParams)
| PtrCEL (p : CELParams)
| PtrBranchMap (p : BranchMapParams).

(** [Some None]: the strategy is known and its pointer is nil. *)
Definition selected (r : ConversionRule) : option (option rule_pointer) :=
  let s := crStrategy r in
  if bool_decide (s = StrategyFieldRename) then Some (PtrFieldRename <$> crFieldRename r)
  else if bool_decide (s = StrategyScalarToObject) then Some (PtrScalarToObject <$> crScalarToObject r)
  else if bool_decide (s = StrategyObjectToScalar) then Some (PtrObjectToScalar <$> crObjectToScalar r)
  else if bool_decide (s = StrategySingletonArrayToObject) then Some (PtrSingletonArrayToObject <$> crSingletonArrayToObject r)
  else if bool_decide (s = StrategyObjectToSingletonArray) then Some (PtrObjectToSingletonArray <$> crObjectToSingletonArray r)
  else if bool_decide (s = StrategyFieldsToMap) then Some (PtrFieldsToMap <$> crFieldsToMap r)
  else if bool_decide (s = StrategyMapToFields) then Some (PtrMapToFields <$> crMapToFields r)
  else if bool_decide (s = StrategyToAnnotation) then Some (PtrToAnnotation <$> crToAnnotation r)
  else if bool_decide (s = StrategyToLabel) then Some (PtrToLabel <$> crToLabel r)
  else if bool_decide (s = StrategyFromAnnotation) then Some (PtrFromAnnotation <$> crFromAnnotation r)
  else if bool_decide (s = StrategyFromLabel) then Some (PtrFromLabel <$> crFromLabel r)
  else if bool_decide (s = StrategyEnumRemap) then Some (PtrEnumRemap <$> crEnumRemap r)
  else if bool_decide (s = StrategyDefaultValue) then Some (PtrDefaultValue <$> crDefaultValue r)
  else if bool_decide (s = StrategyConstant) then Some (PtrConstant <$> crConstant r)
  else if bool_decide (s = StrategyDelete) then Some (PtrDelete <$> crDelete r)
  else if bool_decide (s = StrategyJSONPatch) then Some (PtrJSONPatch <$> crJSONPatch r)
  else if bool_decide (s = StrategyForEach) then Some (PtrForEach <$> crForEach r)
  else if bool_decide (s = StrategyTypeCoerce) then Some (PtrTypeCoerce <$> crTypeCoerce r)
  else if bool_decide (s = StrategyScalarToFields) then Some (PtrScalarToFields <$> crScalarToFields r)
  else if bool_decide (s = StrategyFieldsToScalar) then Some (PtrFieldsToScalar <$> crFieldsToScalar r)
  else if bool_decide (s = StrategyArrayToMapByKey) then Some (PtrArrayToMapByKey <$> crArrayToMapByKey r)
  else if bool_decide (s = StrategyMapToArrayByKey) then Some (PtrMapToArrayByKey <$> crMapToArrayByKey r)
  else if bool_decide (s = StrategyNumericScale) then Some (PtrNumericScale <$> crNumericScale r)
  else if bool_decide (s = StrategyListJoin) then Some (PtrListJoin <$> crListJoin r)
  else if bool_decide (s = StrategyListSplit) then Some (PtrListSplit <$> crListSplit r)
  else if bool_decide (s = StrategyQuantity) then Some (PtrQuantity <$> crQuantity r)
  else if bool_decide (s = StrategyDuration) then Some (PtrDuration <$> crDuration r)
  else if bool_decide (s = StrategyMapKeyRename) then Some (PtrMapKeyRename <$> crMapKeyRename r)
  else if bool_decide (s = StrategyCEL) then Some (PtrCEL <$> crCEL r)
  else if bool_decide (s = StrategyBranchMap) then Some (PtrBranchMap <$> crBranchMap r)
  else None.

(** The strategy that reads a pointer. *)
Definition pointer_strategy (p : rule_pointer) : Strategy :=
  match p with
  | PtrFieldRename _ => StrategyFieldRename
  | PtrScalarToObject _ => StrategyScalarToObject
  | PtrObjectToScalar _ => StrategyObjectToScalar
  | PtrSingletonArrayToObject _ => StrategySingletonArrayToObject
  | PtrObjectToSingletonArray _ => StrategyObjectToSingletonArray
  | PtrFieldsToMap _ => StrategyFieldsToMap
  | PtrMapToFields _ => StrategyMapToFields
  | PtrToAnnotation _ => StrategyToAnnotation
  | PtrToLabel _ => StrategyToLabel
  | PtrFromAnnotation _ => StrategyFromAnnotation
  | PtrFromLabel _ => StrategyFromLabel
  | PtrEnumRemap _ => StrategyEnumRemap
  | PtrDefaultValue _ => StrategyDefaultValue
  | PtrConstant _ => StrategyConstant
  | PtrDelete _ => StrategyDelete
  | PtrJSONPatch _ => StrategyJSONPatch
  | PtrForEach _ => StrategyForEach
  | PtrTypeCoerce _ => StrategyTypeCoerce
  | PtrScalarToFields _ => StrategyScalarToFields
  | PtrFieldsToScalar _ => StrategyFieldsToScalar
  | PtrArrayToMapByKey _ => StrategyArrayToMapByKey
  | PtrMapToArrayByKey _ => StrategyMapToArrayByKey
  | PtrNumericScale _ => StrategyNumericScale
  | PtrListJoin _ => StrategyListJoin
  | PtrListSplit _ => StrategyListSplit
  | PtrQuantity _ => StrategyQuantity
  | PtrDuration _ => StrategyDuration
  | PtrMapKeyRename _ => StrategyMapKeyRename
  | PtrCEL _ => StrategyCEL
  | PtrBranchMap _ => StrategyBranchMap
  end.

(** A copy of the rule with one pointer replaced. *)
Definition with_pointer (r : ConversionRule) (p : rule_pointer) : ConversionRule := {|
  crStrategy := crStrategy r;
  crFieldRename := match p with PtrFieldRename q => Some q | _ => crFieldRename r end;
  crScalarToObject := match p with PtrScalarToObject q => Some q | _ => crScalarToObject r end;
  crObjectToScalar := match p with PtrObjectToScalar q => Some q | _ => crObjectToScalar r end;
  crSingletonArrayToObject := match p with PtrSingletonArrayToObject q => Some q | _ => crSingletonArrayToObject r end;
  crObjectToSingletonArray := match p with PtrObjectToSingletonArray q => Some q | _ => crObjectToSingletonArray r end;
  crFieldsToMap := match p with PtrFieldsToMap q => Some q | _ => crFieldsToMap r end;
  crMapToFields := match p with PtrMapToFields q => Some q | _ => crMapToFields r end;
  crToAnnotation := match p with PtrToAnnotation q => Some q | _ => crToAnnotation r end;
  crToLabel := match p with PtrToLabel q => Some q | _ => crToLabel r end;
  crFromAnnotation := match p with PtrFromAnnotation q => Some q | _ => crFromAnnotation r end;
  crFromLabel := match p with PtrFromLabel q => Some q | _ => crFromLabel r end;
  crEnumRemap := match p with PtrEnumRemap q => Some q | _ => crEnumRemap r end;
  crDefaultValue := match p with PtrDefaultValue q => Some q | _ => crDefaultValue r end;
  crConstant := match p with PtrConstant q => Some q | _ => crConstant r end;
  crDelete := match p with PtrDelete q => Some q | _ => crDelete r end;
  crJSONPatch := match p with PtrJSONPatch q => Some q | _ => crJSONPatch r end;
  crForEach := match p with PtrForEach q => Some q | _ => crForEach r end;
  crTypeCoerce := match p with PtrTypeCoerce q => Some q | _ => crTypeCoerce r end;
  crScalarToFields := match p with PtrScalarToFields q => Some q | _ => crScalarToFields r end;
  crFieldsToScalar := match p with PtrFieldsToScalar q => Some q | _ => crFieldsToScalar r end;
  crArrayToMapByKey := match p with PtrArrayToMapByKey q => Some q | _ => crArrayToMapByKey r end;
  crMapToArrayByKey := match p with PtrMapToArrayByKey q => Some q | _ => crMapToArrayByKey r end;
  crNumericScale := match p with PtrNumericScale q => Some q | _ => crNumericScale r end;
  crListJoin := match p with PtrListJoin q => Some q | _ => crListJoin r end;
  crListSplit := match p with PtrListSplit q => Some q | _ => crListSplit r end;
  crQuantity := match p with PtrQuantity q => Some q | _ => crQuantity r end;
  crDuration := match p with PtrDuration q => Some q | _ => crDuration r end;
  crMapKeyRename := match p with PtrMapKeyRename q => Some q | _ => crMapKeyRename r end;
  crCEL := match p with PtrCEL q => Some q | _ => crCEL r end;
  crBranchMap := match p with PtrBranchMap q => Some q | _ => crBranchMap r end;
  crAcknowledgeLossy := crAcknowledgeLossy r;
  crReason := crReason r;
  crWhen := crWhen r;
|}.

(** A rule literal with no pointer set. *)
Definition bare_rule (s : Strategy) (ack : bool) (reason : string) (when_ : option RuleWhen) : ConversionRule := {|
  crStrategy := s;
  crFieldRename := None; crScalarToObject := None; crObjectToScalar := None;
  crSingletonArrayToObject := None; crObjectToSingletonArray := None; crFieldsToMap := None;
  crMapToFields := None; crToAnnotation := None; crToLabel := None; crFromAnnotation := None;
  crFromLabel := None; crEnumRemap := None; crDefaultValue := None; crConstant := None;
  crDelete := None; crJSONPatch := None; crForEach := None; crTypeCoerce := None;
  crScalarToFields := None; crFieldsToScalar := None; crArrayToMapByKey := None;
  crMapToArrayByKey := None; crNumericScale := None; crListJoin := None; crListSplit := None;
  crQuantity := None; crDuration := None; crMapKeyRename := None; crCEL := None;
  crBranchMap := None;
  crAcknowledgeLossy := ack; crReason := reason; crWhen := when_;
|}.

(** A rule literal with its strategy's pointer. *)
Definition rule_of (p : rule_pointer) (ack : bool) (reason : string) (when_ : option RuleWhen) : ConversionRule :=
  with_pointer (bare_rule (pointer_strategy p) ack reason when_) p.

(** ** Translation to engine rules *)

Inductive rule_error :=
| RequiresParams (s : Strategy)
| UnknownStrategy (s : Strategy)
| BadJSON (text : raw_json)
| AtKey (key : string) (e : rule_error)
| EnumHub (e : rule_error)
| EnumSpoke (e : rule_error)
| FromLabelJSON
| NestedRules (e : rule_error)
| AtBranch (i : nat) (hubBranch : string) (e : rule_error)
| AtRule (i : nat) (s : Strategy) (e : rule_error)
| AtWhen (i : nat) (s : Strategy) (e : rule_error)
| AtSpoke (version : string) (e : rule_error).

Definition orDefault (v def : string) : string := if bool_decide (v = "") then def else v.

Definition jsonToAny (j : raw_json) : res rule_error value :=
  if bool_decide (j = "") then Ok VNull
  else match json_Unmarshal j with Some v => Ok v | None => Err (BadJSON j) end.

Definition parsePaths (paths : list string) : list FieldPath := ParsePath <$> paths.
Definition parsePathMap (m : gmap string string) : gmap string FieldPath := ParsePath <$> m.

Definition convertWhen (w : option RuleWhen) : res rule_error (option Rules.RuleWhen) :=
  match w with
  | None => Ok None
  | Some w =>
      eq ← jsonToAny (awhEquals w);
      Ok (Some {| whPath := ParsePath (awhPath w); whEquals := eq |})
  end.

Definition convertPatchOps (ops : list JSONPatchOp) : res rule_error (list Rules.JSONPatchOp) :=
  res_mapM (λ o,
    v ← (match ajpValue o with Some v => jsonToAny v | None => Ok VNull end);
    Ok {| jpOp := ajpOp o; jpPath := ajpPath o; jpFrom := ajpFrom o; jpValue := v |}) ops.

Definition convert_mapping (m : EnumValueMapping) : res rule_error Rules.EnumValueMapping :=
  h ← res_wrap EnumHub (jsonToAny (aemHub m));
  s ← res_wrap EnumSpoke (jsonToAny (aemSpoke m));
  Ok {| emHub := h; emSpoke := s |}.

Section convert_rules.
Context `{RO : RangeOrder}.

(** The keys in the order of the [range] loop: it decides which error is
    returned. *)
Definition jsonMapToAny (m : gmap string raw_json) : res rule_error obj :=
  list_to_map <$> res_mapM (λ '(k, j), v ← res_wrap (AtKey k) (jsonToAny j); Ok (k, v)) (range m).

(** [convertParams] on the container, unit and expression strategies; [branches] are the
    translated rules of each branch. *)
Definition convert_container (p : rule_pointer) (branches : list (res rule_error (list Rule)))
    : res rule_error RuleParams :=
  match p with
  | PtrArrayToMapByKey p =>
      Ok (PArrayToMapByKey {| amHubPath := ParsePath (aamHubPath p); amSpokePath := ParsePath (aamSpokePath p);
                              amKeyField := aamKeyField p |})
  | PtrMapToArrayByKey p =>
      Ok (PMapToArrayByKey {| maHubPath := ParsePath (amaHubPath p); maSpokePath := ParsePath (amaSpokePath p);
                              maKeyField := amaKeyField p |})
  | PtrNumericScale p =>
      Ok (PNumericScale {| nsHubPath := ParsePath (ansHubPath p); nsSpokePath := ParsePath (ansSpokePath p);
                           nsFactor := ansFactor p |})
  | PtrListJoin p =>
      Ok (PListJoin {| ljHubPath := ParsePath (aljHubPath p); ljSpokePath := ParsePath (aljSpokePath p);
                       ljSeparator := aljSeparator p |})
  | PtrListSplit p =>
      Ok (PListSplit {| lsHubPath := ParsePath (alsHubPath p); lsSpokePath := ParsePath (alsSpokePath p);
                        lsSeparator := alsSeparator p |})
  | PtrQuantity p =>
      Ok (PQuantity {| quHubPath := ParsePath (aquHubPath p); quSpokePath := ParsePath (aquSpokePath p) |})
  | PtrDuration p =>
      Ok (PDuration {| duHubPath := ParsePath (aduHubPath p); duSpokePath := ParsePath (aduSpokePath p) |})
  | PtrMapKeyRename p =>
      Ok (PMapKeyRename {| mrHubPath := ParsePath (amrHubPath p); mrSpokePath := ParsePath (amrSpokePath p);
                           mrRenames := amrRenames p |})
  | PtrBranchMap p =>
      bs ← res_mapM (λ '(i, (b, nested)),
             rules ← res_wrap (AtBranch i (abrHubBranch b)) nested;
             Ok (mkBranch (abrHubBranch b) (abrSpokeBranch b) (abrHubDiscriminatorValue b)
                   (abrSpokeDiscriminatorValue b) rules))
           (imap pair (zip (abmBranches p) branches));
      Ok (PBranchMap (ParsePath (abmHubPath p)) (ParsePath (abmSpokePath p)) (abmDiscriminator p) bs)
  | PtrCEL p =>
      Ok (PCEL {| ceHubPaths := parsePaths (aceHubPaths p); ceSpokePaths := parsePaths (aceSpokePaths p);
                  ceHubToSpoke := aceHubToSpoke p; ceSpokeToHub := aceSpokeToHub p |})
  | _ => Err (UnknownStrategy (pointer_strategy p))
  end.

(** [convertParams] on the value strategies and ForEach, whose translated rules are [nested]. *)
Definition convert_value (p : rule_pointer) (nested : res rule_error (list Rule))
    (branches : list (res rule_error (list Rule))) : res rule_error RuleParams :=
  match p with
  | PtrEnumRemap p =>
      mapping ← res_mapM convert_mapping (aerMapping p);
      Ok (PEnumRemap {| erPath := ParsePath (aerPath p); erMapping := mapping;
                        erOnUnmappedHubValue := orDefault (aerOnUnmappedHubValue p) UnknownKeyError;
                        erOnUnmappedSpokeValue := orDefault (aerOnUnmappedSpokeValue p) UnknownKeyError |})
  | PtrDefaultValue p =>
      v ← jsonToAny (advDefault p);
      Ok (PDefaultValue {| dvPath := ParsePath (advPath p); dvExistsOn := advExistsOn p; dvDefault := v |})
  | PtrConstant p =>
      v ← jsonToAny (acnValue p);
      Ok (PConstant {| cnPath := ParsePath (acnPath p); cnExistsOn := acnExistsOn p; cnValue := v |})
  | PtrDelete p => Ok (PDelete {| dlPath := ParsePath (adlPath p); dlExistsOn := adlExistsOn p |})
  | PtrJSONPatch p =>
      h2s ← convertPatchOps (ajpHubToSpoke p);
      s2h ← convertPatchOps (ajpSpokeToHub p);
      Ok (PJSONPatch {| jpHubToSpoke := h2s; jpSpokeToHub := s2h; jpLosslessOverride := ajpLosslessOverride p |})
  | PtrForEach p =>
      rules ← res_wrap NestedRules nested;
      Ok (PForEach (ParsePath (afeHubItemsPath p)) (ParsePath (afeSpokeItemsPath p)) rules)
  | PtrTypeCoerce p =>
      Ok (PTypeCoerce {| tcPath := ParsePath (atcPath p); tcOnFractionalInteger := atcOnFractionalInteger p |})
  | PtrScalarToFields p =>
      Ok (PScalarToFields {| sfHubPath := ParsePath (asfHubPath p); sfPattern := asfPattern p;
                             sfSpokeFields := parsePathMap (asfSpokeFields p); sfJoinTemplate := asfJoinTemplate p;
                             sfLosslessOverride := asfLosslessOverride p |})
  | PtrFieldsToScalar p =>
      Ok (PFieldsToScalar {| fsHubFields := parsePathMap (afsHubFields p); fsPattern := afsPattern p;
                             fsSpokePath := ParsePath (afsSpokePath p); fsJoinTemplate := afsJoinTemplate p;
                             fsLosslessOverride := afsLosslessOverride p |})
  | _ => convert_container p branches
  end.

(** [convertParams]' result for one pointer; [nested] and [branches] are the
    translated rules of a ForEach and of each branch. *)
Definition convert_pointer (p : rule_pointer) (nested : res rule_error (list Rule))
    (branches : list (res rule_error (list Rule))) : res rule_error RuleParams :=
  match p with
  | PtrFieldRename p =>
      Ok (PFieldRename {| frHubPath := ParsePath (afrHubPath p); frSpokePath := ParsePath (afrSpokePath p) |})
  | PtrScalarToObject p =>
      defaults ← jsonMapToAny (asoDefaultsForOtherKeys p);
      Ok (PScalarToObject {| soHubPath := ParsePath (asoHubPath p); soSpokePath := ParsePath (asoSpokePath p);
                             soKey := asoKey p; soDefaultsForOtherKeys := defaults |})
  | PtrObjectToScalar p =>
      defaults ← jsonMapToAny (aosDefaultsForOtherKeys p);
      Ok (PObjectToScalar {| osHubPath := ParsePath (aosHubPath p); osSpokePath := ParsePath (aosSpokePath p);
                             osKey := aosKey p; osDefaultsForOtherKeys := defaults |})
  | PtrSingletonArrayToObject p =>
      Ok (PSingletonArrayToObject {| saHubPath := ParsePath (asaHubPath p); saSpokePath := ParsePath (asaSpokePath p) |})
  | PtrObjectToSingletonArray p =>
      Ok (PObjectToSingletonArray {| oaHubPath := ParsePath (aoaHubPath p); oaSpokePath := ParsePath (aoaSpokePath p) |})
  | PtrFieldsToMap p =>
      Ok (PFieldsToMap {| fmHubPaths := parsePaths (afmHubPaths p); fmSpokeMapPath := ParsePath (afmSpokeMapPath p);
                          fmKeyNames := afmKeyNames p;
                          fmOnUnknownSpokeKey := orDefault (afmOnUnknownSpokeKey p) UnknownKeyError |})
  | PtrMapToFields p =>
      Ok (PMapToFields {| mfHubMapPath := ParsePath (amfHubMapPath p); mfSpokePaths := parsePaths (amfSpokePaths p);
                          mfKeyNames := amfKeyNames p;
                          mfOnUnknownHubKey := orDefault (amfOnUnknownHubKey p) UnknownKeyError |})
  | PtrToAnnotation p | PtrToLabel p =>
      Ok (PToMetadata {| tmHubPath := ParsePath (atmHubPath p); tmKey := atmKey p;
                         tmSerialization := orDefault (atmSerialization p) "JSON";
                         tmRestoreOnReverse := atmRestoreOnReverse p |})
  | PtrFromAnnotation p =>
      Ok (PFromMetadata {| rmSpokePath := ParsePath (armSpokePath p); rmKey := armKey p;
                           rmSerialization := orDefault (armSerialization p) "JSON";
                           rmStashOnReverse := armStashOnReverse p |})
  | PtrFromLabel p =>
      if bool_decide (aflSerialization p = "JSON") then Err FromLabelJSON
      else Ok (PFromMetadata {| rmSpokePath := ParsePath (aflSpokePath p); rmKey := aflKey p;
                                rmSerialization := orDefault (aflSerialization p) "String";
                                rmStashOnReverse := aflStashOnReverse p |})
  | _ => convert_value p nested branches
  end.

Definition convert_selected (r : ConversionRule) (nested : res rule_error (list Rule))
    (branches : list (res rule_error (list Rule))) : res rule_error RuleParams :=
  match selected r with
  | None => Err (UnknownStrategy (crStrategy r))
  | Some None => Err (RequiresParams (crStrategy r))
  | Some (Some p) => convert_pointer p nested branches
  end.

(** One iteration of the loop of [convertRules], given its parameters. *)
Definition convert_rule (i : nat) (r : ConversionRule) (params : res rule_error RuleParams) : res rule_error Rule :=
  params ← res_wrap (AtRule i (crStrategy r)) params;
  when_ ← res_wrap (AtWhen i (crStrategy r)) (convertWhen (crWhen r));
  Ok (mkRule (crStrategy r) params (crAcknowledgeLossy r) (crReason r) (Z.of_nat i) when_).

Fixpoint convertParams (r : ConversionRule) : res rule_error RuleParams :=
  let convertRules :=
    fix go (i : nat) (rules : list ConversionRule) : res rule_error (list Rule) :=
      match rules with
      | [] => Ok []
      | r :: rules => r' ← convert_rule i r (convertParams r); rules' ← go (S i) rules; Ok (r' :: rules')
      end in
  let nested := match crForEach r with Some fe => convertRules 0 (afeRules fe) | None => Ok [] end in
  let branches := match crBranchMap r with
                  | Some bm => (λ b, convertRules 0 (abrRules b)) <$> abmBranches bm
                  | None => []
                  end in
  convert_selected r nested branches.

Fixpoint convert_rules_from (i : nat) (rules : list ConversionRule) : res rule_error (list Rule) :=
  match rules with
  | [] => Ok []
  | r :: rules => r' ← convert_rule i r (convertParams r); rules' ← convert_rules_from (S i) rules; Ok (r' :: rules')
  end.

Definition convertRules : list ConversionRule → res rule_error (list Rule) := convert_rules_from 0.

Definition spokesToRuleSets (hubVersion : string) (spokes : list SpokeVersionRules)
    (policy : UnmappedFieldPolicy) : res rule_error (list RuleSet) :=
  res_mapM (λ s,
    rules ← res_wrap (AtSpoke (svVersion s)) (convertRules (svRules s));
    Ok {| rsHubVersion := hubVersion; rsSpokeVersion := svVersion s; rsRules := rules;
          rsUnmappedFieldPolicy := orDefault policy UnmappedFieldPolicyError |}) spokes.
End convert_rules.
