(* ===== verification/Rehub.v ===== *)
(** Promoting a spoke to hub (api/v1alpha1/rehub.go).

    [InvertRule] swaps a rule's sides, [PathMapFromPromoteRules] reads where the
    promoted version keeps the old hub's paths, and [ComposeSpokeRules] rewrites
    the other spokes' rules through that map. *)
From S2P Require Import Prelude Float64 Value Json Path Rules Api.

Inductive rehub_error :=
| MissingParams (s : Strategy)
| Unsupported (s : Strategy)
| ToLabelJSON
| InForEach (i : nat) (e : rehub_error)
| InRules (i : nat) (e : rehub_error)
| NoHubPaths (s : Strategy)
| NoRewrite (s : Strategy)
| ConflictingPath (old new1 new2 : string)
| ToRequired
| AlreadyHub (v : string)
| SpokeIsHub (v : string)
| NotASpoke (v : string)
| Inverting (v : string) (e : rehub_error)
| PathMapOf (v : string) (e : rehub_error)
| Composing (spoke hub : string) (e : rehub_error).

(** ** Inverting rules *)

Definition flipSide (s : Side) : Side := if bool_decide (s = SideHub) then SideSpoke else SideHub.

(** The named paths' entries of [keyNames]. *)
Definition invertKeyNames (paths : list string) (keyNames : gmap string string) : gmap string string :=
  foldl (λ out p, match keyNames !! p with Some v => <[p := v]> out | None => out end) ∅ paths.

(** Old hub path to the path on the new hub. *)
Abbreviation HubPathMap := (gmap string string) (only parsing).

Section invert.
Context `{RO : RangeOrder}.

(** The reversed renames, in the order of the [range] loop: it decides which
    key a spoke key shared by two renames maps back to. *)
Definition reverse_renames (m : gmap string string) : gmap string string :=
  foldl (λ rev '(hubKey, spokeKey), <[spokeKey := hubKey]> rev) ∅ (range m).

(** The strategies that recompute, move or rename scalars and keys. *)
Definition invert_scalar (p : rule_pointer) : res rehub_error rule_pointer :=
  match p with
  | PtrTypeCoerce p => Ok (PtrTypeCoerce p)
  | PtrScalarToFields p =>
      Ok (PtrFieldsToScalar {| afsHubFields := asfSpokeFields p; afsSpokePath := asfHubPath p;
                               afsPattern := asfPattern p; afsJoinTemplate := asfJoinTemplate p;
                               afsLosslessOverride := asfLosslessOverride p |})
  | PtrFieldsToScalar p =>
      Ok (PtrScalarToFields {| asfHubPath := afsSpokePath p; asfSpokeFields := afsHubFields p;
                               asfPattern := afsPattern p; asfJoinTemplate := afsJoinTemplate p;
                               asfLosslessOverride := afsLosslessOverride p |})
  | PtrArrayToMapByKey p =>
      Ok (PtrMapToArrayByKey {| amaHubPath := aamSpokePath p; amaSpokePath := aamHubPath p; amaKeyField := aamKeyField p |})
  | PtrMapToArrayByKey p =>
      Ok (PtrArrayToMapByKey {| aamHubPath := amaSpokePath p; aamSpokePath := amaHubPath p; aamKeyField := amaKeyField p |})
  | PtrNumericScale p =>
      Ok (PtrNumericScale {| ansHubPath := ansSpokePath p; ansSpokePath := ansHubPath p; ansFactor := ansFactor p |})
  | PtrListJoin p =>
      Ok (PtrListSplit {| alsHubPath := aljSpokePath p; alsSpokePath := aljHubPath p; alsSeparator := aljSeparator p |})
  | PtrListSplit p =>
      Ok (PtrListJoin {| aljHubPath := alsSpokePath p; aljSpokePath := alsHubPath p; aljSeparator := alsSeparator p |})
  | PtrQuantity p => Ok (PtrQuantity {| aquHubPath := aquSpokePath p; aquSpokePath := aquHubPath p |})
  | PtrDuration p => Ok (PtrDuration {| aduHubPath := aduSpokePath p; aduSpokePath := aduHubPath p |})
  | PtrMapKeyRename p =>
      Ok (PtrMapKeyRename {| amrHubPath := amrSpokePath p; amrSpokePath := amrHubPath p;
                             amrRenames := reverse_renames (amrRenames p) |})
  | PtrCEL p =>
      Ok (PtrCEL {| aceHubPaths := aceSpokePaths p; aceSpokePaths := aceHubPaths p;
                    aceHubToSpoke := aceSpokeToHub p; aceSpokeToHub := aceHubToSpoke p |})
  | _ => Err (Unsupported StrategyBranchMap)
  end.

(** [InvertRule] on one pointer; [nested] are the inverted rules of a ForEach. *)
Definition invert_pointer (p : rule_pointer) (nested : res rehub_error (list ConversionRule))
    : res rehub_error rule_pointer :=
  match p with
  | PtrFieldRename p =>
      Ok (PtrFieldRename {| afrHubPath := afrSpokePath p; afrSpokePath := afrHubPath p |})
  | PtrScalarToObject p =>
      Ok (PtrObjectToScalar {| aosHubPath := asoSpokePath p; aosSpokePath := asoHubPath p;
                               aosKey := asoKey p; aosDefaultsForOtherKeys := asoDefaultsForOtherKeys p |})
  | PtrObjectToScalar p =>
      Ok (PtrScalarToObject {| asoHubPath := aosSpokePath p; asoSpokePath := aosHubPath p;
                               asoKey := aosKey p; asoDefaultsForOtherKeys := aosDefaultsForOtherKeys p |})
  | PtrSingletonArrayToObject p =>
      Ok (PtrObjectToSingletonArray {| aoaHubPath := asaSpokePath p; aoaSpokePath := asaHubPath p |})
  | PtrObjectToSingletonArray p =>
      Ok (PtrSingletonArrayToObject {| asaHubPath := aoaSpokePath p; asaSpokePath := aoaHubPath p |})
  | PtrFieldsToMap p =>
      Ok (PtrMapToFields {| amfHubMapPath := afmSpokeMapPath p; amfSpokePaths := afmHubPaths p;
                            amfKeyNames := invertKeyNames (afmHubPaths p) (afmKeyNames p);
                            amfOnUnknownHubKey := afmOnUnknownSpokeKey p |})
  | PtrMapToFields p =>
      Ok (PtrFieldsToMap {| afmHubPaths := amfSpokePaths p; afmSpokeMapPath := amfHubMapPath p;
                            afmKeyNames := invertKeyNames (amfSpokePaths p) (amfKeyNames p);
                            afmOnUnknownSpokeKey := amfOnUnknownHubKey p |})
  | PtrToAnnotation p =>
      Ok (PtrFromAnnotation {| armSpokePath := atmHubPath p; armKey := atmKey p;
                               armSerialization := atmSerialization p; armStashOnReverse := atmRestoreOnReverse p |})
  | PtrToLabel p =>
      if bool_decide (atmSerialization p = "JSON") then Err ToLabelJSON
      else Ok (PtrFromLabel {| aflSpokePath := atmHubPath p; aflKey := atmKey p;
                               aflSerialization := if bool_decide (atmSerialization p = "") then "String"
                                                   else atmSerialization p;
                               aflStashOnReverse := atmRestoreOnReverse p |})
  | PtrFromAnnotation p =>
      Ok (PtrToAnnotation {| atmHubPath := armSpokePath p; atmKey := armKey p;
                             atmSerialization := armSerialization p; atmRestoreOnReverse := armStashOnReverse p |})
  | PtrFromLabel p =>
      Ok (PtrToLabel {| atmHubPath := aflSpokePath p; atmKey := aflKey p;
                        atmSerialization := aflSerialization p; atmRestoreOnReverse := aflStashOnReverse p |})
  | PtrEnumRemap p =>
      Ok (PtrEnumRemap {| aerPath := aerPath p;
                          aerMapping := (λ m, {| aemHub := aemSpoke m; aemSpoke := aemHub m |}) <$> aerMapping p;
                          aerOnUnmappedHubValue := aerOnUnmappedSpokeValue p;
                          aerOnUnmappedSpokeValue := aerOnUnmappedHubValue p |})
  | PtrDefaultValue p =>
      Ok (PtrDefaultValue {| advPath := advPath p; advExistsOn := flipSide (advExistsOn p); advDefault := advDefault p |})
  | PtrConstant p =>
      Ok (PtrConstant {| acnPath := acnPath p; acnExistsOn := flipSide (acnExistsOn p); acnValue := acnValue p |})
  | PtrDelete p =>
      Ok (PtrDelete {| adlPath := adlPath p; adlExistsOn := flipSide (adlExistsOn p) |})
  | PtrJSONPatch p =>
      Ok (PtrJSONPatch {| ajpHubToSpoke := ajpSpokeToHub p; ajpSpokeToHub := ajpHubToSpoke p;
                          ajpLosslessOverride := ajpLosslessOverride p |})
  | PtrForEach p =>
      rules ← nested;
      Ok (PtrForEach {| afeHubItemsPath := afeSpokeItemsPath p; afeSpokeItemsPath := afeHubItemsPath p;
                        afeRules := rules |})
  | _ => invert_scalar p
  end.

(** The switch: the inverted rule keeps the acknowledgement, reason and when. *)
Definition invert_selected (r : ConversionRule) (nested : res rehub_error (list ConversionRule))
    : res rehub_error ConversionRule :=
  match selected r with
  | None => Err (Unsupported (crStrategy r))
  | Some None => if bool_decide (crStrategy r = StrategyBranchMap) then Err (Unsupported StrategyBranchMap)
                 else Err (MissingParams (crStrategy r))
  | Some (Some p) =>
      p' ← invert_pointer p nested;
      Ok (rule_of p' (crAcknowledgeLossy r) (crReason r) (crWhen r))
  end.

Fixpoint InvertRule (r : ConversionRule) : res rehub_error ConversionRule :=
  let invert_nested :=
    fix go (i : nat) (rules : list ConversionRule) : res rehub_error (list ConversionRule) :=
      match rules with
      | [] => Ok []
      | r :: rules => inv ← res_wrap (InForEach i) (InvertRule r); rest ← go (S i) rules; Ok (inv :: rest)
      end in
  invert_selected r (match crForEach r with Some fe => invert_nested 0 (afeRules fe) | None => Ok [] end).

(** A loop over rules that numbers the one that fails. *)
Definition each_rule {A} (f : ConversionRule → res rehub_error A) (rules : list ConversionRule)
    : res rehub_error (list A) :=
  res_mapM (λ '(i, r), res_wrap (InRules i) (f r)) (imap pair rules).

Definition InvertRules : list ConversionRule → res rehub_error (list ConversionRule) := each_rule InvertRule.

(** ** The hub path map *)

(** [hubSpokePathPairs] for one pointer: old hub path, promoted path. *)
Definition pointer_pairs (p : rule_pointer) : res rehub_error (list (string * string)) :=
  match p with
  | PtrFieldRename p => Ok [(afrHubPath p, afrSpokePath p)]
  | PtrScalarToObject p => Ok [(asoHubPath p, asoSpokePath p)]
  | PtrObjectToScalar p => Ok [(aosHubPath p, aosSpokePath p)]
  | PtrSingletonArrayToObject p => Ok [(asaHubPath p, asaSpokePath p)]
  | PtrObjectToSingletonArray p => Ok [(aoaHubPath p, aoaSpokePath p)]
  | PtrTypeCoerce p => Ok [(atcPath p, atcPath p)]
  | PtrEnumRemap p => Ok [(aerPath p, aerPath p)]
  | PtrNumericScale p => Ok [(ansHubPath p, ansSpokePath p)]
  | PtrListJoin p => Ok [(aljHubPath p, aljSpokePath p)]
  | PtrListSplit p => Ok [(alsHubPath p, alsSpokePath p)]
  | PtrQuantity p => Ok [(aquHubPath p, aquSpokePath p)]
  | PtrDuration p => Ok [(aduHubPath p, aduSpokePath p)]
  | PtrMapKeyRename p => Ok [(amrHubPath p, amrSpokePath p)]
  | PtrArrayToMapByKey p => Ok [(aamHubPath p, aamSpokePath p)]
  | PtrMapToArrayByKey p => Ok [(amaHubPath p, amaSpokePath p)]
  | PtrScalarToFields p => Ok [(asfHubPath p, asfHubPath p)]
  | PtrFieldsToScalar p => Ok ((λ '(_, hp), (hp, hp)) <$> range (afsHubFields p))
  | PtrFieldsToMap p => Ok ((λ hp, (hp, hp)) <$> afmHubPaths p)
  | PtrMapToFields p => Ok [(amfHubMapPath p, amfHubMapPath p)]
  | PtrForEach p => Ok [(afeHubItemsPath p, afeSpokeItemsPath p)]
  | PtrToAnnotation _ | PtrToLabel _ | PtrFromAnnotation _ | PtrFromLabel _
  | PtrDefaultValue _ | PtrConstant _ | PtrDelete _ => Ok []
  | PtrCEL _ => Err (NoHubPaths StrategyCEL)
  | PtrJSONPatch _ => Err (NoHubPaths StrategyJSONPatch)
  | PtrBranchMap _ => Err (Unsupported StrategyBranchMap)
  end.

(** The strategies whose case does not look at the pointer. *)
Definition pairs_without_params (s : Strategy) : bool :=
  bool_decide (s ∈ [StrategyToAnnotation; StrategyToLabel; StrategyFromAnnotation; StrategyFromLabel;
                    StrategyDefaultValue; StrategyConstant; StrategyDelete]).

Definition hubSpokePathPairs (r : ConversionRule) : res rehub_error (list (string * string)) :=
  match selected r with
  | None => Err (Unsupported (crStrategy r))
  | Some None =>
      let s := crStrategy r in
      if pairs_without_params s then Ok []
      else if bool_decide (s = StrategyBranchMap) then Err (Unsupported s)
      else if bool_decide (s = StrategyCEL) || bool_decide (s = StrategyJSONPatch) then Err (NoHubPaths s)
      else Err (MissingParams s)
  | Some (Some p) => pointer_pairs p
  end.

Definition add_pair (m : HubPathMap) (p : string * string) : res rehub_error HubPathMap :=
  match m !! p.1 with
  | Some prev => if bool_decide (prev = p.2) then Ok (<[p.1 := p.2]> m) else Err (ConflictingPath p.1 prev p.2)
  | None => Ok (<[p.1 := p.2]> m)
  end.

Fixpoint path_map_from (i : nat) (rules : list ConversionRule) (m : HubPathMap) : res rehub_error HubPathMap :=
  match rules with
  | [] => Ok m
  | r :: rules =>
      pairs ← res_wrap (InRules i) (hubSpokePathPairs r);
      m ← res_foldl add_pair m pairs;
      path_map_from (S i) rules m
  end.

Definition PathMapFromPromoteRules (rules : list ConversionRule) : res rehub_error HubPathMap :=
  path_map_from 0 rules ∅.
End invert.

(** ** Rewriting the other spokes' rules *)

(** [mapPath]: an unmapped path keeps its text. *)
Definition mapPath (m : HubPathMap) (p : string) : string :=
  if bool_decide (p = "") then p else default p (m !! p).

(** [RewriteHubPaths] on the strategies that recompute, move or rename scalars and keys. *)
Definition rewrite_scalar (m : HubPathMap) (p : rule_pointer) : res rehub_error (option rule_pointer) :=
  let mp := mapPath m in
  match p with
  | PtrTypeCoerce p =>
      Ok (Some (PtrTypeCoerce {| atcPath := mp (atcPath p); atcOnFractionalInteger := atcOnFractionalInteger p |}))
  | PtrScalarToFields p =>
      Ok (Some (PtrScalarToFields {| asfHubPath := mp (asfHubPath p); asfPattern := asfPattern p;
                                     asfSpokeFields := asfSpokeFields p; asfJoinTemplate := asfJoinTemplate p;
                                     asfLosslessOverride := asfLosslessOverride p |}))
  | PtrFieldsToScalar p =>
      Ok (Some (PtrFieldsToScalar {| afsHubFields := mp <$> afsHubFields p; afsPattern := afsPattern p;
                                     afsSpokePath := afsSpokePath p; afsJoinTemplate := afsJoinTemplate p;
                                     afsLosslessOverride := afsLosslessOverride p |}))
  | PtrArrayToMapByKey p =>
      Ok (Some (PtrArrayToMapByKey {| aamHubPath := mp (aamHubPath p); aamSpokePath := aamSpokePath p;
                                      aamKeyField := aamKeyField p |}))
  | PtrMapToArrayByKey p =>
      Ok (Some (PtrMapToArrayByKey {| amaHubPath := mp (amaHubPath p); amaSpokePath := amaSpokePath p;
                                      amaKeyField := amaKeyField p |}))
  | PtrNumericScale p =>
      Ok (Some (PtrNumericScale {| ansHubPath := mp (ansHubPath p); ansSpokePath := ansSpokePath p; ansFactor := ansFactor p |}))
  | PtrListJoin p =>
      Ok (Some (PtrListJoin {| aljHubPath := mp (aljHubPath p); aljSpokePath := aljSpokePath p; aljSeparator := aljSeparator p |}))
  | PtrListSplit p =>
      Ok (Some (PtrListSplit {| alsHubPath := mp (alsHubPath p); alsSpokePath := alsSpokePath p; alsSeparator := alsSeparator p |}))
  | PtrQuantity p => Ok (Some (PtrQuantity {| aquHubPath := mp (aquHubPath p); aquSpokePath := aquSpokePath p |}))
  | PtrDuration p => Ok (Some (PtrDuration {| aduHubPath := mp (aduHubPath p); aduSpokePath := aduSpokePath p |}))
  | PtrMapKeyRename p =>
      Ok (Some (PtrMapKeyRename {| amrHubPath := mp (amrHubPath p); amrSpokePath := amrSpokePath p; amrRenames := amrRenames p |}))
  | _ => Err (Unsupported StrategyBranchMap)
  end.

(** [RewriteHubPaths] on one pointer; [None] keeps the rule as it is. *)
Definition rewrite_pointer (m : HubPathMap) (p : rule_pointer) : res rehub_error (option rule_pointer) :=
  let mp := mapPath m in
  match p with
  | PtrFieldRename p => Ok (Some (PtrFieldRename {| afrHubPath := mp (afrHubPath p); afrSpokePath := afrSpokePath p |}))
  | PtrScalarToObject p =>
      Ok (Some (PtrScalarToObject {| asoHubPath := mp (asoHubPath p); asoSpokePath := asoSpokePath p;
                                     asoKey := asoKey p; asoDefaultsForOtherKeys := asoDefaultsForOtherKeys p |}))
  | PtrObjectToScalar p =>
      Ok (Some (PtrObjectToScalar {| aosHubPath := mp (aosHubPath p); aosSpokePath := aosSpokePath p;
                                     aosKey := aosKey p; aosDefaultsForOtherKeys := aosDefaultsForOtherKeys p |}))
  | PtrSingletonArrayToObject p =>
      Ok (Some (PtrSingletonArrayToObject {| asaHubPath := mp (asaHubPath p); asaSpokePath := asaSpokePath p |}))
  | PtrObjectToSingletonArray p =>
      Ok (Some (PtrObjectToSingletonArray {| aoaHubPath := mp (aoaHubPath p); aoaSpokePath := aoaSpokePath p |}))
  | PtrFieldsToMap p =>
      Ok (Some (PtrFieldsToMap {| afmHubPaths := mp <$> afmHubPaths p; afmSpokeMapPath := afmSpokeMapPath p;
                                  afmKeyNames := afmKeyNames p; afmOnUnknownSpokeKey := afmOnUnknownSpokeKey p |}))
  | PtrMapToFields p =>
      Ok (Some (PtrMapToFields {| amfHubMapPath := mp (amfHubMapPath p); amfSpokePaths := amfSpokePaths p;
                                  amfKeyNames := amfKeyNames p; amfOnUnknownHubKey := amfOnUnknownHubKey p |}))
  | PtrToAnnotation p =>
      Ok (Some (PtrToAnnotation {| atmHubPath := mp (atmHubPath p); atmKey := atmKey p;
                                   atmSerialization := atmSerialization p; atmRestoreOnReverse := atmRestoreOnReverse p |}))
  | PtrToLabel p =>
      Ok (Some (PtrToLabel {| atmHubPath := mp (atmHubPath p); atmKey := atmKey p;
                              atmSerialization := atmSerialization p; atmRestoreOnReverse := atmRestoreOnReverse p |}))
  | PtrFromAnnotation _ | PtrFromLabel _ => Ok None
  | PtrEnumRemap p =>
      Ok (Some (PtrEnumRemap {| aerPath := mp (aerPath p); aerMapping := aerMapping p;
                                aerOnUnmappedHubValue := aerOnUnmappedHubValue p;
                                aerOnUnmappedSpokeValue := aerOnUnmappedSpokeValue p |}))
  | PtrDefaultValue p =>
      Ok (if bool_decide (advExistsOn p = SideHub)
          then Some (PtrDefaultValue {| advPath := mp (advPath p); advExistsOn := advExistsOn p; advDefault := advDefault p |})
          else None)
  | PtrConstant p =>
      Ok (if bool_decide (acnExistsOn p = SideHub)
          then Some (PtrConstant {| acnPath := mp (acnPath p); acnExistsOn := acnExistsOn p; acnValue := acnValue p |})
          else None)
  | PtrDelete p =>
      Ok (if bool_decide (adlExistsOn p = SideHub)
          then Some (PtrDelete {| adlPath := mp (adlPath p); adlExistsOn := adlExistsOn p |})
          else None)
  | PtrJSONPatch _ => Err (NoRewrite StrategyJSONPatch)
  | PtrCEL _ => Err (NoRewrite StrategyCEL)
  | PtrForEach p =>
      Ok (Some (PtrForEach {| afeHubItemsPath := mp (afeHubItemsPath p); afeSpokeItemsPath := afeSpokeItemsPath p;
                              afeRules := afeRules p |}))
  | _ => rewrite_scalar m p
  end.

Definition RewriteHubPaths (m : HubPathMap) (r : ConversionRule) : res rehub_error ConversionRule :=
  match selected r with
  | None => Err (Unsupported (crStrategy r))
  | Some None =>
      let s := crStrategy r in
      if bool_decide (s ∈ [StrategyFromAnnotation; StrategyFromLabel]) then Ok r
      else if bool_decide (s = StrategyBranchMap) then Err (Unsupported s)
      else if bool_decide (s = StrategyCEL) || bool_decide (s = StrategyJSONPatch) then Err (NoRewrite s)
      else Err (MissingParams s)
  | Some (Some p) =>
      p' ← rewrite_pointer m p;
      Ok (match p' with Some q => with_pointer r q | None => r end)
  end.

Section compose.
Context `{RO : RangeOrder}.

Definition pointer_spoke_paths (p : rule_pointer) : list string :=
  match p with
  | PtrFieldRename p => [afrSpokePath p]
  | PtrFromAnnotation p => [armSpokePath p]
  | PtrFromLabel p => [aflSpokePath p]
  | PtrScalarToObject p => [asoSpokePath p]
  | PtrObjectToScalar p => [aosSpokePath p]
  | PtrSingletonArrayToObject p => [asaSpokePath p]
  | PtrObjectToSingletonArray p => [aoaSpokePath p]
  | PtrFieldsToMap p => [afmSpokeMapPath p]
  | PtrMapToFields p => amfSpokePaths p
  | PtrScalarToFields p => (range (asfSpokeFields p)).*2
  | PtrFieldsToScalar p => [afsSpokePath p]
  | PtrArrayToMapByKey p => [aamSpokePath p]
  | PtrMapToArrayByKey p => [amaSpokePath p]
  | PtrNumericScale p => [ansSpokePath p]
  | PtrListJoin p => [aljSpokePath p]
  | PtrListSplit p => [alsSpokePath p]
  | PtrQuantity p => [aquSpokePath p]
  | PtrDuration p => [aduSpokePath p]
  | PtrMapKeyRename p => [amrSpokePath p]
  | PtrCEL p => aceSpokePaths p
  | PtrTypeCoerce p => [atcPath p]
  | PtrEnumRemap p => [aerPath p]
  | PtrDefaultValue p => if bool_decide (advExistsOn p = SideSpoke) then [advPath p] else []
  | PtrConstant p => if bool_decide (acnExistsOn p = SideSpoke) then [acnPath p] else []
  | PtrDelete p => if bool_decide (adlExistsOn p = SideSpoke) then [adlPath p] else []
  | PtrForEach p => [afeSpokeItemsPath p]
  | PtrToAnnotation _ | PtrToLabel _ | PtrJSONPatch _ | PtrBranchMap _ => []
  end.

Definition spokePathsOf (r : ConversionRule) : list string :=
  match selected r with Some (Some p) => pointer_spoke_paths p | _ => [] end.

Definition lifted_rename (newHub oldHub : string) : ConversionRule :=
  rule_of (PtrFieldRename {| afrHubPath := newHub; afrSpokePath := oldHub |}) false "" None.

(** One old hub path of the lifting loop. *)
Definition lift_step (pathMap : HubPathMap) (spokeLeafPaths : gset string)
    (st : list ConversionRule * gset string) (oldHub : string) : list ConversionRule * gset string :=
  let newHub := default "" (pathMap !! oldHub) in
  if bool_decide (oldHub = newHub) then st
  else if bool_decide (oldHub ∉ spokeLeafPaths) then st
  else if bool_decide (oldHub ∈ st.2) then st
  else (st.1 ++ [lifted_rename newHub oldHub], {[oldHub]} ∪ st.2).

Definition ComposeSpokeRules (rules : list ConversionRule) (pathMap : HubPathMap)
    (spokeLeafPaths : gset string) : res rehub_error (list ConversionRule) :=
  out ← each_rule (RewriteHubPaths pathMap) rules;
  let claimedSpoke : gset string := list_to_set (concat (spokePathsOf <$> out)) in
  Ok (foldl (lift_step pathMap spokeLeafPaths) (out, claimedSpoke)
        (sort_strings (map_to_list pathMap).*1)).1.

(** ** Rehubbing *)

(** The loop that finds the promoted spoke; a later spoke of the same version
    replaces an earlier one. *)
Fixpoint split_spokes (oldHub newHub : string) (spokes : list SpokeVersionRules)
    (promote : option SpokeVersionRules) (others : list SpokeVersionRules)
    : res rehub_error (option SpokeVersionRules * list SpokeVersionRules) :=
  match spokes with
  | [] => Ok (promote, others)
  | s :: spokes =>
      if bool_decide (svVersion s = newHub) then split_spokes oldHub newHub spokes (Some s) others
      else if bool_decide (svVersion s = oldHub) then Err (SpokeIsHub oldHub)
      else split_spokes oldHub newHub spokes promote (others ++ [s])
  end.

Definition compose_spoke (newHub : string) (pathMap : HubPathMap) (spokeLeaves : gmap string (gset string))
    (s : SpokeVersionRules) : res rehub_error SpokeVersionRules :=
  composed ← res_wrap (Composing (svVersion s) newHub)
    (ComposeSpokeRules (svRules s) pathMap (default ∅ (spokeLeaves !! svVersion s)));
  Ok {| svVersion := svVersion s; svRules := composed |}.

Definition RehubSpokes (oldHub newHub : string) (spokes : list SpokeVersionRules)
    (spokeLeaves : gmap string (gset string)) : res rehub_error (string * list SpokeVersionRules) :=
  if bool_decide (newHub = "") then Err ToRequired
  else if bool_decide (newHub = oldHub) then Err (AlreadyHub newHub)
  else
    '(promote, others) ← split_spokes oldHub newHub spokes None [];
    match promote with
    | None => Err (NotASpoke newHub)
    | Some promote =>
        inverted ← res_wrap (Inverting newHub) (InvertRules (svRules promote));
        pathMap ← res_wrap (PathMapOf newHub) (PathMapFromPromoteRules (svRules promote));
        composed ← res_mapM (compose_spoke newHub pathMap spokeLeaves) others;
        Ok (newHub, {| svVersion := oldHub; svRules := inverted |} :: composed)
    end.
End compose.
