(* ===== verification/RehubTheory.v ===== *)
(** What inverting rules does to the operations compiled from them.

    [answers m a K] says that the resolver [m] returns [a] and claims exactly the
    keys [K], whatever was claimed before.  Every resolver has such an answer; an
    inverted rule's, with the two schemas exchanged, is the original's mirrored. *)
From S2P Require Import Prelude Float64 Value Json Duration Path Schema Rules Coerce Passthrough Ops Convert Diagnostics Compile CompileTheory Api Rehub.

(** ** Answers *)

Definition claims : Type := side → gset string.
Definition no_claims : claims := λ _, ∅.
Definition on (sd : side) (X : gset string) : claims := λ sd', if decide (sd' = sd) then X else ∅.
Definition join_claims (K L : claims) : claims := λ sd, K sd ∪ L sd.
Definition all_claims {A} (K : A → claims) (l : list A) : claims := λ sd, ⋃ ((λ a, K a sd) <$> l).

Definition answers {A} (m : rs A) (a : A) (K : claims) : Prop :=
  ∀ s, (m s).1 = a ∧ ∀ sd, claimed sd (m s).2 = K sd ∪ claimed sd s.

Lemma answers_ret {A} (a : A) : answers (mret a) a no_claims.
Proof. intros s. split; [done|]. intros sd. set_solver. Qed.

Lemma answers_bind {A B} (m : rs A) (f : A → rs B) a b K L :
  answers m a K → answers (f a) b L → answers (m ≫= f) b (join_claims K L).
Proof.
  intros Hm Hf s. rewrite rs_bind_eq. destruct (Hm s) as [-> Hk], (Hf (m s).2) as [Hb Hl].
  split; [done|]. intros sd. rewrite Hl, Hk. set_solver.
Qed.

Lemma answers_tell d : answers (tell d) () no_claims.
Proof. intros s. split; [done|]. intros []; set_solver. Qed.
Lemma answers_tell_all ds : answers (tell_all ds) () no_claims.
Proof. intros s. split; [done|]. intros []; set_solver. Qed.
Lemma answers_fail idx name m : answers (fail idx name m) () no_claims.
Proof. apply answers_tell. Qed.
Lemma answers_warn idx name m : answers (warn idx name m) () no_claims.
Proof. apply answers_tell. Qed.

Lemma answers_when (b : bool) m : answers m () no_claims → answers (rs_when b m) () no_claims.
Proof. destruct b; [done|]. intros _. apply answers_ret. Qed.

Lemma answers_iter {A} (f : A → rs ()) (K : A → claims) l :
  (∀ a, answers (f a) () (K a)) → answers (rs_iter f l) () (all_claims K l).
Proof. intros Hf. induction l; cbn; [apply answers_ret|]. by eapply answers_bind. Qed.

Lemma answers_weaken {A} (m : rs A) a K L : answers m a K → (∀ sd, K sd = L sd) → answers m a L.
Proof. intros Hm Hk s. destruct (Hm s) as [? H]. split; [done|]. intros sd. by rewrite <- Hk. Qed.

Lemma answers_silent_bind {A B} (m : rs A) (f : A → rs B) a b :
  answers m a no_claims → answers (f a) b no_claims → answers (m ≫= f) b no_claims.
Proof. intros H1 H2. eapply answers_weaken; [by eapply answers_bind|]. intros; set_solver. Qed.

Lemma answers_claim sd p idx l : answers (claim sd p idx l) () (on sd {[path_string p]}).
Proof.
  intros s. unfold claim. rewrite rs_bind_eq. cbn. case_bool_decide as H.
  - split; [done|]. intros sd'. unfold on. destruct sd', sd; cbn in *; set_solver.
  - split; [done|]. intros sd'. unfold on. destruct sd', sd; cbn in *; set_solver.
Qed.

(** *** Values the resolvers read from a schema *)

Definition node_at (root : JSONSchemaProps) (p : FieldPath) : option JSONSchemaProps :=
  match lookupPath root p with Ok n => Some n | Err _ => None end.

Definition kind_of (root : JSONSchemaProps) (p : FieldPath) : FieldKind :=
  match node_at root p with Some n => (classify n).1 | None => FieldKindUnknown end.

Definition item_kind_of (root : JSONSchemaProps) (p : FieldPath) : FieldKind :=
  match node_at root p with
  | Some n => match bool_decide ((classify n).1 = FieldKindArray), itemsSchema n with
              | true, Some item => (classify item).1
              | _, _ => FieldKindUnknown
              end
  | None => FieldKindUnknown
  end.

Lemma answers_lookup idx name l root p : answers (lookup_node idx name l root p) (node_at root p) no_claims.
Proof.
  unfold lookup_node, node_at. destruct (lookupPath root p).
  - apply answers_ret.
  - eapply answers_silent_bind; [apply answers_fail|apply answers_ret].
Qed.

Lemma answers_kind_at idx name l root p check :
  (∀ k, answers (check k) () no_claims) → answers (kind_at idx name l root p check) (kind_of root p) no_claims.
Proof.
  intros Hc. unfold kind_at, kind_of. eapply answers_silent_bind; [apply answers_lookup|].
  destruct (node_at root p); [|apply answers_ret]. eapply answers_silent_bind; [apply Hc|apply answers_ret].
Qed.

Create HintDb answers.
#[export] Hint Resolve answers_ret answers_tell answers_tell_all answers_fail answers_warn answers_when
  answers_lookup answers_kind_at answers_claim : answers.

Lemma answers_item_kind idx name l root p : answers (item_kind_at idx name l root p) (item_kind_of root p) no_claims.
Proof.
  unfold item_kind_at, item_kind_of. eapply answers_silent_bind; [apply answers_lookup|].
  destruct (node_at root p) as [n|]; [|auto with answers].
  destruct (bool_decide _); [destruct (itemsSchema n)|];
    eapply answers_silent_bind; auto with answers.
Qed.

Lemma answers_check_string idx name l root p : answers (check_string idx name l root p) () no_claims.
Proof. unfold check_string. eapply answers_silent_bind; auto with answers. Qed.

Lemma answers_opaque idx name l p root : answers (requireOpaqueMap idx name l p root) () no_claims.
Proof.
  unfold requireOpaqueMap. eapply answers_silent_bind; [apply answers_lookup|].
  destruct (node_at root p) as [n|]; [|auto with answers]. destruct (classify n). auto with answers.
Qed.

Lemma answers_patch_error idx dir e : answers (tell_patch_error idx dir e) () no_claims.
Proof. unfold tell_patch_error. destruct e; auto with answers. Qed.

(** *** Subtrees, named fields, CEL *)

Section answers_externs.
Context `{RO : RangeOrder} `{EX : Externs} `{CX : CompileExterns}.

Definition subtree_keys (prefix : FieldPath) (node : option JSONSchemaProps) : gset string :=
  {[path_string prefix]} ∪
  match node with
  | None => ∅
  | Some n => ⋃ ((λ leaf, if bool_decide (lfPath leaf = []) then ∅ else {[path_string (prefix ++ lfPath leaf)]})
                  <$> flattenSchema n)
  end.

Lemma answers_label_key idx name mf k : answers (check_label_key idx name mf k) () no_claims.
Proof. unfold check_label_key. apply answers_when. destruct (IsQualifiedName k); auto with answers. Qed.

Lemma answers_subtree sd prefix node idx l :
  answers (claimSubtree sd prefix node idx l) () (on sd (subtree_keys prefix node)).
Proof.
  unfold claimSubtree, subtree_keys. destruct node as [n|].
  - eapply answers_weaken.
    + eapply answers_bind; [apply answers_claim|].
      apply (answers_iter _ (λ leaf, on sd (if bool_decide (lfPath leaf = []) then ∅
                                            else {[path_string (prefix ++ lfPath leaf)]}))).
      intros leaf. case_bool_decide; cbn; [|apply answers_claim].
      eapply answers_weaken; [apply answers_ret|]. intros sd'. unfold on. by case_decide.
    + intros sd'. unfold join_claims, all_claims, on. case_decide; [done|].
      induction (flattenSchema n); set_solver.
  - eapply answers_weaken; [eapply answers_bind; [apply answers_claim|apply answers_ret]|].
    intros sd'. unfold join_claims, no_claims, on. case_decide; set_solver.
Qed.

(** The kinds [compileSplitJoin] finds, and the paths it claims. *)
Definition field_kinds_of (root : JSONSchemaProps) (l : list (string * FieldPath)) (kinds : gmap string FieldKind)
    : gmap string FieldKind :=
  foldl (λ kinds '(name, path), match node_at root path with
                                | Some n => <[name := (classify n).1]> kinds
                                | None => kinds
                                end) kinds l.

Definition field_keys (root : JSONSchemaProps) (l : list (string * FieldPath)) : gset string :=
  ⋃ ((λ '(_, path), match node_at root path with Some _ => {[path_string path]} | None => ∅ end) <$> l).

Lemma answers_field_kinds idx strategy root sd l kinds :
  answers (field_kinds idx strategy root sd l kinds) (field_kinds_of root l kinds) (on sd (field_keys root l)).
Proof.
  revert kinds; induction l as [|[name path] l IH]; intros kinds; cbn [field_kinds].
  { eapply answers_weaken; [apply answers_ret|]. intros sd'. unfold on. by case_decide. }
  unfold field_kinds_of. cbn. destruct (node_at root path) as [n|] eqn:E; eapply answers_weaken.
  - eapply answers_bind; [apply answers_lookup|]. rewrite E.
    eapply answers_bind; [apply answers_when, answers_fail|]. eapply answers_bind; [apply answers_claim|apply IH].
  - intros sd'. unfold join_claims, no_claims, on, field_keys. case_decide; set_solver.
  - eapply answers_bind; [apply answers_lookup|]. rewrite E. apply IH.
  - intros sd'. unfold join_claims, no_claims, on, field_keys. case_decide; set_solver.
Qed.

Definition split_join (pattern joinTemplate : string) (fields : gmap string FieldPath) (root : JSONSchemaProps)
    : bool * bool * gmap string FieldKind :=
  (res_ok (regexp_Compile pattern), res_ok (template_Parse joinTemplate), field_kinds_of root (range fields) ∅).

Lemma answers_split_join idx strategy pattern joinTemplate fields root sd :
  answers (compileSplitJoin idx strategy pattern joinTemplate fields root sd)
    (split_join pattern joinTemplate fields root) (on sd (field_keys root (range fields))).
Proof.
  unfold compileSplitJoin, split_join. eapply answers_weaken.
  - eapply (answers_bind _ _ (res_ok (regexp_Compile pattern)) _ no_claims).
    { destruct (regexp_Compile pattern); [apply answers_ret|].
      eapply answers_silent_bind; [apply answers_fail|apply answers_ret]. }
    eapply (answers_bind _ _ (res_ok (template_Parse joinTemplate)) _ no_claims).
    { destruct (template_Parse joinTemplate); [apply answers_ret|].
      eapply answers_silent_bind; [apply answers_fail|apply answers_ret]. }
    eapply (answers_bind _ _ () _ no_claims).
    { apply answers_when. eapply answers_weaken; [apply (answers_iter _ (λ _, no_claims)); intros;
        apply answers_when, answers_fail|]. intros sd'. unfold all_claims, no_claims.
      induction (range fields).*1; set_solver. }
    eapply answers_bind; [apply answers_field_kinds|apply answers_ret].
  - intros sd'. unfold join_claims, no_claims. set_solver.
Qed.

Lemma answers_cel_op idx dir e ds :
  answers (compile_cel_op idx dir e ds)
    (if bool_decide (e = "") then None else match cel_Compile e with Ok _ => Some (celOp e ds) | Err _ => None end)
    no_claims.
Proof.
  unfold compile_cel_op. case_bool_decide; [apply answers_ret|]. destruct (cel_Compile e); [apply answers_ret|].
  eapply answers_silent_bind; [apply answers_fail|apply answers_ret].
Qed.

(** *** Renames *)

Record good_renames (m : gmap string string) : Prop := {
  gr_nonempty : m ≠ ∅;
  gr_keys : ∀ k v, m !! k = Some v → k ≠ "" ∧ v ≠ "";
  gr_injective : ∀ k k' v, m !! k = Some v → m !! k' = Some v → k = k';
}.

Definition reverse_entries (l : list (string * string)) (rev : gmap string string) : gmap string string :=
  foldl (λ rev '(hubKey, spokeKey), <[spokeKey := hubKey]> rev) rev l.

Lemma reverse_entries_lookup l rev k h :
  NoDup l.*2 → (∀ v, v ∈ l.*2 → rev !! v = None) →
  reverse_entries l rev !! k = Some h ↔ rev !! k = Some h ∨ (h, k) ∈ l.
Proof.
  revert rev; induction l as [|[h' k'] l IH]; intros rev Hnd Hrev; cbn.
  { rewrite elem_of_nil. tauto. }
  apply NoDup_cons in Hnd as [Hk Hnd]. assert (rev !! k' = None) as Hk' by (apply Hrev; by left).
  fold (reverse_entries l (<[k' := h']> rev)). rewrite IH, elem_of_cons; [|done|].
  - destruct (decide (k = k')) as [->|Hne].
    + rewrite lookup_insert_eq. split; [intros [[= ->]|H]; auto|].
      intros [H|[[= ->]|H]]; auto. congruence.
    + rewrite lookup_insert_ne by done. split; [intros [?|?]; auto|].
      intros [?|[[= -> ->]|?]]; auto. done.
  - intros v Hv. rewrite lookup_insert_ne by (intros ->; done). apply Hrev. by right.
Qed.

Lemma range_snd_NoDup m : good_renames m → NoDup (range m).*2.
Proof.
  intros Hg. pose proof (NoDup_range m) as Hnd.
  assert (∀ k v, (k, v) ∈ range m → m !! k = Some v) as Hin by (intros; by apply elem_of_range).
  induction (range m) as [|[k v] l IH]; cbn; [constructor|].
  apply NoDup_cons in Hnd as [Hk Hnd]. constructor; [|apply IH; [done|]; intros; apply Hin; by right].
  intros ((k', v') & -> & Hv)%list_elem_of_fmap. cbn in *. apply Hk.
  replace k with k'; [done|]. eapply (gr_injective m); [done|apply Hin; by right|apply Hin; by left].
Qed.

Lemma reverse_renames_lookup m k h : good_renames m → reverse_renames m !! k = Some h ↔ m !! h = Some k.
Proof.
  intros Hg. unfold reverse_renames. fold (reverse_entries (range m) ∅).
  rewrite reverse_entries_lookup; [|by apply range_snd_NoDup|intros; apply lookup_empty].
  rewrite lookup_empty, elem_of_range. split; [intros [?|?]; done|auto].
Qed.

Lemma reverse_renames_good m : good_renames m → good_renames (reverse_renames m).
Proof.
  intros Hg. split.
  - destruct (map_choose _ (gr_nonempty m Hg)) as (k & v & Hk).
    intros E. apply (reverse_renames_lookup m v k Hg) in Hk. by rewrite E, lookup_empty in Hk.
  - intros k v H. apply (reverse_renames_lookup m k v Hg) in H. destruct (gr_keys m Hg _ _ H). done.
  - intros k k' v H H'. apply (reverse_renames_lookup m) in H, H'; [|done..]. congruence.
Qed.

Lemma reverse_renames_involutive m : good_renames m → reverse_renames (reverse_renames m) = m.
Proof.
  intros Hg. apply map_eq; intros k. apply option_eq; intros h.
  rewrite (reverse_renames_lookup (reverse_renames m)) by (by apply reverse_renames_good).
  by apply reverse_renames_lookup.
Qed.

Lemma answers_invert_entries idx name l rev :
  NoDup l.*2 → (∀ v, v ∈ l.*2 → rev !! v = None) → (∀ k v, (k, v) ∈ l → k ≠ "" ∧ v ≠ "") →
  answers (invert_entries idx name l rev) (reverse_entries l rev) no_claims.
Proof.
  revert rev; induction l as [|[h k] l IH]; intros rev Hnd Hrev Hne; cbn; [apply answers_ret|].
  destruct (Hne h k) as [Hh Hk]; [by left|]. apply NoDup_cons in Hnd as [Hk' Hnd].
  rewrite !bool_decide_false by (done || rewrite Hrev by (by left); by intros [? ?]). cbn.
  apply IH; [done| |intros; apply Hne; by right].
  intros v Hv. rewrite lookup_insert_ne by (intros ->; done). apply Hrev. by right.
Qed.

Lemma answers_invert idx name m : good_renames m → answers (invertRenames idx name m) (reverse_renames m) no_claims.
Proof.
  intros Hg. unfold invertRenames. rewrite bool_decide_false by apply Hg.
  apply answers_invert_entries; [by apply range_snd_NoDup|intros; apply lookup_empty|].
  intros k v Hkv%elem_of_range. by eapply gr_keys.
Qed.

(** *** Enum tables *)

Definition flip_mapping (m : Rules.EnumValueMapping) : Rules.EnumValueMapping :=
  {| emHub := emSpoke m; emSpoke := emHub m |}.

Lemma enum_tables_flip mapping : enum_tables (flip_mapping <$> mapping) = prod_swap (enum_tables mapping).
Proof.
  unfold enum_tables. change (∅, ∅) with (prod_swap (∅ : gmap string value, ∅ : gmap string value)) at 1.
  generalize (∅ : gmap string value, ∅ : gmap string value).
  induction mapping as [|m mapping IH]; intros [a b]; [done|]. cbn. by rewrite <- IH.
Qed.

(** *** The answer of each resolver *)

Lemma answers_string_integer idx name hp sp hub spoke mk :
  answers (resolveStringIntegerPair idx name hp sp hub spoke mk)
    (let hk := kind_of hub hp in let sk := kind_of spoke sp in
     if bool_decide (hk = FieldKindString) && bool_decide (sk = FieldKindInteger) then
       (Some (mk hp sp true), Some (mk sp hp false), lossy true false)
     else if bool_decide (hk = FieldKindInteger) && bool_decide (sk = FieldKindString) then
       (Some (mk hp sp false), Some (mk sp hp true), lossy false true)
     else (None, None, lossy false false))
    (join_claims (on Hub {[path_string hp]}) (on Spoke {[path_string sp]})).
Proof.
  unfold resolveStringIntegerPair. eapply answers_weaken.
  - eapply answers_bind; [apply answers_kind_at; auto with answers|].
    eapply answers_bind; [apply answers_kind_at; auto with answers|].
    eapply answers_bind; [apply answers_when, answers_fail|].
    eapply answers_bind; [apply answers_claim|]. eapply answers_bind; [apply answers_claim|]. apply answers_ret.
  - intros sd. unfold join_claims, no_claims. set_solver.
Qed.
End answers_externs.

#[export] Hint Resolve answers_item_kind answers_check_string answers_label_key answers_opaque answers_patch_error
  answers_subtree answers_split_join answers_cel_op answers_string_integer : answers.

(** One bind of a resolver. *)
Ltac answer_step :=
  first
  [ progress cbn beta iota zeta
  | apply answers_ret
  | apply answers_kind_at; intros; apply answers_when; auto with answers
  | apply answers_when; auto with answers
  | solve [auto with answers]
  | eapply answers_bind
  | eapply answers_iter; intros ?
  | lazymatch goal with
    | |- @answers unit (match ?x with _ => _ end) ?a ?K => unify a (); unify K no_claims; destruct x; auto with answers
    end ].
Ltac solve_answers := repeat answer_step.

(** ** Mirrored resolvers *)

Definition other_side (sd : side) : side := match sd with Hub => Spoke | Spoke => Hub end.

(** With the schemas exchanged, [r'] produces [r]'s two operations exchanged, and
    claims on each side what [r] claims on the other. *)
Definition mirrored (r r' : rule_resolver) : Prop :=
  ∀ hub spoke pol depth, ∃ h2s s2h v v' K K',
    (∀ idx, answers (r idx hub spoke pol depth) (h2s, s2h, v) K) ∧
    (∀ idx, answers (r' idx spoke hub pol depth) (s2h, h2s, v') K') ∧
    ∀ sd, K' sd = K (other_side sd).

(** The rules whose inverse means the same: metadata is restored, a label says
    its serialisation, key names and renames are as the engine requires. *)
Definition faithful_pointer (p : rule_pointer) : Prop :=
  match p with
  | PtrFieldsToMap p => ∀ k, is_Some (afmKeyNames p !! k) → k ∈ afmHubPaths p
  | PtrMapToFields p => ∀ k, is_Some (amfKeyNames p !! k) → k ∈ amfSpokePaths p
  | PtrToAnnotation p => atmRestoreOnReverse p = true
  | PtrFromAnnotation p => armStashOnReverse p = true
  | PtrToLabel p => atmRestoreOnReverse p = true ∧ atmSerialization p = "String"
  | PtrFromLabel p => aflStashOnReverse p = true ∧ aflSerialization p = "String"
  | PtrDefaultValue p => advExistsOn p = SideHub ∨ advExistsOn p = SideSpoke
  | PtrConstant p => acnExistsOn p = SideHub ∨ acnExistsOn p = SideSpoke
  | PtrDelete p => adlExistsOn p = SideHub ∨ adlExistsOn p = SideSpoke
  | PtrMapKeyRename p => good_renames (amrRenames p)
  | PtrNumericScale _ | PtrForEach _ | PtrBranchMap _ => False
  | _ => True
  end.

Lemma invertKeyNames_id paths (kn : gmap string string) :
  (∀ k, is_Some (kn !! k) → k ∈ paths) → invertKeyNames paths kn = kn.
Proof.
  intros Hk. assert (∀ (out : gmap string string) k, out ⊆ kn → (is_Some (kn !! k) → k ∈ paths ∨ is_Some (out !! k)) →
    foldl (λ out p, match kn !! p with Some v => <[p := v]> out | None => out end) out paths !! k = kn !! k) as H.
  { clear Hk. induction paths as [|p paths IH]; intros out k Hsub Hin; cbn.
    - destruct (kn !! k) as [v|] eqn:E.
      + destruct Hin as [?%not_elem_of_nil|[v' Hv']]; [eauto|done|]. rewrite Hv'.
        eapply map_subseteq_spec in Hsub; [|done]. congruence.
      + destruct (out !! k) as [v'|] eqn:E'; [|done]. eapply map_subseteq_spec in Hsub; [|done]. congruence.
    - apply IH.
      + destruct (kn !! p) eqn:E; [|done]. by apply insert_subseteq_l.
      + intros Hs. destruct (Hin Hs) as [[->|?]%elem_of_cons|Ho]; [|by left|].
        * right. destruct Hs as [v Hv]. rewrite Hv. by rewrite lookup_insert_eq.
        * right. destruct (kn !! p); [|done]. by apply lookup_insert_is_Some'; right. }
  apply map_eq; intros k. apply H; [apply map_empty_subseteq|]. auto.
Qed.

Section mirror.
Context `{RO : RangeOrder} `{EX : Externs} `{CX : CompileExterns}.

Definition compiled_rule (p : rule_pointer) (P : RuleParams) (ack : bool) (reason : string) (i : Z)
    (w : option Rules.RuleWhen) : Rule := mkRule (pointer_strategy p) P ack reason i w.

Lemma flip_one m m' :
  convert_mapping m = Ok m' →
  convert_mapping {| aemHub := aemSpoke m; aemSpoke := aemHub m |} = Ok (flip_mapping m').
Proof.
  unfold convert_mapping. cbn.
  destruct (jsonToAny (aemHub m)), (jsonToAny (aemSpoke m)); cbn; try done. by intros [= <-].
Qed.

Lemma convert_mapping_flip l l' :
  res_mapM convert_mapping l = Ok l' →
  res_mapM convert_mapping ((λ m, {| aemHub := aemSpoke m; aemSpoke := aemHub m |}) <$> l) = Ok (flip_mapping <$> l').
Proof.
  revert l'; induction l as [|m l IH]; intros l'; cbn; [by intros [= <-]|].
  destruct (convert_mapping m) as [m'|] eqn:Em; cbn; [|done].
  destruct (res_mapM convert_mapping l) as [k|]; cbn; [|done]. intros [= <-].
  by rewrite (flip_one _ _ Em), (IH _ eq_refl).
Qed.

Lemma answers_enum idx p hub spoke :
  answers (resolveEnumRemap idx p hub spoke)
    (Some (remapEnumOp (erPath p) (enum_tables (erMapping p)).1 (default_policy (erOnUnmappedHubValue p))),
     Some (remapEnumOp (erPath p) (enum_tables (erMapping p)).2 (default_policy (erOnUnmappedSpokeValue p))),
     lossy (bool_decide (default_policy (erOnUnmappedHubValue p) = UnknownKeyError))
           (bool_decide (default_policy (erOnUnmappedSpokeValue p) = UnknownKeyError) && enum_injective (erMapping p)))
    (join_claims (on Hub {[path_string (erPath p)]}) (on Spoke {[path_string (erPath p)]})).
Proof.
  unfold resolveEnumRemap. destruct (enum_tables (erMapping p)) as [t u]. eapply answers_weaken; [solve_answers|].
  intros sd. unfold join_claims, no_claims. set_solver.
Qed.

Lemma dedup_keys l (seen : list FieldPath) (k : string) :
  k ∈ path_string <$> foldl (λ seen q, if bool_decide (path_string q ∈ path_string <$> seen) then seen else seen ++ [q])
    seen l ↔ k ∈ path_string <$> seen ∨ k ∈ path_string <$> l.
Proof.
  revert seen; induction l as [|q l IH]; intros seen; cbn; [set_solver|].
  rewrite IH. case_bool_decide; [set_solver|]. rewrite fmap_app. set_solver.
Qed.

(** The paths a patch mentions. *)
Definition patch_paths (ops : list Rules.JSONPatchOp) : list FieldPath :=
  let '(_, _, all, _) := parsePatch ops in all.
Definition patch_op (ops : list Rules.JSONPatchOp) : Op :=
  let '(patch, dest, _, _) := parsePatch ops in jsonPatchOp patch dest.

Lemma answers_json_patch idx p :
  answers (resolveJSONPatch idx p)
    (Some (patch_op (jpHubToSpoke p)), Some (patch_op (jpSpokeToHub p)), lossy (jpLosslessOverride p) (jpLosslessOverride p))
    (λ _, list_to_set (path_string <$> (patch_paths (jpHubToSpoke p) ++ patch_paths (jpSpokeToHub p)))).
Proof.
  unfold resolveJSONPatch, patch_op, patch_paths.
  destruct (parsePatch (jpHubToSpoke p)) as [[[h2s d1] a1] e1], (parsePatch (jpSpokeToHub p)) as [[[s2h d2] a2] e2].
  eapply answers_weaken.
  - eapply answers_bind; [apply answers_patch_error|]. eapply answers_bind; [apply answers_patch_error|].
    eapply answers_bind; [apply answers_warn|]. eapply answers_bind; [|apply answers_ret].
    apply (answers_iter _ (λ q, join_claims (on Hub {[path_string q]}) (on Spoke {[path_string q]}))).
    intros q. eapply answers_bind; apply answers_claim.
  - intros sd. apply set_eq; intros k. unfold join_claims, no_claims, all_claims.
    rewrite elem_of_list_to_set. pose proof (dedup_keys (a1 ++ a2) [] k) as Hk.
    transitivity (k ∈ path_string <$> (a1 ++ a2)); [|done].
    transitivity (k ∈ path_string <$> foldl (λ seen q, if bool_decide (path_string q ∈ path_string <$> seen)
                                                       then seen else seen ++ [q]) [] (a1 ++ a2)); [|set_solver].
    generalize (foldl (λ seen q, if bool_decide (path_string q ∈ path_string <$> seen) then seen else seen ++ [q])
      [] (a1 ++ a2)). intros l. clear Hk. unfold on. induction l as [|q l IH]; [set_solver|].
    cbn. destruct sd; cbn in *; set_solver.
Qed.

Lemma mirror_string_integer name hp sp mk :
  mirrored (λ idx hub spoke _ _, resolveStringIntegerPair idx name hp sp hub spoke mk)
           (λ idx hub spoke _ _, resolveStringIntegerPair idx name sp hp hub spoke mk).
Proof.
  intros hub spoke pol depth.
  pose proof (λ idx, answers_string_integer idx name hp sp hub spoke mk) as H1.
  pose proof (λ idx, answers_string_integer idx name sp hp spoke hub mk) as H2.
  cbn in H1, H2. destruct (kind_of hub hp), (kind_of spoke sp); cbn in H1, H2;
    do 6 eexists; (split_and!; [exact H1|exact H2|]);
    intros []; unfold join_claims, on; cbn; set_solver.
Qed.

#[local] Hint Unfold resolveFieldRename resolveScalarToObject resolveObjectToScalar resolveSingletonArrayToObject
  resolveFieldsToMap resolveMapToFields resolveToMetadata resolveFromMetadata resolveEnumRemap resolveDefaultValue
  resolveConstant resolveDelete resolveJSONPatch resolveTypeCoerce resolveScalarToFields resolveFieldsToScalar
  resolveArrayToMapByKey resolveMapToArrayByKey resolveListJoin resolveListSplit
  resolveMapKeyRename resolveCEL : resolvers.

(** One strategy: run both resolvers, then compare the claims. *)
Ltac mirror_claims :=
  intros []; unfold join_claims, all_claims, no_claims, on; cbn; set_solver.
Ltac mirror_case :=
  intros ack' reason' i' w' hub spoke pol depth; do 6 eexists;
  unfold compiled_rule; cbn [resolve_rule]; autounfold with resolvers;
  split_and!; [intros idx; solve_answers|intros idx; solve_answers|try mirror_claims].
Ltac converted HP :=
  repeat (let E := fresh in apply res_bind_Ok in HP as (? & E & HP));
  injection HP as <-; eexists _, _; split_and!; [reflexivity|reflexivity|].

Lemma mirror_map_key_rename hp sp m :
  good_renames m →
  mirrored (λ idx hub spoke _ _, resolveMapKeyRename idx {| mrHubPath := hp; mrSpokePath := sp; mrRenames := m |} hub spoke)
           (λ idx hub spoke _ _, resolveMapKeyRename idx
              {| mrHubPath := sp; mrSpokePath := hp; mrRenames := reverse_renames m |} hub spoke).
Proof.
  intros Hg hub spoke pol depth.
  assert (∀ idx name, answers (invertRenames idx name m) (reverse_renames m) no_claims) as H1
    by (intros; by apply answers_invert).
  assert (∀ idx name, answers (invertRenames idx name (reverse_renames m)) m no_claims) as H2.
  { intros. rewrite <- (reverse_renames_involutive m) at 2 by done. by apply answers_invert, reverse_renames_good. }
  do 6 eexists. unfold resolveMapKeyRename. cbn [mrHubPath mrSpokePath mrRenames].
  split_and!; [intros idx; solve_answers|intros idx; solve_answers|mirror_claims].
Qed.

Lemma mirror_pointer p P nested branches ninv nested' branches' ack reason i w :
  faithful_pointer p → convert_pointer p nested branches = Ok P →
  ∃ p' P', invert_pointer p ninv = Ok p' ∧ convert_pointer p' nested' branches' = Ok P' ∧
    ∀ ack' reason' i' w',
      mirrored (resolve_rule (compiled_rule p P ack reason i w))
               (resolve_rule (compiled_rule p' P' ack' reason' i' w')).
Proof.
  destruct p as [p|p|p|p|p|p|p|p|p|p|p|p|p|p|p|p|p|p|p|p|p|p|p|p|p|p|p|p|p|p];
    cbn [faithful_pointer convert_pointer convert_value convert_container]; intros Hf HP; try done.
  - converted HP. mirror_case.
  - apply res_bind_Ok in HP as (d & Hd & [= <-]). eexists _, _. split_and!; [done|cbn; by rewrite Hd|]. mirror_case.
  - apply res_bind_Ok in HP as (d & Hd & [= <-]). eexists _, _. split_and!; [done|cbn; by rewrite Hd|]. mirror_case.
  - converted HP. mirror_case.
  - converted HP. mirror_case.
  - injection HP as <-. eexists _, _. split_and!; [cbn; by rewrite invertKeyNames_id|done|]. mirror_case.
  - injection HP as <-. eexists _, _. split_and!; [cbn; by rewrite invertKeyNames_id|done|]. mirror_case.
  - destruct p as [h k ser ror]; cbn in Hf; subst. converted HP. mirror_case.
  - destruct p as [h k ser ror]; cbn in Hf; destruct Hf as [-> ->]. converted HP. mirror_case.
  - destruct p as [h k ser ror]; cbn in Hf; subst. converted HP. mirror_case.
  - destruct p as [h k ser ror]; cbn in Hf; destruct Hf as [-> ->]. cbn in HP. converted HP. mirror_case.
  - apply res_bind_Ok in HP as (l & Hl & [= <-]). eexists _, _.
    split_and!; [done|cbn; by rewrite (convert_mapping_flip _ _ Hl)|].
    intros ack' reason' i' w' hub spoke pol depth. do 6 eexists.
    split_and!; [intros idx; apply answers_enum| |].
    + intros idx. pose proof (answers_enum idx {| erPath := ParsePath (aerPath p); erMapping := flip_mapping <$> l;
        erOnUnmappedHubValue := orDefault (aerOnUnmappedSpokeValue p) UnknownKeyError;
        erOnUnmappedSpokeValue := orDefault (aerOnUnmappedHubValue p) UnknownKeyError |} spoke hub) as He.
      cbn [erPath erMapping] in He. rewrite enum_tables_flip in He. apply He.
    + mirror_claims.
  - apply res_bind_Ok in HP as (d & Hd & [= <-]). eexists _, _. split_and!; [done|cbn; by rewrite Hd|].
    destruct p as [h ex d']; cbn in Hf; destruct Hf as [-> | ->]; mirror_case.
  - apply res_bind_Ok in HP as (d & Hd & [= <-]). eexists _, _. split_and!; [done|cbn; by rewrite Hd|].
    destruct p as [h ex d']; cbn in Hf; destruct Hf as [-> | ->]; mirror_case.
  - destruct p as [h ex]; cbn in Hf; destruct Hf as [-> | ->]; converted HP; mirror_case.
  - apply res_bind_Ok in HP as (l1 & H1 & HP). apply res_bind_Ok in HP as (l2 & H2 & [= <-]).
    eexists _, _. split_and!; [done|cbn [convert_pointer convert_value ajpHubToSpoke ajpSpokeToHub]; rewrite H2; cbn [mbind res_bind]; by rewrite H1|].
    intros ack' reason' i' w' hub spoke pol depth. do 6 eexists.
    split_and!; [intros idx; apply answers_json_patch|intros idx; apply answers_json_patch|].
    intros sd. cbn. rewrite !fmap_app, !list_to_set_app_L. by rewrite (comm_L _ (list_to_set _)).
  - converted HP. mirror_case.
  - converted HP. mirror_case.
  - converted HP. mirror_case.
  - converted HP. mirror_case.
  - converted HP. mirror_case.
  - converted HP. mirror_case.
  - converted HP. mirror_case.
  - converted HP. intros. apply mirror_string_integer.
  - converted HP. intros. apply mirror_string_integer.
  - converted HP. intros ack' reason' i' w'. unfold compiled_rule. cbn [resolve_rule]. by apply mirror_map_key_rename.
  - converted HP. mirror_case.
Qed.

(** ** Mirrored rule lists *)

Lemma selected_rule_of p ack reason w : selected (rule_of p ack reason w) = Some (Some p).
Proof. by destruct p. Qed.

Lemma selected_strategy r p : selected r = Some (Some p) → crStrategy r = pointer_strategy p.
Proof.
  unfold selected. cbv zeta. intros H.
  repeat (case_bool_decide as Hs; [rewrite Hs; match type of H with Some (_ <$> ?o) = _ => destruct o end;
    cbn in H; [by injection H as <-|discriminate H]|clear Hs]).
  discriminate H.
Qed.

Lemma InvertRule_eq r : ∃ nested, InvertRule r = invert_selected r nested.
Proof. destruct r. by eexists. Qed.
Lemma convertParams_eq r : ∃ nested branches, convertParams r = convert_selected r nested branches.
Proof. destruct r. by eexists _, _. Qed.

(** A rule whose inverse mirrors it. *)
Definition faithful_rule (r : ConversionRule) : Prop := ∃ p, selected r = Some (Some p) ∧ faithful_pointer p.

Lemma mirror_rule i r R :
  faithful_rule r → convert_rule i r (convertParams r) = Ok R →
  ∃ r' R', InvertRule r = Ok r' ∧ convert_rule i r' (convertParams r') = Ok R' ∧
    rWhen R' = rWhen R ∧ mirrored (resolve_rule R) (resolve_rule R').
Proof.
  intros (p & Hsel & Hf) HR. unfold convert_rule in HR. apply res_bind_Ok in HR as (P & HP & HR).
  apply res_bind_Ok in HR as (w & Hw & [= <-]). apply res_wrap_Ok in HP, Hw.
  destruct (convertParams_eq r) as (nested & branches & Hc), (InvertRule_eq r) as (ninv & Hi).
  rewrite Hc in HP. unfold convert_selected in HP. rewrite Hsel in HP.
  unfold invert_selected in Hi. rewrite Hsel in Hi.
  set (mk p' := rule_of p' (crAcknowledgeLossy r) (crReason r) (crWhen r)).
  assert (∀ p', ∃ nested' branches', convertParams (mk p') = convert_pointer p' nested' branches') as Hc'.
  { intros p'. destruct (convertParams_eq (mk p')) as (n' & b' & ->). exists n', b'.
    unfold convert_selected, mk. by rewrite selected_rule_of. }
  rewrite (selected_strategy _ _ Hsel).
  destruct (mirror_pointer p P nested branches ninv (Ok []) [] (crAcknowledgeLossy r) (crReason r) (Z.of_nat i) w Hf HP)
    as (p' & _ & Hinv & _ & _).
  destruct (Hc' p') as (nested' & branches' & Hp').
  destruct (mirror_pointer p P nested branches ninv nested' branches' (crAcknowledgeLossy r) (crReason r)
    (Z.of_nat i) w Hf HP) as (p'' & P' & Hinv' & Hconv & Hmir).
  rewrite Hinv in Hinv'. injection Hinv' as <-.
  exists (mk p'), (mkRule (pointer_strategy p') P' (crAcknowledgeLossy r) (crReason r) (Z.of_nat i) w).
  split_and!; [by rewrite Hi, Hinv| |done|apply Hmir].
  unfold convert_rule. rewrite Hp', Hconv. cbn. rewrite Hw. cbn. by destruct p'.
Qed.

Lemma mirror_rules i rules rs :
  Forall faithful_rule rules → convert_rules_from i rules = Ok rs →
  ∃ inv rs', Forall2 (λ r r', InvertRule r = Ok r') rules inv ∧ convert_rules_from i inv = Ok rs' ∧
    Forall2 (λ R R', rWhen R' = rWhen R ∧ mirrored (resolve_rule R) (resolve_rule R')) rs rs'.
Proof.
  intros Hf. revert i rs; induction Hf as [|r rules Hr _ IH]; intros i rs; cbn.
  { intros [= <-]. exists [], []. by repeat constructor. }
  intros (R & HR & H)%res_bind_Ok. apply res_bind_Ok in H as (rs1 & Hrs & [= <-]).
  destruct (mirror_rule i r R Hr HR) as (r' & R' & Hi & Hc & Hw & Hm).
  destruct (IH _ _ Hrs) as (inv & rs' & Hinv & Hconv & Hmir).
  exists (r' :: inv), (R' :: rs'). split_and!; [by constructor| |by repeat constructor].
  cbn. rewrite Hc. cbn. by rewrite Hconv.
Qed.

Lemma InvertRules_Forall2 rules inv : Forall2 (λ r r', InvertRule r = Ok r') rules inv → InvertRules rules = Ok inv.
Proof.
  unfold InvertRules, each_rule. intros H.
  assert (∀ f, res_mapM (λ '(i, r), res_wrap (InRules i) (InvertRule r)) (imap (λ i, pair (f i)) rules) = Ok inv) as Hf;
    [|exact (Hf id)].
  induction H as [|r r' rules inv Hr _ IH]; intros f; cbn; [done|].
  rewrite Hr. unfold compose. cbn. specialize (IH (λ i, f (S i))). cbn in IH. by rewrite IH.
Qed.
End mirror.
