(* ===== verification/RehubPlan.v ===== *)
(** The plan compiled from inverted rules.

    Exchanging the two schemas and inverting the rules exchanges the plan's two
    operation lists, up to the order of the copies of undisturbed leaves; so the
    new plan converts as the old one did, in the other direction. *)
From S2P Require Import Prelude Float64 Value Json Duration Path Schema Rules Coerce Passthrough Ops Convert OpsTheory Diagnostics Compile CompileTheory PlanTheory EndToEnd Api Rehub RehubTheory Normalize Platform Required Analyze.

(** ** The known tree of a pair does not depend on which side is the hub *)

Lemma kt_eq t u : kt_children t = kt_children u → t = u.
Proof. destruct t, u. cbn. by intros ->. Qed.

Lemma known_children s k c :
  kt_children (buildKnownTree' s) !! k = Some c → ∃ p, sProperties s !! k = Some p ∧ c = buildKnownTree' p.
Proof.
  destruct s. cbn. destruct (classify _) as [kind opaque]. destruct (_ || _); cbn; [by rewrite lookup_empty|].
  intros (p & <- & Hp)%lookup_fmap_Some. eauto.
Qed.

Lemma merge_known_comm s t :
  mergeKnownTrees (buildKnownTree' s) t = mergeKnownTrees t (buildKnownTree' s).
Proof.
  revert t; induction s as [s IH] using schema_prop_ind; intros t.
  destruct (kt_terminal (buildKnownTree' s)) eqn:Hs; [by rewrite !mergeKnownTrees_terminal by auto|].
  destruct (kt_terminal t) eqn:Ht; [by rewrite !mergeKnownTrees_terminal by auto|].
  apply kt_eq, map_eq; intros k. rewrite !mergeKnownTrees_children by done.
  destruct (kt_children (buildKnownTree' s) !! k) as [c|] eqn:Hc, (kt_children t !! k) as [d|]; try done.
  apply known_children in Hc as (p & Hp & ->). by rewrite (IH _ _ Hp).
Qed.

(** ** The copies of undisturbed leaves *)

Section scan.
Context `{RO : RangeOrder}.

(** Distinct leaves have distinct paths. *)
Lemma flattenInto_NoDup s p r : NoDup (lfPath <$> flattenInto s p r).
Proof.
  revert p r; induction s as [s IH] using schema_prop_ind; intros p r.
  destruct (shapeOf s) as [o c| |] eqn:Hs.
  - rewrite (flattenInto_leaf s p r o c) by done. cbn. apply NoDup_singleton.
  - rewrite flattenInto_empty by done. constructor.
  - rewrite flattenInto_structured by done.
    assert (∀ k f, (k, f) ∈ range (flattenInto <$> sProperties s) →
      ∃ c, sProperties s !! k = Some c ∧ f = flattenInto c) as Hin.
    { intros k f H%elem_of_range. rewrite lookup_fmap_Some in H. destruct H as (c & <- & ?). eauto. }
    pose proof (NoDup_range_fst (flattenInto <$> sProperties s)) as Hnd.
    induction (range (flattenInto <$> sProperties s)) as [|[k f] l IHl]; [constructor|].
    cbn in Hnd |- *. apply NoDup_cons in Hnd as [Hk Hnd]. rewrite fmap_app. apply NoDup_app. split_and!.
    + destruct (Hin k f) as (c & Hc & ->); [by left|]. by apply (IH k c).
    + intros q Hq Hq'. apply Hk. apply list_elem_of_fmap in Hq as (a & -> & Ha).
      apply list_elem_of_fmap in Hq' as (b & Hab & Hb).
      apply elem_of_concat in Hb as (L & HL & Hb). apply list_elem_of_fmap in HL as ([k' f'] & -> & Hkf).
      destruct (Hin k f) as (c & Hc & ->); [by left|]. destruct (Hin k' f') as (c' & Hc' & ->); [by right|].
      apply flattenInto_prefix in Ha as [qa Ha]. apply flattenInto_prefix in Hb as [qb Hb].
      rewrite Ha, Hb, <-!(assoc_L (++)) in Hab. apply (inj (p ++.)) in Hab. injection Hab as -> _.
      apply list_elem_of_fmap. by exists (k', flattenInto c').
    + apply IHl; [intros; apply Hin; by right|done].
Qed.

Lemma leaf_texts_NoDup s : plain_schema s → NoDup ((λ l, path_string (lfPath l)) <$> flattenSchema s).
Proof.
  intros Hs. pose proof (flattenInto_NoDup s [] []) as Hnd. fold (flattenSchema s) in Hnd.
  unfold plain_schema in Hs. induction (flattenSchema s) as [|l ls IH]; cbn in *; [constructor|].
  apply NoDup_cons in Hnd as [Hl Hnd]. constructor; [|apply IH; [intros; apply Hs; by right|done]].
  intros (l' & Heq & Hl')%list_elem_of_fmap. apply Hl. apply list_elem_of_fmap. exists l'. split; [|done].
  destruct (Hs l ltac:(by left)) as [(?&?&_) _], (Hs l' ltac:(by right)) as [(?&?&_) _]. by apply path_string_inj.
Qed.
End scan.

Section copies.
Context `{RO : RangeOrder}.

Abbreviation text l := (path_string (lfPath l)).

(** What the scan copies under both names: unclaimed, on both sides, same shape. *)
Definition copied_leaf (m : gmap string LeafField) (b : build) (l : LeafField) : bool :=
  bool_decide (text l ∉ bHub b) &&
  match m !! text l with
  | Some sl => bool_decide (text l ∉ bSpoke b) && same_shape sl l
  | None => false
  end.

Lemma scan_hub_leaf_ops pol m b l :
  let b' := scan_hub_leaf pol m b l in
  let ops := if copied_leaf m b l then [identityOp (lfPath l)] else [] in
  bH2S b' = bH2S b ++ ops ∧ bS2H b' = bS2H b ++ ops ∧
  ∀ k, k ≠ text l → (k ∈ bHub b' ↔ k ∈ bHub b) ∧ (k ∈ bSpoke b' ↔ k ∈ bSpoke b).
Proof.
  unfold scan_hub_leaf, copied_leaf. destruct (decide (text l ∈ bHub b)) as [Hc|Hc].
  { rewrite (bool_decide_true (text l ∈ bHub b)), (bool_decide_false (text l ∉ bHub b)) by tauto. cbn.
    by rewrite !app_nil_r. }
  rewrite (bool_decide_false (text l ∈ bHub b)), (bool_decide_true (text l ∉ bHub b)) by done. cbn.
  destruct (m !! text l) as [sl|]; [|cbn; by rewrite !app_nil_r].
  destruct (bool_decide (text l ∉ bSpoke b)); cbn; [|by rewrite !app_nil_r].
  destruct (same_shape sl l); cbn; [|by rewrite !app_nil_r].
  split_and!; [done..|]. intros k Hk. split; set_solver.
Qed.

Lemma copied_leaf_ext m b b' l :
  (text l ∈ bHub b' ↔ text l ∈ bHub b) → (text l ∈ bSpoke b' ↔ text l ∈ bSpoke b) →
  copied_leaf m b' l = copied_leaf m b l.
Proof.
  intros H1 H2. unfold copied_leaf. rewrite (bool_decide_ext (text l ∉ bHub b') (text l ∉ bHub b)) by (by rewrite H1).
  by rewrite (bool_decide_ext (text l ∉ bSpoke b') (text l ∉ bSpoke b)) by (by rewrite H2).
Qed.

Definition copies (m : gmap string LeafField) (b : build) (ls : list LeafField) : list LeafField :=
  filter (λ l, copied_leaf m b l = true) ls.

Lemma scan_hub_ops pol m b0 ls b :
  NoDup ((λ l, text l) <$> ls) → (∀ l, l ∈ ls → copied_leaf m b l = copied_leaf m b0 l) →
  let b' := foldl (scan_hub_leaf pol m) b ls in
  let ops := (λ l, identityOp (lfPath l)) <$> copies m b0 ls in
  bH2S b' = bH2S b ++ ops ∧ bS2H b' = bS2H b ++ ops.
Proof.
  revert b; induction ls as [|l ls IH]; intros b Hnd Hb; [cbn; by rewrite !app_nil_r|].
  cbn [foldl]. cbv zeta in *. cbn in Hnd. apply NoDup_cons in Hnd as [Hl Hnd].
  destruct (scan_hub_leaf_ops pol m b l) as (H1 & H2 & Hk). set (b1 := scan_hub_leaf pol m b l) in *.
  destruct (IH b1 Hnd) as [-> ->].
  { intros l' Hl'. rewrite <- Hb by (by right). assert (text l' ≠ text l) as Hne.
    { intros E. apply Hl. rewrite <- E. by apply (list_elem_of_fmap_2 (λ l, text l)). }
    apply copied_leaf_ext; by apply Hk. }
  rewrite H1, H2. unfold copies. rewrite filter_cons, <- Hb by (by left).
  destruct (copied_leaf m b l); [rewrite decide_True by done|rewrite decide_False by done]; cbn;
    by rewrite <- ?app_assoc.
Qed.

Lemma scan_spoke_ops pol ls b :
  let b' := foldl (scan_spoke_leaf pol) b ls in bH2S b' = bH2S b ∧ bS2H b' = bS2H b.
Proof.
  revert b; induction ls as [|l ls IH]; intros b; cbn; [done|]. destruct (IH (scan_spoke_leaf pol b l)) as [-> ->].
  unfold scan_spoke_leaf. by case_bool_decide.
Qed.

(** The copied leaves of a pair, and those of the pair exchanged. *)
Definition pair_copies (hub spoke : JSONSchemaProps) (b : build) : list FieldPath :=
  lfPath <$> copies (leaves_by_path (flattenSchema spoke)) b (flattenSchema hub).

Lemma build_with_ops rules hub spoke pol depth :
  plain_schema hub →
  let b0 := rule_loop hub spoke pol depth 0 rules empty_build in
  let b := build_with rules hub spoke pol depth in
  let tail := (identityOp <$> pair_copies hub spoke b0) ++
              [passthroughUnknownOp (mergeKnownTrees (buildKnownTree' hub) (buildKnownTree' spoke))] in
  bH2S b = bH2S b0 ++ tail ∧ bS2H b = bS2H b0 ++ tail.
Proof.
  intros Hh b0 b tail. subst b. unfold build_with. fold b0. unfold add_passthrough, scan_leftovers. cbn.
  destruct (scan_spoke_ops pol (flattenSchema spoke)
    (foldl (scan_hub_leaf pol (leaves_by_path (flattenSchema spoke))) b0 (flattenSchema hub))) as [-> ->].
  destruct (scan_hub_ops pol (leaves_by_path (flattenSchema spoke)) b0 (flattenSchema hub) b0
    (leaf_texts_NoDup hub Hh) ltac:(done)) as [-> ->].
  subst tail. unfold pair_copies. rewrite <- list_fmap_compose, <- !app_assoc. done.
Qed.

Lemma leaves_by_path_unique ls l :
  NoDup ((λ l, text l) <$> ls) → l ∈ ls → leaves_by_path ls !! text l = Some l.
Proof.
  unfold leaves_by_path. intros Hnd Hl. generalize (∅ : gmap string LeafField) as m. revert Hl.
  induction ls as [|l' ls IH]; intros Hl m; [by apply not_elem_of_nil in Hl|].
  cbn in Hnd |- *. apply NoDup_cons in Hnd as [Hl' Hnd].
  apply elem_of_cons in Hl as [->|Hl]; [|by apply IH].
  assert (∀ m : gmap string LeafField, m !! text l' = Some l' →
    foldl (λ m l, <[text l := l]> m) m ls !! text l' = Some l') as Hkeep.
  { clear IH m Hnd. induction ls as [|l ls IH]; intros m Hm; cbn; [done|].
    cbn in Hl'. apply not_elem_of_cons in Hl' as [Hne Hl']. apply IH; [done|].
    rewrite lookup_insert_ne; [done|]. intros E. by apply Hne. }
  apply Hkeep. by rewrite lookup_insert_eq.
Qed.

Lemma same_shape_sym a b : same_shape a b = same_shape b a.
Proof.
  unfold same_shape. f_equal; [f_equal|]; apply bool_decide_ext; split; intros; congruence.
Qed.
End copies.

(** ** The mirrored plan *)

Section plan.
Context `{RO : RangeOrder} `{EX : Externs} `{CX : CompileExterns}.

Abbreviation text l := (path_string (lfPath l)).

Lemma elem_of_pair_copies hub spoke b p :
  plain_schema spoke →
  p ∈ pair_copies hub spoke b ↔
  ∃ hl sl, hl ∈ flattenSchema hub ∧ sl ∈ flattenSchema spoke ∧ lfPath hl = p ∧ text sl = text hl ∧
    text hl ∉ bHub b ∧ text hl ∉ bSpoke b ∧ same_shape sl hl = true.
Proof.
  intros Hs. unfold pair_copies, copies. rewrite list_elem_of_fmap.
  setoid_rewrite list_elem_of_filter. unfold copied_leaf. split.
  - intros (hl & -> & Hc & Hl). apply andb_true_iff in Hc as [H1%bool_decide_eq_true Hc].
    destruct (leaves_by_path _ !! text hl) as [sl|] eqn:E; [|done].
    apply andb_true_iff in Hc as [H2%bool_decide_eq_true H3].
    apply leaves_by_path_lookup in E as [Hsl E]. exists hl, sl. by split_and!.
  - intros (hl & sl & Hl & Hsl & <- & E & H1 & H2 & H3). exists hl. split_and!; [done| |done].
    rewrite <- E, (leaves_by_path_unique _ sl) by (done || by apply leaf_texts_NoDup). rewrite E.
    by rewrite !bool_decide_true by done.
Qed.

Lemma NoDup_pair_copies hub spoke b : NoDup (pair_copies hub spoke b).
Proof.
  unfold pair_copies, copies. eapply sublist_NoDup; [apply (flattenInto_NoDup hub [] [])|].
  apply fmap_sublist, sublist_filter.
Qed.

(** A build of the exchanged pair. *)
Definition mirrored_build (b b' : build) : Prop :=
  bHub b' = bSpoke b ∧ bSpoke b' = bHub b ∧ bH2S b' = bS2H b ∧ bS2H b' = bH2S b.

Lemma pair_copies_mirrored hub spoke b b' :
  plain_schema hub → plain_schema spoke → mirrored_build b b' →
  pair_copies spoke hub b' ≡ₚ pair_copies hub spoke b.
Proof.
  intros Hh Hs (H1 & H2 & _). apply NoDup_Permutation; [apply NoDup_pair_copies..|]. intros p.
  rewrite !elem_of_pair_copies, H1, H2 by done.
  split; intros (hl & sl & Hl & Hsl & Hp & E & ? & ? & ?); exists sl, hl; rewrite !E; split_and!; try done;
    try (by rewrite same_shape_sym); rewrite <- Hp.
  - by eapply (plain_inj hub spoke).
  - symmetry. by eapply (plain_inj hub spoke).
Qed.

Lemma rule_loop_mirrored hub spoke pol depth idx rs rs' b b' :
  Forall2 (λ R R', rWhen R' = rWhen R ∧ mirrored (resolve_rule R) (resolve_rule R')) rs rs' →
  mirrored_build b b' →
  mirrored_build (rule_loop hub spoke pol depth idx (with_resolvers rs) b)
                 (rule_loop spoke hub pol depth idx (with_resolvers rs') b').
Proof.
  intros Hrs. revert idx b b'; induction Hrs as [|R R' rs rs' [Hw Hm] _ IH]; intros idx b b' Hb; cbn; [done|].
  apply IH. unfold rule_step.
  destruct (Hm hub spoke pol depth) as (h2s & s2h & v & v' & K & K' & Ha & Ha' & HK).
  destruct Hb as (Hb1 & Hb2 & Hb3 & Hb4).
  specialize (Ha idx {| csHub := bHub b; csSpoke := bSpoke b; csDiags := [] |}).
  specialize (Ha' idx {| csHub := bHub b'; csSpoke := bSpoke b'; csDiags := [] |}).
  destruct (resolve_rule R idx hub spoke pol depth _) as [[[x y] z] st].
  destruct (resolve_rule R' idx spoke hub pol depth _) as [[[x' y'] z'] st'].
  destruct Ha as [[= -> -> ->] Hc], Ha' as [[= -> -> ->] Hc'].
  pose proof (Hc Hub) as Hc1. pose proof (Hc Spoke) as Hc2. pose proof (Hc' Hub) as Hc1'. pose proof (Hc' Spoke) as Hc2'.
  cbn in Hc1, Hc2, Hc1', Hc2'. rewrite HK in Hc1', Hc2'. cbn in Hc1', Hc2'.
  assert (∃ ds ds' h s, apply_when idx R hub spoke h2s s2h = (ds, h, s) ∧
    apply_when idx R' spoke hub s2h h2s = (ds', s, h)) as (ds & ds' & h & s & -> & ->).
  { unfold apply_when, when_lookup_diags. rewrite Hw. destruct (rWhen R) as [w|]; [|by eexists _, _, _, _].
    case_bool_decide; [by eexists _, _, _, _|].
    destruct (lookupPath hub (whPath w)), (lookupPath spoke (whPath w)); by eexists _, _, _, _. }
  unfold mirrored_build. cbn. rewrite Hc1, Hc2, Hc1', Hc2', Hb1, Hb2, Hb3, Hb4. done.
Qed.

Lemma apply_ops_middle a ids ids' z ctx c :
  ids ≡ₚ ids' → ForallOrdPairs path_disjoint ids → cache_ok ctx →
  apply_ops (a ++ (identityOp <$> ids) ++ z) ctx = Ok c →
  ∃ c', apply_ops (a ++ (identityOp <$> ids') ++ z) ctx = Ok c' ∧ ecOutput c' = ecOutput c.
Proof.
  intros Hp Hd Hc Hrun. unfold apply_ops in *. rewrite res_foldl_app in *.
  apply res_bind_Ok in Hrun as (c1 & H1 & Hrun). rewrite H1. cbn [mbind res_bind]. rewrite res_foldl_app in *.
  apply res_bind_Ok in Hrun as (c2 & H2 & Hrun).
  destruct (apply_ops_spec a ctx c1 H1 Hc) as (_ & _ & _ & _ & Hc1).
  destruct (apply_ops_perm (identityOp <$> ids) (identityOp <$> ids')) with (ctx := c1) (c := c2)
    as (c2' & H2' & Ho & Hi & Hc2'); [by rewrite Hp| | |done|done|].
  { apply Forall_fmap, Forall_forall. done. }
  { clear -Hd. induction Hd as [|p ids Hp Hd IH]; cbn; constructor; [|done].
    apply Forall_fmap. eapply Forall_impl; [exact Hp|]. intros q Hq x y. cbn. by intros -> ->. }
  unfold apply_ops in H2'. rewrite H2'. cbn [mbind res_bind].
  destruct (apply_ops_spec (identityOp <$> ids) c1 c2 H2 Hc1) as (_ & _ & _ & _ & Hc2).
  destruct (apply_ops_cache z c2 c2') with (c1 := c) as (c' & Hr & Ho' & _); [done..|].
  exists c'. by split.
Qed.

Definition opposite (dir : Direction) : Direction :=
  match dir with HubToSpoke => SpokeToHub | SpokeToHub => HubToSpoke end.

Lemma Convert_middle dir a ids ids' z p p' o o' :
  ids ≡ₚ ids' → ForallOrdPairs path_disjoint ids →
  plan_ops p dir = a ++ (identityOp <$> ids) ++ z → plan_ops p' (opposite dir) = a ++ (identityOp <$> ids') ++ z →
  Convert (Some p) dir o = Ok o' → Convert (Some p') (opposite dir) o = Ok o'.
Proof.
  intros Hp Hd H1 H2 Hrun. unfold Convert in *. rewrite H1 in Hrun. rewrite H2.
  destruct (apply_ops (a ++ _) _) as [c|] eqn:Hr; cbn in Hrun; [|done]. injection Hrun as <-.
  destruct (apply_ops_middle _ _ _ _ _ _ Hp Hd (cache_ok_new _ _) Hr) as (c' & -> & E). cbn. by rewrite E.
Qed.

Lemma pair_copies_disjoint hub spoke b :
  plain_schema hub → plain_schema spoke → ForallOrdPairs path_disjoint (pair_copies hub spoke b).
Proof.
  intros Hh Hs. apply (leaves_disjoint hub).
  - apply Forall_forall. intros p (hl & sl & Hl & _ & <- & _)%elem_of_pair_copies; [|done].
    by apply list_elem_of_fmap_2.
  - assert (∀ p, p ∈ pair_copies hub spoke b → ∃ l, l ∈ flattenSchema hub ∧ lfPath l = p) as Hin.
    { intros p (hl & sl & Hl & _ & Hp & _)%elem_of_pair_copies; [eauto|done]. }
    pose proof (NoDup_pair_copies hub spoke b) as Hnd.
    induction Hnd as [|p ps Hp Hnd IH]; cbn; constructor; [|apply IH; intros; apply Hin; by right].
    intros (q & E & Hq)%list_elem_of_fmap. apply Hp.
    destruct (Hin p ltac:(by left)) as (l & Hl & Elp), (Hin q ltac:(by right)) as (l' & Hl' & Elq). subst.
    by rewrite (plain_inj hub hub l l').
Qed.

Lemma mirrored_sym r r' : mirrored r r' → mirrored r' r.
Proof.
  intros Hm hub spoke pol depth. destruct (Hm spoke hub pol depth) as (h2s & s2h & v & v' & K & K' & Ha & Ha' & HK).
  exists s2h, h2s, v', v, K', K. split_and!; [done..|]. intros sd. rewrite HK. by destruct sd.
Qed.

(** Rules compiled to mirrored operations. *)
Abbreviation mirrored_rules := (Forall2 (λ R R', rWhen R' = rWhen R ∧ mirrored (resolve_rule R) (resolve_rule R'))).

Lemma mirrored_plans_convert hub spoke pol rs rs' hv sv dir o o' :
  plain_schema hub → plain_schema spoke → mirrored_rules rs rs' →
  Convert (Some (plan_of hv sv (resolveAndBuildOps rs hub spoke pol 0))) dir o = Ok o' →
  Convert (Some (plan_of sv hv (resolveAndBuildOps rs' spoke hub pol 0))) (opposite dir) o = Ok o'.
Proof.
  intros Hh Hs Hrs.
  pose proof (rule_loop_mirrored hub spoke pol 0 0 rs rs' empty_build empty_build Hrs ltac:(done)) as Hb.
  destruct (build_with_ops (with_resolvers rs) hub spoke pol 0 Hh) as [E1 E2].
  destruct (build_with_ops (with_resolvers rs') spoke hub pol 0 Hs) as [E1' E2'].
  apply (Convert_middle dir
    (match dir with HubToSpoke => bH2S | SpokeToHub => bS2H end
       (rule_loop hub spoke pol 0 0 (with_resolvers rs) empty_build))
    (pair_copies hub spoke (rule_loop hub spoke pol 0 0 (with_resolvers rs) empty_build))
    (pair_copies spoke hub (rule_loop spoke hub pol 0 0 (with_resolvers rs') empty_build))
    [passthroughUnknownOp (mergeKnownTrees (buildKnownTree' hub) (buildKnownTree' spoke))]).
  - symmetry. by apply pair_copies_mirrored.
  - by apply pair_copies_disjoint.
  - destruct dir; cbn; [exact E1|exact E2].
  - destruct Hb as (_ & _ & H3 & H4). rewrite merge_known_comm.
    destruct dir; cbn; [rewrite <- H4; exact E2'|rewrite <- H3; exact E1'].
Qed.

Lemma mirrored_plans_agree hub spoke pol rs rs' hv sv dir o o' :
  plain_schema hub → plain_schema spoke → mirrored_rules rs rs' →
  Convert (Some (plan_of hv sv (resolveAndBuildOps rs hub spoke pol 0))) dir o = Ok o' ↔
  Convert (Some (plan_of sv hv (resolveAndBuildOps rs' spoke hub pol 0))) (opposite dir) o = Ok o'.
Proof.
  intros Hh Hs Hrs. split; [by apply mirrored_plans_convert|].
  intros H. apply (mirrored_plans_convert spoke hub pol rs' rs sv hv (opposite dir)) in H; [by destruct dir|done..|].
  apply Forall2_flip. eapply Forall2_impl; [exact Hrs|]. intros R R' [Hw Hm]. split; [done|by apply mirrored_sym].
Qed.
End plan.
