(* ===== verification/Registry.v ===== *)
(** The replica's registry of compiled plans (internal/webhookserver/registry.go).

    First the contract: a map from target name to entry, and what each method does
    to it.  Then the code: an atomic pointer to a map object, entries behind
    pointers, a mutex, and the methods as the steps a goroutine takes on that
    shared store, loop iteration by loop iteration.  [RegistryTheory.v] proves
    that the second implements the first under every interleaving. *)
From S2P Require Import Prelude Float64 Value Json Path Schema Rules Coerce Passthrough Ops Convert Diagnostics.

(** A moment in nanoseconds; [None] is the zero [time.Time]. *)
Definition Time : Type := option Z.

Record CompiledEntry := {
  ceRouter : option Router;
  ceConversionReviewVersions : list string;
  ceLossless : gmap string LosslessVerdict;
  cePlanHash : string;
  ceCompiledAt : Time;
  ceLastError : string;
  ceLastErrorAt : Time;
}.

(** [CompiledEntry{}]. *)
Definition zero_entry : CompiledEntry := {|
  ceRouter := None; ceConversionReviewVersions := []; ceLossless := ∅; cePlanHash := "";
  ceCompiledAt := None; ceLastError := ""; ceLastErrorAt := None |}.

(** [updated] in [RecordError]: a copy of the existing entry, or of the zero
    entry, with the failure written on it. *)
Definition with_error (existing : option CompiledEntry) (errMsg : string) (now : Z) : CompiledEntry :=
  let e := default zero_entry existing in {|
  ceRouter := ceRouter e; ceConversionReviewVersions := ceConversionReviewVersions e;
  ceLossless := ceLossless e; cePlanHash := cePlanHash e; ceCompiledAt := ceCompiledAt e;
  ceLastError := errMsg; ceLastErrorAt := Some now |}.

(** ** The contract *)

Abbreviation registry := (gmap string CompiledEntry).

Definition NewRegistry : registry := ∅.
Definition Get (r : registry) (xrdName : string) : option CompiledEntry := r !! xrdName.
Definition Set_ (r : registry) (xrdName : string) (entry : CompiledEntry) : registry := <[xrdName := entry]> r.
Definition RecordError (r : registry) (xrdName errMsg : string) (now : Z) : registry :=
  <[xrdName := with_error (r !! xrdName) errMsg now]> r.
Definition Remove (r : registry) (xrdName : string) : registry := delete xrdName r.
Definition Snapshot (r : registry) : registry := r.
Definition Len (r : registry) : nat := size r.

(** A call, with its entry behind a pointer or not, and what it returns. *)
Inductive call (E : Type) :=
| CGet (k : string)
| CSet (k : string) (e : E)
| CRecordError (k msg : string)
| CRemove (k : string)
| CSnapshot
| CLen.
Arguments CGet {E} k.
Arguments CSet {E} k e.
Arguments CRecordError {E} k msg.
Arguments CRemove {E} k.
Arguments CSnapshot {E}.
Arguments CLen {E}.

Inductive result :=
| RGot (e : option CompiledEntry)
| RUnit
| RSnapshot (m : registry)
| RLen (n : nat).

(** What a call does when it runs alone, at [now]. *)
Definition run_call (c : call CompiledEntry) (now : Z) (r : registry) : registry * result :=
  match c with
  | CGet k => (r, RGot (Get r k))
  | CSet k e => (Set_ r k e, RUnit)
  | CRecordError k msg => (RecordError r k msg now, RUnit)
  | CRemove k => (Remove r k, RUnit)
  | CSnapshot => (r, RSnapshot (Snapshot r))
  | CLen => (r, RLen (Len r))
  end.

Inductive event :=
| Invoke (t : nat) (c : call CompiledEntry)
| Return (t : nat) (r : result)
| Silent.

(** The atomic registry: between its invocation and its return a call takes
    effect in one step. *)
Inductive atomic_pc := Pending (c : call CompiledEntry) | Finished (r : result).
Record atomic := { atRegistry : registry; atThreads : gmap nat atomic_pc }.

Inductive atomic_step : atomic → event → atomic → Prop :=
| at_invoke r ts t c :
    ts !! t = None →
    atomic_step {| atRegistry := r; atThreads := ts |} (Invoke t c)
      {| atRegistry := r; atThreads := <[t := Pending c]> ts |}
| at_effect r ts t c now :
    ts !! t = Some (Pending c) →
    atomic_step {| atRegistry := r; atThreads := ts |} Silent
      {| atRegistry := (run_call c now r).1; atThreads := <[t := Finished (run_call c now r).2]> ts |}
| at_return r ts t res :
    ts !! t = Some (Finished res) →
    atomic_step {| atRegistry := r; atThreads := ts |} (Return t res)
      {| atRegistry := r; atThreads := delete t ts |}.

(** ** The code *)

Abbreviation loc := positive.

(** The shared store: [r.m], the map objects, the entries behind pointers, [r.mu]. *)
Record store := {
  stPublished : loc;
  stMaps : gmap loc (gmap string loc);
  stEntries : gmap loc CompiledEntry;
  stLocked : option nat;
}.

(** What a method returns: pointers are not followed before the caller does. *)
Inductive pointer_result := PGot (e : option loc) | PUnit | PSnapshot (m : loc) | PLen (n : nat).

(** Where a goroutine is in a method. *)
Inductive pc :=
| Started (c : call loc)
| Locked (c : call loc)                                      (* mu held *)
| Loaded (c : call loc) (old : loc)                          (* old := *r.m.Load() *)
| Copying (c : call loc) (next : loc) (todo : list (string * loc))  (* for k, v := range old *)
| Written (c : call loc) (next : loc)                        (* about to r.m.Store(&next) *)
| Unlocking                                                  (* the deferred unlock *)
| Reading (c : call loc) (m : loc)                           (* m := *r.m.Load() *)
| Snapping (m out : loc) (todo : list (string * loc))
| Returning (r : pointer_result).

Record machine := { mStore : store; mThreads : gmap nat pc }.

(** Following the pointers of a map object, of an argument and of a result. *)
Definition follow (es : gmap loc CompiledEntry) (l : loc) : CompiledEntry := default zero_entry (es !! l).
Definition deref_map (es : gmap loc CompiledEntry) (m : gmap string loc) : registry := follow es <$> m.
Definition deref_call (es : gmap loc CompiledEntry) (c : call loc) : call CompiledEntry :=
  match c with
  | CGet k => CGet k
  | CSet k l => CSet k (follow es l)
  | CRecordError k msg => CRecordError k msg
  | CRemove k => CRemove k
  | CSnapshot => CSnapshot
  | CLen => CLen
  end.
Definition deref_result (s : store) (r : pointer_result) : result :=
  match r with
  | PGot e => RGot (follow (stEntries s) <$> e)
  | PUnit => RUnit
  | PSnapshot m => RSnapshot (deref_map (stEntries s) (default ∅ (stMaps s !! m)))
  | PLen n => RLen n
  end.

Definition is_writer {E} (c : call E) : bool :=
  match c with CSet _ _ | CRecordError _ _ | CRemove _ => true | _ => false end.

(** The loop of [Remove] skips the key. *)
Definition skips (c : call loc) (k : string) : bool :=
  match c with CRemove k' => bool_decide (k = k') | _ => false end.

Definition with_maps (s : store) (ms : gmap loc (gmap string loc)) : store :=
  {| stPublished := stPublished s; stMaps := ms; stEntries := stEntries s; stLocked := stLocked s |}.
Definition with_entries (s : store) (es : gmap loc CompiledEntry) : store :=
  {| stPublished := stPublished s; stMaps := stMaps s; stEntries := es; stLocked := stLocked s |}.
Definition with_lock (s : store) (l : option nat) : store :=
  {| stPublished := stPublished s; stMaps := stMaps s; stEntries := stEntries s; stLocked := l |}.
Definition publish (s : store) (m : loc) : store :=
  {| stPublished := m; stMaps := stMaps s; stEntries := stEntries s; stLocked := stLocked s |}.

(** One step of goroutine [t] inside a method. *)
Inductive method_step (t : nat) : store → pc → store → pc → Prop :=
| m_lock s c : is_writer c = true → stLocked s = None →
    method_step t s (Started c) (with_lock s (Some t)) (Locked c)
| m_load s c : method_step t s (Locked c) s (Loaded c (stPublished s))
| m_absent s k old m : stMaps s !! old = Some m → m !! k = None →
    method_step t s (Loaded (CRemove k) old) s Unlocking
| m_make s c old m next todo : stMaps s !! old = Some m → stMaps s !! next = None →
    (∀ k, c = CRemove k → is_Some (m !! k)) → todo ≡ₚ map_to_list m →
    method_step t s (Loaded c old) (with_maps s (<[next := ∅]> (stMaps s))) (Copying c next todo)
| m_copy s c next n k v todo : stMaps s !! next = Some n →
    method_step t s (Copying c next ((k, v) :: todo))
      (with_maps s (<[next := if skips c k then n else <[k := v]> n]> (stMaps s))) (Copying c next todo)
| m_set s k e next n : stMaps s !! next = Some n →
    method_step t s (Copying (CSet k e) next [])
      (with_maps s (<[next := <[k := e]> n]> (stMaps s))) (Written (CSet k e) next)
| m_record s k msg now next n l : stMaps s !! next = Some n → stEntries s !! l = None →
    method_step t s (Copying (CRecordError k msg) next [])
      (with_entries (with_maps s (<[next := <[k := l]> n]> (stMaps s)))
        (<[l := with_error (follow (stEntries s) <$> n !! k) msg now]> (stEntries s)))
      (Written (CRecordError k msg) next)
| m_removed s k next : method_step t s (Copying (CRemove k) next []) s (Written (CRemove k) next)
| m_store s c next : method_step t s (Written c next) (publish s next) Unlocking
| m_unlock s : method_step t s Unlocking (with_lock s None) (Returning PUnit)
| m_read s c : is_writer c = false → method_step t s (Started c) s (Reading c (stPublished s))
| m_get s k m mm : stMaps s !! m = Some mm →
    method_step t s (Reading (CGet k) m) s (Returning (PGot (mm !! k)))
| m_len s m mm : stMaps s !! m = Some mm →
    method_step t s (Reading CLen m) s (Returning (PLen (size mm)))
| m_snap_make s m mm out todo : stMaps s !! m = Some mm → stMaps s !! out = None → todo ≡ₚ map_to_list mm →
    method_step t s (Reading CSnapshot m) (with_maps s (<[out := ∅]> (stMaps s))) (Snapping m out todo)
| m_snap_copy s m out n k v todo : stMaps s !! out = Some n →
    method_step t s (Snapping m out ((k, v) :: todo))
      (with_maps s (<[out := <[k := v]> n]> (stMaps s))) (Snapping m out todo)
| m_snap_done s m out : method_step t s (Snapping m out []) s (Returning (PSnapshot out)).

(** The caller allocates the entry it passes to [Set]; results are read through
    the store at the moment of return. *)
Inductive machine_step : machine → event → machine → Prop :=
| mc_invoke s ts t c :
    ts !! t = None → (∀ k e, c ≠ CSet k e) →
    machine_step {| mStore := s; mThreads := ts |} (Invoke t (deref_call (stEntries s) c))
      {| mStore := s; mThreads := <[t := Started c]> ts |}
| mc_invoke_set s ts t k e l :
    ts !! t = None → stEntries s !! l = None →
    machine_step {| mStore := s; mThreads := ts |} (Invoke t (CSet k e))
      {| mStore := with_entries s (<[l := e]> (stEntries s)); mThreads := <[t := Started (CSet k l)]> ts |}
| mc_method s s' ts t p p' :
    ts !! t = Some p → method_step t s p s' p' →
    machine_step {| mStore := s; mThreads := ts |} Silent {| mStore := s'; mThreads := <[t := p']> ts |}
| mc_return s ts t r :
    ts !! t = Some (Returning r) →
    machine_step {| mStore := s; mThreads := ts |} (Return t (deref_result s r))
      {| mStore := s; mThreads := delete t ts |}.

(** A run and what is seen of it: invocations and returns. *)
Inductive run {S : Type} (step : S → event → S → Prop) : S → list event → S → Prop :=
| run_nil s : run step s [] s
| run_silent s s' s'' tr : step s Silent s' → run step s' tr s'' → run step s tr s''
| run_event s s' s'' e tr : e ≠ Silent → step s e s' → run step s' tr s'' → run step s (e :: tr) s''.

(** [NewRegistry]: an empty map behind the pointer, nobody inside. *)
Definition initial_machine : machine := {|
  mStore := {| stPublished := 1%positive; stMaps := {[1%positive := ∅]}; stEntries := ∅; stLocked := None |};
  mThreads := ∅ |}.
Definition initial_atomic : atomic := {| atRegistry := NewRegistry; atThreads := ∅ |}.
