(* ===== verification/RegistryTheory.v ===== *)
(** The concurrent registry implements the atomic one (Registry.v).

    The invariant says what each goroutine knows: a writer past [mu.Lock] holds
    the lock, so the map it loaded is still the published one; a map under
    construction is reached by nobody else; a published map and an entry are
    never written again.  A call takes effect when it stores the new map, or, if
    it only reads, when it loads the pointer. *)
From Stdlib Require Import Relation_Operators Lexicographic_Product.
From S2P Require Import Prelude Convert Diagnostics Registry.

(** The map object a goroutine writes to, and the one it reads from. *)
Definition owned (p : pc) : option loc :=
  match p with Copying _ l _ | Written _ l | Snapping _ l _ => Some l | _ => None end.
Definition seen (p : pc) : option loc :=
  match p with Reading _ l | Snapping l _ _ | Returning (PSnapshot l) => Some l | _ => None end.

Definition current (s : store) : gmap string loc := default ∅ (stMaps s !! stPublished s).
Definition contents (s : store) : registry := deref_map (stEntries s) (current s).

Definition closed_map (es : gmap loc CompiledEntry) (m : gmap string loc) : Prop :=
  ∀ k e, m !! k = Some e → is_Some (es !! e).
Definition closed (s : store) : Prop := ∀ l m, stMaps s !! l = Some m → closed_map (stEntries s) m.

Definition valid_call (s : store) (c : call loc) : Prop :=
  match c with CSet _ e => is_Some (stEntries s !! e) | _ => True end.

(** What the loop of a copying method has built after [past]. *)
Definition copied (c : call loc) (past : list (string * loc)) : gmap string loc :=
  foldl (λ n kv, if skips c kv.1 then n else <[kv.1 := kv.2]> n) ∅ past.

Definition pending (s : store) (c : call loc) (a : atomic_pc) : Prop :=
  valid_call s c ∧ a = Pending (deref_call (stEntries s) c).
Definition writing (s : store) (t : nat) (c : call loc) (a : atomic_pc) : Prop :=
  stLocked s = Some t ∧ is_writer c = true ∧ pending s c a.

Definition thread_ok (s : store) (t : nat) (p : pc) (a : atomic_pc) : Prop :=
  match p with
  | Started c => pending s c a
  | Locked c => writing s t c a
  | Loaded c old => writing s t c a ∧ old = stPublished s
  | Copying c next todo => writing s t c a ∧
      ∃ past, past ++ todo ≡ₚ map_to_list (current s) ∧ stMaps s !! next = Some (copied c past)
  | Written c next => writing s t c a ∧
      ∃ n now, stMaps s !! next = Some n ∧
        deref_map (stEntries s) n = (run_call (deref_call (stEntries s) c) now (contents s)).1
  | Unlocking => stLocked s = Some t ∧ a = Finished RUnit
  | Reading c m => is_writer c = false ∧ ∃ mm, stMaps s !! m = Some mm ∧
      ∀ now, a = Finished (run_call (deref_call (stEntries s) c) now (deref_map (stEntries s) mm)).2
  | Snapping m out todo => ∃ mm past, stMaps s !! m = Some mm ∧ past ++ todo ≡ₚ map_to_list mm ∧
      stMaps s !! out = Some (copied CSnapshot past) ∧ a = Finished (RSnapshot (deref_map (stEntries s) mm))
  | Returning r => a = Finished (deref_result s r) ∧
      match r with PGot (Some e) => is_Some (stEntries s !! e) | PSnapshot m => is_Some (stMaps s !! m) | _ => True end
  end.

(** ** Copies *)

Lemma copied_snoc c past kv :
  copied c (past ++ [kv]) = if skips c kv.1 then copied c past else <[kv.1 := kv.2]> (copied c past).
Proof. unfold copied. by rewrite foldl_app. Qed.

Lemma copied_lookup c past k : NoDup past.*1 →
  copied c past !! k = if skips c k then None else (list_to_map past : gmap string loc) !! k.
Proof.
  induction past as [|[k' v] past IH] using rev_ind; intros Hnd.
  { cbn. rewrite !lookup_empty. by destruct (skips c k). }
  rewrite fmap_app, NoDup_app in Hnd. destruct Hnd as (Hnd & Hk & _). specialize (IH Hnd).
  rewrite copied_snoc, list_to_map_app. cbn. destruct (decide (k = k')) as [->|Hne].
  - assert (k' ∉ past.*1) as Hk' by (intros H; apply (Hk _ H); by left).
    rewrite lookup_union_r by (by apply not_elem_of_list_to_map). rewrite lookup_insert_eq.
    destruct (skips c k') eqn:E; [rewrite IH|]; by rewrite ?lookup_insert_eq.
  - assert ((<[k' := v]> ∅ : gmap string loc) !! k = None) as E by (by rewrite lookup_insert_ne, lookup_empty).
    destruct (skips c k') eqn:E'; rewrite ?lookup_insert_ne by done; rewrite IH;
      (destruct (skips c k); [done|]); rewrite lookup_union, E; by destruct (list_to_map past !! k).
Qed.

Lemma copied_all c past (m : gmap string loc) k : past ≡ₚ map_to_list m →
  copied c past !! k = if skips c k then None else m !! k.
Proof.
  intros Hp. assert (NoDup past.*1) as Hnd by (rewrite Hp; apply NoDup_fst_map_to_list).
  rewrite copied_lookup by done. destruct (skips c k); [done|].
  by rewrite (list_to_map_proper _ (map_to_list m)), list_to_map_to_list.
Qed.

Lemma copied_full c past (m : gmap string loc) : (∀ k, skips c k = false) → past ≡ₚ map_to_list m → copied c past = m.
Proof. intros Hs Hp. apply map_eq. intros k. by rewrite (copied_all _ _ m), Hs. Qed.

(** ** Growing the heap of entries *)

Section grow.
Context (es es' : gmap loc CompiledEntry) (Hsub : es ⊆ es').

Lemma follow_grow l : is_Some (es !! l) → follow es' l = follow es l.
Proof. intros [e He]. unfold follow. by rewrite He, (lookup_weaken _ _ _ _ He Hsub). Qed.

Lemma closed_map_grow m : closed_map es m → closed_map es' m.
Proof. intros H k e Hk. destruct (H _ _ Hk) as [x Hx]. exists x. by eapply lookup_weaken. Qed.

Lemma deref_map_grow m : closed_map es m → deref_map es' m = deref_map es m.
Proof. intros H. apply map_fmap_ext. intros k e Hk. apply follow_grow. by eapply H. Qed.
End grow.

Lemma deref_call_grow s s' c : stEntries s ⊆ stEntries s' → valid_call s c →
  valid_call s' c ∧ deref_call (stEntries s') c = deref_call (stEntries s) c.
Proof.
  intros Hsub Hv. destruct c; try done. cbn in *. split; [|by rewrite (follow_grow _ _ Hsub)].
  destruct Hv as [x Hx]. exists x. by eapply lookup_weaken.
Qed.

(** ** What another goroutine's step leaves alone *)

Definition undisturbed (s s' : store) (t : nat) (p : pc) : Prop :=
  stEntries s ⊆ stEntries s' ∧
  (∀ l, owned p = Some l ∨ seen p = Some l → stMaps s' !! l = stMaps s !! l) ∧
  (stLocked s = Some t → stLocked s' = Some t ∧ stPublished s' = stPublished s ∧ current s' = current s).

Lemma writing_grow s s' t c a p : undisturbed s s' t p → writing s t c a → writing s' t c a.
Proof.
  intros (He & _ & Hl) (H1 & H2 & H3 & ->). destruct (deref_call_grow s s' c He H3) as [? E].
  unfold writing, pending. rewrite E. split_and!; try done. by apply Hl.
Qed.

Lemma current_closed s : closed s → closed_map (stEntries s) (current s).
Proof.
  intros H. unfold current. destruct (stMaps s !! stPublished s) eqn:E; [by apply (H _ _ E)|]. by intros k e.
Qed.

Lemma thread_ok_frame s s' t p a : closed s → undisturbed s s' t p → thread_ok s t p a → thread_ok s' t p a.
Proof.
  intros Hc Hu. pose proof Hu as (He & Hm & Hl). destruct p as [c|c|c old|c next todo|c next| |c m|m out todo|r]; cbn.
  - intros [Hv ->]. by destruct (deref_call_grow s s' c He Hv) as [? <-].
  - by eapply writing_grow.
  - intros [Hw ->]. split; [by eapply writing_grow|]. symmetry. apply Hl, Hw.
  - intros (Hw & past & Hp & Hn). pose proof Hw as (Hlk & _). split; [by eapply writing_grow|].
    exists past. destruct (Hl Hlk) as (_ & _ & ->). rewrite Hm; [done|by left].
  - intros (Hw & n & now & Hn & Hd). pose proof Hw as (Hlk & _ & Hv & _).
    split; [by eapply writing_grow|]. exists n, now. rewrite Hm by (by left). split; [done|].
    destruct (Hl Hlk) as (_ & _ & Ecur). destruct (deref_call_grow s s' c He Hv) as [_ ->].
    unfold contents. rewrite Ecur, !(deref_map_grow _ _ He); [done|by apply current_closed|by eapply Hc].
  - intros [Hlk ->]. split; [|done]. by apply Hl.
  - intros (Hw & mm & Hmm & Ha). split; [done|]. exists mm. rewrite Hm by (by right). split; [done|]. intros now.
    rewrite (Ha now), (deref_map_grow _ _ He) by (by eapply Hc). by destruct c.
  - intros (mm & past & Hmm & Hp & Ho & ->). exists mm, past.
    rewrite (Hm m) by (by right). rewrite (Hm out) by (by left).
    rewrite (deref_map_grow _ _ He) by (by eapply Hc). done.
  - intros [-> Hr]. destruct r as [[e|]| |m|n]; cbn in *; try done.
    + rewrite (follow_grow _ _ He) by done. split; [done|]. destruct Hr as [x Hx]. exists x. by eapply lookup_weaken.
    + destruct Hr as [mm Hmm]. rewrite Hm by (by right). rewrite Hmm. cbn.
      split; [|by eauto]. do 2 f_equal. symmetry. apply deref_map_grow; [done|by eapply Hc].
Qed.

(** ** One step inside a method *)

(** The registry and the caller's abstract state move together: not at all, or by
    the effect of the call. *)
Definition effect (r : registry) (a : atomic_pc) (r' : registry) (a' : atomic_pc) : Prop :=
  r' = r ∧ a' = a ∨
  ∃ c now, a = Pending c ∧ r' = (run_call c now r).1 ∧ a' = Finished (run_call c now r).2.

(** The store is in order, whoever runs. *)
Definition store_ok (s : store) : Prop := closed s ∧ is_Some (stMaps s !! stPublished s).

(** What a step of goroutine [t] may do to the store and to its own references. *)
Definition changes (t : nat) (s : store) (p : pc) (s' : store) (p' : pc) : Prop :=
  stEntries s ⊆ stEntries s' ∧
  (∀ l, is_Some (stMaps s !! l) → owned p ≠ Some l → stMaps s' !! l = stMaps s !! l) ∧
  (∀ t', t' ≠ t → stLocked s = Some t' → stLocked s' = Some t' ∧ stPublished s' = stPublished s) ∧
  (∀ l, owned p' = Some l → is_Some (stMaps s' !! l) ∧ l ≠ stPublished s' ∧ seen p' ≠ Some l ∧
        (owned p = Some l ∨ stMaps s !! l = None)) ∧
  (∀ l, seen p' = Some l ∨ stPublished s' = l →
        is_Some (stMaps s' !! l) ∧ owned p' ≠ Some l ∧
        (seen p = Some l ∨ stPublished s = l ∨ owned p = Some l)).

Definition refs_ok (s : store) (p : pc) : Prop :=
  (∀ l, owned p = Some l → is_Some (stMaps s !! l) ∧ l ≠ stPublished s ∧ seen p ≠ Some l) ∧
  (∀ l, seen p = Some l → is_Some (stMaps s !! l)).

Lemma thread_holds s t p a p' s' : thread_ok s t p a → method_step t s p s' p' →
  match p with Written _ _ | Unlocking => stLocked s = Some t | Started c => is_writer c = true → stLocked s = None | _ => True end.
Proof.
  intros Hok Hs. destruct Hs; cbn in *; try done; try (intros; congruence);
    by destruct Hok as [[? ?] ?] || by destruct Hok.
Qed.

(** Closes a goal about the references of a step, by cases on the location asked about. *)
Ltac contradictory := exfalso; first [congruence | match goal with H : is_Some _ |- _ => solve [destruct H; congruence] end].
Ltac solve_refs :=
  repeat match goal with
  | H : _ ∨ _ |- _ => destruct H
  | H : Some _ = Some _ |- _ => injection H as <-
  end; subst; try done;
  repeat match goal with |- _ ∧ _ => split | |- Some _ ≠ Some _ => intros [= ?] | |- _ ≠ _ => intros ? end;
  repeat match goal with
  | |- context [<[?k := _]> _ !! ?l] =>
    destruct (decide (k = l)) as [?|?];
      [first [contradictory|subst; rewrite lookup_insert_eq]|rewrite lookup_insert_ne by done]
  end;
  try done; try congruence; eauto; try contradictory.

Lemma method_changes s t p a s' p' :
  store_ok s → refs_ok s p → thread_ok s t p a → method_step t s p s' p' → changes t s p s' p'.
Proof.
  intros [Hc Hpub] [Hown Hseen] Hok Hs. pose proof (thread_holds _ _ _ _ _ _ Hok Hs) as Hlk.
  destruct Hs; cbn in *; unfold changes; cbn; split_and!; try done; try (by intros; congruence);
    try (by apply insert_subseteq).
  all: try pose proof (Hown _ eq_refl) as (? & ? & ?); try pose proof (Hseen _ eq_refl).
  all: intros ? ?; solve_refs.
Qed.

Lemma closed_insert s l m : closed s → closed_map (stEntries s) m → closed (with_maps s (<[l := m]> (stMaps s))).
Proof. intros Hc Hm l' m'. cbn. intros [[<- <-]|[_ H]]%lookup_insert_Some; [done|by eapply Hc]. Qed.

Lemma closed_insert_key es m k e : closed_map es m → is_Some (es !! e) → closed_map es (<[k := e]> m).
Proof. intros Hm He k' e' [[<- <-]|[_ H]]%lookup_insert_Some; [done|by eapply Hm]. Qed.

Lemma closed_empty es : closed_map es ∅.
Proof. intros k e H. by rewrite lookup_empty in H. Qed.

Lemma closed_entries s l e : closed s → stEntries s !! l = None → closed (with_entries s (<[l := e]> (stEntries s))).
Proof. intros Hc Hl l' m' Hm. cbn in *. eapply closed_map_grow; [by apply insert_subseteq|by eapply Hc]. Qed.

(** The pairs still to copy come from a closed map. *)
Lemma todo_closed es m past k v todo :
  closed_map es m → past ++ (k, v) :: todo ≡ₚ map_to_list m → is_Some (es !! v).
Proof.
  intros Hm Hp. apply (Hm k), elem_of_map_to_list. rewrite <- Hp. apply elem_of_app. right. by left.
Qed.

Lemma method_closed s t p a s' p' : store_ok s → thread_ok s t p a → method_step t s p s' p' → closed s'.
Proof.
  intros [Hc _] Hok Hs. destruct Hs; cbn in Hok; try done; try (apply closed_insert; [done|]); try apply closed_empty.
  - destruct (skips c k); [by eapply Hc|]. destruct Hok as (_ & past & Hp & _).
    apply closed_insert_key; [by eapply Hc|]. eapply todo_closed; [|done]. by apply current_closed.
  - destruct Hok as [(_ & _ & Hv & _) _]. apply closed_insert_key; [by eapply Hc|done].
  - intros l' m'. cbn. intros [[<- <-]|[_ Hm]]%lookup_insert_Some.
    + apply closed_insert_key; [|by rewrite lookup_insert_eq].
      eapply closed_map_grow; [by apply insert_subseteq|by eapply Hc].
    + eapply closed_map_grow; [by apply insert_subseteq|by eapply Hc].
  - destruct Hok as (mm & past & Hm & Hp & _). apply closed_insert_key; [by eapply Hc|].
    by apply (todo_closed _ mm past k v todo (Hc _ _ Hm)).
Qed.

(** The step of a call that has not taken effect yet, or has taken it already. *)
Lemma no_effect r a : effect r a r a.
Proof. by left. Qed.

Lemma deref_insert es (m : gmap string loc) k l : deref_map es (<[k := l]> m) = <[k := follow es l]> (deref_map es m).
Proof. apply fmap_insert. Qed.

Lemma current_insert s l m : l ≠ stPublished s → current (with_maps s (<[l := m]> (stMaps s))) = current s.
Proof. intros H. unfold current; cbn. by rewrite lookup_insert_ne. Qed.

Lemma contents_insert s l m : l ≠ stPublished s → contents (with_maps s (<[l := m]> (stMaps s))) = contents s.
Proof. intros H. unfold contents. by rewrite current_insert. Qed.

Lemma current_eq s m : stMaps s !! stPublished s = Some m → current s = m.
Proof. intros H. unfold current. by rewrite H. Qed.

Lemma unpublished s l : is_Some (stMaps s !! stPublished s) → stMaps s !! l = None → l ≠ stPublished s.
Proof. intros [? H] H' ->. congruence. Qed.

Lemma run_reader (c : call CompiledEntry) now now' r :
  is_writer c = false → (run_call c now r).1 = r ∧ (run_call c now r).2 = (run_call c now' r).2.
Proof. by destruct c. Qed.

Lemma is_writer_deref es c : is_writer (deref_call es c) = is_writer c.
Proof. by destruct c. Qed.

(** *** The writer's last assignment to the new map *)

Section written.
Context (s : store) (Hc : closed s) (past : list (string * loc)) (Hp : past ≡ₚ map_to_list (current s)).

Lemma written_set k e : deref_map (stEntries s) (<[k := e]> (copied (CSet k e) past)) =
  Set_ (contents s) k (follow (stEntries s) e).
Proof. by rewrite (copied_full _ _ (current s)), deref_insert. Qed.

Lemma written_remove k : deref_map (stEntries s) (copied (CRemove k) past) = Remove (contents s) k.
Proof.
  apply map_eq. intros k'. unfold Remove, contents, deref_map.
  rewrite lookup_fmap, (copied_all _ _ (current s)) by done. unfold skips. case_bool_decide.
  - subst. by rewrite lookup_delete_eq.
  - by rewrite lookup_delete_ne, lookup_fmap by done.
Qed.

Lemma written_error k msg now l : stEntries s !! l = None →
  let e := with_error (follow (stEntries s) <$> copied (CRecordError k msg) past !! k) msg now in
  let es := <[l := e]> (stEntries s) in
  deref_map es (<[k := l]> (copied (CRecordError k msg) past)) = RecordError (contents s) k msg now ∧
  deref_map es (current s) = contents s.
Proof.
  intros Hl e es. assert (deref_map es (current s) = contents s) as E.
  { apply deref_map_grow; [by apply insert_subseteq|by apply current_closed]. }
  split; [|done]. rewrite deref_insert. rewrite (copied_full _ _ (current s)), E by done. unfold RecordError. f_equal.
  unfold follow at 1, es. rewrite lookup_insert_eq. cbn. unfold e. rewrite (copied_full _ _ (current s)) by done.
  unfold contents, deref_map. by rewrite lookup_fmap.
Qed.
End written.

(** *** Writers *)

Lemma writer_effect s t p a s' p' :
  store_ok s → refs_ok s p → thread_ok s t p a → method_step t s p s' p' →
  match p with Reading _ _ | Snapping _ _ _ => False | Started c => is_writer c = true | _ => True end →
  ∃ a', effect (contents s) a (contents s') a' ∧ thread_ok s' t p' a'.
Proof.
  intros [Hc Hpub] [Hown _] Hok Hs Hw.
  destruct Hs; cbn in Hok, Hw; try done; try congruence; try pose proof (Hown _ eq_refl) as (_ & Hne & _).
  - exists a. split; [apply no_effect|]. by repeat split; try apply Hok.
  - exists a. by split; [apply no_effect|].
  - destruct Hok as [(Hl & _ & _ & ->) ->]. eexists. split; [|by split].
    right. exists (CRemove k), 0%Z. split_and!; [done| |done]. symmetry. apply delete_id.
    unfold contents, deref_map. rewrite (current_eq _ m), lookup_fmap by done. by rewrite H0.
  - destruct Hok as [Hwr ->]. exists a. assert (next ≠ stPublished s) by (by apply unpublished).
    split; [rewrite contents_insert by done; apply no_effect|]. split; [done|]. exists [].
    rewrite current_insert by done. rewrite (current_eq _ m) by done. split; [done|]. cbn. by rewrite lookup_insert_eq.
  - destruct Hok as (Hwr & past & Hp & Hn). exists a. rewrite Hn in H; injection H as <-.
    split; [rewrite contents_insert by done; apply no_effect|]. split; [done|]. exists (past ++ [(k, v)]).
    rewrite current_insert by done. rewrite <- app_assoc. split; [done|]. cbn. by rewrite lookup_insert_eq, copied_snoc.
  - destruct Hok as (Hwr & past & Hp & Hn). exists a. rewrite Hn in H; injection H as <-. rewrite app_nil_r in Hp.
    split; [rewrite contents_insert by done; apply no_effect|]. split; [done|]. eexists _, 0%Z. cbn.
    rewrite lookup_insert_eq, contents_insert by done. split; [done|]. by apply written_set.
  - destruct Hok as (Hwr & past & Hp & Hn). exists a. rewrite Hn in H; injection H as <-. rewrite app_nil_r in Hp.
    destruct (written_error s Hc past Hp k msg now l H0) as [E1 E2].
    assert (∀ es ms, contents (with_entries (with_maps s (<[next := ms]> (stMaps s))) es) = deref_map es (current s)) as E.
    { intros es ms. unfold contents. f_equal. by apply current_insert. }
    split; [rewrite E, E2; apply no_effect|]. split; [done|]. eexists _, now. cbn.
    rewrite lookup_insert_eq. split; [done|]. by rewrite E1, E, E2.
  - destruct Hok as (Hwr & past & Hp & Hn). exists a. rewrite app_nil_r in Hp.
    split; [apply no_effect|]. split; [done|]. eexists _, 0%Z. split; [done|]. by apply written_remove.
  - destruct Hok as ((Hl & Hwr & Hv & ->) & n & now & Hn & E). eexists. split; [right|by split].
    exists (deref_call (stEntries s) c), now. split_and!; [done| |by destruct c].
    rewrite <- E. unfold contents, current. cbn. by rewrite Hn.
  - destruct Hok as [Hl ->]. eexists. split; [apply no_effect|]. done.
Qed.

(** *** Readers *)

Lemma reader_effect s t p a s' p' :
  store_ok s → refs_ok s p → thread_ok s t p a → method_step t s p s' p' →
  match p with Reading _ _ | Snapping _ _ _ => True | Started c => is_writer c = false | _ => False end →
  ∃ a', effect (contents s) a (contents s') a' ∧ thread_ok s' t p' a'.
Proof.
  intros [Hc Hpub] [Hown Hseen] Hok Hs Hr.
  destruct Hs; cbn in Hok, Hr; try done; try congruence.
  - destruct Hok as [Hv ->]. destruct Hpub as [mm Hmm].
    assert (is_writer (deref_call (stEntries s) c) = false) as Hw by (by rewrite is_writer_deref).
    eexists. split.
    + right. exists (deref_call (stEntries s) c), 0%Z. split_and!; [done| |done]. symmetry. by apply (run_reader _ 0 0).
    + split; [done|]. exists mm. split; [done|]. intros now. f_equal.
      unfold contents. rewrite (current_eq _ mm) by done. by apply run_reader.
  - destruct Hok as (_ & mm' & Hmm & Ha). rewrite Hmm in H; injection H as ->. rewrite (Ha 0%Z). eexists.
    split; [apply no_effect|]. cbn. unfold Get, deref_map. rewrite lookup_fmap. split; [done|].
    destruct (mm !! k) eqn:E; [by eapply Hc|done].
  - destruct Hok as (_ & mm' & Hmm & Ha). rewrite Hmm in H; injection H as ->. rewrite (Ha 0%Z). eexists.
    split; [apply no_effect|]. cbn. unfold Len, deref_map. by rewrite map_size_fmap.
  - destruct Hok as (_ & mm' & Hmm & Ha). rewrite Hmm in H; injection H as ->. rewrite (Ha 0%Z). eexists.
    split; [rewrite contents_insert by (by apply unpublished); apply no_effect|].
    exists mm, []. cbn. rewrite lookup_insert_ne by congruence. by rewrite lookup_insert_eq.
  - destruct Hok as (mm & past & Hmm & Hp & Ho & ->). rewrite Ho in H; injection H as <-.
    destruct (Hown _ eq_refl) as (_ & Hne & Hns). cbn in Hns. eexists.
    split; [rewrite contents_insert by done; apply no_effect|].
    exists mm, (past ++ [(k, v)]). cbn. rewrite lookup_insert_ne by congruence. rewrite lookup_insert_eq.
    by rewrite <- app_assoc, copied_snoc.
  - destruct Hok as (mm & past & Hmm & Hp & Ho & ->). rewrite app_nil_r in Hp. eexists.
    split; [apply no_effect|]. cbn. rewrite Ho. split; [|by eauto].
    cbn. by rewrite (copied_full _ _ mm).
Qed.

Lemma method_effect s t p a s' p' :
  store_ok s → refs_ok s p → thread_ok s t p a → method_step t s p s' p' →
  ∃ a', effect (contents s) a (contents s') a' ∧ thread_ok s' t p' a'.
Proof.
  intros Hc Hr Hok Hs.
  destruct p as [c| | | | | | | |r]; try (by eapply writer_effect); try (by eapply reader_effect).
  destruct (is_writer c) eqn:E; [by eapply writer_effect|by eapply reader_effect].
Qed.

(** ** The whole machine *)

(** No other goroutine holds a reference to a map under construction. *)
Definition exclusive (ts : gmap nat pc) : Prop :=
  ∀ t t' p p' l, ts !! t = Some p → ts !! t' = Some p' → t ≠ t' → owned p = Some l →
    owned p' ≠ Some l ∧ seen p' ≠ Some l.

Record simulates (m : machine) (a : atomic) : Prop := {
  sim_store : store_ok (mStore m);
  sim_refs t p : mThreads m !! t = Some p → refs_ok (mStore m) p;
  sim_exclusive : exclusive (mThreads m);
  sim_contents : contents (mStore m) = atRegistry a;
  sim_threads t : match mThreads m !! t, atThreads a !! t with
                  | Some p, Some pa => thread_ok (mStore m) t p pa
                  | None, None => True
                  | _, _ => False
                  end;
}.

Lemma sim_thread m a t p : simulates m a → mThreads m !! t = Some p →
  ∃ pa, atThreads a !! t = Some pa ∧ thread_ok (mStore m) t p pa.
Proof. intros Hs Ht. pose proof (sim_threads _ _ Hs t) as H. rewrite Ht in H. destruct (atThreads a !! t); [by eauto|done]. Qed.

Lemma sim_idle m a t : simulates m a → mThreads m !! t = None → atThreads a !! t = None.
Proof. intros Hs Ht. pose proof (sim_threads _ _ Hs t) as H. rewrite Ht in H. by destruct (atThreads a !! t). Qed.

(** Another goroutine is not disturbed by the step of [t]. *)
Lemma changes_undisturbed t s p s' p' t' q :
  store_ok s → refs_ok s q → changes t s p s' p' → t' ≠ t →
  (∀ l, owned p = Some l → l ≠ stPublished s ∧ owned q ≠ Some l ∧ seen q ≠ Some l) → undisturbed s s' t' q.
Proof.
  intros [_ Hpub] [Ho Hse] (He & Hm & Hl & _ & _) Hne Hx. split_and!; [done| |].
  - intros l Hq. apply Hm.
    + destruct Hq as [Hq|Hq]; [by destruct (Ho _ Hq)|by apply Hse].
    + intros Hp. destruct (Hx _ Hp) as (_ & ? & ?). by destruct Hq.
  - intros Hlk. destruct (Hl _ Hne Hlk) as [-> Hpub']. split_and!; [done..|].
    unfold current. rewrite Hpub', Hm; [done|done|]. intros Hp. by destruct (Hx _ Hp).
Qed.

Lemma changes_refs t s p s' p' q :
  store_ok s → refs_ok s q → refs_ok s p → changes t s p s' p' →
  (∀ l, owned p = Some l → owned q ≠ Some l ∧ seen q ≠ Some l) →
  (∀ l, owned q = Some l → owned p ≠ Some l ∧ seen p ≠ Some l) → refs_ok s' q.
Proof.
  intros [_ Hpub] [Ho Hse] [Hop Hsp] (_ & Hm & _ & Hown & Hseen) Hpq Hqp. split; intros l Hq.
  - destruct (Ho _ Hq) as (H1 & H2 & H3), (Hqp _ Hq) as [H4 H5]. split_and!; [by rewrite Hm|..|done].
    intros ->. destruct (Hseen (stPublished s') ltac:(by right)) as (_ & _ & [?|[?|?]]); congruence.
  - pose proof (Hse _ Hq) as H1. rewrite Hm; [done|done|]. intros Hp. by destruct (Hpq _ Hp).
Qed.

Lemma changes_exclusive t s p s' p' q :
  refs_ok s q → changes t s p s' p' →
  (∀ l, owned p = Some l → owned q ≠ Some l ∧ seen q ≠ Some l) →
  (∀ l, owned q = Some l → l ≠ stPublished s ∧ owned p ≠ Some l ∧ seen p ≠ Some l) →
  (∀ l, owned p' = Some l → owned q ≠ Some l ∧ seen q ≠ Some l) ∧
  (∀ l, owned q = Some l → owned p' ≠ Some l ∧ seen p' ≠ Some l).
Proof.
  intros [Ho Hse] (_ & _ & _ & Hown & Hseen) Hpq Hqp.
  assert (∀ l, owned p' = Some l → owned q ≠ Some l ∧ seen q ≠ Some l) as H1.
  { intros l Hp. destruct (Hown _ Hp) as (_ & _ & _ & [H|H]); [by apply Hpq|]. split; intros Hq.
    - destruct (Ho _ Hq) as ([? ?] & _). congruence.
    - destruct (Hse _ Hq). congruence. }
  split; [done|]. intros l Hq. split; [intros Hp; by destruct (H1 _ Hp)|]. intros Hp.
  destruct (Hqp _ Hq) as (? & ? & ?), (Hseen l ltac:(by left)) as (_ & _ & [?|[?|?]]); congruence.
Qed.

Definition apart (p q : pc) : Prop :=
  (∀ l, owned p = Some l → owned q ≠ Some l ∧ seen q ≠ Some l) ∧
  (∀ l, owned q = Some l → owned p ≠ Some l ∧ seen p ≠ Some l).

Lemma simulates_insert s ts a s' t p' r' pa' :
  simulates {| mStore := s; mThreads := ts |} a →
  store_ok s' → refs_ok s' p' → thread_ok s' t p' pa' → contents s' = r' →
  (∀ t' q qa, t' ≠ t → ts !! t' = Some q → thread_ok s t' q qa → refs_ok s q →
     refs_ok s' q ∧ thread_ok s' t' q qa ∧ apart p' q) →
  simulates {| mStore := s'; mThreads := <[t := p']> ts |}
            {| atRegistry := r'; atThreads := <[t := pa']> (atThreads a) |}.
Proof.
  intros Hsim Hs Hr Hok Hc Ho. split; cbn; [done| | |done|].
  - intros t' q. intros [[<- <-]|[Hne Hq]]%lookup_insert_Some; [done|].
    destruct (sim_thread _ _ _ _ Hsim Hq) as (qa & _ & Hqa). by eapply Ho, (sim_refs _ _ Hsim).
  - intros t1 t2 p1 p2 l H1 H2 Hne Hl. apply lookup_insert_Some in H1 as [[<- <-]|[Hn1 H1]], H2 as [[<- <-]|[Hn2 H2]].
    + done.
    + destruct (sim_thread _ _ _ _ Hsim H2) as (qa & _ & Hqa).
      destruct (Ho _ _ _ (not_eq_sym Hn2) H2 Hqa (sim_refs _ _ Hsim _ _ H2)) as (_ & _ & [Ha _]). by apply Ha.
    + destruct (sim_thread _ _ _ _ Hsim H1) as (qa & _ & Hqa).
      destruct (Ho _ _ _ (not_eq_sym Hn1) H1 Hqa (sim_refs _ _ Hsim _ _ H1)) as (_ & _ & [_ Ha]). by apply Ha.
    + by apply (sim_exclusive _ _ Hsim t1 t2 p1 p2 l).
  - intros t'. destruct (decide (t = t')) as [<-|Hne]; [by rewrite !lookup_insert_eq|].
    rewrite !lookup_insert_ne by done. pose proof (sim_threads _ _ Hsim t') as Ht. cbn in Ht.
    destruct (ts !! t') as [q|] eqn:Hq, (atThreads a !! t') as [qa|]; try done.
    by eapply Ho, (sim_refs _ _ Hsim).
Qed.

Lemma simulates_method s ts a t p s' p' :
  simulates {| mStore := s; mThreads := ts |} a → ts !! t = Some p → method_step t s p s' p' →
  ∃ a', (a' = a ∨ atomic_step a Silent a') ∧ simulates {| mStore := s'; mThreads := <[t := p']> ts |} a'.
Proof.
  intros Hsim Ht Hstep. destruct (sim_thread _ _ _ _ Hsim Ht) as (pa & Hpa & Hok). cbn in Hok.
  pose proof (sim_store _ _ Hsim) as Hs. pose proof (sim_refs _ _ Hsim _ _ Ht) as Hr. cbn in Hs, Hr.
  pose proof (method_changes _ _ _ _ _ _ Hs Hr Hok Hstep) as Hch.
  destruct (method_effect _ _ _ _ _ _ Hs Hr Hok Hstep) as (pa' & Heff & Hok').
  exists {| atRegistry := contents s'; atThreads := <[t := pa']> (atThreads a) |}. split.
  - pose proof (sim_contents _ _ Hsim) as Hc. cbn in Hc. rewrite Hc in Heff. destruct a as [r ats]. cbn in *.
    destruct Heff as [[-> ->]|(c & now & -> & -> & ->)]; [left; by rewrite insert_id|right; by apply at_effect].
  - pose proof Hch as (He & Hm & Hl & Hown & Hseen).
    apply (simulates_insert s ts); try done.
    + split; [by eapply method_closed|]. by apply Hseen; right.
    + split; [|intros l Hl'; by apply Hseen; left]. intros l Hl'. destruct (Hown _ Hl') as (? & ? & ? & _). done.
    + intros t' q qa Hne Hq Hqa Hrq.
      assert (∀ l, owned p = Some l → owned q ≠ Some l ∧ seen q ≠ Some l) as H1
        by (intros l; by apply (sim_exclusive _ _ Hsim t t' p q)).
      assert (∀ l, owned q = Some l → owned p ≠ Some l ∧ seen p ≠ Some l) as H2
        by (intros l; by apply (sim_exclusive _ _ Hsim t' t q p)).
      split_and!.
      * by apply (changes_refs t s p s' p' q).
      * eapply thread_ok_frame; [apply Hs| |done]. apply (changes_undisturbed t s p s' p'); try done.
        intros l Hpl. destruct Hr as [Hr _]. destruct (Hr _ Hpl) as (_ & ? & _). by destruct (H1 _ Hpl).
      * apply (changes_exclusive t s p s' p' q); try done. intros l Hql. destruct Hrq as [Hrq _].
        destruct (Hrq _ Hql) as (_ & ? & _). by destruct (H2 _ Hql).
Qed.

Lemma simulates_step m a e m' : simulates m a → machine_step m e m' →
  ∃ a', (e = Silent ∧ a' = a ∨ atomic_step a e a') ∧ simulates m' a'.
Proof.
  intros Hsim Hstep. destruct Hstep as [s ts t c Hn Hc|s ts t k e l Hn Hl|s s' ts t p p' Ht Hm|s ts t r Ht].
  - pose proof (sim_idle _ _ _ Hsim Hn) as Hi. destruct a as [r ats]. cbn in Hi.
    eexists. split; [right; by apply at_invoke|]. pose proof (sim_store _ _ Hsim) as Hs.
    apply (simulates_insert s ts {| atRegistry := r; atThreads := ats |}); try done.
    + split; [destruct c; try done; by edestruct Hc|done].
    + apply (sim_contents _ _ Hsim).
  - pose proof (sim_idle _ _ _ Hsim Hn) as Hi. destruct a as [r ats]. cbn in Hi.
    eexists. split; [right; by apply at_invoke|]. pose proof (sim_store _ _ Hsim) as [Hcl Hp]. cbn in Hcl, Hp.
    assert (stEntries s ⊆ <[l := e]> (stEntries s)) as Hsub by (by apply insert_subseteq).
    apply (simulates_insert s ts {| atRegistry := r; atThreads := ats |}); try done.
    + split; [by apply closed_entries|done].
    + split; cbn; [by rewrite lookup_insert_eq|]. unfold follow. by rewrite lookup_insert_eq.
    + pose proof (sim_contents _ _ Hsim) as Hr. cbn in Hr. rewrite <- Hr. apply deref_map_grow; [done|by apply current_closed].
    + intros t' q qa _ Hq Hqa Hr. split_and!; [done| |by split].
      eapply thread_ok_frame; [done| |done]. by split_and!.
  - destruct (simulates_method _ _ _ _ _ _ _ Hsim Ht Hm) as (a' & Ha & Hsim'). exists a'. split; [|done].
    destruct Ha; auto.
  - destruct (sim_thread _ _ _ _ Hsim Ht) as (pa & Hpa & Hok). cbn in Hok. destruct Hok as [-> _].
    destruct a as [rg ats]. cbn in Hpa. eexists. split; [right; by apply at_return|].
    split; cbn.
    + apply (sim_store _ _ Hsim).
    + intros t' q [_ Hq]%lookup_delete_Some. by apply (sim_refs _ _ Hsim t').
    + intros t1 t2 p1 p2 l [_ H1]%lookup_delete_Some [_ H2]%lookup_delete_Some. by apply (sim_exclusive _ _ Hsim t1 t2).
    + apply (sim_contents _ _ Hsim).
    + intros t'. destruct (decide (t = t')) as [<-|Hne]; [by rewrite !lookup_delete_eq|].
      rewrite !lookup_delete_ne by done. apply (sim_threads _ _ Hsim t').
Qed.

Lemma simulates_initial : simulates initial_machine initial_atomic.
Proof.
  split; cbn; try done.
  - split; [|by eexists]. intros l m. cbn. intros [_ <-]%lookup_singleton_Some k e Hk. by rewrite lookup_empty in Hk.
Qed.

Lemma simulates_run m a tr m' : simulates m a → run machine_step m tr m' →
  ∃ a', run atomic_step a tr a' ∧ simulates m' a'.
Proof.
  intros Hsim Hrun. revert a Hsim. induction Hrun as [m|m m1 m2 tr Hs Hr IH|m m1 m2 e tr Hne Hs Hr IH]; intros a Hsim.
  - exists a. split; [constructor|done].
  - destruct (simulates_step _ _ _ _ Hsim Hs) as (a1 & Ha & Hsim1). destruct (IH _ Hsim1) as (a2 & Hr2 & Hsim2).
    exists a2. split; [|done]. destruct Ha as [[_ ->]|Ha]; [done|by eapply run_silent].
  - destruct (simulates_step _ _ _ _ Hsim Hs) as (a1 & Ha & Hsim1). destruct (IH _ Hsim1) as (a2 & Hr2 & Hsim2).
    exists a2. split; [|done]. destruct Ha as [[? _]|Ha]; [done|by eapply run_event].
Qed.

(** ** Progress *)

Definition holds (p : pc) : Prop :=
  match p with Locked _ | Loaded _ _ | Copying _ _ _ | Written _ _ | Unlocking => True | _ => False end.

(** The mutex is locked by a goroutine that is still in its critical section. *)
Definition holder_inside (m : machine) : Prop :=
  ∀ t, stLocked (mStore m) = Some t → ∃ p, mThreads m !! t = Some p ∧ holds p.

Lemma method_lock t s p s' p' : method_step t s p s' p' →
  match stLocked s' with
  | Some t' => stLocked s = Some t' ∧ (holds p → holds p') ∨ t' = t ∧ holds p'
  | None => True
  end.
Proof. intros Hs; destruct Hs; cbn; destruct (stLocked s); auto. Qed.

Lemma holder_inside_step m e m' : machine_step m e m' → holder_inside m → holder_inside m'.
Proof.
  intros Hs Hi t'. destruct Hs as [s ts t c Hn Hc|s ts t k e l Hn Hl|s s' ts t p p' Ht Hm|s ts t r Ht]; cbn; intros Hl'.
  - destruct (Hi t' Hl') as (q & Hq & ?). exists q. split; [|done]. cbn in Hq. rewrite lookup_insert_ne; [done|congruence].
  - destruct (Hi t' Hl') as (q & Hq & ?). exists q. split; [|done]. cbn in Hq. rewrite lookup_insert_ne; [done|congruence].
  - apply method_lock in Hm. rewrite Hl' in Hm. destruct Hm as [[Hlk Hh]|[-> Hh]]; [|exists p'; by rewrite lookup_insert_eq].
    destruct (Hi t' Hlk) as (q & Hq & Hhq). cbn in Hq. destruct (decide (t = t')) as [<-|Hne].
    + exists p'. rewrite lookup_insert_eq. rewrite Ht in Hq. injection Hq as ->. auto.
    + exists q. by rewrite lookup_insert_ne.
  - destruct (Hi t' Hl') as (q & Hq & Hh). cbn in Hq. exists q. split; [|done]. rewrite lookup_delete_ne; [done|].
    intros ->. rewrite Ht in Hq. injection Hq as <-. done.
Qed.

Lemma run_inv {S} (step : S → event → S → Prop) (P : S → Prop) s tr s' :
  (∀ s e s', step s e s' → P s → P s') → run step s tr s' → P s → P s'.
Proof. intros Hstep Hrun. induction Hrun; eauto. Qed.

(** The goroutine can take a step of its own: inside the method, or return. *)
Definition can_step (t : nat) (s : store) (p : pc) : Prop :=
  (∃ s' p', method_step t s p s' p') ∨ ∃ r, p = Returning r.

Lemma fresh_lookup {A} (m : gmap loc A) : ∃ l, m !! l = None.
Proof. exists (fresh (dom m)). apply not_elem_of_dom, is_fresh. Qed.

Lemma copying_can_step t s a c next todo :
  thread_ok s t (Copying c next todo) a → can_step t s (Copying c next todo).
Proof.
  intros ((_ & Hw & _) & past & _ & Hn). left. destruct todo as [|[k v] todo]; [|do 2 eexists; by eapply m_copy].
  destruct c; try done.
  - do 2 eexists. by eapply m_set.
  - destruct (fresh_lookup (stEntries s)) as [l Hl]. do 2 eexists. by eapply (m_record _ _ _ _ 0).
  - do 2 eexists. apply m_removed.
Qed.

Lemma inside_can_step t s p a : store_ok s → thread_ok s t p a → (∀ c, p = Started c → is_writer c = false) →
  can_step t s p.
Proof.
  intros [Hc [mm Hpub]] Hok Hns. destruct p as [c|c|c old|c next todo|c next| |c m|m out todo|r];
    try (by eapply copying_can_step); cbn in Hok.
  - left. do 2 eexists. apply m_read. by apply Hns.
  - left. do 2 eexists. apply m_load.
  - left. destruct Hok as [_ ->], (fresh_lookup (stMaps s)) as [l Hl].
    destruct c as [k|k e|k msg|k| |]; try (by do 2 eexists; eapply m_make; [done..|]).
    destruct (mm !! k) eqn:E; [|do 2 eexists; by eapply m_absent].
    do 2 eexists. eapply m_make; [done..| |done]. intros k' [= <-]. by eexists.
  - left. do 2 eexists. apply m_store.
  - left. do 2 eexists. apply m_unlock.
  - left. destruct Hok as (Hw & mm' & Hm & _), (fresh_lookup (stMaps s)) as [l Hl]. destruct c; try done.
    + do 2 eexists. by eapply m_get.
    + do 2 eexists. by eapply m_snap_make.
    + do 2 eexists. by eapply m_len.
  - left. destruct Hok as (mm' & past & _ & _ & Ho & _). destruct todo as [|[k v] todo].
    + do 2 eexists. apply m_snap_done.
    + do 2 eexists. by eapply m_snap_copy.
  - right. by eexists.
Qed.

(** Where a goroutine is, as a number that decreases with every step but the
    iterations of a loop, which shorten the list of pairs left. *)
Definition stage (p : pc) : nat * nat :=
  match p with
  | Started _ => (7, 0) | Locked _ => (6, 0) | Loaded _ _ => (5, 0) | Copying _ _ todo => (4, length todo)
  | Written _ _ => (3, 0) | Unlocking => (2, 0)
  | Reading _ _ => (6, 0) | Snapping _ _ todo => (5, length todo) | Returning _ => (0, 0)
  end.

Definition later (p' p : pc) : Prop := ∃ t s s', method_step t s p s' p'.

Lemma later_well_founded : well_founded later.
Proof.
  apply (wf_projected (slexprod _ _ lt lt) stage); [|by apply wf_slexprod; apply lt_wf].
  intros p' p (t & s & s' & Hs). destruct Hs; cbn; try (by left; lia); right; lia.
Qed.
