(* ===== verification/Adapters.v ===== *)
(** Schema sources: reading CRDs and Crossplane XRDs (pkg/crdadapter and
    pkg/xrdadapter).

    An XRD is an unstructured object.  The accessors of apimachinery's
    [unstructured] package and the conversion to a typed schema are parameters
    (class [Unstructured]); [UnstructuredLaws] is what their documentation says of
    a field that is read.  Message texts are data: [reason_text] stands for the
    formatting of a scope's reason.

    The last part shows which fields of an XRD are checked against what Crossplane
    overwrites. *)
From S2P Require Import Prelude Float64 Value Path Schema Rules Diagnostics Compile Normalize Platform Required Analyze.

(** ** CustomResourceDefinitions *)

Record CRDVersion := {
  cvName : string; cvServed : bool; cvStorage : bool;
  cvSchema : option (option JSONSchemaProps);  (* Schema, and its OpenAPIV3Schema *)
}.

(** [clientConfig] of a conversion webhook; the CA bundle is raw bytes. *)
Record ServiceReference := {
  svcNamespace : string; svcName : string; svcPath : option string; svcPort : option Z }.
Record WebhookClientConfig := {
  wcURL : option string; wcService : option ServiceReference; wcCABundle : string }.
Record WebhookConversion := { whClientConfig : option WebhookClientConfig; whReviewVersions : list string }.
Record CustomResourceConversion := { ccStrategy : string; ccWebhook : option WebhookConversion }.

Record CustomResourceDefinition := {
  crdName : string;
  crdGeneration : Z;
  crdVersions : list CRDVersion;
  crdConversion : option CustomResourceConversion;
  crdConditions : list (string * string);      (* type and status *)
}.

Module crdadapter.
Definition Describe (crd : CustomResourceDefinition) : ResourceDescriptor :=
  {| rdKind := "CRD"; rdName := crdName crd; rdGeneration := crdGeneration crd |}.

Definition Versions (crd : CustomResourceDefinition) : list VersionSchema :=
  (λ v, {| vsName := cvName v; vsSchema := mjoin (cvSchema v); vsServed := cvServed v; vsStorage := cvStorage v |})
  <$> crdVersions crd.

Definition New (crd : CustomResourceDefinition) : SchemaSource :=
  {| ssVersions := Ok (Versions crd); ssDescribe := Describe crd; ssPlatform := None |}.

(** The first condition of the type decides. *)
Definition Established (crd : CustomResourceDefinition) : bool :=
  match list_find (λ c, c.1 = "Established") (crdConditions crd) with
  | Some (_, c) => bool_decide (c.2 = "True")
  | None => false
  end.
End crdadapter.

(** ** Reading unstructured objects *)

Record OwnerReference := { orAPIVersion : string; orKind : string; orName : string }.

(** [NestedX(obj, fields...)] returns [(value, found, err)]: an error, or the value
    when it is found. *)
Class Unstructured := {
  NestedString : obj → list string → res string (option string);
  NestedBool : obj → list string → res string (option bool);
  NestedMap : obj → list string → res string (option obj);
  NestedSlice : obj → list string → res string (option (list value));
  FromUnstructured : obj → res string JSONSchemaProps;
  u_GetName : obj → string;
  u_GetGeneration : obj → Z;
  u_GetAPIVersion : obj → string;
  u_GetOwnerReferences : obj → list OwnerReference;
}.

(** Nothing at the path, and objects as far as the path goes. *)
Definition absent (o : obj) (p : list string) : Prop :=
  getValue o p = None ∧ ∀ k v, k ≠ [] → k `prefix_of` p → getValue o k = Some v → ∃ m, v = VObj m.

(** A field of the right type is found, an absent one is not, and neither is an
    error; a field of another type is one. *)
Class UnstructuredLaws (U : Unstructured) := {
  nested_string_found o p s : getValue o p = Some (VStr s) → NestedString o p = Ok (Some s);
  nested_string_absent o p : absent o p → NestedString o p = Ok None;
  nested_string_other o p v : getValue o p = Some v → (∀ s, v ≠ VStr s) → ∃ e, NestedString o p = Err e;
  nested_map_found o p m : getValue o p = Some (VObj m) → NestedMap o p = Ok (Some m);
  nested_map_absent o p : absent o p → NestedMap o p = Ok None;
  nested_map_other o p v : getValue o p = Some v → (∀ m, v ≠ VObj m) → ∃ e, NestedMap o p = Err e;
  nested_slice_found o p l : getValue o p = Some (VArr l) → NestedSlice o p = Ok (Some l);
  nested_slice_absent o p : absent o p → NestedSlice o p = Ok None;
}.

Module xrdadapter.

Definition GroupVersion_v2 : string := "apiextensions.crossplane.io/v2".
Definition LegacyGroupVersion : string := "apiextensions.crossplane.io/v1".

(** *** The scope *)

Inductive Scope := ScopeNamespaced | ScopeCluster | ScopeLegacyCluster | ScopeIndeterminate.
#[export] Instance Scope_eq_dec : EqDecision Scope.
Proof. solve_decision. Defined.
Inductive Confidence := ConfidenceHigh | ConfidenceInferred | ConfidenceNone.
#[export] Instance Confidence_eq_dec : EqDecision Confidence.
Proof. solve_decision. Defined.

(** [Scope(declared)] when it is one of the three a manifest may declare. *)
Definition declared_scope (declared : string) : option Scope :=
  if bool_decide (declared = "Namespaced") then Some ScopeNamespaced
  else if bool_decide (declared = "Cluster") then Some ScopeCluster
  else if bool_decide (declared = "LegacyCluster") then Some ScopeLegacyCluster
  else None.

Inductive scope_reason :=
| ReasonNoObject
| ReasonScopeNotString (err : string)
| ReasonClaimNamesNotObject (err : string)
| ReasonSecretKeysNotList (err : string)
| ReasonCorroborated (signals : string)
| ReasonAbsentButLegacy (signals : string)
| ReasonContradicted (declared signals : string)
| ReasonExplicit (declared : string)
| ReasonDefaulted (apiVersion : string) (s : Scope)
| ReasonUnknownVersion (apiVersion : string)
| ReasonUnrecognized (declared : string).

Record ScopeResolution := { srScope : Scope; srConfidence : Confidence; srReason : scope_reason }.

Definition Indeterminate (r : ScopeResolution) : bool := bool_decide (srScope r = ScopeIndeterminate).

Definition scopeDefaultForAPIVersion (apiVersion : string) : option Scope :=
  if bool_decide (apiVersion = LegacyGroupVersion) then Some ScopeLegacyCluster
  else if bool_decide (apiVersion = GroupVersion_v2) then Some ScopeNamespaced
  else None.

Definition joinSignals (s : list string) : string :=
  match s with
  | [] => ""
  | [x] => x
  | x :: rest => foldl (λ out y, out +:+ ", " +:+ y) x (removelast rest) +:+ " and " +:+ List.last rest ""
  end.

Definition undetermined (r : scope_reason) : ScopeResolution :=
  {| srScope := ScopeIndeterminate; srConfidence := ConfidenceNone; srReason := r |}.
Definition resolved (s : Scope) (c : Confidence) (r : scope_reason) : ScopeResolution :=
  {| srScope := s; srConfidence := c; srReason := r |}.

Section xrd.
Context `{U : Unstructured}.

(** The switch on the declared scope when no legacy signal is present. *)
Definition scope_without_signals (xrd : obj) (declared : string) : ScopeResolution :=
  match declared_scope declared with
  | Some s => resolved s ConfidenceHigh (ReasonExplicit declared)
  | None =>
    if bool_decide (declared = "") then
      match scopeDefaultForAPIVersion (u_GetAPIVersion xrd) with
      | Some s => resolved s ConfidenceInferred (ReasonDefaulted (u_GetAPIVersion xrd) s)
      | None => undetermined (ReasonUnknownVersion (u_GetAPIVersion xrd))
      end
    else undetermined (ReasonUnrecognized declared)
  end.

(** The switch when there is one. *)
Definition scope_with_signals (declared signals : string) : ScopeResolution :=
  if bool_decide (declared = "LegacyCluster")
  then resolved ScopeLegacyCluster ConfidenceHigh (ReasonCorroborated signals)
  else if bool_decide (declared = "")
  then resolved ScopeLegacyCluster ConfidenceInferred (ReasonAbsentButLegacy signals)
  else resolved ScopeLegacyCluster ConfidenceInferred (ReasonContradicted declared signals).

Definition ResolveScope (xrd : option obj) : ScopeResolution :=
  match xrd with
  | None => undetermined ReasonNoObject
  | Some xrd =>
    match NestedString xrd ["spec"; "scope"] with
    | Err e => undetermined (ReasonScopeNotString e)
    | Ok declared =>
      match NestedMap xrd ["spec"; "claimNames"] with
      | Err e => undetermined (ReasonClaimNamesNotObject e)
      | Ok claimNames =>
        match NestedSlice xrd ["spec"; "connectionSecretKeys"] with
        | Err e => undetermined (ReasonSecretKeysNotList e)
        | Ok secretKeys =>
          let legacySignals :=
            (if claimNames then ["spec.claimNames"] else []) ++
            (if secretKeys then ["spec.connectionSecretKeys"] else []) in
          if bool_decide (legacySignals ≠ [])
          then scope_with_signals (default "" declared) (joinSignals legacySignals)
          else scope_without_signals xrd (default "" declared)
        end
      end
    end
  end.

(** *** Writing, health, ownership *)

Definition WriteGroupVersion (xrd : option obj) : string :=
  match xrd with
  | None => GroupVersion_v2
  | Some xrd => match NestedMap xrd ["spec"; "claimNames"] with
                | Ok (Some _) => LegacyGroupVersion
                | _ => GroupVersion_v2
                end
  end.

(** A string read with its found flag and error dropped. *)
Definition read_string (o : obj) (p : list string) : string :=
  match NestedString o p with Ok (Some s) => s | _ => "" end.

(** The first condition of the type decides. *)
Fixpoint established_in (conditions : list value) : bool :=
  match conditions with
  | [] => false
  | VObj cm :: cs => if bool_decide (read_string cm ["type"] = "Established")
                     then bool_decide (read_string cm ["status"] = "True") else established_in cs
  | _ :: cs => established_in cs
  end.
Definition Established (xrd : obj) : bool :=
  match NestedSlice xrd ["status"; "conditions"] with
  | Ok (Some conditions) => established_in conditions
  | _ => false
  end.

Record PackageOwner := { poKind : string; poName : string; poAPIVersion : string }.

(** The group of an apiVersion: what precedes the first slash. *)
Definition api_group (apiVersion : string) : string := default "" (head (split apiVersion "/")).

Definition owns_package (ref : OwnerReference) : bool :=
  bool_decide (api_group (orAPIVersion ref) = "pkg.crossplane.io") && has_suffix (orKind ref) "Revision".

Definition PackageManagedBy (xrd : option obj) : option PackageOwner :=
  match xrd with
  | None => None
  | Some xrd =>
    (λ ref, {| poKind := orKind ref; poName := orName ref; poAPIVersion := orAPIVersion ref |})
    <$> head (filter (λ ref, owns_package ref = true) (u_GetOwnerReferences xrd))
  end.

(** *** The CRDs an XRD generates *)

Inductive GeneratedCRDRole := RoleComposite | RoleClaim.
Record GeneratedCRD := {
  gcRole : GeneratedCRDRole; gcName : string; gcGroup : string; gcPlural : string; gcKind : string;
  gcNamespaced : bool;
}.

Inductive generated_error :=
| ErrNoXRD
| ErrMissing (field : string)
| ErrMalformedClaimNames (err : string)
| ErrUnusableClaimNames (field : string).

(** A string that has to be there and not be empty. *)
Definition required_string (o : obj) (p : list string) (e : generated_error) : res generated_error string :=
  let s := read_string o p in if bool_decide (s = "") then Err e else Ok s.

Definition GeneratedCRDNames (xrd : option obj) : res generated_error (list GeneratedCRD) :=
  match xrd with
  | None => Err ErrNoXRD
  | Some o =>
    group ← required_string o ["spec"; "group"] (ErrMissing "spec.group");
    plural ← required_string o ["spec"; "names"; "plural"] (ErrMissing "spec.names.plural");
    kind ← required_string o ["spec"; "names"; "kind"] (ErrMissing "spec.names.kind");
    let composite := {| gcRole := RoleComposite; gcName := plural +:+ "." +:+ group; gcGroup := group;
      gcPlural := plural; gcKind := kind;
      gcNamespaced := bool_decide (srScope (ResolveScope xrd) = ScopeNamespaced) |} in
    match NestedMap o ["spec"; "claimNames"] with
    | Err e => Err (ErrMalformedClaimNames e)
    | Ok None => Ok [composite]
    | Ok (Some claimNames) =>
      claimPlural ← required_string claimNames ["plural"] (ErrUnusableClaimNames "spec.claimNames.plural");
      claimKind ← required_string claimNames ["kind"] (ErrUnusableClaimNames "spec.claimNames.kind");
      Ok [composite; {| gcRole := RoleClaim; gcName := claimPlural +:+ "." +:+ group; gcGroup := group;
            gcPlural := claimPlural; gcKind := claimKind; gcNamespaced := true |}]
    end
  end.

(** *** The fields Crossplane injects *)

Definition modernSpecInjected : list FieldPath := [["spec"; "crossplane"]].
Definition legacySpecInjected : list FieldPath :=
  [["spec"; "compositionRef"]; ["spec"; "compositionSelector"]; ["spec"; "compositionRevisionRef"];
   ["spec"; "compositionRevisionSelector"]; ["spec"; "compositionUpdatePolicy"]; ["spec"; "resourceRefs"];
   ["spec"; "claimRef"]; ["spec"; "writeConnectionSecretToRef"]].
Definition claimSpecInjected : list FieldPath :=
  [["spec"; "compositionRef"]; ["spec"; "compositionSelector"]; ["spec"; "compositionRevisionRef"];
   ["spec"; "compositionRevisionSelector"]; ["spec"; "compositionUpdatePolicy"]; ["spec"; "compositeDeletePolicy"];
   ["spec"; "resourceRef"]; ["spec"; "writeConnectionSecretToRef"]].
Definition commonStatusInjected : list FieldPath := [["status"; "conditions"]].
Definition legacyStatusInjected : list FieldPath :=
  [["status"; "conditions"]; ["status"; "connectionDetails"]; ["status"; "claimConditionTypes"]].

(** The loop of [concatPaths] over all sets, with the texts seen so far. *)
Fixpoint concat_paths (seen : gset string) (ps : list FieldPath) : list FieldPath :=
  match ps with
  | [] => []
  | p :: ps => if bool_decide (path_string p ∈ seen) then concat_paths seen ps
               else p :: concat_paths ({[path_string p]} ∪ seen) ps
  end.
Definition concatPaths (sets : list (list FieldPath)) : list FieldPath := concat_paths ∅ (concat sets).

Definition InjectedPathsForScope (s : Scope) (offersClaims : bool) : list FieldPath :=
  match s with
  | ScopeNamespaced | ScopeCluster => concatPaths [modernSpecInjected; commonStatusInjected]
  | ScopeLegacyCluster =>
    if negb offersClaims then concatPaths [legacySpecInjected; legacyStatusInjected]
    else concatPaths [legacySpecInjected; claimSpecInjected; legacyStatusInjected]
  | ScopeIndeterminate => []
  end.

Definition InjectedPathsUnion : list FieldPath :=
  concatPaths [modernSpecInjected; legacySpecInjected; claimSpecInjected; legacyStatusInjected].

Definition offersClaims (xrd : option obj) : bool :=
  match xrd with
  | None => false
  | Some o => match NestedMap o ["spec"; "claimNames"] with Ok (Some _) => true | _ => false end
  end.

Context (reason_text : scope_reason → string).

Definition PlatformInjectedPaths_of (xrd : obj) : PlatformInjectedPaths :=
  let res := ResolveScope (Some xrd) in
  if Indeterminate res then
    {| pjPlatform := "Crossplane"; pjPaths := InjectedPathsUnion; pjUncertain := true;
       pjUncertainReason := "the XRD's scope could not be determined (" +:+ reason_text (srReason res) +:+ ")" |}
  else
    {| pjPlatform := "Crossplane"; pjPaths := InjectedPathsForScope (srScope res) (offersClaims (Some xrd));
       pjUncertain := false; pjUncertainReason := "" |}.

(** *** The schema source *)

Inductive versions_error :=
| ErrReadingVersions (err : string)
| ErrNoVersions (xrd : string)
| ErrVersionNotObject (i : nat)
| ErrVersionField (i : nat) (field err : string)
| ErrConverting (i : nat) (err : string).

Definition read_version (i : nat) (raw : value) : res versions_error VersionSchema :=
  match raw with
  | VObj vm =>
    name ← res_wrap (ErrVersionField i "name") (NestedString vm ["name"]);
    served ← res_wrap (ErrVersionField i "served") (NestedBool vm ["served"]);
    referenceable ← res_wrap (ErrVersionField i "referenceable") (NestedBool vm ["referenceable"]);
    schemaMap ← res_wrap (ErrVersionField i "schema.openAPIV3Schema") (NestedMap vm ["schema"; "openAPIV3Schema"]);
    jsonSchema ← match schemaMap with
                 | Some m => js ← res_wrap (ErrConverting i) (FromUnstructured m); Ok (Some js)
                 | None => Ok None
                 end;
    Ok {| vsName := default "" name; vsSchema := jsonSchema; vsServed := default false served;
          vsStorage := default false referenceable |}
  | _ => Err (ErrVersionNotObject i)
  end.

Fixpoint read_versions (i : nat) (raws : list value) : res versions_error (list VersionSchema) :=
  match raws with
  | [] => Ok []
  | raw :: raws => v ← read_version i raw; vs ← read_versions (S i) raws; Ok (v :: vs)
  end.

Definition Versions (xrd : obj) : res versions_error (list VersionSchema) :=
  match NestedSlice xrd ["spec"; "versions"] with
  | Err e => Err (ErrReadingVersions e)
  | Ok None => Err (ErrNoVersions (u_GetName xrd))
  | Ok (Some raws) => read_versions 0 raws
  end.

Definition Describe (xrd : obj) : ResourceDescriptor :=
  {| rdKind := "XRD"; rdName := u_GetName xrd; rdGeneration := u_GetGeneration xrd |}.

Context (versions_error_text : versions_error → string).

Definition New (xrd : obj) : SchemaSource :=
  {| ssVersions := res_wrap versions_error_text (Versions xrd); ssDescribe := Describe xrd;
     ssPlatform := Some (PlatformInjectedPaths_of xrd) |}.
End xrd.
End xrdadapter.

Import xrdadapter.

Lemma elem_of_concat_paths seen ps p :
  p ∈ concat_paths seen ps → p ∈ ps.
Proof.
  revert seen; induction ps as [|q ps IH]; intros seen; cbn; [done|]. case_bool_decide.
  - intros H'. right. by eapply IH.
  - intros [->|H']%elem_of_cons; [by left|]. right. by eapply IH.
Qed.

Lemma concat_paths_texts seen ps p : p ∈ ps → path_string p ∉ seen → path_string p ∈ path_string <$> concat_paths seen ps.
Proof.
  revert seen; induction ps as [|q ps IH]; intros seen; cbn; [by intros ?%not_elem_of_nil|].
  intros [->|Hp]%elem_of_cons Hs.
  - rewrite bool_decide_false by done. by left.
  - case_bool_decide as Hq; [by apply IH|]. cbn. destruct (decide (path_string p = path_string q)) as [->|Hne]; [by left|].
    right. apply IH; [done|]. set_solver.
Qed.

Lemma concat_paths_NoDup seen ps : NoDup (path_string <$> concat_paths seen ps) ∧
  ∀ p, p ∈ concat_paths seen ps → path_string p ∉ seen.
Proof.
  revert seen; induction ps as [|q ps IH]; intros seen; cbn; [split; [constructor|by intros ? ?%not_elem_of_nil]|].
  case_bool_decide as Hq; [apply IH|]. destruct (IH ({[path_string q]} ∪ seen)) as [IH1 IH2]. split.
  - cbn. constructor; [|done]. intros (p & Hp & Hin)%list_elem_of_fmap. apply IH2 in Hin. set_solver.
  - intros p [->|Hp]%elem_of_cons; [done|]. apply IH2 in Hp. set_solver.
Qed.

Lemma all_in (l k : list FieldPath) : forallb (λ q, bool_decide (q ∈ k)) l = true → ∀ p, p ∈ l → p ∈ k.
Proof. rewrite forallb_forall. intros H p Hp%list_elem_of_In%H. by apply bool_decide_eq_true in Hp. Qed.

Lemma union_covers s claims path : path ∈ InjectedPathsForScope s claims → path ∈ InjectedPathsUnion.
Proof. apply all_in. destruct s, claims; vm_compute; reflexivity. Qed.

Lemma legacy_covers path : path ∈ legacySpecInjected ++ claimSpecInjected ++ legacyStatusInjected →
  path ∈ InjectedPathsForScope ScopeLegacyCluster true.
Proof. apply all_in. vm_compute. reflexivity. Qed.

Section adapter_properties.
Context {U : Unstructured} {UL : UnstructuredLaws U} (reason_text : scope_reason → string).

Definition string_or_absent (o : obj) (p : list string) : Prop := absent o p ∨ ∃ s, getValue o p = Some (VStr s).
Definition list_or_absent (o : obj) (p : list string) : Prop := absent o p ∨ ∃ l, getValue o p = Some (VArr l).

(** An XRD that offers claims reserves the fields of both CRDs it generates.
    If [spec.claimNames] is an object, and the other two signals have their types
    or are absent, the scope resolves to LegacyCluster whatever [spec.scope] says,
    and the paths checked are exactly those Crossplane injects into the composite
    and into the claim, each once, and checked for certain.  And if no scope can
    be determined, the paths of every scope are checked, as warnings. *)
Theorem reserved_paths_cover_the_scope xrd :
  (∀ m, getValue xrd ["spec"; "claimNames"] = Some (VObj m) → string_or_absent xrd ["spec"; "scope"] →
     list_or_absent xrd ["spec"; "connectionSecretKeys"] →
     let p := PlatformInjectedPaths_of reason_text xrd in
     srScope (ResolveScope (Some xrd)) = ScopeLegacyCluster ∧ pjUncertain p = false ∧ NoDup (path_string <$> pjPaths p) ∧
     ∀ path, path ∈ pjPaths p ↔ path ∈ legacySpecInjected ++ claimSpecInjected ++ legacyStatusInjected) ∧
  (Indeterminate (ResolveScope (Some xrd)) = true →
     let p := PlatformInjectedPaths_of reason_text xrd in
     pjUncertain p = true ∧ ∀ s claims path, path ∈ InjectedPathsForScope s claims → path ∈ pjPaths p).
Proof.
  split.
  - intros m Hm Hscope Hkeys p.
    assert (srScope (ResolveScope (Some xrd)) = ScopeLegacyCluster) as Hs.
    { unfold ResolveScope. rewrite (nested_map_found _ _ _ Hm).
      assert (∃ d, NestedString xrd ["spec"; "scope"] = Ok d) as [d ->].
      { destruct Hscope as [H|[s H]]; eexists; [by apply nested_string_absent|by apply nested_string_found]. }
      assert (∃ k, NestedSlice xrd ["spec"; "connectionSecretKeys"] = Ok k) as [k ->].
      { destruct Hkeys as [H|[l H]]; eexists; [by apply nested_slice_absent|by apply nested_slice_found]. }
      cbn. unfold scope_with_signals. by repeat case_bool_decide. }
    assert (offersClaims (Some xrd) = true) as Ho by (unfold offersClaims; by rewrite (nested_map_found _ _ _ Hm)).
    assert (pjPaths p = InjectedPathsForScope ScopeLegacyCluster true ∧ pjUncertain p = false) as [-> ->].
    { unfold p, PlatformInjectedPaths_of, Indeterminate. by rewrite Hs, Ho. }
    split_and!; [done|done|apply concat_paths_NoDup|]. intros path. split; [by apply elem_of_concat_paths|].
    apply legacy_covers.
  - intros Hi p. unfold p, PlatformInjectedPaths_of. rewrite Hi. split; [done|].
    apply union_covers.
Qed.
End adapter_properties.

(** ** The scope of an XRD as the documentation of the accessors determines it *)

(** Unstructured objects read by [getValue]. *)
Definition nested {A} (as_ : value → option A) (o : obj) (p : list string) : res string (option A) :=
  match getValue o p with
  | None => Ok None
  | Some v => match as_ v with Some a => Ok (Some a) | None => Err "wrong type" end
  end.
Definition fixture_unstructured : Unstructured := {|
  NestedString := nested (λ v, match v with VStr s => Some s | _ => None end);
  NestedBool := nested (λ v, match v with VBool b => Some b | _ => None end);
  NestedMap := nested (λ v, match v with VObj m => Some m | _ => None end);
  NestedSlice := nested (λ v, match v with VArr l => Some l | _ => None end);
  FromUnstructured := λ _, Ok emptySchema;
  u_GetName := λ _, "xapps"; u_GetGeneration := λ _, 1%Z; u_GetAPIVersion := λ _, GroupVersion_v2;
  u_GetOwnerReferences := λ _, [];
|}.

Lemma fixture_unstructured_laws : UnstructuredLaws fixture_unstructured.
Proof.
  split; cbn; unfold nested; intros o p; try (intros [H _]; by rewrite H); try (intros x H; by rewrite H);
    intros v Hv Hne; rewrite Hv; destruct v; try (by eexists); exfalso; by eapply Hne.
Qed.

(** Claims on an XRD that says it is Namespaced. *)
Definition claim_xrd : obj :=
  {["spec" := VObj {["claimNames" := VObj {["plural" := VStr "apps"]}; "scope" := VStr "Namespaced"]}]}.

Lemma reserved_paths_cover_the_scope_witness :
  srScope (ResolveScope (U := fixture_unstructured) (Some claim_xrd)) = ScopeLegacyCluster ∧
  ["spec"; "resourceRef"] ∈ pjPaths (PlatformInjectedPaths_of (U := fixture_unstructured) (λ _, "") claim_xrd).
Proof.
  destruct (reserved_paths_cover_the_scope (UL := fixture_unstructured_laws) (λ _, "") claim_xrd) as [H _].
  destruct (H {["plural" := VStr "apps"]}) as (H1 & _ & _ & H2).
  - by vm_compute.
  - right. exists "Namespaced". by vm_compute.
  - left. split; [by vm_compute|]. intros k v Hk Hp Hv. destruct k as [|a k]; [done|].
    apply prefix_cons_inv_1 in Hp as Ha. subst a. apply prefix_cons_inv_2 in Hp. destruct k as [|b k].
    + cbn in Hv. injection Hv as <-. by eexists.
    + apply prefix_cons_inv_1 in Hp as Hb. subst b. apply prefix_cons_inv_2 in Hp.
      destruct k as [|c k]; [by vm_compute in Hv|by apply prefix_nil_not in Hp].
  - split; [exact H1|]. apply H2. apply (bool_decide_unpack _). by vm_compute.
Defined.
