(* ===== verification/Configs.v ===== *)
(** The status of a config (api/v1alpha1/xrdconversionconfig_types.go,
    crdconversionconfig_types.go) and its conditions.

    One record serves both kinds: a CRDConversionConfig has no [WebhookPort] and no
    [GeneratedCRDs], which stay 0 and empty.  The operations on a condition list
    are apimachinery's [meta] package, a parameter (class [ConditionOps]) whose
    documentation [ConditionLaws] states.  A message is data: [Text] for a fixed
    text, a constructor with its operands otherwise.

    Then the two config kinds themselves: their fields, their accessors, and
    [ToRuleSets]. *)
From S2P Require Import Prelude Float64 Value Json Path Schema Rules Diagnostics Compile Normalize Platform Required Analyze Assign Api Adapters.

(** ** Messages *)

(** The messages of a handover verdict (internal/controller/servedtargets.go). *)
Inductive handover_message :=
| MNoReadyReplicas (server target : string)
| MAwaitingReports (server target : string)
| MUnverified (server target : string)
| MUnknown (server target : string)
| MFewReports (reporting ready : Z) (server target : string)
| MNotYetServing (server target : string) (reporting : Z)
| MReady (server target : string) (reporting : Z).

(** The messages of a generated CRD (internal/controller/propagation.go). *)
Inductive generated_message :=
| GNoMessage
| GNotCreated
| GReadFailed (err : string)
| GStrategy (strategy : string)
| GNoService
| GService (ns name wantNs wantName : string)
| GPath (path want : string)
| GPort (port want : Z)
| GReviewVersions (got want : list string)
| GCABundle (got want : string)
| GSeeStatus.

Inductive status_message :=
| Text (s : string)
| TargetMissing (kind target : string)
| BadRules (e : rule_error)
| AnalysisFailed (e : analyze_error)
| BadAssignment (e : assign_error)
| RevertFailedWith (err : string)
| ServerNotAvailable (server : string)
| ServerIsAvailable (server : string)
| HandoverText (m : handover_message)
| StillServed (kind target : string) (versions : nat)
| OwnedByPackage (kind name : string)
| CannotListGenerated (e : xrdadapter.generated_error)
| AwaitingCRDs (names : list string)
| NotCarried (names : list string) (first : generated_message)
| StaleBundle (names : list string)
| AllCarried (names : list string)
| SeveralDefaults (names : list string)
| DeploymentLookup (err : string)
| ServiceLookup (err : option string)
| SecretLookup (err : string)
| StillAssigned (total : nat) (isDefault : bool) (names : list string).

Abbreviation no_message := (Text "").

(** ** Conditions *)

(** [metav1.Condition]; no transition time is the zero time. *)
Record Condition := {
  cdType : string; cdStatus : string; cdReason : string; cdMessage : status_message;
  cdLastTransition : option Z }.

(** A condition as the code writes one, without a time. *)
Definition condition (type status reason : string) (m : status_message) : Condition :=
  {| cdType := type; cdStatus := status; cdReason := reason; cdMessage := m; cdLastTransition := None |}.

(** k8s.io/apimachinery/pkg/api/meta; [SetStatusCondition] takes the current time. *)
Class ConditionOps := {
  SetStatusCondition : Z → list Condition → Condition → list Condition;
  RemoveStatusCondition : list Condition → string → list Condition;
  FindStatusCondition : list Condition → string → option Condition;
}.

(** The transition time is kept while the status is, and is [now] otherwise
    unless the new condition brings its own. *)
Definition transition (now : Z) (old : option Condition) (c : Condition) : option Z :=
  let fresh := match cdLastTransition c with Some t => Some t | None => Some now end in
  match old with
  | Some o => if bool_decide (cdStatus o = cdStatus c) then cdLastTransition o else fresh
  | None => fresh
  end.

Class ConditionLaws (C : ConditionOps) := {
  find_nil t : FindStatusCondition [] t = None;
  find_set_same now l c :
    FindStatusCondition (SetStatusCondition now l c) (cdType c) =
    Some {| cdType := cdType c; cdStatus := cdStatus c; cdReason := cdReason c; cdMessage := cdMessage c;
            cdLastTransition := transition now (FindStatusCondition l (cdType c)) c |};
  find_set_other now l c t : t ≠ cdType c →
    FindStatusCondition (SetStatusCondition now l c) t = FindStatusCondition l t;
  find_remove_same l t : FindStatusCondition (RemoveStatusCondition l t) t = None;
  find_remove_other l t t' : t' ≠ t → FindStatusCondition (RemoveStatusCondition l t) t' = FindStatusCondition l t';
}.

Definition boolStatus (b : bool) : string := if b then "True" else "False".

Definition IsStatusConditionTrue `{CO : ConditionOps} (l : list Condition) (t : string) : bool :=
  match FindStatusCondition l t with Some c => bool_decide (cdStatus c = "True") | None => false end.

Definition ConditionValidated : string := "Validated".
Definition ConditionXRDHealthy : string := "XRDHealthy".
Definition ConditionCRDHealthy : string := "CRDHealthy".
Definition ConditionWebhookServerReady : string := "WebhookServerReady".
Definition ConditionApplied : string := "Applied".
Definition ConditionStale : string := "Stale".
Definition ConditionDeletionBlocked : string := "DeletionBlocked".
Definition ConditionPackageManaged : string := "PackageManaged".
Definition ConditionConversionPropagated : string := "ConversionPropagated".
Definition ConditionHandoverReady : string := "HandoverReady".

Definition ReasonReverted : string := "Reverted".
Definition ReasonRevertFailed : string := "RevertFailed".
Definition ReasonPropagated : string := "Propagated".
Definition ReasonNotPropagated : string := "NotPropagated".
Definition ReasonGeneratedCRDNotFound : string := "GeneratedCRDNotFound".
Definition ReasonCABundleStale : string := "CABundleStale".

(** ** Phases *)

Definition PhasePending : string := "Pending".
Definition PhaseInvalid : string := "Invalid".
Definition PhaseApplied : string := "Applied".
Definition PhaseStale : string := "Stale".
Definition PhaseFailed : string := "Failed".

Definition DriftPolicyFailClosed : string := "FailClosed".
Definition XRDConversionConfigFinalizer : string := "conversion.terasky.com/safe-revert".
Definition CRDConversionConfigFinalizer : string := "conversion.terasky.com/safe-revert-crd".
Definition AllowUnsafeDeleteAnnotation : string := "conversion.terasky.com/allow-unsafe-delete".

(** ** The status *)

Record SpokeRuleResult := {
  sruIndex : Z; sruStrategy : Strategy; sruHubPaths : list string; sruSpokePaths : list string;
  sruLossless : LosslessVerdict; sruErrors : list message; sruWarnings : list message }.

Record SpokeConversionStatus := {
  scVersion : string;
  scLossless : LosslessVerdict;
  scFieldsUncoveredHub : list string;
  scFieldsUncoveredSpoke : list string;
  scRuleResults : list SpokeRuleResult;
  scErrors : list message;
  scWarnings : list message }.

Record GeneratedCRDStatus := {
  gsName : string; gsRole : xrdadapter.GeneratedCRDRole; gsPropagated : bool; gsObservedCABundleHash : string;
  gsObservedAt : option Z; gsMessage : generated_message }.

Record ConversionConfigStatus := {
  stObservedGeneration : Z;
  stObservedTargetGeneration : Z;   (* ObservedXRDGeneration, ObservedCRDGeneration *)
  stSchemaHash : string;
  stPhase : string;
  stConditions : list Condition;
  stAssignedWebhookServer : string;
  stWebhookPath : string;
  stWebhookURL : string;
  stWebhookPort : Z;
  stOverallLossless : bool;
  stSpokeStatuses : list SpokeConversionStatus;
  stLastAppliedPlanHash : string;
  stGeneratedCRDs : list GeneratedCRDStatus;
  stMessage : status_message }.

Definition new_status : ConversionConfigStatus := {|
  stObservedGeneration := 0; stObservedTargetGeneration := 0; stSchemaHash := ""; stPhase := "";
  stConditions := []; stAssignedWebhookServer := ""; stWebhookPath := ""; stWebhookURL := ""; stWebhookPort := 0;
  stOverallLossless := false; stSpokeStatuses := []; stLastAppliedPlanHash := ""; stGeneratedCRDs := [];
  stMessage := no_message |}.

(** *** Assignments to its fields *)

Definition with_conditions (s : ConversionConfigStatus) (l : list Condition) : ConversionConfigStatus := {|
  stObservedGeneration := stObservedGeneration s; stObservedTargetGeneration := stObservedTargetGeneration s;
  stSchemaHash := stSchemaHash s; stPhase := stPhase s; stConditions := l;
  stAssignedWebhookServer := stAssignedWebhookServer s; stWebhookPath := stWebhookPath s;
  stWebhookURL := stWebhookURL s; stWebhookPort := stWebhookPort s; stOverallLossless := stOverallLossless s;
  stSpokeStatuses := stSpokeStatuses s; stLastAppliedPlanHash := stLastAppliedPlanHash s;
  stGeneratedCRDs := stGeneratedCRDs s; stMessage := stMessage s |}.
Definition with_phase (s : ConversionConfigStatus) (p : string) : ConversionConfigStatus := {|
  stObservedGeneration := stObservedGeneration s; stObservedTargetGeneration := stObservedTargetGeneration s;
  stSchemaHash := stSchemaHash s; stPhase := p; stConditions := stConditions s;
  stAssignedWebhookServer := stAssignedWebhookServer s; stWebhookPath := stWebhookPath s;
  stWebhookURL := stWebhookURL s; stWebhookPort := stWebhookPort s; stOverallLossless := stOverallLossless s;
  stSpokeStatuses := stSpokeStatuses s; stLastAppliedPlanHash := stLastAppliedPlanHash s;
  stGeneratedCRDs := stGeneratedCRDs s; stMessage := stMessage s |}.
Definition with_message (s : ConversionConfigStatus) (m : status_message) : ConversionConfigStatus := {|
  stObservedGeneration := stObservedGeneration s; stObservedTargetGeneration := stObservedTargetGeneration s;
  stSchemaHash := stSchemaHash s; stPhase := stPhase s; stConditions := stConditions s;
  stAssignedWebhookServer := stAssignedWebhookServer s; stWebhookPath := stWebhookPath s;
  stWebhookURL := stWebhookURL s; stWebhookPort := stWebhookPort s; stOverallLossless := stOverallLossless s;
  stSpokeStatuses := stSpokeStatuses s; stLastAppliedPlanHash := stLastAppliedPlanHash s;
  stGeneratedCRDs := stGeneratedCRDs s; stMessage := m |}.
Definition with_observed_generation (s : ConversionConfigStatus) (g : Z) : ConversionConfigStatus := {|
  stObservedGeneration := g; stObservedTargetGeneration := stObservedTargetGeneration s;
  stSchemaHash := stSchemaHash s; stPhase := stPhase s; stConditions := stConditions s;
  stAssignedWebhookServer := stAssignedWebhookServer s; stWebhookPath := stWebhookPath s;
  stWebhookURL := stWebhookURL s; stWebhookPort := stWebhookPort s; stOverallLossless := stOverallLossless s;
  stSpokeStatuses := stSpokeStatuses s; stLastAppliedPlanHash := stLastAppliedPlanHash s;
  stGeneratedCRDs := stGeneratedCRDs s; stMessage := stMessage s |}.
Definition with_observed_target (s : ConversionConfigStatus) (g : Z) : ConversionConfigStatus := {|
  stObservedGeneration := stObservedGeneration s; stObservedTargetGeneration := g;
  stSchemaHash := stSchemaHash s; stPhase := stPhase s; stConditions := stConditions s;
  stAssignedWebhookServer := stAssignedWebhookServer s; stWebhookPath := stWebhookPath s;
  stWebhookURL := stWebhookURL s; stWebhookPort := stWebhookPort s; stOverallLossless := stOverallLossless s;
  stSpokeStatuses := stSpokeStatuses s; stLastAppliedPlanHash := stLastAppliedPlanHash s;
  stGeneratedCRDs := stGeneratedCRDs s; stMessage := stMessage s |}.
Definition with_server (s : ConversionConfigStatus) (name : string) : ConversionConfigStatus := {|
  stObservedGeneration := stObservedGeneration s; stObservedTargetGeneration := stObservedTargetGeneration s;
  stSchemaHash := stSchemaHash s; stPhase := stPhase s; stConditions := stConditions s;
  stAssignedWebhookServer := name; stWebhookPath := stWebhookPath s; stWebhookURL := stWebhookURL s;
  stWebhookPort := stWebhookPort s; stOverallLossless := stOverallLossless s;
  stSpokeStatuses := stSpokeStatuses s; stLastAppliedPlanHash := stLastAppliedPlanHash s;
  stGeneratedCRDs := stGeneratedCRDs s; stMessage := stMessage s |}.
Definition with_generated (s : ConversionConfigStatus) (l : list GeneratedCRDStatus) : ConversionConfigStatus := {|
  stObservedGeneration := stObservedGeneration s; stObservedTargetGeneration := stObservedTargetGeneration s;
  stSchemaHash := stSchemaHash s; stPhase := stPhase s; stConditions := stConditions s;
  stAssignedWebhookServer := stAssignedWebhookServer s; stWebhookPath := stWebhookPath s;
  stWebhookURL := stWebhookURL s; stWebhookPort := stWebhookPort s; stOverallLossless := stOverallLossless s;
  stSpokeStatuses := stSpokeStatuses s; stLastAppliedPlanHash := stLastAppliedPlanHash s; stGeneratedCRDs := l;
  stMessage := stMessage s |}.

(** What an analysis sets. *)
Definition with_report (s : ConversionConfigStatus) (spokes : list SpokeConversionStatus) (lossless : bool)
    (hash : string) : ConversionConfigStatus := {|
  stObservedGeneration := stObservedGeneration s; stObservedTargetGeneration := stObservedTargetGeneration s;
  stSchemaHash := hash; stPhase := stPhase s; stConditions := stConditions s;
  stAssignedWebhookServer := stAssignedWebhookServer s; stWebhookPath := stWebhookPath s;
  stWebhookURL := stWebhookURL s; stWebhookPort := stWebhookPort s; stOverallLossless := lossless;
  stSpokeStatuses := spokes; stLastAppliedPlanHash := stLastAppliedPlanHash s;
  stGeneratedCRDs := stGeneratedCRDs s; stMessage := stMessage s |}.

(** What a successful apply records. *)
Definition with_webhook (s : ConversionConfigStatus) (path url : string) (port : Z) : ConversionConfigStatus := {|
  stObservedGeneration := stObservedGeneration s; stObservedTargetGeneration := stObservedTargetGeneration s;
  stSchemaHash := stSchemaHash s; stPhase := stPhase s; stConditions := stConditions s;
  stAssignedWebhookServer := stAssignedWebhookServer s; stWebhookPath := path; stWebhookURL := url;
  stWebhookPort := port; stOverallLossless := stOverallLossless s; stSpokeStatuses := stSpokeStatuses s;
  stLastAppliedPlanHash := stSchemaHash s; stGeneratedCRDs := stGeneratedCRDs s; stMessage := stMessage s |}.

(** The object metadata that is read: a non-zero deletion timestamp is [true]. *)
Record ObjectMeta := {
  omName : string; omDeleting : bool; omGeneration : Z;
  omFinalizers : list string; omAnnotations : gmap string string }.

Record XRDConversionConfigSpec := {
  xsTargetXRD : string;
  xsHubVersion : string;
  xsSpokes : list SpokeVersionRules;
  xsWebhookServerRef : option string;
  xsConversionReviewVersions : list string;
  xsUnmappedFieldPolicy : UnmappedFieldPolicy;
  xsUnmappedFieldReason : string;
  xsDriftPolicy : string;
}.
Record XRDConversionConfig := {
  xcMeta : ObjectMeta; xcSpec : XRDConversionConfigSpec; xcStatus : ConversionConfigStatus }.

Record CRDConversionConfigSpec := {
  csTargetCRD : string;
  csHubVersion : string;
  csSpokes : list SpokeVersionRules;
  csWebhookServerRef : option string;
  csConversionReviewVersions : list string;
  csUnmappedFieldPolicy : UnmappedFieldPolicy;
  csUnmappedFieldReason : string;
  csDriftPolicy : string;
}.
Record CRDConversionConfig := {
  kcMeta : ObjectMeta; kcSpec : CRDConversionConfigSpec; kcStatus : ConversionConfigStatus }.

(** [GetName], [WebhookServerRefField], [ShardKey] and [AppliedWebhookURL]. *)
#[export] Instance XRDConversionConfig_serving : ServingConfigLike XRDConversionConfig := {|
  serving_config := {|
    GetName c := omName (xcMeta c);
    WebhookServerRefField c := xsWebhookServerRef (xcSpec c);
    ShardKey c := xsTargetXRD (xcSpec c);
  |};
  AppliedWebhookURL c := stWebhookURL (xcStatus c);
|}.
#[export] Instance CRDConversionConfig_serving : ServingConfigLike CRDConversionConfig := {|
  serving_config := {|
    GetName c := omName (kcMeta c);
    WebhookServerRefField c := csWebhookServerRef (kcSpec c);
    ShardKey c := csTargetCRD (kcSpec c);
  |};
  AppliedWebhookURL c := stWebhookURL (kcStatus c);
|}.

Section rule_sets.
Context `{RO : RangeOrder}.

Definition XRD_ToRuleSets (c : XRDConversionConfig) : res rule_error (list RuleSet) :=
  spokesToRuleSets (xsHubVersion (xcSpec c)) (xsSpokes (xcSpec c)) (xsUnmappedFieldPolicy (xcSpec c)).
Definition CRD_ToRuleSets (c : CRDConversionConfig) : res rule_error (list RuleSet) :=
  spokesToRuleSets (csHubVersion (kcSpec c)) (csSpokes (kcSpec c)) (csUnmappedFieldPolicy (kcSpec c)).
End rule_sets.
