(* ===== verification/Replica.v ===== *)
(** A webhook-server replica keeping its registry in sync with the cluster
    (internal/webhookserver/reconciler.go and handover.go).

    The state is the reconciler's: the registry (by its contract, Registry.v), the
    two bookkeeping maps, and the trace of what is published (metrics and Lease
    notifications).  What the API server answers to the reads of one reconcile is
    its input, a [view]; each read happens once.  The XRD and the CRD paths are the
    same code over two kinds of objects: the class [TargetKind] lists where they
    differ.  Moments are nanoseconds. *)
From S2P Require Import Prelude Float64 Value Json Path Schema Rules Coerce Passthrough Ops Convert Diagnostics Compile Normalize Platform Required Analyze Assign Api Configs Adapters Registry.

(** [XRDNotFound], [InvalidRules], ... and their messages' parts. *)
Inductive failure :=
| TargetNotFound (kind target : string)
| InvalidRules (e : rule_error)
| AnalyzeFailed (e : analyze_error)
| ValidationErrors.

Definition failure_reason (f : failure) : string :=
  match f with
  | TargetNotFound kind _ => kind +:+ "NotFound"
  | InvalidRules _ => "InvalidRules"
  | AnalyzeFailed _ => "AnalyzeFailed"
  | ValidationErrors => "ValidationErrors"
  end.

(** What is published: counter increments, gauge refreshes, Lease notifications. *)
Inductive effect :=
| RegistryReloadTotal (target label : string)
| RegistryLastReload (target : string)
| RegistryCompileErr (target reason : string)
| SyncRegistryMetrics
| NotifyPublisher.

Record Settings := {
  seServerName : string;
  seTargetDrainPeriod : Z;
  seMetrics : bool;                 (* Metrics is set *)
  seEnableXRDSupport : bool;
  seEnableCRDSupport : bool;
  failure_text : failure → string;  (* the message a failure is formatted to *)
  seFuel : nat;                     (* of the schema normalisation *)
}.

Record replica := {
  rpRegistry : registry;
  rpConfigToTarget : gmap string string;
  rpDrainUntil : gmap string Z;
  rpBulkSync : bool;
  rpEffects : list effect;
}.

Definition new_replica : replica :=
  {| rpRegistry := NewRegistry; rpConfigToTarget := ∅; rpDrainUntil := ∅; rpBulkSync := false; rpEffects := [] |}.

Definition with_registry (r : replica) (m : registry) : replica :=
  {| rpRegistry := m; rpConfigToTarget := rpConfigToTarget r; rpDrainUntil := rpDrainUntil r;
     rpBulkSync := rpBulkSync r; rpEffects := rpEffects r |}.
Definition with_targets (r : replica) (m : gmap string string) : replica :=
  {| rpRegistry := rpRegistry r; rpConfigToTarget := m; rpDrainUntil := rpDrainUntil r;
     rpBulkSync := rpBulkSync r; rpEffects := rpEffects r |}.
Definition with_drains (r : replica) (m : gmap string Z) : replica :=
  {| rpRegistry := rpRegistry r; rpConfigToTarget := rpConfigToTarget r; rpDrainUntil := m;
     rpBulkSync := rpBulkSync r; rpEffects := rpEffects r |}.
Definition with_bulk (r : replica) (b : bool) : replica :=
  {| rpRegistry := rpRegistry r; rpConfigToTarget := rpConfigToTarget r; rpDrainUntil := rpDrainUntil r;
     rpBulkSync := b; rpEffects := rpEffects r |}.
Definition emit (r : replica) (es : list effect) : replica :=
  {| rpRegistry := rpRegistry r; rpConfigToTarget := rpConfigToTarget r; rpDrainUntil := rpDrainUntil r;
     rpBulkSync := rpBulkSync r; rpEffects := rpEffects r ++ es |}.

Definition DefaultTargetDrainPeriod : Z := 30 * 1000000000.

Definition configKey (kind name : string) : string := kind +:+ "/" +:+ name.

(** ** What still points here *)

Definition crdPointsAtServer (crd : option CustomResourceDefinition) (serverName : string) : bool :=
  match (crd ← crd; conv ← crdConversion crd; wh ← ccWebhook conv; cc ← whClientConfig wh; wcService cc) with
  | Some svc => bool_decide (svcName svc = WebhookServerServiceName serverName)
  | None => false
  end.

Definition xrdPointsAtServer `{U : Unstructured} (xrd : option obj) (serverName : string) : bool :=
  match xrd with
  | None => false
  | Some xrd =>
    match NestedString xrd ["spec"; "conversion"; "webhook"; "clientConfig"; "service"; "name"] with
    | Ok (Some name) => bool_decide (name = WebhookServerServiceName serverName)
    | _ => false
    end
  end.

(** ** The reads of one reconcile *)

Inductive read (A : Type) := Found (a : A) | NotFound | Failed (err : string).
Arguments Found {A} a.
Arguments NotFound {A}.
Arguments Failed {A} err.

Record view (C T : Type) := {
  vwConfig : read C;                                     (* Get of the config *)
  vwServers : res string (list ConversionWebhookServer); (* List of the servers *)
  vwTarget : read T;                                     (* Get of its target *)
  vwNow : Z;                                             (* time.Now *)
}.
Arguments vwConfig {C T} v.
Arguments vwServers {C T} v.
Arguments vwTarget {C T} v.
Arguments vwNow {C T} v.

Inductive reconcile_error :=
| ErrGettingConfig (name err : string)
| ErrListingServers (err : string)
| ErrGettingTarget (name err : string).

(** Where the two paths differ. *)
Class TargetKind (C T : Type) := {
  tk_prefix : string;                     (* of the config keys *)
  tk_name : string;                       (* in failure reasons *)
  tk_config :: ServingConfigLike C;
  tk_meta : C → ObjectMeta;
  tk_target : C → string;
  tk_hub : C → string;
  tk_review : C → list string;
  tk_rules : C → res rule_error (list RuleSet);
  tk_points : T → string → bool;
  tk_source : T → SchemaSource;
}.

Section replica.
Context `{ML : MathLog} `{RO : RangeOrder} `{EX : Externs} `{CX : CompileExterns} (se : Settings).

(** ** The reconciler's own operations *)

Definition cancelDrain (r : replica) (key : string) : replica := with_drains r (delete key (rpDrainUntil r)).

Definition rememberConfig (r : replica) (key targetName : string) : replica :=
  with_targets r (<[key := targetName]> (rpConfigToTarget r)).

Definition registryChanged (r : replica) : replica :=
  if rpBulkSync r then r
  else emit r ((if seMetrics se then [SyncRegistryMetrics] else []) ++ [NotifyPublisher]).

Definition dropTarget (r : replica) (key targetName : string) : replica :=
  let r := cancelDrain r key in
  registryChanged (with_registry r (Remove (rpRegistry r) targetName)).

Definition forgetConfig (r : replica) (key : string) : replica :=
  let target := rpConfigToTarget r !! key in
  let r := with_drains (with_targets r (delete key (rpConfigToTarget r))) (delete key (rpDrainUntil r)) in
  match target with
  | Some targetName => registryChanged (with_registry r (Remove (rpRegistry r) targetName))
  | None => r
  end.

Definition recordFailure (r : replica) (targetName : string) (f : failure) (now : Z) : replica :=
  let r := with_registry r (RecordError (rpRegistry r) targetName (failure_text se f) now) in
  let r := if seMetrics se
           then emit r [RegistryReloadTotal targetName "error"; RegistryCompileErr targetName (failure_reason f)]
           else r in
  registryChanged r.

(** The time left before a target that no longer names this replica may be
    dropped, 0 when it may. *)
Definition drainRemaining (r : replica) (key targetName : string) (now : Z) : replica * Z :=
  let period := if bool_decide (seTargetDrainPeriod se = 0%Z) then DefaultTargetDrainPeriod
                else seTargetDrainPeriod se in
  if (period <? 0)%Z then (r, 0%Z)
  else match Get (rpRegistry r) targetName with
  | None => (cancelDrain r key, 0%Z)
  | Some _ =>
    match rpDrainUntil r !! key with
    | None => (with_drains r (<[key := (now + period)%Z]> (rpDrainUntil r)), period)
    | Some deadline =>
      if (0 <? deadline - now)%Z then (r, (deadline - now)%Z)
      else (with_drains r (delete key (rpDrainUntil r)), 0%Z)
    end
  end.

(** The entry of a report without errors. *)
Definition compiled_entry (hubVersion : string) (reviewVersions : list string) (report : AnalyzeReport)
    (planHash : string) (now : Z) : CompiledEntry := {|
  ceRouter := Some {| rtHub := hubVersion;
    rtPlans := foldl (λ m sr, <[srVersion sr := srCompiledPlan sr]> m) ∅ (arSpokeReports report) |};
  ceConversionReviewVersions := if bool_decide (length reviewVersions = 0) then ["v1"] else reviewVersions;
  ceLossless := foldl (λ m sr, <[srVersion sr := srLossless sr]> m) ∅ (arSpokeReports report);
  cePlanHash := planHash;
  ceCompiledAt := Some now;
  ceLastError := "";
  ceLastErrorAt := None;
|}.

Definition compileAndRegister (r : replica) (targetName hubVersion : string) (reviewVersions : list string)
    (report : AnalyzeReport) (planHash : string) (now : Z) : replica :=
  let entry := compiled_entry hubVersion reviewVersions report planHash now in
  let r := with_registry r (Set_ (rpRegistry r) targetName entry) in
  let r := if seMetrics se
           then emit r [RegistryReloadTotal targetName "success"; RegistryLastReload targetName] else r in
  registryChanged r.

(** ** One reconcile *)

Section kind.
Context `{TK : TargetKind C T}.

(** [mine]: assigned to this server, an unresolvable assignment being nobody's. *)
Definition assigned_here (cfg : C) (servers : list ConversionWebhookServer) : bool :=
  IsAssignedTo cfg servers (seServerName se).

Definition plan_hash (target : T) (cfg : C) : string :=
  "gen=" +:+ pretty (rdGeneration (ssDescribe (tk_source target))) +:+ "/" +:+ pretty (omGeneration (tk_meta cfg)).

(** The tail of a reconcile, once the target is this replica's to serve. *)
Definition compile_target (r : replica) (cfg : C) (target : T) (now : Z) : replica :=
  match tk_rules cfg with
  | Err e => recordFailure r (tk_target cfg) (InvalidRules e) now
  | Ok ruleSets =>
    match Analyze (seFuel se) {| aiSource := tk_source target; aiHubVersion := tk_hub cfg; aiSpokes := ruleSets |} with
    | Err e => recordFailure r (tk_target cfg) (AnalyzeFailed e) now
    | Ok report =>
      if HasErrors report then recordFailure r (tk_target cfg) ValidationErrors now
      else compileAndRegister r (tk_target cfg) (tk_hub cfg) (tk_review cfg) report (plan_hash target cfg) now
    end
  end.

(** The drain of a target that is somebody else's. *)
Definition hand_over (r : replica) (key : string) (cfg : C) (now : Z) : replica * Z :=
  let '(r, wait) := drainRemaining r key (tk_target cfg) now in
  if (0 <? wait)%Z then (r, wait) else (dropTarget r key (tk_target cfg), 0%Z).

Definition reconcileOne (r : replica) (name : string) (v : view C T) : replica * res reconcile_error Z :=
  let key := configKey tk_prefix name in
  match vwConfig v with
  | NotFound => (forgetConfig r key, Ok 0%Z)
  | Failed e => (r, Err (ErrGettingConfig name e))
  | Found cfg =>
    if omDeleting (tk_meta cfg) then (forgetConfig r key, Ok 0%Z)
    else
      let r := rememberConfig r key (tk_target cfg) in
      match vwServers v with
      | Err e => (r, Err (ErrListingServers e))
      | Ok servers =>
        let mine := assigned_here cfg servers in
        match vwTarget v with
        | NotFound =>
          if negb mine then (dropTarget r key (tk_target cfg), Ok 0%Z)
          else (recordFailure r (tk_target cfg) (TargetNotFound tk_name (tk_target cfg)) (vwNow v), Ok 0%Z)
        | Failed e => (r, Err (ErrGettingTarget (tk_target cfg) e))
        | Found target =>
          if negb mine && negb (tk_points target (seServerName se))
          then let '(r, wait) := hand_over r key cfg (vwNow v) in (r, Ok wait)
          else (compile_target (cancelDrain r key) cfg target (vwNow v), Ok 0%Z)
        end
      end
  end.

(** [reconcileXRD] and [reconcileCRD]: the result is a requeue delay. *)
Definition reconcile (r : replica) (name : string) (v : view C T) : replica * res reconcile_error Z :=
  reconcileOne r name v.
End kind.

(** ** The two kinds *)

Context `{U : Unstructured} (scope_text : xrdadapter.scope_reason → string)
  (versions_text : xrdadapter.versions_error → string).

Definition xrd_kind : TargetKind XRDConversionConfig obj := {|
  tk_prefix := "xrd"; tk_name := "XRD"; tk_config := XRDConversionConfig_serving;
  tk_meta := xcMeta; tk_target c := xsTargetXRD (xcSpec c); tk_hub c := xsHubVersion (xcSpec c);
  tk_review c := xsConversionReviewVersions (xcSpec c); tk_rules := XRD_ToRuleSets;
  tk_points o := xrdPointsAtServer (Some o); tk_source := xrdadapter.New scope_text versions_text |}.
Definition crd_kind : TargetKind CRDConversionConfig CustomResourceDefinition := {|
  tk_prefix := "crd"; tk_name := "CRD"; tk_config := CRDConversionConfig_serving;
  tk_meta := kcMeta; tk_target c := csTargetCRD (kcSpec c); tk_hub c := csHubVersion (kcSpec c);
  tk_review c := csConversionReviewVersions (kcSpec c); tk_rules := CRD_ToRuleSets;
  tk_points o := crdPointsAtServer (Some o); tk_source := crdadapter.New |}.

Definition reconcileOneXRD : replica → string → view XRDConversionConfig obj → replica * res reconcile_error Z :=
  reconcileOne (TK := xrd_kind).
Definition reconcileOneCRD :
    replica → string → view CRDConversionConfig CustomResourceDefinition → replica * res reconcile_error Z :=
  reconcileOne (TK := crd_kind).

(** ** The initial pass

    One unit of work per config, the reads it will get with it.  The list is the
    order in which the worker pool happens to run the units; each writes the
    registry under its own lock. *)
Inductive work :=
| WorkXRD (name : string) (v : view XRDConversionConfig obj)
| WorkCRD (name : string) (v : view CRDConversionConfig CustomResourceDefinition).

Definition run_work (r : replica) (w : work) : replica * res reconcile_error Z :=
  match w with
  | WorkXRD name v => reconcileOneXRD r name v
  | WorkCRD name v => reconcileOneCRD r name v
  end.

Definition runInitialSyncWork (r : replica) (ws : list work) : replica * list reconcile_error :=
  foldl (λ '(r, errs) w,
    let '(r, x) := run_work r w in
    (r, match x with Ok _ => errs | Err e => errs ++ [e] end)) (r, []) ws.

(** The configs of the enabled kinds, then the pass, then one publication. *)
Definition initial_work (xrds : list (string * view XRDConversionConfig obj))
    (crds : list (string * view CRDConversionConfig CustomResourceDefinition)) : list work :=
  (if seEnableXRDSupport se then (λ '(n, v), WorkXRD n v) <$> xrds else []) ++
  (if seEnableCRDSupport se then (λ '(n, v), WorkCRD n v) <$> crds else []).

Definition InitialSync (r : replica) (ws : list work) : replica * (nat * list reconcile_error) :=
  let '(r, errs) := runInitialSyncWork (with_bulk r true) ws in
  (registryChanged (with_bulk r false), (length ws, errs)).
End replica.
