(* ===== verification/ReplicaTheory.v ===== *)
(** What one reconcile does to the registry (Replica.v). *)
From S2P Require Import Prelude Float64 Value Path Schema Rules Ops Convert Diagnostics Compile Normalize Platform Required Analyze Assign Api Configs Adapters Registry Replica.

Create HintDb replica.

Section replica_theory.
Context `{ML : MathLog} `{RO : RangeOrder} `{EX : Externs} `{CX : CompileExterns} (se : Settings).

(** Publishing changes nothing but the trace. *)
Lemma registryChanged_registry r : rpRegistry (registryChanged se r) = rpRegistry r.
Proof. unfold registryChanged. by destruct (rpBulkSync r). Qed.
Lemma registryChanged_targets r : rpConfigToTarget (registryChanged se r) = rpConfigToTarget r.
Proof. unfold registryChanged. by destruct (rpBulkSync r). Qed.
Lemma registryChanged_drains r : rpDrainUntil (registryChanged se r) = rpDrainUntil r.
Proof. unfold registryChanged. by destruct (rpBulkSync r). Qed.
Lemma emit_if_registry (b : bool) r es : rpRegistry (if b then emit r es else r) = rpRegistry r.
Proof. by destruct b. Qed.
Lemma emit_if_targets (b : bool) r es : rpConfigToTarget (if b then emit r es else r) = rpConfigToTarget r.
Proof. by destruct b. Qed.
Lemma emit_if_drains (b : bool) r es : rpDrainUntil (if b then emit r es else r) = rpDrainUntil r.
Proof. by destruct b. Qed.
#[local] Hint Rewrite registryChanged_registry registryChanged_targets registryChanged_drains
  emit_if_registry emit_if_targets emit_if_drains : replica.

(** The three maps of the state after each operation. *)
Definition maps_of (r : replica) : registry * gmap string string * gmap string Z :=
  (rpRegistry r, rpConfigToTarget r, rpDrainUntil r).

Ltac maps := unfold maps_of; cbn; autorewrite with replica; done.

Lemma maps_drop r key t : maps_of (dropTarget se r key t) =
  (delete t (rpRegistry r), rpConfigToTarget r, delete key (rpDrainUntil r)).
Proof. unfold dropTarget. maps. Qed.

Lemma maps_forget r key : maps_of (forgetConfig se r key) =
  (match rpConfigToTarget r !! key with Some t => delete t (rpRegistry r) | None => rpRegistry r end,
   delete key (rpConfigToTarget r), delete key (rpDrainUntil r)).
Proof. unfold forgetConfig. destruct (rpConfigToTarget r !! key); [maps|done]. Qed.

Lemma maps_failure r t f now : maps_of (recordFailure se r t f now) =
  (<[t := with_error (rpRegistry r !! t) (failure_text se f) now]> (rpRegistry r), rpConfigToTarget r, rpDrainUntil r).
Proof. unfold recordFailure. maps. Qed.

Lemma maps_compile r t hub review report hash now : maps_of (compileAndRegister se r t hub review report hash now) =
  (<[t := compiled_entry hub review report hash now]> (rpRegistry r), rpConfigToTarget r, rpDrainUntil r).
Proof. unfold compileAndRegister. maps. Qed.

Section kind.
Context `{TK : TargetKind C T}.

(** Compiling the target writes its entry: a fresh one, or the old one with the
    failure on it. *)
Definition compile_outcome (cfg : C) (target : T) (now : Z) (old : option CompiledEntry) : CompiledEntry :=
  match tk_rules cfg with
  | Err e => with_error old (failure_text se (InvalidRules e)) now
  | Ok ruleSets =>
    match Analyze (seFuel se) {| aiSource := tk_source target; aiHubVersion := tk_hub cfg; aiSpokes := ruleSets |} with
    | Err e => with_error old (failure_text se (AnalyzeFailed e)) now
    | Ok report =>
      if HasErrors report then with_error old (failure_text se ValidationErrors) now
      else compiled_entry (tk_hub cfg) (tk_review cfg) report (plan_hash target cfg) now
    end
  end.

Lemma maps_compile_target r cfg target now : maps_of (compile_target se r cfg target now) =
  (<[tk_target cfg := compile_outcome cfg target now (rpRegistry r !! tk_target cfg)]> (rpRegistry r),
   rpConfigToTarget r, rpDrainUntil r).
Proof.
  unfold compile_target, compile_outcome. destruct (tk_rules cfg); [|apply maps_failure].
  destruct (Analyze _ _); [|apply maps_failure]. destruct (HasErrors _); [apply maps_failure|apply maps_compile].
Qed.

Definition drain_period : Z :=
  if bool_decide (seTargetDrainPeriod se = 0%Z) then DefaultTargetDrainPeriod else seTargetDrainPeriod se.

(** The drain, as what happens to the entry and to the deadline of its config. *)
Definition drain_outcome (e : option CompiledEntry) (d : option Z) (now : Z) : option CompiledEntry * option Z * Z :=
  if (drain_period <? 0)%Z then (None, None, 0%Z)
  else match e, d with
       | None, _ => (None, None, 0%Z)
       | Some _, None => if (0 <? drain_period)%Z then (e, Some (now + drain_period)%Z, drain_period) else (None, None, 0%Z)
       | Some _, Some deadline =>
         if (0 <? deadline - now)%Z then (e, d, (deadline - now)%Z) else (None, None, 0%Z)
       end.

Lemma maps_hand_over r key cfg now :
  let '(e, d, wait) := drain_outcome (rpRegistry r !! tk_target cfg) (rpDrainUntil r !! key) now in
  maps_of (hand_over se r key cfg now).1 =
    (partial_alter (λ _, e) (tk_target cfg) (rpRegistry r), rpConfigToTarget r,
     partial_alter (λ _, d) key (rpDrainUntil r)) ∧
  (hand_over se r key cfg now).2 = wait.
Proof.
  unfold hand_over, drainRemaining, drain_outcome. fold drain_period. unfold Get.
  destruct (drain_period <? 0)%Z; [split; [apply maps_drop|done]|].
  destruct (rpRegistry r !! tk_target cfg) as [e|] eqn:He.
  - destruct (rpDrainUntil r !! key) as [d|] eqn:Hd.
    + destruct (0 <? d - now)%Z eqn:E; cbn -[dropTarget drain_period]; [rewrite E|rewrite maps_drop]; cbn.
      * split; [|done]. unfold maps_of. by rewrite !partial_alter_id.
      * split; [|done]. f_equal. by rewrite delete_delete_eq.
    + destruct (0 <? drain_period)%Z eqn:E; cbn -[dropTarget drain_period]; [|rewrite maps_drop]; cbn -[drain_period].
      * split; [|done]. unfold maps_of; cbn. by rewrite partial_alter_id.
      * split; [|done]. f_equal. by rewrite delete_insert_eq.
  - cbn -[dropTarget drain_period]. rewrite maps_drop. cbn. split; [|done]. f_equal. by rewrite delete_delete_eq.
Qed.

(** A reconcile of a live config, as what happens to the entry of its target and
    to the deadline of its key. *)
Definition live_outcome (cfg : C) (v : view C T) (e : option CompiledEntry) (d : option Z)
    : option CompiledEntry * option Z :=
  match vwServers v with
  | Err _ => (e, d)
  | Ok servers =>
    let mine := assigned_here se cfg servers in
    match vwTarget v with
    | Failed _ => (e, d)
    | NotFound =>
      if mine then (Some (with_error e (failure_text se (TargetNotFound tk_name (tk_target cfg))) (vwNow v)), d)
      else (None, None)
    | Found target =>
      if negb mine && negb (tk_points target (seServerName se)) then (drain_outcome e d (vwNow v)).1
      else (Some (compile_outcome cfg target (vwNow v) e), None)
    end
  end.

Definition alter_entry (r : replica) (key target : string) (ed : option CompiledEntry * option Z)
    : registry * gmap string string * gmap string Z :=
  (partial_alter (λ _, ed.1) target (rpRegistry r), <[key := target]> (rpConfigToTarget r),
   partial_alter (λ _, ed.2) key (rpDrainUntil r)).

Lemma alter_entry_id r key target :
  alter_entry r key target (rpRegistry r !! target, rpDrainUntil r !! key) = maps_of (rememberConfig r key target).
Proof. unfold alter_entry, maps_of. cbn. by rewrite !partial_alter_id. Qed.

Lemma maps_reconcile_live r name v cfg :
  vwConfig v = Found cfg → omDeleting (tk_meta cfg) = false →
  let key := configKey tk_prefix name in
  maps_of (reconcileOne se r name v).1 =
  alter_entry r key (tk_target cfg) (live_outcome cfg v (rpRegistry r !! tk_target cfg) (rpDrainUntil r !! key)).
Proof.
  intros Hc Hd key. unfold reconcileOne, live_outcome. rewrite Hc, Hd. fold key.
  destruct (vwServers v) as [servers|]; [|by rewrite alter_entry_id].
  destruct (vwTarget v) as [o| |]; [|..|by rewrite alter_entry_id].
  - destruct (negb _ && negb _).
    + pose proof (maps_hand_over (rememberConfig r key (tk_target cfg)) key cfg (vwNow v)) as Hh.
      cbn -[drain_outcome] in Hh. destruct (drain_outcome _ _ _) as [[e d] w], (hand_over _ _ _ _ _) as [r' w'].
      destruct Hh as [Hh _]. cbn in *. rewrite Hh. done.
    + cbn -[compile_target]. rewrite maps_compile_target. done.
  - destruct (assigned_here _ _ _); cbn -[recordFailure dropTarget].
    + rewrite maps_failure. unfold alter_entry. cbn. by rewrite (partial_alter_id _ (rpDrainUntil r)).
    + rewrite maps_drop. done.
Qed.

Lemma maps_reconcile_gone r name v :
  vwConfig v = NotFound ∨ (∃ cfg, vwConfig v = Found cfg ∧ omDeleting (tk_meta cfg) = true) →
  reconcileOne se r name v = (forgetConfig se r (configKey tk_prefix name), Ok 0%Z).
Proof. unfold reconcileOne. intros [-> | (cfg & -> & Hd)]; [done|]. by rewrite Hd. Qed.

Lemma maps_reconcile_failed r name v e : vwConfig v = Failed e → (reconcileOne se r name v).1 = r.
Proof. unfold reconcileOne. by intros ->. Qed.
End kind.
End replica_theory.

(** ** Units of work of both kinds *)

Section works.
Context `{ML : MathLog} `{RO : RangeOrder} `{EX : Externs} `{CX : CompileExterns} (se : Settings).
Context `{U : Unstructured} (scope_text : xrdadapter.scope_reason → string)
  (versions_text : xrdadapter.versions_error → string).
#[local] Instance xrd_tk : TargetKind XRDConversionConfig obj := xrd_kind scope_text versions_text.
#[local] Instance crd_tk : TargetKind CRDConversionConfig CustomResourceDefinition := crd_kind.

Definition run_one (r : replica) (w : work) : replica := (run_work se scope_text versions_text r w).1.

Definition work_key (w : work) : string :=
  match w with WorkXRD n _ => configKey "xrd" n | WorkCRD n _ => configKey "crd" n end.

(** The config of a view when it is there and is not being deleted. *)
Definition live {C T} `{TK : TargetKind C T} (v : view C T) : option C :=
  match vwConfig v with
  | Found cfg => if omDeleting (tk_meta cfg) then None else Some cfg
  | _ => None
  end.
Definition gone {C T} (v : view C T) : bool := match vwConfig v with Failed _ => false | _ => true end.

(** The target a unit is about, what it does to its entry, and whether it forgets
    its config. *)
Definition work_target (w : work) : option string :=
  match w with WorkXRD _ v => tk_target <$> live v | WorkCRD _ v => tk_target <$> live v end.
Definition work_outcome (w : work) (e : option CompiledEntry) (d : option Z) : option CompiledEntry * option Z :=
  match w with
  | WorkXRD _ v => default (e, d) (live v ≫= λ cfg, Some (live_outcome se cfg v e d))
  | WorkCRD _ v => default (e, d) (live v ≫= λ cfg, Some (live_outcome se cfg v e d))
  end.
Definition work_gone (w : work) : bool :=
  match w with
  | WorkXRD _ v => gone v && negb (bool_decide (is_Some (live v)))
  | WorkCRD _ v => gone v && negb (bool_decide (is_Some (live v)))
  end.

(** What a unit of work does to the three maps. *)
Definition work_maps (r : replica) (w : work) : registry * gmap string string * gmap string Z :=
  match work_target w with
  | Some t => alter_entry r (work_key w) t (work_outcome w (rpRegistry r !! t) (rpDrainUntil r !! work_key w))
  | None => if work_gone w then maps_of (forgetConfig se r (work_key w)) else maps_of r
  end.

Lemma maps_work r w : maps_of (run_one r w) = work_maps r w.
Proof.
  assert (∀ C T (TK : TargetKind C T) name (v : view C T),
    maps_of (reconcileOne se r name v).1 =
    match tk_target <$> live v with
    | Some t => alter_entry r (configKey tk_prefix name) t
        (default (rpRegistry r !! t, rpDrainUntil r !! configKey tk_prefix name)
          (live v ≫= λ cfg, Some (live_outcome se cfg v (rpRegistry r !! t) (rpDrainUntil r !! configKey tk_prefix name))))
    | None => if gone v && negb (bool_decide (is_Some (live v)))
              then maps_of (forgetConfig se r (configKey tk_prefix name)) else maps_of r
    end) as H.
  { intros C T TK name v. unfold live, gone. destruct (vwConfig v) as [cfg| |e] eqn:Hc; cbn.
    - destruct (omDeleting (tk_meta cfg)) eqn:Hd; cbn.
      + rewrite maps_reconcile_gone by eauto. done.
      + by apply maps_reconcile_live.
    - rewrite maps_reconcile_gone by eauto. done.
    - by rewrite (maps_reconcile_failed _ _ _ _ e). }
  unfold work_maps. destruct w as [name v|name v]; apply H.
Qed.

Lemma run_registry r w : rpRegistry (run_one r w) = (work_maps r w).1.1.
Proof. by rewrite <- maps_work. Qed.
Lemma run_targets r w : rpConfigToTarget (run_one r w) = (work_maps r w).1.2.
Proof. by rewrite <- maps_work. Qed.

Lemma maps_of_eq r r' : maps_of r = maps_of r' →
  rpRegistry r = rpRegistry r' ∧ rpConfigToTarget r = rpConfigToTarget r' ∧ rpDrainUntil r = rpDrainUntil r'.
Proof. by intros [= -> -> ->]. Qed.

Lemma work_maps_ext r r' w : maps_of r = maps_of r' → work_maps r w = work_maps r' w.
Proof.
  intros Hm. destruct (maps_of_eq _ _ Hm) as (Hr & Ht & Hd). unfold work_maps, alter_entry.
  rewrite !maps_forget, Hr, Ht, Hd, Hm. done.
Qed.

(** Only the key of the unit and the target of its config are touched. *)
Lemma work_touches r w t : (∀ t', work_target w = Some t' → t' ≠ t) →
  (rpConfigToTarget r !! work_key w ≠ Some t) → rpRegistry (run_one r w) !! t = rpRegistry r !! t.
Proof.
  intros Ht Hk. rewrite run_registry. unfold work_maps. destruct (work_target w) as [t'|]; cbn.
  - rewrite lookup_partial_alter_ne; [done|by apply Ht].
  - destruct (work_gone w); [|done]. rewrite maps_forget. cbn.
    destruct (rpConfigToTarget r !! work_key w) as [t'|]; [|done].
    rewrite lookup_delete_ne; [done|congruence].
Qed.

Lemma work_targets r w k t : rpConfigToTarget (run_one r w) !! k = Some t →
  rpConfigToTarget r !! k = Some t ∨ k = work_key w ∧ work_target w = Some t.
Proof.
  rewrite run_targets. unfold work_maps. destruct (work_target w) as [t'|]; cbn.
  - intros [[<- <-]|[_ H']]%lookup_insert_Some; auto.
  - destruct (work_gone w); [|by left]. rewrite maps_forget. cbn. intros [_ H']%lookup_delete_Some. by left.
Qed.

(** *** Order of the units of one pass *)

Definition fresh_key (r : replica) (w : work) : Prop := rpConfigToTarget r !! work_key w = None.

Definition independent (w1 w2 : work) : Prop :=
  work_key w1 ≠ work_key w2 ∧
  ∀ t1 t2, work_target w1 = Some t1 → work_target w2 = Some t2 → t1 ≠ t2.

#[export] Instance independent_symmetric : Symmetric independent.
Proof. intros w1 w2 [Hk Ht]. split; [done|]. intros t2 t1 E2 E1. apply not_eq_sym. by apply Ht. Qed.

(** A unit whose key is new is a function of the entry of its target and of the
    deadline of its key. *)
Lemma work_maps_fresh r w : fresh_key r w →
  work_maps r w =
  match work_target w with
  | Some t => alter_entry r (work_key w) t (work_outcome w (rpRegistry r !! t) (rpDrainUntil r !! work_key w))
  | None => (rpRegistry r, rpConfigToTarget r,
             if work_gone w then delete (work_key w) (rpDrainUntil r) else rpDrainUntil r)
  end.
Proof.
  intros Hf. unfold work_maps. destruct (work_target w); [done|]. destruct (work_gone w); [|done].
  rewrite maps_forget, Hf. by rewrite delete_id.
Qed.

Lemma fresh_key_step r w w' : independent w w' → fresh_key r w → fresh_key r w' → fresh_key (run_one r w) w'.
Proof.
  intros [Hk _] H H'. unfold fresh_key. rewrite run_targets, work_maps_fresh by done.
  destruct (work_target w); cbn; [|done]. by rewrite lookup_insert_ne.
Qed.

Lemma run_maps r w : fresh_key r w →
  rpRegistry (run_one r w) = (work_maps r w).1.1 ∧ rpDrainUntil (run_one r w) = (work_maps r w).2 ∧
  rpConfigToTarget (run_one r w) = (work_maps r w).1.2.
Proof. intros _. by rewrite <- maps_work. Qed.

Lemma work_commute r w1 w2 : independent w1 w2 → fresh_key r w1 → fresh_key r w2 →
  maps_of (run_one (run_one r w1) w2) = maps_of (run_one (run_one r w2) w1).
Proof.
  intros Hi H1 H2. assert (independent w2 w1) as Hi' by done.
  rewrite !maps_work, !work_maps_fresh by (done || by apply fresh_key_step). destruct Hi as [Hk Ht].
  destruct (run_maps r w1 H1) as (R1 & D1 & T1), (run_maps r w2 H2) as (R2 & D2 & T2).
  rewrite work_maps_fresh in R1, D1, T1 by done. rewrite work_maps_fresh in R2, D2, T2 by done.
  unfold alter_entry. rewrite R1, D1, T1, R2, D2, T2.
  destruct (work_target w1) as [t1|], (work_target w2) as [t2|]; cbn.
  - pose proof (Ht _ _ eq_refl eq_refl). rewrite !lookup_partial_alter_ne by done.
    f_equal; [f_equal|]; [by apply partial_alter_partial_alter_ne|by apply insert_insert_ne|by apply partial_alter_partial_alter_ne].
  - destruct (work_gone w2); [|done]. rewrite lookup_delete_ne by done. f_equal. unfold delete, map_delete.
    by apply partial_alter_partial_alter_ne.
  - destruct (work_gone w1); [|done]. rewrite lookup_delete_ne by done. f_equal. unfold delete, map_delete.
    by apply partial_alter_partial_alter_ne.
  - destruct (work_gone w1), (work_gone w2); try done. f_equal. apply delete_delete.
Qed.

Lemma foldl_maps_ext r r' ws : maps_of r = maps_of r' → maps_of (foldl run_one r ws) = maps_of (foldl run_one r' ws).
Proof.
  revert r r'; induction ws as [|w ws IH]; intros r r' H; [done|]. cbn. apply IH.
  rewrite !maps_work. by apply work_maps_ext.
Qed.

Lemma pass_permutation r ws ws' : ws ≡ₚ ws' → Forall (fresh_key r) ws →
  ForallOrdPairs independent ws → ForallOrdPairs independent ws' →
  maps_of (foldl run_one r ws) = maps_of (foldl run_one r ws').
Proof.
  intros Hp. revert r. induction Hp as [|w ws ws' Hp IH|w1 w2 ws|ws1 ws2 ws3 H12 IH1 H23 IH2]; intros r Hf Hi Hi'.
  - done.
  - apply Forall_cons in Hf as [Hf Hfs]. inversion_clear Hi. inversion_clear Hi'. cbn. apply IH; [|done..].
    apply Forall_forall. intros w' Hw'. eapply Forall_forall in H; [|done]. eapply Forall_forall in Hfs; [|done].
    by apply fresh_key_step.
  - apply Forall_cons in Hf as [Hf1 [Hf2 _]%Forall_cons]. cbn. apply foldl_maps_ext, work_commute; [|done..].
    inversion_clear Hi' as [|? ? H _]. by apply Forall_cons in H as [? _].
  - assert (ForallOrdPairs independent ws2) as Hi2 by (eapply ForallOrdPairs_perm; [apply _|exact H12|done]).
    rewrite IH1 by done. apply IH2; [by rewrite <- H12|done..].
Qed.

(** *** Errors depend on the reads alone *)

Definition res_error {E A} (x : res E A) : option E := match x with Ok _ => None | Err e => Some e end.

Definition view_error {C T} `{TK : TargetKind C T} (name : string) (v : view C T) : option reconcile_error :=
  match vwConfig v with
  | Failed e => Some (ErrGettingConfig name e)
  | NotFound => None
  | Found cfg =>
    if omDeleting (tk_meta cfg) then None
    else match vwServers v with
         | Err e => Some (ErrListingServers e)
         | Ok _ => match vwTarget v with Failed e => Some (ErrGettingTarget (tk_target cfg) e) | _ => None end
         end
  end.
Definition work_error (w : work) : option reconcile_error :=
  match w with WorkXRD n v => view_error n v | WorkCRD n v => view_error n v end.

Lemma run_work_error r w : res_error (run_work se scope_text versions_text r w).2 = work_error w.
Proof.
  assert (∀ C T (TK : TargetKind C T) name (v : view C T),
    res_error (reconcileOne se r name v).2 = view_error name v) as H.
  { intros C T TK name v. unfold reconcileOne, view_error. destruct (vwConfig v) as [cfg| |]; [|done..].
    destruct (omDeleting _); [done|]. destruct (vwServers v); [|done]. destruct (vwTarget v); [|by destruct (negb _)|done].
    destruct (negb _ && negb _); [|done]. by destruct (hand_over _ _ _ _ _). }
  destruct w; apply H.
Qed.

Lemma initial_work_runs r ws :
  runInitialSyncWork se scope_text versions_text r ws = (foldl run_one r ws, omap work_error ws).
Proof.
  unfold runInitialSyncWork. assert (∀ errs, foldl (λ '(r, errs) w,
      let '(r, x) := run_work se scope_text versions_text r w in
      (r, match x with Ok _ => errs | Err e => errs ++ [e] end)) (r, errs) ws =
    (foldl run_one r ws, errs ++ omap work_error ws)) as H; [|by rewrite H].
  revert r; induction ws as [|w ws IH]; intros r errs; [by rewrite app_nil_r|]. cbn.
  rewrite <- (run_work_error r w). unfold run_one at 2. destruct (run_work _ _ _ _ _) as [r' [x|e]]; cbn; rewrite IH; [done|].
  by rewrite <- app_assoc.
Qed.
End works.
