(* ===== verification/Encoding.v ===== *)
(** [encoding/base64]'s standard encoding, which the served-target Leases
    (internal/servedtargets) and the CA bundles of conversion patches
    (internal/conversionpatch) use; and [crypto/sha256] with [encoding/hex], for the
    plan hashes of the config controllers (internal/controller) and the hash of a CA
    bundle (internal/controller/propagation.go).  Words are [Z] below 2^32. *)
From Stdlib Require Import Ascii.
From S2P Require Import Prelude Duration.

Section base64.
#[local] Open Scope N_scope.

Definition alphabet : text := str "ABCDEFGHIJKLMNOPQRSTUVWXYZabcdefghijklmnopqrstuvwxyz0123456789+/".
Definition padChar : ascii := "="%char.

(** [enc.encode[n]] and [enc.decodeMap[c]]. *)
Definition sextet_char (n : N) : ascii := nth (N.to_nat n) alphabet padChar.
Fixpoint index_of (c : ascii) (l : text) : option N :=
  match l with
  | [] => None
  | d :: l => if Ascii.eqb c d then Some 0 else N.succ <$> index_of c l
  end.
Definition char_sextet (c : ascii) : option N := index_of c alphabet.

Definition first_sextet (v : N) : ascii := sextet_char (v / 2 ^ 18 mod 64).
Definition second_sextet (v : N) : ascii := sextet_char (v / 2 ^ 12 mod 64).
Definition third_sextet (v : N) : ascii := sextet_char (v / 2 ^ 6 mod 64).
Definition fourth_sextet (v : N) : ascii := sextet_char (v mod 64).

(** The 24 bits of three bytes, missing ones being zero. *)
Definition quantum (a b c : ascii) : N := N_of_ascii a * 2 ^ 16 + N_of_ascii b * 2 ^ 8 + N_of_ascii c.

Fixpoint encode (l : text) : text :=
  match l with
  | a :: b :: c :: l =>
      let v := quantum a b c in
      first_sextet v :: second_sextet v :: third_sextet v :: fourth_sextet v :: encode l
  | [a; b] => let v := quantum a b zero in [first_sextet v; second_sextet v; third_sextet v; padChar]
  | [a] => let v := quantum a zero zero in [first_sextet v; second_sextet v; padChar; padChar]
  | [] => []
  end.

Definition EncodeToString (s : string) : string := String.string_of_list_ascii (encode (str s)).

(** [decodeQuantum]: line ends are skipped, padding ends the text. *)
Definition byte_at (v : N) (shift : N) : ascii := ascii_of_N (v / 2 ^ shift mod 256).

Fixpoint decode (l : text) : option text :=
  match l with
  | [] => Some []
  | a :: b :: c :: d :: l =>
      x ← char_sextet a; y ← char_sextet b;
      match char_sextet c with
      | Some z =>
          match char_sextet d with
          | Some w =>
              let v := x * 2 ^ 18 + y * 2 ^ 12 + z * 2 ^ 6 + w in
              (λ l, byte_at v 16 :: byte_at v 8 :: byte_at v 0 :: l) <$> decode l
          | None =>
              let v := x * 2 ^ 18 + y * 2 ^ 12 + z * 2 ^ 6 in
              if Ascii.eqb d padChar && bool_decide (l = []) then Some [byte_at v 16; byte_at v 8] else None
          end
      | None =>
          let v := x * 2 ^ 18 + y * 2 ^ 12 in
          if Ascii.eqb c padChar && Ascii.eqb d padChar && bool_decide (l = []) then Some [byte_at v 16] else None
      end
  | _ => None
  end.

Definition is_newline (c : ascii) : bool := Ascii.eqb c "010"%char || Ascii.eqb c "013"%char.
Definition DecodeString (s : string) : option string :=
  String.string_of_list_ascii <$> decode (filter (λ c, is_newline c = false) (str s)).

(** ** Decoding gives back what was encoded *)

Lemma sextet_round_trip n : n < 64 → char_sextet (sextet_char n) = Some n.
Proof.
  intros Hn. assert (∀ k : nat, (k < 64)%nat → char_sextet (sextet_char (N.of_nat k)) = Some (N.of_nat k)) as H.
  { intros k Hk. do 64 (destruct k as [|k]; [reflexivity|]). lia. }
  rewrite <- (N2Nat.id n). apply H. lia.
Qed.

Lemma sextet_not_newline n : n < 64 → is_newline (sextet_char n) = false.
Proof.
  intros Hn. assert (∀ k : nat, (k < 64)%nat → is_newline (sextet_char (N.of_nat k)) = false) as H.
  { intros k Hk. do 64 (destruct k as [|k]; [reflexivity|]). lia. }
  rewrite <- (N2Nat.id n). apply H. lia.
Qed.

Lemma sextets_not_newline l : Forall (λ c, is_newline c = false) (encode l).
Proof.
  assert (∀ v, v mod 64 < 64) as Hm by (intros; by apply N.mod_lt).
  induction l as [l IH] using (induction_ltof1 _ length).
  destruct l as [|a [|b [|c l]]]; cbn [encode]; repeat constructor; try (apply sextet_not_newline, Hm).
  apply IH. unfold ltof. cbn. lia.
Qed.

(** The sextets of a 24-bit number, put together again. *)
Lemma sextets_value v :
  v < 2 ^ 24 → v / 2 ^ 18 mod 64 * 2 ^ 18 + v / 2 ^ 12 mod 64 * 2 ^ 12 + v / 2 ^ 6 mod 64 * 2 ^ 6 + v mod 64 = v.
Proof.
  intros Hv. change (2 ^ 24) with 16777216 in Hv. change (2 ^ 18) with 262144. change (2 ^ 12) with 4096.
  change (2 ^ 6) with 64. zify; Z.to_euclidean_division_equations; lia.
Qed.

Lemma quantum_bytes a b c :
  let v := quantum a b c in v < 2 ^ 24 ∧ byte_at v 16 = a ∧ byte_at v 8 = b ∧ byte_at v 0 = c.
Proof.
  cbn zeta. unfold byte_at, quantum.
  pose proof (N_ascii_bounded a). pose proof (N_ascii_bounded b). pose proof (N_ascii_bounded c).
  set (x := N_of_ascii a) in *. set (y := N_of_ascii b) in *. set (z := N_of_ascii c) in *.
  change (2 ^ 24) with 16777216. change (2 ^ 16) with 65536. change (2 ^ 8) with 256. change (2 ^ 0) with 1.
  assert ((x * 65536 + y * 256 + z) / 65536 mod 256 = x) as -> by (zify; zify; Z.to_euclidean_division_equations; lia).
  assert ((x * 65536 + y * 256 + z) / 256 mod 256 = y) as -> by (zify; zify; Z.to_euclidean_division_equations; lia).
  assert ((x * 65536 + y * 256 + z) / 1 mod 256 = z) as -> by (zify; zify; Z.to_euclidean_division_equations; lia).
  split_and!; [lia|apply ascii_N_embedding..].
Qed.

Lemma quantum_two a b : quantum a b zero mod 64 = 0.
Proof.
  unfold quantum. change (N_of_ascii zero) with 0. change (2 ^ 16) with 65536. change (2 ^ 8) with 256.
  zify; Z.to_euclidean_division_equations; lia.
Qed.

Lemma quantum_one a : quantum a zero zero / 2 ^ 6 mod 64 = 0.
Proof.
  unfold quantum. change (N_of_ascii zero) with 0. change (2 ^ 16) with 65536. change (2 ^ 8) with 256.
  change (2 ^ 6) with 64. zify; Z.to_euclidean_division_equations; lia.
Qed.

Lemma sextet_round_trip_mod v : char_sextet (sextet_char (v mod 64)) = Some (v mod 64).
Proof. apply sextet_round_trip, N.mod_lt. done. Qed.

Lemma decode_encode l : decode (encode l) = Some l.
Proof.
  induction l as [l IH] using (induction_ltof1 _ length).
  destruct l as [|a [|b [|c l]]]; [done| | |]; cbn [encode decode];
    unfold first_sextet, second_sextet, third_sextet, fourth_sextet;
    rewrite ?sextet_round_trip_mod; cbn [mbind option_bind]; rewrite ?sextet_round_trip_mod.
  - destruct (quantum_bytes a zero zero) as (Hv & Ha & _). pose proof (sextets_value _ Hv) as Hs.
    change (quantum a zero zero mod 64) with (quantum a zero zero mod 64) in Hs.
    rewrite quantum_one, quantum_two, N.mul_0_l, !N.add_0_r in Hs.
    cbn [char_sextet index_of]. rewrite Hs. cbn. by rewrite Ha.
  - destruct (quantum_bytes a b zero) as (Hv & Ha & Hb & _). pose proof (sextets_value _ Hv) as Hs.
    rewrite quantum_two, N.add_0_r in Hs. cbn. rewrite Hs. by rewrite Ha, Hb.
  - destruct (quantum_bytes a b c) as (Hv & Ha & Hb & Hc). rewrite (sextets_value _ Hv), Ha, Hb, Hc.
    by rewrite IH by (unfold ltof; cbn; lia).
Qed.

Lemma filter_kept {A} (P : A → Prop) `{∀ x, Decision (P x)} (l : list A) : Forall P l → filter P l = l.
Proof. induction 1 as [|x l Hx _ IH]; [done|]. by rewrite filter_cons_True, IH. Qed.

Lemma DecodeString_EncodeToString s : DecodeString (EncodeToString s) = Some s.
Proof.
  unfold DecodeString, EncodeToString, str. rewrite String.list_ascii_of_string_of_list_ascii.
  rewrite filter_kept by apply sextets_not_newline.
  rewrite decode_encode. cbn. by rewrite String.string_of_list_ascii_of_string.
Qed.

Example encode_man : EncodeToString "Ma" = "TWE=".
Proof. reflexivity. Qed.
Example decode_foldes : DecodeString ("TW" +:+ String "010" "E=") = Some "Ma".
Proof. reflexivity. Qed.

End base64.

Section sha256.
#[local] Open Scope Z_scope.

Definition word (z : Z) : Z := Z.land z 0xffffffff.
Definition rotr (x n : Z) : Z := word (Z.lor (Z.shiftr x n) (Z.shiftl x (32 - n))).

(** The constants are the first 32 bits of the fractional parts of the square roots
    of the first eight primes and of the cube roots of the first 64. *)
Definition is_prime (n : nat) : bool :=
  (2 <=? n)%nat && forallb (λ d, negb (n `mod` d =? 0)%nat) (seq 2 (n - 2)).
Definition primes : list Z := Z.of_nat <$> filter (λ n, is_prime n = true) (seq 0 312).

(** The largest [r] below [lo + 2 ^ bits] whose cube is at most [n]. *)
Fixpoint cube_root (bits : nat) (lo n : Z) : Z :=
  match bits with
  | O => lo
  | S bits => let mid := lo + 2 ^ Z.of_nat bits in cube_root bits (if mid ^ 3 <=? n then mid else lo) n
  end.

Definition init_state : list Z :=
  Eval vm_compute in (λ p, word (Z.sqrt (Z.shiftl p 64))) <$> take 8 primes.
Definition round_constants : list Z :=
  Eval vm_compute in (λ p, word (cube_root 36 0 (Z.shiftl p 96))) <$> primes.

Definition Ch (e f g : Z) : Z := Z.lxor (Z.land e f) (Z.land (Z.lxor e 0xffffffff) g).
Definition Maj (a b c : Z) : Z := Z.lxor (Z.lxor (Z.land a b) (Z.land a c)) (Z.land b c).
Definition Sigma0 (x : Z) : Z := Z.lxor (Z.lxor (rotr x 2) (rotr x 13)) (rotr x 22).
Definition Sigma1 (x : Z) : Z := Z.lxor (Z.lxor (rotr x 6) (rotr x 11)) (rotr x 25).
Definition sigma0 (x : Z) : Z := Z.lxor (Z.lxor (rotr x 7) (rotr x 18)) (Z.shiftr x 3).
Definition sigma1 (x : Z) : Z := Z.lxor (Z.lxor (rotr x 17) (rotr x 19)) (Z.shiftr x 10).

(** The message schedule: each new word from the 16 before it, the last first. *)
Fixpoint schedule (n : nat) (recent : list Z) : list Z :=
  match n with
  | O => []
  | S n =>
    let w := word (sigma1 (nth 1 recent 0) + nth 6 recent 0 + sigma0 (nth 14 recent 0) + nth 15 recent 0) in
    w :: schedule n (w :: removelast recent)
  end.

Definition round (st : list Z) (kw : Z * Z) : list Z :=
  match st with
  | [a; b; c; d; e; f; g; h] =>
    let t1 := h + Sigma1 e + Ch e f g + kw.1 + kw.2 in
    let t2 := Sigma0 a + Maj a b c in
    [word (t1 + t2); a; b; c; word (d + t1); e; f; g]
  | _ => st
  end.

Definition block (st : list Z) (ws : list Z) : list Z :=
  let rounds := foldl round st (zip round_constants (ws ++ schedule 48 (reverse ws))) in
  zip_with (λ x y, word (x + y)) st rounds.

(** ** Padding and output *)

Fixpoint be_bytes (n : nat) (z : Z) : list Z :=
  match n with O => [] | S n => Z.land (Z.shiftr z (8 * Z.of_nat n)) 0xff :: be_bytes n z end.
Definition be_word (bs : list Z) : Z := foldl (λ w b, Z.lor (Z.shiftl w 8) b) 0 bs.

(** A 1 bit, zeros up to 56 modulo 64, and the length in bits. *)
Definition pad (bs : list Z) : list Z :=
  let n := length bs in
  bs ++ [0x80] ++ repeat 0 ((119 - n `mod` 64) `mod` 64)%nat ++ be_bytes 8 (8 * Z.of_nat n).

Fixpoint groups (fuel k : nat) (bs : list Z) : list (list Z) :=
  match fuel, bs with
  | O, _ | _, [] => []
  | S fuel, _ => take k bs :: groups fuel k (drop k bs)
  end.

Definition digest (bs : list Z) : list Z :=
  let padded := pad bs in
  let blocks := groups (length padded) 64 padded in
  let st := foldl (λ st b, block st (be_word <$> groups 64 4 b)) init_state blocks in
  concat (be_bytes 4 <$> st).

Definition bytes_of (s : string) : list Z := (λ c, Z.of_N (N_of_ascii c)) <$> String.list_ascii_of_string s.
Definition of_bytes (bs : list Z) : string := String.string_of_list_ascii ((λ b, ascii_of_N (Z.to_N b)) <$> bs).

(** [sha256.Sum256]. *)
Definition sha256 (s : string) : string := of_bytes (digest (bytes_of s)).

(** [hex.EncodeToString]. *)
Definition nibble (d : Z) : Z := if d <? 10 then 48 + d else 87 + d.
Definition hex_EncodeToString (s : string) : string :=
  of_bytes (concat ((λ b, [nibble (Z.shiftr b 4); nibble (Z.land b 15)]) <$> bytes_of s)).

(** [base64.RawURLEncoding.EncodeToString]: the URL alphabet, without padding. *)
Definition url_char (c : ascii) : ascii :=
  if Ascii.eqb c "+"%char then "-"%char else if Ascii.eqb c "/"%char then "_"%char else c.
Definition RawURL_EncodeToString (s : string) : string :=
  String.string_of_list_ascii
    (url_char <$> filter (λ c, c ≠ padChar) (String.list_ascii_of_string (EncodeToString s))).

Example sha256_abc :
  hex_EncodeToString (sha256 "abc") = "ba7816bf8f01cfea414140de5dae2223b00361a396177a9cb410ff61f20015ad".
Proof. by vm_compute. Qed.

Example sha256_two_blocks :
  hex_EncodeToString (sha256 "abcdbcdecdefdefgefghfghighijhijkijkljklmklmnlmnomnopnopq") =
  "248d6a61d20638b8e5c026930c3e6039a33ce45964ff2167f6ecedd419db06c1".
Proof. by vm_compute. Qed.

Example raw_url_no_padding : RawURL_EncodeToString (of_bytes [0xfb; 0xff]) = "-_8".
Proof. by vm_compute. Qed.

End sha256.
