(* ===== verification/ServedTargets.v ===== *)
(** What a replica reports it can serve, and whether a target may be moved to a
    server (internal/servedtargets/servedtargets.go,
    internal/webhookserver/publisher.go, internal/controller/servedtargets.go).

    Each replica publishes the targets it has a plan for in a Lease; the operator
    intersects the live Leases of a server and repoints a target at it only when
    every ready replica serves the target.  [compress/gzip] is a parameter (class
    [Gzip]): its output is not specified, its documentation promises that reading
    gives back what was written.  Moments and durations are nanoseconds.

    The last part holds the lemmas: binary search, the encoding's round trip, and
    what the tally of a list of Leases counts. *)
From Stdlib Require Import Ascii.
From S2P Require Import Prelude Float64 Value Json Duration Path Schema Rules Coerce Passthrough Ops Convert Diagnostics Assign Registry Configs Replica Encoding.

#[local] Open Scope Z_scope.

Definition WebhookServerLabel : string := "conversion.terasky.com/webhook-server".
Definition TargetsAnnotation : string := "conversion.terasky.com/served-targets".
Definition TruncatedAnnotation : string := "conversion.terasky.com/served-targets-truncated".
Definition LeaseNamePrefix : string := "dco-served-".
Definition MaxEncodedBytes : Z := 192 * 1024.
Definition MaxDecodedBytes : Z := 1024 * 1024.
Definition Heartbeat : Z := 30 * Second.
Definition LeaseDuration : Z := 90 * Second.
Definition StaleAfter : Z := 3 * Heartbeat.
Definition MaxClockSkew : Z := 5 * Minute.

Definition LeaseName (podName : string) : string := LeaseNamePrefix +:+ podName.

(** ** The encoding *)

(** [gunzip raw] is the header's error, or the bytes a [gzip.Reader] yields and
    the error it ends with ([None] for EOF). *)
Class Gzip := {
  gzip : string → string;
  gunzip : string → res string (string * option string);
}.
Class GzipLaws (G : Gzip) := {
  gzip_header s : gzip s ≠ "";
  gunzip_gzip s : gunzip (gzip s) = Ok (s, None);
}.

Definition newline : string := String "010" "".
Definition byte_len (s : string) : Z := Z.of_nat (String.length s).

Inductive decode_error :=
| ErrBase64
| ErrHeader (err : string)
| ErrRead (err : string)
| ErrDecodedTooLarge.

Section encoding.
Context `{G : Gzip}.

(** The second component is [truncated]. *)
Definition Encode (targets : list string) : string * bool :=
  let joined := join newline (sort_strings targets) in
  let encoded := EncodeToString (gzip joined) in
  if (MaxEncodedBytes <? byte_len encoded) || (MaxDecodedBytes <? byte_len joined) then ("", true)
  else (encoded, false).

(** The reader stops one byte past the limit, before an error further on. *)
Definition Decode (value : string) : res decode_error (list string) :=
  if bool_decide (value = "") then Ok []
  else match DecodeString value with
  | None => Err ErrBase64
  | Some raw =>
    '(out, end_) ← res_wrap ErrHeader (gunzip raw);
    if MaxDecodedBytes <? byte_len out then Err ErrDecodedTooLarge
    else match end_ with
    | Some err => Err (ErrRead err)
    | None => Ok (if bool_decide (out = "") then [] else split out newline)
    end
  end.

(** ** The Lease *)

Record PodReference := { prAPIVersion : string; prKind : string; prName : string; prUID : string }.
Record Lease := {
  lsName : string;
  lsNamespace : string;
  lsLabels : gmap string string;
  lsAnnotations : gmap string string;
  lsOwners : list PodReference;
  lsHolder : option string;
  lsDurationSeconds : option Z;
  lsRenewTime : option Z;
  lsAcquireTime : option Z;
}.

(** [m[k]] of a [map[string]string]. *)
Definition text_at (m : gmap string string) (k : string) : string := default "" (m !! k).

(** [Time.Sub] saturates. *)
Definition time_sub (t u : Z) : Z := Z.max (- 2 ^ 63) (Z.min (2 ^ 63 - 1) (t - u)).
Definition wrap32 (z : Z) : Z := (z + 2 ^ 31) mod 2 ^ 32 - 2 ^ 31.

(** ** Aggregation *)

Definition lease_live (now : Z) (l : Lease) : bool :=
  match lsRenewTime l with
  | None => false
  | Some renewed => let age := time_sub now renewed in negb ((StaleAfter <? age) || (age <? - MaxClockSkew))
  end.

Record tally := { tlCounts : gmap string Z; tlReporting : Z; tlTruncated : bool }.
Definition empty_tally : tally := {| tlCounts := ∅; tlReporting := 0; tlTruncated := false |}.

Definition count_name (counts : gmap string Z) (n : string) : gmap string Z :=
  <[n := wrap32 (default 0 (counts !! n) + 1)]> counts.

(** What a Lease states: nothing when it is truncated or cannot be decoded. *)
Definition stated (l : Lease) : option (list string) :=
  if bool_decide (text_at (lsAnnotations l) TruncatedAnnotation = "true") then None
  else match Decode (text_at (lsAnnotations l) TargetsAnnotation) with Ok names => Some names | Err _ => None end.

Definition tally_lease (now : Z) (st : tally) (l : Lease) : tally :=
  if negb (lease_live now l) then st
  else
    let reporting := wrap32 (tlReporting st + 1) in
    match stated l with
    | None => {| tlCounts := tlCounts st; tlReporting := reporting; tlTruncated := true |}
    | Some names => {| tlCounts := foldl count_name (tlCounts st) names; tlReporting := reporting;
                       tlTruncated := tlTruncated st |}
    end.

Definition Aggregate (leases : list Lease) (now : Z) : list string * Z * bool :=
  let st := foldl (tally_lease now) empty_tally leases in
  if tlTruncated st || (tlReporting st =? 0) then ([], tlReporting st, tlTruncated st)
  else (sort_strings (filter (λ '(_, n), n = tlReporting st) (map_to_list (tlCounts st))).*1, tlReporting st, false).

(** [sort.Search] on [i, j); the fuel is the length of the interval. *)
Fixpoint search (fuel : nat) (f : nat → bool) (i j : nat) : nat :=
  match fuel with
  | O => i
  | S fuel =>
    if (i <? j)%nat then
      let h := Nat.div2 (i + j) in
      if f h then search fuel f i h else search fuel f (S h) j
    else i
  end.
Definition SearchStrings (a : list string) (x : string) : nat :=
  search (length a) (λ i, bool_decide (String.le x (nth i a ""))) 0 (length a).

Definition Contains (sortedSet : list string) (name : string) : bool :=
  let i := SearchStrings sortedSet name in
  (i <? length sortedSet)%nat && bool_decide (nth i sortedSet "" = name).

(** ** The publisher *)

Definition managedByLabel : string := "app.kubernetes.io/managed-by".
Definition managedByValue : string := "declarative-conversion-operator".

(** [tpNotify]: the channel and whether it holds its token. *)
Record TargetPublisher := {
  tpClient : bool;
  tpRegistry : option registry;
  tpServerName : string;
  tpNamespace : string;
  tpPodName : string;
  tpPodUID : string;
  tpNotify : option bool;
}.

Definition Enabled (p : option TargetPublisher) : bool :=
  match p with
  | None => false
  | Some p => tpClient p && bool_decide (tpRegistry p ≠ None) && bool_decide (tpServerName p ≠ "") &&
              bool_decide (tpNamespace p ≠ "") && bool_decide (tpPodName p ≠ "") && bool_decide (tpPodUID p ≠ "")
  end.

Definition with_notify (p : TargetPublisher) (c : option bool) : TargetPublisher :=
  {| tpClient := tpClient p; tpRegistry := tpRegistry p; tpServerName := tpServerName p;
     tpNamespace := tpNamespace p; tpPodName := tpPodName p; tpPodUID := tpPodUID p; tpNotify := c |}.

Definition Notify (p : TargetPublisher) : TargetPublisher :=
  match tpNotify p with None => p | Some _ => with_notify p (Some true) end.
Definition Init (p : TargetPublisher) : TargetPublisher :=
  match tpNotify p with None => with_notify p (Some false) | Some _ => p end.

Definition servableTargets (r : registry) : list string :=
  sort_strings (filter (λ '(_, e), ceRouter e ≠ None) (map_to_list (Snapshot r))).*1.

Definition stamp (p : TargetPublisher) (now : Z) (encoded : string) (truncated : bool) (lease : Lease) : Lease := {|
  lsName := lsName lease;
  lsNamespace := lsNamespace lease;
  lsLabels := <[managedByLabel := managedByValue]> (<[WebhookServerLabel := tpServerName p]> (lsLabels lease));
  lsAnnotations :=
    if truncated then <[TruncatedAnnotation := "true"]> (delete TargetsAnnotation (lsAnnotations lease))
    else delete TruncatedAnnotation (<[TargetsAnnotation := encoded]> (lsAnnotations lease));
  lsOwners := if bool_decide (length (lsOwners lease) = 0%nat)
              then [{| prAPIVersion := "v1"; prKind := "Pod"; prName := tpPodName p; prUID := tpPodUID p |}]
              else lsOwners lease;
  lsHolder := Some (tpPodName p);
  lsDurationSeconds := Some (LeaseDuration / Second);
  lsRenewTime := Some now;
  lsAcquireTime := match lsAcquireTime lease with None => Some now | Some t => Some t end;
|}.

Definition new_lease (name namespace : string) : Lease :=
  {| lsName := name; lsNamespace := namespace; lsLabels := ∅; lsAnnotations := ∅; lsOwners := [];
     lsHolder := None; lsDurationSeconds := None; lsRenewTime := None; lsAcquireTime := None |}.

Inductive write_result := WriteOK | AlreadyExists | WriteFailed (err : string).
Inductive publish_error := ErrGettingLease (err : string) | ErrCreatingLease (err : string) | ErrUpdatingLease (err : string).

(** [Publish]: what is written, given what [Get] and the write answer. *)
Definition Publish (p : option TargetPublisher) (got : read Lease) (answer : write_result) (now : Z)
    : option Lease * res publish_error () :=
  match p with
  | Some q =>
    if negb (Enabled p) then (None, Ok ())
    else
      let '(encoded, truncated) := Encode (servableTargets (default ∅ (tpRegistry q))) in
      match got with
      | NotFound =>
        let lease := stamp q now encoded truncated (new_lease (LeaseName (tpPodName q)) (tpNamespace q)) in
        (Some lease, match answer with WriteFailed e => Err (ErrCreatingLease e) | _ => Ok () end)
      | Failed e => (None, Err (ErrGettingLease e))
      | Found lease =>
        (Some (stamp q now encoded truncated lease),
         match answer with
         | WriteOK => Ok ()
         | AlreadyExists => Err (ErrUpdatingLease "already exists")
         | WriteFailed e => Err (ErrUpdatingLease e)
         end)
      end
  | None => (None, Ok ())
  end.

(** ** The operator's side *)

Definition UnreportedGracePeriod : Z := 30 * Second.

Record HandoverVerdict := { hvOK : bool; hvReason : string; hvMessage : handover_message }.

Definition canServeTarget (served : list string) (reporting readyReplicas : Z) (truncated : bool)
    (target serverName : string) (blockedFor : Z) : HandoverVerdict :=
  if readyReplicas =? 0 then
    {| hvOK := false; hvReason := "HandoverPending"; hvMessage := MNoReadyReplicas serverName target |}
  else if (reporting =? 0) && (blockedFor <? UnreportedGracePeriod) then
    {| hvOK := false; hvReason := "HandoverAwaitingReports"; hvMessage := MAwaitingReports serverName target |}
  else if reporting =? 0 then
    {| hvOK := true; hvReason := "HandoverUnverified"; hvMessage := MUnverified serverName target |}
  else if truncated then
    {| hvOK := false; hvReason := "HandoverUnknown"; hvMessage := MUnknown serverName target |}
  else if reporting <? readyReplicas then
    {| hvOK := false; hvReason := "HandoverPending"; hvMessage := MFewReports reporting readyReplicas serverName target |}
  else if negb (Contains served target) then
    {| hvOK := false; hvReason := "HandoverPending"; hvMessage := MNotYetServing serverName target reporting |}
  else {| hvOK := true; hvReason := "HandoverReady"; hvMessage := MReady serverName target reporting |}.

(** [blockedFor], given the HandoverReady condition [FindStatusCondition] finds. *)
Definition blockedFor (handoverReady : option Condition) (now : Z) : Z :=
  match handoverReady with
  | None => 0
  | Some c =>
    if bool_decide (cdStatus c ≠ "False") then 0
    else match cdLastTransition c with
    | None => 0
    | Some since => let d := time_sub now since in if 0 <? d then d else 0
    end
  end.

(** [readServedTargets] and [checkHandover], given what listing the server's
    Leases answers; the two clocks are read apart. *)
Definition readServedTargets (leases : res string (list Lease)) (clock : Z) : res string (list string * Z * bool) :=
  leases ← leases; Ok (Aggregate leases clock).
Definition checkHandover (leases : res string (list Lease)) (clock : Z) (serverName : string) (readyReplicas : Z)
    (target : string) (handoverReady : option Condition) (now : Z) : res string HandoverVerdict :=
  '(served, reporting, truncated) ← readServedTargets leases clock;
  Ok (canServeTarget served reporting readyReplicas truncated target serverName (blockedFor handoverReady now)).
End encoding.

#[local] Open Scope Z_scope.

(** ** [sort.Search] *)

Section search.
Context (f : nat → bool) (n : nat) (Hmono : ∀ i j, (i ≤ j < n)%nat → f i = true → f j = true).

Lemma search_spec fuel i j :
  (j - i ≤ fuel)%nat → (i ≤ j ≤ n)%nat → (∀ k, (k < i)%nat → f k = false) → (∀ k, (j ≤ k < n)%nat → f k = true) →
  let r := search fuel f i j in
  (r ≤ n)%nat ∧ (∀ k, (k < r)%nat → f k = false) ∧ (∀ k, (r ≤ k < n)%nat → f k = true).
Proof using Hmono.
  revert i j; induction fuel as [|fuel IH]; intros i j Hf Hij Hlo Hhi; cbn zeta; cbn [search].
  { split_and!; [lia|done|]. intros k Hk. apply Hhi. lia. }
  destruct (Nat.ltb_spec i j) as [Hlt|Hge].
  - assert (i ≤ Nat.div2 (i + j) < j)%nat as Hh 
      by (pose proof (Nat.div2_odd (i + j)); destruct (Nat.odd _); cbn [Nat.b2n] in *; lia).
    destruct (f (Nat.div2 (i + j))) eqn:E.
    + apply IH; [lia|lia|done|]. intros k Hk. by apply (Hmono (Nat.div2 (i + j)) k); [lia|].
    + apply IH; [lia|lia| |done]. intros k Hk. destruct (f k) eqn:Ek; [|done].
      rewrite (Hmono k (Nat.div2 (i + j))) in E; [done|lia|done].
  - split_and!; [lia|done|]. intros k Hk. apply Hhi. lia.
Qed.
End search.

Lemma nth_lookup_some {A} (l : list A) i d : (i < length l)%nat → l !! i = Some (nth i l d).
Proof. intros Hi. destruct (lookup_lt_is_Some_2 l i Hi) as [x Hx]. rewrite Hx. by rewrite (nth_lookup_Some _ _ _ _ Hx). Qed.

Lemma sorted_lookup_lt l i j x y :
  StronglySorted String.le l → (i < j)%nat → l !! i = Some x → l !! j = Some y → String.le x y.
Proof.
  intros Hs; revert i j; induction Hs as [|z l _ IH Hz]; intros i j Hij Hx Hy; [done|].
  destruct j as [|j]; [lia|]. cbn in Hy. destruct i as [|i]; [|apply (IH i j); [lia|done|done]].
  injection Hx as <-. rewrite Forall_forall in Hz. apply Hz. by eapply list_elem_of_lookup_2.
Qed.

Lemma Contains_spec l x : StronglySorted String.le l → Contains l x = true ↔ x ∈ l.
Proof.
  intros Hs. assert (∀ i j, (i ≤ j < length l)%nat → String.le (nth i l "") (nth j l "")) as Hle.
  { intros i j Hij. destruct (decide (i = j)) as [->|Hne]; [done|].
    eapply (sorted_lookup_lt l i j); [done|lia|apply nth_lookup_some; lia..]. }
  unfold Contains, SearchStrings. set (f := λ i, bool_decide (String.le x (nth i l ""))).
  assert (∀ i j, (i ≤ j < length l)%nat → f i = true → f j = true) as Hmono.
  { unfold f. intros i j Hij Hi%bool_decide_eq_true. apply bool_decide_eq_true. by transitivity (nth i l ""); [|apply Hle]. }
  destruct (search_spec f _ Hmono (length l) 0 (length l)) as (Hr & Hlo & Hhi); [lia..|].
  set (r := search (length l) f 0 (length l)) in *. rewrite andb_true_iff, Nat.ltb_lt, bool_decide_eq_true. split.
  - intros [Hlt Hx]. apply list_elem_of_lookup. exists r. rewrite (nth_lookup_some l r "") by done. by rewrite Hx.
  - intros (i & Hi)%list_elem_of_lookup. pose proof (lookup_lt_Some _ _ _ Hi) as Hil.
    assert (nth i l "" = x) as Hx by (by apply nth_lookup_Some).
    assert (f i = true) as Hfi by (unfold f; apply bool_decide_eq_true; by rewrite Hx).
    destruct (decide (i < r)%nat) as [Hir|Hir]; [by rewrite Hlo in Hfi|].
    split; [lia|]. apply (anti_symm String.le).
    + rewrite <- Hx. apply Hle. lia.
    + assert (f r = true) as Hfr by (apply Hhi; lia). unfold f in Hfr. by apply bool_decide_eq_true in Hfr.
Qed.

(** ** Round trip of the encoding *)

Definition plain_name (n : string) : Prop := has_char "010"%char n = false.

Section encoding.
Context {G : Gzip} {GL : GzipLaws G}.

Lemma encoded_not_empty s : EncodeToString (gzip s) ≠ "".
Proof.
  intros He. pose proof (DecodeString_EncodeToString (gzip s)) as Hd. rewrite He in Hd.
  injection Hd as Hd. by apply (gzip_header s).
Qed.

Lemma Decode_written ts v :
  Encode ts = (v, false) →
  let joined := join newline (sort_strings ts) in
  Decode v = Ok (if bool_decide (joined = "") then [] else split joined newline).
Proof.
  unfold Encode. destruct (_ || _) eqn:Elim; [done|]. intros [= <-]. cbn zeta.
  apply orb_false_iff in Elim as [_ Hlim]. unfold Decode.
  rewrite bool_decide_false by apply encoded_not_empty.
  rewrite DecodeString_EncodeToString, gunzip_gzip. cbn [mbind res_bind res_wrap]. by rewrite Hlim.
Qed.

(** [Decode] undoes [Encode], up to order, for names without line ends; only the
    list of one empty name is read back as no name at all. *)
Lemma Decode_Encode ts v :
  Encode ts = (v, false) → Forall plain_name ts → ts ≠ [""] → Decode v = Ok (sort_strings ts).
Proof.
  intros He Hts Hne. rewrite (Decode_written _ _ He). f_equal.
  assert (sort_strings ts ≡ₚ ts) as Hp by apply sort_strings_perm.
  destruct (decide (sort_strings ts = [])) as [Hs|Hs]; [by rewrite Hs|].
  assert (split (join newline (sort_strings ts)) newline = sort_strings ts) as Hsplit.
  { apply split_join_char; [done|]. by rewrite Hp. }
  case_bool_decide as Hj; [|done]. rewrite Hj in Hsplit. cbn in Hsplit. rewrite <- Hsplit in Hp.
  apply Permutation_singleton_l in Hp. done.
Qed.

Lemma Decode_Encode_blank v : Encode [""] = (v, false) → Decode v = Ok [].
Proof. intros He. by rewrite (Decode_written _ _ He). Qed.
End encoding.

(** ** The tally *)

Lemma wrap32_small z : 0 ≤ z < 2 ^ 31 → wrap32 z = z.
Proof. intros Hz. unfold wrap32. rewrite Z.mod_small by lia. lia. Qed.

Lemma count_names counts names x :
  NoDup names →
  foldl count_name counts names !! x =
    if decide (x ∈ names) then Some (wrap32 (default 0 (counts !! x) + 1)) else counts !! x.
Proof.
  intros Hnd. revert counts; induction Hnd as [|n names Hn _ IH]; intros counts; cbn [foldl]; [done|].
  rewrite IH. unfold count_name. destruct (decide (x = n)) as [->|Hne].
  - rewrite decide_False by done. rewrite decide_True by (by left). by rewrite lookup_insert_eq.
  - rewrite !lookup_insert_ne by done. destruct (decide (x ∈ names)) as [Hx|Hx].
    + by rewrite decide_True by (by right).
    + rewrite decide_False; [done|]. by intros [?|?]%elem_of_cons.
Qed.

Section tally.
Context {G : Gzip} (now : Z).

Definition live_leases (ls : list Lease) : list Lease := filter (λ l, lease_live now l = true) ls.
Definition names_of (l : Lease) : list string := default [] (stated l).
Definition mentions (x : string) (ls : list Lease) : list Lease := filter (λ l, x ∈ names_of l) (live_leases ls).
Definition count_of (n : nat) : option Z := match n with O => None | _ => Some (Z.of_nat n) end.

Record tallied (ls : list Lease) (st : tally) : Prop := {
  tallied_reporting : tlReporting st = Z.of_nat (length (live_leases ls));
  tallied_truncated : tlTruncated st = existsb (λ l, bool_decide (stated l = None)) (live_leases ls);
  tallied_counts x : tlCounts st !! x = count_of (length (mentions x ls));
}.

Lemma mentions_le x ls : (length (mentions x ls) ≤ length (live_leases ls))%nat.
Proof. apply length_filter. Qed.

Lemma live_leases_le ls : (length (live_leases ls) ≤ length ls)%nat.
Proof. apply length_filter. Qed.

Lemma live_leases_snoc ls l :
  live_leases (ls ++ [l]) = live_leases ls ++ if lease_live now l then [l] else [].
Proof.
  unfold live_leases. rewrite filter_app. f_equal. destruct (lease_live now l) eqn:E.
  - by rewrite filter_cons_True.
  - rewrite filter_cons_False; [done|]. by rewrite E.
Qed.

Lemma tally_spec ls :
  Z.of_nat (length ls) < 2 ^ 31 → Forall (λ l, NoDup (names_of l)) (live_leases ls) →
  tallied ls (foldl (tally_lease now) empty_tally ls).
Proof.
  induction ls as [|l ls IH] using rev_ind; intros Hlen Hnd; [by split|].
  rewrite length_app in Hlen. cbn in Hlen. rewrite foldl_app. cbn [foldl].
  pose proof (live_leases_le ls) as Hle. rewrite live_leases_snoc in Hnd.
  apply Forall_app in Hnd as [Hnd Hl]. destruct IH as [Hr Ht Hc]; [lia|done|].
  set (st := foldl _ _ ls) in *. unfold tally_lease.
  destruct (lease_live now l) eqn:Elive; cbn [negb].
  2:{ split; rewrite ?live_leases_snoc, ?Elive, ?app_nil_r; [done..|].
      intros x. unfold mentions. by rewrite live_leases_snoc, Elive, app_nil_r. }
  rewrite Forall_singleton in Hl. unfold names_of in Hl.
  assert (tlReporting st + 1 = Z.of_nat (length (live_leases ls) + 1)) as Hr1 by lia.
  destruct (stated l) as [names|] eqn:Es; rewrite ?Es in Hl; cbn in Hl.
  - split; cbn [tlReporting tlTruncated tlCounts]; rewrite ?live_leases_snoc, ?Elive, ?length_app, ?Hr1.
    + rewrite wrap32_small; [done|]. cbn. lia.
    + rewrite existsb_app, Ht. cbn. rewrite Es. cbn. by rewrite !orb_false_r.
    + intros x. rewrite count_names, Hc by done. unfold mentions. rewrite live_leases_snoc, Elive, filter_app.
      pose proof (mentions_le x ls) as Hm. unfold mentions in Hm. rewrite length_app.
      destruct (decide (x ∈ names)) as [Hx|Hx].
      * rewrite (filter_cons_True _ l) by (unfold names_of; by rewrite Es). cbn [filter list_filter length].
        set (k := length (filter _ (live_leases ls))) in *. rewrite Nat.add_1_r. cbn [count_of]. f_equal.
        assert (default 0 (count_of k) = Z.of_nat k) as -> by (by destruct k). rewrite wrap32_small by lia. lia.
      * rewrite (filter_cons_False _ l) by (unfold names_of; by rewrite Es). cbn [filter list_filter length].
        by rewrite Nat.add_0_r.
  - split; cbn [tlReporting tlTruncated tlCounts]; rewrite ?live_leases_snoc, ?Elive, ?length_app, ?Hr1.
    + rewrite wrap32_small; [done|]. cbn. lia.
    + rewrite existsb_app. cbn. rewrite bool_decide_true by done. by rewrite orb_true_r.
    + intros x. rewrite Hc. unfold mentions. rewrite live_leases_snoc, Elive, filter_app, length_app.
      rewrite (filter_cons_False _ l) by (unfold names_of; rewrite Es; apply not_elem_of_nil). cbn.
      by rewrite Nat.add_0_r.
Qed.

(** Everybody mentions [x] exactly when as many as report do. *)
Lemma mentions_all x ls :
  length (mentions x ls) = length (live_leases ls) ↔ Forall (λ l, x ∈ names_of l) (live_leases ls).
Proof.
  unfold mentions. induction (live_leases ls) as [|l k IH]; [done|]. rewrite filter_cons, Forall_cons.
  destruct (decide (x ∈ names_of l)) as [Hx|Hx]; cbn.
  - rewrite <- IH. split; [intros; split; [done|lia]|intros [_ ?]; lia].
  - split; [|by intros []]. pose proof (length_filter (λ l, x ∈ names_of l) k). lia.
Qed.

(** [Aggregate] is the intersection of what the live Leases state, or nothing
    when one of them states nothing. *)
Lemma Aggregate_spec ls served reporting truncated :
  Z.of_nat (length ls) < 2 ^ 31 → Forall (λ l, NoDup (names_of l)) (live_leases ls) →
  Aggregate ls now = (served, reporting, truncated) →
  reporting = Z.of_nat (length (live_leases ls)) ∧
  (truncated = true ↔ Exists (λ l, stated l = None) (live_leases ls)) ∧
  StronglySorted String.le served ∧
  ∀ x, x ∈ served ↔ truncated = false ∧ live_leases ls ≠ [] ∧ Forall (λ l, x ∈ names_of l) (live_leases ls).
Proof.
  intros Hlen Hnd. destruct (tally_spec ls Hlen Hnd) as [Hr Ht Hc]. unfold Aggregate.
  set (st := foldl _ _ ls) in *.
  assert (tlTruncated st = true ↔ Exists (λ l, stated l = None) (live_leases ls)) as Htr.
  { rewrite Ht, existsb_exists, Exists_exists. split; intros (l & Hl & Hs); exists l.
    - apply bool_decide_eq_true in Hs. by rewrite list_elem_of_In.
    - rewrite <- list_elem_of_In. by split; [|apply bool_decide_eq_true]. }
  destruct (_ || _) eqn:E.
  - intros [= <- <- <-]. split_and!; [done|done|constructor|]. intros x. split; [by intros ?%not_elem_of_nil|].
    intros (Hf & Hne & _). rewrite Hf in E. cbn in E. apply Z.eqb_eq in E.
    destruct (live_leases ls); [done|]. cbn in Hr. lia.
  - apply orb_false_iff in E as [Ef E0]. intros [= <- <- <-]. split_and!; [done| |apply sort_strings_sorted|].
    + split; [done|]. intros Hex. apply Htr in Hex. congruence.
    + intros x. rewrite elem_of_sort_strings, list_elem_of_fmap, <- mentions_all. apply Z.eqb_neq in E0. split.
      * intros ([x' n] & -> & Hin). apply list_elem_of_filter in Hin as [-> Hin]. apply elem_of_map_to_list in Hin.
        rewrite Hc in Hin. split_and!; [done| |].
        { intros He. apply E0. rewrite Hr, He. done. }
        destruct (length (mentions x' ls)) eqn:El; cbn in Hin; [done|]. injection Hin as Hin. cbn [fst]. lia.
      * intros (_ & Hne & Hall). exists (x, tlReporting st). split; [done|]. apply list_elem_of_filter. split; [done|].
        apply elem_of_map_to_list. rewrite Hc, Hall, Hr. destruct (live_leases ls); [done|done].
Qed.
End tally.
