(* ===== verification/Rollout.v ===== *)
(** Admission checks on a ConversionWebhookServer's container arguments and rollout
    (api/v1alpha1/extra_args.go and rollout_validation.go), and the parser the
    arguments are for: the standard library's [flag] package.

    Durations are [int64] nanoseconds and wrap around.  Error texts are data. *)
From Stdlib Require Import Ascii.
From S2P Require Import Prelude Float64 Duration.
#[local] Open Scope Z_scope.

(** ** Container arguments *)

Definition operatorManagedWebhookServerFlagNames : list string :=
  ["webhook-server-name"; "tls-cert-dir"; "conversion-bind-address"; "metrics-bind-address";
   "enable-xrd-support"; "enable-crd-support"; "cache-label-selector"].

(** The text before and after the first equals sign. *)
Fixpoint cut_equals (s : string) : string * option string :=
  match s with
  | EmptyString => ("", None)
  | String c s => if bool_decide (c = "="%char) then ("", Some s)
                  else let '(a, b) := cut_equals s in (String c a, b)
  end.

Definition longFlagName (arg : string) : option string :=
  if negb (has_prefix arg "--") then None
  else let name := trim_prefix arg "--" in
       if bool_decide (name = "") then None
       else let name := (cut_equals name).1 in
            if bool_decide (name = "") then None else Some name.

(** Whether the loop skips the next argument: a value given on its own. *)
Definition value_follows (arg : string) (rest : list string) : bool :=
  negb (has_char "="%char arg) &&
  match rest with next :: _ => negb (has_prefix next "-") | [] => false end.

Inductive args_error :=
| ErrManagedFlag (name : string)
| ErrNotDuration (raw : string)
| ErrNotPositive (raw : string).

(** The loop over the arguments; the fuel is their number. *)
Fixpoint validate_args (fuel : nat) (args : list string) : res args_error () :=
  match fuel, args with
  | S fuel, arg :: rest =>
    match longFlagName arg with
    | None => validate_args fuel rest
    | Some name =>
      if bool_decide (name ∈ operatorManagedWebhookServerFlagNames) then Err (ErrManagedFlag name)
      else validate_args fuel (if value_follows arg rest then tail rest else rest)
    end
  | _, _ => Ok ()
  end.
Definition ValidateWebhookServerExtraArgs (args : list string) : res args_error () :=
  validate_args (length args) args.

(** ** The shutdown timeout *)

Definition DefaultPreStopSleepSeconds : Z := 5.
Definition DefaultGracePeriodSeconds : Z := 45.
Definition DefaultWebhookServerShutdownTimeout : Z := 30 * Second.

(** The value of a flag: after the equals sign, or the next argument. *)
Definition flag_value (arg : string) (rest : list string) : string :=
  match (cut_equals arg).2 with
  | Some v => v
  | None => default "" (head rest)
  end.

Fixpoint shutdown_loop (fuel : nat) (effective : Z) (args : list string) : res args_error Z :=
  match fuel, args with
  | S fuel, arg :: rest =>
    match longFlagName arg with
    | None => shutdown_loop fuel effective rest
    | Some name =>
      if bool_decide (name ≠ "shutdown-timeout")
      then shutdown_loop fuel effective (if value_follows arg rest then tail rest else rest)
      else
        let raw := flag_value arg rest in
        match ParseDuration raw with
        | None => Err (ErrNotDuration raw)
        | Some d =>
          if d <=? 0 then Err (ErrNotPositive raw)
          else shutdown_loop fuel d (if has_char "="%char arg then rest else tail rest)
        end
    end
  | _, _ => Ok effective
  end.
Definition shutdownTimeoutFromArgs (args : list string) : res args_error Z :=
  shutdown_loop (length args) DefaultWebhookServerShutdownTimeout args.

(** ** The rollout *)

(** [intstr.IntOrString]. *)
Inductive IntOrString := IntVal (n : Z) | StrVal (s : string).

Record RolloutSpec := {
  roPreStopSleepSeconds : option Z;
  roTerminationGracePeriodSeconds : option Z;
  roMaxUnavailable : option IntOrString;
  roMaxSurge : option IntOrString;
  roDefaultTopologySpread : option bool;
}.

(** [strconv.Atoi]: an optional sign and decimal digits, in the range of [int]. *)
Fixpoint digits_value (x : Z) (l : text) : option Z :=
  match l with
  | [] => Some x
  | c :: l => match digit_of c with Some d => digits_value (10 * x + d) l | None => None end
  end.
Definition Atoi (s : string) : option Z :=
  let '(neg, l) := match str s with "-"%char :: l => (true, l) | "+"%char :: l => (false, l) | l => (false, l) end in
  match l with
  | [] => None
  | _ => n ← digits_value 0 l;
         let n := if neg then - n else n in
         if (- 2 ^ 63 <=? n) && (n <? 2 ^ 63) then Some n else None
  end.

Inductive rollout_error :=
| ErrArgs (e : args_error)
| ErrTooShort (grace preStop shutdown need : Z)
| ErrNegative (field : string) (n : Z)
| ErrNotPercent (field raw : string)
| ErrInvalidPercent (field raw : string)
| ErrNegativePercent (field raw : string)
| ErrBothZero.

Definition validateIntOrPercent (v : option IntOrString) (field : string) : res rollout_error () :=
  match v with
  | None => Ok ()
  | Some (IntVal n) => if n <? 0 then Err (ErrNegative field n) else Ok ()
  | Some (StrVal raw) =>
    if negb (has_suffix raw "%") then Err (ErrNotPercent field raw)
    else match Atoi (trim_suffix raw "%") with
         | None => Err (ErrInvalidPercent field raw)
         | Some n => if n <? 0 then Err (ErrNegativePercent field raw) else Ok ()
         end
  end.

Definition isZeroIntOrPercent (v : IntOrString) : bool :=
  match v with
  | IntVal n => n =? 0
  | StrVal s => match Atoi (trim_suffix s "%") with Some n => n =? 0 | None => false end
  end.

Definition validateRolloutStrategy (rollout : option RolloutSpec) : res rollout_error () :=
  match rollout with
  | None => Ok ()
  | Some ro =>
    _ ← validateIntOrPercent (roMaxUnavailable ro) "rollout.maxUnavailable";
    _ ← validateIntOrPercent (roMaxSurge ro) "rollout.maxSurge";
    let unavailableZero := match roMaxUnavailable ro with None => true | Some v => isZeroIntOrPercent v end in
    let surgeZero := match roMaxSurge ro with None => false | Some v => isZeroIntOrPercent v end in
    if unavailableZero && surgeZero then Err ErrBothZero else Ok ()
  end.

Definition effective_preStop (rollout : option RolloutSpec) : Z :=
  default DefaultPreStopSleepSeconds (rollout ≫= roPreStopSleepSeconds).
Definition effective_grace (rollout : option RolloutSpec) : Z :=
  default DefaultGracePeriodSeconds (rollout ≫= roTerminationGracePeriodSeconds).

Definition ValidateWebhookServerRollout (rollout : option RolloutSpec) (extraArgs : list string)
    : res rollout_error () :=
  let preStop := effective_preStop rollout in
  let grace := effective_grace rollout in
  shutdown ← res_wrap ErrArgs (shutdownTimeoutFromArgs extraArgs);
  let need := wrap64 (wrap64 (preStop * Second) + shutdown) in
  let have_ := wrap64 (grace * Second) in
  if have_ <=? need then Err (ErrTooShort grace preStop shutdown need)
  else validateRolloutStrategy rollout.

(** ** [flag.Parse], what the arguments are for

    [FlagSet.parseOne] in a loop: the flags it sets, in order.  [is_bool] says
    whether a name is a boolean flag, and is [None] when it is not a flag. *)
Inductive flag_error := BadSyntax (arg : string) | NotDefined (name : string) | NeedsArgument (name : string).

Section flags.
Context (is_bool : string → option bool).

(** The text after the dashes, when the argument is a flag. *)
Definition flag_body (arg : string) : option string :=
  if negb (has_prefix arg "-") || bool_decide (arg = "-") then None
  else if bool_decide (arg = "--") then None
  else Some (if has_prefix arg "--" then trim_prefix arg "--" else trim_prefix arg "-").

Fixpoint parse_flags (fuel : nat) (args : list string) : res flag_error (list (string * string)) :=
  match fuel, args with
  | S fuel, arg :: rest =>
    match flag_body arg with
    | None => Ok []
    | Some body =>
      let '(name, v) := cut_equals body in
      if bool_decide (name = "") || has_prefix name "-" then Err (BadSyntax arg)
      else match is_bool name, v with
           | None, _ => Err (NotDefined name)
           | Some true, _ => fs ← parse_flags fuel rest; Ok ((name, default "true" v) :: fs)
           | Some false, Some v => fs ← parse_flags fuel rest; Ok ((name, v) :: fs)
           | Some false, None =>
             match rest with
             | [] => Err (NeedsArgument name)
             | v :: rest => fs ← parse_flags fuel rest; Ok ((name, v) :: fs)
             end
           end
    end
  | _, _ => Ok []
  end.
Definition Parse (args : list string) : res flag_error (list (string * string)) := parse_flags (length args) args.
End flags.
