(* ===== verification/Workloads.v ===== *)
(** The objects a ConversionWebhookServer runs as: its certificate, Service,
    Deployment, autoscaler and disruption budget
    (internal/controller/conversionwebhookserver_controller.go, naming.go; the spec
    of api/v1alpha1/conversionwebhookserver_types.go).

    An apply configuration is a record of the fields the builders set.  Values the
    spec only passes through (tolerations, affinity, volumes and the like) are
    their JSON form; converting one to its apply configuration and setting the
    owner of the certificate are a parameter (class [ApplyTypes]), as is the
    integer value of a quantity. *)
From Stdlib Require Import Ascii.
From S2P Require Import Prelude Float64 Value Json Duration Path Assign Rollout ServedTargets Api.
#[local] Open Scope Z_scope.

(** ** The spec *)

Record ImageSpec := { imRepository : string; imTag : string; imDigest : string; imPullPolicy : string }.
Record AutoscalingSpec := { asMinReplicas : Z; asMaxReplicas : Z; asTargetCPU : Z }.
Record CertificateSpec := {
  ctIssuerName : string; ctIssuerKind : string; ctDNSNames : list string;
  ctDuration : option Z; ctRenewBefore : option Z }.
Record ServiceSpec := { seType : string; sePort : Z; seAnnotations : gmap string string }.
Record PodDisruptionBudgetSpec := { pdMinAvailable : option IntOrString; pdMaxUnavailable : option IntOrString }.
Record StartupProbeSpec := { spEnabled : option bool; spPeriodSeconds : option Z; spFailureThreshold : option Z }.
Record LabelSelector := { lsMatchLabels : gmap string string; lsMatchExpressions : list value }.
Record EnvVar := { evName : string; evJSON : value }.
Record ResourceRequirements := { reRequests : gmap string string; reLimits : gmap string string }.

Record ConversionWebhookServerSpec := {
  wsDefault : bool;
  wsNamespace : string;
  wsReplicas : option Z;
  wsAutoscaling : option AutoscalingSpec;
  wsImage : option ImageSpec;
  wsResources : ResourceRequirements;
  wsNodeSelector : gmap string string;
  wsTolerations : list value;
  wsAffinity : option value;
  wsPriorityClassName : string;
  wsServiceAccountName : string;
  wsExtraArgs : list string;
  wsExtraEnv : list EnvVar;
  wsExtraVolumes : list value;
  wsExtraVolumeMounts : list value;
  wsTopologySpreadConstraints : list value;
  wsPodLabels : gmap string string;
  wsPodAnnotations : gmap string string;
  wsCacheSelector : option LabelSelector;
  wsSharding : option ShardingSpec;
  wsStartupProbe : option StartupProbeSpec;
  wsRollout : option RolloutSpec;
  wsCertificate : CertificateSpec;
  wsService : ServiceSpec;
  wsPodDisruptionBudget : option PodDisruptionBudgetSpec;
}.

Definition DefaultStartupProbePeriodSeconds : Z := 5.
Definition DefaultStartupProbeFailureThreshold : Z := 60.
Definition StartupProbeEnabled (s : ConversionWebhookServerSpec) : bool :=
  match wsStartupProbe s with
  | Some {| spEnabled := Some b |} => b
  | _ => true
  end.
Definition StartupProbeTiming (s : ConversionWebhookServerSpec) : Z * Z :=
  match wsStartupProbe s with
  | None => (DefaultStartupProbePeriodSeconds, DefaultStartupProbeFailureThreshold)
  | Some p => (default DefaultStartupProbePeriodSeconds (spPeriodSeconds p),
               default DefaultStartupProbeFailureThreshold (spFailureThreshold p))
  end.

(** ** Names and labels *)

Definition cwsDeploymentName (server : string) : string := server +:+ "-webhook-server".
Definition cwsServiceName (server : string) : string := WebhookServerServiceName server.
Definition cwsCertificateName (server : string) : string := server +:+ "-webhook-server-cert".
Definition cwsCertificateSecretName (server : string) : string := server +:+ "-webhook-server-tls".
Definition cwsPDBName (server : string) : string := server +:+ "-webhook-server".
Definition cwsHPAName (server : string) : string := server +:+ "-webhook-server".

Definition webhookServerConversionPort : Z := 9443.
Definition webhookServerMetricsPort : Z := 8443.
Definition defaultWebhookServerImage : string := "ghcr.io/terasky-oss/declarative-conversion-webhook-server:latest".
Definition defaultServiceAccountName : string := "declarative-conversion-webhook-server".

Definition podLabels (server : string) : gmap string string := {[
  "app.kubernetes.io/name" := "declarative-conversion-webhook-server";
  "app.kubernetes.io/instance" := server;
  managedByLabel := managedByValue ]}.

(** The user's labels, except the reserved ones. *)
Definition templateLabels (server : string) (extra : gmap string string) : gmap string string :=
  map_fold (λ k v out, match out !! k with Some _ => out | None => <[k := v]> out end) (podLabels server) extra.

Definition orString (s def : string) : string := orDefault s def.

(** ** The certificate *)

Definition dns_names (server namespace : string) (ct : CertificateSpec) : list string :=
  if bool_decide (length (ctDNSNames ct) = 0%nat) then
    let svc := cwsServiceName server in
    [svc; svc +:+ "." +:+ namespace; svc +:+ "." +:+ namespace +:+ ".svc";
     svc +:+ "." +:+ namespace +:+ ".svc.cluster.local"]
  else ctDNSNames ct.

Definition certificate (server namespace : string) (ct : CertificateSpec) : obj :=
  let spec : obj := {[
    "secretName" := VStr (cwsCertificateSecretName server);
    "dnsNames" := VArr (VStr <$> dns_names server namespace ct);
    "issuerRef" := VObj {[ "name" := VStr (ctIssuerName ct);
                           "kind" := VStr (orString (ctIssuerKind ct) "ClusterIssuer") ]} ]} in
  let spec := match ctDuration ct with Some d => <["duration" := VStr (Duration_String d)]> spec | None => spec end in
  let spec := match ctRenewBefore ct with Some d => <["renewBefore" := VStr (Duration_String d)]> spec | None => spec end in
  {[ "apiVersion" := VStr "cert-manager.io/v1"; "kind" := VStr "Certificate";
     "metadata" := VObj {[ "name" := VStr (cwsCertificateName server); "namespace" := VStr namespace ]};
     "spec" := VObj spec ]}.

(** ** Apply configurations *)

Record OwnerApply := { owName : string; owUID : string }.   (* controller, blocking owner deletion *)
Record ServicePort := { ptName : string; ptPort : Z; ptTargetPort : Z }.
Record ServiceApply := {
  asvName : string; asvNamespace : string; asvLabels : gmap string string; asvAnnotations : gmap string string;
  asvOwner : OwnerApply; asvType : string; asvSelector : gmap string string; asvPorts : list ServicePort }.

Definition service_port (svc : ServiceSpec) : Z := if sePort svc =? 0 then 443 else sePort svc.

Definition service (server uid namespace : string) (svc : ServiceSpec) : ServiceApply := {|
  asvName := cwsServiceName server; asvNamespace := namespace; asvLabels := podLabels server;
  asvAnnotations := seAnnotations svc; asvOwner := {| owName := server; owUID := uid |};
  asvType := if bool_decide (seType svc = "") then "ClusterIP" else seType svc;
  asvSelector := podLabels server;
  asvPorts := [ {| ptName := "conversion"; ptPort := service_port svc; ptTargetPort := webhookServerConversionPort |};
                {| ptName := "metrics"; ptPort := webhookServerMetricsPort; ptTargetPort := webhookServerMetricsPort |} ] |}.

(** HTTP probes of the metrics port. *)
Record Probe := { prPath : string; prPeriodSeconds : Z; prFailureThreshold : Z }.
Inductive env_entry := FromField (name path : string) | Literal (name value : string) | ExtraEnvEntry (e : value).
Inductive volume_mount := MountAt (name path : string) (readOnly : bool) | ExtraMount (m : value).
Inductive volume := SecretVolume (name secret : string) | EmptyDir (name : string) | ExtraVolume (v : value).
Inductive spread := HostnameSpread (selector : gmap string string) | ExtraSpread (s : value).

(** The container and the pod run as non-root with a read-only root file system,
    no capabilities and the default seccomp profile, always. *)
Record Container := {
  cnName : string; cnImage : string; cnPullPolicy : option string; cnArgs : list string;
  cnPorts : list (string * Z); cnMounts : list volume_mount; cnReadiness : Probe; cnLiveness : Probe;
  cnStartup : option Probe; cnResources : ResourceRequirements; cnEnv : list env_entry; cnPreStopSleep : option Z }.
Record PodSpec := {
  psServiceAccount : string; psGracePeriod : Z; psContainer : Container; psVolumes : list volume;
  psNodeSelector : gmap string string; psPriorityClass : string; psSpread : list spread;
  psTolerations : list value; psAffinity : option value }.
Record DeploymentApply := {
  adName : string; adNamespace : string; adLabels : gmap string string; adOwner : OwnerApply;
  adReplicas : option Z; adSelector : gmap string string; adMaxUnavailable : IntOrString; adMaxSurge : IntOrString;
  adTemplateLabels : gmap string string; adTemplateAnnotations : gmap string string; adPod : PodSpec }.

(** ** The Deployment *)

(** What the manager hands to every replica. *)
Record ReconcilerOptions := {
  rcDefaultNamespace : string; rcDefaultImage : string; rcEnableXRDSupport : bool; rcEnableCRDSupport : bool }.

Class ApplyTypes := {
  viaJSON : value → res string value;              (* by the name of the type converted to *)
  SetControllerReference : string → string → obj → res string obj;   (* owner's name and UID *)
  quantity_Value : string → Z;
}.

(** An owner is a matter of metadata. *)
Class ApplyTypesLaws (A : ApplyTypes) := {
  owner_keeps_spec name uid o o' : SetControllerReference name uid o = Ok o' → o' !! "spec" = o !! "spec";
}.

Inductive deployment_error :=
| ErrManagedArgs (e : args_error)
| ErrCacheSelector (err : string)
| ErrConverting (field err : string)
| ErrApplyingDeployment (err : string).

Definition dquoted (s : string) : string := String "034"%char (s +:+ String "034"%char "").

(** [json.Marshal] of a LabelSelector, its fields in order. *)
Definition selector_json (sel : LabelSelector) : option string :=
  let field (present : bool) (name : string) (v : value) : option (list string) :=
    if present then (λ t, [dquoted name +:+ ":" +:+ t]) <$> json_Marshal v else Some [] in
  labels ← field (bool_decide (lsMatchLabels sel ≠ ∅)) "matchLabels" (VObj (VStr <$> lsMatchLabels sel));
  exprs ← field (bool_decide (lsMatchExpressions sel ≠ [])) "matchExpressions" (VArr (lsMatchExpressions sel));
  Some ("{" +:+ join "," (labels ++ exprs) +:+ "}").

Definition cacheSelectorArg (sel : option LabelSelector) : res deployment_error (option string) :=
  match sel with
  | None => Ok None
  | Some sel =>
    if bool_decide (lsMatchLabels sel = ∅) && bool_decide (lsMatchExpressions sel = []) then Ok None
    else match selector_json sel with
    | None => Err (ErrCacheSelector "unsupported value")
    | Some raw => Ok (Some ("--cache-label-selector=" +:+ raw))
    end
  end.

Definition goMemLimitEnv : string := "GOMEMLIMIT".
Definition goMemLimitFraction : Z := 90.

Section deployment.
Context `{AT : ApplyTypes} (rc : ReconcilerOptions).

Definition webhookServerMemoryLimitBytes (re : ResourceRequirements) : option Z :=
  match reLimits re !! "memory" with
  | None => None
  | Some limit =>
    let bytes := quantity_Value limit in
    if bytes <=? 0 then None
    else let derived := Z.quot bytes 100 * goMemLimitFraction in
         if derived <=? 0 then None else Some derived
  end.

Definition hasEnvVar (env : list EnvVar) (name : string) : bool := existsb (λ e, bool_decide (evName e = name)) env.

Definition rolloutPreStopSeconds (s : ConversionWebhookServerSpec) : Z :=
  default DefaultPreStopSleepSeconds (wsRollout s ≫= roPreStopSleepSeconds).
Definition rolloutGracePeriod (s : ConversionWebhookServerSpec) : Z :=
  default DefaultGracePeriodSeconds (wsRollout s ≫= roTerminationGracePeriodSeconds).
Definition rolloutDefaultSpread (s : ConversionWebhookServerSpec) : bool :=
  default true (wsRollout s ≫= roDefaultTopologySpread).
Definition rolloutStrategy (s : ConversionWebhookServerSpec) : IntOrString * IntOrString :=
  (default (IntVal 0) (wsRollout s ≫= roMaxUnavailable), default (IntVal 1) (wsRollout s ≫= roMaxSurge)).

Definition image_of (s : ConversionWebhookServerSpec) : string :=
  let image := orString (rcDefaultImage rc) defaultWebhookServerImage in
  match wsImage s with
  | None => image
  | Some i =>
    if bool_decide (imRepository i = "") then image
    else if bool_decide (imDigest i ≠ "") then imRepository i +:+ "@" +:+ imDigest i
    else if bool_decide (imTag i ≠ "") then imRepository i +:+ ":" +:+ imTag i
    else image
  end.

(** Left to the autoscaler when there is one. *)
Definition replicas_of (s : ConversionWebhookServerSpec) : option Z :=
  match wsAutoscaling s with Some _ => None | None => Some (default 2 (wsReplicas s)) end.

Definition bool_text (b : bool) : string := if b then "true" else "false".

Definition server_args (server : string) (s : ConversionWebhookServerSpec) : res deployment_error (list string) :=
  _ ← res_wrap ErrManagedArgs (ValidateWebhookServerExtraArgs (wsExtraArgs s));
  cache ← cacheSelectorArg (wsCacheSelector s);
  Ok (["--webhook-server-name=" +:+ server; "--tls-cert-dir=/tls";
       "--conversion-bind-address=:" +:+ pretty webhookServerConversionPort;
       "--metrics-bind-address=:" +:+ pretty webhookServerMetricsPort;
       "--enable-xrd-support=" +:+ bool_text (rcEnableXRDSupport rc);
       "--enable-crd-support=" +:+ bool_text (rcEnableCRDSupport rc)] ++
      option_list cache ++ wsExtraArgs s).

Definition convert_all (field : string) (vs : list value) : res deployment_error (list value) :=
  res_wrap (ErrConverting field) (res_mapM viaJSON vs).

(** The replica's identity, the memory limit of its collector, the user's own. *)
Definition server_env (s : ConversionWebhookServerSpec) : res deployment_error (list env_entry) :=
  extra ← convert_all "extraEnv" (evJSON <$> wsExtraEnv s);
  Ok ([FromField "POD_NAME" "metadata.name"; FromField "POD_NAMESPACE" "metadata.namespace"; FromField "POD_UID" "metadata.uid"] ++
      match webhookServerMemoryLimitBytes (wsResources s) with
      | Some bytes => if hasEnvVar (wsExtraEnv s) goMemLimitEnv then [] else [Literal goMemLimitEnv (pretty bytes)]
      | None => []
      end ++
      (ExtraEnvEntry <$> extra)).

Definition server_container (server : string) (s : ConversionWebhookServerSpec) : res deployment_error Container :=
  args ← server_args server s;
  env ← server_env s;
  mounts ← convert_all "extraVolumeMounts" (wsExtraVolumeMounts s);
  let pullPolicy := match wsImage s with Some i => imPullPolicy i | None => "" end in
  Ok {|
    cnName := "webhook-server"; cnImage := image_of s;
    cnPullPolicy := if bool_decide (pullPolicy = "") then None else Some pullPolicy;
    cnArgs := args;
    cnPorts := [("conversion", webhookServerConversionPort); ("metrics", webhookServerMetricsPort)];
    cnMounts := [MountAt "tls" "/tls" true; MountAt "tmp" "/tmp" false] ++ (ExtraMount <$> mounts);
    cnReadiness := {| prPath := "/readyz"; prPeriodSeconds := 5; prFailureThreshold := 3 |};
    cnLiveness := {| prPath := "/healthz"; prPeriodSeconds := 10; prFailureThreshold := 3 |};
    cnStartup := if StartupProbeEnabled s
                 then let '(period, threshold) := StartupProbeTiming s in
                      Some {| prPath := "/readyz"; prPeriodSeconds := period; prFailureThreshold := threshold |}
                 else None;
    cnResources := wsResources s; cnEnv := env;
    cnPreStopSleep := if 0 <? rolloutPreStopSeconds s then Some (rolloutPreStopSeconds s) else None |}.

Definition pod_spec (server : string) (s : ConversionWebhookServerSpec) : res deployment_error PodSpec :=
  container ← server_container server s;
  volumes ← convert_all "extraVolumes" (wsExtraVolumes s);
  spreads ← convert_all "topologySpreadConstraints" (wsTopologySpreadConstraints s);
  tolerations ← convert_all "toleration" (wsTolerations s);
  affinity ← convert_all "affinity" (option_list (wsAffinity s));
  Ok {|
    psServiceAccount := if bool_decide (wsServiceAccountName s = "") then defaultServiceAccountName else wsServiceAccountName s;
    psGracePeriod := rolloutGracePeriod s; psContainer := container;
    psVolumes := [SecretVolume "tls" (cwsCertificateSecretName server); EmptyDir "tmp"] ++ (ExtraVolume <$> volumes);
    psNodeSelector := wsNodeSelector s; psPriorityClass := wsPriorityClassName s;
    psSpread := (ExtraSpread <$> spreads) ++
      (if bool_decide (length (wsTopologySpreadConstraints s) = 0%nat) && rolloutDefaultSpread s
       then [HostnameSpread (podLabels server)] else []);
    psTolerations := tolerations; psAffinity := head affinity |}.

Definition deployment (server uid namespace : string) (s : ConversionWebhookServerSpec) : res deployment_error DeploymentApply :=
  pod ← pod_spec server s;
  Ok {|
    adName := cwsDeploymentName server; adNamespace := namespace; adLabels := podLabels server;
    adOwner := {| owName := server; owUID := uid |}; adReplicas := replicas_of s; adSelector := podLabels server;
    adMaxUnavailable := (rolloutStrategy s).1; adMaxSurge := (rolloutStrategy s).2;
    adTemplateLabels := templateLabels server (wsPodLabels s); adTemplateAnnotations := wsPodAnnotations s;
    adPod := pod |}.
End deployment.

(** ** The autoscaler and the disruption budget *)

Record HPAApply := {
  ahName : string; ahNamespace : string; ahLabels : gmap string string; ahOwner : OwnerApply;
  ahTarget : string; ahMinReplicas : Z; ahMaxReplicas : Z; ahCPU : Z }.
Definition hpa (server uid namespace : string) (a : AutoscalingSpec) : HPAApply := {|
  ahName := cwsHPAName server; ahNamespace := namespace; ahLabels := podLabels server;
  ahOwner := {| owName := server; owUID := uid |}; ahTarget := cwsDeploymentName server;
  ahMinReplicas := asMinReplicas a; ahMaxReplicas := asMaxReplicas a;
  ahCPU := if asTargetCPU a =? 0 then 75 else asTargetCPU a |}.

Record PDBApply := {
  apName : string; apNamespace : string; apLabels : gmap string string; apOwner : OwnerApply;
  apSelector : gmap string string; apMinAvailable : option IntOrString; apMaxUnavailable : option IntOrString }.
Definition pdb (server uid namespace : string) (p : PodDisruptionBudgetSpec) : PDBApply := {|
  apName := cwsPDBName server; apNamespace := namespace; apLabels := podLabels server;
  apOwner := {| owName := server; owUID := uid |}; apSelector := podLabels server;
  apMinAvailable := pdMinAvailable p; apMaxUnavailable := pdMaxUnavailable p |}.
