(* ===== verification/Patches.v ===== *)
(** The server-side-apply patches of spec.conversion
    (internal/conversionpatch/conversionpatch.go).

    An XRD's patch is an unstructured object; a CRD's is an apply configuration, of
    which the fields the builders set are kept. *)
From S2P Require Import Prelude Float64 Value Path Schema Rules Diagnostics Compile Normalize Platform Required Analyze Adapters Encoding.

Definition ManagedByAnnotation : string := "conversion.terasky.com/managed-by".
Definition PlanHashAnnotation : string := "conversion.terasky.com/plan-hash".

Record Params := {
  paTargetName : string;
  paXRDAPIVersion : string;
  paConfigName : string;
  paPlanHash : string;
  paServiceName : string;
  paServiceNamespace : string;
  paPath : string;
  paPort : Z;
  paCABundle : string;         (* base64 *)
  paReviewVersions : list string;
}.

Definition xrdWriteAPIVersion (apiVersion : string) : string :=
  if bool_decide (apiVersion ≠ "") then apiVersion else xrdadapter.GroupVersion_v2.

Definition toAnySlice (ss : list string) : list value := VStr <$> ss.

Definition BuildXRDConversionPatch (p : Params) : obj := {[
  "apiVersion" := VStr (xrdWriteAPIVersion (paXRDAPIVersion p));
  "kind" := VStr "CompositeResourceDefinition";
  "metadata" := VObj {[
    "name" := VStr (paTargetName p);
    "annotations" := VObj {[
      ManagedByAnnotation := VStr (paConfigName p);
      PlanHashAnnotation := VStr (paPlanHash p) ]} ]};
  "spec" := VObj {[
    "conversion" := VObj {[
      "strategy" := VStr "Webhook";
      "webhook" := VObj {[
        "clientConfig" := VObj {[
          "service" := VObj {[
            "name" := VStr (paServiceName p);
            "namespace" := VStr (paServiceNamespace p);
            "path" := VStr (paPath p);
            "port" := VInt Int64 (paPort p) ]};
          "caBundle" := VStr (paCABundle p) ]};
        "conversionReviewVersions" := VArr (toAnySlice (paReviewVersions p)) ]} ]} ]} ]}.

(** A CustomResourceDefinitionApplyConfiguration. *)
Record CRDApplyConfiguration := {
  acName : string;
  acAnnotations : gmap string string;
  acConversion : CustomResourceConversion;
}.

Definition BuildCRDConversionPatch (p : Params) : res string CRDApplyConfiguration :=
  match DecodeString (paCABundle p) with
  | None => Err "decoding CA bundle"
  | Some caBundleBytes => Ok {|
      acName := paTargetName p;
      acAnnotations := {[ ManagedByAnnotation := paConfigName p; PlanHashAnnotation := paPlanHash p ]};
      acConversion := {| ccStrategy := "Webhook"; ccWebhook := Some {|
        whClientConfig := Some {| wcURL := None;
          wcService := Some {| svcNamespace := paServiceNamespace p; svcName := paServiceName p;
                               svcPath := Some (paPath p); svcPort := Some (paPort p) |};
          wcCABundle := caBundleBytes |};
        whReviewVersions := paReviewVersions p |} |} |}
  end.

Definition BuildXRDRevertPatch (targetName apiVersion : string) : obj := {[
  "apiVersion" := VStr (xrdWriteAPIVersion apiVersion);
  "kind" := VStr "CompositeResourceDefinition";
  "metadata" := VObj {[ "name" := VStr targetName ]};
  "spec" := VObj {[ "conversion" := VObj {[ "strategy" := VStr "None" ]} ]} ]}.

Definition BuildCRDRevertPatch (targetName : string) : CRDApplyConfiguration :=
  {| acName := targetName; acAnnotations := ∅; acConversion := {| ccStrategy := "None"; ccWebhook := None |} |}.
