(* ===== verification/Guard.v ===== *)
(** The XRD conversion guard (internal/webhook/xrd_conversion_guard.go): a mutating
    webhook that puts back the spec.conversion and the two annotations a write to a
    CompositeResourceDefinition would drop.

    Decoding the request is an input.  The accessors that edit an unstructured
    object (class [UnstructuredEdits]) and [url.Parse] (class [NetURL]) are
    parameters with their documented behaviour as laws.

    The last part holds the lemmas: what the guard writes, and that it leaves its
    own work alone. *)
From S2P Require Import Prelude Float64 Value Json Path Schema Rules Diagnostics Compile Normalize Platform Required Analyze Assign Api Adapters Configs Patches.

Class UnstructuredEdits := {
  NestedInt64 : obj → list string → res string (option Z);
  SetNestedMap : obj → obj → list string → res string obj;
  u_GetAnnotations : obj → gmap string string;
  u_SetAnnotations : obj → gmap string string → obj;
}.
Class UnstructuredEditsLaws (E : UnstructuredEdits) := {
  nested_int64_found o p z : getValue o p = Some (VInt Int64 z) → NestedInt64 o p = Ok (Some z);
  set_nested_map_ok o m p o' : setValue o p (VObj m) = Ok o' → SetNestedMap o m p = Ok o';
  set_nested_map_err o m p e : setValue o p (VObj m) = Err e → ∃ e', SetNestedMap o m p = Err e';
  get_annotations_found o m :
    getValue o ["metadata"; "annotations"] = Some (VObj (VStr <$> m)) → u_GetAnnotations o = m;
  get_annotations_absent o : getValue o ["metadata"; "annotations"] = None → u_GetAnnotations o = ∅;
  set_annotations_ok o m o' :
    setValue o ["metadata"; "annotations"] (VObj (VStr <$> m)) = Ok o' → u_SetAnnotations o m = o';
}.

(** [url.Parse]: an error, or the URL's Scheme and Hostname(). *)
Class NetURL := { url_Parse : string → res string (string * string) }.

(** Hosts of letters, digits, dashes and dots, and paths of those, underscores and
    slashes, need no escaping. *)
Definition host_char (c : Ascii.ascii) : bool :=
  let n := Ascii.nat_of_ascii c in
  ((97 <=? n) && (n <=? 122) || (48 <=? n) && (n <=? 57) || (n =? 45) || (n =? 46))%nat.
Definition path_char (c : Ascii.ascii) : bool :=
  let n := Ascii.nat_of_ascii c in (host_char c || (n =? 47) || (n =? 95) || (65 <=? n) && (n <=? 90))%nat.
Definition host_text (s : string) : bool :=
  bool_decide (s ≠ "") && forallb host_char (String.list_ascii_of_string s).
Definition path_text (s : string) : bool :=
  has_prefix s "/" && forallb path_char (String.list_ascii_of_string s).

Class NetURLLaws (N : NetURL) := {
  url_parse_https host path : host_text host = true → path_text path = true →
    url_Parse ("https://" +:+ host +:+ path) = Ok ("https", host);
}.

Definition GuardPath : string := "/guard-xrd-conversion".

Record guardService := { guName : string; guNamespace : string; guPort : Z }.

Inductive guard_error :=
| ErrBadURL (url : string)
| ErrBadHost (host : string)
| ErrSettingConversion (err : string).

Section guard.
Context `{U : Unstructured} `{UE : UnstructuredEdits} `{NU : NetURL}.

(** [s, _, _ := NestedString(...)] and the like. *)
Definition nested_text (o : obj) (p : list string) : string :=
  match NestedString o p with Ok (Some s) => s | _ => "" end.
Definition nested_int (o : obj) (p : list string) : Z :=
  match NestedInt64 o p with Ok (Some z) => z | _ => 0%Z end.
Definition annotation (o : obj) (k : string) : string := default "" (u_GetAnnotations o !! k).

Definition guardWebhookService (cfg : XRDConversionConfig) : res guard_error guardService :=
  let url := stWebhookURL (xcStatus cfg) in
  match url_Parse url with
  | Err _ => Err (ErrBadURL url)
  | Ok (scheme, hostname) =>
    if bool_decide (scheme ≠ "https") || bool_decide (hostname = "") then Err (ErrBadURL url)
    else match split hostname "." with
    | p0 :: p1 :: _ :: _ =>
      if bool_decide (p0 = "") || bool_decide (p1 = "") then Err (ErrBadHost hostname)
      else Ok {| guName := p0; guNamespace := p1;
                 guPort := let port := stWebhookPort (xcStatus cfg) in
                           if bool_decide (port = 0%Z) then 443%Z else port |}
    | _ => Err (ErrBadHost hostname)
    end
  end.

(** Why a write is left alone. *)
Inductive skip_reason :=
| NeverApplied
| NotApplied
| NoCoordinates
| BeingDeleted
| ForeignWebhook
| BadCoordinates (e : guard_error)
| AlreadyCarried.

Definition service_path : list string := ["spec"; "conversion"; "webhook"; "clientConfig"; "service"].

(** [Ok ()] to restore. *)
Definition shouldRestoreConversion `{CO : ConditionOps} (xrd : obj) (cfg : XRDConversionConfig) : res skip_reason () :=
  let st := xcStatus cfg in
  if bool_decide (stLastAppliedPlanHash st = "") then Err NeverApplied
  else if negb (IsStatusConditionTrue (stConditions st) ConditionApplied) then Err NotApplied
  else if bool_decide (stAssignedWebhookServer st = "") || bool_decide (stWebhookPath st = "") then Err NoCoordinates
  else if omDeleting (xcMeta cfg) then Err BeingDeleted
  else
    let strategy := nested_text xrd ["spec"; "conversion"; "strategy"] in
    if bool_decide (strategy = "") then Ok ()
    else if bool_decide (strategy ≠ "Webhook") then Ok ()
    else if bool_decide (annotation xrd ManagedByAnnotation ≠ omName (xcMeta cfg)) then Err ForeignWebhook
    else match guardWebhookService cfg with
    | Err e => Err (BadCoordinates e)
    | Ok want =>
      let svcName := nested_text xrd (service_path ++ ["name"]) in
      let svcNS := nested_text xrd (service_path ++ ["namespace"]) in
      let path := nested_text xrd (service_path ++ ["path"]) in
      let port := nested_int xrd (service_path ++ ["port"]) in
      if bool_decide (svcName = guName want) && bool_decide (svcNS = guNamespace want) &&
         bool_decide (path = stWebhookPath st) && bool_decide (port = guPort want) &&
         bool_decide (annotation xrd PlanHashAnnotation = stLastAppliedPlanHash st)
      then Err AlreadyCarried else Ok ()
    end.

Definition ca_bundle_path : list string := ["spec"; "conversion"; "webhook"; "clientConfig"; "caBundle"].

(** The stanza [applyConversionToXRD] writes, keeping a CA bundle that is there. *)
Definition restored_conversion (svc : guardService) (path : string) (reviewVersions : list string) (caBundle : string) : obj :=
  let service := VObj {[
    "name" := VStr (guName svc); "namespace" := VStr (guNamespace svc);
    "path" := VStr path; "port" := VInt Int64 (guPort svc) ]} in
  let clientConfig : obj := {[ "service" := service ]} in
  {[ "strategy" := VStr "Webhook";
     "webhook" := VObj {[
       "clientConfig" := VObj (if bool_decide (caBundle ≠ "") then <["caBundle" := VStr caBundle]> clientConfig
                               else clientConfig);
       "conversionReviewVersions" := VArr (VStr <$> reviewVersions) ]} ]}.

Definition applyConversionToXRD (xrd : obj) (cfg : XRDConversionConfig) : res guard_error obj :=
  svc ← guardWebhookService cfg;
  let reviewVersions := xsConversionReviewVersions (xcSpec cfg) in
  let reviewVersions := if bool_decide (length reviewVersions = 0) then ["v1"] else reviewVersions in
  let conversion := restored_conversion svc (stWebhookPath (xcStatus cfg)) reviewVersions (nested_text xrd ca_bundle_path) in
  xrd ← res_wrap ErrSettingConversion (SetNestedMap xrd conversion ["spec"; "conversion"]);
  Ok (u_SetAnnotations xrd
        (<[PlanHashAnnotation := stLastAppliedPlanHash (xcStatus cfg)]>
          (<[ManagedByAnnotation := omName (xcMeta cfg)]> (u_GetAnnotations xrd)))).

(** The index on spec.targetXRD.name answers the List with the configs that name
    the XRD. *)
Definition indexed (xrdName : string) (configs : list XRDConversionConfig) : list XRDConversionConfig :=
  filter (λ c, xsTargetXRD (xcSpec c) ≠ "" ∧ xsTargetXRD (xcSpec c) = xrdName) configs.

Definition lookupConfig (xrdName : string) (configs : res string (list XRDConversionConfig)) : option XRDConversionConfig :=
  if bool_decide (xrdName = "") then None
  else match configs with
  | Err _ => None
  | Ok configs => match indexed xrdName configs with [cfg] => Some cfg | _ => None end
  end.

(** Allowed unchanged, or with the patch that turns the request into an object. *)
Inductive guard_response := Allowed | Patched (o : obj).

Definition Handle `{CO : ConditionOps} (decoded : res string obj) (name : string)
    (configs : res string (list XRDConversionConfig)) : guard_response :=
  match decoded with
  | Err _ => Allowed
  | Ok xrd =>
    match lookupConfig name configs with
    | None => Allowed
    | Some cfg =>
      match shouldRestoreConversion xrd cfg with
      | Err _ => Allowed
      | Ok _ =>
        match applyConversionToXRD xrd cfg with
        | Err _ => Allowed
        | Ok patched => match json_Marshal (VObj patched) with None => Allowed | Some _ => Patched patched end
        end
      end
    end
  end.
End guard.

Section guard.
Context {U : Unstructured} {UL : UnstructuredLaws U} {UE : UnstructuredEdits} {EL : UnstructuredEditsLaws UE}
  `{NU : NetURL} {CO : ConditionOps}.

(** Objects with metadata, whose annotations [am] are texts when there are any. *)
Definition has_annotations (o : obj) (am : gmap string string) : Prop :=
  ∃ m, o !! "metadata" = Some (VObj m) ∧
    (m !! "annotations" = Some (VObj (VStr <$> am)) ∨ (m !! "annotations" = None ∧ am = ∅)).

Lemma has_annotations_get o am : has_annotations o am → u_GetAnnotations o = am.
Proof.
  intros (m & Hm & Ha). assert (getValue o ["metadata"; "annotations"] = m !! "annotations") as Hg.
  { rewrite (getValue_descend o "metadata" m), getValue_key by (first [done|unfold descend; by rewrite Hm]). done. }
  destruct Ha as [Ha|[Ha ->]]; [apply get_annotations_found|apply get_annotations_absent]; by rewrite Hg.
Qed.

Lemma SetNestedMap_inv o m p o' : SetNestedMap o m p = Ok o' → setValue o p (VObj m) = Ok o'.
Proof.
  intros H. destruct (setValue o p (VObj m)) as [o1|e] eqn:E.
  - apply set_nested_map_ok in E. congruence.
  - apply set_nested_map_err in E as [e' E]. congruence.
Qed.

Definition review_versions_of (cfg : XRDConversionConfig) : list string :=
  let vs := xsConversionReviewVersions (xcSpec cfg) in if bool_decide (length vs = 0) then ["v1"] else vs.
Definition restored_annotations (cfg : XRDConversionConfig) (am : gmap string string) : gmap string string :=
  <[PlanHashAnnotation := stLastAppliedPlanHash (xcStatus cfg)]> (<[ManagedByAnnotation := omName (xcMeta cfg)]> am).

(** The two writes. *)
Lemma restore_writes o am cfg o' :
  has_annotations o am → applyConversionToXRD o cfg = Ok o' →
  ∃ svc o1, guardWebhookService cfg = Ok svc ∧
    setValue o ["spec"; "conversion"] (VObj (restored_conversion svc (stWebhookPath (xcStatus cfg))
      (review_versions_of cfg) (nested_text o ca_bundle_path))) = Ok o1 ∧
    setValue o1 ["metadata"; "annotations"] (VObj (VStr <$> restored_annotations cfg am)) = Ok o'.
Proof.
  intros Hm H. unfold applyConversionToXRD in H. apply res_bind_Ok in H as (svc & Hsvc & H).
  apply res_bind_Ok in H as (o1 & H1 & [= <-]). apply res_wrap_Ok, SetNestedMap_inv in H1. exists svc, o1. split_and!; [done..|].
  pose proof (setValue_lookup_ne _ _ _ _ _ "metadata" H1 ltac:(done)) as Hmeta.
  assert (has_annotations o1 am) as Hm1.
  { destruct Hm as (m & Hm & Ha). exists m. by rewrite Hmeta. }
  rewrite (has_annotations_get o1 am) by done. fold (restored_annotations cfg am).
  destruct Hm1 as (m & Hm1 & _).
  assert (∃ o2, setValue o1 ["metadata"; "annotations"] (VObj (VStr <$> restored_annotations cfg am)) = Ok o2) as [o2 H2].
  { rewrite setValue_cons by done. unfold descend. rewrite Hm1. cbn. by eexists. }
  by rewrite (set_annotations_ok _ _ _ H2).
Qed.

Section restored.
Context (o : obj) (am : gmap string string) (cfg : XRDConversionConfig) (o' : obj)
  (Hm : has_annotations o am) (Ho' : applyConversionToXRD o cfg = Ok o').

Lemma restored_below : ∃ svc, guardWebhookService cfg = Ok svc ∧ ∀ q, getValue o' (["spec"; "conversion"] ++ q) =
  walk (VObj (restored_conversion svc (stWebhookPath (xcStatus cfg)) (review_versions_of cfg)
    (nested_text o ca_bundle_path))) q.
Proof.
  destruct (restore_writes _ _ _ _ Hm Ho') as (svc & o1 & Hsvc & H1 & H2). exists svc. split; [done|]. intros q.
  rewrite (getValue_setValue_disjoint _ _ _ _ _ H2); [by apply (getValue_setValue_below _ _ _ _ _ H1)|].
  split; intros [k Hk]; done.
Qed.

Lemma restored_elsewhere p :
  path_disjoint ["spec"; "conversion"] p → path_disjoint ["metadata"; "annotations"] p → getValue o' p = getValue o p.
Proof.
  intros Hs Ha. destruct (restore_writes _ _ _ _ Hm Ho') as (svc & o1 & _ & H1 & H2).
  by rewrite (getValue_setValue_disjoint _ _ _ _ _ H2), (getValue_setValue_disjoint _ _ _ _ _ H1).
Qed.

Lemma restored_get_annotations : u_GetAnnotations o' = restored_annotations cfg am.
Proof.
  destruct (restore_writes _ _ _ _ Hm Ho') as (svc & o1 & _ & _ & H2).
  apply get_annotations_found. by apply (getValue_setValue _ _ _ _ H2).
Qed.

Lemma restored_annotation : annotation o' ManagedByAnnotation = omName (xcMeta cfg) ∧
  annotation o' PlanHashAnnotation = stLastAppliedPlanHash (xcStatus cfg) ∧
  ∀ k, k ≠ ManagedByAnnotation → k ≠ PlanHashAnnotation → annotation o' k = annotation o k.
Proof.
  unfold annotation. rewrite restored_get_annotations, (has_annotations_get o am Hm). unfold restored_annotations.
  split_and!.
  - by rewrite lookup_insert_ne, lookup_insert_eq by done.
  - by rewrite lookup_insert_eq.
  - intros k H1 H2. by rewrite !lookup_insert_ne by congruence.
Qed.

Lemma restored_values : ∃ svc, guardWebhookService cfg = Ok svc ∧
  getValue o' ["spec"; "conversion"; "strategy"] = Some (VStr "Webhook") ∧
  getValue o' ["spec"; "conversion"; "webhook"; "conversionReviewVersions"] = Some (VArr (VStr <$> review_versions_of cfg)) ∧
  getValue o' (service_path ++ ["name"]) = Some (VStr (guName svc)) ∧
  getValue o' (service_path ++ ["namespace"]) = Some (VStr (guNamespace svc)) ∧
  getValue o' (service_path ++ ["path"]) = Some (VStr (stWebhookPath (xcStatus cfg))) ∧
  getValue o' (service_path ++ ["port"]) = Some (VInt Int64 (guPort svc)).
Proof.
  destruct restored_below as (svc & Hsvc & Hb). exists svc. split; [done|].
  assert (∀ k, walk (VObj (restored_conversion svc (stWebhookPath (xcStatus cfg)) (review_versions_of cfg)
      (nested_text o ca_bundle_path))) ["webhook"; "clientConfig"; "service"; k] =
    walk (VObj {[ "name" := VStr (guName svc); "namespace" := VStr (guNamespace svc);
                  "path" := VStr (stWebhookPath (xcStatus cfg)); "port" := VInt Int64 (guPort svc) ]}) [k]) as Hk.
  { intros k. unfold restored_conversion. by case_bool_decide. }
  assert (∀ k, getValue o' (service_path ++ [k]) = _) as Hs by (intros k; etrans; [exact (Hb ["webhook"; "clientConfig"; "service"; k])|apply Hk]).
  split_and!; [apply (Hb ["strategy"])|apply (Hb ["webhook"; "conversionReviewVersions"])|apply Hs..].
Qed.

Lemma restored_texts : ∃ svc, guardWebhookService cfg = Ok svc ∧
  nested_text o' ["spec"; "conversion"; "strategy"] = "Webhook" ∧
  nested_text o' (service_path ++ ["name"]) = guName svc ∧ nested_text o' (service_path ++ ["namespace"]) = guNamespace svc ∧
  nested_text o' (service_path ++ ["path"]) = stWebhookPath (xcStatus cfg) ∧ nested_int o' (service_path ++ ["port"]) = guPort svc.
Proof.
  destruct restored_values as (svc & Hsvc & Hst & _ & Hn & Hns & Hp & Hport). exists svc. split; [done|].
  unfold nested_text, nested_int. rewrite (nested_string_found _ _ _ Hst), (nested_string_found _ _ _ Hn),
    (nested_string_found _ _ _ Hns), (nested_string_found _ _ _ Hp), (nested_int64_found _ _ _ Hport). done.
Qed.

(** The object the guard wrote is one it leaves alone. *)
Lemma restored_settled r : shouldRestoreConversion o cfg = Ok r → shouldRestoreConversion o' cfg = Err AlreadyCarried.
Proof.
  destruct restored_texts as (svc & Hsvc & Hstrat & Hn & Hns & Hp & Hport).
  destruct restored_annotation as (Hmanaged & Hplan & _).
  unfold shouldRestoreConversion. rewrite Hstrat, Hsvc, Hn, Hns, Hp, Hport, Hmanaged, Hplan.
  destruct (bool_decide (stLastAppliedPlanHash _ = "")); [done|]. destruct (negb _); [done|]. destruct (_ || _); [done|].
  destruct (omDeleting _); [done|]. intros _. by repeat (case_bool_decide; try done).
Qed.
End restored.

(** What a restore presupposes of the config, and of the object. *)
Lemma shouldRestore_config o cfg r : shouldRestoreConversion o cfg = Ok r →
  stLastAppliedPlanHash (xcStatus cfg) ≠ "" ∧ IsStatusConditionTrue (stConditions (xcStatus cfg)) ConditionApplied = true ∧
  stAssignedWebhookServer (xcStatus cfg) ≠ "" ∧ stWebhookPath (xcStatus cfg) ≠ "" ∧ omDeleting (xcMeta cfg) = false ∧
  (nested_text o ["spec"; "conversion"; "strategy"] = "Webhook" → annotation o ManagedByAnnotation = omName (xcMeta cfg)).
Proof.
  unfold shouldRestoreConversion. case_bool_decide; [done|]. destruct (IsStatusConditionTrue _ _); [|done]. cbn [negb].
  destruct (bool_decide (stAssignedWebhookServer _ = "") || _) eqn:E; [done|].
  apply orb_false_iff in E as [?%bool_decide_eq_false ?%bool_decide_eq_false].
  destruct (omDeleting _); [done|]. intros H'. split_and!; [done..|]. intros Hs. rewrite Hs in H'.
  do 2 (case_bool_decide; [done|]). by case_bool_decide.
Qed.

Lemma Handle_Patched decoded name configs o' : Handle decoded name configs = Patched o' →
  ∃ o cfg l, decoded = Ok o ∧ configs = Ok l ∧ indexed name l = [cfg] ∧
    shouldRestoreConversion o cfg = Ok () ∧ applyConversionToXRD o cfg = Ok o'.
Proof.
  unfold Handle, lookupConfig. destruct decoded as [o|]; [|done]. case_bool_decide; [done|]. destruct configs as [l|]; [|done].
  destruct (indexed name l) as [|cfg [|]] eqn:El; [done| |done].
  destruct (shouldRestoreConversion o cfg) as [[]|] eqn:Es; [|done].
  destruct (applyConversionToXRD o cfg) as [o1|] eqn:Ea; [|done]. destruct (json_Marshal _); [|done].
  intros [= <-]. by exists o, cfg, l.
Qed.
End guard.
