(* ===== verification/Propagation.v ===== *)
(** Whether Crossplane has rendered the conversion webhook into the CRDs an XRD
    generates (internal/controller/propagation.go).

    The CRDs are read through a function from names to answers, the time is an
    input, and metrics are events. *)
From S2P Require Import Prelude Float64 Value Json Path Schema Rules Diagnostics Compile Normalize Platform Required Analyze Assign Api Configs Adapters Registry Replica Encoding.
#[local] Open Scope Z_scope.

Record expectedConversion := {
  exServiceName : string;
  exServiceNamespace : string;
  exPath : string;
  exPort : Z;
  exCABundle : string;          (* base64 *)
  exReviewVersions : list string;
}.

(** What cannot be decoded is hashed as it is. *)
Definition caBundleHash (b64 : string) : string :=
  if bool_decide (b64 = "") then ""
  else "sha256:" +:+ hex_EncodeToString (sha256 (default b64 (DecodeString b64))).

Definition sameStrings (a b : list string) : bool :=
  if bool_decide (length a ≠ length b) then false else bool_decide (sort_strings a = sort_strings b).

(** The empty reason when the CRD carries what was applied. *)
Definition compareGeneratedConversion (crd : CustomResourceDefinition) (want : expectedConversion)
    : string * generated_message :=
  match crdConversion crd with
  | None => (ReasonNotPropagated, GStrategy "None")
  | Some c =>
    if bool_decide (ccStrategy c ≠ "Webhook") then (ReasonNotPropagated, GStrategy (ccStrategy c))
    else match ccWebhook c with
    | Some {| whClientConfig := Some {| wcService := Some svc; wcCABundle := ca |}; whReviewVersions := versions |} =>
      let port := default 443 (svcPort svc) in
      let path := default "" (svcPath svc) in
      if bool_decide (svcName svc ≠ exServiceName want) || bool_decide (svcNamespace svc ≠ exServiceNamespace want)
      then (ReasonNotPropagated, GService (svcNamespace svc) (svcName svc) (exServiceNamespace want) (exServiceName want))
      else if bool_decide (path ≠ exPath want) then (ReasonNotPropagated, GPath path (exPath want))
      else if bool_decide (port ≠ exPort want) then (ReasonNotPropagated, GPort port (exPort want))
      else if negb (sameStrings versions (exReviewVersions want))
      then (ReasonNotPropagated, GReviewVersions versions (exReviewVersions want))
      else
        let observed := caBundleHash (EncodeToString ca) in
        if bool_decide (observed ≠ caBundleHash (exCABundle want))
        then (ReasonCABundleStale, GCABundle observed (caBundleHash (exCABundle want)))
        else ("", GNoMessage)
    | _ => (ReasonNotPropagated, GNoService)
    end
  end.

Definition crdNames (statuses : list GeneratedCRDStatus) : list string := gsName <$> statuses.

Definition has_message (m : generated_message) : bool := match m with GNoMessage => false | _ => true end.
Definition firstMessage (statuses : list GeneratedCRDStatus) (names : list string) : generated_message :=
  match list_find (λ s, gsName s ∈ names ∧ has_message (gsMessage s) = true) statuses with
  | Some (_, s) => gsMessage s
  | None => GSeeStatus
  end.

(** The base64 of the bundle a CRD carries, nothing for one without a client config. *)
Definition observed_bundle (crd : CustomResourceDefinition) : string :=
  match crdConversion crd with
  | Some {| ccWebhook := Some {| whClientConfig := Some c |} |} => EncodeToString (wcCABundle c)
  | _ => ""
  end.

(** *** One generated CRD *)

Inductive crd_verdict := Carries | Missing | Stale | Mismatch.
#[export] Instance crd_verdict_eq_dec : EqDecision crd_verdict.
Proof. solve_decision. Defined.

Definition check_generated (get : string → read CustomResourceDefinition) (want : expectedConversion) (now : Z)
    (g : xrdadapter.GeneratedCRD) : GeneratedCRDStatus * crd_verdict :=
  let st propagated hash m := {|
    gsName := xrdadapter.gcName g; gsRole := xrdadapter.gcRole g; gsPropagated := propagated;
    gsObservedCABundleHash := hash; gsObservedAt := Some now; gsMessage := m |} in
  match get (xrdadapter.gcName g) with
  | NotFound => (st false "" GNotCreated, Missing)
  | Failed e => (st false "" (GReadFailed e), Mismatch)
  | Found crd =>
    let hash := caBundleHash (observed_bundle crd) in
    let '(reason, detail) := compareGeneratedConversion crd want in
    if bool_decide (reason = "") then (st true hash GNoMessage, Carries)
    else (st false hash detail, if bool_decide (reason = ReasonCABundleStale) then Stale else Mismatch)
  end.

(** Metrics: the propagation gauge of the target and an observed lag. *)
Inductive propagation_event := PropagatedGauge (b : bool) | LagObserved (lag : Z).

Section verify.
Context `{CO : ConditionOps}.

Definition setPropagationCondition (now : Z) (st : ConversionConfigStatus) (status reason : string)
    (m : status_message) : ConversionConfigStatus :=
  with_conditions st (SetStatusCondition now (stConditions st) (condition ConditionConversionPropagated status reason m)).

Definition observePropagationLag (now : Z) (st : ConversionConfigStatus) : list propagation_event :=
  if IsStatusConditionTrue (stConditions st) ConditionConversionPropagated then []
  else match FindStatusCondition (stConditions st) ConditionApplied with
  | Some {| cdStatus := status; cdLastTransition := Some since |} =>
    if bool_decide (status ≠ "True") then []
    else if (now - since <? 0) then [] else [LagObserved (now - since)]
  | _ => []
  end.

(** The names with a verdict, in order. *)
Definition judged (v : crd_verdict) (checks : list (GeneratedCRDStatus * crd_verdict)) : list string :=
  (λ c, gsName c.1) <$> filter (λ c, c.2 = v) checks.

Definition verifyPropagation (generated : res xrdadapter.generated_error (list xrdadapter.GeneratedCRD))
    (get : string → read CustomResourceDefinition) (want : expectedConversion) (now : Z) (st : ConversionConfigStatus)
    : list propagation_event * ConversionConfigStatus :=
  match generated with
  | Err e =>
    ([PropagatedGauge false],
     setPropagationCondition now st "False" ReasonNotPropagated (CannotListGenerated e))
  | Ok generated =>
    let checks := check_generated get want now <$> generated in
    let statuses := checks.*1 in
    let st := with_generated st statuses in
    let notFound := judged Missing checks in
    let mismatch := judged Mismatch checks in
    let stale := judged Stale checks in
    let '(events, st) :=
      if (0 <? length notFound)%nat then
        ([], setPropagationCondition now st "False" ReasonGeneratedCRDNotFound (AwaitingCRDs notFound))
      else if (0 <? length mismatch)%nat then
        ([], setPropagationCondition now st "False" ReasonNotPropagated
               (NotCarried mismatch (firstMessage statuses mismatch)))
      else if (0 <? length stale)%nat then
        ([], setPropagationCondition now st "False" ReasonCABundleStale (StaleBundle stale))
      else
        (observePropagationLag now st,
         setPropagationCondition now st "True" ReasonPropagated (AllCarried (crdNames statuses))) in
    (events ++ [PropagatedGauge (IsStatusConditionTrue (stConditions st) ConditionConversionPropagated)], st)
  end.
End verify.
