(* ===== verification/Controller.v ===== *)
(** The controllers of the two config kinds
    (internal/controller/xrdconversionconfig_controller.go,
    crdconversionconfig_controller.go, finalizers.go, naming.go).

    A reconcile is a function of what its calls to the API server answer (a
    [world]) that yields the writes and metrics it emits, in order, and the result
    it returns.  The two controllers are one text twice; [ControllerKind] holds
    what differs.  The API server's answer to a write is part of the world; time is
    read once. *)
From S2P Require Import Prelude Float64 Value Json Duration Path Schema Rules Coerce Passthrough Ops Convert Diagnostics Compile Normalize Platform Required Analyze Assign Api Configs Adapters Registry Replica Encoding ServedTargets Rollout Workloads Patches Guard Propagation.
#[local] Open Scope Z_scope.

(** ** What a reconcile reads and writes *)

(** A ConversionWebhookServer with the fields only the controllers read. *)
Record ServerInstance := {
  siServer : ConversionWebhookServer;
  siNamespace : string;
  siPort : Z;
  siReadyReplicas : Z;
  siConditions : list Condition;
}.

Inductive applied := AppliedXRD (patch : obj) | AppliedCRD (patch : CRDApplyConfiguration).

Inductive event :=
| Applies (patch : applied)                      (* server-side apply of spec.conversion *)
| PatchesStatus (st : ConversionConfigStatus)
| PatchesFinalizers (finalizers : list string)
| AnalyzeFailures (reason : string)
| PhaseTransitions (from to reason : string)
| ApplyDuration (result : string)
| ConversionReverts
| PropagationMetric (e : propagation_event).

Record world (C T : Type) := {
  wdConfig : read C;
  wdTarget : read T;
  wdServers : res string (list ConversionWebhookServer);
  wdServer : string → read ServerInstance;
  wdLeases : string → string → res string (list Lease);          (* by namespace and server label *)
  wdSecret : string → string → read (gmap string string);        (* Data, by namespace and name *)
  wdRevertTarget : read T;                                       (* the target, read again to revert it *)
  wdFreshTarget : read T;                                        (* the target, read again once applied *)
  wdCRD : string → read CustomResourceDefinition;
  wdApply : option string;                                       (* the error of an apply *)
  wdPatchStatus : option string;
  wdPatchFinalizers : option string;
  wdLeaseClock : Z;
  wdNow : Z;
}.
Arguments wdConfig {C T} w.
Arguments wdTarget {C T} w.
Arguments wdServers {C T} w.
Arguments wdServer {C T} w.
Arguments wdLeases {C T} w.
Arguments wdSecret {C T} w.
Arguments wdRevertTarget {C T} w.
Arguments wdFreshTarget {C T} w.
Arguments wdCRD {C T} w.
Arguments wdApply {C T} w.
Arguments wdPatchStatus {C T} w.
Arguments wdPatchFinalizers {C T} w.
Arguments wdLeaseClock {C T} w.
Arguments wdNow {C T} w.

Inductive bundle_error := ErrGettingSecret (err : string) | ErrNoCertificate (secret : string).

Inductive controller_error :=
| ErrReadingConfig (err : string)
| ErrPatchingFinalizers (err : string)
| ErrReadingTarget (err : string)
| ErrRevertAfterDrift (err : string)
| ErrListingAllServers (err : string)
| ErrReadingServer (name err : string)
| ErrHandover (err : string)
| ErrCABundle (server : string) (e : bundle_error)
| ErrApplying (err : string)
| ErrReverting (err : string)
| ErrPatchingStatus (err : string).

Abbreviation M := (Handler event (res controller_error Z)).

(** ** Status *)

Section status.
Context `{CO : ConditionOps} (now : Z).

Definition set_condition (st : ConversionConfigStatus) (type status reason : string) (m : status_message)
    : ConversionConfigStatus :=
  with_conditions st (SetStatusCondition now (stConditions st) (condition type status reason m)).
Definition remove_condition (st : ConversionConfigStatus) (type : string) : ConversionConfigStatus :=
  with_conditions st (RemoveStatusCondition (stConditions st) type).

Definition setPhaseStale (st : ConversionConfigStatus) (reason : string) (m : status_message) : ConversionConfigStatus :=
  set_condition (with_phase st PhaseStale) ConditionStale "True" reason m.

Definition setPhasePendingOrStale (st : ConversionConfigStatus) (wasApplied : bool) (reason : string) (m : status_message)
    : ConversionConfigStatus :=
  if wasApplied then setPhaseStale st reason m
  else remove_condition (with_phase st PhasePending) ConditionStale.

Definition setInvalid (st : ConversionConfigStatus) (wasApplied : bool) (m : status_message) : ConversionConfigStatus :=
  let st := if wasApplied then setPhaseStale st "PostApplyInvalid" m
            else remove_condition (with_phase st PhaseInvalid) ConditionStale in
  set_condition (with_message st m) ConditionValidated "False" "Invalid" m.

Definition failClosedShouldRevert (driftPolicy phase : string) (conditions : list Condition) : bool :=
  if bool_decide (driftPolicy ≠ DriftPolicyFailClosed) then false
  else if bool_decide (phase = PhaseApplied) then true
  else if bool_decide (phase = PhaseFailed) then
    match FindStatusCondition conditions ConditionApplied with
    | Some c => bool_decide (cdStatus c = "False") && bool_decide (cdReason c = ReasonRevertFailed)
    | None => false
    end
  else false.

Definition isServerReady (server : ServerInstance) : bool :=
  if siReadyReplicas server =? 0 then false
  else forallb (IsStatusConditionTrue (siConditions server)) ["Available"; "CertificateReady"; "ServiceReady"].
End status.

Definition recordPhaseTransition (fromPhase toPhase reason : string) : list event :=
  if bool_decide (fromPhase = toPhase) || bool_decide (toPhase = "") then []
  else [PhaseTransitions (if bool_decide (fromPhase = "") then "None" else fromPhase) toPhase reason].

Definition spoke_status (sr : SpokeReport) : SpokeConversionStatus := {|
  scVersion := srVersion sr;
  scLossless := srLossless sr;
  scFieldsUncoveredHub := fcUncoveredHub (srUncovered sr);
  scFieldsUncoveredSpoke := fcUncoveredSpoke (srUncovered sr);
  scRuleResults := (λ rr, {|
    sruIndex := rrIndex rr; sruStrategy := rrStrategy rr; sruHubPaths := rrHubPaths rr;
    sruSpokePaths := rrSpokePaths rr; sruLossless := rrLossless rr; sruErrors := rrErrors rr;
    sruWarnings := rrWarnings rr |}) <$> srRuleResults sr;
  scErrors := dMessage <$> srErrors sr;
  scWarnings := dMessage <$> srWarnings sr |}.
Definition populateSpokeStatuses (report : AnalyzeReport) : list SpokeConversionStatus :=
  spoke_status <$> arSpokeReports report.

Definition computeSchemaHash (report : AnalyzeReport) (hubVersion : string) (generation : Z) : string :=
  "sha256:" +:+ RawURL_EncodeToString (sha256
    ("gen=" +:+ pretty (arResourceGeneration report) +:+ ";hub=" +:+ hubVersion +:+ ";" +:+
     "cfgGen=" +:+ pretty generation)).

(** ** Where the two controllers differ *)

Class ControllerKind (C T : Type) := {
  ck_kind :: TargetKind C T;
  ck_status : C → ConversionConfigStatus;
  ck_drift : C → string;                 (* spec.driftPolicy *)
  ck_finalizer : string;
  ck_name : string;                      (* in messages *)
  ck_long_name : string;
  ck_healthy : string;                   (* the condition of the health gate *)
  ck_established : T → bool;
  ck_generation : T → Z;
  ck_served : T → nat;                   (* served versions *)
  (* what is recorded of the target before the analysis *)
  ck_observe : Z → C → ConversionConfigStatus → T → list event * ConversionConfigStatus;
  ck_patch : T → Params → res string applied;
  ck_port : ConversionConfigStatus → Z → Z;   (* what status.webhookPort becomes *)
  (* after the apply: what is checked, and when to come back *)
  ck_verify : world C T → T → expectedConversion → ConversionConfigStatus →
              list event * ConversionConfigStatus * Z;
  (* the patch that takes the conversion back, none when there is nothing to take back *)
  ck_revert : world C T → string → option applied;
}.

Section controller.
Context `{ML : MathLog} `{RO : RangeOrder} `{EX : Externs} `{CX : CompileExterns} `{CO : ConditionOps} `{GZ : Gzip}.
Context (fuel : nat) (defaultNamespace : string).

Definition namespace_of (server : ServerInstance) : string :=
  if bool_decide (siNamespace server = "") then defaultNamespace else siNamespace server.

(** [{cert}.Data]: the CA, or else the certificate itself. *)
Definition readCABundle {C T} (w : world C T) (server : ServerInstance) : res bundle_error string :=
  let name := cwsCertificateSecretName (cwsName (siServer server)) in
  match wdSecret w (namespace_of server) name with
  | Found data =>
    let ca := default "" (data !! "ca.crt") in
    let crt := default "" (data !! "tls.crt") in
    if bool_decide (ca ≠ "") then Ok (EncodeToString ca)
    else if bool_decide (crt ≠ "") then Ok (EncodeToString crt)
    else Err (ErrNoCertificate name)
  | NotFound => Err (ErrGettingSecret "not found")
  | Failed e => Err (ErrGettingSecret e)
  end.

Section kind.
Context `{CK : ControllerKind C T} (w : world C T).

(** *** Writes *)

Definition patchStatus (cfg : C) (st : ConversionConfigStatus) : M () :=
  _ ← emit_one (PatchesStatus (with_observed_generation st (omGeneration (tk_meta cfg))));
  fail_with (wdPatchStatus w) ErrPatchingStatus.

(** [return ctrl.Result{RequeueAfter: delay}, r.patchStatus(...)]. *)
Definition finish {A} (cfg : C) (st : ConversionConfigStatus) (delay : Z) : M A :=
  _ ← patchStatus cfg st; exit (Ok delay).

Definition patchFinalizers (before after : list string) : M () :=
  if bool_decide (before = after) then mret ()
  else _ ← emit_one (PatchesFinalizers after); fail_with (wdPatchFinalizers w) ErrPatchingFinalizers.
Definition addFinalizer (cfg : C) : M () :=
  let fs := omFinalizers (tk_meta cfg) in
  patchFinalizers fs (if bool_decide (ck_finalizer ∈ fs) then fs else fs ++ [ck_finalizer]).
Definition removeFinalizer (cfg : C) : M () :=
  let fs := omFinalizers (tk_meta cfg) in patchFinalizers fs (filter (λ f, f ≠ ck_finalizer) fs).

(** [revertXRD] and [revertCRD]: the error of the apply. *)
Definition revert (name : string) : M (option string) :=
  match ck_revert w name with
  | None => mret None
  | Some patch => _ ← emit_one (Applies patch); mret (wdApply w)
  end.

(** *** [reconcileNormal], step by step *)

Definition drift_message : status_message := Text
  ("schema drift invalidated this config, but the previously-applied webhook configuration is left untouched (driftPolicy=KeepServingStale); fix the config or the " +:+ ck_name +:+ " to clear this").
Definition reverted_message : status_message :=
  Text "schema drift invalidated a previously-applied config; reverted to strategy=None per driftPolicy=FailClosed".

(** A report with errors: revert, keep serving, or report. *)
Definition drift (cfg : C) (wasApplied : bool) (st : ConversionConfigStatus) {A} : M A :=
  let now := wdNow w in
  let fromPhase := stPhase st in
  let invalid := Text "one or more spoke versions failed validation; see status.spokeStatuses for details" in
  _ ← emit_one (AnalyzeFailures "ValidationErrors");
  '(st, msg, revertErr) ←
    (if failClosedShouldRevert (ck_drift cfg) (stPhase st) (stConditions st) then
       err ← revert (tk_target cfg);
       let '(msg, reason) := match err with
                             | Some e => (RevertFailedWith e, ReasonRevertFailed)
                             | None => (reverted_message, ReasonReverted)
                             end in
       let st := remove_condition (with_phase st PhaseFailed) ConditionStale in
       let st := set_condition now st ConditionApplied "False" reason msg in
       _ ← emit_all (recordPhaseTransition fromPhase PhaseFailed reason);
       mret (st, msg, err)
     else if wasApplied then
       _ ← emit_all (recordPhaseTransition fromPhase PhaseStale "SchemaDrift");
       mret (setPhaseStale now st "SchemaDrift" drift_message, drift_message, None)
     else
       _ ← emit_all (recordPhaseTransition fromPhase PhaseInvalid "ValidationFailed");
       mret (remove_condition (with_phase st PhaseInvalid) ConditionStale, invalid, None));
  let st := with_message (set_condition now st ConditionValidated "False" "ValidationFailed" msg) msg in
  _ ← patchStatus cfg st;
  exit (match revertErr with Some e => Err (ErrRevertAfterDrift e) | None => Ok 0 end).

(** An error before there is a report. *)
Definition not_analysed (cfg : C) (wasApplied : bool) (st : ConversionConfigStatus) (reason : string)
    (m : status_message) {A} : M A :=
  let st' := setInvalid (wdNow w) st wasApplied m in
  _ ← emit_all (AnalyzeFailures reason :: recordPhaseTransition (stPhase st) (stPhase st') reason);
  finish cfg st' 0.

(** Steps 2 and 3: analyse against the live schema. *)
Definition analyse (cfg : C) (wasApplied : bool) (st : ConversionConfigStatus) (target : T) : M ConversionConfigStatus :=
  match tk_rules cfg with
  | Err e => not_analysed cfg wasApplied st "InvalidConfig" (BadRules e)
  | Ok ruleSets =>
    match Analyze fuel {| aiSource := tk_source target; aiHubVersion := tk_hub cfg; aiSpokes := ruleSets |} with
    | Err e => not_analysed cfg wasApplied st "AnalyzeFailed" (AnalysisFailed e)
    | Ok report =>
      let st := with_report st (populateSpokeStatuses report) (OverallLossless report)
                  (computeSchemaHash report (tk_hub cfg) (omGeneration (tk_meta cfg))) in
      if HasErrors report then drift cfg wasApplied st
      else mret (set_condition (wdNow w) st ConditionValidated "True" "Validated"
                   (Text ("configuration validated against the live " +:+ ck_name +:+ " schema")))
    end
  end.

(** Steps 4 to 6b: the server, the health of the target and of the server, and,
    for a move, the handover. *)
Definition gates (cfg : C) (wasApplied : bool) (st : ConversionConfigStatus) (target : T)
    : M (ServerInstance * ConversionConfigStatus) :=
  let now := wdNow w in
  let orig := ck_status cfg in
  match wdServers w with
  | Err e => exit (Err (ErrListingAllServers e))
  | Ok servers =>
    match ResolveAssignment cfg servers with
    | Err e => finish cfg (setInvalid now st wasApplied (BadAssignment e)) 0
    | Ok serverName =>
      let movingServers := wasApplied && bool_decide (stWebhookURL orig ≠ "") &&
                           negb (TargetPointsAt (stWebhookURL orig) serverName) in
      let st := with_server st serverName in
      if negb (ck_established target) then
        let msg := Text ("target " +:+ ck_long_name +:+ " is not yet Established") in
        let st := set_condition now st ck_healthy "False" "NotEstablished" msg in
        finish cfg (setPhasePendingOrStale now st wasApplied "NotEstablished" msg) (15 * Second)
      else
        let st := set_condition now st ck_healthy "True" "Established"
                    (Text ("target " +:+ ck_long_name +:+ " is Established")) in
        match wdServer w serverName with
        | NotFound => exit (Err (ErrReadingServer serverName "not found"))
        | Failed e => exit (Err (ErrReadingServer serverName e))
        | Found server =>
          if negb (isServerReady server) then
            let msg := ServerNotAvailable serverName in
            let st := set_condition now st ConditionWebhookServerReady "False" "ServerNotReady" msg in
            finish cfg (setPhasePendingOrStale now st wasApplied "ServerNotReady" msg) (15 * Second)
          else
            let st := set_condition now st ConditionWebhookServerReady "True" "ServerReady" (ServerIsAvailable serverName) in
            if movingServers then
              match checkHandover (wdLeases w (namespace_of server) (cwsName (siServer server))) (wdLeaseClock w)
                      (cwsName (siServer server)) (siReadyReplicas server) (tk_target cfg)
                      (FindStatusCondition (stConditions orig) ConditionHandoverReady) now with
              | Err e => exit (Err (ErrHandover e))
              | Ok verdict =>
                let msg := HandoverText (hvMessage verdict) in
                let st := set_condition now st ConditionHandoverReady (boolStatus (hvOK verdict)) (hvReason verdict) msg in
                if negb (hvOK verdict) then
                  finish cfg (with_message (setPhasePendingOrStale now st wasApplied (hvReason verdict) msg) msg) (5 * Second)
                else mret (server, st)
              end
            else mret (server, st)
        end
    end
  end.

(** The coordinates of the webhook a server answers at. *)
Definition port_of (server : ServerInstance) : Z := if siPort server =? 0 then 443 else siPort server.
Definition convert_path (targetName : string) : string := "/convert/" +:+ targetName.
Definition review_versions (cfg : C) : list string :=
  if bool_decide (length (tk_review cfg) = 0%nat) then ["v1"] else tk_review cfg.
Definition webhook_url (serverName ns path : string) : string :=
  "https://" +:+ cwsServiceName serverName +:+ "." +:+ ns +:+ ".svc" +:+ path.

Definition patch_params (cfg : C) (st : ConversionConfigStatus) (serverName : string) (server : ServerInstance)
    (caBundle : string) : Params := {|
  paTargetName := tk_target cfg; paXRDAPIVersion := ""; paConfigName := GetName cfg; paPlanHash := stSchemaHash st;
  paServiceName := cwsServiceName serverName; paServiceNamespace := namespace_of server;
  paPath := convert_path (tk_target cfg); paPort := port_of server; paCABundle := caBundle;
  paReviewVersions := review_versions cfg |}.

(** [applyConversionPatch]: the error of building or applying the patch. *)
Definition applyConversionPatch (target : T) (p : Params) : M (option string) :=
  match ck_patch target p with
  | Err e => mret (Some e)
  | Ok patch => _ ← emit_one (Applies patch); mret (wdApply w)
  end.

(** Step 7. *)
Definition apply_conversion (cfg : C) (st : ConversionConfigStatus) (target : T) (server : ServerInstance) : M Z :=
  let now := wdNow w in
  let serverName := stAssignedWebhookServer st in
  match readCABundle w server with
  | Err e => exit (Err (ErrCABundle serverName e))
  | Ok caBundle =>
    let p := patch_params cfg st serverName server caBundle in
    err ← applyConversionPatch target p;
    match err with
    | Some e => _ ← emit_one (ApplyDuration "error"); exit (Err (ErrApplying e))
    | None =>
      _ ← emit_all (ApplyDuration "success" :: recordPhaseTransition (stPhase st) PhaseApplied "Applied");
      let st := with_webhook (with_phase st PhaseApplied) (paPath p)
                  (webhook_url serverName (namespace_of server) (paPath p)) (ck_port st (paPort p)) in
      let st := with_message st (Text ("conversion webhook configuration applied to the target " +:+ ck_name)) in
      let st := set_condition now st ConditionApplied "True" "Applied"
                  (Text (ck_name +:+ " spec.conversion has been patched")) in
      let st := remove_condition st ConditionStale in
      let '(es, st, delay) := ck_verify w target
        {| exServiceName := paServiceName p; exServiceNamespace := paServiceNamespace p; exPath := paPath p;
           exPort := paPort p; exCABundle := caBundle; exReviewVersions := paReviewVersions p |} st in
      _ ← emit_all es;
      _ ← patchStatus cfg st;
      mret delay
    end
  end.

Definition was_applied (st : ConversionConfigStatus) : bool :=
  bool_decide (stPhase st = PhaseApplied) || bool_decide (stPhase st = PhaseStale).

Definition reconcileNormal (cfg : C) : M Z :=
  let now := wdNow w in
  let st := ck_status cfg in
  let wasApplied := was_applied st in
  match wdTarget w with
  | NotFound => finish cfg (setInvalid now st wasApplied (TargetMissing ck_long_name (tk_target cfg))) 0
  | Failed e => exit (Err (ErrReadingTarget e))
  | Found target =>
    let st := with_observed_target st (ck_generation target) in
    let '(es, st) := ck_observe now cfg st target in
    _ ← emit_all es;
    st ← analyse cfg wasApplied st target;
    '(server, st) ← gates cfg wasApplied st target;
    apply_conversion cfg st target server
  end.

(** *** Deletion *)

Definition reconcileDelete (cfg : C) : M Z :=
  let st := ck_status cfg in
  let done_ : M Z := _ ← removeFinalizer cfg; mret 0 in
  if bool_decide (ck_finalizer ∉ omFinalizers (tk_meta cfg)) then mret 0
  else if bool_decide (stPhase st ≠ PhaseApplied) && bool_decide (stPhase st ≠ PhaseStale) then done_
  else match wdTarget w with
  | NotFound => done_
  | Failed e => exit (Err (ErrReadingTarget e))
  | Found target =>
    let servedCount := ck_served target in
    let allowUnsafe := bool_decide (default "" (omAnnotations (tk_meta cfg) !! AllowUnsafeDeleteAnnotation) = "true") in
    if (1 <? servedCount)%nat && negb allowUnsafe then
      let st := set_condition (wdNow w) st ConditionDeletionBlocked "True" "MultipleServedVersions"
                  (StillServed ck_name (tk_target cfg) servedCount) in
      _ ← patchStatus cfg st; mret (30 * Second)
    else
      err ← revert (tk_target cfg);
      match err with
      | Some e => exit (Err (ErrReverting e))
      | None => done_
      end
  end.

Definition Reconcile : list event * res controller_error Z :=
  match wdConfig w with
  | NotFound => ([], Ok 0)
  | Failed e => ([], Err (ErrReadingConfig e))
  | Found cfg =>
    ran (if omDeleting (tk_meta cfg) then reconcileDelete cfg
         else _ ← addFinalizer cfg; reconcileNormal cfg)
  end.
End kind.

(** ** The XRD controller's own steps *)

Section xrd.
Context `{U : Unstructured} `{UE : UnstructuredEdits} (scope_text : xrdadapter.scope_reason → string)
  (versions_text : xrdadapter.versions_error → string).

Definition setPackageManagedCondition (now : Z) (st : ConversionConfigStatus) (xrd : obj) : ConversionConfigStatus :=
  match xrdadapter.PackageManagedBy (Some xrd) with
  | None => set_condition now st ConditionPackageManaged "False" "NotPackageManaged"
      (Text "the target XRD has no Crossplane package-revision owner reference, so nothing re-establishes it out of band")
  | Some owner => set_condition now st ConditionPackageManaged "True" "OwnedByPackageRevision"
      (OwnedByPackage (xrdadapter.poKind owner) (xrdadapter.poName owner))
  end.

Definition conversionIsOurs (xrd : obj) (configName : string) : bool :=
  match NestedString xrd ["spec"; "conversion"; "strategy"] with
  | Ok (Some strategy) =>
    if bool_decide (strategy ≠ "Webhook") then false
    else bool_decide (annotation xrd ManagedByAnnotation = configName)
  | _ => false
  end.

Definition observeConversionRevert (cfg : XRDConversionConfig) (st : ConversionConfigStatus) (xrd : obj) : list event :=
  if bool_decide (stLastAppliedPlanHash st = "") then []
  else if negb (IsStatusConditionTrue (stConditions st) ConditionApplied) then []
  else if conversionIsOurs xrd (omName (xcMeta cfg)) then []
  else [ConversionReverts].

Definition countServedVersions (xrd : obj) : nat :=
  match NestedSlice xrd ["spec"; "versions"] with
  | Ok (Some versions) =>
    length (filter (λ v, match v with VObj vm => match NestedBool vm ["served"] with Ok (Some b) => b | _ => false end
                                    | _ => false end = true) versions)
  | _ => 0%nat
  end.

Definition xrd_revert_patch (w : world XRDConversionConfig obj) (xrdName : string) : option applied :=
  match wdRevertTarget w with
  | NotFound => None
  | Failed _ => Some (AppliedXRD (BuildXRDRevertPatch xrdName (xrdadapter.WriteGroupVersion None)))
  | Found xrd => Some (AppliedXRD (BuildXRDRevertPatch xrdName (xrdadapter.WriteGroupVersion (Some xrd))))
  end.

Definition with_api_version (p : Params) (v : string) : Params := {|
  paTargetName := paTargetName p; paXRDAPIVersion := v; paConfigName := paConfigName p; paPlanHash := paPlanHash p;
  paServiceName := paServiceName p; paServiceNamespace := paServiceNamespace p; paPath := paPath p; paPort := paPort p;
  paCABundle := paCABundle p; paReviewVersions := paReviewVersions p |}.

(** The generated CRDs of the target as it is after the patch, when it can be read. *)
Definition verify_applied (w : world XRDConversionConfig obj) (xrd : obj) (want : expectedConversion)
    (st : ConversionConfigStatus) : list event * ConversionConfigStatus * Z :=
  let verifyXRD := match wdFreshTarget w with Found fresh => fresh | _ => xrd end in
  let '(es, st) := verifyPropagation (xrdadapter.GeneratedCRDNames (Some verifyXRD)) (wdCRD w) want (wdNow w) st in
  (PropagationMetric <$> es, st,
   if IsStatusConditionTrue (stConditions st) ConditionConversionPropagated then 5 * Minute else 15 * Second).

Definition xrd_controller : ControllerKind XRDConversionConfig obj := {|
  ck_kind := xrd_kind scope_text versions_text;
  ck_status := xcStatus; ck_drift c := xsDriftPolicy (xcSpec c); ck_finalizer := XRDConversionConfigFinalizer;
  ck_name := "XRD"; ck_long_name := "XRD"; ck_healthy := ConditionXRDHealthy;
  ck_established := xrdadapter.Established; ck_generation := u_GetGeneration; ck_served := countServedVersions;
  ck_observe now cfg st xrd := let st := setPackageManagedCondition now st xrd in (observeConversionRevert cfg st xrd, st);
  ck_patch xrd p := Ok (AppliedXRD (BuildXRDConversionPatch
    (with_api_version p (xrdadapter.WriteGroupVersion (Some xrd)))));
  ck_port _ port := port; ck_verify := verify_applied; ck_revert := xrd_revert_patch |}.

Definition reconcileNormalXRD := reconcileNormal (CK := xrd_controller).
Definition reconcileDeleteXRD := reconcileDelete (CK := xrd_controller).
Definition ReconcileXRD : world XRDConversionConfig obj → list event * res controller_error Z :=
  Reconcile (CK := xrd_controller).
End xrd.

(** ** The CRD controller's *)

Definition crd_served (crd : CustomResourceDefinition) : nat :=
  length (filter (λ v, cvServed v = true) (crdVersions crd)).

Definition crd_controller : ControllerKind CRDConversionConfig CustomResourceDefinition := {|
  ck_kind := crd_kind;
  ck_status := kcStatus; ck_drift c := csDriftPolicy (kcSpec c); ck_finalizer := CRDConversionConfigFinalizer;
  ck_name := "CRD"; ck_long_name := "CustomResourceDefinition"; ck_healthy := ConditionCRDHealthy;
  ck_established := crdadapter.Established; ck_generation := crdGeneration; ck_served := crd_served;
  ck_observe _ _ st _ := ([], st);
  ck_patch _ p := AppliedCRD <$> BuildCRDConversionPatch p;
  ck_port st _ := stWebhookPort st; ck_verify _ _ _ st := ([], st, 5 * Minute);
  ck_revert _ crdName := Some (AppliedCRD (BuildCRDRevertPatch crdName)) |}.

Definition reconcileNormalCRD := reconcileNormal (CK := crd_controller).
Definition reconcileDeleteCRD := reconcileDelete (CK := crd_controller).
Definition ReconcileCRD : world CRDConversionConfig CustomResourceDefinition → list event * res controller_error Z :=
  Reconcile (CK := crd_controller).

Lemma ReconcileCRD_handlers w cfg : wdConfig w = Found cfg →
  ReconcileCRD w = ran (if omDeleting (kcMeta cfg) then reconcileDeleteCRD w cfg
                        else _ ← addFinalizer (CK := crd_controller) w cfg; reconcileNormalCRD w cfg).
Proof. intros Hc. unfold ReconcileCRD, Reconcile. by rewrite Hc. Qed.
End controller.
