(* ===== verification/ControllerTheory.v ===== *)
(** What one pass of a config controller writes, by cases ([pass]): the
    specification the handlers of Controller.v are shown to implement, and from
    which the properties of runs of passes follow. *)
From S2P Require Import Prelude Float64 Value Json Duration Path Schema Rules Coerce Passthrough Ops Convert Diagnostics Compile Normalize Platform Required Analyze Assign Api Configs Adapters Registry Replica Encoding ServedTargets Rollout Workloads Patches Guard Propagation Controller.
#[local] Open Scope Z_scope.

(** ** Conditions *)

Section conditions.
Context `{CL : ConditionLaws}.

Lemma IsTrue_set_same now l t s r m :
  IsStatusConditionTrue (SetStatusCondition now l (condition t s r m)) t = bool_decide (s = "True").
Proof. unfold IsStatusConditionTrue. by rewrite (find_set_same now l (condition t s r m)). Qed.

Lemma find_set_ne now l t s r m t' : t' ≠ t →
  FindStatusCondition (SetStatusCondition now l (condition t s r m)) t' = FindStatusCondition l t'.
Proof. intros. by apply (find_set_other now l (condition t s r m)). Qed.

Lemma IsTrue_set_ne now l t s r m t' : t' ≠ t →
  IsStatusConditionTrue (SetStatusCondition now l (condition t s r m)) t' = IsStatusConditionTrue l t'.
Proof. intros. unfold IsStatusConditionTrue. by rewrite find_set_ne. Qed.

Lemma IsTrue_remove_ne l t t' : t' ≠ t →
  IsStatusConditionTrue (RemoveStatusCondition l t) t' = IsStatusConditionTrue l t'.
Proof. intros. unfold IsStatusConditionTrue. by rewrite find_remove_other. Qed.
End conditions.

(** ** Writes *)

(** Everything else a pass emits is a metric. *)
Definition is_write (e : event) : bool :=
  match e with Applies _ | PatchesStatus _ | PatchesFinalizers _ => true | _ => false end.
Definition writes (es : list event) : list event := filter (λ e, is_write e = true) es.
#[global] Arguments writes : simpl never.

Lemma writes_app es fs : writes (es ++ fs) = writes es ++ writes fs.
Proof. apply filter_app. Qed.

Lemma writes_none es : Forall (λ e, is_write e = false) es → writes es = [].
Proof. induction 1 as [|e es He _ IH]; [done|]. unfold writes. by rewrite filter_cons_False, <- IH by congruence. Qed.

Lemma writes_elem e es : is_write e = true → e ∈ es ↔ e ∈ writes es.
Proof. intros He. unfold writes. rewrite list_elem_of_filter. tauto. Qed.

Lemma transition_metric a b r : writes (recordPhaseTransition a b r) = [].
Proof. unfold recordPhaseTransition. by case_match. Qed.

Lemma metric_writes e es : is_write e = false → writes (e :: es) = writes es.
Proof. intros He. unfold writes. by rewrite filter_cons_False by congruence. Qed.

Lemma writes_cons e es : writes (e :: es) = (if is_write e then [e] else []) ++ writes es.
Proof.
  unfold writes. destruct (is_write e) eqn:E; [by rewrite filter_cons_True|by rewrite filter_cons_False by congruence].
Qed.
Lemma writes_nil : writes [] = [].
Proof. done. Qed.

#[export] Hint Rewrite writes_app writes_cons writes_nil transition_metric @app_nil_r @app_nil_l : writes.

(** The strategy of the stanza a patch sets. *)
Definition patch_strategy (a : applied) : option string :=
  match a with
  | AppliedXRD o => match getValue o ["spec"; "conversion"; "strategy"] with Some (VStr s) => Some s | _ => None end
  | AppliedCRD c => Some (ccStrategy (acConversion c))
  end.

(** The webhook a stanza points at, none for strategy None. *)
Record coordinates := { coName : string; coNamespace : string; coPath : string; coPort : Z }.
Definition service_coordinates (o : obj) : option coordinates :=
  match getValue o (service_path ++ ["name"]), getValue o (service_path ++ ["namespace"]),
        getValue o (service_path ++ ["path"]), getValue o (service_path ++ ["port"]) with
  | Some (VStr name), Some (VStr ns), Some (VStr path), Some (VInt _ port) =>
    Some {| coName := name; coNamespace := ns; coPath := path; coPort := port |}
  | _, _, _, _ => None
  end.
Definition patch_coordinates (a : applied) : option coordinates :=
  match a with
  | AppliedXRD o => service_coordinates o
  | AppliedCRD {| acConversion := {| ccWebhook := Some {| whClientConfig := Some {| wcService := Some s |} |} |} |} =>
    Some {| coName := svcName s; coNamespace := svcNamespace s; coPath := default "" (svcPath s); coPort := default 443 (svcPort s) |}
  | AppliedCRD _ => None
  end.
(** The object a patch is applied to, by name. *)
Definition patch_target (a : applied) : string :=
  match a with
  | AppliedXRD o => match getValue o ["metadata"; "name"] with Some (VStr s) => s | _ => "" end
  | AppliedCRD c => acName c
  end.
Definition params_coordinates (p : Params) : coordinates :=
  {| coName := paServiceName p; coNamespace := paServiceNamespace p; coPath := paPath p; coPort := paPort p |}.

(** ** What is relied on of the two controllers *)

(** The conditions and fields that tell whether the conversion is applied. *)
Definition core_types : list string := [ConditionApplied; ConditionStale; ConditionValidated].
Record same_core `{CO : ConditionOps} (s s' : ConversionConfigStatus) : Prop := {
  core_phase : stPhase s' = stPhase s;
  core_url : stWebhookURL s' = stWebhookURL s;
  core_path : stWebhookPath s' = stWebhookPath s;
  core_port : stWebhookPort s' = stWebhookPort s;
  core_hash : stSchemaHash s' = stSchemaHash s;
  core_plan : stLastAppliedPlanHash s' = stLastAppliedPlanHash s;
  core_server : stAssignedWebhookServer s' = stAssignedWebhookServer s;
  core_conditions t : t ∈ core_types →
    FindStatusCondition (stConditions s') t = FindStatusCondition (stConditions s) t;
}.

Class ControllerLaws `{CO : ConditionOps} {C T} (CK : ControllerKind C T) := {
  healthy_own : ck_healthy ≠ ConditionApplied;
  observe_metrics now cfg st target : Forall (λ e, is_write e = false) (ck_observe now cfg st target).1;
  observe_core now cfg st target : same_core st (ck_observe now cfg st target).2;
  verify_metrics (w : world C T) target want st :
    Forall (λ e, is_write e = false) (ck_verify w target want st).1.1;
  verify_core (w : world C T) target want st : same_core st (ck_verify w target want st).1.2;
  patch_is_webhook (target : T) p a : ck_patch target p = Ok a → patch_strategy a = Some "Webhook";
  patch_points (target : T) p a : ck_patch target p = Ok a → patch_coordinates a = Some (params_coordinates p);
  patch_names (target : T) p a : ck_patch target p = Ok a → patch_target a = paTargetName p;
  revert_is_none (w : world C T) name a : ck_revert w name = Some a → patch_strategy a = Some "None";
  revert_names (w : world C T) name a : ck_revert w name = Some a → patch_target a = name;
}.

(** ** The specification of a pass *)

(** What the status still records of the last apply. *)
Record tracks `{CO : ConditionOps} (s s' : ConversionConfigStatus) : Prop := {
  tr_phase : stPhase s' = stPhase s;
  tr_url : stWebhookURL s' = stWebhookURL s;
  tr_path : stWebhookPath s' = stWebhookPath s;
  tr_port : stWebhookPort s' = stWebhookPort s;
  tr_plan : stLastAppliedPlanHash s' = stLastAppliedPlanHash s;
  tr_applied : FindStatusCondition (stConditions s') ConditionApplied = FindStatusCondition (stConditions s) ConditionApplied;
}.

(** A status that waits: stale when something is applied, pending or invalid when
    nothing is; what was applied last is not forgotten. *)
Record held `{CO : ConditionOps} (s s' : ConversionConfigStatus) : Prop := {
  hd_url : stWebhookURL s' = stWebhookURL s;
  hd_path : stWebhookPath s' = stWebhookPath s;
  hd_port : stWebhookPort s' = stWebhookPort s;
  hd_plan : stLastAppliedPlanHash s' = stLastAppliedPlanHash s;
  hd_applied : FindStatusCondition (stConditions s') ConditionApplied = FindStatusCondition (stConditions s) ConditionApplied;
  hd_phase : if was_applied s then stPhase s' = PhaseStale ∧ IsStatusConditionTrue (stConditions s') ConditionStale = true
             else (stPhase s' = PhaseInvalid ∨ stPhase s' = PhasePending) ∧
                  FindStatusCondition (stConditions s') ConditionStale = None;
}.

(** The status after the conversion was taken back, or could not be. *)
Record reverted `{CO : ConditionOps} (failed : bool) (s' : ConversionConfigStatus) : Prop := {
  rv_phase : stPhase s' = PhaseFailed;
  rv_stale : FindStatusCondition (stConditions s') ConditionStale = None;
  rv_applied : ∃ c, FindStatusCondition (stConditions s') ConditionApplied = Some c ∧ cdStatus c = "False" ∧
                    cdReason c = if failed then ReasonRevertFailed else ReasonReverted;
}.

(** ** The status helpers *)

Section status_lemmas.
Context {CO : ConditionOps} {CL : ConditionLaws CO}.

Lemma tracks_refl s : tracks s s.
Proof. done. Qed.
Lemma tracks_trans s1 s2 s3 : tracks s1 s2 → tracks s2 s3 → tracks s1 s3.
Proof. intros [] []. split; by etrans. Qed.
Lemma core_tracks s s' : same_core s s' → tracks s s'.
Proof. intros []. split; [done..|]. apply core_conditions0. by left. Qed.
Lemma tracks_set now s s' t st r m : t ≠ ConditionApplied → tracks s s' → tracks s (set_condition now s' t st r m).
Proof. intros Ht []. split; cbn; [done..|]. by rewrite find_set_ne. Qed.
Lemma tracks_report s s' l b h : tracks s s' → tracks s (with_report s' l b h).
Proof. by intros []. Qed.
Lemma tracks_server s s' n : tracks s s' → tracks s (with_server s' n).
Proof. by intros []. Qed.
Lemma tracks_target s s' g : tracks s s' → tracks s (with_observed_target s' g).
Proof. by intros []. Qed.

Lemma held_set now s s' t st r m :
  t ≠ ConditionApplied → t ≠ ConditionStale → held s s' → held s (set_condition now s' t st r m).
Proof.
  intros Ha Hs [????? Hp]. split; cbn; [done..|by rewrite find_set_ne|].
  by rewrite IsTrue_set_ne, find_set_ne.
Qed.
Lemma held_message s s' m : held s s' → held s (with_message s' m).
Proof. by intros []. Qed.

Lemma held_stale now s s' r m : tracks s s' → was_applied s = true → held s (setPhaseStale now s' r m).
Proof.
  intros [] Hw. split; cbn; [done..|by rewrite find_set_ne|]. rewrite Hw. split; [done|]. by rewrite IsTrue_set_same.
Qed.
Lemma held_rejected s s' p :
  tracks s s' → was_applied s = false → p = PhaseInvalid ∨ p = PhasePending →
  held s (remove_condition (with_phase s' p) ConditionStale).
Proof.
  intros [] Hw Hp. split; cbn; [done..|by rewrite find_remove_other|]. rewrite Hw. split; [done|]. apply find_remove_same.
Qed.

Lemma held_invalid now s s' m : tracks s s' → held s (setInvalid now s' (was_applied s) m).
Proof.
  intros H. apply held_set; [done..|]. apply held_message. destruct (was_applied s) eqn:Hw; [by apply held_stale|].
  apply held_rejected; auto.
Qed.
Lemma held_pending now s s' r m : tracks s s' → held s (setPhasePendingOrStale now s' (was_applied s) r m).
Proof.
  intros H. unfold setPhasePendingOrStale. destruct (was_applied s) eqn:Hw; [by apply held_stale|].
  apply held_rejected; auto.
Qed.

Lemma applied_true now s r m :
  IsStatusConditionTrue (stConditions (remove_condition (set_condition now s ConditionApplied "True" r m) ConditionStale))
    ConditionApplied = true.
Proof.
  unfold remove_condition, set_condition. cbn [stConditions with_conditions]. by rewrite IsTrue_remove_ne, IsTrue_set_same.
Qed.

Lemma failClosed_tracks s s' policy :
  tracks s s' → failClosedShouldRevert policy (stPhase s') (stConditions s') =
                failClosedShouldRevert policy (stPhase s) (stConditions s).
Proof. intros []. unfold failClosedShouldRevert. by rewrite tr_applied0, tr_phase0. Qed.
End status_lemmas.

#[export] Hint Resolve tracks_refl tracks_set tracks_report tracks_server tracks_target core_tracks tracks_trans
  held_set held_message held_stale held_invalid held_pending : status.

Section spec.
Context `{ML : MathLog} `{RO : RangeOrder} `{EX : Externs} `{CX : CompileExterns} {CO : ConditionOps} {CL : ConditionLaws CO} `{GZ : Gzip}.
Context (fuel : nat) (defaultNamespace : string) `{CK : ControllerKind C T} (w : world C T).

Definition clean (cfg : C) (target : T) (report : AnalyzeReport) : Prop :=
  ∃ rules, tk_rules cfg = Ok rules ∧ HasErrors report = false ∧
    Analyze fuel {| aiSource := tk_source target; aiHubVersion := tk_hub cfg; aiSpokes := rules |} = Ok report.
Definition unclean (cfg : C) (target : T) : Prop :=
  ∃ rules report, tk_rules cfg = Ok rules ∧ HasErrors report = true ∧
    Analyze fuel {| aiSource := tk_source target; aiHubVersion := tk_hub cfg; aiSpokes := rules |} = Ok report.
Definition hash_of (cfg : C) (report : AnalyzeReport) : string :=
  computeSchemaHash report (tk_hub cfg) (omGeneration (tk_meta cfg)).

Definition moving (st : ConversionConfigStatus) (serverName : string) : bool :=
  was_applied st && bool_decide (stWebhookURL st ≠ "") && negb (TargetPointsAt (stWebhookURL st) serverName).

Definition handover (cfg : C) (server : ServerInstance) : res string HandoverVerdict :=
  checkHandover (wdLeases w (namespace_of defaultNamespace server) (cwsName (siServer server))) (wdLeaseClock w)
    (cwsName (siServer server)) (siReadyReplicas server) (tk_target cfg)
    (FindStatusCondition (stConditions (ck_status cfg)) ConditionHandoverReady) (wdNow w).

(** All that has to hold before the target is pointed at a server. *)
Record gates_open (cfg : C) (target : T) (report : AnalyzeReport) (n : string) (server : ServerInstance) : Prop := {
  go_target : wdTarget w = Found target;
  go_clean : clean cfg target report;
  go_assigned : ∃ servers, wdServers w = Ok servers ∧ ResolveAssignment cfg servers = Ok n;
  go_established : ck_established target = true;
  go_server : wdServer w n = Found server;
  go_ready : isServerReady server = true;
  go_handover : moving (ck_status cfg) n = true → ∃ verdict, handover cfg server = Ok verdict ∧ hvOK verdict = true;
}.

(** What is applied when they do. *)
Definition params_of (cfg : C) (report : AnalyzeReport) (n : string) (server : ServerInstance) (ca : string) : Params := {|
  paTargetName := tk_target cfg; paXRDAPIVersion := ""; paConfigName := GetName cfg; paPlanHash := hash_of cfg report;
  paServiceName := cwsServiceName n; paServiceNamespace := namespace_of defaultNamespace server;
  paPath := convert_path (tk_target cfg); paPort := port_of server; paCABundle := ca;
  paReviewVersions := review_versions cfg |}.

Record applied_status (cfg : C) (report : AnalyzeReport) (n : string) (server : ServerInstance)
    (s' : ConversionConfigStatus) : Prop := {
  ap_phase : stPhase s' = PhaseApplied;
  ap_url : stWebhookURL s' = webhook_url n (namespace_of defaultNamespace server) (convert_path (tk_target cfg));
  ap_path : stWebhookPath s' = convert_path (tk_target cfg);
  ap_port : ∃ s, stWebhookPort s' = ck_port s (port_of server);
  ap_server : stAssignedWebhookServer s' = n;
  ap_plan : stLastAppliedPlanHash s' = hash_of cfg report;
  ap_hash : stSchemaHash s' = hash_of cfg report;
  ap_applied : IsStatusConditionTrue (stConditions s') ConditionApplied = true;
  ap_stale : FindStatusCondition (stConditions s') ConditionStale = None;
}.

Definition status_result (d : Z) : res controller_error Z :=
  match wdPatchStatus w with Some e => Err (ErrPatchingStatus e) | None => Ok d end.

Definition revert_writes (cfg : C) : list event :=
  match ck_revert w (tk_target cfg) with Some a => [Applies a] | None => [] end.
Definition revert_error (cfg : C) : option string :=
  match ck_revert w (tk_target cfg) with Some _ => wdApply w | None => None end.

(** One pass over a config that is not being deleted. *)
Inductive pass (cfg : C) : list event → res controller_error Z → Prop :=
| pass_failed e : pass cfg [] (Err e)
| pass_waits st d : held (ck_status cfg) st → pass cfg [PatchesStatus st] (status_result d)
| pass_reverts target st :
    wdTarget w = Found target → unclean cfg target →
    failClosedShouldRevert (ck_drift cfg) (stPhase (ck_status cfg)) (stConditions (ck_status cfg)) = true →
    reverted (bool_decide (revert_error cfg ≠ None)) st →
    pass cfg (revert_writes cfg ++ [PatchesStatus st])
      (match status_result 0, revert_error cfg with
       | Ok _, Some e => Err (ErrRevertAfterDrift e)
       | r, _ => r
       end)
| pass_apply_refused target report n server ca a e :
    gates_open cfg target report n server → ck_patch target (params_of cfg report n server ca) = Ok a →
    wdApply w = Some e → pass cfg [Applies a] (Err (ErrApplying e))
| pass_applies target report n server ca a st d :
    gates_open cfg target report n server → ck_patch target (params_of cfg report n server ca) = Ok a →
    wdApply w = None → applied_status cfg report n server st →
    pass cfg [Applies a; PatchesStatus st] (status_result d).

(** ** Handlers and passes *)

(** A step of a pass: it goes on without having written, or it ends the pass. *)
Definition exits_as_pass (cfg : C) {A} (Q : A → Prop) (m : M A) : Prop :=
  match m.2 with Ok a => writes m.1 = [] ∧ Q a | Err r => pass cfg (writes m.1) r end.
Definition passes (cfg : C) (m : M Z) : Prop := pass cfg (writes (ran m).1) (ran m).2.

Lemma exits_bind cfg {A B} (Q : A → Prop) (Q' : B → Prop) (m : M A) (f : A → M B) :
  exits_as_pass cfg Q m → (∀ a, Q a → exits_as_pass cfg Q' (f a)) → exits_as_pass cfg Q' (m ≫= f).
Proof.
  unfold exits_as_pass, mbind, handler_bind. destruct m as [es [a|r]]; cbn; [|done].
  intros [He Ha] Hf. specialize (Hf a Ha). by rewrite writes_app, He.
Qed.

Lemma passes_bind cfg {A} (Q : A → Prop) (m : M A) (f : A → M Z) :
  exits_as_pass cfg Q m → (∀ a, Q a → passes cfg (f a)) → passes cfg (m ≫= f).
Proof.
  unfold exits_as_pass, passes, ran, mbind, handler_bind. destruct m as [es [a|r]]; cbn; [|done].
  intros [He Ha] Hf. specialize (Hf a Ha). by rewrite writes_app, He.
Qed.

Lemma exits_ret cfg {A} (Q : A → Prop) a : Q a → exits_as_pass cfg Q (mret a).
Proof. done. Qed.
Lemma exits_fail cfg {A} (Q : A → Prop) e : exits_as_pass cfg (A := A) Q (exit (Err e)).
Proof. apply pass_failed. Qed.
Lemma exits_metrics cfg es : writes es = [] → exits_as_pass cfg (λ _, True) (emit_all es).
Proof. done. Qed.

Lemma held_observed s s' g : held s s' → held s (with_observed_generation s' g).
Proof. by intros []; split. Qed.

Lemma exits_finish cfg {A} (Q : A → Prop) st d :
  held (ck_status cfg) st → exits_as_pass cfg Q (finish w cfg st d).
Proof.
  intros H. unfold exits_as_pass, finish, patchStatus, fail_with, mbind, handler_bind. cbn.
  pose proof (pass_waits cfg _ d (held_observed _ _ (omGeneration (tk_meta cfg)) H)) as Hp.
  unfold status_result in Hp. by destruct (wdPatchStatus w).
Qed.

Context {KL : ControllerLaws CK}.

Lemma taken_back st now (failed : bool) m m' g :
  reverted failed (with_observed_generation (with_message (set_condition now
    (set_condition now (remove_condition (with_phase st PhaseFailed) ConditionStale) ConditionApplied "False"
       (if failed then ReasonRevertFailed else ReasonReverted) m)
    ConditionValidated "False" "ValidationFailed" m') m') g).
Proof.
  split; cbn; [done|by rewrite !find_set_ne, find_remove_same|].
  rewrite find_set_ne by done. eexists. rewrite (find_set_same now _ (condition ConditionApplied _ _ _)). by split_and!.
Qed.

Lemma drift_exits cfg target st {A} (Q : A → Prop) :
  wdTarget w = Found target → unclean cfg target → tracks (ck_status cfg) st →
  exits_as_pass cfg Q (drift w cfg (was_applied (ck_status cfg)) st).
Proof.
  intros Ht Hu Htr. unfold drift. eapply (exits_bind _ (λ _, True)); [done|intros _ _].
  rewrite (failClosed_tracks _ _ _ Htr). destruct (failClosedShouldRevert _ _ _) eqn:Hf.
  - match goal with |- exits_as_pass _ _ ?m => assert (∃ st',
      writes m.1 = revert_writes cfg ++ [PatchesStatus st'] ∧
      m.2 = Err (match status_result 0, revert_error cfg with
                 | Ok _, Some e => Err (ErrRevertAfterDrift e) | r, _ => r end) ∧
      reverted (bool_decide (revert_error cfg ≠ None)) st') as (st' & Hw & Hr & Hv) end.
    { unfold revert, revert_writes, revert_error, status_result, patchStatus, fail_with, emit_one, emit_all, exit,
        mret, handler_ret, mbind, handler_bind. destruct (ck_revert w (tk_target cfg)) as [a|], (wdApply w) as [e|]; cbn;
        autorewrite with writes; cbn; destruct (wdPatchStatus w); cbn;
        eexists; (split; [reflexivity|]); (split; [reflexivity|]);
        first [apply (taken_back _ _ true)|apply (taken_back _ _ false)]. }
    unfold exits_as_pass. rewrite Hr, Hw. by eapply pass_reverts.
  - destruct (was_applied (ck_status cfg)) eqn:Hw; (eapply (exits_bind _ (λ r, held (ck_status cfg) r.1.1 ∧ r.2 = None));
      [eapply (exits_bind _ (λ _, True)); [apply exits_metrics, transition_metric|intros _ _; apply exits_ret]; cbn;
       split; [eauto using held_rejected with status|done]|]).
    all: intros [[st' msg] err] [Hst Hn]; cbn in Hst, Hn; subst err.
    all: apply (exits_finish cfg Q (with_message (set_condition (wdNow w) st' ConditionValidated "False" "ValidationFailed" msg) msg) 0);
      by apply held_message, held_set.
Qed.

Lemma not_analysed_exits cfg st reason m {A} (Q : A → Prop) :
  tracks (ck_status cfg) st → exits_as_pass cfg Q (not_analysed w cfg (was_applied (ck_status cfg)) st reason m).
Proof.
  intros H. unfold not_analysed. eapply (exits_bind _ (λ _, True)).
  - apply exits_metrics. by autorewrite with writes.
  - intros _ _. by apply exits_finish, held_invalid.
Qed.

Lemma analyse_exits cfg target st :
  wdTarget w = Found target → tracks (ck_status cfg) st →
  exits_as_pass cfg (λ st', ∃ report, clean cfg target report ∧ tracks (ck_status cfg) st' ∧ stSchemaHash st' = hash_of cfg report)
    (analyse fuel w cfg (was_applied (ck_status cfg)) st target).
Proof.
  intros Ht H. unfold analyse. destruct (tk_rules cfg) as [rules|e] eqn:Er; [|by apply not_analysed_exits].
  destruct (Analyze _ _) as [report|e] eqn:Ea; [|by apply not_analysed_exits].
  destruct (HasErrors report) eqn:Eh.
  - eapply drift_exits; [done| |by apply tracks_report]. by exists rules, report.
  - apply exits_ret. exists report. split; [by exists rules|]. split; [|done]. by apply tracks_set, tracks_report.
Qed.

Lemma gates_exits cfg target report st :
  wdTarget w = Found target → clean cfg target report → tracks (ck_status cfg) st → stSchemaHash st = hash_of cfg report →
  exits_as_pass cfg (λ '(server, st'), gates_open cfg target report (stAssignedWebhookServer st') server ∧
                       stSchemaHash st' = hash_of cfg report)
    (gates defaultNamespace w cfg (was_applied (ck_status cfg)) st target).
Proof.
  intros Ht Hc Htr Hh. unfold gates. destruct (wdServers w) as [servers|] eqn:Es; [|apply exits_fail].
  destruct (ResolveAssignment cfg servers) as [n|] eqn:Ea; [|by apply exits_finish, held_invalid].
  fold (moving (ck_status cfg) n). set (stn := with_server st n).
  assert (tracks (ck_status cfg) stn) as Hn by by apply tracks_server.
  pose proof healthy_own as Hown. unfold set_condition in *.
  destruct (ck_established target) eqn:Ee; cbn [negb]; [|by apply exits_finish, held_pending, tracks_set].
  destruct (wdServer w n) as [server| |e] eqn:Esv; [|apply exits_fail..].
  destruct (isServerReady server) eqn:Er; cbn [negb]; [|by apply exits_finish, held_pending, tracks_set, tracks_set].
  destruct (moving (ck_status cfg) n) eqn:Em.
  - fold (handover cfg server). destruct (handover cfg server) as [verdict|e] eqn:Ev; [|apply exits_fail].
    destruct (hvOK verdict) eqn:Eo; cbn [negb];
      [|by apply exits_finish, held_message, held_pending, tracks_set, tracks_set, tracks_set].
    apply exits_ret. split; [|done]. split; eauto.
  - apply exits_ret. split; [|done]. split; eauto. cbn. congruence.
Qed.

Lemma apply_passes cfg target report st server :
  gates_open cfg target report (stAssignedWebhookServer st) server → stSchemaHash st = hash_of cfg report →
  passes cfg (apply_conversion defaultNamespace w cfg st target server).
Proof.
  intros Hg Hh. unfold apply_conversion, passes. set (n := stAssignedWebhookServer st) in *.
  destruct (readCABundle _ w server) as [ca|e]; [|apply pass_failed].
  replace (patch_params defaultNamespace cfg st n server ca) with (params_of cfg report n server ca)
    by (unfold patch_params, params_of; by rewrite Hh).
  unfold applyConversionPatch. destruct (ck_patch target _) as [a|e] eqn:Ep; [|apply pass_failed].
  destruct (wdApply w) as [e|] eqn:Ew.
  - apply (pass_apply_refused _ target report n server ca a e); done.
  - cbn. unfold ran, patchStatus, fail_with, mbind, handler_bind; cbn.
    match goal with |- context [ck_verify w target ?want ?st1] => pose proof (verify_metrics w target want st1) as Hm;
      pose proof (verify_core w target want st1) as Hv; destruct (ck_verify w target want st1) as [[es st2] d] end.
    cbn in Hm, Hv |- *.
    pose proof (pass_applies cfg target report n server ca a
      (with_observed_generation st2 (omGeneration (tk_meta cfg))) d Hg Ep Ew) as Hp.
    assert (applied_status cfg report n server (with_observed_generation st2 (omGeneration (tk_meta cfg)))) as Ha.
    { destruct Hv. split; cbn; try (etrans; [done|]; done).
      - eexists. rewrite core_port0. reflexivity.
      - unfold IsStatusConditionTrue. rewrite core_conditions0 by (by left).
        apply (applied_true (wdNow w)).
      - rewrite core_conditions0 by (by right; left). apply find_remove_same. }
    specialize (Hp Ha). unfold status_result in Hp. autorewrite with writes. rewrite (writes_none es) by done.
    destruct (wdPatchStatus w); cbn; autorewrite with writes; exact Hp.
Qed.

(** The handler implements the specification. *)
Lemma reconcileNormal_passes cfg : passes cfg (reconcileNormal fuel defaultNamespace w cfg).
Proof.
  unfold reconcileNormal. destruct (wdTarget w) as [target| |e] eqn:Et.
  - pose proof (observe_metrics (wdNow w) cfg (with_observed_target (ck_status cfg) (ck_generation target)) target) as Hm.
    pose proof (observe_core (wdNow w) cfg (with_observed_target (ck_status cfg) (ck_generation target)) target) as Hc.
    destruct (ck_observe _ _ _ _) as [es st]. cbn in Hm, Hc.
    eapply (passes_bind _ (λ _, True)); [by apply exits_metrics, writes_none|intros _ _].
    eapply passes_bind; [apply analyse_exits; [done|]|].
    { eapply tracks_trans; [apply tracks_target, tracks_refl|by apply core_tracks]. }
    intros st' (report & Hcl & Htr & Hh). eapply passes_bind; [by apply gates_exits|].
    intros [server st''] [Hg Hh']. by eapply apply_passes.
  - pose proof (exits_finish cfg (A := Z) (λ _, False)
      (setInvalid (wdNow w) (ck_status cfg) (was_applied (ck_status cfg)) (TargetMissing ck_long_name (tk_target cfg))) 0) as H.
    unfold exits_as_pass in H. unfold passes, ran. destruct (finish _ _ _ _) as [es [z|r]]; cbn in *.
    + destruct H as [_ []]. by apply held_invalid, tracks_refl.
    + by apply H, held_invalid, tracks_refl.
  - apply pass_failed.
Qed.
(** ** A pass through open gates *)

Lemma webhook_url_points n ns path : TargetPointsAt (webhook_url n ns path) n = true.
Proof.
  unfold TargetPointsAt, webhook_url, cwsServiceName. rewrite bool_decide_false by done.
  assert (∀ s, "https://" +:+ WebhookServerServiceName n +:+ "." +:+ s =
               ("https://" ++ WebhookServerServiceName n ++ ".")%string +:+ s) as ->; [|apply prefix_append].
  intros s. by rewrite <- !append_assoc.
Qed.

Lemma gates_open_inj cfg target report n server target' report' n' server' :
  gates_open cfg target report n server → gates_open cfg target' report' n' server' →
  target' = target ∧ report' = report ∧ n' = n ∧ server' = server.
Proof.
  intros [Ht (rules & Hr & _ & Ha) (ss & Hs & Hn) _ Hsv _ _] [Ht' (rules' & Hr' & _ & Ha') (ss' & Hs' & Hn') _ Hsv' _ _].
  rewrite Ht' in Ht. simplify_eq. rewrite Hr' in Hr. simplify_eq. rewrite Ha' in Ha. simplify_eq.
  rewrite Hs' in Hs. simplify_eq. rewrite Hn' in Hn. simplify_eq. rewrite Hsv' in Hsv. by simplify_eq.
Qed.

Lemma clean_not_unclean cfg target report n server target' :
  gates_open cfg target report n server → wdTarget w = Found target' → unclean cfg target' → False.
Proof.
  intros [Ht (rules & Hr & Hh & Ha) _ _ _ _ _] Ht' (rules' & report' & Hr' & Hh' & Ha').
  rewrite Ht' in Ht. simplify_eq. rewrite Hr' in Hr. simplify_eq. rewrite Ha' in Ha. simplify_eq. congruence.
Qed.

Lemma analyse_open cfg target report was st :
  clean cfg target report → ∃ st', (analyse fuel w cfg was st target).2 = Ok st' ∧ stSchemaHash st' = hash_of cfg report.
Proof. intros (rules & Hr & Hh & Ha). unfold analyse. rewrite Hr, Ha, Hh. by eexists. Qed.

Lemma gates_through cfg target report n server st :
  gates_open cfg target report n server → ∃ st', stAssignedWebhookServer st' = n ∧ stSchemaHash st' = stSchemaHash st ∧
    (gates defaultNamespace w cfg (was_applied (ck_status cfg)) st target).2 = Ok (server, st').
Proof.
  intros [Ht _ (ss & Hs & Hn) He Hsv Hr Hh]. unfold gates. rewrite Hs, Hn, He; cbn [negb]. rewrite Hsv, Hr; cbn [negb].
  fold (moving (ck_status cfg) n) (handover cfg server). destruct (moving (ck_status cfg) n);
    [destruct (Hh eq_refl) as (v & -> & Hv); rewrite Hv; cbn|];
    (eexists; split_and!; [| |reflexivity]; done).
Qed.

Lemma apply_through cfg target report st server ca a :
  stSchemaHash st = hash_of cfg report → readCABundle defaultNamespace w server = Ok ca →
  ck_patch target (params_of cfg report (stAssignedWebhookServer st) server ca) = Ok a →
  wdApply w = None → wdPatchStatus w = None →
  let m := apply_conversion defaultNamespace w cfg st target server in
  Applies a ∈ m.1 ∧ ∃ d, m.2 = Ok d.
Proof.
  intros Hh Hca Hp Ha Hs m. unfold m, apply_conversion. rewrite Hca. unfold patch_params. rewrite Hh. cbn zeta.
  fold (params_of cfg report (stAssignedWebhookServer st) server ca). unfold applyConversionPatch. rewrite Hp, Ha.
  unfold mbind, handler_bind; cbn. destruct (ck_verify _ _ _ _) as [[es st2] d]. unfold patchStatus, fail_with. rewrite Hs. cbn.
  split; [by left|by eexists].
Qed.

Lemma reconcileNormal_through cfg target report n server ca a :
  gates_open cfg target report n server → readCABundle defaultNamespace w server = Ok ca →
  ck_patch target (params_of cfg report n server ca) = Ok a → wdApply w = None → wdPatchStatus w = None →
  ∃ st d, (reconcileNormal fuel defaultNamespace w cfg).2 = Ok d ∧ applied_status cfg report n server st ∧
    writes (reconcileNormal fuel defaultNamespace w cfg).1 = [Applies a; PatchesStatus st].
Proof.
  intros Hg Hca Hp Ha Hs. pose proof (reconcileNormal_passes cfg) as Hpass.
  assert (Applies a ∈ (reconcileNormal fuel defaultNamespace w cfg).1 ∧
    ∃ d, (reconcileNormal fuel defaultNamespace w cfg).2 = Ok d) as [Hin [d Hd]].
  { unfold reconcileNormal. rewrite (go_target _ _ _ _ _ Hg). destruct (ck_observe _ _ _ _) as [es st0].
    edestruct (analyse_open cfg target report (was_applied (ck_status cfg)) st0) as (st1 & Hst1 & Hh1); [apply Hg|].
    edestruct (gates_through cfg target report n server st1) as (st2 & Hn & Hh2 & Hst2); [done|].
    edestruct (apply_through cfg target report st2 server ca a) as [Hin [d Hd]]; [by rewrite Hh2|done|by rewrite Hn|done..|].
    unfold mbind, handler_bind, emit_all. cbn [fst snd]. rewrite Hst1. cbn [fst snd]. rewrite Hst2, Hd. split; [|by eexists].
    cbn [fst snd]. apply elem_of_app; right. apply elem_of_app; right. by apply elem_of_app; right. }
  rewrite writes_elem in Hin by done. unfold passes, ran in Hpass. rewrite Hd in Hpass. cbn in Hpass.
  remember (writes (reconcileNormal fuel defaultNamespace w cfg).1) as ws eqn:Ews. remember (Ok d) as r.
  destruct Hpass as [e|st d' Hh|target' st Ht Hu _ _|target' report' n' server' ca' a' e Hg' Hp' He|target' report' n' server' ca' a' st d' Hg' Hp' _ Hst].
  - by apply not_elem_of_nil in Hin.
  - by apply list_elem_of_singleton in Hin.
  - exfalso. by eapply clean_not_unclean.
  - congruence.
  - destruct (gates_open_inj _ _ _ _ _ _ _ _ _ Hg Hg') as (-> & -> & -> & ->). exists st, d. split_and!; [done|done|].
    apply elem_of_cons in Hin as [[= ->]|Hin]; [done|by apply list_elem_of_singleton in Hin].
Qed.
End spec.

(** ** The two controllers are what the specification relies on *)

Section instances.
Context `{ML : MathLog} `{RO : RangeOrder} `{EX : Externs} `{CX : CompileExterns} {CO : ConditionOps} {CL : ConditionLaws CO}.
Context `{U : Unstructured} `{UE : UnstructuredEdits} (scope_text : xrdadapter.scope_reason → string)
  (versions_text : xrdadapter.versions_error → string).

Lemma same_core_refl s : same_core s s.
Proof. done. Qed.

(** Conditions that say nothing about the apply. *)
Lemma same_core_set now s t st r m : t ∉ core_types → same_core s (set_condition now s t st r m).
Proof. intros Ht. split; [done..|]. intros t' Hin. cbn. apply find_set_ne. by intros ->. Qed.

Lemma same_core_propagation now s st r m : same_core s (setPropagationCondition now s st r m).
Proof. apply same_core_set. set_solver. Qed.

Lemma verify_same_core generated get want now s :
  same_core s (verifyPropagation generated get want now s).2.
Proof.
  unfold verifyPropagation. destruct generated as [gs|e]; [|apply same_core_propagation].
  repeat case_match; simplify_eq; cbn; match goal with |- same_core _ (setPropagationCondition ?now ?s' ?a ?b ?c) =>
    pose proof (same_core_propagation now s' a b c) as [] end; by split.
Qed.

#[export] Instance xrd_controller_laws : ControllerLaws (xrd_controller scope_text versions_text).
Proof.
  split.
  - done.
  - intros now cfg st xrd. cbn. unfold observeConversionRevert. repeat case_match; repeat constructor.
  - intros now cfg st xrd. cbn. unfold setPackageManagedCondition.
    case_match; apply same_core_set; set_solver.
  - intros w xrd want st. cbn. unfold verify_applied.
    destruct (verifyPropagation _ _ _ _ _) as [es st']. cbn. apply Forall_fmap, Forall_forall. done.
  - intros w xrd want st. cbn. unfold verify_applied.
    pose proof (verify_same_core (xrdadapter.GeneratedCRDNames (Some (match wdFreshTarget w with Found f => f | _ => xrd end)))
      (wdCRD w) want (wdNow w) st) as H.
    by destruct (verifyPropagation _ _ _ _ _) as [es st'].
  - intros xrd p a [= <-]. reflexivity.
  - intros xrd p a [= <-]. reflexivity.
  - intros xrd p a [= <-]. reflexivity.
  - intros w name a. cbn. unfold xrd_revert_patch. destruct (wdRevertTarget w); intros [= <-]; reflexivity.
  - intros w name a. cbn. unfold xrd_revert_patch. destruct (wdRevertTarget w); intros [= <-]; reflexivity.
Qed.

#[export] Instance crd_controller_laws : ControllerLaws crd_controller.
Proof.
  split; cbn; try done.
  1-3: intros _ p a; unfold BuildCRDConversionPatch; destruct (DecodeString _); cbn; [|done]; by intros [= <-].
  1-2: by intros _ name a [= <-].
Qed.
End instances.
