(* ===== verification/Server.v ===== *)
(** Answering a ConversionReview (internal/webhookserver/server.go).

    The request comes decoded: what reading and decoding its body gave is the
    input [body].  [ctx.Err] is a function of how many times it was asked.  The
    answer is the HTTP response with the trace of the metrics recorded.  Message
    texts are data.  The handler recovers from panics of the code it calls; the
    model's functions are total, so that branch is not modelled, and neither are
    tracing and logging. *)
From Stdlib Require Import Ascii.
From S2P Require Import Prelude Float64 Value Json Path Schema Rules Coerce Passthrough Ops Convert Diagnostics Registry.

(** ** The request and the answer *)

Record ConversionRequest := { rqUID : string; rqDesiredAPIVersion : string; rqObjects : list string }.

Inductive body :=
| BodyTooLarge (limit : Z) (prefix : string)   (* *http.MaxBytesError, and what was retained *)
| BodyInvalid (err : string)
| BodyReview (request : option ConversionRequest).

Record http_request := { hrPost : bool; hrPath : string; hrBody : body }.

Inductive review_failure :=
| FailTooLarge (limit : Z)
| FailNotRegistered (target : string)
| FailTimeout (done total : nat)
| FailTimeoutAtEnd
| FailDecode
| FailConvert (from to : string) (e : router_error)
| FailMarshal.

Record ConversionResponse := { rpUID : string; rpConverted : list string; rpFailure : option review_failure }.

Inductive response :=
| HTTPError (code : Z)
| Review (r : ConversionResponse).

Inductive metric :=
| ReviewObserved (target direction result : string)        (* ReviewDuration and ReviewRequestsTotal *)
| BatchSize (target : string) (n : nat)
| ObjectObserved (target from to route direction result : string)  (* ObjectsTotal and ObjectDuration *)
| LossyTotal (target direction : string).

(** [writeReview]: a failure carries no object. *)
Definition writeReview (uid : string) (converted : list string) (failure : option review_failure) : response :=
  Review {| rpUID := uid; rpConverted := if failure then [] else converted; rpFailure := failure |}.

(** ** Helpers *)

Definition DefaultMaxRequestBytes : Z := 32 * 2 ^ 20.
Definition DefaultRequestTimeout : Z := 30 * 1000000000.
Definition uidSniffBytes : nat := 8192.
Definition maxRequestBytes (configured : Z) : Z :=
  if bool_decide (configured = 0%Z) then DefaultMaxRequestBytes else configured.
Definition requestTimeout (configured : Z) : Z :=
  if (configured <=? 0)%Z then DefaultRequestTimeout else configured.

(** [strings.SplitN(apiVersion, "/", 2)], its last part. *)
Fixpoint after_slash (s : string) : option string :=
  match s with
  | EmptyString => None
  | String c s => if bool_decide (c = "/"%char) then Some s else after_slash s
  end.
Definition versionOf (apiVersion : string) : string := default apiVersion (after_slash apiVersion).

Definition stringField (o : obj) (key : string) : string :=
  match o !! key with Some (VStr s) => s | _ => "" end.

Definition non_null (v : option value) : bool := match v with None | Some VNull => false | _ => true end.

Definition ensureConvertedMetadata (out original : obj) : obj :=
  if non_null (out !! "metadata") then out
  else if non_null (original !! "metadata") then <["metadata" := default VNull (original !! "metadata")]> out
  else <["metadata" := VObj ∅]> out.

Definition routeIdentity : string := "identity".
Definition routeHubToSpoke : string := "hub_to_spoke".
Definition routeSpokeToHub : string := "spoke_to_hub".
Definition routeSpokeToSpoke : string := "spoke_to_spoke".

Definition routeLabel (hub from to : string) : string :=
  if bool_decide (from = to) then routeIdentity
  else if bool_decide (from = hub) then routeHubToSpoke
  else if bool_decide (to = hub) then routeSpokeToHub
  else routeSpokeToSpoke.

Record lossyHop := { lhDirection : string; lhSpokeVersion : string }.

(** The switch on the route. *)
Definition hops_of (route from to : string) : list lossyHop :=
  if bool_decide (route = routeHubToSpoke) then [{| lhDirection := "hub_to_spoke"; lhSpokeVersion := to |}]
  else if bool_decide (route = routeSpokeToHub) then [{| lhDirection := "spoke_to_hub"; lhSpokeVersion := from |}]
  else if bool_decide (route = routeSpokeToSpoke)
  then [{| lhDirection := "spoke_to_hub"; lhSpokeVersion := from |};
        {| lhDirection := "hub_to_spoke"; lhSpokeVersion := to |}]
  else [].

Definition is_lossy (entry : CompiledEntry) (h : lossyHop) : bool :=
  match ceLossless entry !! lhSpokeVersion h with
  | None => false
  | Some v => (bool_decide (lhDirection h = "hub_to_spoke") && negb (lvHubToSpoke v)) ||
              (bool_decide (lhDirection h = "spoke_to_hub") && negb (lvSpokeToHub v))
  end.

Definition recordLossy (entry : CompiledEntry) (target : string) (h : lossyHop) : list metric :=
  if is_lossy entry h then [LossyTotal target (lhDirection h)] else [].

Record directionTracker := { dtLabel : string; dtSeen : string }.
Definition new_tracker : directionTracker := {| dtLabel := "unknown"; dtSeen := "" |}.
Definition tracker_add (d : directionTracker) (dir : string) : directionTracker :=
  if bool_decide (dtSeen d = "") then {| dtLabel := dir; dtSeen := dir |}
  else if bool_decide (dtSeen d ≠ dir) then {| dtLabel := "mixed"; dtSeen := dtSeen d |}
  else d.

(** [prefixRecorder.Write]: keeps what fits, reports everything as written. *)
Definition recorder_write (limit : nat) (buf b : string) : string :=
  buf +:+ String.substring 0 (limit - String.length buf) b.

(** [bytes.Index], and the text that follows the match. *)
Definition after_match (pat s : string) : option string :=
  match String.index 0 pat s with
  | Some i => Some (String.substring (i + String.length pat) (String.length s) s)
  | None => None
  end.

Definition double_quote : string := String "034"%char "".
Definition quote (s : string) : string := double_quote +:+ s +:+ double_quote.

Definition sniffRequestUID (prefix : string) : string :=
  default "" (
    rest ← after_match (quote "request") prefix;
    rest ← after_match (quote "uid") rest;
    open ← String.index 0 double_quote rest;
    colon ← String.index 0 ":" rest;
    if bool_decide (open < colon) then None
    else
      let rest := String.substring (open + 1) (String.length rest) rest in
      stop ← String.index 0 double_quote rest;
      Some (String.substring 0 stop rest)).

(** ** The handler *)

Section server.
Context `{RO : RangeOrder} `{EX : Externs} (metrics : bool).

Definition observe (target direction result : string) : list metric :=
  if metrics then [ReviewObserved target direction result] else [].

(** What the loop carries: the objects converted, the hops to count, the label,
    the metrics so far. *)
Record progress := {
  pgConverted : list string; pgHops : list lossyHop; pgTracker : directionTracker; pgMetrics : list metric }.

(** What becomes of the engine's output before it is sent. *)
Definition finish (desired : string) (out original : obj) : obj :=
  ensureConvertedMetadata (<["apiVersion" := VStr desired]> out) original.

(** One iteration; the error is the failure, the label and the metrics recorded. *)
Definition convert_object (target : string) (entry : CompiledEntry) (rt : Router) (rq : ConversionRequest)
    (p : progress) (raw : string) : progress + (review_failure * string * string * list metric) :=
  let to := versionOf (rqDesiredAPIVersion rq) in
  match unmarshal_object raw with
  | Err _ => inr (FailDecode, "bad_request", dtLabel (pgTracker p), pgMetrics p)
  | Ok o =>
    let from := versionOf (stringField o "apiVersion") in
    let dir := from +:+ "->" +:+ to in
    let tracker := tracker_add (pgTracker p) dir in
    let route := routeLabel (rtHub rt) from to in
    match Router_Convert rt o from to with
    | Err e => inr (FailConvert from to e, "error", dtLabel tracker,
                    pgMetrics p ++ if metrics then [ObjectObserved target from to route dir "error"] else [])
    | Ok out =>
      match json_Marshal (VObj (finish (rqDesiredAPIVersion rq) out o)) with
      | None => inr (FailMarshal, "error", dtLabel tracker, pgMetrics p)
      | Some b =>
        inl {| pgConverted := pgConverted p ++ [b]; pgHops := pgHops p ++ hops_of route from to;
               pgTracker := tracker;
               pgMetrics := pgMetrics p ++ if metrics then [ObjectObserved target from to route dir "success"] else [] |}
      end
    end
  end.

(** The loop; [expired i] is what the [i]-th [ctx.Err] says. *)
Fixpoint convert_objects (expired : nat → bool) (i : nat) (target : string) (entry : CompiledEntry) (rt : Router)
    (rq : ConversionRequest) (p : progress) (raws : list string)
    : progress + (review_failure * string * string * list metric) :=
  if expired i then
    inr (match raws with [] => FailTimeoutAtEnd | _ => FailTimeout (length (pgConverted p)) (length (rqObjects rq)) end,
         "timeout", dtLabel (pgTracker p), pgMetrics p)
  else
    match raws with
    | [] => inl p
    | raw :: raws =>
      match convert_object target entry rt rq p raw with
      | inl p => convert_objects expired (S i) target entry rt rq p raws
      | inr e => inr e
      end
    end.

(** A review for a registered target. *)
Definition convert_review (expired : nat → bool) (target : string) (entry : CompiledEntry) (rt : Router)
    (rq : ConversionRequest) : response * list metric :=
  let start := {| pgConverted := []; pgHops := []; pgTracker := new_tracker;
                  pgMetrics := if metrics then [BatchSize target (length (rqObjects rq))] else [] |} in
  match convert_objects expired 0 target entry rt rq start (rqObjects rq) with
  | inr (failure, result, label, ms) =>
      (writeReview (rqUID rq) [] (Some failure), ms ++ observe target label result)
  | inl p =>
      (writeReview (rqUID rq) (pgConverted p) None,
       pgMetrics p ++ (if metrics then concat (recordLossy entry target <$> pgHops p) else []) ++
       observe target (dtLabel (pgTracker p)) "success")
  end.

Definition handleConvert (reg : registry) (expired : nat → bool) (r : http_request) : response * list metric :=
  let target := trim_prefix (hrPath r) "/convert/" in
  if negb (hrPost r) then (HTTPError 405, [])
  else match hrBody r with
  | BodyTooLarge limit prefix =>
      (writeReview (sniffRequestUID prefix) [] (Some (FailTooLarge limit)), observe target "unknown" "too_large")
  | BodyInvalid _ => (HTTPError 400, observe target "unknown" "bad_request")
  | BodyReview None => (HTTPError 400, observe target "unknown" "bad_request")
  | BodyReview (Some rq) =>
    match Get reg target with
    | Some entry =>
      match ceRouter entry with
      | Some rt => convert_review expired target entry rt rq
      | None => (writeReview (rqUID rq) [] (Some (FailNotRegistered target)), observe target "unknown" "not_registered")
      end
    | None => (writeReview (rqUID rq) [] (Some (FailNotRegistered target)), observe target "unknown" "not_registered")
    end
  end.

(** [SetReady] and [handleReadyz]. *)
Definition handleReadyz (ready : bool) : Z := if ready then 200 else 503.
End server.
