(* ===== verification/Admission.v ===== *)
(** The operator's admission webhooks (internal/webhook): what a config and a
    webhook server must satisfy to be created or changed, and when a server may be
    deleted.

    The answers of the API server to the handlers' reads are inputs.  Error and
    warning texts are data. *)
From S2P Require Import Prelude Float64 Value Json Path Schema Duration Rules Coerce Passthrough Ops Convert Diagnostics Compile Normalize Platform Required Analyze Assign Api Configs Adapters Registry Replica Rollout.

(** ** The structure of a config (xrdconversionconfig_webhook.go) *)

Inductive structure_error :=
| BadUnmappedReason
| BadNoSpokes
| BadSpokeIsHub (version : string)
| BadDuplicateSpoke (version : string)
| BadSpoke (version : string) (e : structure_error)
| BadRule (i : nat) (e : structure_error)
| BadParamsCount (s : Strategy) (found : nat)
| BadNoBranches
| BadBranchUnnamed (i : nat)
| BadBranchTwice (hubBranch : string)
| BadBranch (i : nat) (hubBranch : string) (e : structure_error)
| BadDepth (max : nat)
| BadForEach (e : structure_error)
| BadWhenPath
| BadCELLossless
| BadFromLabelJSON
| BadLabelKey (s : Strategy) (key : string) (msgs : list string).

Definition validateUnmappedFieldReason (policy : UnmappedFieldPolicy) (reason : string) : res structure_error () :=
  if bool_decide (policy = UnmappedFieldPolicyWarn) && bool_decide (TrimSpace reason = "")
  then Err BadUnmappedReason else Ok ().

(** [x != nil] as a number. *)
Definition is_set {A} (o : option A) : nat := match o with Some _ => 1 | None => 0 end.

Definition params_set (r : ConversionRule) : nat :=
  is_set (crFieldRename r) + is_set (crScalarToObject r) + is_set (crObjectToScalar r) +
  is_set (crSingletonArrayToObject r) + is_set (crObjectToSingletonArray r) + is_set (crFieldsToMap r) +
  is_set (crMapToFields r) + is_set (crToAnnotation r) + is_set (crToLabel r) + is_set (crFromAnnotation r) +
  is_set (crFromLabel r) + is_set (crEnumRemap r) + is_set (crDefaultValue r) + is_set (crConstant r) +
  is_set (crDelete r) + is_set (crJSONPatch r) + is_set (crForEach r) + is_set (crTypeCoerce r) +
  is_set (crScalarToFields r) + is_set (crFieldsToScalar r) + is_set (crArrayToMapByKey r) +
  is_set (crMapToArrayByKey r) + is_set (crNumericScale r) + is_set (crListJoin r) + is_set (crListSplit r) +
  is_set (crQuantity r) + is_set (crDuration r) + is_set (crMapKeyRename r) + is_set (crCEL r) +
  is_set (crBranchMap r).

Definition guard {E} (b : bool) (e : E) : res E () := if b then Err e else Ok ().

Section structure.
Context `{EX : Externs}.

Definition label_key_check (s : Strategy) (key : string) : res structure_error () :=
  match IsQualifiedName key with [] => Ok () | msgs => Err (BadLabelKey s key msgs) end.

(** What [validateOneRule] checks after the nested rules. *)
Definition validate_tail (r : ConversionRule) : res structure_error () :=
  _ ← guard (match crWhen r with Some w => bool_decide (TrimSpace (awhPath w) = "") | None => false end) BadWhenPath;
  _ ← guard (bool_decide (crStrategy r = StrategyCEL) && negb (crAcknowledgeLossy r)) BadCELLossless;
  _ ← guard (bool_decide (crStrategy r = StrategyFromLabel) &&
             match crFromLabel r with Some p => bool_decide (aflSerialization p = "JSON") | None => false end)
            BadFromLabelJSON;
  _ ← match crToLabel r with Some p => label_key_check StrategyToLabel (atmKey p) | None => Ok () end;
  match crFromLabel r with Some p => label_key_check StrategyFromLabel (aflKey p) | None => Ok () end.

(** [validateRules], given what [validateOneRule] answers. *)
Section rules_loop.
Context (one : ConversionRule → res structure_error ()).

Fixpoint rules_loop (i : nat) (rules : list ConversionRule) : res structure_error () :=
  match rules with
  | [] => Ok ()
  | r :: rules => _ ← res_wrap (BadRule i) (one r); rules_loop (S i) rules
  end.
End rules_loop.

(** The loop over branches; [nested b] validates a branch's rules. *)
Section branches_loop.
Context (nested : BranchMapping → res structure_error ()).

Fixpoint branches_loop (i : nat) (seenHub : gset string) (bs : list BranchMapping) : res structure_error () :=
  match bs with
  | [] => Ok ()
  | b :: bs =>
    if bool_decide (TrimSpace (abrHubBranch b) = "") || bool_decide (TrimSpace (abrSpokeBranch b) = "")
    then Err (BadBranchUnnamed i)
    else if bool_decide (abrHubBranch b ∈ seenHub) then Err (BadBranchTwice (abrHubBranch b))
    else
      _ ← res_wrap (BadBranch i (abrHubBranch b)) (nested b);
      branches_loop (S i) ({[abrHubBranch b]} ∪ seenHub) bs
  end.
End branches_loop.

Fixpoint validateOneRule (depth : nat) (r : ConversionRule) : res structure_error () :=
  _ ← guard (negb (params_set r =? 1)) (BadParamsCount (crStrategy r) (params_set r));
  _ ← match crBranchMap r with
      | None => Ok ()
      | Some bm =>
        _ ← guard (length (abmBranches bm) =? 0) BadNoBranches;
        branches_loop (λ b, rules_loop (validateOneRule depth) 0 (abrRules b)) 0 ∅ (abmBranches bm)
      end;
  _ ← match crForEach r with
      | None => Ok ()
      | Some fe =>
        _ ← guard (MaxForEachDepth <=? depth) (BadDepth MaxForEachDepth);
        res_wrap BadForEach (rules_loop (validateOneRule (S depth)) 0 (afeRules fe))
      end;
  validate_tail r.

Definition validateRules (rules : list ConversionRule) (depth : nat) : res structure_error () :=
  rules_loop (validateOneRule depth) 0 rules.

Fixpoint validate_spokes (hubVersion : string) (seen : gset string) (spokes : list SpokeVersionRules)
    : res structure_error () :=
  match spokes with
  | [] => Ok ()
  | s :: spokes =>
    if bool_decide (svVersion s = hubVersion) then Err (BadSpokeIsHub (svVersion s))
    else if bool_decide (svVersion s ∈ seen) then Err (BadDuplicateSpoke (svVersion s))
    else
      _ ← res_wrap (BadSpoke (svVersion s)) (validateRules (svRules s) 0);
      validate_spokes hubVersion ({[svVersion s]} ∪ seen) spokes
  end.
Definition validateSpokesStructure (hubVersion : string) (spokes : list SpokeVersionRules) : res structure_error () :=
  if (length spokes =? 0)%nat then Err BadNoSpokes else validate_spokes hubVersion ∅ spokes.

Definition ValidateStructure (c : XRDConversionConfig) : res structure_error () :=
  _ ← validateUnmappedFieldReason (xsUnmappedFieldPolicy (xcSpec c)) (xsUnmappedFieldReason (xcSpec c));
  validateSpokesStructure (xsHubVersion (xcSpec c)) (xsSpokes (xcSpec c)).
Definition ValidateCRDStructure (c : CRDConversionConfig) : res structure_error () :=
  _ ← validateUnmappedFieldReason (csUnmappedFieldPolicy (kcSpec c)) (csUnmappedFieldReason (kcSpec c));
  validateSpokesStructure (csHubVersion (kcSpec c)) (csSpokes (kcSpec c)).
End structure.

(** ** One config per target (registry_key.go) *)

Inductive key_error :=
| ErrListingConfigs (kind err : string)
| ErrAlreadyTargeted (kind name target : string).

(** One loop: the first other config of the kind that names the target. *)
Definition taken_by {C} (kind : string) (name target : C → string) (targetName skipName skipKind : string)
    (configs : res string (list C)) : res key_error () :=
  match configs with
  | Err e => Err (ErrListingConfigs kind e)
  | Ok configs =>
    match find (λ c, negb (bool_decide (skipKind = kind) && bool_decide (name c = skipName)) &&
                     bool_decide (target c = targetName)) configs with
    | Some c => Err (ErrAlreadyTargeted kind (name c) targetName)
    | None => Ok ()
    end
  end.

Definition validateRegistryKeyAvailable (xrds : res string (list XRDConversionConfig))
    (crds : res string (list CRDConversionConfig)) (targetName skipName skipKind : string) : res key_error () :=
  if bool_decide (targetName = "") then Ok ()
  else
    _ ← taken_by "xrd" (λ c, omName (xcMeta c)) (λ c, xsTargetXRD (xcSpec c)) targetName skipName skipKind xrds;
    taken_by "crd" (λ c, omName (kcMeta c)) (λ c, csTargetCRD (kcSpec c)) targetName skipName skipKind crds.

(** ** Configs (xrdconversionconfig_webhook.go, crdconversionconfig_webhook.go) *)

Inductive warning := WarnNoServer (name : string) | WarnNoTarget (kind target : string).

Inductive admission_error :=
| ErrDisabled (kind : string)
| ErrStructure (e : structure_error)
| ErrKey (e : key_error)
| ErrRules (e : rule_error)
| ErrAnalysis (e : analyze_error)
| ErrInvalid (errors : list (string * Diagnostic)).

(** [summarizeErrors]: the spoke and the diagnostic of each error, in order. *)
Definition summarizeErrors (report : AnalyzeReport) : list (string * Diagnostic) :=
  concat ((λ sr, (λ e, (srVersion sr, e)) <$> srErrors sr) <$> arSpokeReports report).

(** What the handler reads: the two config lists, the referenced server, the target. *)
Record admission_reads (T : Type) := {
  arXRDs : res string (list XRDConversionConfig);
  arCRDs : res string (list CRDConversionConfig);
  arServer : read ConversionWebhookServer;
  arTarget : read T;
}.
Arguments arXRDs {T} a.
Arguments arCRDs {T} a.
Arguments arServer {T} a.
Arguments arTarget {T} a.

Section config.
Context `{RO : RangeOrder} `{EX : Externs} `{CX : CompileExterns} (fuel : nat).

Section kind.
Context `{TK : TargetKind C T} (structure : C → res structure_error ()) (enabled : bool).

Definition analyse_live (cfg : C) (target : T) : res admission_error () :=
  ruleSets ← res_wrap ErrRules (tk_rules cfg);
  report ← res_wrap ErrAnalysis
    (Analyze fuel {| aiSource := tk_source target; aiHubVersion := tk_hub cfg; aiSpokes := ruleSets |});
  guard (HasErrors report) (ErrInvalid (summarizeErrors report)).

Definition validate (cfg : C) (a : admission_reads T) : list warning * res admission_error () :=
  if negb enabled then ([], Err (ErrDisabled tk_name))
  else match structure cfg with
  | Err e => ([], Err (ErrStructure e))
  | Ok _ =>
    match validateRegistryKeyAvailable (arXRDs a) (arCRDs a) (tk_target cfg) (GetName cfg) tk_prefix with
    | Err e => ([], Err (ErrKey e))
    | Ok _ =>
      let warnings := match WebhookServerRefField cfg with
                      | Some name => match arServer a with Found _ => [] | _ => [WarnNoServer name] end
                      | None => []
                      end in
      match arTarget a with
      | Found target => (warnings, analyse_live cfg target)
      | _ => (warnings ++ [WarnNoTarget tk_name (tk_target cfg)], Ok ())
      end
    end
  end.
End kind.

Context `{U : Unstructured} (scope_text : xrdadapter.scope_reason → string)
  (versions_text : xrdadapter.versions_error → string).

Definition validateXRDConfig : bool → XRDConversionConfig → admission_reads obj → list warning * res admission_error () :=
  validate (TK := xrd_kind scope_text versions_text) ValidateStructure.
Definition validateCRDConfig :
    bool → CRDConversionConfig → admission_reads CustomResourceDefinition → list warning * res admission_error () :=
  validate (TK := crd_kind) ValidateCRDStructure.
End config.

(** ** Webhook servers (conversionwebhookserver_webhook.go) *)

(** A ConversionWebhookServer with the fields only admission reads. *)
Record ServerObject := {
  soServer : ConversionWebhookServer;
  soExtraArgs : list string;
  soRollout : option RolloutSpec;
  soAnnotations : gmap string string;
}.

Inductive server_error :=
| ErrExtraArgs (e : args_error)
| ErrRollout (e : rollout_error)
| ErrListServers (err : string)
| ErrListConfigs (kind err : string)
| ErrSecondDefault (other : string)
| ErrDefaultOutsidePool (defaultName : string) (pool : list string)
| ErrStillServing (total : nat) (isDefault : bool) (names : list string).

Definition checkDefault (server : ConversionWebhookServer) (servers : res string (list ConversionWebhookServer))
    : res server_error () :=
  if negb (cwsDefault server) then Ok ()
  else match servers with
  | Err e => Err (ErrListServers e)
  | Ok servers =>
    match find (λ other, negb (bool_decide (cwsName other = cwsName server)) && cwsDefault other) servers with
    | Some other => Err (ErrSecondDefault (cwsName other))
    | None => Ok ()
    end
  end.

(** The fleet as it will be. *)
Definition fleet_with (server : ConversionWebhookServer) (servers : list ConversionWebhookServer)
    : list ConversionWebhookServer :=
  ((λ other, if bool_decide (cwsName other = cwsName server) then server else other) <$> servers) ++
  (if existsb (λ other, bool_decide (cwsName other = cwsName server)) servers then [] else [server]).

Definition checkShardPool (server : ConversionWebhookServer) (servers : res string (list ConversionWebhookServer))
    : res server_error () :=
  match servers with
  | Err e => Err (ErrListServers e)
  | Ok servers =>
    let fleet := fleet_with server servers in
    let pool := ShardPool fleet in
    if bool_decide (pool = []) then Ok ()
    else match find cwsDefault fleet with
    | None => Ok ()
    | Some d =>
      let defaultName := cwsName d in
      if bool_decide (defaultName = "") then Ok ()
      else if existsb (λ s, bool_decide (cwsName s = defaultName)) pool then Ok ()
      else Err (ErrDefaultOutsidePool defaultName (cwsName <$> pool))
    end
  end.

(** [ValidateCreate] and [ValidateUpdate]; each check lists the servers itself. *)
Definition validateServer (server : ServerObject) (servers servers' : res string (list ConversionWebhookServer))
    : res server_error () :=
  _ ← res_wrap ErrExtraArgs (ValidateWebhookServerExtraArgs (soExtraArgs server));
  _ ← res_wrap ErrRollout (ValidateWebhookServerRollout (soRollout server) (soExtraArgs server));
  _ ← checkDefault (soServer server) servers;
  checkShardPool (soServer server) servers'.

Definition AllowForceDeleteAnnotation : string := "conversion.terasky.com/allow-force-delete".

Definition ValidateDelete `{ML : MathLog} (server : ServerObject) (xrds : res string (list XRDConversionConfig))
    (crds : res string (list CRDConversionConfig)) (servers : res string (list ConversionWebhookServer))
    : res server_error () :=
  if bool_decide (default "" (soAnnotations server !! AllowForceDeleteAnnotation) = "true") then Ok ()
  else
    xrds ← res_wrap (ErrListConfigs "XRD") xrds;
    crds ← res_wrap (ErrListConfigs "CRD") crds;
    servers ← res_wrap ErrListServers servers;
    let name := cwsName (soServer server) in
    let dependentXRD := ConfigsServedBy xrds servers name in
    let dependentCRD := ConfigsServedBy crds servers name in
    let total := length dependentXRD + length dependentCRD in
    if (total =? 0)%nat then Ok ()
    else Err (ErrStillServing total (cwsDefault (soServer server))
                (sort_strings ((GetName <$> dependentXRD) ++ (GetName <$> dependentCRD)))).
