(* ===== verification/ServerController.v ===== *)
(** The controller of ConversionWebhookServers
    (internal/controller/conversionwebhookserver_controller.go): the objects it
    applies (Workloads.v), the status it reports, and the deletion it blocks.

    A pass is a function of what its reads and its writes answer. *)
From S2P Require Import Prelude Float64 Value Json Duration Path Schema Rules Diagnostics Compile Normalize Platform Required Analyze Assign Api Configs Adapters Registry Replica ServedTargets Rollout Admission Workloads.
#[local] Open Scope Z_scope.

(** ** The resource *)

Record AssignedConfigRef := { arName : string; arXRDName : string; arPhase : string }.

Record ConversionWebhookServerStatus := {
  wtObservedGeneration : Z;
  wtConditions : list Condition;
  wtReplicas : Z;
  wtReadyReplicas : Z;
  wtEndpoint : string;
  wtAssignedConfigs : list AssignedConfigRef;
  wtServedTargets : list string;
  wtReportingReplicas : Z;
}.

Record WebhookServer := {
  wrMeta : ObjectMeta;
  wrUID : string;
  wrSpec : ConversionWebhookServerSpec;
  wrStatus : ConversionWebhookServerStatus;
}.

(** The same server, as the assignment sees it. *)
Definition fleet_member (s : WebhookServer) : ConversionWebhookServer := {|
  cwsName := omName (wrMeta s); cwsDefault := wsDefault (wrSpec s); cwsSharding := wsSharding (wrSpec s) |}.

Definition CWSConditionAvailable : string := "Available".
Definition CWSConditionCertificateReady : string := "CertificateReady".
Definition CWSConditionServiceReady : string := "ServiceReady".
Definition CWSConditionDeletionBlocked : string := "DeletionBlocked".
Definition CWSConditionDefaultConflict : string := "DefaultConflict".
Definition ConversionWebhookServerFinalizer : string := "conversion.terasky.com/protect-in-use".

(** ** What a pass reads and writes *)

Record DeploymentStatus := { dsReplicas : Z; dsReadyReplicas : Z; dsConditions : list (string * string) }.

Inductive server_event :=
| AppliesCertificate (cert : obj)
| AppliesService (s : ServiceApply)
| AppliesDeployment (d : DeploymentApply)
| AppliesHPA (h : HPAApply)
| DeletesHPA (name namespace : string)
| AppliesPDB (p : PDBApply)
| DeletesPDB (name namespace : string)
| PatchesServerStatus (st : ConversionWebhookServerStatus)
| PatchesServerFinalizers (finalizers : list string).

Record server_world := {
  swServer : read WebhookServer;
  swDefaults : res string (list ConversionWebhookServer);        (* listed for the default conflict *)
  swServers : res string (list ConversionWebhookServer);
  swXRDConfigs : res string (list XRDConversionConfig);
  swCRDConfigs : res string (list CRDConversionConfig);
  swDeployment : string → string → read DeploymentStatus;        (* by namespace and name *)
  swService : string → string → read ();
  swSecret : string → string → read (gmap string string);
  swLeases : string → string → res string (list Lease);
  swLeaseClock : Z;
  swAnswer : server_event → option string;                       (* the error of a write *)
  swNow : Z;
}.

Inductive server_pass_error :=
| ErrGettingServer (err : string)
| ErrAddingFinalizer (err : string)
| ErrListingDefaults (err : string)
| ErrReconcilingCertificate (err : string)
| ErrReconcilingService (err : string)
| ErrReconcilingDeployment (e : deployment_error)
| ErrReconcilingHPA (err : string)
| ErrReconcilingPDB (err : string)
| ErrUpdatingServerStatus (err : string)
| ErrPatchingServerStatus (err : string)
| ErrListingDependents (err : string)
| ErrRemovingFinalizer (err : string).

Abbreviation SM := (Handler server_event (res server_pass_error Z)).

(** ** Status *)

Definition reasonFor (b : bool) (trueReason falseReason : string) : string := if b then trueReason else falseReason.

Definition deploymentAvailable (d : DeploymentStatus) : bool :=
  existsb (λ c, bool_decide (c.1 = "Available") && bool_decide (c.2 = "True")) (dsConditions d).

Definition availableCondition (available : bool) (err : option string) : Condition :=
  condition CWSConditionAvailable (boolStatus available) (reasonFor available "DeploymentAvailable" "DeploymentNotAvailable")
    (if available then Text "deployment is Available"
     else match err with Some e => DeploymentLookup e | None => Text "deployment is not yet Available" end).

Definition certMessage (err : option string) (ready : bool) : status_message :=
  match err with
  | Some e => SecretLookup e
  | None => if ready then Text "certificate secret contains a TLS certificate"
            else Text "certificate secret does not yet contain a TLS certificate"
  end.

(** The error of a read. *)
Definition read_error {A} (r : read A) : option string :=
  match r with Found _ => None | NotFound => Some "not found" | Failed e => Some e end.

Section status.
Context `{ML : MathLog} `{CO : ConditionOps} `{GZ : Gzip}.

Definition with_server_conditions (st : ConversionWebhookServerStatus) (l : list Condition) : ConversionWebhookServerStatus := {|
  wtObservedGeneration := wtObservedGeneration st; wtConditions := l; wtReplicas := wtReplicas st;
  wtReadyReplicas := wtReadyReplicas st; wtEndpoint := wtEndpoint st; wtAssignedConfigs := wtAssignedConfigs st;
  wtServedTargets := wtServedTargets st; wtReportingReplicas := wtReportingReplicas st |}.

(** Only flags the conflict. *)
Definition checkDefaultConflict (w : server_world) (s : WebhookServer) : res string ConversionWebhookServerStatus :=
  let st := wrStatus s in
  let cleared := with_server_conditions st (RemoveStatusCondition (wtConditions st) CWSConditionDefaultConflict) in
  if negb (wsDefault (wrSpec s)) then Ok cleared
  else
    all ← swDefaults w;
    let defaults := cwsName <$> filter (λ o, cwsDefault o = true) all in
    Ok (if (1 <? length defaults)%nat
        then with_server_conditions st (SetStatusCondition (swNow w) (wtConditions st)
               (condition CWSConditionDefaultConflict "True" "MultipleDefaults" (SeveralDefaults (sort_strings defaults))))
        else cleared).

Definition xrd_ref (c : XRDConversionConfig) : AssignedConfigRef :=
  {| arName := omName (xcMeta c); arXRDName := xsTargetXRD (xcSpec c); arPhase := stPhase (xcStatus c) |}.
Definition crd_ref (c : CRDConversionConfig) : AssignedConfigRef :=
  {| arName := omName (kcMeta c); arXRDName := csTargetCRD (kcSpec c); arPhase := stPhase (kcStatus c) |}.

(** [sort.Slice] by name; references of one name in either order. *)
Definition ref_le (a b : AssignedConfigRef) : bool := bool_decide (String.le (arName a) (arName b)).

Definition endpoint (server namespace : string) (svc : ServiceSpec) : string :=
  "https://" +:+ cwsServiceName server +:+ "." +:+ namespace +:+ ".svc:" +:+ pretty (service_port svc).

(** The conditions, from what the three reads found. *)
Definition health_conditions (now : Z) (l : list Condition) (dep : read DeploymentStatus) (svc : read ())
    (secret : read (gmap string string)) : list Condition :=
  let available := match dep with Found d => deploymentAvailable d | _ => false end in
  let l := SetStatusCondition now l (availableCondition available (read_error dep)) in
  let svcOK := match svc with Found _ => true | _ => false end in
  let l := SetStatusCondition now l (condition CWSConditionServiceReady (boolStatus svcOK)
             (reasonFor svcOK "ServiceReady" "ServiceMissing") (ServiceLookup (read_error svc))) in
  let certReady := match secret with Found data => bool_decide (default "" (data !! "tls.crt") ≠ "") | _ => false end in
  SetStatusCondition now l (condition CWSConditionCertificateReady (boolStatus certReady)
    (reasonFor certReady "CertificateReady" "CertificateNotReady") (certMessage (read_error secret) certReady)).

Definition updateStatus (w : server_world) (s : WebhookServer) (st : ConversionWebhookServerStatus) (namespace : string)
    : res string ConversionWebhookServerStatus :=
  let name := omName (wrMeta s) in
  let dep := swDeployment w namespace (cwsDeploymentName name) in
  let svc := swService w namespace (cwsServiceName name) in
  let secret := swSecret w namespace (cwsCertificateSecretName name) in
  xrdConfigs ← swXRDConfigs w;
  crdConfigs ← swCRDConfigs w;
  allServers ← swServers w;
  '(served, reporting, truncated) ← readServedTargets (swLeases w namespace name) (swLeaseClock w);
  Ok {|
    wtObservedGeneration := omGeneration (wrMeta s);
    wtConditions := health_conditions (swNow w) (wtConditions st) dep svc secret;
    wtReplicas := match dep with Found d => dsReplicas d | _ => wtReplicas st end;
    wtReadyReplicas := match dep with Found d => dsReadyReplicas d | _ => wtReadyReplicas st end;
    wtEndpoint := match svc with Found _ => endpoint name namespace (wsService (wrSpec s)) | _ => wtEndpoint st end;
    wtAssignedConfigs := sort_by ref_le
      ((xrd_ref <$> ConfigsAssignedTo xrdConfigs allServers name) ++ (crd_ref <$> ConfigsAssignedTo crdConfigs allServers name));
    wtServedTargets := if truncated : bool then [] else served;
    wtReportingReplicas := reporting |}.
End status.

(** ** The pass *)

Section pass.
Context `{ML : MathLog} `{CO : ConditionOps} `{GZ : Gzip} `{AT : ApplyTypes}.
Context (rc : ReconcilerOptions) (w : server_world).

Definition server_namespace (s : WebhookServer) : string :=
  if bool_decide (wsNamespace (wrSpec s) = "") then rcDefaultNamespace rc else wsNamespace (wrSpec s).

(** A write, and its error wrapped. *)
Definition write (e : server_event) (wrap : string → server_pass_error) : SM () :=
  _ ← emit_one e; fail_with (swAnswer w e) wrap.

Definition reconcileCertificate (s : WebhookServer) (namespace : string) : SM () :=
  let name := omName (wrMeta s) in
  match SetControllerReference name (wrUID s) (certificate name namespace (wsCertificate (wrSpec s))) with
  | Err e => exit (Err (ErrReconcilingCertificate e))
  | Ok cert => write (AppliesCertificate cert) ErrReconcilingCertificate
  end.
Definition reconcileService (s : WebhookServer) (namespace : string) : SM () :=
  write (AppliesService (service (omName (wrMeta s)) (wrUID s) namespace (wsService (wrSpec s)))) ErrReconcilingService.
Definition reconcileDeployment (s : WebhookServer) (namespace : string) : SM () :=
  match deployment rc (omName (wrMeta s)) (wrUID s) namespace (wrSpec s) with
  | Err e => exit (Err (ErrReconcilingDeployment e))
  | Ok d => write (AppliesDeployment d) (λ e, ErrReconcilingDeployment (ErrApplyingDeployment e))
  end.

(** A deletion of what is not there is answered without an error. *)
Definition hpa_write (s : WebhookServer) (namespace : string) : server_event :=
  let name := omName (wrMeta s) in
  match wsAutoscaling (wrSpec s) with
  | None => DeletesHPA (cwsHPAName name) namespace
  | Some a => AppliesHPA (hpa name (wrUID s) namespace a)
  end.
Definition reconcileHPA (s : WebhookServer) (namespace : string) : SM () :=
  write (hpa_write s namespace) ErrReconcilingHPA.
Definition pdb_write (s : WebhookServer) (namespace : string) : server_event :=
  let name := omName (wrMeta s) in
  match wsPodDisruptionBudget (wrSpec s) with
  | None => DeletesPDB (cwsPDBName name) namespace
  | Some p => AppliesPDB (pdb name (wrUID s) namespace p)
  end.
Definition reconcilePDB (s : WebhookServer) (namespace : string) : SM () :=
  write (pdb_write s namespace) ErrReconcilingPDB.

(** The error of a read, wrapped and returned. *)
Definition or_fail {A} (r : res string A) (wrap : string → server_pass_error) : SM A :=
  match r with Ok a => mret a | Err e => exit (Err (wrap e)) end.

Definition reconcileServer (s : WebhookServer) : SM Z :=
  let namespace := server_namespace s in
  st ← or_fail (checkDefaultConflict w s) ErrListingDefaults;
  _ ← reconcileCertificate s namespace;
  _ ← reconcileService s namespace;
  _ ← reconcileDeployment s namespace;
  _ ← reconcileHPA s namespace;
  _ ← reconcilePDB s namespace;
  st ← or_fail (updateStatus w s st namespace) ErrUpdatingServerStatus;
  _ ← write (PatchesServerStatus st) ErrPatchingServerStatus;
  mret (5 * Minute).

Definition patch_finalizers (before after : list string) (wrap : string → server_pass_error) : SM () :=
  if bool_decide (before = after) then mret () else write (PatchesServerFinalizers after) wrap.
Definition add_server_finalizer (s : WebhookServer) : SM () :=
  let fs := omFinalizers (wrMeta s) in
  patch_finalizers fs (if bool_decide (ConversionWebhookServerFinalizer ∈ fs) then fs
                       else fs ++ [ConversionWebhookServerFinalizer]) ErrAddingFinalizer.
Definition remove_server_finalizer (s : WebhookServer) : SM () :=
  let fs := omFinalizers (wrMeta s) in
  patch_finalizers fs (filter (λ f, f ≠ ConversionWebhookServerFinalizer) fs) ErrRemovingFinalizer.

(** The names of the configs that still need the server. *)
Definition dependents (s : WebhookServer) : SM (list string) :=
  xrds ← or_fail (swXRDConfigs w) ErrListingDependents;
  crds ← or_fail (swCRDConfigs w) ErrListingDependents;
  servers ← or_fail (swServers w) ErrListingDependents;
  let name := omName (wrMeta s) in
  mret ((GetName <$> ConfigsServedBy xrds servers name) ++ (GetName <$> ConfigsServedBy crds servers name)).

Definition deleteServer (s : WebhookServer) : SM Z :=
  let done_ : SM Z := _ ← remove_server_finalizer s; mret 0 in
  if bool_decide (ConversionWebhookServerFinalizer ∉ omFinalizers (wrMeta s)) then mret 0
  else if bool_decide (default "" (omAnnotations (wrMeta s) !! AllowForceDeleteAnnotation) = "true") then done_
  else
    names ← dependents s;
    if (0 <? length names)%nat then
      let st := with_server_conditions (wrStatus s) (SetStatusCondition (swNow w) (wtConditions (wrStatus s))
                  (condition CWSConditionDeletionBlocked "True" "ConfigsStillAssigned"
                     (StillAssigned (length names) (wsDefault (wrSpec s)) (sort_strings names)))) in
      _ ← write (PatchesServerStatus st) ErrPatchingServerStatus;
      mret (30 * Second)
    else done_.

Definition ReconcileServer : list server_event * res server_pass_error Z :=
  match swServer w with
  | NotFound => ([], Ok 0)
  | Failed e => ([], Err (ErrGettingServer e))
  | Found s =>
    ran (if negb (omDeleting (wrMeta s)) then (_ ← add_server_finalizer s; reconcileServer s) else deleteServer s)
  end.
End pass.

(** ** Watches *)

(** The server a replica's Lease belongs to, by the Lease's label. *)
Definition enqueueServerForLease (labels : gmap string string) : list string :=
  match labels !! WebhookServerLabel with
  | None | Some "" => []
  | Some name => [name]
  end.

(** An update counts when what the Lease reports changed; the heartbeat does not. *)
Definition servedTargetsChanged (old updated : gmap string string) : bool :=
  negb (bool_decide (text_at old TargetsAnnotation = text_at updated TargetsAnnotation)) ||
  negb (bool_decide (text_at old TruncatedAnnotation = text_at updated TruncatedAnnotation)).
