(* ===== verification/AdmissionTheory.v ===== *)
(** Lemmas about the admission webhooks (Admission.v): the fleet a server write
    leaves, what the server checks demand, and what well-formed rules are. *)
From S2P Require Import Prelude Float64 Value Json Path Schema Duration Rules Coerce Passthrough Ops Convert Diagnostics Compile Normalize Platform Required Analyze Assign AssignProperties Api Configs Adapters Registry Replica Rollout Admission.

Lemma guard_Ok {E} (b : bool) (e : E) : guard b e = Ok () ↔ b = false.
Proof. by destruct b. Qed.

Lemma find_None {A} (f : A → bool) (l : list A) : find f l = None ↔ ∀ x, x ∈ l → f x = false.
Proof.
  split.
  - intros H x Hx. by apply (find_none _ _ H), list_elem_of_In.
  - intros H. destruct (find f l) as [x|] eqn:E; [|done]. apply find_some in E as [Hx Hf].
    apply list_elem_of_In, H in Hx. congruence.
Qed.

Lemma find_elem {A} (f : A → bool) (l : list A) x : find f l = Some x → x ∈ l ∧ f x = true.
Proof. intros [Hx Hf]%find_some. by apply list_elem_of_In in Hx. Qed.

#[export] Instance existsb_proper {A} (f : A → bool) : Proper ((≡ₚ) ==> (=)) (existsb f).
Proof.
  intros l l' Hp. apply eq_true_iff_eq. rewrite !existsb_exists. setoid_rewrite <- list_elem_of_In. by setoid_rewrite Hp.
Qed.

(** ** Fleets *)

Abbreviation fleet := (list ConversionWebhookServer).

(** Distinct non-empty names, one default at most, in the pool if there is one. *)
Record fleet_ok (f : fleet) : Prop := {
  fleet_names : NoDup (cwsName <$> f);
  fleet_named s : s ∈ f → cwsName s ≠ "";
  fleet_default s t : s ∈ f → t ∈ f → cwsDefault s = true → cwsDefault t = true → s = t;
  fleet_pool s t : s ∈ f → t ∈ f → cwsDefault s = true → ShardingEnabled t = true → ShardingEnabled s = true;
}.

Lemma fleet_ok_nil : fleet_ok [].
Proof. split; [constructor| | |]; by intros ? ?%not_elem_of_nil || intros ? ? ?%not_elem_of_nil. Qed.

Lemma fleet_ok_perm f f' : f ≡ₚ f' → fleet_ok f → fleet_ok f'.
Proof.
  intros Hp [H1 H2 H3 H4]. split; [by rewrite <- Hp|..]; intros *; rewrite <- !Hp; eauto.
Qed.

Lemma fleet_ok_tail s f : fleet_ok (s :: f) → fleet_ok f.
Proof.
  intros [H1 H2 H3 H4]. apply NoDup_cons in H1 as [_ H1].
  split; [done|..]; intros; [eapply H2|eapply H3|eapply H4]; eauto using list_elem_of_further.
Qed.

Lemma elem_of_fleet_with s f t :
  t ∈ fleet_with s f → t = s ∨ t ∈ f ∧ cwsName t ≠ cwsName s.
Proof.
  unfold fleet_with. rewrite elem_of_app, list_elem_of_fmap. intros [(o & -> & Ho)|H].
  - case_bool_decide; auto.
  - destruct (existsb _ f); [by apply not_elem_of_nil in H|]. apply list_elem_of_singleton in H. by left.
Qed.

Lemma names_fleet_with s f :
  cwsName <$> fleet_with s f = (cwsName <$> f) ++ if bool_decide (cwsName s ∈ cwsName <$> f) then [] else [cwsName s].
Proof.
  unfold fleet_with. rewrite fmap_app, <- list_fmap_compose. f_equal.
  - apply list_fmap_ext. intros _ o _. cbn. by case_bool_decide.
  - assert (existsb (λ o, bool_decide (cwsName o = cwsName s)) f = bool_decide (cwsName s ∈ cwsName <$> f)) as ->.
    { apply eq_true_iff_eq. rewrite existsb_exists, bool_decide_eq_true, list_elem_of_fmap.
      setoid_rewrite bool_decide_eq_true. setoid_rewrite <- list_elem_of_In. naive_solver. }
    by case_bool_decide.
Qed.

Lemma NoDup_fleet_with s f : NoDup (cwsName <$> f) → NoDup (cwsName <$> fleet_with s f).
Proof.
  intros Hf. rewrite names_fleet_with. case_bool_decide as H; [by rewrite app_nil_r|].
  apply NoDup_app. split_and!; [done| |apply NoDup_singleton]. by intros x Hx ->%list_elem_of_singleton.
Qed.

Lemma same_name (f : fleet) s t : NoDup (cwsName <$> f) → s ∈ f → t ∈ f → cwsName s = cwsName t → s = t.
Proof.
  induction f as [|u f IH]; [by intros _ ?%not_elem_of_nil|]. intros [Hu Hf]%NoDup_cons.
  intros [->|Hs]%elem_of_cons [->|Ht]%elem_of_cons He; [done| | |by apply IH].
  - destruct Hu. rewrite He. by apply list_elem_of_fmap_2.
  - destruct Hu. rewrite <- He. by apply list_elem_of_fmap_2.
Qed.

(** What an accepted write guarantees, whatever order the servers were listed in. *)
Lemma validateServer_ok server l1 l2 f :
  validateServer server (Ok l1) (Ok l2) = Ok () → l1 ≡ₚ f → l2 ≡ₚ f →
  cwsName (soServer server) ≠ "" → fleet_ok f → fleet_ok (fleet_with (soServer server) f).
Proof.
  set (s := soServer server). unfold validateServer. fold s. intros H H1 H2 Hname Hf.
  apply res_bind_Ok in H as (_ & _ & H). apply res_bind_Ok in H as (_ & _ & H).
  apply res_bind_Ok in H as ([] & Hd & Hs).
  assert (Hone : cwsDefault s = true → ∀ t, t ∈ f → cwsName t ≠ cwsName s → cwsDefault t = false).
  { intros Hds t Ht Hne. unfold checkDefault in Hd. rewrite Hds in Hd. cbn [negb] in Hd.
    destruct (find _ l1) eqn:E; [done|]. rewrite find_None in E. specialize (E t). rewrite H1 in E.
    specialize (E Ht). rewrite bool_decide_false in E by done. done. }
  assert (Hdef : ∀ t u, t ∈ fleet_with s f → u ∈ fleet_with s f → cwsDefault t = true → cwsDefault u = true → t = u).
  { intros t u [->|[Ht Hnt]]%elem_of_fleet_with [->|[Hu Hnu]]%elem_of_fleet_with Hdt Hdu; [done| | |].
    - rewrite (Hone Hdt u) in Hdu by done. done.
    - rewrite (Hone Hdu t) in Hdt by done. done.
    - by apply (fleet_default f Hf). }
  assert (Hperm : ∀ t, t ∈ fleet_with s l2 ↔ t ∈ fleet_with s f).
  { intros t. unfold fleet_with. by rewrite !elem_of_app, H2. }
  split; [apply NoDup_fleet_with, Hf| |done|].
  - intros t [->|[Ht _]]%elem_of_fleet_with; [done|]. by apply (fleet_named f Hf).
  - intros t u Ht Hu Hdt Heu. unfold checkShardPool in Hs.
    rewrite bool_decide_false in Hs.
    2:{ intros He. assert (u ∈ ShardPool (fleet_with s l2)) as Hin by (apply shard_pool_elem; by rewrite Hperm).
        rewrite He in Hin. by apply not_elem_of_nil in Hin. }
    destruct (find cwsDefault (fleet_with s l2)) as [d|] eqn:E.
    2:{ rewrite find_None in E. specialize (E t). rewrite Hperm in E. rewrite (E Ht) in Hdt. done. }
    apply find_elem in E as [Hdin Hdd]. rewrite Hperm in Hdin.
    assert (d = t) as -> by (by apply Hdef).
    assert (cwsName t ≠ "") as Hnt.
    { apply elem_of_fleet_with in Ht as [->|[Ht _]]; [done|]. by apply (fleet_named f Hf). }
    rewrite bool_decide_false in Hs by done. destruct (existsb _ _) eqn:Ee; [|done].
    apply existsb_exists in Ee as (p & Hp & Hpn). apply list_elem_of_In, shard_pool_elem in Hp as [Hen Hp].
    apply bool_decide_eq_true in Hpn. rewrite Hperm in Hp.
    assert (p = t) as ->; [|done]. apply (same_name (fleet_with s f)); [apply NoDup_fleet_with, fleet_names, Hf|done..].
Qed.

(** Removing a server that a config does not resolve to does not move the config. *)
Section removal.
Context `{ML : MathLog} `{CL : ConfigLike T}.

Lemma pick_shard_removal s pool key n :
  n ≠ "" → n ≠ cwsName s → PickShard (s :: pool) key = n → pool ≠ [] ∧ PickShard pool key = n.
Proof.
  intros Hn Hne He. destruct (pick_shard_cons s pool key) as [H|H]; [|congruence].
  split; [|congruence]. intros ->. rewrite H in He. by cbn in He.
Qed.

Lemma resolve_removal (cfg : T) s servers n :
  n ≠ "" → n ≠ cwsName s → ResolveAssignment cfg (s :: servers) = Ok n → ResolveAssignment cfg servers = Ok n.
Proof.
  intros Hn Hne. unfold ResolveAssignment. fold (pinned cfg). destruct (pinned cfg) as [name|].
  - destruct (has_server (s :: servers) name) eqn:E; [|done]. intros [= ->].
    apply has_server_elem in E. cbn in E. apply elem_of_cons in E as [->|E]; [done|].
    apply has_server_elem in E. by rewrite E.
  - pose proof (shard_pool_cons s servers) as Hc. destruct (ShardingEnabled s) eqn:Es.
    + rewrite bool_decide_true by (intros He; rewrite He in Hc; by apply Permutation_nil_l in Hc).
      intros [= Hp]. rewrite (pick_shard_permutation _ _ _ Hc) in Hp.
      apply pick_shard_removal in Hp as [Hpool ->]; [|done|done]. by rewrite bool_decide_true.
    + destruct (decide (ShardPool servers = [])) as [He|He].
      * rewrite He in Hc. apply Permutation_nil_r in Hc. rewrite Hc, He, !bool_decide_false by (intros Hx; by apply Hx).
        unfold default_names. rewrite filter_cons. destruct (decide (cwsDefault s = true)); [|done].
        cbn. destruct (cwsName <$> filter _ servers) as [|? ?]; [intros [= Hx]; congruence|done].
      * rewrite !bool_decide_true; [|done|].
        { by rewrite (pick_shard_permutation _ _ _ Hc). }
        intros Hx. rewrite Hx in Hc. by apply Permutation_nil_l in Hc.
Qed.
End removal.

(** ** Well-formed rules *)

Definition subrules (r : ConversionRule) : list ConversionRule :=
  match crForEach r with Some fe => afeRules fe | None => [] end ++
  match crBranchMap r with Some bm => concat (abrRules <$> abmBranches bm) | None => [] end.

Lemma conversion_rule_ind' (P : ConversionRule → Prop) :
  (∀ r, Forall P (subrules r) → P r) → ∀ r, P r.
Proof.
  intros H. fix IH 1. intros r. apply H. unfold subrules. apply Forall_app. destruct r; cbn. split.
  - match goal with |- Forall _ (match ?x with _ => _ end) => destruct x as [[h s rules]|] end; cbn; [|constructor].
    induction rules as [|r rules IHr]; constructor; [apply IH|apply IHr].
  - match goal with |- Forall _ (match ?x with _ => _ end) => destruct x as [[h s d bs]|] end; cbn; [|constructor].
    induction bs as [|[h' s' hd' sd' rules] bs IHb]; cbn; [constructor|]. apply Forall_app. split; [|apply IHb].
    clear IHb. induction rules as [|r rules IHr]; constructor; [apply IH|apply IHr].
Qed.

Section well_formed.
Context `{EX : Externs}.

Definition named_branch (b : BranchMapping) : Prop :=
  TrimSpace (abrHubBranch b) ≠ "" ∧ TrimSpace (abrSpokeBranch b) ≠ "".

Definition tail_ok (r : ConversionRule) : Prop :=
  (∀ w, crWhen r = Some w → TrimSpace (awhPath w) ≠ "") ∧
  (crStrategy r = StrategyCEL → crAcknowledgeLossy r = true) ∧
  (∀ p, crStrategy r = StrategyFromLabel → crFromLabel r = Some p → aflSerialization p ≠ "JSON") ∧
  (∀ p, crToLabel r = Some p → IsQualifiedName (atmKey p) = []) ∧
  (∀ p, crFromLabel r = Some p → IsQualifiedName (aflKey p) = []).

(** What the structural check demands of a rule under [depth] ForEach rules. *)
Inductive well_formed : nat → ConversionRule → Prop :=
| rule_well_formed depth r :
    params_set r = 1%nat →
    (∀ bm, crBranchMap r = Some bm →
       abmBranches bm ≠ [] ∧ NoDup (abrHubBranch <$> abmBranches bm) ∧
       Forall (λ b, named_branch b ∧ Forall (well_formed depth) (abrRules b)) (abmBranches bm)) →
    (∀ fe, crForEach r = Some fe →
       (depth < MaxForEachDepth)%nat ∧ Forall (well_formed (S depth)) (afeRules fe)) →
    tail_ok r →
    well_formed depth r.

Lemma res_seq_Ok {E B} (m : res E ()) (k : res E B) b : (m ≫= λ _, k) = Ok b ↔ m = Ok () ∧ k = Ok b.
Proof. rewrite res_bind_Ok. split; [intros ([] & ? & ?); done|intros []; by exists ()]. Qed.

Lemma label_key_check_Ok s k : label_key_check s k = Ok () ↔ IsQualifiedName k = [].
Proof. unfold label_key_check. by destruct (IsQualifiedName k). Qed.

(** A check made only where the pointer is set. *)
Lemma check_set {A} (o : option A) (m : A → res structure_error ()) (P : A → Prop) :
  (∀ a, m a = Ok () ↔ P a) → match o with Some a => m a | None => Ok () end = Ok () ↔ ∀ a, o = Some a → P a.
Proof. intros H. destruct o as [a|]; [rewrite H|]; naive_solver. Qed.

Lemma validate_tail_Ok r : validate_tail r = Ok () ↔ tail_ok r.
Proof.
  unfold validate_tail, tail_ok. rewrite !res_seq_Ok, !guard_Ok.
  rewrite (check_set (crToLabel r) _ (λ p, IsQualifiedName (atmKey p) = [])) by (intros; apply label_key_check_Ok).
  rewrite (check_set (crFromLabel r) _ (λ p, IsQualifiedName (aflKey p) = [])) by (intros; apply label_key_check_Ok).
  rewrite !andb_false_iff, !bool_decide_eq_false, negb_false_iff.
  assert (match crWhen r with Some w => bool_decide (TrimSpace (awhPath w) = "") | None => false end = false ↔
          ∀ w, crWhen r = Some w → TrimSpace (awhPath w) ≠ "") as ->.
  { destruct (crWhen r) as [w|]; [rewrite bool_decide_eq_false|]; naive_solver. }
  assert (match crFromLabel r with Some p => bool_decide (aflSerialization p = "JSON") | None => false end = false ↔
          ∀ p, crFromLabel r = Some p → aflSerialization p ≠ "JSON") as ->.
  { destruct (crFromLabel r) as [p|]; [rewrite bool_decide_eq_false|]; naive_solver. }
  destruct (decide (crStrategy r = StrategyCEL)), (decide (crStrategy r = StrategyFromLabel)); naive_solver.
Qed.

Lemma rules_loop_Ok one i rules : rules_loop one i rules = Ok () ↔ Forall (λ r, one r = Ok ()) rules.
Proof.
  revert i; induction rules as [|r rules IH]; intros i; cbn [rules_loop]; [split; [by constructor|done]|].
  by rewrite res_seq_Ok, res_wrap_Ok, IH, Forall_cons.
Qed.

Lemma branches_loop_Ok nested i seen bs :
  branches_loop nested i seen bs = Ok () ↔
  NoDup (abrHubBranch <$> bs) ∧ (∀ b, b ∈ bs → abrHubBranch b ∉ seen) ∧
  Forall (λ b, named_branch b ∧ nested b = Ok ()) bs.
Proof.
  revert i seen; induction bs as [|b bs IH]; intros i seen; cbn [branches_loop fmap list_fmap].
  { split; [|done]. intros _. split_and!; [constructor| |constructor]. by intros ? ?%not_elem_of_nil. }
  rewrite NoDup_cons, Forall_cons. unfold named_branch at 1.
  destruct (_ || _) eqn:En.
  { split; [done|]. intros (_ & _ & [[[? ?] _] _]). apply orb_true_iff in En as [?%bool_decide_eq_true|?%bool_decide_eq_true]; done. }
  apply orb_false_iff in En as [H1%bool_decide_eq_false H2%bool_decide_eq_false].
  case_bool_decide as Hs.
  { split; [done|]. intros (_ & Hseen & _). destruct (Hseen b); [by left|done]. }
  rewrite res_seq_Ok, res_wrap_Ok, IH. setoid_rewrite elem_of_cons. split.
  - intros (Hn & Hnd & Hseen & Hall). split_and!; [|done| |done..|done].
    + rewrite list_elem_of_fmap. intros (c & Hc & Hin). apply (Hseen c Hin). set_solver.
    + intros c [->|Hc]; [done|]. specialize (Hseen c Hc). set_solver.
  - intros ((Hb & Hnd) & Hseen & (_ & Hn) & Hall). split_and!; [done|done| |done].
    intros c Hc. apply not_elem_of_union. split; [|by apply Hseen; right].
    intros He%elem_of_singleton. apply Hb. rewrite <- He. by apply list_elem_of_fmap_2.
Qed.

Lemma validateOneRule_eq depth r :
  validateOneRule depth r =
  _ ← guard (negb (params_set r =? 1)%nat) (BadParamsCount (crStrategy r) (params_set r));
  _ ← match crBranchMap r with
      | None => Ok ()
      | Some bm =>
        _ ← guard (length (abmBranches bm) =? 0)%nat BadNoBranches;
        branches_loop (λ b, rules_loop (validateOneRule depth) 0 (abrRules b)) 0 ∅ (abmBranches bm)
      end;
  _ ← match crForEach r with
      | None => Ok ()
      | Some fe =>
        _ ← guard (MaxForEachDepth <=? depth)%nat (BadDepth MaxForEachDepth);
        res_wrap BadForEach (rules_loop (validateOneRule (S depth)) 0 (afeRules fe))
      end;
  validate_tail r.
Proof. by destruct r. Qed.

Lemma validateOneRule_Ok r depth : validateOneRule depth r = Ok () ↔ well_formed depth r.
Proof.
  revert depth. induction r as [r IH] using conversion_rule_ind'. intros depth.
  assert (Hsub : ∀ q, q ∈ subrules r → ∀ d, validateOneRule d q = Ok () ↔ well_formed d q)
    by (by rewrite Forall_forall in IH). clear IH.
  assert (Heq : validateOneRule depth r = Ok () ↔
    params_set r = 1%nat ∧
    (∀ bm, crBranchMap r = Some bm → abmBranches bm ≠ [] ∧ NoDup (abrHubBranch <$> abmBranches bm) ∧
       Forall (λ b, named_branch b ∧ Forall (λ q, validateOneRule depth q = Ok ()) (abrRules b)) (abmBranches bm)) ∧
    (∀ fe, crForEach r = Some fe → (depth < MaxForEachDepth)%nat ∧
       Forall (λ q, validateOneRule (S depth) q = Ok ()) (afeRules fe)) ∧ tail_ok r).
  { rewrite validateOneRule_eq, !res_seq_Ok, guard_Ok, negb_false_iff, Nat.eqb_eq, validate_tail_Ok.
    f_equiv. f_equiv; [|f_equiv].
    - destruct (crBranchMap r) as [bm|];
        [|split; [intros _ ? [=]|done]].
      rewrite res_seq_Ok, guard_Ok, Nat.eqb_neq, branches_loop_Ok. setoid_rewrite rules_loop_Ok. split.
      + intros (Hl & Hnd & _ & Hall) ? [= <-]. split_and!; [by intros He; rewrite He in Hl|done|done].
      + intros H. destruct (H bm eq_refl) as (Hne & Hnd & Hall). split_and!; [by destruct (abmBranches bm)|done|set_solver|done].
    - destruct (crForEach r) as [fe|];
        [|split; [intros _ ? [=]|done]].
      rewrite res_seq_Ok, guard_Ok, Nat.leb_gt, res_wrap_Ok, rules_loop_Ok. split.
      + by intros H ? [= <-].
      + intros H. by apply H. }
  assert (Hfe : ∀ fe, crForEach r = Some fe → Forall (λ q, validateOneRule (S depth) q = Ok ()) (afeRules fe) ↔
                                              Forall (well_formed (S depth)) (afeRules fe)).
  { intros fe Hfe. rewrite !Forall_forall. split; intros H q Hq; apply Hsub, H; try done;
      unfold subrules; rewrite Hfe; by apply elem_of_app; left. }
  assert (Hbm : ∀ bm b, crBranchMap r = Some bm → b ∈ abmBranches bm →
     Forall (λ q, validateOneRule depth q = Ok ()) (abrRules b) ↔ Forall (well_formed depth) (abrRules b)).
  { intros bm b Hbm Hb. rewrite !Forall_forall.
    assert (∀ q, q ∈ abrRules b → q ∈ subrules r) as Hin.
    { intros q Hq. unfold subrules. rewrite Hbm. apply elem_of_app. right. apply list_elem_of_In, in_concat.
      exists (abrRules b). rewrite <- !list_elem_of_In. by split; [apply list_elem_of_fmap_2|]. }
    split; intros H q Hq; apply Hsub, H; auto. }
  rewrite Heq. split.
  - intros (Hp & Hb & Hf & Ht). constructor; [done| | |done].
    + intros bm Ebm. destruct (Hb bm Ebm) as (Hne & Hnd & Hall). split_and!; [done|done|].
      rewrite Forall_forall in Hall |- *. intros b Hin. destruct (Hall b Hin). split; [done|]. by apply (Hbm bm b).
    + intros fe Efe. destruct (Hf fe Efe). split; [done|]. by apply Hfe.
  - inversion 1 as [? ? Hp Hb Hf Ht]; subst. split_and!; [done| | |done].
    + intros bm Ebm. destruct (Hb bm Ebm) as (Hne & Hnd & Hall). split_and!; [done|done|].
      rewrite Forall_forall in Hall |- *. intros b Hin. destruct (Hall b Hin). split; [done|]. by apply (Hbm bm b).
    + intros fe Efe. destruct (Hf fe Efe). split; [done|]. by apply Hfe.
Qed.

Lemma validate_spokes_Ok hub seen spokes :
  validate_spokes hub seen spokes = Ok () ↔
  NoDup (svVersion <$> spokes) ∧ (∀ s, s ∈ spokes → svVersion s ≠ hub ∧ svVersion s ∉ seen) ∧
  Forall (λ s, Forall (well_formed 0) (svRules s)) spokes.
Proof.
  revert seen; induction spokes as [|s spokes IH]; intros seen; cbn [validate_spokes fmap list_fmap].
  { split; [|done]. intros _. split_and!; [constructor| |constructor]. by intros ? ?%not_elem_of_nil. }
  rewrite NoDup_cons, Forall_cons. case_bool_decide as Hh.
  { split; [done|]. intros (_ & H & _). by destruct (H s ltac:(by left)). }
  case_bool_decide as Hs.
  { split; [done|]. intros (_ & H & _). by destruct (H s ltac:(by left)). }
  rewrite res_seq_Ok, res_wrap_Ok, IH. unfold validateRules. rewrite rules_loop_Ok. setoid_rewrite validateOneRule_Ok.
  setoid_rewrite elem_of_cons. split.
  - intros (Hr & Hnd & Hseen & Hall). split_and!; [|done| |done..].
    + rewrite list_elem_of_fmap. intros (c & Hc & Hin). apply (Hseen c Hin). set_solver.
    + intros c [->|Hc]; [done|]. specialize (Hseen c Hc). set_solver.
  - intros ((Hb & Hnd) & Hseen & Hr & Hall). split_and!; [done|done| |done].
    intros c Hc. split; [by apply Hseen; right|]. apply not_elem_of_union. split; [|by apply Hseen; right].
    intros He%elem_of_singleton. apply Hb. rewrite <- He. by apply list_elem_of_fmap_2.
Qed.
End well_formed.
