(* ===== verification/Fanout.v ===== *)
(** Which configs are reconciled when a server changes
    (internal/webhookserver/reconciler.go, internal/controller/cws_fanout.go) and
    how their requests are queued (internal/enqueue/paced.go).

    A request is the config's name; configs are cluster-scoped, so namespaces are
    empty.  The functions are the same for both config kinds: [T] is either.

    The last part shows what the fan-out enqueues: each config a change of the servers
    moves, from either side. *)
From S2P Require Import Prelude Float64 Assign AssignProperties Configs.

(** [ConversionWebhookServer] with [Default] cleared. *)
Definition clear_default (s : ConversionWebhookServer) : ConversionWebhookServer :=
  {| cwsName := cwsName s; cwsDefault := false; cwsSharding := cwsSharding s |}.

Definition serversWithView (live : list ConversionWebhookServer) (view : ConversionWebhookServer)
    : list ConversionWebhookServer :=
  ((λ s, if bool_decide (cwsName s = cwsName view) then view
         else if cwsDefault view then clear_default s else s) <$> live) ++
  (if existsb (λ s, bool_decide (cwsName s = cwsName view)) live then [] else [view]).

(** Keep the first of each name: the [seen] map of the loops. *)
Fixpoint first_names (seen : gset string) (names : list string) : list string :=
  match names with
  | [] => []
  | n :: names => if bool_decide (n ∈ seen) then first_names seen names
                  else n :: first_names ({[n]} ∪ seen) names
  end.

Section fanout.
Context `{ML : MathLog} `{CL : ConfigLike T}.

(** [mapAssignedXRD] and [mapAssignedCRD]; a nil view is skipped. *)
Definition mapAssigned (configs : list T) (servers : list ConversionWebhookServer) (serverName : string)
    (views : list (option ConversionWebhookServer)) : list string :=
  first_names ∅ (concat ((λ view,
    match view with
    | None => []
    | Some view => GetName <$> ConfigsAssignedTo configs (serversWithView servers view) serverName
    end) <$> views)).

Definition objectName (oldObj newObj : option ConversionWebhookServer) : string :=
  match newObj, oldObj with
  | Some s, _ => cwsName s
  | None, Some s => cwsName s
  | None, None => ""
  end.

(** The handlers: [List] may fail, and then nothing is enqueued. *)
Definition mapServerToAssigned (configs : res string (list T)) (servers : res string (list ConversionWebhookServer))
    (s : ConversionWebhookServer) : list string :=
  match configs, servers with
  | Ok configs, Ok servers => mapAssigned configs servers (cwsName s) [Some s]
  | _, _ => []
  end.
Definition mapServerTransitionToAssigned (configs : res string (list T))
    (servers : res string (list ConversionWebhookServer)) (oldObj newObj : option ConversionWebhookServer)
    : list string :=
  match configs, servers with
  | Ok configs, Ok servers => mapAssigned configs servers (objectName oldObj newObj) [oldObj; newObj]
  | _, _ => []
  end.

(** The operator's copies of the two, which sort the requests. *)
Definition mapConfigsForServerViews (configs : list T) (servers : list ConversionWebhookServer)
    (serverName : string) (views : list (option ConversionWebhookServer)) : list string :=
  sort_strings (mapAssigned configs servers serverName views).
End fanout.

(** The functions the two kinds' watches run. *)
Section kinds.
Context `{ML : MathLog}.

Definition mapAssignedXRD := mapAssigned (T := XRDConversionConfig).
Definition mapAssignedCRD := mapAssigned (T := CRDConversionConfig).
Definition mapServerToAssignedXRDConfigs := mapServerToAssigned (T := XRDConversionConfig).
Definition mapServerToAssignedCRDConfigs := mapServerToAssigned (T := CRDConversionConfig).
Definition mapServerTransitionToAssignedXRDConfigs := mapServerTransitionToAssigned (T := XRDConversionConfig).
Definition mapServerTransitionToAssignedCRDConfigs := mapServerTransitionToAssigned (T := CRDConversionConfig).
Definition mapXRDConfigsForServerViews := mapConfigsForServerViews (T := XRDConversionConfig).
Definition mapCRDConfigsForServerViews := mapConfigsForServerViews (T := CRDConversionConfig).
End kinds.

(** ** The queue *)

Definition dedupeRequests (reqs : list string) : list string :=
  if (length reqs <? 2)%nat then reqs else first_names ∅ reqs.

(** Request [i] is delayed by [i / qps] seconds: [time.Duration(float64(i) / qps *
    float64(time.Second))]; no positive delay is an immediate [Add]. *)
Definition request_delay (qps : float64) (i : nat) : Z :=
  default 0%Z (f64_to_Z (f64_mul (f64_div (f64_of_Z (Z.of_nat i)) qps) (f64_of_Z 1000000000))).
Definition enqueue (qps : float64) (reqs : list string) : list (string * Z) :=
  let reqs := dedupeRequests reqs in
  if f64_ltb qps (f64_of_Z 0) || f64_eqb qps (f64_of_Z 0)
  then (λ req, (req, 0%Z)) <$> reqs
  else imap (λ i req, (req, Z.max 0 (request_delay qps i))) reqs.

Lemma elem_of_first_names seen names n : n ∈ first_names seen names ↔ n ∈ names ∧ n ∉ seen.
Proof.
  revert seen; induction names as [|m names IH]; intros seen; cbn.
  { split; [by intros ?%not_elem_of_nil|by intros [?%not_elem_of_nil _]]. }
  case_bool_decide as Hm; [rewrite IH|rewrite elem_of_cons, IH]; rewrite elem_of_cons.
  - split; [tauto|]. intros [[-> |?] ?]; [done|tauto].
  - destruct (decide (n = m)) as [->|Hne]; [tauto|]. rewrite not_elem_of_union, not_elem_of_singleton. tauto.
Qed.

(** The other servers as a view sees them. *)
Definition others_seen (view : ConversionWebhookServer) (rest : list ConversionWebhookServer) :=
  if cwsDefault view then clear_default <$> rest else rest.

Definition with_server (s : option ConversionWebhookServer) (rest : list ConversionWebhookServer) :=
  match s with Some s => s :: rest | None => rest end.

Section fanout_properties.
Context `{ML : MathLog}.

Lemma serversWithView_permutation live s view rest :
  live ≡ₚ with_server s rest → (∀ s', s = Some s' → cwsName s' = cwsName view) →
  Forall (λ t, cwsName t ≠ cwsName view) rest → serversWithView live view ≡ₚ view :: others_seen view rest.
Proof.
  intros Hp Hs Hrest. unfold serversWithView.
  assert ((λ t, if bool_decide (cwsName t = cwsName view) then view
                else if cwsDefault view then clear_default t else t) <$> rest = others_seen view rest) as Hm.
  { unfold others_seen. destruct (cwsDefault view).
    - apply list_fmap_ext. intros i t Ht%list_elem_of_lookup_2. eapply Forall_forall in Hrest; [|done].
      by rewrite bool_decide_false.
    - rewrite <- (list_fmap_id rest) at 2. apply list_fmap_ext. intros i t Ht%list_elem_of_lookup_2.
      eapply Forall_forall in Hrest; [|done]. by rewrite bool_decide_false. }
  assert (existsb (λ t, bool_decide (cwsName t = cwsName view)) rest = false) as He.
  { apply not_true_iff_false. intros (t & Ht & E%bool_decide_eq_true)%existsb_exists.
    apply list_elem_of_In in Ht. eapply Forall_forall in Hrest; [|done]. done. }
  assert (existsb (λ t, bool_decide (cwsName t = cwsName view)) live = bool_decide (is_Some s)) as Hx.
  { change (has_server live (cwsName view) = bool_decide (is_Some s)). rewrite (has_server_permutation _ _ _ Hp).
    unfold has_server. destruct s as [s|]; cbn; [by rewrite bool_decide_true by (by apply Hs)|exact He]. }
  rewrite Hx, Hp. destruct s as [s|]; cbn.
  - rewrite bool_decide_true by (by apply Hs). by rewrite app_nil_r, Hm.
  - rewrite Hm. by rewrite Permutation_app_comm.
Qed.

(** Clearing defaults does not change the shard pool's answer. *)
Definition pool_of (l : list ConversionWebhookServer) : list ConversionWebhookServer :=
  filter (λ s, ShardingEnabled s = true) l.

Lemma shard_pool_of l : ShardPool l ≡ₚ pool_of l.
Proof. unfold ShardPool. by rewrite merge_sort_Permutation. Qed.

Lemma pool_of_clear l : pool_of (clear_default <$> l) = clear_default <$> pool_of l.
Proof.
  induction l as [|s l IH]; [done|]. unfold pool_of in *. rewrite fmap_cons, !filter_cons.
  change (ShardingEnabled (clear_default s)) with (ShardingEnabled s).
  destruct (decide (ShardingEnabled s = true)); cbn; by rewrite IH.
Qed.

Lemma pick_clear key best pool : foldl (pick_step key) best (clear_default <$> pool) = foldl (pick_step key) best pool.
Proof. revert best; induction pool as [|s pool IH]; intros best; [done|]. cbn. by rewrite IH. Qed.

Lemma PickShard_clear pool key : PickShard (clear_default <$> pool) key = PickShard pool key.
Proof. unfold PickShard. by rewrite pick_clear. Qed.

Lemma PickShard_others view rest key : PickShard (pool_of (others_seen view rest)) key = PickShard (pool_of rest) key.
Proof. unfold others_seen. destruct (cwsDefault view); [|done]. by rewrite pool_of_clear, PickShard_clear. Qed.

Lemma pool_others_nil view rest : pool_of rest = [] → pool_of (others_seen view rest) = [].
Proof. intros H. unfold others_seen. destruct (cwsDefault view); [|done]. by rewrite pool_of_clear, H. Qed.

Section resolve.
Context `{CL : ConfigLike T} (cfg : T).

(** Resolving a config that names no server. *)
Lemma resolve_pool servers : pinned cfg = None → pool_of servers ≠ [] →
  ResolveAssignment cfg servers = Ok (PickShard (pool_of servers) (ShardKey cfg)).
Proof.
  intros Hpin Hpool. unfold ResolveAssignment. fold (pinned cfg). rewrite Hpin.
  rewrite bool_decide_true; [by rewrite (pick_shard_permutation _ _ _ (shard_pool_of servers))|].
  intros E. pose proof (shard_pool_of servers) as Hp. rewrite E in Hp. by apply Permutation_nil_l in Hp.
Qed.

Lemma resolve_default servers : pinned cfg = None → pool_of servers = [] →
  ResolveAssignment cfg servers =
  match default_names servers with
  | [] => Err ErrNoDefault
  | [name] => Ok name
  | names => Err (ErrManyDefaults (merge_sort String.le names))
  end.
Proof.
  intros Hpin Hpool. unfold ResolveAssignment. fold (pinned cfg). rewrite Hpin.
  rewrite bool_decide_false; [done|]. pose proof (shard_pool_of servers) as Hp. rewrite Hpool in Hp.
  apply Permutation_nil_r in Hp. tauto.
Qed.

Definition resolved (servers : list ConversionWebhookServer) : option string :=
  match ResolveAssignment cfg servers with Ok n => Some n | Err _ => None end.

Lemma assigned_resolved servers name : IsAssignedTo cfg servers name = true ↔ resolved servers = Some name.
Proof.
  unfold IsAssignedTo, resolved. destruct (ResolveAssignment cfg servers); [|done].
  rewrite bool_decide_eq_true. naive_solver.
Qed.

(** With a sharded view, the other servers' defaults play no part. *)
Lemma resolved_sharded view rest : pinned cfg = None → ShardingEnabled view = true →
  resolved (view :: others_seen view rest) = resolved (view :: rest).
Proof.
  intros Hpin Hs. unfold resolved.
  assert (∀ l, pool_of (view :: l) = view :: pool_of l) as E by (intros; unfold pool_of; by rewrite filter_cons_True).
  rewrite !resolve_pool by (done || by rewrite E). rewrite !E. f_equal.
  assert (view :: pool_of rest ≡ₚ pool_of rest ++ [view]) as P1 by (by rewrite Permutation_app_comm).
  assert (view :: pool_of (others_seen view rest) ≡ₚ pool_of (others_seen view rest) ++ [view]) as P2
    by (by rewrite Permutation_app_comm).
  rewrite (pick_shard_permutation _ _ _ P1), (pick_shard_permutation _ _ _ P2).
  unfold others_seen. destruct (cwsDefault view); [|done].
  unfold PickShard. by rewrite !foldl_app, pool_of_clear, pick_clear.
Qed.
(** A view that is not sharded, in a world without a pool: the only default is its own. *)
Lemma resolved_default view rest : pinned cfg = None → pool_of (view :: rest) = [] → cwsDefault view = true →
  resolved (view :: others_seen view rest) = Some (cwsName view).
Proof.
  intros Hpin Hpool Hd. unfold others_seen. rewrite Hd.
  assert (ShardingEnabled view = false ∧ pool_of rest = []) as [Hs Hr].
  { unfold pool_of in *. rewrite filter_cons in Hpool. by destruct (ShardingEnabled view). }
  unfold resolved. rewrite resolve_default; [|done|].
  - assert (default_names (clear_default <$> rest) = []) as E.
    { unfold default_names. clear. induction rest as [|s l IH]; [done|]. by rewrite fmap_cons, filter_cons_False. }
    unfold default_names in *. rewrite filter_cons_True by done. cbn. by rewrite E.
  - unfold pool_of. rewrite filter_cons_False by (by rewrite Hs). fold (pool_of (clear_default <$> rest)).
    by rewrite pool_of_clear, Hr.
Qed.

(** The result before or after is the changed server, when the two differ. *)
Definition view_of_change (s : option ConversionWebhookServer) (rest : list ConversionWebhookServer) : option string :=
  match s with Some s => resolved (s :: others_seen s rest) | None => None end.

Lemma pool_with s rest : pool_of (with_server s rest) =
  match s with Some s => if ShardingEnabled s then s :: pool_of rest else pool_of rest | None => pool_of rest end.
Proof.
  destruct s as [s|]; [|done]. unfold pool_of, with_server. rewrite filter_cons. by destruct (ShardingEnabled s).
Qed.

(** In a world with a pool, or a sharded change. *)
Lemma resolved_with_pool name s rest :
  pinned cfg = None → (∀ s', s = Some s' → cwsName s' = name) → resolved (with_server s rest) ≠ Some "" →
  pool_of (with_server s rest) ≠ [] →
  resolved (with_server s rest) = Some name ∧ view_of_change s rest = Some name ∨
  pool_of rest ≠ [] ∧ resolved (with_server s rest) = resolved rest.
Proof.
  intros Hpin Hn Hne Hpool. destruct s as [s|]; [|by right].
  change (with_server (Some s) rest) with (s :: rest) in *. specialize (Hn s eq_refl).
  destruct (ShardingEnabled s) eqn:Hs.
  - assert (pool_of (s :: rest) = s :: pool_of rest) as E
      by (unfold pool_of; by rewrite filter_cons_True).
    unfold resolved in *. rewrite resolve_pool, E in * by (done || by rewrite E).
    destruct (pick_shard_cons s (pool_of rest) (ShardKey cfg)) as [H|H]; [|left; unfold view_of_change; rewrite resolved_sharded by done; unfold resolved;
      rewrite resolve_pool, E by (done || by rewrite E); by rewrite H, Hn].
    destruct (decide (pool_of rest = [])) as [E'|E']; [rewrite H, E' in Hne; done|].
    right. split; [done|]. by rewrite H, resolve_pool.
  - right. assert (pool_of (s :: rest) = pool_of rest) as E by (unfold pool_of; by rewrite filter_cons_False by (by rewrite Hs)).
    rewrite E in Hpool. split; [done|]. unfold resolved. by rewrite !resolve_pool, E by (done || by rewrite E).
Qed.

Lemma resolved_pinned p servers : pinned cfg = Some p →
  resolved servers = if has_server servers p then Some p else None.
Proof. intros Hpin. unfold resolved, ResolveAssignment. fold (pinned cfg). rewrite Hpin. by destruct (has_server servers p). Qed.

Lemma pinned_change name p old new rest : pinned cfg = Some p →
  (∀ s, old = Some s → cwsName s = name) → (∀ s, new = Some s → cwsName s = name) →
  resolved (with_server old rest) ≠ resolved (with_server new rest) →
  view_of_change old rest = Some name ∨ view_of_change new rest = Some name.
Proof.
  intros Hpin Ho Hn. rewrite !(resolved_pinned p) by done.
  assert (∀ s, has_server (s :: rest) p = bool_decide (cwsName s = p) || has_server rest p) as Hcons by done.
  assert (∀ s, cwsName s = name → has_server (s :: rest) p ≠ has_server rest p →
    view_of_change (Some s) rest = Some name) as H.
  { intros s Hs Hsr. unfold view_of_change. rewrite (resolved_pinned p) by done. rewrite Hcons in Hsr.
    unfold has_server at 1. cbn. case_bool_decide; [cbn; congruence|done]. }
  destruct old as [so|], new as [sn|]; cbn -[has_server]; intros Hd.
  - rewrite !Hcons, (Ho so), (Hn sn) in Hd by done. done.
  - left. apply H; [by apply Ho|]. by intros E; rewrite E in Hd.
  - right. apply H; [by apply Hn|]. by intros E; rewrite E in Hd.
  - done.
Qed.

(** Neither world has a pool: only defaults count. *)
Lemma default_change name s rest : pinned cfg = None → (∀ s', s = Some s' → cwsName s' = name) →
  pool_of (with_server s rest) = [] →
  view_of_change s rest = Some name ∨ resolved (with_server s rest) = resolved rest.
Proof.
  intros Hpin Hn Hpool. destruct s as [s|]; [|by right].
  change (with_server (Some s) rest) with (s :: rest) in *. destruct (cwsDefault s) eqn:Hd.
  - left. unfold view_of_change. rewrite resolved_default by done. f_equal. by apply Hn.
  - right. pose proof (pool_with (Some s) rest) as Hw. change (with_server (Some s) rest) with (s :: rest) in Hw.
    rewrite Hpool in Hw.
    destruct (ShardingEnabled s); [done|]. unfold resolved. rewrite !resolve_default by done.
    unfold default_names. by rewrite filter_cons_False by (by rewrite Hd).
Qed.

Lemma change_is_seen name old new rest :
  (∀ s, old = Some s → cwsName s = name) → (∀ s, new = Some s → cwsName s = name) →
  resolved (with_server old rest) ≠ Some "" → resolved (with_server new rest) ≠ Some "" →
  resolved (with_server old rest) ≠ resolved (with_server new rest) →
  view_of_change old rest = Some name ∨ view_of_change new rest = Some name.
Proof.
  intros Ho Hn Hoe Hne Hd. destruct (pinned cfg) as [p|] eqn:Hpin; [by eapply pinned_change|].
  assert (∀ s, pool_of (with_server s rest) = [] → pool_of rest = []) as Hrest.
  { intros s. rewrite pool_with. destruct s as [s|]; [|done]. by destruct (ShardingEnabled s). }
  destruct (decide (pool_of (with_server old rest) = [])) as [Eo|Eo], (decide (pool_of (with_server new rest) = [])) as [En|En].
  - destruct (default_change name old rest) as [?|E1]; [done..|by left|].
    destruct (default_change name new rest) as [?|E2]; [done..|by right|]. congruence.
  - destruct (resolved_with_pool name new rest) as [[_ ?]|[Hr _]]; [done..|by right|]. by apply Hrest in Eo.
  - destruct (resolved_with_pool name old rest) as [[_ ?]|[Hr _]]; [done..|by left|]. by apply Hrest in En.
  - destruct (resolved_with_pool name old rest) as [[_ ?]|[_ E1]]; [done..|by left|].
    destruct (resolved_with_pool name new rest) as [[_ ?]|[_ E2]]; [done..|by right|]. congruence.
Qed.
End resolve.

(** A change of a server enqueues every config it moves.  Create, update or
    delete one server ([old] to [new], either missing) while the others stay, and
    take any config whose resolved server is another one afterwards.  If both
    resolutions are to real servers or fail, the config's request is among those
    the change event enqueues, whether it was moved by the shard pool, by its
    explicit reference, or by the default. *)
Theorem moved_configs_are_enqueued `{CL : ConfigLike T} (cfg : T) configs live name old new rest :
  cfg ∈ configs → live ≡ₚ with_server new rest →
  (∀ s, old = Some s → cwsName s = name) → (∀ s, new = Some s → cwsName s = name) →
  Forall (λ t, cwsName t ≠ name) rest →
  resolved cfg (with_server old rest) ≠ Some "" → resolved cfg (with_server new rest) ≠ Some "" →
  resolved cfg (with_server old rest) ≠ resolved cfg (with_server new rest) →
  GetName cfg ∈ mapServerTransitionToAssigned (Ok configs) (Ok live) old new.
Proof.
  intros Hin Hp Ho Hn Hrest Hoe Hne Hd. cbn.
  assert (objectName old new = name) as ->.
  { destruct new as [s|]; [by apply Hn|]. destruct old as [s|]; [by apply Ho|]. done. }
  assert (∀ s, (old = Some s ∨ new = Some s) → view_of_change cfg (Some s) rest = Some name →
    GetName cfg ∈ GetName <$> ConfigsAssignedTo configs (serversWithView live s) name) as H.
  { intros s Hs Hv. apply list_elem_of_fmap_2, list_elem_of_filter. split; [|done].
    assert (cwsName s = name) as Hname by (destruct Hs; auto).
    assert (serversWithView live s ≡ₚ s :: others_seen s rest) as Hperm.
    { apply (serversWithView_permutation _ new); [done| |by rewrite Hname]. intros s' Hs'. rewrite Hname. auto. }
    apply assigned_resolved. unfold resolved. rewrite (resolve_permutation _ _ _ Hperm). exact Hv. }
  unfold mapAssigned. apply elem_of_first_names. split; [|by apply not_elem_of_empty]. cbn.
  destruct (change_is_seen cfg name old new rest) as [Hv|Hv]; [done..| |].
  - destruct old as [s|]; [|done]. apply elem_of_app. left. apply H; auto.
  - destruct new as [s|]; [|done]. rewrite app_nil_r. apply elem_of_app. right. apply H; auto.
Qed.
End fanout_properties.

(** ** Witness: a third shard is added *)

#[local] Existing Instances demo_serving_config portable_log.
Definition moved_config : demo_config := demo_config_of "db.example.org".

Lemma moved_configs_are_enqueued_witness :
  GetName moved_config ∈ mapServerTransitionToAssigned (Ok [apps; moved_config])
    (Ok [sharded "a"; sharded "c"; sharded "b"]) None (Some (sharded "c")).
Proof.
  apply (moved_configs_are_enqueued moved_config [apps; moved_config] [sharded "a"; sharded "c"; sharded "b"]
    "c" None (Some (sharded "c")) [sharded "a"; sharded "b"]).
  - right. by left.
  - apply perm_swap.
  - done.
  - by intros s [= <-].
  - by repeat constructor.
  - by vm_compute.
  - by vm_compute.
  - by vm_compute.
Defined.
