(* ===== verification/Pool.v ===== *)
(** The worker pool of the commands that touch many objects (migrateAll of
    internal/cli/migratestorage.go, runTestCommon of internal/cli/test.go): one
    goroutine sends the indices over an unbuffered channel, workers take them, work,
    and record the result under a mutex.

    A step relation on the state the goroutines share, and what every schedule of
    it comes to. *)
From S2P Require Import Prelude.

(** A worker waits for an index, has one, or has its result and is about to take
    the mutex. *)
Inductive worker (R : Type) := Waiting | Working (i : nat) | Recording (i : nat) (r : R).
Arguments Waiting {R}.
Arguments Working {R} i.
Arguments Recording {R} i r.

Record pool (E R S : Type) := {
  plNext : nat;                   (* the next index to be sent *)
  plWorkers : list (worker R);
  plResults : list R;
  plTally : S;                    (* the counters the mutex protects *)
  plEvents : list E }.
Arguments plNext {E R S} p.
Arguments plWorkers {E R S} p.
Arguments plResults {E R S} p.
Arguments plTally {E R S} p.
Arguments plEvents {E R S} p.

Section pool.
Context {A E R S : Type} (work : A → list E * R) (tally : S → R → S) (zero : R) (start : S).
Context (workers : nat) (items : list A).

Definition pool_start : pool E R S := {|
  plNext := 0; plWorkers := replicate workers Waiting; plResults := replicate (length items) zero;
  plTally := start; plEvents := [] |}.

(** A worker takes an index as it is sent; it works; it records. *)
Inductive pool_step : pool E R S → pool E R S → Prop :=
| p_take p k : plWorkers p !! k = Some Waiting → plNext p < length items →
    pool_step p {| plNext := Datatypes.S (plNext p); plWorkers := <[k := Working (plNext p)]> (plWorkers p);
      plResults := plResults p; plTally := plTally p; plEvents := plEvents p |}
| p_work p k i item : plWorkers p !! k = Some (Working i) → items !! i = Some item →
    pool_step p {| plNext := plNext p; plWorkers := <[k := Recording i (work item).2]> (plWorkers p);
      plResults := plResults p; plTally := plTally p; plEvents := plEvents p ++ (work item).1 |}
| p_record p k i r : plWorkers p !! k = Some (Recording i r) →
    pool_step p {| plNext := plNext p; plWorkers := <[k := Waiting]> (plWorkers p);
      plResults := <[i := r]> (plResults p); plTally := tally (plTally p) r; plEvents := plEvents p |}.

(** [wg.Wait] returns: the channel is closed and drained, and every worker is back
    at it. *)
Definition pool_over (p : pool E R S) : Prop :=
  plNext p = length items ∧ Forall (λ k, k = Waiting) (plWorkers p).

(** ** The invariant *)

#[local] Instance waiting_dec (k : worker R) : Decision (k = Waiting).
Proof. destruct k; [by left|by right..]. Defined.

Definition holds (k : worker R) : list nat := match k with Waiting => [] | Working i | Recording i _ => [i] end.
Definition has_result (k : worker R) : list nat := match k with Recording i _ => [i] | _ => [] end.
Definition events_at (i : nat) : list E := match items !! i with Some item => (work item).1 | None => [] end.
Definition result_at (i : nat) : R := match items !! i with Some item => (work item).2 | None => zero end.

(** After [n] steps: the indices sent are each recorded, in [done], or held by one
    worker; every event belongs to a recorded or a finished index. *)
Record pool_inv (n : nat) (p : pool E R S) (done : list nat) : Prop := {
  pi_sent : done ++ (plWorkers p ≫= holds) ≡ₚ seq 0 (plNext p);
  pi_next : plNext p ≤ length items;
  pi_workers : plWorkers p ≠ [];
  pi_results : length (plResults p) = length items ∧ ∀ i, i ∈ done → plResults p !! i = Some (result_at i);
  pi_held : ∀ i r, Recording i r ∈ plWorkers p → r = result_at i;
  pi_events : plEvents p ≡ₚ (done ++ (plWorkers p ≫= has_result)) ≫= events_at;
  pi_tally : plTally p = foldr (λ i s, tally s (result_at i)) start done;
  pi_steps : n = plNext p + length (plWorkers p ≫= has_result) + 2 * length done }.

Lemma sent_below p done n i : pool_inv n p done → i ∈ (plWorkers p ≫= holds) → i < plNext p ∧ i ∉ done.
Proof.
  intros [Hs _ _ _ _ _ _ _] Hi. pose proof (NoDup_seq 0 (plNext p)) as Hn. rewrite <-Hs in Hn. apply NoDup_app in Hn as (_ & Hn & _).
  split; [|intros Hd; by apply (Hn i Hd)]. assert (i ∈ seq 0 (plNext p)) as Hin by (rewrite <-Hs; set_solver). apply elem_of_seq in Hin. lia.
Qed.

Lemma pool_inv_start : 0 < workers → pool_inv 0 pool_start [].
Proof.
  intros Hw. assert (∀ (f : worker R → list nat), f Waiting = [] → replicate workers Waiting ≫= f = []) as Hr.
  { intros f Hf. clear Hw. induction workers as [|n IH]; [done|]. cbn. by rewrite Hf. }
  split; cbn; rewrite ?Hr by done; try done; try lia.
  - intros Hn%(f_equal length). rewrite length_replicate in Hn. cbn in Hn. lia.
  - rewrite length_replicate. split; [done|]. by intros i ?%not_elem_of_nil.
  - intros i r [H _]%elem_of_replicate. discriminate H.
Qed.

Lemma pool_inv_step n p p' done : pool_inv n p done → pool_step p p' → ∃ done', pool_inv (Datatypes.S n) p' done'.
Proof.
  intros Hi Hst. pose proof Hi as [Hs Hn Hw [Hlen Hres] Hheld Hev Hd Hcount].
  destruct Hst as [p k Hk Hlt|p k i item Hk Hitem|p k i r Hk];
    destruct (list_single_out _ _ _ Hk) as (rest & Hold & Hnew); rewrite Hold in Hs, Hev, Hcount;
    cbn [mbind list_bind holds has_result app] in Hs, Hev, Hcount;
    fold (mbind (M := list) holds) (mbind (M := list) has_result) in Hs, Hev, Hcount.
  - exists done. split; cbn [plNext plWorkers plResults plTally plEvents].
    + rewrite Hnew, seq_S, <-Hs. cbn. rewrite <-app_assoc. f_equiv. apply Permutation_cons_append.
    + lia.
    + by eapply not_nil_Permutation.
    + done.
    + intros i r. rewrite Hnew. intros [[=]|Hin]%elem_of_cons. apply Hheld. rewrite Hold. by right.
    + by rewrite Hnew.
    + done.
    + rewrite Hnew. cbn. lia.
  - exists done. assert ((work item).2 = result_at i) as Hr by (unfold result_at; by rewrite Hitem).
    split; cbn [plNext plWorkers plResults plTally plEvents].
    + by rewrite Hnew.
    + done.
    + by eapply not_nil_Permutation.
    + done.
    + intros j r. rewrite Hnew. intros [[= -> ->]|Hin]%elem_of_cons; [done|]. apply Hheld. rewrite Hold. by right.
    + rewrite Hnew, Hev. cbn. rewrite <-Permutation_middle, bind_cons, Permutation_app_comm. f_equiv.
      unfold events_at. by rewrite Hitem.
    + done.
    + rewrite Hnew. cbn. lia.
  - assert (r = result_at i) as -> by (apply Hheld; rewrite Hold; by left).
    destruct (sent_below p done n i Hi) as [Hlt Hnot].
    { rewrite Hold. apply list_elem_of_bind. exists (Recording i (result_at i)). split; by left. }
    exists (i :: done). split; cbn [plNext plWorkers plResults plTally plEvents].
    + rewrite Hnew, <-Hs. cbn. apply Permutation_middle.
    + done.
    + by eapply not_nil_Permutation.
    + rewrite length_insert. split; [done|]. intros j [->|Hj]%elem_of_cons; [apply list_lookup_insert_eq; lia|].
      rewrite list_lookup_insert_ne by (intros ->; done). by apply Hres.
    + intros j r. rewrite Hnew. intros [[=]|Hin]%elem_of_cons. apply Hheld. rewrite Hold. by right.
    + rewrite Hnew, Hev. cbn [mbind list_bind app]. by rewrite <-Permutation_middle.
    + cbn. by rewrite Hd.
    + rewrite Hnew. cbn [length mbind list_bind app has_result] in *. lia.
Qed.

Lemma pool_inv_reach n p : 0 < workers → nsteps pool_step n pool_start p → ∃ done, pool_inv n p done.
Proof.
  intros Hw. revert p; induction n as [|n IH]; intros p Hn.
  - inversion Hn; subst. exists []. by apply pool_inv_start.
  - apply nsteps_inv_r in Hn as (q & Hq & Hst). destruct (IH q Hq) as [done Hi]. by eapply pool_inv_step.
Qed.

(** ** What every schedule comes to *)

Lemma pool_bound n p done : pool_inv n p done → n ≤ 3 * length items.
Proof.
  intros [Hs Hn _ _ _ _ _ Hcount]. apply Permutation_length in Hs. rewrite length_app, length_seq in Hs.
  assert (length (plWorkers p ≫= has_result) ≤ length (plWorkers p ≫= holds)) as Hle; [|lia].
  clear. induction (plWorkers p) as [|k ks IH]; [done|]. cbn. rewrite !length_app. destruct k; cbn; lia.
Qed.

Lemma pool_progress n p done : pool_inv n p done → ¬ pool_over p → ∃ p', pool_step p p'.
Proof.
  intros Hi Hover. destruct (decide (Forall (λ k, k = Waiting) (plWorkers p))) as [Hall|Hbusy].
  - pose proof (pi_next _ _ _ Hi). destruct (decide (plNext p = length items)) as [He|Hne]; [by destruct Hover|].
    pose proof (pi_workers _ _ _ Hi). destruct (plWorkers p) as [|k ks] eqn:Ew; [done|].
    apply Forall_cons in Hall as [-> _]. eexists. apply (p_take p 0); [by rewrite Ew|lia].
  - apply not_Forall_Exists in Hbusy; [|intros k; apply waiting_dec]. apply Exists_exists in Hbusy as (k & Hk & Hne).
    apply list_elem_of_lookup in Hk as [x Hx]. destruct k as [|i|i r]; [by destruct Hne| |].
    + destruct (sent_below p done n i Hi) as [Hlt _].
      { apply list_elem_of_bind. exists (Working i). split; [by left|]. by eapply list_elem_of_lookup_2. }
      pose proof (pi_next _ _ _ Hi). destruct (lookup_lt_is_Some_2 items i) as [item Hitem]; [lia|].
      eexists. by eapply p_work.
    + eexists. by eapply p_record.
Qed.

Lemma seq_bind {T} (f : nat → list T) (g : A → list T) : (∀ i a, items !! i = Some a → f i = g a) →
  seq 0 (length items) ≫= f = items ≫= g.
Proof.
  intros Hfg. assert (∀ k (l : list A), (∀ i, l !! i = items !! (k + i)) → seq k (length l) ≫= f = l ≫= g) as H; [|by apply (H 0 items)].
  intros k l. revert k. induction l as [|a l IH]; intros k Hl; [done|]. cbn. f_equal.
  - apply Hfg. specialize (Hl 0). by rewrite Nat.add_0_r in Hl.
  - apply IH. intros i. replace (Datatypes.S k + i) with (k + Datatypes.S i) by lia. apply (Hl (Datatypes.S i)).
Qed.

Lemma foldr_foldl (Hcomm : ∀ s r r', tally (tally s r) r' = tally (tally s r') r) l :
  foldr (λ r s, tally s r) start l = foldl tally start l.
Proof.
  assert (∀ l0 s r, foldl tally (tally s r) l0 = tally (foldl tally s l0) r) as H.
  { induction l0 as [|r' l' IH]; intros s r; [done|]. cbn. rewrite (Hcomm s r r'). apply IH. }
  induction l as [|r l IH]; [done|]. cbn. by rewrite IH, H.
Qed.

(** At rest, with counters that do not see the order: the results of taking the
    items one by one, in their order, the same events, each once, and the counters
    of that run. *)
Lemma pool_result n p done : (∀ s r r', tally (tally s r) r' = tally (tally s r') r) →
  pool_inv n p done → pool_over p →
  plResults p = (λ a, (work a).2) <$> items ∧ plEvents p ≡ₚ items ≫= (λ a, (work a).1) ∧
  plTally p = foldl tally start ((λ a, (work a).2) <$> items).
Proof.
  intros Hcomm [Hs _ _ [Hlen Hres] _ Hev Hd _] [Hnext Hall].
  assert (∀ f : worker R → list nat, f Waiting = [] → plWorkers p ≫= f = []) as Hnone.
  { intros f Hf. clear -Hf Hall. induction Hall as [|k ks -> _ IH]; [done|]. rewrite bind_cons, Hf. exact IH. }
  rewrite (Hnone holds), app_nil_r, Hnext in Hs by done. rewrite (Hnone has_result), app_nil_r in Hev by done.
  split_and!.
  - apply list_eq. intros i. rewrite list_lookup_fmap. destruct (items !! i) as [item|] eqn:Ei.
    + rewrite Hres; [cbn; unfold result_at; by rewrite Ei|]. rewrite Hs. apply elem_of_seq. apply lookup_lt_Some in Ei. lia.
    + cbn. apply lookup_ge_None in Ei. apply lookup_ge_None. lia.
  - rewrite Hev, Hs. rewrite (seq_bind events_at (λ a, (work a).1)); [done|]. intros i a Ha. unfold events_at. by rewrite Ha.
  - rewrite Hd. transitivity (foldr (λ r s, tally s r) start (result_at <$> done)).
    { clear. induction done as [|i done IH]; [done|]. cbn. by rewrite IH. }
    assert (result_at <$> done ≡ₚ (λ a, (work a).2) <$> items) as Hp.
    { rewrite Hs. erewrite list_eq; [done|]. intros i. rewrite !list_lookup_fmap. destruct (items !! i) as [a|] eqn:Ei.
      - rewrite lookup_seq_lt by (by eapply lookup_lt_Some). cbn. unfold result_at. by rewrite Ei.
      - by rewrite lookup_seq_ge by (by apply lookup_ge_None). }
    rewrite <-(foldr_foldl Hcomm). apply (foldr_permutation (=) _ _); [|exact Hp]. intros; apply Hcomm.
Qed.

Lemma pool_schedules n p : 0 < workers → nsteps pool_step n pool_start p →
  n ≤ 3 * length items ∧ (¬ pool_over p → ∃ p', pool_step p p') ∧
  ((∀ s r r', tally (tally s r) r' = tally (tally s r') r) → pool_over p →
    plResults p = (λ a, (work a).2) <$> items ∧ plEvents p ≡ₚ items ≫= (λ a, (work a).1) ∧
    plTally p = foldl tally start ((λ a, (work a).2) <$> items)).
Proof.
  intros Hw Hp. destruct (pool_inv_reach n p Hw Hp) as [done Hi]. split_and!.
  - by eapply pool_bound.
  - by eapply pool_progress.
  - intros Hcomm. by eapply pool_result.
Qed.
End pool.
