(* ===== verification/Migrate.v ===== *)
(** [convctl migrate-storage]: rewriting every stored object at the current storage
    version, then dropping the older ones from status.storedVersions
    (internal/cli/migratestorage.go, with the listing of live.go).

    A run is a function of what its reads and its writes answer; it yields the
    writes, in order, and its report.  The run takes the objects of a target one by
    one; MigrateProperties shows that every schedule of the worker pool does the
    same. *)
From S2P Require Import Prelude Pool Float64 Value Path Schema Adapters.
#[local] Open Scope Z_scope.

(** ** Options *)

Definition defaultMigrateFieldManager : string := "convctl".

Record MigrateStorageOptions := {
  moXRDName : string; moCRDName : string; moNamespace : string; moDryRun : bool; moConcurrency : Z;
  moFieldManager : string; moPruneStoredVersions : bool }.

Definition fieldManager (o : MigrateStorageOptions) : string :=
  if bool_decide (moFieldManager o = "") then defaultMigrateFieldManager else moFieldManager o.

Definition effectiveConcurrency (o : MigrateStorageOptions) (n : Z) : Z :=
  let c := moConcurrency o in
  let c := if c <=? 0 then 1 else c in
  let c := if n <? c then n else c in
  if c <? 1 then 1 else c.

(** ** The report *)

Record MigrateObjectResult := { mrNamespace : string; mrName : string; mrError : string; mrCRD : string }.

Inductive prune_error := ErrPruneGetting (err : string) | ErrPruneSetting (err : string) | ErrPruneUpdating (err : string).

Record MigrateCRDReport := {
  mcCRD : string; mcRole : string; mcKind : string; mcPlural : string; mcNamespaced : bool;
  mcStorageVersion : string; mcStoredVersions : list string; mcObjects : list MigrateObjectResult;
  mcSucceeded : nat; mcFailed : nat; mcPruned : bool; mcPruneError : option prune_error }.

Inductive migrate_warning :=
| WNamespaceIgnored (namespace crd : string)
| WReferenceableDiffers (xrd refVersion crd storage : string)
| WPruneDryRun
| WPruneSkipped (failed : nat) (crds : list (string * string * nat)).   (* [failedCRDNote] *)

Record MigrateStorageReport := {
  msResourceKind : string; msResource : string; msCRD : string; msGroup : string; msKind : string; msPlural : string;
  msStorageVersion : string; msStoredVersions : list string; msNamespaced : bool; msDryRun : bool;
  msFieldManager : string; msObjects : list MigrateObjectResult; msSucceeded : nat; msFailed : nat;
  msPruned : bool; msPruneError : option prune_error; msWarnings : list migrate_warning;
  msCRDs : list MigrateCRDReport }.

Definition is_some {A} (o : option A) : bool := match o with Some _ => true | None => false end.

Definition HasFailures (r : MigrateStorageReport) : bool :=
  if (0 <? msFailed r)%nat || is_some (msPruneError r) then true
  else existsb (λ c, (0 <? mcFailed c)%nat || is_some (mcPruneError c)) (msCRDs r).

(** ** Targets *)

Record migrateTarget := {
  mtResourceKind : string; mtResource : string; mtCRDName : string; mtRole : string; mtGroup : string;
  mtKind : string; mtPlural : string; mtStorageVersion : string; mtStoredVersions : list string; mtNamespaced : bool }.

(** What the tool reads of a CRD in the cluster: [spec.group], [spec.names],
    [spec.scope], the versions and whether each is the stored one, and the status. *)
Record LiveCRD := {
  lcName : string; lcGroup : string; lcPlural : string; lcKind : string; lcNamespaced : bool;
  lcVersions : list (string * bool); lcStoredVersions : list string }.

Inductive migrate_error :=
| ErrWhichTarget
| ErrFetching (err : string)
| ErrFetchingGenerated (role crd xrd err : string)
| ErrGenerated (e : xrdadapter.generated_error)
| ErrCRDMissing (crd field : string)
| ErrNoStorageVersion (crd : string)
| ErrManyStorageVersions (crd : string) (versions : list string)
| ErrVersionsField (xrd err : string)
| ErrNoVersions (xrd : string)
| ErrVersionNotObject (xrd : string) (i : nat)
| ErrReferenceableField (xrd : string) (i : nat) (err : string)
| ErrReferenceableNoName (xrd : string) (i : nat)
| ErrNoReferenceable (xrd : string)
| ErrManyReferenceable (xrd : string) (versions : list string)
| ErrPruneOneNamespace
| ErrListing (group version resource err : string)
| PanicNoTarget.

Definition crdStorageVersion (crd : LiveCRD) : res migrate_error string :=
  match fst <$> filter (λ v, v.2 = true) (lcVersions crd) with
  | [v] => Ok v
  | [] => Err (ErrNoStorageVersion (lcName crd))
  | vs => Err (ErrManyStorageVersions (lcName crd) vs)
  end.

Definition targetFromCRD (resourceKind resourceName : string) (crd : LiveCRD) : res migrate_error migrateTarget :=
  if bool_decide (lcGroup crd = "") then Err (ErrCRDMissing (lcName crd) "spec.group")
  else if bool_decide (lcPlural crd = "") then Err (ErrCRDMissing (lcName crd) "spec.names.plural")
  else if bool_decide (lcKind crd = "") then Err (ErrCRDMissing (lcName crd) "spec.names.kind")
  else
    storage ← crdStorageVersion crd;
    Ok {| mtResourceKind := resourceKind; mtResource := resourceName; mtCRDName := lcName crd; mtRole := "";
          mtGroup := lcGroup crd; mtKind := lcKind crd; mtPlural := lcPlural crd; mtStorageVersion := storage;
          mtStoredVersions := lcStoredVersions crd; mtNamespaced := lcNamespaced crd |}.

Definition role_text (r : xrdadapter.GeneratedCRDRole) : string :=
  match r with xrdadapter.RoleComposite => "composite" | xrdadapter.RoleClaim => "claim" end.
Definition with_role (t : migrateTarget) (role : string) : migrateTarget := {|
  mtResourceKind := mtResourceKind t; mtResource := mtResource t; mtCRDName := mtCRDName t; mtRole := role;
  mtGroup := mtGroup t; mtKind := mtKind t; mtPlural := mtPlural t; mtStorageVersion := mtStorageVersion t;
  mtStoredVersions := mtStoredVersions t; mtNamespaced := mtNamespaced t |}.

(** ** Listing *)

(** An object, as far as the tool reads it. *)
Record LiveObject := { loName : string; loNamespace : string }.

(** What the server answers to one list call after another: a page with a token to
    continue from, the last page, or an error. *)
Inductive listing (A : Type) :=
| Page (items : list A) (rest : listing A)
| LastPage (items : list A)
| ListFails (err : string).
Arguments Page {A} _ _.
Arguments LastPage {A} _.
Arguments ListFails {A} _.

Fixpoint listAll {A} (items : list A) (l : listing A) : res string (list A) :=
  match l with
  | Page more l => listAll (items ++ more) l
  | LastPage more => Ok (items ++ more)
  | ListFails e => Err e
  end.
Definition listAllByGVR {A} (l : listing A) : res string (list A) := listAll [] l.

(** ** One object *)

(** A forced server-side apply. *)
Record EmptyApply := {
  eaGroup : string; eaVersion : string; eaResource : string;
  eaNamespace : option string;                    (* of a namespaced resource *)
  eaName : string; eaPatch : obj; eaManager : string; eaDryRun : bool }.

Definition migrateEmptyPatch (group version kind name namespace : string) : obj :=
  let meta : obj := {["name" := VStr name]} in
  let meta := if bool_decide (namespace = "") then meta else <["namespace" := VStr namespace]> meta in
  {[ "apiVersion" := VStr (if bool_decide (group = "") then version else group +:+ "/" +:+ version);
     "kind" := VStr kind; "metadata" := VObj meta ]}.

Inductive migrate_event :=
| Rewrites (a : EmptyApply)
| Prunes (crd : string) (versions : list string).    (* UpdateStatus *)

(** What the cluster answers. *)
Record migrate_world := {
  mwXRD : string → res string obj;
  mwCRD : string → res string LiveCRD;
  mwList : string * string * string → string → listing LiveObject;   (* of group, version, resource; in a namespace, or all *)
  mwApply : EmptyApply → option string;
  mwPruneGet : string → option string;
  mwPruneSet : string → option string;
  mwPruneUpdate : string → list string → option string }.

Section migrate.
Context `{U : Unstructured} (w : migrate_world) (opts : MigrateStorageOptions).

Definition apply_of (t : migrateTarget) (item : LiveObject) : EmptyApply := {|
  eaGroup := mtGroup t; eaVersion := mtStorageVersion t; eaResource := mtPlural t;
  eaNamespace := if mtNamespaced t then Some (loNamespace item) else None; eaName := loName item;
  eaPatch := migrateEmptyPatch (mtGroup t) (mtStorageVersion t) (mtKind t) (loName item) (loNamespace item);
  eaManager := fieldManager opts; eaDryRun := moDryRun opts |}.

Definition migrateOne (t : migrateTarget) (item : LiveObject) : list migrate_event * MigrateObjectResult :=
  let result err := {| mrNamespace := loNamespace item; mrName := loName item; mrError := err; mrCRD := "" |} in
  if mtNamespaced t && bool_decide (loNamespace item = "")
  then ([], result "namespaced object is missing metadata.namespace")
  else let a := apply_of t item in ([Rewrites a], result (default "" (mwApply w a))).

Definition tagged (tagCRD : bool) (t : migrateTarget) (r : MigrateObjectResult) : MigrateObjectResult :=
  {| mrNamespace := mrNamespace r; mrName := mrName r; mrError := mrError r;
     mrCRD := if tagCRD then mtCRDName t else mrCRD r |}.

(** The objects, one by one. *)
Definition migrateAll (tagCRD : bool) (t : migrateTarget) (items : list LiveObject)
    : list migrate_event * list MigrateObjectResult :=
  (items ≫= (λ item, (migrateOne t item).1), (λ item, tagged tagCRD t (migrateOne t item).2) <$> items).

(** The worker pool of [migrateAll] (Pool.v): its counter is of objects done. *)
Definition pool_work (tagCRD : bool) (t : migrateTarget) (item : LiveObject) : list migrate_event * MigrateObjectResult :=
  let '(es, r) := migrateOne t item in (es, tagged tagCRD t r).
Definition zero_result : MigrateObjectResult := {| mrNamespace := ""; mrName := ""; mrError := ""; mrCRD := "" |}.
Definition migrate_pool_start (items : list LiveObject) : pool migrate_event MigrateObjectResult nat :=
  pool_start zero_result 0%nat (Z.to_nat (effectiveConcurrency opts (Z.of_nat (length items)))) items.
Definition migrate_pool_step (tagCRD : bool) (t : migrateTarget) (items : list LiveObject) :
    relation (pool migrate_event MigrateObjectResult nat) :=
  pool_step (pool_work tagCRD t) (λ done _, S done) items.

(** ** Targets of a run *)

(** One version of the loop: its name when it is referenceable. *)
Definition referenceable_name (xrd : string) (i : nat) (raw : value) : res migrate_error (option string) :=
  match raw with
  | VObj vm =>
    match NestedBool vm ["referenceable"] with
    | Err e => Err (ErrReferenceableField xrd i e)
    | Ok (Some true) =>
      match NestedString vm ["name"] with
      | Ok (Some name) => if bool_decide (name = "") then Err (ErrReferenceableNoName xrd i) else Ok (Some name)
      | _ => Err (ErrReferenceableNoName xrd i)
      end
    | Ok _ => Ok None
    end
  | _ => Err (ErrVersionNotObject xrd i)
  end.

Definition xrdReferenceableVersion (xrd : obj) : res migrate_error string :=
  let name := u_GetName xrd in
  match NestedSlice xrd ["spec"; "versions"] with
  | Err e => Err (ErrVersionsField name e)
  | Ok None => Err (ErrNoVersions name)
  | Ok (Some versions) =>
    refs ← res_mapM (λ iv, referenceable_name name iv.1 iv.2) (imap pair versions);
    match omap id refs with
    | [v] => Ok v
    | [] => Err (ErrNoReferenceable name)
    | vs => Err (ErrManyReferenceable name vs)
    end
  end.

(** One generated CRD: its target, and a warning when the XRD says otherwise. *)
Definition generated_target (xrd : obj) (refVersion : string) (g : xrdadapter.GeneratedCRD)
    : res migrate_error (migrateTarget * list migrate_warning) :=
  crd ← res_wrap (ErrFetchingGenerated (role_text (xrdadapter.gcRole g)) (xrdadapter.gcName g) (u_GetName xrd)) (mwCRD w (xrdadapter.gcName g));
  storage ← crdStorageVersion crd;
  Ok ({| mtResourceKind := "XRD"; mtResource := u_GetName xrd; mtCRDName := xrdadapter.gcName g;
         mtRole := role_text (xrdadapter.gcRole g); mtGroup := xrdadapter.gcGroup g; mtKind := xrdadapter.gcKind g;
         mtPlural := xrdadapter.gcPlural g; mtStorageVersion := storage; mtStoredVersions := lcStoredVersions crd;
         mtNamespaced := lcNamespaced crd |},
      if bool_decide (refVersion = storage) then []
      else [WReferenceableDiffers (u_GetName xrd) refVersion (xrdadapter.gcName g) storage]).

Definition resolveMigrateTargets : res migrate_error (list migrateTarget * list migrate_warning) :=
  if bool_decide (moCRDName opts ≠ "") then
    crd ← res_wrap ErrFetching (mwCRD w (moCRDName opts));
    t ← targetFromCRD "CRD" (lcName crd) crd;
    Ok ([with_role t "composite"], [])
  else
    xrd ← res_wrap ErrFetching (mwXRD w (moXRDName opts));
    generated ← res_wrap ErrGenerated (xrdadapter.GeneratedCRDNames (Some xrd));
    refVersion ← xrdReferenceableVersion xrd;
    targets ← res_mapM (generated_target xrd refVersion) generated;
    Ok (targets.*1, concat targets.*2).

(** ** The run *)

Definition new_report (primary : migrateTarget) : MigrateStorageReport := {|
  msResourceKind := mtResourceKind primary; msResource := mtResource primary; msCRD := mtCRDName primary;
  msGroup := mtGroup primary; msKind := mtKind primary; msPlural := mtPlural primary;
  msStorageVersion := mtStorageVersion primary; msStoredVersions := mtStoredVersions primary;
  msNamespaced := mtNamespaced primary; msDryRun := moDryRun opts; msFieldManager := fieldManager opts;
  msObjects := []; msSucceeded := 0; msFailed := 0; msPruned := false; msPruneError := None; msWarnings := [];
  msCRDs := [] |}.

Definition failed (r : MigrateObjectResult) : bool := bool_decide (mrError r ≠ "").
Definition crd_report (t : migrateTarget) (results : list MigrateObjectResult) : MigrateCRDReport := {|
  mcCRD := mtCRDName t; mcRole := mtRole t; mcKind := mtKind t; mcPlural := mtPlural t; mcNamespaced := mtNamespaced t;
  mcStorageVersion := mtStorageVersion t; mcStoredVersions := mtStoredVersions t; mcObjects := results;
  mcSucceeded := length (filter (λ r, failed r = false) results);
  mcFailed := length (filter (λ r, failed r = true) results); mcPruned := false; mcPruneError := None |}.

Definition add_crd (rep : MigrateStorageReport) (c : MigrateCRDReport) : MigrateStorageReport := {|
  msResourceKind := msResourceKind rep; msResource := msResource rep; msCRD := msCRD rep; msGroup := msGroup rep;
  msKind := msKind rep; msPlural := msPlural rep; msStorageVersion := msStorageVersion rep;
  msStoredVersions := msStoredVersions rep; msNamespaced := msNamespaced rep; msDryRun := msDryRun rep;
  msFieldManager := msFieldManager rep; msObjects := msObjects rep ++ mcObjects c;
  msSucceeded := msSucceeded rep + mcSucceeded c; msFailed := msFailed rep + mcFailed c; msPruned := msPruned rep;
  msPruneError := msPruneError rep; msWarnings := msWarnings rep; msCRDs := msCRDs rep ++ [c] |}.

Definition finish_report (rep : MigrateStorageReport) (storedVersions : list string) (pruned : bool)
    (err : option prune_error) (warnings : list migrate_warning) (crds : list MigrateCRDReport) : MigrateStorageReport := {|
  msResourceKind := msResourceKind rep; msResource := msResource rep; msCRD := msCRD rep; msGroup := msGroup rep;
  msKind := msKind rep; msPlural := msPlural rep; msStorageVersion := msStorageVersion rep;
  msStoredVersions := storedVersions; msNamespaced := msNamespaced rep; msDryRun := msDryRun rep;
  msFieldManager := msFieldManager rep; msObjects := msObjects rep; msSucceeded := msSucceeded rep;
  msFailed := msFailed rep; msPruned := pruned; msPruneError := err; msWarnings := warnings; msCRDs := crds |}.

Abbreviation MM := (Handler migrate_event (res migrate_error MigrateStorageReport)).

(** One turn of the loop over the targets. *)
Definition migrate_target (multi : bool) (acc : MigrateStorageReport * list migrate_warning) (t : migrateTarget)
    : MM (MigrateStorageReport * list migrate_warning) :=
  let listNS := if mtNamespaced t then moNamespace opts else "" in
  let warnings := acc.2 ++ if negb (mtNamespaced t) && bool_decide (moNamespace opts ≠ "")
                           then [WNamespaceIgnored (moNamespace opts) (mtCRDName t)] else [] in
  match listAllByGVR (mwList w (mtGroup t, mtStorageVersion t, mtPlural t) listNS) with
  | Err e => exit (Err (ErrListing (mtGroup t) (mtStorageVersion t) (mtPlural t) e))
  | Ok items =>
    let '(es, results) := migrateAll multi t items in
    _ ← emit_all es;
    mret (add_crd acc.1 (crd_report t results), warnings)
  end.
Fixpoint migrate_targets (multi : bool) (acc : MigrateStorageReport * list migrate_warning) (ts : list migrateTarget)
    : MM (MigrateStorageReport * list migrate_warning) :=
  match ts with
  | [] => mret acc
  | t :: ts => acc ← migrate_target multi acc t; migrate_targets multi acc ts
  end.

Definition pruneStoredVersions (crd storageVersion : string) : list migrate_event * option prune_error :=
  match mwPruneGet w crd with
  | Some e => ([], Some (ErrPruneGetting e))
  | None =>
    match mwPruneSet w crd with
    | Some e => ([], Some (ErrPruneSetting e))
    | None => ([Prunes crd [storageVersion]], ErrPruneUpdating <$> mwPruneUpdate w crd [storageVersion])
    end
  end.

Definition failedCRDNote (rep : MigrateStorageReport) : list (string * string * nat) :=
  (λ c, (mcCRD c, mcRole c, mcFailed c)) <$> filter (λ c, (0 < mcFailed c)%nat) (msCRDs rep).

Definition prune_crd (c : MigrateCRDReport) : MM MigrateCRDReport :=
  let '(es, err) := pruneStoredVersions (mcCRD c) (mcStorageVersion c) in
  _ ← emit_all es;
  mret {| mcCRD := mcCRD c; mcRole := mcRole c; mcKind := mcKind c; mcPlural := mcPlural c; mcNamespaced := mcNamespaced c;
    mcStorageVersion := mcStorageVersion c;
    mcStoredVersions := if is_some err then mcStoredVersions c else [mcStorageVersion c]; mcObjects := mcObjects c;
    mcSucceeded := mcSucceeded c; mcFailed := mcFailed c; mcPruned := negb (is_some err); mcPruneError := err |}.
Fixpoint prune_crds (cs : list MigrateCRDReport) : MM (list MigrateCRDReport) :=
  match cs with
  | [] => mret []
  | c :: cs => c ← prune_crd c; cs ← prune_crds cs; mret (c :: cs)
  end.

Definition prune_run (primary : migrateTarget) (multi : bool) (rep : MigrateStorageReport) : MM MigrateStorageReport :=
  crds ← prune_crds (msCRDs rep);
  if negb multi then
    let '(es, err) := pruneStoredVersions (mtCRDName primary) (mtStorageVersion primary) in
    _ ← emit_all es;
    mret (finish_report rep (if is_some err then msStoredVersions rep else [mtStorageVersion primary])
                        (negb (is_some err)) err (msWarnings rep) crds)
  else
    match crds with
    | [] => mret (finish_report rep (msStoredVersions rep) (msPruned rep) (msPruneError rep) (msWarnings rep) crds)
    | c :: _ => mret (finish_report rep (mcStoredVersions c) (mcPruned c) (mcPruneError c) (msWarnings rep) crds)
    end.

Definition add_warnings (rep : MigrateStorageReport) (ws : list migrate_warning) : MigrateStorageReport :=
  finish_report rep (msStoredVersions rep) (msPruned rep) (msPruneError rep) (msWarnings rep ++ ws) (msCRDs rep).

Definition run_targets (primary : migrateTarget) (rest : list migrateTarget) (warnings : list migrate_warning)
    : MM MigrateStorageReport :=
  let targets := primary :: rest in
  if moPruneStoredVersions opts && bool_decide (moNamespace opts ≠ "") && existsb mtNamespaced targets
  then exit (Err ErrPruneOneNamespace)
  else
    let multi := (1 <? length targets)%nat in
    '(rep, warnings) ← migrate_targets multi (new_report primary, warnings) targets;
    let rep := finish_report rep (msStoredVersions rep) (msPruned rep) (msPruneError rep) warnings
                             (if multi then msCRDs rep else []) in
    if negb (moPruneStoredVersions opts) then mret rep
    else if moDryRun opts then mret (add_warnings rep [WPruneDryRun])
    else if (0 <? msFailed rep)%nat then mret (add_warnings rep [WPruneSkipped (msFailed rep) (failedCRDNote rep)])
    else prune_run primary multi rep.

(** There is always a first target: [no_target_never_happens] in MigrateProperties. *)
Definition RunMigrateStorage : list migrate_event * res migrate_error MigrateStorageReport :=
  if eqb (bool_decide (moXRDName opts = "")) (bool_decide (moCRDName opts = "")) then ([], Err ErrWhichTarget)
  else match resolveMigrateTargets with
       | Err e => ([], Err e)
       | Ok ([], _) => ([], Err PanicNoTarget)
       | Ok (primary :: rest, warnings) => ran (run_targets primary rest warnings)
       end.
End migrate.
