(* ===== verification/Sampling.v ===== *)
(** Bounding a [--live] run: the sampler and the listing it reads
    (internal/cli/sampling.go, the streaming of internal/cli/live.go).

    The generator behind the random strategy is a parameter (class [RandSource]). *)
From S2P Require Import Prelude Float64 Value Path Schema Adapters Migrate.
#[local] Open Scope Z_scope.

(** An object under test, and where it came from. *)
Record Sample := {
  saFile : string; saObject : obj; saVersion : string; saCRD : string; saCRDRole : string }.

(** ** Options *)

Definition SampleFirst : string := "first".
Definition SampleRandom : string := "random".
Definition SampleNewest : string := "newest".

Record SamplingOptions := { soMaxSamples : Z; soStrategy : string; soSeed : Z }.

Definition enabled (o : SamplingOptions) : bool := 0 <? soMaxSamples o.
Definition strategy (o : SamplingOptions) : string :=
  if bool_decide (soStrategy o = "") then SampleFirst else soStrategy o.

Inductive sampling_error := ErrNegativeCap (n : Z) | ErrUnknownStrategy (s : string) | ErrStrategyWithoutCap (s : string).

Definition ValidateSamplingOptions (o : SamplingOptions) : res sampling_error () :=
  if soMaxSamples o <? 0 then Err (ErrNegativeCap (soMaxSamples o))
  else if negb (bool_decide (strategy o ∈ [SampleFirst; SampleRandom; SampleNewest])) then Err (ErrUnknownStrategy (soStrategy o))
  else if bool_decide (soStrategy o ≠ "") && (soMaxSamples o =? 0) then Err (ErrStrategyWithoutCap (soStrategy o))
  else Ok ().

Record SamplingReport := {
  spStrategy : string; spCap : Z; spPopulation : Z; spTruncated : bool; spTested : Z; spSeed : Z }.

(** ** The sampler *)

(** [math/rand]: a number below the bound. *)
Class RandSource := {
  rand_state : Type;
  rand_New : Z → rand_state;
  rand_Intn : rand_state → Z → Z * rand_state;
}.
Section sampler.
Context `{RS : RandSource}.

(** [kept] and, for the newest strategy, [order], side by side. *)
Record sampler := {
  smOpts : SamplingOptions; smRnd : rand_state; smSeen : Z; smStoppedEarly : bool;
  smKept : list Sample; smOrder : list string }.

Definition newSampler (o : SamplingOptions) : sampler := {|
  smOpts := o; smRnd := rand_New (if soSeed o =? 0 then 1 else soSeed o); smSeen := 0; smStoppedEarly := false;
  smKept := []; smOrder := [] |}.

Definition with_kept (s : sampler) (kept : list Sample) (order : list string) : sampler := {|
  smOpts := smOpts s; smRnd := smRnd s; smSeen := smSeen s; smStoppedEarly := smStoppedEarly s;
  smKept := kept; smOrder := order |}.

Definition full (s : sampler) : bool * sampler :=
  if enabled (smOpts s) && bool_decide (strategy (smOpts s) = SampleFirst) &&
     (soMaxSamples (smOpts s) <=? Z.of_nat (length (smKept s)))
  then (true, {| smOpts := smOpts s; smRnd := smRnd s; smSeen := smSeen s; smStoppedEarly := true;
                 smKept := smKept s; smOrder := smOrder s |})
  else (false, s).

(** The loop of [trimOldest] over the texts after the first. *)
Fixpoint oldest_from (i oldest : nat) (ts : string) (rest : list string) : nat :=
  match rest with
  | [] => oldest
  | t :: rest => if str_lt t ts then oldest_from (S i) i t rest else oldest_from (S i) oldest ts rest
  end.
Definition oldest_index (order : list string) : nat :=
  match order with [] => 0%nat | t :: rest => oldest_from 1 0 t rest end.
Definition trimOldest (s : sampler) : sampler :=
  let oldest := oldest_index (smOrder s) in
  with_kept s (delete oldest (smKept s)) (delete oldest (smOrder s)).

(** [ts] is the object's creation timestamp as it is formatted. *)
Definition add (s : sampler) (sample : Sample) (ts : string) : sampler :=
  let s := {| smOpts := smOpts s; smRnd := smRnd s; smSeen := smSeen s + 1; smStoppedEarly := smStoppedEarly s;
              smKept := smKept s; smOrder := smOrder s |} in
  let cap := soMaxSamples (smOpts s) in
  let appended := with_kept s (smKept s ++ [sample]) (smOrder s) in
  if negb (enabled (smOpts s)) then appended
  else if bool_decide (strategy (smOpts s) = SampleFirst) then
    if Z.of_nat (length (smKept s)) <? cap then appended else s
  else if bool_decide (strategy (smOpts s) = SampleRandom) then
    if Z.of_nat (length (smKept s)) <? cap then appended
    else
      let '(j, rnd) := rand_Intn (smRnd s) (smSeen s) in
      {| smOpts := smOpts s; smRnd := rnd; smSeen := smSeen s; smStoppedEarly := smStoppedEarly s;
         smKept := if j <? cap then <[Z.to_nat j := sample]> (smKept s) else smKept s; smOrder := smOrder s |}
  else if bool_decide (strategy (smOpts s) = SampleNewest) then
    let s := with_kept s (smKept s ++ [sample]) (smOrder s ++ [ts]) in
    if cap <? Z.of_nat (length (smKept s)) then trimOldest s else s
  else s.

(** Newest first, then by file. *)
Definition newer (a b : Sample * string) : bool :=
  if bool_decide (a.2 = b.2) then str_lt (saFile a.1) (saFile b.1) else str_lt b.2 a.2.

Definition sampler_result (s : sampler) : list Sample * option SamplingReport :=
  let kept := if enabled (smOpts s) && bool_decide (strategy (smOpts s) = SampleNewest)
              then fst <$> sort_by newer (zip (smKept s) (smOrder s)) else smKept s in
  let tested := Z.of_nat (length kept) in
  if negb (enabled (smOpts s)) || ((smSeen s <=? tested) && negb (smStoppedEarly s)) then (kept, None)
  else (kept, Some {| spStrategy := strategy (smOpts s); spCap := soMaxSamples (smOpts s);
                      spPopulation := if smStoppedEarly s then 0 else smSeen s; spTruncated := smStoppedEarly s;
                      spTested := tested; spSeed := soSeed (smOpts s) |}).

(** ** Streaming *)

(** The objects of one page; [true] when the sampler is full. *)
Fixpoint stream_page (s : sampler) (items : list (Sample * string)) : bool * sampler :=
  match items with
  | [] => (false, s)
  | (sample, ts) :: items =>
    let '(stop, s) := full (add s sample ts) in
    if stop : bool then (true, s) else stream_page s items
  end.
Fixpoint streamLiveSamples (s : sampler) (l : listing (Sample * string)) : res string sampler :=
  match l with
  | ListFails e => Err e
  | Page items l => let '(stop, s) := stream_page s items in if stop : bool then Ok s else streamLiveSamples s l
  | LastPage items => Ok (stream_page s items).2
  end.

(** One CRD after another: the listing of each, in the namespace it is read from. *)
Fixpoint stream_all (s : sampler) (ls : list (listing (Sample * string))) : res string sampler :=
  match ls with
  | [] => Ok s
  | l :: ls => s ← streamLiveSamples s l; stream_all s ls
  end.

Section live.
Context `{U : Unstructured}.

(** [list] answers the listing of a resource at the hub version in a namespace, its
    objects as samples of the CRD named. *)
Definition FetchLiveSamplesSampled (list_ : xrdadapter.GeneratedCRD → string → listing (Sample * string)) (xrd : obj)
    (sampling : SamplingOptions) (namespace : string)
    : res (xrdadapter.generated_error + string) (list Sample * option SamplingReport) :=
  generated ← res_wrap inl (xrdadapter.GeneratedCRDNames (Some xrd));
  let ns g := match xrdadapter.gcRole g with xrdadapter.RoleClaim => namespace | xrdadapter.RoleComposite => "" end in
  s ← res_wrap inr (stream_all (newSampler sampling) ((λ g, list_ g (ns g)) <$> generated));
  Ok (sampler_result s).
End live.

Definition FetchLiveSamplesCRDSampled (list_ : string → listing (Sample * string)) (crd : LiveCRD)
    (sampling : SamplingOptions) (namespace : string) : res string (list Sample * option SamplingReport) :=
  if bool_decide (lcGroup crd = "") then Err "crd is missing spec.group"
  else if bool_decide (lcPlural crd = "") then Err "crd is missing spec.names.plural"
  else
    s ← streamLiveSamples (newSampler sampling) (list_ (if lcNamespaced crd then namespace else ""));
    Ok (sampler_result s).
End sampler.
