(* ===== verification/Retarget.v ===== *)
(** [convctl retarget]: pointing every live object of an XRD at the Compositions
    labelled for a version (internal/cli/retarget.go).

    A run is a function of what its reads and its patches answer; it yields the
    patches, in order, and its report.  What a server makes of a JSON merge patch is
    RFC 7386, at the end of the file: with it, a run that patched everything leaves
    nothing to a second one. *)
From S2P Require Import Prelude Pool Float64 Value Path Schema Rules Diagnostics Adapters Duration Rollout Migrate.
#[local] Open Scope Z_scope.
#[local] Existing Instances xrdadapter.Scope_eq_dec xrdadapter.Confidence_eq_dec.

(** ** Options *)

Definition defaultRetargetFieldManager : string := "convctl-retarget".
Definition defaultXRDAPIVersionLabel : string := "xrd-api-version".

Record RetargetOptions := {
  rgXRDName : string; rgTo : string; rgDryRun : bool; rgConcurrency : Z; rgCanary : string; rgLabelKey : string;
  rgFieldManager : string }.

Definition fieldManager (o : RetargetOptions) : string :=
  if bool_decide (rgFieldManager o = "") then defaultRetargetFieldManager else rgFieldManager o.
Definition labelKey (o : RetargetOptions) : string :=
  if bool_decide (rgLabelKey o = "") then defaultXRDAPIVersionLabel else rgLabelKey o.
Definition effectiveConcurrency (o : RetargetOptions) (n : Z) : Z :=
  let c := rgConcurrency o in
  let c := if c <=? 0 then 1 else c in
  let c := if n <? c then n else c in
  if c <? 1 then 1 else c.

(** ** The report *)

Record RetargetObjectResult := {
  roCRD : string; roNamespace : string; roName : string; roError : string; roSkipped : bool }.
Inductive retarget_warning :=
| WScopeInferred (reason : xrdadapter.scope_reason)
| WCanary (canary : string) (selected total : nat) (compositesFirst : bool).
Record RetargetReport := {
  rgrXRD : string; rgrTo : string; rgrLabelKey : string; rgrScope : xrdadapter.Scope; rgrDryRun : bool; rgrFieldManager : string;
  rgrSelected : nat; rgrTotal : nat; rgrObjects : list RetargetObjectResult; rgrPatched : nat; rgrSkipped : nat;
  rgrFailed : nat; rgrWarnings : list retarget_warning }.
Definition HasFailures (r : RetargetReport) : bool := (0 <? rgrFailed r)%nat.

Inductive retarget_error :=
| ErrXRDFlag
| ErrToFlag
| ErrFetchingXRD (err : string)
| ErrGeneratedCRDs (e : xrdadapter.generated_error)
| ErrReadingVersions (err : string)
| ErrNotAVersion (version xrd : string) (have : list string)
| ErrScopeUnknown (reason : xrdadapter.scope_reason)
| ErrReferenceable (e : migrate_error)
| ErrListingObjects (group version resource err : string)
| ErrInvalidCanary (canary : string).

(** ** Where the machinery sits, and the patch *)

Definition machineryPrefix (scope : xrdadapter.Scope) (role : xrdadapter.GeneratedCRDRole) : list string :=
  match role with
  | xrdadapter.RoleClaim => ["spec"]
  | xrdadapter.RoleComposite => if bool_decide (scope = xrdadapter.ScopeLegacyCluster) then ["spec"] else ["spec"; "crossplane"]
  end.

(** The nesting is built from the inside out; the first segment comes last. *)
Definition machinery_patch (labelKey to : string) : obj :=
  {["compositionRef" := VNull; "compositionRevisionRef" := VNull;
    "compositionSelector" := VObj {["matchLabels" := VObj {[labelKey := VStr to]}]}]}.
Definition retargetPatch (prefix : list string) (labelKey to : string) : obj :=
  {[hd "" prefix := VObj (foldr (λ seg out, {[seg := VObj out]}) (machinery_patch labelKey to) (tail prefix))]}.

(** [unstructured.NestedStringMap]. *)
Class StringMaps := { NestedStringMap : obj → list string → res string (option (gmap string string)) }.
Class StringMapsLaws (SM : StringMaps) := {
  nested_string_map_found o p m : getValue o p = Some (VObj (VStr <$> m)) → NestedStringMap o p = Ok (Some m);
  nested_string_map_inv o p m : NestedStringMap o p = Ok (Some m) → getValue o p = Some (VObj (VStr <$> m));
}.

Section noop.
Context `{U : Unstructured} `{SM : StringMaps}.

(** [_, found, _ :=] of an accessor. *)
Definition found {E A} (r : res E (option A)) : bool := match r with Ok (Some _) => true | _ => false end.
Definition retargetIsNoOp (o : obj) (prefix : list string) (labelKey to : string) : bool :=
  if found (NestedMap o (prefix ++ ["compositionRef"])) then false
  else if found (NestedMap o (prefix ++ ["compositionRevisionRef"])) then false
  else match NestedStringMap o (prefix ++ ["compositionSelector"; "matchLabels"]) with
       | Ok (Some labels) => bool_decide (default "" (labels !! labelKey) = to)
       | _ => false
       end.
End noop.

(** ** The canary *)

Definition applyCanary (total : Z) (canary : string) : res retarget_error Z :=
  if bool_decide (canary = "") then Ok total
  else if has_suffix canary "%" then
    match Atoi (trim_suffix canary "%") with
    | Some pct =>
      if (pct <? 0) || (100 <? pct) then Err (ErrInvalidCanary canary)
      else
        let n := total * pct ÷ 100 in
        Ok (if (n =? 0) && (0 <? pct) && (0 <? total) then 1 else n)
    | None => Err (ErrInvalidCanary canary)
    end
  else
    match Atoi canary with
    | Some n => if n <? 0 then Err (ErrInvalidCanary canary) else Ok (if total <? n then total else n)
    | None => Err (ErrInvalidCanary canary)
    end.

(** ** The run *)

(** A listed object: its name and namespace, and all of it. *)
Record RetargetItem := { riName : string; riNamespace : string; riObject : obj }.
Record MergePatch := {
  mpGroup : string; mpVersion : string; mpResource : string;
  mpNamespace : option string;                    (* of a namespaced resource *)
  mpName : string; mpPatch : obj; mpManager : string; mpDryRun : bool }.
Record target := {
  tgGroup : string; tgVersion : string; tgResource : string; tgCRD : string; tgNamespaced : bool; tgPrefix : list string }.

(** What the cluster answers. *)
Record retarget_world := {
  rwXRD : string → res string obj;
  rwList : string * string * string → listing RetargetItem;     (* of group, version, resource *)
  rwPatch : MergePatch → option string }.

Section retarget.
Context `{U : Unstructured} `{SM : StringMaps} (w : retarget_world) (opts : RetargetOptions).

Definition version_name (raw : value) : option string :=
  match raw with VObj vm => Some (xrdadapter.read_string vm ["name"]) | _ => None end.
Definition retargetVersionExists (xrd : obj) (version : string) : res retarget_error () :=
  match NestedSlice xrd ["spec"; "versions"] with
  | Err e => Err (ErrReadingVersions e)
  | Ok versions =>
    let names := omap version_name (default [] versions) in
    if bool_decide (version ∈ names) then Ok ()
    else Err (ErrNotAVersion version (u_GetName xrd) (filter (λ n, n ≠ "") names))
  end.

Definition target_of (scope : xrdadapter.Scope) (refVersion : string) (g : xrdadapter.GeneratedCRD) : target := {|
  tgGroup := xrdadapter.gcGroup g; tgVersion := refVersion; tgResource := xrdadapter.gcPlural g; tgCRD := xrdadapter.gcName g;
  tgNamespaced := xrdadapter.gcNamespaced g; tgPrefix := machineryPrefix scope (xrdadapter.gcRole g) |}.
(** The objects of a generated CRD, each with its target. *)
Definition list_target (scope : xrdadapter.Scope) (refVersion : string) (g : xrdadapter.GeneratedCRD)
    : res retarget_error (list (target * RetargetItem)) :=
  let t := target_of scope refVersion g in
  match listAllByGVR (rwList w (tgGroup t, tgVersion t, tgResource t)) with
  | Ok got => Ok (pair t <$> got)
  | Err e => Err (ErrListingObjects (tgGroup t) (tgVersion t) (tgResource t) e)
  end.

(** Everything before the first patch: the scope, whether there is more than one
    generated CRD, all the objects, and how many of them to take. *)
Definition prepare : res retarget_error (xrdadapter.ScopeResolution * bool * list (target * RetargetItem) * nat) :=
  if bool_decide (rgXRDName opts = "") then Err ErrXRDFlag
  else if bool_decide (rgTo opts = "") then Err ErrToFlag
  else
    xrd ← res_wrap ErrFetchingXRD (rwXRD w (rgXRDName opts));
    let scope := xrdadapter.ResolveScope (Some xrd) in
    generated ← res_wrap ErrGeneratedCRDs (xrdadapter.GeneratedCRDNames (Some xrd));
    _ ← retargetVersionExists xrd (rgTo opts);
    if xrdadapter.Indeterminate scope then Err (ErrScopeUnknown (xrdadapter.srReason scope))
    else
      refVersion ← res_wrap ErrReferenceable (xrdReferenceableVersion xrd);
      items ← res_mapM (list_target (xrdadapter.srScope scope) refVersion) generated;
      selected ← applyCanary (Z.of_nat (length (concat items))) (rgCanary opts);
      Ok (scope, (1 <? length generated)%nat, concat items, Z.to_nat selected).

Definition patch_of (t : target) (item : RetargetItem) : MergePatch := {|
  mpGroup := tgGroup t; mpVersion := tgVersion t; mpResource := tgResource t;
  mpNamespace := if tgNamespaced t then Some (riNamespace item) else None; mpName := riName item;
  mpPatch := retargetPatch (tgPrefix t) (labelKey opts) (rgTo opts); mpManager := fieldManager opts; mpDryRun := rgDryRun opts |}.
Definition retargetOne (ti : target * RetargetItem) : list MergePatch * RetargetObjectResult :=
  let '(t, item) := ti in
  let result err skipped := {| roCRD := tgCRD t; roNamespace := riNamespace item; roName := riName item; roError := err; roSkipped := skipped |} in
  if tgNamespaced t && bool_decide (riNamespace item = "") then ([], result "namespaced object is missing metadata.namespace" false)
  else if retargetIsNoOp (riObject item) (tgPrefix t) (labelKey opts) (rgTo opts) then ([], result "" true)
  else ([patch_of t item], result (default "" (rwPatch w (patch_of t item))) false).

(** How an object counts. *)
Inductive outcome := Patched | Skipped | Failed.
#[global] Instance outcome_eq_dec : EqDecision outcome.
Proof. solve_decision. Defined.
Definition outcome_of (r : RetargetObjectResult) : outcome :=
  if bool_decide (roError r ≠ "") then Failed else if roSkipped r then Skipped else Patched.
Definition count_of (o : outcome) (rs : list RetargetObjectResult) : nat := length (filter (λ r, outcome_of r = o) rs).

Definition retarget_warnings (scope : xrdadapter.ScopeResolution) (multi : bool) (selected total : nat) : list retarget_warning :=
  (if bool_decide (xrdadapter.srConfidence scope = xrdadapter.ConfidenceHigh) then [] else [WScopeInferred (xrdadapter.srReason scope)]) ++
  (if (selected <? total)%nat then [WCanary (rgCanary opts) selected total multi] else []).
Definition retarget_report (scope : xrdadapter.ScopeResolution) (multi : bool) (selected total : nat)
    (results : list RetargetObjectResult) : RetargetReport := {|
  rgrXRD := rgXRDName opts; rgrTo := rgTo opts; rgrLabelKey := labelKey opts; rgrScope := xrdadapter.srScope scope;
  rgrDryRun := rgDryRun opts; rgrFieldManager := fieldManager opts; rgrSelected := selected; rgrTotal := total;
  rgrObjects := results; rgrPatched := count_of Patched results; rgrSkipped := count_of Skipped results;
  rgrFailed := count_of Failed results; rgrWarnings := retarget_warnings scope multi selected total |}.

(** One object after the other; every schedule of the worker pool does the same. *)
Definition RunRetarget : list MergePatch * res retarget_error RetargetReport :=
  match prepare with
  | Err e => ([], Err e)
  | Ok (scope, multi, items, selected) =>
    let done := retargetOne <$> take selected items in
    (done ≫= fst, Ok (retarget_report scope multi selected (length items) (snd <$> done)))
  end.

(** The worker pool (Pool.v). *)
Definition no_result : RetargetObjectResult := {| roCRD := ""; roNamespace := ""; roName := ""; roError := ""; roSkipped := false |}.
Definition retarget_pool_start (items : list (target * RetargetItem)) : pool MergePatch RetargetObjectResult nat :=
  pool_start no_result 0%nat (Z.to_nat (effectiveConcurrency opts (Z.of_nat (length items)))) items.
Definition retarget_pool_step (items : list (target * RetargetItem)) : relation (pool MergePatch RetargetObjectResult nat) :=
  pool_step retargetOne (λ done _, S done) items.
End retarget.

(** ** A JSON merge patch

    RFC 7386: an object is merged member by member, a null removes the member, and
    anything else replaces what is there. *)

Definition members (target : option value) : obj := match target with Some (VObj m) => m | _ => ∅ end.
Fixpoint merge_patch (patch : value) (target : option value) : value :=
  match patch with
  | VObj pm =>
    VObj (merge (λ tv f, match f with None => tv | Some None => None | Some (Some g) => Some (g tv) end)
            (members target) ((λ v, match v with VNull => None | _ => Some (merge_patch v) end) <$> pm))
  | v => v
  end.
Definition patched (patch o : obj) : obj := members (Some (merge_patch (VObj patch) (Some (VObj o)))).

Lemma patched_obj patch o : VObj (patched patch o) = merge_patch (VObj patch) (Some (VObj o)).
Proof. done. Qed.
#[local] Arguments patched : simpl never.

Definition walk_opt (v : option value) (q : list string) : option value := v ≫= λ v, walk v q.
Lemma walk_opt_member target s q : walk_opt (members target !! s) q = walk_opt target (s :: q).
Proof. by destruct target as [[| | | | | |m]|]. Qed.

Lemma merge_patch_step pm target s q : walk (merge_patch (VObj pm) target) (s :: q) =
  match pm !! s with
  | None => walk_opt target (s :: q)
  | Some VNull => None
  | Some v => walk (merge_patch v (members target !! s)) q
  end.
Proof.
  rewrite <-walk_opt_member. cbn [merge_patch walk]. rewrite lookup_merge, lookup_fmap.
  destruct (pm !! s) as [v|]; cbn; destruct (members target !! s); done || by destruct v.
Qed.

(** What the patch does not reach reads as before. *)
Lemma merge_patch_frame q : ∀ pv target,
  (∀ e v, walk pv e = Some v → e `prefix_of` q → ∃ m, v = VObj m) → walk pv q = None →
  (∀ k m v, walk pv k = Some (VObj m) → walk_opt target k = Some v → ∃ tm, v = VObj tm) →
  walk (merge_patch pv target) q = walk_opt target q.
Proof.
  induction q as [|s q IH]; intros pv target Hl Hn Hs; [done|].
  destruct (Hl [] pv eq_refl) as [pm ->]; [apply prefix_nil|]. rewrite merge_patch_step. cbn in Hn.
  destruct (pm !! s) as [v|] eqn:Es; [|done].
  assert (walk (merge_patch v (members target !! s)) q = walk_opt target (s :: q)) as He.
  { rewrite <-walk_opt_member. apply IH; [|done|].
    - intros e x He Hp. apply (Hl (s :: e)); [cbn; by rewrite Es|by apply prefix_cons].
    - intros k m x Hk. rewrite walk_opt_member. apply (Hs (s :: k) m). cbn. by rewrite Es. }
  destruct v; try done. destruct (Hl [s] VNull) as [m [=]]; [cbn; by rewrite Es|]. apply prefix_cons, prefix_nil.
Qed.

(** ** What a retargeted object looks like *)

Definition nest (l : list string) (m : obj) : obj := foldr (λ seg out, {[seg := VObj out]}) m l.
Lemma retargetPatch_nest prefix key to : prefix ≠ [] → retargetPatch prefix key to = nest prefix (machinery_patch key to).
Proof. by destruct prefix. Qed.

Lemma walk_singleton s v e x : walk (VObj {[s := v]}) e = Some x → e = [] ∨ ∃ e', e = s :: e' ∧ walk v e' = Some x.
Proof.
  destruct e as [|y e]; [by left|]. cbn. intros H. right. destruct (decide (y = s)) as [->|Hne].
  - rewrite lookup_singleton_eq in H. by exists e.
  - by rewrite lookup_singleton_ne in H.
Qed.
Lemma nest_tree l m e v : walk (VObj (nest l m)) e = Some v →
  (e `prefix_of` l ∧ ∃ n, v = VObj n) ∨ ∃ e', e = l ++ e' ∧ walk (VObj m) e' = Some v.
Proof.
  revert e; induction l as [|s l IH]; intros e He; [right; by exists e|].
  destruct (walk_singleton _ _ _ _ He) as [->|(e' & -> & He')].
  - left. split; [apply prefix_nil|]. injection He as <-. by eexists.
  - destruct (IH e' He') as [[Hp Hv]|(e'' & -> & Hm)]; [left|right; by exists e'']. split; [by apply prefix_cons|done].
Qed.
Lemma merge_nest l m target : walk (merge_patch (VObj (nest l m)) target) l = Some (merge_patch (VObj m) (walk_opt target l)).
Proof.
  revert target; induction l as [|s l IH]; intros target; [cbn [walk nest foldr]; by destruct target|].
  rewrite merge_patch_step. cbn [nest foldr]. rewrite lookup_singleton_eq. fold (nest l m). by rewrite IH, walk_opt_member.
Qed.

(** The three places a patch writes. *)
Definition touched (prefix : list string) (key : string) : list (list string) :=
  [prefix ++ ["compositionRef"]; prefix ++ ["compositionRevisionRef"]; prefix ++ ["compositionSelector"; "matchLabels"; key]].
Definition untouched (prefix : list string) (key : string) (q : list string) : Prop :=
  ∀ t, t ∈ touched prefix key → ¬ t `prefix_of` q ∧ ¬ q `prefix_of` t.
(** Objects on the way to the three. *)
Definition spine (o : obj) (prefix : list string) (key : string) : Prop :=
  ∀ t k v, t ∈ touched prefix key → k `prefix_of` t → k ≠ t → getValue o k = Some v → ∃ m, v = VObj m.

Lemma machinery_tree key to e v : walk (VObj (machinery_patch key to)) e = Some v →
  ∃ t, t ∈ touched [] key ∧ e `prefix_of` t ∧ ((∃ m, v = VObj m) ∧ e ≠ t ∨ e = t ∧ ∀ m, v ≠ VObj m).
Proof.
  destruct e as [|s e].
  { intros [= <-]. exists ["compositionRef"]. split; [by left|]. split; [apply prefix_nil|]. left. split; [by eexists|done]. }
  cbn [walk]. unfold machinery_patch. destruct (decide (s = "compositionRef")) as [->|H1].
  { rewrite lookup_insert_eq. destruct e; [|done]. intros [= <-]. exists ["compositionRef"]. split; [by left|]. split; [done|]. by right. }
  rewrite lookup_insert_ne by done. destruct (decide (s = "compositionRevisionRef")) as [->|H2].
  { rewrite lookup_insert_eq. destruct e; [|done]. intros [= <-]. exists ["compositionRevisionRef"]. split; [set_solver|]. split; [done|]. by right. }
  rewrite lookup_insert_ne by done. destruct (decide (s = "compositionSelector")) as [->|H3]; [|by rewrite lookup_singleton_ne].
  rewrite lookup_singleton_eq. intros H. exists ["compositionSelector"; "matchLabels"; key]. split; [set_solver|].
  destruct (walk_singleton _ _ _ _ H) as [->|(e' & -> & H')].
  { injection H as <-. split; [apply prefix_cons, prefix_nil|]. left. split; [by eexists|done]. }
  destruct (walk_singleton _ _ _ _ H') as [->|(e'' & -> & H'')].
  { injection H' as <-. split; [do 2 apply prefix_cons; apply prefix_nil|]. left. split; [by eexists|done]. }
  destruct e''; [|done]. injection H'' as <-. split; [done|]. by right.
Qed.
Lemma patch_tree prefix key to e v : prefix ≠ [] → walk (VObj (retargetPatch prefix key to)) e = Some v →
  ∃ t, t ∈ touched prefix key ∧ e `prefix_of` t ∧ ((∃ m, v = VObj m) ∧ e ≠ t ∨ e = t ∧ ∀ m, v ≠ VObj m).
Proof.
  intros Hp. rewrite retargetPatch_nest by done. intros [[He Hv]|(e' & -> & He')]%nest_tree.
  - exists (prefix ++ ["compositionRef"]). split; [by left|]. split; [by apply prefix_app_r|]. left. split; [done|]. intros ->.
    apply prefix_length in He. rewrite length_app in He. cbn in He. lia.
  - destruct (machinery_tree key to e' v He') as (t & Ht & Hpre & Hc). exists (prefix ++ t). split_and!.
    + unfold touched in *. set_solver.
    + by apply prefix_app.
    + destruct Hc as [[Hm Hne]|[-> Hm]]; [left|right; done]. split; [done|]. by intros ?%(inj (app prefix)).
Qed.

Lemma retarget_frame o prefix key to q : prefix ≠ [] → spine o prefix key → untouched prefix key q →
  getValue (patched (retargetPatch prefix key to) o) q = getValue o q.
Proof.
  intros Hp Hs Hu. unfold getValue at 1. rewrite patched_obj. apply (merge_patch_frame q _ (Some (VObj o))).
  - intros e v He Heq. destruct (patch_tree _ _ _ _ _ Hp He) as (t & Ht & _ & [[Hm _]|[-> _]]); [done|]. by destruct (Hu t Ht).
  - destruct (walk _ q) as [v|] eqn:E; [|done]. destruct (patch_tree _ _ _ _ _ Hp E) as (t & Ht & Hqt & _). by destruct (Hu t Ht).
  - intros k m v Hk Hv. destruct (patch_tree _ _ _ _ _ Hp Hk) as (t & Ht & Hkt & [[_ Hne]|[_ Hm]]); [|by destruct (Hm m)].
    by eapply Hs.
Qed.

(** The labels of the selector are strings, as the API server demands. *)
Definition selector_labels (prefix : list string) : list string := prefix ++ ["compositionSelector"; "matchLabels"].
Definition string_labels (o : obj) (prefix : list string) : Prop :=
  ∃ labels : gmap string string, members (getValue o (selector_labels prefix)) = VStr <$> labels.

Lemma walk_opt_app v p q : walk v (p ++ q) = walk_opt (walk v p) q.
Proof.
  revert v; induction p as [|s p IH]; intros v; [done|]. destruct v; try done. cbn. destruct (m !! s); [apply IH|done].
Qed.
Lemma getValue_app o p q : getValue o (p ++ q) = walk_opt (getValue o p) q.
Proof. apply walk_opt_app. Qed.
Lemma walk_patched prefix key to o q : prefix ≠ [] →
  getValue (patched (retargetPatch prefix key to) o) (prefix ++ q) =
  walk (merge_patch (VObj (machinery_patch key to)) (getValue o prefix)) q.
Proof.
  intros Hp. unfold getValue at 1. rewrite patched_obj, retargetPatch_nest by done.
  by rewrite walk_opt_app, (merge_nest prefix (machinery_patch key to) (Some (VObj o))).
Qed.

Lemma no_pin prefix key to o pin : prefix ≠ [] → pin ∈ ["compositionRef"; "compositionRevisionRef"] →
  absent (patched (retargetPatch prefix key to) o) (prefix ++ [pin]).
Proof.
  intros Hp Hpin. assert (machinery_patch key to !! pin = Some VNull) as Hn.
  { by apply elem_of_cons in Hpin as [->| ->%list_elem_of_singleton]. }
  split; [by rewrite walk_patched, merge_patch_step, Hn by done|]. intros k v _ Hk Hv.
  destruct (decide (k = prefix ++ [pin])) as [->|Hne].
  { by rewrite walk_patched, merge_patch_step, Hn in Hv by done. }
  assert (k `prefix_of` prefix) as [l ->].
  { destruct Hk as [z Hz]. destruct z as [|z zs _] using rev_ind; [by rewrite app_nil_r in Hz|].
    rewrite app_assoc in Hz. apply app_inj_tail in Hz as [-> _]. by apply prefix_app_r. }
  assert (∃ m, retargetPatch (k ++ l) key to = nest k m) as [m Hm].
  { rewrite retargetPatch_nest by done. unfold nest. rewrite foldr_app. by eexists. }
  revert Hv. unfold getValue. rewrite patched_obj, Hm, (merge_nest k m (Some (VObj o))). intros [= <-]. by eexists.
Qed.

Lemma labels_after prefix key to o : prefix ≠ [] →
  getValue (patched (retargetPatch prefix key to) o) (selector_labels prefix) =
  Some (VObj (<[key := VStr to]> (members (getValue o (selector_labels prefix))))).
Proof.
  intros Hp. unfold selector_labels. rewrite walk_patched by done. rewrite merge_patch_step.
  change (machinery_patch key to !! "compositionSelector") with (Some (VObj {["matchLabels" := VObj {[key := VStr to]}]})).
  cbn beta iota. rewrite merge_patch_step. rewrite lookup_singleton_eq. cbn beta iota.
  assert (∀ target, merge_patch (VObj {[key := VStr to]}) target = VObj (<[key := VStr to]> (members target))) as Hm.
  { intros target. cbn. f_equal. apply map_eq. intros s. rewrite lookup_merge, lookup_fmap.
    destruct (decide (s = key)) as [->|Hne].
    - rewrite lookup_singleton_eq, lookup_insert_eq. cbn. by destruct (members target !! key).
    - rewrite lookup_singleton_ne, lookup_insert_ne by done. cbn. by destruct (members target !! s). }
  rewrite Hm. cbn [walk]. do 4 f_equal. rewrite getValue_app.
  generalize (getValue o prefix). intros target. rewrite <-!walk_opt_member. cbn. by destruct (members _ !! "matchLabels").
Qed.

Section again.
Context `{U : Unstructured} {UL : UnstructuredLaws U} `{SM : StringMaps} {SML : StringMapsLaws SM}.

(** The object carries no pin and selects the version. *)
Definition on_target (o : obj) (prefix : list string) (key to : string) : Prop :=
  (∀ pin m, pin ∈ ["compositionRef"; "compositionRevisionRef"] → getValue o (prefix ++ [pin]) ≠ Some (VObj m)) ∧
  getValue o (selector_labels prefix ++ [key]) = Some (VStr to).

Lemma retargeted_is_noop prefix key to o : prefix ≠ [] → string_labels o prefix →
  retargetIsNoOp (patched (retargetPatch prefix key to) o) prefix key to = true.
Proof.
  intros Hp [labels Hl]. unfold retargetIsNoOp.
  rewrite !nested_map_absent by (apply no_pin; [done|set_solver]). cbn.
  rewrite (nested_string_map_found _ _ (<[key := to]> labels)).
  - rewrite lookup_insert_eq. by apply bool_decide_eq_true.
  - fold (selector_labels prefix). by rewrite labels_after, Hl, fmap_insert.
Qed.
Lemma noop_on_target prefix key to o : to ≠ "" → retargetIsNoOp o prefix key to = true → on_target o prefix key to.
Proof.
  intros Hto. unfold retargetIsNoOp. destruct (found _) eqn:E1; [done|]. destruct (found (NestedMap o (_ ++ ["compositionRevisionRef"]))) eqn:E2; [done|].
  destruct (NestedStringMap _ _) as [[labels|]|] eqn:El; [|done..]. intros Ht%bool_decide_eq_true.
  apply nested_string_map_inv in El. split.
  - intros pin m Hpin Hm%nested_map_found. apply elem_of_cons in Hpin as [->| ->%list_elem_of_singleton]; by rewrite Hm in *.
  - unfold selector_labels. rewrite getValue_app, El. cbn. rewrite lookup_fmap.
    destruct (labels !! key) as [v|]; cbn in Ht |- *; by subst.
Qed.
Lemma retargeted_on_target prefix key to o : prefix ≠ [] → on_target (patched (retargetPatch prefix key to) o) prefix key to.
Proof.
  intros Hp. split.
  - intros pin m Hpin. by rewrite (proj1 (no_pin prefix key to o pin Hp Hpin)).
  - rewrite getValue_app, labels_after by done. cbn. by rewrite lookup_insert_eq.
Qed.
(** ** The run, again *)

Context (opts : RetargetOptions).

(** An object as a successful patch leaves it; one that is on target is not patched. *)
Definition repointed (t : target) (item : RetargetItem) : RetargetItem :=
  if retargetIsNoOp (riObject item) (tgPrefix t) (labelKey opts) (rgTo opts) then item
  else {| riName := riName item; riNamespace := riNamespace item;
          riObject := patched (retargetPatch (tgPrefix t) (labelKey opts) (rgTo opts)) (riObject item) |}.

(** The cluster after every object was patched: the same XRD, and the objects that
    are listed are those of before, repointed. *)
Definition all_repointed (w w' : retarget_world) : Prop :=
  rwXRD w' (rgXRDName opts) = rwXRD w (rgXRDName opts) ∧
  ∀ xrd generated refVersion g, rwXRD w (rgXRDName opts) = Ok xrd → xrdadapter.GeneratedCRDNames (Some xrd) = Ok generated →
    xrdReferenceableVersion xrd = Ok refVersion → g ∈ generated →
    let t := target_of (xrdadapter.srScope (xrdadapter.ResolveScope (Some xrd))) refVersion g in
    ∀ items, listAllByGVR (rwList w (tgGroup t, tgVersion t, tgResource t)) = Ok items →
      listAllByGVR (rwList w' (tgGroup t, tgVersion t, tgResource t)) = Ok (repointed t <$> items).

Lemma prefix_not_nil scope refVersion g : tgPrefix (target_of scope refVersion g) ≠ [].
Proof. cbn. unfold machineryPrefix. destruct (xrdadapter.gcRole g); [case_bool_decide|]; done. Qed.

Lemma applyCanary_bound total canary n : 0 <= total → applyCanary total canary = Ok n → 0 <= n <= total.
Proof.
  intros Ht. unfold applyCanary. case_bool_decide; [intros [= <-]; lia|]. destruct (has_suffix _ _).
  - destruct (Atoi _) as [pct|]; [|done]. destruct (_ || _) eqn:E; [done|]. apply orb_false_iff in E as [E1 E2].
    assert (0 <= total * pct ÷ 100 <= total).
    { rewrite Z.quot_div_nonneg by nia. split; [apply Z.div_pos; nia|]. apply Z.div_le_upper_bound; nia. }
    intros [= <-]. destruct (_ && _) eqn:E; [|lia]. apply andb_true_iff in E as [_ E]. lia.
  - destruct (Atoi _) as [k|]; [|done]. destruct (k <? 0) eqn:E; [done|]. intros [= <-]. destruct (total <? k) eqn:E'; lia.
Qed.

Lemma list_target_ok w scope refVersion g l : list_target w scope refVersion g = Ok l →
  ∃ items, listAllByGVR (rwList w (tgGroup (target_of scope refVersion g), tgVersion (target_of scope refVersion g),
      tgResource (target_of scope refVersion g))) = Ok items ∧ l = pair (target_of scope refVersion g) <$> items.
Proof. unfold list_target. destruct (listAllByGVR _) as [items|]; [|done]. intros [= <-]. by exists items. Qed.

Lemma concat_fmap {A B} (f : A → B) (ls : list (list A)) : fmap (M := list) f (concat ls) = concat (fmap (M := list) f <$> ls).
Proof. induction ls as [|l ls IH]; [done|]. cbn. by rewrite fmap_app, IH. Qed.

Record prepared (w : retarget_world) (scope : xrdadapter.ScopeResolution) (multi : bool) (items : list (target * RetargetItem))
    (selected : nat) : Prop := {
  pd_selected : (selected <= length items)%nat;
  pd_prefix : ∀ ti, ti ∈ items → tgPrefix ti.1 ≠ [];
  pd_to : rgTo opts ≠ "";
  pd_again : ∀ w', all_repointed w w' →
    prepare w' opts = Ok (scope, multi, (λ ti, (ti.1, repointed ti.1 ti.2)) <$> items, selected) }.

Lemma prepare_ok w scope multi items selected :
  prepare w opts = Ok (scope, multi, items, selected) → prepared w scope multi items selected.
Proof.
  unfold prepare. case_bool_decide as Hx; [done|]. case_bool_decide as Hto; [done|].
  intros (xrd & Hxrd%res_wrap_Ok & (generated & Hg%res_wrap_Ok & (u & Hv & H)%res_bind_Ok)%res_bind_Ok)%res_bind_Ok.
  cbv zeta in H. destruct (xrdadapter.Indeterminate _) eqn:Hi; [done|].
  apply res_bind_Ok in H as (refVersion & Href%res_wrap_Ok & (itemss & Hl & (n & Hn & [= <- <- <- <-])%res_bind_Ok)%res_bind_Ok).
  pose proof (applyCanary_bound _ _ _ (Nat2Z.is_nonneg _) Hn) as Hbound.
  apply res_mapM_Forall2 in Hl as HF. split; [lia| |done|].
  - intros ti (l & Hl' & Hti)%elem_of_concat. apply list_elem_of_lookup in Hl' as [i Hi'].
    destruct (Forall2_lookup_r _ _ _ _ _ HF Hi') as (g & _ & Hg').
    apply list_target_ok in Hg' as (its & _ & ->). apply list_elem_of_fmap in Hti as (it & -> & _). apply prefix_not_nil.
  - intros w' [Hsame Hlist]. unfold prepare. rewrite !bool_decide_false by done.
    apply res_bind_Ok. exists xrd. split; [by rewrite Hsame, Hxrd|].
    apply res_bind_Ok. exists generated. split; [by rewrite Hg|].
    apply res_bind_Ok. exists u. split; [done|]. rewrite Hi.
    apply res_bind_Ok. exists refVersion. split; [by rewrite Href|].
    apply res_bind_Ok. exists (fmap (M := list) (λ ti, (ti.1, repointed ti.1 ti.2)) <$> itemss). split.
    + apply res_mapM_Forall2, Forall2_fmap_r, Forall2_lookup. intros i. rewrite Forall2_lookup in HF. specialize (HF i).
      destruct (generated !! i) as [g|] eqn:Eg; inversion HF as [? l Hgl|]; subst; constructor.
      apply list_target_ok in Hgl as (its & Hits & ->). unfold list_target.
      rewrite (Hlist xrd generated refVersion g Hxrd Hg Href (list_elem_of_lookup_2 _ _ _ Eg) its Hits). f_equal.
      by rewrite <-!list_fmap_compose.
    + apply res_bind_Ok. exists n. by rewrite <-concat_fmap, !length_fmap.
Qed.
End again.
