(* ===== verification/Compat.v ===== *)
(** [convctl compat]: the analyses of a config at two revisions, and the gate on what
    changed between them (internal/cli/compat.go, engine_run.go).

    Reading a file at a revision ([git show]), decoding YAML and [strconv.Quote] are
    parameters.  A change's detail is a constructor with its operands; [detail_text]
    is the text, by which changes of a class are ordered.  The last part holds the
    lemmas: which changes of each class the classifier reports. *)
From Stdlib Require Import Ascii.
From S2P Require Import Prelude Float64 Value Json Duration Path Schema Rules Coerce Passthrough Ops Convert Diagnostics Compile Normalize Platform Required Analyze Assign Api Adapters Configs Registry Replica.
#[local] Open Scope Z_scope.

(** ** Classes *)

Definition ClassLosslessToLossy : string := "LosslessToLossy".
Definition ClassCoverageLost : string := "CoverageLost".
Definition ClassServedVersionRemove : string := "ServedVersionRemoved".
Definition ClassRuleRemoved : string := "RuleRemoved".
Definition ClassHubChanged : string := "HubChanged".
Definition ClassStrategyChanged : string := "StrategyChanged".
Definition ClassMappingChanged : string := "MappingChanged".
Definition ClassCoverageGained : string := "CoverageGained".
Definition ClassNewVersion : string := "NewVersion".

Definition severityOf (class : string) : string :=
  if bool_decide (class ∈ [ClassLosslessToLossy; ClassCoverageLost; ClassServedVersionRemove; ClassRuleRemoved; ClassHubChanged])
  then "breaking"
  else if bool_decide (class ∈ [ClassStrategyChanged; ClassMappingChanged]) then "review"
  else "safe".

Definition severityRank (s : string) : Z :=
  if bool_decide (s = "breaking") then 0 else if bool_decide (s = "review") then 1 else 2.

(** ** The report *)

Inductive compat_detail :=
| HubMoved (base head : string)
| NoLongerServed (version : string)
| NewlyServed (version : string)
| NoRuleSet (spoke : string)
| NowLossy (spoke direction : string)
| NoLongerCovered (spoke path : string)
| NewlyCovered (spoke path : string)
| StrategyMoved (spoke path base head : string)
| RuleGone (spoke : string) (index : Z) (strategy : string)
| Rewired (spoke : string) (gone : list string).

Record CompatChange := {
  ccClass : string; ccSeverity : string; ccSpoke : string; ccDetail : compat_detail; ccAcknowledged : bool }.

(** A revision whose config does not analyze cleanly: how many errors, and the first. *)
Inductive compat_note := NotClean (ref : string) (errors : nat) (first : option (string * message)).

Record CompatReport := {
  crBase : string; crHead : string; crConfig : string; crChanges : list CompatChange;
  crAllowed : list string; crNotes : list compat_note }.

Definition Breaking (r : CompatReport) : bool :=
  existsb (λ c, bool_decide (ccSeverity c = "breaking") && negb (ccAcknowledged c)) (crChanges r).

Record CompatOptions := {
  coBase : string; coHead : string; coConfigPath : string; coXRDPath : string; coCRDPath : string; coAllow : list string }.

(** A change of a class, as every comparison makes it. *)
Definition change (class spoke : string) (d : compat_detail) : CompatChange :=
  {| ccClass := class; ccSeverity := severityOf class; ccSpoke := spoke; ccDetail := d; ccAcknowledged := false |}.

(** ** What a report is indexed by *)

Definition sorted_keys (s : gset string) : list string := sort_strings (elements s).
Definition sortedKeys {V} (m : gmap string V) : list string := sorted_keys (dom m).
Definition sortedInts {V} (m : gmap Z V) : list Z := merge_sort Z.le (elements (dom m)).

Definition rule_paths (rr : RuleResult) : list string := rrHubPaths rr ++ rrSpokePaths rr.
Definition claimedPaths (sr : SpokeReport) : gset string := list_to_set (srRuleResults sr ≫= rule_paths).
Definition strategyByPath (sr : SpokeReport) : gmap string Strategy :=
  foldl (λ m rr, foldl (λ m p, <[p := rrStrategy rr]> m) m (rule_paths rr)) ∅ (srRuleResults sr).
Definition ruleIndexSet (sr : SpokeReport) : gmap Z RuleResult :=
  foldl (λ m rr, <[rrIndex rr := rr]> m) ∅ (srRuleResults sr).
Definition spokeIndex (r : AnalyzeReport) : gmap string SpokeReport :=
  foldl (λ m sr, <[srVersion sr := sr]> m) ∅ (arSpokeReports r).
Definition servedSet (versions : list VersionSchema) : gset string :=
  list_to_set (vsName <$> filter (λ v, vsServed v = true) versions).

(** The zero [SpokeReport], of a spoke the base does not have. *)
Definition zero_report : SpokeReport := {|
  srVersion := ""; srLossless := {| lvHubToSpoke := false; lvSpokeToHub := false |};
  srUncovered := {| fcUncoveredHub := []; fcUncoveredSpoke := [] |}; srRuleResults := []; srErrors := []; srWarnings := [];
  srCompiledPlan := None |}.

(** ** The comparisons of one spoke *)

Definition comparePaths (spoke : string) (b h : SpokeReport) : list CompatChange :=
  ((λ p, change ClassCoverageLost spoke (NoLongerCovered spoke p)) <$>
     filter (λ p, p ∉ claimedPaths h) (sorted_keys (claimedPaths b))) ++
  ((λ p, change ClassCoverageGained spoke (NewlyCovered spoke p)) <$>
     filter (λ p, p ∉ claimedPaths b) (sorted_keys (claimedPaths h))).

(** The rule removed at an index that is gone, when a path of it has no rule now. *)
Definition orphaned (headByPath : gmap string Strategy) (rr : RuleResult) : bool :=
  existsb (λ p, bool_decide (headByPath !! p = None)) (rule_paths rr).
Definition compareStrategies (spoke : string) (b h : SpokeReport) : list CompatChange :=
  let baseByPath := strategyByPath b in
  let headByPath := strategyByPath h in
  omap (λ p, hs ← headByPath !! p; bs ← baseByPath !! p;
    if bool_decide (bs = hs) then None
    else Some (change ClassStrategyChanged spoke (StrategyMoved spoke p bs hs))) (sortedKeys baseByPath) ++
  omap (λ idx, rr ← ruleIndexSet b !! idx;
    if bool_decide (is_Some (ruleIndexSet h !! idx)) then None
    else if orphaned headByPath rr then Some (change ClassRuleRemoved spoke (RuleGone spoke (rrIndex rr) (rrStrategy rr)))
    else None) (sortedInts (ruleIndexSet b)).

Definition sameKeys (a b : gset string) : bool :=
  bool_decide (size a = size b) && forallb (λ k, bool_decide (k ∈ b)) (elements a).

Definition ruleSignature (rr : RuleResult) : string :=
  rrStrategy rr +:+ "(hub:" +:+ join "," (sort_strings (rrHubPaths rr)) +:+ " -> spoke:" +:+
  join "," (sort_strings (rrSpokePaths rr)) +:+ ")".
Definition ruleSignatures (sr : SpokeReport) : list string := sort_strings (ruleSignature <$> srRuleResults sr).

(** The base's signatures the head has no copy left of. *)
Fixpoint signatures_gone (inHead : list string) (base : list string) : list string :=
  match base with
  | [] => []
  | sig :: base =>
    match list_find (λ s, s = sig) inHead with
    | Some (i, _) => signatures_gone (delete i inHead) base
    | None => sig :: signatures_gone inHead base
    end
  end.
Definition newline : string := String "010"%char "".
Definition compareAssociations (spoke : string) (b h : SpokeReport) : list CompatChange :=
  if negb (sameKeys (claimedPaths b) (claimedPaths h)) then []
  else if bool_decide (join newline (ruleSignatures b) = join newline (ruleSignatures h)) then []
  else match signatures_gone (ruleSignatures h) (ruleSignatures b) with
       | [] => []
       | gone => [change ClassMappingChanged spoke (Rewired spoke gone)]
       end.

(** ** The classifier *)

Record analysisAt := { aaHub : string; aaReport : AnalyzeReport; aaVersions : list VersionSchema }.

Definition compareLossless (spoke : string) (b h : SpokeReport) : list CompatChange :=
  omap (λ d : string * (LosslessVerdict → bool),
    if d.2 (srLossless b) && negb (d.2 (srLossless h))
    then Some (change ClassLosslessToLossy spoke (NowLossy spoke d.1)) else None)
    [("hub→spoke", lvHubToSpoke); ("spoke→hub", lvSpokeToHub)].

(** The turn of a spoke either revision has. *)
Definition compareSpoke (headServed : gset string) (baseSpokes headSpokes : gmap string SpokeReport) (name : string)
    : list CompatChange :=
  let b := default zero_report (baseSpokes !! name) in
  match headSpokes !! name with
  | None => if bool_decide (name ∈ headServed) then [change ClassCoverageLost name (NoRuleSet name)] else []
  | Some h => compareLossless name b h ++ comparePaths name b h ++ compareStrategies name b h ++ compareAssociations name b h
  end.

Section text.
Context (Quote : string → string).

(** [fmt.Sprintf] of each detail. *)
Definition detail_text (d : compat_detail) : string :=
  match d with
  | HubMoved b h => "hub version moved from " +:+ b +:+ " to " +:+ h +:+
      "; every stored object converts through a different pivot, so this must be deliberate"
  | NoLongerServed v => "version " +:+ v +:+ " is no longer served; objects still stored at it become unreadable. Check with `convctl versions --check-unserve " +:+ v +:+ "` first"
  | NewlyServed v => "version " +:+ v +:+ " is newly served"
  | NoRuleSet s => "spoke " +:+ s +:+ " no longer has a rule set, but the version is still served"
  | NowLossy s d => "spoke " +:+ s +:+ ": " +:+ d +:+ " used to round-trip losslessly and no longer does"
  | NoLongerCovered s p => "spoke " +:+ s +:+ ": " +:+ Quote p +:+ " had a rule and no longer does"
  | NewlyCovered s p => "spoke " +:+ s +:+ ": " +:+ Quote p +:+ " is newly covered by a rule"
  | StrategyMoved s p b h => "spoke " +:+ s +:+ ": " +:+ Quote p +:+ " changed strategy from " +:+ b +:+ " to " +:+ h
  | RuleGone s i st => "spoke " +:+ s +:+ ": rule " +:+ pretty i +:+ " (" +:+ st +:+ ") was removed and no replacement claims its paths"
  | Rewired s gone => "spoke " +:+ s +:+ ": the same paths are claimed by the same strategies, but wired differently — " +:+
      join "; " gone +:+ " no longer describes any rule"
  end.

Definition change_less (x y : CompatChange) : bool :=
  if negb (bool_decide (ccSeverity x = ccSeverity y)) then severityRank (ccSeverity x) <? severityRank (ccSeverity y)
  else if negb (bool_decide (ccClass x = ccClass y)) then str_lt (ccClass x) (ccClass y)
  else str_lt (detail_text (ccDetail x)) (detail_text (ccDetail y)).

Definition unsorted_changes (base head : analysisAt) : list CompatChange :=
  let baseServed := servedSet (aaVersions base) in
  let headServed := servedSet (aaVersions head) in
  let baseSpokes := spokeIndex (aaReport base) in
  let headSpokes := spokeIndex (aaReport head) in
  (if bool_decide (aaHub base = aaHub head) then [] else [change ClassHubChanged "" (HubMoved (aaHub base) (aaHub head))]) ++
  ((λ v, change ClassServedVersionRemove "" (NoLongerServed v)) <$> filter (λ v, v ∉ headServed) (sorted_keys baseServed)) ++
  ((λ v, change ClassNewVersion "" (NewlyServed v)) <$> filter (λ v, v ∉ baseServed) (sorted_keys headServed)) ++
  (sorted_keys (dom baseSpokes ∪ dom headSpokes) ≫= compareSpoke headServed baseSpokes headSpokes).
Definition classify (base head : analysisAt) : list CompatChange := sort_by change_less (unsorted_changes base head).

(** ** The command *)

Definition errors_of (r : AnalyzeReport) : list (string * message) :=
  arSpokeReports r ≫= (λ sr, (λ d, (srVersion sr, dMessage d)) <$> srErrors sr).
Definition analysisNotes (baseRef : string) (base : AnalyzeReport) (headRef : string) (head : AnalyzeReport) : list compat_note :=
  omap (λ side : string * AnalyzeReport,
    if HasErrors side.2 then Some (NotClean side.1 (length (errors_of side.2)) (errors_of side.2 !! 0%nat)) else None)
    [(baseRef, base); (headRef, head)].

Definition acknowledge (allow : list string) (c : CompatChange) : CompatChange :=
  {| ccClass := ccClass c; ccSeverity := ccSeverity c; ccSpoke := ccSpoke c; ccDetail := ccDetail c;
     ccAcknowledged := ccAcknowledged c || bool_decide (ccClass c ∈ allow) |}.

Inductive run_error :=
| ErrReadingVersions (e : analyze_error)
| ErrInvalidRules (e : rule_error)
| ErrAnalysisFailed (e : analyze_error).
Inductive compat_error :=
| ErrBothRefs
| ErrConfigRequired
| ErrSourceRequired
| ErrResolving (ref : string) (e : compat_error)
| ErrGitShow (err : string)
| ErrParsing (err : string)
| ErrRunAnalyze (e : run_error).

Section run.
Context `{RO : RangeOrder} `{EX : Externs} `{CX : CompileExterns} (fuel : nat).

(** Both [runAnalyze] and [runAnalyzeCRD]. *)
Definition runAnalyze `{TK : TargetKind C T} (target : T) (cfg : C) : res run_error (AnalyzeReport * list VersionSchema) :=
  raw ← res_wrap (λ e, ErrReadingVersions (AReadVersions e)) (ssVersions (tk_source target));
  versions ← res_wrap (λ e, ErrReadingVersions (ANormalize e)) (NormalizedVersions fuel raw);
  ruleSets ← res_wrap ErrInvalidRules (tk_rules cfg);
  report ← res_wrap ErrAnalysisFailed
    (Analyze fuel {| aiSource := tk_source target; aiHubVersion := tk_hub cfg; aiSpokes := ruleSets |});
  Ok (report, versions).

Context {D : Type} (gitShow : string → string → res string D).

(** One case of [analyzeAtRef]: the schema and the config of a kind. *)
Definition analyze_kind `{TK : TargetKind C T} (parse_target : D → res string T) (parse_config : D → res string C)
    (ref path : string) (cfgData : D) : res compat_error analysisAt :=
  data ← res_wrap ErrGitShow (gitShow ref path);
  target ← res_wrap ErrParsing (parse_target data);
  cfg ← res_wrap ErrParsing (parse_config cfgData);
  out ← res_wrap ErrRunAnalyze (runAnalyze target cfg);
  Ok {| aaHub := tk_hub cfg; aaReport := out.1; aaVersions := out.2 |}.

Context {CX_ TX CC_ TC : Type} (KX : TargetKind CX_ TX) (KC : TargetKind CC_ TC)
  (parseXRDBytes : D → res string TX) (parseXRDConfigBytes : D → res string CX_)
  (parseCRDBytes : D → res string TC) (parseCRDConfigBytes : D → res string CC_).

Definition analyzeAtRef (ref : string) (opts : CompatOptions) : res compat_error analysisAt :=
  cfgData ← res_wrap ErrGitShow (gitShow ref (coConfigPath opts));
  if bool_decide (coXRDPath opts ≠ "") then analyze_kind parseXRDBytes parseXRDConfigBytes ref (coXRDPath opts) cfgData
  else if bool_decide (coCRDPath opts ≠ "") then analyze_kind parseCRDBytes parseCRDConfigBytes ref (coCRDPath opts) cfgData
  else Err ErrSourceRequired.

Definition RunCompat (opts : CompatOptions) : res compat_error CompatReport :=
  if bool_decide (coBase opts = "") || bool_decide (coHead opts = "") then Err ErrBothRefs
  else if bool_decide (coConfigPath opts = "") then Err ErrConfigRequired
  else
    base ← res_wrap (ErrResolving (coBase opts)) (analyzeAtRef (coBase opts) opts);
    head ← res_wrap (ErrResolving (coHead opts)) (analyzeAtRef (coHead opts) opts);
    Ok {| crBase := coBase opts; crHead := coHead opts; crConfig := coConfigPath opts;
          crChanges := acknowledge (coAllow opts) <$> classify base head; crAllowed := coAllow opts;
          crNotes := analysisNotes (coBase opts) (aaReport base) (coHead opts) (aaReport head) |}.
End run.
End text.

(** ** What counts as a regression

    Of the two analyses, by class.  A rule counts as removed by its index: the base
    has a rule at an index the head has none at, and no rule of the head claims some
    path of it.  The rule that is gone may be another, before it in the list. *)

Definition served (a : analysisAt) (v : string) : Prop := ∃ vs, vs ∈ aaVersions a ∧ vsName vs = v ∧ vsServed vs = true.
Definition covers (sr : SpokeReport) (p : string) : Prop := ∃ rr, rr ∈ srRuleResults sr ∧ p ∈ rule_paths rr.
(** The report on a spoke, the last one when there are several; likewise the rule at an index. *)
Definition reports (a : analysisAt) (s : string) (sr : SpokeReport) : Prop :=
  last (filter (λ r, srVersion r = s) (arSpokeReports (aaReport a))) = Some sr.
Definition rule_at (sr : SpokeReport) (i : Z) (rr : RuleResult) : Prop :=
  last (filter (λ r, rrIndex r = i) (srRuleResults sr)) = Some rr.

Inductive regression (base head : analysisAt) : string → Prop :=
| hub_moves : aaHub base ≠ aaHub head → regression base head ClassHubChanged
| version_dropped v : served base v → ¬ served head v → regression base head ClassServedVersionRemove
| rule_set_dropped s b :
    reports base s b → (∀ h, ¬ reports head s h) → served head s → regression base head ClassCoverageLost
| path_dropped s b h p :
    reports base s b → reports head s h → covers b p → ¬ covers h p → regression base head ClassCoverageLost
| direction_turns_lossy s b h (d : LosslessVerdict → bool) :
    d = lvHubToSpoke ∨ d = lvSpokeToHub →
    reports base s b → reports head s h → d (srLossless b) = true → d (srLossless h) = false →
    regression base head ClassLosslessToLossy
| rule_dropped s b h i rr p :
    reports base s b → reports head s h → rule_at b i rr → (∀ rr', ¬ rule_at h i rr') →
    p ∈ rule_paths rr → ¬ covers h p → regression base head ClassRuleRemoved.

(** ** The indexes hold what they are named after *)

Lemma foldl_insert_last {K A} `{Countable K} (f : A → K) (l : list A) (m : gmap K A) k :
  foldl (λ m x, <[f x := x]> m) m l !! k =
  match last (filter (λ x, f x = k) l) with Some x => Some x | None => m !! k end.
Proof.
  revert m; induction l as [|x l IH]; intros m; [done|]. cbn [foldl]. rewrite IH, filter_cons.
  destruct (decide (f x = k)) as [Hk|Hk].
  - rewrite last_cons. destruct (last (filter _ l)); [done|]. by rewrite <-Hk, lookup_insert_eq.
  - destruct (last (filter _ l)); [done|]. by rewrite lookup_insert_ne.
Qed.

Lemma spokeIndex_lookup (a : analysisAt) s sr : spokeIndex (aaReport a) !! s = Some sr ↔ reports a s sr.
Proof. unfold spokeIndex, reports. rewrite foldl_insert_last, lookup_empty. by destruct (last _). Qed.
Lemma spokeIndex_none (a : analysisAt) s : spokeIndex (aaReport a) !! s = None ↔ ∀ sr, ¬ reports a s sr.
Proof.
  split; [intros Hn sr Hr%spokeIndex_lookup; congruence|]. intros Hn.
  destruct (_ !! s) as [sr|] eqn:E; [|done]. by apply spokeIndex_lookup, Hn in E.
Qed.
Lemma ruleIndexSet_lookup sr i rr : ruleIndexSet sr !! i = Some rr ↔ rule_at sr i rr.
Proof. unfold ruleIndexSet, rule_at. rewrite foldl_insert_last, lookup_empty. by destruct (last _). Qed.

Lemma elem_of_servedSet a v : v ∈ servedSet (aaVersions a) ↔ served a v.
Proof.
  unfold servedSet, served. rewrite elem_of_list_to_set, list_elem_of_fmap. split.
  - intros (vs & -> & [Hs Hin]%list_elem_of_filter). eauto.
  - intros (vs & Hin & <- & Hs). exists vs. by rewrite list_elem_of_filter.
Qed.
Lemma elem_of_claimedPaths sr p : p ∈ claimedPaths sr ↔ covers sr p.
Proof. unfold claimedPaths, covers. rewrite elem_of_list_to_set, list_elem_of_bind. naive_solver. Qed.
Lemma elem_of_sorted_keys s k : k ∈ sorted_keys s ↔ k ∈ s.
Proof. unfold sorted_keys. by rewrite elem_of_sort_strings, elem_of_elements. Qed.
Lemma elem_of_sortedInts {V} (m : gmap Z V) k : k ∈ sortedInts m ↔ is_Some (m !! k).
Proof. unfold sortedInts. by rewrite merge_sort_Permutation, elem_of_elements, elem_of_dom. Qed.

Lemma foldl_insert_is_Some {A} (v : A) ps (m : gmap string A) p :
  is_Some (foldl (λ m p, <[p := v]> m) m ps !! p) ↔ p ∈ ps ∨ is_Some (m !! p).
Proof.
  revert m; induction ps as [|q ps IH]; intros m; cbn [foldl]; [set_solver|].
  rewrite IH, elem_of_cons. destruct (decide (p = q)) as [->|Hne].
  - rewrite lookup_insert_eq. naive_solver.
  - rewrite lookup_insert_ne by done. naive_solver.
Qed.
Lemma strategyByPath_is_Some sr p : is_Some (strategyByPath sr !! p) ↔ covers sr p.
Proof.
  unfold strategyByPath, covers. generalize (srRuleResults sr); intros rrs.
  assert (∀ m : gmap string Strategy, is_Some (foldl (λ m rr, foldl (λ m p, <[p := rrStrategy rr]> m) m (rule_paths rr)) m rrs !! p)
    ↔ (∃ rr, rr ∈ rrs ∧ p ∈ rule_paths rr) ∨ is_Some (m !! p)) as H.
  { induction rrs as [|rr rrs IH]; intros m; cbn [foldl]; [set_solver|].
    rewrite IH, foldl_insert_is_Some. setoid_rewrite elem_of_cons. naive_solver. }
  rewrite H, lookup_empty, is_Some_alt. naive_solver.
Qed.

(** ** Every change is of its class, and every breaking one a regression *)

Definition fresh (c : CompatChange) : Prop := ccSeverity c = severityOf (ccClass c) ∧ ccAcknowledged c = false.
Lemma change_fresh class spoke d : fresh (change class spoke d).
Proof. done. Qed.

Lemma regression_breaks base head class : regression base head class → severityOf class = "breaking".
Proof. by destruct 1. Qed.

Section changes.
Context (base head : analysisAt).
Notation sound c := (fresh c ∧ (severityOf (ccClass c) = "breaking" → regression base head (ccClass c))).

Lemma sound_regression class spoke d : regression base head class → sound (change class spoke d).
Proof. done. Qed.
Lemma sound_other class spoke d : severityOf class ≠ "breaking" → sound (change class spoke d).
Proof. done. Qed.

Section spoke.
Context (name : string) (b h : SpokeReport) (Hh : reports head name h).
(** The base's report, or the empty one of a spoke it does not have. *)
Context (Hb : reports base name b ∨ b = zero_report).

Lemma covered_by_base p : covers b p → reports base name b.
Proof using Hb. destruct Hb as [H| ->]; [done|]. intros (rr & Hin & _). by apply not_elem_of_nil in Hin. Qed.

Lemma compareLossless_sound c : c ∈ compareLossless name b h → sound c.
Proof using Hb Hh.
  unfold compareLossless. intros ([dir d] & Hd & Hc)%list_elem_of_omap. cbn in Hc.
  destruct (d (srLossless b)) eqn:E1, (d (srLossless h)) eqn:E2; try done. injection Hc as <-.
  assert (d = lvHubToSpoke ∨ d = lvSpokeToHub) as Hdir by (rewrite !elem_of_cons in Hd; set_solver).
  apply sound_regression, (direction_turns_lossy _ _ name b h d); try done.
  destruct Hb as [?| ->]; [done|]. by destruct Hdir as [-> | ->].
Qed.
Lemma comparePaths_sound c : c ∈ comparePaths name b h → sound c.
Proof using Hb Hh.
  unfold comparePaths. intros [(p & -> & [Hp Hin]%list_elem_of_filter)%list_elem_of_fmap
    |(p & -> & _)%list_elem_of_fmap]%elem_of_app; [|by apply sound_other].
  rewrite elem_of_sorted_keys, elem_of_claimedPaths in Hin. rewrite elem_of_claimedPaths in Hp.
  by apply sound_regression, (path_dropped _ _ name b h p); [eapply covered_by_base|..].
Qed.
Lemma orphaned_spec rr : orphaned (strategyByPath h) rr = true ↔ ∃ p, p ∈ rule_paths rr ∧ ¬ covers h p.
Proof using.
  unfold orphaned. rewrite existsb_exists. setoid_rewrite <-strategyByPath_is_Some.
  setoid_rewrite <-list_elem_of_In. setoid_rewrite bool_decide_eq_true. setoid_rewrite eq_None_not_Some. done.
Qed.
Lemma rule_at_covers sr i rr p : rule_at sr i rr → p ∈ rule_paths rr → covers sr p.
Proof using.
  intros Hr Hp. exists rr. split; [|done]. unfold rule_at in Hr. apply last_Some_elem_of in Hr.
  by apply list_elem_of_filter in Hr as [_ ?].
Qed.
Lemma compareStrategies_sound c : c ∈ compareStrategies name b h → sound c.
Proof using Hb Hh.
  unfold compareStrategies. intros [(p & _ & Hc)%list_elem_of_omap|(i & _ & Hc)%list_elem_of_omap]%elem_of_app.
  - apply bind_Some in Hc as (hs & _ & (bs & _ & Hc)%bind_Some).
    case_bool_decide; [done|]. injection Hc as <-. by apply sound_other.
  - apply bind_Some in Hc as (rr & E%ruleIndexSet_lookup & Hc). case_bool_decide as Hn; [done|]. destruct (orphaned _ rr) eqn:Ho; [|done]. injection Hc as <-.
    apply orphaned_spec in Ho as (p & Hp & Hnp).
    apply sound_regression, (rule_dropped _ _ name b h i rr p); try done.
    + eapply covered_by_base, rule_at_covers; eauto.
    + intros rr' Hrr'. apply Hn. exists rr'. by apply ruleIndexSet_lookup.
Qed.
Lemma compareAssociations_sound c : c ∈ compareAssociations name b h → sound c.
Proof using.
  unfold compareAssociations. destruct (negb _); [by intros ?%not_elem_of_nil|]. case_bool_decide; [by intros ?%not_elem_of_nil|].
  destruct (signatures_gone _ _); [by intros ?%not_elem_of_nil|]. intros ->%list_elem_of_singleton. by apply sound_other.
Qed.
End spoke.

Lemma compareSpoke_sound name c :
  name ∈ dom (spokeIndex (aaReport base)) ∪ dom (spokeIndex (aaReport head)) →
  c ∈ compareSpoke (servedSet (aaVersions head)) (spokeIndex (aaReport base)) (spokeIndex (aaReport head)) name → sound c.
Proof.
  unfold compareSpoke. intros Hn. destruct (_ !! name) as [h|] eqn:Hh.
  - apply spokeIndex_lookup in Hh.
    assert (reports base name (default zero_report (spokeIndex (aaReport base) !! name)) ∨
            default zero_report (spokeIndex (aaReport base) !! name) = zero_report) as Hb.
    { destruct (_ !! name) as [b|] eqn:E; [left; by apply spokeIndex_lookup|by right]. }
    rewrite !elem_of_app. intros [Hc|[Hc|[Hc|Hc]]].
    + by eapply compareLossless_sound.
    + by eapply comparePaths_sound.
    + by eapply compareStrategies_sound.
    + by eapply compareAssociations_sound.
  - case_bool_decide as Hs; [|by intros ?%not_elem_of_nil]. intros ->%list_elem_of_singleton.
    apply elem_of_union in Hn as [[b Hb]%elem_of_dom|[h Hh']%elem_of_dom]; [|congruence].
    apply sound_regression, (rule_set_dropped _ _ name b).
    + by apply spokeIndex_lookup.
    + by apply spokeIndex_none.
    + by apply elem_of_servedSet.
Qed.

Lemma unsorted_sound c : c ∈ unsorted_changes base head → sound c.
Proof.
  unfold unsorted_changes. rewrite !elem_of_app. intros [Hc|[Hc|[Hc|Hc]]].
  - case_bool_decide as Hhub; [by apply not_elem_of_nil in Hc|]. apply list_elem_of_singleton in Hc as ->.
    by apply sound_regression, hub_moves.
  - apply list_elem_of_fmap in Hc as (v & -> & [Hv Hin]%list_elem_of_filter).
    rewrite elem_of_sorted_keys, elem_of_servedSet in Hin. rewrite elem_of_servedSet in Hv.
    by apply sound_regression, (version_dropped _ _ v).
  - apply list_elem_of_fmap in Hc as (v & -> & _). by apply sound_other.
  - apply list_elem_of_bind in Hc as (name & Hc & Hn%elem_of_sorted_keys). by eapply compareSpoke_sound.
Qed.
End changes.

(** ** Every regression is reported *)

Section reported.
Context (base head : analysisAt).
Notation in_spoke c := (c ∈ unsorted_changes base head).

Lemma spoke_change name c :
  (∃ sr, reports base name sr) ∨ (∃ sr, reports head name sr) →
  c ∈ compareSpoke (servedSet (aaVersions head)) (spokeIndex (aaReport base)) (spokeIndex (aaReport head)) name → in_spoke c.
Proof.
  intros Hn Hc. unfold unsorted_changes. rewrite !elem_of_app. do 3 right. apply list_elem_of_bind.
  exists name. split; [done|]. rewrite elem_of_sorted_keys, elem_of_union, !elem_of_dom.
  by destruct Hn as [[sr H%spokeIndex_lookup]|[sr H%spokeIndex_lookup]]; rewrite H; [left|right].
Qed.
Lemma kept_spoke_change name b h c :
  reports base name b → reports head name h →
  c ∈ compareLossless name b h ++ comparePaths name b h ++ compareStrategies name b h ++ compareAssociations name b h → in_spoke c.
Proof.
  intros Hb Hh Hc. apply (spoke_change name); [left; by exists b|]. unfold compareSpoke.
  apply spokeIndex_lookup in Hb, Hh. by rewrite Hb, Hh.
Qed.

Lemma regression_reported class :
  regression base head class → ∃ c, c ∈ unsorted_changes base head ∧ ccClass c = class.
Proof.
  destruct 1 as [Hhub|v Hv Hnv|s b Hb Hh Hs|s b h p Hb Hh Hp Hnp|s b h d Hd Hb Hh Hdb Hdh|s b h i rr p Hb Hh Hr Hnr Hp Hnp].
  - exists (change ClassHubChanged "" (HubMoved (aaHub base) (aaHub head))). split; [|done].
    unfold unsorted_changes. rewrite elem_of_app. left. rewrite bool_decide_false by done. by left.
  - exists (change ClassServedVersionRemove "" (NoLongerServed v)). split; [|done].
    unfold unsorted_changes. rewrite !elem_of_app. right; left.
    apply list_elem_of_fmap. exists v. split; [done|].
    by rewrite list_elem_of_filter, elem_of_sorted_keys, !elem_of_servedSet.
  - exists (change ClassCoverageLost s (NoRuleSet s)). split; [|done].
    apply (spoke_change s); [left; by exists b|]. unfold compareSpoke.
    apply spokeIndex_none in Hh. rewrite Hh, bool_decide_true by (by apply elem_of_servedSet). by left.
  - exists (change ClassCoverageLost s (NoLongerCovered s p)). split; [|done]. eapply kept_spoke_change; [done..|].
    rewrite !elem_of_app. right; left. unfold comparePaths. rewrite elem_of_app. left.
    apply list_elem_of_fmap. exists p. split; [done|].
    by rewrite list_elem_of_filter, elem_of_sorted_keys, !elem_of_claimedPaths.
  - destruct Hd as [-> | ->].
    + exists (change ClassLosslessToLossy s (NowLossy s "hub→spoke")). split; [|done]. eapply kept_spoke_change; [done..|].
      rewrite elem_of_app. left. unfold compareLossless. cbn. rewrite Hdb, Hdh. by left.
    + exists (change ClassLosslessToLossy s (NowLossy s "spoke→hub")). split; [|done]. eapply kept_spoke_change; [done..|].
      rewrite elem_of_app. left. unfold compareLossless. apply list_elem_of_omap.
      exists ("spoke→hub", lvSpokeToHub). cbn. rewrite Hdb, Hdh. by split; [right; left|].
  - exists (change ClassRuleRemoved s (RuleGone s (rrIndex rr) (rrStrategy rr))). split; [|done].
    eapply kept_spoke_change; [done..|]. rewrite !elem_of_app. do 2 right; left. unfold compareStrategies.
    rewrite elem_of_app. right. apply list_elem_of_omap. exists i. apply ruleIndexSet_lookup in Hr.
    split; [by apply elem_of_sortedInts; exists rr|]. rewrite Hr. cbn.
    rewrite bool_decide_false by (intros [rr' Hrr'%ruleIndexSet_lookup]; by eapply Hnr).
    rewrite (proj2 (orphaned_spec h rr)); [done|]. eauto.
Qed.
End reported.

(** A path that lost its rule is reported by name. *)
Lemma lost_path_reported Quote base head allow r s b h rr p :
  crChanges r = acknowledge allow <$> classify Quote base head →
  reports base s b → reports head s h → rr ∈ srRuleResults b → p ∈ rule_paths rr → ¬ covers h p →
  acknowledge allow (change ClassCoverageLost s (NoLongerCovered s p)) ∈ crChanges r.
Proof.
  intros -> Hb Hh Hrr Hp Hnp. apply list_elem_of_fmap_2. unfold classify. rewrite elem_of_sort_by.
  eapply kept_spoke_change; [done..|]. rewrite !elem_of_app. right; left. unfold comparePaths. rewrite elem_of_app. left.
  apply list_elem_of_fmap. exists p. split; [done|].
  rewrite list_elem_of_filter, elem_of_sorted_keys, !elem_of_claimedPaths. split; [done|]. by exists rr.
Qed.

(** The gate is shut exactly by the regressions of the classes nobody acknowledged. *)
Lemma breaking_iff Quote base head allow r :
  crChanges r = acknowledge allow <$> classify Quote base head →
  Breaking r = true ↔ ∃ class, class ∉ allow ∧ regression base head class.
Proof.
  intros Hr. unfold Breaking. rewrite Hr, existsb_exists. setoid_rewrite <-list_elem_of_In. split.
  - intros (c & (c0 & -> & Hc0)%list_elem_of_fmap & Hb). unfold classify in Hc0. rewrite elem_of_sort_by in Hc0.
    destruct (unsorted_sound _ _ _ Hc0) as [[Hs Ha] Hreg]. cbn in Hb. rewrite Hs, Ha in Hb.
    apply andb_true_iff in Hb as [Hb%bool_decide_eq_true Hn]. exists (ccClass c0). split; [|by apply Hreg].
    cbn in Hn. by case_bool_decide.
  - intros (class & Hn & Hreg). destruct (regression_reported _ _ _ Hreg) as (c & Hc & Hcl).
    exists (acknowledge allow c). split.
    + apply list_elem_of_fmap. exists c. split; [done|]. unfold classify. by rewrite elem_of_sort_by.
    + destruct (unsorted_sound _ _ _ Hc) as [[Hs Ha] _]. cbn. rewrite Hs, Ha, Hcl, (regression_breaks _ _ _ Hreg).
      by rewrite (bool_decide_false (class ∈ allow)).
Qed.

(** A revision compared with itself shows nothing. *)
Lemma signatures_gone_same l : signatures_gone l l = [].
Proof.
  induction l as [|s l IH]; [done|]. cbn [signatures_gone]. unfold list_find. by rewrite decide_True by done.
Qed.
Lemma filter_none {A} (P : A → Prop) `{∀ x, Decision (P x)} l : (∀ x, x ∈ l → ¬ P x) → filter P l = [].
Proof.
  induction l as [|x l IH]; intros Hn; [done|]. rewrite filter_cons, decide_False by (apply Hn; by left).
  apply IH. intros y Hy. apply Hn. by right.
Qed.
Lemma omap_none {A B} (f : A → option B) l : (∀ x, x ∈ l → f x = None) → omap f l = [].
Proof.
  induction l as [|x l IH]; intros Hn; [done|]. cbn. rewrite Hn by (by left). apply IH. intros y Hy. apply Hn. by right.
Qed.
Lemma classify_same Quote a : classify Quote a a = [].
Proof.
  unfold classify. assert (unsorted_changes a a = []) as ->; [|done].
  unfold unsorted_changes. rewrite bool_decide_true, !filter_none by (set_solver || intros ? ?%elem_of_sorted_keys; naive_solver). cbn.
  assert (∀ names, (∀ n, n ∈ names → is_Some (spokeIndex (aaReport a) !! n)) →
    names ≫= compareSpoke (servedSet (aaVersions a)) (spokeIndex (aaReport a)) (spokeIndex (aaReport a)) = []) as H.
  { induction names as [|n names IH]; intros Hn; [done|]. cbn.
    rewrite IH by (intros; apply Hn; by right). rewrite app_nil_r.
    destruct (Hn n ltac:(by left)) as [sr Hsr]. unfold compareSpoke. rewrite Hsr. cbn [default].
    unfold compareLossless, comparePaths, compareStrategies, compareAssociations. cbn.
    rewrite !andb_negb_r, !filter_none by (intros ? ?%elem_of_sorted_keys; naive_solver). cbn.
    rewrite (bool_decide_true (_ = _)) by done. rewrite !omap_none; [by destruct (negb _)|..].
    - intros i Hi. by destruct (ruleIndexSet sr !! i).
    - intros p Hp. destruct (strategyByPath sr !! p) eqn:E; [|done]. cbn. by rewrite bool_decide_true. }
  apply H. intros n Hn%elem_of_sorted_keys. by rewrite union_idemp_L, elem_of_dom in Hn.
Qed.
