(* ===== verification/Lifecycle.v ===== *)
(** Retiring a version: [convctl versions], the inventory that gates un-serving one
    (internal/cli/versions.go), and [convctl plan], the ordered steps of a migration
    (internal/cli/plan.go).

    What the cluster and the files answer is an input.  A moment is the text it is
    formatted to.  The texts of a plan are the commands to run, so they are the
    source's strings; those of the inventory are data. *)
From Stdlib Require Import Ascii.
From S2P Require Import Prelude Float64 Value Json Path Schema Rules Diagnostics Compile Normalize Platform Required Analyze Assign Api Adapters Configs Migrate.
#[local] Open Scope Z_scope.

(** [fmt.Sprintf] and [strings.Contains] on bytes. *)
Definition dq : string := String "034"%char "".
Fixpoint contains (s sub : string) : bool :=
  has_prefix s sub || match s with EmptyString => false | String _ s => contains s sub end.

(** A nested list read with its error dropped. *)
Definition slice_or_nil `{U : Unstructured} (o : obj) (p : list string) : list value :=
  match NestedSlice o p with Ok (Some l) => l | _ => [] end.
Definition objects_of (l : list value) : list obj := omap (λ v, match v with VObj m => Some m | _ => None end) l.
Definition read_bool `{U : Unstructured} (o : obj) (p : list string) : bool :=
  match NestedBool o p with Ok (Some b) => b | _ => false end.

(** * The inventory *)

Record VersionWriter := { vwManager : string; vwLastWrittenAt : string }.
Inductive walk_error := WListing (resource version err : string).
Record VersionRow := {
  rowName : string; rowServed : bool; rowHub : bool; rowDeprecated : bool; rowDeprecationWarning : string;
  rowSpokeRules : bool; rowLiveObjects : Z; rowStored : bool; rowWriters : list VersionWriter;
  rowTruncated : bool; rowUnreadable : option walk_error }.
Record VersionsReport := { vrResource : string; vrKind : string; vrConfig : string; vrRows : list VersionRow }.

(** What is read of a listed object: its apiVersion and its managed fields. *)
Record ManagedField := { mfManager : string; mfAPIVersion : string; mfTime : option string }.
Record ListedObject := { loAPIVersion : string; loManagedFields : list ManagedField }.

Definition defaultVersionsMaxSamples : Z := 5000.

(** [latest]: per field manager, the most recent time it wrote at this version. *)
Definition collect_field (want : string) (latest : gmap string string) (mf : ManagedField) : gmap string string :=
  if bool_decide (mfAPIVersion mf ≠ want) then latest
  else
    let at_ := default "" (mfTime mf) in
    match latest !! mfManager mf with
    | Some cur => if str_lt cur at_ then <[mfManager mf := at_]> latest else latest
    | None => <[mfManager mf := at_]> latest
    end.
Definition collectWriters (o : ListedObject) (latest : gmap string string) : gmap string string :=
  foldl (collect_field (loAPIVersion o)) latest (loManagedFields o).

Record walk := { wkLatest : gmap string string; wkTotal : Z; wkTruncated : bool; wkUnreadable : option walk_error }.
Definition walk_start : walk := {| wkLatest := ∅; wkTotal := 0; wkTruncated := false; wkUnreadable := None |}.

Section inventory.
Context `{U : Unstructured}.
(** [apierrors.IsNotFound]. *)
Context (IsNotFound : string → bool) (maxSamples : Z) (version : string).

(** The items of a page, up to the bound. *)
Fixpoint walk_items (w : walk) (items : list ListedObject) : walk :=
  match items with
  | [] => w
  | o :: items =>
    let total := wkTotal w + 1 in
    let full := maxSamples <=? total in
    let w := {| wkLatest := collectWriters o (wkLatest w); wkTotal := total; wkTruncated := full; wkUnreadable := wkUnreadable w |} in
    if full then w else walk_items w items
  end.
Fixpoint walk_listing (resource : string) (w : walk) (l : listing ListedObject) : walk :=
  match l with
  | ListFails e =>
    if negb (IsNotFound e) && bool_decide (wkUnreadable w = None) then
      {| wkLatest := wkLatest w; wkTotal := wkTotal w; wkTruncated := wkTruncated w;
         wkUnreadable := Some (WListing resource version e) |}
    else w
  | Page items rest => let w := walk_items w items in if wkTruncated w then w else walk_listing resource w rest
  | LastPage items => walk_items w items
  end.
Fixpoint walk_all (list_ : xrdadapter.GeneratedCRD → listing ListedObject) (w : walk)
    (generated : list xrdadapter.GeneratedCRD) : walk :=
  match generated with
  | [] => w
  | g :: generated =>
    let w := walk_listing (xrdadapter.gcPlural g) w (list_ g) in
    if wkTruncated w then w else walk_all list_ w generated
  end.
Definition writers_of (latest : gmap string string) : list VersionWriter :=
  (λ m, {| vwManager := m; vwLastWrittenAt := default "" (latest !! m) |}) <$> sort_strings (elements (dom latest)).
Definition walkObjects (list_ : xrdadapter.GeneratedCRD → listing ListedObject) (generated : list xrdadapter.GeneratedCRD)
    : Z * list VersionWriter * bool * option walk_error :=
  let w := walk_all list_ walk_start generated in
  (wkTotal w, writers_of (wkLatest w), wkTruncated w, wkUnreadable w).
End inventory.

Inductive versions_run_error :=
| ErrClient (err : string)
| ErrXRDRequired
| ErrLoading (err : string)
| ErrVersions (e : xrdadapter.versions_error)
| ErrGeneratedNames (e : xrdadapter.generated_error)
| ErrReadingStored (crd err : string).

Section versions.
Context `{U : Unstructured} (IsNotFound : string → bool).

Definition deprecationFromXRD (xrd : obj) : gmap string bool * gmap string string :=
  foldl (λ acc vm,
    let name := xrdadapter.read_string vm ["name"] in
    if bool_decide (name = "") then acc
    else (match NestedBool vm ["deprecated"] with Ok (Some d) => <[name := d]> acc.1 | _ => acc.1 end,
          match NestedString vm ["deprecationWarning"] with Ok (Some w) => <[name := w]> acc.2 | _ => acc.2 end))
    (∅, ∅) (objects_of (slice_or_nil xrd ["spec"; "versions"])).

(** [get] answers status.storedVersions of a CRD: nothing when the field is absent or
    is not a list of strings. *)
Fixpoint storedVersions (get : string → res string (list string)) (out : gset string) (generated : list xrdadapter.GeneratedCRD)
    : res versions_run_error (gset string) :=
  match generated with
  | [] => Ok out
  | g :: generated =>
    match get (xrdadapter.gcName g) with
    | Ok vs => storedVersions get (out ∪ list_to_set vs) generated
    | Err e => if IsNotFound e then storedVersions get out generated else Err (ErrReadingStored (xrdadapter.gcName g) e)
    end
  end.

Record versions_world := {
  invXRD : res string obj; invConfig : option (res string XRDConversionConfig);
  invStored : string → res string (list string);
  invList : string → xrdadapter.GeneratedCRD → listing ListedObject }.   (* at a version *)

Definition display_name (xrd : obj) : string := if bool_decide (u_GetName xrd = "") then "(unnamed)" else u_GetName xrd.

Definition versionsForXRD (w : versions_world) (maxSamples : Z) : res versions_run_error VersionsReport :=
  xrd ← res_wrap ErrLoading (invXRD w);
  versions ← res_wrap ErrVersions (xrdadapter.Versions xrd);
  generated ← res_wrap ErrGeneratedNames (xrdadapter.GeneratedCRDNames (Some xrd));
  cfg ← match invConfig w with
        | None => Ok None
        | Some cfg => c ← res_wrap ErrLoading cfg; Ok (Some c)
        end;
  let spokeRules : gset string := match cfg with
    | None => ∅
    | Some c => list_to_set (xsHubVersion (xcSpec c) :: (svVersion <$> xsSpokes (xcSpec c)))
    end in
  let '(deprecated, warnings) := deprecationFromXRD xrd in
  stored ← storedVersions (invStored w) ∅ generated;
  let maxSamples := if maxSamples <=? 0 then defaultVersionsMaxSamples else maxSamples in
  let row v :=
    let '(count, writers, truncated, werr) := walkObjects IsNotFound maxSamples (vsName v) (invList w (vsName v)) generated in
    {| rowName := vsName v; rowServed := vsServed v; rowHub := vsStorage v;
       rowDeprecated := default false (deprecated !! vsName v); rowDeprecationWarning := default "" (warnings !! vsName v);
       rowSpokeRules := bool_decide (vsName v ∈ spokeRules); rowLiveObjects := count;
       rowStored := bool_decide (vsName v ∈ stored); rowWriters := writers; rowTruncated := truncated; rowUnreadable := werr |} in
  Ok {| vrResource := display_name xrd; vrKind := "XRD";
        vrConfig := match cfg with Some c => omName (xcMeta c) | None => "" end; vrRows := row <$> versions |}.

Definition RunVersions (client : option string) (w : versions_world) (xrdPath : string) (maxSamples : Z)
    : res versions_run_error VersionsReport :=
  match client with
  | Some e => Err (ErrClient e)
  | None => if bool_decide (xrdPath ≠ "") then versionsForXRD w maxSamples else Err ErrXRDRequired
  end.
End versions.

Inductive unserve_blocker :=
| BNotDeclared (version resource : string)
| BIsHub
| BIsStored
| BWritten (managers : list string)
| BUnreadable (e : walk_error)
| BTruncated.

(** The last row of the version. *)
Definition UnserveBlockers (r : VersionsReport) (version : string) : list unserve_blocker :=
  match last (filter (λ row, rowName row = version) (vrRows r)) with
  | None => [BNotDeclared version (vrResource r)]
  | Some row =>
    (if rowHub row then [BIsHub] else []) ++ (if rowStored row then [BIsStored] else []) ++
    (if bool_decide (rowWriters row = []) then [] else [BWritten (vwManager <$> rowWriters row)]) ++
    match rowUnreadable row with Some e => [BUnreadable e] | None => [] end ++
    (if rowTruncated row then [BTruncated] else [])
  end.

(** * The plan *)

Definition StepDone : string := "done".
Definition StepReady : string := "ready".
Definition StepUnknown : string := "unknown".
Definition StepBlocked : string := "blocked".

Record PlanStep := {
  psNumber : Z; psTitle : string; psRun : string; psGate : string; psVerify : string; psStatus : string; psBlockedBy : string }.
Record PlanReport := {
  prResource : string; prKind : string; prConfig : string; prFrom : string; prTo : string;
  prPackageManaged : bool; prSteps : list PlanStep }.

Record planVersion := { pvName : string; pvServed : bool; pvReferenceable : bool; pvDeprecated : bool }.
Record planState := {
  stName : string; stKind : string; stHub : string; stVersions : list planVersion; stConfigName : string;
  stSpokes : gset string; stConfigHub : string; stHasConfig : bool; stPackaged : bool; stNative : bool }.

Definition doneIf (b : bool) : string := if b then StepDone else StepReady.
Definition blockedBecause (cond : bool) (why : string) : string := if cond then why else "".
Definition ternary (cond : bool) (a b : string) : string := if cond then a else b.
Definition clusterOnly : string :=
  "cannot be determined from files alone; confirm against the cluster with the verify command".

(** The first version of the name. *)
Definition versionByName (vs : list planVersion) (name : string) : option planVersion :=
  snd <$> list_find (λ v, pvName v = name) vs.

Section steps.
Context (st : planState) (to : string).

Definition hubField : string := if stNative st then "storage" else "referenceable".
Definition resourceType : string := if stNative st then "customresourcedefinition" else "compositeresourcedefinition".
Definition targetFlag : string := if stNative st then "--crd <crd.yaml>" else "--xrd <xrd.yaml>".
Definition targetFlagName : string := if stNative st then "--crd" else "--xrd".

Definition promotionBlocker (oldHub : string) (hadHub : bool) : string :=
  if bool_decide (stHub st = to) && stHasConfig st && bool_decide (stConfigHub st ≠ to)
  then to +:+ " is the " +:+ hubField +:+ " version but the config still has spec.hubVersion: " +:+ stConfigHub st
  else if hadHub then "the hub is still " +:+ oldHub
  else "no version is marked " +:+ hubField +:+ ": true".

(** The versions to retire, each once: [seen] are those already appended. *)
Definition appendOnce (out : list string) (v : string) : list string :=
  if bool_decide (v = "") || bool_decide (v = to) || bool_decide (v ∈ out) then out else out ++ [v].
Definition retiringVersions : list string :=
  let out := if bool_decide (stHub st ≠ to) then appendOnce [] (stHub st) else [] in
  foldl (λ out v, if pvDeprecated v || negb (pvServed v) then appendOnce out (pvName v) else out) out (stVersions st).

(** ** The steps, before they are numbered *)

Definition hadHub : bool := bool_decide (stHub st ≠ "").
Definition target_served : bool := match versionByName (stVersions st) to with Some v => pvServed v | None => false end.
Definition serveStep : PlanStep := {|
  psNumber := 0; psTitle := "Serve " +:+ to +:+ " on the " +:+ stKind st;
  psRun := if stPackaged st then "upgrade the Configuration to the revision whose XRD serves " +:+ to
    else ternary hadHub
      ("edit " +:+ stName st +:+ ": set spec.versions[name=" +:+ to +:+ "].served: true (leave " +:+ hubField +:+ " on " +:+ stHub st +:+ " for now)")
      ("edit " +:+ stName st +:+ ": set spec.versions[name=" +:+ to +:+ "].served: true");
  psGate := if stPackaged st
    then to +:+ " is served and the apiserver accepts reads at it — with the conversion config already applied"
    else to +:+ " is served and the apiserver accepts reads at it";
  psVerify := "kubectl get " +:+ resourceType +:+ " " +:+ stName st +:+ " -o jsonpath='{.spec.versions[?(@.name==" +:+ dq +:+ to +:+ dq +:+ ")].served}'";
  psStatus := doneIf target_served;
  psBlockedBy := blockedBecause (negb target_served) ("spec.versions[name=" +:+ to +:+ "].served is not true") |}.

Definition spokeWired : bool := stHasConfig st && (bool_decide (to ∈ stSpokes st) || bool_decide (stConfigHub st = to)).
Definition configStep : PlanStep := {|
  psNumber := 0;
  psTitle := "Wire " +:+ to +:+ " into the conversion config" +:+ if stPackaged st then " — BEFORE the package upgrade" else "";
  psRun := ternary hadHub
    ("convctl suggest " +:+ targetFlag +:+ " --hub " +:+ stHub st +:+ " --spoke " +:+ to +:+ "  # then apply the config")
    ("convctl suggest " +:+ targetFlag +:+ " --hub " +:+ to +:+ "  # then apply the config");
  psGate := "the config declares a rule set covering " +:+ to +:+ ", and `convctl validate` is clean" +:+
    if stPackaged st then ". This XRD is package-managed: the config must be applied before the Configuration revision that serves " +:+ to +:+
      " lands, or the version is served with no conversion at all" else "";
  psVerify := "convctl validate " +:+ targetFlag +:+ " --config <config.yaml>";
  psStatus := doneIf spokeWired;
  psBlockedBy := blockedBecause (negb spokeWired)
    (ternary (stHasConfig st) ("no spoke entry for " +:+ to +:+ " in " +:+ stConfigName st)
       "no conversion config was supplied (--config)") |}.

Definition promoted : bool :=
  bool_decide (stHub st = to) && (negb (stHasConfig st) || bool_decide (stConfigHub st = to)).
Definition promoteStep : PlanStep := {|
  psNumber := 0; psTitle := "Promote " +:+ to +:+ " to the hub";
  psRun := ternary hadHub
    ("edit " +:+ stName st +:+ ": move " +:+ hubField +:+ ": true from " +:+ stHub st +:+ " to " +:+ to +:+ ", and set spec.hubVersion: " +:+ to +:+ " in the config")
    ("edit " +:+ stName st +:+ ": set " +:+ hubField +:+ ": true on " +:+ to +:+ ", and set spec.hubVersion: " +:+ to +:+ " in the config");
  psGate := "conversion is verified against real objects AND the webhook has reached the generated CRD. " +:+
    "Applied is not the same as converting: until Crossplane re-renders the generated CRD, reads at a non-storage version " +:+
    "return stored objects relabelled but UNCONVERTED, with HTTP 200 and no error";
  psVerify := ternary hadHub
    ("convctl test " +:+ targetFlag +:+ " --config <config.yaml> --live --validate-output --verify-propagation --version-pair " +:+ stHub st +:+ ":" +:+ to)
    ("convctl test " +:+ targetFlag +:+ " --config <config.yaml> --live --validate-output --verify-propagation");
  psStatus := doneIf promoted;
  psBlockedBy := blockedBecause (negb promoted) (promotionBlocker (stHub st) hadHub) |}.

Definition retargetStep : PlanStep := {|
  psNumber := 0; psTitle := "Retarget Compositions at the new hub";
  psRun := "convctl retarget --xrd " +:+ stName st +:+ " --to " +:+ to;
  psGate := "every Composition's compositeTypeRef.apiVersion names " +:+ to +:+ ", and every XR's compositionRef points at a retargeted Composition";
  psVerify := "convctl retarget --xrd " +:+ stName st +:+ " --to " +:+ to +:+ " --dry-run";
  psStatus := StepUnknown; psBlockedBy := clusterOnly |}.
Definition migrateStep : PlanStep := {|
  psNumber := 0; psTitle := "Migrate stored objects to " +:+ to;
  psRun := "convctl migrate-storage " +:+ targetFlagName +:+ " " +:+ stName st;
  psGate := "every object has been rewritten at the new storage version";
  psVerify := ternary hadHub
    ("convctl versions " +:+ targetFlag +:+ " --config <config.yaml>  # LIVE OBJECTS at " +:+ stHub st)
    ("convctl versions " +:+ targetFlag +:+ " --config <config.yaml>  # LIVE OBJECTS per version");
  psStatus := StepUnknown; psBlockedBy := clusterOnly |}.
Definition pruneStep : PlanStep := {|
  psNumber := 0; psTitle := "Prune storedVersions";
  psRun := "convctl migrate-storage " +:+ targetFlagName +:+ " " +:+ stName st +:+ " --prune-stored-versions";
  psGate := "status.storedVersions lists only " +:+ to;
  psVerify := ternary hadHub ("convctl versions " +:+ targetFlag +:+ " --check-unserve " +:+ stHub st) ("convctl versions " +:+ targetFlag);
  psStatus := StepUnknown; psBlockedBy := clusterOnly |}.

Definition unserved (old : string) : bool :=
  match versionByName (stVersions st) old with Some v => negb (pvServed v) | None => false end.
Definition stopStep (old : string) : PlanStep := {|
  psNumber := 0; psTitle := "Stop serving " +:+ old;
  psRun := "edit " +:+ stName st +:+ ": set spec.versions[name=" +:+ old +:+ "].served: false (mark it deprecated first, with a deprecationWarning)";
  psGate := old +:+ " is not in status.storedVersions, no field manager is still writing it, and the object walk completed";
  psVerify := "convctl versions " +:+ targetFlag +:+ " --check-unserve " +:+ old;
  psStatus := doneIf (unserved old); psBlockedBy := blockedBecause (negb (unserved old)) (old +:+ " is still served") |}.
Definition dropped (old : string) : bool := bool_decide (versionByName (stVersions st) old = None).
Definition dropStep (old : string) : PlanStep := {|
  psNumber := 0; psTitle := "Drop the " +:+ old +:+ " version block";
  psRun := "edit " +:+ stName st +:+ ": remove the " +:+ old +:+ " entry from spec.versions, and its spoke from the config";
  psGate := old +:+ " has been unserved long enough that no client depends on it; this step is irreversible for objects still stored at it";
  psVerify := "convctl compat --base <before> --head <after> --config <config.yaml> " +:+ targetFlag;
  psStatus := doneIf (dropped old);
  psBlockedBy := blockedBecause (negb (dropped old)) ("the " +:+ old +:+ " version block is still present") |}.

(** ** Numbering, withholding, blocking *)

Definition with_number (i : nat) (s : PlanStep) : PlanStep := {|
  psNumber := Z.of_nat (S i); psTitle := psTitle s; psRun := psRun s; psGate := psGate s; psVerify := psVerify s;
  psStatus := psStatus s; psBlockedBy := psBlockedBy s |}.
Definition block (why : string) (s : PlanStep) : PlanStep := {|
  psNumber := psNumber s; psTitle := psTitle s; psRun := psRun s; psGate := psGate s; psVerify := psVerify s;
  psStatus := StepBlocked; psBlockedBy := why |}.
Definition is_ready (s : PlanStep) : bool := bool_decide (psStatus s = StepReady).

(** The steps before retirement, and the two of each version to retire. *)
Definition forward_steps : list PlanStep :=
  (if stPackaged st then [configStep; serveStep] else [serveStep; configStep]) ++ [promoteStep] ++
  (if stNative st then [] else [retargetStep]) ++ [migrateStep; pruneStep].
Definition retirement_steps : list PlanStep := retiringVersions ≫= (λ old, [stopStep old; dropStep old]).

Definition withhold_text (unknown : list string) : string :=
  "step(s) " +:+ join ", " unknown +:+ " need a cluster to confirm and retiring a version is irreversible; run their verify commands, then re-run with --assume-verified".
Definition withhold (assumeVerified : bool) (retirementIdx : list nat) (steps : list PlanStep) : list PlanStep :=
  if assumeVerified then steps
  else match (λ s, pretty (psNumber s)) <$> filter (λ s, psStatus s = StepUnknown) steps with
       | [] => steps
       | unknown => imap (λ i s, if bool_decide (i ∈ retirementIdx) && is_ready s then block (withhold_text unknown) s else s) steps
       end.
Definition block_later (steps : list PlanStep) : list PlanStep :=
  match list_find (λ s, psStatus s = StepReady) steps with
  | None => steps
  | Some (first, p) =>
    imap (λ i s, if (first <? i)%nat && is_ready s
                 then block ("step " +:+ pretty (psNumber p) +:+ " (" +:+ psTitle p +:+ ") has not been done yet") s else s) steps
  end.

Definition buildSteps (assumeVerified : bool) : list PlanStep :=
  let steps := imap with_number (forward_steps ++ retirement_steps) in
  block_later (withhold assumeVerified (seq (length forward_steps) (length retirement_steps)) steps).
End steps.

Definition NextStep (r : PlanReport) : option PlanStep := snd <$> list_find (λ s, psStatus s = StepReady) (prSteps r).
Definition hasWithheldRetirement (r : PlanReport) : bool :=
  existsb (λ s, bool_decide (psStatus s = StepBlocked) && contains (psBlockedBy s) "--assume-verified") (prSteps r).

(** ** Reading the state *)

Record PlanOptions := {
  poXRDPath : string; poCRDPath : string; poConfigPath : string; poTo : string; poPackageManaged : bool; poAssumeVerified : bool }.
Inductive plan_error :=
| ErrToRequired
| ErrNoSource
| ErrLoadingFile (err : string)
| ErrNoSpecVersions (name : string)
| ErrNotDeclared (version name kind : string).

(** The files: a CRD with, per version, whether it is deprecated. *)
Record plan_files := {
  pfXRD : res string obj; pfCRD : res string (string * list (CRDVersion * bool));
  pfXRDConfig : res string XRDConversionConfig; pfCRDConfig : res string CRDConversionConfig }.

Section run_plan.
Context `{U : Unstructured}.

(** The hub is the last version marked so. *)
Definition hub_of (vs : list planVersion) : string :=
  foldl (λ hub v, if pvReferenceable v then pvName v else hub) "" vs.
Definition plan_state (name kind : string) (vs : list planVersion) (packaged native : bool)
    (cfg : option (string * string * list string)) : planState := {|
  stName := name; stKind := kind; stHub := hub_of vs; stVersions := vs;
  stConfigName := match cfg with Some (n, _, _) => n | None => "" end;
  stSpokes := match cfg with Some (_, _, spokes) => list_to_set spokes | None => ∅ end;
  stConfigHub := match cfg with Some (_, h, _) => h | None => "" end;
  stHasConfig := match cfg with Some _ => true | None => false end;
  stPackaged := packaged; stNative := native |}.

Definition crd_display_name (name : string) : string := if bool_decide (name = "") then "(unnamed)" else name.
Definition loadCRDPlanState (f : plan_files) (o : PlanOptions) : res plan_error planState :=
  '(name, versions) ← res_wrap ErrLoadingFile (pfCRD f);
  let name := crd_display_name name in
  let vs := (λ v : CRDVersion * bool, {| pvName := cvName v.1; pvServed := cvServed v.1;
    pvReferenceable := cvStorage v.1; pvDeprecated := v.2 |}) <$> versions in
  if bool_decide (vs = []) then Err (ErrNoSpecVersions name)
  else if bool_decide (poConfigPath o = "") then Ok (plan_state name "CRD" vs false true None)
  else
    c ← res_wrap ErrLoadingFile (pfCRDConfig f);
    Ok (plan_state name "CRD" vs false true
          (Some (omName (kcMeta c), csHubVersion (kcSpec c), svVersion <$> csSpokes (kcSpec c)))).

Definition ownedByPackage (xrd : obj) : bool :=
  existsb (λ o, bool_decide (orKind o = "ConfigurationRevision")) (u_GetOwnerReferences xrd).
Definition plan_version (vm : obj) : planVersion := {|
  pvName := xrdadapter.read_string vm ["name"]; pvServed := read_bool vm ["served"];
  pvReferenceable := read_bool vm ["referenceable"]; pvDeprecated := read_bool vm ["deprecated"] |}.
Definition loadXRDPlanState (f : plan_files) (o : PlanOptions) : res plan_error planState :=
  if bool_decide (poXRDPath o = "") then Err ErrNoSource
  else
    xrd ← res_wrap ErrLoadingFile (pfXRD f);
    let name := display_name xrd in
    let packaged := poPackageManaged o || ownedByPackage xrd in
    match NestedSlice xrd ["spec"; "versions"] with
    | Ok (Some raw) =>
      let vs := plan_version <$> objects_of raw in
      if bool_decide (poConfigPath o = "") then Ok (plan_state name "XRD" vs packaged false None)
      else
        c ← res_wrap ErrLoadingFile (pfXRDConfig f);
        Ok (plan_state name "XRD" vs packaged false
              (Some (omName (xcMeta c), xsHubVersion (xcSpec c), svVersion <$> xsSpokes (xcSpec c))))
    | _ => Err (ErrNoSpecVersions name)
    end.
Definition loadPlanState (f : plan_files) (o : PlanOptions) : res plan_error planState :=
  if bool_decide (poCRDPath o ≠ "") then loadCRDPlanState f o else loadXRDPlanState f o.

(** The report on a state. *)
Definition plan_report (st : planState) (to : string) (assumeVerified : bool) : PlanReport := {|
  prResource := stName st; prKind := stKind st; prConfig := stConfigName st; prFrom := stHub st; prTo := to;
  prPackageManaged := stPackaged st; prSteps := buildSteps st to assumeVerified |}.
Definition RunPlan (f : plan_files) (o : PlanOptions) : res plan_error PlanReport :=
  if bool_decide (poTo o = "") then Err ErrToRequired
  else
    st ← loadPlanState f o;
    if negb (bool_decide (poTo o ∈ pvName <$> stVersions st)) then Err (ErrNotDeclared (poTo o) (stName st) (stKind st))
    else Ok (plan_report st (poTo o) (poAssumeVerified o)).
End run_plan.

(** * The gate on un-serving *)

(** All the items of a listing, and the error that cut it off. *)
Fixpoint items_of (l : listing ListedObject) : list ListedObject :=
  match l with Page items rest => items ++ items_of rest | LastPage items => items | ListFails _ => [] end.
Fixpoint cut_off (l : listing ListedObject) : option string :=
  match l with Page _ rest => cut_off rest | LastPage _ => None | ListFails e => Some e end.

(** A field manager wrote the object at the version it is listed at. *)
Definition written (o : ListedObject) : Prop := ∃ mf, mf ∈ loManagedFields o ∧ mfAPIVersion mf = loAPIVersion o.

Lemma collect_field_dom want latest mf m :
  is_Some (collect_field want latest mf !! m) ↔ (mfAPIVersion mf = want ∧ mfManager mf = m) ∨ is_Some (latest !! m).
Proof.
  unfold collect_field. case_bool_decide as Hw; [naive_solver|].
  destruct (latest !! mfManager mf) as [cur|] eqn:E; [destruct (str_lt _ _)|];
    (destruct (decide (mfManager mf = m)) as [<-|Hm]; [rewrite ?lookup_insert_eq|rewrite ?lookup_insert_ne by done]); naive_solver.
Qed.
Lemma collectWriters_dom o latest m :
  is_Some (collectWriters o latest !! m) ↔
  (∃ mf, mf ∈ loManagedFields o ∧ mfAPIVersion mf = loAPIVersion o ∧ mfManager mf = m) ∨ is_Some (latest !! m).
Proof.
  unfold collectWriters. generalize (loManagedFields o); intros mfs; revert latest.
  induction mfs as [|mf mfs IH]; intros latest; cbn [foldl]; [set_solver|].
  rewrite IH, collect_field_dom. setoid_rewrite elem_of_cons. naive_solver.
Qed.
Lemma collect_empty (os : list ListedObject) (latest : gmap string string) :
  foldl (λ l o, collectWriters o l) latest os = ∅ ↔ (∀ o, o ∈ os → ¬ written o) ∧ latest = ∅.
Proof.
  revert latest; induction os as [|o os IH]; intros latest; cbn [foldl]; [set_solver|].
  rewrite IH. setoid_rewrite elem_of_cons.
  assert (collectWriters o latest = ∅ ↔ ¬ written o ∧ latest = ∅) as ->; [|naive_solver].
  split.
  - intros He. assert (∀ m, ¬ is_Some (collectWriters o latest !! m)) as Hn.
    { intros m. rewrite He, lookup_empty. by intros []. }
    split; [intros (mf & Hin & Hv); eapply Hn, collectWriters_dom; left; eauto|].
    apply map_empty. intros m. apply eq_None_not_Some. intros Hs. eapply Hn, collectWriters_dom. by right.
  - intros [Hw ->]. apply map_empty. intros m. apply eq_None_not_Some. rewrite collectWriters_dom, lookup_empty.
    intros [(mf & Hin & Hv & _)|[]]; [|done]. apply Hw. by exists mf.
Qed.
Lemma writers_of_nil latest : writers_of latest = [] ↔ latest = ∅.
Proof.
  unfold writers_of. split; [|intros ->; by rewrite dom_empty_L, elements_empty].
  intros Hn%fmap_nil_inv. apply dom_empty_inv_L, leibniz_equiv, elements_empty_iff, Permutation_nil_r.
  by rewrite <-Hn, sort_strings_perm.
Qed.

Section walk.
Context (IsNotFound : string → bool) (maxSamples : Z) (version : string).

(** The walk goes on: what it has counted so far is below the bound. *)
Definition open_walk (w : walk) : Prop := wkTruncated w = false ∧ wkTotal w < maxSamples.
(** [w'] is [w] after the objects [os], unless the bound was hit on the way; [P] says
    whether every listing could be read. *)
Record walked (w w' : walk) (os : list ListedObject) (P : Prop) : Prop := {
  wd_truncated : wkTruncated w' = false ↔ wkTotal w + Z.of_nat (length os) < maxSamples;
  wd_total : wkTruncated w' = false → wkTotal w' = wkTotal w + Z.of_nat (length os);
  wd_latest : wkTruncated w' = false → wkLatest w' = foldl (λ l o, collectWriters o l) (wkLatest w) os;
  wd_unreadable : wkTruncated w' = false → wkUnreadable w' = None ↔ wkUnreadable w = None ∧ P;
}.

Lemma walked_stop w w' os os' P P' :
  walked w w' os P → wkTruncated w' = true → walked w w' (os ++ os') (P ∧ P').
Proof.
  intros [H1 _ _ _] Ht. split; rewrite Ht; try done. rewrite length_app. split; [done|]. intros Hl.
  assert (wkTruncated w' = false) by (apply H1; lia). congruence.
Qed.
Lemma walked_seq w w' w'' os os' P P' :
  walked w w' os P → wkTruncated w' = false → walked w' w'' os' P' → walked w w'' (os ++ os') (P ∧ P').
Proof.
  intros [_ H2 H3 H4] Ht [K1 K2 K3 K4]. specialize (H2 Ht). specialize (H3 Ht). specialize (H4 Ht).
  split; rewrite ?length_app, ?foldl_app.
  - rewrite K1, H2. lia.
  - intros Hw. rewrite K2, H2 by done. lia.
  - intros Hw. by rewrite K3, H3.
  - intros Hw. rewrite K4, H4 by done. tauto.
Qed.
Lemma walked_open w w' os P : walked w w' os P → wkTruncated w' = false → open_walk w'.
Proof. intros [H1 H2 _ _] Ht. split; [done|]. rewrite H2 by done. by apply H1. Qed.
Lemma walked_iff w w' os P P' : (P ↔ P') → walked w w' os P → walked w w' os P'.
Proof. intros HP [H1 H2 H3 H4]. split; try done. intros Hw. by rewrite H4, HP. Qed.
Lemma walked_refl w : open_walk w → walked w w [] True.
Proof. intros [H1 H2]. split; cbn; [rewrite Z.add_0_r; tauto|intros; lia|done|tauto]. Qed.

Lemma walk_items_walked w items : open_walk w → walked w (walk_items maxSamples w items) items True.
Proof.
  revert w; induction items as [|o items IH]; intros w Hw; cbn [walk_items]; [by apply walked_refl|].
  destruct Hw as [Ht Hlt]. destruct (Z.leb_spec maxSamples (wkTotal w + 1)) as [Hle|Hgt].
  - split; cbn [wkTruncated length]; try done. split; [done|]. lia.
  - destruct (IH {| wkLatest := collectWriters o (wkLatest w); wkTotal := wkTotal w + 1; wkTruncated := false;
                     wkUnreadable := wkUnreadable w |}) as [H1 H2 H3 H4]; [by split|].
    cbn [wkTotal wkLatest wkUnreadable] in *.
    split; cbn [length foldl]; [rewrite H1; lia|intros Hf; rewrite H2 by done; lia|done|done].
Qed.

Lemma walk_listing_walked resource w l :
  open_walk w →
  walked w (walk_listing IsNotFound maxSamples version resource w l) (items_of l) (∀ e, cut_off l = Some e → IsNotFound e = true).
Proof.
  revert w; induction l as [items l IH|items|e]; intros w Hw; cbn [walk_listing items_of cut_off].
  - pose proof (walk_items_walked w items Hw) as Hi. destruct (wkTruncated (walk_items maxSamples w items)) eqn:Ht.
    + eapply walked_iff; [|by eapply (walked_stop _ _ _ _ _ (∀ e, cut_off l = Some e → IsNotFound e = true))]. tauto.
    + eapply walked_iff; [|eapply walked_seq; [done..|by eapply IH, walked_open]]. tauto.
  - eapply walked_iff; [|by apply walk_items_walked]. split; [by intros _ ? ?|done].
  - destruct Hw as [Ht Hlt]. destruct (IsNotFound e) eqn:Hn; cbn [negb andb].
    + eapply walked_iff; [|by apply walked_refl]. split; [|done]. intros _ ? [= <-]. done.
    + assert (¬ ∀ e0, Some e = Some e0 → IsNotFound e0 = true) as Hno by (intros H; specialize (H e eq_refl); congruence).
      case_bool_decide as Hu; split; cbn [length foldl wkTruncated wkTotal wkLatest wkUnreadable]; try (intros; lia); try done; try tauto.
      all: rewrite Ht; cbn; rewrite ?Z.add_0_r; first [by split|intros _; split; [done|tauto]].
Qed.

Lemma walk_all_walked list_ w gs :
  open_walk w →
  walked w (walk_all IsNotFound maxSamples version list_ w gs) (gs ≫= (λ g, items_of (list_ g)))
    (∀ g e, g ∈ gs → cut_off (list_ g) = Some e → IsNotFound e = true).
Proof.
  revert w; induction gs as [|g gs IH]; intros w Hw; cbn [walk_all mbind list_bind].
  { eapply walked_iff; [|by apply walked_refl]. split; [by intros _ ? ? ?%not_elem_of_nil|done]. }
  pose proof (walk_listing_walked (xrdadapter.gcPlural g) w (list_ g) Hw) as Hl.
  set (w' := walk_listing _ _ _ _ _ _) in *. cbn zeta. destruct (wkTruncated w') eqn:Ht.
  - eapply walked_iff; [|by eapply (walked_stop _ _ _ _ _ (∀ g e, g ∈ gs → cut_off (list_ g) = Some e → IsNotFound e = true))].
    setoid_rewrite elem_of_cons. naive_solver.
  - eapply walked_iff; [|eapply walked_seq; [done..|by eapply IH, walked_open]].
    setoid_rewrite elem_of_cons. naive_solver.
Qed.
End walk.

(** Nothing keeps the version: the evidence is complete, and none of it says that the
    version is in use. *)
Record unused `{U : Unstructured} (IsNotFound : string → bool) (w : versions_world) (bound : Z) (xrd : obj) (v : string) : Prop := {
  un_xrd : invXRD w = Ok xrd;
  un_declared : ∃ vs, xrdadapter.Versions xrd = Ok vs ∧
    ∃ r, last (filter (λ r, vsName r = v) vs) = Some r ∧ vsStorage r = false;
  un_generated : ∃ gs, xrdadapter.GeneratedCRDNames (Some xrd) = Ok gs ∧
    (∀ g, g ∈ gs → match invStored w (xrdadapter.gcName g) with Ok stored => v ∉ stored | Err e => IsNotFound e = true end) ∧
    (∀ g e, g ∈ gs → cut_off (invList w v g) = Some e → IsNotFound e = true) ∧
    (∀ g o, g ∈ gs → o ∈ items_of (invList w v g) → ¬ written o) ∧
    Z.of_nat (length (gs ≫= (λ g, items_of (invList w v g)))) < bound;
}.

Definition effective_bound (maxSamples : Z) : Z := if maxSamples <=? 0 then defaultVersionsMaxSamples else maxSamples.
Lemma effective_bound_pos n : 0 < effective_bound n.
Proof. unfold effective_bound, defaultVersionsMaxSamples. case_match; lia. Qed.

Lemma storedVersions_spec IsNotFound get out gs stored :
  storedVersions IsNotFound get out gs = Ok stored →
  (∀ g, g ∈ gs → match get (xrdadapter.gcName g) with Ok _ => True | Err e => IsNotFound e = true end) ∧
  ∀ v, v ∈ stored ↔ v ∈ out ∨ ∃ g vs, g ∈ gs ∧ get (xrdadapter.gcName g) = Ok vs ∧ v ∈ vs.
Proof.
  revert out; induction gs as [|g gs IH]; intros out; cbn [storedVersions].
  { intros [= <-]. set_solver. }
  setoid_rewrite elem_of_cons.
  destruct (get _) as [vs|e] eqn:E; [|destruct (IsNotFound e) eqn:Hn; [|done]]; intros (H1 & H2)%IH; split.
  - intros g' [->|Hg']; [by rewrite E|by apply H1].
  - intros v. rewrite H2, elem_of_union, elem_of_list_to_set. split.
    + intros [[Ho|Hv]|(g' & vs' & Hg & Hr)]; [by left|right; exists g, vs; auto|right; exists g', vs'; auto].
    + intros [Ho|(g' & vs' & [->|Hg] & Hr & Hv)]; [auto|left; right; congruence|right; eauto].
  - intros g' [->|Hg']; [by rewrite E|by apply H1].
  - intros v. rewrite H2. split.
    + intros [Ho|(g' & vs' & Hg & Hr)]; [by left|right; exists g', vs'; auto].
    + intros [Ho|(g' & vs' & [->|Hg] & Hr & Hv)]; [auto|congruence|right; eauto].
Qed.

Lemma last_filter_fmap {A B} (f : A → B) (P : B → Prop) `{∀ x, Decision (P x)} l :
  last (filter P (f <$> l)) = f <$> last (filter (λ x, P (f x)) l).
Proof.
  induction l as [|x l IH]; [done|]. rewrite fmap_cons, !filter_cons.
  destruct (decide (P (f x))); [|done]. rewrite !last_cons, IH. by destruct (last (filter (λ x, P (f x)) l)).
Qed.
(** A blocker for each fact the row records. *)
Lemma no_blockers (row : VersionRow) :
  (if rowHub row then [BIsHub] else []) ++ (if rowStored row then [BIsStored] else []) ++
    (if bool_decide (rowWriters row = []) then [] else [BWritten (vwManager <$> rowWriters row)]) ++
    match rowUnreadable row with Some e => [BUnreadable e] | None => [] end ++
    (if rowTruncated row then [BTruncated] else []) = [] ↔
  rowHub row = false ∧ rowStored row = false ∧ rowWriters row = [] ∧ rowUnreadable row = None ∧ rowTruncated row = false.
Proof.
  split; [|intros (-> & -> & Hw & -> & ->); by rewrite bool_decide_true].
  intros (H1 & (H2 & (H3 & (H4 & H5)%app_eq_nil)%app_eq_nil)%app_eq_nil)%app_eq_nil.
  case_bool_decide; [|done]. by destruct (rowHub row), (rowStored row), (rowUnreadable row), (rowTruncated row).
Qed.

Lemma gate_opens_iff_unused `{U : Unstructured} IsNotFound w n rep v :
  versionsForXRD IsNotFound w n = Ok rep →
  UnserveBlockers rep v = [] ↔ ∃ xrd, unused IsNotFound w (effective_bound n) xrd v.
Proof.
  unfold versionsForXRD. intros (xrd & Hx%res_wrap_Ok & (vs & Hvs%res_wrap_Ok & (gs & Hgs%res_wrap_Ok & (cfg & _ & Hrep)%res_bind_Ok)%res_bind_Ok)%res_bind_Ok)%res_bind_Ok.
  destruct (deprecationFromXRD xrd) as [dep warn]. apply res_bind_Ok in Hrep as (stored & Hst & Hrep).
  injection Hrep as <-. fold (effective_bound n). unfold UnserveBlockers. cbn [vrRows]. rewrite last_filter_fmap.
  apply storedVersions_spec in Hst as [Hread Hstored].
  match goal with |- context [last (filter ?P vs)] => change (last (filter P vs)) with (last (filter (λ r, vsName r = v) vs)) end.
  pose proof (walk_all_walked IsNotFound (effective_bound n) v (invList w v) walk_start gs) as Hwalk.
  destruct Hwalk as [W1 W2 W3 W4]; [by split; [done|apply effective_bound_pos]|].
  destruct (last _) as [r|] eqn:Hr; cbn [fmap option_fmap option_map].
  - assert (vsName r = v) as Hrv by (by apply last_Some_elem_of, list_elem_of_filter in Hr as [? _]).
    unfold walkObjects. rewrite Hrv. rewrite no_blockers. cbn [rowHub rowStored rowWriters rowUnreadable rowTruncated].
    rewrite writers_of_nil, bool_decide_eq_false, Hstored, W1.
    cbn [wkTotal walk_start] in *. split.
    + intros (Hhub & Hns & Hw & Hu & Ht). pose proof (proj2 W1 Ht) as Ht'. exists xrd. split; [done|eauto|].
      exists gs. rewrite W3 in Hw by done. apply collect_empty in Hw as [Hw _]. apply W4 in Hu as [_ Hu]; [|done].
      split_and!; [done| |done| |lia].
      * intros g Hg. specialize (Hread g Hg). destruct (invStored _ _) eqn:E; [|done]. intros Hv. apply Hns. right. eauto.
      * intros g o Hg Ho. apply Hw, list_elem_of_bind. eauto.
    + intros (xrd' & [Hx' (vs' & Hvs' & r' & Hr' & Hhub) (gs' & Hgs' & Hst & Hcut & Hwr & Hlen)]).
      assert (xrd' = xrd) as -> by congruence. assert (vs' = vs) as -> by congruence. assert (gs' = gs) as -> by congruence.
      assert (r' = r) as -> by congruence. assert (wkTruncated (walk_all IsNotFound (effective_bound n) v (invList w v) walk_start gs) = false) as Ht
        by (apply W1; lia).
      split_and!; [done| | |by apply W4|lia].
      * intros [?%not_elem_of_empty|(g & st & Hg & Hget & Hin)]; [done|]. specialize (Hst g Hg). by rewrite Hget in Hst.
      * rewrite W3 by done. apply collect_empty. split; [|done]. intros o (g & Ho & Hg)%list_elem_of_bind. by eapply Hwr.
  - split; [done|]. intros (xrd' & [Hx' (vs' & Hvs' & r' & Hr' & _) _]).
    assert (xrd' = xrd) as -> by congruence. assert (vs' = vs) as -> by congruence. congruence.
Qed.

(** ** Which step is offered *)

Lemma imap_lookup_ready {A} (f : nat → A → A) l i : imap f l !! i = f i <$> l !! i.
Proof. apply list_lookup_imap. Qed.

(** The statuses as they are set before anything is withheld. *)
Definition raw_status (s : PlanStep) : Prop := psStatus s = StepDone ∨ psStatus s = StepReady ∨ psStatus s = StepUnknown.
Lemma doneIf_raw b : doneIf b = StepDone ∨ doneIf b = StepReady ∨ doneIf b = StepUnknown.
Proof. destruct b; [by left|by right; left]. Qed.
Lemma doneIf_ready b : doneIf b = StepReady ↔ b = false.
Proof. by destruct b. Qed.

Section offered.
Context (st : planState) (to : string).
Notation all_steps := (forward_steps st to ++ retirement_steps st to).

Lemma forward_cases s :
  s ∈ forward_steps st to ↔
  s = serveStep st to ∨ s = configStep st to ∨ s = promoteStep st to ∨ (s = retargetStep st to ∧ stNative st = false) ∨
  s = migrateStep st to ∨ s = pruneStep st to.
Proof.
  unfold forward_steps. rewrite !elem_of_app. destruct (stPackaged st), (stNative st); rewrite ?elem_of_cons, ?elem_of_nil; naive_solver.
Qed.
Lemma retirement_cases s :
  s ∈ retirement_steps st to ↔ ∃ old, old ∈ retiringVersions st to ∧ (s = stopStep st old ∨ s = dropStep st old).
Proof.
  unfold retirement_steps. rewrite list_elem_of_bind. setoid_rewrite elem_of_cons. setoid_rewrite list_elem_of_singleton. naive_solver.
Qed.
Lemma all_raw s : s ∈ all_steps → raw_status s.
Proof.
  rewrite elem_of_app, forward_cases, retirement_cases. unfold raw_status.
  intros [[->|[->|[->|[[-> _]|[->| ->]]]]]|(old & _ & [->| ->])]; try apply doneIf_raw; by right; right.
Qed.

Lemma withheld_lookup av i :
  withhold av (seq (length (forward_steps st to)) (length (retirement_steps st to))) (imap with_number all_steps) !! i =
  (λ s, if negb av && bool_decide (length (forward_steps st to) ≤ i)%nat && is_ready s
        then block (withhold_text ((λ s, pretty (psNumber s)) <$> filter (λ s, psStatus s = StepUnknown) (imap with_number all_steps))) s
        else s) <$> imap with_number all_steps !! i.
Proof.
  unfold withhold. destruct av; cbn [negb andb]; [by rewrite option_fmap_id|].
  destruct (_ <$> filter _ _) as [|u us] eqn:Hu.
  { exfalso. apply fmap_nil_inv in Hu.
    assert (migrateStep st to ∈ all_steps) as Hin by (rewrite elem_of_app, forward_cases; tauto).
    apply list_elem_of_lookup in Hin as [k Hk].
    assert (with_number k (migrateStep st to) ∈ filter (λ s, psStatus s = StepUnknown) (imap with_number all_steps)) as H.
    { apply list_elem_of_filter. split; [done|]. apply (list_elem_of_lookup_2 _ k). by rewrite list_lookup_imap, Hk. }
    rewrite Hu in H. by apply not_elem_of_nil in H. }
  rewrite list_lookup_imap. destruct (imap with_number all_steps !! i) as [s|] eqn:Hs; [|done]. cbn [fmap option_fmap option_map].
  assert (i < length all_steps)%nat as Hlt by (apply lookup_lt_Some in Hs; by rewrite length_imap in Hs).
  rewrite length_app in Hlt. f_equal.
  by rewrite (bool_decide_ext (i ∈ seq _ _) (length (forward_steps st to) ≤ i)%nat) by (rewrite elem_of_seq; lia).
Qed.
End offered.

Lemma block_later_lookup l i :
  block_later l !! i =
  (λ s, match list_find (λ s, psStatus s = StepReady) l with
        | Some (first, p) => if (first <? i)%nat && is_ready s
            then block ("step " +:+ pretty (psNumber p) +:+ " (" +:+ psTitle p +:+ ") has not been done yet") s else s
        | None => s
        end) <$> l !! i.
Proof.
  unfold block_later. destruct (list_find _ l) as [[first p]|]; [|by rewrite option_fmap_id]. by rewrite list_lookup_imap.
Qed.

(** A step is offered when it is the first outstanding one. *)
Lemma block_later_ready l i s :
  block_later l !! i = Some s ∧ psStatus s = StepReady ↔ list_find (λ s, psStatus s = StepReady) l = Some (i, s).
Proof.
  rewrite block_later_lookup. split.
  - intros [(t & Ht & ->)%fmap_Some Hs].
    destruct (list_find _ l) as [[first p]|] eqn:Hf.
    + apply list_find_Some in Hf as (Hp & Hpr & Hlt).
      destruct (Nat.ltb_spec first i) as [Hfi|Hfi]; cbn [andb] in Hs |- *.
      { exfalso. unfold is_ready in Hs. case_bool_decide as Ht'; [|by rewrite Hs in Ht']. done. }
      destruct (decide (i = first)) as [->|Hne]; [by rewrite Ht in Hp; injection Hp as ->|].
      exfalso. eapply (Hlt i t); [done|lia|done].
    + exfalso. apply list_find_None in Hf. rewrite Forall_forall in Hf. by eapply Hf, Hs; eapply list_elem_of_lookup_2.
  - intros Hf. rewrite Hf. apply list_find_Some in Hf as (Hs & Hr & _). rewrite Hs. cbn [fmap option_fmap option_map].
    by rewrite Nat.ltb_irrefl.
Qed.

Lemma NextStep_spec st to av s :
  NextStep (plan_report st to av) = Some s ↔
  ∃ i, list_find (λ s, psStatus s = StepReady)
         (withhold av (seq (length (forward_steps st to)) (length (retirement_steps st to)))
            (imap with_number (forward_steps st to ++ retirement_steps st to))) = Some (i, s).
Proof.
  unfold NextStep, plan_report, buildSteps. cbn [prSteps]. cbv zeta. set (l := withhold _ _ _).
  destruct (list_find _ (block_later l)) as [[i t]|] eqn:Hf; cbn.
  - apply list_find_Some in Hf as (Ht & Hr & _). pose proof (proj1 (block_later_ready l i t) (conj Ht Hr)) as Hl. split.
    + intros [= <-]. eauto.
    + intros [j Hj]. rewrite Hl in Hj. by injection Hj as -> ->.
  - split; [done|]. intros [j [Hj Hr]%block_later_ready]. exfalso.
    apply list_find_None in Hf. rewrite Forall_forall in Hf. by eapply Hf, Hr; eapply list_elem_of_lookup_2.
Qed.

Lemma with_number_status i s : psStatus (with_number i s) = psStatus s.
Proof. done. Qed.

(** ** One step at a time, and the irreversible ones last *)

Lemma offered_step st to av i s :
  let steps := buildSteps st to av in
  steps !! i = Some s → psStatus s = StepReady →
  (∀ j t, steps !! j = Some t → psStatus t = StepReady → j = i) ∧
  (∀ j t, (j < i)%nat → steps !! j = Some t → psStatus t = StepDone ∨ psStatus t = StepUnknown) ∧
  ((length (forward_steps st to) ≤ i)%nat →
     av = true ∧ target_served st to = true ∧ spokeWired st to = true ∧ promoted st to = true).
Proof.
  intros steps Hs Hr. unfold steps, buildSteps in *. cbv zeta in *. clear steps.
  set (all := forward_steps st to ++ retirement_steps st to) in *.
  set (l := withhold av _ _) in *.
  pose proof (proj1 (block_later_ready l i s) (conj Hs Hr)) as Hfind.
  assert (Hl : ∀ j t, l !! j = Some t → ∃ x, all !! j = Some x ∧
    (t = with_number j x ∨ (av = false ∧ (length (forward_steps st to) ≤ j)%nat ∧ psStatus t = StepBlocked ∧ psStatus x = StepReady))).
  { intros j t Ht. unfold l in Ht. rewrite withheld_lookup in Ht. apply fmap_Some in Ht as (y & Hy & ->).
    rewrite list_lookup_imap in Hy. apply fmap_Some in Hy as (x & Hx & ->). exists x. split; [done|].
    destruct av; [by left|]. cbn [negb andb]. case_bool_decide; [|by left]. unfold is_ready. cbn [andb].
    case_bool_decide; [right; by split_and!|by left]. }
  assert (Hav : (length (forward_steps st to) ≤ i)%nat → av = true).
  { intros Hi. apply list_find_Some in Hfind as (Hli & _). unfold l in Hli. rewrite withheld_lookup in Hli.
    apply fmap_Some in Hli as (y & _ & Hy). destruct av; [done|]. cbn [negb andb] in Hy.
    rewrite bool_decide_true in Hy by done. unfold is_ready in Hy. cbn [andb] in Hy.
    case_bool_decide as Hyr; [|by rewrite Hy in Hr]. by rewrite Hy in Hr. }
  split_and!.
  - intros j t Ht Htr. pose proof (proj1 (block_later_ready l j t) (conj Ht Htr)) as Hj. rewrite Hfind in Hj. by injection Hj.
  - intros j t Hji Ht. rewrite block_later_lookup, Hfind in Ht. apply fmap_Some in Ht as (t0 & Ht0 & ->).
    rewrite (proj2 (Nat.ltb_ge i j)) by lia. cbn [andb].
    apply list_find_Some in Hfind as (_ & _ & Hfirst). destruct (Hl _ _ Ht0) as (x & Hx & [->|(Hf & Hj & _)]).
    + apply list_elem_of_lookup_2, all_raw in Hx. specialize (Hfirst _ _ Ht0 Hji). destruct Hx as [?|[?|?]]; auto; done.
    + rewrite Hav in Hf by lia. done.
  - intros Hi. split; [by apply Hav|].
    assert (Hdone : ∀ x, x ∈ forward_steps st to → psStatus x ≠ StepReady).
    { intros x [j Hj]%list_elem_of_lookup. apply list_find_Some in Hfind as (_ & _ & Hfirst).
      pose proof (lookup_lt_Some _ _ _ Hj) as Hjl.
      apply (Hfirst j (with_number j x)); [|lia]. unfold l. rewrite (Hav Hi). unfold withhold.
      rewrite list_lookup_imap. unfold all. by rewrite lookup_app_l, Hj. }
    assert (Hb : ∀ b, doneIf b ≠ StepReady → b = true) by (by intros []).
    split_and!; apply Hb.
    + apply (Hdone (serveStep st to)), forward_cases. by left.
    + apply (Hdone (configStep st to)), forward_cases. by right; left.
    + apply (Hdone (promoteStep st to)), forward_cases. by do 2 right; left.
Qed.

(** ** When no step is left *)

Section exhausted.
Context (st : planState) (to : string).

Lemma nothing_next :
  NextStep (plan_report st to true) = None →
  target_served st to = true ∧ spokeWired st to = true ∧ promoted st to = true ∧
  ∀ old, old ∈ retiringVersions st to → unserved st old = true ∧ dropped st old = true.
Proof.
  intros Hn. assert (∀ x, x ∈ forward_steps st to ++ retirement_steps st to → psStatus x ≠ StepReady) as Hnr.
  { intros x [i Hi]%list_elem_of_lookup Hr.
    destruct (list_find_elem_of (λ s, psStatus s = StepReady)
      (imap with_number (forward_steps st to ++ retirement_steps st to)) (with_number i x)) as [[j t] Hf]; [|done|].
    - apply (list_elem_of_lookup_2 _ i). by rewrite list_lookup_imap, Hi.
    - assert (NextStep (plan_report st to true) = Some t) by (apply NextStep_spec; by exists j). congruence. }
  assert (Hb : ∀ b, doneIf b ≠ StepReady → b = true) by (by intros []).
  split_and!; [apply Hb, (Hnr (serveStep st to))|apply Hb, (Hnr (configStep st to))|apply Hb, (Hnr (promoteStep st to))|].
  1-3: rewrite elem_of_app, forward_cases; tauto.
  intros old Hold. split; [apply Hb, (Hnr (stopStep st old))|apply Hb, (Hnr (dropStep st old))];
    rewrite elem_of_app, retirement_cases; eauto.
Qed.

Lemma appendOnce_elem out v x : x ∈ appendOnce to out v ↔ x ∈ out ∨ (x = v ∧ v ≠ "" ∧ v ≠ to).
Proof.
  unfold appendOnce. destruct (bool_decide_reflect (v = "")), (bool_decide_reflect (v = to)), (bool_decide_reflect (v ∈ out)); cbn;
    rewrite ?elem_of_app, ?list_elem_of_singleton; naive_solver.
Qed.
Lemma retiring_elem x :
  x ∈ retiringVersions st to ↔ x ≠ "" ∧ x ≠ to ∧
  (x = stHub st ∨ ∃ v, v ∈ stVersions st ∧ pvName v = x ∧ (pvDeprecated v = true ∨ pvServed v = false)).
Proof.
  unfold retiringVersions. generalize (stVersions st); intros vs.
  assert (∀ out, x ∈ foldl (λ out v, if pvDeprecated v || negb (pvServed v) then appendOnce to out (pvName v) else out) out vs ↔
    x ∈ out ∨ (x ≠ "" ∧ x ≠ to ∧ ∃ v, v ∈ vs ∧ pvName v = x ∧ (pvDeprecated v = true ∨ pvServed v = false))) as H.
  { induction vs as [|v vs IH]; intros out; cbn [foldl]; [set_solver|]. rewrite IH. setoid_rewrite elem_of_cons.
    destruct (decide (pvDeprecated v = true ∨ pvServed v = false)) as [Hp|Hp].
    - assert (pvDeprecated v || negb (pvServed v) = true) as -> by (destruct Hp as [-> | ->]; [done|by rewrite orb_true_r]).
      rewrite appendOnce_elem. split.
      + intros [[Ho|(-> & H1 & H2)]|(H1 & H2 & w & Hw & H3)]; [by left|right; eauto 7|right; eauto 7].
      + intros [Ho|(H1 & H2 & w & [->|Hw] & <- & H3)]; [by left; left|left; right; done|right; eauto 7].
    - assert (pvDeprecated v || negb (pvServed v) = false) as -> by (destruct (pvDeprecated v), (pvServed v); tauto).
      split.
      + intros [Ho|(H1 & H2 & w & Hw & H3)]; [by left|right; eauto 7].
      + intros [Ho|(H1 & H2 & w & [->|Hw] & <- & H3)]; [by left|done|right; eauto 7]. }
  rewrite H. case_bool_decide as Hhub; rewrite ?appendOnce_elem, ?elem_of_nil.
  - split; [intros [[[]|(-> & H1 & H2)]|(H1 & H2 & w & H3)]; eauto 7|].
    intros (H1 & H2 & [->|H3]); [left; right; done|right; eauto].
  - split; [intros [[]|(H1 & H2 & w & H3)]; eauto 7|].
    intros (H1 & H2 & [->|H3]); [done|right; eauto].
Qed.
Lemma versionByName_is_Some vs name : name ∈ pvName <$> vs → is_Some (versionByName vs name).
Proof.
  intros (v & -> & Hv)%list_elem_of_fmap.
  destruct (list_find_elem_of (λ w, pvName w = pvName v) vs v Hv eq_refl) as [[i w] E].
  unfold versionByName. rewrite E. by eexists.
Qed.

(** The plan is at its end exactly when the new version is served, the config names it
    as the hub, the target too, and no other version is deprecated or unserved. *)
Lemma exhausted :
  NextStep (plan_report st to true) = None ↔
  target_served st to = true ∧ stHasConfig st = true ∧ stHub st = to ∧ stConfigHub st = to ∧
  ∀ v, v ∈ stVersions st → pvName v ≠ "" → pvName v = to ∨ (pvServed v = true ∧ pvDeprecated v = false).
Proof.
  split.
  - intros Hn. destruct (nothing_next Hn) as (Hs & [Hc _]%andb_true_iff & [Hp Hcp]%andb_true_iff & Hret).
    rewrite Hc in Hcp. apply bool_decide_eq_true in Hp, Hcp. split_and!; [done..|]. intros v Hv Hne0.
    destruct (decide (pvName v = to)) as [?|Hne]; [by left|right].
    destruct (pvServed v) eqn:Es, (pvDeprecated v) eqn:Ed; try done; exfalso.
    all: destruct (Hret (pvName v)) as [_ Hd%bool_decide_eq_true]; [apply retiring_elem; split; [done|eauto 8]|].
    all: destruct (versionByName_is_Some (stVersions st) (pvName v)) as [w Hw]; [by apply list_elem_of_fmap_2|congruence].
  - intros (Hs & Hc & Hp & Hcp & Hv). destruct (NextStep _) as [s|] eqn:Hn; [exfalso|done].
    apply NextStep_spec in Hn as [i Hf]. apply list_find_Some in Hf as (Hl & Hr & _).
    unfold withhold in Hl. rewrite list_lookup_imap in Hl. apply fmap_Some in Hl as (x & Hx & ->).
    cbn in Hr. apply list_elem_of_lookup_2, elem_of_app in Hx as [Hx|Hx].
    + apply forward_cases in Hx as [->|[->|[->|[[-> _]|[->| ->]]]]]; try done; apply doneIf_ready in Hr; [congruence|..].
      * unfold spokeWired in Hr. by rewrite Hc, (bool_decide_true (stConfigHub st = to)), orb_true_r in Hr by done.
      * unfold promoted in Hr. by rewrite Hc, !bool_decide_true in Hr by done.
    + apply retirement_cases in Hx as (old & Hold & _). apply retiring_elem in Hold as (H0 & Hne & [->|(v & Hin & <- & Hdep)]); [done|].
      destruct (Hv v Hin H0) as [?|[Hs1 Hd1]]; [done|]. destruct Hdep; congruence.
Qed.
End exhausted.
