(* ===== verification/Testing.v ===== *)
(** [convctl test]: converting every sample there and back, and what the report says of
    it (internal/cli/diff.go, test.go, outputvalidation.go, golden.go).

    The structural-schema validator of apiextensions is a parameter (class
    [SchemaValidation]); so are YAML (class [YAML]) and the file system, whose
    answers are inputs.  A detail is data.  Times are left out. *)
From Stdlib Require Import Ascii.
From S2P Require Import Prelude Pool Float64 Value Json Path Schema Rules Coerce Passthrough Ops Convert Diagnostics Compile Normalize Platform Required Analyze Encoding Migrate Sampling OpsTheory RoundTrip.
#[local] Open Scope Z_scope.

(** ** The difference of two objects *)

Definition joinPath (prefix seg : string) : string := if bool_decide (prefix = "") then seg else prefix +:+ "." +:+ seg.
Definition isIgnoredPath (path : string) : bool :=
  bool_decide (path ∈ ["apiVersion"; "kind"; "metadata.resourceVersion"; "metadata.uid"; "metadata.creationTimestamp";
                       "metadata.generation"]).

Definition valuesEqual (a b : value) : bool :=
  match AsFloat64 a with
  | Some af => match AsFloat64 b with Some bf => f64_eqb af bf | None => false end
  | None => deep_equal a b
  end.

Definition index_path (path : string) (i : nat) : string := path +:+ "[" +:+ pretty i +:+ "]".
Definition leaf_diff (path : string) (a b : value) : list string := if valuesEqual a b then [] else [path].

(** [diffInto] returns what it appends.  A key one side lacks reads as nil there. *)
Fixpoint diffInto (a : value) (path : string) (b : value) {struct a} : list string :=
  if isIgnoredPath path then []
  else
    match a, b with
    | VObj am, VObj bm =>
      (map_to_list (diffInto <$> am) ≫= (λ kf, kf.2 (joinPath path kf.1) (default VNull (bm !! kf.1)))) ++
      (map_to_list (filter (λ kv, am !! kv.1 = None) bm) ≫= (λ kv,
        if isIgnoredPath (joinPath path kv.1) then [] else leaf_diff (joinPath path kv.1) VNull kv.2))
    | VArr al, VArr bl =>
      if bool_decide (length al = length bl) then
        (fix go (i : nat) (al bl : list value) : list string :=
           match al, bl with
           | x :: al, y :: bl => diffInto x (index_path path i) y ++ go (S i) al bl
           | _, _ => []
           end) 0%nat al bl
      else leaf_diff path a b
    | _, _ => leaf_diff path a b
    end.
Definition diffLeaves (a b : obj) : list string := sort_strings (diffInto (VObj a) "" (VObj b)).

(** [path[i]] up to the next closing bracket is skipped, the bracket too. *)
Fixpoint strip_indices (inside : bool) (s : string) : string :=
  match s with
  | EmptyString => EmptyString
  | String c s =>
    if inside then strip_indices (negb (Ascii.eqb c "]"%char)) s
    else if Ascii.eqb c "["%char then strip_indices true s else String c (strip_indices false s)
  end.
Definition stripArrayIndices (path : string) : string := strip_indices false path.

(** The path or an ancestor of it. *)
Definition pathMatchesAny (path : string) (set_ : gset string) : bool :=
  let segs := split (stripArrayIndices path) "." in
  existsb (λ i, bool_decide (join "." (take i segs) ∈ set_)) (seq 1 (length segs)).

Fixpoint countLeaves (v : value) : Z :=
  match v with
  | VObj m => map_fold (λ _ n acc, n + acc) 0 (countLeaves <$> m)
  | VArr l => foldr Z.add 0 (countLeaves <$> l)
  | _ => 1
  end.

(** ** Validating the output *)

(** [field.Error]: its type, field and body. *)
Inductive field_error_type :=
| ErrorTypeRequired | ErrorTypeTypeInvalid | ErrorTypeNotSupported | ErrorTypeForbidden | ErrorTypeTooLong | ErrorTypeTooMany
| ErrorTypeOther.
Record field_error := { feType : field_error_type; feField : string; feBody : string }.
Class SchemaValidation := {
  sv_validator : Type;
  NewSchemaValidator : JSONSchemaProps → res string sv_validator;      (* the schema converted, then compiled *)
  ValidateCustomResource : obj → sv_validator → list field_error;
  strings_ToLower : string → string;
}.

Record SchemaViolation := { viPath : string; viConstraint : string; viDetail : string; viRule : string }.

Fixpoint hasPath (o : obj) (path : FieldPath) : bool :=
  match path with
  | [] => false
  | [seg] => bool_decide (is_Some (o !! seg))
  | seg :: path => match o !! seg with Some (VObj next) => hasPath next path | _ => false end
  end.
Fixpoint deletePath (o : obj) (path : FieldPath) : obj :=
  match path with
  | [] => o
  | [seg] => delete seg o
  | seg :: path => match o !! seg with Some (VObj next) => <[seg := VObj (deletePath next path)]> o | _ => o end
  end.

(** The phrases of the validator's messages, the first that occurs. *)
Definition constraint_phrases : list (string * string) := [
  ("should match", "pattern"); ("should be a multiple of", "multipleof"); ("should be less than or equal to", "maximum");
  ("should be less than", "maximum"); ("should be greater than or equal to", "minimum"); ("should be greater than", "minimum");
  ("should have at most", "maxitems"); ("should have at least", "minitems"); ("should be at most", "maxlength");
  ("should be at least", "minlength"); ("must have unique items", "uniqueitems"); ("must have at most", "maxproperties");
  ("must have at least", "minproperties"); ("must validate one and only one schema", "oneof");
  ("must validate at least one schema", "anyof"); ("must validate all the schemas", "allof");
  ("must not validate the schema", "not"); ("in body must be of type", "type"); ("must be of type", "type")].
Definition normalizeFieldPath (p : string) : string :=
  let p := trim_prefix (trim_prefix p "<nil>.") "<nil>" in if bool_decide (p = "") then "(root)" else p.

Definition ruleID (spokeVersion : string) (rr : RuleResult) : string :=
  spokeVersion +:+ ":rule[" +:+ pretty (rrIndex rr) +:+ "]:" +:+ rrStrategy rr.

(** The rules that claim a path as a destination, in order. *)
Definition owners_of (report : AnalyzeReport) (spoke direction path : string) : list string :=
  filter (λ sr, srVersion sr = spoke) (arSpokeReports report) ≫= (λ sr, srRuleResults sr ≫= (λ rr,
    let paths := if bool_decide (direction = "toHub") then rrHubPaths rr else rrSpokePaths rr in
    const (ruleID (srVersion sr) rr) <$> filter (λ p, p = path) paths)).
Definition attributeViolations (vs : list SchemaViolation) (report : AnalyzeReport) (spoke direction : string)
    : list SchemaViolation :=
  (λ v, match owners_of report spoke direction (viPath v) with
        | [owner] => {| viPath := viPath v; viConstraint := viConstraint v; viDetail := viDetail v; viRule := owner |}
        | _ => v
        end) <$> vs.

(** [strings.Contains]. *)
Fixpoint contains_text (s sub : string) : bool :=
  has_prefix s sub || match s with EmptyString => false | String _ s => contains_text s sub end.

Section validation.
Context `{SV : SchemaValidation}.

Definition constraintFor (e : field_error) : string :=
  match feType e with
  | ErrorTypeRequired => "required" | ErrorTypeTypeInvalid => "type" | ErrorTypeNotSupported => "enum"
  | ErrorTypeForbidden => "forbidden" | ErrorTypeTooLong => "maxlength" | ErrorTypeTooMany => "maxitems"
  | ErrorTypeOther =>
    match list_find (λ m, contains_text (strings_ToLower (feBody e)) m.1 = true) constraint_phrases with
    | Some (_, m) => m.2
    | None => "schema"
    end
  end.

Record outputValidator := { ovByVersion : gmap string sv_validator; ovInjected : list FieldPath }.

Inductive test_error :=
| ErrBuildingValidator (version err : string)
| ErrNothingToTest
| ErrSpokeFailed (version : string) (errors : nat)
| ErrCorpus (err : string).

Fixpoint compile_validators (by_ : gmap string sv_validator) (versions : list VersionSchema)
    : res test_error (gmap string sv_validator) :=
  match versions with
  | [] => Ok by_
  | v :: versions =>
    match vsSchema v with
    | None => compile_validators by_ versions
    | Some s => sv ← res_wrap (ErrBuildingValidator (vsName v)) (NewSchemaValidator s);
                compile_validators (<[vsName v := sv]> by_) versions
    end
  end.
Definition newOutputValidator (versions : list VersionSchema) (injected : list FieldPath) : res test_error outputValidator :=
  m ← compile_validators ∅ versions; Ok {| ovByVersion := m; ovInjected := injected |}.

(** A nil validator knows no version. *)
Definition knows (o : option outputValidator) (version : string) : bool :=
  match o with None => false | Some ov => bool_decide (is_Some (ovByVersion ov !! version)) end.
Definition strip (ov : outputValidator) (o : obj) : obj :=
  foldl (λ out p, if hasPath out p then deletePath out p else out) o (ovInjected ov).
Definition violation_less (a b : SchemaViolation) : bool :=
  if bool_decide (viPath a = viPath b) then str_lt (viDetail a) (viDetail b) else str_lt (viPath a) (viPath b).
Definition validate (o : option outputValidator) (x : obj) (version : string) : list SchemaViolation :=
  match o ≫= (λ ov, sv ← ovByVersion ov !! version; Some (ov, sv)) with
  | None => []
  | Some (ov, sv) => sort_by violation_less
      ((λ e, {| viPath := normalizeFieldPath (feField e); viConstraint := constraintFor e; viDetail := feBody e; viRule := "" |})
       <$> ValidateCustomResource (strip ov x) sv)
  end.

(** ** One path *)

Inductive issue_detail :=
| NoCompiledPlan (version : string)
| ConversionErr (e : router_error)
| Violates (v : SchemaViolation)
| DeclaredLossy
| NotDeclaredLossy.
Record Issue := {
  isField : string; isFrom : string; isTo : string; isType : string; isDetail : issue_detail; isSample : string }.
Record PathResult := {
  ptFrom : string; ptTo : string; ptResult : string; ptFieldsConverted : Z; ptRulesMatched : list string; ptIssues : list Issue }.
Record SampleResult := {
  slFile : string; slAssertedVersion : string; slPaths : list PathResult; slCRD : string; slCRDRole : string }.

(** What a test shows the corpus: a sample's file, the versions and the output. *)
Record observation := { obFile : string; obFrom : string; obTo : string; obObject : obj }.

Definition containsString (l : list string) (s : string) : bool := bool_decide (s ∈ l).
Definition touchedSpokes (from to hub : string) : list string :=
  (if bool_decide (from = hub) then [] else [from]) ++
  (if bool_decide (to = hub) || bool_decide (to = from) then [] else [to]).

(** [av[:i]] up to the last slash, which is not the first byte. *)
Fixpoint before_last_slash (s : string) : option string :=
  match s with
  | EmptyString => None
  | String c s =>
    match before_last_slash s with
    | Some g => Some (String c g)
    | None => if Ascii.eqb c "/"%char then Some "" else None
    end
  end.
Definition withDestAPIVersion (converted source : obj) (to : string) : obj :=
  let av := match source !! "apiVersion" with Some (VStr s) => s | _ => "" end in
  match before_last_slash av with
  | None | Some "" => converted
  | Some g => <["apiVersion" := VStr (g +:+ "/" +:+ to)]> converted
  end.

Definition buildLossyPathIndex (report : AnalyzeReport) : gmap string (gset string) :=
  foldl (λ idx sr, <[srVersion sr := list_to_set (srRuleResults sr ≫= (λ rr,
    if lvHubToSpoke (rrLossless rr) && lvSpokeToHub (rrLossless rr) then [] else rrHubPaths rr ++ rrSpokePaths rr))]> idx)
    ∅ (arSpokeReports report).

Section path.
Context `{RO : RangeOrder} `{EX : Externs}.
Context (router : Router) (hub : string) (lossyPaths : gmap string (gset string)) (report : AnalyzeReport)
  (validator : option outputValidator).

Definition failed_path (s : Sample) (target field from to : string) (e : router_error) : PathResult := {|
  ptFrom := saVersion s; ptTo := target; ptResult := "error"; ptFieldsConverted := 0; ptRulesMatched := [];
  ptIssues := [{| isField := field; isFrom := from; isTo := to; isType := "error"; isDetail := ConversionErr e; isSample := saFile s |}] |}.

Definition violations (s : Sample) (target : string) (forward : obj) : list Issue :=
  if knows validator target then
    let to_hub := bool_decide (target = hub) in
    (λ v, {| isField := viPath v; isFrom := saVersion s; isTo := target; isType := "schema-violation";
             isDetail := Violates v; isSample := saFile s |})
    <$> attributeViolations (validate validator forward target) report
          (if to_hub then saVersion s else target) (if to_hub then "toHub" else "toSpoke")
  else [].
(** A lossy rule of a spoke the path touches covers the field. *)
Definition acknowledged (spokes : list string) (d : string) : bool :=
  existsb (λ spoke, pathMatchesAny d (default ∅ (lossyPaths !! spoke))) spokes.
Definition loss (s : Sample) (target : string) (spokes : list string) (d : string) : Issue :=
  let ack := acknowledged spokes d in
  {| isField := d; isFrom := saVersion s; isTo := target;
     isType := if ack then "acknowledged-loss" else "unacknowledged-loss";
     isDetail := if ack then DeclaredLossy else NotDeclaredLossy; isSample := saFile s |}.

(** The result, what the corpus is shown, and the rules the path uses. *)
Definition testOnePath (s : Sample) (target : string) : PathResult * list observation * list string :=
  if bool_decide (saVersion s = target) then
    ({| ptFrom := saVersion s; ptTo := target; ptResult := "pass"; ptFieldsConverted := countLeaves (VObj (saObject s));
        ptRulesMatched := ["(identity)"]; ptIssues := [] |}, [], [])
  else
    match Router_Convert router (saObject s) (saVersion s) target with
    | Err e => (failed_path s target "(conversion)" (saVersion s) target e, [], [])
    | Ok forward =>
      match Router_Convert router forward target (saVersion s) with
      | Err e => (failed_path s target "(round-trip conversion)" target (saVersion s) e, [], [])
      | Ok back =>
        let spokes := touchedSpokes (saVersion s) target hub in
        let diffs := diffLeaves (saObject s) back in
        let violated := violations s target forward in
        let result :=
          if bool_decide (violated ≠ []) then "error"
          else if existsb (λ d, negb (acknowledged spokes d)) diffs then "fail"
          else if bool_decide (diffs ≠ []) then "loss" else "pass" in
        let rules := filter (λ sr, srVersion sr ∈ spokes) (arSpokeReports report) ≫= (λ sr, ruleID (srVersion sr) <$> srRuleResults sr) in
        ({| ptFrom := saVersion s; ptTo := target; ptResult := result; ptFieldsConverted := countLeaves (VObj forward);
            ptRulesMatched := rules; ptIssues := violated ++ (loss s target spokes <$> diffs) |},
         [{| obFile := saFile s; obFrom := saVersion s; obTo := target; obObject := withDestAPIVersion forward (saObject s) target |}],
         rules)
      end
    end.

(** ** One sample *)

Record sampleCounts := {
  tcPathsTested : Z; tcPass : Z; tcAcknowledgedLoss : Z; tcUnacknowledgedLoss : Z; tcErrors : Z }.
Definition no_counts : sampleCounts := {|
  tcPathsTested := 0; tcPass := 0; tcAcknowledgedLoss := 0; tcUnacknowledgedLoss := 0; tcErrors := 0 |}.
Definition one_if (b : bool) : Z := if b then 1 else 0.
Definition count_result (c : sampleCounts) (result : string) : sampleCounts := {|
  tcPathsTested := tcPathsTested c + 1;
  tcPass := tcPass c + one_if (bool_decide (result = "pass"));
  tcAcknowledgedLoss := tcAcknowledgedLoss c + one_if (bool_decide (result = "loss"));
  tcUnacknowledgedLoss := tcUnacknowledgedLoss c + one_if (bool_decide (result = "fail"));
  tcErrors := tcErrors c + one_if (bool_decide (result = "error")) |}.

Record sample_outcome := { soResult : SampleResult; soCounts : sampleCounts; soUsage : list string }.

Definition unconfigured_path (s : Sample) : PathResult := {|
  ptFrom := saVersion s; ptTo := saVersion s; ptResult := "error"; ptFieldsConverted := 0; ptRulesMatched := [];
  ptIssues := [{| isField := "(sample)"; isFrom := saVersion s; isTo := saVersion s; isType := "error";
                  isDetail := NoCompiledPlan (saVersion s); isSample := saFile s |}] |}.
Definition testOneSample (skipIdentity : bool) (configured targets : list string) (s : Sample)
    : list observation * sample_outcome :=
  let result paths := {| slFile := saFile s; slAssertedVersion := saVersion s; slPaths := paths; slCRD := saCRD s; slCRDRole := saCRDRole s |} in
  if negb (containsString configured (saVersion s)) then
    ([], {| soResult := result [unconfigured_path s];
            soCounts := {| tcPathsTested := 1; tcPass := 0; tcAcknowledgedLoss := 0; tcUnacknowledgedLoss := 0; tcErrors := 1 |};
            soUsage := [] |})
  else
    let tested := testOnePath s <$> filter (λ t, negb (skipIdentity && bool_decide (t = saVersion s)) = true) targets in
    (tested ≫= (λ r, r.1.2),
     {| soResult := result ((λ r, r.1.1) <$> tested);
        soCounts := foldl count_result no_counts ((λ r, ptResult r.1.1) <$> tested);
        soUsage := tested ≫= (λ r, r.2) |}).
End path.

(** ** The run *)

Definition servedVersions (versions : list VersionSchema) : list string := vsName <$> filter (λ v, vsServed v = true) versions.
Definition configuredVersions (hub : string) (report : AnalyzeReport) (served : list string) : list string :=
  let want : gset string := list_to_set ((if bool_decide (hub = "") then [] else [hub]) ++
    (srVersion <$> filter (λ sr, bool_decide (is_Some (srCompiledPlan sr)) = true) (arSpokeReports report))) in
  let out := filter (λ v, v ∈ want) served in
  if bool_decide (out = []) then served else out.
Fixpoint splitPair (p : string) : list string :=
  match p with
  | EmptyString => [""]
  | String c p => if Ascii.eqb c ":"%char then [""; p]
                  else match splitPair p with a :: rest => String c a :: rest | [] => [] end
  end.
Definition restrictTargets (served pairs : list string) : list string :=
  let set_ : gset string := list_to_set (pairs ≫= splitPair) in
  let out := filter (λ v, v ∈ set_) served in
  if bool_decide (out = []) then served else out.

(** The samples of each CRD, in the order they were first seen. *)
Definition samplesByCRD (samples : list Sample) : list (string * string * nat) :=
  let named := filter (λ s, saCRD s ≠ "") samples in
  let order := foldl (λ order s, if bool_decide (saCRD s ∈ order) then order else order ++ [saCRD s]) [] named in
  if (length order <? 2)%nat then []
  else (λ crd, (crd, match filter (λ s, saCRD s = crd) named with s :: _ => saCRDRole s | [] => "" end,
                length (filter (λ s, saCRD s = crd) named))) <$> order.

Record Summary := { smPaths : sampleCounts; smSamples : nat; smSamplesByCRD : list (string * string * nat) }.
Record RuleCoverage := { rcRuleID : string; rcMatchedSamples : nat }.
Record Report := {
  rtResourceKind : string; rtResource : string; rtConfig : string; rtHubVersion : string; rtServedVersions : list string;
  rtSummary : Summary; rtSamples : list SampleResult; rtRuleCoverage : list RuleCoverage }.

(** What the mutex protects: the summary's counts and the rules' uses. *)
Record tally := { tlCounts : sampleCounts; tlUsage : gmap string nat }.
Definition add_counts (a b : sampleCounts) : sampleCounts := {|
  tcPathsTested := tcPathsTested a + tcPathsTested b; tcPass := tcPass a + tcPass b;
  tcAcknowledgedLoss := tcAcknowledgedLoss a + tcAcknowledgedLoss b;
  tcUnacknowledgedLoss := tcUnacknowledgedLoss a + tcUnacknowledgedLoss b; tcErrors := tcErrors a + tcErrors b |}.
Definition use_rules (m : gmap string nat) (ids : list string) : gmap string nat :=
  foldl (λ m id, <[id := S (default 0%nat (m !! id))]> m) m ids.
Definition record_sample (t : tally) (o : sample_outcome) : tally :=
  {| tlCounts := add_counts (tlCounts t) (soCounts o); tlUsage := use_rules (tlUsage t) (soUsage o) |}.
Definition no_tally : tally := {| tlCounts := no_counts; tlUsage := ∅ |}.
Definition no_outcome : sample_outcome := {|
  soResult := {| slFile := ""; slAssertedVersion := ""; slPaths := []; slCRD := ""; slCRDRole := "" |};
  soCounts := no_counts; soUsage := [] |}.

Definition coverage (report : AnalyzeReport) (usage : gmap string nat) : list RuleCoverage :=
  arSpokeReports report ≫= (λ sr, (λ rr, let id := ruleID (srVersion sr) rr in
    {| rcRuleID := id; rcMatchedSamples := default 0%nat (usage !! id) |}) <$> srRuleResults sr).

Record TestOptions := {
  toConcurrency : Z; toSkipIdentity : bool; toRestrictVersionPairs : list string; toValidateOutput : bool }.
(** [GOMAXPROCS(0)] is an input. *)
Definition effectiveConcurrency (o : TestOptions) (gomaxprocs samples : Z) : Z :=
  let n := toConcurrency o in
  let n := if n <=? 0 then gomaxprocs else n in
  let n := if samples <? n then samples else n in
  if n <? 1 then 1 else n.

Section run.
Context `{RO : RangeOrder} `{EX : Externs}.
Context (opts : TestOptions) (resourceKind resourceName configName hubVersion : string) (samples : list Sample)
  (versions : list VersionSchema) (report : AnalyzeReport) (router : Router).

(** What a worker does with a sample. *)
Definition test_sample (validator : option outputValidator) (s : Sample) : list observation * sample_outcome :=
  let configured := configuredVersions hubVersion report (servedVersions versions) in
  let targets := if bool_decide (toRestrictVersionPairs opts = []) then configured
                 else restrictTargets configured (toRestrictVersionPairs opts) in
  testOneSample router hubVersion (buildLossyPathIndex report) report validator (toSkipIdentity opts) configured targets s.
Definition run_validator (injected : list FieldPath) : res test_error (option outputValidator) :=
  if toValidateOutput opts then Some <$> newOutputValidator versions injected else Ok None.

(** The report on what the pool comes to. *)
Definition test_report (results : list sample_outcome) (t : tally) : Report := {|
  rtResourceKind := resourceKind; rtResource := resourceName; rtConfig := configName; rtHubVersion := hubVersion;
  rtServedVersions := servedVersions versions;
  rtSummary := {| smPaths := tlCounts t; smSamples := length samples; smSamplesByCRD := samplesByCRD samples |};
  rtSamples := soResult <$> results; rtRuleCoverage := coverage report (tlUsage t) |}.
(** One sample after the other; every schedule of the pool does the same. *)
Definition runTestCommon (injected : list FieldPath) : res test_error (Report * list observation) :=
  validator ← run_validator injected;
  let outcomes := test_sample validator <$> samples in
  Ok (test_report (snd <$> outcomes) (foldl record_sample no_tally (snd <$> outcomes)), outcomes ≫= fst).

(** The pool itself. *)
Definition test_pool_start (gomaxprocs : Z) : pool observation sample_outcome tally :=
  pool_start no_outcome no_tally (Z.to_nat (effectiveConcurrency opts gomaxprocs (Z.of_nat (length samples)))) samples.
Definition test_pool_step (validator : option outputValidator) :
    pool observation sample_outcome tally → pool observation sample_outcome tally → Prop :=
  pool_step (test_sample validator) record_sample samples.
Definition test_pool_over : pool observation sample_outcome tally → Prop := pool_over samples.
End run.
End validation.

(** [compiledPlans], [buildRouter] and [buildRouterCRD]. *)
Definition compiledPlans (report : AnalyzeReport) : res test_error (gmap string (option Plan)) :=
  res_foldl (λ plans sr, match srCompiledPlan sr with
    | None => Err (ErrSpokeFailed (srVersion sr) (length (srErrors sr)))
    | Some p => Ok (<[srVersion sr := Some p]> plans)
    end) ∅ (arSpokeReports report).
Definition buildRouter (hub : string) (report : AnalyzeReport) : res test_error Router :=
  plans ← compiledPlans report; Ok {| rtHub := hub; rtPlans := plans |}.

(** ** The golden corpus

    The directory is a map from corpus paths to contents, the manifest beside it.
    Versions hold no path separator, so [filepath.Join] puts one between the parts. *)

Class YAML := {
  yaml_Marshal : obj → res string string;
  yaml_Unmarshal : string → res string obj;
}.

Record GoldenManifest := {
  gmConvctlVersion : string; gmPlanHash : string; gmSchemaHash : string; gmResource : string; gmConfig : string;
  gmHubVersion : string }.
Inductive drift_detail :=
| Unserializable (err : string)
| SharedPath (prev sample : string)
| NotWritten (err : string)
| NoGolden
| NotRead (err : string)
| Differs (fields : option (list string))     (* none when the golden does not parse *)
| Orphaned
| ManifestUnreadable
| OtherProvenance (planHash schemaHash planHash' schemaHash' : string).
Record GoldenDrift := { gdFile : string; gdKind : string; gdDetail : drift_detail }.

Record corpus := {
  cpRecord : bool;                            (* record, or compare *)
  cpFiles : gmap string string; cpManifest : option GoldenManifest;
  cpSeen : gmap string string; cpDrifts : list GoldenDrift; cpWritten : nat }.
Definition newCorpus (record_ : bool) (files : gmap string string) (manifest : option GoldenManifest) : corpus := {|
  cpRecord := record_; cpFiles := files; cpManifest := manifest; cpSeen := ∅; cpDrifts := []; cpWritten := 0 |}.

Definition sanitize_char (c : ascii) : ascii :=
  if existsb (Ascii.eqb c) ["/"%char; "\"%char; ":"%char; " "%char] then "_"%char else c.
Fixpoint map_string (f : ascii → ascii) (s : string) : string :=
  match s with EmptyString => EmptyString | String c s => String (f c) (map_string f s) end.
Fixpoint all_dots (s : string) : bool :=
  match s with EmptyString => true | String c s => Ascii.eqb c "."%char && all_dots s end.
Definition sanitizeForPath (s : string) : string :=
  let s := map_string sanitize_char (trim_suffix s ".yaml") in if all_dots s then "_" +:+ s else s.
Definition goldenRelPath (sample from to : string) : string :=
  sanitizeForPath sample +:+ "/" +:+ from +:+ "-to-" +:+ to +:+ ".yaml".

Definition add_drift (c : corpus) (file kind : string) (d : drift_detail) : corpus := {|
  cpRecord := cpRecord c; cpFiles := cpFiles c; cpManifest := cpManifest c; cpSeen := cpSeen c;
  cpDrifts := cpDrifts c ++ [{| gdFile := file; gdKind := kind; gdDetail := d |}]; cpWritten := cpWritten c |}.

Section corpus.
(** The errors of writing and of reading a file that is there. *)
Context `{Y : YAML} (write_error read_error : string → option string).

Definition rel_of (o : observation) : string := goldenRelPath (obFile o) (obFrom o) (obTo o).

Definition record_golden (c : corpus) (rel data : string) : corpus :=
  match write_error rel with
  | Some e => add_drift c rel "changed" (NotWritten e)
  | None => {| cpRecord := cpRecord c; cpFiles := <[rel := data]> (cpFiles c); cpManifest := cpManifest c; cpSeen := cpSeen c;
               cpDrifts := cpDrifts c; cpWritten := S (cpWritten c) |}
  end.
Definition compare_golden (c : corpus) (rel data : string) (o : obj) : corpus :=
  match cpFiles c !! rel with
  | None => add_drift c rel "missing" NoGolden
  | Some want =>
    match read_error rel with
    | Some e => add_drift c rel "missing" (NotRead e)
    | None =>
      if bool_decide (want = data) then c
      else add_drift c rel "changed" (Differs (match yaml_Unmarshal want with Ok old => Some (diffLeaves old o) | Err _ => None end))
    end
  end.
Definition observe (c : corpus) (o : observation) : corpus :=
  let rel := rel_of o in
  match yaml_Marshal (obObject o) with
  | Err e => add_drift c rel "changed" (Unserializable e)
  | Ok data =>
    let claim c := {| cpRecord := cpRecord c; cpFiles := cpFiles c; cpManifest := cpManifest c;
      cpSeen := <[rel := obFile o]> (cpSeen c); cpDrifts := cpDrifts c; cpWritten := cpWritten c |} in
    match cpSeen c !! rel with
    | Some prev =>
      if bool_decide (prev ≠ obFile o) then add_drift c rel "changed" (SharedPath prev (obFile o))
      else if cpRecord c then record_golden (claim c) rel data else compare_golden (claim c) rel data (obObject o)
    | None => if cpRecord c then record_golden (claim c) rel data else compare_golden (claim c) rel data (obObject o)
    end
  end.

(** [short]: twelve bytes of a hash, without its algorithm. *)
Definition short (h : string) : string := let h := trim_prefix h "sha256:" in String.substring 0 12 h.
Definition manifest_drift (m : GoldenManifest) (c : corpus) : corpus :=
  match cpManifest c with
  | None => add_drift c "manifest.yaml" "manifest" ManifestUnreadable
  | Some got =>
    if bool_decide (gmPlanHash got ≠ gmPlanHash m) || bool_decide (gmSchemaHash got ≠ gmSchemaHash m)
    then add_drift c "manifest.yaml" "manifest"
           (OtherProvenance (short (gmPlanHash got)) (short (gmSchemaHash got)) (short (gmPlanHash m)) (short (gmSchemaHash m)))
    else c
  end.
(** The stale goldens are removed, or reported in the order of their names. *)
Definition finish (m : GoldenManifest) (c : corpus) : corpus :=
  if cpRecord c then {|
    cpRecord := true; cpFiles := filter (λ kv, is_Some (cpSeen c !! kv.1)) (cpFiles c); cpManifest := Some m;
    cpSeen := cpSeen c; cpDrifts := cpDrifts c; cpWritten := cpWritten c |}
  else
    manifest_drift m (foldl (λ c rel, if bool_decide (is_Some (cpSeen c !! rel)) then c else add_drift c rel "orphaned" Orphaned)
      c (sort_strings (map_to_list (cpFiles c)).*1)).

(** A run of the tests with a corpus: what it observes, then the end. *)
Definition corpus_run (c : corpus) (os : list observation) (m : GoldenManifest) : corpus := finish m (foldl observe c os).
End corpus.

(** [driftFatal]: the manifest alone does not fail a run. *)
Definition driftFatal (drifts : list GoldenDrift) : bool := existsb (λ d, negb (bool_decide (gdKind d = "manifest"))) drifts.

(** ** Tallies do not depend on the order of the samples *)

Lemma use_rules_lookup ids m k :
  use_rules m ids !! k =
  if decide (k ∈ ids) then Some (default 0 (m !! k) + length (filter (λ id, id = k) ids))%nat else m !! k.
Proof.
  revert m; induction ids as [|id ids IH]; intros m; [done|]. cbn [use_rules foldl]. fold (use_rules (<[id := S (default 0%nat (m !! id))]> m) ids).
  rewrite IH, filter_cons. destruct (decide (id = k)) as [->|Hne].
  - rewrite lookup_insert_eq, (decide_True (P := k ∈ k :: ids)) by (by left). cbn. destruct (decide (k ∈ ids)) as [Hk|Hk]; f_equal; [lia|].
    destruct (filter (λ id, id = k) ids) as [|x l] eqn:E; [cbn; lia|]. exfalso. apply Hk.
    assert (x ∈ filter (λ id, id = k) ids) as Hx by (rewrite E; by left). apply list_elem_of_filter in Hx as [-> ?]. done.
  - rewrite lookup_insert_ne by done. destruct (decide (k ∈ ids)) as [Hk|Hk].
    + by rewrite decide_True by (by right).
    + rewrite decide_False; [done|]. intros [->|?]%elem_of_cons; done.
Qed.
Lemma use_rules_comm m a b : use_rules (use_rules m a) b = use_rules (use_rules m b) a.
Proof.
  apply map_eq. intros k. rewrite !use_rules_lookup.
  destruct (decide (k ∈ a)), (decide (k ∈ b)); cbn; try done. f_equal. lia.
Qed.
Lemma record_sample_comm t a b : record_sample (record_sample t a) b = record_sample (record_sample t b) a.
Proof.
  unfold record_sample, add_counts. cbn. f_equal; [f_equal; lia|apply use_rules_comm].
Qed.

(** ** What an empty difference says *)

Inductive step := Key (k : string) | Index (i : nat).
(** The value a walk of keys and indices comes to, unless it passes an ignored path. *)
Fixpoint at_path (v : value) (path : string) (p : list step) : option value :=
  if isIgnoredPath path then None
  else
    match p with
    | [] => Some v
    | Key k :: p => match v with VObj m => x ← m !! k; at_path x (joinPath path k) p | _ => None end
    | Index i :: p => match v with VArr l => x ← l !! i; at_path x (index_path path i) p | _ => None end
    end.
Definition scalar (v : value) : bool := match v with VNull | VArr _ | VObj _ => false | _ => true end.

(** The loop of [diffInto] over two slices of the same length. *)
Fixpoint diff_items (path : string) (i : nat) (al bl : list value) : list string :=
  match al, bl with
  | x :: al, y :: bl => diffInto x (index_path path i) y ++ diff_items path (S i) al bl
  | _, _ => []
  end.
Lemma diffInto_arr al path bl :
  diffInto (VArr al) path (VArr bl) =
  if isIgnoredPath path then []
  else if bool_decide (length al = length bl) then diff_items path 0 al bl else leaf_diff path (VArr al) (VArr bl).
Proof.
  cbn [diffInto]. destruct (isIgnoredPath path); [done|]. case_bool_decide; [|done]. clear H. generalize 0%nat. revert bl.
  induction al as [|x al IH]; intros [|y bl] i; try done. cbn [diff_items]. by rewrite <-IH.
Qed.
Lemma diff_items_nil path i al bl :
  diff_items path i al bl = [] → length al = length bl →
  ∀ j x y, al !! j = Some x → bl !! j = Some y → diffInto x (index_path path (i + j)) y = [].
Proof.
  revert i bl; induction al as [|x al IH]; intros i [|y bl] Hd Hl [|j] x' y' Hx Hy; try done; cbn in Hd, Hl;
    apply app_eq_nil in Hd as [H1 H2].
  - injection Hx as ->. injection Hy as ->. by rewrite Nat.add_0_r.
  - replace (i + S j)%nat with (S i + j)%nat by lia. injection Hl as Hl. by eapply (IH (S i) bl).
Qed.

(** What a reader means by the same scalar: the same text, the same boolean, or numbers
    of one float64 value, where integers below 2^53 are exact. *)
Inductive same_scalar : value → value → Prop :=
| same_text s : same_scalar (VStr s) (VStr s)
| same_boolean b : same_scalar (VBool b) (VBool b)
| same_number v w f g : AsFloat64 v = Some f → AsFloat64 w = Some g → f64_eqb f g = true →
    (∀ j a k b, v = VInt j a → w = VInt k b → Z.abs a < 2 ^ 53 → Z.abs b < 2 ^ 53 → a = b) → same_scalar v w.

(** Equal floats are one float, but for the sign of zero. *)
Lemma SFeqb_inv f g : f64_eqb f g = true → f = g ∨ ∃ s s', f = SpecFloat.S754_zero s ∧ g = SpecFloat.S754_zero s'.
Proof.
  unfold f64_eqb, SpecFloat.SFeqb.
  destruct f as [[]|[]| |[] m e], g as [[]|[]| |[] m' e']; cbn; try done; try (by left); try (by right; eauto).
  all: destruct (Z.compare_spec e e') as [->| |]; try done; intros H; left; f_equal.
  all: apply Pos.compare_eq; unfold Pos.compare; by destruct (Pos.compare_cont Eq m m').
Qed.

Lemma f64_of_Z_inj a b : Z.abs a < 2 ^ 53 → Z.abs b < 2 ^ 53 → f64_eqb (f64_of_Z a) (f64_of_Z b) = true → a = b.
Proof.
  intros Ha Hb Heq. assert (f64_to_Z (f64_of_Z a) = f64_to_Z (f64_of_Z b)) as E.
  { destruct (SFeqb_inv _ _ Heq) as [->|(s & s' & -> & ->)]; done. }
  rewrite !f64_to_Z_of_Z in E by done. by injection E.
Qed.

Lemma valuesEqual_same v w : scalar v = true → valuesEqual v w = true → same_scalar v w.
Proof.
  unfold valuesEqual. intros Hs H. destruct (AsFloat64 v) as [f|] eqn:Ev.
  - destruct (AsFloat64 w) as [g|] eqn:Ew; [|done]. eapply same_number; [done..|]. intros j a k b -> -> Ha Hb.
    injection Ev as <-. injection Ew as <-. by apply f64_of_Z_inj.
  - destruct v, w; try done; cbn in H; apply bool_decide_eq_true in H as ->; constructor.
Qed.

Lemma valuesEqual_scalar v w : valuesEqual v w = true → scalar v = scalar w.
Proof.
  unfold valuesEqual. destruct v, w; cbn; try done; by intros.
Qed.
Lemma leaf_diff_nil path a b : leaf_diff path a b = [] → valuesEqual a b = true.
Proof. unfold leaf_diff. by destruct (valuesEqual a b). Qed.
Lemma bind_nil {A B} (f : A → list B) l x : l ≫= f = [] → x ∈ l → f x = [].
Proof.
  intros Hn Hx. destruct (f x) as [|y ys] eqn:E; [done|]. exfalso.
  assert (y ∈ l ≫= f) as Hy by (apply list_elem_of_bind; exists x; rewrite E; split; [by left|done]).
  rewrite Hn in Hy. by apply not_elem_of_nil in Hy.
Qed.

(** The values under a key, when nothing differs. *)
Lemma diffInto_key am path bm k :
  isIgnoredPath path = false → diffInto (VObj am) path (VObj bm) = [] →
  match am !! k, bm !! k with
  | Some x, y => diffInto x (joinPath path k) (default VNull y) = []
  | None, Some y => isIgnoredPath (joinPath path k) = true ∨ valuesEqual VNull y = true
  | None, None => True
  end.
Proof.
  cbn [diffInto]. intros -> [H1 H2]%app_eq_nil. destruct (am !! k) as [x|] eqn:Ha.
  - apply (bind_nil _ _ (k, diffInto x)) in H1; [|apply elem_of_map_to_list; by rewrite lookup_fmap, Ha]. done.
  - destruct (bm !! k) as [y|] eqn:Hb; [|done].
    apply (bind_nil _ _ (k, y)) in H2; [|by apply elem_of_map_to_list, map_lookup_filter_Some].
    cbn [fst snd] in H2. destruct (isIgnoredPath _); [by left|right]. by eapply leaf_diff_nil.
Qed.

Lemma deep_equal_length l l' : deep_equal (VArr l) (VArr l') = true → length l = length l'.
Proof.
  revert l'; induction l as [|x l IH]; intros [|y l'] H; try done. cbn in H. apply andb_true_iff in H as [_ H]. cbn. f_equal. by apply IH.
Qed.

(** Containers only match containers of their shape. *)
Lemma diffInto_shape a path b :
  isIgnoredPath path = false → diffInto a path b = [] →
  match a, b with
  | VObj _, VObj _ => True
  | VArr l, VArr l' => length l = length l' ∧ diff_items path 0 l l' = []
  | VObj _, _ | _, VObj _ | VArr _, _ | _, VArr _ => False
  | _, _ => valuesEqual a b = true
  end.
Proof.
  intros Hi Hd. destruct a, b; try done; try (cbn [diffInto] in Hd; rewrite Hi in Hd; by apply leaf_diff_nil in Hd).
  rewrite diffInto_arr, Hi in Hd. case_bool_decide as Hl; [done|]. apply leaf_diff_nil, deep_equal_length in Hd. done.
Qed.

Lemma at_path_null path p w : at_path VNull path p = Some w → w = VNull.
Proof. destruct p as [|[k|i] p]; cbn [at_path]; destruct (isIgnoredPath path); congruence. Qed.
Lemma at_path_ignored v path p : isIgnoredPath path = true → at_path v path p = None.
Proof. intros H. destruct p as [|[k|i] p]; cbn [at_path]; by rewrite H. Qed.

(** Each side's scalars are on the other side, with the same value. *)
Lemma diffInto_nil p a path b :
  diffInto a path b = [] →
  (∀ v, at_path a path p = Some v → scalar v = true → ∃ w, at_path b path p = Some w ∧ valuesEqual v w = true) ∧
  (∀ w, at_path b path p = Some w → scalar w = true → ∃ v, at_path a path p = Some v ∧ valuesEqual v w = true).
Proof.
  revert a path b; induction p as [|[k|j] p IH]; intros a path b Hd; cbn [at_path]; destruct (isIgnoredPath path) eqn:Hi; try by split.
  all: pose proof (diffInto_shape a path b Hi Hd) as Hsh.
  - split; intros v [= <-] Hs; eexists; (split; [done|]); destruct a, b; done.
  - destruct a as [| | | | | |am], b as [| | | | | |bm]; try done. pose proof (diffInto_key am path bm k Hi Hd) as Hk.
    split; intros v Hv Hs; apply bind_Some in Hv as (x & Hx & Hv); rewrite Hx in Hk.
    + destruct (proj1 (IH _ _ _ Hk) v Hv Hs) as (w & Hw & Heq).
      destruct (bm !! k) as [y|] eqn:Hb; [by exists w|]. exfalso. cbn [default] in Hw.
      apply at_path_null in Hw as ->. apply valuesEqual_scalar in Heq. by rewrite Hs in Heq.
    + destruct (am !! k) as [y|] eqn:Ha; cbn [mbind option_bind].
      * destruct (proj2 (IH _ _ _ Hk) v Hv Hs) as (w & Hw & Heq). eauto.
      * exfalso. destruct Hk as [Hk|Hk]; [by rewrite at_path_ignored in Hv|].
        destruct x; try done. apply at_path_null in Hv as ->. done.
  - destruct a as [| | | | |al|], b as [| | | | |bl|]; try done. destruct Hsh as [Hl Hitems].
    split; intros v Hv Hs; apply bind_Some in Hv as (x & Hx & Hv).
    + destruct (lookup_lt_is_Some_2 bl j) as [y Hy]; [rewrite <-Hl; by eapply lookup_lt_Some|].
      pose proof (diff_items_nil path 0 al bl Hitems Hl j x y Hx Hy) as Hxy. rewrite Hy. by apply (proj1 (IH _ _ _ Hxy)).
    + destruct (lookup_lt_is_Some_2 al j) as [y Hy]; [rewrite Hl; by eapply lookup_lt_Some|].
      pose proof (diff_items_nil path 0 al bl Hitems Hl j y x Hy Hx) as Hxy. rewrite Hy. by apply (proj2 (IH _ _ _ Hxy)).
Qed.
Lemma diffLeaves_nil a b : diffLeaves a b = [] ↔ diffInto (VObj a) "" (VObj b) = [].
Proof.
  unfold diffLeaves. split; [|by intros ->]. intros Hs. apply Permutation_nil_r. by rewrite <-Hs, sort_strings_perm.
Qed.

(** ** Recording a corpus and replaying it *)

Section replay.
Context {Y : YAML} (write_error read_error : string → option string).
Notation observe := (observe write_error read_error).

(** The contents an observation stands for, at its corpus path. *)
Definition output (os : list observation) (rel data : string) : Prop :=
  ∃ o, o ∈ os ∧ rel_of o = rel ∧ yaml_Marshal (obObject o) = Ok data.

Lemma observe_drifts c o : ∃ ds, cpDrifts (observe c o) = cpDrifts c ++ ds.
Proof.
  assert (∀ c file kind d, ∃ ds, cpDrifts (add_drift c file kind d) = cpDrifts c ++ ds) as Ha by (intros; by eexists).
  assert (∀ c : corpus, ∃ ds, cpDrifts c = cpDrifts c ++ ds) as Hn by (intros; exists []; by rewrite app_nil_r).
  unfold Testing.observe, record_golden, compare_golden, add_drift.
  repeat case_match; cbn [cpDrifts]; try (by eexists); apply Hn.
Qed.
Lemma foldl_observe_drifts os c : ∃ ds, cpDrifts (foldl observe c os) = cpDrifts c ++ ds.
Proof.
  revert c; induction os as [|o os IH]; intros c; [exists []; by rewrite app_nil_r|]. cbn [foldl].
  destruct (IH (observe c o)) as [ds ->], (observe_drifts c o) as [ds' ->]. exists (ds' ++ ds). by rewrite app_assoc.
Qed.
Lemma foldl_observe_mode os c : cpRecord (foldl observe c os) = cpRecord c.
Proof.
  revert c; induction os as [|o os IH]; intros c; [done|]. cbn [foldl]. rewrite IH.
  unfold Testing.observe, record_golden, compare_golden, add_drift. by repeat case_match.
Qed.
Lemma no_drift_first c o os : cpDrifts (foldl observe (observe c o) os) = [] → cpDrifts (observe c o) = [].
Proof. destruct (foldl_observe_drifts os (observe c o)) as [ds ->]. by intros [? _]%app_eq_nil. Qed.

Lemma observe_record c o :
  cpRecord c = true → cpSeen c !! rel_of o = None → cpDrifts (observe c o) = [] →
  ∃ data, yaml_Marshal (obObject o) = Ok data ∧
    observe c o = {| cpRecord := true; cpFiles := <[rel_of o := data]> (cpFiles c); cpManifest := cpManifest c;
                     cpSeen := <[rel_of o := obFile o]> (cpSeen c); cpDrifts := cpDrifts c; cpWritten := S (cpWritten c) |}.
Proof.
  intros Hr Hs. unfold Testing.observe. destruct (yaml_Marshal (obObject o)) as [data|e].
  - rewrite Hs, Hr. unfold record_golden. cbn. destruct (write_error _); [cbn; by intros []%app_nil|]. eauto.
  - cbn. by intros []%app_nil.
Qed.

Lemma record_all os c :
  cpRecord c = true → NoDup (rel_of <$> os) → (∀ o, o ∈ os → cpSeen c !! rel_of o = None) →
  let c' := foldl observe c os in
  cpDrifts c' = [] →
  cpRecord c' = true ∧ (∀ k, is_Some (cpSeen c' !! k) ↔ is_Some (cpSeen c !! k) ∨ k ∈ rel_of <$> os) ∧
  (∀ k data, cpFiles c' !! k = Some data ↔ output os k data ∨ (k ∉ rel_of <$> os ∧ cpFiles c !! k = Some data)).
Proof.
  revert c; induction os as [|o os IH]; intros c Hr Hnd Hs; cbn [foldl]; cbv zeta; intros Hd.
  { split_and!; [done|..]; intros; cbn; [set_solver|]. unfold output. set_solver. }
  cbn in Hnd. apply NoDup_cons in Hnd as [Hno Hnd].
  destruct (observe_record c o Hr (Hs o ltac:(by left)) (no_drift_first _ _ _ Hd)) as (data & Hm & Hobs).
  rewrite Hobs in Hd |- *. set (c1 := Build_corpus _ _ _ _ _ _) in *.
  destruct (IH c1) as (H1 & H2 & H3); [done..| |done|].
  { intros o' Ho'. cbn. rewrite lookup_insert_ne; [apply Hs; by right|]. intros He. apply Hno. rewrite He. by apply list_elem_of_fmap_2. }
  split_and!; [done|..].
  - intros k. rewrite H2. cbn. rewrite elem_of_cons, lookup_insert_is_Some', (symmetry_iff (=) k). tauto.
  - intros k d. rewrite H3. cbn. rewrite elem_of_cons. unfold output. setoid_rewrite elem_of_cons.
    destruct (decide (rel_of o = k)) as [<-|Hne].
    + rewrite lookup_insert_eq. split.
      * intros [(o' & Ho' & He & _)|[_ [= <-]]]; [exfalso; apply Hno; rewrite <-He; by apply list_elem_of_fmap_2|left; eauto].
      * intros [(o' & [->|Ho'] & He & Hm')|[Hn _]]; [right; split; [done|congruence]| |exfalso; apply Hn; by left].
        exfalso; apply Hno; rewrite <-He; by apply list_elem_of_fmap_2.
    + rewrite lookup_insert_ne by done. split.
      * intros [(o' & Ho' & He & Hm')|[Hn Hf]]; [left; eauto|right; split; [intros [->|?]|]; done].
      * intros [(o' & [->|Ho'] & He & Hm')|[Hn Hf]]; [done|left; eauto|right; split; [|done]]. intros Hk. apply Hn. by right.
Qed.

(** What a comparison of one observation adds. *)
Definition matches (files : gmap string string) (o : observation) : Prop :=
  ∃ data, yaml_Marshal (obObject o) = Ok data ∧ files !! rel_of o = Some data.
Lemma observe_compare c o :
  (∀ r, read_error r = None) → cpRecord c = false → cpSeen c !! rel_of o = None →
  is_Some (match yaml_Marshal (obObject o) with Ok d => Some d | Err _ => None end) →
  cpRecord (observe c o) = false ∧ cpFiles (observe c o) = cpFiles c ∧ cpManifest (observe c o) = cpManifest c ∧
  cpSeen (observe c o) = <[rel_of o := obFile o]> (cpSeen c) ∧
  (cpDrifts (observe c o) = [] ↔ cpDrifts c = [] ∧ matches (cpFiles c) o).
Proof.
  intros Hre Hr Hs [data Hm]. unfold Testing.observe, matches. destruct (yaml_Marshal (obObject o)) as [d|e]; [|done].
  rewrite Hs, Hr. unfold compare_golden. cbn [cpFiles]. rewrite Hre.
  destruct (cpFiles c !! rel_of o) as [want|]; [case_bool_decide as Hw|]; cbn; (split_and!; [done..|]).
  - subst want. split; [intros ->; eauto|by intros [-> _]].
  - split; [by intros []%app_nil|]. intros [_ (d' & [= <-] & [= ->])]. done.
  - split; [by intros []%app_nil|]. intros [_ (d' & _ & ?)]. done.
Qed.
Lemma compare_all os c :
  (∀ r, read_error r = None) → cpRecord c = false → NoDup (rel_of <$> os) → (∀ o, o ∈ os → cpSeen c !! rel_of o = None) →
  (∀ o, o ∈ os → ∃ data, yaml_Marshal (obObject o) = Ok data) →
  let c' := foldl observe c os in
  cpRecord c' = false ∧ cpFiles c' = cpFiles c ∧ cpManifest c' = cpManifest c ∧
  (∀ k, is_Some (cpSeen c' !! k) ↔ is_Some (cpSeen c !! k) ∨ k ∈ rel_of <$> os) ∧
  (cpDrifts c' = [] ↔ cpDrifts c = [] ∧ ∀ o, o ∈ os → matches (cpFiles c) o).
Proof.
  intros Hre. revert c; induction os as [|o os IH]; intros c Hr Hnd Hs Hm; cbn [foldl].
  { split_and!; try done; [set_solver|]. split; [|tauto]. intros ->. split; [done|set_solver]. }
  cbn in Hnd. apply NoDup_cons in Hnd as [Hno Hnd].
  destruct (observe_compare c o Hre Hr (Hs o ltac:(by left))) as (H1 & H2 & H3 & H4 & H5).
  { destruct (Hm o ltac:(by left)) as [d ->]. by eexists. }
  destruct (IH (observe c o)) as (K1 & K2 & K3 & K4 & K5); [done..| | |].
  { intros o' Ho'. rewrite H4, lookup_insert_ne; [apply Hs; by right|]. intros He. apply Hno. rewrite He. by apply list_elem_of_fmap_2. }
  { intros o' Ho'. apply Hm. by right. }
  split_and!; [done|congruence..| |].
  - intros k. rewrite K4, H4. cbn. rewrite elem_of_cons, lookup_insert_is_Some', (symmetry_iff (=) k). tauto.
  - rewrite K5, H5, H2. split.
    + intros [[Hc Ho] Hos]. split; [done|]. intros o' [->|Ho']%elem_of_cons; [done|by apply Hos].
    + intros [Hc Ho]. split; [split; [done|apply Ho; by left]|]. intros o' Ho'. apply Ho. by right.
Qed.

Lemma orphans_nil (c0 : corpus) rels :
  let f := λ (c : corpus) rel, if bool_decide (is_Some (cpSeen c !! rel)) then c else add_drift c rel "orphaned" Orphaned in
  cpManifest (foldl f c0 rels) = cpManifest c0 ∧
  (cpDrifts (foldl f c0 rels) = [] ↔ cpDrifts c0 = [] ∧ ∀ rel, rel ∈ rels → is_Some (cpSeen c0 !! rel)).
Proof.
  cbv zeta. revert c0; induction rels as [|rel rels IH]; intros c0; cbn [foldl].
  { split; [done|]. split; [|tauto]. intros ->. split; [done|set_solver]. }
  destruct (IH (if bool_decide (is_Some (cpSeen c0 !! rel)) then c0 else add_drift c0 rel "orphaned" Orphaned)) as [H1 H2].
  rewrite H1, H2. case_bool_decide as Hs; (split; [done|]); setoid_rewrite elem_of_cons.
  - split; [intros [Hc Hr]; split; [done|]; intros r [->|?]; auto|intros [Hc Hr]; auto].
  - cbn. split; [intros [[]%app_nil _]; done|]. intros [_ Hr]. destruct Hs. auto.
Qed.
Lemma manifest_drift_nil m c :
  cpDrifts (manifest_drift m c) = [] ↔
  cpDrifts c = [] ∧ ∃ got, cpManifest c = Some got ∧ gmPlanHash got = gmPlanHash m ∧ gmSchemaHash got = gmSchemaHash m.
Proof.
  unfold manifest_drift. destruct (cpManifest c) as [got|]; [|cbn; split; [by intros []%app_nil|by intros (_ & ? & ? & _)]].
  destruct (bool_decide_reflect (gmPlanHash got ≠ gmPlanHash m)) as [Hp|Hp]; cbn;
    [split; [by intros []%app_nil|intros (_ & ? & [= <-] & ? & _); done]|].
  destruct (bool_decide_reflect (gmSchemaHash got ≠ gmSchemaHash m)) as [Hq|Hq]; cbn;
    [split; [by intros []%app_nil|intros (_ & ? & [= <-] & _ & ?); done]|].
  split; [intros Hc|by intros [? _]]. split; [done|]. exists got. split_and!; [done|by apply dec_stable..].
Qed.

(** A replay finds no drift exactly when it produces what was recorded. *)
Lemma replay_clean files0 m0 os m os' m' :
  NoDup (rel_of <$> os) → NoDup (rel_of <$> os') → (∀ r, read_error r = None) →
  (∀ o, o ∈ os' → ∃ data, yaml_Marshal (obObject o) = Ok data) →
  let recorded := corpus_run write_error read_error (newCorpus true files0 m0) os m in
  cpDrifts recorded = [] →
  cpDrifts (corpus_run write_error read_error (newCorpus false (cpFiles recorded) (cpManifest recorded)) os' m') = [] ↔
  (∀ rel data, output os rel data ↔ output os' rel data) ∧ gmPlanHash m = gmPlanHash m' ∧ gmSchemaHash m = gmSchemaHash m'.
Proof.
  intros Hnd Hnd' Hre Hm' recorded Hclean. unfold recorded, corpus_run, finish in *. rewrite !foldl_observe_mode in *.
  cbn [newCorpus cpRecord cpFiles cpManifest cpDrifts] in *.
  destruct (record_all os (newCorpus true files0 m0)) as (_ & R2 & R3); [done..|]. cbn [newCorpus cpSeen cpFiles] in R2, R3.
  set (c1 := foldl observe (newCorpus true files0 m0) os) in *. set (files := filter _ (cpFiles c1)).
  assert (Hfiles : ∀ k data, files !! k = Some data ↔ output os k data).
  { intros k data. unfold files. rewrite map_lookup_filter_Some, R3, R2, lookup_empty. cbn [fst]. split.
    - intros [[?|[Hn _]] [[]|Hk]]; done.
    - intros Ho. split; [by left|right]. destruct Ho as (o & Ho & <- & _). by apply list_elem_of_fmap_2. }
  destruct (compare_all os' (newCorpus false files (Some m)) Hre) as (_ & K2 & K3 & K4 & K5); [done..|].
  cbn [newCorpus cpSeen cpFiles cpManifest cpDrifts] in K2, K3, K4, K5.
  set (c2 := foldl observe (newCorpus false files (Some m)) os') in *.
  destruct (orphans_nil c2 (sort_strings (map_to_list (cpFiles c2)).*1)) as [Or1 Or2].
  rewrite manifest_drift_nil, Or1, Or2, K5, K3, K2. clear Or1 Or2 K5 K3 K2.
  assert (Hout : (∀ o, o ∈ os' → matches files o) ∧
      (∀ rel, rel ∈ sort_strings (map_to_list files).*1 → is_Some (cpSeen c2 !! rel)) ↔
    ∀ rel data, output os rel data ↔ output os' rel data).
  { setoid_rewrite elem_of_sort_strings. setoid_rewrite K4. setoid_rewrite list_elem_of_fmap.
    split.
    - intros [Hmat Horph] rel data. split.
      + intros Ho. apply Hfiles in Ho as Hf.
        destruct (Horph rel) as [[? ?]|(o & -> & Ho')]; [by exists (rel, data); rewrite elem_of_map_to_list|done|].
        destruct (Hmat o Ho') as (d & Hd & Hf'). exists o. split_and!; [done..|congruence].
      + intros (o & Ho & <- & Hd). destruct (Hmat o Ho) as (d & Hd' & Hf). apply Hfiles. congruence.
    - intros Heq. split.
      + intros o Ho. destruct (Hm' o Ho) as [d Hd]. exists d. split; [done|]. apply Hfiles, Heq. by exists o.
      + intros rel ([k d] & -> & Hk%elem_of_map_to_list). apply Hfiles, Heq in Hk as (o & Ho & <- & _). right. eauto. }
  rewrite <-Hout. split.
  - intros [[[_ H1] H2] (got & [= <-] & H3 & H4)]. done.
  - intros [[H1 H2] [H3 H4]]. split; [done|]. by exists m.
Qed.
End replay.
