(* ===== verification/Fuzz.v ===== *)
(** [convctl test --fuzz]: generating objects from a version's own schema
    (internal/cli/fuzz.go).

    The generator draws from math/rand, a parameter: [RandSource] of Sampling.v and
    [RandMore].  Its methods are functions of the generator's state, the source and the
    fields it could not construct; a draw from an empty range is a panic.  The theorem
    at the end is what the generator checks of its own output: the objects fit the
    schema, for every source. *)
From S2P Require Import Prelude Float64 Value Json Duration Path Schema Rules Coerce Passthrough Ops Convert Diagnostics Compile Normalize Platform Required Analyze Migrate Sampling Testing.
From Stdlib Require Import Ascii.
From Stdlib.Floats Require Import SpecFloat.
#[local] Open Scope Z_scope.

(** ** The schema, as the generator reads it *)

(** The fields of [JSONSchemaProps] the generator looks at; enum members and defaults
    are raw JSON. *)
Inductive FuzzSchema := {
  fzType : string; fzEnum : list string; fzDefault : option string; fzProperties : gmap string FuzzSchema;
  fzRequired : list string; fzItems : option FuzzSchema;      (* Items and Items.Schema *)
  fzMinItems : option Z; fzMaxItems : option Z; fzMinLength : option Z; fzMaxLength : option Z; fzPattern : string;
  fzMinimum : option float64; fzMaximum : option float64; fzPreserve : bool }.

Definition maxFuzzObjects : Z := 10000.
Definition maxGeneratedSize : Z := 256.

Definition boundedSize (n : Z) : Z * bool :=
  if maxGeneratedSize <? n then (maxGeneratedSize, true) else if n <? 0 then (0, false) else (n, false).

(** ** Lexical shapes *)

Inductive lexicalShape := shapeFree | shapeQuantity | shapeDuration | shapeNumeric | shapeUnknown.
#[export] Instance lexicalShape_eq_dec : EqDecision lexicalShape.
Proof. solve_decision. Defined.
Definition shape_rank (s : lexicalShape) : Z :=
  match s with shapeFree => 0 | shapeQuantity => 1 | shapeDuration => 2 | shapeNumeric => 3 | shapeUnknown => 4 end.

Definition shape_of (strategy : Strategy) : option lexicalShape :=
  if bool_decide (strategy = StrategyQuantity) then Some shapeQuantity
  else if bool_decide (strategy = StrategyDuration) then Some shapeDuration
  else if bool_decide (strategy ∈ [StrategyNumericScale; StrategyTypeCoerce]) then Some shapeNumeric
  else if bool_decide (strategy ∈ [StrategyScalarToFields; StrategyFieldsToScalar; StrategyScalarToObject; StrategyObjectToScalar;
                                   StrategyListJoin; StrategyListSplit; StrategyCEL; StrategyJSONPatch]) then Some shapeUnknown
  else None.
(** A stricter shape stays. *)
Definition mark (shape : lexicalShape) (out : gmap string lexicalShape) (p : string) : gmap string lexicalShape :=
  match out !! p with
  | Some cur => if shape_rank shape <? shape_rank cur then out else <[p := shape]> out
  | None => <[p := shape]> out
  end.
Definition shapesFromRules (report : AnalyzeReport) : gmap string lexicalShape :=
  foldl (λ out rr, match shape_of (rrStrategy rr) with
                   | Some shape => foldl (mark shape) out (rrHubPaths rr ++ rrSpokePaths rr)
                   | None => out
                   end) ∅ (arSpokeReports report ≫= srRuleResults).

(** ** The generator *)

Class RandMore `{RS : RandSource} := {
  rand_Int63n : rand_state → Z → Z * rand_state;
  rand_Float64 : rand_state → float64 * rand_state;
}.
(** What math/rand documents of its draws. *)
Class RandLaws `{RM : RandMore} := {
  rand_Intn_range s n : 0 < n → 0 <= (rand_Intn s n).1 < n;
  rand_Int63n_range s n : 0 < n → 0 <= (rand_Int63n s n).1 < n;
}.

Inductive unconstructible_reason := NoLexicalForm | NoPatternInverse (pattern : string) | NoWay.
Record unconstructibleField := { ucPath : string; ucWhy : unconstructible_reason }.

Section generator.
Context `{RM : RandMore} `{EX : Externs}.
(** [regexp.Compile] of a pattern, then [MatchString]; no answer when it does not compile. *)
Context (MatchString : string → string → option bool).
Context (shapes : gmap string lexicalShape).

Record gen := { gnRnd : rand_state; gnUnconstructible : list unconstructibleField }.
(** A method of the generator; [None] is a panic. *)
Definition G (A : Type) : Type := gen → option (A * gen).
#[global] Instance G_ret : MRet G := λ A a g, Some (a, g).
#[global] Instance G_bind : MBind G := λ A B f m g, match m g with Some (a, g) => f a g | None => None end.

Definition with_rnd (g : gen) (r : rand_state) : gen := {| gnRnd := r; gnUnconstructible := gnUnconstructible g |}.
Definition Intn (n : Z) : G Z := λ g,
  if n <=? 0 then None else let '(x, r) := rand_Intn (gnRnd g) n in Some (x, with_rnd g r).
Definition Int63n (n : Z) : G Z := λ g,
  if n <=? 0 then None else let '(x, r) := rand_Int63n (gnRnd g) n in Some (x, with_rnd g r).
Definition draw_Float64 : G float64 := λ g, let '(x, r) := rand_Float64 (gnRnd g) in Some (x, with_rnd g r).
Definition record_unconstructible (u : unconstructibleField) : G () := λ g,
  Some (tt, {| gnRnd := gnRnd g; gnUnconstructible := gnUnconstructible g ++ [u] |}).

(** A decoded value; null is Go's nil, which means no value. *)
Definition unmarshalled (raw : string) : option value :=
  match json_Unmarshal raw with Some VNull | None => None | Some v => Some v end.

Definition pickEnum (enum : list string) : G (option value) :=
  c ← Intn 3;
  idx ← (if c =? 0 then mret 0 else if c =? 1 then mret (Z.of_nat (length enum) - 1) else Intn (Z.of_nat (length enum)));
  mret (raw ← enum !! Z.to_nat idx; unmarshalled raw).

Definition shape_at (path : list string) : lexicalShape := default shapeFree (shapes !! join "." path).

(** A default that does not parse falls through to the enum. *)
Definition schemaVouchedString (s : FuzzSchema) : G (option value) :=
  match fzDefault s ≫= json_Unmarshal with
  | Some VNull => mret None
  | Some v => mret (Some v)
  | None => if bool_decide (fzEnum s = []) then mret None else pickEnum (fzEnum s)
  end.

Definition fitsStringSchema (str : string) (s : FuzzSchema) : bool :=
  let len := Z.of_nat (String.length str) in
  match fzMinLength s with Some k => negb (len <? k) | None => true end &&
  match fzMaxLength s with Some k => negb (k <? len) | None => true end &&
  (bool_decide (fzPattern s = "") || default false (MatchString (fzPattern s) str)).

Definition from (l : list string) : G string := i ← Intn (Z.of_nat (length l)); mret (default "" (l !! Z.to_nat i)).
Definition shapedString (shape : lexicalShape) : G string :=
  match shape with
  | shapeQuantity => k ← Intn 512; u ← from [""; "m"; "Ki"; "Mi"; "Gi"; "k"; "M"; "G"]; mret (pretty (1 + k) +:+ u)
  | shapeDuration => k ← Intn 120; u ← from ["ns"; "us"; "ms"; "s"; "m"; "h"]; mret (pretty (1 + k) +:+ u)
  | _ => k ← Intn 1000; mret (pretty k)
  end.

(** A size between two bounds, biased to them: each is one draw in [cases]. *)
Definition between_bounds (lo hi : Z) : G Z := if lo <? hi then k ← Intn (hi - lo + 1); mret (lo + k) else mret lo.

Definition letter (i : Z) : ascii := ascii_of_nat (97 + Z.to_nat i).
Fixpoint letters (n : nat) : G string :=
  match n with O => mret "" | S n => i ← Intn 26; rest ← letters n; mret (String (letter i) rest) end.

Definition plain_string (s : FuzzSchema) : G (option value) :=
  let '(minLen, minTooLong) := match fzMinLength s with Some k => boundedSize k | None => (1, false) end in
  if minTooLong then mret None
  else
    let maxLen := match fzMaxLength s with Some k => (boundedSize k).1 | None => 8 end in
    let maxLen := if maxLen <? minLen then minLen else maxLen in
    c ← Intn 3;
    n ← (if c =? 0 then mret minLen else if c =? 1 then mret maxLen else between_bounds minLen maxLen);
    if n <=? 0 then mret (Some (VStr "")) else t ← letters (Z.to_nat n); mret (Some (VStr t)).
Definition str_ (path : list string) (s : FuzzSchema) : G (option value) :=
  match shape_at path with
  | shapeUnknown => schemaVouchedString s
  | shapeFree => if bool_decide (fzPattern s = "") then plain_string s else schemaVouchedString s
  | shape => v ← shapedString shape; if fitsStringSchema v s then mret (Some (VStr v)) else schemaVouchedString s
  end.

(** [math.Ceil] and [math.Floor]. *)
Definition Ceil (f : float64) : float64 :=
  match f64_to_Z f with Some z => f64_of_Z (if f64_ltb (f64_of_Z z) f then z + 1 else z) | None => f end.
Definition Floor (f : float64) : float64 :=
  match f64_to_Z f with Some z => f64_of_Z (if f64_ltb f (f64_of_Z z) then z - 1 else z) | None => f end.
Definition int_span : Z := 100.
(** The range of an integer, or none when its bounds leave none. *)
Definition int_range (s : FuzzSchema) : option (Z * Z) :=
  let lo := default 0 ((λ f, int64_of_float (Ceil f)) <$> fzMinimum s) in
  let hi := default int_span ((λ f, int64_of_float (Floor f)) <$> fzMaximum s) in
  match fzMinimum s, fzMaximum s with
  | Some _, Some _ => if hi <? lo then None else Some (lo, hi)
  | Some _, None => let hi := wrap64 (lo + int_span) in Some (lo, if hi <? lo then 2 ^ 63 - 1 else hi)
  | None, Some _ => let lo := wrap64 (hi - int_span) in Some (if hi <? lo then - 2 ^ 63 else lo, hi)
  | None, None => Some (lo, hi)
  end.
Definition integer (s : FuzzSchema) : G (option value) :=
  match int_range s with
  | None => mret None
  | Some (lo, hi) =>
    c ← Intn 3;
    z ← (if c =? 0 then mret lo else if c =? 1 then mret hi
         else if lo <? hi then k ← Int63n (wrap64 (wrap64 (hi - lo) + 1)); mret (wrap64 (lo + k)) else mret lo);
    mret (Some (VInt Int64 z))
  end.

Definition number_range (s : FuzzSchema) : float64 * float64 :=
  let lo := default (f64_of_Z 0) (fzMinimum s) in
  let hi := default (f64_of_Z 100) (fzMaximum s) in
  (lo, if f64_ltb hi lo then lo else hi).
Definition number (s : FuzzSchema) : G (option value) :=
  let '(lo, hi) := number_range s in
  c ← Intn 3;
  f ← (if c =? 0 then mret lo else if c =? 1 then mret hi
       else r ← draw_Float64; mret (f64_add lo (f64_mul r (f64_sub hi lo))));
  mret (Some (VFloat f)).

Definition whyUnconstructible (path : list string) (p : FuzzSchema) : unconstructible_reason :=
  if bool_decide (shape_at path = shapeUnknown) then NoLexicalForm
  else if bool_decide (fzPattern p ≠ "") then NoPatternInverse (fzPattern p) else NoWay.

Section value.
(** The method [value], one level deeper. *)
Context (value_ : list string → FuzzSchema → G (option value)).

(** Properties in the order of their names. *)
Fixpoint properties (path required : list string) (props : list (string * FuzzSchema)) (out : obj) : G obj :=
  match props with
  | [] => mret out
  | (name, prop) :: props =>
    let generate :=
      let path' := path ++ [name] in
      v ← value_ path' prop;
      match v with
      | Some v => properties path required props (<[name := v]> out)
      | None =>
        if bool_decide (name ∈ required) then
          _ ← record_unconstructible {| ucPath := join "." path'; ucWhy := whyUnconstructible path' prop |};
          properties path required props out
        else properties path required props out
      end in
    if bool_decide (name ∈ required) then generate
    else c ← Intn 4; if c =? 0 then properties path required props out else generate
  end.
Definition sorted_properties (s : FuzzSchema) : list (string * FuzzSchema) :=
  omap (λ n, pair n <$> fzProperties s !! n) (sort_strings (elements (dom (fzProperties s)))).
Definition object (path : list string) (s : FuzzSchema) : G (option value) :=
  m ← properties path (fzRequired s) (sorted_properties s) ∅; mret (Some (VObj m)).

Fixpoint elements_of (path : list string) (item : FuzzSchema) (n : nat) : G (list value) :=
  match n with
  | O => mret []
  | S n => v ← value_ path item; rest ← elements_of path item n; mret (match v with Some v => v :: rest | None => rest end)
  end.
Definition array (path : list string) (s : FuzzSchema) : G (option value) :=
  match fzItems s with
  | None => mret (Some (VArr []))
  | Some item =>
    let '(minItems, minTooLarge) := match fzMinItems s with Some k => boundedSize k | None => (0, false) end in
    if minTooLarge then mret None
    else
      let maxItems := match fzMaxItems s with Some k => (boundedSize k).1 | None => minItems + 2 end in
      let maxItems := if maxItems <? minItems then minItems else maxItems in
      c ← Intn 4;
      n ← (if c =? 0 then mret minItems else if c =? 1 then mret maxItems
           else if c =? 2 then mret (if (minItems <=? 1) && (1 <=? maxItems) then 1 else minItems)
           else between_bounds minItems maxItems);
      out ← elements_of path item (Z.to_nat n);
      mret (if Z.of_nat (length out) <? minItems then None else Some (VArr out))
  end.
Definition by_type (path : list string) (s : FuzzSchema) : G (option value) :=
  if bool_decide (fzType s = "object") then object path s
  else if bool_decide (fzType s = "array") then array path s
  else if bool_decide (fzType s = "string") then str_ path s
  else if bool_decide (fzType s = "integer") then integer s
  else if bool_decide (fzType s = "number") then number s
  else if bool_decide (fzType s = "boolean") then c ← Intn 2; mret (Some (VBool (c =? 0)))
  else mret (if fzPreserve s then Some (VObj {["opaque" := VStr "value"]}) else None).
Definition value_body (path : list string) (s : FuzzSchema) : G (option value) :=
  if bool_decide (fzEnum s = []) then
    match fzDefault s with
    | None => by_type path s
    | Some raw =>
      c ← Intn 4;
      if c =? 0 then match json_Unmarshal raw with
                     | Some VNull => mret None | Some v => mret (Some v) | None => by_type path s end
      else by_type path s
    end
  else pickEnum (fzEnum s).
End value.

(** [depth > 12] stops the recursion: [levels] are those that are left, 13 at the top. *)
Fixpoint value_at (levels : nat) (path : list string) (s : FuzzSchema) : G (option value) :=
  match levels with O => mret None | S levels => value_body (value_at levels) path s end.
Definition fuzz_levels : nat := 13.

(** ** The samples *)

Definition versionOfAPIVersion (apiVersion : string) : string := List.last (split apiVersion "/") "".
Definition fuzz_name (i : nat) : string := "fuzz-" +:+ pretty i.
Definition generate_one (s : FuzzSchema) (apiVersion kind : string) (i : nat) : G Sample :=
  v ← value_at fuzz_levels [] s;
  let o : obj := match v with Some (VObj m) => m | _ => ∅ end in
  mret {| saFile := fuzz_name i; saVersion := versionOfAPIVersion apiVersion; saCRD := ""; saCRDRole := "";
          saObject := <["metadata" := VObj {["name" := VStr (fuzz_name i)]}]> (<["kind" := VStr kind]>
                      (<["apiVersion" := VStr apiVersion]> o)) |}.
Fixpoint generate_from (s : FuzzSchema) (apiVersion kind : string) (i n : nat) : G (list Sample) :=
  match n with
  | O => mret []
  | S n => x ← generate_one s apiVersion kind i; rest ← generate_from s apiVersion kind (S i) n; mret (x :: rest)
  end.
Definition generate (s : FuzzSchema) (n : nat) (apiVersion kind : string) : G (list Sample) := generate_from s apiVersion kind 0 n.

(** ** The run *)

Inductive fuzz_error :=
| ErrNotPositive (n : Z)
| ErrOverCap (n : Z)
| ErrNoHubSchema (hub : string)
| ErrUnconstructible (hub : string) (u : unconstructibleField)
| ErrFuzzValidator (e : test_error)
| ErrGeneratorBug (hub : string) (v : SchemaViolation) (seed : Z)
| PanicDraw.

Definition generateFuzzSamples `{SV : SchemaValidation} (versions : list (VersionSchema * FuzzSchema))
    (hubVersion apiVersionGroup kind : string) (n seed : Z) : res fuzz_error (list Sample) :=
  if n <=? 0 then Err (ErrNotPositive n)
  else if maxFuzzObjects <? n then Err (ErrOverCap n)
  else
    match last (filter (λ v, vsName v.1 = hubVersion) versions) with
    | Some (hub, schema) =>
      if bool_decide (vsSchema hub = None) then Err (ErrNoHubSchema hubVersion)
      else
        match generate schema (Z.to_nat n) (apiVersionGroup +:+ "/" +:+ hubVersion) kind
                {| gnRnd := rand_New seed; gnUnconstructible := [] |} with
        | None => Err PanicDraw
        | Some (samples, g) =>
          match gnUnconstructible g with
          | u :: _ => Err (ErrUnconstructible hubVersion u)
          | [] =>
            validator ← res_wrap ErrFuzzValidator (newOutputValidator [hub] []);
            match samples ≫= (λ s, take 1 (validate (Some validator) (saObject s) hubVersion)) with
            | v :: _ => Err (ErrGeneratorBug hubVersion v seed)
            | [] => Ok samples
            end
          end
        end
    | None => Err (ErrNoHubSchema hubVersion)
    end.
End generator.

(** ** The samples that fail are kept *)

Definition sampleFailed (r : SampleResult) : bool :=
  existsb (λ p, bool_decide (ptResult p ∈ ["fail"; "error"])) (slPaths r).
Inductive keep_error := ErrMkdir (err : string) | ErrSerializing (file err : string) | ErrWriting (name err : string).
(** The files written, each under its path in the directory, and the error it stops at. *)
Fixpoint keep_failing `{Y : YAML} (write_error : string → option string) (pairs : list (Sample * SampleResult))
    : list (string * string) * option keep_error :=
  match pairs with
  | [] => ([], None)
  | (s, r) :: pairs =>
    if negb (sampleFailed r) then keep_failing write_error pairs
    else
      match yaml_Marshal (saObject s) with
      | Err e => ([], Some (ErrSerializing (saFile s) e))
      | Ok data =>
        let name := sanitizeForPath (saFile s) +:+ ".yaml" in
        match write_error name with
        | Some e => ([], Some (ErrWriting name e))
        | None => let '(files, err) := keep_failing write_error pairs in ((name, data) :: files, err)
        end
      end
  end.
Definition recordFailingSamples `{Y : YAML} (mkdir_error : option string) (write_error : string → option string)
    (samples : list Sample) (results : list SampleResult) : list (string * string) * option keep_error :=
  match mkdir_error with
  | Some e => ([], Some (ErrMkdir e))
  | None => keep_failing write_error (zip samples results)
  end.

(** ** What fits a schema *)

Definition at_least (min : option Z) (n : Z) : Prop := match min with Some k => k <= n | None => True end.
Definition at_most (max : option Z) (n : Z) : Prop := match max with Some k => n <= k | None => True end.

Section fits.
Context `{EX : Externs} (MatchString : string → string → option bool).

Definition integer_in (s : FuzzSchema) (z : Z) : Prop :=
  (∀ f, fzMinimum s = Some f → int64_of_float (Ceil f) <= z) ∧ (∀ f, fzMaximum s = Some f → z <= int64_of_float (Floor f)).

Inductive fits : FuzzSchema → value → Prop :=
| fits_enum s v raw : raw ∈ fzEnum s → unmarshalled raw = Some v → fits s v
| fits_default s v raw : fzDefault s = Some raw → unmarshalled raw = Some v → fits s v
| fits_object s m : fzType s = "object" →
    (∀ k v, m !! k = Some v → ∃ p, fzProperties s !! k = Some p ∧ fits p v) →
    (∀ k, k ∈ fzRequired s → is_Some (fzProperties s !! k) → is_Some (m !! k)) → fits s (VObj m)
| fits_array s item l : fzType s = "array" → fzItems s = Some item → (∀ v, v ∈ l → fits item v) →
    at_least (fzMinItems s) (Z.of_nat (length l)) →
    at_most (fzMaxItems s) (Z.of_nat (length l)) → fits s (VArr l)
| fits_empty_array s : fzType s = "array" → fzItems s = None → fits s (VArr [])
| fits_string s t : fzType s = "string" → at_least (fzMinLength s) (Z.of_nat (String.length t)) →
    at_most (fzMaxLength s) (Z.of_nat (String.length t)) →
    (fzPattern s = "" ∨ MatchString (fzPattern s) t = Some true) → fits s (VStr t)
| fits_integer s z : fzType s = "integer" → integer_in s z → fits s (VInt Int64 z)
| fits_number s f : fzType s = "number" → fits s (VFloat f)
| fits_boolean s b : fzType s = "boolean" → fits s (VBool b)
| fits_opaque s : fzPreserve s = true → fits s (VObj {["opaque" := VStr "value"]}).
End fits.

(** The schemas inside a schema. *)
Inductive within_schema (s : FuzzSchema) : FuzzSchema → Prop :=
| within_itself : within_schema s s
| within_property k p s' : fzProperties s !! k = Some p → within_schema p s' → within_schema s s'
| within_items p s' : fzItems s = Some p → within_schema p s' → within_schema s s'.

(** Sizes the generator can meet: no maximum is negative or below the minimum, and a
    string without a minimum may have one character. *)
Definition roomy (s : FuzzSchema) : Prop :=
  (∀ k, fzType s = "string" → fzMaxLength s = Some k → Z.max 0 (default 1 (fzMinLength s)) <= k) ∧
  (∀ k, fzType s = "array" → fzMaxItems s = Some k → Z.max 0 (default 0 (fzMinItems s)) <= k).
Definition all_roomy (s : FuzzSchema) : Prop := ∀ s', within_schema s s' → roomy s'.
Lemma roomy_here s : all_roomy s → roomy s.
Proof. intros H. apply H, within_itself. Qed.
Lemma roomy_property s k p : fzProperties s !! k = Some p → all_roomy s → all_roomy p.
Proof. intros Hp H s' Hs. by eapply H, within_property. Qed.
Lemma roomy_items s p : fzItems s = Some p → all_roomy s → all_roomy p.
Proof. intros Hp H s' Hs. by eapply H, within_items. Qed.

(** ** What a method yields

    Every outcome only adds to the fields that could not be constructed; when it adds
    none, the value has the property. *)
#[local] Arguments json_Unmarshal : simpl never.
Section yields.
Context `{RM : RandMore} {RL : RandLaws} `{EX : Externs}.
Context (MatchString : string → string → option bool) (shapes : gmap string lexicalShape).
(** An int64 conversion gives an int64. *)
Context (Hint64 : ∀ f, - 2 ^ 63 <= float64_to_int64_out_of_range f < 2 ^ 63).

Definition yields {A} (m : G A) (P : A → Prop) : Prop := ∀ g a g', m g = Some (a, g') →
  ∃ us, gnUnconstructible g' = gnUnconstructible g ++ us ∧ (us = [] → P a).
Abbreviation grows m := (yields m (λ _, True)).

Lemma yields_impl {A} (m : G A) P Q : yields m P → (∀ a, P a → Q a) → yields m Q.
Proof. intros Hm HPQ g a g' (us & Hu & Ha)%Hm. exists us. naive_solver. Qed.
Lemma yields_grows {A} (m : G A) P : yields m P → grows m.
Proof. intros H. by eapply yields_impl. Qed.
Lemma yields_ret {A} (a : A) (P : A → Prop) : P a → yields (mret a) P.
Proof. intros Hp g a' g' [= <- <-]. exists []. by rewrite app_nil_r. Qed.
Lemma yields_bind {A B} (m : G A) (f : A → G B) P Q :
  yields m P → (∀ a, grows (f a)) → (∀ a, P a → yields (f a) Q) → yields (m ≫= f) Q.
Proof.
  intros Hm Hg Hf g b g'' H. unfold mbind, G_bind in H. destruct (m g) as [[a g']|] eqn:E; [|done].
  destruct (Hm _ _ _ E) as (us & Hus & Ha), (Hg a _ _ _ H) as (vs & Hvs & _).
  exists (us ++ vs). split; [by rewrite Hvs, Hus, app_assoc|]. intros [-> ->]%app_eq_nil.
  destruct (Hf a (Ha eq_refl) _ _ _ H) as (ws & Hws & Hb). apply Hb. rewrite Hvs in Hws. by apply app_inv_head in Hws.
Qed.
Lemma yields_draw {A} (m : G A) (P : A → Prop) :
  (∀ g a g', m g = Some (a, g') → gnUnconstructible g' = gnUnconstructible g ∧ P a) → yields m P.
Proof. intros H g a g' (Hg & Ha)%H. exists []. by rewrite app_nil_r. Qed.
Lemma yields_Intn n : yields (Intn n) (λ x, 0 <= x < n).
Proof.
  apply yields_draw. intros g a g'. unfold Intn. destruct (n <=? 0) eqn:E; [done|]. pose proof (rand_Intn_range (gnRnd g) n).
  destruct (rand_Intn _ _) as [x r]. intros [= <- <-]. split; [done|]. cbn in *. lia.
Qed.
Lemma yields_Int63n n : yields (Int63n n) (λ x, 0 <= x < n).
Proof.
  apply yields_draw. intros g a g'. unfold Int63n. destruct (n <=? 0) eqn:E; [done|]. pose proof (rand_Int63n_range (gnRnd g) n).
  destruct (rand_Int63n _ _) as [x r]. intros [= <- <-]. split; [done|]. cbn in *. lia.
Qed.
Lemma yields_Float64 : grows draw_Float64.
Proof. apply yields_draw. intros g a g'. unfold draw_Float64. destruct (rand_Float64 _) as [x r]. by intros [= <- <-]. Qed.
Lemma yields_record u : yields (record_unconstructible u) (λ _, False).
Proof. intros g a g' [= <- <-]. by exists [u]. Qed.

(** A draw that only picks among alternatives. *)
Lemma yields_choice {A} n (f : Z → G A) Q : (∀ c, yields (f c) Q) → yields (Intn n ≫= f) Q.
Proof. intros Hf. eapply yields_bind; [apply yields_Intn|intros c; by eapply yields_grows|by intros c _]. Qed.
Lemma yields_if {A} (b : bool) (m n : G A) Q : (b = true → yields m Q) → (b = false → yields n Q) → yields (if b then m else n) Q.
Proof. destruct b; auto. Qed.
Lemma yields_then {A B} (m : G A) (f : A → G B) P Q :
  yields m P → (∀ a, yields (f a) (λ b, P a → Q b)) → yields (m ≫= f) Q.
Proof.
  intros Hm Hf. eapply yields_bind; [exact Hm|intros a; by eapply yields_grows|].
  intros a Ha. eapply yields_impl; [apply Hf|]. auto.
Qed.

(** *** Scalars *)

Definition fitting (s : FuzzSchema) (o : option value) : Prop := ∀ v, o = Some v → all_roomy s → fits MatchString s v.
Lemma yields_none s : yields (mret None) (fitting s).
Proof. by apply yields_ret. Qed.
Lemma yields_some s v : fits MatchString s v → yields (mret (Some v)) (fitting s).
Proof. intros Hv. apply yields_ret. by intros ? [= <-] _. Qed.
#[local] Hint Resolve yields_none yields_some yields_choice : core.

Lemma pickEnum_fits s : yields (pickEnum (fzEnum s)) (fitting s).
Proof.
  apply yields_choice. intros c. eapply (yields_then _ _ (λ _, True)).
  - apply yields_if; [by intros; apply yields_ret|]. intros _. apply yields_if; [by intros; apply yields_ret|]. intros _.
    eapply yields_grows, yields_Intn.
  - intros idx. apply yields_ret. intros _ v (raw & Hraw & Hv)%bind_Some _. eapply fits_enum; [|done]. by eapply list_elem_of_lookup_2.
Qed.
Lemma unmarshalled_Some raw v : json_Unmarshal raw = Some v → v ≠ VNull → unmarshalled raw = Some v.
Proof. unfold unmarshalled. intros ->. by destruct v. Qed.
Lemma default_fits s raw v : fzDefault s = Some raw → json_Unmarshal raw = Some v → v ≠ VNull → fits MatchString s v.
Proof. intros Hd Hv Hn. eapply fits_default; [done|]. by apply unmarshalled_Some. Qed.
Lemma vouched_fits s : yields (schemaVouchedString s) (fitting s).
Proof.
  unfold schemaVouchedString. destruct (fzDefault s) as [raw|] eqn:Ed; cbn.
  - destruct (json_Unmarshal raw) as [v|] eqn:Ev.
    + pose proof (default_fits s raw v Ed Ev). destruct v; auto.
    + case_bool_decide; [auto|apply pickEnum_fits].
  - case_bool_decide; [auto|apply pickEnum_fits].
Qed.

Lemma boundedSize_spec k n : boundedSize k = (n, false) → n = Z.max 0 k ∧ k <= 256.
Proof. unfold boundedSize, maxGeneratedSize. destruct (256 <? k) eqn:E; [done|]. destruct (k <? 0) eqn:E'; intros [= <-]; lia. Qed.
Lemma boundedSize_max k : 0 <= (boundedSize k).1 <= Z.max 0 k.
Proof. unfold boundedSize, maxGeneratedSize. destruct (256 <? k) eqn:E; [cbn; lia|]. destruct (k <? 0) eqn:E'; cbn; lia. Qed.
Lemma yields_between lo hi : yields (between_bounds lo hi) (λ n, lo <= hi → lo <= n <= hi).
Proof.
  unfold between_bounds. destruct (lo <? hi) eqn:E.
  - eapply yields_then; [apply yields_Intn|]. intros k. apply yields_ret. lia.
  - apply yields_ret. lia.
Qed.
Lemma yields_letters n : yields (letters n) (λ t, String.length t = n).
Proof.
  induction n as [|n IH]; cbn [letters]; [by apply yields_ret|]. apply yields_choice. intros i.
  eapply yields_then; [exact IH|]. intros rest. apply yields_ret. cbn. by intros ->.
Qed.

Lemma plain_string_fits s : fzType s = "string" → fzPattern s = "" → yields (plain_string s) (fitting s).
Proof.
  intros Ht Hp. unfold plain_string.
  destruct (match fzMinLength s with Some k => boundedSize k | None => (1, false) end) as [minLen []] eqn:Em; [auto|].
  assert (at_least (fzMinLength s) minLen ∧ minLen = Z.max 0 (default 1 (fzMinLength s))) as [Hmin Heq].
  { unfold at_least. destruct (fzMinLength s) as [k|]; cbn.
    - apply boundedSize_spec in Em. lia.
    - injection Em as <-. done. }
  set (maxLen := match fzMaxLength s with Some k => (boundedSize k).1 | None => 8 end).
  assert (∀ t, minLen <= Z.of_nat (String.length t) <= Z.max maxLen minLen → all_roomy s → fits MatchString s (VStr t)) as Hfit.
  { intros t Hn [Hroom _]%roomy_here. apply fits_string; [done|unfold at_least in *; destruct (fzMinLength s); [lia|done]| |by left].
    unfold at_most. subst maxLen. destruct (fzMaxLength s) as [k|]; [|done].
    specialize (Hroom k Ht eq_refl). pose proof (boundedSize_max k). lia. }
  apply yields_choice. intros c. eapply (yields_then _ _ (λ n, minLen <= n <= Z.max maxLen minLen)).
  - apply yields_if; [intros _; apply yields_ret; lia|]. intros _. apply yields_if; intros _.
    + apply yields_ret. destruct (maxLen <? minLen) eqn:E; lia.
    + eapply yields_impl; [apply yields_between|]. intros n Hn. destruct (maxLen <? minLen) eqn:E; cbn in *; lia.
  - intros n. destruct (n <=? 0) eqn:En.
    + apply yields_ret. intros Hn v [= <-]. apply Hfit. cbn. lia.
    + eapply yields_then; [apply yields_letters|]. intros t. apply yields_ret. intros Hlen Hn v [= <-]. apply Hfit. lia.
Qed.

Lemma from_grows l : grows (from l).
Proof. apply yields_choice. intros i. by apply yields_ret. Qed.
Lemma shapedString_grows shape : grows (shapedString shape).
Proof.
  destruct shape; cbn [shapedString]; apply yields_choice; intros k; try by apply yields_ret.
  all: eapply yields_then; [apply from_grows|]; intros u; by apply yields_ret.
Qed.
Lemma fitsStringSchema_fits s t : fzType s = "string" → fitsStringSchema MatchString t s = true → fits MatchString s (VStr t).
Proof.
  unfold fitsStringSchema. rewrite !andb_true_iff, orb_true_iff, bool_decide_eq_true. intros Ht [[Hmin Hmax] Hp].
  apply fits_string; [done| | |].
  - unfold at_least. destruct (fzMinLength s); [|done]. lia.
  - unfold at_most. destruct (fzMaxLength s); [|done]. lia.
  - destruct Hp as [|Hp]; [by left|right]. by destruct (MatchString _ _) as [[]|].
Qed.
Lemma str_fits path s : fzType s = "string" → yields (str_ MatchString shapes path s) (fitting s).
Proof.
  intros Ht. unfold str_. destruct (shape_at shapes path); try apply vouched_fits.
  { case_bool_decide; [by apply plain_string_fits|apply vouched_fits]. }
  all: eapply (yields_then _ _ (λ _, True)); [apply shapedString_grows|]; intros v; apply yields_if;
    [intros Hf; apply yields_ret; intros _ x [= <-] _; by apply fitsStringSchema_fits|
     intros _; eapply yields_impl; [apply vouched_fits|done]].
Qed.

Lemma int64_of_float_range f : - 2 ^ 63 <= int64_of_float f < 2 ^ 63.
Proof. unfold int64_of_float. destruct (f64_to_Z f) as [z|]; [|apply Hint64]. destruct (_ && _) eqn:E; [|apply Hint64]. lia. Qed.
Lemma int_range_spec s lo hi : int_range s = Some (lo, hi) →
  lo <= hi ∧ - 2 ^ 63 <= lo ∧ hi < 2 ^ 63 ∧ ∀ z, lo <= z <= hi → integer_in s z.
Proof.
  unfold int_range, integer_in, int_span. destruct (fzMinimum s) as [fl|], (fzMaximum s) as [fh|]; cbn.
  - pose proof (int64_of_float_range (Ceil fl)). pose proof (int64_of_float_range (Floor fh)).
    destruct (_ <? _) eqn:E; [done|]. intros [= <- <-]. split_and!; try lia. intros z Hz. split; intros f [= <-]; lia.
  - pose proof (int64_of_float_range (Ceil fl)) as Hl. remember (int64_of_float (Ceil fl)) as l eqn:El.
    assert (- 2 ^ 63 <= wrap64 (l + 100) < 2 ^ 63) by (unfold wrap64; pose proof (Z.mod_pos_bound (l + 100 + 2 ^ 63) (2 ^ 64) eq_refl); lia).
    intros [= <- <-]. destruct (_ <? _) eqn:E; split_and!; try lia; intros z Hz; split; intros f [=]; try lia; subst f; lia.
  - pose proof (int64_of_float_range (Floor fh)) as Hl. remember (int64_of_float (Floor fh)) as l eqn:El.
    assert (- 2 ^ 63 <= wrap64 (l - 100) < 2 ^ 63) by (unfold wrap64; pose proof (Z.mod_pos_bound (l - 100 + 2 ^ 63) (2 ^ 64) eq_refl); lia).
    intros [= <- <-]. destruct (_ <? _) eqn:E; split_and!; try lia; intros z Hz; split; intros f [=]; try lia; subst f; lia.
  - intros [= <- <-]. split_and!; [lia..|]. intros z Hz. by split.
Qed.

(** [hi - lo + 1] is the number of integers from [lo] to [hi], unless there are 2^63 or
    more: then it wraps to one that is not positive, and the draw panics. *)
Lemma int64_span lo hi : - 2 ^ 63 <= lo → lo < hi → hi < 2 ^ 63 →
  wrap64 (wrap64 (hi - lo) + 1) = hi - lo + 1 ∧ hi - lo < 2 ^ 63 - 1 ∨
  wrap64 (wrap64 (hi - lo) + 1) <= 0 ∧ 2 ^ 63 - 1 <= hi - lo.
Proof.
  intros H1 H2 H3. destruct (decide (hi - lo < 2 ^ 63)) as [Hs|Hs].
  - rewrite (wrap64_id (hi - lo)) by lia. destruct (decide (hi - lo = 2 ^ 63 - 1)) as [->|Hne]; [right; by vm_compute|].
    left. rewrite wrap64_id; lia.
  - right. split; [|lia].
    assert (wrap64 (hi - lo) = hi - lo - 2 ^ 64) as ->.
    { unfold wrap64. rewrite <-(Z.mod_unique (hi - lo + 2 ^ 63) (2 ^ 64) 1 (hi - lo + 2 ^ 63 - 2 ^ 64)); lia. }
    rewrite wrap64_id; lia.
Qed.
Lemma integer_fits s : fzType s = "integer" → yields (integer s) (fitting s).
Proof.
  intros Ht. unfold integer. destruct (int_range s) as [[lo hi]|] eqn:E; [|by apply yields_ret].
  apply int_range_spec in E as (Hle & Hlo & Hhi & Hin). apply yields_choice. intros c.
  eapply (yields_then _ _ (λ z, lo <= z <= hi)); [|intros z; apply yields_ret; intros Hz v [= <-] _; by apply fits_integer, Hin].
  apply yields_if; intros _; [apply yields_ret; lia|]. apply yields_if; intros _; [apply yields_ret; lia|].
  apply yields_if; [intros Hlt|intros _; apply yields_ret; lia]. apply Z.ltb_lt in Hlt.
  eapply yields_then; [apply yields_Int63n|]. intros k. apply yields_ret. intros Hk.
  destruct (int64_span lo hi Hlo Hlt Hhi) as [[Heq _]|[Hw _]]; [|lia]. rewrite wrap64_id; lia.
Qed.
Lemma number_fits s : fzType s = "number" → yields (number s) (fitting s).
Proof.
  intros Ht. unfold number. destruct (number_range s) as [lo hi]. apply yields_choice. intros c.
  eapply (yields_then _ _ (λ _, True)); [|intros f; apply yields_ret; intros _ v [= <-] _; by apply fits_number].
  apply yields_if; [by intros; apply yields_ret|]. intros _. apply yields_if; [by intros; apply yields_ret|]. intros _.
  eapply yields_then; [apply yields_Float64|]. intros r. by apply yields_ret.
Qed.

(** *** Containers *)

Section containers.
Context (value_ : list string → FuzzSchema → G (option value)).
Context (Hvalue : ∀ path s, yields (value_ path s) (fitting s)).

(** What is in the result: what was there, and values that fit; every required property. *)
Definition filled (required : list string) (props : list (string * FuzzSchema)) (out m : obj) : Prop :=
  (∀ k v, m !! k = Some v → out !! k = Some v ∨ ∃ p, (k, p) ∈ props ∧ (all_roomy p → fits MatchString p v)) ∧
  (∀ k, is_Some (out !! k) ∨ (k ∈ required ∧ ∃ p, (k, p) ∈ props) → is_Some (m !! k)).
Lemma filled_skip required name prop props out m : name ∉ required →
  filled required props out m → filled required ((name, prop) :: props) out m.
Proof.
  intros Hn [H1 H2]. split.
  - intros k v [?|(p & Hp & Hf)]%H1; [by left|right]. exists p. split; [by right|done].
  - intros k [Hk|(Hk & p & [[= -> ->]|Hp]%elem_of_cons)]; [apply H2; by left|done|apply H2; right]. split; [done|by exists p].
Qed.
Lemma filled_put required name prop props out m v : (all_roomy prop → fits MatchString prop v) →
  filled required props (<[name := v]> out) m → filled required ((name, prop) :: props) out m.
Proof.
  intros Hv [H1 H2]. split.
  - intros k w [Hk|(p & Hp & Hf)]%H1; [|right; exists p; split; [by right|done]].
    destruct (decide (k = name)) as [->|Hne].
    + rewrite lookup_insert_eq in Hk. injection Hk as <-. right. exists prop. split; [by left|done].
    + rewrite lookup_insert_ne in Hk by done. by left.
  - intros k Hk. destruct (decide (k = name)) as [->|Hne]; [apply H2; left; by rewrite lookup_insert_eq|].
    apply H2. rewrite lookup_insert_ne by done. destruct Hk as [Hk|(Hk & p & [[= -> ->]|Hp]%elem_of_cons)]; [by left|done|right].
    split; [done|by exists p].
Qed.
Lemma properties_fill path required props : ∀ out, yields (properties shapes value_ path required props out) (filled required props out).
Proof.
  induction props as [|[name prop] props IH]; intros out; cbn [properties].
  { apply yields_ret. split; [by left|]. intros k [Hk|(_ & p & []%not_elem_of_nil)]. done. }
  set (generate := value_ (path ++ [name]) prop ≫= _).
  assert (yields generate (filled required ((name, prop) :: props) out)) as Hg.
  { eapply yields_then; [apply Hvalue|]. intros [v|].
    - eapply yields_impl; [apply IH|]. intros m Hm Hfit. eapply filled_put; [by apply Hfit|done].
    - case_bool_decide as Hreq.
      + eapply yields_then; [apply yields_record|]. intros u. eapply yields_impl; [apply IH|done].
      + eapply yields_impl; [apply IH|]. intros m Hm _. by apply filled_skip. }
  case_bool_decide as Hreq; [done|]. apply yields_choice. intros c. apply yields_if; [|done].
  intros _. eapply yields_impl; [apply IH|]. intros m Hm. by apply filled_skip.
Qed.
Lemma elem_of_sorted_properties s k p : (k, p) ∈ sorted_properties s ↔ fzProperties s !! k = Some p.
Proof.
  unfold sorted_properties. rewrite list_elem_of_omap. split.
  - intros (n & _ & (q & Hq & [= -> ->])%fmap_Some). done.
  - intros H. exists k. rewrite H. split; [|done]. apply elem_of_sort_strings, elem_of_elements, elem_of_dom. by eexists.
Qed.
Lemma object_fits path s : fzType s = "object" → yields (object shapes value_ path s) (fitting s).
Proof.
  intros Ht. eapply yields_then; [apply properties_fill|]. intros m. apply yields_ret. intros [H1 H2] v [= <-] Hroom.
  apply fits_object; [done| |].
  - intros k v [[=]|(p & Hp%elem_of_sorted_properties & Hf)]%H1. exists p. eauto using roomy_property.
  - intros k Hk [p Hp]. apply H2. right. split; [done|]. exists p. by apply elem_of_sorted_properties.
Qed.

Lemma elements_fit path item n : yields (elements_of value_ path item n) (λ l, (∀ v, v ∈ l → all_roomy item → fits MatchString item v) ∧ (length l <= n)%nat).
Proof.
  induction n as [|n IH]; cbn [elements_of]; [apply yields_ret; split; [by intros v ?%not_elem_of_nil|done]|].
  eapply yields_then; [apply Hvalue|]. intros v. eapply yields_then; [exact IH|]. intros rest. apply yields_ret.
  intros [Hr Hl] Hv. destruct v as [v|]; [|split; [done|lia]]. split; [|cbn; lia].
  intros w [->|Hw]%elem_of_cons; [by apply Hv|by apply Hr].
Qed.
Lemma array_fits path s : fzType s = "array" → yields (array value_ path s) (fitting s).
Proof.
  intros Ht. unfold array. destruct (fzItems s) as [item|] eqn:Ei; [|apply yields_ret; intros v [= <-] _; by apply fits_empty_array].
  destruct (match fzMinItems s with Some k => boundedSize k | None => (0, false) end) as [minItems []] eqn:Em; [by apply yields_ret|].
  assert (at_least (fzMinItems s) minItems ∧ minItems = Z.max 0 (default 0 (fzMinItems s))) as [Hmin Heq].
  { unfold at_least. destruct (fzMinItems s) as [k|]; cbn.
    - apply boundedSize_spec in Em. lia.
    - injection Em as <-. done. }
  set (maxItems := match fzMaxItems s with Some k => (boundedSize k).1 | None => minItems + 2 end).
  apply yields_choice. intros c. eapply (yields_then _ _ (λ n, minItems <= n <= Z.max maxItems minItems)).
  - assert (∀ b : bool, (if b then minItems else maxItems) = (if b then minItems else maxItems)) as _ by done.
    apply yields_if; [intros _; apply yields_ret; lia|]. intros _. apply yields_if; intros _.
    { apply yields_ret. destruct (maxItems <? minItems) eqn:E; lia. }
    apply yields_if; intros _.
    { apply yields_ret. destruct (_ && _) eqn:E; [|lia]. apply andb_true_iff in E as [E1 E2]. destruct (maxItems <? minItems) eqn:E; lia. }
    eapply yields_impl; [apply yields_between|]. intros n Hn. destruct (maxItems <? minItems) eqn:E; cbn in *; lia.
  - intros n. eapply yields_then; [apply elements_fit|]. intros l. apply yields_ret. intros [Hl Hlen] Hn v.
    destruct (_ <? minItems) eqn:E; [done|]. intros [= <-] Hroom. destruct (roomy_here s Hroom) as [_ Hk].
    eapply fits_array; [done..|eauto using roomy_items| |].
    + unfold at_least in *. destruct (fzMinItems s); [lia|done].
    + unfold at_most. subst maxItems. destruct (fzMaxItems s) as [k|]; [|done]. specialize (Hk k Ht eq_refl).
      pose proof (boundedSize_max k). lia.
Qed.

Lemma by_type_fits path s : yields (by_type MatchString shapes value_ path s) (fitting s).
Proof.
  unfold by_type. case_bool_decide; [by apply object_fits|]. case_bool_decide; [by apply array_fits|].
  case_bool_decide; [by apply str_fits|]. case_bool_decide; [by apply integer_fits|]. case_bool_decide; [by apply number_fits|].
  case_bool_decide; [apply yields_choice; intros c; apply yields_ret; intros v [= <-] _; by apply fits_boolean|].
  apply yields_ret. destruct (fzPreserve s) eqn:E; [|done]. intros v [= <-] _. by apply fits_opaque.
Qed.
Lemma value_body_fits path s : yields (value_body MatchString shapes value_ path s) (fitting s).
Proof.
  unfold value_body. case_bool_decide; [|apply pickEnum_fits]. destruct (fzDefault s) as [raw|] eqn:Ed; [|apply by_type_fits].
  apply yields_choice. intros c. apply yields_if; [intros _|intros _; apply by_type_fits].
  destruct (json_Unmarshal raw) as [v|] eqn:Ev; [|apply by_type_fits].
  pose proof (default_fits s raw v Ed Ev). destruct v; auto.
Qed.
End containers.

Lemma value_fits levels : ∀ path s, yields (value_at MatchString shapes levels path s) (fitting s).
Proof. induction levels as [|levels IH]; intros path s; [by apply yields_ret|]. by apply value_body_fits. Qed.

(** *** The samples *)

Definition plain_object (s : FuzzSchema) : Prop := fzType s = "object" ∧ fzEnum s = [] ∧ fzDefault s = None.
Definition dressed (o : obj) (apiVersion kind name : string) : obj :=
  <["metadata" := VObj {["name" := VStr name]}]> (<["kind" := VStr kind]> (<["apiVersion" := VStr apiVersion]> o)).
Record generated_sample (s : FuzzSchema) (apiVersion kind : string) (i : nat) (x : Sample) : Prop := {
  gs_file : saFile x = fuzz_name i;
  gs_version : saVersion x = versionOfAPIVersion apiVersion;
  gs_object : ∃ o, saObject x = dressed o apiVersion kind (fuzz_name i) ∧ (plain_object s → all_roomy s → fits MatchString s (VObj o)) }.

Lemma value_is_object levels path s : plain_object s →
  yields (value_at MatchString shapes (S levels) path s) (λ v, ∃ o, v = Some (VObj o) ∧ (all_roomy s → fits MatchString s (VObj o))).
Proof.
  intros (Ht & He & Hd). cbn [value_at]. unfold value_body, by_type. rewrite bool_decide_true, Hd, bool_decide_true by done.
  eapply yields_then; [apply properties_fill; intros; apply value_fits|]. intros m. apply yields_ret.
  intros Hm. exists m. split; [done|]. intros Hroom. destruct Hm as [H1 H2]. apply fits_object; [done| |].
  - intros k v [[=]|(p & Hp%elem_of_sorted_properties & Hf)]%H1. exists p. eauto using roomy_property.
  - intros k Hk [p Hp]. apply H2. right. split; [done|]. exists p. by apply elem_of_sorted_properties.
Qed.
Lemma generate_one_spec s apiVersion kind i :
  yields (generate_one MatchString shapes s apiVersion kind i) (generated_sample s apiVersion kind i).
Proof.
  unfold generate_one. eapply (yields_then _ _ (λ v, plain_object s → ∃ o, v = Some (VObj o) ∧ (all_roomy s → fits MatchString s (VObj o)))).
  - destruct (decide (plain_object s)) as [Hp|Hn]; [eapply yields_impl; [by apply value_is_object|done]|].
    eapply yields_impl; [apply value_fits|done].
  - intros v. apply yields_ret. intros Hv. split; [done..|]. eexists. split; [done|]. by intros (o & -> & Ho)%Hv.
Qed.
Lemma generate_from_spec s apiVersion kind n : ∀ i, yields (generate_from MatchString shapes s apiVersion kind i n)
  (λ l, length l = n ∧ ∀ k x, l !! k = Some x → generated_sample s apiVersion kind (i + k) x).
Proof.
  induction n as [|n IH]; intros i; cbn [generate_from]; [by apply yields_ret|].
  eapply yields_then; [apply generate_one_spec|]. intros x. eapply yields_then; [apply IH|]. intros l. apply yields_ret.
  intros [Hl Hk] Hx. split; [cbn; by f_equal|]. intros [|k] y; cbn; [intros [= <-]; by rewrite Nat.add_0_r|].
  intros Hy. replace (i + S k)%nat with (S i + k)%nat by lia. by apply Hk.
Qed.

(** *** Panics *)

Definition returns {A} (m : G A) : Prop := ∀ g, ∃ a g', m g = Some (a, g').
Lemma returns_ret {A} (a : A) : returns (mret a).
Proof. intros g. by eexists _, _. Qed.
Lemma returns_bind {A B} (m : G A) (f : A → G B) : returns m → (∀ a, returns (f a)) → returns (m ≫= f).
Proof. intros Hm Hf g. unfold mbind, G_bind. destruct (Hm g) as (a & g' & ->). apply Hf. Qed.
Lemma returns_Intn n : 0 < n → returns (Intn n).
Proof. intros Hn g. unfold Intn. destruct (n <=? 0) eqn:E; [lia|]. destruct (rand_Intn _ _). by eexists _, _. Qed.
Lemma returns_Int63n n : 0 < n → returns (Int63n n).
Proof. intros Hn g. unfold Int63n. destruct (n <=? 0) eqn:E; [lia|]. destruct (rand_Int63n _ _). by eexists _, _. Qed.
Lemma returns_Float64 : returns draw_Float64.
Proof. intros g. unfold draw_Float64. destruct (rand_Float64 _). by eexists _, _. Qed.
Lemma returns_record u : returns (record_unconstructible u).
Proof. intros g. by eexists _, _. Qed.
Lemma returns_if {A} (b : bool) (m n : G A) : (b = true → returns m) → (b = false → returns n) → returns (if b then m else n).
Proof. destruct b; auto. Qed.
#[local] Hint Resolve returns_ret returns_bind returns_Intn returns_Float64 returns_record returns_if : returns.
Ltac returns := repeat first
  [ match goal with |- ∀ _, _ => intros ? end | assumption | apply returns_ret | apply returns_record | apply returns_Float64 | (apply returns_Intn; first [lia|cbn; lia])
  | (apply returns_bind; [|intros ?]) | (apply returns_if; intros ?)
  | case_match ].

Lemma returns_pickEnum enum : enum ≠ [] → returns (pickEnum enum).
Proof. intros He. assert (0 < Z.of_nat (length enum)) by (destruct enum; [done|cbn; lia]). unfold pickEnum. returns. Qed.
Lemma returns_vouched s : returns (schemaVouchedString s).
Proof.
  unfold schemaVouchedString. case_match; [case_match; returns|]. case_bool_decide; [returns|by apply returns_pickEnum].
Qed.
Lemma returns_between lo hi : returns (between_bounds lo hi).
Proof. unfold between_bounds. apply returns_if; [intros H%Z.ltb_lt; returns|returns]. Qed.
Lemma returns_letters n : returns (letters n).
Proof. induction n; cbn [letters]; returns. Qed.
Lemma returns_plain_string s : returns (plain_string s).
Proof.
  unfold plain_string. destruct (match fzMinLength s with Some k => boundedSize k | None => (1, false) end) as [minLen []]; [apply returns_ret|].
  cbv zeta. apply returns_bind; [returns|intros c]. apply returns_bind.
  - apply returns_if; intros _; [returns|]. apply returns_if; intros _; [returns|apply returns_between].
  - intros n. apply returns_if; intros _; [returns|]. apply returns_bind; [apply returns_letters|intros t; returns].
Qed.
Lemma returns_str path s : returns (str_ MatchString shapes path s).
Proof.
  assert (∀ shape, returns (shapedString shape)) as Hs.
  { intros []; cbn [shapedString]; returns. }
  unfold str_. case_match; try apply returns_vouched.
  { case_bool_decide; [apply returns_plain_string|apply returns_vouched]. }
  all: apply returns_bind; [apply Hs|intros v]; apply returns_if; intros _; [returns|apply returns_vouched].
Qed.

(** Every integer of the schema has fewer than 2^63 values. *)
Fixpoint spans_small (levels : nat) (s : FuzzSchema) : Prop :=
  match levels with
  | O => True
  | S levels => (fzType s = "integer" → ∀ lo hi, int_range s = Some (lo, hi) → hi - lo < 2 ^ 63 - 1) ∧
      (∀ k p, fzProperties s !! k = Some p → spans_small levels p) ∧ (∀ item, fzItems s = Some item → spans_small levels item)
  end.
Lemma returns_integer s : (∀ lo hi, int_range s = Some (lo, hi) → hi - lo < 2 ^ 63 - 1) → returns (integer s).
Proof.
  intros Hs. unfold integer. destruct (int_range s) as [[lo hi]|] eqn:E; [|returns]. specialize (Hs lo hi eq_refl).
  apply int_range_spec in E as (_ & Hlo & Hhi & _). apply returns_bind; [returns|intros c]. apply returns_bind; [|returns].
  apply returns_if; intros _; [returns|]. apply returns_if; intros _; [returns|]. apply returns_if; [intros Hlt%Z.ltb_lt|returns].
  apply returns_bind; [|returns]. apply returns_Int63n. destruct (int64_span lo hi Hlo Hlt Hhi) as [[-> _]|[_ ?]]; lia.
Qed.
Lemma returns_value levels : ∀ path s, spans_small levels s → returns (value_at MatchString shapes levels path s).
Proof.
  induction levels as [|levels IH]; intros path s Hs; cbn [value_at]; [returns|]. destruct Hs as (Hint & Hp & Hi).
  assert (∀ item n, fzItems s = Some item → returns (elements_of (value_at MatchString shapes levels) path item n)) as Hel.
  { intros item n Hitem. induction n as [|n IHn]; cbn [elements_of]; returns. by apply IH, Hi. }
  assert (∀ props out, (∀ k p, (k, p) ∈ props → fzProperties s !! k = Some p) →
    returns (properties shapes (value_at MatchString shapes levels) path (fzRequired s) props out)) as Hpr.
  { induction props as [|[name prop] props IHp]; intros out Hin; cbn [properties]; [returns|].
    assert (returns (value_at MatchString shapes levels (path ++ [name]) prop)) by (apply IH, (Hp name), Hin; by left).
    assert (∀ out, returns (properties shapes (value_at MatchString shapes levels) path (fzRequired s) props out)) as Hrest
      by (intros; apply IHp; intros; apply Hin; by right).
    returns; apply Hrest. }
  assert (returns (by_type MatchString shapes (value_at MatchString shapes levels) path s)) as Hty.
  { unfold by_type. case_bool_decide; [apply returns_bind; [|returns]; apply Hpr; by intros k p ?%elem_of_sorted_properties|].
    case_bool_decide.
    { unfold array. destruct (fzItems s) as [item|] eqn:Ei; [|returns].
      destruct (match fzMinItems s with Some k => boundedSize k | None => (0, false) end) as [minItems []]; [apply returns_ret|]. cbv zeta.
      apply returns_bind; [returns|intros c]. apply returns_bind; [|intros n; apply returns_bind; [by apply Hel|intros l; returns]].
      do 3 (apply returns_if; intros _; [returns|]). apply returns_between. }
    case_bool_decide; [apply returns_str|]. case_bool_decide; [by apply returns_integer, Hint|].
    case_bool_decide; [unfold number; returns|]. case_bool_decide; returns. }
  unfold value_body. case_bool_decide as He; [|by apply returns_pickEnum]. case_match; [|done].
  apply returns_bind; [returns|intros c]. apply returns_if; intros _; [|done]. case_match; [case_match; returns|done].
Qed.
Lemma returns_generate s apiVersion kind n : spans_small fuzz_levels s → ∀ i, returns (generate_from MatchString shapes s apiVersion kind i n).
Proof.
  intros Hs. induction n as [|n IH]; intros i; cbn [generate_from]; [returns|].
  assert (returns (value_at MatchString shapes fuzz_levels [] s)) by (by apply returns_value). unfold generate_one. returns. apply IH.
Qed.
End yields.
