(* ===== verification/Authoring.v ===== *)
(** [convctl suggest] and [convctl diff]: rules proposed for the fields a config leaves
    uncovered, and what changes between two configs (internal/cli/suggest.go,
    configdiff.go).

    The Unicode tables are a parameter (class [UnicodeTables]), and so are the files and
    the cluster the commands read.  A diagnostic's text is a function of its message.
    The lemmas follow: the two-row loop computes the edit distance, the proposed renames
    are a stable matching of the uncovered fields, and a diff is empty exactly when the
    two analyses say the same. *)
From Stdlib Require Import Ascii.
From S2P Require Import Prelude Float64 Value Json Duration Path Schema Rules Coerce Passthrough Ops Convert Diagnostics Compile Normalize Platform Required Analyze Assign AssignProperties Api Adapters Configs Registry Replica RoundTrip Compat Lifecycle.
#[local] Open Scope Z_scope.

(** ** Field names *)

Class UnicodeTables := { unicode_IsLetter : Z → bool; unicode_IsDigit : Z → bool; unicode_ToLower : Z → Z }.

(** The code point of one UTF-8 sequence; an ill-formed byte is [RuneError]. *)
Definition rune_of (s : string) : Z :=
  let cont c := code c mod 64 in
  match String.list_ascii_of_string s with
  | [a] => if code a <? 0x80 then code a else RuneError
  | [a; b] => (code a mod 32) * 64 + cont b
  | [a; b; c] => (code a mod 16) * 4096 + cont b * 64 + cont c
  | [a; b; c; d] => (code a mod 8) * 262144 + cont b * 4096 + cont c * 64 + cont d
  | _ => RuneError
  end.

Section suggest.
Context `{RO : RangeOrder} `{UT : UnicodeTables}.

Definition normalizeFieldName (s : string) : string :=
  String.string_of_list_ascii
    (explode s ≫= λ c, let r := rune_of c in
       if unicode_IsLetter r || unicode_IsDigit r then utf8_encode (unicode_ToLower r) else []).

(** One row from the row before it: [prev] starts at the column [left] is in. *)
Fixpoint lev_row (a : ascii) (b : list ascii) (prev : list nat) (left : nat) : list nat :=
  match b, prev with
  | c :: b, diag :: ((up :: _) as prev) =>
    let cost := if bool_decide (a = c) then 0%nat else 1%nat in
    let cell := Nat.min (up + 1) (Nat.min (left + 1) (diag + cost)) in
    cell :: lev_row a b prev cell
  | _, _ => []
  end.
Fixpoint lev_rows (i : nat) (a b : list ascii) (prev : list nat) : list nat :=
  match a with [] => prev | c :: a => lev_rows (S i) a b (i :: lev_row c b prev i) end.
Definition levenshtein (a b : string) : nat :=
  let b := String.list_ascii_of_string b in
  List.last (lev_rows 1 (String.list_ascii_of_string a) b (seq 0 (S (length b)))) 0%nat.

Definition similarity (distance longest : Z) : float64 := f64_sub (f64_of_Z 1) (f64_div (f64_of_Z distance) (f64_of_Z longest)).
Definition nameSimilarity (a b : string) : float64 :=
  let na := normalizeFieldName a in
  let nb := normalizeFieldName b in
  if bool_decide (na = "") || bool_decide (nb = "") then f64_of_Z 0
  else if bool_decide (na = nb) then f64_of_Z 1
  else similarity (Z.of_nat (levenshtein na nb)) (Z.of_nat (Nat.max (String.length na) (String.length nb))).

(** ** Suggestions *)

(** 0.6. *)
Definition suggestSimilarityThreshold : float64 := f64_div (f64_of_Z 6) (f64_of_Z 10).

Definition isScalarKind (k : FieldKind) : bool :=
  bool_decide (k ∈ [FieldKindString; FieldKindInteger; FieldKindNumber; FieldKindBoolean]).
Definition parentPath (p : string) : string := join "." (removelast (split p ".")).
Definition lastPathSegment (p : string) : string := List.last (split p ".") "".
Definition dedupeSorted (l : list string) : list string := sort_strings (remove_dups l).

Definition leafIndex (schema : option JSONSchemaProps) : gmap string LeafField :=
  foldl (λ m l, <[path_string (lfPath l) := l]> m) ∅ (match schema with Some s => FlattenSchema s | None => [] end).

Record renameCandidate := { rcHub : string; rcSpoke : string; rcScore : float64 }.
Definition candidate_less (x y : renameCandidate) : bool :=
  if negb (f64_eqb (rcScore x) (rcScore y)) then f64_ltb (rcScore y) (rcScore x)
  else if bool_decide (rcHub x ≠ rcHub y) then str_lt (rcHub x) (rcHub y)
  else str_lt (rcSpoke x) (rcSpoke y).

Section spoke.
Context (hubLeaves spokeLeaves : gmap string LeafField).

Definition rename_candidate (hp sp : string) : option renameCandidate :=
  hl ← hubLeaves !! hp;
  if bool_decide (hp = sp) then None
  else
    sl ← spokeLeaves !! sp;
    if bool_decide (lfKind sl ≠ lfKind hl) || bool_decide (lfOpaque sl ≠ lfOpaque hl) then None
    else if bool_decide (parentPath hp ≠ parentPath sp) then None
    else
      let score := nameSimilarity (lastPathSegment hp) (lastPathSegment sp) in
      if f64_ltb score suggestSimilarityThreshold then None
      else Some {| rcHub := hp; rcSpoke := sp; rcScore := score |}.
Definition unsorted_candidates (hubPaths spokePaths : list string) : list renameCandidate :=
  hubPaths ≫= λ hp, omap (rename_candidate hp) spokePaths.
Definition renameCandidates (hubPaths spokePaths : list string) : list renameCandidate :=
  sort_by candidate_less (unsorted_candidates hubPaths spokePaths).

(** A field that kept its path and changed its scalar type. *)
Definition coercible (p : string) : bool :=
  match hubLeaves !! p, spokeLeaves !! p with
  | Some hl, Some sl => bool_decide (lfKind hl ≠ lfKind sl) && isScalarKind (lfKind hl) && isScalarKind (lfKind sl)
  | _, _ => false
  end.
(** The candidates taken, best first, none of whose fields is used. *)
Fixpoint take_candidates (usedHub usedSpoke : gset string) (l : list renameCandidate) : list renameCandidate :=
  match l with
  | [] => []
  | c :: l =>
    if bool_decide (rcHub c ∈ usedHub) || bool_decide (rcSpoke c ∈ usedSpoke) then take_candidates usedHub usedSpoke l
    else c :: take_candidates ({[rcHub c]} ∪ usedHub) ({[rcSpoke c]} ∪ usedSpoke) l
  end.
Definition coerce_stub (p : string) : ConversionRule :=
  rule_of (PtrTypeCoerce {| atcPath := p; atcOnFractionalInteger := "" |}) false "" None.
Definition rename_stub (c : renameCandidate) : ConversionRule :=
  rule_of (PtrFieldRename {| afrHubPath := rcHub c; afrSpokePath := rcSpoke c |}) false "" None.

(** The paths coerced, and the pairs renamed. *)
Definition suggested (sr : SpokeReport) : list string * list renameCandidate :=
  let hubPaths := dedupeSorted (fcUncoveredHub (srUncovered sr)) in
  let spokePaths := dedupeSorted (fcUncoveredSpoke (srUncovered sr)) in
  let coerced := filter (λ p, coercible p = true) hubPaths in
  (coerced, take_candidates (list_to_set coerced) (list_to_set coerced) (renameCandidates hubPaths spokePaths)).
Definition suggestSpokeRules (sr : SpokeReport) : list ConversionRule :=
  let '(coerced, renamed) := suggested sr in (coerce_stub <$> coerced) ++ (rename_stub <$> renamed).
End spoke.

Definition buildSuggestions (hubVersion : string) (versions : list VersionSchema) (report : AnalyzeReport) : list SpokeVersionRules :=
  let schemas : gmap string (option JSONSchemaProps) := foldl (λ m v, <[vsName v := vsSchema v]> m) ∅ versions in
  let leaves v := leafIndex (mjoin (schemas !! v)) in
  omap (λ sr,
    let rules := suggestSpokeRules (leaves hubVersion) (leaves (srVersion sr)) sr in
    if bool_decide (rules = []) then None else Some {| svVersion := srVersion sr; svRules := rules |}) (arSpokeReports report).
End suggest.

(** ** The difference of two analyses *)

Record RuleClaim := { rlStrategy : string; rlHubPaths : list string; rlSpokePaths : list string }.
Record LosslessChange := { lcDirection : string; lcFrom : bool; lcTo : bool }.
Record SpokeDiff := {
  sdVersion : string; sdUncoveredHubAdded : list string; sdUncoveredHubRemoved : list string;
  sdUncoveredSpokeAdded : list string; sdUncoveredSpokeRemoved : list string;
  sdRuleClaimsAdded : list RuleClaim; sdRuleClaimsRemoved : list RuleClaim; sdLosslessChanges : list LosslessChange;
  sdErrorsAdded : list string; sdErrorsRemoved : list string; sdWarningsAdded : list string; sdWarningsRemoved : list string }.
Record DiffOutput := {
  dfResourceKind : string; dfResource : string; dfFrom : string; dfTo : string; dfHasDeltas : bool;
  dfHubVersionChange : option (string * string); dfSpokesAdded : list string; dfSpokesRemoved : list string;
  dfSpokes : list SpokeDiff }.

Definition hasDeltas (s : SpokeDiff) : bool :=
  (0 <? length (sdUncoveredHubAdded s) + length (sdUncoveredHubRemoved s) +
       length (sdUncoveredSpokeAdded s) + length (sdUncoveredSpokeRemoved s) +
       length (sdRuleClaimsAdded s) + length (sdRuleClaimsRemoved s) + length (sdLosslessChanges s) +
       length (sdErrorsAdded s) + length (sdErrorsRemoved s) +
       length (sdWarningsAdded s) + length (sdWarningsRemoved s))%nat.

(** What is only in [to], and what is only in [from]. *)
Definition stringSetDiff (from to : list string) : list string * list string :=
  let fromSet : gset string := list_to_set from in
  let toSet : gset string := list_to_set to in
  (sorted_keys (toSet ∖ fromSet), sorted_keys (fromSet ∖ toSet)).

Definition ruleClaims (sr : SpokeReport) : list RuleClaim :=
  (λ rr, {| rlStrategy := rrStrategy rr; rlHubPaths := rrHubPaths rr; rlSpokePaths := rrSpokePaths rr |}) <$> srRuleResults sr.
Definition claimKey (c : RuleClaim) : string :=
  rlStrategy c +:+ "|" +:+ join "," (rlHubPaths c) +:+ "|" +:+ join "," (rlSpokePaths c).
(** [counts[k]] and [byKey[k]]. *)
Definition count_claim (n : Z) (m : gmap string (Z * RuleClaim)) (c : RuleClaim) : gmap string (Z * RuleClaim) :=
  <[claimKey c := (default 0 (fst <$> m !! claimKey c) + n, c)]> m.
Definition claim_counts (from to : list RuleClaim) : gmap string (Z * RuleClaim) :=
  foldl (count_claim 1) (foldl (count_claim (-1)) ∅ from) to.
Definition claimSetDiff (from to : list RuleClaim) : list RuleClaim * list RuleClaim :=
  let m := claim_counts from to in
  let at_key f := sortedKeys m ≫= λ k, match m !! k with Some (n, c) => replicate (Z.to_nat (f n)) c | None => [] end in
  (at_key (λ n, n), at_key Z.opp).

Section diff.
Context (text : message → string).     (* of a diagnostic *)

Definition diagMessages (ds : list Diagnostic) : list string := text ∘ dMessage <$> ds.
Definition lossless_change (direction : string) (from to : bool) : list LosslessChange :=
  if bool_decide (from = to) then [] else [{| lcDirection := direction; lcFrom := from; lcTo := to |}].
Definition diffSpokeReports (version : string) (from to : SpokeReport) : SpokeDiff :=
  let hub := stringSetDiff (fcUncoveredHub (srUncovered from)) (fcUncoveredHub (srUncovered to)) in
  let spoke := stringSetDiff (fcUncoveredSpoke (srUncovered from)) (fcUncoveredSpoke (srUncovered to)) in
  let claims := claimSetDiff (ruleClaims from) (ruleClaims to) in
  let errors := stringSetDiff (diagMessages (srErrors from)) (diagMessages (srErrors to)) in
  let warnings := stringSetDiff (diagMessages (srWarnings from)) (diagMessages (srWarnings to)) in
  {| sdVersion := version; sdUncoveredHubAdded := hub.1; sdUncoveredHubRemoved := hub.2;
     sdUncoveredSpokeAdded := spoke.1; sdUncoveredSpokeRemoved := spoke.2;
     sdRuleClaimsAdded := claims.1; sdRuleClaimsRemoved := claims.2;
     sdLosslessChanges :=
       lossless_change "hubToSpoke" (lvHubToSpoke (srLossless from)) (lvHubToSpoke (srLossless to)) ++
       lossless_change "spokeToHub" (lvSpokeToHub (srLossless from)) (lvSpokeToHub (srLossless to));
     sdErrorsAdded := errors.1; sdErrorsRemoved := errors.2; sdWarningsAdded := warnings.1; sdWarningsRemoved := warnings.2 |}.

Definition spokeReportsByVersion (r : AnalyzeReport) : gmap string SpokeReport :=
  foldl (λ m sr, <[srVersion sr := sr]> m) ∅ (arSpokeReports r).
Definition only_in (a b : gmap string SpokeReport) : list string := filter (λ v, b !! v = None) (sortedKeys a).
Definition spoke_diffs (from to : gmap string SpokeReport) : list SpokeDiff :=
  omap (λ v, f ← from !! v; t ← to !! v;
    let sd := diffSpokeReports v f t in if hasDeltas sd then Some sd else None) (sortedKeys to).
Definition buildDiffOutput (resourceKind resourceName fromLabel toLabel fromHub toHub : string) (from to : AnalyzeReport)
    : DiffOutput :=
  let fromSpokes := spokeReportsByVersion from in
  let toSpokes := spokeReportsByVersion to in
  let hub := if bool_decide (fromHub = toHub) then None else Some (fromHub, toHub) in
  let added := only_in toSpokes fromSpokes in
  let removed := only_in fromSpokes toSpokes in
  let spokes := spoke_diffs fromSpokes toSpokes in
  {| dfResourceKind := resourceKind; dfResource := resourceName; dfFrom := fromLabel; dfTo := toLabel;
     dfHasDeltas := bool_decide (is_Some hub) || (0 <? length added)%nat || (0 <? length removed)%nat || (0 <? length spokes)%nat;
     dfHubVersionChange := hub; dfSpokesAdded := added; dfSpokesRemoved := removed; dfSpokes := spokes |}.

(** ** The commands *)

Inductive authoring_error :=
| ErrConfigCount (live : bool) (n : nat)
| ErrLoad (err : string)
| ErrOtherKind (kind other : string)
| ErrNeedsCRD (config : string)
| ErrNeedsXRD (config : string)
| ErrAnalyzing (label : string) (e : run_error)
| ErrSuggestAnalysis (e : run_error).

(** The files read by path; the cluster's objects by name, where a config may be
    missing. *)
Record authoring_world := {
  awKind : string → res string string;
  awXRD : string → res string obj; awConfig : string → res string XRDConversionConfig;
  awCRD : string → res string CustomResourceDefinition; awCRDConfig : string → res string CRDConversionConfig;
  awClient : option string;
  awLiveXRD : string → res string obj; awLiveConfig : string → res string (option XRDConversionConfig);
  awLiveCRD : string → res string CustomResourceDefinition;
  awLiveCRDConfig : string → res string (option CRDConversionConfig) }.

Record DiffOptions := { doConfigPaths : list string; doXRDPath : string; doCRDPath : string; doLive : bool }.

Definition only_name (name : string) : ObjectMeta := {|
  omName := name; omDeleting := false; omGeneration := 0; omFinalizers := []; omAnnotations := ∅ |}.
Definition no_rules (s : SpokeVersionRules) : SpokeVersionRules := {| svVersion := svVersion s; svRules := [] |}.
Definition emptyRulesXRDConfig (cfg : XRDConversionConfig) : XRDConversionConfig := {|
  xcMeta := only_name (omName (xcMeta cfg));
  xcSpec := {| xsTargetXRD := xsTargetXRD (xcSpec cfg); xsHubVersion := xsHubVersion (xcSpec cfg);
    xsSpokes := no_rules <$> xsSpokes (xcSpec cfg); xsWebhookServerRef := None; xsConversionReviewVersions := [];
    xsUnmappedFieldPolicy := xsUnmappedFieldPolicy (xcSpec cfg); xsUnmappedFieldReason := ""; xsDriftPolicy := "" |};
  xcStatus := new_status |}.
Definition emptyRulesCRDConfig (cfg : CRDConversionConfig) : CRDConversionConfig := {|
  kcMeta := only_name (omName (kcMeta cfg));
  kcSpec := {| csTargetCRD := csTargetCRD (kcSpec cfg); csHubVersion := csHubVersion (kcSpec cfg);
    csSpokes := no_rules <$> csSpokes (kcSpec cfg); csWebhookServerRef := None; csConversionReviewVersions := [];
    csUnmappedFieldPolicy := csUnmappedFieldPolicy (kcSpec cfg); csUnmappedFieldReason := ""; csDriftPolicy := "" |};
  kcStatus := new_status |}.

Section commands.
Context `{RO : RangeOrder} `{EX : Externs} `{CX : CompileExterns} `{UN : Unstructured} `{UT : UnicodeTables}.
Context (fuel : nat) (KX : TargetKind XRDConversionConfig obj) (KC : TargetKind CRDConversionConfig CustomResourceDefinition).
Context (w : authoring_world).

(** [diffXRDConfigs] and [diffCRDConfigs]. *)
Definition diff_configs `{TK : TargetKind C T} (resourceKind name : string) (target : T) (from to : C) (fromLabel toLabel : string)
    : res authoring_error DiffOutput :=
  fromReport ← res_wrap (ErrAnalyzing fromLabel) (runAnalyze fuel target from);
  toReport ← res_wrap (ErrAnalyzing toLabel) (runAnalyze fuel target to);
  Ok (buildDiffOutput resourceKind name fromLabel toLabel (tk_hub from) (tk_hub to) fromReport.1 toReport.1).
Definition diffXRDConfigs (xrd : obj) : XRDConversionConfig → XRDConversionConfig → string → string → res authoring_error DiffOutput :=
  diff_configs (TK := KX) "XRD" (display_name xrd) xrd.
Definition diffCRDConfigs (crd : CustomResourceDefinition)
    : CRDConversionConfig → CRDConversionConfig → string → string → res authoring_error DiffOutput :=
  diff_configs (TK := KC) "CRD" (crd_display_name (crdName crd)) crd.

Definition runDiffFiles (kind : string) (opts : DiffOptions) (a b : string) : res authoring_error DiffOutput :=
  otherKind ← res_wrap ErrLoad (awKind w b);
  if bool_decide (otherKind ≠ kind) then Err (ErrOtherKind kind otherKind)
  else if bool_decide (kind = "CRDConversionConfig") then
    if bool_decide (doCRDPath opts = "") then Err (ErrNeedsCRD a)
    else
      crd ← res_wrap ErrLoad (awCRD w (doCRDPath opts));
      from ← res_wrap ErrLoad (awCRDConfig w a);
      to ← res_wrap ErrLoad (awCRDConfig w b);
      diffCRDConfigs crd from to a b
  else if bool_decide (doXRDPath opts = "") then Err (ErrNeedsXRD a)
  else
    xrd ← res_wrap ErrLoad (awXRD w (doXRDPath opts));
    from ← res_wrap ErrLoad (awConfig w a);
    to ← res_wrap ErrLoad (awConfig w b);
    diffXRDConfigs xrd from to a b.

(** The cluster's side, or a config without rules when it has none. *)
Definition runDiffLive (kind : string) (a : string) : res authoring_error DiffOutput :=
  match awClient w with
  | Some e => Err (ErrLoad e)
  | None =>
    if bool_decide (kind = "CRDConversionConfig") then
      local ← res_wrap ErrLoad (awCRDConfig w a);
      crd ← res_wrap ErrLoad (awLiveCRD w (csTargetCRD (kcSpec local)));
      live ← res_wrap ErrLoad (awLiveCRDConfig w (omName (kcMeta local)));
      match live with
      | Some live => diffCRDConfigs crd live local ("cluster:" +:+ omName (kcMeta local)) a
      | None => diffCRDConfigs crd (emptyRulesCRDConfig local) local
                  ("cluster:(no CRDConversionConfig " +:+ omName (kcMeta local) +:+ ")") a
      end
    else
      local ← res_wrap ErrLoad (awConfig w a);
      xrd ← res_wrap ErrLoad (awLiveXRD w (xsTargetXRD (xcSpec local)));
      live ← res_wrap ErrLoad (awLiveConfig w (omName (xcMeta local)));
      match live with
      | Some live => diffXRDConfigs xrd live local ("cluster:" +:+ omName (xcMeta local)) a
      | None => diffXRDConfigs xrd (emptyRulesXRDConfig local) local
                  ("cluster:(no XRDConversionConfig " +:+ omName (xcMeta local) +:+ ")") a
      end
  end.
Definition RunDiff (opts : DiffOptions) : res authoring_error DiffOutput :=
  match doLive opts, doConfigPaths opts with
  | true, [a] => kind ← res_wrap ErrLoad (awKind w a); runDiffLive kind a
  | false, [a; b] => kind ← res_wrap ErrLoad (awKind w a); runDiffFiles kind opts a b
  | live, l => Err (ErrConfigCount live (length l))
  end.

Definition suggest_for `{TK : TargetKind C T} (target : T) (cfg : C) : res authoring_error (list SpokeVersionRules) :=
  out ← res_wrap ErrSuggestAnalysis (runAnalyze fuel target cfg);
  Ok (buildSuggestions (tk_hub cfg) out.2 out.1).
Definition RunSuggest (xrdPath crdPath configPath : string) : res authoring_error (list SpokeVersionRules) :=
  kind ← res_wrap ErrLoad (awKind w configPath);
  if bool_decide (kind = "CRDConversionConfig") then
    if bool_decide (crdPath = "") then Err (ErrNeedsCRD configPath)
    else
      crd ← res_wrap ErrLoad (awCRD w crdPath);
      cfg ← res_wrap ErrLoad (awCRDConfig w configPath);
      suggest_for (TK := KC) crd cfg
  else if bool_decide (xrdPath = "") then Err (ErrNeedsXRD configPath)
  else
    xrd ← res_wrap ErrLoad (awXRD w xrdPath);
    cfg ← res_wrap ErrLoad (awConfig w configPath);
    suggest_for (TK := KX) xrd cfg.
End commands.
End diff.

(** ** The two-row loop computes the edit distance *)

(** [n] insertions, deletions and substitutions turn one text into the other. *)
Inductive edits : nat → list ascii → list ascii → Prop :=
| edits_nil : edits 0 [] []
| edits_keep n c a b : edits n a b → edits n (c :: a) (c :: b)
| edits_subst n c d a b : edits n a b → edits (S n) (c :: a) (d :: b)
| edits_insert n d a b : edits n a b → edits (S n) a (d :: b)
| edits_delete n c a b : edits n a b → edits (S n) (c :: a) b.

Definition edit_cost (x y : ascii) : nat := if bool_decide (x = y) then 0%nat else 1%nat.
(** The textbook recursion. *)
Fixpoint dist (a : list ascii) : list ascii → nat :=
  match a with
  | [] => λ b, length b
  | x :: a' => fix go b :=
    match b with
    | [] => S (length a')
    | y :: b' => Nat.min (go b' + 1) (Nat.min (dist a' b + 1) (dist a' b' + edit_cost x y))
    end
  end.
Lemma dist_cons x a y b :
  dist (x :: a) (y :: b) = Nat.min (dist (x :: a) b + 1) (Nat.min (dist a (y :: b) + 1) (dist a b + edit_cost x y)).
Proof. done. Qed.
Lemma dist_nil a : dist a [] = length a.
Proof. by destruct a. Qed.

Lemma edits_all_inserted b : edits (length b) [] b.
Proof. induction b; cbn; by constructor. Qed.
Lemma edits_all_deleted a : edits (length a) a [].
Proof. induction a; cbn; by constructor. Qed.
Lemma dist_edits a : ∀ b, edits (dist a b) a b.
Proof.
  induction a as [|x a IHa]; [apply edits_all_inserted|]. induction b as [|y b IHb]; [apply (edits_all_deleted (x :: a))|].
  rewrite dist_cons.
  destruct (Nat.min_spec (dist (x :: a) b + 1) (Nat.min (dist a (y :: b) + 1) (dist a b + edit_cost x y))) as [[_ ->]|[_ ->]].
  { rewrite Nat.add_1_r. by constructor. }
  destruct (Nat.min_spec (dist a (y :: b) + 1) (dist a b + edit_cost x y)) as [[_ ->]|[_ ->]].
  { rewrite Nat.add_1_r. by constructor. }
  unfold edit_cost. case_bool_decide as Hxy; [rewrite Nat.add_0_r; subst y|rewrite Nat.add_1_r]; by constructor.
Qed.
Lemma dist_least n a b : edits n a b → (dist a b <= n)%nat.
Proof.
  induction 1 as [|n c a b _ IH|n c d a b _ IH|n d a b _ IH|n c a b _ IH].
  - done.
  - rewrite dist_cons. unfold edit_cost. rewrite bool_decide_true by done. lia.
  - rewrite dist_cons. unfold edit_cost. case_bool_decide; lia.
  - destruct a as [|x a]; [cbn in *; lia|]. rewrite dist_cons. lia.
  - destruct b as [|y b]; [rewrite dist_nil in *; cbn; lia|]. rewrite dist_cons. lia.
Qed.

Lemma edits_app n a b m a' b' : edits n a b → edits m a' b' → edits (n + m) (a ++ a') (b ++ b').
Proof. induction 1; intros Hm; cbn; [done|..]; constructor; auto. Qed.
Lemma edits_rev n a b : edits n a b → edits n (rev a) (rev b).
Proof.
  induction 1; cbn; [constructor|..].
  - rewrite <-(Nat.add_0_r n). apply edits_app; [done|repeat constructor].
  - rewrite <-(Nat.add_1_r n). apply edits_app; [done|repeat constructor].
  - rewrite <-(Nat.add_1_r n), <-(app_nil_r (rev a)). apply edits_app; [done|repeat constructor].
  - rewrite <-(Nat.add_1_r n), <-(app_nil_r (rev b)). apply edits_app; [done|repeat constructor].
Qed.

(** The distance of two prefixes; a row of them. *)
Definition prefix_dist (p q : list ascii) : nat := dist (rev p) (rev q).
Fixpoint dist_row (p q b : list ascii) : list nat :=
  prefix_dist p q :: match b with [] => [] | y :: b => dist_row p (q ++ [y]) b end.
Lemma prefix_dist_step p c q y :
  prefix_dist (p ++ [c]) (q ++ [y]) =
  Nat.min (prefix_dist p (q ++ [y]) + 1) (Nat.min (prefix_dist (p ++ [c]) q + 1) (prefix_dist p q + edit_cost c y)).
Proof. unfold prefix_dist. rewrite !rev_app_distr. cbn [rev app]. rewrite dist_cons. lia. Qed.
Lemma lev_row_spec c p b : ∀ q,
  prefix_dist (p ++ [c]) q :: lev_row c b (dist_row p q b) (prefix_dist (p ++ [c]) q) = dist_row (p ++ [c]) q b.
Proof.
  induction b as [|y b IH]; intros q; [done|]. cbn [dist_row]. f_equal. rewrite <-IH.
  destruct b as [|z b]; cbn [lev_row dist_row]; fold (edit_cost c y); by rewrite prefix_dist_step.
Qed.
Lemma lev_rows_spec a b : ∀ p, lev_rows (S (length p)) a b (dist_row p [] b) = dist_row (p ++ a) [] b.
Proof.
  induction a as [|c a IH]; intros p; cbn [lev_rows]; [by rewrite app_nil_r|].
  assert (S (length p) = prefix_dist (p ++ [c]) []) as Hi
    by (unfold prefix_dist; cbn; rewrite dist_nil, length_rev, length_app; cbn; lia).
  rewrite Hi at 2 3. rewrite lev_row_spec. specialize (IH (p ++ [c])). rewrite length_app in IH.
  replace (S (length p + length [c])) with (S (S (length p))) in IH by (cbn; lia). rewrite IH. by rewrite <-app_assoc.
Qed.
Lemma dist_row_first b : ∀ q, dist_row [] q b = seq (length q) (S (length b)).
Proof.
  induction b as [|y b IH]; intros q; unfold prefix_dist; cbn [dist_row]; unfold prefix_dist; cbn; rewrite length_rev; [done|].
  f_equal. rewrite IH, length_app, Nat.add_1_r. done.
Qed.
Lemma last_dist_row p b : ∀ q d, List.last (dist_row p q b) d = prefix_dist p (q ++ b).
Proof.
  induction b as [|y b IH]; intros q d; [by rewrite app_nil_r|]. cbn [dist_row].
  transitivity (List.last (dist_row p (q ++ [y]) b) d); [by destruct b|]. by rewrite IH, <-app_assoc.
Qed.
Lemma levenshtein_dist a b :
  levenshtein a b = dist (rev (String.list_ascii_of_string a)) (rev (String.list_ascii_of_string b)).
Proof.
  unfold levenshtein. rewrite <-(dist_row_first _ []). change 1%nat with (S (length (@nil ascii))).
  by rewrite lev_rows_spec, last_dist_row.
Qed.
(** [levenshtein] is the least number of insertions, deletions and substitutions of a
    byte that turn one name into the other. *)
Theorem levenshtein_is_edit_distance a b :
  edits (levenshtein a b) (String.list_ascii_of_string a) (String.list_ascii_of_string b) ∧
  ∀ n, edits n (String.list_ascii_of_string a) (String.list_ascii_of_string b) → (levenshtein a b <= n)%nat.
Proof.
  rewrite levenshtein_dist. split.
  - pose proof (edits_rev _ _ _ (dist_edits (rev (String.list_ascii_of_string a)) (rev (String.list_ascii_of_string b)))) as H.
    by rewrite !rev_involutive in H.
  - intros n Hn. by apply dist_least, edits_rev.
Qed.

(** ** Scores are numbers *)

(** Rounding a mantissa that is not negative never gives NaN. *)
Lemma shr_1_nonneg r : 0 <= shr_m r → 0 <= shr_m (shr_1 r).
Proof. destruct r as [[|[p|p|]|p] b s]; cbn; lia. Qed.
Lemma iter_shr_nonneg p : ∀ r, 0 <= shr_m r → 0 <= shr_m (iter_pos shr_1 p r).
Proof. induction p; intros r Hr; cbn [iter_pos]; auto using shr_1_nonneg. Qed.
Lemma shr_fexp_nonneg m e l : 0 <= m → 0 <= shr_m (shr_fexp f64_prec f64_emax m e l).1.
Proof.
  intros Hm. unfold shr_fexp, shr. assert (0 <= shr_m (shr_record_of_loc m l)) by (by destruct l as [|[]]).
  destruct (_ - _); cbn [fst]; auto using iter_shr_nonneg.
Qed.
Lemma round_nearest_even_nonneg m l : 0 <= m → 0 <= round_nearest_even m l.
Proof. intros Hm. unfold round_nearest_even. destruct l as [|[]]; [lia|destruct (Z.even m); lia|lia|lia]. Qed.
Lemma binary_round_aux_num s m e l : 0 <= m → f64_is_nan (binary_round_aux f64_prec f64_emax s m e l) = false.
Proof.
  intros Hm. unfold binary_round_aux. pose proof (shr_fexp_nonneg m e l Hm) as H1. destruct (shr_fexp _ _ m e l) as [r1 e1]. cbn in H1.
  pose proof (shr_fexp_nonneg _ e1 loc_Exact (round_nearest_even_nonneg (shr_m r1) (loc_of_shr_record r1) H1)) as H2.
  destruct (shr_fexp _ _ (round_nearest_even _ _) e1 loc_Exact) as [r2 e2]. cbn in H2.
  destruct (shr_m r2); [done|by destruct (_ <=? _)|lia].
Qed.
Lemma binary_normalize_num m e s : f64_is_nan (binary_normalize f64_prec f64_emax m e s) = false.
Proof.
  destruct m as [|p|p]; cbn [binary_normalize]; [done|..]; unfold binary_round; case_match;
    by apply binary_round_aux_num.
Qed.
Lemma f64_sub_num x y : f64_is_finite x = true → f64_is_nan y = false → f64_is_nan (f64_sub x y) = false.
Proof.
  destruct x as [sx|sx| |sx mx ex], y as [sy|sy| |sy my ey]; try done; intros _ _; unfold f64_sub, SFsub.
  - by destruct sx, sy.
  - apply binary_normalize_num.
Qed.
Lemma f64_div_num x y : f64_is_finite x = true → f64_is_finite y = true → y ≠ S754_zero false → y ≠ S754_zero true →
  f64_is_nan (f64_div x y) = false.
Proof.
  destruct y as [[]|sy| |sy my ey]; try done. destruct x as [sx|sx| |sx mx ex]; try done. intros _ _ _ _.
  unfold f64_div, SFdiv, SFdiv_core_binary. cbv zeta.
  match goal with |- context [Z.div_eucl ?m _] => assert (0 <= m) as Hm end.
  { case_match; [lia|by apply Z.shiftl_nonneg|lia]. }
  match goal with |- context [Z.div_eucl ?m ?d] => pose proof (Z.div_pos m d Hm eq_refl) as Hq; unfold Z.div in Hq end.
  destruct (Z.div_eucl _ _) as [q r]. by apply binary_round_aux_num.
Qed.
Lemma f64_of_nat_finite z : 0 <= z < 2 ^ 53 → f64_is_finite (f64_of_Z z) = true.
Proof.
  intros Hz. pose proof (f64_signed_finite false z Hz) as H. unfold f64_signed in H. cbn [cond_Zopp] in H.
  destruct (z =? 0) eqn:E; [|done]. apply Z.eqb_eq in E as ->. done.
Qed.
Lemma f64_of_pos_nonzero z s : 0 < z < 2 ^ 53 → f64_of_Z z ≠ S754_zero s.
Proof.
  intros Hz H0. pose proof (f64_to_Z_of_Z z) as H. rewrite H0 in H.
  specialize (H ltac:(lia)). injection H. lia.
Qed.

Lemma dist_le_longest a : ∀ b, (dist a b <= Nat.max (length a) (length b))%nat.
Proof.
  induction a as [|x a IH]; intros [|y b]; [cbn; lia..|]. rewrite dist_cons. specialize (IH b).
  assert (edit_cost x y <= 1)%nat by (unfold edit_cost; case_bool_decide; lia). cbn [length]. lia.
Qed.
Lemma length_list_ascii s : length (String.list_ascii_of_string s) = String.length s.
Proof. induction s; cbn; congruence. Qed.
Lemma levenshtein_le_longest a b : (levenshtein a b <= Nat.max (String.length a) (String.length b))%nat.
Proof.
  rewrite levenshtein_dist, <-!length_list_ascii. etrans; [apply dist_le_longest|]. by rewrite !length_rev.
Qed.
Lemma similarity_num d l : 0 <= d <= l → 0 < l < 2 ^ 53 → f64_is_nan (similarity d l) = false.
Proof.
  intros Hd Hl. apply f64_sub_num; [done|]. apply f64_div_num; [apply f64_of_nat_finite; lia..| |]; apply f64_of_pos_nonzero; lia.
Qed.

(** ** The order of the candidates *)

(** A list sorted by insertion is sorted, when no element precedes one it follows. *)
Section sorted.
Context {A : Type} (less : A → A → bool) (ok : A → Prop).
Context (less_asym : ∀ x y, ok x → ok y → less x y = true → less y x = false).
Context (less_neg_trans : ∀ x y z, ok x → ok y → ok z → less x y = false → less y z = false → less x z = false).
Notation before := (λ x y, less y x = false).

Lemma insert_by_sorted x l : ok x → Forall ok l → StronglySorted before l → StronglySorted before (insert_by less x l).
Proof.
  intros Hx Hl Hs. induction Hs as [|y l Hs IH Hy]; cbn; [by repeat constructor|]. apply Forall_cons in Hl as [Hoy Hl].
  destruct (less y x) eqn:E.
  - constructor; [by apply IH|]. apply Forall_forall. intros z. rewrite insert_by_perm, elem_of_cons.
    intros [->|Hz]; [by apply less_asym|]. by eapply Forall_forall in Hy.
  - constructor; [by constructor|]. apply Forall_cons. split; [done|]. apply Forall_forall. intros z Hz.
    eapply Forall_forall in Hy; [|done]. eapply (less_neg_trans z y x); try done. by eapply Forall_forall in Hl.
Qed.
Lemma sort_by_sorted l : Forall ok l → StronglySorted before (sort_by less l).
Proof.
  induction 1 as [|x l Hx Hl IH]; cbn [sort_by foldr]; [constructor|]. change (foldr (insert_by less) [] l) with (sort_by less l).
  apply insert_by_sorted; [done| |done]. apply Forall_forall. intros y. rewrite elem_of_sort_by. by apply Forall_forall.
Qed.
End sorted.

(** What [candidate_less] compares. *)
Definition candidate_rank (c : renameCandidate) : Z * Z * Z := f64_rank (rcScore c).
Definition numbered (c : renameCandidate) : Prop := f64_is_nan (rcScore c) = false.
Definition str_before (a b : string) : Prop := ¬ String.le b a.
Definition precedes (x y : renameCandidate) : Prop :=
  rank_lt (candidate_rank y) (candidate_rank x) ∨
  candidate_rank x = candidate_rank y ∧
    (str_before (rcHub x) (rcHub y) ∨ rcHub x = rcHub y ∧ str_before (rcSpoke x) (rcSpoke y)).
Lemma candidate_less_spec x y : numbered x → numbered y → candidate_less x y = true ↔ precedes x y.
Proof.
  intros Hx Hy. unfold candidate_less, precedes, candidate_rank, str_before. rewrite <-!str_lt_not_le.
  destruct (f64_eqb (rcScore x) (rcScore y)) eqn:E; cbn [negb].
  - apply f64_eqb_rank in E as (_ & _ & E). rewrite E. case_bool_decide as Hh.
    + split; [by right; split; [|left]|]. intros [H|[_ [H|[H _]]]]; [by destruct (rank_lt_asym _ _ H)|done|done].
    + rewrite Hh. split; [by right; split; [|right]|].
      intros [H|[_ [H|[_ H]]]]; [by destruct (rank_lt_asym _ _ H)| |done].
      apply str_lt_not_le in H. by destruct H.
  - rewrite f64_ltb_rank. split; [intros (_ & _ & H); by left|].
    intros [H|[H _]]; [done|]. apply not_true_iff_false in E. destruct E. by apply f64_eqb_rank.
Qed.
Lemma str_before_trichotomy a b : str_before a b ∨ a = b ∨ str_before b a.
Proof.
  unfold str_before. destruct (decide (String.le b a)), (decide (String.le a b)); auto.
  right; left. by apply (anti_symm String.le).
Qed.
Lemma str_before_trans a b c : str_before a b → str_before b c → str_before a c.
Proof.
  unfold str_before. intros H1 H2 H3. apply H1. destruct (total String.le b c) as [H|H]; [by trans c|done].
Qed.
Lemma str_before_irrefl a : ¬ str_before a a.
Proof. intros H. by apply H. Qed.
Lemma precedes_trichotomy x y :
  precedes x y ∨ precedes y x ∨ candidate_rank x = candidate_rank y ∧ rcHub x = rcHub y ∧ rcSpoke x = rcSpoke y.
Proof.
  unfold precedes. destruct (rank_trichotomy (candidate_rank x) (candidate_rank y)) as [|[E|]]; [tauto| |tauto]. rewrite E.
  destruct (str_before_trichotomy (rcHub x) (rcHub y)) as [|[Eh|]]; [tauto| |tauto]. rewrite Eh.
  destruct (str_before_trichotomy (rcSpoke x) (rcSpoke y)) as [|[Es|]]; tauto.
Qed.
Lemma precedes_trans x y z : precedes x y → precedes y z → precedes x z.
Proof.
  unfold precedes. intros [H1|[E1 H1]] [H2|[E2 H2]].
  - left. by eapply rank_lt_trans.
  - left. by rewrite <-E2.
  - left. by rewrite E1.
  - right. split; [congruence|]. destruct H1 as [H1|[F1 H1]], H2 as [H2|[F2 H2]].
    + left. by eapply str_before_trans.
    + left. by rewrite <-F2.
    + left. by rewrite F1.
    + right. split; [congruence|]. by eapply str_before_trans.
Qed.
Lemma precedes_irrefl x y : candidate_rank x = candidate_rank y → rcHub x = rcHub y → rcSpoke x = rcSpoke y → ¬ precedes x y.
Proof.
  unfold precedes. intros -> -> ->. intros [H|[_ [H|[_ H]]]]; [by destruct (rank_lt_asym _ _ H)|by apply str_before_irrefl in H..].
Qed.
Lemma candidate_less_false x y : numbered x → numbered y → candidate_less x y = false ↔ ¬ precedes x y.
Proof. intros Hx Hy. by rewrite <-not_true_iff_false, candidate_less_spec. Qed.
Lemma candidate_neg_trans x y z : numbered x → numbered y → numbered z →
  candidate_less x y = false → candidate_less y z = false → candidate_less x z = false.
Proof.
  intros Hx Hy Hz. rewrite !candidate_less_false by done. intros H1 H2 H3.
  destruct (precedes_trichotomy x y) as [|[H|(E1 & E2 & E3)]]; [done| |].
  - apply H2. by eapply precedes_trans.
  - apply H2. unfold precedes in *. by rewrite <-E1, <-E2, <-E3.
Qed.
Lemma candidate_asym x y : numbered x → numbered y → candidate_less x y = true → candidate_less y x = false.
Proof.
  intros Hx Hy. rewrite candidate_less_spec, candidate_less_false by done. intros H1 H2.
  eapply (precedes_irrefl x x); [done..|]. by eapply precedes_trans.
Qed.

(** ** The renames are a stable matching *)

Section matching.
Context `{UT : UnicodeTables} (hubLeaves spokeLeaves : gmap string LeafField).
Abbreviation rename_candidate := (rename_candidate hubLeaves spokeLeaves).
Abbreviation coercible := (coercible hubLeaves spokeLeaves).

(** The names compared are shorter than 2^53 bytes. *)
Definition short_name (p : string) : Prop := Z.of_nat (String.length (normalizeFieldName (lastPathSegment p))) < 2 ^ 53.
Definition short_names : Prop := ∀ p, is_Some (hubLeaves !! p) ∨ is_Some (spokeLeaves !! p) → short_name p.

(** Two fields alike enough to propose a rename. *)
Definition alike (hp sp : string) : Prop :=
  ∃ hl sl, hubLeaves !! hp = Some hl ∧ spokeLeaves !! sp = Some sl ∧ hp ≠ sp ∧
    lfKind hl = lfKind sl ∧ lfOpaque hl = lfOpaque sl ∧ parentPath hp = parentPath sp ∧
    f64_ltb (nameSimilarity (lastPathSegment hp) (lastPathSegment sp)) suggestSimilarityThreshold = false.

Lemma rename_candidate_spec hp sp c : rename_candidate hp sp = Some c ↔
  alike hp sp ∧ c = {| rcHub := hp; rcSpoke := sp; rcScore := nameSimilarity (lastPathSegment hp) (lastPathSegment sp) |}.
Proof.
  unfold Authoring.rename_candidate, alike. destruct (hubLeaves !! hp) as [hl|]; [|naive_solver]. cbn [mbind option_bind].
  case_bool_decide as Hp; [naive_solver|]. destruct (spokeLeaves !! sp) as [sl|]; [|naive_solver]. cbn [mbind option_bind].
  repeat case_bool_decide; cbn; try destruct (f64_ltb _ _) eqn:E; naive_solver.
Qed.
Lemma nameSimilarity_num hp sp : short_name hp → short_name sp →
  f64_is_nan (nameSimilarity (lastPathSegment hp) (lastPathSegment sp)) = false.
Proof.
  unfold short_name, nameSimilarity. set (na := normalizeFieldName _). set (nb := normalizeFieldName (lastPathSegment sp)). intros Ha Hb.
  case_bool_decide as H1; [done|]. case_bool_decide as H2; [done|]. cbn [orb]. case_bool_decide; [done|].
  pose proof (levenshtein_le_longest na nb). assert (0 < String.length na)%nat by (destruct na; [done|cbn; lia]).
  apply similarity_num; lia.
Qed.

Abbreviation unsorted_candidates := (unsorted_candidates hubLeaves spokeLeaves).
Abbreviation renameCandidates := (renameCandidates hubLeaves spokeLeaves).
Lemma elem_of_renameCandidates hps sps c : c ∈ renameCandidates hps sps ↔
  rcHub c ∈ hps ∧ rcSpoke c ∈ sps ∧ rename_candidate (rcHub c) (rcSpoke c) = Some c.
Proof.
  unfold Authoring.renameCandidates, Authoring.unsorted_candidates. rewrite elem_of_sort_by, list_elem_of_bind.
  setoid_rewrite list_elem_of_omap. split.
  - intros (hp & (sp & Hsp & Hc) & Hhp). pose proof Hc as [_ ->]%rename_candidate_spec. done.
  - intros (Hh & Hs & Hc). eauto.
Qed.
Lemma renameCandidates_sorted hps sps : short_names →
  StronglySorted (λ x y, candidate_less y x = false) (renameCandidates hps sps) ∧ ∀ c, c ∈ renameCandidates hps sps → numbered c.
Proof.
  intros Hshort. assert (∀ c, c ∈ renameCandidates hps sps → numbered c) as Hn.
  { intros c (_ & _ & [(hl & sl & Hh & Hs & _) ->]%rename_candidate_spec)%elem_of_renameCandidates.
    apply nameSimilarity_num; apply Hshort; [left|right]; by eexists. }
  split; [|done]. apply (sort_by_sorted candidate_less numbered); [apply candidate_asym|apply candidate_neg_trans|].
  apply Forall_forall. intros c Hc. apply Hn. by apply elem_of_sort_by.
Qed.

Lemma take_candidates_spec l : StronglySorted (λ x y, candidate_less y x = false) l → ∀ U V,
  (∀ c, c ∈ take_candidates U V l → c ∈ l ∧ rcHub c ∉ U ∧ rcSpoke c ∉ V) ∧
  NoDup (rcHub <$> take_candidates U V l) ∧ NoDup (rcSpoke <$> take_candidates U V l) ∧
  (∀ c, c ∈ l → c ∈ take_candidates U V l ∨ rcHub c ∈ U ∨ rcSpoke c ∈ V ∨
     ∃ d, d ∈ take_candidates U V l ∧ (rcHub d = rcHub c ∨ rcSpoke d = rcSpoke c) ∧ (d = c ∨ candidate_less c d = false)).
Proof.
  induction 1 as [|x l Hs IH Hx]; intros U V; cbn [take_candidates].
  { split_and!; [by intros c ?%not_elem_of_nil|constructor..|by intros c ?%not_elem_of_nil]. }
  destruct (bool_decide _ || bool_decide _) eqn:E.
  - destruct (IH U V) as (H1 & H2 & H3 & H4). apply orb_true_iff in E as E'. rewrite !bool_decide_eq_true in E'.
    split_and!; [|done|done|].
    + intros c (? & ? & ?)%H1. split; [by right|done].
    + intros c [->|Hc]%elem_of_cons; [tauto|by apply H4].
  - apply orb_false_iff in E as [Eh%bool_decide_eq_false Es%bool_decide_eq_false].
    destruct (IH ({[rcHub x]} ∪ U) ({[rcSpoke x]} ∪ V)) as (H1 & H2 & H3 & H4). split_and!.
    + intros c [->|(Hc & ? & ?)%H1]%elem_of_cons; [split; [left|done]|split; [by right|set_solver]].
    + rewrite fmap_cons. apply NoDup_cons. split; [|done]. intros (c & Hc & (_ & Hn & _)%H1)%list_elem_of_fmap. set_solver.
    + rewrite fmap_cons. apply NoDup_cons. split; [|done]. intros (c & Hc & (_ & _ & Hn)%H1)%list_elem_of_fmap. set_solver.
    + intros c [->|Hc]%elem_of_cons; [left; by left|]. eapply Forall_forall in Hx; [|done].
      destruct (H4 c Hc) as [?|[[Hu|?]%elem_of_union|[[Hu|?]%elem_of_union|(d & ? & ? & ?)]]]; [by left; right| |tauto| |tauto|].
      * apply elem_of_singleton in Hu. do 3 right. exists x. split; [by left|auto].
      * apply elem_of_singleton in Hu. do 3 right. exists x. split; [by left|auto].
      * do 3 right. exists d. split; [by right|auto].
Qed.

Lemma elem_of_dedupeSorted p l : p ∈ dedupeSorted l ↔ p ∈ l.
Proof. unfold dedupeSorted. by rewrite elem_of_sort_strings, elem_of_remove_dups. Qed.
Lemma NoDup_dedupeSorted l : NoDup (dedupeSorted l).
Proof. unfold dedupeSorted. rewrite sort_strings_perm. apply NoDup_remove_dups. Qed.

(** A coercion for exactly the fields that changed their scalar type in place; the
    renames use each field once, pair only fields that are alike, and leave no pair of
    them both of whose fields would do better together. *)
Lemma suggestions_match sr coerced renamed : short_names → suggested hubLeaves spokeLeaves sr = (coerced, renamed) →
  let hubPaths := fcUncoveredHub (srUncovered sr) in
  let spokePaths := fcUncoveredSpoke (srUncovered sr) in
  (∀ p, p ∈ coerced ↔ p ∈ hubPaths ∧ coercible p = true) ∧
  NoDup (coerced ++ (rcHub <$> renamed)) ∧ NoDup (coerced ++ (rcSpoke <$> renamed)) ∧
  (∀ c, c ∈ renamed → rcHub c ∈ hubPaths ∧ rcSpoke c ∈ spokePaths ∧ alike (rcHub c) (rcSpoke c)) ∧
  (∀ c, rcHub c ∈ hubPaths → rcSpoke c ∈ spokePaths → rename_candidate (rcHub c) (rcSpoke c) = Some c →
     c ∈ renamed ∨ rcHub c ∈ coerced ∨ rcSpoke c ∈ coerced ∨
     ∃ d, d ∈ renamed ∧ (rcHub d = rcHub c ∨ rcSpoke d = rcSpoke c) ∧ candidate_less d c = true).
Proof.
  intros Hshort [= <- <-] hubPaths spokePaths. set (coerced := filter _ _).
  set (cands := renameCandidates (dedupeSorted hubPaths) (dedupeSorted spokePaths)).
  destruct (renameCandidates_sorted (dedupeSorted hubPaths) (dedupeSorted spokePaths) Hshort) as [Hs Hn].
  destruct (take_candidates_spec cands Hs (list_to_set coerced) (list_to_set coerced)) as (H1 & H2 & H3 & H4).
  assert (NoDup coerced) as Hc by (apply NoDup_filter, NoDup_dedupeSorted).
  split_and!.
  - intros p. unfold coerced. rewrite list_elem_of_filter, elem_of_dedupeSorted. tauto.
  - apply NoDup_app. split_and!; [done| |done]. intros p Hp (c & -> & (_ & Hh & _)%H1)%list_elem_of_fmap. set_solver.
  - apply NoDup_app. split_and!; [done| |done]. intros p Hp (c & -> & (_ & _ & Hh)%H1)%list_elem_of_fmap. set_solver.
  - intros c (Hc' & _)%H1. apply elem_of_renameCandidates in Hc' as (Hh & Hsp & [Ha _]%rename_candidate_spec).
    by rewrite elem_of_dedupeSorted in Hh, Hsp.
  - intros c Hh Hsp Hr.
    assert (c ∈ cands) as Hin by (apply elem_of_renameCandidates; by rewrite !elem_of_dedupeSorted).
    destruct (H4 c Hin) as [?|[?|[?|(d & Hd & Hshare & Hle)]]]; [by left|set_solver|set_solver|].
    destruct Hle as [->|Hle]; [by left|]. destruct (decide (candidate_less d c = true)) as [Hlt|Hnlt].
    { do 3 right. by exists d. }
    left. apply not_true_is_false in Hnlt. pose proof (H1 d Hd) as (Hd' & _).
    rewrite candidate_less_false in Hle, Hnlt by (by apply Hn).
    destruct (precedes_trichotomy c d) as [|[|(_ & E1 & E2)]]; [done|done|].
    apply elem_of_renameCandidates in Hd' as (_ & _ & Hd'). rewrite <-E1, <-E2, Hr in Hd'. by injection Hd' as ->.
Qed.
End matching.

(** ** A diff is exact *)

Lemma elem_of_added from to x : x ∈ (stringSetDiff from to).1 ↔ x ∈ to ∧ x ∉ from.
Proof. unfold stringSetDiff. cbn [fst]. rewrite elem_of_sorted_keys. set_solver. Qed.
Lemma elem_of_removed from to x : x ∈ (stringSetDiff from to).2 ↔ x ∈ from ∧ x ∉ to.
Proof. unfold stringSetDiff. cbn [snd]. rewrite elem_of_sorted_keys. set_solver. Qed.
Lemma stringSetDiff_nil from to :
  length (stringSetDiff from to).1 = 0%nat ∧ length (stringSetDiff from to).2 = 0%nat ↔ ∀ x, x ∈ from ↔ x ∈ to.
Proof.
  rewrite !length_zero_iff_nil. split.
  - intros [H1 H2] x. split; intros Hx; apply dec_stable; intros Hn; apply (not_elem_of_nil x).
    + rewrite <-H2. by apply elem_of_removed.
    + rewrite <-H1. by apply elem_of_added.
  - intros H. split; apply elem_of_nil_inv; intros x; rewrite ?elem_of_added, ?elem_of_removed, H; tauto.
Qed.

Lemma filter_whole {A} (P : A → Prop) `{∀ x, Decision (P x)} (l : list A) : (∀ x, x ∈ l → P x) → filter P l = l.
Proof.
  induction l as [|x l IH]; intros Hl; [done|]. rewrite filter_cons_True by (apply Hl; by left).
  f_equal. apply IH. intros; apply Hl; by right.
Qed.

(** How many rules claim the same. *)
Definition claims_at (k : string) (l : list RuleClaim) : nat := length (filter (λ c, claimKey c = k) l).
Definition claim_number (m : gmap string (Z * RuleClaim)) (k : string) : Z := default 0 (fst <$> m !! k).
Definition keyed (m : gmap string (Z * RuleClaim)) : Prop := ∀ k n c, m !! k = Some (n, c) → claimKey c = k.
Lemma foldl_count_claim n l : ∀ m, keyed m →
  keyed (foldl (count_claim n) m l) ∧
  ∀ k, claim_number (foldl (count_claim n) m l) k = claim_number m k + n * Z.of_nat (claims_at k l).
Proof.
  induction l as [|c l IH]; intros m Hm; cbn [foldl]; [split; [done|]; intros k; unfold claims_at; cbn; lia|].
  destruct (IH (count_claim n m c)) as [Hk Hn].
  { intros k' n' c'. unfold count_claim. rewrite lookup_insert_Some. naive_solver. }
  split; [done|]. intros k. rewrite Hn. unfold claims_at, count_claim, claim_number. rewrite filter_cons.
  destruct (decide (claimKey c = k)) as [<-|Hne]; [rewrite lookup_insert_eq|rewrite lookup_insert_ne by done]; cbn [fmap option_fmap option_map from_option id fst length].
  - rewrite Nat2Z.inj_succ, Z.mul_succ_r. lia.
  - done.
Qed.
Lemma claim_counts_spec from to :
  keyed (claim_counts from to) ∧
  ∀ k, claim_number (claim_counts from to) k = Z.of_nat (claims_at k to) - Z.of_nat (claims_at k from).
Proof.
  unfold claim_counts. destruct (foldl_count_claim (-1) from ∅) as [Hk Hn]; [by intros k n c ?%lookup_empty_Some|].
  destruct (foldl_count_claim 1 to _ Hk) as [Hk' Hn']. split; [done|]. intros k. rewrite Hn', Hn. unfold claim_number at 1.
  rewrite lookup_empty. cbn. lia.
Qed.
Lemma claims_at_bind (f : string → list RuleClaim) k l : NoDup l → (∀ k' c, c ∈ f k' → claimKey c = k') →
  claims_at k (l ≫= f) = if decide (k ∈ l) then length (f k) else 0%nat.
Proof.
  intros Hl Hf. assert (∀ k', claims_at k (f k') = if decide (k' = k) then length (f k) else 0%nat) as Hat.
  { intros k'. unfold claims_at. case_decide as Hk; [subst k'|].
    - f_equal. apply filter_whole, Hf.
    - apply length_zero_iff_nil, elem_of_nil_inv. intros c. rewrite list_elem_of_filter. intros [<- Hc]. by apply Hk, eq_sym, Hf. }
  induction Hl as [|k' l Hn Hl IH]; [done|]. rewrite bind_cons. unfold claims_at. rewrite filter_app, length_app.
  fold (claims_at k (f k')). fold (claims_at k (l ≫= f)). rewrite Hat, IH.
  repeat case_decide; try lia; exfalso; rewrite elem_of_cons in *; naive_solver.
Qed.

Lemma sortedKeys_NoDup {V} (m : gmap string V) : NoDup (sortedKeys m).
Proof. unfold sortedKeys, sorted_keys. rewrite sort_strings_perm. apply NoDup_elements. Qed.
Lemma elem_of_sortedKeys {V} (m : gmap string V) k : k ∈ sortedKeys m ↔ is_Some (m !! k).
Proof. unfold sortedKeys. by rewrite elem_of_sorted_keys, elem_of_dom. Qed.
(** As many copies of a claim are added as [to] has more of it, and removed as it has
    fewer. *)
Lemma claimSetDiff_counts from to k :
  claims_at k (claimSetDiff from to).1 = (claims_at k to - claims_at k from)%nat ∧
  claims_at k (claimSetDiff from to).2 = (claims_at k from - claims_at k to)%nat.
Proof.
  destruct (claim_counts_spec from to) as [Hk Hn]. specialize (Hn k). unfold claim_number in Hn. unfold claimSetDiff. cbn [fst snd].
  assert (∀ (f : Z → Z) k' c, c ∈ match claim_counts from to !! k' with Some (n, c) => replicate (Z.to_nat (f n)) c | None => [] end →
    claimKey c = k') as Hf.
  { intros f k' c. destruct (claim_counts from to !! k') as [[n c']|] eqn:E; [|by intros ?%not_elem_of_nil].
    intros [-> _]%elem_of_replicate. by eapply Hk. }
  rewrite !claims_at_bind by (first [apply sortedKeys_NoDup|apply Hf]).
  destruct (claim_counts from to !! k) as [[n c]|] eqn:E; cbn in Hn.
  - rewrite !decide_True by (apply elem_of_sortedKeys; by rewrite E). rewrite !length_replicate. lia.
  - rewrite !decide_False by (rewrite elem_of_sortedKeys, E; by intros [? [=]]). lia.
Qed.
Lemma no_claims l : length l = 0%nat ↔ ∀ k, claims_at k l = 0%nat.
Proof.
  rewrite length_zero_iff_nil. split; [by intros ->|]. intros H. apply elem_of_nil_inv. intros c Hc.
  specialize (H (claimKey c)). unfold claims_at in H. apply length_zero_iff_nil in H. apply (not_elem_of_nil c).
  rewrite <-H. by apply list_elem_of_filter.
Qed.

Section exact.
Context (text : message → string).
Notation texts ds := (diagMessages text ds).

(** Two reports on a spoke that say the same. *)
Record agree (f t : SpokeReport) : Prop := {
  ag_hub p : p ∈ fcUncoveredHub (srUncovered f) ↔ p ∈ fcUncoveredHub (srUncovered t);
  ag_spoke p : p ∈ fcUncoveredSpoke (srUncovered f) ↔ p ∈ fcUncoveredSpoke (srUncovered t);
  ag_claims k : claims_at k (ruleClaims f) = claims_at k (ruleClaims t);
  ag_to_spoke : lvHubToSpoke (srLossless f) = lvHubToSpoke (srLossless t);
  ag_to_hub : lvSpokeToHub (srLossless f) = lvSpokeToHub (srLossless t);
  ag_errors x : x ∈ texts (srErrors f) ↔ x ∈ texts (srErrors t);
  ag_warnings x : x ∈ texts (srWarnings f) ↔ x ∈ texts (srWarnings t) }.

Lemma lossless_change_nil d a b : length (lossless_change d a b) = 0%nat ↔ a = b.
Proof. unfold lossless_change. by case_bool_decide. Qed.
Lemma hasDeltas_agree v f t : hasDeltas (diffSpokeReports text v f t) = false ↔ agree f t.
Proof.
  unfold hasDeltas. rewrite Nat.ltb_ge, Nat.le_0_r. unfold diffSpokeReports.
  cbn [sdUncoveredHubAdded sdUncoveredHubRemoved sdUncoveredSpokeAdded sdUncoveredSpokeRemoved sdRuleClaimsAdded sdRuleClaimsRemoved
       sdLosslessChanges sdErrorsAdded sdErrorsRemoved sdWarningsAdded sdWarningsRemoved].
  rewrite !Nat.eq_add_0, length_app, Nat.eq_add_0, !lossless_change_nil, !no_claims.
  pose proof (stringSetDiff_nil (fcUncoveredHub (srUncovered f)) (fcUncoveredHub (srUncovered t))) as H1.
  pose proof (stringSetDiff_nil (fcUncoveredSpoke (srUncovered f)) (fcUncoveredSpoke (srUncovered t))) as H2.
  pose proof (stringSetDiff_nil (texts (srErrors f)) (texts (srErrors t))) as H3.
  pose proof (stringSetDiff_nil (texts (srWarnings f)) (texts (srWarnings t))) as H4.
  assert ((∀ k, claims_at k (claimSetDiff (ruleClaims f) (ruleClaims t)).1 = 0%nat) ∧
          (∀ k, claims_at k (claimSetDiff (ruleClaims f) (ruleClaims t)).2 = 0%nat) ↔
          ∀ k, claims_at k (ruleClaims f) = claims_at k (ruleClaims t)) as H5.
  { split; [intros [Ha Hr] k; specialize (Ha k); specialize (Hr k)|intros H; split; intros k; specialize (H k)];
      destruct (claimSetDiff_counts (ruleClaims f) (ruleClaims t) k) as [E1 E2]; lia. }
  split; [|intros []; tauto]. intros H. split; tauto.
Qed.

(** What an analysis reports on a spoke. *)
Definition report_on (r : AnalyzeReport) (v : string) : option SpokeReport := last (filter (λ sr, srVersion sr = v) (arSpokeReports r)).
Lemma spokeReportsByVersion_lookup r v : spokeReportsByVersion r !! v = report_on r v.
Proof. unfold spokeReportsByVersion, report_on. rewrite foldl_insert_last, lookup_empty. by destruct (last _). Qed.
Lemma elem_of_only_in a b v : v ∈ only_in a b ↔ is_Some (a !! v) ∧ b !! v = None.
Proof. unfold only_in. rewrite list_elem_of_filter, elem_of_sortedKeys. tauto. Qed.
Lemma elem_of_spoke_diffs from to sd : sd ∈ spoke_diffs text from to ↔
  ∃ v f t, from !! v = Some f ∧ to !! v = Some t ∧ sd = diffSpokeReports text v f t ∧ ¬ agree f t.
Proof.
  unfold spoke_diffs. rewrite list_elem_of_omap. split.
  - intros (v & _ & (f & Hf & (t & Ht & H)%bind_Some)%bind_Some). cbv zeta in H.
    destruct (hasDeltas _) eqn:E; [|done]. injection H as <-. exists v, f, t. split_and!; [done..|].
    by rewrite <-(hasDeltas_agree v), E.
  - intros (v & f & t & Hf & Ht & -> & Hn). exists v. split; [apply elem_of_sortedKeys; by eexists|].
    rewrite Hf, Ht. cbn [mbind option_bind]. cbv zeta. rewrite <-(hasDeltas_agree v) in Hn. destruct (hasDeltas _); [done|by destruct Hn].
Qed.
End exact.
