(* ===== verification/Fixtures.v ===== *)
(** Concrete inputs for the witnesses: third-party code as simple functions, two
    versions of a small resource, a rule set between them, an object.

    Only witnesses use this file; no theorem depends on these choices. *)
From Stdlib Require Import Ascii.
From S2P Require Import Prelude Float64 Value Json Duration Path Schema Rules Coerce Passthrough Ops Convert Diagnostics Compile CompileTheory EndToEnd Normalize Platform Required Analyze.

(** No pattern matches, no template or CEL program runs, every label is valid; a
    quantity is an integer and prints as one. *)
Definition fixture_externs : Externs := {|
  FindStringSubmatch := λ _ _, None;
  SubexpNames := λ _, [];
  template_Execute := λ _ _, Err "no templates";
  Patch_Apply := λ _ s, Ok s;
  cel_result := unit;
  cel_Eval := λ _ _, Err "no CEL";
  ConvertToNative := λ _, Err "no CEL";
  IsQualifiedName := λ _, [];
  IsValidLabelValue := λ _, [];
  quantity := Z;
  ParseQuantity := λ _, Err "no quantities";
  MilliValue := λ q, q;
  NewMilliQuantity := λ z, z;
  Quantity_String := λ z, pretty z;
  float64_to_int64_out_of_range := λ _, (- 2 ^ 63)%Z;
|}.

Definition fixture_compile_externs : CompileExterns := {|
  regexp_Compile := λ _, Ok ();
  template_Parse := λ _, Ok ();
  cel_Compile := λ _, Ok ();
  DecodePatch := λ _, Ok ();
|}.

(** ** A resource in two versions *)

Definition string_field : JSONSchemaProps := scalar_schema "string".
Definition integer_field : JSONSchemaProps := scalar_schema "integer".

(** [spec.size], [spec.replicas] in the hub; [spec.sizeName], [spec.replicas] in the spoke. *)
Definition hub_schema : JSONSchemaProps :=
  object_schema [] {["spec" := object_schema [] {["size" := string_field; "replicas" := integer_field]}]}.
Definition spoke_schema : JSONSchemaProps :=
  object_schema [] {["spec" := object_schema [] {["sizeName" := string_field; "replicas" := integer_field]}]}.

Definition rename_rule : Rule :=
  mkRule StrategyFieldRename
    (PFieldRename {| frHubPath := ["spec"; "size"]; frSpokePath := ["spec"; "sizeName"] |}) false "" 0 None.
Definition demo_rules : RuleSet :=
  {| rsHubVersion := "v2"; rsSpokeVersion := "v1"; rsRules := [rename_rule];
     rsUnmappedFieldPolicy := UnmappedFieldPolicyError |}.

(** An object with a declared and an undeclared field. *)
Definition demo_object : obj :=
  {["kind" := VStr "App"; "metadata" := VObj {["name" := VStr "a"]};
    "spec" := VObj {["size" := VStr "big"; "extra" := VBool true]}]}.

Definition hub_version : VersionSchema :=
  {| vsName := "v2"; vsSchema := Some hub_schema; vsServed := true; vsStorage := true |}.
Definition spoke_version : VersionSchema :=
  {| vsName := "v1"; vsSchema := Some spoke_schema; vsServed := true; vsStorage := false |}.

(** The platform owns [spec.managed], which neither version declares. *)
Definition demo_platform : PlatformInjectedPaths :=
  {| pjPlatform := "platform"; pjPaths := [["spec"; "managed"]]; pjUncertain := false; pjUncertainReason := "" |}.
Definition demo_source : SchemaSource :=
  {| ssVersions := Ok [hub_version; spoke_version];
     ssDescribe := {| rdKind := "CRD"; rdName := "apps"; rdGeneration := 3 |};
     ssPlatform := Some demo_platform |}.
Definition demo_input : AnalyzeInput :=
  {| aiSource := demo_source; aiHubVersion := "v2"; aiSpokes := [demo_rules] |}.

(** ** The instances, and what the demo compiles to *)

#[local] Existing Instances canonical_order fixture_externs fixture_compile_externs.

Definition demo_build : build :=
  resolveAndBuildOps [rename_rule] hub_schema spoke_schema UnmappedFieldPolicyError 0.
Definition demo_plan : Plan := plan_of "v2" "v1" demo_build.
Definition demo_tree : knownTree :=
  mergeKnownTrees (buildKnownTree (Some hub_schema)) (buildKnownTree (Some spoke_schema)).
Definition demo_report : option SpokeReport :=
  match Analyze 5 demo_input with Ok r => head (arSpokeReports r) | Err _ => None end.

(** ** Deciding the hypotheses of the round trip *)

Definition plain_leaf (l : LeafField) : bool :=
  bool_decide (Forall (λ s, has_char "."%char s = false) (lfPath l)) &&
  negb (bool_decide (lfPath l = [""])) && negb (bool_decide (lfPath l = [])) &&
  bool_decide (unresolvedConstruct (lfSchema l) = "").

Lemma plain_schema_check (RO : RangeOrder) s : forallb plain_leaf (flattenSchema s) = true → plain_schema s.
Proof.
  intros H l Hl. rewrite forallb_forall in H. apply list_elem_of_In, H in Hl. unfold plain_leaf in Hl.
  rewrite !andb_true_iff, !negb_true_iff, !bool_decide_eq_true, !bool_decide_eq_false in Hl.
  unfold plain_path. tauto.
Qed.
