(* ===== verification/CompilerProperties.v ===== *)
(** Properties of the compiler and the analyzer: what an error-free compilation, and
    a plan in a report, stand for. *)
From S2P Require Import Prelude Float64 Value Json Duration Path Schema Normalize NormalizeTheory Rules Coerce Passthrough Ops Convert OpsTheory RoundTrip Diagnostics Compile CompileTheory PlanTheory EndToEnd Platform Required Analyze AnalyzeTheory Fixtures.

Section compiler_properties.
Context `{RO : RangeOrder} `{EX : Externs} `{CX : CompileExterns}.

(** C1. The flagship round trip.  Let [Compile] accept, with no error diagnostic, a
    rule set made only of field renames without a [when] clause, each from a hub leaf
    to a spoke leaf and neither in [kind] nor in [metadata]; let the policy for
    unmapped fields not be [Warn], and the leaves of both schemas be named without
    dots and be none of [$ref] and [allOf].  Then for every object that has metadata
    both conversions succeed, and going from the hub version to the spoke version and
    back returns every declared hub leaf, and every field neither schema declares,
    unchanged: a leaf present comes back with its value, a leaf absent stays absent. *)
Theorem compiled_renames_round_trip fuel rules renames hub spoke hub' spoke' plan ds o :
  Compile fuel rules (Some hub) (Some spoke) = Ok (plan, ds) → no_errors ds →
  NormalizeSchema fuel (Some hub) = Ok (Some hub') → NormalizeSchema fuel (Some spoke) = Ok (Some spoke') →
  Forall2 (λ r hs, is_rename r = Some hs) (rsRules rules) renames → leaf_renames hub' spoke' renames →
  plain_schema hub' → plain_schema spoke' →
  effectivePolicy (rsUnmappedFieldPolicy rules) ≠ UnmappedFieldPolicyWarn →
  is_Some (o !! "metadata") →
  ∃ s o', Convert (Some plan) HubToSpoke o = Ok s ∧ Convert (Some plan) SpokeToHub s = Ok o' ∧
    (∀ l, l ∈ flattenSchema hub' → getValue o' (lfPath l) = getValue o (lfPath l)) ∧
    (∀ p, unknown_at (mergeKnownTrees (buildKnownTree (Some hub')) (buildKnownTree (Some spoke'))) p →
       getValue o' p = getValue o p).
Proof.
  intros Hc Hn Hh Hs Hr Hl Hph Hps Hp Hm. unfold Compile in Hc. rewrite Hh, Hs in Hc. cbn in Hc.
  injection Hc as <- <-. by eapply renames_roundtrip_all.
Qed.


(** C4. No leaf is forgotten.  Whatever the rules and the policy, every leaf of the
    hub and of the spoke schema whose dotted text spells no other hub leaf and no other
    path the rules own (always so for names without dots) is, after the build, a path
    some rule owns, or copied by the identity operation for that very path in both
    directions, or reported by path and side as uncovered: an error, or a warning
    under the [Warn] policy.  A path a rule owns is one it names itself or, for a rule
    that takes a whole object or map, a leaf declared below it. *)
Theorem every_leaf_accounted rules hub spoke pol depth sd l :
  l ∈ flattenSchema (schema_of sd hub spoke) → unambiguous rules hub spoke sd (lfPath l) →
  let b := resolveAndBuildOps rules hub spoke pol depth in
  leaf_owned rules hub spoke sd (lfPath l) ∨
  (identityOp (lfPath l) ∈ bH2S b ∧ identityOp (lfPath l) ∈ bS2H b) ∨
  uncoveredFieldDiag (uncovered_severity pol) sd (path_string (lfPath l)) (lfConstruct l) ∈ bDiags b.
Proof. apply every_leaf_handled. Qed.


(** C12. Losses are acknowledged.  An error-free build has one result per rule, in
    order; a rule that does not acknowledge a loss has a verdict without loss; and
    the build is lossless exactly when every rule is. *)
Theorem losses_are_acknowledged rules hub spoke pol depth :
  no_errors (bDiags (resolveAndBuildOps rules hub spoke pol depth)) →
  let b := resolveAndBuildOps rules hub spoke pol depth in
  Forall2 (λ r rr, rAcknowledgeLossy r = false → lossless (rrLossless rr) = true) rules (bResults b) ∧
  (lossless (bVerdict b) = true ↔ ∀ rr, rr ∈ bResults b → lossless (rrLossless rr) = true).
Proof.
  intros Hn b. destruct (build_results _ _ _ _ _ Hn) as [Hv Hf]. split; [done|].
  fold b in Hv. rewrite Hv, foldl_verdict_lossless. cbn. rewrite forallb_forall. setoid_rewrite <-list_elem_of_In.
  setoid_rewrite list_elem_of_fmap. naive_solver.
Qed.

(** Nesting is bounded.  In an error-free build no rule nests [forEach] deeper
    than the limit allows from where it stands, through [branchMap] included. *)
Theorem foreach_nesting_bounded rules hub spoke pol depth r :
  no_errors (bDiags (resolveAndBuildOps rules hub spoke pol depth)) → r ∈ rules →
  foreach_depth r ≤ MaxForEachDepth - depth.
Proof.
  intros Hn Hr. destruct (error_free_resolver _ _ _ _ _ _ Hn Hr) as (i & s & Hs).
  by apply resolve_rule_depth in Hs.
Qed.

(** C14. An accepted rename set completes every object.  In one direction, let the
    build and the required-field check of a set of field renames, with or without
    [when] clauses, report no error; let the policy for unmapped fields not be [Warn],
    the rules be numbered by position, and each go from a hub leaf to a spoke leaf,
    neither in [kind] nor in [metadata]; and let the leaves of both schemas be named
    without dots and be none of [$ref] and [allOf].  Then every object that holds each
    source leaf the object around it requires converts, and the result holds every
    leaf without a default that it must: one required by the object it is in, each
    object around which is required in turn or has a renamed field written below it. *)
Theorem accepted_renames_complete_objects dir rules xs hub spoke pol hv sv o :
  let b := resolveAndBuildOps rules hub spoke pol 0 in
  let src := schema_of (src_side dir) hub spoke in
  let dest := schema_of (dest_side dir) hub spoke in
  Forall2 (λ r x, rStrategy r = StrategyFieldRename ∧ is_renaming r = Some x) rules xs → numbered rules →
  leaf_renames hub spoke xs.*1 → plain_schema hub → plain_schema spoke → pol ≠ UnmappedFieldPolicyWarn →
  no_errors (bDiags b) →
  no_errors (analyzeRequiredFields dest src rules (bResults b) (side_name (dest_side dir))) →
  (∀ l, l ∈ flattenSchema src → required_in src (lfPath l) → is_Some (getValue o (lfPath l))) →
  ∃ o', Convert (Some {| plHubVersion := hv; plSpokeVersion := sv; plHubToSpoke := bH2S b; plSpokeToHub := bS2H b |})
      dir o = Ok o' ∧
    ∀ l, l ∈ flattenSchema dest → sDefault (lfSchema l) = None →
      must_exist dest (written_fields dir xs) (lfPath l) → is_Some (getValue o' (lfPath l)).
Proof. apply required_check_sound. Qed.

(** The check, leaf by leaf.  It reports nothing about a direction if and only if
    every field it collects is guaranteed: it has a default, or no rule writes it and
    the source requires the same path, or some rule that writes it has the verdict
    that it always does. *)
Lemma required_fields_silent_iff_guaranteed dest src rules results side :
  analyzeRequiredFields dest src rules results side = [] ↔
  ∀ leaf, leaf ∈ unconditionallyRequiredLeaves dest (concat (dest_paths side <$> results)) →
    guaranteed rules results (required_paths src) side leaf.
Proof. apply analyzeRequiredFields_silent. Qed.

(** What a rule guarantees.  A rule always produces its destination if and only if
    it has no [when] clause, its strategy's output can be predicted, and it either
    produces the field by itself (a constant, a default) or reads only fields the
    source requires. *)
Theorem rule_guarantee_exact rule rr src side :
  (verdictForRule rule rr src side).1 = satisfiedAlways ↔
  rWhen rule = None ∧ rrStrategy rr ∉ unprovableStrategies ∧
  (rrStrategy rr = StrategyConstant ∨ rrStrategy rr = StrategyDefaultValue ∨
   ∀ s, s ∈ src_paths side rr → s ∈ src).
Proof. apply verdictForRule_always. Qed.

(** Rules that meet the platform's fields are reported, and no others: a rule's path
    has a diagnostic if and only if it lies at or below a root the platform injects,
    and it is an error exactly when the injected set is certain. *)
Theorem injected_targets_reported_exactly p results rr raw :
  rr ∈ results → raw ∈ rrHubPaths rr ∨ raw ∈ rrSpokePaths rr →
  (∃ root, root ∈ pjPaths p ∧ root ≠ [] ∧ root `prefix_of` ParsePath raw) ↔
  ∃ d, d ∈ checkRuleTargets p results ∧ dFieldPath d = raw ∧ dRuleIndex d = rrIndex rr ∧
    is_error d = negb (pjUncertain p).
Proof.
  intros Hrr Hraw. rewrite <-owns_spec. split.
  - intros Ho. assert (∃ side, raw ∈ (if bool_decide (side = "hub") then rrHubPaths rr else rrSpokePaths rr) ∧
      (side = "hub" ∨ side = "spoke")) as (side & Hin & Hside).
    { destruct Hraw; [exists "hub"|exists "spoke"]; cbn; auto. }
    destruct (target_diags_owned p rr side raw Ho) as (d & Hd & Hf & Hi & He). exists d. split_and!; [|done..].
    apply elem_of_checkRuleTargets. exists rr, raw. split; [done|]. destruct Hside as [-> | ->]; [left|right]; done.
  - intros (d & Hd & Hf & _). apply elem_of_checkRuleTargets in Hd as (rr' & raw' & _ & Hd).
    assert (∃ side, d ∈ target_diags p rr' side raw') as [side Hside] by (destruct Hd as [[_ ?]|[_ ?]]; eauto).
    apply target_diags_inv in Hside as [Ho Hp]. by rewrite <-Hf, Hp.
Qed.

(** C39. Analysis terminates.  For every input there is a fuel from which on [Analyze]
    gives one answer, a report or a real error, never an exhausted fuel. *)
Theorem analysis_terminates i :
  ∃ fuel r, (∀ v, r ≠ Err (ANormalize (EVersion v OutOfFuel))) ∧
    ∀ fuel', fuel ≤ fuel' → Analyze fuel' i = r.
Proof.
  unfold Analyze. destruct (ssVersions (aiSource i)) as [raw|e]; cbn; [|by exists 0, (Err (AReadVersions e))].
  destruct (NormalizedVersions_stable raw) as (F & r & Hr & H). exists F. eexists. split.
  2: { intros fuel Hf. rewrite (H fuel Hf). reflexivity. }
  intros v. specialize (Hr v). destruct r as [versions|e]; cbn; [|congruence].
  destruct (versions_by_name versions !! _) as [hub|]; [|done]. by destruct (negb _).
Qed.
End compiler_properties.

(** ** Witnesses *)

#[local] Existing Instances canonical_order fixture_externs fixture_compile_externs.

Lemma compiled_renames_round_trip_witness :
  ∃ s o', Convert (Some demo_plan) HubToSpoke demo_object = Ok s ∧ Convert (Some demo_plan) SpokeToHub s = Ok o' ∧
    (∀ l, l ∈ flattenSchema hub_schema → getValue o' (lfPath l) = getValue demo_object (lfPath l)) ∧
    (∀ p, unknown_at demo_tree p → getValue o' p = getValue demo_object p).
Proof.
  apply (compiled_renames_round_trip 5 demo_rules [(["spec"; "size"], ["spec"; "sizeName"])] hub_schema spoke_schema
    hub_schema spoke_schema demo_plan []).
  - by vm_compute.
  - by constructor.
  - by vm_compute.
  - by vm_compute.
  - by repeat constructor.
  - constructor; [|constructor]. split_and!; by apply (bool_decide_unpack _); vm_compute.
  - apply plain_schema_check. by vm_compute.
  - apply plain_schema_check. by vm_compute.
  - by vm_compute.
  - by eexists.
Defined.


(** An uncovered spoke leaf: without the rename, [spec.sizeName] is reported. *)
Lemma every_leaf_accounted_witness :
  let l := {| lfPath := ["spec"; "sizeName"]; lfKind := FieldKindString; lfSchema := string_field;
              lfOpaque := false; lfConstruct := ""; lfRequired := false |} in
  let b := resolveAndBuildOps [] hub_schema spoke_schema UnmappedFieldPolicyError 0 in
  leaf_owned [] hub_schema spoke_schema Spoke ["spec"; "sizeName"] ∨
  (identityOp ["spec"; "sizeName"] ∈ bH2S b ∧ identityOp ["spec"; "sizeName"] ∈ bS2H b) ∨
  uncoveredFieldDiag SeverityError Spoke "spec.sizeName" "" ∈ bDiags b.
Proof.
  intros l b. apply (every_leaf_accounted [] hub_schema spoke_schema UnmappedFieldPolicyError 0 Spoke l).
  - vm_compute. by repeat constructor.
  - apply dotless_unambiguous; [by split; [repeat constructor|]| |by intros ?? []%not_elem_of_nil].
    apply Forall_forall. vm_compute. repeat constructor; by intros [=].
Defined.



(** A default value loses the field going back; the rule acknowledges it. *)
Definition default_rule : Rule :=
  mkRule StrategyDefaultValue
    (PDefaultValue {| dvPath := ["spec"; "sizeName"]; dvExistsOn := SideSpoke; dvDefault := VStr "s" |})
    true "" 0 None.
Definition delete_rule : Rule :=
  mkRule StrategyDelete (PDelete {| dlPath := ["spec"; "size"]; dlExistsOn := SideHub |}) true "" 0 None.

Lemma losses_are_acknowledged_witness :
  let b := resolveAndBuildOps [default_rule; delete_rule] hub_schema spoke_schema UnmappedFieldPolicyError 0 in
  Forall2 (λ r rr, rAcknowledgeLossy r = false → lossless (rrLossless rr) = true)
    [default_rule; delete_rule] (bResults b) ∧
  (lossless (bVerdict b) = true ↔ ∀ rr, rr ∈ bResults b → lossless (rrLossless rr) = true).
Proof.
  apply (losses_are_acknowledged [default_rule; delete_rule] hub_schema spoke_schema UnmappedFieldPolicyError 0).
  vm_compute. constructor.
Defined.

(** A [forEach] over one list, in both versions. *)
Definition list_schema : JSONSchemaProps :=
  object_schema [] {["items" := array_schema (object_schema [] {["name" := string_field]})]}.
Definition foreach_rule : Rule :=
  mkRule StrategyForEach (PForEach ["items"] ["items"] []) false "" 0 None.

Lemma foreach_nesting_bounded_witness :
  no_errors (bDiags (resolveAndBuildOps [foreach_rule] list_schema list_schema UnmappedFieldPolicyError 0)) ∧
  foreach_depth foreach_rule ≤ 2.
Proof.
  assert (no_errors (bDiags (resolveAndBuildOps [foreach_rule] list_schema list_schema UnmappedFieldPolicyError 0)))
    as Hn by (vm_compute; constructor).
  split; [exact Hn|]. apply (foreach_nesting_bounded _ _ _ _ 0 foreach_rule Hn). left.
Defined.

Definition demo_result : RuleResult :=
  {| rrIndex := 0; rrStrategy := StrategyFieldRename; rrHubPaths := ["spec.managed.x"]; rrSpokePaths := [];
     rrLossless := lossless_both; rrErrors := []; rrWarnings := [] |}.

Lemma injected_targets_reported_exactly_witness :
  (∃ root, root ∈ pjPaths demo_platform ∧ root ≠ [] ∧ root `prefix_of` ParsePath "spec.managed.x") ↔
  ∃ d, d ∈ checkRuleTargets demo_platform [demo_result] ∧ dFieldPath d = "spec.managed.x" ∧ dRuleIndex d = 0%Z ∧
    is_error d = true.
Proof.
  apply (injected_targets_reported_exactly demo_platform [demo_result] demo_result "spec.managed.x").
  - left.
  - left. left.
Defined.

(** [spec.size] is required and always renamed; [spec.note] is renamed when there
    are three replicas. *)
Definition sized_hub : JSONSchemaProps :=
  object_schema [] {["spec" := object_schema ["size"] {["size" := string_field; "note" := string_field; "replicas" := integer_field]}]}.
Definition sized_spec : JSONSchemaProps :=
  object_schema ["sizeName"] {["sizeName" := string_field; "remark" := string_field; "replicas" := integer_field]}.
Definition sized_spoke : JSONSchemaProps := object_schema [] {["spec" := sized_spec]}.
Definition sized_rules : list Rule :=
  [rename_rule;
   mkRule StrategyFieldRename (PFieldRename {| frHubPath := ["spec"; "note"]; frSpokePath := ["spec"; "remark"] |})
     true "only for three" 1 (Some {| whPath := ["spec"; "replicas"]; whEquals := VInt Int64 3 |})].
Definition sized_renames : list renaming :=
  [((["spec"; "size"], ["spec"; "sizeName"]), None);
   ((["spec"; "note"], ["spec"; "remark"]), Some {| whPath := ["spec"; "replicas"]; whEquals := VInt Int64 3 |})].

Lemma accepted_renames_complete_objects_witness :
  must_exist sized_spoke (written_fields HubToSpoke sized_renames) ["spec"; "sizeName"] ∧
  let b := resolveAndBuildOps sized_rules sized_hub sized_spoke UnmappedFieldPolicyError 0 in
  ∃ o', Convert (Some {| plHubVersion := "v2"; plSpokeVersion := "v1"; plHubToSpoke := bH2S b; plSpokeToHub := bS2H b |})
      HubToSpoke demo_object = Ok o' ∧
    ∀ l, l ∈ flattenSchema sized_spoke → sDefault (lfSchema l) = None →
      must_exist sized_spoke (written_fields HubToSpoke sized_renames) (lfPath l) → is_Some (getValue o' (lfPath l)).
Proof.
  split.
  { intros [|a [|a' above]] name rest; [intros [= <- <-]|intros [= <- <- <-]|intros [= _ _ Hp]; by destruct above].
    - exists sized_spoke. split; [done|]. right. split; [done|]. exists ["sizeName"]. split; [done|]. by left.
    - exists sized_spec. split; [|left; by left]. apply lookupPath_cons. exists sized_spec. by split. }
  apply (accepted_renames_complete_objects HubToSpoke sized_rules sized_renames sized_hub sized_spoke
    UnmappedFieldPolicyError "v2" "v1" demo_object).
  - by repeat constructor.
  - intros [|[|[|]]] r; by intros [= <-].
  - do 2 (constructor; [split_and!; by apply (bool_decide_unpack _); vm_compute|]). constructor.
  - apply plain_schema_check. by vm_compute.
  - apply plain_schema_check. by vm_compute.
  - by vm_compute.
  - vm_compute. by repeat constructor.
  - vm_compute. by repeat constructor.
  - assert (Forall (λ l, lfRequired l = true → is_Some (getValue demo_object (lfPath l))) (flattenSchema sized_hub)) as Ho.
    { apply (bool_decide_unpack _). by vm_compute. }
    intros l Hl Hr. rewrite Forall_forall in Ho. apply Ho; [done|]. apply (flattenSchema_required sized_hub); [done| |done].
    intros He. destruct Hr as (above & name & n & Hp & _). rewrite He in Hp. by destruct above.
Defined.
