(* ===== verification/ConversionProperties.v ===== *)
(** Properties of running a plan: what a conversion touches, in which order, what it
    carries over, and how the router composes conversions. *)
From S2P Require Import Prelude Float64 Value Json Duration Path Schema Rules Coerce Passthrough Ops Convert OpsTheory RoundTrip Diagnostics Compile PlanTheory EndToEnd StrategyTheory Fixtures.

Section conversion_properties.
Context `{RO : RangeOrder} `{EX : Externs}.

(** C3. Going to the spoke and back.  Take a plan made of operation pairs, each with a
    hub field and a spoke field, and then the passthrough.  Let no two pairs' hub
    fields overlap, nor their spoke fields; let undeclared fields stay clear of all of
    them; let each pair's two fields be one and the same path or both lie outside
    [kind] and [metadata]; and let each pair be faithful on the object: its operations
    write only its own field, skip an absent one, and the second restores what the
    first read.  Then for an object that has metadata a successful conversion to the
    spoke version and back returns every pair's hub field as it was, absent fields
    included, whatever the order of the pairs. *)
Theorem faithful_plan_round_trip hv sv prs t o s o' :
  pairs_ok prs t → Forall (λ pr, faithful pr o) prs → is_Some (o !! "metadata") →
  Convert (Some (pair_plan hv sv prs t)) HubToSpoke o = Ok s →
  Convert (Some (pair_plan hv sv prs t)) SpokeToHub s = Ok o' →
  ∀ pr, pr ∈ prs → getValue o' (opHub pr) = getValue o (opHub pr).
Proof. intros ????? pr Hpr. by eapply plan_roundtrip. Qed.

(** Which pairs are faithful.  Renaming a field, copying it, wrapping a scalar in
    an object and taking it out again, and wrapping an object in a one-element array
    and taking it out again are faithful pairs on every object. *)
Theorem reshaping_pairs_faithful (h s : FieldPath) key defaults i :
  faithful (rename_pair h s) i ∧ faithful (identity_pair h) i ∧
  faithful {| opFwd := wrapScalarOp h s key defaults; opBwd := unwrapScalarOp s h key; opHub := h; opSpoke := s |} i ∧
  faithful {| opFwd := objectToSingletonArrayOp h s; opBwd := arrayFirstToObjectOp s h; opHub := h; opSpoke := s |} i.
Proof.
  split_and!; [apply rename_faithful|apply identity_faithful|apply wrap_faithful|apply singleton_faithful].
Qed.

(** A conversion touches nothing else.  In the output of a successful conversion,
    every path that no operation of the plan may write is as in the starting output:
    the copy of the input's kind and metadata, and nothing. *)
Theorem conversion_touches_only_its_paths plan dir o o' q :
  Convert (Some plan) dir o = Ok o' →
  (∀ op p, op ∈ plan_ops plan dir → may_write op p → path_disjoint p q) →
  getValue o' q = getValue (baseline o) q.
Proof. apply Convert_frame. Qed.

(** The order of operations does not matter.  When the operations of a plan only
    set fields and no two may write overlapping paths, every reordering of the plan
    converts every object to the same result. *)
Theorem conversion_order_irrelevant plan plan' dir o o' :
  plan_ops plan dir ≡ₚ plan_ops plan' dir →
  Forall (λ op, sets_only op = true) (plan_ops plan dir) → ForallOrdPairs ops_disjoint (plan_ops plan dir) →
  Convert (Some plan) dir o = Ok o' → Convert (Some plan') dir o = Ok o'.
Proof. apply Convert_perm. Qed.

(** C13. Undeclared fields are carried over.  When a plan ends in the passthrough of
    the two schemas' trees and no other operation may write on an undeclared path,
    a successful conversion of an object that has metadata leaves every undeclared
    field of the input as it was in the output, and adds none. *)
Theorem conversion_carries_undeclared plan dir l t o o' p :
  plan_ops plan dir = l ++ [passthroughUnknownOp t] →
  (∀ op x y, op ∈ l → may_write op x → unknown_at t y → path_disjoint x y) →
  is_Some (o !! "metadata") → unknown_at t p →
  Convert (Some plan) dir o = Ok o' → getValue o' p = getValue o p.
Proof. apply passthrough_keeps. Qed.

(** The passthrough is exact.  It writes every undeclared subtree of the input
    verbatim and leaves every path that is clear of the undeclared ones as it was. *)
Theorem passthrough_exact t input output output' :
  passthroughUnknown t input output = Ok output' →
  (∀ p v, unknown_at t p → getValue input p = Some v → getValue output' p = Some v) ∧
  (∀ q, (∀ p, unknown_at t p → path_disjoint p q) → getValue output' q = getValue output q).
Proof. apply passthroughUnknown_spec. Qed.

(** The passthrough never meets a declared leaf.  A path undeclared by the merged
    tree of two schemas neither contains nor lies inside a leaf of either schema. *)
Theorem undeclared_clear_of_leaves hub spoke p q n :
  unknown_at (mergeKnownTrees (buildKnownTree (Some hub)) (buildKnownTree (Some spoke))) p →
  leaf_at hub q n ∨ leaf_at spoke q n → q ≠ [] → unresolvedConstruct n = "" →
  path_disjoint p q.
Proof. apply unknown_leaf_disjoint. Qed.

(** The cached text of the input is invisible.  Whether an operation list starts
    with or without the marshaled text of its input at hand, it succeeds alike and
    gives the same output: a JSON patch always sees the pristine input, whatever the
    operations before it wrote. *)
Theorem input_text_cache_invisible ops ctx1 ctx2 c1 :
  ecInput ctx1 = ecInput ctx2 → ecOutput ctx1 = ecOutput ctx2 → cache_ok ctx1 → cache_ok ctx2 →
  apply_ops ops ctx1 = Ok c1 →
  ∃ c2, apply_ops ops ctx2 = Ok c2 ∧ ecOutput c2 = ecOutput c1.
Proof.
  intros Hi Ho H1 H2 Hc. destruct (apply_ops_cache ops ctx1 ctx2 Hi Ho H1 H2 c1 Hc) as (c2 & ? & ? & _). by exists c2.
Qed.
End conversion_properties.

(** Map iteration order is invisible.  Whatever orders two runs iterate the
    object's maps in, the passthrough gives the same object. *)
Theorem passthrough_map_order_invisible (R1 R2 : RangeOrder) t input output output' :
  passthroughUnknown (RO := R1) t input output = Ok output' →
  passthroughUnknown (RO := R2) t input output = Ok output'.
Proof. apply passthroughUnknown_order. Qed.

Section router_properties.
Context `{RO : RangeOrder} `{EX : Externs}.

(** The router goes through the hub.  Converting to the same version is the
    identity; between two spoke versions it is the conversion to the hub followed by
    the conversion from it, with the first failure reported; and a version without a
    plan is an error that names it. *)
Theorem router_via_hub r o from to :
  Router_Convert r o from from = Ok o ∧
  (from ≠ to → from ≠ rtHub r → to ≠ rtHub r →
     Router_Convert r o from to = (h ← Router_Convert r o from (rtHub r); Router_Convert r h (rtHub r) to)) ∧
  (from ≠ to → from ≠ rtHub r → rtPlans r !! from = None → Router_Convert r o from to = Err (NoPlan from)).
Proof.
  split_and!.
  - unfold Router_Convert. by rewrite bool_decide_eq_true_2.
  - apply Router_via_hub.
  - intros Hne Hh Hp. unfold Router_Convert. rewrite (bool_decide_eq_false_2 (from = to)) by done.
    rewrite (bool_decide_eq_false_2 (from = rtHub r)) by done. by rewrite Hp.
Qed.
End router_properties.

(** ** Witnesses *)

#[local] Existing Instances canonical_order fixture_externs fixture_compile_externs.

Definition demo_pairs : list opPair :=
  (renaming_pair <$> [unconditional (["spec"; "size"], ["spec"; "sizeName"])]) ++ (identity_pair <$> [["spec"; "replicas"]]).

Definition demo_pair_plan : Plan := pair_plan "v2" "v1" demo_pairs demo_tree.

Definition converted (plan : Plan) (dir : Direction) (o : obj) : obj :=
  match Convert (Some plan) dir o with Ok o' => o' | Err _ => ∅ end.

Lemma hub_plain : plain_schema hub_schema.
Proof. apply plain_schema_check. by vm_compute. Qed.
Lemma spoke_plain : plain_schema spoke_schema.
Proof. apply plain_schema_check. by vm_compute. Qed.

Lemma demo_pairs_ok : pairs_ok demo_pairs demo_tree.
Proof.
  apply (renames_pairs_ok hub_schema spoke_schema); [apply hub_plain|apply spoke_plain| | | |].
  - constructor; [|constructor]. split_and!; by apply (bool_decide_unpack _); vm_compute.
  - constructor; [|constructor].
    unshelve eexists {| lfPath := ["spec"; "replicas"]; lfKind := FieldKindInteger; lfSchema := integer_field;
      lfOpaque := false; lfConstruct := ""; lfRequired := false |}.
    eexists {| lfPath := ["spec"; "replicas"]; lfKind := FieldKindInteger; lfSchema := integer_field;
      lfOpaque := false; lfConstruct := ""; lfRequired := false |}.
    split_and!; [vm_compute; by repeat constructor|vm_compute; by repeat constructor|done|done].
  - by apply (bool_decide_unpack _); vm_compute.
  - by apply (bool_decide_unpack _); vm_compute.
Qed.

Lemma faithful_plan_round_trip_witness :
  Forall (λ pr, getValue (converted demo_pair_plan SpokeToHub (converted demo_pair_plan HubToSpoke demo_object)) (opHub pr)
                = getValue demo_object (opHub pr)) demo_pairs.
Proof.
  set (s := converted demo_pair_plan HubToSpoke demo_object).
  set (o' := converted demo_pair_plan SpokeToHub s).
  apply Forall_forall, (faithful_plan_round_trip "v2" "v1" demo_pairs demo_tree demo_object s o').
  - apply demo_pairs_ok.
  - apply Forall_cons; split; [apply rename_faithful|]. apply Forall_cons; split; [apply identity_faithful|done].
  - by eexists.
  - by vm_compute.
  - by vm_compute.
Defined.

Definition one_rename : Plan :=
  {| plHubVersion := "v2"; plSpokeVersion := "v1";
     plHubToSpoke := [renameOp ["spec"; "size"] ["spec"; "sizeName"]; injectDefaultOp ["status"; "ready"] (VBool true)];
     plSpokeToHub := [] |}.
Definition one_rename_swapped : Plan :=
  {| plHubVersion := "v2"; plSpokeVersion := "v1"; plHubToSpoke := reverse (plHubToSpoke one_rename);
     plSpokeToHub := [] |}.

Lemma conversion_touches_only_its_paths_witness :
  getValue (converted one_rename HubToSpoke demo_object) ["metadata"; "name"] =
  getValue (baseline demo_object) ["metadata"; "name"].
Proof.
  apply (conversion_touches_only_its_paths one_rename HubToSpoke demo_object); [by vm_compute|].
  intros op p Hop Hp. cbn in Hop. rewrite !elem_of_cons in Hop.
  destruct Hop as [->|[->|Hop]]; [| |by apply not_elem_of_nil in Hop]; cbn in Hp; subst;
    by apply (bool_decide_unpack _); vm_compute.
Defined.

Lemma conversion_order_irrelevant_witness :
  Convert (Some one_rename_swapped) HubToSpoke demo_object = Ok (converted one_rename HubToSpoke demo_object).
Proof.
  apply (conversion_order_irrelevant one_rename one_rename_swapped HubToSpoke demo_object).
  - symmetry. apply reverse_Permutation.
  - by repeat constructor.
  - constructor; [|by repeat constructor]. constructor; [|constructor].
    intros p q; cbn; intros -> ->; by apply (bool_decide_unpack _); vm_compute.
  - by vm_compute.
Defined.

Lemma conversion_carries_undeclared_witness :
  getValue (converted demo_pair_plan HubToSpoke demo_object) ["spec"; "extra"] = Some (VBool true).
Proof.
  rewrite (conversion_carries_undeclared demo_pair_plan HubToSpoke (opFwd <$> demo_pairs) demo_tree demo_object).
  - by vm_compute.
  - reflexivity.
  - intros op x y (pr & -> & Hpr)%list_elem_of_fmap Hx Hy. symmetry.
    assert (x = opSpoke pr) as ->.
    { cbn in Hpr. rewrite !elem_of_cons in Hpr.
      destruct Hpr as [->|[->|Hpr]]; [done..|by apply not_elem_of_nil in Hpr]. }
    by apply (pairs_undeclared _ _ demo_pairs_ok).
  - by eexists.
  - split; [|cbn; lia]. eapply unknown_below; [by vm_compute|by vm_compute|]. apply unknown_here. by vm_compute.
  - by vm_compute.
Defined.

Definition passed : obj := {["spec" := VObj {["extra" := VBool true]}]}.

Lemma passthrough_exact_witness :
  (∀ p v, unknown_at demo_tree p → getValue demo_object p = Some v → getValue passed p = Some v) ∧
  (∀ q, (∀ p, unknown_at demo_tree p → path_disjoint p q) → getValue passed q = getValue ∅ q).
Proof. apply (passthrough_exact demo_tree demo_object ∅ passed). by vm_compute. Defined.

Lemma undeclared_clear_of_leaves_witness : path_disjoint ["spec"; "extra"] ["spec"; "size"].
Proof.
  apply (undeclared_clear_of_leaves hub_schema spoke_schema _ _ string_field).
  - split; [|cbn; lia]. eapply unknown_below; [by vm_compute|by vm_compute|]. apply unknown_here. by vm_compute.
  - left. apply elem_of_flattenInto with (p := []) (r := []).
    exists {| lfPath := ["spec"; "size"]; lfKind := FieldKindString; lfSchema := string_field;
      lfOpaque := false; lfConstruct := ""; lfRequired := false |}.
    split; [vm_compute; by repeat constructor|]. by vm_compute.
  - done.
  - done.
Defined.

Lemma passthrough_map_order_invisible_witness :
  passthroughUnknown (RO := reversed_order) demo_tree demo_object ∅ = Ok passed.
Proof. apply (passthrough_map_order_invisible canonical_order). by vm_compute. Defined.

Definition noop_patch : list Op := [jsonPatchOp [] [["spec"; "size"]]].
Definition warm_context : execContext :=
  {| ecInput := demo_object; ecOutput := ∅; ecInputJSON := json_Marshal (VObj demo_object) |}.

Lemma input_text_cache_invisible_witness :
  ∃ c2, apply_ops noop_patch warm_context = Ok c2 ∧
    ecOutput c2 = {["spec" := VObj {["size" := VStr "big"]}]}.
Proof.
  destruct (apply_ops noop_patch (new_context demo_object ∅)) as [c1|] eqn:H1; [|by vm_compute in H1].
  assert (ecOutput c1 = {["spec" := VObj {["size" := VStr "big"]}]}) as <-.
  { vm_compute in H1. by injection H1 as <-. }
  apply (input_text_cache_invisible noop_patch (new_context demo_object ∅) warm_context c1);
    [done|done|by left|by right|exact H1].
Defined.
