(* ===== verification/StrategyProperties.v ===== *)
(** Properties of the conversion strategies: what each pair of operations restores. *)
From S2P Require Import Prelude Float64 Value Json Duration Path Schema Rules Coerce Passthrough Ops Convert OpsTheory RoundTrip Diagnostics Compile CompileTheory StrategyTheory Fixtures.

Section strategy_properties.
Context `{RO : RangeOrder} `{EX : Externs} `{CX : CompileExterns}.

(** Stashing a field in an annotation or a label and restoring it, for every string,
    and for every JSON value whose text reads back (no out-of-range number, valid
    text, nesting within the limit): stashing succeeds, an object with what it wrote
    converts back, the field has its value again and the key is gone. *)
Theorem stash_restore_round_trip hubPath metadataField key serialization i v s :
  getValue i hubPath = Some v → stashable serialization v → stash_text serialization v = Some s →
  label_ok metadataField key s → path_disjoint (metadata_path metadataField key) hubPath →
  ∀ o1, writable o1 (metadata_path metadataField key) = true →
  ∃ c1, apply_op (stashAnnotationOp hubPath metadataField key serialization) (new_context i o1) = Ok c1 ∧
  ∀ j o2, getValue j (metadata_path metadataField key) = getValue (ecOutput c1) (metadata_path metadataField key) →
    writable o2 hubPath = true →
  ∃ c2, apply_op (restoreAnnotationOp hubPath metadataField key serialization) (new_context j o2) = Ok c2 ∧
    getValue (ecOutput c2) hubPath = Some v ∧ getValue (ecOutput c2) (metadata_path metadataField key) = None.
Proof. apply stash_restore_round_trips. Qed.

(** Collapsing fields into a map and expanding the map, when the fields have
    different keys, do not overlap, and one of them is present: collapsing succeeds,
    an object with that map expands (no unexpected key, under either policy), and
    every field that was present has its value again. *)
Theorem fields_to_map_round_trip fps mapPath keyNames pol i :
  NoDup (key_for keyNames <$> fps) → ForallOrdPairs path_disjoint fps →
  (∃ fp, fp ∈ fps ∧ is_Some (getValue i fp)) →
  ∀ o1, writable o1 mapPath = true →
  ∃ c1, apply_op (collapseToMapOp fps mapPath keyNames) (new_context i o1) = Ok c1 ∧
  ∀ j o2, getValue j mapPath = getValue (ecOutput c1) mapPath → Forall (λ fp, writable o2 fp = true) fps →
  ∃ c2, apply_op (expandFromMapOp mapPath fps keyNames pol) (new_context j o2) = Ok c2 ∧
    ∀ fp v, fp ∈ fps → getValue i fp = Some v → getValue (ecOutput c2) fp = Some v.
Proof. apply fields_to_map_round_trips. Qed.

(** Turning an array into a map by a key field and back.  The first conversion
    succeeds exactly on arrays of objects whose key field is a string of its own;
    then the way back succeeds and yields the same elements, sorted by that key. *)
Theorem array_to_map_and_back_sorts arrayPath mapPath keyField i arr o1 :
  getValue i arrayPath = Some (VArr arr) → writable o1 mapPath = true →
  (res_ok (apply_op (arrayToMapByKeyOp arrayPath mapPath keyField) (new_context i o1)) = true ↔
    ∃ ks, keyed keyField arr ks ∧ NoDup ks.*1) ∧
  ∀ ks, keyed keyField arr ks → NoDup ks.*1 →
  ∃ c1, apply_op (arrayToMapByKeyOp arrayPath mapPath keyField) (new_context i o1) = Ok c1 ∧
  ∀ j o2, getValue j mapPath = getValue (ecOutput c1) mapPath → writable o2 arrayPath = true →
  ∃ c2 arr' ks', apply_op (mapToArrayByKeyOp mapPath arrayPath keyField) (new_context j o2) = Ok c2 ∧
    getValue (ecOutput c2) arrayPath = Some (VArr arr') ∧ arr' ≡ₚ arr ∧
    keyed keyField arr' ks' ∧ StronglySorted String.le ks'.*1.
Proof. intros Hv Hw. split; [by apply array_to_map_runs|]. intros ks Hk Hnd. by eapply array_map_sorts. Qed.

(** Turning a map into an array by a key field and back round trips, when the
    map's entries are objects that do not have the key field themselves. *)
Theorem map_to_array_round_trip mapPath arrayPath keyField i (m : obj) (g : string → obj) :
  getValue i mapPath = Some (VObj m) →
  (∀ k v, m !! k = Some v → v = VObj (g k) ∧ g k !! keyField = None) →
  round_trips (mapToArrayByKeyOp mapPath arrayPath keyField) (arrayToMapByKeyOp arrayPath mapPath keyField)
    mapPath arrayPath i.
Proof. intros Hv Hm. destruct (map_array_exchanges mapPath arrayPath keyField m g Hm). by eapply exchanges_round_trips. Qed.

(** Renaming map keys with a rename table the compiler accepts, and back with the
    inverse it computes, round trips on every map none of whose other keys is already
    one of the table's new names. *)
Theorem key_rename_round_trip idx renames s src dst i (m : obj) :
  no_errors (csDiags (invertRenames idx "MapKeyRename" renames s).2) →
  getValue i src = Some (VObj m) →
  (∀ k v, m !! k = Some v → is_Some (renames !! k) ∨ ∀ h, renames !! h ≠ Some k) →
  round_trips (mapKeyRenameOp src dst renames)
    (mapKeyRenameOp dst src (invertRenames idx "MapKeyRename" renames s).1) src dst i.
Proof. apply compiled_key_rename_round_trips. Qed.

(** Joining a list of strings with a one-character separator and splitting it
    round trips, when no element contains the separator and the list is not the
    single empty string. *)
Theorem list_join_round_trip arrayPath stringPath sep i (parts : list string) :
  getValue i arrayPath = Some (VArr (VStr <$> parts)) →
  Forall (λ s, has_char sep s = false) parts → parts ≠ [""] →
  round_trips (joinListOp arrayPath stringPath (String sep ""))
    (splitListOp stringPath arrayPath (String sep "") FieldKindString) arrayPath stringPath i.
Proof. intros Hv Hp Hne. by eapply exchanges_round_trips; [apply list_join_exchanges|]. Qed.

(** A whole number of seconds written as a duration text and read back round
    trips, as long as the duration fits the 64-bit count of nanoseconds. *)
Theorem duration_round_trip src dst i n :
  getValue i src = Some (VFloat (f64_of_Z n)) → (- 2 ^ 63 <= n * Second < 2 ^ 63)%Z →
  round_trips (durationOp src dst false) (durationOp dst src true) src dst i.
Proof. intros Hv Hn. by eapply exchanges_round_trips; [apply duration_exchanges|]. Qed.

(** An enum remapping the compiler calls injective, with the two tables it builds,
    round trips on every hub value of its mapping, when no hub value is mapped twice. *)
Theorem enum_remap_round_trip (mapping : list EnumValueMapping) p polh pols i m :
  m ∈ mapping → NoDup ((λ m, enumKey (emHub m)) <$> mapping) → enum_injective mapping = true →
  getValue i p = Some (emHub m) →
  round_trips (remapEnumOp p (enum_tables mapping).1 polh) (remapEnumOp p (enum_tables mapping).2 pols) p p i.
Proof. intros Hm Hnd Hi Hv. by eapply exchanges_round_trips; [apply enum_exchanges|]. Qed.

(** [forEach] lifts its nested operations to arrays, element by element and in
    order: when every element converts, so does the array, unless the object holds
    something else than an array of that length at the destination; and when every
    converted element converts back to the original, the array comes back. *)
Theorem for_each_round_trip src dst n1 n2 i arr outs :
  getValue i src = Some (VArr arr) → fits i dst (length arr) →
  Forall2 (element_converts n1) arr outs → Forall2 (element_converts n2) outs arr →
  ∀ o1, writable o1 dst = true →
  ∃ c1, apply_op (forEachOp src dst n1) (new_context i o1) = Ok c1 ∧ getValue (ecOutput c1) dst = Some (VArr outs) ∧
  ∀ j o2, getValue j dst = Some (VArr outs) → fits j src (length outs) → writable o2 src = true →
  ∃ c2, apply_op (forEachOp dst src n2) (new_context j o2) = Ok c2 ∧ getValue (ecOutput c2) src = Some (VArr arr).
Proof. apply forEach_round_trips. Qed.

(** [branchMap] converts exactly one branch.  On a present object the operation
    succeeds only if exactly one of the branches is set, and when one is, converts,
    and its fields can be set, it does succeed.  The output then holds that branch's
    converted value under its new name, and its discriminator when one is declared. *)
Theorem branch_map_selects_one src dst d branches i o obj0 :
  getValue i src = Some (VObj obj0) →
  (∀ c, apply_op (branchMapOp src dst d branches) (new_context i o) = Ok c →
   ∃ b v, active_branches branches obj0 = [b] ∧ branch_value b obj0 v ∧
    (d = "" ∨ cbDstBranch b ≠ d → getValue (ecOutput c) (dst ++ [cbDstBranch b]) = Some v) ∧
    (d ≠ "" → getValue (ecOutput c) (dst ++ [d]) = Some (VStr (cbDstDiscriminator b)))) ∧
  (∀ b v, active_branches branches obj0 = [b] → branch_value b obj0 v →
   writable o (dst ++ [cbDstBranch b]) = true → (d ≠ "" → writable o (dst ++ [d]) = true) →
   ∃ c, apply_op (branchMapOp src dst d branches) (new_context i o) = Ok c).
Proof.
  intros Hv. split; [intros c Hc; by apply (branchMap_Ok src dst d branches i o c)|].
  intros b v. by apply branchMap_runs.
Qed.
End strategy_properties.

(** ** Witnesses *)

#[local] Existing Instances canonical_order fixture_externs fixture_compile_externs.

Lemma stash_restore_round_trip_witness :
  let i : obj := {["spec" := VObj {["size" := VArr [VStr "a"; VNull]]}]} in
  ∃ c1, apply_op (stashAnnotationOp ["spec"; "size"] "annotations" "k" "JSON") (new_context i ∅) = Ok c1 ∧
  ∀ j o2, getValue j (metadata_path "annotations" "k") = getValue (ecOutput c1) (metadata_path "annotations" "k") →
    writable o2 ["spec"; "size"] = true →
  ∃ c2, apply_op (restoreAnnotationOp ["spec"; "size"] "annotations" "k" "JSON") (new_context j o2) = Ok c2 ∧
    getValue (ecOutput c2) ["spec"; "size"] = Some (VArr [VStr "a"; VNull]) ∧
    getValue (ecOutput c2) (metadata_path "annotations" "k") = None.
Proof.
  intros i. eapply (stash_restore_round_trip ["spec"; "size"] "annotations" "k" "JSON" i (VArr [VStr "a"; VNull])).
  - by vm_compute.
  - split; by vm_compute.
  - by vm_compute.
  - done.
  - by apply (bool_decide_unpack _); vm_compute.
  - by vm_compute.
Defined.

Definition two_fields : obj := {["spec" := VObj {["a" := VStr "x"; "b" := VBool true]}]}.

Lemma fields_to_map_round_trip_witness :
  ∃ c1, apply_op (collapseToMapOp [["spec"; "a"]; ["spec"; "b"]] ["m"] ∅) (new_context two_fields ∅) = Ok c1 ∧
  ∀ j o2, getValue j ["m"] = getValue (ecOutput c1) ["m"] →
    Forall (λ fp, writable o2 fp = true) [["spec"; "a"]; ["spec"; "b"]] →
  ∃ c2, apply_op (expandFromMapOp ["m"] [["spec"; "a"]; ["spec"; "b"]] ∅ "Error") (new_context j o2) = Ok c2 ∧
    ∀ fp v, fp ∈ [["spec"; "a"]; ["spec"; "b"]] → getValue two_fields fp = Some v →
      getValue (ecOutput c2) fp = Some v.
Proof.
  apply (fields_to_map_round_trip [["spec"; "a"]; ["spec"; "b"]] ["m"] ∅ "Error" two_fields).
  - by apply (bool_decide_unpack _); vm_compute.
  - constructor; [|by repeat constructor]. constructor; [|constructor]. by apply (bool_decide_unpack _); vm_compute.
  - exists ["spec"; "b"]. split; [by repeat constructor|]. by eexists.
  - by vm_compute.
Defined.

Definition keyed_array : list value :=
  [VObj {["name" := VStr "b"; "v" := VBool true]}; VObj {["name" := VStr "a"]}].
Definition keyed_input : obj := {["l" := VArr keyed_array]}.

Lemma array_to_map_and_back_sorts_witness :
  (res_ok (apply_op (arrayToMapByKeyOp ["l"] ["m"] "name") (new_context keyed_input ∅)) = true ↔
    ∃ ks, keyed "name" keyed_array ks ∧ NoDup ks.*1) ∧
  ∃ c1, apply_op (arrayToMapByKeyOp ["l"] ["m"] "name") (new_context keyed_input ∅) = Ok c1 ∧
  ∀ j o2, getValue j ["m"] = getValue (ecOutput c1) ["m"] → writable o2 ["l"] = true →
  ∃ c2 arr' ks', apply_op (mapToArrayByKeyOp ["m"] ["l"] "name") (new_context j o2) = Ok c2 ∧
    getValue (ecOutput c2) ["l"] = Some (VArr arr') ∧ arr' ≡ₚ keyed_array ∧
    keyed "name" arr' ks' ∧ StronglySorted String.le ks'.*1.
Proof.
  destruct (array_to_map_and_back_sorts ["l"] ["m"] "name" keyed_input keyed_array ∅) as [H1 H2];
    [by vm_compute|by vm_compute|].
  split; [exact H1|]. apply (H2 [("b", {["name" := VStr "b"; "v" := VBool true]}); ("a", {["name" := VStr "a"]})]).
  - by repeat constructor.
  - by apply (bool_decide_unpack _); vm_compute.
Defined.

Lemma map_to_array_round_trip_witness :
  let i : obj := {["m" := VObj {["a" := VObj {["v" := VBool true]}]}]} in
  round_trips (mapToArrayByKeyOp ["m"] ["l"] "name") (arrayToMapByKeyOp ["l"] ["m"] "name") ["m"] ["l"] i.
Proof.
  intros i. apply (map_to_array_round_trip _ _ _ _ {["a" := VObj {["v" := VBool true]}]} (λ _, {["v" := VBool true]})).
  - by vm_compute.
  - intros k v [<- <-]%lookup_singleton_Some. by vm_compute.
Defined.

Lemma key_rename_round_trip_witness :
  let i : obj := {["m" := VObj {["old" := VStr "x"; "kept" := VStr "y"]}]} in
  let s := {| csHub := ∅; csSpoke := ∅; csDiags := [] |} in
  round_trips (mapKeyRenameOp ["m"] ["n"] {["old" := "new"]})
    (mapKeyRenameOp ["n"] ["m"] (invertRenames 0 "MapKeyRename" {["old" := "new"]} s).1) ["m"] ["n"] i.
Proof.
  intros i s. apply (key_rename_round_trip 0 _ s _ _ _ {["old" := VStr "x"; "kept" := VStr "y"]}).
  - vm_compute. constructor.
  - by vm_compute.
  - intros k v [[<- _]|[_ [<- _]%lookup_singleton_Some]]%lookup_insert_Some; [left; by eexists|right].
    intros h. by intros [_ [=]]%lookup_singleton_Some.
Defined.

Lemma list_join_round_trip_witness :
  let i : obj := {["l" := VArr [VStr "a"; VStr ""; VStr "b"]]} in
  round_trips (joinListOp ["l"] ["s"] ",") (splitListOp ["s"] ["l"] "," FieldKindString) ["l"] ["s"] i.
Proof. apply (list_join_round_trip _ _ _ _ ["a"; ""; "b"]); [by vm_compute|by repeat constructor|done]. Defined.

Lemma duration_round_trip_witness :
  let i : obj := {["d" := VFloat (f64_of_Z (-3725))]} in
  round_trips (durationOp ["d"] ["t"] false) (durationOp ["t"] ["d"] true) ["d"] ["t"] i.
Proof. apply (duration_round_trip _ _ _ (-3725)); [by vm_compute|by vm_compute]. Defined.

Definition demo_mapping : list EnumValueMapping :=
  [{| emHub := VStr "On"; emSpoke := VBool true |}; {| emHub := VStr "Off"; emSpoke := VBool false |}].

Lemma enum_remap_round_trip_witness :
  let i : obj := {["p" := VStr "Off"]} in
  round_trips (remapEnumOp ["p"] (enum_tables demo_mapping).1 "Error")
    (remapEnumOp ["p"] (enum_tables demo_mapping).2 "Error") ["p"] ["p"] i.
Proof.
  apply (enum_remap_round_trip demo_mapping _ _ _ _ {| emHub := VStr "Off"; emSpoke := VBool false |}).
  - by repeat constructor.
  - by apply (bool_decide_unpack _); vm_compute.
  - by vm_compute.
  - by vm_compute.
Defined.

Lemma for_each_round_trip_witness :
  let arr := [VObj {["a" := VStr "x"]}] in
  let outs := [VObj {["b" := VStr "x"]}] in
  let i : obj := {["l" := VArr arr]} in
  ∃ c1, apply_op (forEachOp ["l"] ["k"] [renameOp ["a"] ["b"]]) (new_context i ∅) = Ok c1 ∧
    getValue (ecOutput c1) ["k"] = Some (VArr outs) ∧
  ∀ j o2, getValue j ["k"] = Some (VArr outs) → fits j ["l"] 1 → writable o2 ["l"] = true →
  ∃ c2, apply_op (forEachOp ["k"] ["l"] [renameOp ["b"] ["a"]]) (new_context j o2) = Ok c2 ∧
    getValue (ecOutput c2) ["l"] = Some (VArr arr).
Proof.
  intros arr outs i. apply (for_each_round_trip ["l"] ["k"] [renameOp ["a"] ["b"]] [renameOp ["b"] ["a"]] i arr outs).
  - by vm_compute.
  - by vm_compute.
  - constructor; [|constructor]. eexists _, _. split_and!; [done|by vm_compute|done].
  - constructor; [|constructor]. eexists _, _. split_and!; [done|by vm_compute|done].
  - by vm_compute.
Defined.

Definition demo_branches : list (compiledBranch (list Op)) :=
  [mkCompiledBranch "aws" "amazon" "Amazon" []; mkCompiledBranch "gcp" "google" "Google" []].

Lemma branch_map_selects_one_witness :
  let o0 : obj := {["gcp" := VStr "x"]} in
  let i : obj := {["cloud" := VObj o0]} in
  ∃ c, apply_op (branchMapOp ["cloud"] ["provider"] "kind" demo_branches) (new_context i ∅) = Ok c.
Proof.
  intros o0 i. apply (proj2 (branch_map_selects_one ["cloud"] ["provider"] "kind" demo_branches i ∅ o0
    ltac:(by vm_compute)) (mkCompiledBranch "gcp" "google" "Google" []) (VStr "x")); by vm_compute.
Defined.
