(* ===== verification/ValueProperties.v ===== *)
(** Properties of the values, paths and schemas the engine works on. *)
From Stdlib Require Import Ascii.
From S2P Require Import Prelude Float64 Value Json Duration Path Schema Normalize NormalizeTheory Coerce Fixtures.

(** ** Paths *)

(** [setValue] sets and preserves.  After it succeeds, every path at or below the
    one set reads inside the value set, and every path clear of it reads as before. *)
Theorem set_value_sets_and_preserves o p v o' :
  setValue o p v = Ok o' →
  (∀ q, getValue o' (p ++ q) = walk v q) ∧
  (∀ q, path_disjoint p q → getValue o' q = getValue o q).
Proof.
  intros Hs. split; intros q; [by eapply getValue_setValue_below|intros; by eapply getValue_setValue_disjoint].
Qed.

(** [setValue] fails exactly when it must: it succeeds if and only if the path is
    not empty and everything already present on the way to it is an object. *)
Theorem set_value_succeeds_iff o p v :
  res_ok (setValue o p v) = true ↔
  p ≠ [] ∧ ∀ q k r w, p = q ++ k :: r → q ≠ [] → getValue o q = Some w → is_Some (as_obj w).
Proof. rewrite <-writable_setValue. apply writable_spec. Qed.

(** Deleting with pruning undoes setting.  When the path was absent and no object
    on the way to it was empty, setting it and then deleting it with pruning gives
    the original object back, without leftover empty objects. *)
Theorem pruning_delete_undoes_set o p v o' :
  setValue o p v = Ok o' → getValue o p = None →
  (∀ q r, p = q ++ r → q ≠ [] → r ≠ [] → getValue o q ≠ Some (VObj ∅)) →
  deleteValuePruningEmptyMaps o' p = o.
Proof. apply deletePruning_setValue. Qed.

(** Path texts round trip.  Every text parses to a path that prints as the text; a
    path without dots in its segments, other than the one empty segment, prints to a
    text that parses to it. *)
Theorem path_text_round_trip s p :
  path_string (ParsePath s) = s ∧
  (Forall (λ s, has_char "."%char s = false) p → p ≠ [""] → ParsePath (path_string p) = p).
Proof. split; [apply path_string_ParsePath|apply ParsePath_path_string]. Qed.

(** ** Schemas *)

Section schema_properties.
Context `{RO : RangeOrder}.

(** [flattenSchema] lists exactly the leaves: a path is listed if and only if
    descending through structured objects leads to a leaf there, and every entry
    describes the schema node [lookupPath] finds at its path. *)
Theorem flatten_lists_exactly_the_leaves s :
  (∀ q, q ∈ lfPath <$> flattenSchema s ↔ ∃ n, leaf_at s q n) ∧
  (∀ l, l ∈ flattenSchema s →
     lookupPath s (lfPath l) = Ok (lfSchema l) ∧ leaf_describes l (lfPath l) (lfSchema l)).
Proof.
  split.
  - intros q. rewrite <-elem_of_flattenSchema, list_elem_of_fmap. naive_solver.
  - intros l [Hl ?]%flattenSchema_describes. split; [by apply leaf_at_lookupPath|done].
Qed.

(** Leaves do not overlap: of two different leaves of a schema, neither path lies
    on the other. *)
Theorem leaves_do_not_overlap s l l' :
  l ∈ flattenSchema s → l' ∈ flattenSchema s → lfPath l ≠ lfPath l' → path_disjoint (lfPath l) (lfPath l').
Proof. intros [Hl _]%flattenSchema_describes [Hl' _]%flattenSchema_describes. by apply (leaf_at_disjoint s _ _ _ _ Hl Hl'). Qed.

(** Normalisation terminates.  For every schema, recursive references included,
    there is a fuel from which on the result no longer changes, and that result is
    not an exhausted fuel: it is the normalised schema or a real error. *)
Theorem normalize_terminates schema :
  ∃ fuel r, r ≠ Err OutOfFuel ∧ ∀ fuel', fuel ≤ fuel' → NormalizeSchema fuel' schema = r.
Proof. apply NormalizeSchema_stable. Qed.

(** Normalisation is right.  The result has no [$ref] and no [allOf] left in any
    node the engine reads, still declares every path the schema declared, and is a
    fixed point: normalising it again changes nothing. *)
Theorem normalize_normalizes fuel s s' :
  NormalizeSchema fuel (Some s) = Ok (Some s') →
  normal s' ∧ (∀ p, declares s p → declares s' p) ∧
  ∀ fuel', schema_size s' ≤ fuel' → NormalizeSchema fuel' (Some s') = Ok (Some s').
Proof.
  cbn. destruct (node fuel s ∅ s []) as [n|] eqn:Hn; cbn; [|done]. intros [= <-].
  pose proof (node_normal _ _ _ _ _ _ Hn) as Hnormal. split_and!; [done| |].
  - intros p. by eapply node_declares.
  - intros fuel' Hf. by rewrite node_id.
Qed.
End schema_properties.

(** ** Values *)

(** C40. Coercion delivers the kind it was asked for: when it succeeds, the result is a
    string, a boolean, a finite number, or a finite whole number as requested. *)
Theorem coercion_has_the_kind v to frac w :
  coerceScalarValueWithPolicy v to frac = Ok w →
  (drops_fraction frac = true → ∀ f, numericAsFloat64 v = Ok f → f64_valid f = true) →
  has_kind to w = true.
Proof. apply coerce_has_kind. Qed.

(** Enum keys tell values apart: two strings, booleans or integers with the same
    enum key are equal as JSON values, so no two different ones share a table entry. *)
Theorem enum_key_injective v w :
  enum_scalar v → enum_scalar w → enumKey v = enumKey w → jsonValuesEqual v w = true.
Proof. apply enumKey_inj. Qed.

(** ** Witnesses *)

#[local] Existing Instance canonical_order.

Definition small : obj := {["spec" := VObj {["a" := VStr "x"]}]}.
Definition small_set : obj := {["spec" := VObj {["a" := VStr "x"; "b" := VObj {["c" := VNull]}]}]}.

Lemma set_value_sets_and_preserves_witness :
  (∀ q, getValue small_set (["spec"; "b"; "c"] ++ q) = walk VNull q) ∧
  (∀ q, path_disjoint ["spec"; "b"; "c"] q → getValue small_set q = getValue small q).
Proof. apply set_value_sets_and_preserves. by vm_compute. Defined.

Lemma pruning_delete_undoes_set_witness :
  deleteValuePruningEmptyMaps small_set ["spec"; "b"; "c"] = small.
Proof.
  apply (pruning_delete_undoes_set small ["spec"; "b"; "c"] VNull); [by vm_compute|by vm_compute|].
  intros [|k1 [|k2 [|k3 [|k4 q]]]] r Hp Hq Hr; cbn in Hp; simplify_eq; try done; by vm_compute.
Defined.

Lemma leaves_do_not_overlap_witness : path_disjoint ["spec"; "size"] ["spec"; "replicas"].
Proof.
  apply (leaves_do_not_overlap hub_schema
    {| lfPath := ["spec"; "size"]; lfKind := FieldKindString; lfSchema := string_field;
       lfOpaque := false; lfConstruct := ""; lfRequired := false |}
    {| lfPath := ["spec"; "replicas"]; lfKind := FieldKindInteger; lfSchema := integer_field;
       lfOpaque := false; lfConstruct := ""; lfRequired := false |});
    [vm_compute; by repeat constructor|vm_compute; by repeat constructor|done].
Defined.

(** A schema whose [spec] is a reference into its definitions. *)
Definition ref_schema : JSONSchemaProps :=
  Schema None "object" false None [] [] [] [] []
    {["spec" := Schema (Some "#/definitions/Spec") "" false None [] [] [] [] [] ∅ None None ∅ None None "" "" []]}
    None None {["Spec" := object_schema [] {["size" := string_field]}]} None None "" "" [].
Definition ref_normalized : JSONSchemaProps :=
  Schema None "object" false None [] [] [] [] []
    {["spec" := object_schema [] {["size" := string_field]}]}
    None None {["Spec" := object_schema [] {["size" := string_field]}]} None None "" "" [].

Lemma normalize_normalizes_witness :
  normal ref_normalized ∧ (∀ p, declares ref_schema p → declares ref_normalized p) ∧
  ∀ fuel', schema_size ref_normalized ≤ fuel' → NormalizeSchema fuel' (Some ref_normalized) = Ok (Some ref_normalized).
Proof. apply (normalize_normalizes 10 ref_schema). by vm_compute. Defined.

Lemma coercion_has_the_kind_witness : has_kind FieldKindInteger (VFloat (f64_of_Z 42)) = true.
Proof. apply (coercion_has_the_kind (VStr "42") FieldKindInteger "Error"); by vm_compute. Defined.

Lemma enum_key_injective_witness : jsonValuesEqual (VStr "1") (VStr "1") = true.
Proof. apply enum_key_injective; done. Defined.
