(* ===== verification/RehubProperties.v ===== *)
(** What promoting a spoke to hub keeps (Rehub.v): the conversions between the
    promoted version and the old hub, the versions of the config, and the leaves
    of the other spokes that were copied without a rule. *)
From S2P Require Import Prelude Float64 Value Json Duration Path Schema Rules Coerce Passthrough Ops Convert OpsTheory Diagnostics Compile CompileTheory PlanTheory EndToEnd Normalize NormalizeTheory Platform Required Analyze Api Rehub RehubTheory RehubPlan Fixtures.

Section rehub_properties.
Context `{RO : RangeOrder} `{EX : Externs} `{CX : CompileExterns}.

(** C9. Promoting a spoke keeps its conversions.  Take the rules of a spoke that
    is to become the hub, each of a strategy whose inverse means the same (see
    [faithful_pointer]), and two schemas whose leaves their text names.  Then the
    rules can be inverted and translated, both pairs compile, and for every object
    the plan of the old hub as a spoke of the new one converts exactly as the old
    plan did in the opposite direction, with the same result. *)
Theorem promoted_spoke_converts_alike fuel rules rs hub0 spoke0 hub spoke hv sv pol :
  Forall faithful_rule rules → convertRules rules = Ok rs →
  NormalizeSchema fuel (Some hub0) = Ok (Some hub) → NormalizeSchema fuel (Some spoke0) = Ok (Some spoke) →
  plain_schema hub → plain_schema spoke →
  ∃ inv rs' plan plan' ds ds',
    InvertRules rules = Ok inv ∧ convertRules inv = Ok rs' ∧
    Compile fuel {| rsHubVersion := hv; rsSpokeVersion := sv; rsRules := rs; rsUnmappedFieldPolicy := pol |}
      (Some hub0) (Some spoke0) = Ok (plan, ds) ∧
    Compile fuel {| rsHubVersion := sv; rsSpokeVersion := hv; rsRules := rs'; rsUnmappedFieldPolicy := pol |}
      (Some spoke0) (Some hub0) = Ok (plan', ds') ∧
    ∀ dir o o', Convert (Some plan) dir o = Ok o' ↔ Convert (Some plan') (opposite dir) o = Ok o'.
Proof.
  intros Hf Hrs Hn1 Hn2 Hh Hs.
  destruct (mirror_rules 0 rules rs Hf Hrs) as (inv & rs' & Hinv & Hconv & Hmir).
  exists inv, rs'. unfold Compile. rewrite Hn1, Hn2. cbn [res_wrap mbind res_bind default from_option id].
  do 4 eexists. split_and!; [by apply InvertRules_Forall2|done|done|done|].
  intros dir o o'. by apply mirrored_plans_agree.
Qed.

(** What the promotion loop keeps. *)
Lemma split_spokes_versions oldHub newHub spokes promote others p os :
  split_spokes oldHub newHub spokes promote others = Ok (p, os) →
  newHub ∉ svVersion <$> spokes → p = promote ∧ os = others ++ spokes.
Proof.
  revert promote others; induction spokes as [|s spokes IH]; intros promote others; cbn.
  { intros [= <- <-] _. by rewrite app_nil_r. }
  intros H [Hne Hnin]%not_elem_of_cons. rewrite bool_decide_false in H by done.
  case_bool_decide as Ho; [done|]. apply IH in H as [-> ->]; [|done]. by rewrite <- app_assoc.
Qed.

Lemma split_spokes_split oldHub newHub spokes others p os :
  split_spokes oldHub newHub spokes None others = Ok (Some p, os) → NoDup (svVersion <$> spokes) →
  ∃ l1 l2, spokes = l1 ++ p :: l2 ∧ os = others ++ l1 ++ l2 ∧ svVersion p = newHub.
Proof.
  revert others; induction spokes as [|s spokes IH]; intros others; cbn; [done|].
  intros H [Hs Hnd]%NoDup_cons. case_bool_decide as Hv.
  - subst. apply split_spokes_versions in H as [[= ->] ->]; [|done]. by exists [], spokes.
  - case_bool_decide as Ho; [done|]. apply IH in H as (l1 & l2 & -> & -> & Hp); [|done].
    exists (s :: l1), l2. by rewrite <- !app_assoc.
Qed.

Lemma compose_spoke_versions newHub m leaves os os' :
  res_mapM (compose_spoke newHub m leaves) os = Ok os' → svVersion <$> os' = svVersion <$> os.
Proof.
  revert os'; induction os as [|s os IH]; intros os'; cbn; [by intros [= <-]|].
  intros (s' & Hs & H)%res_bind_Ok. apply res_bind_Ok in H as (k & Hk & [= <-]). cbn.
  rewrite (IH _ Hk). unfold compose_spoke in Hs. by apply res_bind_Ok in Hs as (c & _ & [= <-]).
Qed.

(** Rehubbing keeps every version.  When it succeeds on spokes of distinct
    versions, the new hub is the requested one, the old hub is the first spoke
    with the inverse of the promoted rules, and the versions before and after,
    the hub included, are the same. *)
Theorem rehub_keeps_versions oldHub newHub spokes leaves hub out :
  RehubSpokes oldHub newHub spokes leaves = Ok (hub, out) → NoDup (svVersion <$> spokes) →
  hub = newHub ∧ oldHub :: (svVersion <$> spokes) ≡ₚ newHub :: (svVersion <$> out) ∧
  ∃ promoted old, promoted ∈ spokes ∧ svVersion promoted = newHub ∧ head out = Some old ∧
    svVersion old = oldHub ∧ InvertRules (svRules promoted) = Ok (svRules old).
Proof.
  unfold RehubSpokes. do 2 (case_bool_decide; [done|]). intros Hok Hnd.
  apply res_bind_Ok in Hok as ([promote others] & Hs & Hr). destruct promote as [p|]; [|done].
  apply res_bind_Ok in Hr as (inv & Hinv & Hr). apply res_wrap_Ok in Hinv.
  apply res_bind_Ok in Hr as (m & _ & Hr). apply res_bind_Ok in Hr as (composed & Hc & [= <- <-]).
  apply split_spokes_split in Hs as (l1 & l2 & -> & -> & Hv); [|done].
  apply compose_spoke_versions in Hc. cbn. rewrite Hc, !fmap_app. cbn. rewrite Hv.
  split_and!; [done| |].
  - rewrite <- Permutation_middle. apply Permutation_swap.
  - exists p. eexists. split_and!; [|done|done|done|done]. rewrite elem_of_app, elem_of_cons. auto.
Qed.

Lemma StronglySorted_filter {A} (R : relation A) (P : A → Prop) `{!∀ x, Decision (P x)} l :
  StronglySorted R l → StronglySorted R (filter P l).
Proof.
  induction 1 as [|x l Hl IH Hx]; [constructor|]. rewrite filter_cons. case_decide; [|done].
  constructor; [done|]. apply Forall_forall. intros y [_ Hy]%list_elem_of_filter.
  by eapply Forall_forall in Hx.
Qed.

(** The lifting loop, with the claims as they were before it. *)
Lemma lift_loop (m : gmap string string) leaves (claimed0 : gset string) ks rules claimed :
  NoDup ks → (∀ k, k ∈ ks → k ∈ claimed ↔ k ∈ claimed0) →
  (foldl (lift_step m leaves) (rules, claimed) ks).1 =
  rules ++ ((λ k, lifted_rename (default "" (m !! k)) k) <$>
    filter (λ k, k ≠ default "" (m !! k) ∧ k ∈ leaves ∧ k ∉ claimed0) ks).
Proof.
  revert rules claimed; induction ks as [|k ks IH]; intros rules claimed Hnd Hc; [cbn; by rewrite app_nil_r|].
  apply NoDup_cons in Hnd as [Hk Hnd]. rewrite filter_cons. cbn [foldl].
  destruct (Hc k ltac:(by left)) as [Hc1 Hc2].
  assert (∀ k', k' ∈ ks → k' ∈ claimed ↔ k' ∈ claimed0) as Hc' by (intros; apply Hc; by right).
  unfold lift_step at 2. cbn [fst snd]. case_decide as Hd.
  - destruct Hd as (H1 & H2 & H3).
    rewrite bool_decide_false by done. rewrite bool_decide_false by (intros H; by apply H).
    rewrite bool_decide_false by tauto. rewrite IH; [cbn; by rewrite <- app_assoc|done|].
    intros k' Hk'. rewrite <- (Hc' k' Hk'). assert (k' ≠ k) by (by intros ->). set_solver.
  - destruct (decide (k = default "" (m !! k))) as [He|He]; [rewrite bool_decide_true by done; by apply IH|].
    rewrite bool_decide_false by done.
    destruct (decide (k ∈ leaves)) as [Hl|Hl]; [rewrite bool_decide_false by (intros H; by apply H)|
      rewrite bool_decide_true by done; by apply IH].
    rewrite bool_decide_true by (apply Hc2; destruct (decide (k ∈ claimed0)); tauto). by apply IH.
Qed.

(** A composed spoke has its own rules, rewritten, then one rename for every
    leaf that was copied without a rule and is not any more: the old hub paths
    the promoted rules move, that are leaves of the spoke and that no rewritten
    rule claims, each exactly once and in order. *)
Theorem composition_lifts_exactly rules m leaves out :
  ComposeSpokeRules rules m leaves = Ok out →
  ∃ rewritten ks, each_rule (RewriteHubPaths m) rules = Ok rewritten ∧
    out = rewritten ++ ((λ k, lifted_rename (default "" (m !! k)) k) <$> ks) ∧
    NoDup ks ∧ StronglySorted String.le ks ∧
    ∀ k, k ∈ ks ↔ ∃ new, m !! k = Some new ∧ k ≠ new ∧ k ∈ leaves ∧ k ∉ concat (spokePathsOf <$> rewritten).
Proof.
  unfold ComposeSpokeRules. intros (rewritten & Hr & [= <-])%res_bind_Ok.
  exists rewritten. eexists. split_and!; [done|apply lift_loop; [|done]| | |].
  - rewrite sort_strings_perm. apply NoDup_fst_map_to_list.
  - apply NoDup_filter. rewrite sort_strings_perm. apply NoDup_fst_map_to_list.
  - apply StronglySorted_filter, sort_strings_sorted.
  - intros k. rewrite list_elem_of_filter, elem_of_sort_strings, list_elem_of_fmap, elem_of_list_to_set. split.
    + intros ((Hne & Hl & Hc) & ([k' new] & -> & Hm)). cbn in *. apply elem_of_map_to_list in Hm.
      rewrite Hm in Hne. cbn in Hne. eauto.
    + intros (new & Hm & Hne & Hl & Hc). rewrite Hm. split; [done|].
      exists (k, new). split; [done|]. by apply elem_of_map_to_list.
Qed.
End rehub_properties.

(** ** Witnesses *)

#[local] Existing Instances canonical_order fixture_externs fixture_compile_externs.

Definition size_rule : ConversionRule :=
  rule_of (PtrFieldRename {| afrHubPath := "spec.size"; afrSpokePath := "spec.sizeName" |}) false "" None.

Lemma promoted_spoke_converts_alike_witness :
  ∃ inv rs' plan plan' ds ds',
    InvertRules [size_rule] = Ok inv ∧ convertRules inv = Ok rs' ∧
    Compile 5 {| rsHubVersion := "v2"; rsSpokeVersion := "v1"; rsRules := [rename_rule];
                 rsUnmappedFieldPolicy := UnmappedFieldPolicyError |}
      (Some hub_schema) (Some spoke_schema) = Ok (plan, ds) ∧
    Compile 5 {| rsHubVersion := "v1"; rsSpokeVersion := "v2"; rsRules := rs';
                 rsUnmappedFieldPolicy := UnmappedFieldPolicyError |}
      (Some spoke_schema) (Some hub_schema) = Ok (plan', ds') ∧
    ∀ dir o o', Convert (Some plan) dir o = Ok o' ↔ Convert (Some plan') (opposite dir) o = Ok o'.
Proof.
  apply (promoted_spoke_converts_alike 5 [size_rule] [rename_rule] hub_schema spoke_schema hub_schema spoke_schema
    "v2" "v1" UnmappedFieldPolicyError).
  - apply Forall_singleton. eexists. split; [by vm_compute|done].
  - by vm_compute.
  - by vm_compute.
  - by vm_compute.
  - apply plain_schema_check. by vm_compute.
  - apply plain_schema_check. by vm_compute.
Defined.

Definition demo_spokes : list SpokeVersionRules :=
  [ {| svVersion := "v1"; svRules := [size_rule] |}; {| svVersion := "v0"; svRules := [] |} ].
Definition leaf_sets : gmap string (gset string) := {[ "v0" := {[ "spec.size"; "spec.replicas" ]} ]}.
Definition demo_rehubbed : list SpokeVersionRules :=
  match RehubSpokes "v2" "v1" demo_spokes leaf_sets with Ok (_, out) => out | Err _ => [] end.

Lemma rehub_keeps_versions_witness :
  "v1" = "v1" ∧ "v2" :: (svVersion <$> demo_spokes) ≡ₚ "v1" :: (svVersion <$> demo_rehubbed) ∧
  ∃ promoted old, promoted ∈ demo_spokes ∧ svVersion promoted = "v1" ∧ head demo_rehubbed = Some old ∧
    svVersion old = "v2" ∧ InvertRules (svRules promoted) = Ok (svRules old).
Proof.
  apply (rehub_keeps_versions "v2" "v1" demo_spokes leaf_sets "v1" demo_rehubbed); [by vm_compute|].
  apply (bool_decide_unpack _). by vm_compute.
Defined.

Definition lifted : list ConversionRule :=
  match ComposeSpokeRules [] {[ "spec.size" := "spec.sizeName" ]} {[ "spec.size"; "spec.replicas" ]} with
  | Ok out => out | Err _ => [] end.

Lemma composition_lifts_exactly_witness :
  length lifted = 1 ∧
  ∃ rewritten ks, each_rule (RewriteHubPaths {[ "spec.size" := "spec.sizeName" ]}) [] = Ok rewritten ∧
    lifted = rewritten ++ ((λ k, lifted_rename (default "" (({[ "spec.size" := "spec.sizeName" ]} : gmap string string) !! k)) k) <$> ks) ∧
    NoDup ks ∧ StronglySorted String.le ks ∧
    ∀ k, k ∈ ks ↔ ∃ new, ({[ "spec.size" := "spec.sizeName" ]} : gmap string string) !! k = Some new ∧ k ≠ new ∧
      k ∈ ({[ "spec.size"; "spec.replicas" ]} : gset string) ∧ k ∉ concat (spokePathsOf <$> rewritten).
Proof. split; [by vm_compute|]. apply (composition_lifts_exactly [] _ _ lifted). by vm_compute. Defined.
