(* ===== verification/ReplicaProperties.v ===== *)
(** What a webhook-server replica promises: its registry is linearizable and never
    stuck, a plan is served until its target is released, a released target is
    dropped when its drain is over, and the initial pass does not depend on the
    order its workers run in. *)
From S2P Require Import Prelude Float64 Value Path Schema Rules Ops Convert Diagnostics Compile Normalize Platform Required Analyze Assign Api Configs Adapters Registry RegistryTheory Replica ReplicaTheory Fixtures.

(** ** The concurrent registry *)

(** C7. The registry is linearizable.  Whatever goroutines call its methods, and
    however their steps interleave, loop iterations included, the invocations
    and results seen are those of a run of the atomic registry, in which each
    call takes effect in one step between its invocation and its return, and
    both end with the same contents. *)
Theorem registry_linearizable tr m' :
  run machine_step initial_machine tr m' →
  ∃ a', run atomic_step initial_atomic tr a' ∧ contents (mStore m') = atRegistry a'.
Proof.
  intros Hrun. destruct (simulates_run _ _ _ _ simulates_initial Hrun) as (a' & Ha & Hsim).
  exists a'. split; [done|]. apply (sim_contents _ _ Hsim).
Qed.

(** Nobody waits for a reader, and nobody waits forever.  At every reachable
    state a goroutine inside a method can take its next step, unless it is a
    writer waiting for the mutex, and then the goroutine that holds the mutex
    can; and a goroutine takes only finitely many steps in one call. *)
Theorem registry_progress tr m t p :
  run machine_step initial_machine tr m → mThreads m !! t = Some p →
  (can_step t (mStore m) p ∨
   ∃ c t' p', p = Started c ∧ is_writer c = true ∧ stLocked (mStore m) = Some t' ∧
     mThreads m !! t' = Some p' ∧ can_step t' (mStore m) p') ∧
  Acc later p.
Proof.
  intros Hrun Ht. split; [|apply later_well_founded].
  destruct (simulates_run _ _ _ _ simulates_initial Hrun) as (a & _ & Hsim).
  assert (holder_inside m) as Hh.
  { eapply (run_inv machine_step); [by eapply holder_inside_step|done|]. done. }
  assert (∀ t p, mThreads m !! t = Some p → (∀ c, p = Started c → is_writer c = false) → can_step t (mStore m) p) as Hcan.
  { intros t1 p1 Ht1 Hn. destruct (sim_thread _ _ _ _ Hsim Ht1) as (pa & _ & Hok).
    eapply inside_can_step; [apply (sim_store _ _ Hsim)|done|done]. }
  destruct p as [c| | | | | | | |]; try (left; by apply Hcan).
  destruct (is_writer c) eqn:Hw; [|left; apply Hcan; [done|by intros c' [= <-]]].
  destruct (stLocked (mStore m)) as [t'|] eqn:Hl.
  - destruct (Hh _ Hl) as (p' & Hp' & Hin). right. exists c, t', p'. split_and!; try done.
    apply Hcan; [done|]. by intros c' ->.
  - left. left. do 2 eexists. by apply m_lock.
Qed.

(** ** The reconciler *)

Section replica_properties.
Context `{ML : MathLog} `{RO : RangeOrder} `{EX : Externs} `{CX : CompileExterns} (se : Settings).
Context `{U : Unstructured} (scope_text : xrdadapter.scope_reason → string)
  (versions_text : xrdadapter.versions_error → string).

Abbreviation step := (run_one se scope_text versions_text).
Abbreviation run_all := (foldl step).

(** The view holds the replica to its target: the config is there, and its target
    is assigned here or still points here, or the API server did not say. *)
Definition keeps_view {C T} `{TK : TargetKind C T} (v : view C T) : Prop :=
  match live v with
  | None => False
  | Some cfg =>
    match vwServers v with
    | Err _ => True
    | Ok servers =>
      match vwTarget v with
      | Found target => assigned_here se cfg servers = true ∨ tk_points target (seServerName se) = true
      | NotFound => assigned_here se cfg servers = true
      | Failed _ => True
      end
    end
  end.
Definition keeps (w : work) : Prop :=
  match w with
  | WorkXRD _ v => keeps_view (TK := xrd_kind scope_text versions_text) v
  | WorkCRD _ v => keeps_view (TK := crd_kind) v
  end.

Definition routed (e : option CompiledEntry) : Prop := is_Some (e ≫= ceRouter).

Lemma compile_outcome_routed {C T} `{TK : TargetKind C T} cfg target now e :
  routed e → routed (Some (compile_outcome se cfg target now e)).
Proof.
  intros He. assert (∀ msg, routed (Some (with_error e msg now))) as H.
  { intros msg. destruct He as [x Hx]. destruct e as [e|]; [|done]. by exists x. }
  unfold compile_outcome. destruct (tk_rules cfg); [|done]. destruct (Analyze _ _); [|done].
  destruct (HasErrors _); [done|]. by eexists.
Qed.

Lemma keeps_view_routed {C T} `{TK : TargetKind C T} (v : view C T) cfg e d :
  keeps_view v → live v = Some cfg → routed e → routed (live_outcome se cfg v e d).1.
Proof.
  unfold keeps_view, live_outcome. intros Hk Hl He. rewrite Hl in Hk.
  destruct (vwServers v) as [servers|]; [|done]. destruct (vwTarget v) as [o| |]; [| |done].
  - destruct (assigned_here se cfg servers), (tk_points o (seServerName se)); cbn;
      [by apply compile_outcome_routed..|]. by destruct Hk.
  - rewrite Hk. cbn. destruct He as [x Hx]. destruct e as [e|]; [|done]. by exists x.
Qed.

Lemma keeps_routed w e d : keeps w → is_Some (work_target scope_text versions_text w) ∧
  (routed e → routed (work_outcome se scope_text versions_text w e d).1).
Proof.
  destruct w as [n v|n v]; cbn; intros Hk; pose proof Hk as Hk'; unfold keeps_view in Hk';
    destruct (live v) as [cfg|] eqn:Hl; try done; (split; [by eexists|]); intros He; cbn; by apply keeps_view_routed.
Qed.

(** C8. A working plan stays until its target is released.  Take a target served
    with a compiled plan, whose config is [key], and any sequence of reconciles.
    If the reconciles of [key] find the target assigned to this replica or still
    pointing at it, or fail to read, and no other config names the target, then
    the target is served with a plan all along, however many times rules,
    schemas or reads were broken in between. *)
Theorem served_until_released ws r key t :
  routed (rpRegistry r !! t) → (∀ k, rpConfigToTarget r !! k = Some t → k = key) →
  Forall (λ w, if decide (work_key w = key) then keeps w
               else work_target scope_text versions_text w ≠ Some t) ws →
  routed (rpRegistry (run_all r ws) !! t).
Proof.
  intros He Hk Hws. revert r He Hk. induction Hws as [|w ws Hw _ IH]; intros r He Hk; [done|].
  cbn. apply IH.
  - destruct (decide (work_key w = key)) as [<-|Hne].
    + destruct (keeps_routed w (rpRegistry r !! t) (rpDrainUntil r !! work_key w) Hw) as [[t' Ht] Hr].
      rewrite run_registry. unfold work_maps. rewrite Ht. cbn.
      destruct (decide (t' = t)) as [->|Hne]; [rewrite lookup_partial_alter_eq; by apply Hr|].
      by rewrite lookup_partial_alter_ne.
    + rewrite work_touches; [done| |].
      * intros t' Ht ->. done.
      * intros Ht. by apply Hk in Ht.
  - intros k [Ht|[-> Ht]]%work_targets; [by apply Hk|]. destruct (decide (work_key w = key)); done.
Qed.

(** The view of a live config whose target is assigned elsewhere and points
    elsewhere. *)
Definition handed_over {C T} `{TK : TargetKind C T} (t : string) (v : view C T) : Prop :=
  ∃ cfg servers target, vwConfig v = Found cfg ∧ omDeleting (tk_meta cfg) = false ∧ tk_target cfg = t ∧
    vwServers v = Ok servers ∧ assigned_here se cfg servers = false ∧
    vwTarget v = Found target ∧ tk_points target (seServerName se) = false.

Section drain.
Context {C T} `{TK : TargetKind C T} (name t : string).
Abbreviation key := (configKey tk_prefix name).

(** The requeue delay and the state, for a target that was handed over. *)
Lemma handed_over_step r v : handed_over t v →
  let '(e, d, wait) := drain_outcome se (rpRegistry r !! t) (rpDrainUntil r !! key) (vwNow v) in
  let '(r', x) := reconcileOne se r name v in
  rpRegistry r' !! t = e ∧ rpDrainUntil r' !! key = d ∧ x = Ok wait.
Proof.
  intros (cfg & servers & target & Hc & Hd & <- & Hs & Ha & Ht & Hp).
  pose proof (maps_hand_over se (rememberConfig r key (tk_target cfg)) key cfg (vwNow v)) as Hh.
  unfold reconcileOne. rewrite Hc, Hd, Hs, Ht, Ha, Hp. cbn -[drain_outcome hand_over] in *.
  destruct (drain_outcome _ _ _ _) as [[e d] w], (hand_over _ _ _ _ _) as [r' w']. cbn in *.
  destruct Hh as [[= H1 _ H2] ->]. rewrite H1, H2. by rewrite !lookup_partial_alter_eq.
Qed.

(** C15. A released target is dropped, and not before its drain is over.  Take a
    target served here without a drain under way, and reconciles of its config
    that all find it assigned to and pointing at somebody else.  The first one
    starts the drain and asks to be run again after the period; while the moments
    lie inside the period the entry is served unchanged; the first reconcile at
    or after its end drops the entry and forgets the deadline. *)
Theorem drain_completes r e v0 vs v :
  (0 < drain_period se)%Z → rpRegistry r !! t = Some e → rpDrainUntil r !! key = None →
  handed_over t v0 → Forall (handed_over t) vs → handed_over t v →
  Forall (λ u, (vwNow u < vwNow v0 + drain_period se)%Z) vs → (vwNow v0 + drain_period se ≤ vwNow v)%Z →
  let go := λ r u, (reconcileOne se r name u).1 in
  (reconcileOne se r name v0).2 = Ok (drain_period se) ∧
  rpRegistry (foldl go (go r v0) vs) !! t = Some e ∧
  rpRegistry (go (foldl go (go r v0) vs) v) !! t = None ∧
  rpDrainUntil (go (foldl go (go r v0) vs) v) !! key = None.
Proof.
  intros Hp He Hd H0 Hvs Hv Hin Hend go.
  assert (rpRegistry (go r v0) !! t = Some e ∧ rpDrainUntil (go r v0) !! key = Some (vwNow v0 + drain_period se)%Z ∧
    (reconcileOne se r name v0).2 = Ok (drain_period se)) as (He0 & Hd0 & Hx).
  { pose proof (handed_over_step r v0 H0) as Hs. unfold drain_outcome in Hs. rewrite He, Hd in Hs.
    replace (drain_period se <? 0)%Z with false in Hs by lia. replace (0 <? drain_period se)%Z with true in Hs by lia.
    unfold go. destruct (reconcileOne se r name v0). cbn in *. naive_solver. }
  split; [done|]. clear Hx.
  assert (rpRegistry (foldl go (go r v0) vs) !! t = Some e ∧
          rpDrainUntil (foldl go (go r v0) vs) !! key = Some (vwNow v0 + drain_period se)%Z) as [He1 Hd1].
  { revert He0 Hd0. generalize (go r v0) as r0. induction vs as [|u vs IH]; intros r0 He0 Hd0; [done|].
    apply Forall_cons in Hvs as [Hu Hvs], Hin as [Hiu Hin]. cbn. apply IH; [done..| |];
      pose proof (handed_over_step r0 u Hu) as Hs; unfold drain_outcome in Hs; rewrite He0, Hd0 in Hs;
      replace (drain_period se <? 0)%Z with false in Hs by lia;
      replace (0 <? vwNow v0 + drain_period se - vwNow u)%Z with true in Hs by lia;
      unfold go; destruct (reconcileOne se r0 name u); naive_solver. }
  split; [done|]. revert He1 Hd1. generalize (foldl go (go r v0) vs) as r1. intros r1 He1 Hd1.
  pose proof (handed_over_step r1 v Hv) as Hs. unfold drain_outcome in Hs. rewrite He1, Hd1 in Hs.
  replace (drain_period se <? 0)%Z with false in Hs by lia.
  replace (0 <? vwNow v0 + drain_period se - vwNow v)%Z with false in Hs by lia.
  unfold go. destruct (reconcileOne se r1 name v). naive_solver.
Qed.
End drain.

(** The initial pass does not depend on the order its workers run in.  For
    configs with distinct names and distinct targets, none known to the replica
    yet, any two orders of the units leave the same registry, the same bookkeeping
    and the same errors, whatever each unit reads. *)
Theorem initial_sync_order_irrelevant r ws ws' :
  ws ≡ₚ ws' → Forall (fresh_key r) ws → ForallOrdPairs (independent scope_text versions_text) ws →
  let '(r1, (n1, errs1)) := InitialSync se scope_text versions_text r ws in
  let '(r2, (n2, errs2)) := InitialSync se scope_text versions_text r ws' in
  maps_of r1 = maps_of r2 ∧ n1 = n2 ∧ errs1 ≡ₚ errs2.
Proof.
  intros Hp Hf Hi. unfold InitialSync. rewrite !initial_work_runs. split_and!.
  - unfold maps_of. rewrite !registryChanged_registry, !registryChanged_targets, !registryChanged_drains. cbn.
    apply pass_permutation; [done|done|done|]. eapply ForallOrdPairs_perm; [apply _|exact Hp|done].
  - by rewrite Hp.
  - by rewrite Hp.
Qed.

(** Every plan of an entry with a router is there. *)
Definition complete (e : CompiledEntry) : Prop :=
  ∀ rt, ceRouter e = Some rt → map_Forall (λ _ p, is_Some p) (rtPlans rt).

Lemma error_free_compiled (i : AnalyzeInput) fuel report sr :
  Analyze fuel i = Ok report → HasErrors report = false → sr ∈ arSpokeReports report → is_Some (srCompiledPlan sr).
Proof.
  intros Ha He Hsr. assert (length (srErrors sr) = 0) as Hlen.
  { destruct (decide (length (srErrors sr) = 0)) as [|Hne]; [done|exfalso]. apply not_true_iff_false in He. apply He.
    unfold HasErrors. apply existsb_exists. exists sr. split; [by apply list_elem_of_In|].
    by rewrite bool_decide_false. }
  unfold Analyze in Ha. apply res_bind_Ok in Ha as (raw & _ & Ha). apply res_bind_Ok in Ha as (vs & _ & Ha).
  destruct (_ !! aiHubVersion i) as [hub|]; [|done]. destruct (negb _); [done|]. injection Ha as <-. cbn in Hsr.
  apply list_elem_of_fmap in Hsr as (rs & -> & _). unfold analyze_spoke in *.
  destruct (_ !! rsSpokeVersion rs) as [spoke|]; [|done]. destruct (negb _); [done|].
  unfold analyze_served in *. cbn -[spoke_diags] in *. by rewrite bool_decide_true.
Qed.

Lemma complete_with_error e msg now : (∀ x, e = Some x → complete x) → complete (with_error e msg now).
Proof. intros He rt. cbn. destruct e as [e|]; [by apply He|done]. Qed.

Lemma complete_compiled hub review report hash now :
  (∀ sr, sr ∈ arSpokeReports report → is_Some (srCompiledPlan sr)) → complete (compiled_entry hub review report hash now).
Proof.
  intros Hall rt. cbn. intros [= <-]. cbn. revert Hall.
  assert (∀ m : gmap string (option Plan), map_Forall (λ _ p, is_Some p) m →
    (∀ sr, sr ∈ arSpokeReports report → is_Some (srCompiledPlan sr)) →
    map_Forall (λ _ p, is_Some p) (foldl (λ m sr, <[srVersion sr := srCompiledPlan sr]> m) m (arSpokeReports report))) as H.
  { induction (arSpokeReports report) as [|sr l IH]; intros m Hm Hl; [done|]. cbn. apply IH.
    - apply map_Forall_insert_2; [apply Hl; by left|done].
    - intros sr' Hsr'. apply Hl. by right. }
  intros Hall. apply H; [apply map_Forall_empty|done].
Qed.

Lemma live_outcome_complete {C T} `{TK : TargetKind C T} cfg (v : view C T) e d :
  (∀ x, e = Some x → complete x) → ∀ x, (live_outcome se cfg v e d).1 = Some x → complete x.
Proof.
  intros He x. unfold live_outcome. destruct (vwServers v) as [servers|]; [|apply He].
  destruct (vwTarget v) as [o| |]; [| |apply He].
  - destruct (negb _ && negb _).
    + unfold drain_outcome. destruct (_ <? 0)%Z; [done|]. destruct e as [e|], d as [d|]; try done;
        (destruct (0 <? _)%Z; [apply He|done]).
    + cbn. intros [= <-]. unfold compile_outcome. destruct (tk_rules cfg) as [rs|]; [|by apply complete_with_error].
      destruct (Analyze _ _) as [report|] eqn:Ha; [|by apply complete_with_error].
      destruct (HasErrors report) eqn:Hr; [by apply complete_with_error|]. apply complete_compiled.
      intros sr. by eapply error_free_compiled.
  - destruct (assigned_here _ _ _); [|done]. cbn. intros [= <-]. by apply complete_with_error.
Qed.

Lemma step_complete r w : map_Forall (λ _, complete) (rpRegistry r) → map_Forall (λ _, complete) (rpRegistry (step r w)).
Proof.
  intros Hr t x. rewrite run_registry. unfold work_maps. destruct (work_target _ _ w) as [t'|] eqn:Ht; cbn.
  - destruct (decide (t' = t)) as [->|Hne]; [|rewrite lookup_partial_alter_ne by done; by apply Hr].
    rewrite lookup_partial_alter_eq. destruct w as [n v|n v]; cbn in *; (destruct (live v); [|done]);
      cbn; apply live_outcome_complete; intros y Hy; by apply (Hr t).
  - destruct (work_gone _ _ w); [|apply Hr]. rewrite maps_forget. cbn.
    destruct (rpConfigToTarget r !! work_key w); [|apply Hr]. intros [_ Hx]%lookup_delete_Some. by apply (Hr t).
Qed.

Lemma convert_plan_error p dir o : Convert (Some p) dir o ≠ Err NilPlan.
Proof. unfold Convert. destruct (apply_ops _ _); cbn; [done|by intros [= ]]. Qed.

(** A request is never routed to a plan that is not there.  Whatever a replica
    has reconciled since it started, every router in its registry was compiled
    from an analysis without errors, each of its versions has its plan, and a
    conversion through it does not fail for want of one, other than for a
    version no config names. *)
Theorem served_plans_complete ws t e rt :
  rpRegistry (run_all new_replica ws) !! t = Some e → ceRouter e = Some rt →
  map_Forall (λ _ p, is_Some p) (rtPlans rt) ∧
  ∀ o from to, Router_Convert rt o from to ≠ Err (ToHubFailed from NilPlan) ∧
               Router_Convert rt o from to ≠ Err (FromHubFailed to NilPlan).
Proof.
  intros He Hrt. assert (∀ r, map_Forall (λ _, complete) (rpRegistry r) →
    map_Forall (λ _, complete) (rpRegistry (run_all r ws))) as H.
  { clear He. induction ws as [|w ws' IH]; intros r Hr; [done|]. cbn. by apply IH, step_complete. }
  assert (map_Forall (λ _ p, is_Some p) (rtPlans rt)) as Hall.
  { apply (H new_replica (map_Forall_empty _) _ _ He), Hrt. }
  assert (∀ v p dir o, rtPlans rt !! v = Some p → Convert p dir o ≠ Err NilPlan) as Hc.
  { intros v p dir o Hv. destruct (Hall _ _ Hv) as [p' ->]. apply convert_plan_error. }
  split; [done|]. intros o from to. unfold Router_Convert. destruct (bool_decide (from = to)); [by split|].
  destruct (if bool_decide (from = rtHub rt) then Ok o else _) as [h|er] eqn:Eh; cbn.
  - destruct (bool_decide (to = rtHub rt)); [by split|]. destruct (rtPlans rt !! to) as [q|] eqn:Hq; [|by split].
    pose proof (Hc _ _ HubToSpoke h Hq). destruct (Convert q HubToSpoke h); cbn; split; congruence.
  - destruct (bool_decide (from = rtHub rt)); [done|].
    destruct (rtPlans rt !! from) as [q|] eqn:Hq; [|injection Eh as <-; by split].
    pose proof (Hc _ _ SpokeToHub o Hq). destruct (Convert q SpokeToHub o); cbn in Eh; [done|].
    injection Eh as <-. split; congruence.
Qed.
End replica_properties.

(** ** Witnesses *)

#[local] Existing Instances canonical_order fixture_externs fixture_compile_externs.
#[local] Instance portable_log : MathLog := go_log.

(** A reader that loads the old map before the writer stores the new one, and
    returns after the writer did. *)
Definition overlap : list event :=
  [Invoke 1 (CSet "apps" zero_entry); Invoke 2 (CGet "apps"); Return 1 RUnit; Return 2 (RGot None)].

Ltac silent t rule :=
  eapply run_silent; [eapply (mc_method _ _ _ t); [reflexivity|eapply rule; try reflexivity; try done]|cbn].

Lemma overlap_runs : ∃ m, run machine_step initial_machine overlap m.
Proof.
  eexists. unfold overlap, initial_machine.
  eapply run_event; [done|eapply (mc_invoke_set _ _ _ _ _ 1%positive); done|cbn].
  eapply run_event; [done|eapply (mc_invoke _ _ 2 (CGet "apps")); done|cbn].
  silent 1 m_lock. silent 1 m_load. silent 2 m_read.
  eapply run_silent; [eapply (mc_method _ _ _ 1); [reflexivity|]|cbn].
  { eapply (m_make _ _ _ _ _ 2%positive []); try reflexivity. by intros k. }
  silent 1 m_set. silent 1 m_store. silent 1 m_unlock.
  eapply run_event; [done|eapply (mc_return _ _ 1 PUnit); reflexivity|cbn].
  silent 2 m_get.
  eapply run_event; [done|eapply (mc_return _ _ 2 (PGot None)); reflexivity|cbn].
  apply run_nil.
Qed.

Lemma registry_linearizable_witness :
  ∃ m' a', run machine_step initial_machine overlap m' ∧ run atomic_step initial_atomic overlap a' ∧
    contents (mStore m') = atRegistry a'.
Proof.
  destruct overlap_runs as [m' Hm]. exists m'.
  destruct (registry_linearizable overlap m' Hm) as (a' & Ha & Hc). by exists a'.
Defined.

(** Goroutine 1 holds the mutex, goroutine 2 waits for it. *)
Definition contended : list event := [Invoke 1 (CRemove "apps"); Invoke 2 (CRemove "apps")].

Lemma contended_runs : ∃ m, run machine_step initial_machine contended m ∧
  mThreads m !! 2 = Some (Started (CRemove "apps")) ∧ stLocked (mStore m) = Some 1.
Proof.
  eexists. split; [|split].
  - unfold contended, initial_machine.
    eapply run_event; [done|eapply (mc_invoke _ _ 1 (CRemove "apps")); done|cbn].
    eapply run_event; [done|eapply (mc_invoke _ _ 2 (CRemove "apps")); done|cbn].
    silent 1 m_lock. apply run_nil.
  - reflexivity.
  - reflexivity.
Qed.

Lemma registry_progress_witness :
  ∃ m, mThreads m !! 2 = Some (Started (CRemove "apps")) ∧
    (can_step 2 (mStore m) (Started (CRemove "apps")) ∨
     ∃ c t' p', Started (CRemove "apps") = Started c ∧ is_writer c = true ∧
       stLocked (mStore m) = Some t' ∧ mThreads m !! t' = Some p' ∧ can_step t' (mStore m) p') ∧
    Acc later (Started (CRemove "apps")).
Proof.
  destruct contended_runs as (m & Hm & Ht & _). exists m. split; [exact Ht|].
  destruct (registry_progress contended m 2 (Started (CRemove "apps")) Hm Ht) as [[H|(c & t' & p' & H)] Hacc].
  - split; [by left|exact Hacc].
  - split; [right; by exists c, t', p'|exact Hacc].
Defined.

(** A cluster: one server, one CRD in two versions, one config. *)
Definition main_server : ConversionWebhookServer := {| cwsName := "main"; cwsDefault := true; cwsSharding := None |}.
Definition other_server : ConversionWebhookServer := {| cwsName := "other"; cwsDefault := true; cwsSharding := None |}.
Definition demo_settings : Settings := {|
  seServerName := "main"; seTargetDrainPeriod := 0; seMetrics := true; seEnableXRDSupport := false;
  seEnableCRDSupport := true; failure_text := failure_reason; seFuel := 5 |}.
Definition served_by (server : string) : CustomResourceDefinition := {|
  crdName := "apps"; crdGeneration := 7;
  crdVersions := [ {| cvName := "v2"; cvServed := true; cvStorage := true; cvSchema := Some (Some hub_schema) |};
                   {| cvName := "v1"; cvServed := true; cvStorage := false; cvSchema := Some (Some spoke_schema) |} ];
  crdConversion := Some {| ccStrategy := "Webhook"; ccWebhook := Some {|
    whClientConfig := Some {| wcURL := None; wcService :=
      Some {| svcNamespace := "system"; svcName := WebhookServerServiceName server;
             svcPath := None; svcPort := None |}; wcCABundle := "" |};
    whReviewVersions := ["v1"] |} |};
  crdConditions := [("Established", "True")] |}.
Definition demo_crd_config (rules : list ConversionRule) : CRDConversionConfig := {|
  kcMeta := {| omName := "apps-config"; omDeleting := false; omGeneration := 1;
    omFinalizers := []; omAnnotations := ∅ |};
  kcSpec := {| csTargetCRD := "apps"; csHubVersion := "v2"; csSpokes := [ {| svVersion := "v1"; svRules := rules |} ];
    csWebhookServerRef := None; csConversionReviewVersions := []; csUnmappedFieldPolicy := "";
    csUnmappedFieldReason := ""; csDriftPolicy := "" |};
  kcStatus := new_status |}.
Definition view_of (rules : list ConversionRule) (server : ConversionWebhookServer) (points : string) (now : Z)
    : view CRDConversionConfig CustomResourceDefinition := {|
  vwConfig := Found (demo_crd_config rules); vwServers := Ok [server];
  vwTarget := Found (served_by points); vwNow := now |}.
Definition size_renamed : ConversionRule :=
  rule_of (PtrFieldRename {| afrHubPath := "spec.size"; afrSpokePath := "spec.sizeName" |}) false "" None.

#[local] Existing Instance fixture_unstructured.
Definition scope_text (r : xrdadapter.scope_reason) : string := "".
Definition versions_text (e : xrdadapter.versions_error) : string := "".
Abbreviation demo_run := (run_one demo_settings scope_text versions_text).

(** Compiled, then the rules break, then the CRD disappears. *)
Definition first_sync : work := WorkCRD "apps-config" (view_of [size_renamed] main_server "main" 1).
Definition broken_sync : work := WorkCRD "apps-config" (view_of [] main_server "main" 2).
Definition synced : replica := demo_run new_replica first_sync.

Lemma served_until_released_witness :
  routed (rpRegistry (foldl demo_run synced [broken_sync]) !! "apps") ∧
  ceLastError <$> rpRegistry (foldl demo_run synced [broken_sync]) !! "apps" = Some "ValidationErrors".
Proof.
  split; [|by vm_compute].
  apply (served_until_released demo_settings scope_text versions_text [broken_sync] synced "crd/apps-config" "apps").
  - vm_compute. by eexists.
  - intros k Hk. assert ({["crd/apps-config" := "apps"]} = rpConfigToTarget synced) as E by (by vm_compute).
    assert (({["crd/apps-config" := "apps"]} : gmap string string) !! k = Some "apps") as Hk'
      by (transitivity (rpConfigToTarget synced !! k); [exact (f_equal (λ m : gmap string string, m !! k) E)|exact Hk]).
    by apply lookup_singleton_Some in Hk' as [? _].
  - apply Forall_singleton. rewrite decide_True by done. by left; vm_compute.
Defined.

(** The server is no longer the default and the CRD points at the other one: the
    drain starts at 10, is asked about at 20, and is over after 30 seconds. *)
Definition released_view (now : Z) : view CRDConversionConfig CustomResourceDefinition :=
  view_of [size_renamed] other_server "other" now.
#[local] Instance demo_crd_kind : TargetKind CRDConversionConfig CustomResourceDefinition := crd_kind.
Definition synced_entry : CompiledEntry := default zero_entry (rpRegistry synced !! "apps").

Lemma released_handed_over now : handed_over demo_settings "apps" (released_view now).
Proof. exists (demo_crd_config [size_renamed]), [other_server], (served_by "other"). by split_and!; try vm_compute. Qed.

Lemma drain_completes_witness :
  let go := λ r u, (reconcileOne demo_settings r "apps-config" u).1 in
  let r1 := go synced (released_view 10) in
  rpRegistry (foldl go r1 [released_view 20]) !! "apps" = Some synced_entry ∧
  rpRegistry (go (foldl go r1 [released_view 20]) (released_view 30000000010)) !! "apps" = None.
Proof.
  intros go r1.
  destruct (drain_completes demo_settings "apps-config" "apps" synced synced_entry (released_view 10)
    [released_view 20] (released_view 30000000010)) as (_ & H1 & H2 & _).
  - by vm_compute.
  - unfold synced_entry. by destruct (rpRegistry synced !! "apps") eqn:E; [|by vm_compute in E].
  - by vm_compute.
  - apply released_handed_over.
  - apply Forall_singleton, released_handed_over.
  - apply released_handed_over.
  - by repeat constructor.
  - by vm_compute.
  - split; [exact H1|exact H2].
Defined.

(** Two configs in either order: one compiles, the read of the other fails. *)
Definition failing_sync : work := WorkCRD "jobs-config" {|
  vwConfig := Failed "timeout"; vwServers := Ok [main_server]; vwTarget := NotFound; vwNow := 1 |}.

Lemma initial_sync_order_irrelevant_witness :
  let '(r1, (n1, errs1)) := InitialSync demo_settings scope_text versions_text new_replica [first_sync; failing_sync] in
  let '(r2, (n2, errs2)) := InitialSync demo_settings scope_text versions_text new_replica [failing_sync; first_sync] in
  maps_of r1 = maps_of r2 ∧ n1 = n2 ∧ errs1 ≡ₚ errs2.
Proof.
  apply (initial_sync_order_irrelevant demo_settings scope_text versions_text new_replica
    [first_sync; failing_sync] [failing_sync; first_sync]).
  - apply perm_swap.
  - by repeat constructor.
  - constructor; [|by repeat constructor]. constructor; [|constructor]. split; [done|]. by intros t1 t2 _ [= ].
Defined.

Definition synced_router : Router := default {| rtHub := ""; rtPlans := ∅ |} (ceRouter synced_entry).

Lemma served_plans_complete_witness :
  map_Forall (λ _ p, is_Some p) (rtPlans synced_router) ∧
  Router_Convert synced_router demo_object "v1" "v2" ≠ Err (ToHubFailed "v1" NilPlan).
Proof.
  destruct (served_plans_complete demo_settings scope_text versions_text [first_sync] "apps" synced_entry synced_router)
    as [H1 H2].
  - unfold synced_entry. change (foldl _ _ _) with synced.
    by destruct (rpRegistry synced !! "apps") eqn:E; [|by vm_compute in E].
  - unfold synced_router. by destruct (ceRouter synced_entry) eqn:E; [|by vm_compute in E].
  - split; [exact H1|apply (H2 demo_object "v1" "v2")].
Defined.
