(* ===== verification/HandoverProperties.v ===== *)
(** When a target may be moved to a server: the reports of its replicas, the
    operator's reading of them, and what a positive verdict guarantees
    (ServedTargets.v). *)
From Stdlib Require Import Ascii.
From S2P Require Import Prelude Float64 Value Json Path Schema Duration Rules Coerce Passthrough Ops Convert Diagnostics Assign Configs Registry Replica Encoding ServedTargets.
#[local] Open Scope Z_scope.

(** The replica can answer a ConversionReview for the target. *)
Definition serves (r : registry) (target : string) : Prop := ∃ e, r !! target = Some e ∧ ceRouter e ≠ None.

Section handover.
Context {G : Gzip} {GL : GzipLaws G}.

(** The Lease a replica with this registry published last. *)
Definition published (l : Lease) (r : registry) : Prop :=
  ∃ p now old, l = stamp p now (Encode (servableTargets r)).1 (Encode (servableTargets r)).2 old.

(** The replica's targets fit in a Lease. *)
Definition fits (r : registry) : Prop := (Encode (servableTargets r)).2 = false.

Lemma elem_of_servableTargets r x : x ∈ servableTargets r ↔ serves r x.
Proof.
  unfold servableTargets, Snapshot. rewrite elem_of_sort_strings, list_elem_of_fmap. split.
  - intros ([k e] & -> & [He Hin]%list_elem_of_filter). apply elem_of_map_to_list in Hin. by exists e.
  - intros (e & Hin & He). exists (x, e). split; [done|]. apply list_elem_of_filter. by split; [|apply elem_of_map_to_list].
Qed.

Lemma servableTargets_NoDup r : NoDup (servableTargets r).
Proof.
  unfold servableTargets, Snapshot. rewrite sort_strings_perm.
  apply NoDup_fmap_fst; [|apply NoDup_filter, NoDup_map_to_list].
  intros x e e' [_ He]%list_elem_of_filter [_ He']%list_elem_of_filter.
  apply elem_of_map_to_list in He, He'. congruence.
Qed.

Lemma published_stated l r :
  published l r → Forall plain_name (servableTargets r) →
  (stated l = None ↔ ¬ fits r) ∧ NoDup (names_of l) ∧
  (fits r → ∀ x, x ≠ "" → x ∈ names_of l ↔ serves r x).
Proof.
  intros (p & now & old & ->) Hplain. unfold names_of, stated, fits, text_at, stamp. cbn [lsAnnotations].
  destruct (Encode (servableTargets r)) as [v [|]] eqn:E; cbn [fst snd].
  - rewrite lookup_insert_eq. cbn. split_and!; [done|constructor|done].
  - rewrite lookup_delete_eq, lookup_delete_ne, lookup_insert_eq by done.
    change (default "" (Some v)) with v.
    rewrite bool_decide_false by done.
    destruct (decide (servableTargets r = [""])) as [He|Hne].
    + rewrite He in E. rewrite (Decode_Encode_blank _ E). cbn. split_and!; [by split|constructor|].
      intros _ x Hx. rewrite <- elem_of_servableTargets, He. split; [by intros ?%not_elem_of_nil|].
      by intros ->%list_elem_of_singleton.
    + rewrite (Decode_Encode _ _ E Hplain Hne). cbn. split_and!; [by split|rewrite sort_strings_perm; apply servableTargets_NoDup|].
      intros _ x _. by rewrite elem_of_sort_strings, elem_of_servableTargets.
Qed.

Lemma published_names l r x :
  published l r → Forall plain_name (servableTargets r) → fits r → x ≠ "" → x ∈ names_of l ↔ serves r x.
Proof. intros Hp Hn. destruct (published_stated l r Hp Hn) as (_ & _ & H). auto. Qed.

(** A replica as the operator knows it: its Lease, published from its registry. *)
Definition reports (lr : Lease * registry) : Prop :=
  published lr.1 lr.2 ∧ Forall plain_name (servableTargets lr.2).
Definition live_fleet (clock : Z) (fleet : list (Lease * registry)) : list (Lease * registry) :=
  filter (λ lr, lease_live clock lr.1 = true) fleet.

Lemma live_fleet_leases clock fleet : live_leases clock fleet.*1 = (live_fleet clock fleet).*1.
Proof.
  unfold live_leases, live_fleet. induction fleet as [|lr fleet IH]; [done|]. cbn [fmap list_fmap].
  rewrite !filter_cons. destruct (decide _); cbn; by rewrite <- IH.
Qed.

(** The verdict as a formula over the aggregate. *)
Lemma canServeTarget_ok served reporting ready truncated target serverName blocked :
  hvOK (canServeTarget served reporting ready truncated target serverName blocked) = true ↔
  ready ≠ 0 ∧ (reporting = 0 ∧ UnreportedGracePeriod ≤ blocked ∨
               reporting ≠ 0 ∧ truncated = false ∧ ready ≤ reporting ∧ Contains served target = true).
Proof.
  unfold canServeTarget. destruct (Z.eqb_spec ready 0), (Z.eqb_spec reporting 0), truncated;
    cbn [andb]; try destruct (Z.ltb_spec blocked UnreportedGracePeriod); try destruct (Z.ltb_spec reporting ready);
    destruct (Contains served target); cbn; naive_solver lia.
Qed.

(** What the aggregate says of a fleet whose replicas report. *)
Lemma aggregate_fleet fleet clock served reporting truncated :
  Forall reports fleet → Z.of_nat (length fleet) < 2 ^ 31 →
  Aggregate fleet.*1 clock = (served, reporting, truncated) →
  let live := live_fleet clock fleet in
  reporting = Z.of_nat (length live) ∧
  ∀ target, target ≠ "" → live ≠ [] →
    truncated = false ∧ Contains served target = true ↔ Forall (λ lr, fits lr.2 ∧ serves lr.2 target) live.
Proof.
  intros Hrep Hlen Ha live.
  assert (Hall : ∀ l r, (l, r) ∈ live → published l r ∧ Forall plain_name (servableTargets r)).
  { intros l r [_ Hin]%list_elem_of_filter. rewrite Forall_forall in Hrep. by apply (Hrep (l, r)). }
  apply Aggregate_spec in Ha as (Hr & Ht & Hs & Hx); [|by rewrite length_fmap|].
  2:{ rewrite live_fleet_leases, Forall_fmap. apply Forall_forall. intros [l r] Hin.
      destruct (Hall l r Hin) as [Hp Hn]. by apply (published_stated l r). }
  rewrite live_fleet_leases in Hr, Ht, Hx. fold live in Hr, Ht, Hx. rewrite length_fmap in Hr.
  split; [done|]. intros target Htarget Hne. rewrite (Contains_spec _ _ Hs), Hx, Forall_fmap, Forall_forall, Forall_forall.
  assert (truncated = false ↔ ∀ lr, lr ∈ live → fits lr.2) as Hf.
  { rewrite <- not_true_iff_false, Ht, Exists_fmap, Exists_exists. split.
    - intros Hno [l r] Hin. destruct (Hall l r Hin) as [Hp Hn]. unfold fits.
      destruct (Encode (servableTargets r)).2 eqn:E; [|done]. destruct Hno. exists (l, r). split; [done|].
      apply (published_stated l r Hp Hn). unfold fits. by rewrite E.
    - intros Hfit ([l r] & Hin & Hno). destruct (Hall l r Hin) as [Hp Hn].
      apply (published_stated l r Hp Hn) in Hno. by apply Hno, (Hfit (l, r)). }
  split.
  - intros (Htr & _ & _ & H) [l r] Hin. destruct (Hall l r Hin) as [Hp Hn].
    assert (fits r) as Hfit by (by apply (proj1 Hf Htr (l, r))). split; [done|].
    apply (published_names l r _ Hp Hn Hfit Htarget). by apply (H (l, r)).
  - intros H. assert (truncated = false) as Htr by (apply Hf; intros lr Hin; by apply H).
    split_and!; [done|done|by destruct live|]. intros [l r] Hin. destruct (Hall l r Hin) as [Hp Hn].
    destruct (H (l, r) Hin) as [Hfit Hserve]. by apply (published_names l r _ Hp Hn Hfit Htarget).
Qed.

(** C35. A target is moved only to a server that serves it.  Take the Leases the
    server's replicas published last, each from its own registry of targets with
    ordinary names.  The operator's verdict allows the move exactly when the
    server has a ready replica and either every replica with a live Lease could
    report and serves the target, as many as are ready, or no Lease is live and
    the move has been refused for the whole grace period. *)
Theorem target_moves_only_to_a_serving_fleet fleet clock ready target serverName blocked served reporting truncated :
  Forall reports fleet → Z.of_nat (length fleet) < 2 ^ 31 → target ≠ "" →
  Aggregate fleet.*1 clock = (served, reporting, truncated) →
  let live := live_fleet clock fleet in
  hvOK (canServeTarget served reporting ready truncated target serverName blocked) = true ↔
  ready ≠ 0 ∧
  ((live = [] ∧ UnreportedGracePeriod ≤ blocked) ∨
   (live ≠ [] ∧ ready ≤ Z.of_nat (length live) ∧ Forall (λ lr, fits lr.2 ∧ serves lr.2 target) live)).
Proof.
  intros Hrep Hlen Htarget Ha live. destruct (aggregate_fleet _ _ _ _ _ Hrep Hlen Ha) as [Hr Hserve].
  fold live in Hr, Hserve. rewrite canServeTarget_ok. specialize (Hserve target Htarget).
  destruct (decide (live = [])) as [He|Hne].
  - rewrite He in Hr. naive_solver lia.
  - specialize (Hserve Hne). assert (reporting ≠ 0) by (destruct live; [done|cbn in Hr; lia]). naive_solver lia.
Qed.
End handover.

(** ** A concrete fleet *)

(** A compression that only marks its text. *)
Definition stored : Gzip := {|
  gzip s := "z" +:+ s;
  gunzip s := match s with String "z" s => Ok (s, None) | _ => Err "gzip: invalid header" end |}.
#[local] Existing Instance stored.
Lemma stored_laws : GzipLaws stored.
Proof. by split. Qed.

Definition serving_entry : CompiledEntry :=
  {| ceRouter := Some {| rtHub := "v1"; rtPlans := ∅ |}; ceConversionReviewVersions := ["v1"]; ceLossless := ∅;
     cePlanHash := "gen=1/1"; ceCompiledAt := Some 1; ceLastError := ""; ceLastErrorAt := None |}.
Definition demo_publisher (pod : string) : TargetPublisher :=
  {| tpClient := true; tpRegistry := None; tpServerName := "main"; tpNamespace := "dco"; tpPodName := pod;
     tpPodUID := "uid-" +:+ pod; tpNotify := None |}.
Definition demo_report (pod : string) (now : Z) (r : registry) : Lease * registry :=
  (stamp (demo_publisher pod) now (Encode (servableTargets r)).1 (Encode (servableTargets r)).2
     (new_lease (LeaseName pod) "dco"), r).
Definition demo_fleet : list (Lease * registry) :=
  [demo_report "a" 10 {["apps.example.org" := serving_entry; "jobs.example.org" := serving_entry]};
   demo_report "b" 20 {["apps.example.org" := serving_entry; "jobs.example.org" := zero_entry]}].

Lemma target_moves_only_to_a_serving_fleet_witness :
  Aggregate demo_fleet.*1 30 = (["apps.example.org"], 2, false) ∧
  hvOK (canServeTarget ["apps.example.org"] 2 2 false "apps.example.org" "main" 0) = true ∧
  (hvOK (canServeTarget ["apps.example.org"] 2 2 false "jobs.example.org" "main" 0) = true ↔
   2 ≠ 0 ∧ ((live_fleet 30 demo_fleet = [] ∧ UnreportedGracePeriod ≤ 0) ∨
            (live_fleet 30 demo_fleet ≠ [] ∧ 2 ≤ Z.of_nat (length (live_fleet 30 demo_fleet)) ∧
             Forall (λ lr, fits lr.2 ∧ serves lr.2 "jobs.example.org") (live_fleet 30 demo_fleet)))).
Proof.
  split; [by vm_compute|]. split; [by vm_compute|].
  apply (target_moves_only_to_a_serving_fleet (GL := stored_laws) demo_fleet 30 2 "jobs.example.org" "main" 0
           ["apps.example.org"] 2 false); [|done|done|by vm_compute].
  constructor; [|constructor; [|constructor]]; (split; [by do 3 eexists|]); vm_compute; by repeat constructor.
Defined.
