(* ===== verification/AdmissionProperties.v ===== *)
(** What the admission webhooks guarantee (Admission.v): rules of the shape the
    compiler expects, one config per target, a fleet whose assignment is never
    ambiguous, deletions that strand nobody, and agreement with the replicas. *)
From S2P Require Import Prelude Float64 Value Json Path Schema Duration Rules Coerce Passthrough Ops Convert Diagnostics Compile Normalize Platform Required Analyze Assign AssignProperties Api Configs Adapters Registry Replica ReplicaTheory Rollout Admission AdmissionTheory Fixtures ReplicaProperties.

(** ** The structure of configs *)

(** The structural check accepts exactly the well-formed configs: at least one
    spoke, distinct spoke versions other than the hub, and in every rule, however
    deeply nested, exactly one parameter struct, named and distinct branches, at
    most [MaxForEachDepth] nested ForEach rules, and the conditions on when,
    CEL and labels. *)
Theorem structure_accepts_exactly_well_formed `{EX : Externs} hub spokes :
  validateSpokesStructure hub spokes = Ok () ↔
  spokes ≠ [] ∧ NoDup (svVersion <$> spokes) ∧ (∀ s, s ∈ spokes → svVersion s ≠ hub) ∧
  Forall (λ s, Forall (well_formed 0) (svRules s)) spokes.
Proof.
  unfold validateSpokesStructure. destruct spokes as [|s spokes]; [naive_solver|]. cbn [length Nat.eqb].
  rewrite validate_spokes_Ok. split.
  - intros (H1 & H2 & H3). split_and!; [done|done| |done]. intros t Ht. by apply H2.
  - intros (_ & H1 & H2 & H3). split_and!; [done| |done]. intros t Ht. split; [by apply H2|set_solver].
Qed.

(** ** One config per target *)

(** The configs of a cluster, by kind. *)
Record configs := { cfXRDs : list XRDConversionConfig; cfCRDs : list CRDConversionConfig }.

(** A config's identity (its kind and name) and its target. *)
Definition claims_of (c : configs) : list (string * string * string) :=
  ((λ x, ("xrd", omName (xcMeta x), xsTargetXRD (xcSpec x))) <$> cfXRDs c) ++
  ((λ k, ("crd", omName (kcMeta k), csTargetCRD (kcSpec k))) <$> cfCRDs c).

(** [kind/name] now targets [target]; everything else is as it was. *)
Definition writes (c c' : configs) (kind name target : string) : Prop :=
  ∀ x, x ∈ claims_of c' → x = (kind, name, target) ∨ x ∈ claims_of c ∧ x.1 ≠ (kind, name).

(** Requests are admitted one after another, against the configs there are. *)
Inductive config_step : configs → configs → Prop :=
| admit_config c c' kind name target :
    validateRegistryKeyAvailable (Ok (cfXRDs c)) (Ok (cfCRDs c)) target name kind = Ok () →
    writes c c' kind name target → config_step c c'
| remove_configs c c' : (∀ x, x ∈ claims_of c' → x ∈ claims_of c) → config_step c c'.

(** A target belongs to one config. *)
Definition targets_unique (c : configs) : Prop :=
  ∀ x y, x ∈ claims_of c → y ∈ claims_of c → x.2 = y.2 → x.2 ≠ "" → x.1 = y.1.

Lemma taken_by_Ok {C} kind (name target : C → string) t skipName skipKind l :
  taken_by kind name target t skipName skipKind (Ok l) = Ok () ↔
  ∀ c, c ∈ l → target c = t → (kind, name c) = (skipKind, skipName).
Proof.
  unfold taken_by. destruct (find _ l) as [c|] eqn:E.
  - split; [done|]. intros H. apply find_elem in E as [Hc Hf]. apply andb_true_iff in Hf as [Hn Ht%bool_decide_eq_true].
    specialize (H c Hc Ht) as [= <- <-]. by rewrite !bool_decide_true in Hn.
  - split; [|done]. intros _ c Hc Ht. rewrite find_None in E. specialize (E c Hc).
    rewrite andb_false_iff, negb_false_iff, andb_true_iff, !bool_decide_eq_true, bool_decide_eq_false in E.
    by destruct E as [[-> ->]|].
Qed.

Lemma key_available xrds crds t name kind :
  validateRegistryKeyAvailable (Ok xrds) (Ok crds) t name kind = Ok () → t ≠ "" →
  ∀ x, x ∈ claims_of {| cfXRDs := xrds; cfCRDs := crds |} → x.2 = t → x.1 = (kind, name).
Proof.
  unfold validateRegistryKeyAvailable. intros H Ht. rewrite bool_decide_false in H by done.
  apply res_seq_Ok in H as [Hx Hc]. rewrite taken_by_Ok in Hx. rewrite taken_by_Ok in Hc. unfold claims_of. cbn.
  intros [[k n] u] [(c & [= -> -> ->] & Hin)%list_elem_of_fmap|(c & [= -> -> ->] & Hin)%list_elem_of_fmap]%elem_of_app;
    cbn; intros Hu; [by apply Hx|by apply Hc].
Qed.

(** Every target has one config.  Whatever XRD and CRD configs are created,
    changed and deleted, one after another, as long as admission accepts each
    write, no two of them name the same target, not even one of each kind. *)
Theorem admitted_targets_are_unique c :
  rtc config_step {| cfXRDs := []; cfCRDs := [] |} c → targets_unique c.
Proof.
  intros H. assert (targets_unique {| cfXRDs := []; cfCRDs := [] |}) as H0 by (by intros x y ?%not_elem_of_nil).
  revert H0. induction H as [c|c c' c'' Hstep _ IH]; [done|]. intros Hc. apply IH. clear IH.
  destruct Hstep as [c c' kind name target Hok Hw|c c' Hsub].
  - intros x y Hx Hy Hxy Hne. destruct c as [xrds crds]. pose proof (key_available _ _ _ _ _ Hok) as Hk.
    destruct (Hw x Hx) as [->|[Hx' _]], (Hw y Hy) as [->|[Hy' _]]; cbn in *.
    + done.
    + symmetry. by apply Hk.
    + apply Hk; congruence.
    + by apply (Hc x y).
  - intros x y Hx Hy. apply Hc; by apply Hsub.
Qed.

(** ** The fleet *)

(** Server writes and deletions, one after another; each check may see the servers
    in any order. *)
Inductive fleet_step : fleet → fleet → Prop :=
| admit_server server l1 l2 f f' :
    l1 ≡ₚ f → l2 ≡ₚ f → cwsName (soServer server) ≠ "" →
    validateServer server (Ok l1) (Ok l2) = Ok () → f' ≡ₚ fleet_with (soServer server) f → fleet_step f f'
| remove_server s f f' : f ≡ₚ s :: f' → fleet_step f f'.

Lemma fleet_step_ok f f' : fleet_step f f' → fleet_ok f → fleet_ok f'.
Proof.
  intros [server l1 l2 g g' H1 H2 Hn Hv Hp|s g g' Hp] Hf.
  - eapply fleet_ok_perm; [symmetry; exact Hp|]. by eapply validateServer_ok.
  - eapply fleet_ok_tail, fleet_ok_perm; [exact Hp|done].
Qed.

Lemma fleet_default_names f : fleet_ok f → length (default_names f) ≤ 1.
Proof.
  intros Hf. unfold default_names. rewrite length_fmap.
  destruct (filter _ f) as [|s [|t l]] eqn:E; cbn; [lia..|]. exfalso.
  assert (∀ u, u ∈ s :: t :: l → u ∈ f ∧ cwsDefault u = true) as Hin
    by (intros u; rewrite <- E, list_elem_of_filter; tauto).
  assert (NoDup (s :: t :: l)) as Hnd by (rewrite <- E; eapply NoDup_filter, NoDup_fmap_1, fleet_names, Hf).
  apply NoDup_cons in Hnd as [Hs _]. apply Hs.
  destruct (Hin s ltac:(by left)), (Hin t ltac:(by right; left)). rewrite (fleet_default f Hf s t) by done. by left.
Qed.

(** C37. Assignment is never ambiguous.  Whatever servers are created, changed and
    deleted, one after another, as long as admission accepts each write, there is
    at most one default, it belongs to the shard pool whenever there is a pool,
    and a config fails to resolve only because the server it names does not
    exist, or because there is neither a pool nor a default. *)
Theorem admitted_fleet_resolves `{ML : MathLog} f :
  rtc fleet_step [] f →
  fleet_ok f ∧
  ∀ `{CL : ConfigLike T} (cfg : T) e, ResolveAssignment cfg f = Err e →
    (∃ name, e = ErrRefNotFound name ∧ WebhookServerRefField cfg = Some name ∧ name ∉ cwsName <$> f) ∨
    (e = ErrNoDefault ∧ ∀ s, s ∈ f → ShardingEnabled s = false ∧ cwsDefault s = false).
Proof.
  intros H. assert (fleet_ok f) as Hf.
  { pose proof fleet_ok_nil as H0. revert H0. induction H; eauto using fleet_step_ok. }
  split; [done|]. intros T CL cfg e. unfold ResolveAssignment. fold (pinned cfg).
  destruct (pinned cfg) as [name|] eqn:Ep.
  - destruct (has_server f name) eqn:E; [done|]. intros [= <-]. left. exists name. split_and!; [done| |].
    + unfold pinned in Ep. destruct (WebhookServerRefField cfg) as [n|]; [|done]. case_bool_decide; congruence.
    + by rewrite <- has_server_elem, E.
  - case_bool_decide as Hpool; [done|]. pose proof (fleet_default_names f Hf) as Hd.
    destruct (default_names f) as [|a [|b l]] eqn:E; [|done|cbn in Hd; lia]. intros [= <-]. right. split; [done|].
    intros s Hs. split; apply not_true_iff_false; intros Ht.
    + assert (s ∈ ShardPool f) as Hin by (by apply shard_pool_elem). rewrite Hpool in Hin. by apply not_elem_of_nil in Hin.
    + assert (cwsName s ∈ default_names f) as Hin.
      { apply list_elem_of_fmap_2. by apply list_elem_of_filter. }
      rewrite E in Hin. by apply not_elem_of_nil in Hin.
Qed.

(** Deleting a server strands nobody.  When admission accepts a deletion that
    is not forced, no config's target still points at the server, and every
    config that resolved to a server resolves to the same one without it. *)
Theorem accepted_delete_strands_nobody `{ML : MathLog} server xrds crds servers rest :
  ValidateDelete server (Ok xrds) (Ok crds) (Ok servers) = Ok () →
  soAnnotations server !! AllowForceDeleteAnnotation ≠ Some "true" → servers ≡ₚ soServer server :: rest →
  let unaffected {T} `{SC : ServingConfigLike T} (cfg : T) :=
    TargetPointsAt (AppliedWebhookURL cfg) (cwsName (soServer server)) = false ∧
    ∀ n, n ≠ "" → ResolveAssignment cfg servers = Ok n → ResolveAssignment cfg rest = Ok n in
  (∀ x, x ∈ xrds → unaffected x) ∧ (∀ c, c ∈ crds → unaffected c).
Proof.
  intros H Hforce Hp. unfold ValidateDelete in H. rewrite bool_decide_false in H.
  2:{ intros E. apply Hforce. by destruct (soAnnotations server !! _) as [v|]; [cbn in E; rewrite E|]. }
  cbn [res_wrap mbind res_bind] in H. set (name := cwsName (soServer server)) in *.
  destruct (_ =? 0) eqn:E; [|done]. apply Nat.eqb_eq, Nat.eq_add_0 in E as [Ex Ec]. clear H.
  assert (Hone : ∀ T (SC : ServingConfigLike T) (cfg : T), ServedBy cfg servers name = false →
    TargetPointsAt (AppliedWebhookURL cfg) name = false ∧
    ∀ n, n ≠ "" → ResolveAssignment cfg servers = Ok n → ResolveAssignment cfg rest = Ok n).
  { intros T SC cfg Hs. unfold ServedBy in Hs. destruct (IsAssignedTo cfg servers name) eqn:Ea; [done|].
    split; [done|]. intros n Hn Hr. unfold IsAssignedTo in Ea. rewrite Hr in Ea. apply bool_decide_eq_false in Ea.
    rewrite (resolve_permutation _ _ _ Hp) in Hr. by apply (resolve_removal _ (soServer server)). }
  assert (Hnone : ∀ T (SC : ServingConfigLike T) (cfgs : list T), length (ConfigsServedBy cfgs servers name) = 0 →
    ∀ cfg, cfg ∈ cfgs → ServedBy cfg servers name = false).
  { intros T SC cfgs Hl cfg Hin. apply not_true_iff_false. intros Hs. apply nil_length_inv in Hl.
    assert (cfg ∈ ConfigsServedBy cfgs servers name) as Hx by (by apply list_elem_of_filter).
    rewrite Hl in Hx. by apply not_elem_of_nil in Hx. }
  split; intros cfg Hin; apply Hone; by eapply Hnone.
Qed.

(** ** Admission and the replicas *)

Section agreement.
Context `{ML : MathLog} `{RO : RangeOrder} `{EX : Externs} `{CX : CompileExterns} (se : Settings).
Context `{TK : TargetKind C T}.

(** C36. What admission accepts, the replica serves.  Take a config whose structure
    and target name are in order and whose target exists, and a replica the config
    is assigned to, reading the same config and target.  Admission accepts the
    config exactly when the replica's next reconcile installs a freshly compiled
    plan for it; a config admission rejects leaves the plan that was there, with
    the failure recorded on it. *)
Theorem admission_agrees_with_the_replica structure cfg target a r name v servers :
  structure cfg = Ok () → omDeleting (tk_meta cfg) = false → (∀ f, failure_text se f ≠ "") →
  validateRegistryKeyAvailable (arXRDs a) (arCRDs a) (tk_target cfg) (GetName cfg) tk_prefix = Ok () →
  arTarget a = Found target → vwConfig v = Found cfg → vwServers v = Ok servers → vwTarget v = Found target →
  assigned_here se cfg servers = true →
  let accepted := (validate (seFuel se) structure true cfg a).2 = Ok () in
  let r' := (reconcileOne se r name v).1 in
  (accepted → ∃ e, rpRegistry r' !! tk_target cfg = Some e ∧ ceLastError e = "" ∧ is_Some (ceRouter e) ∧
     ceCompiledAt e = Some (vwNow v) ∧ cePlanHash e = plan_hash target cfg) ∧
  (¬ accepted → ∃ e, rpRegistry r' !! tk_target cfg = Some e ∧ ceLastError e ≠ "" ∧
     ceRouter e = rpRegistry r !! tk_target cfg ≫= ceRouter).
Proof.
  intros Hs Hdel Htext Hkey Hat Hvc Hvs Hvt Hmine accepted r'.
  assert (rpRegistry r' !! tk_target cfg =
          Some (compile_outcome se cfg target (vwNow v) (rpRegistry r !! tk_target cfg))) as ->.
  { unfold r', reconcileOne. rewrite Hvc, Hdel, Hvs, Hvt, Hmine. cbn [negb andb fst].
    pose proof (maps_compile_target se (cancelDrain (rememberConfig r (configKey tk_prefix name) (tk_target cfg))
      (configKey tk_prefix name)) cfg target (vwNow v)) as Hm.
    unfold maps_of in Hm. injection Hm as -> _ _. cbn. by rewrite lookup_insert_eq. }
  assert (accepted ↔ analyse_live (seFuel se) cfg target = Ok ()) as ->.
  { unfold accepted, validate. cbn [negb]. by rewrite Hs, Hkey, Hat. }
  assert (Hfail : ∀ f, let e := with_error (rpRegistry r !! tk_target cfg) (failure_text se f) (vwNow v) in
    ∃ e', Some e = Some e' ∧ ceLastError e' ≠ "" ∧ ceRouter e' = rpRegistry r !! tk_target cfg ≫= ceRouter).
  { intros f e. exists e. split_and!; [done|apply Htext|]. by unfold e; destruct (rpRegistry r !! tk_target cfg). }
  unfold analyse_live, compile_outcome.
  destruct (tk_rules cfg) as [rs|e]; cbn [res_wrap mbind res_bind]; [|split; [done|intros _; apply Hfail]].
  destruct (Analyze _ _) as [report|e]; cbn [res_wrap mbind res_bind]; [|split; [done|intros _; apply Hfail]].
  destruct (HasErrors report); cbn [guard]; [split; [done|intros _; apply Hfail]|].
  split; [|done]. intros _. eexists. split_and!; [done|done|by eexists|done|done].
Qed.
End agreement.

(** ** Concrete inputs *)

#[local] Existing Instances canonical_order fixture_externs fixture_compile_externs fixture_unstructured.
#[local] Instance portable_log : MathLog := go_log.

Lemma structure_demo_accepted : ValidateCRDStructure (demo_crd_config [size_renamed]) = Ok ().
Proof. by vm_compute. Qed.

Definition admitted_state : configs := {| cfXRDs := []; cfCRDs := [demo_crd_config [size_renamed]] |}.

Lemma admitted_targets_are_unique_witness : targets_unique admitted_state.
Proof.
  apply (admitted_targets_are_unique admitted_state). eapply rtc_l; [|apply rtc_refl].
  apply (admit_config _ _ "crd" "apps-config" "apps"); [by vm_compute|].
  intros x [Hx|Hx]%elem_of_cons; [by left|by apply not_elem_of_nil in Hx].
Defined.

(** The default first, then a second server, which joins its pool. *)
Definition pooled (name : string) (is_default : bool) : ServerObject := {|
  soServer := {| cwsName := name; cwsDefault := is_default; cwsSharding := Some {| shEnabled := None; shWeight := None |} |};
  soExtraArgs := ["--v=2"]; soRollout := None; soAnnotations := ∅ |}.
Definition two_servers : fleet := [soServer (pooled "main" true); soServer (pooled "extra" false)].

Lemma admitted_fleet_resolves_witness : fleet_ok two_servers.
Proof.
  apply (admitted_fleet_resolves two_servers). eapply rtc_l; [|eapply rtc_l; [|apply rtc_refl]].
  - by apply (admit_server (pooled "main" true) [] [] [] [soServer (pooled "main" true)]); try vm_compute.
  - by apply (admit_server (pooled "extra" false) [soServer (pooled "main" true)] [soServer (pooled "main" true)]
      [soServer (pooled "main" true)]); try vm_compute.
Defined.

Lemma accepted_delete_strands_nobody_witness :
  ResolveAssignment (demo_crd_config []) [soServer (pooled "main" true)] = Ok "main" ∧
  ValidateDelete (pooled "main" true) (Ok []) (Ok [demo_crd_config []]) (Ok two_servers) =
    Err (ErrStillServing 1 true ["apps-config"]).
Proof.
  split; [|by vm_compute].
  destruct (accepted_delete_strands_nobody (pooled "extra" false) [] [demo_crd_config []] two_servers
    [soServer (pooled "main" true)]) as [_ H]; [by vm_compute|done|apply perm_swap|].
  destruct (H (demo_crd_config []) ltac:(by left)) as [_ Hr]. apply (Hr "main"); [done|by vm_compute].
Defined.

Definition demo_reads : admission_reads CustomResourceDefinition := {|
  arXRDs := Ok []; arCRDs := Ok []; arServer := NotFound; arTarget := Found (served_by "main") |}.

Lemma admission_agrees_with_the_replica_witness :
  let v rules := view_of rules main_server "main" 1 in
  let entry rules := rpRegistry (reconcileOne (TK := crd_kind) demo_settings new_replica "apps-config" (v rules)).1 !! "apps" in
  (∃ e, entry [size_renamed] = Some e ∧ is_Some (ceRouter e)) ∧ (∃ e, entry [] = Some e ∧ ceRouter e = None).
Proof.
  intros v entry. assert (∀ f, failure_text demo_settings f ≠ "") as Ht by (by intros [[] ?| | |]).
  split.
  - destruct (admission_agrees_with_the_replica (TK := crd_kind) demo_settings ValidateCRDStructure
      (demo_crd_config [size_renamed]) (served_by "main") demo_reads new_replica "apps-config" (v [size_renamed])
      [main_server]) as [H _]; [by vm_compute|done|exact Ht|by vm_compute|done..|by vm_compute|].
    destruct (H ltac:(by vm_compute)) as (e & He & _ & Hr & _). exact (ex_intro _ e (conj He Hr)).
  - destruct (admission_agrees_with_the_replica (TK := crd_kind) demo_settings ValidateCRDStructure
      (demo_crd_config []) (served_by "main") demo_reads new_replica "apps-config" (v []) [main_server]) as [_ H];
      [by vm_compute|done|exact Ht|by vm_compute|done..|by vm_compute|].
    destruct (H ltac:(by vm_compute)) as (e & He & _ & Hr). exact (ex_intro _ e (conj He Hr)).
Defined.
