(* ===== verification/RolloutProperties.v ===== *)
(** What admission's checks on arguments and rollout guarantee (Rollout.v). *)
From Stdlib Require Import Ascii.
From S2P Require Import Prelude Float64 Duration Rollout.
#[local] Open Scope Z_scope.

Lemma two_dashes b : has_prefix b "--" = true → has_prefix b "-" = true.
Proof. intros (t & ->)%prefix_inv. reflexivity. Qed.

(** Every argument with a dash is looked at: the loop skips only others. *)
Lemma validate_args_checks fuel args name arg :
  (length args ≤ fuel)%nat → validate_args fuel args = Ok () → arg ∈ args → longFlagName arg = Some name →
  name ∉ operatorManagedWebhookServerFlagNames.
Proof.
  revert args; induction fuel as [|fuel IH]; intros [|a rest] Hlen; cbn [validate_args]; intros Hv Hin Hn;
    try (by apply not_elem_of_nil in Hin); [cbn in Hlen; lia|]. cbn in Hlen.
  apply elem_of_cons in Hin as [->|Hin].
  - rewrite Hn in Hv. by case_bool_decide.
  - destruct (longFlagName a) as [n|]; [|by apply (IH rest); [lia|..]].
    case_bool_decide; [done|]. destruct (value_follows a rest) eqn:Hf; [|by apply (IH rest); [lia|..]].
    destruct rest as [|b rest]; [by apply not_elem_of_nil in Hin|]. cbn in *.
    apply elem_of_cons in Hin as [->|Hin]; [|by apply (IH rest); [lia|..]].
    unfold value_follows in Hf. apply andb_true_iff in Hf as [_ Hf].
    unfold longFlagName in Hn. destruct (has_prefix b "--") eqn:Hp; [|done].
    apply two_dashes in Hp. by rewrite Hp in Hf.
Qed.

(** The flags that are set are named by arguments with dashes. *)
Lemma parse_flags_names is_bool fuel args fs f :
  parse_flags is_bool fuel args = Ok fs → f ∈ fs →
  ∃ arg body, arg ∈ args ∧ flag_body arg = Some body ∧ (cut_equals body).1 = f.1 ∧ f.1 ≠ "".
Proof.
  revert args fs; induction fuel as [|fuel IH]; intros [|a rest] fs; cbn; intros Hp Hin;
    try (injection Hp as <-; by apply not_elem_of_nil in Hin).
  destruct (flag_body a) as [body|] eqn:Hb; [|injection Hp as <-; by apply not_elem_of_nil in Hin].
  destruct (cut_equals body) as [n v] eqn:Hc.
  destruct (bool_decide (n = "") || has_prefix n "-") eqn:Hs; [done|].
  apply orb_false_iff in Hs as [Hs%bool_decide_eq_false _].
  assert (∀ rest' v', (∀ x, x ∈ rest' → x ∈ rest) →
    (fs' ← parse_flags is_bool fuel rest'; Ok ((n, v') :: fs')) = Ok fs →
    ∃ arg body, arg ∈ a :: rest ∧ flag_body arg = Some body ∧ (cut_equals body).1 = f.1 ∧ f.1 ≠ "") as H.
  { intros rest' v' Hsub (fs' & Hfs & [= <-])%res_bind_Ok. apply elem_of_cons in Hin as [->|Hin].
    - exists a, body. split_and!; [by left|done|by rewrite Hc|done].
    - destruct (IH _ _ Hfs Hin) as (arg & b & Harg & Hr). exists arg, b. split; [right; by apply Hsub|done]. }
  destruct (is_bool n) as [[]|], v as [v|]; try done; try (by eapply H; [|exact Hp]).
  destruct rest as [|w rest]; [done|]. eapply H; [|exact Hp]. intros x Hx. by right.
Qed.

(** Accepted arguments leave the operator's own flags alone.  If every argument
    that starts with a dash starts with two, and admission accepts the arguments,
    then whatever [flag.Parse] makes of them sets none of the flags the operator
    manages, boolean flags, separate values and values that look like flags
    included. *)
Theorem accepted_args_set_no_managed_flag is_bool args fs :
  ValidateWebhookServerExtraArgs args = Ok () →
  Forall (λ arg, has_prefix arg "-" = true → has_prefix arg "--" = true) args →
  Parse is_bool args = Ok fs → Forall (λ f, f.1 ∉ operatorManagedWebhookServerFlagNames) fs.
Proof.
  intros Hv Hd Hp. apply Forall_forall. intros f Hf.
  destruct (parse_flags_names _ _ _ _ _ Hp Hf) as (arg & body & Harg & Hb & Hn & Hne).
  apply (validate_args_checks (length args) args f.1 arg); [done..|].
  eapply Forall_forall in Hd; [|done]. unfold flag_body in Hb. unfold longFlagName.
  destruct (has_prefix arg "-"); [|done]. cbn in Hb. case_bool_decide; [done|]. case_bool_decide; [done|].
  rewrite Hd in * by done. injection Hb as <-. cbn. rewrite bool_decide_false.
  - rewrite Hn, bool_decide_false; done.
  - intros E. rewrite E in Hn. by cbn in Hn.
Qed.

(** The overflow-free range: what the CRD schema allows for the sleep, and any
    grace period and timeout below some 292 years. *)
Definition rollout_in_range (rollout : option RolloutSpec) (shutdown : Z) : Prop :=
  0 ≤ effective_preStop rollout ≤ 300 ∧ 0 ≤ effective_grace rollout ≤ 9223372036 ∧
  0 < shutdown ≤ 2 ^ 63 - 1 - 300 * Second.

Lemma drain_fits rollout args shutdown :
  shutdownTimeoutFromArgs args = Ok shutdown → rollout_in_range rollout shutdown →
  ValidateWebhookServerRollout rollout args = Ok () ↔
  effective_preStop rollout * Second + shutdown < effective_grace rollout * Second ∧
  validateRolloutStrategy rollout = Ok ().
Proof.
  intros Hs (Hp & Hg & Hsh). unfold ValidateWebhookServerRollout. rewrite Hs. cbn.
  unfold Second in *. rewrite (wrap64_id (effective_preStop rollout * _)), (wrap64_id (effective_grace rollout * _)) by lia.
  rewrite wrap64_id by lia.
  destruct (_ <=? _) eqn:E; (split; [intros H|intros [H1 H2]]); try done; try lia. split; [lia|done].
Qed.

(** An argument of another flag that carries its value is skipped. *)
Definition valued (arg : string) : Prop := ∃ name v,
  arg = "--" +:+ name +:+ "=" +:+ v ∧ has_char "="%char name = false ∧ name ≠ "" ∧ name ≠ "shutdown-timeout" ∧
  name ∈ operatorManagedWebhookServerFlagNames.

Lemma cut_equals_append name v : has_char "="%char name = false → cut_equals (name +:+ "=" +:+ v) = (name, Some v).
Proof.
  induction name as [|c name IH]; [done|]. intros [Hc Hn]%orb_false_iff. rewrite append_cons. cbn [cut_equals].
  by rewrite Hc, (IH Hn).
Qed.
Lemma has_char_append c s t : has_char c (s +:+ t) = has_char c s || has_char c t.
Proof. induction s as [|a s IH]; [done|]. rewrite append_cons. cbn [has_char]. by rewrite IH, orb_assoc. Qed.

Lemma longFlagName_valued name v : has_char "="%char name = false → name ≠ "" →
  longFlagName ("--" +:+ name +:+ "=" +:+ v) = Some name.
Proof.
  intros Hc Hne. unfold longFlagName, has_prefix. rewrite prefix_append, trim_prefix_append. cbn [negb].
  rewrite (cut_equals_append name v Hc).
  rewrite (bool_decide_false (name +:+ _ = "")) by (destruct name; discriminate). by rewrite (bool_decide_false (name = "")).
Qed.

Lemma shutdown_skips pre args eff n : Forall valued pre →
  shutdown_loop (length pre + n) eff (pre ++ args) = shutdown_loop n eff args.
Proof.
  induction 1 as [|a pre (name & v & -> & Hc & Hne & Hs & _) _ IH]; [done|].
  assert (has_char "="%char ("--" +:+ name +:+ "=" +:+ v) = true) as Heq.
  { rewrite !has_char_append. cbn. by rewrite !orb_true_r. }
  cbn [length Nat.add app shutdown_loop]. rewrite (longFlagName_valued name v Hc Hne).
  rewrite (bool_decide_true (name ≠ "shutdown-timeout") Hs). unfold value_follows. by rewrite Heq.
Qed.

(** *** What the process makes of its command line *)

(** The timeout after [flag] has set the given flags, in order: each setting is a
    duration, and the last one counts. *)
Definition timeout_set (effective : Z) (fs : list (string * string)) : option Z :=
  foldl (λ acc f, d ← acc; if bool_decide (f.1 = "shutdown-timeout") then ParseDuration f.2 else Some d)
    (Some effective) fs.

Section usual.
Context (is_bool : string → option bool).

(** Arguments written the usual way: two dashes; the value after an equals sign,
    or as the next argument, which starts with no dash; a boolean flag takes no
    separate value. *)
Definition flag_name (name : string) : Prop :=
  has_char "="%char name = false ∧ name ≠ "" ∧ has_prefix name "-" = false.
Inductive usual : list string → Prop :=
| usual_nil : usual []
| usual_equals name v rest : flag_name name → usual rest → usual (("--" +:+ name +:+ "=" +:+ v) :: rest)
| usual_bool name rest : flag_name name → is_bool name = Some true → usual rest → usual (("--" +:+ name) :: rest)
| usual_value name v rest : flag_name name → is_bool name = Some false → has_prefix v "-" = false → usual rest →
    usual (("--" +:+ name) :: v :: rest).

Lemma cut_equals_none name : has_char "="%char name = false → cut_equals name = (name, None).
Proof.
  induction name as [|c name IH]; [done|]. intros [Hc Hn]%orb_false_iff. cbn [cut_equals]. by rewrite Hc, (IH Hn).
Qed.

Lemma longFlagName_bare name : has_char "="%char name = false → name ≠ "" → longFlagName ("--" +:+ name) = Some name.
Proof.
  intros Hc Hne. unfold longFlagName, has_prefix. rewrite prefix_append, trim_prefix_append. cbn [negb].
  rewrite (cut_equals_none name Hc). by rewrite !(bool_decide_false (name = "")).
Qed.

Lemma flag_body_dashes body : body ≠ "" → flag_body ("--" +:+ body) = Some body.
Proof.
  intros Hne. unfold flag_body. replace (has_prefix ("--" +:+ body) "-") with true by reflexivity.
  rewrite !bool_decide_false by (destruct body; [done|discriminate]). unfold has_prefix at 1.
  rewrite prefix_append. cbn. by rewrite trim_prefix_append.
Qed.

Lemma usual_head arg rest : usual (arg :: rest) → has_prefix arg "-" = true.
Proof. inversion 1; reflexivity. Qed.

Lemma usual_no_value name rest : has_char "="%char name = false → usual rest → value_follows ("--" +:+ name) rest = false.
Proof.
  intros Hc Hr. unfold value_follows. destruct rest as [|a rest]; [by rewrite andb_false_r|].
  by rewrite (usual_head a rest Hr), andb_false_r.
Qed.

Lemma timeout_set_cons effective f fs d :
  timeout_set effective (f :: fs) = Some d →
  ∃ e, (if bool_decide (f.1 = "shutdown-timeout") then ParseDuration f.2 else Some effective) = Some e ∧
       timeout_set e fs = Some d.
Proof.
  unfold timeout_set. cbn. destruct (if bool_decide _ then _ else _) as [e|]; [by exists e|].
  intros H. exfalso. revert H. induction fs as [|g fs IH]; [done|]. exact IH.
Qed.

(** On such arguments, admission reads the timeout the process will have. *)
Lemma usual_timeout fuel args effective read_ fs d :
  is_bool "shutdown-timeout" = Some false → usual args → (length args ≤ fuel)%nat →
  shutdown_loop fuel effective args = Ok read_ → parse_flags is_bool fuel args = Ok fs →
  timeout_set effective fs = Some d → read_ = d.
Proof.
  intros Hb Hu. revert fuel effective fs.
  induction Hu as [|name v rest (Hc & Hne & Hd) Hr IH|name rest (Hc & Hne & Hd) Ht Hr IH|name v rest (Hc & Hne & Hd) Ht Hv Hr IH];
    intros [|fuel] effective fs Hlen Hl Hp Hs; cbn [length] in Hlen; try lia;
    try (cbn in Hl, Hp; injection Hl as <-; injection Hp as <-; by injection Hs).
  all: cbn [shutdown_loop parse_flags] in Hl, Hp.
  - rewrite (longFlagName_valued name v Hc Hne) in Hl. rewrite flag_body_dashes in Hp by (destruct name; discriminate).
    rewrite (cut_equals_append name v Hc), Hd, (bool_decide_false (name = "")) in Hp by done. cbn in Hp.
    assert (∃ fs', parse_flags is_bool fuel rest = Ok fs' ∧ fs = (name, v) :: fs') as (fs' & Hp' & ->).
    { destruct (is_bool name) as [[]|]; [| |done]; apply res_bind_Ok in Hp as (fs' & ? & [= <-]); eauto. }
    apply timeout_set_cons in Hs as (e & He & Hs). cbn in He.
    assert (has_char "="%char ("--" +:+ name +:+ "=" +:+ v) = true) as Heq
      by (rewrite !has_char_append; cbn; by rewrite !orb_true_r).
    assert (flag_value ("--" +:+ name +:+ "=" +:+ v) rest = v) as Hfv.
    { unfold flag_value. change ("--" +:+ name +:+ "=" +:+ v) with (("--" +:+ name) +:+ "=" +:+ v) at 1.
      change ("--" +:+ name +:+ "=" +:+ v) with (("--" +:+ name) +:+ "=" +:+ v).
      rewrite cut_equals_append; [done|]. rewrite has_char_append. by rewrite Hc. }
    rewrite Hfv, Heq in Hl. unfold value_follows in Hl. rewrite Heq in Hl. cbn in Hl.
    case_bool_decide as Hn; case_bool_decide; try done;
      [|injection He as <-; apply (IH fuel effective fs'); by lia || done].
    rewrite He in Hl. destruct (e <=? 0); [done|]. by apply (IH fuel e fs'); [lia|..].
  - rewrite (longFlagName_bare name Hc Hne), (usual_no_value name rest Hc Hr) in Hl. rewrite flag_body_dashes in Hp by done.
    rewrite (cut_equals_none name Hc), Hd, (bool_decide_false (name = "")), Ht in Hp by done. cbn in Hp.
    apply res_bind_Ok in Hp as (fs' & Hp & [= <-]). apply timeout_set_cons in Hs as (e & He & Hs). cbn in He.
    assert (name ≠ "shutdown-timeout") as Hn by (intros ->; congruence).
    rewrite bool_decide_true in Hl by done. rewrite bool_decide_false in He by done. injection He as <-.
    by apply (IH fuel effective fs'); [lia|..].
  - rewrite (longFlagName_bare name Hc Hne) in Hl. rewrite flag_body_dashes in Hp by done.
    rewrite (cut_equals_none name Hc), Hd, (bool_decide_false (name = "")), Ht in Hp by done. cbn in Hp.
    apply res_bind_Ok in Hp as (fs' & Hp & [= <-]). apply timeout_set_cons in Hs as (e & He & Hs). cbn in He.
    assert (has_char "="%char ("--" +:+ name) = false) as Heq by (rewrite has_char_append; by rewrite Hc).
    unfold value_follows, flag_value in Hl. rewrite (cut_equals_none _ Heq), Heq, Hv in Hl. cbn in Hl.
    case_bool_decide as Hn; case_bool_decide; try done;
      [|injection He as <-; apply (IH fuel effective fs'); by lia || done].
    rewrite He in Hl. destruct (e <=? 0); [done|]. by apply (IH fuel e fs'); [lia|..].
Qed.

Lemma usual_valued own args : Forall valued own → usual args → usual (own ++ args).
Proof.
  intros Ho Hu. induction Ho as [|a own (name & v & -> & Hc & Hne & _ & Hm) _ IH]; [done|]. cbn. apply usual_equals; [|done].
  split_and!; [done..|]. unfold operatorManagedWebhookServerFlagNames in Hm.
  repeat (apply elem_of_cons in Hm as [->|Hm]; [reflexivity|]). by apply not_elem_of_nil in Hm.
Qed.
End usual.

(** A rollout is accepted exactly when the drain fits.  In the range where
    durations do not overflow, validation accepts a rollout if and only if the
    preStop sleep and the shutdown timeout together are strictly shorter than the
    grace period, and the update strategy is one Kubernetes accepts. *)
Theorem rollout_accepted_iff_drain_fits rollout args shutdown :
  shutdownTimeoutFromArgs args = Ok shutdown → rollout_in_range rollout shutdown →
  ValidateWebhookServerRollout rollout args = Ok () ↔
  effective_preStop rollout * Second + shutdown < effective_grace rollout * Second ∧
  validateRolloutStrategy rollout = Ok ().
Proof. apply drain_fits. Qed.

(** The number a valid strategy field holds, of replicas or percent. *)
Definition strategy_amount (v : IntOrString) : option Z :=
  match v with IntVal n => Some n | StrVal s => Atoi (trim_suffix s "%") end.

Lemma validateIntOrPercent_amount v field :
  validateIntOrPercent (Some v) field = Ok () → ∃ n, strategy_amount v = Some n ∧ 0 ≤ n.
Proof.
  destruct v as [n|s]; cbn.
  - destruct (n <? 0) eqn:E; [done|]. intros _. exists n. split; [done|lia].
  - destruct (negb _); [done|]. destruct (Atoi _) as [n|]; [|done]. destruct (n <? 0) eqn:E; [done|].
    intros _. exists n. split; [done|lia].
Qed.

Lemma strategy_amounts ro :
  validateRolloutStrategy (Some ro) = Ok () →
  ∃ u s, strategy_amount (default (IntVal 0) (roMaxUnavailable ro)) = Some u ∧
         strategy_amount (default (IntVal 1) (roMaxSurge ro)) = Some s ∧ 0 ≤ u ∧ 0 ≤ s ∧ 0 < u + s.
Proof.
  intros Hv. cbn [validateRolloutStrategy] in Hv. apply res_bind_Ok in Hv as ([] & Hu & Hv).
  apply res_bind_Ok in Hv as ([] & Hs & Hv).
  assert (∀ (o : option IntOrString) d f, 0 ≤ d → validateIntOrPercent o f = Ok () →
    ∃ n, strategy_amount (default (IntVal d) o) = Some n ∧ 0 ≤ n) as H.
  { intros [v|] d f Hd Hf; [by eapply validateIntOrPercent_amount|]. by exists d. }
  destruct (H _ 0 _ ltac:(lia) Hu) as (u & Eu & Hu0), (H _ 1 _ ltac:(lia) Hs) as (s & Es & Hs0).
  exists u, s. split_and!; try done.
  assert (∀ v n, strategy_amount v = Some n → isZeroIntOrPercent v = (n =? 0)) as Hz.
  { intros [m|str] n; cbn; [by intros [= ->]|by intros ->]. }
  destruct (decide (0 < u + s)) as [|Hle]; [done|exfalso]. assert (u = 0 ∧ s = 0) as [-> ->] by lia.
  destruct (roMaxUnavailable ro) as [v|], (roMaxSurge ro) as [w|]; cbn in *; try done;
    try rewrite (Hz _ _ Eu) in Hv; try rewrite (Hz _ _ Es) in Hv; done.
Qed.

(** An accepted strategy can make progress: both amounts, with their defaults
    of 0 and 1, are non-negative numbers, and they are not both zero. *)
Theorem accepted_strategy_progresses ro :
  validateRolloutStrategy (Some ro) = Ok () →
  ∃ u s, strategy_amount (default (IntVal 0) (roMaxUnavailable ro)) = Some u ∧
         strategy_amount (default (IntVal 1) (roMaxSurge ro)) = Some s ∧ 0 ≤ u ∧ 0 ≤ s ∧ 0 < u + s.
Proof. apply strategy_amounts. Qed.

(** ** Witnesses *)

(** A string flag with a value of its own, a boolean flag, and the timeout. *)
Definition demo_flags (name : string) : option bool :=
  if bool_decide (name = "zap-devel") then Some true
  else if bool_decide (name ∈ "shutdown-timeout" :: "cert-reload-interval" :: operatorManagedWebhookServerFlagNames)
  then Some false else None.
Definition demo_args : list string :=
  ["--zap-devel"; "--cert-reload-interval"; "tls-cert-dir"; "--shutdown-timeout=20s"].

Lemma accepted_args_set_no_managed_flag_witness :
  Forall (λ f, f.1 ∉ operatorManagedWebhookServerFlagNames)
    [("zap-devel", "true"); ("cert-reload-interval", "tls-cert-dir"); ("shutdown-timeout", "20s")].
Proof.
  apply (accepted_args_set_no_managed_flag demo_flags demo_args); [by vm_compute| |by vm_compute].
  by repeat constructor.
Defined.

Definition demo_rollout : RolloutSpec := {|
  roPreStopSleepSeconds := Some 10; roTerminationGracePeriodSeconds := Some 31;
  roMaxUnavailable := Some (StrVal "25%"); roMaxSurge := Some (IntVal 0);
  roDefaultTopologySpread := None |}.

Lemma rollout_accepted_iff_drain_fits_witness :
  ValidateWebhookServerRollout (Some demo_rollout) demo_args = Ok () ↔
  10 * Second + 20 * Second < 31 * Second ∧ validateRolloutStrategy (Some demo_rollout) = Ok ().
Proof.
  apply (rollout_accepted_iff_drain_fits (Some demo_rollout) demo_args (20 * Second)); [by vm_compute|].
  unfold rollout_in_range, Second. cbn. lia.
Defined.

Lemma accepted_strategy_progresses_witness :
  ∃ u s, strategy_amount (StrVal "25%") = Some u ∧ strategy_amount (IntVal 0) = Some s ∧ 0 ≤ u ∧ 0 ≤ s ∧ 0 < u + s.
Proof. apply (accepted_strategy_progresses demo_rollout). by vm_compute. Defined.
