(* ===== verification/ControllerFixtures.v ===== *)
(** Concrete inputs for the witnesses of the controllers and the conversion guard:
    simple functions for apimachinery and [net/url], with their laws, and a small
    cluster.

    Only witnesses and findings use this file. *)
From Stdlib Require Import Ascii.
From S2P Require Import Prelude Float64 Value Json Duration Path Schema Rules Coerce Passthrough Ops Convert Diagnostics Compile Normalize Platform Required Analyze Assign Api Configs Adapters Registry Replica Encoding ServedTargets Rollout Workloads Patches Guard Propagation Controller ControllerTheory Admission ServerController RolloutProperties Fixtures ReplicaProperties HandoverProperties.

(** ** Condition lists *)

Definition dated (now : Z) (old : option Condition) (c : Condition) : Condition :=
  {| cdType := cdType c; cdStatus := cdStatus c; cdReason := cdReason c; cdMessage := cdMessage c;
     cdLastTransition := transition now old c |}.
Fixpoint set_listed (now : Z) (l : list Condition) (c : Condition) : list Condition :=
  match l with
  | [] => [dated now None c]
  | o :: l => if bool_decide (cdType o = cdType c) then dated now (Some o) c :: l else o :: set_listed now l c
  end.
Fixpoint find_listed (l : list Condition) (t : string) : option Condition :=
  match l with
  | [] => None
  | o :: l => if bool_decide (cdType o = t) then Some o else find_listed l t
  end.
Definition listed_conditions : ConditionOps := {|
  SetStatusCondition := set_listed;
  RemoveStatusCondition l t := filter (λ c, cdType c ≠ t) l;
  FindStatusCondition := find_listed |}.

Lemma listed_conditions_laws : ConditionLaws listed_conditions.
Proof.
  split; cbn.
  - done.
  - intros now l c. induction l as [|o l IH]; cbn; [by rewrite bool_decide_true|].
    destruct (decide (cdType o = cdType c)) as [He|He].
    + rewrite !(bool_decide_true (cdType o = cdType c)) by done. cbn. by rewrite bool_decide_true.
    + rewrite !(bool_decide_false (cdType o = cdType c)) by done. cbn. by rewrite bool_decide_false.
  - intros now l c t Ht. induction l as [|o l IH]; cbn; [by rewrite bool_decide_false|].
    destruct (decide (cdType o = cdType c)) as [He|He].
    + rewrite (bool_decide_true (cdType o = cdType c)) by done. cbn. by rewrite !bool_decide_false by congruence.
    + rewrite (bool_decide_false (cdType o = cdType c)) by done. cbn. by rewrite IH.
  - intros l t. induction l as [|o l IH]; [done|]. destruct (decide (cdType o = t)) as [He|He].
    + by rewrite filter_cons_False by tauto.
    + rewrite filter_cons_True by done. cbn. by rewrite bool_decide_false.
  - intros l t t' Ht. induction l as [|o l IH]; [done|]. destruct (decide (cdType o = t)) as [He|He].
    + rewrite filter_cons_False by tauto. cbn. by rewrite bool_decide_false by congruence.
    + rewrite filter_cons_True by done. cbn. by rewrite IH.
Qed.

(** ** Objects and URLs *)

Definition texts (m : obj) : gmap string string := omap (λ v, match v with VStr s => Some s | _ => None end) m.
Definition fixture_edits : UnstructuredEdits := {|
  NestedInt64 := nested (λ v, match v with VInt Int64 z => Some z | _ => None end);
  SetNestedMap o m p := match setValue o p (VObj m) with Ok o' => Ok o' | Err _ => Err "cannot set" end;
  u_GetAnnotations o := match getValue o ["metadata"; "annotations"] with Some (VObj m) => texts m | _ => ∅ end;
  u_SetAnnotations o m := match setValue o ["metadata"; "annotations"] (VObj (VStr <$> m)) with Ok o' => o' | Err _ => o end;
|}.

Lemma fixture_edits_laws : UnstructuredEditsLaws fixture_edits.
Proof.
  split; cbn; unfold nested.
  - by intros o p z ->.
  - by intros o m p o' ->.
  - intros o m p e ->. by eexists.
  - intros o m ->. unfold texts. apply map_eq. intros k. rewrite lookup_omap, lookup_fmap. by destruct (m !! k).
  - by intros o ->.
  - by intros o m o' ->.
Qed.

Fixpoint until_slash (s : string) : string :=
  match s with
  | EmptyString => EmptyString
  | String c s => if bool_decide (c = "/"%char) then EmptyString else String c (until_slash s)
  end.
Definition fixture_url : NetURL := {|
  url_Parse s := if has_prefix s "https://" then Ok ("https", until_slash (trim_prefix s "https://")) else Err "not a URL" |}.

Lemma until_slash_host host path : forallb host_char (String.list_ascii_of_string host) = true →
  until_slash (host +:+ String "/" path) = host.
Proof.
  induction host as [|c host IH]; [done|]. cbn [String.list_ascii_of_string forallb]. intros [Hc Hh]%andb_true_iff.
  rewrite append_cons. cbn [until_slash]. rewrite (IH Hh). case_bool_decide; [by subst|done].
Qed.

Lemma fixture_url_laws : NetURLLaws fixture_url.
Proof.
  split. intros host path [_ Hh]%andb_true_iff [Hp _]%andb_true_iff. destruct path as [|c path]; [done|].
  assert (c = "/"%char) as ->. { unfold has_prefix in Hp. cbn [String.prefix] in Hp. by destruct (Ascii.ascii_dec "/"%char c) as [<-|]. }
  unfold url_Parse, fixture_url, has_prefix. by rewrite prefix_append, trim_prefix_append, until_slash_host.
Qed.

(** ** A cluster: a ready server, a CRD that points at it, a config *)

#[local] Existing Instances canonical_order fixture_externs fixture_compile_externs fixture_unstructured
  fixture_edits fixture_url listed_conditions stored.
#[local] Instance portable_log : MathLog := go_log.

Definition ready_conditions : list Condition :=
  (λ t, condition t "True" "Ready" no_message) <$> ["Available"; "CertificateReady"; "ServiceReady"].
Definition ready_server (s : ConversionWebhookServer) : ServerInstance := {|
  siServer := s; siNamespace := "system"; siPort := 0; siReadyReplicas := 2; siConditions := ready_conditions |}.

Definition config_with (deleting : bool) (annotations : gmap string string) (policy : string)
    (rules : list ConversionRule) (st : ConversionConfigStatus) : CRDConversionConfig := {|
  kcMeta := {| omName := "apps-config"; omDeleting := deleting; omGeneration := 1;
    omFinalizers := [CRDConversionConfigFinalizer]; omAnnotations := annotations |};
  kcSpec := {| csTargetCRD := "apps"; csHubVersion := "v2"; csSpokes := [ {| svVersion := "v1"; svRules := rules |} ];
    csWebhookServerRef := None; csConversionReviewVersions := []; csUnmappedFieldPolicy := "";
    csUnmappedFieldReason := ""; csDriftPolicy := policy |};
  kcStatus := st |}.

Definition demo_secret : gmap string string := {["tls.crt" := "a certificate"; "ca.crt" := "a bundle"]}.

(** Every call succeeds; [main] is the default server. *)
Definition demo_world (cfg : CRDConversionConfig) : world CRDConversionConfig CustomResourceDefinition := {|
  wdConfig := Found cfg; wdTarget := Found (served_by "main"); wdServers := Ok [main_server];
  wdServer name := if bool_decide (name = "main") then Found (ready_server main_server) else NotFound;
  wdLeases _ _ := Ok []; wdSecret _ _ := Found demo_secret;
  wdRevertTarget := Found (served_by "main"); wdFreshTarget := Found (served_by "main"); wdCRD _ := NotFound;
  wdApply := None; wdPatchStatus := None; wdPatchFinalizers := None; wdLeaseClock := 40; wdNow := 40 |}.

Definition fresh_config : CRDConversionConfig := config_with false ∅ "" [size_renamed] new_status.
Abbreviation demo_reconcile := (ReconcileCRD 5 "default").

(** The first pass over a fresh config, and what it leaves. *)
Definition first_pass : list event := (demo_reconcile (demo_world fresh_config)).1.
Definition first_patch : applied :=
  match first_pass !! 0%nat with Some (Applies a) => a | _ => AppliedXRD ∅ end.
Definition applied_crd_status : ConversionConfigStatus :=
  match last first_pass with Some (PatchesStatus st) => st | _ => new_status end.

Example first_pass_events :
  (demo_reconcile (demo_world fresh_config)).2 = Ok (300000000000)%Z ∧
  first_pass = [Applies first_patch; ApplyDuration "success"; PhaseTransitions "None" PhaseApplied "Applied";
                PatchesStatus applied_crd_status].
Proof. by vm_compute. Qed.

(** ** A webhook server and its cluster *)

Definition fixture_apply : ApplyTypes := {|
  viaJSON v := Ok v;
  SetControllerReference name uid o :=
    match o !! "metadata" with
    | Some (VObj m) =>
      let owner := VObj {[ "name" := VStr name; "uid" := VStr uid ]} in
      Ok (<["metadata" := VObj (<["ownerReferences" := VArr [owner]]> m)]> o)
    | _ => Err "no metadata"
    end;
  quantity_Value s := if bool_decide (s = "128Mi") then 134217728%Z else 0%Z |}.
Lemma fixture_apply_laws : ApplyTypesLaws fixture_apply.
Proof.
  split. cbn. intros name uid o o'. destruct (o !! "metadata") as [[]|]; try discriminate.
  intros [= <-]. by rewrite lookup_insert_ne.
Qed.
#[local] Existing Instance fixture_apply.

Definition demo_options : ReconcilerOptions := {|
  rcDefaultNamespace := "default"; rcDefaultImage := ""; rcEnableXRDSupport := true; rcEnableCRDSupport := true |}.
Definition demo_server_spec : ConversionWebhookServerSpec := {|
  wsDefault := true; wsNamespace := "system"; wsReplicas := None; wsAutoscaling := None; wsImage := None;
  wsResources := {| reRequests := ∅; reLimits := {["memory" := "128Mi"]} |};
  wsNodeSelector := ∅; wsTolerations := []; wsAffinity := None; wsPriorityClassName := ""; wsServiceAccountName := "";
  wsExtraArgs := demo_args; wsExtraEnv := []; wsExtraVolumes := []; wsExtraVolumeMounts := [];
  wsTopologySpreadConstraints := []; wsPodLabels := {["team" := "a"; "app.kubernetes.io/name" := "mine"]};
  wsPodAnnotations := ∅; wsCacheSelector := None; wsSharding := None; wsStartupProbe := None;
  wsRollout := Some demo_rollout;
  wsCertificate := {| ctIssuerName := "ca"; ctIssuerKind := ""; ctDNSNames := []; ctDuration := None; ctRenewBefore := None |};
  wsService := {| seType := ""; sePort := 0; seAnnotations := ∅ |}; wsPodDisruptionBudget := None |}.
Definition demo_server (deleting : bool) : WebhookServer := {|
  wrMeta := {| omName := "main"; omDeleting := deleting; omGeneration := 1;
               omFinalizers := [ConversionWebhookServerFinalizer]; omAnnotations := ∅ |};
  wrUID := "u1"; wrSpec := demo_server_spec;
  wrStatus := {| wtObservedGeneration := 0; wtConditions := []; wtReplicas := 0; wtReadyReplicas := 0; wtEndpoint := "";
    wtAssignedConfigs := []; wtServedTargets := []; wtReportingReplicas := 0 |} |}.

(** Its objects are there and healthy, and every write succeeds. *)
Definition demo_server_world (deleting : bool) (configs : list CRDConversionConfig) : server_world := {|
  swServer := Found (demo_server deleting); swDefaults := Ok [main_server]; swServers := Ok [main_server];
  swXRDConfigs := Ok []; swCRDConfigs := Ok configs;
  swDeployment _ _ := Found {| dsReplicas := 2; dsReadyReplicas := 2; dsConditions := [("Available", "True")] |};
  swService _ _ := Found (); swSecret _ _ := Found demo_secret;
  swLeases _ _ := Ok []; swLeaseClock := 40; swAnswer _ := None; swNow := 40 |}.

(** The status the pass over it leaves. *)
Definition server_status (w : server_world) : ConversionWebhookServerStatus :=
  match last (ReconcileServer demo_options w).1 with
  | Some (PatchesServerStatus st) => st
  | _ => wrStatus (demo_server false)
  end.
