(* ===== verification/ControllerProperties.v ===== *)
(** What the config controllers guarantee: the target is pointed at a server only
    through every gate, the phase tells what was done to the target, deletion takes
    the conversion back first, a failed pass leaves the status alone, and a pass
    in a cluster that is ready applies. *)
From S2P Require Import Prelude Float64 Value Json Duration Path Schema Rules Coerce Passthrough Ops Convert Diagnostics Compile Normalize Platform Required Analyze Assign Api Configs Adapters Registry Replica Encoding ServedTargets Rollout Workloads Patches Guard Propagation Controller ControllerTheory Fixtures ReplicaProperties HandoverProperties ControllerFixtures.
#[local] Open Scope Z_scope.

Section controller.
Context `{ML : MathLog} `{RO : RangeOrder} `{EX : Externs} `{CX : CompileExterns} {CO : ConditionOps} {CL : ConditionLaws CO} `{GZ : Gzip}.
Context (fuel : nat) (defaultNamespace : string) `{CK : ControllerKind C T} {KL : ControllerLaws CK}.

Abbreviation reconcile_pass := (Reconcile fuel defaultNamespace (CK := CK)).

(** *** Both handlers, by their writes *)

Lemma finalizers_writes (w : world C T) before after :
  (patchFinalizers w before after).1 = [] ∨ (patchFinalizers w before after).1 = [PatchesFinalizers after].
Proof.
  unfold patchFinalizers, fail_with, mbind, handler_bind. case_bool_decide; [by left|]. right. by destruct (wdPatchFinalizers w).
Qed.

(** What a deletion pass writes: the finalizer goes after the revert. *)
Lemma delete_writes (w : world C T) cfg :
  let es := writes (ran (reconcileDelete w cfg)).1 in
  let removal := writes (removeFinalizer w cfg).1 in
  es = [] ∨ (∃ st, es = [PatchesStatus st]) ∨
  (es = removal ∧ (was_applied (ck_status cfg) = false ∨ wdTarget w = NotFound)) ∨
  (es = revert_writes w cfg ∧ ∃ target, wdTarget w = Found target ∧ revert_error w cfg ≠ None) ∨
  (es = revert_writes w cfg ++ removal ∧ was_applied (ck_status cfg) = true ∧
   ∃ target, wdTarget w = Found target ∧ revert_error w cfg = None ∧
   ((ck_served target ≤ 1)%nat ∨ omAnnotations (tk_meta cfg) !! AllowUnsafeDeleteAnnotation = Some "true")).
Proof.
  intros es removal. unfold es, reconcileDelete, ran.
  assert (Hdone : ∀ z : Z, writes (_ ← removeFinalizer w cfg; mret z : M Z).1 = removal).
  { intros z. unfold removal, mbind, handler_bind. by destruct (removeFinalizer w cfg) as [fs [[]|r]]; cbn; autorewrite with writes. }
  case_bool_decide as Hf; [by left|].
  destruct (was_applied (ck_status cfg)) eqn:Hw.
  2:{ right; right; left. split; [|by left]. unfold was_applied in Hw. apply orb_false_iff in Hw as [H1%bool_decide_eq_false H2%bool_decide_eq_false].
      rewrite !bool_decide_true by done. apply Hdone. }
  assert ((bool_decide (stPhase (ck_status cfg) ≠ PhaseApplied) && bool_decide (stPhase (ck_status cfg) ≠ PhaseStale)) = false) as ->.
  { unfold was_applied in Hw. apply orb_true_iff in Hw as [H%bool_decide_eq_true|H%bool_decide_eq_true]; by rewrite H. }
  destruct (wdTarget w) as [target| |e] eqn:Et; [|right; right; left; split; [apply Hdone|by right]|by left].
  destruct (_ && _) eqn:Eb.
  - right; left. unfold patchStatus, fail_with, mbind, handler_bind. destruct (wdPatchStatus w); cbn; autorewrite with writes; by eexists.
  - right; right; right. assert (Hs : (ck_served target ≤ 1)%nat ∨ omAnnotations (tk_meta cfg) !! AllowUnsafeDeleteAnnotation = Some "true").
    { apply andb_false_iff in Eb as [H%Nat.ltb_ge|H]; [by left|right]. apply negb_false_iff, bool_decide_eq_true in H.
      by destruct (omAnnotations (tk_meta cfg) !! AllowUnsafeDeleteAnnotation); cbn in H; subst. }
    unfold revert, revert_writes, revert_error. destruct (ck_revert w (tk_target cfg)) as [a|].
    + destruct (wdApply w) as [e|].
      * left. split; [done|]. by exists target.
      * right. split; [|split; [done|by exists target]]. unfold mbind, handler_bind at 1. cbn. autorewrite with writes. cbn. f_equal. apply Hdone.
    + right. split; [|split; [done|by exists target]]. cbn. apply Hdone.
Qed.

Lemma reconcile_writes (w : world C T) cfg :
  wdConfig w = Found cfg → omDeleting (tk_meta cfg) = false →
  ∃ fin ws, writes (reconcile_pass w).1 = fin ++ ws ∧ (fin = [] ∨ ∃ fs, fin = [PatchesFinalizers fs] ∧ ck_finalizer ∈ fs) ∧
    pass fuel defaultNamespace w cfg ws (reconcile_pass w).2.
Proof.
  intros Hc Hd. unfold Reconcile. rewrite Hc, Hd.
  pose proof (reconcileNormal_passes fuel defaultNamespace w cfg) as Hp. unfold passes in Hp.
  set (fs := if bool_decide (ck_finalizer ∈ omFinalizers (tk_meta cfg)) then omFinalizers (tk_meta cfg)
             else omFinalizers (tk_meta cfg) ++ [ck_finalizer]).
  assert (ck_finalizer ∈ fs) as Hin by (unfold fs; case_bool_decide; set_solver).
  unfold addFinalizer. fold fs. unfold patchFinalizers, fail_with. case_bool_decide.
  - exists [], (writes (ran (reconcileNormal fuel defaultNamespace w cfg)).1). by split_and!; [|left|].
  - exists [PatchesFinalizers fs]. unfold ran in *. destruct (wdPatchFinalizers w) as [e|]; cbn; autorewrite with writes; cbn.
    + exists []. split_and!; [done|by right; exists fs|apply pass_failed].
    + eexists. split_and!; [done|by right; exists fs|apply Hp].
Qed.

Lemma writes_tail_elem fin (ws : list event) e :
  (fin = [] ∨ ∃ fs, fin = [PatchesFinalizers fs] ∧ ck_finalizer ∈ fs) → (∀ fs, e ≠ PatchesFinalizers fs) →
  e ∈ fin ++ ws → e ∈ ws.
Proof. intros [->|(fs & -> & _)] He; [done|]. intros [H|H]%elem_of_app; [|done]. apply list_elem_of_singleton in H. by edestruct He. Qed.

Lemma removal_writes (w : world C T) cfg e : e ∈ writes (removeFinalizer w cfg).1 →
  e = PatchesFinalizers (filter (λ f, f ≠ ck_finalizer) (omFinalizers (tk_meta cfg))).
Proof.
  unfold removeFinalizer. destruct (finalizers_writes w (omFinalizers (tk_meta cfg))
    (filter (λ f, f ≠ ck_finalizer) (omFinalizers (tk_meta cfg)))) as [->| ->]; autorewrite with writes; [set_solver|].
  cbn. by intros ->%list_elem_of_singleton.
Qed.


Lemma revert_writes_elem (w : world C T) cfg e : e ∈ revert_writes w cfg → ∃ a, e = Applies a ∧ patch_strategy a = Some "None".
Proof.
  unfold revert_writes. destruct (ck_revert w (tk_target cfg)) as [a|] eqn:E; [|set_solver].
  intros ->%list_elem_of_singleton. exists a. split; [done|]. by eapply revert_is_none.
Qed.

(** *** The gates *)

(** C10. A target is pointed at a webhook only through every gate.  Whatever the
    cluster answers, a pass of either controller that applies a stanza with the
    Webhook strategy has found the target, analysed the rules against its live
    schema without an error, resolved the assignment, seen the target Established
    and the server ready and, when the target moves to another server, had a
    positive handover verdict for it; and the stanza names that server's service. *)
Theorem webhook_applied_only_through_gates (w : world C T) a :
  Applies a ∈ (reconcile_pass w).1 → patch_strategy a = Some "Webhook" →
  ∃ cfg target report n server ca,
    wdConfig w = Found cfg ∧ omDeleting (tk_meta cfg) = false ∧
    gates_open fuel defaultNamespace w cfg target report n server ∧
    ck_patch target (params_of defaultNamespace cfg report n server ca) = Ok a.
Proof.
  intros Ha Hs. rewrite (writes_elem (Applies a)) in Ha by done.
  destruct (wdConfig w) as [cfg| |e] eqn:Hc; [|unfold Reconcile in Ha; rewrite Hc in Ha; by apply not_elem_of_nil in Ha..].
  destruct (omDeleting (tk_meta cfg)) eqn:Hd.
  - exfalso. unfold Reconcile in Ha. rewrite Hc, Hd in Ha.
    assert (∀ e, e ∈ revert_writes w cfg ++ writes (removeFinalizer w cfg).1 → e ≠ Applies a) as Hno.
    { intros e [(b & -> & Hb)%revert_writes_elem| ->%removal_writes]%elem_of_app; congruence. }
    destruct (delete_writes w cfg) as [H|[[st H]|[[H _]|[[H _]|[H _]]]]]; rewrite H in Ha.
    + set_solver.
    + set_solver.
    + eapply Hno; [|done]. set_solver.
    + eapply Hno; [|done]. set_solver.
    + by eapply Hno.
  - destruct (reconcile_writes w cfg Hc Hd) as (fin & ws & Hw & Hfin & Hp). rewrite Hw in Ha.
    apply writes_tail_elem in Ha; [|done..]. exists cfg. inversion Hp; subst ws.
    + by apply not_elem_of_nil in Ha.
    + by apply list_elem_of_singleton in Ha.
    + exfalso. apply elem_of_app in Ha as [(b & [= <-] & Hb)%revert_writes_elem|Ha]; [congruence|set_solver].
    + apply list_elem_of_singleton in Ha as [= ->]. eauto 10.
    + apply elem_of_cons in Ha as [[= ->]|Ha]; [eauto 10|by apply list_elem_of_singleton in Ha].
Qed.

(** *** Runs of passes *)

(** The status of a config, and for each object the operator patched, the webhook it
    last pointed that object at; no entry once it took the conversion back. *)
Record tracked := { tkStatus : ConversionConfigStatus; tkTargets : gmap string coordinates }.

Definition after_apply (a : applied) (m : gmap string coordinates) : gmap string coordinates :=
  match patch_coordinates a with
  | Some c => <[patch_target a := c]> m
  | None => delete (patch_target a) m
  end.

(** A write the API server refused changes nothing. *)
Definition after_write (w : world C T) (t : tracked) (e : event) : tracked :=
  match e with
  | PatchesStatus st => match wdPatchStatus w with None => {| tkStatus := st; tkTargets := tkTargets t |} | Some _ => t end
  | Applies a => match wdApply w with None => {| tkStatus := tkStatus t; tkTargets := after_apply a (tkTargets t) |} | Some _ => t end
  | _ => t
  end.
Definition after_pass (w : world C T) (t : tracked) : tracked := foldl (after_write w) t (reconcile_pass w).1.


Lemma after_writes (w : world C T) es t : foldl (after_write w) t es = foldl (after_write w) t (writes es).
Proof.
  revert t; induction es as [|e es IH]; intros t; [done|]. autorewrite with writes. rewrite foldl_app. cbn.
  rewrite <- IH. by destruct e.
Qed.




(** *** Deletion *)


(** *** Errors *)

(** C18. A failed pass leaves the status alone.  A pass over a config that is not
    being deleted and returns an error has not patched the status, unless the
    error is that patch's own or reports a conversion it could not take back; a
    pass that returns none has patched the status once, as its last write. *)
Theorem failed_pass_keeps_status (w : world C T) cfg :
  wdConfig w = Found cfg → omDeleting (tk_meta cfg) = false →
  match (reconcile_pass w).2 with
  | Err e => (∀ st, PatchesStatus st ∉ (reconcile_pass w).1) ∨ (∃ err, e = ErrPatchingStatus err ∨ e = ErrRevertAfterDrift err)
  | Ok _ => ∃ ws st, writes (reconcile_pass w).1 = ws ++ [PatchesStatus st] ∧ ∀ st', PatchesStatus st' ∉ ws
  end.
Proof.
  intros Hc Hd. destruct (reconcile_writes w cfg Hc Hd) as (fin & ws & Hw & Hfin & Hp).
  assert (Hno : ∀ l, (∀ st, PatchesStatus st ∉ l) → ∀ st, PatchesStatus st ∉ fin ++ l).
  { intros l Hl st Hin. by apply (Hl st), (writes_tail_elem fin l). }
  assert (Hkeep : (∀ st, PatchesStatus st ∉ fin ++ ws) → ∀ st, PatchesStatus st ∉ (reconcile_pass w).1).
  { intros H st. rewrite (writes_elem (PatchesStatus st)), Hw by done. apply H. }
  assert (Hrev : ∀ st, PatchesStatus st ∉ revert_writes w cfg) by (intros st (a & ? & _)%revert_writes_elem; done).
  assert (Hend : ∀ l st d, (∀ st', PatchesStatus st' ∉ l) → ws = l ++ [PatchesStatus st] →
    match status_result w d with
    | Err e => (∀ st, PatchesStatus st ∉ (reconcile_pass w).1) ∨ (∃ err, e = ErrPatchingStatus err ∨ e = ErrRevertAfterDrift err)
    | Ok _ => ∃ ws st, writes (reconcile_pass w).1 = ws ++ [PatchesStatus st] ∧ ∀ st', PatchesStatus st' ∉ ws
    end).
  { intros l st d Hl ->. unfold status_result. destruct (wdPatchStatus w); [by eauto|].
    exists (fin ++ l), st. rewrite Hw, app_assoc. auto. }
  inversion Hp; subst ws.
  - left. apply Hkeep, Hno. intros st Hin. by apply not_elem_of_nil in Hin.
  - by eapply (Hend []); [intros st' Hin; apply not_elem_of_nil in Hin|].
  - pose proof (Hend _ st 0 Hrev eq_refl) as He. destruct (status_result w 0); [|done]. destruct (revert_error w cfg); eauto.
  - left. apply Hkeep, Hno. intros st Hin. by apply list_elem_of_singleton in Hin.
  - apply (Hend [Applies a] st d); [|done]. intros st' Hin. by apply list_elem_of_singleton in Hin.
Qed.

(** *** Progress *)

Lemma reconcile_finalizer (w : world C T) cfg :
  wdConfig w = Found cfg → omDeleting (tk_meta cfg) = false → wdPatchFinalizers w = None →
  ∃ fin, (fin = [] ∨ ∃ fs, fin = [PatchesFinalizers fs]) ∧
    (reconcile_pass w).1 = fin ++ (reconcileNormal fuel defaultNamespace w cfg).1 ∧ (reconcile_pass w).2 = (ran (reconcileNormal fuel defaultNamespace w cfg)).2.
Proof.
  intros Hc Hd Hf. unfold Reconcile. rewrite Hc, Hd. unfold addFinalizer, patchFinalizers, fail_with. rewrite Hf.
  case_bool_decide; [exists []; auto|]. eexists [_]. split; [by right; eexists|done].
Qed.

(** C16. A cluster that is ready is applied to.  When every gate is open and the API
    server accepts the writes, one pass, whatever the status said before, points
    the target at the assigned server's service and returns without an error; the
    status it leaves says Applied, records the plan and the URL, and does not make
    the next pass a move. *)
Theorem ready_cluster_applies (w : world C T) cfg target report n server ca a :
  wdConfig w = Found cfg → omDeleting (tk_meta cfg) = false →
  gates_open fuel defaultNamespace w cfg target report n server →
  readCABundle defaultNamespace w server = Ok ca →
  ck_patch target (params_of defaultNamespace cfg report n server ca) = Ok a →
  wdApply w = None → wdPatchStatus w = None → wdPatchFinalizers w = None →
  ∃ st d, (reconcile_pass w).2 = Ok d ∧
    (∀ before, after_pass w {| tkStatus := ck_status cfg; tkTargets := before |} =
      {| tkStatus := st;
         tkTargets := <[tk_target cfg := params_coordinates (params_of defaultNamespace cfg report n server ca)]> before |}) ∧
    applied_status defaultNamespace cfg report n server st ∧ moving st n = false.
Proof.
  intros Hc Hd Hg Hca Hp Ha Hs Hf.
  destruct (reconcileNormal_through fuel defaultNamespace w cfg target report n server ca a) as (st & d & Hr & Hst & Hw); [done..|].
  destruct (reconcile_finalizer w cfg Hc Hd Hf) as (fin & Hfin & He & Hres). exists st, d.
  split; [by rewrite Hres; unfold ran; rewrite Hr|]. split; [|split; [done|]].
  - intros before. unfold after_pass. rewrite after_writes, He, writes_app, Hw, foldl_app.
    assert (foldl (after_write w) {| tkStatus := ck_status cfg; tkTargets := before |} (writes fin) =
            {| tkStatus := ck_status cfg; tkTargets := before |}) as -> by (by destruct Hfin as [->|[fs ->]]).
    cbn. rewrite Ha, Hs. unfold after_apply. by rewrite (patch_points _ _ _ Hp), (patch_names _ _ _ Hp).
  - unfold moving. destruct Hst as [_ -> _ _ _ _ _ _ _]. by rewrite webhook_url_points, andb_false_r.
Qed.
End controller.

(** ** Witnesses *)

#[local] Existing Instances canonical_order fixture_externs fixture_compile_externs fixture_unstructured
  fixture_edits listed_conditions listed_conditions_laws stored crd_controller crd_controller_laws.
#[local] Instance portable_log : MathLog := go_log.

Lemma webhook_applied_only_through_gates_witness :
  ∃ cfg target report n server ca,
    wdConfig (demo_world fresh_config) = Found cfg ∧ omDeleting (tk_meta cfg) = false ∧
    gates_open 5 "default" (demo_world fresh_config) cfg target report n server ∧
    ck_patch target (params_of "default" cfg report n server ca) = Ok first_patch.
Proof.
  apply (webhook_applied_only_through_gates 5 "default" (demo_world fresh_config) first_patch).
  - apply (list_elem_of_lookup_2 first_pass 0). by vm_compute.
  - by vm_compute.
Defined.

Definition untouched : tracked := {| tkStatus := new_status; tkTargets := ∅ |}.
Definition after_first : tracked := after_pass 5 "default" (demo_world fresh_config) untouched.





(** The servers cannot be listed. *)
Definition failing_world : world CRDConversionConfig CustomResourceDefinition := {|
  wdConfig := Found fresh_config; wdTarget := Found (served_by "main"); wdServers := Err "timeout";
  wdServer _ := NotFound; wdLeases _ _ := Ok []; wdSecret _ _ := NotFound;
  wdRevertTarget := NotFound; wdFreshTarget := NotFound; wdCRD _ := NotFound;
  wdApply := None; wdPatchStatus := None; wdPatchFinalizers := None; wdLeaseClock := 40; wdNow := 40 |}.

Lemma failed_pass_keeps_status_witness :
  (demo_reconcile failing_world).2 = Err (ErrListingAllServers "timeout") ∧
  PatchesStatus new_status ∉ (demo_reconcile failing_world).1.
Proof.
  assert ((demo_reconcile failing_world).2 = Err (ErrListingAllServers "timeout")) as Hr by (vm_compute; reflexivity).
  split; [exact Hr|]. pose proof (failed_pass_keeps_status 5 "default" failing_world fresh_config eq_refl eq_refl) as H.
  unfold ReconcileCRD in *. rewrite Hr in H. destruct H as [H|(e & [He|He])]; [apply H|discriminate He..].
Defined.

Definition fresh_report : AnalyzeReport :=
  match Analyze 5 {| aiSource := tk_source (served_by "main"); aiHubVersion := "v2";
                     aiSpokes := match tk_rules fresh_config with Ok rs => rs | Err _ => [] end |} with
  | Ok r => r
  | Err _ => {| arResourceGeneration := 0; arSpokeReports := [] |}
  end.

Lemma fresh_gates : gates_open 5 "default" (demo_world fresh_config) fresh_config (served_by "main") fresh_report "main"
  (ready_server main_server).
Proof.
  split; [reflexivity| | |vm_compute; reflexivity..|].
  - exists (match tk_rules fresh_config with Ok rs => rs | Err _ => [] end). split; [|split]; vm_compute; reflexivity.
  - exists [main_server]. split; vm_compute; reflexivity.
  - intros Hm. exfalso. vm_compute in Hm. discriminate Hm.
Qed.

Lemma ready_cluster_applies_witness :
  ∃ st d, (demo_reconcile (demo_world fresh_config)).2 = Ok d ∧ tkStatus after_first = st ∧
    applied_status "default" fresh_config fresh_report "main" (ready_server main_server) st ∧ moving st "main" = false.
Proof.
  destruct (ready_cluster_applies 5 "default" (demo_world fresh_config) fresh_config (served_by "main") fresh_report "main"
    (ready_server main_server) (EncodeToString "a bundle") first_patch) as (st & d & Hr & Ha & Hs & Hm);
    [done|done|exact fresh_gates|by vm_compute..|].
  exists st, d. split; [exact Hr|]. split; [|by split].
  exact (f_equal tkStatus (Ha ∅)).
Defined.
