(* ===== verification/GuardProperties.v ===== *)
(** What the parties that look at a target after the controller promise: the
    propagation condition is true exactly when every generated CRD carries the stanza
    (Propagation.v); the guard restores exactly the stanza the controller applies, and
    only on its own targets (Guard.v). *)
From Stdlib Require Import Ascii.
From S2P Require Import Prelude Float64 Value Json Duration Path Schema Rules Coerce Passthrough Ops Convert Diagnostics Compile Normalize Platform Required Analyze Assign Api Registry Adapters Configs Replica Encoding ServedTargets Rollout Workloads Patches Guard Propagation Controller ControllerTheory Fixtures ReplicaProperties HandoverProperties ControllerFixtures.

Section propagation.
#[local] Open Scope Z_scope.

(** The CRD's stanza is the one expected: the service, the path, the port, the
    review versions in any order, and a bundle with the same hash. *)
Definition carries (crd : CustomResourceDefinition) (want : expectedConversion) : Prop :=
  ∃ ns name path port url ca versions,
    crdConversion crd = Some {| ccStrategy := "Webhook"; ccWebhook := Some {|
      whClientConfig := Some {| wcURL := url; wcCABundle := ca; wcService := Some {|
        svcNamespace := ns; svcName := name; svcPath := path; svcPort := port |} |};
      whReviewVersions := versions |} |} ∧
    ns = exServiceNamespace want ∧ name = exServiceName want ∧ default "" path = exPath want ∧
    default 443 port = exPort want ∧ versions ≡ₚ exReviewVersions want ∧
    caBundleHash (EncodeToString ca) = caBundleHash (exCABundle want).

Lemma sameStrings_perm a b : sameStrings a b = true ↔ a ≡ₚ b.
Proof.
  unfold sameStrings. split.
  - case_bool_decide; [done|]. intros Hs%bool_decide_eq_true. by rewrite <- (sort_strings_perm a), Hs, sort_strings_perm.
  - intros Hp. rewrite bool_decide_false by (by intros []; rewrite Hp). apply bool_decide_true. by apply sort_strings_unique.
Qed.

Lemma compare_carries crd want : (compareGeneratedConversion crd want).1 = "" ↔ carries crd want.
Proof.
  unfold compareGeneratedConversion, carries. split.
  - destruct (crdConversion crd) as [[strategy wh]|]; [|done]. cbn. case_bool_decide as Hs; [done|]. subst strategy.
    destruct wh as [[[[url [[ns name path port]|] ca]|] versions]|]; [|done..]. cbn.
    destruct (bool_decide (name ≠ _) || _) eqn:E; [done|]. apply orb_false_iff in E as [Hn%bool_decide_eq_false Hns%bool_decide_eq_false].
    do 2 (case_bool_decide; [done|]). destruct (sameStrings _ _) eqn:Hv; cbn; [|done]. apply sameStrings_perm in Hv.
    case_bool_decide; [done|]. intros _.
    apply dec_stable in Hn, Hns.
    exists ns, name, path, port, url, ca, versions. by split_and!.
  - intros (ns & name & path & port & url & ca & versions & Hc & Hns & Hn & Hp & Hport & Hv & Hca).
    apply sameStrings_perm in Hv. rewrite Hc. cbn. rewrite Hv, Hp, Hport, Hca.
    rewrite (bool_decide_false (name ≠ _)), (bool_decide_false (ns ≠ _)), !bool_decide_false by tauto. done.
Qed.

Section propagated.
Context {CO : ConditionOps} {CL : ConditionLaws CO}.

Lemma check_carries get want now g :
  (check_generated get want now g).2 = Carries ↔ ∃ crd, get (xrdadapter.gcName g) = Found crd ∧ carries crd want.
Proof.
  unfold check_generated. destruct (get _) as [crd| |e]; [|split; [done|by intros (? & ? & _)]..].
  pose proof (compare_carries crd want) as Hc. destruct (compareGeneratedConversion crd want) as [reason m].
  case_bool_decide as Hr; cbn; cbn in Hc.
  - split; [|done]. intros _. exists crd. tauto.
  - split; [by case_bool_decide|]. intros (crd' & [= <-] & H). tauto.
Qed.

Lemma judged_nil v checks : judged v checks = [] ↔ Forall (λ c, c.2 ≠ v) checks.
Proof.
  unfold judged. induction checks as [|c checks IH]; [done|]. rewrite Forall_cons, <- IH.
  destruct (decide (c.2 = v)) as [He|He]; [rewrite filter_cons_True by done|rewrite filter_cons_False by done]; naive_solver.
Qed.

Lemma judged_none v checks : (0 <? length (judged v checks))%nat = false ↔ Forall (λ c, c.2 ≠ v) checks.
Proof. rewrite Nat.ltb_ge, <- judged_nil. by destruct (judged v checks); cbn; [|split; [lia|]]. Qed.

(** ConversionPropagated means carried.  Whatever the status said before, the
    condition is True after the check exactly when the CRDs the XRD generates
    could be named and every one of them was read and carries the stanza that was
    applied to the XRD: its service, path, port and review versions, and a bundle
    with the hash of the one applied. *)
Theorem propagated_iff_carried generated get want now st :
  IsStatusConditionTrue (stConditions (verifyPropagation generated get want now st).2) ConditionConversionPropagated = true ↔
  ∃ gs, generated = Ok gs ∧ ∀ g, g ∈ gs → ∃ crd, get (xrdadapter.gcName g) = Found crd ∧ carries crd want.
Proof.
  assert (Hset : ∀ st s r m, IsStatusConditionTrue (stConditions (setPropagationCondition now st s r m))
    ConditionConversionPropagated = bool_decide (s = "True")).
  { intros st' s r m. unfold setPropagationCondition, IsStatusConditionTrue. cbn.
    by rewrite (find_set_same now _ (condition ConditionConversionPropagated s r m)). }
  unfold verifyPropagation. destruct generated as [gs|e]; cbn [snd]; [|rewrite Hset; split; [done|by intros (? & ? & _)]].
  set (checks := check_generated get want now <$> gs).
  assert ((∃ gs', Ok gs = Ok gs' ∧ ∀ g, g ∈ gs' → ∃ crd, get (xrdadapter.gcName g) = Found crd ∧ carries crd want) ↔
          Forall (λ c : GeneratedCRDStatus * crd_verdict, c.2 = Carries) checks) as ->.
  { unfold checks. rewrite Forall_fmap, Forall_forall. split.
    - intros (gs' & [= <-] & H) g Hg. by apply check_carries, H.
    - intros H. exists gs. split; [done|]. intros g Hg. apply (check_carries get want now), H, Hg. }
  assert (Forall (λ c : GeneratedCRDStatus * crd_verdict, c.2 = Carries) checks ↔
    (0 <? length (judged Missing checks))%nat = false ∧ (0 <? length (judged Mismatch checks))%nat = false ∧
    (0 <? length (judged Stale checks))%nat = false) as ->.
  { rewrite !judged_none, !Forall_forall. split; [intros H; split_and!; intros c Hc; by rewrite (H c Hc)|].
    intros (H1 & H2 & H3) c Hc. specialize (H1 c Hc); specialize (H2 c Hc); specialize (H3 c Hc). by destruct c.2. }
  repeat (match goal with |- context [(0 <? ?n)%nat] => destruct (0 <? n)%nat end; cbn [snd];
    [rewrite Hset; split; [done|by intros (? & ? & ?)]|]).
  rewrite Hset. by split.
Qed.
End propagated.

(** ** Witness *)

#[local] Existing Instances listed_conditions listed_conditions_laws.

(** A claim-free XRD generates one CRD, which Crossplane has rendered. *)
Definition rendered_crd : CustomResourceDefinition := {|
  crdName := "xapps"; crdGeneration := 1; crdVersions := []; crdConditions := [];
  crdConversion := Some {| ccStrategy := "Webhook"; ccWebhook := Some {|
    whClientConfig := Some {| wcURL := None; wcCABundle := "a bundle"; wcService := Some {|
      svcNamespace := "system"; svcName := "main-webhook-server"; svcPath := Some "/convert/xapps"; svcPort := None |} |};
    whReviewVersions := ["v1"] |} |} |}.
Definition applied_stanza : expectedConversion := {|
  exServiceName := "main-webhook-server"; exServiceNamespace := "system"; exPath := "/convert/xapps"; exPort := 443;
  exCABundle := EncodeToString "a bundle"; exReviewVersions := ["v1"] |}.
Definition composite : xrdadapter.GeneratedCRD := {|
  xrdadapter.gcRole := xrdadapter.RoleComposite; xrdadapter.gcName := "xapps"; xrdadapter.gcGroup := "example.org";
  xrdadapter.gcPlural := "xapps"; xrdadapter.gcKind := "XApp"; xrdadapter.gcNamespaced := false |}.

Lemma propagated_iff_carried_witness :
  IsStatusConditionTrue (stConditions (verifyPropagation (Ok [composite]) (λ _, Found rendered_crd) applied_stanza 7 new_status).2)
    ConditionConversionPropagated = true.
Proof.
  apply (proj2 (propagated_iff_carried (Ok [composite]) (λ _, Found rendered_crd) applied_stanza 7 new_status)).
  exists [composite]. split; [reflexivity|]. intros g _. exists rendered_crd. split; [reflexivity|].
  exists "system", "main-webhook-server", (Some "/convert/xapps"), None, None, "a bundle", ["v1"]. by repeat split.
Defined.

End propagation.

#[local] Open Scope Z_scope.

Section guard.
Context {U : Unstructured} {UL : UnstructuredLaws U} {UE : UnstructuredEdits} {EL : UnstructuredEditsLaws UE}
  {NU : NetURL} {NL : NetURLLaws NU} {CO : ConditionOps}.

(** C34. The guard restores what the operator applied, and nothing else.  When it
    changes a write to an XRD, exactly one config targets that XRD, the config has
    been applied and is not being deleted, and the write carries no webhook of
    somebody else's; the object it writes instead points spec.conversion at the
    coordinates of the config's status, carries both annotations, is otherwise the
    object as submitted, and would not be changed again. *)
Theorem guard_restores_only_its_own o am name configs o' :
  has_annotations o am → Handle (Ok o) name configs = Patched o' →
  ∃ cfg l svc, configs = Ok l ∧ indexed name l = [cfg] ∧
    (stLastAppliedPlanHash (xcStatus cfg) ≠ "" ∧ omDeleting (xcMeta cfg) = false ∧
     IsStatusConditionTrue (stConditions (xcStatus cfg)) ConditionApplied = true) ∧
    (nested_text o ["spec"; "conversion"; "strategy"] = "Webhook" → annotation o ManagedByAnnotation = omName (xcMeta cfg)) ∧
    guardWebhookService cfg = Ok svc ∧
    (nested_text o' ["spec"; "conversion"; "strategy"] = "Webhook" ∧
     service_coordinates o' = Some {| coName := guName svc; coNamespace := guNamespace svc;
                                      coPath := stWebhookPath (xcStatus cfg); coPort := guPort svc |}) ∧
    (annotation o' ManagedByAnnotation = omName (xcMeta cfg) ∧
     annotation o' PlanHashAnnotation = stLastAppliedPlanHash (xcStatus cfg)) ∧
    (∀ k, k ≠ ManagedByAnnotation → k ≠ PlanHashAnnotation → annotation o' k = annotation o k) ∧
    (∀ p, path_disjoint ["spec"; "conversion"] p → path_disjoint ["metadata"; "annotations"] p → getValue o' p = getValue o p) ∧
    Handle (Ok o') name configs = Allowed.
Proof.
  intros Hm H. apply Handle_Patched in H as (o1 & cfg & l & [= <-] & -> & Hl & Hs & Ha).
  destruct (shouldRestore_config _ _ _ Hs) as (Hplan & Happ & _ & _ & Hdel & Hours).
  destruct (restored_texts o am cfg o' Hm Ha) as (svc & Hsvc & Hstrat & _).
  destruct (restored_annotation o am cfg o' Hm Ha) as (Hman & Hph & Hother).
  exists cfg, l, svc. split_and!; [done..| | | | | |].
  - destruct (restored_values o am cfg o' Hm Ha) as (svc' & Hsvc' & _ & _ & Hn & Hns & Hp & Hport).
    rewrite Hsvc in Hsvc'. injection Hsvc' as <-. unfold service_coordinates. by rewrite Hn, Hns, Hp, Hport.
  - done.
  - done.
  - done.
  - intros p. by apply (restored_elsewhere o am cfg o' Hm Ha).
  - unfold Handle, lookupConfig. case_bool_decide; [done|]. by rewrite Hl, (restored_settled o am cfg o' Hm Ha _ Hs).
Qed.

(** *** Agreement with the controller *)

Context `{ML : MathLog} `{RO : RangeOrder} `{EX : Externs} `{CX : CompileExterns} `{GZ : Gzip}
  (scope_text : xrdadapter.scope_reason → string) (versions_text : xrdadapter.versions_error → string)
  (defaultNamespace : string).
#[local] Abbreviation CK := (xrd_controller scope_text versions_text).

(** The service is read back from the URL the controller recorded. *)
Lemma guard_service cfg report n server :
  applied_status (CK := CK) defaultNamespace cfg report n server (xcStatus cfg) →
  let ns := namespace_of defaultNamespace server in
  host_text (cwsServiceName n +:+ "." +:+ ns +:+ ".svc") = true → path_text (convert_path (xsTargetXRD (xcSpec cfg))) = true →
  has_char "."%char (cwsServiceName n) = false → has_char "."%char ns = false → ns ≠ "" →
  guardWebhookService cfg = Ok {| guName := cwsServiceName n; guNamespace := ns; guPort := port_of server |}.
Proof.
  intros [_ Hurl _ [s Hport] _ _ _ _ _] ns Hhost Hpath Hdn Hdns Hns. unfold guardWebhookService.
  assert (stWebhookURL (xcStatus cfg) =
    "https://" +:+ (cwsServiceName n +:+ "." +:+ ns +:+ ".svc") +:+ convert_path (xsTargetXRD (xcSpec cfg))) as ->.
  { rewrite Hurl. unfold webhook_url. by rewrite <- !append_assoc. }
  rewrite url_parse_https by done. cbn [orb].
  assert (split (cwsServiceName n +:+ "." +:+ ns +:+ ".svc") "." = [cwsServiceName n; ns; "svc"]) as Hsplit.
  { apply (split_join_char "."%char [cwsServiceName n; ns; "svc"]); [done|by repeat constructor]. }
  assert (stWebhookPort (xcStatus cfg) = port_of server ∧ port_of server ≠ 0) as [-> Hport0].
  { split; [exact Hport|]. unfold port_of. destruct (Z.eqb_spec (siPort server) 0); lia. }
  rewrite Hsplit, !bool_decide_false; first [done|by destruct n|by intros []].
Qed.

Lemma patch_annotations q : u_GetAnnotations (BuildXRDConversionPatch q) =
  {[ ManagedByAnnotation := paConfigName q; PlanHashAnnotation := paPlanHash q ]}.
Proof. apply get_annotations_found. by rewrite fmap_insert, map_fmap_singleton. Qed.

(** C33. The guard and the controller agree.  On the status the XRD controller leaves
    after an apply, for a server, a namespace and a target with ordinary names, the
    guard writes into any object the stanza the controller's patch holds: the same
    strategy, review versions, service, path and port, and the same two
    annotations; and the whole stanza is the same when the object carries the CA
    bundle the controller applied. *)
Theorem guard_agrees_with_controller o am cfg o' report n server ca :
  let p := BuildXRDConversionPatch (params_of (CK := CK) defaultNamespace cfg report n server ca) in
  applied_status (CK := CK) defaultNamespace cfg report n server (xcStatus cfg) →
  let ns := namespace_of defaultNamespace server in
  host_text (cwsServiceName n +:+ "." +:+ ns +:+ ".svc") = true → path_text (convert_path (xsTargetXRD (xcSpec cfg))) = true →
  has_char "."%char (cwsServiceName n) = false → has_char "."%char ns = false → ns ≠ "" →
  has_annotations o am → applyConversionToXRD o cfg = Ok o' →
  (∀ q, q ∈ [["strategy"]; ["webhook"; "conversionReviewVersions"]; ["webhook"; "clientConfig"; "service"]] →
        getValue o' (["spec"; "conversion"] ++ q) = getValue p (["spec"; "conversion"] ++ q)) ∧
  (annotation o' ManagedByAnnotation = annotation p ManagedByAnnotation ∧
   annotation o' PlanHashAnnotation = annotation p PlanHashAnnotation) ∧
  (nested_text o ca_bundle_path = ca → ca ≠ "" →
   getValue o' ["spec"; "conversion"] = getValue p ["spec"; "conversion"]).
Proof.
  intros p Hst ns Hhost Hpath Hdn Hdns Hns Hm Ha.
  pose proof (guard_service cfg report n server Hst Hhost Hpath Hdn Hdns Hns) as Hg.
  destruct (restored_below o am cfg o' Hm Ha) as (svc & Hsvc & Hb). rewrite Hg in Hsvc. injection Hsvc as <-.
  destruct (restored_annotation o am cfg o' Hm Ha) as (Hman & Hph & _). destruct Hst as [_ _ Hp _ _ Hplan _ _ _].
  rewrite Hp in Hb. fold (review_versions (CK := CK) cfg) in Hb. split; [|split].
  - intros q Hq. rewrite Hb. repeat (apply elem_of_cons in Hq as [->|Hq]; [by unfold restored_conversion; case_bool_decide|]). by apply not_elem_of_nil in Hq.
  - rewrite Hman, Hph, Hplan. unfold annotation, p. rewrite !patch_annotations. by split.
  - intros Hca Hne. etrans; [exact (Hb [])|]. rewrite Hca. unfold restored_conversion. by rewrite bool_decide_true.
Qed.
End guard.

(** ** Witnesses *)

#[local] Existing Instances canonical_order fixture_externs fixture_compile_externs fixture_unstructured
  fixture_unstructured_laws fixture_edits fixture_edits_laws fixture_url fixture_url_laws listed_conditions stored.
#[local] Instance portable_log : MathLog := go_log.

Definition guarded_report : AnalyzeReport := {| arResourceGeneration := 1; arSpokeReports := [] |}.

(** A config applied to an XRD, and a write to the XRD that has neither stanza nor
    annotations. *)
Definition guarded_status : ConversionConfigStatus :=
  with_server (with_webhook (with_report (with_phase (with_conditions new_status
    [condition ConditionApplied "True" "Applied" no_message]) PhaseApplied) [] true (computeSchemaHash guarded_report "v2" 1))
    "/convert/xapps" "https://main-webhook-server.system.svc/convert/xapps" 443) "main".
Definition guarded_config : XRDConversionConfig := {|
  xcMeta := {| omName := "xapps-config"; omDeleting := false; omGeneration := 1; omFinalizers := []; omAnnotations := ∅ |};
  xcSpec := {| xsTargetXRD := "xapps"; xsHubVersion := "v2"; xsSpokes := []; xsWebhookServerRef := None;
    xsConversionReviewVersions := []; xsUnmappedFieldPolicy := ""; xsUnmappedFieldReason := ""; xsDriftPolicy := "" |};
  xcStatus := guarded_status |}.
Definition bare_write : obj := {["metadata" := VObj {["name" := VStr "xapps"]}; "spec" := VObj ∅]}.
Definition restored_write : obj :=
  match applyConversionToXRD bare_write guarded_config with Ok o => o | Err _ => ∅ end.

Lemma bare_write_annotations : has_annotations bare_write ∅.
Proof. exists {["name" := VStr "xapps"]}. split; [done|]. by right. Qed.

Lemma guard_restores_only_its_own_witness :
  Handle (Ok bare_write) "xapps" (Ok [guarded_config]) = Patched restored_write ∧
  annotation restored_write ManagedByAnnotation = "xapps-config" ∧
  Handle (Ok restored_write) "xapps" (Ok [guarded_config]) = Allowed.
Proof.
  assert (Handle (Ok bare_write) "xapps" (Ok [guarded_config]) = Patched restored_write) as H by (vm_compute; reflexivity).
  destruct (guard_restores_only_its_own bare_write ∅ "xapps" (Ok [guarded_config]) restored_write bare_write_annotations H)
    as (cfg & l & svc & Hl & Hi & _ & _ & _ & _ & [Hm _] & _ & _ & Hs).
  injection Hl as <-. vm_compute in Hi. injection Hi as <-. split; [exact H|]. split; [exact Hm|exact Hs].
Defined.

Lemma guard_agrees_with_controller_witness :
  getValue restored_write (["spec"; "conversion"] ++ ["webhook"; "clientConfig"; "service"]) =
  getValue (BuildXRDConversionPatch (params_of (CK := xrd_controller scope_text versions_text) "default" guarded_config guarded_report
    "main" (ready_server main_server) "")) (["spec"; "conversion"] ++ ["webhook"; "clientConfig"; "service"]).
Proof.
  destruct (guard_agrees_with_controller scope_text versions_text "default" bare_write ∅ guarded_config restored_write
    guarded_report "main" (ready_server main_server) "") as (H & _ & _).
  - split; try (vm_compute; reflexivity). exists new_status. vm_compute; reflexivity.
  - vm_compute; reflexivity.
  - vm_compute; reflexivity.
  - vm_compute; reflexivity.
  - vm_compute; reflexivity.
  - done.
  - exact bare_write_annotations.
  - vm_compute; reflexivity.
  - apply H. do 2 right. by left.
Defined.
