(* ===== verification/ServerProperties.v ===== *)
(** What a ConversionReview is answered with (Server.v): everything or nothing, and
    counted only when delivered. *)
From S2P Require Import Prelude Float64 Value Json Path Schema Rules Coerce Passthrough Ops Convert Diagnostics Registry Server Fixtures.

Section server_properties.
Context `{RO : RangeOrder} `{EX : Externs} (metrics : bool).

(** The source version of an object, its direction label and its hops. *)
Definition source_version (raw : string) : string :=
  match unmarshal_object raw with Ok o => versionOf (stringField o "apiVersion") | Err _ => "" end.
Definition direction_label (desired raw : string) : string := source_version raw +:+ "->" +:+ versionOf desired.
Definition object_hops (rt : Router) (desired raw : string) : list lossyHop :=
  hops_of (routeLabel (rtHub rt) (source_version raw) (versionOf desired)) (source_version raw) (versionOf desired).

(** [b] is the object [raw] converted: through the router, with the requested
    apiVersion and with metadata. *)
Definition delivered (rt : Router) (desired raw b : string) : Prop :=
  ∃ o out, unmarshal_object raw = Ok o ∧
    Router_Convert rt o (versionOf (stringField o "apiVersion")) (versionOf desired) = Ok out ∧
    json_Marshal (VObj (finish desired out o)) = Some b ∧
    finish desired out o !! "apiVersion" = Some (VStr desired) ∧
    non_null (finish desired out o !! "metadata") = true ∧
    ∀ k, k ≠ "apiVersion" → k ≠ "metadata" → finish desired out o !! k = out !! k.

Definition counts_loss (m : metric) : bool := match m with LossyTotal _ _ => true | _ => false end.
Definition lossy_metrics (ms : list metric) : list metric := filter (λ m, counts_loss m = true) ms.

Lemma finish_spec desired out o :
  finish desired out o !! "apiVersion" = Some (VStr desired) ∧
  non_null (finish desired out o !! "metadata") = true ∧
  ∀ k, k ≠ "apiVersion" → k ≠ "metadata" → finish desired out o !! k = out !! k.
Proof.
  unfold finish, ensureConvertedMetadata. set (out' := <["apiVersion" := VStr desired]> out).
  assert (∀ k, k ≠ "apiVersion" → out' !! k = out !! k) as Hk by (intros; unfold out'; by rewrite lookup_insert_ne).
  assert (out' !! "apiVersion" = Some (VStr desired)) as Ha by (unfold out'; by rewrite lookup_insert_eq).
  destruct (non_null (out' !! "metadata")) eqn:E1; [split_and!; [done|done|]; intros; by apply Hk|].
  destruct (non_null (o !! "metadata")) eqn:E2; rewrite lookup_insert_ne, lookup_insert_eq by done;
    (split_and!; [done| |intros; rewrite lookup_insert_ne by done; by apply Hk]); [|done].
  by destruct (o !! "metadata").
Qed.

Lemma lossy_metrics_app ms1 ms2 : lossy_metrics (ms1 ++ ms2) = lossy_metrics ms1 ++ lossy_metrics ms2.
Proof. apply filter_app. Qed.

Lemma lossy_metrics_if (b : bool) ms : lossy_metrics ms = [] → lossy_metrics (if b then ms else []) = [].
Proof. by destruct b. Qed.

Lemma recordLossy_lossy entry target hops :
  lossy_metrics (concat (recordLossy entry target <$> hops)) = concat (recordLossy entry target <$> hops).
Proof.
  induction hops as [|h hops IH]; [done|]. cbn. rewrite lossy_metrics_app, IH. f_equal.
  unfold recordLossy. by destruct (is_lossy entry h).
Qed.

(** One iteration that goes on. *)
Lemma convert_object_inl target entry rt rq p raw p' :
  convert_object metrics target entry rt rq p raw = inl p' →
  ∃ b, pgConverted p' = pgConverted p ++ [b] ∧ delivered rt (rqDesiredAPIVersion rq) raw b ∧
    pgHops p' = pgHops p ++ object_hops rt (rqDesiredAPIVersion rq) raw ∧
    pgTracker p' = tracker_add (pgTracker p) (direction_label (rqDesiredAPIVersion rq) raw) ∧
    lossy_metrics (pgMetrics p') = lossy_metrics (pgMetrics p).
Proof.
  unfold convert_object, object_hops, direction_label, source_version, delivered.
  destruct (unmarshal_object raw) as [o|]; [|done]. destruct (Router_Convert _ _ _ _) as [out|] eqn:Hc; [|done].
  destruct (json_Marshal _) as [b|] eqn:Hb; [|done]. intros [= <-]. exists b. cbn.
  split_and!; [done| |done|done|by rewrite lossy_metrics_app, lossy_metrics_if, app_nil_r].
  exists o, out. split_and!; try done; apply finish_spec.
Qed.

Lemma convert_object_inr target entry rt rq p raw f result label ms :
  convert_object metrics target entry rt rq p raw = inr (f, result, label, ms) →
  lossy_metrics ms = lossy_metrics (pgMetrics p) ∧ result ≠ "success".
Proof.
  unfold convert_object. destruct (unmarshal_object raw) as [o|]; [|by intros [= <- <- <- <-]].
  destruct (Router_Convert _ _ _ _) as [out|].
  - destruct (json_Marshal _); [done|]. by intros [= <- <- <- <-].
  - intros [= <- <- <- <-]. by rewrite lossy_metrics_app, lossy_metrics_if, app_nil_r.
Qed.

Lemma convert_objects_inl expired i target entry rt rq p raws p' :
  convert_objects metrics expired i target entry rt rq p raws = inl p' →
  ∃ bs, pgConverted p' = pgConverted p ++ bs ∧ Forall2 (delivered rt (rqDesiredAPIVersion rq)) raws bs ∧
    pgHops p' = pgHops p ++ concat (object_hops rt (rqDesiredAPIVersion rq) <$> raws) ∧
    pgTracker p' = foldl tracker_add (pgTracker p) (direction_label (rqDesiredAPIVersion rq) <$> raws) ∧
    lossy_metrics (pgMetrics p') = lossy_metrics (pgMetrics p).
Proof.
  revert i p; induction raws as [|raw raws IH]; intros i p; cbn; destruct (expired i); try done.
  { intros [= <-]. exists []. by rewrite !app_nil_r. }
  destruct (convert_object _ _ _ _ _ _ _) as [p1|e] eqn:H1; [|done]. intros H2.
  apply convert_object_inl in H1 as (b & Hb & Hd & Hh & Ht & Hl). apply IH in H2 as (bs & -> & Hds & -> & -> & ->).
  exists (b :: bs). rewrite Hb, Hh, Ht, Hl, <- !app_assoc. split_and!; try done. by constructor.
Qed.

Lemma convert_objects_inr expired i target entry rt rq p raws f result label ms :
  convert_objects metrics expired i target entry rt rq p raws = inr (f, result, label, ms) →
  lossy_metrics ms = lossy_metrics (pgMetrics p) ∧ result ≠ "success".
Proof.
  revert i p; induction raws as [|raw raws IH]; intros i p; cbn; destruct (expired i); try done;
    try (by intros [= <- <- <- <-]).
  destruct (convert_object _ _ _ _ _ _ _) as [p1|e] eqn:H1.
  - intros H2. apply IH in H2 as [-> ?]. split; [|done]. by apply convert_object_inl in H1 as (? & _ & _ & _ & _ & ->).
  - intros [= ->]. by apply convert_object_inr in H1.
Qed.

(** C6. A review is answered whole or not at all.  For a decoded review the answer
    carries the request's UID.  A success holds exactly one object per requested
    object, in order, each converted by the plan registered under the path's
    target, with the requested apiVersion, with non-null metadata, and otherwise
    as the engine left it.  A failure holds no object. *)
Theorem review_all_or_nothing reg expired r rq resp ms :
  hrBody r = BodyReview (Some rq) → handleConvert metrics reg expired r = (Review resp, ms) →
  rpUID resp = rqUID rq ∧
  match rpFailure resp with
  | Some _ => rpConverted resp = []
  | None => ∃ entry rt, Get reg (trim_prefix (hrPath r) "/convert/") = Some entry ∧ ceRouter entry = Some rt ∧
      Forall2 (delivered rt (rqDesiredAPIVersion rq)) (rqObjects rq) (rpConverted resp)
  end.
Proof.
  unfold handleConvert. intros ->. destruct (negb (hrPost r)); [done|].
  destruct (Get reg _) as [entry|]; [|by intros [= <- _]]. destruct (ceRouter entry) as [rt|] eqn:Hrt; [|by intros [= <- _]].
  unfold convert_review. destruct (convert_objects _ _ _ _ _ _ _ _ _) as [p|[[[f result] label] ms']] eqn:Hc.
  - intros [= <- _]. split; [done|]. exists entry, rt. split_and!; [done..|].
    by apply convert_objects_inl in Hc as (bs & -> & Hd & _).
  - by intros [= <- _].
Qed.

(** The label of a batch: its direction when all objects agree. *)
Definition batch_label (dirs : list string) : string :=
  match dirs with
  | [] => "unknown"
  | d :: ds => if forallb (λ d', bool_decide (d' = d)) ds then d else "mixed"
  end.

Lemma tracker_label dirs : Forall (λ d, d ≠ "") dirs → dtLabel (foldl tracker_add new_tracker dirs) = batch_label dirs.
Proof.
  destruct dirs as [|d ds]; [done|]. intros [Hd _]%Forall_cons. cbn. unfold tracker_add at 2. cbn.
  assert (∀ label, dtSeen (foldl tracker_add {| dtLabel := label; dtSeen := d |} ds) = d ∧
    dtLabel (foldl tracker_add {| dtLabel := label; dtSeen := d |} ds) =
    if forallb (λ d', bool_decide (d' = d)) ds then label else "mixed") as H; [|apply H].
  induction ds as [|d' ds IH]; intros label; [done|]. cbn. unfold tracker_add at 2 4. cbn.
  rewrite (bool_decide_false (d = "")) by done. destruct (decide (d' = d)) as [->|Hne].
  - rewrite (bool_decide_false (d ≠ d)) by (intros H; by apply H). rewrite bool_decide_true by done. apply IH.
  - rewrite (bool_decide_true (d ≠ d')) by done. rewrite (bool_decide_false (d' = d)) by done. cbn.
    destruct (IH "mixed") as [-> ->]. by destruct (forallb _ _).
Qed.
End server_properties.

Lemma app_not_empty s t u : t ≠ "" → s +:+ t +:+ u ≠ "".
Proof. by destruct s, t. Qed.

(** Losses are counted when they are delivered.  A review that fails counts no
    lossy conversion, however many of its objects had been converted.  One that
    succeeds counts, object by object, exactly the hops that ran in a direction
    recorded as lossy, both hops of a conversion between two spokes included,
    and is observed once as a success, under the direction of its objects or
    "mixed" when they differ. *)
Theorem losses_counted_when_delivered `{RO : RangeOrder} `{EX : Externs} reg expired r rq resp ms :
  hrBody r = BodyReview (Some rq) → handleConvert true reg expired r = (Review resp, ms) →
  let target := trim_prefix (hrPath r) "/convert/" in
  match rpFailure resp with
  | Some _ => lossy_metrics ms = []
  | None => ∃ entry rt, Get reg target = Some entry ∧ ceRouter entry = Some rt ∧
      lossy_metrics ms =
        concat (recordLossy entry target <$> concat (object_hops rt (rqDesiredAPIVersion rq) <$> rqObjects rq)) ∧
      ReviewObserved target (batch_label (direction_label (rqDesiredAPIVersion rq) <$> rqObjects rq)) "success" ∈ ms
  end.
Proof.
  unfold handleConvert. intros ->. destruct (negb (hrPost r)); [done|].
  destruct (Get reg _) as [entry|]; [|by intros [= <- <-]].
  destruct (ceRouter entry) as [rt|] eqn:Hrt; [|by intros [= <- <-]].
  unfold convert_review. destruct (convert_objects _ _ _ _ _ _ _ _ _) as [p|[[[f result] label] ms']] eqn:Hc.
  - intros [= <- <-]. cbn. exists entry, rt. split_and!; [done..| |].
    + apply convert_objects_inl in Hc as (bs & _ & _ & Hh & _ & Hl).
      rewrite !lossy_metrics_app, Hl, recordLossy_lossy, Hh. cbn. by rewrite app_nil_r.
    + apply convert_objects_inl in Hc as (bs & _ & _ & _ & -> & _). cbn. rewrite tracker_label.
      * rewrite !elem_of_app, list_elem_of_singleton. auto.
      * apply Forall_fmap, Forall_forall. intros raw _. by apply app_not_empty.
  - intros [= <- <-]. cbn. apply convert_objects_inr in Hc as [Hl _]. by rewrite lossy_metrics_app, Hl.
Qed.

(** ** Witnesses *)

#[local] Existing Instances canonical_order fixture_externs fixture_compile_externs.

Definition demo_entry : CompiledEntry := {|
  ceRouter := Some {| rtHub := "v2"; rtPlans := {["v1" := Some demo_plan]} |};
  ceConversionReviewVersions := ["v1"];
  ceLossless := {["v1" := {| lvHubToSpoke := false; lvSpokeToHub := true |}]};
  cePlanHash := ""; ceCompiledAt := Some 1%Z; ceLastError := ""; ceLastErrorAt := None |}.
Definition demo_registry : registry := {["apps" := demo_entry]}.
Definition demo_text : string :=
  default "" (json_Marshal (VObj (<["apiVersion" := VStr "example.org/v2"]> demo_object))).
Definition demo_request : ConversionRequest :=
  {| rqUID := "u1"; rqDesiredAPIVersion := "example.org/v1"; rqObjects := [demo_text] |}.
Definition demo_http : http_request :=
  {| hrPost := true; hrPath := "/convert/apps"; hrBody := BodyReview (Some demo_request) |}.
Definition demo_answer : response * list metric := handleConvert true demo_registry (λ _, false) demo_http.
Definition demo_response : ConversionResponse :=
  match demo_answer.1 with Review resp => resp | HTTPError _ => {| rpUID := ""; rpConverted := []; rpFailure := None |} end.

Lemma review_all_or_nothing_witness :
  length (rpConverted demo_response) = 1 ∧ rpUID demo_response = "u1" ∧
  match rpFailure demo_response with
  | Some _ => rpConverted demo_response = []
  | None => ∃ entry rt, Get demo_registry "apps" = Some entry ∧ ceRouter entry = Some rt ∧
      Forall2 (delivered rt "example.org/v1") [demo_text] (rpConverted demo_response)
  end.
Proof.
  split; [by vm_compute|].
  apply (review_all_or_nothing true demo_registry (λ _, false) demo_http demo_request demo_response demo_answer.2);
    by vm_compute.
Defined.

Lemma losses_counted_when_delivered_witness :
  lossy_metrics demo_answer.2 = [LossyTotal "apps" "hub_to_spoke"] ∧
  match rpFailure demo_response with
  | Some _ => lossy_metrics demo_answer.2 = []
  | None => ∃ entry rt, Get demo_registry "apps" = Some entry ∧ ceRouter entry = Some rt ∧
      lossy_metrics demo_answer.2 =
        concat (recordLossy entry "apps" <$> concat (object_hops rt "example.org/v1" <$> [demo_text])) ∧
      ReviewObserved "apps" (batch_label (direction_label "example.org/v1" <$> [demo_text])) "success" ∈ demo_answer.2
  end.
Proof.
  split; [by vm_compute|].
  apply (losses_counted_when_delivered demo_registry (λ _, false) demo_http demo_request demo_response demo_answer.2);
    by vm_compute.
Defined.
