(* ===== verification/WebhookServerProperties.v ===== *)
(** What the ConversionWebhookServer controller guarantees, and how it fits the
    config controllers, admission and the drain: the webhook a target names reaches
    the pods, a server is ready only when its CA can be read, an admitted rollout
    drains in time, deletion strands nobody, and a pass stops at its first error. *)
From S2P Require Import Prelude Float64 Value Json Duration Path Schema Rules Coerce Passthrough Ops Convert Diagnostics Compile Normalize Platform Required Analyze Assign Api Configs Adapters Registry Replica Encoding ServedTargets Rollout Workloads Patches Guard Propagation Controller ControllerTheory Admission ServerController RolloutProperties Fixtures ReplicaProperties HandoverProperties ControllerFixtures ControllerProperties.
#[local] Open Scope Z_scope.

(** Membership in a list that is written out up to the element. *)
Ltac listed := solve [cbn [app]; repeat first [by left|right]].

Section server.
Context `{ML : MathLog} {CO : ConditionOps} `{GZ : Gzip} `{AT : ApplyTypes}.
Context (rc : ReconcilerOptions).

(** *** The first error ends a pass *)

(** An event whose write was refused is the last one, and the pass fails. *)
Definition stops {A} (w : server_world) (m : SM A) : Prop :=
  ∀ es1 e es2 err, m.1 = es1 ++ e :: es2 → swAnswer w e = Some err → es2 = [] ∧ ∃ x, m.2 = Err (Err x).

Lemma stops_ret {A} w (a : A) : stops w (mret a).
Proof. intros es1 e es2 err H. by destruct es1. Qed.
Lemma stops_exit {A} w x : stops w (exit (A := A) (Err x)).
Proof. intros es1 e es2 err H. by destruct es1. Qed.
Lemma stops_or_fail {A} w (r : res string A) wrap : stops w (or_fail r wrap).
Proof. destruct r; [apply stops_ret|apply stops_exit]. Qed.

Lemma write_events w e wrap : write w e wrap = ([e], match swAnswer w e with Some err => Err (Err (wrap err)) | None => Ok () end).
Proof. unfold write, fail_with, mbind, handler_bind. cbn. by destruct (swAnswer w e). Qed.

Lemma stops_write w e wrap : stops w (write w e wrap).
Proof.
  intros es1 e' es2 err. rewrite write_events. cbn. intros Heq Ha. destruct es1 as [|e1 es1]; cbn in Heq.
  - injection Heq as <- <-. split; [done|]. rewrite Ha. by eexists.
  - injection Heq as _ Heq. by destruct es1.
Qed.

Lemma stops_bind {A B} w (m : SM A) (f : A → SM B) : stops w m → (∀ a, stops w (f a)) → stops w (m ≫= f).
Proof.
  intros Hm Hf es1 e es2 err. unfold mbind, handler_bind. destruct m as [es [a|r]] eqn:Em; cbn.
  - intros Heq Ha. apply app_eq_inv in Heq as [(k & -> & Hk)|(k & -> & Hk)].
    + destruct k as [|e' k]; cbn in Hk.
      * by apply (Hf a [] e es2 err).
      * injection Hk as <- Hk. destruct (Hm es1 e k err eq_refl Ha) as [_ [x Hx]]. done.
    + by apply (Hf a k e es2 err).
  - intros Heq Ha. destruct (Hm es1 e es2 err Heq Ha) as [-> [x Hx]]. cbn in Hx. injection Hx as ->. eauto.
Qed.

Lemma stops_patch_finalizers w before after wrap : stops w (patch_finalizers w before after wrap).
Proof. unfold patch_finalizers. case_bool_decide; [apply stops_ret|apply stops_write]. Qed.

Lemma stops_reconcileServer w s : stops w (reconcileServer rc w s).
Proof.
  unfold reconcileServer. apply stops_bind; [apply stops_or_fail|intros st].
  apply stops_bind; [|intros _].
  { unfold reconcileCertificate. case_match; [apply stops_write|apply stops_exit]. }
  apply stops_bind; [apply stops_write|intros _]. apply stops_bind; [|intros _].
  { unfold reconcileDeployment. case_match; [apply stops_write|apply stops_exit]. }
  do 2 (apply stops_bind; [apply stops_write|intros _]). apply stops_bind; [apply stops_or_fail|intros st'].
  apply stops_bind; [apply stops_write|intros _; apply stops_ret].
Qed.

Lemma stops_deleteServer w s : stops w (deleteServer w s).
Proof.
  unfold deleteServer. case_bool_decide; [apply stops_ret|].
  assert (stops w (_ ← remove_server_finalizer w s; mret 0 : SM Z)) as Hdone.
  { apply stops_bind; [apply stops_patch_finalizers|intros; apply stops_ret]. }
  case_bool_decide; [done|]. apply stops_bind.
  { unfold dependents. do 3 (apply stops_bind; [apply stops_or_fail|intros ?]). apply stops_ret. }
  intros names. case_match; [|done]. apply stops_bind; [apply stops_write|intros; apply stops_ret].
Qed.

Lemma stops_ReconcileServer w es1 e es2 err :
  (ReconcileServer rc w).1 = es1 ++ e :: es2 → swAnswer w e = Some err →
  es2 = [] ∧ ∃ x, (ReconcileServer rc w).2 = Err x.
Proof.
  unfold ReconcileServer. destruct (swServer w) as [s| |x]; [|by destruct es1..]. unfold ran. intros Hes Ha.
  match type of Hes with (fst (?m.1, _)) = _ => assert (stops w m) as Hs end.
  { destruct (negb _); [|apply stops_deleteServer]. apply stops_bind; [apply stops_patch_finalizers|intros _; apply stops_reconcileServer]. }
  destruct (Hs es1 e es2 err Hes Ha) as [-> [x Hx]]. split; [done|]. cbn. rewrite Hx. by eexists.
Qed.

(** *** A full pass *)

Lemma bind_write {B} w e wrap (f : () → SM B) : write w e wrap ≫= f =
  match swAnswer w e with
  | Some err => ([e], Err (Err (wrap err)))
  | None => (e :: (f ()).1, (f ()).2)
  end.
Proof. unfold mbind, handler_bind. rewrite write_events. by destruct (swAnswer w e). Qed.
Lemma bind_or_fail {A B} (r : res string A) wrap (f : A → SM B) : or_fail r wrap ≫= f =
  match r with Ok a => f a | Err e => exit (Err (wrap e)) end.
Proof. destruct r as [a|e]; [|done]. cbn. unfold mbind, handler_bind. by destruct (f a). Qed.

(** Through a pass, one read, build or write after another, up to the patch of its
    status; [close] settles the passes that stop on the way. *)
Ltac walk_pass w s close :=
  unfold reconcileServer, reconcileCertificate, reconcileService, reconcileDeployment, reconcileHPA, reconcilePDB;
  rewrite bind_or_fail; destruct (checkDefaultConflict w s) as [|] eqn:?; [|close];
  destruct (SetControllerReference _ _ _) as [|] eqn:?; [|close]; do 2 (rewrite bind_write; destruct (swAnswer w _); [close|]);
  destruct (deployment _ _ _ _ _) as [|] eqn:?; [|close]; do 3 (rewrite bind_write; destruct (swAnswer w _); [close|]);
  rewrite bind_or_fail; destruct (updateStatus w s _ _) as [|] eqn:?; [|close]; rewrite bind_write.

(** What one full pass writes. *)
Definition full_pass (w : server_world) (s : WebhookServer) (st : ConversionWebhookServerStatus) (es : list server_event) : Prop :=
  let name := omName (wrMeta s) in let ns := server_namespace rc s in
  ∃ st0 cert d, checkDefaultConflict w s = Ok st0 ∧
    SetControllerReference name (wrUID s) (certificate name ns (wsCertificate (wrSpec s))) = Ok cert ∧
    deployment rc name (wrUID s) ns (wrSpec s) = Ok d ∧ updateStatus w s st0 ns = Ok st ∧
    es = [AppliesCertificate cert; AppliesService (service name (wrUID s) ns (wsService (wrSpec s))); AppliesDeployment d;
          hpa_write s ns; pdb_write s ns; PatchesServerStatus st].

Lemma status_patched w s st : PatchesServerStatus st ∈ (reconcileServer rc w s).1 →
  full_pass w s st (reconcileServer rc w s).1.
Proof.
  assert (∀ ns, hpa_write s ns ≠ PatchesServerStatus st ∧ pdb_write s ns ≠ PatchesServerStatus st) as Hne.
  { intros ns. unfold hpa_write, pdb_write. split; by case_match. }
  specialize (Hne (server_namespace rc s)) as [Hh Hp]. walk_pass w s ltac:(set_solver).
  intros Hin. match goal with H : updateStatus w s _ _ = Ok ?st1 |- _ => assert (st1 = st) as -> end.
  { destruct (swAnswer w _); cbn in Hin; set_solver. }
  do 3 eexists. split_and!; [done..|]. by destruct (swAnswer w _).
Qed.

Lemma server_ran w es r s : swServer w = Found s → omDeleting (wrMeta s) = false → ReconcileServer rc w = (es, r) →
  ∃ fin, (fin = [] ∨ ∃ fs, fin = [PatchesServerFinalizers fs] ∧ ConversionWebhookServerFinalizer ∈ fs) ∧
    ((es = fin ∧ ∃ x, r = Err x) ∨ (es = fin ++ (reconcileServer rc w s).1 ∧ r = (ran (reconcileServer rc w s)).2)).
Proof.
  intros Hs Hd. unfold ReconcileServer. rewrite Hs, Hd. unfold add_server_finalizer, patch_finalizers.
  case_bool_decide as Hf.
  - intros [= <- <-]. exists []. split; [by left|]. by right.
  - rewrite bind_write. set (fs := if bool_decide _ then _ else _) in *.
    assert (ConversionWebhookServerFinalizer ∈ fs) as Hin by (unfold fs; case_bool_decide; set_solver).
    destruct (swAnswer w _); intros [= <- <-]; (exists [PatchesServerFinalizers fs]; split; [by right; exists fs|]);
      [left; split; [done|by eexists]|by right].
Qed.

Lemma reconcileServer_Ok w s d : (ran (reconcileServer rc w s)).2 = Ok d →
  ∃ st, PatchesServerStatus st ∈ (reconcileServer rc w s).1.
Proof.
  walk_pass w s ltac:(done). destruct (swAnswer w _); [done|]. intros _. eexists. cbn. do 5 right. by left.
Qed.

(** A pass of the server controller stops at its first error.  A write the API
    server refuses is the last of the pass, and the pass fails; a status is written
    only by a pass that has applied the certificate, the Service, the Deployment,
    and the autoscaler and the disruption budget or their absence, in that order,
    and a pass over a live server that returns no error has written one. *)
Theorem server_pass_stops_at_first_error w :
  let '(es, r) := ReconcileServer rc w in
  (∀ es1 e es2 err, es = es1 ++ e :: es2 → swAnswer w e = Some err → es2 = [] ∧ ∃ x, r = Err x) ∧
  (∀ s, swServer w = Found s → omDeleting (wrMeta s) = false →
    (∀ st, PatchesServerStatus st ∈ es → ∃ fin es', es = fin ++ es' ∧ full_pass w s st es') ∧
    (∀ d, r = Ok d → ∃ st, PatchesServerStatus st ∈ es)).
Proof.
  destruct (ReconcileServer rc w) as [es r] eqn:E. split.
  - intros es1 e es2 err. pose proof (stops_ReconcileServer w es1 e es2 err) as H. by rewrite E in H.
  - intros s Hs Hd. destruct (server_ran w es r s Hs Hd E) as (fin & Hfin & [[-> [x ->]]|[-> ->]]).
    + split; [|done]. intros st Hin. exfalso. destruct Hfin as [->|(fs & -> & _)]; set_solver.
    + split.
      * intros st [Hin|Hin]%elem_of_app; [exfalso; destruct Hfin as [->|(fs & -> & _)]; set_solver|].
        exists fin, (reconcileServer rc w s).1. split; [done|]. by apply status_patched.
      * intros d Hok. destruct (reconcileServer_Ok w s d Hok) as [st Hst]. exists st. set_solver.
Qed.

(** *** Ready means servable *)

Context {CL : ConditionLaws CO}.

(** The server as the config controllers read it. *)
Definition instance_of (s : WebhookServer) (st : ConversionWebhookServerStatus) : ServerInstance := {|
  siServer := fleet_member s; siNamespace := wsNamespace (wrSpec s); siPort := sePort (wsService (wrSpec s));
  siReadyReplicas := wtReadyReplicas st; siConditions := wtConditions st |}.

Lemma instance_namespace s st : namespace_of (rcDefaultNamespace rc) (instance_of s st) = server_namespace rc s.
Proof. done. Qed.

Lemma updateStatus_conditions w s st0 ns st : updateStatus w s st0 ns = Ok st →
  wtConditions st = health_conditions (swNow w) (wtConditions st0) (swDeployment w ns (cwsDeploymentName (omName (wrMeta s))))
    (swService w ns (cwsServiceName (omName (wrMeta s)))) (swSecret w ns (cwsCertificateSecretName (omName (wrMeta s)))).
Proof.
  unfold updateStatus. intros H. repeat (apply res_bind_Ok in H as (? & _ & H)). destruct x2 as [[]]. by injection H as <-.
Qed.

Lemma health_true now l dep svc secret :
  let l' := health_conditions now l dep svc secret in
  (IsStatusConditionTrue l' CWSConditionAvailable = true → ∃ d, dep = Found d ∧ deploymentAvailable d = true) ∧
  (IsStatusConditionTrue l' CWSConditionServiceReady = true → svc = Found ()) ∧
  (IsStatusConditionTrue l' CWSConditionCertificateReady = true → ∃ data, secret = Found data ∧ default "" (data !! "tls.crt") ≠ "").
Proof.
  intros l'. unfold l', health_conditions, availableCondition.
  rewrite (IsTrue_set_ne _ _ CWSConditionCertificateReady _ _ _ CWSConditionAvailable), (IsTrue_set_ne _ _ CWSConditionServiceReady _ _ _ CWSConditionAvailable),
    (IsTrue_set_ne _ _ CWSConditionCertificateReady _ _ _ CWSConditionServiceReady), !IsTrue_set_same by done.
  split_and!.
  - destruct dep as [d| |]; [|done..]. destruct (deploymentAvailable d) eqn:E; [|done]. eauto.
  - destruct svc as [[]| |]; done.
  - destruct secret as [data| |]; [|done..]. destruct (bool_decide (default "" _ ≠ "")) eqn:E; [|done].
    apply bool_decide_eq_true in E. eauto.
Qed.

(** C20. A ready server can be applied.  When a pass leaves a status that makes the
    server ready for the config controllers, its Deployment was Available, its
    Service existed and its certificate's secret held a certificate; so a config
    controller that reads the same secret gets a CA bundle, and none of its passes
    fails for want of one. *)
Theorem ready_server_can_be_applied {C T} (w : server_world) (w' : world C T) s st :
  swServer w = Found s → omDeleting (wrMeta s) = false → PatchesServerStatus st ∈ (ReconcileServer rc w).1 →
  isServerReady (instance_of s st) = true →
  let name := omName (wrMeta s) in let ns := server_namespace rc s in
  (∃ d, swDeployment w ns (cwsDeploymentName name) = Found d ∧ deploymentAvailable d = true) ∧
  swService w ns (cwsServiceName name) = Found () ∧
  (wdSecret w' ns (cwsCertificateSecretName name) = swSecret w ns (cwsCertificateSecretName name) →
   ∃ ca, readCABundle (rcDefaultNamespace rc) w' (instance_of s st) = Ok ca).
Proof.
  intros Hs Hd Hin Hr name ns. destruct (ReconcileServer rc w) as [es r] eqn:E.
  destruct (server_ran w es r s Hs Hd E) as (fin & Hfin & Hes). cbn in Hin.
  assert (PatchesServerStatus st ∈ (reconcileServer rc w s).1) as Hst.
  { destruct Hes as [[-> _]|[-> _]]; [|apply elem_of_app in Hin as [Hin|Hin]; [|done]];
      exfalso; destruct Hfin as [->|(fs & -> & _)]; set_solver. }
  destruct (status_patched w s st Hst) as (st0 & cert & d & _ & _ & _ & Hu & _).
  apply updateStatus_conditions in Hu. unfold isServerReady in Hr. cbn [siReadyReplicas siConditions instance_of] in Hr.
  destruct (_ =? 0); [done|]. rewrite Hu in Hr. cbn [forallb] in Hr. apply andb_true_iff in Hr as [Ha Hr].
  apply andb_true_iff in Hr as [Hc Hr]. apply andb_true_iff in Hr as [Hv _].
  edestruct health_true as (H1 & H2 & H3). specialize (H1 Ha). specialize (H2 Hv). destruct (H3 Hc) as (data & Hdata & Hcrt).
  split; [exact H1|]. split; [exact H2|]. intros Hsec. unfold readCABundle. rewrite instance_namespace. cbn [siServer instance_of fleet_member cwsName].
  fold name ns. rewrite Hsec. fold name ns in Hdata. rewrite Hdata. case_bool_decide; [eauto|]. rewrite bool_decide_true by done. eauto.
Qed.

(** *** From the stanza to the pods *)

Lemma templateLabels_keep server extra k v :
  podLabels server !! k = Some v → templateLabels server extra !! k = Some v.
Proof.
  intros Hk. unfold templateLabels. apply (map_fold_weak_ind (λ out _, out !! k = Some v)); [done|].
  intros k' v' m out _ Hout. destruct (out !! k') eqn:E; [done|]. rewrite lookup_insert_ne by congruence. done.
Qed.

Lemma deployment_Ok server uid ns s d : deployment rc server uid ns s = Ok d →
  ∃ args env mounts volumes, server_args rc server s = Ok args ∧
    cnArgs (psContainer (adPod d)) = args ∧ cnEnv (psContainer (adPod d)) = env ∧ server_env s = Ok env ∧
    cnMounts (psContainer (adPod d)) = [MountAt "tls" "/tls" true; MountAt "tmp" "/tmp" false] ++ mounts ∧
    psVolumes (adPod d) = [SecretVolume "tls" (cwsCertificateSecretName server); EmptyDir "tmp"] ++ volumes ∧
    cnPorts (psContainer (adPod d)) = [("conversion", webhookServerConversionPort); ("metrics", webhookServerMetricsPort)] ∧
    cnPreStopSleep (psContainer (adPod d)) = (if 0 <? rolloutPreStopSeconds s then Some (rolloutPreStopSeconds s) else None) ∧
    psGracePeriod (adPod d) = rolloutGracePeriod s ∧ adNamespace d = ns ∧ adSelector d = podLabels server ∧
    adTemplateLabels d = templateLabels server (wsPodLabels s) ∧
    adMaxUnavailable d = (rolloutStrategy s).1 ∧ adMaxSurge d = (rolloutStrategy s).2.
Proof.
  unfold deployment, pod_spec, server_container. intros H. apply res_bind_Ok in H as (pod & Hp & [= <-]).
  apply res_bind_Ok in Hp as (c & Hc & Hp). repeat (apply res_bind_Ok in Hp as (? & _ & Hp)). injection Hp as <-.
  apply res_bind_Ok in Hc as (args & Ha & Hc). apply res_bind_Ok in Hc as (env & He & Hc).
  apply res_bind_Ok in Hc as (mounts & _ & [= <-]). cbn. by do 4 eexists.
Qed.

Lemma server_args_Ok server s args : server_args rc server s = Ok args →
  ∃ cache, ValidateWebhookServerExtraArgs (wsExtraArgs s) = Ok () ∧
    args = ["--webhook-server-name=" +:+ server; "--tls-cert-dir=/tls";
            "--conversion-bind-address=:" +:+ pretty webhookServerConversionPort;
            "--metrics-bind-address=:" +:+ pretty webhookServerMetricsPort;
            "--enable-xrd-support=" +:+ bool_text (rcEnableXRDSupport rc);
            "--enable-crd-support=" +:+ bool_text (rcEnableCRDSupport rc)] ++ cache ++ wsExtraArgs s.
Proof.
  unfold server_args. intros H. apply res_bind_Ok in H as ([] & Hv & H). apply res_wrap_Ok in Hv.
  apply res_bind_Ok in H as (cache & _ & [= <-]). by eexists.
Qed.

Section wiring.
Context `{RO : RangeOrder} `{EX : Externs} `{CX : CompileExterns} `{CK : ControllerKind C T} {AL : ApplyTypesLaws AT}.

(** C19. The webhook a target names reaches the pods.  Take a full pass of the server
    controller and the stanza a config controller applies for that server.  The
    Service of the stanza is the one the pass applies, in the same namespace, with
    the stanza's port forwarded to the port the container listens on; it selects
    every pod of the Deployment the pass applies, whatever labels the user adds;
    the certificate the pass asks for names the host of the webhook, unless the
    user chose its names, and the secret it fills is the one mounted where the
    server looks for its certificate and the one the CA bundle is read from. *)
Theorem webhook_reaches_the_pods w s st es cfg report inst_st ca :
  full_pass w s st es →
  let p := params_of (CK := CK) (rcDefaultNamespace rc) cfg report (omName (wrMeta s)) (instance_of s inst_st) ca in
  ∃ svc d cert pt, AppliesService svc ∈ es ∧ AppliesDeployment d ∈ es ∧ AppliesCertificate cert ∈ es ∧
    (asvName svc = paServiceName p ∧ asvNamespace svc = paServiceNamespace p ∧ adNamespace d = paServiceNamespace p) ∧
    (pt ∈ asvPorts svc ∧ ptPort pt = paPort p ∧ ("conversion", ptTargetPort pt) ∈ cnPorts (psContainer (adPod d)) ∧
     "--conversion-bind-address=:" +:+ pretty (ptTargetPort pt) ∈ cnArgs (psContainer (adPod d))) ∧
    (asvSelector svc ⊆ adTemplateLabels d ∧ adSelector d ⊆ adTemplateLabels d) ∧
    (ctDNSNames (wsCertificate (wrSpec s)) = [] → ∃ names, getValue cert ["spec"; "dnsNames"] = Some (VArr (VStr <$> names)) ∧
       paServiceName p +:+ "." +:+ paServiceNamespace p +:+ ".svc" ∈ names) ∧
    (∃ secret, secret = cwsCertificateSecretName (omName (wrMeta s)) ∧
       getValue cert ["spec"; "secretName"] = Some (VStr secret) ∧ SecretVolume "tls" secret ∈ psVolumes (adPod d) ∧
       MountAt "tls" "/tls" true ∈ cnMounts (psContainer (adPod d)) ∧ "--tls-cert-dir=/tls" ∈ cnArgs (psContainer (adPod d))).
Proof.
  intros (st0 & cert & d & _ & Hcert & Hd & _ & ->) p. set (name := omName (wrMeta s)) in *. set (ns := server_namespace rc s) in *.
  destruct (deployment_Ok _ _ _ _ _ Hd) as (args & env & mounts & volumes & Hargs & Ea & _ & _ & Em & Ev & Ep & _ & _ & En & Es & El & _).
  destruct (server_args_Ok _ _ _ Hargs) as (cache & _ & Eargs).
  assert (∀ k, getValue cert ["spec"; k] = getValue (certificate name ns (wsCertificate (wrSpec s))) ["spec"; k]) as Hspec.
  { intros k. unfold getValue. cbn. by rewrite (owner_keeps_spec _ _ _ _ Hcert). }
  exists (service name (wrUID s) ns (wsService (wrSpec s))), d, cert,
    {| ptName := "conversion"; ptPort := service_port (wsService (wrSpec s)); ptTargetPort := webhookServerConversionPort |}.
  rewrite Ea, Em, Ev, Ep, En, Es, El, Eargs. split_and!; try done; try listed.
  - apply map_subseteq_spec. intros k v. apply templateLabels_keep.
  - apply map_subseteq_spec. intros k v. apply templateLabels_keep.
  - intros Hn. exists (dns_names name ns (wsCertificate (wrSpec s))). split.
    + rewrite Hspec. unfold certificate. by destruct (ctDuration _), (ctRenewBefore _).
    + unfold dns_names. rewrite bool_decide_true by by rewrite Hn. cbn. do 2 right. by left.
  - eexists. split; [done|]. split_and!; [|listed..].
    rewrite Hspec. unfold certificate. by destruct (ctDuration _), (ctRenewBefore _).
Qed.
End wiring.

(** *** The drain *)

Lemma strategy_of s : validateRolloutStrategy (wsRollout s) = Ok () →
  ∃ u n, strategy_amount (rolloutStrategy s).1 = Some u ∧ strategy_amount (rolloutStrategy s).2 = Some n ∧
         0 ≤ u ∧ 0 ≤ n ∧ 0 < u + n.
Proof.
  unfold rolloutStrategy. destruct (wsRollout s) as [ro|]; [apply strategy_amounts|].
  intros _. exists 0, 1. split_and!; done.
Qed.

(** The operator's own arguments carry their values. *)
Lemma server_args_valued server s args : server_args rc server s = Ok args →
  ∃ own, args = own ++ wsExtraArgs s ∧ Forall valued own.
Proof.
  unfold server_args. intros H. apply res_bind_Ok in H as ([] & _ & H). apply res_bind_Ok in H as (cache & Hc & [= <-]).
  eexists ([_; _; _; _; _; _] ++ option_list cache). split; [by rewrite <-app_assoc|]. apply Forall_app. split.
  - repeat apply Forall_cons_2; [..|apply Forall_nil_2].
    + exists "webhook-server-name", server. by split_and!; [..|set_solver].
    + exists "tls-cert-dir", "/tls". by split_and!; [..|set_solver].
    + exists "conversion-bind-address", (":" +:+ pretty webhookServerConversionPort). by split_and!; [..|set_solver].
    + exists "metrics-bind-address", (":" +:+ pretty webhookServerMetricsPort). by split_and!; [..|set_solver].
    + exists "enable-xrd-support", (bool_text (rcEnableXRDSupport rc)). by split_and!; [..|set_solver].
    + exists "enable-crd-support", (bool_text (rcEnableCRDSupport rc)). by split_and!; [..|set_solver].
  - unfold cacheSelectorArg in Hc. destruct (wsCacheSelector s) as [sel|]; [|injection Hc as <-; apply Forall_nil_2].
    destruct (_ && _); [injection Hc as <-; apply Forall_nil_2|].
    destruct (selector_json sel) as [raw|]; [|done]. injection Hc as <-. apply Forall_singleton.
    exists "cache-label-selector", raw. by split_and!; [..|set_solver].
Qed.

Lemma shutdown_of_args server s args : server_args rc server s = Ok args →
  shutdownTimeoutFromArgs args = shutdownTimeoutFromArgs (wsExtraArgs s).
Proof.
  intros (own & -> & Hown)%server_args_valued. unfold shutdownTimeoutFromArgs. rewrite length_app. by apply shutdown_skips.
Qed.

(** C22. An admitted drain fits the pod.  Take a spec whose rollout admission accepted
    and the Deployment built from it.  Let the extra arguments be written the usual
    way (two dashes; the value after an equals sign, or next and without a dash; no
    separate value for a boolean flag), and let the standard library's flag parser
    accept the container's command line, [shutdown] being the timeout it leaves, by
    the last setting or the default of 30 seconds.  If the preStop sleep is from 0 to
    300 seconds, the grace period from 0 to 9223372036 seconds and the timeout positive
    and at least 300 seconds below the largest duration, then the sleep and the timeout
    together end before the pod's grace period does.  And the update strategy can make
    progress: its two amounts are not negative and not both zero. *)
Theorem admitted_drain_fits_the_pod is_bool server uid ns s d fs shutdown :
  ValidateWebhookServerRollout (wsRollout s) (wsExtraArgs s) = Ok () → deployment rc server uid ns s = Ok d →
  is_bool "shutdown-timeout" = Some false → usual is_bool (wsExtraArgs s) →
  Parse is_bool (cnArgs (psContainer (adPod d))) = Ok fs →
  timeout_set DefaultWebhookServerShutdownTimeout fs = Some shutdown → rollout_in_range (wsRollout s) shutdown →
  default 0 (cnPreStopSleep (psContainer (adPod d))) * Second + shutdown < psGracePeriod (adPod d) * Second ∧
  ∃ u n, strategy_amount (adMaxUnavailable d) = Some u ∧ strategy_amount (adMaxSurge d) = Some n ∧
         0 ≤ u ∧ 0 ≤ n ∧ 0 < u + n.
Proof.
  intros Hv Hd Hb Hu Hp Ht Hr. destruct (deployment_Ok _ _ _ _ _ Hd) as (args & env & mounts & volumes & Hargs & Ea & _ & _ & _ & _ & _ & Ep & Eg & _ & _ & _ & Eu & En).
  rewrite Ea in Hp. assert (shutdownTimeoutFromArgs (wsExtraArgs s) = Ok shutdown) as Hs.
  { rewrite <- (shutdown_of_args _ _ _ Hargs). assert (∃ x, shutdownTimeoutFromArgs args = Ok x) as [x Hx].
    { rewrite (shutdown_of_args _ _ _ Hargs). unfold ValidateWebhookServerRollout in Hv.
      apply res_bind_Ok in Hv as (x & Hx%res_wrap_Ok & _). by exists x. }
    rewrite Hx. f_equal. destruct (server_args_valued _ _ _ Hargs) as (own & -> & Hown).
    by apply (usual_timeout is_bool _ _ _ _ fs shutdown Hb (usual_valued _ own _ Hown Hu) (Nat.le_refl _) Hx Hp). }
  apply (drain_fits _ _ _ Hs Hr) in Hv as [Hfit Hst].
  rewrite Ep, Eg, Eu, En. split; [|by apply strategy_of].
  destruct Hr as ([Hp0 _] & _). change (rolloutGracePeriod s) with (effective_grace (wsRollout s)).
  change (rolloutPreStopSeconds s) with (effective_preStop (wsRollout s)). destruct (0 <? _) eqn:E; cbn [default]; [exact Hfit|].
  unfold Second in *. lia.
Qed.

(** *** The memory limit *)

(** The collector's limit leaves headroom.  When the container's memory limit
    gives it a GOMEMLIMIT, the limit is at least a hundred bytes, the value is
    positive, at most nine tenths of the limit and less than ninety bytes below
    that, and nothing on the way to it leaves an int64. *)
Theorem memory_limit_leaves_headroom re raw bytes :
  reLimits re !! "memory" = Some raw → quantity_Value raw < 2 ^ 63 →
  webhookServerMemoryLimitBytes re = Some bytes ↔
  100 ≤ quantity_Value raw ∧ 0 < bytes ∧ 100 * bytes ≤ 90 * quantity_Value raw < 100 * bytes + 9000 ∧ (90 | bytes) ∧
  wrap64 bytes = bytes.
Proof.
  intros Hr Hv. unfold webhookServerMemoryLimitBytes, goMemLimitFraction. rewrite Hr.
  destruct (quantity_Value raw <=? 0) eqn:E; [apply Z.leb_le in E; split; [done|lia]|apply Z.leb_gt in E].
  set (v := quantity_Value raw) in *. pose proof (Z.quot_rem' v 100). pose proof (Z.rem_bound_pos v 100 ltac:(lia) ltac:(lia)).
  set (q := Z.quot v 100) in *. destruct (q * 90 <=? 0) eqn:E2.
  - split; [done|]. lia.
  - split.
    + intros [= <-]. split_and!; try lia; [by exists q|]. apply wrap64_id. lia.
    + intros (_ & Hb & Hle & [k ->] & _). f_equal. lia.
Qed.

(** *** Deletion *)

Lemma ret_bind {A B} (a : A) (f : A → SM B) : mret a ≫= f = f a.
Proof. exact (bind_or_fail (Ok a) ErrListingDefaults f). Qed.

(** The three lists could be read, and these are the configs. *)
Definition needs (w : server_world) (name : string) (names : list string) : Prop :=
  ∃ xrds crds servers, swXRDConfigs w = Ok xrds ∧ swCRDConfigs w = Ok crds ∧ swServers w = Ok servers ∧
    names = (GetName <$> ConfigsServedBy xrds servers name) ++ (GetName <$> ConfigsServedBy crds servers name).

Lemma dependents_cases w s :
  (∃ names, needs w (omName (wrMeta s)) names ∧ dependents w s = mret names) ∨
  (¬ ∃ names, needs w (omName (wrMeta s)) names) ∧ ∃ e, dependents w s = exit (Err e).
Proof.
  unfold dependents, needs.
  do 3 (rewrite bind_or_fail; case_match; [|right; split; [by intros (? & ? & ? & ? & ? & ? & ? & _); congruence|by eexists]]).
  left. eexists. split; [|done]. by do 3 eexists.
Qed.

Lemma needs_unique w name l l' : needs w name l → needs w name l' → l = l'.
Proof. intros (? & ? & ? & ? & ? & ? & ->) (? & ? & ? & ? & ? & ? & ->). congruence. Qed.

Lemma finalizer_kept w s fs : PatchesServerFinalizers fs ∈ (_ ← add_server_finalizer w s; reconcileServer rc w s : SM Z).1 →
  ConversionWebhookServerFinalizer ∈ fs.
Proof.
  rewrite handler_bind_events. intros [Hin|Hin]%elem_of_app.
  - revert Hin. unfold add_server_finalizer, patch_finalizers. case_bool_decide; [set_solver|].
    rewrite write_events. intros [= ->]%list_elem_of_singleton. case_bool_decide; set_solver.
  - exfalso. destruct (add_server_finalizer w s).2; [|by apply not_elem_of_nil in Hin]. revert Hin.
    assert (∀ ns, PatchesServerFinalizers fs ≠ hpa_write s ns ∧ PatchesServerFinalizers fs ≠ pdb_write s ns) as Hne.
    { intros ns. unfold hpa_write, pdb_write. split; by case_match. }
    specialize (Hne (server_namespace rc s)) as [Hh Hp]. walk_pass w s ltac:(set_solver). destruct (swAnswer w _); set_solver.
Qed.

(** C21. Deleting a server strands nobody.  A pass takes the server's finalizer away
    only from a server that is being deleted, and then either the annotation
    insists on it or both kinds of config and the servers could be listed and no
    config is served by this one; otherwise a server with dependents keeps its
    finalizer, reports all of them, and is looked at again in 30 seconds. *)
Theorem server_deletion_strands_nobody w s :
  swServer w = Found s → ConversionWebhookServerFinalizer ∈ omFinalizers (wrMeta s) →
  let insists := default "" (omAnnotations (wrMeta s) !! AllowForceDeleteAnnotation) = "true" in
  let '(es, r) := ReconcileServer rc w in
  (∀ fs, PatchesServerFinalizers fs ∈ es → ConversionWebhookServerFinalizer ∉ fs →
    omDeleting (wrMeta s) = true ∧ (insists ∨ needs w (omName (wrMeta s)) [])) ∧
  (∀ names, omDeleting (wrMeta s) = true → ¬ insists → needs w (omName (wrMeta s)) names → names ≠ [] →
    ∃ st c, es = [PatchesServerStatus st] ∧
      FindStatusCondition (wtConditions st) CWSConditionDeletionBlocked = Some c ∧ cdStatus c = "True" ∧
      cdMessage c = StillAssigned (length names) (wsDefault (wrSpec s)) (sort_strings names) ∧
      r = match swAnswer w (PatchesServerStatus st) with None => Ok (30 * Second) | Some e => Err (ErrPatchingServerStatus e) end).
Proof.
  intros Hs Hf insists. unfold ReconcileServer. rewrite Hs. destruct (omDeleting (wrMeta s)) eqn:Hdel; cbn [negb].
  - unfold deleteServer. rewrite bool_decide_false by tauto. case_bool_decide as Ha.
    { unfold ran. split; [intros; split; [done|by left]|done]. }
    destruct (dependents_cases w s) as [(names & Hn & ->)|(Hno & e & ->)].
    + rewrite ret_bind. destruct names as [|n0 names].
      { split; [intros; split; [done|by right]|]. intros names' _ _ Hn' Hne. by rewrite (needs_unique _ _ _ _ Hn Hn') in Hne. }
      cbn [length Nat.ltb Nat.leb]. rewrite bind_write. set (st := with_server_conditions _ _). split.
      { intros fs Hin. exfalso. destruct (swAnswer w _); cbn in Hin; set_solver. }
      intros names' _ _ Hn' _. rewrite <-(needs_unique _ _ _ _ Hn Hn').
      eexists st, _. split; [by destruct (swAnswer w _)|]. split; [apply find_set_same|]. split; [done|]. split; [done|].
      by destruct (swAnswer w _).
    + split; [intros fs Hin%not_elem_of_nil; done|]. intros names _ _ Hn _. destruct Hno. by exists names.
  - split; [|done]. intros fs Hin Hnot. exfalso. by apply finalizer_kept in Hin.
Qed.
End server.

(** ** Witnesses *)

#[local] Existing Instances canonical_order fixture_externs fixture_compile_externs fixture_unstructured
  fixture_edits listed_conditions listed_conditions_laws stored crd_controller fixture_apply fixture_apply_laws.
#[local] Instance portable_log : MathLog := go_log.

Lemma ready_server_can_be_applied_witness :
  isServerReady (instance_of (demo_server false) (server_status (demo_server_world false []))) = true ∧
  ∃ ca, readCABundle "default" (demo_world fresh_config) (instance_of (demo_server false) (server_status (demo_server_world false []))) = Ok ca.
Proof.
  assert (isServerReady (instance_of (demo_server false) (server_status (demo_server_world false []))) = true) as Hr
    by (vm_compute; reflexivity).
  split; [exact Hr|]. refine (proj2 (proj2 (ready_server_can_be_applied demo_options (demo_server_world false [])
    (demo_world fresh_config) (demo_server false) (server_status (demo_server_world false [])) eq_refl eq_refl _ Hr)) _).
  - apply (list_elem_of_lookup_2 _ 5). vm_compute. reflexivity.
  - vm_compute. reflexivity.
Defined.

(** The pass that leaves it, and what it applies. *)
Definition demo_pass : list server_event := (ReconcileServer demo_options (demo_server_world false [])).1.
Definition demo_deployment : DeploymentApply :=
  match deployment demo_options "main" "u1" "system" demo_server_spec with
  | Ok d => d
  | Err _ => {| adName := ""; adNamespace := ""; adLabels := ∅; adOwner := {| owName := ""; owUID := "" |}; adReplicas := None;
      adSelector := ∅; adMaxUnavailable := IntVal 0; adMaxSurge := IntVal 0; adTemplateLabels := ∅; adTemplateAnnotations := ∅;
      adPod := {| psServiceAccount := ""; psGracePeriod := 0;
        psContainer := {| cnName := ""; cnImage := ""; cnPullPolicy := None; cnArgs := []; cnPorts := []; cnMounts := [];
          cnReadiness := {| prPath := ""; prPeriodSeconds := 0; prFailureThreshold := 0 |};
          cnLiveness := {| prPath := ""; prPeriodSeconds := 0; prFailureThreshold := 0 |}; cnStartup := None;
          cnResources := {| reRequests := ∅; reLimits := ∅ |}; cnEnv := []; cnPreStopSleep := None |};
        psVolumes := []; psNodeSelector := ∅; psPriorityClass := ""; psSpread := []; psTolerations := []; psAffinity := None |} |}
  end.

Lemma demo_full_pass : full_pass demo_options (demo_server_world false []) (demo_server false)
  (server_status (demo_server_world false [])) demo_pass.
Proof. apply status_patched. apply (list_elem_of_lookup_2 _ 5). vm_compute. reflexivity. Qed.

Lemma webhook_reaches_the_pods_witness :
  ∃ svc d, AppliesService svc ∈ demo_pass ∧ AppliesDeployment d ∈ demo_pass ∧
    asvName svc = "main-webhook-server" ∧ asvSelector svc ⊆ adTemplateLabels d.
Proof.
  destruct (webhook_reaches_the_pods demo_options _ _ _ demo_pass fresh_config fresh_report
    (server_status (demo_server_world false [])) "ca" demo_full_pass)
    as (svc & d & cert & pt & Hs & Hd & _ & (Hn & _) & _ & (Hsel & _) & _).
  exists svc, d. split; [exact Hs|]. split; [exact Hd|]. split; [exact Hn|exact Hsel].
Defined.

Lemma admitted_drain_fits_the_pod_witness :
  default 0 (cnPreStopSleep (psContainer (adPod demo_deployment))) * Second + 20 * Second <
    psGracePeriod (adPod demo_deployment) * Second ∧ "--shutdown-timeout=20s" ∈ cnArgs (psContainer (adPod demo_deployment)).
Proof.
  split; [|by do 9 right; left].
  eapply (admitted_drain_fits_the_pod demo_options demo_flags "main" "u1" "system" demo_server_spec demo_deployment _ (20 * Second));
    [vm_compute; reflexivity|vm_compute; reflexivity|reflexivity| |vm_compute; reflexivity|vm_compute; reflexivity|].
  - apply (usual_bool demo_flags "zap-devel"); [done|done|].
    apply (usual_value demo_flags "cert-reload-interval"); [done..|].
    apply (usual_equals demo_flags "shutdown-timeout"); [done|apply usual_nil].
  - unfold rollout_in_range, Second. cbn. lia.
Defined.

Lemma memory_limit_leaves_headroom_witness :
  webhookServerMemoryLimitBytes (wsResources demo_server_spec) = Some 120795930.
Proof.
  apply (memory_limit_leaves_headroom (wsResources demo_server_spec) "128Mi" 120795930); [vm_compute; reflexivity..|].
  split_and!; [vm_compute; discriminate|lia|vm_compute; discriminate|vm_compute; reflexivity|by exists 1342177|vm_compute; reflexivity].
Defined.

(** One config is assigned to the server. *)
Definition attached_world : server_world := demo_server_world true [fresh_config].

Lemma server_deletion_strands_nobody_witness :
  ∃ st, (ReconcileServer demo_options attached_world).1 = [PatchesServerStatus st] ∧
    (ReconcileServer demo_options attached_world).2 = Ok (30 * Second).
Proof.
  destruct (server_deletion_strands_nobody demo_options attached_world (demo_server true) eq_refl ltac:(by left)) as [_ H].
  destruct (H ["apps-config"]) as (st & c & He & _ & _ & _ & Hr); [done|discriminate| |discriminate|].
  - exists [], [fresh_config], [main_server]. split; [reflexivity|]. split; [reflexivity|]. split; [reflexivity|]. vm_compute. reflexivity.
  - exists st. split; [exact He|exact Hr].
Defined.
