(* ===== verification/MigrateProperties.v ===== *)
(** What the commands that go through the live objects guarantee.  [convctl
    migrate-storage]: stored versions are pruned only when every object was rewritten, a
    clean exit means the migration is complete, and the worker pool does what the
    sequential run does under every schedule.  [convctl test --live]: a sampled run says
    so, and samples what it says. *)
From S2P Require Import Prelude Float64 Value Path Schema Rules Diagnostics Adapters Pool Migrate Sampling.

Section migrate.
Context `{U : Unstructured} (w : migrate_world) (opts : MigrateStorageOptions).
Abbreviation apply_of := (apply_of opts).
Abbreviation migrateOne := (migrateOne w opts).
Abbreviation migrateAll := (migrateAll w opts).

(** *** The objects of a target *)

(** Every object a run lists for a target. *)
Definition listed_in (t : migrateTarget) (items : list LiveObject) : Prop :=
  listAllByGVR (mwList w (mtGroup t, mtStorageVersion t, mtPlural t) (if mtNamespaced t then moNamespace opts else "")) = Ok items.

Definition is_rewrite (e : migrate_event) : Prop := match e with Rewrites _ => True | Prunes _ _ => False end.

Lemma migrateAll_rewrites multi t items : Forall is_rewrite (migrateAll multi t items).1.
Proof.
  apply Forall_forall. intros e (item & He & _)%list_elem_of_bind. revert He. unfold migrateOne.
  destruct (_ && _); [by intros ?%not_elem_of_nil|]. by intros ->%list_elem_of_singleton.
Qed.

Lemma no_failure_all_rewritten multi t items : length (filter (λ r, failed r = true) (migrateAll multi t items).2) = 0 →
  ∀ item, item ∈ items → Rewrites (apply_of t item) ∈ (migrateAll multi t items).1 ∧
                         default "" (mwApply w (apply_of t item)) = "".
Proof.
  intros Hf%nil_length_inv item Hin. assert (failed (tagged multi t (migrateOne t item).2) = false) as Hn.
  { destruct (failed _) eqn:E; [|done]. exfalso. eapply (not_elem_of_nil (tagged multi t (migrateOne t item).2)).
    rewrite <-Hf. apply list_elem_of_filter. split; [done|]. by apply (list_elem_of_fmap_2 (λ i, tagged multi t (migrateOne t i).2)). }
  apply bool_decide_eq_false, dec_stable in Hn. unfold migrateOne in Hn. cbn in Hn.
  split.
  - apply list_elem_of_bind. exists item. split; [|done]. unfold migrateOne. destruct (_ && _); [done|]. by left.
  - by destruct (_ && _).
Qed.

(** *** The targets of a run *)

Lemma migrate_target_cases multi acc t :
  (∃ e, migrate_target w opts multi acc t = exit (Err e)) ∨
  ∃ items, listed_in t items ∧ ∃ ws, migrate_target w opts multi acc t =
    ((migrateAll multi t items).1, Ok (add_crd acc.1 (crd_report t (migrateAll multi t items).2), ws)).
Proof.
  unfold migrate_target, listed_in. destruct (listAllByGVR _) as [items|e]; [|left; by eexists]. right. exists items.
  split; [done|]. eexists. cbn. unfold mbind, handler_bind. cbn. by rewrite app_nil_r.
Qed.

(** What the loop over the targets did when it came to its end. *)
Lemma migrate_targets_cases multi ts : ∀ acc,
  (Forall is_rewrite (migrate_targets w opts multi acc ts).1 ∧ ∃ e, (migrate_targets w opts multi acc ts).2 = Err (Err e)) ∨
  ∃ itemss ws, Forall2 listed_in ts itemss ∧ migrate_targets w opts multi acc ts =
    (concat (zip_with (λ t items, (migrateAll multi t items).1) ts itemss),
     Ok (foldl add_crd acc.1 (zip_with (λ t items, crd_report t (migrateAll multi t items).2) ts itemss), ws)).
Proof.
  induction ts as [|t ts IH]; intros acc; cbn [migrate_targets].
  { right. exists [], acc.2. split; [constructor|]. by destruct acc. }
  destruct (migrate_target_cases multi acc t) as [[e ->]|(items & Hl & ws & ->)].
  { left. split; [constructor|by exists e]. }
  unfold mbind, handler_bind. cbn [fst snd]. destruct (IH (add_crd acc.1 (crd_report t (migrateAll multi t items).2), ws)) as [[Hr He]|(itemss & ws' & Hls & ->)].
  - left. split; [|done]. apply Forall_app. split; [apply migrateAll_rewrites|done].
  - right. exists (items :: itemss), ws'. by split; [constructor|].
Qed.

Lemma added cs : ∀ rep, msCRDs (foldl add_crd rep cs) = msCRDs rep ++ cs ∧
  msFailed (foldl add_crd rep cs) = (msFailed rep + sum_list (mcFailed <$> cs))%nat ∧
  msSucceeded (foldl add_crd rep cs) = (msSucceeded rep + sum_list (mcSucceeded <$> cs))%nat ∧
  msObjects (foldl add_crd rep cs) = msObjects rep ++ concat (mcObjects <$> cs) ∧
  msPruneError (foldl add_crd rep cs) = msPruneError rep.
Proof.
  induction cs as [|c cs IH]; intros rep; cbn; [by rewrite !app_nil_r, !Nat.add_0_r|].
  destruct (IH (add_crd rep c)) as (-> & -> & -> & -> & ->). cbn. rewrite <-!app_assoc. by rewrite !Nat.add_assoc.
Qed.

Lemma sum_zero (l : list nat) : sum_list l = 0%nat → Forall (λ n, n = 0%nat) l.
Proof. induction l as [|n l IH]; cbn; [constructor|]. intros H. constructor; [lia|apply IH; lia]. Qed.

(** When nothing failed, every object of every target was rewritten. *)
Lemma none_failed multi ts itemss rep0 : Forall2 listed_in ts itemss → msFailed rep0 = 0%nat →
  msFailed (foldl add_crd rep0 (zip_with (λ t items, crd_report t (migrateAll multi t items).2) ts itemss)) = 0%nat →
  ∀ t, t ∈ ts → ∃ items, listed_in t items ∧ ∀ item, item ∈ items →
    Rewrites (apply_of t item) ∈ concat (zip_with (λ t items, (migrateAll multi t items).1) ts itemss) ∧
    default "" (mwApply w (apply_of t item)) = "".
Proof.
  intros Hl H0. destruct (added (zip_with (λ t items, crd_report t (migrateAll multi t items).2) ts itemss) rep0) as (_ & -> & _).
  rewrite H0. cbn. intros Hz%sum_zero. induction Hl as [|t items ts itemss Hli Hl IH]; intros t' Hin; [by apply not_elem_of_nil in Hin|].
  cbn in Hz. apply Forall_cons in Hz as [Hz0 Hz]. apply elem_of_cons in Hin as [->|Hin].
  - exists items. split; [done|]. intros item Hi. destruct (no_failure_all_rewritten multi t items Hz0 item Hi) as [H1 H2].
    split; [|done]. cbn. apply elem_of_app. by left.
  - destruct (IH Hz t' Hin) as (items' & Hli' & H). exists items'. split; [done|]. intros item Hi. destruct (H item Hi) as [H1 H2].
    split; [|done]. cbn. apply elem_of_app. by right.
Qed.

(** *** Pruning *)

Lemma prune_events crd v e : e ∈ (pruneStoredVersions w crd v).1 → e = Prunes crd [v].
Proof.
  unfold pruneStoredVersions. destruct (mwPruneGet w crd); [by intros ?%not_elem_of_nil|].
  destruct (mwPruneSet w crd); [by intros ?%not_elem_of_nil|]. by intros ?%list_elem_of_singleton.
Qed.
Lemma prune_done crd v : (pruneStoredVersions w crd v).2 = None →
  (pruneStoredVersions w crd v).1 = [Prunes crd [v]] ∧ mwPruneUpdate w crd [v] = None.
Proof.
  unfold pruneStoredVersions. destruct (mwPruneGet w crd); [done|]. destruct (mwPruneSet w crd); [done|]. cbn.
  by destruct (mwPruneUpdate _ _ _).
Qed.

Definition prune_of (t : migrateTarget) : list migrate_event * option prune_error :=
  pruneStoredVersions w (mtCRDName t) (mtStorageVersion t).

Lemma prune_crds_Ok ts results : length results = length ts → ∃ cs,
  prune_crds w (zip_with crd_report ts results) = (ts ≫= (λ t, (prune_of t).1), Ok cs) ∧
  Forall2 (λ t c, mcPruneError c = (prune_of t).2) ts cs.
Proof.
  revert results; induction ts as [|t ts IH]; intros [|r results] Hlen; try discriminate; [by exists []|].
  injection Hlen as Hlen. destruct (IH results Hlen) as (cs & Hcs & Hall). cbn [zip_with prune_crds]. rewrite Hcs. unfold prune_crd.
  change (pruneStoredVersions w (mcCRD (crd_report t r)) (mcStorageVersion (crd_report t r))) with (prune_of t).
  destruct (prune_of t) as [es err] eqn:E. eexists. split.
  - unfold mbind, handler_bind. cbn. by rewrite E, !app_nil_r.
  - constructor; [cbn; by rewrite E|done].
Qed.

(** The prunes of a run: one per target, whether it is alone or not. *)
Lemma prune_run_Ok primary rest rep results : length results = S (length rest) →
  let multi := (1 <? S (length rest))%nat in
  msCRDs rep = (if multi then zip_with crd_report (primary :: rest) results else []) →
  ∃ rep', prune_run w primary multi rep = ((primary :: rest) ≫= (λ t, (prune_of t).1), Ok rep') ∧
    msFailed rep' = msFailed rep ∧ msSucceeded rep' = msSucceeded rep ∧ msObjects rep' = msObjects rep ∧
    (HasFailures rep' = false → Forall (λ t, (prune_of t).2 = None) (primary :: rest)).
Proof.
  intros Hlen multi Hc. unfold prune_run. rewrite Hc. destruct rest as [|t2 rest].
  - subst multi. cbn [length Nat.ltb Nat.leb negb prune_crds] in *.
    change (pruneStoredVersions w (mtCRDName primary) (mtStorageVersion primary)) with (prune_of primary).
    destruct (prune_of primary) as [es err] eqn:E. eexists. split; [unfold mbind, handler_bind; cbn; by rewrite E, !app_nil_r|].
    split_and!; [done..|]. unfold HasFailures. cbn. intros H. constructor; [|constructor]. rewrite E. cbn.
    destruct (msFailed rep); [|done]. by destruct err.
  - replace multi with true by done. cbn [negb]. destruct (prune_crds_Ok (primary :: t2 :: rest) results Hlen) as (cs & -> & Hall).
    destruct cs as [|c cs]; [by inversion Hall|]. unfold mbind at 1, handler_bind at 1. cbn [fst snd mret handler_ret].
    rewrite app_nil_r. eexists. split; [done|]. split_and!; [done..|]. unfold HasFailures, finish_report. cbn [msFailed msPruneError msCRDs].
    destruct (_ || _); [done|]. intros Hex. apply Forall_forall. intros t Hin.
    apply list_elem_of_lookup in Hin as [i Hi]. destruct (Forall2_lookup_l _ _ _ _ _ Hall Hi) as (c' & Hc' & He).
    rewrite <-He. destruct (mcPruneError c') eqn:E; [|done]. exfalso.
    assert (existsb (λ c, (0 <? mcFailed c)%nat || is_some (mcPruneError c)) (c :: cs) = true) as Ht; [|by rewrite Ht in Hex].
    apply existsb_exists. exists c'. split; [by eapply list_elem_of_In, list_elem_of_lookup_2|]. rewrite E. by rewrite orb_true_r.
Qed.

(** *** The run *)

Definition rewrites_of (multi : bool) (ts : list migrateTarget) (itemss : list (list LiveObject)) : list migrate_event :=
  concat (zip_with (λ t items, (migrateAll multi t items).1) ts itemss).
Definition all_rewritten (es : list migrate_event) (t : migrateTarget) : Prop :=
  ∃ items, listed_in t items ∧
    ∀ item, item ∈ items → Rewrites (apply_of t item) ∈ es ∧ default "" (mwApply w (apply_of t item)) = "".

(** What pruning waits for. *)
Definition may_prune (targets : list migrateTarget) : Prop :=
  moPruneStoredVersions opts = true ∧ moDryRun opts = false ∧
  (moNamespace opts = "" ∨ Forall (λ t, mtNamespaced t = false) targets).

Lemma rewrites_only multi ts itemss : Forall is_rewrite (rewrites_of multi ts itemss).
Proof.
  revert itemss; induction ts as [|t ts IH]; intros [|items itemss]; try constructor.
  apply Forall_app. split; [apply migrateAll_rewrites|apply IH].
Qed.

Lemma counts (rs : list MigrateObjectResult) :
  length (filter (λ r, failed r = false) rs) + length (filter (λ r, failed r = true) rs) = length rs.
Proof.
  induction rs as [|r rs IH]; [done|]. destruct (failed r) eqn:E.
  - rewrite (filter_cons_False _ r), (filter_cons_True _ r) by congruence. cbn [length]. lia.
  - rewrite (filter_cons_True _ r), (filter_cons_False _ r) by congruence. cbn [length]. lia.
Qed.

(** The totals after the loop over the targets. *)
Lemma totals multi ts itemss primary : Forall2 listed_in ts itemss →
  let rep := foldl add_crd (new_report opts primary) (zip_with (λ t items, crd_report t (migrateAll multi t items).2) ts itemss) in
  msSucceeded rep + msFailed rep = length (msObjects rep) ∧
  (msFailed rep = 0 → Forall (all_rewritten (rewrites_of multi ts itemss)) ts) ∧
  msCRDs rep = zip_with crd_report ts (zip_with (λ t items, (migrateAll multi t items).2) ts itemss).
Proof.
  intros Hl rep. set (cs := zip_with _ ts itemss) in rep. destruct (added cs (new_report opts primary)) as (Ec & Ef & Es & Eo & _).
  fold rep in Ec, Ef, Es, Eo. split_and!.
  - rewrite Es, Ef, Eo. cbn [new_report msSucceeded msFailed msObjects app Nat.add]. subst cs. clear.
    revert itemss; induction ts as [|t ts IH]; intros [|items itemss]; [done..|]. cbn [zip_with fmap list_fmap sum_list concat].
    rewrite length_app, <-IH. cbn [crd_report mcSucceeded mcFailed mcObjects]. pose proof (counts (migrateAll multi t items).2).
    unfold id. lia.
  - intros Hz. apply Forall_forall. intros t Hin.
    destruct (none_failed multi ts itemss (new_report opts primary) Hl eq_refl Hz t Hin) as (items & H). by exists items.
  - rewrite Ec. cbn [new_report msCRDs app]. subst cs. clear. revert itemss; induction ts as [|t ts IH]; intros [|items itemss]; [done..|].
    cbn [zip_with]. by rewrite IH.
Qed.

(** A run ends with an error after rewrites only, or in a report; then nothing was
    pruned, or everything was rewritten and the prunes were asked for. *)
Lemma run_targets_cases primary rest ws :
  let ts := primary :: rest in let m := run_targets w opts primary rest ws in
  (Forall is_rewrite m.1 ∧ ∃ e, m.2 = Err (Err e)) ∨
  ∃ itemss prunes rep, Forall2 listed_in ts itemss ∧
    let es := rewrites_of (1 <? length ts)%nat ts itemss in
    m = (es ++ prunes, Ok rep) ∧ msSucceeded rep + msFailed rep = length (msObjects rep) ∧
    (msFailed rep = 0 → Forall (all_rewritten es) ts) ∧
    (prunes = [] ∧ (moPruneStoredVersions opts = true → moDryRun opts = true ∨ 0 < msFailed rep) ∨
     may_prune ts ∧ msFailed rep = 0 ∧ prunes = ts ≫= (λ t, (prune_of t).1) ∧
       (HasFailures rep = false → Forall (λ t, (prune_of t).2 = None) ts)).
Proof.
  intros ts m. subst m. unfold run_targets. fold ts. destruct (_ && _) eqn:Hns; [left; split; [constructor|by eexists]|].
  destruct (migrate_targets_cases (1 <? length ts)%nat ts (new_report opts primary, ws)) as [[Hr [e He]]|(itemss & ws' & Hl & ->)].
  { left. rewrite handler_bind_events. unfold mbind, handler_bind. rewrite He. split; [by rewrite app_nil_r|by exists e]. }
  right. unfold mbind, handler_bind. cbn [fst snd]. fold (rewrites_of (1 <? length ts)%nat ts itemss).
  destruct (totals (1 <? length ts)%nat ts itemss primary Hl) as (Hcount & Hall & Hcrds). set (rep1 := foldl _ _ _) in *.
  set (rep2 := finish_report _ _ _ _ _ _). exists itemss. destruct (moPruneStoredVersions opts) eqn:Hp; cbn [negb].
  2: { eexists [], rep2. split; [done|]. split; [done|]. split; [done|]. split; [done|]. by left. }
  destruct (moDryRun opts) eqn:Hd.
  { eexists [], _. split; [done|]. split; [done|]. split; [exact Hcount|]. split; [exact Hall|]. left. split; [done|]. by left. }
  destruct (0 <? msFailed rep2)%nat eqn:Hz.
  { eexists [], _. split; [done|]. split; [done|]. split; [exact Hcount|]. split; [exact Hall|]. left. split; [done|].
    intros _. right. by apply Nat.ltb_lt in Hz. }
  destruct (prune_run_Ok primary rest rep2 (zip_with (λ t items, (migrateAll (1 <? length ts)%nat t items).2) ts itemss))
    as (rep & Hrun & Ef & Es & Eo & Hclean).
  { rewrite length_zip_with, <-(Forall2_length _ _ _ Hl). by rewrite Nat.min_id. }
  { unfold rep2. cbn [finish_report msCRDs]. by rewrite Hcrds. }
  change (1 <? length ts)%nat with (1 <? S (length rest))%nat. rewrite Hrun. eexists _, rep. split; [exact Hl|]. split; [done|].
  rewrite Ef, Es, Eo. split; [exact Hcount|]. split; [exact Hall|]. right. apply Nat.ltb_ge in Hz.
  split_and!; [|cbn in Hz |- *; lia|done|exact Hclean]. split_and!; [done..|].
  apply andb_false_iff in Hns as [Hns|Hns]; [left; cbn in Hns; by apply bool_decide_eq_false, dec_stable in Hns|right].
  apply Forall_forall. intros t Hin. destruct (mtNamespaced t) eqn:E; [|done]. exfalso.
  assert (existsb mtNamespaced ts = true) as Ht; [|by rewrite Ht in Hns]. apply existsb_exists. exists t.
  split; [by apply list_elem_of_In|done].
Qed.

Lemma no_target_never_happens ws : resolveMigrateTargets w opts ≠ Ok ([], ws).
Proof.
  unfold resolveMigrateTargets. case_bool_decide as Hcase; clear Hcase.
  - intros (crd & _ & H)%res_bind_Ok. apply res_bind_Ok in H as (t & _ & [=]).
  - intros (xrd & _ & H)%res_bind_Ok. apply res_bind_Ok in H as (gs & Hgs%res_wrap_Ok & H).
    apply res_bind_Ok in H as (v & _ & H). apply res_bind_Ok in H as (ts & Hts & [= Hn _]).
    assert (ts = []) as -> by (by destruct ts). assert (gs ≠ []) as Hne.
    { unfold xrdadapter.GeneratedCRDNames in Hgs. do 3 (apply res_bind_Ok in Hgs as (? & _ & Hgs)).
      case_match; [|done]. case_match; [|by injection Hgs as <-]. do 2 (apply res_bind_Ok in Hgs as (? & _ & Hgs)). by injection Hgs as <-. }
    destruct gs as [|g gs]; [done|]. cbn in Hts. apply res_bind_Ok in Hts as (x & _ & Hts). by apply res_bind_Ok in Hts as (? & _ & [=]).
Qed.

(** A run that got as far as its targets. *)
Lemma run_cases :
  (Forall is_rewrite (RunMigrateStorage w opts).1 ∧ ∃ e, (RunMigrateStorage w opts).2 = Err e) ∨
  ∃ primary rest ws, resolveMigrateTargets w opts = Ok (primary :: rest, ws) ∧
    RunMigrateStorage w opts = ran (run_targets w opts primary rest ws).
Proof.
  unfold RunMigrateStorage. destruct (eqb _ _); [left; split; [constructor|by eexists]|].
  destruct (resolveMigrateTargets w opts) as [[[|primary rest] ws]|e] eqn:E;
    [left; split; [constructor|by eexists]| |left; split; [constructor|by eexists]].
  right. by do 3 eexists.
Qed.

Lemma app_split_at {A} (P : A → Prop) (a b es1 : list A) x es2 : Forall P a → ¬ P x → a ++ b = es1 ++ x :: es2 →
  ∃ k, es1 = a ++ k ∧ b = k ++ x :: es2.
Proof.
  intros Ha Hx [(k & -> & Hk)|(k & -> & Hk)]%app_eq_inv; [|by eauto].
  destruct k as [|y k]; [exists []; by rewrite !app_nil_r|]. exfalso. injection Hk as <- _.
  apply Forall_app in Ha as [_ Ha]. apply Hx. by inversion Ha.
Qed.

(** C23. Stored versions are pruned only after every rewrite.  Whatever the cluster
    answers, when a run drops the older versions from a CRD's status it has already
    rewritten every object of every target: of both generated CRDs for an XRD that
    offers claims, in all namespaces, at the storage version, for real, and none
    was refused.  It drops exactly the versions other than the target's storage
    version, and only because it was asked to. *)
Theorem prune_only_after_every_rewrite es1 crd vs es2 :
  (RunMigrateStorage w opts).1 = es1 ++ Prunes crd vs :: es2 →
  ∃ targets ws, resolveMigrateTargets w opts = Ok (targets, ws) ∧ may_prune targets ∧
    (∃ t, t ∈ targets ∧ crd = mtCRDName t ∧ vs = [mtStorageVersion t]) ∧
    ∀ t, t ∈ targets → ∃ items,
      listAllByGVR (mwList w (mtGroup t, mtStorageVersion t, mtPlural t) "") = Ok items ∧
      ∀ item, item ∈ items → Rewrites (apply_of t item) ∈ es1 ∧ default "" (mwApply w (apply_of t item)) = "".
Proof.
  intros Hes. assert (¬ is_rewrite (Prunes crd vs)) as Hnot by (intros []).
  assert (∀ es : list migrate_event, Forall is_rewrite es → es ≠ es1 ++ Prunes crd vs :: es2) as Hno.
  { intros es Hr ->. apply Forall_app in Hr as [_ Hr]. apply Hnot. by inversion Hr. }
  destruct run_cases as [[Hr _]|(primary & rest & ws & Hres & Hrun)]; [by apply Hno in Hes|]. rewrite Hrun in Hes.
  destruct (run_targets_cases primary rest ws) as [[Hr _]|(itemss & prunes & rep & Hl & Hm & _ & Hall & Hp)]; [by apply Hno in Hes|].
  rewrite Hm in Hes. unfold ran in Hes. cbn [fst] in Hes. destruct (app_split_at _ _ _ _ _ _ (rewrites_only _ _ _) Hnot Hes) as (k & -> & Hk).
  exists (primary :: rest), ws. split; [done|]. destruct Hp as [[-> _]|(Hmay & Hz & -> & _)]; [by destruct k|]. split; [done|]. split.
  - assert (Prunes crd vs ∈ (primary :: rest) ≫= (λ t, (prune_of t).1)) as Hin by (rewrite Hk; set_solver).
    apply list_elem_of_bind in Hin as (t & Ht%prune_events & Hin). injection Ht as -> ->. by exists t.
  - intros t Hin. destruct Hmay as (_ & _ & Hns). specialize (Hall Hz). rewrite Forall_forall in Hall.
    destruct (Hall t Hin) as (items & Hli & H). exists items. split.
    + unfold listed_in in Hli. destruct (mtNamespaced t) eqn:En; [|done]. destruct Hns as [Hns|Hns]; [by rewrite Hns in Hli|].
      rewrite Forall_forall in Hns. by rewrite (Hns t Hin) in En.
    + intros item Hi. destruct (H item Hi) as [H1 H2]. split; [|done]. apply elem_of_app. by left.
Qed.

(** A clean exit means the migration is done.  A run whose report has no failures
    rewrote every object it listed of every target, at the storage version and with
    no refusal; and when pruning was asked for, outside a dry run, every target's
    stored versions were pruned.  The report counts every object once. *)
Theorem clean_exit_is_complete rep :
  (RunMigrateStorage w opts).2 = Ok rep →
  msSucceeded rep + msFailed rep = length (msObjects rep) ∧
  (HasFailures rep = false → ∃ targets ws, resolveMigrateTargets w opts = Ok (targets, ws) ∧
    Forall (all_rewritten (RunMigrateStorage w opts).1) targets ∧
    (moPruneStoredVersions opts = true → moDryRun opts = false → ∀ t, t ∈ targets →
      Prunes (mtCRDName t) [mtStorageVersion t] ∈ (RunMigrateStorage w opts).1 ∧
      mwPruneUpdate w (mtCRDName t) [mtStorageVersion t] = None)).
Proof.
  intros Hok. destruct run_cases as [[_ [e He]]|(primary & rest & ws & Hres & Hrun)]; [by rewrite He in Hok|]. rewrite Hrun in *.
  destruct (run_targets_cases primary rest ws) as [[_ [e He]]|(itemss & prunes & rep' & Hl & Hm & Hcount & Hall & Hp)].
  { unfold ran in Hok. by rewrite He in Hok. }
  rewrite Hm in *. injection Hok as <-. split; [done|]. intros Hf. exists (primary :: rest), ws. split; [done|]. cbn [ran fst].
  assert (msFailed rep' = 0) as Hz. { unfold HasFailures in Hf. destruct (msFailed rep'); [done|]. done. }
  split.
  - eapply Forall_impl; [by apply Hall|]. intros t (items & Hli & H). exists items. split; [done|]. intros item Hi.
    destruct (H item Hi). split; [|done]. apply elem_of_app. by left.
  - intros Hpr Hd t Hin. destruct Hp as [[_ Hp]|(_ & _ & -> & Hp)]; [destruct (Hp Hpr) as [Hp'|Hp']; [congruence|lia]|].
    specialize (Hp Hf). rewrite Forall_forall in Hp. destruct (prune_done _ _ (Hp t Hin)) as [He Hu]. split; [|done].
    apply elem_of_app. right. apply list_elem_of_bind. exists t. split; [|done]. unfold prune_of. rewrite He. by left.
Qed.

(** *** The worker pool *)

(** C32. The worker pool does what the sequential run does.  However the goroutines of
    the pool are scheduled, it comes to rest within three steps per object and is
    stuck nowhere before; at rest the results are in the order of the objects and
    are those of taking the objects one by one, the same applies were made, each
    once, and every object is counted. *)
Theorem pool_schedule_irrelevant tagCRD t items n p :
  nsteps (migrate_pool_step w opts tagCRD t items) n (migrate_pool_start opts items) p →
  n ≤ 3 * length items ∧ (¬ pool_over items p → ∃ p', migrate_pool_step w opts tagCRD t items p p') ∧
  (pool_over items p → plResults p = (migrateAll tagCRD t items).2 ∧
    plEvents p ≡ₚ (migrateAll tagCRD t items).1 ∧ plTally p = length items).
Proof.
  assert (0 < Z.to_nat (effectiveConcurrency opts (Z.of_nat (length items)))) as Hw.
  { unfold effectiveConcurrency. destruct (_ <? 1)%Z eqn:E; lia. }
  intros Hp. destruct (pool_schedules _ _ _ _ _ _ _ _ Hw Hp) as (Hn & Hprog & Hover). split; [done|]. split; [done|].
  intros Ho. destruct (Hover ltac:(done) Ho) as (Hr & He & Ht).
  assert (∀ item, pool_work w opts tagCRD t item = ((migrateOne t item).1, tagged tagCRD t (migrateOne t item).2)) as Hwork.
  { intros item. unfold pool_work. by destruct (migrateOne t item). }
  split_and!.
  - rewrite Hr. apply list_fmap_ext. intros i item _. by rewrite Hwork.
  - rewrite He. assert (∀ l, l ≫= (λ item, (pool_work w opts tagCRD t item).1) = l ≫= (λ item, (migrateOne t item).1)) as ->; [|done].
    induction l as [|item l IH]; [done|]. rewrite !bind_cons, IH. by rewrite Hwork.
  - rewrite Ht. assert (∀ l d, foldl (λ done (_ : MigrateObjectResult), S done) d l = d + length l) as ->.
    { induction l as [|r l IH]; intros d; cbn; [lia|]. rewrite IH. lia. }
    by rewrite length_fmap.
Qed.
End migrate.

(** ** Witnesses *)

#[local] Existing Instance fixture_unstructured.

Definition apps_crd : LiveCRD := {|
  lcName := "apps.example.com"; lcGroup := "example.com"; lcPlural := "apps"; lcKind := "App"; lcNamespaced := true;
  lcVersions := [("v1", false); ("v2", true)]; lcStoredVersions := ["v1"; "v2"] |}.
Definition two_apps : list LiveObject :=
  [{| loName := "one"; loNamespace := "a" |}; {| loName := "two"; loNamespace := "b" |}].
(** Everything is answered; the objects come in two pages. *)
Definition willing : migrate_world := {|
  mwXRD _ := Err "not found"; mwCRD _ := Ok apps_crd;
  mwList _ _ := Page (take 1 two_apps) (LastPage (drop 1 two_apps));
  mwApply _ := None; mwPruneGet _ := None; mwPruneSet _ := None; mwPruneUpdate _ _ := None |}.
Definition prune_apps : MigrateStorageOptions := {|
  moXRDName := ""; moCRDName := "apps.example.com"; moNamespace := ""; moDryRun := false; moConcurrency := 2;
  moFieldManager := ""; moPruneStoredVersions := true |}.
Definition apps_target : migrateTarget :=
  match targetFromCRD "CRD" "apps.example.com" apps_crd with
  | Ok t => with_role t "composite"
  | Err _ => {| mtResourceKind := ""; mtResource := ""; mtCRDName := ""; mtRole := ""; mtGroup := ""; mtKind := ""; mtPlural := "";
                mtStorageVersion := ""; mtStoredVersions := []; mtNamespaced := false |}
  end.
Definition apps_run := RunMigrateStorage willing prune_apps.

Lemma prune_only_after_every_rewrite_witness :
  ∃ es1, apps_run.1 = es1 ++ [Prunes "apps.example.com" ["v2"]] ∧
    Forall (λ item, Rewrites (apply_of prune_apps apps_target item) ∈ es1) two_apps.
Proof.
  assert (apps_run.1 = (Rewrites ∘ apply_of prune_apps apps_target <$> two_apps) ++ [Prunes "apps.example.com" ["v2"]]) as He
    by (vm_compute; reflexivity).
  eexists. split; [exact He|].
  destruct (prune_only_after_every_rewrite willing prune_apps _ _ _ _ He) as (targets & ws & Hres & _ & _ & H).
  vm_compute in Hres. injection Hres as <- <-. destruct (H apps_target) as (items & Hl & Hi); [by left|].
  vm_compute in Hl. injection Hl as <-. apply Forall_forall. intros item Hin. exact (proj1 (Hi item Hin)).
Defined.

Definition apps_report : MigrateStorageReport :=
  match apps_run.2 with Ok rep => rep | Err _ => new_report prune_apps apps_target end.

Lemma clean_exit_is_complete_witness :
  msSucceeded apps_report + msFailed apps_report = 2 ∧ Prunes "apps.example.com" ["v2"] ∈ apps_run.1.
Proof.
  destruct (clean_exit_is_complete willing prune_apps apps_report) as [Hc H]; [vm_compute; reflexivity|].
  split; [exact Hc|]. destruct H as (targets & ws & Hres & _ & Hp); [vm_compute; reflexivity|].
  vm_compute in Hres. injection Hres as <- <-. exact (proj1 (Hp eq_refl eq_refl apps_target ltac:(by left))).
Defined.

(** Two workers: the second object is taken and applied before the first is recorded. *)
Lemma pool_schedule_irrelevant_witness : ∃ p : pool migrate_event MigrateObjectResult nat,
  plResults p = (migrateAll willing prune_apps false apps_target two_apps).2 ∧ plTally p = 2.
Proof.
  eexists. destruct (pool_schedule_irrelevant willing prune_apps false apps_target two_apps 6) with (p :=
    {| plNext := 2; plWorkers := [Waiting; Waiting];
       plResults := (migrateAll willing prune_apps false apps_target two_apps).2; plTally := 2;
       plEvents := Rewrites ∘ apply_of prune_apps apps_target <$> reverse two_apps |}) as (_ & _ & H).
  - eapply nsteps_l; [apply (p_take _ _ _ _ 0); [reflexivity|cbn; lia]|].
    eapply nsteps_l; [apply (p_take _ _ _ _ 1); [reflexivity|cbn; lia]|].
    eapply nsteps_l; [eapply (p_work _ _ _ _ 1); reflexivity|].
    eapply nsteps_l; [eapply (p_work _ _ _ _ 0); reflexivity|].
    eapply nsteps_l; [eapply (p_record _ _ _ _ 0); reflexivity|].
    eapply nsteps_l; [eapply (p_record _ _ _ _ 1); reflexivity|]. apply nsteps_O.
  - destruct H as (Hr & _ & Hd); [by repeat constructor|]. split; [exact Hr|exact Hd].
Defined.

#[local] Open Scope Z_scope.

(** ** Lists *)

Lemma insert_submseteq {A} (l : list A) j x : <[j := x]> l ⊆+ l ++ [x].
Proof.
  destruct (l !! j) as [y|] eqn:Hj.
  - destruct (list_single_out l j y Hj) as (rest & Hl & Hn). rewrite (Hn x), Hl.
    cbn. transitivity (rest ++ [x]); [by rewrite (Permutation_app_comm rest [x])|by apply submseteq_cons].
  - apply lookup_ge_None in Hj. rewrite list_insert_ge by lia. by apply submseteq_inserts_r.
Qed.

Lemma zip_delete {A B} (l : list A) (k : list B) i : zip (delete i l) (delete i k) = delete i (zip l k).
Proof.
  revert k i; induction l as [|x l IH]; intros [|y k] [|i]; try done; cbn.
  - by destruct l.
  - f_equal. apply IH.
Qed.

(** ** Timestamps *)

Definition not_later (a b : string) : Prop := str_lt b a = false.

Lemma not_later_le a b : not_later a b ↔ String.le a b.
Proof.
  unfold not_later, str_lt. rewrite andb_false_iff, bool_decide_eq_false, negb_false_iff, bool_decide_eq_true. split.
  - intros [H| ->]; [|done]. destruct (total String.le a b); [done|by destruct H].
  - intros Hab. destruct (decide (String.le b a)) as [Hba|]; [right|by left]. by apply (anti_symm String.le).
Qed.

Lemma oldest_from_spec rest : ∀ i oldest ts, (oldest < i)%nat →
  let j := oldest_from i oldest ts rest in
  (j = oldest ∧ Forall (not_later ts) rest) ∨
  (∃ t, (i ≤ j)%nat ∧ rest !! (j - i)%nat = Some t ∧ not_later t ts ∧ Forall (not_later t) rest).
Proof.
  induction rest as [|t rest IH]; intros i oldest ts Hlt; cbn; [by left|].
  destruct (str_lt t ts) eqn:E.
  - destruct (IH (S i) i t ltac:(lia)) as [[-> Hall]|(t' & Hj & Ht' & Hle & Hall)].
    + right. exists t. rewrite Nat.sub_diag.
      assert (not_later t ts) as Hts.
      { apply not_later_le. unfold str_lt in E. apply andb_true_iff in E as [E _]. by apply bool_decide_eq_true in E. }
      split_and!; [done|done|done|]. constructor; [apply not_later_le; done|done].
    + right. exists t'. assert (not_later t' ts) as Hts.
      { apply not_later_le. transitivity t; [by apply not_later_le|]. unfold str_lt in E. apply andb_true_iff in E as [E _].
        by apply bool_decide_eq_true in E. }
      split_and!; [lia| |done|by constructor].
      replace (oldest_from (S i) i t rest - i)%nat with (S (oldest_from (S i) i t rest - S i)) by lia. done.
  - destruct (IH (S i) oldest ts ltac:(lia)) as [[-> Hall]|(t' & Hj & Ht' & Hle & Hall)].
    + left. split; [done|]. by constructor.
    + right. exists t'. split_and!; [lia| |done|].
      * replace (oldest_from (S i) oldest ts rest - i)%nat with (S (oldest_from (S i) oldest ts rest - S i)) by lia. done.
      * constructor; [|done]. apply not_later_le. transitivity ts; by apply not_later_le.
Qed.

Lemma oldest_index_spec order : order ≠ [] →
  ∃ t, order !! oldest_index order = Some t ∧ Forall (not_later t) order.
Proof.
  destruct order as [|ts rest]; [done|]. intros _. cbn [oldest_index].
  destruct (oldest_from_spec rest 1 0 ts ltac:(lia)) as [[-> Hall]|(t & Hj & Ht & Hle & Hall)].
  - exists ts. split; [done|]. constructor; [by apply not_later_le|done].
  - exists t. split; [|by constructor]. destruct (oldest_from 1 0 ts rest) as [|j]; [lia|]. cbn. by replace (S j - 1)%nat with j in Ht by lia.
Qed.

(** ** The sampler *)

Section sampler.
Context `{RS : RandSource} (o : SamplingOptions).
Abbreviation cap := (soMaxSamples o).

Definition valid_strategy : Prop := strategy o = SampleFirst ∨ strategy o = SampleRandom ∨ strategy o = SampleNewest.

(** What is kept of the objects offered, oldest first. *)
Definition newest_kept (kept : list Sample) (order : list string) (P : list (Sample * string)) : Prop :=
  length order = length kept ∧ Z.of_nat (length kept) = cap `min` Z.of_nat (length P) ∧
  ∃ dropped, zip kept order ++ dropped ≡ₚ P ∧ ∀ d k, d ∈ dropped → k ∈ zip kept order → not_later d.2 k.2.
Definition kept_ok (s : sampler) (P : list (Sample * string)) : Prop :=
  if negb (enabled o) then smKept s = P.*1
  else if bool_decide (strategy o = SampleFirst) then smKept s = take (Z.to_nat cap) P.*1
  else if bool_decide (strategy o = SampleRandom) then
    smKept s ⊆+ P.*1 ∧ Z.of_nat (length (smKept s)) = cap `min` Z.of_nat (length P)
  else newest_kept (smKept s) (smOrder s) P.

Record offered (s : sampler) (P : list (Sample * string)) : Prop := {
  of_opts : smOpts s = o;
  of_early : smStoppedEarly s = true →
    enabled o = true ∧ strategy o = SampleFirst ∧ cap ≤ Z.of_nat (length (smKept s));
  of_seen : smStoppedEarly s = false → smSeen s = Z.of_nat (length P);
  of_kept : kept_ok s P }.

Lemma enabled_pos : enabled o = true → 0 < cap.
Proof. unfold enabled. lia. Qed.

Lemma offered_new : offered (newSampler o) [].
Proof.
  split; [done..|]. unfold kept_ok. cbn. destruct (enabled o) eqn:E; cbn; [|done]. pose proof (enabled_pos E).
  case_bool_decide; [by rewrite take_nil|]. case_bool_decide; [split; [done|cbn; lia]|]. split; [done|]. split; [cbn; lia|].
  exists []. split; [done|]. by intros d k ?%not_elem_of_nil.
Qed.

Lemma newest_add kept order P x ts : 0 < cap → newest_kept kept order P →
  let kept' := kept ++ [x] in let order' := order ++ [ts] in let i := oldest_index order' in
  if cap <? Z.of_nat (length kept')
  then newest_kept (delete i kept') (delete i order') (P ++ [(x, ts)])
  else newest_kept kept' order' (P ++ [(x, ts)]).
Proof.
  intros Hcap (Hlen & Hn & dropped & HP & Hd) kept' order' i.
  assert (zip kept' order' = zip kept order ++ [(x, ts)]) as Hzip by (unfold kept', order'; by rewrite zip_with_app).
  assert (length order' = length kept') as Hlen' by (unfold kept', order'; rewrite !length_app; cbn; lia).
  assert (length kept' = S (length kept)) as Hk' by (unfold kept'; rewrite length_app; cbn; lia).
  assert (zip kept' order' ++ dropped ≡ₚ P ++ [(x, ts)]) as HP'.
  { rewrite Hzip, <-app_assoc, (Permutation_app_comm [(x, ts)] dropped), app_assoc. by rewrite HP. }
  destruct (cap <? Z.of_nat (length kept')) eqn:E.
  - destruct (oldest_index_spec order') as (t & Ht & Hold); [by unfold order'; destruct order|]. fold i in Ht.
    assert (is_Some (kept' !! i)) as [y Hy].
    { apply lookup_lt_is_Some. rewrite <-Hlen'. by eapply lookup_lt_Some. }
    assert (zip kept' order' !! i = Some (y, t)) as Hz by (by rewrite lookup_zip_with, Hy; cbn; rewrite Ht).
    pose proof (delete_Permutation _ _ _ Hz) as Hperm.
    split; [by rewrite !length_delete; [rewrite Hlen'|..]|].
    split; [rewrite length_delete by done; rewrite length_app; cbn; lia|].
    exists ((y, t) :: dropped). rewrite zip_delete. split.
    + rewrite <-HP'. etrans; [|apply Permutation_app_tail; symmetry; exact Hperm]. cbn. by rewrite Permutation_middle.
    + assert (∀ k, k ∈ zip kept' order' → not_later t k.2) as Hmin.
      { intros [a b] Hin. apply elem_of_zip_r in Hin as Hb. rewrite Forall_forall in Hold. by apply Hold. }
      assert (∀ k, k ∈ delete i (zip kept' order') → k ∈ zip kept' order') as Hsub.
      { intros k Hin. rewrite Hperm. by right. }
      intros d k [->|Hdin]%elem_of_cons Hkin; [by apply Hmin, Hsub|].
      assert (length (zip kept order) = length kept) as Hzl by (rewrite length_zip_with; lia).
      rewrite Hzip in Hz. apply lookup_app_Some in Hz as [Hz|[Hge Hz]].
      * apply not_later_le. transitivity t; apply not_later_le; [|by apply Hmin, Hsub].
        apply (Hd d (y, t) Hdin). by eapply list_elem_of_lookup_2.
      * apply (Hd d k Hdin). rewrite Hzip in Hkin. assert (i = length (zip kept order)) as Hi.
        { apply lookup_lt_Some in Hz. cbn in Hz. lia. }
        rewrite Hi, delete_take_drop, take_app_length, drop_ge, app_nil_r in Hkin by (rewrite length_app; cbn; lia). exact Hkin.
  - split; [done|]. split; [rewrite length_app; cbn; lia|]. exists dropped. split; [done|].
    assert (dropped = []) as ->; [|by intros d k ?%not_elem_of_nil].
    apply Permutation_length in HP. rewrite length_app, length_zip_with in HP. apply nil_length_inv. lia.
Qed.

Lemma length_snoc {T} (P : list T) x : Z.of_nat (length (P ++ [x])) = Z.of_nat (length P) + 1.
Proof. rewrite length_app. cbn. lia. Qed.

(** [kept_ok], one strategy at a time. *)
Lemma kept_all s P : enabled o = false → kept_ok s P ↔ smKept s = P.*1.
Proof. intros En. unfold kept_ok. by rewrite En. Qed.
Lemma kept_first s P : enabled o = true → strategy o = SampleFirst → kept_ok s P ↔ smKept s = take (Z.to_nat cap) P.*1.
Proof. intros En Hv. unfold kept_ok. by rewrite En, Hv. Qed.
Lemma kept_random s P : enabled o = true → strategy o = SampleRandom →
  kept_ok s P ↔ smKept s ⊆+ P.*1 ∧ Z.of_nat (length (smKept s)) = cap `min` Z.of_nat (length P).
Proof. intros En Hv. unfold kept_ok. by rewrite En, Hv. Qed.
Lemma kept_newest s P : enabled o = true → strategy o = SampleNewest → kept_ok s P ↔ newest_kept (smKept s) (smOrder s) P.
Proof. intros En Hv. unfold kept_ok. by rewrite En, Hv. Qed.

Lemma never_early s P : offered s P → enabled o = false ∨ strategy o ≠ SampleFirst → smStoppedEarly s = false.
Proof.
  intros [_ He _ _] Hor. destruct (smStoppedEarly s); [|done]. destruct (He eq_refl) as (En & Hf & _).
  destruct Hor as [H|H]; congruence.
Qed.

Lemma add_seen s x ts : smSeen (add s x ts) = smSeen s + 1 ∧ smOpts (add s x ts) = smOpts s ∧
  smStoppedEarly (add s x ts) = smStoppedEarly s.
Proof. unfold add, trimOldest. repeat first [case_match|split; done]. Qed.

Lemma offered_add s P x ts : valid_strategy → offered s P → offered (add s x ts) (P ++ [(x, ts)]).
Proof.
  intros Hv Hof. pose proof Hof as [Ho He Hs Hk]. destruct (add_seen s x ts) as (As & Ao & Ae).
  assert (kept_ok (add s x ts) (P ++ [(x, ts)]) ∧ (strategy o = SampleFirst → length (smKept s) ≤ length (smKept (add s x ts)))%nat) as [Hok Hlen].
  { unfold add. cbn [smOpts smKept smOrder smSeen smRnd smStoppedEarly with_kept]. rewrite Ho.
    destruct (enabled o) eqn:En; cbn [negb].
    2: { rewrite kept_all in Hk |- * by done. cbn [with_kept smKept]. rewrite Hk, fmap_app, length_app. split; [done|lia]. }
    pose proof (enabled_pos En) as Hcap. destruct Hv as [Hv|[Hv|Hv]]; rewrite Hv.
    - rewrite kept_first in Hk |- * by done. rewrite bool_decide_true by done.
      assert (length (smKept s) = min (Z.to_nat cap) (length P)) as Hl by (by rewrite Hk, length_take, length_fmap).
      destruct (Z.of_nat (length (smKept s)) <? cap) eqn:El; cbn [with_kept smKept]; (split; [|rewrite ?length_app; lia]).
      + rewrite fmap_app, Hk, (take_ge P.*1), (take_ge (P.*1 ++ _)) by (rewrite ?length_app, length_fmap; cbn; lia). done.
      + rewrite fmap_app, take_app_le by (rewrite length_fmap; lia). done.
    - rewrite kept_random in Hk |- * by done. rewrite bool_decide_false, bool_decide_true by done. destruct Hk as [Hsub Hl].
      rewrite fmap_app, length_snoc. destruct (Z.of_nat (length (smKept s)) <? cap) eqn:El; [|destruct (rand_Intn _ _) as [j rnd]];
        cbn [with_kept smKept].
      + split; [split; [by apply submseteq_app|rewrite length_snoc; lia]|rewrite length_app; lia].
      + destruct (j <? cap).
        * rewrite length_insert. split; [|done]. split; [|lia]. etrans; [apply insert_submseteq|]. by apply submseteq_app.
        * split; [|done]. split; [by apply submseteq_inserts_r|lia].
    - rewrite kept_newest in Hk |- * by done. rewrite !bool_decide_false, bool_decide_true by done.
      pose proof (newest_add _ _ P x ts Hcap Hk) as Hadd. cbn zeta in Hadd.
      destruct (cap <? _); (split; [exact Hadd|by intros [=]]). }
  split.
  - by rewrite Ao.
  - rewrite Ae. intros Hst. destruct (He Hst) as (En & Hf & Hc). specialize (Hlen Hf). split_and!; [done|done|lia].
  - rewrite Ae, As, length_snoc. intros Hst. rewrite Hs; done.
  - done.
Qed.

Definition stopped (s : sampler) : Prop := smStoppedEarly s = true.

Lemma offered_full s P : offered s P → offered (full s).2 P ∧ ((full s).1 = true → stopped (full s).2).
Proof.
  intros [Ho He Hs Hk]. unfold full. rewrite Ho. destruct (_ && _) eqn:E; [|split; [by split|done]].
  apply andb_true_iff in E as [[En Hf]%andb_true_iff Hl]. apply bool_decide_eq_true in Hf.
  split; [|done]. split; cbn; [done|intros _; split_and!; [done|done|lia]|done|exact Hk].
Qed.

Lemma offered_more s P Q : offered s P → stopped s → offered s (P ++ Q).
Proof.
  intros [Ho He Hs Hk] Hst. destruct (He Hst) as (En & Hf & Hc). split; [done|done|congruence|].
  rewrite kept_first in Hk |- * by done. rewrite fmap_app.
  assert (Z.to_nat cap ≤ length P.*1)%nat as Hle.
  { apply (f_equal length) in Hk. rewrite length_take in Hk. pose proof (enabled_pos En). lia. }
  by rewrite take_app_le.
Qed.

Lemma offered_page items : valid_strategy → ∀ s P, offered s P →
  offered (stream_page s items).2 (P ++ items) ∧ ((stream_page s items).1 = true → stopped (stream_page s items).2).
Proof.
  intros Hv. induction items as [|[x ts] items IH]; intros s P H; cbn [stream_page]; [by rewrite app_nil_r|].
  destruct (offered_full _ _ (offered_add s P x ts Hv H)) as [Hf Hst]. destruct (full (add s x ts)) as [[] s']; cbn in *.
  - split; [|done]. change ((x, ts) :: items) with ([(x, ts)] ++ items). rewrite app_assoc. apply offered_more; auto.
  - change ((x, ts) :: items) with ([(x, ts)] ++ items). rewrite app_assoc. by apply IH.
Qed.

Lemma listAll_app {T} (l : listing T) : ∀ pre, listAll pre l = match listAll [] l with Ok items => Ok (pre ++ items) | Err e => Err e end.
Proof.
  induction l as [items l IH|items|e]; intros pre; cbn; [|done..]. rewrite IH, (IH items). destruct (listAll [] l); [|done].
  by rewrite app_assoc.
Qed.

Lemma offered_listing l items : valid_strategy → listAllByGVR l = Ok items → ∀ s P, offered s P →
  ∃ s', streamLiveSamples s l = Ok s' ∧ offered s' (P ++ items).
Proof.
  intros Hv. unfold listAllByGVR. revert items. induction l as [page l IH|page|e]; intros items Hl s P H; cbn in *; [| |done].
  - rewrite listAll_app in Hl. destruct (listAll [] l) as [rest|]; [|done]. injection Hl as <-.
    destruct (offered_page page Hv s P H) as [Hp Hst]. destruct (stream_page s page) as [[] s']; cbn in *.
    + eexists. split; [done|]. rewrite app_assoc. apply offered_more; auto.
    + destruct (IH rest eq_refl s' _ Hp) as (s'' & Hs & Hof). exists s''. split; [done|]. by rewrite app_assoc.
  - injection Hl as <-. eexists. split; [done|]. by apply offered_page.
Qed.

Lemma offered_all ls pops : valid_strategy → Forall2 (λ l items, listAllByGVR l = Ok items) ls pops →
  ∀ s P, offered s P → ∃ s', stream_all s ls = Ok s' ∧ offered s' (P ++ concat pops).
Proof.
  intros Hv. induction 1 as [|l items ls pops Hl _ IH]; intros s P H; cbn; [exists s; by rewrite app_nil_r|].
  destruct (offered_listing l items Hv Hl s P H) as (s1 & -> & H1). cbn. destruct (IH s1 _ H1) as (s2 & -> & H2).
  exists s2. split; [done|]. by rewrite app_assoc.
Qed.

Lemma result_shape s P : enabled o = true → valid_strategy → offered s P → let kept := (sampler_result s).1 in
  kept ⊆+ P.*1 ∧ Z.of_nat (length kept) = cap `min` Z.of_nat (length P) ∧
  (strategy o = SampleFirst → kept = take (Z.to_nat cap) P.*1) ∧
  (strategy o = SampleNewest → ∃ dropped dated, dated.*1 ≡ₚ kept ∧ dated ++ dropped ≡ₚ P ∧
     ∀ d k, d ∈ dropped → k ∈ dated → not_later d.2 k.2).
Proof.
  intros En Hv [Ho _ _ Hk] kept. pose proof (enabled_pos En) as Hcap.
  assert (kept = if bool_decide (strategy o = SampleNewest) then fst <$> sort_by newer (zip (smKept s) (smOrder s)) else smKept s) as ->.
  { unfold kept, sampler_result. rewrite Ho, En. cbn [andb negb orb]. by destruct (_ && _). }
  destruct Hv as [Hv|[Hv|Hv]]; rewrite Hv.
  - rewrite kept_first in Hk by done. rewrite bool_decide_false, Hk by done. split_and!; [|rewrite length_take, length_fmap; lia|done|done].
    apply sublist_submseteq, sublist_take.
  - rewrite kept_random in Hk by done. rewrite bool_decide_false by done. destruct Hk. by split_and!.
  - rewrite kept_newest in Hk by done. rewrite bool_decide_true by done. destruct Hk as (Hlen & Hn & dropped & HP & Hd).
    assert (fst <$> sort_by newer (zip (smKept s) (smOrder s)) ≡ₚ smKept s) as Hsort.
    { rewrite sort_by_perm. by rewrite fst_zip by lia. }
    split_and!; [|by rewrite Hsort|done|].
    + rewrite Hsort, <-HP, fmap_app, fst_zip by lia. by apply submseteq_inserts_r.
    + intros _. exists dropped, (zip (smKept s) (smOrder s)). split_and!; [|done..]. by rewrite Hsort, fst_zip by lia.
Qed.

(** A sampled run says so, and samples what it says.  Over the objects the
    listings hold, in the order they are listed, a valid sampler keeps no more than
    its cap; if it reports nothing it kept every object.  If it reports, the
    samples are among the objects and the report counts them and, unless the
    listing stopped early, the whole population; a run that stopped early tested
    exactly the first ones, as many as the cap.  The newest strategy drops no
    object newer than one it keeps. *)
Theorem sampled_run_says_so ls pops :
  ValidateSamplingOptions o = Ok () → Forall2 (λ l items, listAllByGVR l = Ok items) ls pops →
  let population := concat pops in
  ∃ s, stream_all (newSampler o) ls = Ok s ∧
    let '(kept, report) := sampler_result s in
    (report = None → kept ≡ₚ population.*1) ∧
    (0 < cap → Z.of_nat (length kept) ≤ cap) ∧
    (∀ r, report = Some r → kept ⊆+ population.*1 ∧ spTested r = Z.of_nat (length kept) ∧ spStrategy r = strategy o ∧
      if spTruncated r then kept = take (Z.to_nat cap) population.*1 ∧ Z.of_nat (length kept) = cap
      else spPopulation r = Z.of_nat (length population) ∧ spTested r = cap `min` spPopulation r) ∧
    (strategy o = SampleNewest → 0 < cap → ∃ dropped dated, dated.*1 ≡ₚ kept ∧ dated ++ dropped ≡ₚ population ∧
      ∀ d k, d ∈ dropped → k ∈ dated → not_later d.2 k.2).
Proof.
  intros Hval Hls population.
  assert (valid_strategy) as Hv.
  { unfold ValidateSamplingOptions in Hval. destruct (_ <? 0); [done|]. case_bool_decide as Hin; [|done].
    unfold valid_strategy. set_solver. }
  destruct (offered_all ls pops Hv Hls _ _ offered_new) as (s & Hst & Hof). exists s. split; [done|].
  pose proof Hof as [Ho He Hs Hk]. cbn [app] in *. fold population in Hs, Hk. destruct (enabled o) eqn:En.
  2: { unfold sampler_result. rewrite Ho, En. cbn [andb negb orb]. rewrite kept_all in Hk by done. unfold enabled in En.
       split_and!; [by rewrite Hk|lia|done|lia]. }
  destruct (result_shape s population En Hv) as (Hsub & Hlen & Hfirst & Hnewest); [done|].
  assert (sampler_result s = ((sampler_result s).1, if (smSeen s <=? Z.of_nat (length (sampler_result s).1)) && negb (smStoppedEarly s) then None
    else Some {| spStrategy := strategy o; spCap := cap; spPopulation := if smStoppedEarly s then 0 else smSeen s;
                 spTruncated := smStoppedEarly s; spTested := Z.of_nat (length (sampler_result s).1); spSeed := soSeed o |})) as Hres.
  { unfold sampler_result. rewrite Ho, En. cbn [andb negb orb]. destruct (_ && _) eqn:E; cbn [fst]; by rewrite E. }
  rewrite Hres. set (kept := (sampler_result s).1) in *. split_and!.
  - destruct (_ && _) eqn:E; [|done]. intros _. apply andb_true_iff in E as [E1 E2%negb_true_iff].
    rewrite (Hs E2) in E1. apply submseteq_length_Permutation; [done|]. rewrite length_fmap. lia.
  - lia.
  - intros r. destruct (_ && _) eqn:E; [done|]. intros [= <-]. cbn. split; [done|]. split; [done|]. split; [done|].
    destruct (smStoppedEarly s) eqn:Hearly.
    + destruct (He eq_refl) as (_ & Hf & Hc). specialize (Hfirst Hf). split; [done|]. rewrite kept_first in Hk by done.
      rewrite Hfirst, <-Hk. rewrite Hfirst, <-Hk in Hlen. lia.
    + by rewrite Hs.
  - intros Hnew _. by apply Hnewest.
Qed.
End sampler.

(** ** Witness *)

Definition stuck_rand : RandSource := {| rand_state := (); rand_New _ := tt; rand_Intn s _ := (0, s) |}.
#[local] Existing Instance stuck_rand.

Definition dated_sample (f : string) : Sample * string :=
  ({| saFile := f; saObject := ∅; saVersion := "v2"; saCRD := ""; saCRDRole := "" |}, "2026-01-0" +:+ f +:+ "T00:00:00Z").
Definition newest_two : SamplingOptions := {| soMaxSamples := 2; soStrategy := "newest"; soSeed := 0 |}.
Definition three_objects : list (listing (Sample * string)) := [Page [dated_sample "2"; dated_sample "1"] (LastPage [dated_sample "3"])].

(** Of three objects the two newest are tested, and the report says three. *)
Lemma sampled_run_says_so_witness : ∃ s kept r, stream_all (newSampler newest_two) three_objects = Ok s ∧
  sampler_result s = (kept, Some r) ∧ saFile <$> kept = ["3"; "2"] ∧ spPopulation r = 3 ∧ spTested r = 2.
Proof.
  destruct (sampled_run_says_so newest_two three_objects [[dated_sample "2"; dated_sample "1"; dated_sample "3"]]) as (s & Hs & H);
    [by vm_compute|by repeat constructor|].
  assert (∃ kept r, sampler_result s = (kept, Some r) ∧ saFile <$> kept = ["3"; "2"]) as (kept & r & Hr & Hf).
  { vm_compute in Hs. injection Hs as <-. do 2 eexists. split; vm_compute; reflexivity. }
  rewrite Hr in H. destruct H as (_ & _ & Hrep & _). exists s, kept, r. split; [exact Hs|]. split; [exact Hr|]. split; [exact Hf|].
  destruct (Hrep r eq_refl) as (_ & _ & _ & Ht). assert (spTruncated r = false) as Htr.
  { vm_compute in Hs. injection Hs as <-. vm_compute in Hr. injection Hr as _ <-. reflexivity. }
  rewrite Htr in Ht. destruct Ht as [Hp Ht]. rewrite Ht, Hp. split; vm_compute; reflexivity.
Defined.
