(* ===== verification/CliProperties.v ===== *)
(** What the commands around a migration promise: the gate on config edits (Compat.v),
    the gate on un-serving a version and the plan of a migration (Lifecycle.v), the
    tests of a config and their golden corpus (Testing.v). *)
From S2P Require Import Prelude Pool Float64 Value Json Duration Path Schema Rules Coerce Passthrough Ops Convert Diagnostics Compile Normalize Platform Required Analyze Assign Api Adapters Configs Registry Replica Migrate Sampling Retarget Compat Lifecycle Testing Fuzz Authoring Fixtures ReplicaProperties.
#[local] Open Scope Z_scope.

(** ** The compatibility gate *)

Section compat.
Context `{RO : RangeOrder} `{EX : Externs} `{CX : CompileExterns}.
Context (Quote : string → string) (fuel : nat) {D : Type} (gitShow : string → string → res string D).
Context {C1 T1 C2 T2 : Type} (KX : TargetKind C1 T1) (KC : TargetKind C2 T2)
  (pX : D → res string T1) (pXC : D → res string C1) (pC : D → res string T2) (pCC : D → res string C2).
Notation analyzeAtRef := (analyzeAtRef fuel gitShow KX KC pX pXC pC pCC).
Notation RunCompat := (RunCompat Quote fuel gitShow KX KC pX pXC pC pCC).

Lemma RunCompat_ok opts rep :
  RunCompat opts = Ok rep → ∃ base head,
    analyzeAtRef (coBase opts) opts = Ok base ∧ analyzeAtRef (coHead opts) opts = Ok head ∧
    crChanges rep = acknowledge (coAllow opts) <$> classify Quote base head ∧
    crNotes rep = analysisNotes (coBase opts) (aaReport base) (coHead opts) (aaReport head).
Proof.
  unfold Compat.RunCompat. destruct (_ || _); [done|]. case_bool_decide; [done|].
  intros (base & Hb%res_wrap_Ok & (head & Hh%res_wrap_Ok & [= <-])%res_bind_Ok)%res_bind_Ok. by exists base, head.
Qed.

(** C24. The compatibility gate shuts exactly on the regressions nobody allowed.  When
    [convctl compat] answers, it analysed the config at both revisions, and it reports a
    breaking change exactly when some class that no [--allow] named has a regression:
    the hub version differs; a served version is not served any more; a spoke the base
    reports on is served and has no report in the head; a path some rule of a spoke
    named is named by none; a spoke's verdict for a direction was lossless and is not;
    or (RuleRemoved) the base has a rule at an index at which the head has none, and
    some path of that rule is named by no rule of the head.  Whatever the indices, a
    path of any base rule that no rule names any more is reported as CoverageLost, by
    spoke and path.  A revision compared with itself shows no change, and the notes are
    empty exactly when both analyse cleanly. *)
Theorem compat_gate_is_sound_and_complete opts rep :
  RunCompat opts = Ok rep →
  ∃ base head, analyzeAtRef (coBase opts) opts = Ok base ∧ analyzeAtRef (coHead opts) opts = Ok head ∧
    (Breaking rep = true ↔ ∃ class, class ∉ coAllow opts ∧ regression base head class) ∧
    (∀ s b h rr p, reports base s b → reports head s h → rr ∈ srRuleResults b → p ∈ rule_paths rr → ¬ covers h p →
       ∃ c, c ∈ crChanges rep ∧ ccClass c = ClassCoverageLost ∧ ccSpoke c = s ∧ ccDetail c = NoLongerCovered s p) ∧
    (base = head → crChanges rep = []) ∧
    (crNotes rep = [] ↔ HasErrors (aaReport base) = false ∧ HasErrors (aaReport head) = false).
Proof.
  intros (base & head & Hb & Hh & Hc & Hn)%RunCompat_ok. exists base, head. split_and!; [done..| | | |].
  - by apply (breaking_iff Quote).
  - intros s b h rr p H1 H2 H3 H4 H5. eexists. split; [by eapply lost_path_reported|done].
  - intros <-. by rewrite Hc, classify_same.
  - rewrite Hn. unfold analysisNotes. cbn. destruct (HasErrors (aaReport base)), (HasErrors (aaReport head)); naive_solver.
Qed.
End compat.

(** ** Retiring a version *)

Section retiring.
Context `{U : Unstructured} (IsNotFound : string → bool).

(** C25. The gate on un-serving a version opens exactly on complete evidence that the
    version is unused.  When the inventory could be taken, [--check-unserve] finds no
    blocker exactly when the XRD declares the version and it is not the hub; every CRD
    the XRD generates is missing or does not list it in status.storedVersions; every
    object at it was listed, to the last page, unless the version is not served; no
    field manager of any of them wrote it; and there were fewer of them than the bound. *)
Theorem unserve_gate_needs_complete_evidence client w xrdPath n rep v :
  RunVersions IsNotFound client w xrdPath n = Ok rep →
  UnserveBlockers rep v = [] ↔ ∃ xrd, unused IsNotFound w (effective_bound n) xrd v.
Proof.
  unfold RunVersions. destruct client; [done|]. case_bool_decide; [|done]. by apply gate_opens_iff_unused.
Qed.

(** C26. A plan offers one step at a time, and the irreversible ones last.  Of the steps
    of any plan at most one is ready; every step before it is done or is one no manifest
    shows; and a step that retires a version is ready only when the operator asserted
    the cluster's facts, the new version is served, the config covers it and it is the
    hub of both the target and the config. *)
Theorem plan_offers_one_safe_step f o rep :
  RunPlan f o = Ok rep →
  ∃ st, loadPlanState f o = Ok st ∧ poTo o ∈ pvName <$> stVersions st ∧
  ∀ i s, prSteps rep !! i = Some s → psStatus s = StepReady →
    (∀ j t, prSteps rep !! j = Some t → psStatus t = StepReady → j = i) ∧
    (∀ j t, (j < i)%nat → prSteps rep !! j = Some t → psStatus t = StepDone ∨ psStatus t = StepUnknown) ∧
    ((length (forward_steps st (poTo o)) ≤ i)%nat →
       poAssumeVerified o = true ∧ target_served st (poTo o) = true ∧ spokeWired st (poTo o) = true ∧
       stHub st = poTo o ∧ stConfigHub st = poTo o).
Proof.
  unfold RunPlan. case_bool_decide; [done|]. intros (st & Hst & Hrep)%res_bind_Ok. exists st. split; [done|].
  case_bool_decide as Hin; cbn in Hrep; [|done]. injection Hrep as <-. split; [done|]. cbn [prSteps plan_report].
  intros i s Hs Hr. destruct (offered_step st (poTo o) (poAssumeVerified o) i s Hs Hr) as (H1 & H2 & H3).
  split_and!; [done..|]. intros Hi. destruct (H3 Hi) as (Hav & Hsv & Hw & Hp). split_and!; [done..| |].
  - by apply andb_true_iff in Hp as [Hp%bool_decide_eq_true _].
  - apply andb_true_iff in Hw as [Hc _], Hp as [_ Hp]. rewrite Hc in Hp. by apply bool_decide_eq_true in Hp.
Qed.

(** The plan ends when nothing is left, not before.  With [--assume-verified], no
    step of the plan is ready exactly when the new version is served, there is a config
    and it names the new version as its hub, the target does too, and every other named
    version is served and not deprecated.  (So a hub that was replaced and is neither is
    left as it is.) *)
Theorem plan_ends_when_nothing_is_left f o rep :
  RunPlan f o = Ok rep → poAssumeVerified o = true →
  ∃ st, loadPlanState f o = Ok st ∧ poTo o ∈ pvName <$> stVersions st ∧
  (NextStep rep = None ↔
     target_served st (poTo o) = true ∧ stHasConfig st = true ∧ stHub st = poTo o ∧ stConfigHub st = poTo o ∧
     ∀ v, v ∈ stVersions st → pvName v ≠ "" → pvName v = poTo o ∨ (pvServed v = true ∧ pvDeprecated v = false)).
Proof.
  unfold RunPlan. case_bool_decide; [done|]. intros (st & Hst & Hrep)%res_bind_Ok Hav. exists st. split; [done|].
  case_bool_decide as Hin; cbn in Hrep; [|done]. injection Hrep as <-. split; [done|]. rewrite Hav. apply exhausted.
Qed.
End retiring.

(** ** Retargeting *)

Section retarget.
Context `{U : Unstructured} {UL : UnstructuredLaws U} `{SM : StringMaps} {SML : StringMapsLaws SM} (opts : RetargetOptions).
Abbreviation repointed := (repointed opts).

(** The objects a run patches. *)
Definition needs_patch (ti : target * RetargetItem) : bool :=
  negb (tgNamespaced ti.1 && bool_decide (riNamespace ti.2 = "")) &&
  negb (retargetIsNoOp (riObject ti.2) (tgPrefix ti.1) (labelKey opts) (rgTo opts)).

Lemma patches_sent w l :
  (retargetOne w opts <$> l) ≫= fst = (λ ti, patch_of opts ti.1 ti.2) <$> filter (λ ti, needs_patch ti = true) l.
Proof.
  induction l as [|[t item] l IH]; [done|]. rewrite fmap_cons, bind_cons, IH, filter_cons.
  destruct (needs_patch (t, item)) eqn:E; [rewrite decide_True by done|rewrite decide_False by done];
    unfold needs_patch in E; unfold retargetOne; cbn [fst snd] in *;
    destruct (tgNamespaced t && _); try done; by destruct (retargetIsNoOp _ _ _ _).
Qed.

Lemma outcomes_add_up rs : (count_of Patched rs + count_of Skipped rs + count_of Failed rs = length rs)%nat.
Proof.
  unfold count_of. induction rs as [|r rs IH]; [done|]. rewrite !filter_cons. cbn [length].
  destruct (outcome_of r); cbn [length decide decide_rel outcome_eq_dec]; 
    repeat case_decide; try done; cbn [length]; lia.
Qed.

Lemma no_failure rs r : count_of Failed rs = 0%nat → r ∈ rs → roError r = "".
Proof.
  intros Hn%nil_length_inv Hr. destruct (decide (roError r = "")) as [|Hne]; [done|]. exfalso.
  apply (not_elem_of_nil r). rewrite <-Hn. apply list_elem_of_filter. split; [|done]. unfold outcome_of. by rewrite bool_decide_true.
Qed.

Lemma skipped_again w w' t item : tgPrefix t ≠ [] → string_labels (riObject item) (tgPrefix t) →
  roError (retargetOne w opts (t, item)).2 = "" →
  (retargetOne w' opts (t, repointed t item)).1 = [] ∧ outcome_of (retargetOne w' opts (t, repointed t item)).2 = Skipped.
Proof.
  intros Hp Hl Hok. unfold retargetOne in *. replace (riNamespace (repointed t item)) with (riNamespace item)
    by (unfold Retarget.repointed; by destruct (retargetIsNoOp _ _ _ _)).
  destruct (tgNamespaced t && _); [done|].
  assert (retargetIsNoOp (riObject (repointed t item)) (tgPrefix t) (labelKey opts) (rgTo opts) = true) as ->; [|done].
  unfold Retarget.repointed. destruct (retargetIsNoOp _ _ _ _) eqn:E; [done|]. by apply retargeted_is_noop.
Qed.

(** C29. Retargeting sends exactly the patches that are needed.  A run that fails before
    its first patch has sent none.  Otherwise it takes the objects in the order they are
    listed, as many as the canary allows, and sends one patch for each that is not on
    the version already (and is not a namespaced object without a namespace); the counts
    add up.  An object with the patch applied to it carries no pin and selects the
    version; where the fields on the way to the three that are patched are objects or
    missing, it reads at every path apart from those three as before.  When no patch
    failed, every one was accepted.  And when besides the run covered all the objects,
    the labels of their selectors are strings, every patch was persisted as sent (so
    not in a dry run) and nothing else changed the XRD or the listed objects since, a
    second run sends nothing and skips every object. *)
Theorem retargeting_once_is_enough w :
  match RunRetarget w opts with
  | (patches, Err _) => patches = []
  | (patches, Ok rep) => ∃ scope multi items selected,
      prepare w opts = Ok (scope, multi, items, selected) ∧ (selected <= length items)%nat ∧
      rgrSelected rep = selected ∧ rgrTotal rep = length items ∧
      (rgrPatched rep + rgrSkipped rep + rgrFailed rep = selected)%nat ∧
      patches = (λ ti, patch_of opts ti.1 ti.2) <$> filter (λ ti, needs_patch ti = true) (take selected items) ∧
      (∀ t item, (t, item) ∈ items →
         on_target (riObject (repointed t item)) (tgPrefix t) (labelKey opts) (rgTo opts) ∧
         ∀ q, spine (riObject item) (tgPrefix t) (labelKey opts) → untouched (tgPrefix t) (labelKey opts) q →
           getValue (riObject (repointed t item)) q = getValue (riObject item) q) ∧
      (HasFailures rep = false → (∀ p, p ∈ patches → default "" (rwPatch w p) = "") ∧
         (selected = length items → (∀ t item, (t, item) ∈ items → string_labels (riObject item) (tgPrefix t)) →
          ∀ w', all_repointed opts w w' → ∃ rep', RunRetarget w' opts = ([], Ok rep') ∧ rgrSkipped rep' = length items))
  end.
Proof.
  unfold RunRetarget at 1. destruct (prepare w opts) as [[[[scope multi] items] selected]|e] eqn:Hp; [|done].
  pose proof (prepare_ok opts w scope multi items selected Hp) as [Hsel Hpre Hto Hagain].
  exists scope, multi, items, selected. split; [done|]. split; [done|]. split; [done|]. split; [done|].
  split. { cbn. rewrite outcomes_add_up, !length_fmap, length_take. lia. }
  split; [apply patches_sent|]. split.
  - intros t item Hti. specialize (Hpre _ Hti). cbn in Hpre. unfold Retarget.repointed.
    destruct (retargetIsNoOp _ _ _ _) eqn:E; [split; [by apply noop_on_target|done]|].
    split; [by apply retargeted_on_target|]. intros q Hs Hu. by apply retarget_frame.
  - intros Hf%Nat.ltb_ge. cbn in Hf.
    assert (∀ t item, (t, item) ∈ take selected items → roError (retargetOne w opts (t, item)).2 = "") as Hok.
    { intros t item Hti. eapply no_failure; [|by apply list_elem_of_fmap_2, list_elem_of_fmap_2, Hti]. lia. }
    split.
    + rewrite patches_sent. intros p ([t item] & -> & [Hn Hti]%list_elem_of_filter)%list_elem_of_fmap.
      specialize (Hok t item Hti). unfold needs_patch in Hn. apply andb_true_iff in Hn as [H1%negb_true_iff H2%negb_true_iff].
      unfold retargetOne in Hok. cbn [fst snd] in *. by rewrite H1, H2 in Hok.
    + intros -> Hlab w' Haft. rewrite firstn_all in Hok. eexists. unfold RunRetarget. rewrite (Hagain w' Haft).
      rewrite firstn_all2 by (by rewrite length_fmap). rewrite <-list_fmap_compose.
      assert (∀ l, (∀ ti, ti ∈ l → ti ∈ items) →
        ((retargetOne w' opts ∘ λ ti, (ti.1, repointed ti.1 ti.2)) <$> l) ≫= fst = [] ∧
        count_of Skipped (snd <$> ((retargetOne w' opts ∘ λ ti, (ti.1, repointed ti.1 ti.2)) <$> l)) = length l) as Hall.
      { induction l as [|[t item] l IH]; intros Hin; [done|].
        destruct (skipped_again w w' t item) as [Hs1 Hs2]; [by apply (Hpre _ (Hin _ (list_elem_of_here _ _)))|by apply Hlab, Hin; left|by apply Hok, Hin; left|].
        destruct IH as [IH1 IH2]; [intros; apply Hin; by right|].
        rewrite !fmap_cons, bind_cons. cbn [compose fst snd]. rewrite Hs1, IH1. split; [done|].
        unfold count_of. rewrite filter_cons, Hs2, decide_True by done. cbn [length]. by f_equal. }
      destruct (Hall items (λ _ H, H)) as [-> Hc]. split; [done|]. exact Hc.
Qed.
(** The schedule of the workers is irrelevant here too. *)
Theorem retarget_schedule_irrelevant w items n p :
  nsteps (retarget_pool_step w opts items) n (retarget_pool_start opts items) p →
  (n <= 3 * length items)%nat ∧ (¬ pool_over items p → ∃ p', retarget_pool_step w opts items p p') ∧
  (pool_over items p → plResults p = snd <$> (retargetOne w opts <$> items) ∧ plEvents p ≡ₚ (retargetOne w opts <$> items) ≫= fst).
Proof.
  intros Hn. eapply pool_schedules in Hn as (H1 & H2 & H3).
  - split_and!; [done..|]. intros Ho. destruct (H3 (λ _ _ _, eq_refl) Ho) as (Hr & He & _).
    rewrite Hr, He, <-list_fmap_compose. split; [done|]. clear. induction items as [|i items IH]; [done|]. cbn. by rewrite IH.
  - unfold Retarget.effectiveConcurrency. destruct (_ <? 1) eqn:E; [lia|]. apply Z.ltb_ge in E. lia.
Qed.
End retarget.

(** ** The tests of a config *)

Section testing.
Context `{RO : RangeOrder} `{EX : Externs} `{SV : SchemaValidation}.
Context (router : Router) (hub : string) (lossy : gmap string (gset string)) (report : AnalyzeReport)
  (validator : option outputValidator).

(** C27. A test that passes lost no scalar and made none up, numbers being compared as
    float64.  When [convctl test] reports a pass for a sample and another version, both
    conversions succeeded, the converted object satisfies the schema it was checked
    against, and at every walk of keys and indices that meets no ignored path, a scalar
    of the sample that is not null is in the object that came back as the same scalar,
    and the other way round: the same text, the same boolean, or numbers equal as
    float64.  So integers below 2^53 are equal exactly, and larger ones may differ. *)
Theorem passed_test_lost_nothing s target :
  saVersion s ≠ target →
  ptResult (testOnePath router hub lossy report validator s target).1.1 = "pass" →
  ∃ forward back,
    Router_Convert router (saObject s) (saVersion s) target = Ok forward ∧
    Router_Convert router forward target (saVersion s) = Ok back ∧
    (knows validator target = true → validate validator forward target = []) ∧
    ∀ p,
      (∀ v, at_path (VObj (saObject s)) "" p = Some v → scalar v = true →
         ∃ w, at_path (VObj back) "" p = Some w ∧ same_scalar v w) ∧
      (∀ w, at_path (VObj back) "" p = Some w → scalar w = true →
         ∃ v, at_path (VObj (saObject s)) "" p = Some v ∧ same_scalar v w).
Proof.
  intros Hne. unfold testOnePath. rewrite bool_decide_false by done.
  destruct (Router_Convert router (saObject s) _ _) as [forward|e]; [|done].
  destruct (Router_Convert router forward _ _) as [back|e] eqn:Hback; [|done]. cbn [fst ptResult]. intros Hp.
  case_bool_decide as Hv; [done|].
  destruct (existsb _ _); [done|]. case_bool_decide as Hd; [done|].
  exists forward, back. split_and!; [done..| |].
  - intros Hk. unfold violations in Hv. rewrite Hk in Hv. apply fmap_nil_inv in Hv. by apply fmap_nil_inv in Hv.
  - intros p. destruct (diffInto_nil p (VObj (saObject s)) "" (VObj back)) as [H1 H2]; [by apply diffLeaves_nil|]. split.
    + intros v Hvp Hsc. destruct (H1 v Hvp Hsc) as (w & ? & ?). exists w. split; [done|]. by apply valuesEqual_same.
    + intros w Hwp Hsc. destruct (H2 w Hwp Hsc) as (v & ? & Heq). exists v. split; [done|]. apply valuesEqual_same; [|done].
      by rewrite (valuesEqual_scalar _ _ Heq).
Qed.
End testing.

(** The report of [convctl test] does not depend on how many workers produced it, nor on
    their interleaving: whatever they did so far, at most three steps per sample, they
    can go on until all are done, and then the report and, up to order, what the corpus
    was shown are those of testing the samples one after the other. *)
Theorem test_schedule_irrelevant `{RO : RangeOrder} `{EX : Externs} `{SV : SchemaValidation}
    opts kind name cfg hub samples versions report router injected validator n p gomaxprocs :
  run_validator opts versions injected = Ok validator →
  nsteps (test_pool_step opts hub samples versions report router validator) n (test_pool_start opts samples gomaxprocs) p →
  (n ≤ 3 * length samples)%nat ∧
  (¬ test_pool_over samples p → ∃ p', test_pool_step opts hub samples versions report router validator p p') ∧
  (test_pool_over samples p → ∃ shown,
     runTestCommon opts kind name cfg hub samples versions report router injected =
       Ok (test_report kind name cfg hub samples versions report (plResults p) (plTally p), shown) ∧ plEvents p ≡ₚ shown).
Proof.
  intros Hv Hp. assert (0 < Z.to_nat (effectiveConcurrency opts gomaxprocs (Z.of_nat (length samples))))%nat as Hw.
  { unfold effectiveConcurrency. destruct (_ <? 1) eqn:E; lia. }
  destruct (pool_schedules (test_sample opts hub versions report router validator) record_sample no_outcome no_tally
    _ samples n p Hw Hp) as (H1 & H2 & H3).
  split_and!; [done..|]. intros Hover. destruct (H3 record_sample_comm Hover) as (Hr & He & Ht).
  eexists. split; [|exact He]. unfold runTestCommon. rewrite Hv. cbn. rewrite Hr, Ht, <-!list_fmap_compose. f_equal. f_equal.
  generalize (test_sample opts hub versions report router validator); intros work. clear.
  induction samples as [|s samples IH]; [done|]. cbn. by rewrite IH.
Qed.

(** C28. A golden corpus is evidence.  A corpus recorded without an error, replayed by a
    run whose outputs can all be serialised, shows no drift exactly when the run produces
    the same contents at the same corpus paths, from a config and schemas with the same
    fingerprints; whatever stale files were in the directory.  Each run is assumed to
    show the corpus one output per corpus path. *)
Theorem golden_replay_is_exact `{Y : YAML} write_error read_error files0 m0 os m os' m' :
  NoDup (rel_of <$> os) → NoDup (rel_of <$> os') → (∀ r, read_error r = None) →
  (∀ o, o ∈ os' → ∃ data, yaml_Marshal (obObject o) = Ok data) →
  let recorded := corpus_run write_error read_error (newCorpus true files0 m0) os m in
  cpDrifts recorded = [] →
  cpDrifts (corpus_run write_error read_error (newCorpus false (cpFiles recorded) (cpManifest recorded)) os' m') = [] ↔
  (∀ rel data, output os rel data ↔ output os' rel data) ∧ gmPlanHash m = gmPlanHash m' ∧ gmSchemaHash m = gmSchemaHash m'.
Proof. apply replay_clean. Qed.

(** ** Fuzzing *)

Section fuzzing.
Context `{RM : RandMore} {RL : RandLaws} `{EX : Externs} `{SV : SchemaValidation}.
Context (MatchString : string → string → option bool) (shapes : gmap string lexicalShape).
Context (Hint64 : ∀ f, - 2 ^ 63 <= float64_to_int64_out_of_range f < 2 ^ 63).

(** The version the objects are generated for: the last of its name. *)
Definition fuzz_hub (versions : list (VersionSchema * FuzzSchema)) (hub : string) : option (VersionSchema * FuzzSchema) :=
  last (filter (λ v, vsName v.1 = hub) versions).

(** C30. What the fuzzer generates fits the schema it was generated from, for every seed
    and every source of random numbers that keeps to its ranges.  When it answers there
    are as many samples as were asked for, from one to 10000; each is an object of the
    hub version with its own name, and the validator has nothing against it.  When the
    hub's schema is a plain object (type object, no enum, no default) and no schema
    inside bounds a size by less than the generator's least (a string's maxLength is at
    least its minLength, or 1 without one, an array's maxItems at least its minItems,
    and neither negative), each also fits that schema before it is dressed with
    apiVersion, kind and metadata: only declared properties and all declared required
    ones, strings within minLength, maxLength and pattern, arrays within minItems and
    maxItems, integers within their bounds, or values of an enum or a default; bounds
    of numbers are not claimed.  It panics only when some integer of the schema may take
    2^63 values or more. *)
Theorem fuzzed_objects_fit_the_schema versions hub group kind n seed :
  match generateFuzzSamples MatchString shapes versions hub group kind n seed with
  | Ok samples => 1 <= n <= 10000 ∧ Z.of_nat (length samples) = n ∧
      ∃ v schema, fuzz_hub versions hub = Some (v, schema) ∧
        (∀ i x, samples !! i = Some x → generated_sample MatchString schema (group +:+ "/" +:+ hub) kind i x) ∧
        ∃ ov, newOutputValidator [v] [] = Ok ov ∧ ∀ x, x ∈ samples → validate (Some ov) (saObject x) hub = []
  | Err PanicDraw => ∃ v schema, fuzz_hub versions hub = Some (v, schema) ∧ ¬ spans_small fuzz_levels schema
  | Err _ => True
  end.
Proof.
  unfold generateFuzzSamples, maxFuzzObjects. fold (fuzz_hub versions hub).
  destruct (n <=? 0) eqn:E1; [done|]. destruct (10000 <? n) eqn:E2; [done|].
  destruct (fuzz_hub versions hub) as [[v schema]|]; [|done]. case_bool_decide; [done|].
  destruct (generate _ _ _ _ _ _ _) as [[samples g]|] eqn:Eg.
  2: { exists v, schema. split; [done|]. intros Hs.
       destruct (returns_generate MatchString shapes Hint64 schema (group +:+ "/" +:+ hub) kind (Z.to_nat n) Hs 0
         {| gnRnd := rand_New seed; gnUnconstructible := [] |}) as (a & g' & Hr). unfold generate in Eg. congruence. }
  destruct (generate_from_spec MatchString shapes Hint64 schema (group +:+ "/" +:+ hub) kind (Z.to_nat n) 0 _ _ _ Eg)
    as (us & Hus & Hgen).
  destruct (gnUnconstructible g) as [|u us'] eqn:Eu; [|done]. cbn in Hus. subst us. destruct (Hgen eq_refl) as [Hlen Hall].
  destruct (newOutputValidator [v] []) as [ov|] eqn:Ev; cbn [res_wrap mbind res_bind]; [|done].
  destruct (samples ≫= _) as [|w ws] eqn:Ew; [|done]. split; [lia|]. split; [lia|].
  exists v, schema. split_and!; [done|intros i x Hx; by apply (Hall i)|]. exists ov. split; [done|].
  intros x Hx. destruct (validate _ _ _) as [|w ws] eqn:Exv; [done|]. exfalso.
  apply (not_elem_of_nil w). rewrite <-Ew. apply list_elem_of_bind. exists x. rewrite Exv. split; [apply list_elem_of_here|done].
Qed.
End fuzzing.

(** ** Suggestions and differences *)

Section authoring.
Context `{RO : RangeOrder} `{UT : UnicodeTables} (text : message → string).


(** [convctl diff] says there is no difference exactly when the two analyses agree on the
    hub, on which spokes there are, and on each spoke: its uncovered fields, how many
    rules make each claim, both verdicts, its errors and its warnings.  A spoke is added,
    removed or shown exactly when one side lacks it or they disagree on it. *)
Theorem diff_is_exact kind name fromLabel toLabel fromHub toHub from to :
  let out := buildDiffOutput text kind name fromLabel toLabel fromHub toHub from to in
  (dfHasDeltas out = false ↔ fromHub = toHub ∧ ∀ v,
     match report_on from v, report_on to v with Some f, Some t => agree text f t | None, None => True | _, _ => False end) ∧
  (∀ v, v ∈ dfSpokesAdded out ↔ is_Some (report_on to v) ∧ report_on from v = None) ∧
  (∀ v, v ∈ dfSpokesRemoved out ↔ is_Some (report_on from v) ∧ report_on to v = None) ∧
  (∀ sd, sd ∈ dfSpokes out ↔ ∃ v f t, report_on from v = Some f ∧ report_on to v = Some t ∧
     sd = diffSpokeReports text v f t ∧ ¬ agree text f t).
Proof.
  intros out.
  assert (∀ v, v ∈ dfSpokesAdded out ↔ is_Some (report_on to v) ∧ report_on from v = None) as Ha
    by (intros v; cbn; by rewrite elem_of_only_in, !spokeReportsByVersion_lookup).
  assert (∀ v, v ∈ dfSpokesRemoved out ↔ is_Some (report_on from v) ∧ report_on to v = None) as Hr
    by (intros v; cbn; by rewrite elem_of_only_in, !spokeReportsByVersion_lookup).
  assert (∀ sd, sd ∈ dfSpokes out ↔ ∃ v f t, report_on from v = Some f ∧ report_on to v = Some t ∧
    sd = diffSpokeReports text v f t ∧ ¬ agree text f t) as Hd.
  { intros sd. cbn. rewrite elem_of_spoke_diffs. by setoid_rewrite spokeReportsByVersion_lookup. }
  split_and!; [|done..].
  assert (dfHasDeltas out = false ↔ fromHub = toHub ∧ dfSpokesAdded out = [] ∧ dfSpokesRemoved out = [] ∧ dfSpokes out = []) as ->.
  { change (dfHasDeltas out) with (bool_decide (is_Some (dfHubVersionChange out)) || (0 <? length (dfSpokesAdded out))%nat ||
      (0 <? length (dfSpokesRemoved out))%nat || (0 <? length (dfSpokes out))%nat).
    rewrite !orb_false_iff, !Nat.ltb_ge, !Nat.le_0_r, !length_zero_iff_nil, bool_decide_eq_false.
    assert (¬ is_Some (dfHubVersionChange out) ↔ fromHub = toHub) as ->; [|tauto].
    cbn. case_bool_decide; [split; [done|by intros _ []]|]. split; [|done]. intros H'. destruct H'. by eexists. }
  split.
  - intros (-> & Hna & Hnr & Hnd). split; [done|]. intros v. specialize (Ha v). specialize (Hr v). rewrite Hna in Ha. rewrite Hnr in Hr.
    destruct (report_on from v) as [f|] eqn:Ef, (report_on to v) as [t|] eqn:Et;
      [|destruct (not_elem_of_nil v); apply Hr; by eauto|destruct (not_elem_of_nil v); apply Ha; by eauto|done].
    destruct (hasDeltas (diffSpokeReports text v f t)) eqn:E; [|by eapply hasDeltas_agree].
    destruct (not_elem_of_nil (diffSpokeReports text v f t)). rewrite <-Hnd. apply Hd. exists v, f, t. split_and!; [done..|].
    intros Hag%(hasDeltas_agree text v). congruence.
  - intros [-> H]. split_and!; [done|..]; apply elem_of_nil_inv.
    + intros v [[t Et] Ef]%Ha. specialize (H v). by rewrite Ef, Et in H.
    + intros v [[f Ef] Et]%Hr. specialize (H v). by rewrite Ef, Et in H.
    + intros sd (v & f & t & Ef & Et & _ & Hn)%Hd. specialize (H v). by rewrite Ef, Et in H.
Qed.
End authoring.

(** ** Witnesses *)

#[local] Existing Instances canonical_order fixture_externs fixture_compile_externs fixture_unstructured.

(** The config loses its only rule between two revisions. *)
Definition quoted (s : string) : string := dq +:+ s +:+ dq.
Definition demo_files (ref path : string) : res string (CRDConversionConfig + CustomResourceDefinition) :=
  if bool_decide (path = "config.yaml") then Ok (inl (demo_crd_config (if bool_decide (ref = "main") then [size_renamed] else [])))
  else Ok (inr (served_by "main")).
Definition as_config (d : CRDConversionConfig + CustomResourceDefinition) : res string CRDConversionConfig :=
  match d with inl c => Ok c | inr _ => Err "not a config" end.
Definition as_crd (d : CRDConversionConfig + CustomResourceDefinition) : res string CustomResourceDefinition :=
  match d with inr c => Ok c | inl _ => Err "not a CRD" end.
Definition demo_compat_options (allow : list string) : CompatOptions := {|
  coBase := "main"; coHead := "HEAD"; coConfigPath := "config.yaml"; coXRDPath := ""; coCRDPath := "crd.yaml"; coAllow := allow |}.
Definition compare_files (files : string → string → res string (CRDConversionConfig + CustomResourceDefinition)) (allow : list string)
    : res compat_error CompatReport :=
  RunCompat quoted 5 files crd_kind crd_kind as_crd as_config as_crd as_config (demo_compat_options allow).

Lemma compat_gate_is_sound_and_complete_witness :
  ∃ rep, compare_files demo_files [ClassCoverageLost] = Ok rep ∧ Breaking rep = true ∧
    ∃ base head class, class ≠ ClassCoverageLost ∧ regression base head class.
Proof.
  destruct (compare_files demo_files [ClassCoverageLost]) as [rep|e] eqn:E; [|by vm_compute in E].
  assert (Breaking rep = true) as Hb.
  { assert ((Breaking <$> compare_files demo_files [ClassCoverageLost]) = Ok true) as H by (by vm_compute). rewrite E in H. by injection H. }
  exists rep. split; [done|]. split; [done|]. unfold compare_files in E.
  destruct (compat_gate_is_sound_and_complete quoted 5 demo_files crd_kind crd_kind as_crd as_config as_crd as_config _ _ E)
    as (base & head & _ & _ & Hiff & _).
  destruct (proj1 Hiff Hb) as (class & Hn & Hr). exists base, head, class. split; [|exact Hr].
  intros ->. apply Hn. by left.
Defined.

(** [v1] is served, and neither stored nor written any more. *)
Definition demo_xrd : obj := {[
  "metadata" := VObj {["name" := VStr "xapps"]};
  "spec" := VObj {[ "group" := VStr "example.com"; "names" := VObj {["plural" := VStr "xapps"; "kind" := VStr "XApp"]};
    "versions" := VArr [VObj {["name" := VStr "v2"; "served" := VBool true; "referenceable" := VBool true]};
                        VObj {["name" := VStr "v1"; "served" := VBool true]}] ]} ]}.
Definition written_at (version manager : string) : ListedObject := {|
  loAPIVersion := "example.com/v1";
  loManagedFields := [{| mfManager := manager; mfAPIVersion := version; mfTime := Some "2026-06-01T09:14:02Z" |}] |}.
Definition demo_inventory (version : string) : versions_world := {|
  invXRD := Ok demo_xrd; invConfig := None; invStored := λ _, Ok ["v2"];
  invList := λ _ _, Page [written_at version "argocd"] (LastPage []) |}.

Lemma unserve_gate_needs_complete_evidence_witness :
  (∃ xrd, unused (λ _, false) (demo_inventory "example.com/v2") 5000 xrd "v1") ∧
  ¬ ∃ xrd, unused (λ _, false) (demo_inventory "example.com/v1") 5000 xrd "v1".
Proof.
  assert (∀ version rep, RunVersions (λ _, false) None (demo_inventory version) "xrd.yaml" 0 = Ok rep →
    UnserveBlockers rep "v1" = [] ↔ ∃ xrd, unused (λ _, false) (demo_inventory version) 5000 xrd "v1") as H.
  { intros version rep Hrep. apply (unserve_gate_needs_complete_evidence (λ _, false) None (demo_inventory version) "xrd.yaml" 0 rep "v1" Hrep). }
  split.
  - eapply H; [by vm_compute|by vm_compute].
  - intros Hu. eapply H in Hu; [|by vm_compute]. by vm_compute in Hu.
Defined.

(** Two composites: one pinned to the Composition of [v1], one that selects [v2]. *)
Definition string_labels_of (m : obj) : gmap string string := omap (λ v, match v with VStr s => Some s | _ => None end) m.
Definition is_string (v : value) : bool := match v with VStr _ => true | _ => false end.
Definition fixture_string_maps : StringMaps := {|
  NestedStringMap o p := match getValue o p with
    | None => Ok None
    | Some (VObj m) => if bool_decide (map_Forall (λ _ v, is_string v = true) m) then Ok (Some (string_labels_of m)) else Err "not a string"
    | Some _ => Err "not a map"
    end |}.
Lemma fixture_string_maps_laws : StringMapsLaws fixture_string_maps.
Proof.
  split; intros o p m; cbn.
  - intros ->. rewrite bool_decide_true by (intros k v (s & <- & _)%lookup_fmap_Some; done).
    do 2 f_equal. apply map_eq. intros k. unfold string_labels_of. rewrite lookup_omap, lookup_fmap. by destruct (m !! k).
  - destruct (getValue o p) as [[| | | | | |mv]|]; try done. case_bool_decide as Hs; [|done]. intros [= <-]. do 2 f_equal.
    apply map_eq. intros k. rewrite lookup_fmap. unfold string_labels_of. rewrite lookup_omap.
    destruct (mv !! k) as [v|] eqn:E; [|done]. specialize (Hs k v E). by destruct v.
Qed.
#[local] Existing Instances fixture_unstructured_laws fixture_string_maps fixture_string_maps_laws.

Definition composite (name : string) (machinery : obj) : RetargetItem := {|
  riName := name; riNamespace := "default";
  riObject := {["spec" := VObj {["size" := VStr "big"; "crossplane" := VObj machinery]}]} |}.
Definition selecting (version : string) : value := VObj {["matchLabels" := VObj {["xrd-api-version" := VStr version]}]}.
Definition demo_composites : list RetargetItem := [
  composite "a" {["compositionRef" := VObj {["name" := VStr "old"]}; "compositionSelector" := selecting "v1"]};
  composite "b" {["compositionSelector" := selecting "v2"]} ].
Definition retarget_demo (items : list RetargetItem) : retarget_world := {|
  rwXRD := λ _, Ok demo_xrd; rwList := λ _, LastPage items; rwPatch := λ _, None |}.
Definition demo_retarget_options : RetargetOptions := {|
  rgXRDName := "xapps"; rgTo := "v2"; rgDryRun := false; rgConcurrency := 1; rgCanary := ""; rgLabelKey := ""; rgFieldManager := "" |}.
Definition demo_composite_target : target := {|
  tgGroup := "example.com"; tgVersion := "v2"; tgResource := "xapps"; tgCRD := "xapps.example.com"; tgNamespaced := true;
  tgPrefix := ["spec"; "crossplane"] |}.

Lemma retargeting_once_is_enough_witness :
  let after := retarget_demo (Retarget.repointed demo_retarget_options demo_composite_target <$> demo_composites) in
  length (RunRetarget (retarget_demo demo_composites) demo_retarget_options).1 = 1%nat ∧
  ∃ rep, RunRetarget after demo_retarget_options = ([], Ok rep) ∧ rgrSkipped rep = 2%nat.
Proof.
  cbv zeta. pose proof (retargeting_once_is_enough demo_retarget_options (retarget_demo demo_composites)) as H.
  destruct (RunRetarget (retarget_demo demo_composites) demo_retarget_options) as [patches [rep|e]] eqn:E; [|by vm_compute in E].
  destruct H as (scope & multi & items & selected & Hp & _ & _ & _ & _ & _ & _ & H).
  assert ((length patches, HasFailures rep) = (1%nat, false)) as [= Hl Hf].
  { transitivity (match RunRetarget (retarget_demo demo_composites) demo_retarget_options with
      (ps, Ok r) => (length ps, HasFailures r) | _ => (0%nat, true) end); [by rewrite E|by vm_compute]. }
  split; [exact Hl|]. destruct (H Hf) as [_ H'].
  assert ((items, selected) = (pair demo_composite_target <$> demo_composites, 2%nat)) as [= -> ->].
  { assert (Some (items, selected) = match prepare (retarget_demo demo_composites) demo_retarget_options with
      Ok (_, _, i, s) => Some (i, s) | _ => None end) as Hi by (by rewrite Hp).
    apply (inj Some). rewrite Hi. by vm_compute. }
  apply H'.
  - done.
  - intros t item Hin. cbn in Hin. apply elem_of_cons in Hin as [[= -> ->]|[= -> ->]%list_elem_of_singleton].
    + exists {["xrd-api-version" := "v1"]}. reflexivity.
    + exists {["xrd-api-version" := "v2"]}. reflexivity.
  - split; [done|]. intros xrd generated refVersion g [= <-] Hg Href Hin t l Hl'. cbn in Hl'. injection Hl' as <-.
    assert (t = demo_composite_target) as ->; [|done].
    assert (Ok refVersion = xrdReferenceableVersion demo_xrd) as Hr by done. vm_compute in Hr. injection Hr as ->.
    assert (Ok generated = xrdadapter.GeneratedCRDNames (Some demo_xrd)) as Hn by done. vm_compute in Hn. injection Hn as ->.
    apply list_elem_of_singleton in Hin as ->. by vm_compute.
Defined.

(** The new version is the hub everywhere, and [v1] is deprecated. *)
Definition demo_plan_files : plan_files := {|
  pfXRD := Err "no file"; pfXRDConfig := Err "no file"; pfCRDConfig := Ok (demo_crd_config [size_renamed]);
  pfCRD := Ok ("apps", [({| cvName := "v2"; cvServed := true; cvStorage := true; cvSchema := None |}, false);
                        ({| cvName := "v1"; cvServed := true; cvStorage := false; cvSchema := None |}, true)]) |}.
Definition demo_plan_options : PlanOptions := {|
  poXRDPath := ""; poCRDPath := "crd.yaml"; poConfigPath := "config.yaml"; poTo := "v2"; poPackageManaged := false;
  poAssumeVerified := true |}.

Lemma plan_offers_one_safe_step_witness :
  ∃ rep s, RunPlan demo_plan_files demo_plan_options = Ok rep ∧ prSteps rep !! 5%nat = Some s ∧
    psTitle s = "Stop serving v1" ∧ psStatus s = StepReady ∧
    ∀ j t, prSteps rep !! j = Some t → psStatus t = StepReady → j = 5%nat.
Proof.
  eexists _, _. split; [by vm_compute|]. split; [by vm_compute|]. split; [by vm_compute|]. split; [by vm_compute|].
  edestruct (plan_offers_one_safe_step demo_plan_files demo_plan_options) as (st & _ & _ & H); [by vm_compute|].
  eapply (H 5%nat); [by vm_compute|by vm_compute].
Defined.

(** [v1] is deprecated: a step is left. *)
Lemma plan_ends_when_nothing_is_left_witness :
  ∃ rep st, RunPlan demo_plan_files demo_plan_options = Ok rep ∧ loadPlanState demo_plan_files demo_plan_options = Ok st ∧
    (NextStep rep = None ↔
     target_served st "v2" = true ∧ stHasConfig st = true ∧ stHub st = "v2" ∧ stConfigHub st = "v2" ∧
     ∀ v, v ∈ stVersions st → pvName v ≠ "" → pvName v = "v2" ∨ (pvServed v = true ∧ pvDeprecated v = false)).
Proof.
  eexists. edestruct (plan_ends_when_nothing_is_left demo_plan_files demo_plan_options) as (st & Hst & _ & H);
    [by vm_compute|by vm_compute|].
  exists st. split; [by vm_compute|]. split; [exact Hst|exact H].
Defined.

(** A sample of [v1] that survives the trip to [v2]. *)
Definition demo_router : Router := {| rtHub := "v2"; rtPlans := {["v1" := Some demo_plan]} |}.
Definition demo_sample : Sample := {|
  saFile := "a.yaml"; saVersion := "v1"; saCRD := ""; saCRDRole := "";
  saObject := {["kind" := VStr "App"; "metadata" := VObj {["name" := VStr "a"]}; "spec" := VObj {["sizeName" := VStr "big"]}]} |}.
Definition no_validation : SchemaValidation := {|
  sv_validator := unit; NewSchemaValidator := λ _, Ok (); ValidateCustomResource := λ _ _, []; strings_ToLower := λ s, s |}.
#[local] Existing Instance no_validation.

Lemma passed_test_lost_nothing_witness :
  ∃ forward back w, Router_Convert demo_router (saObject demo_sample) "v1" "v2" = Ok forward ∧
    Router_Convert demo_router forward "v2" "v1" = Ok back ∧
    at_path (VObj back) "" [Key "spec"; Key "sizeName"] = Some w ∧ same_scalar (VStr "big") w.
Proof.
  destruct (passed_test_lost_nothing demo_router "v2" ∅ {| arResourceGeneration := 0; arSpokeReports := [] |} None demo_sample "v2")
    as (forward & back & Hf & Hb & _ & Hp).
  - done.
  - by vm_compute.
  - destruct (Hp [Key "spec"; Key "sizeName"]) as [Hv _]. destruct (Hv (VStr "big")) as (w & Hw & Heq); [by vm_compute|done|].
    exists forward, back, w. split; [exact Hf|]. split; [exact Hb|]. split; [exact Hw|exact Heq].
Defined.

(** Two samples recorded over a stale golden, and replayed the other way round. *)
Definition printed : YAML := {| yaml_Marshal := λ o, Ok (go_print (VObj o)); yaml_Unmarshal := λ _, Err "not parsed" |}.
#[local] Existing Instance printed.
Definition shown (file size : string) : observation := {|
  obFile := file; obFrom := "v1"; obTo := "v2"; obObject := {["spec" := VObj {["size" := VStr size]}]} |}.
Definition demo_manifest : GoldenManifest := {|
  gmConvctlVersion := "dev"; gmPlanHash := "sha256:a"; gmSchemaHash := "sha256:b"; gmResource := "apps"; gmConfig := "apps-config";
  gmHubVersion := "v2" |}.
Definition never_fails (rel : string) : option string := None.
Definition recorded_corpus : corpus :=
  corpus_run never_fails never_fails (newCorpus true {["old/v1-to-v2.yaml" := "stale"]} None) [shown "a.yaml" "big"; shown "b.yaml" "small"]
    demo_manifest.

Lemma golden_replay_is_exact_witness :
  cpDrifts (corpus_run never_fails never_fails (newCorpus false (cpFiles recorded_corpus) (cpManifest recorded_corpus))
              [shown "b.yaml" "small"; shown "a.yaml" "big"] demo_manifest) = [].
Proof.
  apply (golden_replay_is_exact never_fails never_fails {["old/v1-to-v2.yaml" := "stale"]} None
    [shown "a.yaml" "big"; shown "b.yaml" "small"] demo_manifest [shown "b.yaml" "small"; shown "a.yaml" "big"] demo_manifest).
  - by apply (bool_decide_unpack _); vm_compute.
  - by apply (bool_decide_unpack _); vm_compute.
  - done.
  - intros o _. by eexists.
  - by vm_compute.
  - split; [|done]. intros rel data. unfold output. setoid_rewrite elem_of_cons. setoid_rewrite list_elem_of_singleton. naive_solver.
Defined.

(** Two objects of a schema with a required enum, bounded integer and string. *)
Definition counting_rand : RandSource := {|
  rand_state := Z; rand_New seed := seed; rand_Intn s n := (s mod n, s + 1) |}.
#[local] Existing Instance counting_rand.
Definition counting_more : @RandMore counting_rand :=
  @Build_RandMore counting_rand (λ s n, (Z.modulo s n, Z.add s 1)) (λ s, (f64_of_Z 0, Z.add s 1)).
#[local] Existing Instance counting_more.
Lemma counting_laws : @RandLaws counting_rand counting_more.
Proof. split; intros s n Hn; cbn; by apply Z.mod_pos_bound. Qed.
#[local] Existing Instance counting_laws.

Definition fuzz_leaf (type : string) : FuzzSchema := {|
  fzType := type; fzEnum := []; fzDefault := None; fzProperties := ∅; fzRequired := []; fzItems := None; fzMinItems := None;
  fzMaxItems := None; fzMinLength := None; fzMaxLength := None; fzPattern := ""; fzMinimum := None; fzMaximum := None;
  fzPreserve := false |}.
Definition fuzz_object (props : gmap string FuzzSchema) : FuzzSchema := {|
  fzType := "object"; fzEnum := []; fzDefault := None; fzProperties := props; fzRequired := elements (dom props); fzItems := None;
  fzMinItems := None; fzMaxItems := None; fzMinLength := None; fzMaxLength := None; fzPattern := ""; fzMinimum := None;
  fzMaximum := None; fzPreserve := false |}.
Definition fuzz_replicas : FuzzSchema := {|
  fzType := "integer"; fzEnum := []; fzDefault := None; fzProperties := ∅; fzRequired := []; fzItems := None; fzMinItems := None;
  fzMaxItems := None; fzMinLength := None; fzMaxLength := None; fzPattern := ""; fzMinimum := Some (f64_of_Z 1);
  fzMaximum := Some (f64_of_Z 3); fzPreserve := false |}.
Definition fuzz_demo_schema : FuzzSchema :=
  fuzz_object {["spec" := fuzz_object {["size" := fuzz_leaf "string"; "replicas" := fuzz_replicas]}]}.
Definition fuzz_demo (seed : Z) : res fuzz_error (list Sample) :=
  generateFuzzSamples (λ _ _, None) ∅ [({| vsName := "v2"; vsSchema := Some string_field; vsServed := true; vsStorage := true |},
    fuzz_demo_schema)] "v2" "example.com" "App" 2 seed.

Lemma fuzz_object_roomy props : (∀ k p, props !! k = Some p → all_roomy p) → all_roomy (fuzz_object props).
Proof. intros Hp s'. inversion 1 as [|k p ? Hk|]; subst; [by split|by eapply Hp|done]. Qed.
Lemma fuzz_scalar_roomy s : fzProperties s = ∅ → fzItems s = None → roomy s → all_roomy s.
Proof.
  intros Hp Hi Hs s'. inversion 1 as [|k p ? Hk|p ? Hk]; subst; [done| |congruence].
  by rewrite Hp, lookup_empty in Hk.
Qed.
Lemma fuzz_demo_roomy : all_roomy fuzz_demo_schema.
Proof.
  apply fuzz_object_roomy. intros k p [_ <-]%lookup_singleton_Some.
  apply fuzz_object_roomy. intros k' p' [[_ <-]|[_ [_ <-]%lookup_singleton_Some]]%lookup_insert_Some; by apply fuzz_scalar_roomy.
Qed.

Lemma fuzzed_objects_fit_the_schema_witness :
  ∃ samples o, fuzz_demo 7 = Ok samples ∧ saObject <$> samples !! 1%nat = Some (dressed o "example.com/v2" "App" "fuzz-1") ∧
    fits (λ _ _, None) fuzz_demo_schema (VObj o).
Proof.
  assert (∀ f : float64, - 2 ^ 63 <= float64_to_int64_out_of_range f < 2 ^ 63) as H64 by (intros f; cbn; lia).
  pose proof (fuzzed_objects_fit_the_schema (λ _ _, None) ∅ H64
    [({| vsName := "v2"; vsSchema := Some string_field; vsServed := true; vsStorage := true |}, fuzz_demo_schema)]
    "v2" "example.com" "App" 2 7) as H.
  fold (fuzz_demo 7) in H. destruct (fuzz_demo 7) as [samples|e] eqn:E; [|by vm_compute in E].
  destruct H as (_ & Hn & v & schema & Hhub & Hall & _).
  assert (schema = fuzz_demo_schema) as -> by (unfold fuzz_hub in Hhub; cbn [filter list_filter fst vsName] in Hhub; by injection Hhub).
  destruct samples as [|x [|y l]]; [cbn in Hn; lia..|].
  assert ((x :: y :: l) !! 1%nat = Some y) as Hy by done. destruct (Hall 1%nat y Hy) as [_ _ (o & Ho & Hf)].
  exists (x :: y :: l), o. split; [reflexivity|]. split; [rewrite Hy; cbn [fmap option_fmap option_map]; by rewrite Ho|].
  apply Hf; [split; [reflexivity|split; reflexivity]|]. exact fuzz_demo_roomy.
Defined.

(** A field that changed its type, and one that changed its name. *)
Definition ascii_tables : UnicodeTables := {|
  unicode_IsLetter r := between 65 r 90 || between 97 r 122; unicode_IsDigit r := between 48 r 57;
  unicode_ToLower r := if between 65 r 90 then r + 32 else r |}.
#[local] Existing Instance ascii_tables.

