(* ===== verification/Findings.v ===== *)
(** What the model shows where the code or its documentation promise more: each
    lemma evaluates the definitions on one concrete input.  Five sections: the
    engine; the operator around it (rehubbing, sharding, admission of server
    settings, the replica's registry); the config controllers; the command line; its
    gates and tests. *)
From S2P Require Import Prelude Float64 Value Json Duration Path Schema Rules Coerce Passthrough Ops Convert Diagnostics Compile CompileTheory Normalize Platform Required Analyze Assign AssignProperties Api Rehub Registry Adapters Configs Replica ReplicaTheory Encoding ServedTargets Rollout Workloads Patches Guard Propagation Controller ControllerTheory Migrate Sampling Fixtures ConversionProperties ReplicaProperties HandoverProperties ControllerFixtures MigrateProperties RolloutProperties Compat Lifecycle Testing Fuzz Authoring CliProperties.

Section engine.
#[local] Existing Instances canonical_order fixture_externs fixture_compile_externs.

Definition build_plan (rules : list Rule) (hub spoke : JSONSchemaProps) : Plan :=
  let b := resolveAndBuildOps rules hub spoke UnmappedFieldPolicyError 0 in
  {| plHubVersion := "v2"; plSpokeVersion := "v1"; plHubToSpoke := bH2S b; plSpokeToHub := bS2H b |}.

(** Compiled without an error and with a lossless verdict. *)
Definition called_lossless (rules : list Rule) (hub spoke : JSONSchemaProps) : bool :=
  let b := resolveAndBuildOps rules hub spoke UnmappedFieldPolicyError 0 in
  bool_decide (filter (λ d, is_error d = true) (bDiags b) = []) && lossless (bVerdict b).

(** There and back. *)
Definition round_tripped (rules : list Rule) (hub spoke : JSONSchemaProps) (o : obj) : obj :=
  let plan := build_plan rules hub spoke in converted plan SpokeToHub (converted plan HubToSpoke o).

Definition with_metadata (o : obj) : obj := <["metadata" := VObj {["name" := VStr "a"]}]> o.

(** ** The passthrough overwrites a stashed annotation

    When both schemas declare [metadata] with some properties, [metadata.annotations]
    is undeclared, and the passthrough, which runs last, copies the input's
    annotations over the ones the stash operation wrote. *)
Definition metadata_field : JSONSchemaProps := object_schema [] {["name" := string_field]}.
Definition stash_hub : JSONSchemaProps :=
  object_schema [] {["metadata" := metadata_field; "spec" := object_schema [] {["size" := string_field]}]}.
Definition stash_spoke : JSONSchemaProps := object_schema [] {["metadata" := metadata_field]}.
Definition stash_rule : Rule :=
  mkRule StrategyToAnnotation (PToMetadata {| tmHubPath := ["spec"; "size"]; tmKey := "k";
    tmSerialization := "JSON"; tmRestoreOnReverse := true |}) false "" 0 None.
Definition annotated : obj :=
  {["metadata" := VObj {["name" := VStr "a"; "annotations" := VObj {["x" := VStr "y"]}]};
    "spec" := VObj {["size" := VStr "big"]}]}.

Lemma passthrough_loses_stash :
  called_lossless [stash_rule] stash_hub stash_spoke = true ∧
  getValue annotated ["spec"; "size"] = Some (VStr "big") ∧
  getValue (round_tripped [stash_rule] stash_hub stash_spoke annotated) ["spec"; "size"] = None.
Proof. by vm_compute. Qed.

(** ** The required-field check

    A set of rules accepted by both checks, and its conversion to the spoke. *)
Definition accepted (rules : list Rule) (policy : UnmappedFieldPolicy) (hub spoke : JSONSchemaProps) : bool :=
  let b := resolveAndBuildOps rules hub spoke policy 0 in
  bool_decide (filter (λ d, is_error d = true) (bDiags b) = []) &&
  bool_decide (analyzeRequiredFields spoke hub rules (bResults b) "spoke" = []).
Definition spec_of (required : list string) (size : JSONSchemaProps) : JSONSchemaProps :=
  object_schema required {["size" := size; "note" := string_field]}.

(** An object no rule writes into is taken to be absent, though the fields copied as
    they are create it: [spec.note], which only the spoke requires, is not checked. *)
Lemma copied_object_is_not_checked :
  let hub := object_schema [] {["spec" := spec_of [] string_field]} in
  let spoke := object_schema [] {["spec" := spec_of ["note"] string_field]} in
  let o := with_metadata {["spec" := VObj {["size" := VStr "big"]}]} in
  accepted [] UnmappedFieldPolicyError hub spoke = true ∧
  converted (build_plan [] hub spoke) HubToSpoke o = o.
Proof. by vm_compute. Qed.

(** A source field counts as present when the object it is in requires it, whether or
    not that object is there. *)
Lemma absent_parent_is_not_seen :
  let hub := object_schema [] {["spec" := spec_of ["size"] string_field]} in
  let spoke := object_schema ["spec"] {["spec" := spec_of ["size"] string_field]} in
  accepted [] UnmappedFieldPolicyError hub spoke = true ∧
  converted (build_plan [] hub spoke) HubToSpoke (with_metadata ∅) = with_metadata ∅.
Proof. by vm_compute. Qed.

(** Under [Warn] a required field of one name and two types is not copied, and the
    check takes it for copied. *)
Lemma retyped_field_is_not_seen :
  let hub := object_schema ["spec"] {["spec" := spec_of ["size"] string_field]} in
  let spoke := object_schema ["spec"] {["spec" := spec_of ["size"] integer_field]} in
  let b := resolveAndBuildOps [] hub spoke UnmappedFieldPolicyWarn 0 in
  let plan := {| plHubVersion := "v2"; plSpokeVersion := "v1"; plHubToSpoke := bH2S b; plSpokeToHub := bS2H b |} in
  accepted [] UnmappedFieldPolicyWarn hub spoke = true ∧
  converted plan HubToSpoke (with_metadata {["spec" := VObj {["size" := VStr "big"; "note" := VStr "n"]}]}) =
    with_metadata {["spec" := VObj {["note" := VStr "n"]}]}.
Proof. by vm_compute. Qed.

(** ** Undeclared fields of list elements are dropped

    Inside [forEach] the element's own keys are the top level of the nested
    conversion, which the passthrough leaves to [Convert]. *)
Definition items_schema : JSONSchemaProps :=
  object_schema [] {["items" := array_schema (object_schema [] {["name" := string_field]})]}.
Definition items_rule : Rule := mkRule StrategyForEach (PForEach ["items"] ["items"] []) false "" 0 None.
Definition item (o : obj) : obj := with_metadata {["items" := VArr [VObj o]]}.

Lemma forEach_drops_undeclared_element_fields :
  called_lossless [items_rule] items_schema items_schema = true ∧
  round_tripped [items_rule] items_schema items_schema (item {["name" := VStr "x"; "extra" := VBool true]}) =
    item {["name" := VStr "x"]}.
Proof. by vm_compute. Qed.

(** ** A list holding one empty string comes back empty *)
Definition list_hub : JSONSchemaProps := object_schema [] {["l" := array_schema string_field]}.
Definition list_spoke : JSONSchemaProps := object_schema [] {["s" := string_field]}.
Definition join_rule : Rule :=
  mkRule StrategyListJoin (PListJoin {| ljHubPath := ["l"]; ljSpokePath := ["s"]; ljSeparator := "," |}) false "" 0 None.

Lemma list_join_loses_empty_string :
  called_lossless [join_rule] list_hub list_spoke = true ∧
  round_tripped [join_rule] list_hub list_spoke (with_metadata {["l" := VArr [VStr ""]]}) =
    with_metadata {["l" := VArr []]}.
Proof. by vm_compute. Qed.

(** ** A key that equals a new name comes back renamed *)
Definition key_hub : JSONSchemaProps := object_schema [] {["m" := map_schema]}.
Definition key_rule : Rule :=
  mkRule StrategyMapKeyRename (PMapKeyRename {| mrHubPath := ["m"]; mrSpokePath := ["m"];
    mrRenames := {["old" := "new"]} |}) false "" 0 None.

Lemma map_key_rename_captures_key :
  called_lossless [key_rule] key_hub key_hub = true ∧
  round_tripped [key_rule] key_hub key_hub (with_metadata {["m" := VObj {["new" := VStr "v"]}]}) =
    with_metadata {["m" := VObj {["old" := VStr "v"]}]}.
Proof. by vm_compute. Qed.

(** ** Scaling a number there and back is not exact *)
Definition number_hub : JSONSchemaProps := object_schema [] {["n" := scalar_schema "number"]}.
Definition scale_rule : Rule :=
  mkRule StrategyNumericScale (PNumericScale {| nsHubPath := ["n"]; nsSpokePath := ["n"];
    nsFactor := f64_of_Z 49 |}) false "" 0 None.

Lemma numeric_scale_inexact :
  called_lossless [scale_rule] number_hub number_hub = true ∧
  getValue (round_tripped [scale_rule] number_hub number_hub (with_metadata {["n" := VFloat (f64_of_Z 1)]})) ["n"] ≠
    Some (VFloat (f64_of_Z 1)).
Proof. by vm_compute. Qed.

(** ** Two leaves with one text

    A property named [a.b] and a property [b] inside [a] have the same path text; the
    scan copies one of them and takes the other for covered. *)
Definition dotted_schema : JSONSchemaProps :=
  object_schema [] {["a.b" := string_field; "a" := object_schema [] {["b" := string_field]}]}.
Definition dotted : obj := with_metadata {["a.b" := VStr "x"; "a" := VObj {["b" := VStr "y"]}]}.

Lemma dotted_property_dropped :
  called_lossless [] dotted_schema dotted_schema = true ∧
  ∃ p, p ∈ lfPath <$> flattenSchema dotted_schema ∧ is_Some (getValue dotted p) ∧
    getValue (converted (build_plan [] dotted_schema dotted_schema) HubToSpoke dotted) p = None.
Proof.
  split; [by vm_compute|].
  set (o := converted _ _ _).
  destruct (getValue o ["a.b"]) as [v|] eqn:H1; [exists ["a"; "b"]|exists ["a.b"]].
  all: split_and!; [vm_compute; repeat constructor|by eexists|].
  - by vm_compute.
  - done.
Qed.

End engine.

Section operator.
#[local] Existing Instances canonical_order fixture_externs fixture_compile_externs demo_serving_config
  portable_log fixture_unstructured.

(** ** Rehubbing *)

(** The engine rules of API rules, and of their inverses. *)
Definition engine_rules (rules : list ConversionRule) : list Rule :=
  match convertRules rules with Ok rs => rs | Err _ => [] end.
Definition inverted (rules : list ConversionRule) : list Rule :=
  match InvertRules rules with Ok inv => engine_rules inv | Err _ => [] end.

(** The old hub's object converted to the promoted version, before and after. *)
Definition before_rehub (rules : list ConversionRule) (hub spoke : JSONSchemaProps) (o : obj) : obj :=
  converted (build_plan (engine_rules rules) hub spoke) HubToSpoke o.
Definition after_rehub (rules : list ConversionRule) (hub spoke : JSONSchemaProps) (o : obj) : obj :=
  converted (build_plan (inverted rules) spoke hub) SpokeToHub o.

Definition scale_api_rule : ConversionRule :=
  rule_of (PtrNumericScale {| ansHubPath := "n"; ansSpokePath := "n"; ansFactor := f64_of_Z 1000 |}) false "" None.
Definition number_object (z : Z) : obj := with_metadata {["n" := VFloat (f64_of_Z z)]}.

(** The inverse keeps the factor: what was divided by 1000 is multiplied by it. *)
Lemma rehub_scales_the_wrong_way :
  getValue (before_rehub [scale_api_rule] number_hub number_hub (number_object 2000)) ["n"] = Some (VFloat (f64_of_Z 2)) ∧
  getValue (after_rehub [scale_api_rule] number_hub number_hub (number_object 2000)) ["n"] = Some (VFloat (f64_of_Z 2000000)).
Proof. by vm_compute. Qed.

(** A hub field kept as an annotation of the spoke and not restored: afterwards the
    annotation is not written any more. *)
Definition stash_api_rule : ConversionRule :=
  rule_of (PtrToAnnotation {| atmHubPath := "size"; atmKey := "k"; atmSerialization := "String";
                              atmRestoreOnReverse := false |}) true "kept for people to read" None.
Definition size_hub : JSONSchemaProps := object_schema [] {["size" := string_field]}.
Definition no_fields : JSONSchemaProps := object_schema [] ∅.

Lemma rehub_stops_stashing :
  let o := with_metadata {["size" := VStr "big"]} in
  getValue (before_rehub [stash_api_rule] size_hub no_fields o) ["metadata"; "annotations"; "k"] = Some (VStr "big") ∧
  getValue (after_rehub [stash_api_rule] size_hub no_fields o) ["metadata"; "annotations"; "k"] = None.
Proof. by vm_compute. Qed.

(** A label written with the default serialisation is JSON, one read with it is a
    plain string. *)
Definition label_api_rule : ConversionRule :=
  rule_of (PtrToLabel {| atmHubPath := "size"; atmKey := "k"; atmSerialization := "";
                         atmRestoreOnReverse := true |}) false "" None.
Lemma rehub_changes_label_text :
  let text := default "" (json_Marshal (VStr "big")) in
  let o := with_metadata {["size" := VStr "big"]} in
  getValue (before_rehub [label_api_rule] size_hub no_fields o) ["metadata"; "labels"; "k"] = Some (VStr text) ∧
  getValue (after_rehub [label_api_rule] size_hub no_fields o) ["metadata"; "labels"; "k"] = Some (VStr "big").
Proof. by vm_compute. Qed.

(** ** Sharding: a key whose uniform number rounds to one has no owner *)

Lemma unlucky_key_has_no_server :
  ResolveAssignment (demo_config_of "qzl9io3d92s.example.org") [sharded "default"] = Ok "".
Proof. by vm_compute. Qed.

(** ** Admission *)

(** [flag] accepts one dash for two. *)
Lemma single_dash_overrides_managed_flag :
  let args := ["-webhook-server-name=other"] in
  ValidateWebhookServerExtraArgs args = Ok () ∧
  Parse (λ name, if bool_decide (name = "webhook-server-name") then Some false else None) args =
    Ok [("webhook-server-name", "other")].
Proof. by vm_compute. Qed.

Lemma single_dash_timeout_is_not_seen :
  let args := ["-shutdown-timeout=120s"] in
  ValidateWebhookServerRollout None args = Ok () ∧
  Parse (λ name, if bool_decide (name = "shutdown-timeout") then Some false else None) args =
    Ok [("shutdown-timeout", "120s")].
Proof. by vm_compute. Qed.

(** A value after a boolean flag ends [flag]'s parsing, and admission reads on: the
    process keeps the timeout of 30 seconds, and the grace period is 10. *)
Lemma value_after_bool_hides_timeout :
  let args := ["--zap-devel"; "true"; "--shutdown-timeout=1s"] in
  ValidateWebhookServerRollout (Some {| roPreStopSleepSeconds := None; roTerminationGracePeriodSeconds := Some 10%Z;
    roMaxUnavailable := None; roMaxSurge := None; roDefaultTopologySpread := None |}) args = Ok () ∧
  Parse demo_flags args = Ok [("zap-devel", "true")] ∧
  timeout_set DefaultWebhookServerShutdownTimeout [("zap-devel", "true")] = Some (30 * Second)%Z.
Proof. by vm_compute. Qed.

(** A timeout of 292 years wraps around and passes. *)
Lemma huge_timeout_is_accepted : ValidateWebhookServerRollout None ["--shutdown-timeout=9223372036s"] = Ok ().
Proof. by vm_compute. Qed.

(** ** The replica: a config moved to another target leaves the old entry behind *)

Definition retargeted_config : CRDConversionConfig := {|
  kcMeta := {| omName := "apps-config"; omDeleting := false; omGeneration := 2;
    omFinalizers := []; omAnnotations := ∅ |};
  kcSpec := {| csTargetCRD := "jobs"; csHubVersion := "v2"; csSpokes := []; csWebhookServerRef := None;
    csConversionReviewVersions := []; csUnmappedFieldPolicy := ""; csUnmappedFieldReason := ""; csDriftPolicy := "" |};
  kcStatus := new_status |}.
Definition retarget : work := WorkCRD "apps-config" {|
  vwConfig := Found retargeted_config; vwServers := Ok [main_server]; vwTarget := NotFound; vwNow := 3 |}.
Definition deletion : work := WorkCRD "apps-config" {|
  vwConfig := NotFound; vwServers := Ok [main_server]; vwTarget := NotFound; vwNow := 4 |}.

Lemma retargeted_entry_stays :
  is_Some (rpRegistry (foldl demo_run synced [retarget; deletion]) !! "apps") ∧
  rpConfigToTarget (foldl demo_run synced [retarget; deletion]) = ∅.
Proof. split; [|by vm_compute]. vm_compute. by eexists. Qed.

End operator.

Section controllers.
#[local] Open Scope Z_scope.

#[local] Existing Instances canonical_order fixture_externs fixture_compile_externs fixture_unstructured
  fixture_edits listed_conditions stored.
#[local] Instance portable_log : MathLog := go_log.

Definition is_apply (e : event) : bool := match e with Applies _ => true | _ => false end.
Definition applies (es : list event) : list event := filter (λ e, is_apply e = true) es.
Definition status_after (es : list event) : ConversionConfigStatus :=
  match last es with Some (PatchesStatus st) => st | _ => new_status end.

(** The config's rules no longer cover the schema. *)
Definition drifted (deleting : bool) (st : ConversionConfigStatus) : CRDConversionConfig :=
  config_with deleting ∅ "FailClosed" [] st.
(** One served version, so that deletion is not blocked; and the hub version gone. *)
Definition single_version (t : CustomResourceDefinition) : CustomResourceDefinition := {|
  crdName := crdName t; crdGeneration := crdGeneration t; crdVersions := take 1 (crdVersions t);
  crdConversion := crdConversion t; crdConditions := crdConditions t |}.
Definition without_hub (t : CustomResourceDefinition) : CustomResourceDefinition := {|
  crdName := crdName t; crdGeneration := crdGeneration t; crdVersions := drop 1 (crdVersions t);
  crdConversion := crdConversion t; crdConditions := crdConditions t |}.
Definition cluster (cfg : CRDConversionConfig) (target : CustomResourceDefinition) (servers : list ConversionWebhookServer)
    (ready : bool) (apply_error : option string) : world CRDConversionConfig CustomResourceDefinition := {|
  wdConfig := Found cfg; wdTarget := Found target; wdServers := Ok servers;
  wdServer _ := Found {| siServer := main_server; siNamespace := "system"; siPort := 0;
                         siReadyReplicas := if ready then 2 else 0; siConditions := ready_conditions |};
  wdLeases _ _ := Ok []; wdSecret _ _ := Found {["ca.crt" := "a bundle"]};
  wdRevertTarget := Found target; wdFreshTarget := Found target; wdCRD _ := NotFound;
  wdApply := apply_error; wdPatchStatus := None; wdPatchFinalizers := None; wdLeaseClock := 50; wdNow := 50 |}.

(** ** FailClosed *)

(** Applied, drift is reverted. *)
Example fail_closed_reverts :
  applies (demo_reconcile (cluster (drifted false applied_crd_status) (served_by "main") [main_server] true None)).1 =
    [Applies (AppliedCRD (BuildCRDRevertPatch "apps"))].
Proof. vm_compute. reflexivity. Qed.

(** Stale, because the server was not ready in the pass before, it is not. *)
Definition waiting_status : ConversionConfigStatus :=
  status_after (demo_reconcile (cluster (config_with false ∅ "FailClosed" [size_renamed] applied_crd_status)
    (served_by "main") [main_server] false None)).1.
Lemma stale_fail_closed_keeps_serving :
  let es := (demo_reconcile (cluster (drifted false waiting_status) (served_by "main") [main_server] true None)).1 in
  stPhase waiting_status = PhaseStale ∧ applies es = [] ∧
  stPhase (status_after es) = PhaseStale ∧ stMessage (status_after es) = drift_message (CK := crd_controller).
Proof. vm_compute. auto. Qed.

(** ** A revert that failed *)

(** The API server refuses the revert: Failed, to be tried again. *)
Definition unreverted_status : ConversionConfigStatus :=
  status_after (demo_reconcile (cluster (drifted false applied_crd_status) (served_by "main") [main_server] true
    (Some "conflict"))).1.
Example revert_is_retried :
  stPhase unreverted_status = PhaseFailed ∧
  applies (demo_reconcile (cluster (drifted false unreverted_status) (served_by "main") [main_server] true None)).1 =
    [Applies (AppliedCRD (BuildCRDRevertPatch "apps"))].
Proof. vm_compute. auto. Qed.

(** Deleted meanwhile, the config disappears and the target keeps the webhook. *)
Lemma deletion_forgets_failed_revert :
  (demo_reconcile (cluster (drifted true unreverted_status) (single_version (served_by "main")) [main_server] true None)) =
    ([PatchesFinalizers []], Ok 0).
Proof. vm_compute. reflexivity. Qed.

(** A pass that finds the hub version gone in between also forgets it. *)
Definition forgotten_status : ConversionConfigStatus :=
  status_after (demo_reconcile (cluster (drifted false unreverted_status) (without_hub (served_by "main"))
    [main_server] true None)).1.
Lemma invalid_forgets_failed_revert :
  stPhase forgotten_status = PhaseInvalid ∧
  applies (demo_reconcile (cluster (drifted false forgotten_status) (served_by "main") [main_server] true None)).1 = [].
Proof. vm_compute. auto. Qed.

(** The hub version gone is drift too, and FailClosed does not revert it. *)
Lemma fail_closed_keeps_serving_without_hub :
  let es := (demo_reconcile (cluster (drifted false applied_crd_status) (without_hub (served_by "main")) [main_server] true None)).1 in
  stPhase (status_after es) = PhaseStale ∧ applies es = [].
Proof. vm_compute. auto. Qed.

End controllers.

Section command_line.
#[local] Open Scope Z_scope.
#[local] Existing Instances fixture_unstructured stuck_rand.

(** An XRD of namespaced composites. *)
Definition namespaced_xrd : obj := {[
  "apiVersion" := VStr "apiextensions.crossplane.io/v2"; "metadata" := VObj {["name" := VStr "apps.example.com"]};
  "spec" := VObj {[ "group" := VStr "example.com"; "scope" := VStr "Namespaced";
    "names" := VObj {["plural" := VStr "apps"; "kind" := VStr "App"]};
    "versions" := VArr [VObj {["name" := VStr "v2"; "referenceable" := VBool true]}] ]} ]}.

(** The generated CRD is namespaced, and asking for one namespace lists them all. *)
Example live_namespace_is_ignored :
  xrdadapter.gcNamespaced <$> (match xrdadapter.GeneratedCRDNames (Some namespaced_xrd) with Ok gs => gs | Err _ => [] end) = [true] ∧
  FetchLiveSamplesSampled (λ _ ns, LastPage (if bool_decide (ns = "team-a") then [dated_sample "1"] else [dated_sample "1"; dated_sample "2"]))
    namespaced_xrd {| soMaxSamples := 0; soStrategy := ""; soSeed := 0 |} "team-a" =
  Ok ([(dated_sample "1").1; (dated_sample "2").1], None).
Proof. by vm_compute. Qed.

(** As many objects as the cap: all were tested, and the report denies it. *)
Example complete_run_is_reported_truncated :
  (sampler_result <$> stream_all (newSampler {| soMaxSamples := 2; soStrategy := ""; soSeed := 0 |}) [LastPage [dated_sample "1"; dated_sample "2"]]) =
  Ok ([(dated_sample "1").1; (dated_sample "2").1],
      Some {| spStrategy := "first"; spCap := 2; spPopulation := 0; spTruncated := true; spTested := 2; spSeed := 0 |}).
Proof. by vm_compute. Qed.

(** An XRD that offers claims; the claims cannot be listed. *)
Definition claim_offering_xrd : obj := {[
  "apiVersion" := VStr "apiextensions.crossplane.io/v1"; "metadata" := VObj {["name" := VStr "xapps.example.com"]};
  "spec" := VObj {[ "group" := VStr "example.com"; "names" := VObj {["plural" := VStr "xapps"; "kind" := VStr "XApp"]};
    "claimNames" := VObj {["plural" := VStr "apps"; "kind" := VStr "App"]};
    "versions" := VArr [VObj {["name" := VStr "v2"; "referenceable" := VBool true]}] ]} ]}.
Definition claims_unlisted : migrate_world := {|
  mwXRD _ := Ok claim_offering_xrd;
  mwCRD name := Ok {| lcName := name; lcGroup := "example.com"; lcPlural := ""; lcKind := ""; lcNamespaced := bool_decide (name = "apps.example.com");
                      lcVersions := [("v2", true)]; lcStoredVersions := ["v1"; "v2"] |};
  mwList gvr _ := if bool_decide (gvr = ("example.com", "v2", "apps")) then ListFails "forbidden"
                  else LastPage [{| loName := "one"; loNamespace := "" |}];
  mwApply _ := None; mwPruneGet _ := None; mwPruneSet _ := None; mwPruneUpdate _ _ := None |}.

(** The composite was rewritten, and there is no report of it. *)
Example failed_listing_loses_the_report :
  let '(es, r) := RunMigrateStorage claims_unlisted
    {| moXRDName := "xapps.example.com"; moCRDName := ""; moNamespace := ""; moDryRun := false; moConcurrency := 1;
       moFieldManager := ""; moPruneStoredVersions := false |} in
  length es = 1%nat ∧ r = Err (ErrListing "example.com" "v2" "apps" "forbidden").
Proof. by vm_compute. Qed.

End command_line.

Section gates.
#[local] Open Scope Z_scope.
#[local] Existing Instances canonical_order fixture_externs fixture_compile_externs fixture_unstructured printed.

(** A CRD whose versions both hold a number; the rule between them scales it. *)
Definition scaled_crd : CustomResourceDefinition := {|
  crdName := "apps"; crdGeneration := 1;
  crdVersions := [ {| cvName := "v2"; cvServed := true; cvStorage := true; cvSchema := Some (Some number_hub) |};
                   {| cvName := "v1"; cvServed := true; cvStorage := false; cvSchema := Some (Some number_hub) |} ];
  crdConversion := None; crdConditions := [] |}.
Definition scaled_by (factor : Z) : ConversionRule :=
  rule_of (PtrNumericScale {| ansHubPath := "n"; ansSpokePath := "n"; ansFactor := f64_of_Z factor |}) false "" None.
Definition factor_at (ref : string) : Z := if bool_decide (ref = "main") then 1000 else 60.
Definition scaled_files (ref path : string) : res string (CRDConversionConfig + CustomResourceDefinition) :=
  if bool_decide (path = "config.yaml") then Ok (inl (demo_crd_config [scaled_by (factor_at ref)])) else Ok (inr scaled_crd).

(** Every object converts to another number, and the gate reports no difference. *)
Example compat_misses_a_changed_factor :
  (crChanges <$> compare_files scaled_files []) = Ok [] ∧
  getValue (before_rehub [scaled_by (factor_at "main")] number_hub number_hub (number_object 6000)) ["n"] = Some (VFloat (f64_of_Z 6)) ∧
  getValue (before_rehub [scaled_by (factor_at "HEAD")] number_hub number_hub (number_object 6000)) ["n"] = Some (VFloat (f64_of_Z 100)).
Proof. by vm_compute. Qed.

(** The plan shows the retirement of the hub it replaces; once the hub has moved, it has
    no step left, and the old version is still served. *)
Definition hub_moves (hub : string) : planState := {|
  stName := "apps"; stKind := "CRD"; stHub := hub;
  stVersions := [{| pvName := "v1"; pvServed := true; pvReferenceable := bool_decide (hub = "v1"); pvDeprecated := false |};
                 {| pvName := "v2"; pvServed := true; pvReferenceable := bool_decide (hub = "v2"); pvDeprecated := false |}];
  stConfigName := "apps"; stSpokes := {["v2"]}; stConfigHub := hub; stHasConfig := true; stPackaged := false; stNative := true |}.
Example replaced_hub_is_not_retired :
  ("Stop serving v1" ∈ psTitle <$> buildSteps (hub_moves "v1") "v2" true) ∧
  psTitle <$> NextStep (plan_report (hub_moves "v2") "v2" true) = None ∧
  (pvServed <$> versionByName (stVersions (hub_moves "v2")) "v1") = Some true ∧
  ("Stop serving v1" ∉ psTitle <$> buildSteps (hub_moves "v2") "v2" true).
Proof. split_and!; by apply (bool_decide_unpack _); vm_compute. Qed.

(** Deleting the first of two rules moves the second to its index: the rule is gone, and
    the gate reports only its paths, so [--allow CoverageLost] lets the edit through. *)
Definition ruled (rules : list (Z * string)) : analysisAt := {|
  aaHub := "v2"; aaVersions := [];
  aaReport := {| arResourceGeneration := 1; arSpokeReports := [{|
    srVersion := "v1"; srLossless := lossless_both; srUncovered := {| fcUncoveredHub := []; fcUncoveredSpoke := [] |};
    srRuleResults := (λ '(i, p), {| rrIndex := i; rrStrategy := StrategyFieldRename; rrHubPaths := [p]; rrSpokePaths := [p];
                                    rrLossless := lossless_both; rrErrors := []; rrWarnings := [] |}) <$> rules;
    srErrors := []; srWarnings := []; srCompiledPlan := None |}] |} |}.
Example deleted_first_rule_is_not_removed :
  list_to_set (ccClass <$> classify (λ s, s) (ruled [(0, "spec.a"); (1, "spec.b")]) (ruled [(0, "spec.b")])) =@{gset string}
    {[ClassCoverageLost]} ∧
  list_to_set (ccClass <$> classify (λ s, s) (ruled [(0, "spec.a"); (1, "spec.b")]) (ruled [(0, "spec.a")])) =@{gset string}
    {[ClassCoverageLost; ClassRuleRemoved]}.
Proof. split; by apply (bool_decide_unpack _); vm_compute. Qed.

(** Neighbouring integers above 2^53 are one float64. *)
Example changed_integer_passes :
  diffLeaves {["n" := VInt Int64 9007199254740992]} {["n" := VInt Int64 9007199254740993]} = [] ∧
  jsonValuesEqual (VInt Int64 9007199254740992) (VInt Int64 9007199254740993) = false.
Proof. by vm_compute. Qed.

(** Two documents of one file have one corpus path: the second overwrites the first. *)
Example documents_share_a_golden :
  let os := [shown "apps.yaml" "big"; shown "apps.yaml" "small"] in
  let recorded := corpus_run never_fails never_fails (newCorpus true ∅ None) os demo_manifest in
  cpDrifts recorded = [] ∧ size (cpFiles recorded) = 1%nat ∧
  gdKind <$> cpDrifts (corpus_run never_fails never_fails (newCorpus false (cpFiles recorded) (cpManifest recorded)) os demo_manifest) =
    ["changed"].
Proof. by vm_compute. Qed.

#[local] Existing Instances counting_rand counting_more.
(** A scalar of a type with bounds. *)
Definition bounded_leaf (type : string) (minimum maximum : option Z) (maxLength : option Z) : FuzzSchema := {|
  fzType := type; fzEnum := []; fzDefault := None; fzProperties := ∅; fzRequired := []; fzItems := None; fzMinItems := None;
  fzMaxItems := None; fzMinLength := None; fzMaxLength := maxLength; fzPattern := ""; fzMinimum := f64_of_Z <$> minimum;
  fzMaximum := f64_of_Z <$> maximum; fzPreserve := false |}.
Definition fuzzed (s : FuzzSchema) (seed : Z) : option (option value) :=
  fst <$> value_at (λ _ _, None) ∅ fuzz_levels [] s {| gnRnd := rand_New seed; gnUnconstructible := [] |}.

(** A number of at most -1 is generated as 0, a string of no characters with one. *)
Example fuzzer_exceeds_the_maximum :
  (fuzzed (bounded_leaf "number" None (Some (-1)) None) <$> [0; 1; 2]) = replicate 3 (Some (Some (VFloat (f64_of_Z 0)))) ∧
  fuzzed (bounded_leaf "string" None None (Some 0)) 0 = Some (Some (VStr "b")).
Proof. by vm_compute. Qed.

(** An integer between -5e18 and 5e18: the draw panics. *)
Example wide_integer_panics :
  fuzzed (bounded_leaf "integer" (Some (-5000000000000000000)) (Some 5000000000000000000) None) 2 = None.
Proof. by vm_compute. Qed.

(** The hub's [x] became a string in the spoke, where a rule writes [y] already: the
    proposed coercion of [x] makes the config fail. *)
#[local] Existing Instance ascii_tables.
Definition retyped_crd : CustomResourceDefinition := {|
  crdName := "apps"; crdGeneration := 1;
  crdVersions := [ {| cvName := "v2"; cvServed := true; cvStorage := true;
                      cvSchema := Some (Some (object_schema [] {["x" := integer_field; "y" := string_field]})) |};
                   {| cvName := "v1"; cvServed := true; cvStorage := false;
                      cvSchema := Some (Some (object_schema [] {["x" := string_field]})) |} ];
  crdConversion := None; crdConditions := [] |}.
Definition y_to_x : ConversionRule :=
  rule_of (PtrFieldRename {| afrHubPath := "y"; afrSpokePath := "x" |}) false "" None.
Definition claimed_twice (rules : list ConversionRule) : res run_error bool :=
  (λ out, existsb (λ sr, existsb (λ d, match dMessage d with MsgRule _ _ (MAlreadyClaimed _ _) => true | _ => false end) (srErrors sr))
            (arSpokeReports out.1)) <$> runAnalyze (TK := crd_kind) 5 retyped_crd (demo_crd_config rules).
Example suggestion_is_rejected :
  suggest_for 5 (TK := crd_kind) retyped_crd (demo_crd_config [y_to_x]) = Ok [{| svVersion := "v1"; svRules := [coerce_stub "x"] |}] ∧
  claimed_twice [y_to_x] = Ok false ∧ claimed_twice [y_to_x; coerce_stub "x"] = Ok true.
Proof. by vm_compute. Qed.
End gates.
